(* ===== verification/_CoqProject ===== *)
-Q . S2P
Prelude.v
GoLib.v
Strconv.v
Strings.v
Atomic.v
Circuit.v
Udp.v
Attribute.v
Metric.v
DogStatsD.v
DogStatsDParse.v
Cardinality.v
Config.v
Options.v
Exporter.v
Fanout.v
Buffer.v
Datadog.v
RateLimiter.v
Pipeline.v
Backends.v
PipelineInv.v
PipelineSafe.v
PipelineFlush.v
Ring.v
RingMPMC.v
Expo.v
ExpoSpec.v
ExpoCorrect.v
Otlp.v
OtlpCorrect.v
OtlpExpo.v
OtlpClash.v
Client.v
ClientSafe.v
Prom.v
PromCorrect.v
Transport.v
Netlink.v
Procfs.v
ProcfsCorrect.v
Runtime.v
RuntimeCorrect.v
Books.v
Netstats.v
NetstatsCorrect.v
Httpstats.v
HttpstatsCorrect.v
Report.v
ReportCorrect.v
Typestate.v
Bridge.v
BridgeCorrect.v
