(* ===== verification/Prelude.v ===== *)
(** * Verification of the convoy stats library

    The library records metrics and ships them to backends.  A producer calls the
    client; the pipeline admits the observation (rate limiter, cardinality limiter,
    memory limit) and pushes it into a lock-free ring; workers pop batches and hand
    them to every exporter; Flush and Shutdown make the workers drain.  An exporter
    serializes a batch and sends it: the datagram exporters through a circuit breaker
    and a connection pool, the buffering exporter to a writer.

    ** Parts, files and sources

    - [Prelude]: machine integers, tactics, list lemmas.  [GoLib]: strings as bytes,
      time, IEEE floats (the Standard Library's SpecFloat), errors with Is and Join.
      [Strconv]: decimal integers and floats as strconv and fmt print and read them.
    - [Atomic]: methods as trees of atomic actions, their interleavings, and the proof
      principle used for every concurrent part.
    - [Ring], [RingMPMC]: transport/buffer.go, run by one goroutine and by any number.
    - [Circuit]: transport/circuit.go.  [Udp]: transport/udp.go.
    - [Attribute], [Metric]: models/metric.go; the OpenTelemetry attribute library is
      the class [Attributes], with an instance.
    - [Cardinality]: cardinality.go.  [RateLimiter]: ratelimit.go.
    - [Pipeline]: pipeline.go, drain.go, and admitAndEnqueue of cardinality.go;
      [PipelineInv], [PipelineSafe], [PipelineFlush] hold its invariants and theorems.
    - [DogStatsD]: serializers/dogstatsd.go, dogstatsd_event.go and statsd.go.
      [DogStatsDParse]: statstest/dogstatsd_parse.go and dogstatsd_format.go.
    - [Config]: models/config.go, models/otlp_config.go, config.go.
    - [Exporter]: exporters/exporter.go.  [Datadog]: packetize of
      exporters/datadog/exporter.go.  [Backends]: the Datadog, CloudWatch and
      Prometheus exporters and newExporters of pipeline_init.go.
    - [Fanout]: exporters/multi.go and filtered.go.  [Buffer]: exporters/buffer.go.
    - [Expo]: exporters/otlp/exponential.go and exponential_merge.go; [ExpoSpec] says what
      a state of buckets holds, [ExpoCorrect] has the reference histogram and the theorems.
    - [Otlp]: exporters/otlp/exporter.go, histogram.go, exemplar.go, accumulator.go and
      reexport.go; [OtlpCorrect] has runs of exports and the theorems about counters,
      [OtlpExpo] that about exponential histograms, [OtlpClash] that about a series used
      for two kinds.  [Transport]: exporters/otlp/resource.go, tls.go and transport.go.
    - [Strings]: helpers of package strings.  [Options]: options.go, env_otlp.go.
    - [Client]: client.go, client_lifecycle.go, client_event.go, context_tags.go, clock.go,
      observe.go, noop.go, version_metrics.go, version/version.go, over the class
      [Pipelines] of what a client expects of a pipeline; [ClientSafe] has the theorems.
    - [Prom]: exporters/prometheus/exposition.go, exposition_registry.go, exposition_write.go,
      store.go and handler.go, and prometheus_handler.go; [PromCorrect] has the theorems.
    - [Netlink]: runtimemetrics/taskstats_parse.go, taskstats_genl.go, taskstats_linux.go
      and delay.go.  [Procfs]: runtimemetrics/procfs, procinfo.go, procinfo_procfs.go and
      cpucount.go; [ProcfsCorrect] has the theorems.  [Runtime]: runtimemetrics/collector.go,
      memstats.go, process.go, process_cpu.go, process_linux.go, delay_collect.go and
      multi.go; [RuntimeCorrect] has the theorems about runs of collections.
    - [Books]: accounting on interleaved programs, used for the instrumentation.
      [Netstats]: the package netstats; [NetstatsCorrect] has the theorems.  [Httpstats]:
      the package httpstats and iostats/io.go; [HttpstatsCorrect] has the theorems.
    - [Report]: report.go, report_plan.go and report_metrics.go; [ReportCorrect] has the
      direct walk that reports are compared with, and the theorems.
    - [Typestate]: protocols of goroutines, used for the bridge.  [Bridge]: the package otel
      (the provider, meters, instruments, callbacks and clocks of the OpenTelemetry API);
      [BridgeCorrect] has the theorems.

    A struct is a record, an enumeration an inductive type, an [int] or a sized integer
    a [Z] wrapped to its width, a map a [gmap], a string a list of bytes.  Sequential
    code is a function; a method that other goroutines may run at the same time is a
    tree of atomic actions (atomic loads and compare-and-swaps, lock sections, channel
    operations), and theorems about it quantify over every interleaving, the clock and
    the ends of contexts included.  An error is a value, a panic a result of its own.

    ** What is shown

    - The pipeline: memory stays within its limit and observations are conserved,
      nothing is lost or exported twice ([pipeline_conserves]); Flush is a barrier
      ([flush_barrier]), except when the context ends during a drain
      ([flush_nil_after_cancel]).
    - The ring refines a bounded queue under every interleaving, hands each item out
      once, and its operations return when run alone from any state
      ([mpmc_refines_queue] and the other theorems of [RingMPMC] and [Ring]).
    - Admission never exceeds the cardinality limit, and the drop counters, pending and
      collected, are the labels lost and the observations refused ([limiter_correct]); tags
      are validated, truncated and made canonical.
    - The breaker is the documented machine and its counters are exact; the pool never
      lends a connection twice nor leaks one, though a Send that waits during Close can
      panic ([Circuit], [Udp], [send_during_close_panics]).
    - A datagram exporter's books balance ([exporter_accounting]); its breaker opens for
      ten nanoseconds ([breaker_window]).
    - What is serialized is read back: metrics through packing and datagrams
      ([datadog_delivers]), events ([event_roundtrip]), and what the parser accepts
      prints and parses again; datagrams fit ([datadog_datagrams_fit]).  The event parser
      panics exactly on lengths that overflow its check ([event_length_overflow]).
    - The buffering exporter writes whole lines exactly once ([buffer_lines]), though
      Export may return first ([export_leaves_lines]).
    - Multi isolates its children; a valid configuration has distinct exporter names,
      in-range sizes and valid histogram bounds ([Fanout], [Config], [Backends]).
    - An exponential histogram that records one observation after the other is the one
      computed from all of them at once; merging and the data point lose nothing, and the
      number of buckets is bounded ([expo_batch], [expo_merge], [expo_roundtrip],
      [expo_bounded]).  In every run, cumulative exports carry the totals of all observations
      from the first on, also after failed sends ([otlp_counter_totals],
      [otlp_exponential_totals]); a histogram under the name and attributes of a counter or
      gauge makes every export with it panic ([otlp_kind_clash_panics]).  The resource's
      attributes come from the source of highest precedence ([resource_precedence]), the
      transport's settings are passed explicitly and TLS is never relaxed
      ([transport_explicit], [tls_never_relaxed]).
    - However goroutines use a client, its views and contexts, it records nothing into a
      pipeline that is shutting down, hands over what the call describes, and refuses calls
      once closed ([client_lifecycle]); the metrics handed over through nested views have
      the joined name, and tags of options, context and views in this order of precedence
      ([client_tag_precedence]); options win over the environment, which adds only settings
      that are valid each for itself ([env_precedence]).
    - The pull store shows of every live series what was observed of it
      ([pull_store_refines]); a scrape always renders, without a sample twice
      ([exposition_unique]), and its text is deterministic ([exposition_deterministic]).
    - No bytes from the kernel make the parsers of replies panic ([reply_parser_total]),
      and a reply gives what the kernel wrote ([taskstats_reply_found]); a stat line is read
      back ([stat_roundtrip]); a cgroup's directory lies below the mount
      ([cgroup_dir_contained]); a collector reports a failing source once
      ([collector_reports_once]) and its counters of delays add up
      ([delay_counters_add_up]).
    - The totals a wrapped connection reports are what it carried, however goroutines use
      it ([conn_totals_exact]), and it is never stuck ([conn_never_stuck]).  A server's
      metrics account for every request, by what its reads returned and its writes sent
      ([server_accounts]), a client's request is measured once ([client_measured_once]), and the response writer reports what the handler wrote
      ([writer_reports]).
    - A report by plan, cached or not, makes the calls of a direct walk over the struct
      ([report_matches_reference]), and so does MakeMetrics, whose metrics carry what the
      options set ([make_metrics_same]).  Plans and reports end ([plan_total], [report_total]), except on a value that holds itself
      through a pointer ([cyclic_report_diverges]).
    - The OpenTelemetry bridge: the increments of an observable counter add up to the totals
      observed ([observable_totals]), collections of callbacks come one after the other
      and each calls every registered callback once ([collections_serial]), and a meter's instruments have the types asked for
      ([instrument_types]).

    ** Bounds and fuel

    Loops that the code runs until another goroutine lets them pass (the workers, the
    retry of a compare-and-swap, the spinning of the buffering exporter, Wait of the
    rate limiter) are cut off after a number of turns that the theorems quantify over, so
    every finite execution is covered.  Loops over data carry the length of the data as
    fuel, and the theorems show that it is enough (the splitting of a datagram, the
    suffixes of a metric name).  The shortest decimal of a float is searched up to the
    length of its exact decimal expansion, which always reads back.  The loop that lowers
    the scale of an exponential histogram has thirty turns, the number of scales.
    The plan of a struct type is built with one unit of fuel more than there are types,
    which [plan_total] shows to be enough, since a type in progress is not entered again.

    ** Not modelled

    Left out: sockets and dialling (parameters of the pool), JSON encoding of the EMF
    serializer (a parameter), the OpenTelemetry SDK with its detectors and transports,
    the tickers that start collections of runtime metrics, the debug page, the test
    recorders, the examples, and what is compiled for other platforms than Linux.
    Reflection is a representation of types and values; net/http, the parsers of addresses
    and of media types and the clock are parameters.  An error message is kept
    without its formatted arguments; identity of error values is kept exactly. *)

From stdpp Require Export base gmap list numbers strings.
From Stdlib Require Export ZArith Lia.

#[global] Set Default Proof Using "Type".
Open Scope Z_scope.

(** ** Machine integers

    Go's fixed-width integers are [Z] with the wrap-around written out.  [int]
    is 64 bits wide, as on every platform the library is released for. *)
Declare Scope go_scope.
Delimit Scope go_scope with go.

Definition u64 (z : Z) : Z := z mod 2 ^ 64.
Definition i64 (z : Z) : Z := (z + 2 ^ 63) mod 2 ^ 64 - 2 ^ 63.
Definition i32 (z : Z) : Z := (z + 2 ^ 31) mod 2 ^ 32 - 2 ^ 31.

Definition in_u64 (z : Z) : Prop := 0 ≤ z < 2 ^ 64.
Definition in_i64 (z : Z) : Prop := - 2 ^ 63 ≤ z < 2 ^ 63.
Definition in_i32 (z : Z) : Prop := - 2 ^ 31 ≤ z < 2 ^ 31.

Notation "a +u b" := (u64 (a + b)) (at level 50, left associativity) : go_scope.
Notation "a -u b" := (u64 (a - b)) (at level 50, left associativity) : go_scope.
Notation "a +i b" := (i64 (a + b)) (at level 50, left associativity) : go_scope.
Notation "a -i b" := (i64 (a - b)) (at level 50, left associativity) : go_scope.

Create HintDb go discriminated.

Lemma u64_small z : 0 ≤ z < 2 ^ 64 → u64 z = z.
Proof. apply Z.mod_small. Qed.

Lemma i64_small z : - 2 ^ 63 ≤ z < 2 ^ 63 → i64 z = z.
Proof. intros. unfold i64. rewrite Z.mod_small; lia. Qed.

Lemma i32_small z : - 2 ^ 31 ≤ z < 2 ^ 31 → i32 z = z.
Proof. intros. unfold i32. rewrite Z.mod_small; lia. Qed.

Lemma u64_range z : 0 ≤ u64 z < 2 ^ 64.
Proof. apply Z.mod_pos_bound. lia. Qed.

Lemma i64_add_l a b : i64 (i64 a + b) = i64 (a + b).
Proof.
  unfold i64. f_equal.
  replace ((a + 2 ^ 63) mod 2 ^ 64 - 2 ^ 63 + b + 2 ^ 63) with ((a + 2 ^ 63) mod 2 ^ 64 + b) by lia.
  rewrite Zplus_mod_idemp_l. f_equal. lia.
Qed.

Lemma i64_range z : - 2 ^ 63 ≤ i64 z < 2 ^ 63.
Proof. unfold i64. pose proof (Z.mod_pos_bound (z + 2 ^ 63) (2 ^ 64)). lia. Qed.

Lemma i32_range z : - 2 ^ 31 ≤ i32 z < 2 ^ 31.
Proof. unfold i32. pose proof (Z.mod_pos_bound (z + 2 ^ 31) (2 ^ 32)). lia. Qed.

#[export] Hint Resolve u64_range i64_range i32_range : go.

(** ** Modular positions

    Positions of a ring of [cap] slots grow without bound; two positions share
    a slot exactly when they are congruent modulo [cap]. *)
Lemma mod_eq_close (cap p q : Z) :
  0 < cap → p mod cap = q mod cap → - cap < p - q < cap → p = q.
Proof.
  intros Hc Hm Hd.
  pose proof (Z.div_mod p cap ltac:(lia)). pose proof (Z.div_mod q cap ltac:(lia)).
  assert (p / cap = q / cap) by nia. lia.
Qed.

Lemma mod_add_cap (cap p : Z) : 0 < cap → (p + cap) mod cap = p mod cap.
Proof. intros. rewrite <-(Z.mul_1_l cap) at 1. by rewrite Z.mod_add by lia. Qed.

Lemma mod_succ_ne (cap p q : Z) : 2 ≤ cap → p mod cap = q mod cap → p + 1 ≠ q.
Proof.
  intros Hc Hm ->%eq_sym. symmetry in Hm.
  pose proof (mod_eq_close cap (p + 1) p ltac:(lia) Hm ltac:(lia)). lia.
Qed.

(** Cases the linear solver closes after the positions are made concrete. *)
Ltac zsolve := first [ lia | nia | congruence ].

(** Case analysis on the boolean comparisons of [Z] in the goal or context. *)
Ltac zbool :=
  repeat match goal with
  | |- context [ ?a <? ?b ] => destruct (Z.ltb_spec a b)
  | |- context [ ?a <=? ?b ] => destruct (Z.leb_spec a b)
  | |- context [ ?a =? ?b ] => destruct (Z.eqb_spec a b)
  | H : context [ ?a <? ?b ] |- _ => destruct (Z.ltb_spec a b)
  | H : context [ ?a <=? ?b ] |- _ => destruct (Z.leb_spec a b)
  | H : context [ ?a =? ?b ] |- _ => destruct (Z.eqb_spec a b)
  end.

(** Removes the wrap-around of int64 expressions, innermost first. *)
Ltac i64_inner :=
  repeat match goal with
  | |- context [ i64 ?e ] =>
      lazymatch e with context [ i64 _ ] => fail | _ => rewrite (i64_small e) by lia end
  end.

(** ** Lists *)
Lemma take_min_length {A} (k : nat) (q : list A) : take (Nat.min k (length q)) q = take k q.
Proof. by rewrite <-take_take, (take_ge q (length q)) by lia. Qed.

Lemma drop_min_length {A} (k : nat) (q : list A) : drop (Nat.min k (length q)) q = drop k q.
Proof.
  destruct (decide (k ≤ length q)%nat).
  - by rewrite Nat.min_l by lia.
  - by rewrite Nat.min_r, !drop_ge by lia.
Qed.

Lemma sum_list_with_insert {A} (f : A → nat) (l : list A) i x y :
  l !! i = Some x → (sum_list_with f (<[i := y]> l) + f x = sum_list_with f l + f y)%nat.
Proof.
  revert i. induction l as [|a l IH]; intros [|i] Hi; simpl in *; try done.
  - injection Hi as ->. lia.
  - pose proof (IH i Hi). lia.
Qed.

Lemma sum_list_with_replicate_0 {A} (f : A → nat) n x :
  f x = 0%nat → sum_list_with f (replicate n x) = 0%nat.
Proof. intros Hf. induction n; simpl; lia. Qed.

Definition zsum {A} (f : A → Z) (l : list A) : Z := foldr (λ x n, f x + n) 0 l.
#[global] Arguments zsum : simpl never.

Lemma zsum_insert {A} (f : A → Z) (l : list A) i x y :
  l !! i = Some x → zsum f (<[i := y]> l) + f x = zsum f l + f y.
Proof.
  unfold zsum. revert i. induction l as [|a l IH]; intros [|i] Hi; simpl in *; try done.
  - injection Hi as ->. lia.
  - pose proof (IH i Hi). lia.
Qed.

Lemma zsum_cons {A} (f : A → Z) x l : zsum f (x :: l) = f x + zsum f l.
Proof. done. Qed.

Lemma zsum_app {A} (f : A → Z) l1 l2 : zsum f (l1 ++ l2) = zsum f l1 + zsum f l2.
Proof. induction l1 as [|x l1 IH]; [done|]. rewrite <-app_comm_cons, !zsum_cons. lia. Qed.

Lemma zsum_add {A} (f g : A → Z) l : zsum (λ x, f x + g x) l = zsum f l + zsum g l.
Proof. induction l as [|x l IH]; [done|]. rewrite !zsum_cons. lia. Qed.

Lemma zsum_ext {A} (f g : A → Z) l : (∀ x, x ∈ l → f x = g x) → zsum f l = zsum g l.
Proof.
  induction l as [|x l IH]; intros Hx; [done|]. rewrite !zsum_cons.
  rewrite Hx, IH; [done| |by left]. intros y Hy. apply Hx. by right.
Qed.

Lemma zsum_le {A} (f g : A → Z) l : Forall (λ x, f x ≤ g x) l → zsum f l ≤ zsum g l.
Proof. induction 1 as [|x l Hx _ IH]; [done|]. rewrite !zsum_cons. lia. Qed.

Lemma zsum_perm {A} (f : A → Z) l1 l2 : l1 ≡ₚ l2 → zsum f l1 = zsum f l2.
Proof. induction 1; rewrite ?zsum_cons; lia. Qed.

Lemma zsum_zero {A} (l : list A) : zsum (λ _, 0) l = 0.
Proof. induction l as [|x l IH]; [done|]. done. Qed.

Lemma zsum_fmap {A B} (f : B → Z) (g : A → B) l : zsum f (g <$> l) = zsum (λ x, f (g x)) l.
Proof. induction l as [|x l IH]; [done|]. by rewrite fmap_cons, !zsum_cons, IH. Qed.

Lemma zsum_nonneg {A} (f : A → Z) l : Forall (λ x, 0 ≤ f x) l → 0 ≤ zsum f l.
Proof. induction 1 as [|x l Hx _ IH]; [done|]. change (zsum f (x :: l)) with (f x + zsum f l). lia. Qed.

Lemma zsum_ge {A} (f : A → Z) l i x : (∀ y, 0 ≤ f y) → l !! i = Some x → f x ≤ zsum f l.
Proof.
  intros Hf. revert i. induction l as [|y l IH]; intros [|i] Hi; simpl in *; try done; rewrite zsum_cons.
  - injection Hi as ->. pose proof (zsum_nonneg f l (Forall_true _ _ Hf)). lia.
  - specialize (Hf y). specialize (IH i Hi). lia.
Qed.

Lemma sum_list_with_le_length {A} (f : A → nat) (l : list A) :
  (∀ x, f x ≤ 1)%nat → (sum_list_with f l ≤ length l)%nat.
Proof. intros Hf. induction l as [|x l IH]; simpl; [lia|]. pose proof (Hf x). lia. Qed.

Lemma elem_of_list_insert {A} (l : list A) i x y z :
  l !! i = Some x → z ∈ <[i := y]> l → z = y ∨ z ∈ l.
Proof.
  intros Hi Hz. apply list_elem_of_lookup in Hz as [j Hj].
  destruct (decide (i = j)) as [->|Hne].
  - rewrite list_lookup_insert_eq in Hj by (by eapply lookup_lt_Some). left. congruence.
  - rewrite list_lookup_insert_ne in Hj by done. right. apply list_elem_of_lookup. eauto.
Qed.

Lemma elem_of_list_insert_other {A} (l : list A) i x y z :
  l !! i = Some x → z ∈ l → z = x ∨ z ∈ <[i := y]> l.
Proof.
  intros Hi Hz. apply list_elem_of_lookup in Hz as [j Hj].
  destruct (decide (i = j)) as [->|Hne]; [left; congruence|].
  right. apply list_elem_of_lookup. exists j. by rewrite list_lookup_insert_ne.
Qed.

Lemma elem_of_list_insert_new {A} (l : list A) i x y : l !! i = Some x → y ∈ <[i := y]> l.
Proof.
  intros Hi. apply list_elem_of_lookup. exists i. apply list_lookup_insert_eq. by eapply lookup_lt_Some.
Qed.

Lemma u64_add_l a b : u64 (u64 a + b) = u64 (a + b).
Proof. unfold u64. by rewrite Z.add_mod_idemp_l by lia. Qed.

Lemma u64_add_r a b : u64 (a + u64 b) = u64 (a + b).
Proof. unfold u64. by rewrite Z.add_mod_idemp_r by lia. Qed.

Lemma u64_eq_mod a b : u64 a = u64 b ↔ ∃ k, a = b + k * 2 ^ 64.
Proof.
  unfold u64. split.
  - intros He. exists (a / 2 ^ 64 - b / 2 ^ 64).
    pose proof (Z.div_mod a (2 ^ 64)). pose proof (Z.div_mod b (2 ^ 64)). lia.
  - intros [k ->]. apply Z.mod_add. lia.
Qed.

(** ** Reflexive transitive closure with a step count *)
Section closure.
Context {S : Type} (step : S → S → Prop).

Inductive nsteps_to : nat → S → S → Prop :=
| nsteps_refl s : nsteps_to 0 s s
| nsteps_snoc n s1 s2 s3 : nsteps_to n s1 s2 → step s2 s3 → nsteps_to (Datatypes.S n) s1 s3.

Lemma nsteps_invariant (P : nat → S → Prop) s0 :
  P 0%nat s0 →
  (∀ n s s', P n s → step s s' → P (Datatypes.S n) s') →
  ∀ n s, nsteps_to n s0 s → P n s.
Proof.
  intros H0 Hs n s Hn. remember s0 as a eqn:Ea in Hn.
  induction Hn; subst; [done|]. eapply Hs; eauto.
Qed.

End closure.
