(* ===== verification/GoLib.v ===== *)
(** * The fragments of Go and its standard library the sources use

    Strings and byte slices are lists of bytes ([gostring]); the runes of a
    string are delimited the way a [for i := range s] loop delimits them
    (unicode/utf8); [float64] is IEEE binary64, executed by the specification
    floats of the Standard Library; errors are values with [errors.Join],
    [errors.Is] and the wrapping of [fmt.Errorf]'s [%w]. *)

From S2P Require Import Prelude.
From Stdlib Require Export Ascii SpecFloat.
#[global] Open Scope Z_scope.
Set Warnings "-register-all".

(** ** Strings and bytes *)
Definition byte := ascii.
Definition gostring := list ascii.

Definition str (s : string) : gostring := String.list_ascii_of_string s.
Definition byte_of (n : Z) : ascii := ascii_of_N (Z.to_N n).
Definition code (c : ascii) : Z := Z.of_N (N_of_ascii c).

(** [len(s)] *)
Definition len {A} (s : list A) : Z := Z.of_nat (length s).

Definition gostring_eqb (a b : gostring) : bool := bool_decide (a = b).

Lemma code_range c : 0 ≤ code c < 256.
Proof.
  unfold code. pose proof (N_ascii_bounded c). lia.
Qed.

Lemma code_inj a b : code a = code b → a = b.
Proof.
  unfold code. intros H%N2Z.inj.
  by rewrite <-(ascii_N_embedding a), <-(ascii_N_embedding b), H.
Qed.

Lemma len_nonneg {A} (s : list A) : 0 ≤ len s.
Proof. unfold len. lia. Qed.
Lemma len_app {A} (a b : list A) : len (a ++ b) = len a + len b.
Proof. unfold len. rewrite length_app. lia. Qed.
#[export] Hint Resolve code_range len_nonneg : go.

(** strings.Join, strings.HasPrefix, strings.Cut on a one-byte separator *)
Fixpoint join (sep : gostring) (parts : list gostring) : gostring :=
  match parts with
  | [] => []
  | [p] => p
  | p :: rest => p ++ sep ++ join sep rest
  end.

Fixpoint has_prefix (s p : gostring) : bool :=
  match p, s with
  | [], _ => true
  | _ :: _, [] => false
  | a :: p', b :: s' => bool_decide (a = b) && has_prefix s' p'
  end.

Fixpoint cut_byte (sep : ascii) (s : gostring) : gostring * option gostring :=
  match s with
  | [] => ([], None)
  | c :: s' =>
      if bool_decide (c = sep) then ([], Some s')
      else let '(a, b) := cut_byte sep s' in (c :: a, b)
  end.

(** strings.Split on a one-byte separator *)
Fixpoint split_byte (sep : ascii) (s : gostring) : list gostring :=
  match s with
  | [] => [[]]
  | c :: s' =>
      if bool_decide (c = sep) then [] :: split_byte sep s'
      else match split_byte sep s' with
           | [] => [[c]]
           | p :: ps => (c :: p) :: ps
           end
  end.

Lemma has_prefix_spec s p : has_prefix s p = true ↔ ∃ r, s = p ++ r.
Proof.
  revert s. induction p as [|a p IH]; intros [|b s]; simpl.
  - split; [by exists []|done].
  - split; [by exists (b :: s)|done].
  - split; [done|by intros [? ?]].
  - rewrite andb_true_iff, IH, bool_decide_eq_true. split.
    + intros [-> [r ->]]. by exists r.
    + intros [r [= -> ->]]. split; [done|by exists r].
Qed.

Lemma cut_byte_none sep s a :
  cut_byte sep s = (a, None) → a = s ∧ sep ∉ s.
Proof.
  revert a. induction s as [|c s IH]; intros a; simpl.
  - intros [= <-]. split; [done|]. intros H. inversion H.
  - case_bool_decide; [done|]. destruct (cut_byte sep s) as [x [y|]] eqn:E; [done|].
    intros [= <-]. destruct (IH x eq_refl) as [-> Hn]. split; [done|].
    rewrite elem_of_cons. intros [->|?]; auto.
Qed.

Lemma cut_byte_some sep s a b :
  cut_byte sep s = (a, Some b) → s = a ++ sep :: b ∧ sep ∉ a.
Proof.
  revert a b. induction s as [|c s IH]; intros a b; simpl; [done|].
  case_bool_decide as Hc.
  - intros [= <- <-]. subst. split; [done|]. intros H. inversion H.
  - destruct (cut_byte sep s) as [x [y|]] eqn:E; [|done].
    intros [= <- <-]. destruct (IH x y eq_refl) as [-> Hn]. split; [done|].
    rewrite elem_of_cons. intros [->|?]; auto.
Qed.

Lemma cut_byte_app sep a b : sep ∉ a → cut_byte sep (a ++ sep :: b) = (a, Some b).
Proof.
  induction a as [|c a IH]; intros Hn; simpl.
  - by rewrite bool_decide_true.
  - rewrite not_elem_of_cons in Hn. destruct Hn as [Hc Hn].
    rewrite bool_decide_false by congruence. by rewrite (IH Hn).
Qed.

Lemma cut_byte_fresh sep a : sep ∉ a → cut_byte sep a = (a, None).
Proof.
  induction a as [|c a IH]; intros Hn; simpl; [done|].
  rewrite not_elem_of_cons in Hn. destruct Hn as [Hc Hn].
  rewrite bool_decide_false by congruence. by rewrite (IH Hn).
Qed.

Lemma split_byte_ne sep s : split_byte sep s ≠ [].
Proof. destruct s as [|c s]; simpl; [done|]. case_bool_decide; [done|]. by destruct (split_byte sep s). Qed.

(** strings.Join undoes strings.Split. *)
Lemma join_split sep s : join [sep] (split_byte sep s) = s.
Proof.
  induction s as [|c s IH]; [done|]. cbn [split_byte]. pose proof (split_byte_ne sep s).
  destruct (split_byte sep s) as [|p ps]; [done|]. case_bool_decide.
  - subst c. change (join [sep] ([] :: p :: ps)) with (sep :: join [sep] (p :: ps)). by rewrite IH.
  - rewrite <-IH. by destruct ps.
Qed.

Lemma split_byte_fresh sep a : sep ∉ a → split_byte sep a = [a].
Proof.
  induction a as [|c a IH]; intros Hn; simpl; [done|].
  rewrite not_elem_of_cons in Hn. destruct Hn as [Hc Hn].
  rewrite bool_decide_false by congruence. by rewrite (IH Hn).
Qed.

Lemma split_byte_app sep a b : sep ∉ a → split_byte sep (a ++ sep :: b) = a :: split_byte sep b.
Proof.
  induction a as [|c a IH]; intros Hn; simpl.
  - by rewrite bool_decide_true.
  - rewrite not_elem_of_cons in Hn. destruct Hn as [Hc Hn].
    rewrite bool_decide_false by congruence. by rewrite (IH Hn).
Qed.

(** strings.Split undoes strings.Join when no part holds the separator. *)
Lemma split_join sep parts :
  parts ≠ [] → Forall (λ p, sep ∉ p) parts → split_byte sep (join [sep] parts) = parts.
Proof.
  intros Hne Hf. induction parts as [|p [|q ps] IH]; [done| |].
  - simpl. apply split_byte_fresh. by inversion Hf.
  - inversion Hf; subst. change (join [sep] (p :: q :: ps)) with (p ++ sep :: join [sep] (q :: ps)).
    rewrite split_byte_app by done. f_equal. by apply IH.
Qed.

(** ** UTF-8

    The width of the rune at the head of a non-empty string, as
    utf8.DecodeRune reports it: ill-formed and short encodings have width 1. *)
Definition cont_byte (lo hi : Z) (c : ascii) : bool := (lo <=? code c) && (code c <=? hi).
Definition continuation := cont_byte 128 191.

Definition rune_width (s : gostring) : nat :=
  match s with
  | [] => 0
  | c0 :: rest =>
      let b := code c0 in
      if b <? 194 then 1%nat
      else if b <=? 223 then
        match rest with c1 :: _ => if continuation c1 then 2%nat else 1%nat | _ => 1%nat end
      else if b <=? 239 then
        let lo := if b =? 224 then 160 else 128 in
        let hi := if b =? 237 then 159 else 191 in
        match rest with
        | c1 :: c2 :: _ => if cont_byte lo hi c1 && continuation c2 then 3%nat else 1%nat
        | _ => 1%nat
        end
      else if b <=? 244 then
        let lo := if b =? 240 then 144 else 128 in
        let hi := if b =? 244 then 143 else 191 in
        match rest with
        | c1 :: c2 :: c3 :: _ =>
            if cont_byte lo hi c1 && continuation c2 && continuation c3 then 4%nat else 1%nat
        | _ => 1%nat
        end
      else 1%nat
  end.

(** The runes of a string, as the byte sequences a [range] loop steps over;
    [length s] steps suffice because every rune is at least one byte wide. *)
Fixpoint runes_fuel (fuel : nat) (s : gostring) : list gostring :=
  match fuel, s with
  | S f, _ :: _ => take (rune_width s) s :: runes_fuel f (drop (rune_width s) s)
  | _, _ => []
  end.

Definition runes (s : gostring) : list gostring := runes_fuel (length s) s.

(** utf8.RuneCountInString *)
Definition rune_count (s : gostring) : Z := len (runes s).

Lemma rune_width_bounds s : s ≠ [] → (1 ≤ rune_width s ≤ length s)%nat.
Proof.
  destruct s as [|c0 rest]; [done|intros _]. unfold rune_width.
  repeat case_match; simpl; lia.
Qed.

Lemma runes_fuel_enough f s :
  (length s ≤ f)%nat → concat (runes_fuel f s) = s.
Proof.
  revert s. induction f as [|f IH]; intros s Hf.
  - destruct s; [done|simpl in Hf; lia].
  - destruct s as [|c s]; [done|]. pose proof (rune_width_bounds (c :: s) ltac:(done)) as Hw.
    change (take (rune_width (c :: s)) (c :: s)
              ++ concat (runes_fuel f (drop (rune_width (c :: s)) (c :: s))) = c :: s).
    rewrite IH; [apply take_drop|]. rewrite length_drop. simpl in *. lia.
Qed.

Lemma runes_concat s : concat (runes s) = s.
Proof. by apply runes_fuel_enough. Qed.

Lemma runes_nonempty f s : Forall (λ r, r ≠ []) (runes_fuel f s).
Proof.
  revert s. induction f as [|f IH]; intros s; [constructor|].
  destruct s as [|c s]; [constructor|].
  change (Forall (λ r, r ≠ []) (take (rune_width (c :: s)) (c :: s)
            :: runes_fuel f (drop (rune_width (c :: s)) (c :: s)))).
  pose proof (rune_width_bounds (c :: s) ltac:(done)).
  constructor; [|apply IH]. destruct (rune_width (c :: s)); [lia|done].
Qed.

Lemma length_concat_ge (l : list gostring) :
  Forall (λ r, r ≠ []) l → (length l ≤ length (concat l))%nat.
Proof.
  induction 1 as [|r l Hr _ IH]; simpl; [lia|]. rewrite length_app.
  destruct r; [done|]. simpl. lia.
Qed.

(** A string has at most as many runes as bytes. *)
Lemma rune_count_le_len s : rune_count s ≤ len s.
Proof.
  unfold rune_count, len. pose proof (length_concat_ge _ (runes_nonempty (length s) s)) as H.
  fold (runes s) in H. rewrite runes_concat in H. lia.
Qed.

(** ** float64 *)
Definition float64 := spec_float.

Definition fadd : float64 → float64 → float64 := SFadd 53 1024.
Definition fsub : float64 → float64 → float64 := SFsub 53 1024.
Definition fmul : float64 → float64 → float64 := SFmul 53 1024.
Definition fdiv : float64 → float64 → float64 := SFdiv 53 1024.
Definition flt (x y : float64) : bool := SFltb x y.
Definition fle (x y : float64) : bool := SFleb x y.
Definition feq (x y : float64) : bool := SFeqb x y.
Definition fopp (x : float64) : float64 := SFopp x.
Definition fabs (x : float64) : float64 := SFabs x.

(** The conversion [float64(n)], rounding to nearest even. *)
Definition f_of_Z (n : Z) : float64 := binary_normalize 53 1024 n 0 false.

Definition f_zero : float64 := S754_zero false.
Definition f_one : float64 := f_of_Z 1.
Definition f_inf (neg : bool) : float64 := S754_infinity neg.

(** math.IsNaN, math.IsInf(x, 0), math.Signbit *)
Definition is_nan (x : float64) : bool := match x with S754_nan => true | _ => false end.
Definition is_inf (x : float64) : bool := match x with S754_infinity _ => true | _ => false end.
Definition is_finite (x : float64) : bool :=
  match x with S754_zero _ | S754_finite _ _ _ => true | _ => false end.
Definition signbit (x : float64) : bool :=
  match x with S754_zero b | S754_infinity b | S754_finite b _ _ => b | S754_nan => false end.

(** The integer part of a finite float (conversion to an integer type truncates
    towards zero). *)
Definition f_trunc (x : float64) : option Z :=
  match x with
  | S754_zero _ => Some 0
  | S754_finite b m e =>
      let a := if 0 <=? e then Z.pos m * 2 ^ e else Z.pos m / 2 ^ (- e) in
      Some (if b then - a else a)
  | _ => None
  end.

#[global] Instance float64_eq_dec : EqDecision float64.
Proof. solve_decision. Defined.

(** ** Errors

    An error value of the program, of code outside it ([ErrExt]) or of a done
    context. *)
Inductive sentinel :=
| ErrBufferFull | ErrPoolClosed | ErrCircuitOpen | ErrClientClosed | ErrInvalidConfig
| ErrExportFailed | ErrTimeout | ErrMemoryLimit | ErrRateLimitExceeded | ErrCardinalityLimit
| ErrInvalidTagKey | ErrUnsupportedReportField | ErrDatadogNotConfigured | ErrEventTooLarge
(** the breaker's own value, transport.ErrCircuitOpen *)
| TransportErrCircuitOpen
(** transport.ErrUnsupportedNetwork *)
| ErrUnsupportedNetwork
(** exporters/prometheus *)
| ErrLabelCollision | ErrFamilyCollision | ErrInvalidFamily
(** runtimemetrics and its procfs; errors.ErrUnsupported and fs.ErrNotExist of the library *)
| ErrTaskstatsShort | ErrUnsupported | ErrMalformed | ErrNoCPUCgroup | ErrNotExist
(** io.EOF *)
| EOF
(** otel *)
| ErrNilCallback | ErrForeignObservable | ErrObservableMeter | ErrUnregisteredObservable | ErrCollectionInterval.

#[global] Instance sentinel_eq_dec : EqDecision sentinel.
Proof. solve_decision. Defined.

Inductive error :=
| ErrIs (s : sentinel)                        (* a sentinel of errors.go *)
| ErrExt (id : Z)                             (* a value of code outside the program *)
| ErrCanceled | ErrDeadlineExceeded           (* ctx.Err() *)
| ErrText (msg : gostring)                    (* errors.New / fmt.Errorf without %w *)
| ErrWrap (prefix : gostring) (e : error)     (* fmt.Errorf("prefix: %w", e) *)
| ErrWrapAfter (e : error) (suffix : gostring) (* fmt.Errorf("%w: suffix", e) *)
| ErrJoin (es : list error).                  (* errors.Join of at least one error *)

(** errors.Join: nil errors are dropped, and no error joins to nil. *)
Definition errors_join (es : list (option error)) : option error :=
  match omap id es with
  | [] => None
  | l => Some (ErrJoin l)
  end.

(** errors.Is(e, s) for a sentinel [s] *)
Fixpoint errors_is (s : sentinel) (e : error) : bool :=
  match e with
  | ErrIs s' => bool_decide (s' = s)
  | ErrWrap _ e' | ErrWrapAfter e' _ => errors_is s e'
  | ErrJoin es => existsb (errors_is s) es
  | _ => false
  end.

Definition wrap (prefix : string) (e : option error) : option error :=
  ErrWrap (str prefix) <$> e.

Lemma omap_id_nil {A} (es : list (option A)) : omap id es = [] ↔ Forall (λ e, e = None) es.
Proof.
  induction es as [|[e|] es IH]; simpl; rewrite ?Forall_cons; [|naive_solver|naive_solver].
  split; [constructor|done].
Qed.

Lemma errors_join_none es : errors_join es = None ↔ Forall (λ e, e = None) es.
Proof. rewrite <-omap_id_nil. unfold errors_join. by destruct (omap id es). Qed.

Lemma errors_join_is s es :
  errors_is s <$> errors_join es = Some true ↔ ∃ e, Some e ∈ es ∧ errors_is s e = true.
Proof.
  unfold errors_join.
  assert (Hx : existsb (errors_is s) (omap id es) = true ↔ ∃ e, Some e ∈ es ∧ errors_is s e = true).
  { rewrite existsb_exists. split; intros (e & He & Hs); exists e; (split; [|done]).
    - apply list_elem_of_In, list_elem_of_omap in He. destruct He as ([e'|] & He & Hid); simpl in Hid; congruence.
    - apply list_elem_of_In, list_elem_of_omap. by exists (Some e). }
  rewrite <-Hx. destruct (omap id es); simpl; [done|].
  split; [by intros [= H]|by intros ->].
Qed.

(** ** Time

    [time.Time] is a number of nanoseconds since the zero time; a [Duration] is
    an int64 of nanoseconds, and [Sub] saturates. *)
Definition unix_epoch : Z := 62135596800 * 10 ^ 9.
Definition UnixNano (t : Z) : Z := i64 (t - unix_epoch).
Definition Unix (sec nsec : Z) : Z := unix_epoch + sec * 10 ^ 9 + nsec.
Definition IsZero (t : Z) : bool := t =? 0.
Definition Sub (t u : Z) : Z := Z.max (- 2 ^ 63) (Z.min (2 ^ 63 - 1) (t - u)).
Definition Millisecond : Z := 10 ^ 6.
Definition Second : Z := 10 ^ 9.

(** [d.Seconds()]: whole seconds plus the fraction, both as floats. *)
Definition Seconds (d : Z) : float64 :=
  fadd (f_of_Z (Z.quot d Second)) (fdiv (f_of_Z (Z.rem d Second)) (f_of_Z Second)).
