(* ===== verification/Strconv.v ===== *)
(** * Numbers and their text (Go's strconv)

    FormatInt, Itoa, ParseInt, Atoi; FormatFloat with format 'g' and the
    shortest precision (which is also fmt's [%g]); ParseFloat with its whole
    grammar.  Conversions between decimal and binary go through exact rationals:
    [to_float] rounds a positive rational to the nearest binary64, ties to even,
    and the shortest digits are found by search.  The file proves that parsing
    undoes formatting, for every int64 and every float64. *)

From S2P Require Import Prelude GoLib.
#[local] Open Scope Z_scope.

(** ** Decimal digits *)
Definition digit (d : Z) : ascii := byte_of (48 + d).
Definition is_dec (c : ascii) : bool := (48 <=? code c) && (code c <=? 57).
Definition dec_val (c : ascii) : Z := code c - 48.

Fixpoint dec_digits (fuel : nat) (n : Z) (acc : gostring) : gostring :=
  let acc := digit (n mod 10) :: acc in
  match fuel with
  | O => acc
  | S f => if n <? 10 then acc else dec_digits f (n / 10) acc
  end.

(** A number below [2^k] has at most [k] digits. *)
Definition format_uint (n : Z) : gostring := dec_digits (Z.to_nat (Z.log2 n)) n [].

(** strconv.FormatInt(n, 10), strconv.Itoa *)
Definition FormatInt (n : Z) : gostring :=
  if n <? 0 then byte_of 45 :: format_uint (- n) else format_uint n.

Fixpoint read_dec (acc : Z) (s : gostring) : option Z :=
  match s with
  | [] => Some acc
  | c :: s' => if is_dec c then read_dec (acc * 10 + dec_val c) s' else None
  end.

(** strconv.ParseInt(s, 10, 64) and strconv.Atoi; [None] is an error. *)
Definition ParseInt (s : gostring) : option Z :=
  let '(neg, body) :=
    match s with
    | c :: s' => if code c =? 45 then (true, s') else if code c =? 43 then (false, s') else (false, s)
    | [] => (false, [])
    end in
  match body with
  | [] => None
  | _ =>
      n ← read_dec 0 body;
      let n := if neg then - n else n in
      if (- 2 ^ 63 <=? n) && (n <? 2 ^ 63) then Some n else None
  end.

Lemma code_byte_of n : 0 ≤ n < 256 → code (byte_of n) = n.
Proof. intros Hn. unfold code, byte_of. rewrite N_ascii_embedding by lia. lia. Qed.

Lemma code_digit d : 0 ≤ d < 10 → code (digit d) = 48 + d.
Proof. intros. unfold digit. apply code_byte_of. lia. Qed.

Lemma is_dec_digit d : 0 ≤ d < 10 → is_dec (digit d) = true ∧ dec_val (digit d) = d.
Proof. intros Hd. unfold is_dec, dec_val. rewrite code_digit by done. lia. Qed.

Lemma is_dec_range c : is_dec c = true → 0 ≤ dec_val c < 10.
Proof. unfold is_dec, dec_val. lia. Qed.

(** The value of a string of digits. *)
Definition all_dec (s : gostring) : Prop := Forall (λ c, is_dec c = true) s.
Definition dec_value (acc : Z) (s : gostring) : Z := foldl (λ a c, a * 10 + dec_val c) acc s.

Lemma read_dec_value acc s : all_dec s → read_dec acc s = Some (dec_value acc s).
Proof. intros Hs. revert acc. induction Hs as [|c s Hc _ IH]; intros acc; [done|]. simpl. by rewrite Hc, IH. Qed.

Lemma dec_value_acc acc s : dec_value acc s = acc * 10 ^ len s + dec_value 0 s.
Proof.
  revert acc. induction s as [|c s IH]; intros acc; [unfold len; simpl; lia|].
  change (dec_value (acc * 10 + dec_val c) s = acc * 10 ^ len (c :: s) + dec_value (0 * 10 + dec_val c) s).
  rewrite IH, (IH (0 * 10 + dec_val c)). unfold len. simpl length. rewrite Nat2Z.inj_succ, Z.pow_succ_r by lia. lia.
Qed.

Lemma dec_value_app acc a b : dec_value acc (a ++ b) = dec_value (dec_value acc a) b.
Proof. apply foldl_app. Qed.

Lemma dec_digits_spec fuel n acc :
  0 ≤ n < 2 ^ Z.of_nat (S fuel) →
  ∃ ds, dec_digits fuel n acc = ds ++ acc ∧ all_dec ds ∧ dec_value 0 ds = n ∧ ds ≠ []
        ∧ (0 < n → ∃ c r, ds = c :: r ∧ dec_val c ≠ 0) ∧ (n = 0 → ds = [digit 0]).
Proof.
  revert n acc. induction fuel as [|f IH]; intros n acc Hn; cbn [dec_digits].
  - change (2 ^ Z.of_nat 1) with 2 in Hn. exists [digit (n mod 10)].
    pose proof (is_dec_digit (n mod 10) (Z.mod_pos_bound n 10 eq_refl)) as [Hd Hv]. split_and!; try done.
    + by repeat constructor.
    + unfold dec_value. simpl. rewrite Hv. apply Z.mod_small. lia.
    + intros. exists (digit (n mod 10)), []. split; [done|]. rewrite Hv, Z.mod_small; lia.
    + intros ->. done.
  - pose proof (is_dec_digit (n mod 10) (Z.mod_pos_bound n 10 eq_refl)) as [Hd Hv]. destruct (Z.ltb_spec n 10) as [Hlt|Hge].
    + exists [digit (n mod 10)]. split_and!; try done.
      * by repeat constructor.
      * unfold dec_value. simpl. rewrite Hv. apply Z.mod_small. lia.
      * intros. exists (digit (n mod 10)), []. split; [done|]. rewrite Hv, Z.mod_small; lia.
      * intros ->. done.
    + rewrite Nat2Z.inj_succ, Z.pow_succ_r in Hn by lia.
      destruct (IH (n / 10) (digit (n mod 10) :: acc)) as (ds & E & Ha & Hval & Hne & Hhd & _).
      { assert (n / 10 < 2 ^ Z.of_nat (S f)) by (apply Z.div_lt_upper_bound; lia).
        pose proof (Z.div_pos n 10). lia. }
      exists (ds ++ [digit (n mod 10)]). rewrite E, <-app_assoc. split_and!; try done.
      * apply Forall_app. split; [done|]. by repeat constructor.
      * rewrite dec_value_app, Hval. unfold dec_value. simpl. rewrite Hv. pose proof (Z.div_mod n 10). lia.
      * by destruct ds.
      * intros _. assert (0 < n / 10) as Hp by (apply Z.div_str_pos; lia). destruct (Hhd Hp) as (c & r & -> & Hc).
        exists c, (r ++ [digit (n mod 10)]). done.
      * lia.
Qed.

Lemma format_uint_spec n :
  0 ≤ n → all_dec (format_uint n) ∧ dec_value 0 (format_uint n) = n ∧ format_uint n ≠ []
          ∧ (0 < n → ∃ c r, format_uint n = c :: r ∧ dec_val c ≠ 0).
Proof.
  intros Hn. unfold format_uint.
  destruct (dec_digits_spec (Z.to_nat (Z.log2 n)) n []) as (ds & E & Ha & Hv & Hne & Hhd & _).
  { split; [done|]. rewrite Nat2Z.inj_succ, Z2Nat.id by apply Z.log2_nonneg.
    destruct (decide (n = 0)) as [->|]; [done|]. apply Z.log2_spec. lia. }
  rewrite E, app_nil_r. done.
Qed.

Lemma not_dec_head c s : is_dec c = false → ¬ all_dec (c :: s).
Proof. intros Hc Ha. inversion Ha. congruence. Qed.

Lemma ParseInt_FormatInt n : in_i64 n → ParseInt (FormatInt n) = Some n.
Proof.
  intros Hn. unfold in_i64 in Hn. unfold FormatInt, ParseInt. destruct (Z.ltb_spec n 0) as [Hneg|Hpos].
  - destruct (format_uint_spec (- n) ltac:(lia)) as (Ha & Hv & Hne & _). rewrite code_byte_of by lia. simpl.
    destruct (format_uint (- n)) as [|c s] eqn:E; [done|]. rewrite <-E in *. rewrite read_dec_value by done. simpl.
    rewrite Hv, Z.opp_involutive. case_match eqn:Eb; [done|lia].
  - destruct (format_uint_spec n Hpos) as (Ha & Hv & Hne & _).
    destruct (format_uint n) as [|c s] eqn:E; [done|].
    pose proof (Forall_inv Ha) as Hc. unfold is_dec in Hc.
    replace (code c =? 45) with false by lia. replace (code c =? 43) with false by lia.
    rewrite read_dec_value, Hv by done. cbn [mbind option_bind]. case_match eqn:Eb; [done|lia].
Qed.

(** ** Rounding a positive rational to binary64 *)

(** [num / den / 2^e] as a fraction of integers. *)
Definition scale (num den e : Z) : Z * Z :=
  if 0 <=? e then (num, den * 2 ^ e) else (num * 2 ^ (- e), den).

(** floor (log2 (num / den)) *)
Definition flog2 (num den : Z) : Z :=
  let k := Z.log2 num - Z.log2 den in
  let '(a, b) := scale num den k in
  if b <=? a then k else k - 1.

(** The integer nearest to [a / b], ties to even. *)
Definition round_even (a b : Z) : Z :=
  let q := a / b in
  let r := a mod b in
  match 2 * r ?= b with
  | Lt => q
  | Gt => q + 1
  | Eq => if Z.even q then q else q + 1
  end.

(** 53 bits of precision, least exponent -1074, greatest 971. *)
Definition to_float (neg : bool) (num den : Z) : float64 :=
  let e := Z.max (flog2 num den - 52) (-1074) in
  let '(a, b) := scale num den e in
  let q := round_even a b in
  let '(q, e) := if q =? 2 ^ 53 then (2 ^ 52, e + 1) else (q, e) in
  match q with
  | Z.pos m => if 971 <? e then S754_infinity neg else S754_finite neg m e
  | _ => S754_zero neg
  end.

(** The value [c * 10^k], or [c * 2^k]. *)
Definition dec_to_float (neg : bool) (c k : Z) : float64 :=
  if 0 <=? k then to_float neg (c * 10 ^ k) 1 else to_float neg c (10 ^ (- k)).

Definition hex_to_float (neg : bool) (c k : Z) : float64 :=
  if 0 <=? k then to_float neg (c * 2 ^ k) 1 else to_float neg c (2 ^ (- k)).

(** [num / den = m * 2^e] *)
Definition represents (num den m e : Z) : Prop :=
  num * 2 ^ Z.max (- e) 0 = m * den * 2 ^ Z.max e 0.

Lemma pow2_split a b : 0 ≤ a → 0 ≤ b → 2 ^ (a + b) = 2 ^ a * 2 ^ b.
Proof. apply Z.pow_add_r. Qed.

(** The same with one large shift [s], which turns every power into one of a
    natural exponent. *)
Lemma represents_shift num den m e s :
  0 ≤ s → 0 ≤ s + e → represents num den m e ↔ num * 2 ^ s = m * den * 2 ^ (s + e).
Proof.
  intros Hs He. unfold represents. destruct (Z.le_ge_cases 0 e) as [H|H].
  - rewrite Z.max_r, Z.max_l by lia. rewrite pow2_split by lia. change (2 ^ 0) with 1.
    pose proof (Z.pow_pos_nonneg 2 s ltac:(lia) Hs).
    replace (m * den * (2 ^ s * 2 ^ e)) with (m * den * 2 ^ e * 2 ^ s) by ring. rewrite Z.mul_cancel_r by lia. lia.
  - rewrite Z.max_l, Z.max_r by lia. change (2 ^ 0) with 1. rewrite Z.mul_1_r.
    replace s with ((s + e) + - e) at 1 by lia. rewrite pow2_split by lia.
    pose proof (Z.pow_pos_nonneg 2 (s + e) ltac:(lia) He).
    replace (num * (2 ^ (s + e) * 2 ^ (- e))) with (num * 2 ^ (- e) * 2 ^ (s + e)) by ring.
    rewrite Z.mul_cancel_r by lia. done.
Qed.

Lemma scale_shift num den e a b s :
  scale num den e = (a, b) → 0 ≤ s → 0 ≤ s + e →
  a * (den * 2 ^ (s + e)) = b * (num * 2 ^ s).
Proof.
  intros Hsc Hs He. unfold scale in Hsc. destruct (Z.leb_spec 0 e); injection Hsc as <- <-.
  - rewrite pow2_split by lia. ring.
  - replace s with ((s + e) + - e) at 2 by lia. rewrite (pow2_split (s + e) (- e)) by lia. ring.
Qed.

Lemma scale_pos num den e a b : 0 < num → 0 < den → scale num den e = (a, b) → 0 < a ∧ 0 < b.
Proof.
  intros Hn Hd Hsc. unfold scale in Hsc. destruct (Z.leb_spec 0 e); injection Hsc as <- <-.
  - pose proof (Z.pow_pos_nonneg 2 e). nia.
  - pose proof (Z.pow_pos_nonneg 2 (- e)). nia.
Qed.

Lemma flog2_spec num den s :
  0 < num → 0 < den → 0 ≤ s → Z.log2 den + 1 ≤ s →
  let k := flog2 num den in
  0 ≤ s + k ∧ den * 2 ^ (s + k) ≤ num * 2 ^ s < den * 2 ^ (s + k + 1).
Proof.
  intros Hn Hd Hs Hl. pose proof (Z.log2_spec num Hn) as Hi. pose proof (Z.log2_spec den Hd) as Hj.
  pose proof (Z.log2_nonneg num). pose proof (Z.log2_nonneg den).
  set (i := Z.log2 num) in *. set (j := Z.log2 den) in *. unfold flog2. fold i j. cbv zeta.
  destruct (scale num den (i - j)) as [a b] eqn:E.
  pose proof (scale_shift num den (i - j) a b s E Hs ltac:(lia)) as Hab.
  destruct (scale_pos _ _ _ _ _ Hn Hd E) as [Ha Hb].
  assert (Hlo : den * 2 ^ (s + (i - j) - 1) ≤ num * 2 ^ s).
  { assert (2 ^ i * 2 ^ s = 2 ^ (j + 1) * 2 ^ (s + (i - j) - 1)) as Hp by (rewrite <-!pow2_split by lia; f_equal; lia).
    pose proof (Z.pow_pos_nonneg 2 s ltac:(lia) Hs). pose proof (Z.pow_pos_nonneg 2 (s + (i - j) - 1)). rewrite <-Z.add_1_r in Hj. nia. }
  assert (Hhi : num * 2 ^ s < den * 2 ^ (s + (i - j) + 1)).
  { assert (2 ^ (i + 1) * 2 ^ s = 2 ^ j * 2 ^ (s + (i - j) + 1)) as Hp by (rewrite <-!pow2_split by lia; f_equal; lia).
    pose proof (Z.pow_pos_nonneg 2 s ltac:(lia) Hs). pose proof (Z.pow_pos_nonneg 2 (s + (i - j) + 1)). rewrite <-Z.add_1_r in Hi. nia. }
  destruct (Z.leb_spec b a); split; try lia.
  - split; [nia|done].
  - replace (s + (i - j - 1)) with (s + (i - j) - 1) by lia. split; [done|].
    replace (s + (i - j) - 1 + 1) with (s + (i - j)) by lia.
    nia.
Qed.

Lemma digits2_log2 m : Z.pos (digits2_pos m) = Z.log2 (Z.pos m) + 1.
Proof.
  assert (Hs : Z.pos (digits2_pos m) = Z.pos (Pos.size m)) by (induction m; simpl; lia).
  rewrite Hs. destruct m; simpl; lia.
Qed.

(** The floats a float64 variable can hold. *)
Definition valid (x : float64) : bool := valid_binary 53 1024 x.

Lemma bounded_spec m e :
  bounded 53 1024 m e = true →
  e = Z.max (Z.log2 (Z.pos m) + e - 52) (-1074) ∧ e ≤ 971 ∧ Z.pos m < 2 ^ 53.
Proof.
  unfold bounded, canonical_mantissa, fexp, emin. intros [Hc He]%andb_true_iff.
  apply Z.eqb_eq in Hc. apply Z.leb_le in He. rewrite digits2_log2 in Hc.
  split_and!; [lia|lia|]. assert (Z.log2 (Z.pos m) < 53) by lia.
  apply Z.log2_lt_pow2; lia.
Qed.

Lemma flog2_exact num den m e :
  0 < num → 0 < den → 0 < m → represents num den m e → flog2 num den = Z.log2 m + e.
Proof.
  intros Hn Hd Hm Hr. pose proof (Z.log2_nonneg m). pose proof (Z.log2_nonneg den).
  set (s := Z.max (Z.log2 den + 1) (Z.max 0 (- e))).
  pose proof (flog2_spec num den s Hn Hd ltac:(lia) ltac:(lia)) as [Hk [Hlo Hhi]].
  apply (represents_shift num den m e s) in Hr; [|lia..]. rewrite Hr in Hlo, Hhi.
  assert (Hlog : Z.log2 (m * 2 ^ (s + e)) = Z.log2 m + (s + e)) by (rewrite Z.log2_mul_pow2; lia).
  assert (Z.log2 (m * 2 ^ (s + e)) = s + flog2 num den); [|lia].
  apply Z.log2_unique; [lia|]. rewrite <-Z.add_1_r. split; nia.
Qed.

Lemma round_even_exact q b : 0 < b → round_even (q * b) b = q.
Proof. intros. unfold round_even. rewrite Z.div_mul, Z.mod_mul by lia. by destruct b. Qed.

(** A rational that is a float rounds to it. *)
Lemma to_float_exact neg num den m e :
  0 < num → 0 < den → bounded 53 1024 m e = true → represents num den (Z.pos m) e →
  to_float neg num den = S754_finite neg m e.
Proof.
  intros Hn Hd Hb Hr. destruct (bounded_spec m e Hb) as (He & Hmax & Hm).
  unfold to_float. rewrite (flog2_exact num den (Z.pos m) e) by done. rewrite <-He.
  destruct (scale num den e) as [a b] eqn:E. destruct (scale_pos _ _ _ _ _ Hn Hd E) as [Ha Hb'].
  assert (Hab : a = Z.pos m * b).
  { set (s := Z.max 0 (- e)). pose proof (scale_shift num den e a b s E ltac:(lia) ltac:(lia)) as Hsc.
    apply (represents_shift num den (Z.pos m) e s) in Hr; [|lia..]. rewrite Hr in Hsc.
    pose proof (Z.pow_pos_nonneg 2 (s + e) ltac:(lia) ltac:(lia)).
    apply (Z.mul_cancel_r _ _ (den * 2 ^ (s + e))); [nia|]. rewrite Hsc. ring. }
  subst a. rewrite round_even_exact by done. destruct (Z.eqb_spec (Z.pos m) (2 ^ 53)); [lia|].
  destruct (Z.ltb_spec 971 e); [lia|done].
Qed.

(** ** Shortest digits *)

(** [c * 10^k] without trailing zeros in [c]. *)
Fixpoint strip_zeros (fuel : nat) (c k : Z) : Z * Z :=
  match fuel with
  | O => (c, k)
  | S f => if c mod 10 =? 0 then strip_zeros f (c / 10) (k + 1) else (c, k)
  end.

(** The two decimals of [n] digits around the value [d * 10^k], [d] of [l]
    digits, that read back as [x], the closer one first. *)
Definition candidates (d k l n : Z) : list (Z * Z) :=
  let p := 10 ^ (l - n) in
  let lo := strip_zeros (Z.to_nat l) (d / p) (k + (l - n)) in
  let hi := strip_zeros (Z.to_nat (l + 1)) (d / p + 1) (k + (l - n)) in
  if 2 * (d mod p) <? p then [lo; hi] else [hi; lo].

Definition reads_back (neg : bool) (x : float64) (ck : Z * Z) : bool :=
  bool_decide (dec_to_float neg ck.1 ck.2 = x).

Fixpoint shortest_from (fuel : nat) (neg : bool) (x : float64) (d k l n : Z) : Z * Z :=
  match fuel with
  | O => strip_zeros (Z.to_nat l) d k
  | S f =>
      match filter (λ ck, reads_back neg x ck) (candidates d k l n) with
      | ck :: _ => ck
      | [] => shortest_from f neg x d k l (n + 1)
      end
  end.

(** The exact decimal expansion of [m * 2^e]. *)
Definition exact_decimal (m e : Z) : Z * Z :=
  if 0 <=? e then (m * 2 ^ e, 0) else (m * 5 ^ (- e), e).

(** The fewest digits that read back as the float: [c] and [k] of [c * 10^k]. *)
Definition shortest (neg : bool) (m : positive) (e : Z) : Z * Z :=
  let '(d, k) := exact_decimal (Z.pos m) e in
  let l := len (format_uint d) in
  shortest_from (Z.to_nat (l - 1)) neg (S754_finite neg m e) d k l 1.

(** ** FormatFloat(x, 'g', -1, 64) *)
Definition fmt_exp (x : Z) : gostring :=
  byte_of (if x <? 0 then 45 else 43)
    :: (if Z.abs x <? 10 then digit 0 :: format_uint (Z.abs x) else format_uint (Z.abs x)).

(** d.ddde±dd *)
Definition fmtE (digs : gostring) (exp : Z) : gostring :=
  match digs with
  | [] => []
  | c :: rest => c :: match rest with [] => [] | _ => byte_of 46 :: rest end ++ byte_of 101 :: fmt_exp exp
  end.

(** ddd.ddd; the decimal point is after the first [dp] digits. *)
Definition fmtF (digs : gostring) (dp : Z) : gostring :=
  (if 0 <? dp then take (Z.to_nat dp) digs ++ replicate (Z.to_nat (dp - len digs)) (digit 0) else [digit 0])
  ++ (if dp <? len digs then byte_of 46 :: replicate (Z.to_nat (- dp)) (digit 0) ++ drop (Z.to_nat dp) digs else []).

(** %e for exponents below -4 or from 6 on, %f otherwise. *)
Definition fmt_body (c k : Z) : gostring :=
  let digs := format_uint c in
  let dp := len digs + k in
  if (dp - 1 <? -4) || (6 <=? dp - 1) then fmtE digs (dp - 1) else fmtF digs dp.

Definition FormatFloat (x : float64) : gostring :=
  match x with
  | S754_nan => str "NaN"
  | S754_infinity neg => if neg then str "-Inf" else str "+Inf"
  | S754_zero neg => if neg then str "-0" else str "0"
  | S754_finite neg m e =>
      let '(c, k) := shortest neg m e in
      (if neg then [byte_of 45] else []) ++ fmt_body c k
  end.

(** ** ParseFloat(s, 64) *)
Definition lower (c : ascii) : Z := Z.lor (code c) 32.

Definition is_word (w : string) (s : gostring) : bool :=
  bool_decide (lower <$> s = code <$> str w).

(** Infinities, with a sign or without, and NaN. *)
Definition special (s : gostring) : option float64 :=
  let '(signed, neg, body) :=
    match s with
    | c :: s' => if code c =? 45 then (true, true, s') else if code c =? 43 then (true, false, s') else (false, false, s)
    | [] => (false, false, [])
    end in
  if is_word "inf" body || is_word "infinity" body then Some (S754_infinity neg)
  else if negb signed && is_word "nan" body then Some S754_nan
  else None.

Record mantissa := mkMant { mt_value : Z; mt_frac : Z; mt_dot : bool; mt_digits : bool; mt_under : bool }.

Definition mant_digit (base v : Z) (mt : mantissa) : mantissa :=
  mkMant (mt_value mt * base + v) (if mt_dot mt then mt_frac mt + 1 else mt_frac mt) (mt_dot mt) true (mt_under mt).

(** The loop over the digits: the mantissa, and what is left. *)
Fixpoint read_mant (hex : bool) (s : gostring) (mt : mantissa) : mantissa * gostring :=
  match s with
  | [] => (mt, [])
  | c :: s' =>
      if code c =? 95 then
        read_mant hex s' (mkMant (mt_value mt) (mt_frac mt) (mt_dot mt) (mt_digits mt) true)
      else if code c =? 46 then
        if mt_dot mt then (mt, s)
        else read_mant hex s' (mkMant (mt_value mt) (mt_frac mt) true (mt_digits mt) (mt_under mt))
      else if is_dec c then read_mant hex s' (mant_digit (if hex then 16 else 10) (dec_val c) mt)
      else if hex && (97 <=? lower c) && (lower c <=? 102) then read_mant hex s' (mant_digit 16 (lower c - 87) mt)
      else (mt, s)
  end.

(** The digits of an exponent, which stops growing at 10000. *)
Fixpoint read_exp (e : Z) (under : bool) (s : gostring) : Z * bool * gostring :=
  match s with
  | [] => (e, under, [])
  | c :: s' =>
      if code c =? 95 then read_exp e true s'
      else if is_dec c then read_exp (if e <? 10000 then e * 10 + dec_val c else e) under s'
      else (e, under, s)
  end.

Inductive seen := SeenBegin | SeenDigit | SeenUnder | SeenOther.

Fixpoint underscore_scan (hex : bool) (saw : seen) (s : gostring) : bool :=
  match s with
  | [] => match saw with SeenUnder => false | _ => true end
  | c :: s' =>
      if is_dec c || (hex && (97 <=? lower c) && (lower c <=? 102)) then underscore_scan hex SeenDigit s'
      else if code c =? 95 then match saw with SeenDigit => underscore_scan hex SeenUnder s' | _ => false end
      else match saw with SeenUnder => false | _ => underscore_scan hex SeenOther s' end
  end.

Definition unsigned_part (s : gostring) : bool * gostring :=
  match s with
  | c :: s' => if code c =? 45 then (true, s') else if code c =? 43 then (false, s') else (false, s)
  | [] => (false, [])
  end.

Definition underscoreOK (s : gostring) : bool :=
  let '(_, s) := unsigned_part s in
  match s with
  | z :: x :: s' =>
      if (code z =? 48) && ((lower x =? 98) || (lower x =? 111) || (lower x =? 120))
      then underscore_scan (lower x =? 120) SeenDigit s'
      else underscore_scan false SeenBegin s
  | _ => underscore_scan false SeenBegin s
  end.

(** The value of a number that is not special; [None] when it is ill-formed. *)
Definition read_float (s : gostring) : option float64 :=
  let '(neg, body) := unsigned_part s in
  let '(hex, body) :=
    match body with
    | z :: x :: ((_ :: _) as s') => if (code z =? 48) && (lower x =? 120) then (true, s') else (false, body)
    | _ => (false, body)
    end in
  let '(mt, rest) := read_mant hex body (mkMant 0 0 false false false) in
  if negb (mt_digits mt) then None
  else
    let expchar := if hex then 112 else 101 in
    exponent ←
      (match rest with
       | c :: s' =>
           if lower c =? expchar then
             let '(eneg, s') := unsigned_part s' in
             match s' with
             | d :: _ =>
                 if is_dec d then
                   let '(e, under, rest) := read_exp 0 false s' in
                   match rest with [] => Some (if eneg then - e else e, under) | _ => None end
                 else None
             | [] => None
             end
           else None
       | [] => if hex then None else Some (0, false)
       end);
    let '(e, under) := exponent in
    if (mt_under mt || under) && negb (underscoreOK s) then None
    else if mt_value mt =? 0 then Some (S754_zero neg)
    else if hex then Some (hex_to_float neg (mt_value mt) (e - 4 * mt_frac mt))
    else Some (dec_to_float neg (mt_value mt) (e - mt_frac mt)).

Definition ParseFloat (s : gostring) : option float64 :=
  match special s with
  | Some x => Some x
  | None => match read_float s with
            | Some x => if is_inf x then None else Some x
            | None => None
            end
  end.

(** ** Parsing undoes formatting *)
Lemma strip_zeros_spec fuel c k :
  let '(c', k') := strip_zeros fuel c k in ∃ j, 0 ≤ j ∧ c = c' * 10 ^ j ∧ k' = k + j.
Proof.
  revert c k. induction fuel as [|f IH]; intros c k; simpl.
  - exists 0. lia.
  - destruct (Z.eqb_spec (c mod 10) 0) as [E|_]; [|exists 0; lia].
    specialize (IH (c / 10) (k + 1)). destruct (strip_zeros f (c / 10) (k + 1)) as [c' k'].
    destruct IH as (j & Hj & Hc & Hk). exists (j + 1). split; [lia|]. split; [|lia].
    rewrite Z.pow_add_r by lia. pose proof (Z.div_mod c 10 ltac:(lia)). lia.
Qed.

Lemma strip_zeros_nonneg fuel c k : 0 ≤ c → 0 ≤ (strip_zeros fuel c k).1.
Proof.
  intros Hc. pose proof (strip_zeros_spec fuel c k) as Hs. destruct (strip_zeros fuel c k) as [c' k'].
  destruct Hs as (j & Hj & -> & _). pose proof (Z.pow_pos_nonneg 10 j). simpl. nia.
Qed.

Lemma to_float_zero neg den : 0 < den → to_float neg 0 den = S754_zero neg.
Proof.
  intros Hd. unfold to_float. destruct (scale 0 den _) as [a b] eqn:E.
  assert (a = 0 ∧ 0 < b) as [-> Hb].
  { unfold scale in E. case_match eqn:El; injection E as <- <-; [|lia].
    apply Z.leb_le in El. split; [done|]. apply Z.mul_pos_pos; [done|]. apply Z.pow_pos_nonneg; lia. }
  unfold round_even. rewrite Z.div_0_l, Z.mod_0_l by lia. simpl. by destruct b.
Qed.

Lemma dec_to_float_zero neg k : dec_to_float neg 0 k = S754_zero neg.
Proof.
  unfold dec_to_float. destruct (Z.leb_spec 0 k); simpl; [by apply to_float_zero|].
  apply to_float_zero. apply Z.pow_pos_nonneg; lia.
Qed.

(** The exact expansion, with or without its trailing zeros, reads back. *)
Lemma exact_reads_back neg m e c k :
  bounded 53 1024 m e = true →
  (let '(d, k0) := exact_decimal (Z.pos m) e in ∃ j, 0 ≤ j ∧ d = c * 10 ^ j ∧ k = k0 + j) →
  dec_to_float neg c k = S754_finite neg m e.
Proof.
  intros Hb Hx. unfold exact_decimal in Hx. destruct (Z.leb_spec 0 e) as [He|He].
  - destruct Hx as (j & Hj & Hd & ->). unfold dec_to_float. destruct (Z.leb_spec 0 (0 + j)); [|lia].
    rewrite Z.add_0_l, <-Hd. pose proof (Z.pow_pos_nonneg 2 e ltac:(lia) He).
    apply to_float_exact; [lia|lia|done|]. unfold represents. rewrite Z.max_r, Z.max_l by lia. lia.
  - destruct Hx as (j & Hj & Hd & ->).
    assert (H10 : ∀ n, 0 ≤ n → 10 ^ n = 2 ^ n * 5 ^ n) by (intros; by rewrite <-Z.pow_mul_l).
    assert (Hpos : ∀ a n, 0 < a → 0 ≤ n → 0 < a ^ n) by (intros; by apply Z.pow_pos_nonneg).
    pose proof (Hpos 5 (- e) ltac:(lia) ltac:(lia)). pose proof (Hpos 10 j ltac:(lia) Hj).
    assert (Hc : 0 < c) by nia. unfold dec_to_float. destruct (Z.leb_spec 0 (e + j)) as [Hk|Hk].
    + pose proof (Hpos 10 (e + j) ltac:(lia) Hk). apply to_float_exact; [nia|lia|done|]. unfold represents.
      rewrite Z.max_l, Z.max_r by lia. apply (Z.mul_cancel_r _ _ (5 ^ (- e))); [lia|].
      replace (c * 10 ^ (e + j) * 2 ^ (- e) * 5 ^ (- e)) with (c * (10 ^ (e + j) * 10 ^ (- e)))
        by (rewrite (H10 (- e)) by lia; ring).
      rewrite <-Z.pow_add_r by lia. replace (e + j + - e) with j by lia. lia.
    + pose proof (Hpos 10 (- (e + j)) ltac:(lia) ltac:(lia)). apply to_float_exact; [done|done|done|]. unfold represents.
      rewrite Z.max_l, Z.max_r by lia. apply (Z.mul_cancel_r _ _ (10 ^ j)); [lia|].
      replace (Z.pos m * 10 ^ (- (e + j)) * 2 ^ 0 * 10 ^ j) with (Z.pos m * (10 ^ (- (e + j)) * 10 ^ j)) by ring.
      rewrite <-Z.pow_add_r by lia. replace (- (e + j) + j) with (- e) by lia. rewrite (H10 (- e)) by lia.
      replace (c * 2 ^ (- e) * 10 ^ j) with (c * 10 ^ j * 2 ^ (- e)) by ring. rewrite <-Hd. ring.
Qed.

Lemma shortest_from_spec fuel neg m e d k l n :
  bounded 53 1024 m e = true → exact_decimal (Z.pos m) e = (d, k) → 0 ≤ d →
  let '(c, k') := shortest_from fuel neg (S754_finite neg m e) d k l n in
  0 ≤ c ∧ dec_to_float neg c k' = S754_finite neg m e.
Proof.
  intros Hb Hx Hd. revert n. induction fuel as [|f IH]; intros n; simpl.
  - pose proof (strip_zeros_spec (Z.to_nat l) d k) as Hs.
    pose proof (strip_zeros_nonneg (Z.to_nat l) d k Hd) as Hn.
    destruct (strip_zeros (Z.to_nat l) d k) as [c k']. split; [done|]. apply exact_reads_back; [done|]. by rewrite Hx.
  - destruct (filter _ _) as [|[c k'] rest] eqn:Ef; [apply IH|].
    assert (Hin : (c, k') ∈ filter (λ ck, reads_back neg (S754_finite neg m e) ck) (candidates d k l n)).
    { rewrite Ef. constructor. }
    apply list_elem_of_filter in Hin as [Hr Hin]. unfold reads_back in Hr.
    apply Is_true_true, bool_decide_eq_true in Hr. split; [|done].
    assert (Hq : 0 ≤ d / 10 ^ (l - n)).
    { destruct (Z.le_gt_cases 0 (l - n)); [apply Z.div_pos; [done|apply Z.pow_pos_nonneg; lia]|].
      rewrite Z.pow_neg_r, Z.div_0_r by done. done. }
    unfold candidates in Hin. case_match;
      repeat (apply elem_of_cons in Hin as [Hin|Hin]); try (by inversion Hin);
      pose proof (strip_zeros_nonneg (Z.to_nat l) _ (k + (l - n)) Hq) as H1;
      pose proof (strip_zeros_nonneg (Z.to_nat (l + 1)) (d / 10 ^ (l - n) + 1) (k + (l - n)) ltac:(lia)) as H2;
      rewrite <-?Hin in *; simpl in *; done.
Qed.

Lemma shortest_spec neg m e :
  bounded 53 1024 m e = true →
  let '(c, k) := shortest neg m e in 0 < c ∧ dec_to_float neg c k = S754_finite neg m e.
Proof.
  intros Hb. unfold shortest. destruct (exact_decimal (Z.pos m) e) as [d k] eqn:Hx.
  assert (Hd : 0 ≤ d).
  { unfold exact_decimal in Hx. case_match; injection Hx as <- _; apply Z.mul_nonneg_nonneg; try lia;
      apply Z.pow_nonneg; lia. }
  pose proof (shortest_from_spec (Z.to_nat (len (format_uint d) - 1)) neg m e d k (len (format_uint d)) 1 Hb Hx Hd) as Hs.
  destruct (shortest_from _ _ _ _ _ _ _) as [c k']. destruct Hs as [Hc Hf]. split; [|done].
  destruct (Z.eq_dec c 0) as [->|]; [|lia]. by rewrite dec_to_float_zero in Hf.
Qed.

(** *** The exponents that occur *)
Lemma pow2_lt_inv a b : 0 ≤ b → 2 ^ a < 2 ^ b → a < b.
Proof.
  intros Hb Hlt. destruct (Z.lt_ge_cases a b) as [|Hge]; [done|]. exfalso.
  pose proof (Z.pow_le_mono_r 2 b a ltac:(lia) Hge). lia.
Qed.

Lemma to_float_huge neg num den j : 0 < den → 1100 ≤ j → den * 2 ^ j ≤ num → is_inf (to_float neg num den) = true.
Proof.
  intros Hd Hj Hn. assert (0 < num) as Hp by (pose proof (Z.pow_pos_nonneg 2 j); nia).
  set (s := Z.log2 den + 1). pose proof (Z.log2_nonneg den).
  destruct (flog2_spec num den s Hp Hd ltac:(lia) ltac:(lia)) as [Hk [Hlo Hhi]].
  assert (Hbig : 1100 ≤ flog2 num den).
  { assert (2 ^ (j + s) < 2 ^ (s + flog2 num den + 1)); [|apply pow2_lt_inv in H0; lia].
    rewrite pow2_split by lia. pose proof (Z.pow_pos_nonneg 2 s ltac:(lia) ltac:(lia)).
    set (P := 2 ^ j) in *. set (Q := 2 ^ (s + flog2 num den + 1)) in *. set (R := 2 ^ s) in *.
    clearbody P Q R. nia. }
  unfold to_float. rewrite Z.max_l by lia.
  destruct (scale num den (flog2 num den - 52)) as [a b] eqn:E.
  destruct (scale_pos _ _ _ _ _ Hp Hd E) as [Ha Hb].
  pose proof (scale_shift _ _ _ _ _ s E ltac:(lia) ltac:(lia)) as Hab.
  assert (Hge : b ≤ a).
  { pose proof (Z.pow_le_mono_r 2 (s + (flog2 num den - 52)) (s + flog2 num den) ltac:(lia) ltac:(lia)).
    pose proof (Z.pow_pos_nonneg 2 (s + (flog2 num den - 52)) ltac:(lia) ltac:(lia)).
    apply (Z.mul_le_mono_pos_r _ _ (den * 2 ^ (s + (flog2 num den - 52)))); [nia|]. rewrite Hab.
    apply Z.mul_le_mono_nonneg_l; [lia|]. etrans; [|exact Hlo]. apply Z.mul_le_mono_nonneg_l; lia. }
  assert (Hq : 1 ≤ round_even a b).
  { assert (1 ≤ a / b) by (apply Z.div_le_lower_bound; lia). unfold round_even. repeat case_match; lia. }
  destruct (round_even a b =? 2 ^ 53); [destruct (Z.ltb_spec 971 (flog2 num den - 52 + 1)); [done|lia]|].
  destruct (round_even a b) as [|q|q]; try lia. destruct (Z.ltb_spec 971 (flog2 num den - 52)); [done|lia].
Qed.

Lemma to_float_tiny neg num den j : 0 < num → 1200 ≤ j → num * 2 ^ j < den → to_float neg num den = S754_zero neg.
Proof.
  intros Hp Hj Hn. assert (0 < den) as Hd by (pose proof (Z.pow_pos_nonneg 2 j); nia).
  set (s := Z.log2 den + 1). pose proof (Z.log2_nonneg den).
  destruct (flog2_spec num den s Hp Hd ltac:(lia) ltac:(lia)) as [Hk [Hlo Hhi]].
  assert (Hsmall : flog2 num den < -1200).
  { assert (2 ^ (s + flog2 num den + j) < 2 ^ s); [|apply pow2_lt_inv in H0; lia].
    rewrite (pow2_split (s + flog2 num den)) by lia. pose proof (Z.pow_pos_nonneg 2 s ltac:(lia) ltac:(lia)).
    pose proof (Z.pow_pos_nonneg 2 j). set (P := 2 ^ j) in *. set (Q := 2 ^ (s + flog2 num den)) in *.
    set (R := 2 ^ s) in *. clearbody P Q R. nia. }
  unfold to_float. rewrite Z.max_r by lia. change (scale num den (-1074)) with (num * 2 ^ 1074, den). cbv beta iota zeta.
  assert (Ha : 0 < 2 ^ 1074 ∧ num * 2 ^ 1074 * 2 < den).
  { clear -Hn Hp Hj. assert (Hpow : 2 ^ (1074 + 1) ≤ 2 ^ j) by (apply Z.pow_le_mono_r; lia). rewrite Z.pow_add_r in Hpow by lia.
    pose proof (Z.pow_pos_nonneg 2 1074 ltac:(lia) ltac:(lia)) as H0. revert Hpow H0. generalize (2 ^ 1074) as P. intros P Hpow H0.
    split; [done|]. nia. }
  revert Ha. generalize (2 ^ 1074) as P. intros P [HP Ha].
  assert (round_even (num * P) den = 0) as ->; [|done].
  unfold round_even. rewrite Z.div_small, Z.mod_small by nia. destruct (Z.compare_spec (2 * (num * P)) den); lia.
Qed.

Lemma dec_value_bounds s : all_dec s → 0 ≤ dec_value 0 s < 10 ^ len s.
Proof.
  induction 1 as [|c s Hc _ IH]; [done|]. change (dec_value 0 (c :: s)) with (dec_value (0 * 10 + dec_val c) s).
  rewrite dec_value_acc. apply is_dec_range in Hc. unfold len in *. simpl length.
  rewrite Nat2Z.inj_succ, Z.pow_succ_r by lia. nia.
Qed.

Lemma format_uint_len n : 0 < n → 10 ^ (len (format_uint n) - 1) ≤ n < 10 ^ len (format_uint n).
Proof.
  intros Hn. destruct (format_uint_spec n ltac:(lia)) as (Ha & Hv & _ & Hhd).
  destruct (Hhd Hn) as (c & r & E & Hc). pose proof (dec_value_bounds _ Ha) as Hb. rewrite Hv in Hb.
  split; [|lia]. rewrite E in Ha, Hv. apply Forall_cons in Ha as [Hd Hr].
  change (dec_value 0 (c :: r)) with (dec_value (0 * 10 + dec_val c) r) in Hv. rewrite dec_value_acc in Hv.
  pose proof (dec_value_bounds r Hr). apply is_dec_range in Hd. rewrite E. unfold len in *. simpl length.
  replace (Z.of_nat (S (length r)) - 1) with (Z.of_nat (length r)) by lia. nia.
Qed.

(** The decimal exponent of a float's digits: stated for a symbolic bound [J], so that no power of a
    large literal is ever computed. *)
Lemma shortest_exponent_bound J neg m e c k :
  1200 ≤ J → 0 < c → dec_to_float neg c k = S754_finite neg m e → - J ≤ len (format_uint c) + k - 1 ≤ J.
Proof.
  intros HJ Hc Hf. pose proof (format_uint_len c Hc) as Hl. pose proof (len_nonneg (format_uint c)) as Hn.
  assert (1 ≤ len (format_uint c)) as Hl1.
  { destruct (format_uint_spec c ltac:(lia)) as (_ & _ & Hne & _). unfold len. destruct (format_uint c); [done|simpl; lia]. }
  set (n := len (format_uint c)) in *. assert (H10 : ∀ j, 0 ≤ j → 0 < 2 ^ j ≤ 10 ^ j).
  { intros j Hj. split; [apply Z.pow_pos_nonneg; lia|apply Z.pow_le_mono_l; lia]. }
  split.
  - destruct (Z.le_gt_cases (-J) (n + k - 1)) as [|Hlt]; [done|]. exfalso.
    unfold dec_to_float in Hf. destruct (Z.leb_spec 0 k); [lia|]. rewrite (to_float_tiny _ _ _ J) in Hf; [done|done|lia|].
    pose proof (Z.pow_le_mono_r 10 (n + J) (- k) ltac:(lia) ltac:(lia)) as Hp. rewrite Z.pow_add_r in Hp by lia.
    pose proof (H10 J ltac:(lia)). nia.
  - destruct (Z.le_gt_cases (n + k - 1) J) as [|Hgt]; [done|]. exfalso.
    assert (is_inf (dec_to_float neg c k) = true) as Hi; [|by rewrite Hf in Hi].
    pose proof (H10 J ltac:(lia)) as HJ10.
    pose proof (Z.pow_le_mono_r 10 J (n + k - 1) ltac:(lia) ltac:(lia)) as Hp.
    unfold dec_to_float. destruct (Z.leb_spec 0 k); apply (to_float_huge _ _ _ J); try lia.
    + assert (10 ^ (n + k - 1) ≤ c * 10 ^ k); [|lia].
      replace (n + k - 1) with ((n - 1) + k) by lia. rewrite Z.pow_add_r by lia. pose proof (Z.pow_pos_nonneg 10 k). nia.
    + assert (10 ^ (- k) * 10 ^ (n + k - 1) ≤ c) as Hm.
      { rewrite <-Z.pow_add_r by lia. replace (- k + (n + k - 1)) with (n - 1) by lia. lia. }
      pose proof (Z.pow_pos_nonneg 10 (- k) ltac:(lia) ltac:(lia)). nia.
Qed.

Lemma shortest_exponent neg m e c k :
  0 < c → dec_to_float neg c k = S754_finite neg m e → -1200 ≤ len (format_uint c) + k - 1 ≤ 1200.
Proof. exact (shortest_exponent_bound 1200 neg m e c k ltac:(lia)). Qed.

(** *** Reading the text *)
Definition mant_digits (ds : gostring) (mt : mantissa) : mantissa :=
  mkMant (dec_value (mt_value mt) ds) (if mt_dot mt then mt_frac mt + len ds else mt_frac mt) (mt_dot mt)
    (match ds with [] => mt_digits mt | _ => true end) (mt_under mt).

Lemma dec_code c : is_dec c = true → code c ≠ 95 ∧ code c ≠ 46 ∧ code c ≠ 45 ∧ code c ≠ 43 ∧ 48 ≤ lower c ≤ 57.
Proof.
  unfold is_dec. intros Hc. split_and!; try lia; unfold lower;
    (assert (code c = 48 ∨ code c = 49 ∨ code c = 50 ∨ code c = 51 ∨ code c = 52 ∨ code c = 53 ∨ code c = 54
      ∨ code c = 55 ∨ code c = 56 ∨ code c = 57) as Hd by lia);
    repeat (destruct Hd as [-> |Hd]; [done|]); rewrite Hd; done.
Qed.

Lemma read_mant_digits ds s mt :
  all_dec ds → read_mant false (ds ++ s) mt = read_mant false s (mant_digits ds mt).
Proof.
  intros Hd. revert mt. induction Hd as [|c ds Hc Hd IH]; intros mt.
  - destruct mt as [v f d g u]. unfold mant_digits, len. simpl. destruct d; rewrite ?Z.add_0_r; done.
  - pose proof (dec_code c Hc) as (H1 & H2 & _). cbn [app read_mant].
    replace (code c =? 95) with false by lia. replace (code c =? 46) with false by lia. rewrite Hc, IH.
    f_equal. unfold mant_digits, mant_digit, len. destruct mt as [v f d g u]. simpl.
    destruct d, ds; simpl; f_equal; lia.
Qed.

Lemma read_mant_stop c s mt :
  code c ≠ 95 → code c ≠ 46 → is_dec c = false → read_mant false (c :: s) mt = (mt, c :: s).
Proof.
  intros H1 H2 H3. simpl. replace (code c =? 95) with false by lia. replace (code c =? 46) with false by lia.
  by rewrite H3.
Qed.

Lemma read_exp_digits ds e :
  all_dec ds → 0 ≤ e → e * 10 ^ len ds + dec_value 0 ds < 10 ^ 5 → read_exp e false ds = (dec_value e ds, false, []).
Proof.
  intros Hd. revert e. induction Hd as [|c ds Hc Hd IH]; intros e He Hb; [done|].
  pose proof (dec_code c Hc) as (H1 & _). pose proof (is_dec_range c Hc) as Hr.
  change (dec_value 0 (c :: ds)) with (dec_value (0 * 10 + dec_val c) ds) in Hb. rewrite dec_value_acc in Hb.
  unfold len in Hb. simpl length in Hb. rewrite Nat2Z.inj_succ, Z.pow_succ_r in Hb by lia. fold (len ds) in Hb.
  pose proof (dec_value_bounds ds Hd). pose proof (Z.pow_pos_nonneg 10 (len ds) ltac:(lia) (len_nonneg ds)).
  cbn [read_exp]. replace (code c =? 95) with false by lia. rewrite Hc.
  destruct (Z.ltb_spec e 10000); [|nia]. rewrite IH; [done|lia|]. nia.
Qed.

Lemma read_exp_fmt x :
  -1200 ≤ x ≤ 1200 →
  ∃ d r, unsigned_part (fmt_exp x) = (x <? 0, d :: r) ∧ is_dec d = true ∧ read_exp 0 false (d :: r) = (Z.abs x, false, []).
Proof.
  intros Hx. destruct (format_uint_spec (Z.abs x) ltac:(lia)) as (Ha & Hv & Hne & _).
  set (ds := if Z.abs x <? 10 then digit 0 :: format_uint (Z.abs x) else format_uint (Z.abs x)).
  assert (all_dec ds ∧ dec_value 0 ds = Z.abs x ∧ ds ≠ []) as (Hda & Hdv & Hdn).
  { unfold ds. case_match; [|done]. split_and!; [|done|done]. constructor; [done|exact Ha]. }
  unfold unsigned_part, fmt_exp. fold ds. destruct ds as [|d r] eqn:E; [done|].
  exists d, r. split; [|split].
  - destruct (Z.ltb_spec x 0); by rewrite code_byte_of by lia.
  - by apply Forall_inv in Hda.
  - rewrite read_exp_digits; [by rewrite Hdv|done|lia|]. rewrite Hdv. lia.
Qed.

(** What is left of a number once its mantissa and exponent are known. *)
Definition finish_float (neg : bool) (v f e : Z) : option float64 :=
  if v =? 0 then Some (S754_zero neg) else Some (dec_to_float neg v (e - f)).

Definition mant0 : mantissa := mkMant 0 0 false false false.

Lemma read_float_plain s neg body mt :
  unsigned_part s = (neg, body) → (∀ z x r, body = z :: x :: r → lower x ≠ 120) →
  read_mant false body mant0 = (mt, []) → mt_digits mt = true → mt_under mt = false →
  read_float s = finish_float neg (mt_value mt) (mt_frac mt) 0.
Proof.
  intros Hu Hx Hm Hd Hn. unfold read_float. rewrite Hu. fold mant0.
  assert (Hhex : match body with
    | z :: x :: ((_ :: _) as s') => if (code z =? 48) && (lower x =? 120) then (true, s') else (false, body)
    | _ => (false, body) end = (false, body)).
  { destruct body as [|z [|x [|y r]]]; try done. specialize (Hx z x (y :: r) eq_refl).
    replace (lower x =? 120) with false by lia. by rewrite andb_false_r. }
  rewrite Hhex, Hm, Hd. simpl. rewrite Hn. simpl. unfold finish_float. done.
Qed.

Lemma read_float_exp s neg body mt x :
  unsigned_part s = (neg, body) → (∀ z x r, body = z :: x :: r → lower x ≠ 120) →
  read_mant false body mant0 = (mt, byte_of 101 :: fmt_exp x) → mt_digits mt = true → mt_under mt = false →
  -1200 ≤ x ≤ 1200 →
  read_float s = finish_float neg (mt_value mt) (mt_frac mt) x.
Proof.
  intros Hu Hx Hm Hd Hn Hb. unfold read_float. rewrite Hu. fold mant0.
  assert (Hhex : match body with
    | z :: x :: ((_ :: _) as s') => if (code z =? 48) && (lower x =? 120) then (true, s') else (false, body)
    | _ => (false, body) end = (false, body)).
  { destruct body as [|z [|x' [|y r]]]; try done. specialize (Hx z x' (y :: r) eq_refl).
    replace (lower x' =? 120) with false by lia. by rewrite andb_false_r. }
  rewrite Hhex, Hm, Hd. cbn [negb]. change (lower (byte_of 101) =? 101) with true. cbv beta iota.
  destruct (read_exp_fmt x Hb) as (d & r & Hue & Hdd & Hre). rewrite Hue, Hdd, Hre. cbn [mbind option_bind].
  rewrite Hn. cbn [orb andb]. unfold finish_float.
  replace (if x <? 0 then - Z.abs x else Z.abs x) with x by (destruct (Z.ltb_spec x 0); lia). done.
Qed.

(** *** The characters of a formatted number *)
Definition num_char (c : ascii) : bool :=
  is_dec c || (code c =? 46) || (code c =? 101) || (code c =? 43) || (code c =? 45).

Lemma num_char_lower c : num_char c = true → lower c ≠ 120 ∧ lower c ≠ 105 ∧ lower c ≠ 110.
Proof.
  unfold num_char. intros Hc. destruct (is_dec c) eqn:Hd.
  - apply dec_code in Hd. lia.
  - unfold lower. assert (code c = 46 ∨ code c = 101 ∨ code c = 43 ∨ code c = 45) as [-> |[-> |[-> | ->]]] by lia; done.
Qed.

Lemma dec_num_char ds : all_dec ds → Forall (λ c, num_char c = true) ds.
Proof. intros Hd. eapply Forall_impl; [exact Hd|]. intros c Hc. unfold num_char. by rewrite Hc. Qed.

Lemma all_dec_zeros n : all_dec (replicate n (digit 0)).
Proof. by apply Forall_replicate. Qed.

Lemma fmt_exp_chars x : Forall (λ c, num_char c = true) (fmt_exp x).
Proof.
  destruct (format_uint_spec (Z.abs x) ltac:(lia)) as (Ha & _). unfold fmt_exp. constructor.
  - unfold num_char. destruct (x <? 0); done.
  - apply dec_num_char. case_match; [constructor; done|done].
Qed.

Lemma fmtE_chars digs x : all_dec digs → Forall (λ c, num_char c = true) (fmtE digs x).
Proof.
  intros Hd. destruct Hd as [|c r Hc Hr]; [constructor|]. cbn [fmtE]. constructor; [unfold num_char; by rewrite Hc|].
  apply Forall_app. split; [|constructor; [done|apply fmt_exp_chars]].
  destruct Hr as [|c' r' Hc' Hr']; [constructor|]. constructor; [done|]. apply dec_num_char. by constructor.
Qed.

Lemma fmtF_chars digs dp : all_dec digs → Forall (λ c, num_char c = true) (fmtF digs dp).
Proof.
  intros Hd. unfold fmtF. apply Forall_app. split.
  - case_match; [|by repeat constructor]. apply dec_num_char, Forall_app. split; [by apply Forall_take|apply all_dec_zeros].
  - case_match; [|constructor]. constructor; [done|]. apply dec_num_char, Forall_app.
    split; [apply all_dec_zeros|by apply Forall_drop].
Qed.

Lemma dec_value_zeros n a : dec_value a (replicate n (digit 0)) = a * 10 ^ Z.of_nat n.
Proof.
  rewrite dec_value_acc. unfold len. rewrite length_replicate.
  assert (dec_value 0 (replicate n (digit 0)) = 0) as ->; [|lia].
  induction n as [|n IH]; [done|]. exact IH.
Qed.

(** The mantissa of a number without exponent. *)
Lemma read_mant_fmtF c k :
  0 < c → let digs := format_uint c in let dp := len digs + k in
  ∃ mt, read_mant false (fmtF digs dp) mant0 = (mt, []) ∧ mt_digits mt = true ∧ mt_under mt = false
        ∧ ((mt_value mt = c ∧ mt_frac mt = - k) ∨ (mt_value mt = c * 10 ^ k ∧ mt_frac mt = 0 ∧ 0 ≤ k)).
Proof.
  intros Hc digs dp. destruct (format_uint_spec c ltac:(lia)) as (Ha & Hv & Hne & _). fold digs in Ha, Hv, Hne.
  assert (Hdp : dp = len digs + k) by done. clearbody dp.
  assert (Hl : 1 ≤ len digs) by (unfold len; destruct digs; [done|simpl; lia]).
  assert (Hnil : ∀ (l : gostring), l = l ++ []) by (intros; by rewrite app_nil_r).
  unfold fmtF. destruct (Z.ltb_spec 0 dp) as [Hp|Hp].
  - destruct (Z.ltb_spec dp (len digs)) as [Hlt|Hge].
    + replace (Z.to_nat (dp - len digs)) with 0%nat by lia. replace (Z.to_nat (- dp)) with 0%nat by lia.
      cbn [replicate app]. rewrite app_nil_r.
      rewrite read_mant_digits by (by apply Forall_take). cbn [read_mant].
      change (code (byte_of 46) =? 95) with false. change (code (byte_of 46) =? 46) with true.
      cbn [mant_digits mt_dot mant0 mt_value mt_frac mt_under mt_digits].
      rewrite (Hnil (drop _ _)), read_mant_digits by (by apply Forall_drop). cbn [read_mant].
      eexists. split; [done|]. cbn [mant_digits mt_dot mt_value mt_frac mt_under mt_digits].
      rewrite <-dec_value_app, take_drop. split; [|split; [done|left; split; [done|]]].
      * destruct (drop _ _) eqn:Ed; [|done]. apply (f_equal length) in Ed. rewrite length_drop in Ed. simpl in Ed.
        unfold len in *. lia.
      * unfold len. rewrite length_drop. unfold len in *. lia.
    + rewrite take_ge by (unfold len in *; lia). rewrite app_nil_r, (Hnil (_ ++ _)).
      rewrite read_mant_digits by (apply Forall_app; split; [done|apply all_dec_zeros]). cbn [read_mant].
      eexists. split; [done|]. cbn [mant_digits mt_dot mant0 mt_value mt_frac mt_under mt_digits].
      split; [by destruct digs|]. split; [done|]. right. rewrite dec_value_app, Hv, dec_value_zeros.
      replace (Z.of_nat (Z.to_nat (dp - len digs))) with k by lia. split; [done|]. split; [done|lia].
  - destruct (Z.ltb_spec dp (len digs)) as [Hlt|Hge]; [|lia]. replace (Z.to_nat dp) with 0%nat by lia.
    change (drop 0 digs) with digs. cbn [app].
    change (digit 0 :: byte_of 46 :: replicate (Z.to_nat (- dp)) (digit 0) ++ digs)
      with ([digit 0] ++ byte_of 46 :: replicate (Z.to_nat (- dp)) (digit 0) ++ digs).
    rewrite read_mant_digits by (by repeat constructor). cbn [read_mant].
    change (code (byte_of 46) =? 95) with false. change (code (byte_of 46) =? 46) with true.
    cbn [mant_digits mt_dot mant0 mt_value mt_frac mt_under mt_digits].
    rewrite (Hnil (_ ++ _)), read_mant_digits by (apply Forall_app; split; [apply all_dec_zeros|done]). cbn [read_mant].
    eexists. split; [done|]. cbn [mant_digits mt_dot mt_value mt_frac mt_under mt_digits].
    split; [by destruct (_ ++ _)|]. split; [done|]. left. rewrite dec_value_app, dec_value_zeros.
    change (dec_value 0 [digit 0] * 10 ^ Z.of_nat (Z.to_nat (- dp))) with (0 * 10 ^ Z.of_nat (Z.to_nat (- dp))).
    rewrite Z.mul_0_l, Hv. split; [done|]. unfold len in *. rewrite length_app, length_replicate. lia.
Qed.

Lemma read_mant_fmtE c x :
  0 < c → let digs := format_uint c in
  ∃ mt, read_mant false (fmtE digs x) mant0 = (mt, byte_of 101 :: fmt_exp x) ∧ mt_digits mt = true
        ∧ mt_under mt = false ∧ mt_value mt = c ∧ mt_frac mt = len digs - 1.
Proof.
  intros Hc digs. destruct (format_uint_spec c ltac:(lia)) as (Ha & Hv & Hne & _). fold digs in Ha, Hv, Hne.
  destruct digs as [|c0 [|c1 r]]; [done| |].
  - cbn [fmtE app]. change (c0 :: byte_of 101 :: fmt_exp x) with ([c0] ++ byte_of 101 :: fmt_exp x).
    rewrite read_mant_digits, read_mant_stop by done. eexists. split; [done|]. done.
  - cbn [fmtE]. apply Forall_cons in Ha as [Hc0 Hr].
    change (c0 :: (byte_of 46 :: c1 :: r) ++ byte_of 101 :: fmt_exp x)
      with ([c0] ++ byte_of 46 :: (c1 :: r) ++ byte_of 101 :: fmt_exp x).
    rewrite read_mant_digits by (by repeat constructor). cbn [read_mant].
    change (code (byte_of 46) =? 95) with false. change (code (byte_of 46) =? 46) with true.
    cbn [mant_digits mt_dot mant0 mt_value mt_frac mt_under mt_digits].
    rewrite read_mant_digits, read_mant_stop by done. eexists. split; [done|].
    cbn [mant_digits mt_dot mt_value mt_frac mt_under mt_digits]. split_and!; [done|done|exact Hv|].
    unfold len. simpl. lia.
Qed.

(** The text of a finite non-zero float without its sign. *)
Lemma finite_body neg m e :
  bounded 53 1024 m e = true →
  ∃ body, FormatFloat (S754_finite neg m e) = (if neg then [byte_of 45] else []) ++ body
    ∧ Forall (λ c, num_char c = true) body ∧ (∃ d r, body = d :: r ∧ is_dec d = true)
    ∧ ∀ s, unsigned_part s = (neg, body) → read_float s = Some (S754_finite neg m e).
Proof.
  intros Hb. pose proof (shortest_spec neg m e Hb) as Hs. unfold FormatFloat.
  destruct (shortest neg m e) as [c k]. destruct Hs as [Hc Hf].
  destruct (format_uint_spec c ltac:(lia)) as (Ha & Hv & Hne & _).
  pose proof (shortest_exponent neg m e c k Hc Hf) as Hx.
  exists (fmt_body c k). split; [done|].
  assert (Hchars : Forall (λ c, num_char c = true) (fmt_body c k))
    by (unfold fmt_body; destruct (_ || _); [by apply fmtE_chars|by apply fmtF_chars]).
  split; [done|].
  assert (Hx' : ∀ z x r, fmt_body c k = z :: x :: r → lower x ≠ 120).
  { intros z x r E. rewrite E in Hchars. apply Forall_cons in Hchars as [_ Hchars].
    apply Forall_cons in Hchars as [Hxc _]. by apply num_char_lower in Hxc as [? _]. }
  assert (Hfin : ∀ v f x, v ≠ 0 → dec_to_float neg v (x - f) = S754_finite neg m e →
                 finish_float neg v f x = Some (S754_finite neg m e)).
  { intros v f x Hv0 <-. unfold finish_float. destruct (Z.eqb_spec v 0); done. }
  unfold fmt_body in *. destruct (_ || _).
  - split.
    + destruct (format_uint c) as [|d r]; [done|]. exists d. eexists. split; [done|]. by apply Forall_inv in Ha.
    + intros s Hu. destruct (read_mant_fmtE c (len (format_uint c) + k - 1) Hc) as (mt & Hm & Hd & Hun & Hmv & Hmf).
      rewrite (read_float_exp s neg _ mt _ Hu Hx' Hm Hd Hun Hx). apply Hfin; [lia|].
      rewrite Hmv, Hmf, <-Hf. f_equal. lia.
  - split.
    + unfold fmtF. destruct (Z.ltb_spec 0 (len (format_uint c) + k)); [|by exists (digit 0); eexists].
      destruct (format_uint c) as [|d r]; [done|]. exists d.
      destruct (Z.to_nat (len (d :: r) + k)) eqn:E; [lia|]. eexists. split; [done|]. by apply Forall_inv in Ha.
    + intros s Hu. destruct (read_mant_fmtF c k Hc) as (mt & Hm & Hd & Hun & Hcase).
      rewrite (read_float_plain s neg _ mt Hu Hx' Hm Hd Hun).
      destruct Hcase as [[Hmv Hmf]|(Hmv & Hmf & Hk)]; apply Hfin; rewrite Hmv, ?Hmf.
      * lia.
      * rewrite <-Hf. f_equal. lia.
      * pose proof (Z.pow_pos_nonneg 10 k ltac:(lia) Hk). nia.
      * rewrite <-Hf. unfold dec_to_float. destruct (Z.leb_spec 0 k); [|lia]. simpl. by rewrite Z.mul_1_r.
Qed.

Lemma is_word_head w c s d r :
  str w = d :: r → lower c ≠ code d → is_word w (c :: s) = false.
Proof. intros Hw Hc. unfold is_word. rewrite Hw. apply bool_decide_eq_false. simpl. congruence. Qed.

Lemma special_number s neg d r :
  unsigned_part s = (neg, d :: r) → is_dec d = true → special s = None.
Proof.
  intros Hu Hd. pose proof (dec_code d Hd) as (_ & _ & _ & _ & Hl).
  assert (H1 : is_word "inf" (d :: r) = false) by (eapply is_word_head; [done|]; change (lower d ≠ 105); lia).
  assert (H2 : is_word "infinity" (d :: r) = false) by (eapply is_word_head; [done|]; change (lower d ≠ 105); lia).
  assert (H3 : is_word "nan" (d :: r) = false) by (eapply is_word_head; [done|]; change (lower d ≠ 110); lia).
  unfold special. destruct s as [|c s]; [done|]. simpl in Hu.
  destruct (code c =? 45); [injection Hu as _ ->; by rewrite H1, H2|].
  destruct (code c =? 43); injection Hu as _; simplify_eq; by rewrite H1, H2, ?H3.
Qed.

(** ParseFloat undoes FormatFloat on every float64. *)
Theorem ParseFloat_FormatFloat x : valid x = true → ParseFloat (FormatFloat x) = Some x.
Proof.
  intros Hv. destruct x as [[]|[]| |neg m e]; try reflexivity.
  destruct (finite_body neg m e Hv) as (body & E & Hc & (d & r & -> & Hd) & Hr).
  assert (Hu : unsigned_part (FormatFloat (S754_finite neg m e)) = (neg, d :: r)).
  { rewrite E. pose proof (dec_code d Hd) as (_ & _ & H1 & H2 & _). destruct neg; [done|]. simpl.
    replace (code d =? 45) with false by lia. by replace (code d =? 43) with false by lia. }
  unfold ParseFloat. rewrite (special_number _ _ _ _ Hu Hd), (Hr _ Hu). done.
Qed.

(** The bytes FormatFloat can produce. *)
Definition float_char (c : ascii) : bool :=
  num_char c || existsb (λ n, code c =? n) [78; 97; 73; 110; 102].

Lemma FormatFloat_chars x : valid x = true → Forall (λ c, float_char c = true) (FormatFloat x) ∧ FormatFloat x ≠ [].
Proof.
  intros Hv. destruct x as [[]|[]| |neg m e]; try (split; [by repeat constructor|done]).
  destruct (finite_body neg m e Hv) as (body & E & Hc & (d & r & -> & Hd) & _). rewrite E. split.
  - apply Forall_app. split; [destruct neg; by repeat constructor|]. eapply Forall_impl; [exact Hc|].
    intros c Hn. unfold float_char. by rewrite Hn.
  - by destruct neg.
Qed.

(** *** What ParseFloat returns is a float64 *)
Lemma bounded_intro m e :
  e = Z.max (Z.log2 (Z.pos m) + e - 52) (-1074) → e ≤ 971 → bounded 53 1024 m e = true.
Proof.
  intros He Hm. unfold bounded, canonical_mantissa, fexp, emin. rewrite digits2_log2.
  apply andb_true_iff. split; [apply Z.eqb_eq|apply Z.leb_le]; lia.
Qed.

Lemma round_even_bounds a b lo hi :
  0 < b → lo * b ≤ a → a < hi * b → lo ≤ round_even a b ≤ hi.
Proof.
  intros Hb Hlo Hhi. assert (lo ≤ a / b) by (apply Z.div_le_lower_bound; lia).
  assert (a / b < hi) by (apply Z.div_lt_upper_bound; lia).
  unfold round_even. repeat case_match; lia.
Qed.

(** The scaled value, between [2^52] and [2^53] unless it is subnormal. *)
Lemma scaled_bounds num den a b :
  0 < num → 0 < den → scale num den (Z.max (flog2 num den - 52) (-1074)) = (a, b) →
  0 < b ∧ a < 2 ^ 53 * b ∧ (-1074 < flog2 num den - 52 → 2 ^ 52 * b ≤ a) ∧ (flog2 num den - 52 < -1074 → a < 2 ^ 52 * b).
Proof.
  intros Hn Hd E. destruct (scale_pos _ _ _ _ _ Hn Hd E) as [Ha Hb].
  set (k := flog2 num den) in *. set (e := Z.max (k - 52) (-1074)) in *.
  set (s := Z.max (Z.log2 den + 1) 2000). pose proof (Z.log2_nonneg den).
  destruct (flog2_spec num den s Hn Hd ltac:(lia) ltac:(lia)) as [Hk [Hlo Hhi]]. fold k in Hk, Hlo, Hhi.
  pose proof (scale_shift _ _ _ _ _ s E ltac:(lia) ltac:(lia)) as Hab.
  assert (HE : 0 < den * 2 ^ (s + e)) by (apply Z.mul_pos_pos; [done|apply Z.pow_pos_nonneg; lia]).
  assert (Hup : ∀ j, k + 1 ≤ e + j → 0 ≤ j → a < 2 ^ j * b).
  { intros j Hj Hj0. apply (Z.mul_lt_mono_pos_r (den * 2 ^ (s + e))); [done|]. rewrite Hab.
    replace (2 ^ j * b * (den * 2 ^ (s + e))) with (b * (den * (2 ^ (s + e) * 2 ^ j))) by ring.
    rewrite <-pow2_split by lia. apply Z.mul_lt_mono_pos_l; [done|]. eapply Z.lt_le_trans; [exact Hhi|].
    apply Z.mul_le_mono_nonneg_l; [lia|]. apply Z.pow_le_mono_r; lia. }
  split; [done|]. split; [apply Hup; lia|]. split.
  - intros Hnorm. apply (Z.mul_le_mono_pos_r _ _ (den * 2 ^ (s + e))); [done|]. rewrite Hab.
    replace (2 ^ 52 * b * (den * 2 ^ (s + e))) with (b * (den * (2 ^ (s + e) * 2 ^ 52))) by ring.
    rewrite <-pow2_split by lia. apply Z.mul_le_mono_nonneg_l; [lia|]. replace (s + e + 52) with (s + k) by lia. done.
  - intros Hsub. apply Hup; lia.
Qed.

Lemma to_float_valid neg num den : 0 < num → 0 < den → valid (to_float neg num den) = true.
Proof.
  intros Hn Hd. unfold to_float. set (k := flog2 num den).
  destruct (scale num den (Z.max (k - 52) (-1074))) as [a b] eqn:E.
  destruct (scaled_bounds num den a b Hn Hd E) as (Hb & Hup & Hnorm & Hsub). fold k in Hnorm, Hsub.
  assert (Hq : 0 ≤ round_even a b ≤ 2 ^ 53).
  { apply round_even_bounds; [done| |done]. destruct (scale_pos _ _ _ _ _ Hn Hd E). lia. }
  assert (Hqn : -1074 < k - 52 → 2 ^ 52 ≤ round_even a b) by (intros Hk; apply (round_even_bounds a b _ (2 ^ 53)); auto).
  assert (Hqs : k - 52 < -1074 → round_even a b ≤ 2 ^ 52).
  { intros Hk. apply (round_even_bounds a b 0 _); auto. destruct (scale_pos _ _ _ _ _ Hn Hd E). lia. }
  destruct (Z.eqb_spec (round_even a b) (2 ^ 53)) as [Eq|Hne].
  - cbv beta iota. change (2 ^ 52) with 4503599627370496 in *. cbv iota.
    destruct (Z.ltb_spec 971 (Z.max (k - 52) (-1074) + 1)); [done|]. apply bounded_intro; [|done].
    change (Z.log2 4503599627370496) with 52. lia.
  - destruct (round_even a b) as [|q|q] eqn:Eq; [done| |done].
    destruct (Z.ltb_spec 971 (Z.max (k - 52) (-1074))); [done|]. apply bounded_intro; [|done].
    assert (Z.log2 (Z.pos q) < 53) by (apply Z.log2_lt_pow2; lia). pose proof (Z.log2_nonneg (Z.pos q)).
    destruct (Z.lt_ge_cases (-1074) (k - 52)) as [Hk|Hk]; [|lia].
    assert (52 ≤ Z.log2 (Z.pos q)) by (apply Z.log2_le_pow2; [lia|auto]). lia.
Qed.

Lemma dec_to_float_valid neg c k : 0 < c → valid (dec_to_float neg c k) = true.
Proof.
  intros Hc. unfold dec_to_float. destruct (Z.leb_spec 0 k); apply to_float_valid; try done;
    try apply Z.mul_pos_pos; try apply Z.pow_pos_nonneg; lia.
Qed.

Lemma hex_to_float_valid neg c k : 0 < c → valid (hex_to_float neg c k) = true.
Proof.
  intros Hc. unfold hex_to_float. destruct (Z.leb_spec 0 k); apply to_float_valid; try done;
    try apply Z.mul_pos_pos; try apply Z.pow_pos_nonneg; lia.
Qed.

Lemma read_mant_nonneg hex s mt : 0 ≤ mt_value mt → 0 ≤ mt_value (read_mant hex s mt).1.
Proof.
  revert mt. induction s as [|c s IH]; intros mt Hm; [done|]. cbn [read_mant].
  destruct (code c =? 95); [by apply IH|]. destruct (code c =? 46); [destruct (mt_dot mt); [done|by apply IH]|].
  destruct (is_dec c) eqn:Hd.
  - apply is_dec_range in Hd. apply IH. unfold mant_digit. simpl. destruct hex; lia.
  - destruct (hex && (97 <=? lower c) && (lower c <=? 102)) eqn:Hx; [|done]. apply IH. unfold mant_digit. simpl. lia.
Qed.

Lemma ParseFloat_valid s x : ParseFloat s = Some x → valid x = true.
Proof.
  unfold ParseFloat. destruct (special s) as [y|] eqn:Es.
  - intros [= <-]. unfold special in Es. repeat case_match; by simplify_eq.
  - destruct (read_float s) as [y|] eqn:Er; [|done]. destruct (is_inf y); [done|]. intros [= <-].
    unfold read_float in Er. destruct (unsigned_part s) as [neg body].
    match type of Er with (match ?X with (_, _) => _ end) = _ => destruct X as [hex body'] end.
    pose proof (read_mant_nonneg hex body' (mkMant 0 0 false false false) (Z.le_refl 0)) as Hnn.
    destruct (read_mant hex body' _) as [mt rest]. simpl in Hnn. destruct (negb (mt_digits mt)); [done|].
    apply bind_Some in Er as ([e under] & _ & Er). destruct (_ && _); [done|].
    destruct (Z.eqb_spec (mt_value mt) 0); [by injection Er as <-|].
    destruct hex; injection Er as <-; [apply hex_to_float_valid|apply dec_to_float_valid]; lia.
Qed.

(** ** Integers as floats *)
Lemma iter_xO m n : Z.pos (Pos.iter xO m n) = Z.pos m * 2 ^ Z.pos n.
Proof.
  induction n using Pos.peano_ind; [simpl; lia|].
  rewrite Pos.iter_succ, Pos2Z.inj_succ, Z.pow_succ_r by lia. rewrite Pos2Z.inj_xO, IHn. ring.
Qed.

(** Shifting out zeros is exact. *)
Lemma shr_1_double m : shr_1 (Build_shr_record (2 * m) false false) = Build_shr_record m false false.
Proof. by destruct m. Qed.

Lemma iter_shr_1 m n :
  SpecFloat.iter_pos shr_1 n (Build_shr_record (m * 2 ^ Z.pos n) false false) = Build_shr_record m false false.
Proof.
  assert (Hi : ∀ n x, SpecFloat.iter_pos shr_1 n x = Pos.iter shr_1 x n).
  { clear. induction n as [n IH|n IH|]; intros x; simpl; rewrite ?IH; [|done..]. by rewrite !Pos.iter_swap. }
  rewrite Hi. revert m. induction n using Pos.peano_ind; intros m.
  - replace (m * 2 ^ 1) with (2 * m) by lia. apply shr_1_double.
  - rewrite Pos.iter_succ_r, Pos2Z.inj_succ, Z.pow_succ_r by lia.
    replace (m * (2 * 2 ^ Z.pos n)) with (2 * (m * 2 ^ Z.pos n)) by ring. by rewrite shr_1_double.
Qed.

(** A mantissa of 53 bits, followed by zeros, is not rounded. *)
Lemma round_aux_form sx p e m k :
  2 ^ 52 ≤ Z.pos m < 2 ^ 53 → -1074 ≤ k ≤ 0 → e ≤ k → Z.pos p = Z.pos m * 2 ^ (k - e) →
  binary_round_aux 53 1024 sx (Z.pos p) e loc_Exact = S754_finite sx m k.
Proof.
  intros Hb Hk He Hp. assert (Z.log2 (Z.pos m) = 52) as HL by (apply Z.log2_unique; lia).
  assert (Hd : Z.pos (digits2_pos m) = 53) by (rewrite digits2_log2, HL; done).
  assert (HLp : Z.log2 (Z.pos p) = 52 + k - e) by (rewrite Hp, Z.log2_mul_pow2 by lia; lia).
  unfold binary_round_aux, shr_fexp, Zdigits2. rewrite (digits2_log2 p), HLp. unfold fexp, emin.
  replace (Z.max _ _ - e) with (k - e) by lia.
  assert (shr (shr_record_of_loc (Z.pos p) loc_Exact) e (k - e) = (Build_shr_record (Z.pos m) false false, k)) as ->.
  { unfold shr, shr_record_of_loc. destruct (k - e) as [|q|q] eqn:E; [|by rewrite Hp, iter_shr_1; f_equal; lia|lia].
    f_equal; [|lia]. f_equal. rewrite Hp. lia. }
  cbn [loc_of_shr_record round_nearest_even shr_m]. rewrite Hd.
  replace (Z.max _ _ - k) with 0 by lia. cbn [shr shr_m shr_record_of_loc]. destruct (Z.leb_spec k (1024 - 53)); [done|lia].
Qed.

(** An integer of at most 53 bits, given with any number of binary places, is not rounded. *)
Lemma round_form sx p e m :
  Z.pos m < 2 ^ 53 → e ≤ 0 → Z.pos p = Z.pos m * 2 ^ (- e) → ∃ m',
    binary_round 53 1024 sx p e = S754_finite sx m' (Z.log2 (Z.pos m) - 52) ∧
    Z.pos m' = Z.pos m * 2 ^ (52 - Z.log2 (Z.pos m)).
Proof.
  intros Hm He Hp. destruct (Z.log2_spec (Z.pos m) ltac:(lia)) as [Hlo Hhi]. pose proof (Z.log2_nonneg (Z.pos m)).
  assert (Z.log2 (Z.pos m) < 53) by (apply Z.log2_lt_pow2; lia).
  assert (HLp : Z.log2 (Z.pos p) = Z.log2 (Z.pos m) - e) by (rewrite Hp, Z.log2_mul_pow2 by lia; lia).
  set (L := Z.log2 (Z.pos m)) in *.
  assert (0 < Z.pos m * 2 ^ (52 - L)) by (apply Z.mul_pos_pos; [lia|apply Z.pow_pos_nonneg; lia]).
  destruct (Z.pos m * 2 ^ (52 - L)) as [|m'|] eqn:Hm'; [lia| |lia]. exists m'. split; [|done].
  assert (Hb : 2 ^ 52 ≤ Z.pos m' < 2 ^ 53).
  { rewrite <-Hm'. assert (0 < 2 ^ (52 - L)) by (apply Z.pow_pos_nonneg; lia).
    replace (2 ^ 52) with (2 ^ L * 2 ^ (52 - L)) by (rewrite <-Z.pow_add_r by lia; f_equal; lia).
    replace (2 ^ 53) with (2 ^ Z.succ L * 2 ^ (52 - L)) by (rewrite <-Z.pow_add_r by lia; f_equal; lia). nia. }
  unfold binary_round. rewrite (digits2_log2 p), HLp.
  replace (fexp 53 1024 (L - e + 1 + e)) with (L - 52) by (unfold fexp, emin; lia).
  assert (∃ mz ez, shl_align p e (L - 52) = (mz, ez) ∧ ez ≤ L - 52 ∧ Z.pos mz = Z.pos m' * 2 ^ (L - 52 - ez)) as (mz & ez & -> & Hez & Hmz).
  { unfold shl_align. destruct (L - 52 - e) as [|q|q] eqn:E; eexists _, _; (split; [done|]); split; try lia;
      rewrite ?iter_xO, Hp, <-Hm', <-!Z.mul_assoc, <-!Z.pow_add_r by lia; f_equal; f_equal; lia. }
  apply round_aux_form; lia.
Qed.

(** float64(n) of a small integer is exact. *)
Lemma f_of_Z_sign n : n ≠ 0 → Z.abs n < 2 ^ 53 → ∃ m',
  f_of_Z n = S754_finite (n <? 0) m' (Z.log2 (Z.abs n) - 52) ∧ Z.pos m' = Z.abs n * 2 ^ (52 - Z.log2 (Z.abs n)).
Proof.
  intros Hn Hb. unfold f_of_Z, binary_normalize.
  destruct n as [|m|m]; [done|..]; simpl Z.abs in *; apply (round_form _ m 0 m); try lia.
Qed.

Lemma normalize_form n c e : Z.abs n < 2 ^ 53 → e ≤ 0 → c = n * 2 ^ (- e) → binary_normalize 53 1024 c e false = f_of_Z n.
Proof.
  intros Hb He Hc. assert (0 < 2 ^ (- e)) by (apply Z.pow_pos_nonneg; lia).
  destruct (decide (n = 0)) as [->|Hn]; [by rewrite Hc|]. destruct (f_of_Z_sign n Hn Hb) as (m' & -> & Hm').
  unfold binary_normalize. destruct n as [|m|m]; [done|..]; destruct c as [|p|p]; try nia; simpl Z.abs in *.
  - destruct (round_form false p e m) as (m'' & -> & Hm''); [nia..|]. f_equal. apply Pos2Z.inj. by rewrite Hm'', Hm'.
  - destruct (round_form true p e m) as (m'' & -> & Hm''); [nia..|]. f_equal. apply Pos2Z.inj. by rewrite Hm'', Hm'.
Qed.

Lemma shl_align_fst m e e' : e' ≤ e → Z.pos (shl_align m e e').1 = Z.pos m * 2 ^ (e - e').
Proof.
  intros He. unfold shl_align. destruct (e' - e) as [|q|q] eqn:E; simpl; [|lia|].
  - replace (e - e') with 0 by lia. lia.
  - rewrite iter_xO. do 2 f_equal. lia.
Qed.

(** The aligned mantissa of an integer. *)
Lemma align_form n m' e :
  n ≠ 0 → Z.abs n < 2 ^ 53 → Z.pos m' = Z.abs n * 2 ^ (52 - Z.log2 (Z.abs n)) → e ≤ Z.log2 (Z.abs n) - 52 →
  cond_Zopp (n <? 0) (Z.pos (shl_align m' (Z.log2 (Z.abs n) - 52) e).1) = n * 2 ^ (- e).
Proof.
  intros Hn Hb Hm He. assert (Z.log2 (Z.abs n) < 53) by (apply Z.log2_lt_pow2; lia).
  rewrite shl_align_fst, Hm, <-Z.mul_assoc, <-Z.pow_add_r by lia.
  replace (52 - _ + _) with (- e) by lia. unfold cond_Zopp. destruct (Z.ltb_spec n 0); lia.
Qed.

(** Sums and differences of small integers are exact. *)
Lemma fadd_exact a b :
  Z.abs a < 2 ^ 53 → Z.abs b < 2 ^ 53 → Z.abs (a + b) < 2 ^ 53 → fadd (f_of_Z a) (f_of_Z b) = f_of_Z (a + b).
Proof.
  intros Ha Hb Hab. destruct (decide (a = 0)) as [->|Hna]; [|destruct (decide (b = 0)) as [->|Hnb]].
  - rewrite Z.add_0_l. destruct (decide (b = 0)) as [->|Hnb]; [done|].
    destruct (f_of_Z_sign b Hnb Hb) as (m' & -> & _). done.
  - rewrite Z.add_0_r. destruct (f_of_Z_sign a Hna Ha) as (m' & -> & _). done.
  - destruct (f_of_Z_sign a Hna Ha) as (ma & -> & Hma), (f_of_Z_sign b Hnb Hb) as (mb & -> & Hmb).
    assert (Z.log2 (Z.abs a) < 53) by (apply Z.log2_lt_pow2; lia). 
    unfold fadd, SFadd. apply normalize_form; [done|lia|]. rewrite !align_form by (done || lia). ring.
Qed.

Lemma fsub_exact a b :
  Z.abs a < 2 ^ 53 → Z.abs b < 2 ^ 53 → Z.abs (a - b) < 2 ^ 53 → fsub (f_of_Z a) (f_of_Z b) = f_of_Z (a - b).
Proof.
  intros Ha Hb Hab. destruct (decide (a = 0)) as [->|Hna]; [|destruct (decide (b = 0)) as [->|Hnb]].
  - rewrite Z.sub_0_l. destruct (decide (b = 0)) as [->|Hnb]; [done|].
    destruct (f_of_Z_sign b Hnb Hb) as (m' & -> & Hm), (f_of_Z_sign (- b)) as (m'' & -> & Hm'); [lia..|].
    rewrite Z.abs_opp in *. simpl. f_equal; [|lia]. destruct (Z.ltb_spec b 0), (Z.ltb_spec (- b) 0); done || lia.
  - rewrite Z.sub_0_r. destruct (f_of_Z_sign a Hna Ha) as (m' & -> & _). done.
  - destruct (f_of_Z_sign a Hna Ha) as (ma & -> & Hma), (f_of_Z_sign b Hnb Hb) as (mb & -> & Hmb).
    assert (Z.log2 (Z.abs a) < 53) by (apply Z.log2_lt_pow2; lia).
    unfold fsub, SFsub. apply normalize_form; [done|lia|]. rewrite !align_form by (done || lia). ring.
Qed.

Lemma f_of_Z_form m :
  Z.pos m < 2 ^ 53 → ∃ m', f_of_Z (Z.pos m) = S754_finite false m' (Z.log2 (Z.pos m) - 52) ∧
    Z.pos m' = Z.pos m * 2 ^ (52 - Z.log2 (Z.pos m)).
Proof. intros Hm. apply (f_of_Z_sign (Z.pos m)); [done|exact Hm]. Qed.

Lemma f_of_Z_exact n : 0 ≤ n < 2 ^ 53 → f_trunc (f_of_Z n) = Some n ∧ fle (f_of_Z n) f_zero = (n <=? 0).
Proof.
  intros Hn. destruct n as [|m|]; [done| |lia]. destruct (f_of_Z_form m ltac:(lia)) as (m' & -> & Hm').
  split; [|done]. unfold f_trunc. f_equal.
  destruct (Z.log2_spec (Z.pos m) ltac:(lia)) as [Hlo Hhi]. pose proof (Z.log2_nonneg (Z.pos m)).
  assert (Z.log2 (Z.pos m) < 53) by (apply Z.log2_lt_pow2; lia). rewrite Hm'.
  destruct (Z.leb_spec 0 (Z.log2 (Z.pos m) - 52)).
  - replace (Z.log2 (Z.pos m) - 52) with 0 by lia. replace (52 - Z.log2 (Z.pos m)) with 0 by lia. lia.
  - replace (- (Z.log2 (Z.pos m) - 52)) with (52 - Z.log2 (Z.pos m)) by lia.
    apply Z.div_mul. apply Z.pow_nonzero; lia.
Qed.
