(* ===== verification/Strings.v ===== *)
(** * String helpers of the Go library used by the client and its environment

    strings.TrimSpace, strings.TrimPrefix, strings.Count of one byte and the ASCII
    part of strings.ToLower, on strings as lists of bytes. *)

From S2P Require Import Prelude GoLib.

(** The UTF-8 encodings of the runes unicode.IsSpace accepts. *)
Definition spaces : list gostring :=
  [[byte_of 9]; [byte_of 10]; [byte_of 11]; [byte_of 12]; [byte_of 13]; [byte_of 32];
   [byte_of 194; byte_of 133]; [byte_of 194; byte_of 160]; [byte_of 225; byte_of 154; byte_of 128]]
  ++ ((λ b, [byte_of 226; byte_of 128; byte_of b]) <$> [128; 129; 130; 131; 132; 133; 134; 135; 136; 137; 138; 168; 169; 175])
  ++ [[byte_of 226; byte_of 129; byte_of 159]; [byte_of 227; byte_of 128; byte_of 128]].

(** The length of the first of [ps] that [s] begins with. *)
Fixpoint match_prefix (ps : list gostring) (s : gostring) : option nat :=
  match ps with
  | [] => None
  | p :: rest => if has_prefix s p then Some (length p) else match_prefix rest s
  end.

(** Every round removes at least a byte: the length is enough fuel. *)
Fixpoint trim_fuel (fuel : nat) (ps : list gostring) (s : gostring) : gostring :=
  match fuel with
  | O => s
  | S f => match match_prefix ps s with
           | Some n => trim_fuel f ps (drop n s)
           | None => s
           end
  end.

Definition trim_left (ps : list gostring) (s : gostring) : gostring := trim_fuel (length s) ps s.
Definition trim_right (ps : list gostring) (s : gostring) : gostring := rev (trim_left (map (@rev _) ps) (rev s)).

(** strings.TrimSpace: an encoded space ends with bytes that begin no rune, so the last
    rune is a space exactly when the bytes end with its encoding. *)
Definition TrimSpace (s : gostring) : gostring := trim_right spaces (trim_left spaces s).

(** strings.TrimPrefix and strings.Count(s, c) *)
Definition trim_prefix (s p : gostring) : gostring := if has_prefix s p then drop (length p) s else s.

Fixpoint count_byte (s : gostring) (c : ascii) : Z :=
  match s with
  | [] => 0
  | b :: s' => (if bool_decide (b = c) then 1 else 0) + count_byte s' c
  end.

(** strings.ToLower on a byte; bytes of other runes are left alone. *)
Definition lower_byte (b : ascii) : ascii := if (65 <=? code b) && (code b <=? 90) then byte_of (code b + 32) else b.


Lemma match_prefix_pos ps s n : Forall (λ p, p ≠ []) ps → match_prefix ps s = Some n → (0 < n ≤ length s)%nat.
Proof.
  induction 1 as [|p ps Hp _ IH]; simpl; [done|]. destruct (has_prefix s p) eqn:E; [|done].
  intros [= <-]. split; [destruct p; [done|simpl; lia]|].
  clear Hp IH. revert s E. induction p as [|a p IHp]; intros [|b s] E; simpl in *; [lia|lia|done|].
  apply andb_true_iff in E as [_ E]. apply IHp in E. lia.
Qed.

Lemma trim_fuel_done fuel ps s :
  Forall (λ p, p ≠ []) ps → (length s ≤ fuel)%nat → match_prefix ps (trim_fuel fuel ps s) = None.
Proof.
  intros Hps. revert s. induction fuel as [|f IH]; intros s Hl; simpl.
  - destruct (match_prefix ps s) as [n|] eqn:E; [|done]. apply match_prefix_pos in E; [lia|done].
  - destruct (match_prefix ps s) as [n|] eqn:E; [|done]. apply match_prefix_pos in E; [|done].
    apply IH. rewrite length_drop. lia.
Qed.

Lemma spaces_nonempty : Forall (λ p, p ≠ []) spaces ∧ Forall (λ p : gostring, p ≠ []) (map (@rev _) spaces).
Proof. split; repeat (constructor; [discriminate|]); constructor. Qed.

Lemma trim_left_done ps s : Forall (λ p, p ≠ []) ps → match_prefix ps (trim_left ps s) = None.
Proof. intros H. by apply trim_fuel_done. Qed.

Lemma TrimSpace_right s : match_prefix (map (@rev _) spaces) (rev (TrimSpace s)) = None.
Proof. unfold TrimSpace, trim_right. rewrite rev_involutive. apply trim_left_done, spaces_nonempty. Qed.
