(* ===== verification/Atomic.v ===== *)
(** * Programs as trees of atomic actions

    A method that other goroutines run at the same time is a tree of atomic
    actions: a load, a compare-and-swap, a lock acquisition, a channel operation.
    [E B] is an action answering a [B]; [handle] gives its effect on the shared
    state, as the list of possible outcomes (none when the action blocks).

    The same tree is run alone by [outcomes] and interleaved with others by
    [gstep]; [pool_invariant] is the proof principle for the interleavings: each
    goroutine carries a ghost value, and an action of one of them updates its own
    ghost value and re-establishes the shared invariant. *)

From S2P Require Import Prelude.

Section atomic.
Context {E : Type → Type} {S : Type}.

Inductive prog (A : Type) : Type :=
| Ret (a : A)
| Act (B : Type) (e : E B) (k : B → prog A).
#[global] Arguments Ret {A} a.
#[global] Arguments Act {A B} e k.

Fixpoint bind {A C} (p : prog A) (f : A → prog C) : prog C :=
  match p with
  | Ret a => f a
  | Act e k => Act e (λ b, bind (k b) f)
  end.

Definition act {B} (e : E B) : prog B := Act e Ret.

Context (handle : ∀ B, E B → S → list (B * S)).
#[global] Arguments handle {B}.

(** All results of running [p] alone; empty when it can block for ever. *)
Fixpoint outcomes {A} (p : prog A) (s : S) : list (A * S) :=
  match p with
  | Ret a => [(a, s)]
  | Act e k => flat_map (λ bs, outcomes (k bs.1) bs.2) (handle e s)
  end.

Lemma outcomes_step {A B} (e : E B) (k : B → prog A) s b s' :
  handle e s = [(b, s')] → outcomes (Act e k) s = outcomes (k b) s'.
Proof. intros H. simpl. rewrite H. simpl. apply app_nil_r. Qed.

Lemma outcomes_bind {A C} (p : prog A) (f : A → prog C) s :
  outcomes (bind p f) s = flat_map (λ bs, outcomes (f bs.1) bs.2) (outcomes p s).
Proof.
  revert s. induction p as [a|B e k IH]; intros s; simpl; [by rewrite app_nil_r|].
  induction (handle e s) as [|[b s1] l IHl]; simpl; [done|].
  by rewrite IH, IHl, flat_map_app.
Qed.

Lemma outcomes_bind_step {A C} (p : prog A) (f : A → prog C) s a s' :
  outcomes p s = [(a, s')] → outcomes (bind p f) s = outcomes (f a) s'.
Proof. intros H. rewrite outcomes_bind, H. simpl. apply app_nil_r. Qed.

(** One action of one program. *)
Definition step1 {A} (p : prog A) (s : S) : list (prog A * S) :=
  match p with
  | Ret _ => []
  | Act e k => (λ bs, (k bs.1, bs.2)) <$> handle e s
  end.

(** [steps_alone n p s p' s']: [n] actions of [p] with nobody else running. *)
Inductive steps_alone {A} : nat → prog A → S → prog A → S → Prop :=
| alone_refl p s : steps_alone 0 p s p s
| alone_step n p s p1 s1 p2 s2 :
    (p1, s1) ∈ step1 p s → steps_alone n p1 s1 p2 s2 → steps_alone (Datatypes.S n) p s p2 s2.

Lemma outcomes_alone {A} (p : prog A) s a s' :
  (a, s') ∈ outcomes p s ↔ ∃ n, steps_alone n p s (Ret a) s'.
Proof.
  revert s. induction p as [a'|B e k IH]; intros s; simpl.
  - rewrite list_elem_of_singleton. split.
    + intros [= <- <-]. exists 0%nat. constructor.
    + intros [n Hn]. inversion Hn; subst; [done|]. simpl in *.
      match goal with H : _ ∈ [] |- _ => inversion H end.
  - rewrite list_elem_of_In, in_flat_map. split.
    + intros ((b & s1) & Hin & Ho). apply list_elem_of_In, IH in Ho. destruct Ho as [n Hn].
      exists (Datatypes.S n). eapply alone_step; [|exact Hn]. simpl.
      apply list_elem_of_fmap. exists (b, s1). split; [done|]. by apply list_elem_of_In.
    + intros [n Hn]. inversion Hn as [|n' ? ? p1 s1 ? ? Hs Hr]; subst. simpl in Hs.
      apply list_elem_of_fmap in Hs. destruct Hs as ((b & s2) & [= -> ->] & Hin).
      exists (b, s2). split; [by apply list_elem_of_In|]. apply list_elem_of_In, IH. eauto.
Qed.

(** ** Interleavings

    [env] are the steps of the surroundings (the clock, say). *)
Context {A : Type} (env : S → S → Prop).

Inductive gstep : list (prog A) * S → list (prog A) * S → Prop :=
| gstep_thread ts s i p p' s' :
    ts !! i = Some p → (p', s') ∈ step1 p s → gstep (ts, s) (<[i := p']> ts, s')
| gstep_env ts s s' : env s s' → gstep (ts, s) (ts, s').

Definition gsteps := rtc gstep.

(** A schedule names the goroutine of each action; actions with several outcomes
    take the first. *)
Fixpoint sched (ids : list nat) (c : list (prog A) * S) : option (list (prog A) * S) :=
  match ids with
  | [] => Some c
  | i :: ids' =>
      match c.1 !! i with
      | Some p => match step1 p c.2 with
                  | (p', s') :: _ => sched ids' (<[i := p']> c.1, s')
                  | [] => None
                  end
      | None => None
      end
  end.

Lemma sched_gsteps ids c c' : sched ids c = Some c' → gsteps c c'.
Proof.
  revert c. induction ids as [|i ids IH]; intros c H; simpl in H; [injection H as ->; constructor|].
  destruct c as [ts s]; simpl in H. destruct (ts !! i) as [p|] eqn:Hi; [|done].
  destruct (step1 p s) as [|[p' s'] l] eqn:Hs; [done|].
  eapply rtc_l; [|by apply IH]. eapply gstep_thread; [done|]. rewrite Hs. apply elem_of_cons. by left.
Qed.

Lemma sched_reaches ids c ts : fst <$> sched ids c = Some ts → ∃ s, gsteps c (ts, s).
Proof.
  destruct (sched ids c) as [[ts' s]|] eqn:Hs; simpl; [|done]. intros [= <-].
  exists s. by eapply sched_gsteps.
Qed.

Lemma sched_observes {B} (f : list (prog A) * S → B) ids c v : f <$> sched ids c = Some v → ∃ c', gsteps c c' ∧ f c' = v.
Proof.
  destruct (sched ids c) as [c'|] eqn:Hs; simpl; [|done]. intros [= <-]. exists c'. split; [|done]. by eapply sched_gsteps.
Qed.

Lemma sched_untouched ids c c' t : t ∉ ids → sched ids c = Some c' → c'.1 !! t = c.1 !! t.
Proof.
  revert c. induction ids as [|i ids IH]; intros c Ht Hs; simpl in Hs; [by injection Hs as ->|].
  rewrite not_elem_of_cons in Ht. destruct Ht as [Hi Ht].
  destruct (c.1 !! i) as [p|]; [|done]. destruct (step1 p c.2) as [|[p' s'] l]; [done|].
  rewrite (IH _ Ht Hs). simpl. by rewrite list_lookup_insert_ne.
Qed.

(** A run in two parts; goroutine [t] has not begun at the end of the first.
    [f] is what one wants to know of the two states. *)
Lemma sched_parts {B} (f : S → S → B) ids1 ids2 c t ts2 v :
  t ∉ ids1 →
  (c1 ← sched ids1 c; c2 ← sched ids2 c1; Some (f c1.2 c2.2, c2.1)) = Some (v, ts2) →
  ∃ ts1 s1 s2, gsteps c (ts1, s1) ∧ ts1 !! t = c.1 !! t ∧ gsteps (ts1, s1) (ts2, s2) ∧ f s1 s2 = v.
Proof.
  intros Ht Hrun. destruct (sched ids1 c) as [[ts1 s1]|] eqn:H1; simpl in Hrun; [|done].
  destruct (sched ids2 (ts1, s1)) as [[ts s2]|] eqn:H2; simpl in Hrun; [|done]. injection Hrun as <- <-.
  exists ts1, s1, s2. split; [by eapply sched_gsteps|]. split; [by apply (sched_untouched ids1 c (ts1, s1))|].
  split; [by eapply sched_gsteps|done].
Qed.

(** A run with a step [h] of the surroundings in the middle. *)
Lemma sched_env {B} (f : S → B) (h : S → S) ids1 ids2 c ts2 v :
  (∀ s, env s (h s)) →
  (c1 ← sched ids1 c; c2 ← sched ids2 (c1.1, h c1.2); Some (f c2.2, c2.1)) = Some (v, ts2) →
  ∃ s2, gsteps c (ts2, s2) ∧ f s2 = v.
Proof.
  intros Hh Hrun. destruct (sched ids1 c) as [[ts1 s1]|] eqn:H1; simpl in Hrun; [|done].
  destruct (sched ids2 (ts1, h s1)) as [[ts s2]|] eqn:H2; simpl in Hrun; [|done]. injection Hrun as <- <-.
  exists s2. split; [|done]. apply sched_gsteps in H1, H2.
  etrans; [exact H1|]. eapply rtc_l; [by apply gstep_env|exact H2].
Qed.

Lemma pool_invariant {G : Type} (P : prog A → G → Prop) (I : S → list G → Prop) :
  (∀ B (e : E B) k g s gs i b s',
     gs !! i = Some g → P (Act e k) g → I s gs → (b, s') ∈ handle e s →
     ∃ g', P (k b) g' ∧ I s' (<[i := g']> gs)) →
  (∀ s s' gs, I s gs → env s s' → I s' gs) →
  ∀ c c', gsteps c c' →
  (∃ gs, Forall2 P c.1 gs ∧ I c.2 gs) → ∃ gs, Forall2 P c'.1 gs ∧ I c'.2 gs.
Proof.
  intros Hact Henv c c'. induction 1 as [|c1 c2 c3 Hs _ IH]; [done|]. intros (gs & HP & HI).
  apply IH. inversion Hs as [ts s i p p' s' Hi Hin|ts s s' He]; subst; simpl in *.
  - destruct (Forall2_lookup_l _ _ _ _ _ HP Hi) as (g & Hg & Hpg).
    destruct p as [a|B e k]; simpl in Hin; [inversion Hin|].
    apply list_elem_of_fmap in Hin. destruct Hin as ((b & s2) & [= -> ->] & Hin). simpl.
    destruct (Hact B e k g s gs i b s2 Hg Hpg HI Hin) as (g' & Hp' & HI').
    exists (<[i := g']> gs). split; [|done]. by apply Forall2_insert.
  - exists gs. split; [done|]. eauto.
Qed.

End atomic.

#[global] Arguments prog E A : clear implicits.

(** A method of a part, seen as a method of the whole: [h] embeds the actions. *)
Fixpoint lift {E F : Type → Type} (h : ∀ B, E B → F B) {A} (p : prog E A) : prog F A :=
  match p with
  | Ret a => Ret a
  | Act e k => Act (h _ e) (λ b, lift h (k b))
  end.

Declare Scope prog_scope.
Delimit Scope prog_scope with prog.
Reserved Notation "'let!' x := e ; k"
  (at level 10, x name, e at level 100, k at level 200).
Reserved Notation "'run!' e ; k"
  (at level 10, e at level 100, k at level 200).
Notation "'let@' x := p ; k" := (bind p (λ x, k))
  (at level 10, x name, p at level 100, k at level 200) : prog_scope.
Notation "'run@' p ; k" := (bind p (λ _, k))
  (at level 10, p at level 100, k at level 200) : prog_scope.
