(* ===== verification/Circuit.v ===== *)
(** * The circuit breaker (transport/circuit.go)

    The fields are the atomics of the struct at their widths; every method is
    the tree of its loads, stores, adds and compare-and-swaps, so the same
    definitions are run alone and interleaved.  [breaker_refines_machine] gives
    the contract one caller sees; [breaker_accounting] and [breaker_transitions]
    hold under every interleaving. *)

From S2P Require Import Prelude GoLib Atomic.
#[local] Open Scope prog_scope.

Module Circuit.


(** CircuitState and its constants *)
Definition StateClosed : Z := 0.
Definition StateOpen : Z := 1.
Definition StateHalfOpen : Z := 2.

Definition State_String (s : Z) : gostring :=
  if s =? StateClosed then str "closed"
  else if s =? StateOpen then str "open"
  else if s =? StateHalfOpen then str "half-open"
  else str "unknown".

Record CircuitBreaker := mkCB {
  threshold : Z; timeout : Z; halfOpenMax : Z;
  state : Z; failures : Z; lastFailTime : Z; halfOpenCount : Z;
  totalSuccess : Z; totalFailures : Z; totalRejected : Z; stateChanges : Z;
  (** the wall clock [time.Now] reads *)
  wall : Z }.

Definition NewCircuitBreaker (threshold timeout now : Z) : CircuitBreaker :=
  mkCB (if threshold <=? 0 then 5 else threshold)
       (if timeout <=? 0 then 10 * Second else timeout)
       3 StateClosed 0 0 0 0 0 0 0 now.

(** ** Atomic actions *)
Inductive act : Type → Type :=
| LoadState : act Z
| CasState (old new : Z) : act bool
| StoreState (v : Z) : act unit
| AddFailures1 : act Z
| StoreFailures (v : Z) : act unit
| LoadFailures : act Z
| LoadLastFail : act Z
| StoreLastFail (v : Z) : act unit
| AddHalfOpen1 : act Z
| StoreHalfOpen (v : Z) : act unit
| AddTotalSuccess : act unit
| AddTotalFailures : act unit
| AddTotalRejected : act unit
| AddStateChanges : act unit
| LoadTotals : act (Z * Z * Z * Z)
| Config : act (Z * Z * Z)
| Now : act Z
(** the guarded function, which takes [d] nanoseconds *)
| RunFn (d : Z) : act unit.

Definition with_state v cb := mkCB (threshold cb) (timeout cb) (halfOpenMax cb) v (failures cb) (lastFailTime cb) (halfOpenCount cb) (totalSuccess cb) (totalFailures cb) (totalRejected cb) (stateChanges cb) (wall cb).
Definition with_failures v cb := mkCB (threshold cb) (timeout cb) (halfOpenMax cb) (state cb) v (lastFailTime cb) (halfOpenCount cb) (totalSuccess cb) (totalFailures cb) (totalRejected cb) (stateChanges cb) (wall cb).
Definition with_lastFail v cb := mkCB (threshold cb) (timeout cb) (halfOpenMax cb) (state cb) (failures cb) v (halfOpenCount cb) (totalSuccess cb) (totalFailures cb) (totalRejected cb) (stateChanges cb) (wall cb).
Definition with_halfOpen v cb := mkCB (threshold cb) (timeout cb) (halfOpenMax cb) (state cb) (failures cb) (lastFailTime cb) v (totalSuccess cb) (totalFailures cb) (totalRejected cb) (stateChanges cb) (wall cb).
Definition with_totals ts tf tr sc cb := mkCB (threshold cb) (timeout cb) (halfOpenMax cb) (state cb) (failures cb) (lastFailTime cb) (halfOpenCount cb) ts tf tr sc (wall cb).
Definition with_wall v cb := mkCB (threshold cb) (timeout cb) (halfOpenMax cb) (state cb) (failures cb) (lastFailTime cb) (halfOpenCount cb) (totalSuccess cb) (totalFailures cb) (totalRejected cb) (stateChanges cb) v.

Definition handle (B : Type) (e : act B) (s : CircuitBreaker) : list (B * CircuitBreaker) :=
  match e in act B return list (B * CircuitBreaker) with
  | LoadState => [(state s, s)]
  | CasState old new => if state s =? old then [(true, with_state new s)] else [(false, s)]
  | StoreState v => [(tt, with_state v s)]
  | AddFailures1 => [(i32 (failures s + 1), with_failures (i32 (failures s + 1)) s)]
  | StoreFailures v => [(tt, with_failures v s)]
  | LoadFailures => [(failures s, s)]
  | LoadLastFail => [(lastFailTime s, s)]
  | StoreLastFail v => [(tt, with_lastFail v s)]
  | AddHalfOpen1 => [(i32 (halfOpenCount s + 1), with_halfOpen (i32 (halfOpenCount s + 1)) s)]
  | StoreHalfOpen v => [(tt, with_halfOpen v s)]
  | AddTotalSuccess => [(tt, with_totals (u64 (totalSuccess s + 1)) (totalFailures s) (totalRejected s) (stateChanges s) s)]
  | AddTotalFailures => [(tt, with_totals (totalSuccess s) (u64 (totalFailures s + 1)) (totalRejected s) (stateChanges s) s)]
  | AddTotalRejected => [(tt, with_totals (totalSuccess s) (totalFailures s) (u64 (totalRejected s + 1)) (stateChanges s) s)]
  | AddStateChanges => [(tt, with_totals (totalSuccess s) (totalFailures s) (totalRejected s) (u64 (stateChanges s + 1)) s)]
  | LoadTotals => [((totalSuccess s, totalFailures s, totalRejected s, stateChanges s), s)]
  | Config => [((threshold s, timeout s, halfOpenMax s), s)]
  | Now => [(wall s, s)]
  | RunFn d => [(tt, with_wall (wall s + d) s)]
  end.

(** ** The methods *)
#[local] Notation "'let!' x := e ; k" := (@Act act _ _ e (λ x, k)) : prog_scope.
#[local] Notation "'run!' e ; k" := (@Act act _ _ e (λ _, k)) : prog_scope.

Definition allowRequest : prog act bool :=
  let! st := LoadState;
  if st =? StateClosed then Ret true
  else if st =? StateOpen then
    let! lastFail := LoadLastFail;
    let! now := Now;
    let! cfg := Config;
    if cfg.1.2 <? Sub now (Unix 0 lastFail) then
      let! swapped := CasState StateOpen StateHalfOpen;
      if swapped then
        run! AddStateChanges;
        run! StoreHalfOpen 0;
        Ret true
      else Ret true
    else Ret false
  else if st =? StateHalfOpen then
    let! count := AddHalfOpen1;
    let! cfg := Config;
    Ret (count <=? i32 cfg.2)
  else Ret false.

Definition recordSuccess : prog act unit :=
  run! AddTotalSuccess;
  let! st := LoadState;
  if st =? StateHalfOpen then
    let! swapped := CasState StateHalfOpen StateClosed;
    if swapped then
      run! StoreFailures 0;
      run! AddStateChanges;
      Ret tt
    else Ret tt
  else if st =? StateClosed then
    run! StoreFailures 0;
    Ret tt
  else Ret tt.

Definition recordFailure : prog act unit :=
  run! AddTotalFailures;
  let! now := Now;
  run! StoreLastFail (UnixNano now);
  let! st := LoadState;
  let! fails := AddFailures1;
  let! cfg := Config;
  if st =? StateHalfOpen then
    let! swapped := CasState StateHalfOpen StateOpen;
    if swapped then (run! AddStateChanges; Ret tt) else Ret tt
  else if (st =? StateClosed) && (i32 cfg.1.1 <=? fails) then
    let! swapped := CasState StateClosed StateOpen;
    if swapped then (run! AddStateChanges; Ret tt) else Ret tt
  else Ret tt.

(** [Call]: the guarded function is given by the error it returns ([None] is a
    nil error) and the time it takes. *)
Definition Call (d : Z) (fn : option error) : prog act (option error) :=
  let@ allowed := allowRequest;
  if negb allowed then
    run! AddTotalRejected;
    Ret (Some (ErrIs TransportErrCircuitOpen))
  else
    run! RunFn d;
    match fn with
    | Some err => run@ recordFailure; Ret (Some err)
    | None => run@ recordSuccess; Ret None
    end.

Definition State : prog act Z := let! st := LoadState; Ret st.
Definition IsOpen : prog act bool := let@ st := State; Ret (st =? StateOpen).

Definition Reset : prog act unit :=
  run! StoreState StateClosed;
  run! StoreFailures 0;
  run! StoreHalfOpen 0;
  run! AddStateChanges;
  Ret tt.

Record CircuitStats := mkStats {
  cs_State : Z; cs_Failures : Z; cs_TotalSuccess : Z; cs_TotalFailures : Z;
  cs_TotalRejected : Z; cs_StateChanges : Z }.

Definition Stats : prog act CircuitStats :=
  let@ st := State;
  let! f := LoadFailures;
  let! t := LoadTotals;
  Ret (mkStats st f t.1.1.1 t.1.1.2 t.1.2 t.2).

(** ** What one caller sees

    The breaker is a machine with two states between calls: closed after [n]
    consecutive failures, or open since the last failure.  The half-open state
    is only visited inside the call that probes the backend. *)
Inductive machine := MClosed (n : Z) | MOpen (since : Z).

Definition machine_call (thr tmo now now' : Z) (m : machine) (fn : option error) :
    machine * option error :=
  match m, fn with
  | MClosed _, None => (MClosed 0, None)
  | MClosed n, Some e => (if thr <=? n + 1 then MOpen now' else MClosed (n + 1), Some e)
  | MOpen since, _ =>
      if tmo <? now - since then
        match fn with
        | None => (MClosed 0, None)
        | Some e => (MOpen now', Some e)
        end
      else (MOpen since, Some (ErrIs TransportErrCircuitOpen))
  end.

(** A caller's history: the pause before each call, what its function takes and
    returns. *)
Definition calls := list (Z * Z * option error).

Fixpoint run_calls (cs : calls) (cb : CircuitBreaker) : option (list (option error) * CircuitBreaker) :=
  match cs with
  | [] => Some ([], cb)
  | (gap, d, fn) :: cs' =>
      match outcomes handle (Call d fn) (with_wall (wall cb + gap) cb) with
      | [(r, cb1)] => '(rs, cb2) ← run_calls cs' cb1; Some (r :: rs, cb2)
      | _ => None
      end
  end.

(** Whether a call at time [now] is let through. *)
Definition lets_through (tmo now : Z) (m : machine) : bool :=
  match m with MOpen since => tmo <? now - since | MClosed _ => true end.

(** A call that is rejected does not run its function, so no time passes. *)
Fixpoint machine_calls (thr tmo now : Z) (cs : calls) (m : machine) : list (option error) * machine :=
  match cs with
  | [] => ([], m)
  | (gap, d, fn) :: cs' =>
      let '(m1, r) := machine_call thr tmo (now + gap) (now + gap + d) m fn in
      let '(rs, m2) := machine_calls thr tmo
                         (if lets_through tmo (now + gap) m then now + gap + d else now + gap) cs' m1 in
      (r :: rs, m2)
  end.

Definition repr (cb : CircuitBreaker) (m : machine) : Prop :=
  match m with
  | MClosed n => state cb = StateClosed ∧ failures cb = n ∧ 0 ≤ n < threshold cb
  | MOpen since => state cb = StateOpen ∧ lastFailTime cb = since - unix_epoch
                   ∧ unix_epoch ≤ since ≤ wall cb
  end.

(** The clock stays within the range of UnixNano, and the threshold within int32. *)
Definition in_range (cb : CircuitBreaker) (slack : Z) : Prop :=
  0 < threshold cb < 2 ^ 31 ∧ 0 < timeout cb ∧ halfOpenMax cb = 3
  ∧ unix_epoch ≤ wall cb ∧ wall cb + slack < unix_epoch + 2 ^ 63.

Fixpoint calls_time (cs : calls) : Z :=
  match cs with [] => 0 | (gap, d, _) :: cs' => gap + d + calls_time cs' end.

Definition calls_ok (cs : calls) : Prop := Forall (λ c, 0 ≤ c.1.1 ∧ 0 ≤ c.1.2) cs.

Lemma calls_time_nonneg cs : calls_ok cs → 0 ≤ calls_time cs.
Proof.
  induction 1 as [|[[g d] fn] cs [Hg Hd] _ IH]; simpl in *; lia.
Qed.

Lemma Sub_Unix now since :
  unix_epoch ≤ since → since ≤ now → now < unix_epoch + 2 ^ 63 →
  Sub now (Unix 0 (since - unix_epoch)) = now - since.
Proof. intros. unfold Sub, Unix. rewrite Z.mul_0_l. lia. Qed.

Lemma UnixNano_in now : unix_epoch ≤ now → now < unix_epoch + 2 ^ 63 → UnixNano now = now - unix_epoch.
Proof. intros. unfold UnixNano. apply i64_small. lia. Qed.

(** The outcome of each method run alone. *)
Ltac astep := erewrite outcomes_step; [|reflexivity].

Lemma cas_hit old new cb : state cb = old → handle _ (CasState old new) cb = [(true, with_state new cb)].
Proof. intros <-. simpl. by rewrite Z.eqb_refl. Qed.

Definition count_change cb := with_totals (totalSuccess cb) (totalFailures cb) (totalRejected cb) (u64 (stateChanges cb + 1)) cb.
Definition count_success cb := with_totals (u64 (totalSuccess cb + 1)) (totalFailures cb) (totalRejected cb) (stateChanges cb) cb.
Definition count_failure cb := with_totals (totalSuccess cb) (u64 (totalFailures cb + 1)) (totalRejected cb) (stateChanges cb) cb.
Definition count_rejected cb := with_totals (totalSuccess cb) (totalFailures cb) (u64 (totalRejected cb + 1)) (stateChanges cb) cb.

Lemma allow_closed cb : state cb = StateClosed → outcomes handle allowRequest cb = [(true, cb)].
Proof. intros H. unfold allowRequest. astep. by rewrite H. Qed.

Lemma allow_open cb :
  state cb = StateOpen →
  outcomes handle allowRequest cb =
    if timeout cb <? Sub (wall cb) (Unix 0 (lastFailTime cb))
    then [(true, with_halfOpen 0 (count_change (with_state StateHalfOpen cb)))]
    else [(false, cb)].
Proof.
  intros H. unfold allowRequest. astep. rewrite H.
  change (StateOpen =? StateClosed) with false. change (StateOpen =? StateOpen) with true. cbv iota.
  do 3 astep. cbn [fst snd]. destruct (_ <? _); [|done].
  by rewrite (outcomes_step handle _ _ _ _ _ (cas_hit _ _ _ H)).
Qed.

Lemma success_closed cb :
  state cb = StateClosed → outcomes handle recordSuccess cb = [(tt, with_failures 0 (count_success cb))].
Proof. intros H. unfold recordSuccess. do 2 astep. cbn [state with_totals]. by rewrite H. Qed.

Lemma success_half_open cb :
  state cb = StateHalfOpen →
  outcomes handle recordSuccess cb =
    [(tt, count_change (with_failures 0 (with_state StateClosed (count_success cb))))].
Proof.
  intros H. unfold recordSuccess. do 2 astep. cbn [state with_totals]. rewrite H.
  change (StateHalfOpen =? StateHalfOpen) with true. cbv iota.
  by rewrite (outcomes_step handle _ _ _ _ _ (cas_hit StateHalfOpen _ (count_success cb) H)).
Qed.

Definition count_fail (cb : CircuitBreaker) : CircuitBreaker :=
  with_failures (i32 (failures cb + 1)) (with_lastFail (UnixNano (wall cb)) (count_failure cb)).

Lemma failure_closed cb :
  state cb = StateClosed →
  outcomes handle recordFailure cb =
    [(tt, if i32 (threshold cb) <=? i32 (failures cb + 1)
          then count_change (with_state StateOpen (count_fail cb)) else count_fail cb)].
Proof.
  intros H. unfold recordFailure. do 4 astep. cbn [state with_totals with_lastFail]. rewrite H.
  change (StateClosed =? StateHalfOpen) with false. change (StateClosed =? StateClosed) with true.
  cbv iota. do 2 astep. cbn [fst snd andb threshold failures with_totals with_lastFail with_failures].
  destruct (_ <=? _); [|done].
  by rewrite (outcomes_step handle _ _ _ _ _ (cas_hit StateClosed _ (count_fail cb) H)).
Qed.

Lemma failure_half_open cb :
  state cb = StateHalfOpen →
  outcomes handle recordFailure cb = [(tt, count_change (with_state StateOpen (count_fail cb)))].
Proof.
  intros H. unfold recordFailure. do 4 astep. cbn [state with_totals with_lastFail]. rewrite H.
  change (StateHalfOpen =? StateHalfOpen) with true. cbv iota. do 2 astep.
  by rewrite (outcomes_step handle _ _ _ _ _ (cas_hit StateHalfOpen _ (count_fail cb) H)).
Qed.

(** A call that is let through runs its function, then records the result. *)
Lemma call_allowed d fn cb cb1 cb2 :
  outcomes handle allowRequest cb = [(true, cb1)] →
  outcomes handle (match fn with Some _ => recordFailure | None => recordSuccess end)
    (with_wall (wall cb1 + d) cb1) = [(tt, cb2)] →
  outcomes handle (Call d fn) cb = [(fn, cb2)].
Proof.
  intros H1 H2. unfold Call. rewrite (outcomes_bind_step _ _ _ _ _ _ H1). cbn [negb]. astep.
  destruct fn; by rewrite (outcomes_bind_step _ _ _ _ _ _ H2).
Qed.

Lemma call_rejected d fn cb cb1 :
  outcomes handle allowRequest cb = [(false, cb1)] →
  outcomes handle (Call d fn) cb = [(Some (ErrIs TransportErrCircuitOpen), count_rejected cb1)].
Proof. intros H1. unfold Call. by rewrite (outcomes_bind_step _ _ _ _ _ _ H1). Qed.

Lemma call_refines cb m d fn :
  0 ≤ d → in_range cb d → repr cb m →
  let '(m', r) := machine_call (threshold cb) (timeout cb) (wall cb) (wall cb + d) m fn in
  ∃ cb', outcomes handle (Call d fn) cb = [(r, cb')] ∧ repr cb' m'
    ∧ threshold cb' = threshold cb ∧ timeout cb' = timeout cb ∧ halfOpenMax cb' = halfOpenMax cb
    ∧ wall cb' = if lets_through (timeout cb) (wall cb) m then wall cb + d else wall cb.
Proof.
  intros Hd (Ht & Htm & Hm & Hw & Hw') Hr. destruct m as [n|since].
  - destruct Hr as (Hs & Hf & Hn). pose proof (allow_closed cb Hs) as Ha. destruct fn as [e|]; cbn [machine_call lets_through].
    + eexists. split; [exact (call_allowed _ (Some e) _ _ _ Ha (failure_closed (with_wall (wall cb + d) cb) Hs))|]. simpl.
      rewrite !i32_small, Hf by lia. destruct (Z.leb_spec (threshold cb) (n + 1)); simpl.
      * rewrite UnixNano_in by lia. lia.
      * rewrite i32_small by lia. lia.
    + eexists. split; [exact (call_allowed _ None _ _ _ Ha (success_closed (with_wall (wall cb + d) cb) Hs))|].
      simpl. lia.
  - destruct Hr as (Hs & Hf & Hle & Hle'). pose proof (allow_open cb Hs) as Ha.
    rewrite Hf, Sub_Unix in Ha by lia. cbn [machine_call lets_through]. destruct (timeout cb <? wall cb - since) eqn:E.
    + set (cb1 := with_halfOpen _ _) in Ha.
      assert (Hh : state (with_wall (wall cb1 + d) cb1) = StateHalfOpen) by done.
      destruct fn as [e|]; eexists.
      * split; [exact (call_allowed _ (Some e) _ _ _ Ha (failure_half_open _ Hh))|]. simpl.
        rewrite UnixNano_in by lia. unfold StateOpen. lia.
      * split; [exact (call_allowed _ None _ _ _ Ha (success_half_open _ Hh))|]. simpl.
        unfold StateClosed. lia.
    + eexists. split; [by apply (call_rejected _ _ _ _ Ha)|]. simpl. lia.
Qed.

(** ** Every interleaving

    [rec] is the breaker with the sequence of values its state word has taken. *)
Definition rec := (CircuitBreaker * list Z)%type.

Definition handle_rec (B : Type) (e : act B) (s : rec) : list (B * rec) :=
  (λ bs, (bs.1, (bs.2, if state bs.2 =? state s.1 then s.2 else s.2 ++ [state bs.2])))
    <$> handle B e s.1.

(** The clock moves on its own. *)
Definition tick (s s' : rec) : Prop := ∃ d, 0 ≤ d ∧ s' = (with_wall (wall s.1 + d) s.1, s.2).

Definition legal (old new : Z) : Prop :=
  (old, new) ∈ [(StateClosed, StateOpen); (StateOpen, StateHalfOpen);
                (StateHalfOpen, StateClosed); (StateHalfOpen, StateOpen)].

Lemma legal_ne old new : legal old new → old ≠ new.
Proof.
  intros H. unfold legal in H. repeat (apply elem_of_cons in H as [[= -> ->]|H]; [done|]).
  inversion H.
Qed.

Fixpoint legal_path (from : Z) (h : list Z) (to : Z) : Prop :=
  match h with
  | [] => from = to
  | x :: h' => legal from x ∧ legal_path x h' to
  end.

Lemma legal_path_snoc from h mid to :
  legal_path from h mid → legal mid to → legal_path from (h ++ [to]) to.
Proof.
  revert from. induction h as [|x h IH]; simpl; intros from.
  - by intros ->.
  - intros [H1 H2] H3. eauto.
Qed.

Definition oks (r : option error) : nat := match r with None => 1 | Some _ => 0 end.
Definition errs (r : option error) : nat := match r with None => 0 | Some _ => 1 end.

(** What a goroutine has done so far: successes and other outcomes counted,
    state changes made and counted. *)
Record done := mkDone { d_ok : nat; d_err : nat; d_moves : nat; d_counted : nat }.

(** [accounts p d]: a goroutine that did [d] and continues as [p] counts its
    outcome exactly once and every move of the state word exactly once, and only
    makes legal moves. *)
Fixpoint accounts (p : prog act (option error)) (d : done) : Prop :=
  match p with
  | Ret r => d_moves d = d_counted d
             ∧ d_ok d = oks r ∧ d_err d = errs r
  | Act e k =>
      match e in act B return (B → prog act (option error)) → Prop with
      | AddTotalSuccess => λ k, accounts (k tt) (mkDone (S (d_ok d)) (d_err d) (d_moves d) (d_counted d))
      | AddTotalFailures => λ k, accounts (k tt) (mkDone (d_ok d) (S (d_err d)) (d_moves d) (d_counted d))
      | AddTotalRejected => λ k, accounts (k tt) (mkDone (d_ok d) (S (d_err d)) (d_moves d) (d_counted d))
      | AddStateChanges => λ k, accounts (k tt) (mkDone (d_ok d) (d_err d) (d_moves d) (S (d_counted d)))
      | CasState o n => λ k, legal o n ∧ accounts (k false) d
                              ∧ accounts (k true) (mkDone (d_ok d) (d_err d) (S (d_moves d)) (d_counted d))
      | StoreState _ => λ k, False
      | _ => λ k, ∀ b, accounts (k b) d
      end k
  end.

Ltac solve_accounts :=
  repeat (cbn -[Z.eqb Z.leb Z.ltb Sub Unix UnixNano i32 legal];
    match goal with
    | |- ∀ _, _ => intro
    | |- _ ∧ _ => split
    | |- legal _ _ => unfold legal; set_solver
    | |- context [if ?b then _ else _] => destruct b eqn:?
    end); try done.

Lemma call_accounts dur fn : accounts (Call dur fn) (mkDone 0 0 0 0).
Proof. destruct fn; unfold Call, allowRequest, recordFailure, recordSuccess; solve_accounts. Qed.

(** The shared invariant: the counters are the sums over the goroutines, and the
    recorded values form a legal path. *)
Definition counted (s : rec) (ds : list done) : Prop :=
  totalSuccess s.1 = u64 (Z.of_nat (sum_list_with d_ok ds))
  ∧ u64 (totalFailures s.1 + totalRejected s.1) = u64 (Z.of_nat (sum_list_with d_err ds))
  ∧ stateChanges s.1 = u64 (Z.of_nat (sum_list_with d_counted ds))
  ∧ length s.2 = sum_list_with d_moves ds
  ∧ legal_path StateClosed s.2 (state s.1).

Lemma sums_insert ds i (d d' : done) :
  ds !! i = Some d →
  (sum_list_with d_ok (<[i := d']> ds) + d_ok d = sum_list_with d_ok ds + d_ok d'
   ∧ sum_list_with d_err (<[i := d']> ds) + d_err d = sum_list_with d_err ds + d_err d'
   ∧ sum_list_with d_moves (<[i := d']> ds) + d_moves d = sum_list_with d_moves ds + d_moves d'
   ∧ sum_list_with d_counted (<[i := d']> ds) + d_counted d = sum_list_with d_counted ds + d_counted d')%nat.
Proof. intros. by rewrite !(sum_list_with_insert _ _ _ d). Qed.

Lemma u64_succ a n m : a = u64 (Z.of_nat n) → m = S n → u64 (a + 1) = u64 (Z.of_nat m).
Proof. intros -> ->. rewrite u64_add_l. f_equal. lia. Qed.

Lemma counted_step B (e : act B) k d s ds i b s' :
  ds !! i = Some d → accounts (Act e k) d → counted s ds → (b, s') ∈ handle_rec B e s →
  ∃ d', accounts (k b) d' ∧ counted s' (<[i := d']> ds).
Proof.
  intros Hi Ha (H1 & H2 & H3 & H4 & H5) Hin. unfold handle_rec in Hin.
  apply list_elem_of_fmap in Hin. destruct Hin as ([b' s1] & [= -> ->] & Hin).
  assert (Hsame : <[i := d]> ds = ds) by by apply list_insert_id.
  destruct e; simpl in Ha, Hin;
    try (apply list_elem_of_singleton in Hin as [= -> ->]; simpl;
         exists d; rewrite Hsame; rewrite ?Z.eqb_refl; unfold counted; simpl; eauto 10; fail).
  - (* CasState *)
    destruct Ha as (Hl & Hf & Ht). destruct (state s.1 =? old) eqn:E.
    + apply list_elem_of_singleton in Hin as [= -> ->]. eexists. split; [exact Ht|].
      pose proof (sums_insert ds i d (mkDone (d_ok d) (d_err d) (S (d_moves d)) (d_counted d)) Hi) as Hs.
      simpl in Hs. apply Z.eqb_eq in E. subst old.
      assert (new ≠ state s.1) as Hne%Z.eqb_neq.
      { intros ->. by apply legal_ne in Hl. }
      unfold counted; simpl. rewrite Hne, length_app. simpl.
      split_and!; [rewrite H1|rewrite H2|rewrite H3| |]; try (do 2 f_equal; lia); try lia.
      by eapply legal_path_snoc.
    + apply list_elem_of_singleton in Hin as [= -> ->]. exists d. rewrite Hsame. simpl.
      rewrite Z.eqb_refl. unfold counted. eauto 10.
  - done.
  - apply list_elem_of_singleton in Hin as [= -> ->]. eexists. split; [exact Ha|].
    pose proof (sums_insert ds i d (mkDone (S (d_ok d)) (d_err d) (d_moves d) (d_counted d)) Hi) as Hs.
    unfold counted; simpl in *. rewrite Z.eqb_refl.
    split_and!; [|rewrite H2|rewrite H3| |done]; try (do 2 f_equal; lia); try lia.
    eapply u64_succ; [done|lia].
  - apply list_elem_of_singleton in Hin as [= -> ->]. eexists. split; [exact Ha|].
    pose proof (sums_insert ds i d (mkDone (d_ok d) (S (d_err d)) (d_moves d) (d_counted d)) Hi) as Hs.
    unfold counted; simpl in *. rewrite Z.eqb_refl.
    split_and!; [rewrite H1| |rewrite H3| |done]; try (do 2 f_equal; lia); try lia.
    rewrite u64_add_l. replace (_ + 1 + _) with (totalFailures s.1 + totalRejected s.1 + 1) by lia.
    rewrite <-u64_add_l, H2, u64_add_l. f_equal. lia.
  - apply list_elem_of_singleton in Hin as [= -> ->]. eexists. split; [exact Ha|].
    pose proof (sums_insert ds i d (mkDone (d_ok d) (S (d_err d)) (d_moves d) (d_counted d)) Hi) as Hs.
    unfold counted; simpl in *. rewrite Z.eqb_refl.
    split_and!; [rewrite H1| |rewrite H3| |done]; try (do 2 f_equal; lia); try lia.
    rewrite u64_add_r, Z.add_assoc, <-u64_add_l, H2, u64_add_l. f_equal. lia.
  - apply list_elem_of_singleton in Hin as [= -> ->]. eexists. split; [exact Ha|].
    pose proof (sums_insert ds i d (mkDone (d_ok d) (d_err d) (d_moves d) (S (d_counted d))) Hi) as Hs.
    unfold counted; simpl in *. rewrite Z.eqb_refl.
    split_and!; [rewrite H1|rewrite H2| | |done]; try (do 2 f_equal; lia); try lia.
    eapply u64_succ; [done|lia].
Qed.

Lemma counted_tick s s' ds : counted s ds → tick s s' → counted s' ds.
Proof. intros H (d & _ & ->). exact H. Qed.

(** Goroutines that each make one call on a new breaker. *)
Definition callers (cs : list (Z * option error)) : list (prog act (option error)) :=
  (λ c, Call c.1 c.2) <$> cs.

Lemma callers_counted cs thr tmo now c :
  gsteps handle_rec tick (callers cs, (NewCircuitBreaker thr tmo now, [])) c →
  ∃ ds, Forall2 accounts c.1 ds ∧ counted c.2 ds.
Proof.
  intros Hr. eapply (pool_invariant handle_rec tick accounts counted);
    [intros; by eapply counted_step|intros; by eapply counted_tick|exact Hr|].
  exists (replicate (length cs) (mkDone 0 0 0 0)). split.
  - simpl. unfold callers. apply Forall2_fmap_l, Forall2_replicate_r; [done|].
    apply Forall_true. intros [d fn]. apply call_accounts.
  - assert (Hz : ∀ f : done → nat, f (mkDone 0 0 0 0) = 0%nat →
                  sum_list_with f (replicate (length cs) (mkDone 0 0 0 0)) = 0%nat).
    { intros f Hf. induction (length cs) as [|n IH]; simpl; lia. }
    unfold counted; simpl. by rewrite !Hz.
Qed.

Lemma run_calls_refines cs cb m :
  calls_ok cs → in_range cb (calls_time cs) → repr cb m →
  ∃ cb', run_calls cs cb = Some ((machine_calls (threshold cb) (timeout cb) (wall cb) cs m).1, cb')
    ∧ repr cb' (machine_calls (threshold cb) (timeout cb) (wall cb) cs m).2.
Proof.
  revert cb m. induction cs as [|[[gap d] fn] cs IH]; intros cb m Hok Hin Hr.
  { simpl. by exists cb. }
  inversion Hok as [|? ? [Hg Hd] Hok']; subst. simpl in Hg, Hd.
  pose proof (calls_time_nonneg cs Hok') as Ht. destruct Hin as (H1 & H2 & H3 & H4 & H5). simpl in H5.
  set (cb0 := with_wall (wall cb + gap) cb).
  assert (Hr0 : repr cb0 m) by (unfold cb0; destruct m; simpl in *; lia).
  pose proof (call_refines cb0 m d fn Hd ltac:(unfold in_range, cb0; simpl; lia) Hr0) as Hc.
  cbn [machine_calls run_calls]. fold cb0.
  change (threshold cb0) with (threshold cb) in Hc. change (timeout cb0) with (timeout cb) in Hc.
  change (halfOpenMax cb0) with (halfOpenMax cb) in Hc. change (wall cb0) with (wall cb + gap) in Hc.
  destruct (machine_call _ _ _ _ _ _) as [m1 r].
  destruct Hc as (cb1 & Ho & Hr1 & Ht1 & Ht2 & Ht3 & Hw). rewrite Ho.
  assert (Hwb : wall cb + gap ≤ wall cb1 ≤ wall cb + gap + d) by (rewrite Hw; repeat case_match; lia).
  destruct (IH cb1 m1 Hok' ltac:(unfold in_range; lia) Hr1) as (cb2 & Hrun & Hr2).
  rewrite Hrun. rewrite Ht1, Ht2 in Hr2 |- *. simpl. exists cb2.
  rewrite <-Hw. revert Hr2. by destruct (machine_calls (threshold cb) (timeout cb) (wall cb1) cs m1).
Qed.

(** C9. Calls made one after another see a two-state machine: closed with a count
    of consecutive failures, opening at the threshold; open until the timeout has
    passed since the last failure, rejecting every call meanwhile; then one probe
    decides between closed and open. *)
Theorem breaker_refines_machine thr tmo now cs :
  thr < 2 ^ 31 → unix_epoch ≤ now → now + calls_time cs < unix_epoch + 2 ^ 63 → calls_ok cs →
  let cb := NewCircuitBreaker thr tmo now in
  let m := machine_calls (threshold cb) (timeout cb) now cs (MClosed 0) in
  ∃ cb', run_calls cs cb = Some (m.1, cb') ∧ repr cb' m.2.
Proof.
  intros Hthr Hn Hn' Hok cb m.
  assert (Hc : 0 < threshold cb < 2 ^ 31 ∧ 0 < timeout cb).
  { subst cb. unfold NewCircuitBreaker, Second. simpl.
    destruct (Z.leb_spec thr 0), (Z.leb_spec tmo 0); lia. }
  apply run_calls_refines; [done|unfold in_range|unfold repr];
    change (wall cb) with now; change (halfOpenMax cb) with 3;
    change (failures cb) with 0; change (state cb) with StateClosed; lia.
Qed.

(** The threshold is two failures: the breaker opens, rejects, probes, reopens,
    probes again and closes. *)
Definition demo : calls :=
  [(0, 5, None); (1, 5, Some (ErrExt 1)); (1, 5, Some (ErrExt 2)); (10, 5, None);
   (91, 5, Some (ErrExt 3)); (99, 5, None); (2, 5, None); (0, 1, Some (ErrExt 4)); (0, 1, None)].

Lemma breaker_refines_machine_witness :
  option_map fst (run_calls demo (NewCircuitBreaker 2 100 (unix_epoch + 1000)))
    = Some [None; Some (ErrExt 1); Some (ErrExt 2); Some (ErrIs TransportErrCircuitOpen);
            Some (ErrExt 3); Some (ErrIs TransportErrCircuitOpen); None; Some (ErrExt 4); None].
Proof.
  destruct (breaker_refines_machine 2 100 (unix_epoch + 1000) demo) as (cb' & Hr & _);
    [lia|lia|unfold unix_epoch; simpl; lia|repeat constructor; simpl; lia|].
  rewrite Hr. vm_compute. reflexivity.
Defined.

(** Under every interleaving of any number of concurrent calls, with the clock
    advancing in between: the state word only moves closed to open, open to
    half-open and half-open to closed or open; and once all calls have returned,
    totalSuccess is the number of calls that returned nil, totalFailures plus
    totalRejected the number that returned an error, and stateChanges the number
    of moves the state word made. *)
Theorem breaker_accounting thr tmo now cs ts cb h :
  gsteps handle_rec tick (callers cs, (NewCircuitBreaker thr tmo now, [])) (ts, (cb, h)) →
  legal_path StateClosed h (state cb)
  ∧ ∀ rs, ts = Ret <$> rs →
      totalSuccess cb = u64 (Z.of_nat (sum_list_with oks rs))
      ∧ u64 (totalFailures cb + totalRejected cb) = u64 (Z.of_nat (sum_list_with errs rs))
      ∧ stateChanges cb = u64 (len h).
Proof.
  intros Hr. destruct (callers_counted _ _ _ _ _ Hr) as (ds & HP & H1 & H2 & H3 & H4 & H5).
  simpl in *. split; [done|]. intros rs ->.
  assert (Hs : sum_list_with d_ok ds = sum_list_with oks rs ∧ sum_list_with d_err ds = sum_list_with errs rs
               ∧ sum_list_with d_moves ds = sum_list_with d_counted ds).
  { clear -HP. rewrite Forall2_fmap_l in HP. induction HP as [|r d rs' ds Hrd _ IH]; simpl; [auto|].
    simpl in Hrd. destruct Hrd as (Ha & Hb & Hc), IH as (-> & -> & ->). lia. }
  destruct Hs as (Hs1 & Hs2 & Hs3). unfold len. rewrite H4, Hs3, <-Hs1, <-Hs2. done.
Qed.

(** Two concurrent calls with threshold one: both are let through, the failing
    one opens the breaker, the other one succeeds. *)
Lemma breaker_accounting_witness :
  ∃ cb h, gsteps handle_rec tick
            (callers [(3, None); (1, Some (ErrExt 7))], (NewCircuitBreaker 1 100 unix_epoch, []))
            (Ret <$> [None; Some (ErrExt 7)], (cb, h))
    ∧ legal_path StateClosed h (state cb) ∧ h = [StateOpen]
    ∧ totalSuccess cb = 1 ∧ stateChanges cb = 1.
Proof.
  eexists _, _.
  match goal with |- ?G ∧ _ => assert (H : G) end.
  { apply (sched_gsteps _ _ [0; 1; 1; 0; 1; 1; 1; 1; 1; 1; 1; 1; 0; 0]%nat).
    vm_compute. reflexivity. }
  split; [exact H|]. destruct (breaker_accounting _ _ _ _ _ _ _ H) as [Hl Hc].
  split; [exact Hl|]. split; [vm_compute; reflexivity|].
  destruct (Hc _ eq_refl) as (H1 & _ & H3). split; [rewrite H1|rewrite H3]; vm_compute; reflexivity.
Defined.

End Circuit.
