(* ===== verification/Udp.v ===== *)
(** * The datagram connection pool (transport/udp.go)

    [UDPConnPool] hands out connections through a buffered channel; [Get] takes
    one without holding the lock, [Put] and [Close] take the lock.  Methods are
    trees of atomic actions, so that a [Send] in flight while the pool is closed
    is an interleaving like any other.

    Connections, address resolution and dialling belong to package net and the
    kernel: a connection is an identifier, and what its calls return is an
    argument of the operation ([net]). *)

From S2P Require Import Prelude GoLib Atomic.
#[local] Open Scope prog_scope.

Module Udp.

Definition conn := nat.

Definition defaultWriteTimeout : Z := 100 * Millisecond.

Record UDPConnPool := mkPool {
  network : gostring; address : gostring; timeout : Z; maxConns : Z;
  (** the channel: its buffered connections, and whether it was closed *)
  chan : list conn; chan_closed : bool;
  (** the write lock, and the flag it guards *)
  locked : bool; closed : bool;
  activeConns : Z; totalSent : Z; totalErrors : Z;
  (** what has happened outside: connections closed so far, and contexts done *)
  closed_conns : list conn; ctx_err : option error }.

(** A context: its deadline, and whether its end is visible to the call. *)
Record ctx := mkCtx { deadline : option Z; cancellable : bool }.

(** What the connection's calls return: SetWriteDeadline, and the i-th Write. *)
Record net := mkNet { set_deadline : option error; write : nat → Z * option error }.

Definition is_datagram (network : gostring) : bool :=
  gostring_eqb network (str "udp") || gostring_eqb network (str "udp4")
  || gostring_eqb network (str "udp6") || gostring_eqb network (str "unixgram").

Definition networkUnixgram : gostring := str "unixgram".

Section dialling.
(** net.ResolveUDPAddr; dialling the i-th connection, which for UDP includes
    setting the write buffer and closing the socket when that fails. *)
Context (ResolveUDPAddr : gostring → gostring → option error).
Context (dialUnixgram : nat → gostring → option error).
Context (DialUDP : nat → gostring → option error) (SetWriteBuffer : nat → option error).

(** createConnection: the connection's number on success, and activeConns counted. *)
Definition createConnection (i : nat) (p : UDPConnPool) : option error * UDPConnPool :=
  let counted := mkPool (network p) (address p) (timeout p) (maxConns p) (chan p) (chan_closed p)
                   (locked p) (closed p) (i32 (activeConns p + 1)) (totalSent p) (totalErrors p)
                   (closed_conns p) (ctx_err p) in
  if gostring_eqb (network p) networkUnixgram then
    match dialUnixgram i (address p) with
    | Some err => (Some err, p)
    | None => (None, counted)
    end
  else
    match DialUDP i (address p) with
    | Some err => (Some err, p)
    | None => match SetWriteBuffer i with
              | Some err => (wrap "set write buffer" (Some err), p)
              | None => (None, counted)
              end
    end.

(** Close of a pool that no other goroutine uses yet. *)
Definition close_new (p : UDPConnPool) : UDPConnPool :=
  mkPool (network p) (address p) (timeout p) (maxConns p) [] true false true
    (i32 (activeConns p - len (chan p))) (totalSent p) (totalErrors p)
    (closed_conns p ++ chan p) (ctx_err p).

(** NewPool's loop; on a failure it closes what was opened and gives up. *)
Fixpoint dial_loop (n : nat) (i : nat) (p : UDPConnPool) : UDPConnPool + (error * UDPConnPool) :=
  match n with
  | O => inl p
  | S n' =>
      match createConnection i p with
      | (Some err, p1) => inr (ErrWrap (str "create connection") err, close_new p1)
      | (None, p1) =>
          dial_loop n' (S i)
            (mkPool (network p1) (address p1) (timeout p1) (maxConns p1) (chan p1 ++ [i])
               (chan_closed p1) (locked p1) (closed p1) (activeConns p1) (totalSent p1)
               (totalErrors p1) (closed_conns p1) (ctx_err p1))
      end
  end.

(** The pool that NewPool returns, or its error with what became of the pool. *)
Definition NewPool (network address : gostring) (poolSize timeout : Z) :
    UDPConnPool + (error * option UDPConnPool) :=
  if negb (is_datagram network) then inr (ErrWrapAfter (ErrIs ErrUnsupportedNetwork) network, None)
  else
    let poolSize := if poolSize <=? 0 then 4 else poolSize in
    let timeout := if timeout <=? 0 then defaultWriteTimeout else timeout in
    match (if gostring_eqb network networkUnixgram then None else ResolveUDPAddr network address) with
    | Some err => inr (ErrWrap (str "resolve UDP address") err, None)
    | None =>
        match dial_loop (Z.to_nat poolSize) 0
                (mkPool network address timeout poolSize [] false false false 0 0 0 [] None) with
        | inl p => inl p
        | inr (err, p) => inr (err, Some p)
        end
    end.

Definition NewUDPConnPool (address : gostring) (poolSize : Z) :
    UDPConnPool + (error * option UDPConnPool) :=
  NewPool (str "udp") address poolSize defaultWriteTimeout.

End dialling.

(** ** Atomic actions *)
Inductive act : Type → Type :=
| ReadClosed : act bool                       (* RLock; closed; RUnlock *)
| Select (c : ctx) : act (option conn + error) (* <-p.pool or <-ctx.Done() *)
| PutBack (c : conn) : act unit               (* Put, under RLock *)
| SetWriteDeadline (c : conn) : act unit
| Write (c : conn) : act unit
| AddSent : act unit
| AddErrors : act unit
| Lock : act bool                             (* Lock; the closed flag *)
| CloseChan : act unit                        (* closed = true; close(p.pool) *)
| Drain : act (option conn)                   (* one turn of range p.pool *)
| CloseConn (c : conn) : act unit
| AddActive (d : Z) : act unit
| Unlock : act unit
| LoadStats : act (Z * Z * Z * Z * gostring).

Definition upd_chan p l := mkPool (network p) (address p) (timeout p) (maxConns p) l (chan_closed p) (locked p) (closed p) (activeConns p) (totalSent p) (totalErrors p) (closed_conns p) (ctx_err p).
Definition upd_locked p b := mkPool (network p) (address p) (timeout p) (maxConns p) (chan p) (chan_closed p) b (closed p) (activeConns p) (totalSent p) (totalErrors p) (closed_conns p) (ctx_err p).
Definition upd_closed p := mkPool (network p) (address p) (timeout p) (maxConns p) (chan p) true (locked p) true (activeConns p) (totalSent p) (totalErrors p) (closed_conns p) (ctx_err p).
Definition upd_active p a := mkPool (network p) (address p) (timeout p) (maxConns p) (chan p) (chan_closed p) (locked p) (closed p) a (totalSent p) (totalErrors p) (closed_conns p) (ctx_err p).
Definition upd_totals p s e := mkPool (network p) (address p) (timeout p) (maxConns p) (chan p) (chan_closed p) (locked p) (closed p) (activeConns p) s e (closed_conns p) (ctx_err p).
Definition upd_closed_conns p c := mkPool (network p) (address p) (timeout p) (maxConns p) (chan p) (chan_closed p) (locked p) (closed p) (activeConns p) (totalSent p) (totalErrors p) (closed_conns p ++ [c]) (ctx_err p).
Definition upd_ctx p e := mkPool (network p) (address p) (timeout p) (maxConns p) (chan p) (chan_closed p) (locked p) (closed p) (activeConns p) (totalSent p) (totalErrors p) (closed_conns p) e.

(** Receiving from the channel: a closed and empty channel answers nil. *)
Definition recv (p : UDPConnPool) : list (option conn * UDPConnPool) :=
  match chan p with
  | c :: l => [(Some c, upd_chan p l)]
  | [] => if chan_closed p then [(None, p)] else []
  end.

Definition close_conn (p : UDPConnPool) (c : conn) : UDPConnPool :=
  upd_active (upd_closed_conns p c) (i32 (activeConns p - 1)).

Definition handle (B : Type) (e : act B) (p : UDPConnPool) : list (B * UDPConnPool) :=
  match e in act B return list (B * UDPConnPool) with
  | ReadClosed => if locked p then [] else [(closed p, p)]
  | Select c =>
      ((λ r, (inl r.1, r.2)) <$> recv p)
      ++ match ctx_err p with
         | Some err => if cancellable c then [(inr err, p)] else []
         | None => []
         end
  | PutBack c =>
      if locked p then []
      else if closed p then [(tt, close_conn p c)]
      else if len (chan p) <? maxConns p then [(tt, upd_chan p (chan p ++ [c]))]
      else [(tt, close_conn p c)]
  | SetWriteDeadline c => [(tt, p)]
  | Write c => [(tt, p)]
  | AddSent => [(tt, upd_totals p (u64 (totalSent p + 1)) (totalErrors p))]
  | AddErrors => [(tt, upd_totals p (totalSent p) (u64 (totalErrors p + 1)))]
  | Lock => if locked p then [] else [(closed p, upd_locked p true)]
  | CloseChan => [(tt, upd_closed p)]
  | Drain => recv p
  | CloseConn c => [(tt, upd_closed_conns p c)]
  | AddActive d => [(tt, upd_active p (i32 (activeConns p + d)))]
  | Unlock => [(tt, upd_locked p false)]
  | LoadStats => [((activeConns p, totalSent p, totalErrors p, maxConns p, address p), p)]
  end.

#[local] Notation "'let!' x := e ; k" := (@Act act _ _ e (λ x, k)) : prog_scope.
#[local] Notation "'run!' e ; k" := (@Act act _ _ e (λ _, k)) : prog_scope.

(** ** The methods

    A call returns an error value or panics (a method of the nil connection). *)
Inductive result := Returned (e : option error) | Panicked.

Definition ErrClosedText : error := ErrText (str "connection pool is closed").

Definition Get (c : ctx) : prog act (option conn + error) :=
  let! cl := ReadClosed;
  if cl then Ret (inr ErrClosedText)
  else
    let! r := Select c;
    Ret r.

Definition Put (c : option conn) : prog act unit :=
  match c with
  | None => Ret tt
  | Some c => run! PutBack c; Ret tt
  end.

(** A deferred Put runs before the method returns, and on the way of a panic. *)
Definition finish (c : option conn) (r : result) : prog act result :=
  run@ Put c; Ret r.

Definition Send (c : ctx) (n : net) (data : gostring) : prog act result :=
  let@ got := Get c;
  match got with
  | inr err => run! AddErrors; Ret (Returned (Some err))
  | inl None => finish None Panicked
  | inl (Some conn) =>
      run! SetWriteDeadline conn;
      match set_deadline n with
      | Some err => run! AddErrors; finish (Some conn) (Returned (wrap "set deadline" (Some err)))
      | None =>
          run! Write conn;
          match write n 0 with
          | (_, Some err) => run! AddErrors; finish (Some conn) (Returned (wrap "UDP write" (Some err)))
          | (w, None) =>
              if negb (w =? len data) then
                run! AddErrors; finish (Some conn) (Returned (Some (ErrText (str "incomplete write"))))
              else run! AddSent; finish (Some conn) (Returned None)
          end
      end
  end.

(** The loop of SendBatch: the last error, the number of successes. *)
Fixpoint SendBatch_loop (conn : conn) (n : net) (i : nat) (dataList : list gostring)
    (lastErr : option error) (successCount : Z) : prog act (option error * Z) :=
  match dataList with
  | [] => Ret (lastErr, successCount)
  | data :: rest =>
      if len data =? 0 then SendBatch_loop conn n i rest lastErr successCount
      else
        run! Write conn;
        match (write n i).2 with
        | Some err => run! AddErrors; SendBatch_loop conn n (S i) rest (Some err) successCount
        | None => run! AddSent; SendBatch_loop conn n (S i) rest lastErr (successCount + 1)
        end
  end.

Definition SendBatch (c : ctx) (n : net) (dataList : list gostring) : prog act result :=
  if len dataList =? 0 then Ret (Returned None)
  else
    let@ got := Get c;
    match got with
    | inr err => run! AddErrors; Ret (Returned (Some err))
    | inl None => finish None Panicked
    | inl (Some conn) =>
        run! SetWriteDeadline conn;
        match set_deadline n with
        | Some err => run! AddErrors; finish (Some conn) (Returned (wrap "set deadline" (Some err)))
        | None =>
            let@ r := SendBatch_loop conn n 0 dataList None 0;
            match r with
            | (Some lastErr, successCount) =>
                if successCount =? 0
                then finish (Some conn) (Returned (wrap "all writes failed" (Some lastErr)))
                else finish (Some conn) (Returned None)
            | (None, _) => finish (Some conn) (Returned None)
            end
        end
    end.

(** The loop of Close; no goroutine fills a closed channel, so [maxConns + 1]
    turns see it empty. *)
Fixpoint Close_loop (fuel : nat) : prog act unit :=
  match fuel with
  | O => run! Unlock; Ret tt
  | S f =>
      let! c := Drain;
      match c with
      | None => run! Unlock; Ret tt
      | Some c => run! CloseConn c; run! AddActive (-1); Close_loop f
      end
  end.

Definition Close (fuel : nat) : prog act result :=
  let! cl := Lock;
  if cl then run! Unlock; Ret (Returned None)
  else run! CloseChan; run@ Close_loop fuel; Ret (Returned None).

Record PoolStats := mkPoolStats {
  ActiveConns : Z; TotalSent : Z; TotalErrors : Z; PoolSize : Z; Address : gostring }.

Definition Stats : prog act PoolStats :=
  let! t := LoadStats;
  Ret (mkPoolStats t.1.1.1.1 t.1.1.1.2 t.1.1.2 t.1.2 t.2).

(** ** Ownership of connections

    The ghost state of a goroutine: the connection it holds, the decrements of
    activeConns it owes, whether it holds the write lock, and how many turns its
    Close loop still needs at most. *)
Record own := mkOwn { held : option conn; owes : nat; writer : bool; turns : option nat }.

Definition idle : own := mkOwn None 0 false None.

Section ownership.
Context (M : nat).

(** [owns p g]: a goroutine in ghost state [g] that continues as [p] uses only
    the connection it holds, gives it back before returning, and releases the
    lock it takes. *)
Fixpoint owns (p : prog act result) (g : own) : Prop :=
  match p with
  | Ret _ => g = idle
  | Act e k =>
      match e in act B return (B → prog act result) → Prop with
      | Select _ => λ k, held g = None ∧ writer g = false
          ∧ (∀ c, owns (k (inl (Some c))) (mkOwn (Some c) (owes g) (writer g) (turns g)))
          ∧ owns (k (inl None)) g ∧ ∀ err, owns (k (inr err)) g
      | PutBack c => λ k, held g = Some c ∧ owns (k tt) (mkOwn None (owes g) (writer g) (turns g))
      | SetWriteDeadline c | Write c => λ k, held g = Some c ∧ owns (k tt) g
      | Lock => λ k, writer g = false ∧ turns g = None
          ∧ ∀ b, owns (k b) (mkOwn (held g) (owes g) true (if b then Some 0%nat else None))
      | CloseChan => λ k, writer g = true ∧ turns g = None
          ∧ owns (k tt) (mkOwn (held g) (owes g) true (Some M))
      | Drain => λ k, held g = None ∧ writer g = true ∧ ∃ n, turns g = Some n
          ∧ (∀ c, owns (k (Some c)) (mkOwn (Some c) (owes g) true (Some (pred n))))
          ∧ owns (k None) (mkOwn None (owes g) true (Some 0%nat))
      | CloseConn c => λ k, held g = Some c ∧ writer g = true ∧ owes g = 0%nat
          ∧ owns (k tt) (mkOwn None 1 (writer g) (turns g))
      | AddActive d => λ k, d = -1 ∧ owes g = 1%nat ∧ owns (k tt) (mkOwn (held g) 0 (writer g) (turns g))
      | Unlock => λ k, writer g = true ∧ owes g = 0%nat ∧ turns g = Some 0%nat
          ∧ owns (k tt) (mkOwn (held g) 0 false None)
      | _ => λ k, ∀ b, owns (k b) g
      end k
  end.

Definition holding (g : own) : nat := match held g with Some _ => 1 | None => 0 end.
Definition writing (g : own) : nat := if writer g then 1 else 0.

(** The shared invariant: every connection of the pool is in the channel, held by
    one goroutine or closed; activeConns counts those not closed; at most one
    goroutine holds the lock; a closed channel empties within the turns left. *)
Record pool_inv (p : UDPConnPool) (gs : list own) : Prop := mkPoolInv {
  inv_perm : Permutation (chan p ++ omap held gs ++ closed_conns p) (seq 0 M);
  inv_active : activeConns p = len (chan p) + Z.of_nat (sum_list_with holding gs)
                               + Z.of_nat (sum_list_with owes gs);
  inv_owes : ∀ g, g ∈ gs → (owes g ≤ writing g)%nat;
  inv_max : maxConns p = Z.of_nat M;
  inv_lock : sum_list_with writing gs = if locked p then 1%nat else 0%nat;
  inv_chan_closed : chan_closed p = closed p;
  inv_closed : closed p = true → chan p = [] ∨
    ∃ g n, g ∈ gs ∧ writer g = true ∧ turns g = Some n ∧ (length (chan p) ≤ n)%nat;
  inv_open : closed p = false → ∀ g, g ∈ gs → turns g = None }.

Lemma omap_insert_perm (gs : list own) i g g' :
  gs !! i = Some g →
  ∃ rest, Permutation (omap held gs) (option_list (held g) ++ rest)
        ∧ Permutation (omap held (<[i := g']> gs)) (option_list (held g') ++ rest).
Proof.
  intros Hi. exists (omap held (take i gs ++ drop (S i) gs)).
  rewrite insert_take_drop by (by eapply lookup_lt_Some).
  rewrite <-(take_drop_middle gs i g Hi) at 1. rewrite !omap_app. simpl.
  split; [destruct (held g)|destruct (held g')]; simpl; by rewrite <-?Permutation_middle.
Qed.

Lemma omap_held_inj (gs : list own) i j g g' c :
  NoDup (omap held gs) → gs !! i = Some g → gs !! j = Some g' →
  held g = Some c → held g' = Some c → j = i.
Proof.
  intros Hnd Hi Hj Hh Hh'. destruct (decide (j = i)) as [|Hne]; [done|]. exfalso.
  destruct (omap_insert_perm gs i g idle Hi) as (rest & Hr & Hr').
  rewrite Hr, Hh in Hnd. simpl in Hnd. apply NoDup_cons in Hnd as [Hn _]. apply Hn.
  simpl in Hr'. rewrite <-Hr'. apply list_elem_of_omap. exists g'. split; [|done].
  apply list_elem_of_lookup. exists j. by rewrite list_lookup_insert_ne.
Qed.

Lemma sum_ge_elem (f : own → nat) gs g : g ∈ gs → (f g ≤ sum_list_with f gs)%nat.
Proof.
  induction gs as [|h gs IH]; intros Hin; [inversion Hin|].
  apply elem_of_cons in Hin as [->|Hin]; simpl; [lia|]. specialize (IH Hin). lia.
Qed.

Lemma sum_owes_le gs :
  (∀ g, g ∈ gs → (owes g ≤ writing g)%nat) → (sum_list_with owes gs ≤ sum_list_with writing gs)%nat.
Proof.
  induction gs as [|g gs IH]; intros H; simpl; [lia|].
  pose proof (H g (list_elem_of_here _ _)). assert (sum_list_with owes gs ≤ sum_list_with writing gs)%nat; [|lia].
  apply IH. intros h Hh. apply H. by apply list_elem_of_further.
Qed.

Context (HM : Z.of_nat M + 1 < 2 ^ 31).

Lemma pool_active_bound p gs :
  pool_inv p gs →
  0 ≤ activeConns p ≤ Z.of_nat M + 1
  ∧ (length (chan p) + sum_list_with holding gs ≤ M)%nat.
Proof.
  intros [Hp Ha Ho _ Hl _ _ _]. apply Permutation_length in Hp.
  rewrite !length_app, length_seq in Hp.
  assert (Hh : length (omap held gs) = sum_list_with holding gs).
  { clear. induction gs as [|[[c|] o w t] gs IH]; csimpl; [done|lia|lia]. }
  pose proof (sum_owes_le gs Ho). destruct (locked p); unfold len in *; lia.
Qed.

(** An action that changes neither the connections nor the lock. *)
Lemma pool_inv_frame p p' gs :
  pool_inv p gs →
  chan p' = chan p → closed_conns p' = closed_conns p → activeConns p' = activeConns p →
  maxConns p' = maxConns p → locked p' = locked p → chan_closed p' = chan_closed p →
  closed p' = closed p → pool_inv p' gs.
Proof. intros [] E1 E2 E3 E4 E5 E6 E7. split; rewrite ?E1, ?E2, ?E3, ?E4, ?E5, ?E6, ?E7; done. Qed.

(** Taking a connection out of the channel. *)
Lemma pool_inv_take p gs i g c l t :
  pool_inv p gs → gs !! i = Some g → held g = None → chan p = c :: l →
  (closed p = false → t = turns g) →
  (∀ n, turns g = Some n → writer g = true → t = Some (pred n)) →
  pool_inv (upd_chan p l) (<[i := mkOwn (Some c) (owes g) (writer g) t]> gs).
Proof.
  intros [Hp Ha Ho Hm Hl Hcc Hc Hop] Hi Hh Hch Ht Ht'.
  set (g' := mkOwn (Some c) (owes g) (writer g) t).
  destruct (omap_insert_perm gs i g g' Hi) as (rest & Hr & Hr').
  pose proof (sum_list_with_insert holding gs i g g' Hi) as S1.
  pose proof (sum_list_with_insert owes gs i g g' Hi) as S2.
  pose proof (sum_list_with_insert writing gs i g g' Hi) as S3.
  unfold holding at 2 4 in S1. rewrite Hh in S1, Hr. simpl in *.
  assert (Hw : writing g' = writing g) by done.
  split; simpl; try done.
  - rewrite <-Hp, Hr, Hr', Hch. simpl. by rewrite <-Permutation_middle.
  - rewrite Ha, Hch. unfold len. simpl. lia.
  - intros h Hin. destruct (elem_of_list_insert _ _ _ _ _ Hi Hin) as [->|]; [|auto].
    apply (Ho g). by eapply list_elem_of_lookup_2.
  - lia.
  - intros Hcl. destruct (Hc Hcl) as [He|(h & n & Hin & Hhw & Hn & Hle)]; [congruence|].
    rewrite Hch in Hle. simpl in Hle. right.
    destruct (elem_of_list_insert_other _ _ _ g' _ Hi Hin) as [->|Hin'].
    + exists g', (pred n). split; [|simpl; rewrite (Ht' n Hn Hhw)]; [|split_and!; try done; lia].
      by eapply elem_of_list_insert_new.
    + exists h, n. split_and!; try done. lia.
  - intros Hcl h Hin. destruct (elem_of_list_insert _ _ _ _ _ Hi Hin) as [->|]; [|auto].
    simpl. rewrite (Ht Hcl). apply (Hop Hcl). by eapply list_elem_of_lookup_2.
Qed.

(** Giving a connection back to the channel or closing it. *)
Lemma pool_inv_give p p' gs i g c o :
  pool_inv p gs → gs !! i = Some g → held g = Some c → (o ≤ writing g)%nat →
  maxConns p' = maxConns p → locked p' = locked p → chan_closed p' = chan_closed p → closed p' = closed p →
  (chan p' = chan p ++ [c] ∧ closed_conns p' = closed_conns p ∧ closed p = false
   ∨ chan p' = chan p ∧ closed_conns p' = closed_conns p ++ [c]) →
  activeConns p' = len (chan p') + Z.of_nat (sum_list_with holding gs) - 1
                   + Z.of_nat (sum_list_with owes gs) + Z.of_nat o - Z.of_nat (owes g) →
  pool_inv p' (<[i := mkOwn None o (writer g) (turns g)]> gs).
Proof.
  intros [Hp Ha Ho Hm Hl Hcc Hc Hop] Hi Hh Hog E1 E2 E3 E4 Hcase Hact.
  set (g' := mkOwn None o (writer g) (turns g)).
  destruct (omap_insert_perm gs i g g' Hi) as (rest & Hr & Hr').
  pose proof (sum_list_with_insert holding gs i g g' Hi) as S1.
  pose proof (sum_list_with_insert owes gs i g g' Hi) as S2.
  pose proof (sum_list_with_insert writing gs i g g' Hi) as S3.
  unfold holding at 2 4 in S1. rewrite Hh in S1, Hr. simpl in *.
  assert (Hw : writing g' = writing g) by done.
  split; rewrite ?E1, ?E2, ?E3, ?E4; try done.
  - rewrite <-Hp, Hr, Hr'. simpl. destruct Hcase as [(-> & -> & _)|(-> & ->)].
    + rewrite <-app_assoc. simpl. by rewrite <-!Permutation_middle.
    + rewrite (Permutation_app_comm (closed_conns p)). simpl. by rewrite <-!Permutation_middle.
  - lia.
  - intros h Hin. destruct (elem_of_list_insert _ _ _ _ _ Hi Hin) as [->|]; [|auto]. by rewrite Hw.
  - lia.
  - intros Hcl. destruct Hcase as [(? & ? & ?)|(-> & _)]; [congruence|].
    destruct (Hc Hcl) as [He|(h & n & Hin & Hhw & Hn & Hle)]; [by left|]. right.
    destruct (elem_of_list_insert_other _ _ _ g' _ Hi Hin) as [->|Hin'].
    + exists g', n. split_and!; try done.
      by eapply elem_of_list_insert_new.
    + exists h, n. split_and!; try done.
  - intros Hcl h Hin. destruct (elem_of_list_insert _ _ _ _ _ Hi Hin) as [->|]; [|auto].
    simpl. apply (Hop Hcl). by eapply list_elem_of_lookup_2.
Qed.

(** Taking or releasing the lock, or changing the number of turns. *)
Lemma pool_inv_lock p p' gs i g (o : nat) (w : bool) (t : option nat) :
  pool_inv p gs → gs !! i = Some g →
  chan p' = chan p → closed_conns p' = closed_conns p → maxConns p' = maxConns p →
  chan_closed p' = closed p' →
  activeConns p' = activeConns p + Z.of_nat o - Z.of_nat (owes g) →
  (o ≤ if w then 1 else 0)%nat →
  ((if locked p then 1 else 0) + (if w then 1 else 0)
     = (if locked p' then 1 else 0) + (if writer g then 1 else 0))%nat →
  (closed p' = false → closed p = false ∧ t = None) →
  (closed p' = true → chan p = [] ∨ (w = true ∧ ∃ n, t = Some n ∧ length (chan p) ≤ n)%nat) →
  pool_inv p' (<[i := mkOwn (held g) o w t]> gs).
Proof.
  intros [Hp Ha Ho Hm Hl Hcc Hc Hop] Hi E1 E2 E3 E4 Hact How Hlk Hopen Hclosed.
  set (g' := mkOwn (held g) o w t).
  destruct (omap_insert_perm gs i g g' Hi) as (rest & Hr & Hr').
  pose proof (sum_list_with_insert holding gs i g g' Hi) as S1.
  pose proof (sum_list_with_insert owes gs i g g' Hi) as S2.
  pose proof (sum_list_with_insert writing gs i g g' Hi) as S3.
  change (holding g') with (holding g) in S1. unfold writing in S3 at 2 4. simpl in *.
  split; rewrite ?E1, ?E2, ?E3; try done.
  - rewrite <-Hp, Hr, Hr'. done.
  - lia.
  - intros h Hin. destruct (elem_of_list_insert _ _ _ _ _ Hi Hin) as [->|]; [|auto].
    unfold writing. simpl. done.
  - lia.
  - intros Hcl. destruct (Hclosed Hcl) as [|(Hw & n & Hn & Hle)]; [by left|]. right.
    exists g', n. split_and!; try done.
    by eapply elem_of_list_insert_new.
  - intros Hcl h Hin. destruct (Hopen Hcl) as [Hcl' Ht].
    destruct (elem_of_list_insert _ _ _ _ _ Hi Hin) as [->|]; [done|eauto].
Qed.

Lemma pool_inv_unlocked p gs g :
  pool_inv p gs → locked p = false → g ∈ gs → writer g = false.
Proof.
  intros [_ _ _ _ Hl _ _ _] Hp Hg. rewrite Hp in Hl.
  pose proof (sum_ge_elem writing gs g Hg) as H. unfold writing at 1 in H.
  destruct (writer g); [lia|done].
Qed.

(** A closed pool whose lock is free has an empty channel. *)
Lemma pool_inv_drained p gs :
  pool_inv p gs → closed p = true → locked p = false → chan p = [].
Proof.
  intros Hi Hc Hl. destruct (inv_closed _ _ Hi Hc) as [|(g & n & Hg & Hw & _)]; [done|].
  pose proof (pool_inv_unlocked p gs g Hi Hl Hg). congruence.
Qed.

Lemma pool_inv_writer p gs g : pool_inv p gs → g ∈ gs → writer g = true → locked p = true.
Proof.
  intros Hi Hg Hw. destruct (locked p) eqn:E; [done|].
  pose proof (pool_inv_unlocked p gs g Hi E Hg). congruence.
Qed.

(** The turns a goroutine with the lock has left cover what is in the channel. *)
Lemma pool_inv_turns p gs i g :
  pool_inv p gs → gs !! i = Some g → writer g = true → closed p = true →
  chan p = [] ∨ ∃ n, turns g = Some n ∧ (length (chan p) ≤ n)%nat.
Proof.
  intros Hi Hg Hw Hc. destruct (inv_closed _ _ Hi Hc) as [|(h & n & Hh & Hhw & Hn & Hle)]; [by left|].
  right. apply list_elem_of_lookup in Hh as [j Hj].
  destruct (decide (i = j)) as [->|Hne]; [exists n; split; congruence|]. exfalso.
  pose proof (inv_lock _ _ Hi) as Hl.
  pose proof (sum_list_with_insert writing gs i g idle Hg) as S1.
  assert (Hj' : <[i := idle]> gs !! j = Some h) by by rewrite list_lookup_insert_ne.
  pose proof (sum_ge_elem writing _ h (list_elem_of_lookup_2 _ _ _ Hj')) as S2.
  unfold writing in S1 at 2 4. unfold writing in S2 at 1. rewrite Hw in S1. rewrite Hhw in S2. simpl in *.
  destruct (locked p); lia.
Qed.

Ltac one_outcome Hin := apply list_elem_of_singleton in Hin; simplify_eq.

Lemma recv_inv p b p' :
  (b, p') ∈ recv p →
  (∃ c l, chan p = c :: l ∧ b = Some c ∧ p' = upd_chan p l)
  ∨ (chan p = [] ∧ chan_closed p = true ∧ b = None ∧ p' = p).
Proof.
  unfold recv. destruct (chan p) as [|c l]; [destruct (chan_closed p)|]; intros Hin.
  - one_outcome Hin. by right.
  - inversion Hin.
  - one_outcome Hin. left. eauto.
Qed.

Lemma pool_step_select p gs i g c k b p' :
  gs !! i = Some g → owns (Act (Select c) k) g → pool_inv p gs → (b, p') ∈ handle _ (Select c) p →
  ∃ g', owns (k b) g' ∧ pool_inv p' (<[i := g']> gs).
Proof.
  intros Hi (Hh & Hw & Hs & Hn & He) HI Hin. simpl in Hin. apply elem_of_app in Hin as [Hin|Hin].
  - apply list_elem_of_fmap in Hin as ([b' p1] & [= -> ->] & Hin).
    apply recv_inv in Hin as [(cn & l & Hch & -> & ->)|(Hch & Hcl & -> & ->)]; simpl.
    + eexists. split; [apply Hs|]. eapply (pool_inv_take p gs i g cn l (turns g)); try done.
      intros; congruence.
    + exists g. split; [done|]. by rewrite list_insert_id.
  - destruct (ctx_err p); [destruct (cancellable c)|]; try (by inversion Hin).
    one_outcome Hin. exists g. split; [apply He|]. by rewrite list_insert_id.
Qed.

Lemma pool_step_put p gs i g c k b p' :
  gs !! i = Some g → owns (Act (PutBack c) k) g → pool_inv p gs → (b, p') ∈ handle _ (PutBack c) p →
  ∃ g', owns (k b) g' ∧ pool_inv p' (<[i := g']> gs).
Proof using HM.
  intros Hi (Hh & Ho) HI Hin. destruct b. eexists. split; [exact Ho|]. simpl in Hin.
  pose proof (inv_owes _ _ HI g (list_elem_of_lookup_2 _ _ _ Hi)) as How.
  pose proof (inv_active _ _ HI) as Hact. destruct (pool_active_bound p gs HI) as [Hb Hb'].
  pose proof (sum_ge_elem holding gs g (list_elem_of_lookup_2 _ _ _ Hi)) as Hge.
  unfold holding at 1 in Hge. rewrite Hh in Hge.
  destruct (locked p); [inversion Hin|]. destruct (closed p) eqn:Ecl; [|destruct (_ <? _) eqn:Elen];
    one_outcome Hin; (eapply (pool_inv_give p _ gs i g c (owes g)); try done).
  - by right.
  - simpl. rewrite i32_small by lia. lia.
  - by left.
  - unfold len in *. simpl in *. rewrite length_app. simpl. lia.
  - by right.
  - simpl. rewrite i32_small by lia. lia.
Qed.

Lemma pool_step_lock p gs i g k b p' :
  gs !! i = Some g → owns (Act Lock k) g → pool_inv p gs → (b, p') ∈ handle _ Lock p →
  ∃ g', owns (k b) g' ∧ pool_inv p' (<[i := g']> gs).
Proof.
  intros Hi (Hw & Ht & Ho) HI Hin. simpl in Hin. destruct (locked p) eqn:El; [inversion Hin|].
  one_outcome Hin. eexists. split; [apply Ho|].
  pose proof (inv_owes _ _ HI g (list_elem_of_lookup_2 _ _ _ Hi)) as How.
  unfold writing in How. rewrite Hw in How.
  eapply pool_inv_lock; try done; simpl; rewrite ?El, ?Hw; try lia.
  - apply (inv_chan_closed _ _ HI).
  - intros Hc. by rewrite Hc.
  - intros Hc. left. by eapply pool_inv_drained.
Qed.

Lemma pool_step_drain p gs i g k b p' :
  gs !! i = Some g → owns (Act Drain k) g → pool_inv p gs → (b, p') ∈ handle _ Drain p →
  ∃ g', owns (k b) g' ∧ pool_inv p' (<[i := g']> gs).
Proof.
  intros Hi (Hh & Hw & n & Hn & Hs & Hnone) HI Hin. simpl in Hin.
  assert (Hcl : closed p = true).
  { destruct (closed p) eqn:E; [done|]. pose proof (inv_open _ _ HI E g (list_elem_of_lookup_2 _ _ _ Hi)). congruence. }
  apply recv_inv in Hin as [(cn & l & Hch & -> & ->)|(Hch & _ & -> & ->)].
  - eexists. split; [apply Hs|]. rewrite <-Hw.
    eapply (pool_inv_take p gs i g cn l (Some (pred n))); try done; [congruence|].
    intros m Hm _. congruence.
  - eexists. split; [exact Hnone|]. rewrite <-Hh at 1.
    pose proof (pool_inv_writer p gs g HI (list_elem_of_lookup_2 _ _ _ Hi) Hw) as El.
    pose proof (inv_owes _ _ HI g (list_elem_of_lookup_2 _ _ _ Hi)) as How.
    unfold writing in How. rewrite Hw in How.
    eapply pool_inv_lock; try done; rewrite ?El, ?Hw; try lia.
    + apply (inv_chan_closed _ _ HI).
    + congruence.
    + by left.
Qed.

Lemma pool_step B (e : act B) k g p gs i b p' :
  gs !! i = Some g → owns (Act e k) g → pool_inv p gs → (b, p') ∈ handle B e p →
  ∃ g', owns (k b) g' ∧ pool_inv p' (<[i := g']> gs).
Proof using HM.
  intros Hi Ho HI Hin. pose proof (list_elem_of_lookup_2 _ _ _ Hi) as Hg.
  pose proof (inv_owes _ _ HI g Hg) as How. unfold writing in How.
  destruct e.
  all: try (simpl in Ho, Hin; one_outcome Hin; exists g; rewrite list_insert_id by done;
            split; [first [apply Ho|by destruct Ho]|by eapply pool_inv_frame]; fail).
  - simpl in Ho, Hin. destruct (locked p); [inversion Hin|]. one_outcome Hin.
    exists g. rewrite list_insert_id by done. by split; [apply Ho|].
  - by eapply pool_step_select.
  - by eapply pool_step_put.
  - by eapply pool_step_lock.
  - simpl in Ho, Hin. one_outcome Hin. destruct Ho as (Hw & Ht & Ho). eexists. split; [exact Ho|].
    rewrite Hw in How. eapply pool_inv_lock; try done; simpl; rewrite ?Hw; try lia.
    + destruct (closed p) eqn:Hcl; intros _.
      * destruct (pool_inv_turns p gs i g HI Hi Hw Hcl) as [|(n & Hn & _)]; [by left|congruence].
      * right. split; [done|]. exists M. split; [done|]. destruct (pool_active_bound p gs HI). lia.
  - by eapply pool_step_drain.
  - simpl in Ho, Hin. one_outcome Hin. destruct Ho as (Hh & Hw & Ho0 & Ho). eexists. split; [exact Ho|].
    eapply (pool_inv_give p _ gs i g c 1); try done; [unfold writing; by rewrite Hw|by right|].
    simpl. rewrite (inv_active _ _ HI), Ho0. lia.
  - simpl in Ho, Hin. one_outcome Hin. destruct Ho as (-> & Ho1 & Ho). eexists. split; [exact Ho|].
    destruct (pool_active_bound p gs HI) as [Hb Hb'].
    pose proof (sum_ge_elem owes gs g Hg). pose proof (inv_active _ _ HI). unfold len in *.
    eapply pool_inv_lock; try done; simpl; try lia.
    + apply (inv_chan_closed _ _ HI).
    + rewrite i32_small by lia. lia.
    + intros Hcl. split; [done|]. by eapply inv_open.
    + intros Hcl. destruct (writer g) eqn:Hw; [|lia].
      destruct (pool_inv_turns p gs i g HI Hi Hw Hcl) as [|(n & Hn & Hle)]; [by left|]. right. eauto.
  - simpl in Ho, Hin. one_outcome Hin. destruct Ho as (Hw & Ho0 & Ht & Ho).
    eexists. split; [exact Ho|].
    pose proof (pool_inv_writer p gs g HI Hg Hw) as El.
    eapply pool_inv_lock; try done; simpl; rewrite ?El, ?Hw; try lia.
    + apply (inv_chan_closed _ _ HI).
    + intros Hcl. left. destruct (pool_inv_turns p gs i g HI Hi Hw Hcl) as [|(n & Hn & Hle)]; [done|].
      rewrite Ht in Hn. injection Hn as <-. destruct (chan p); [done|simpl in Hle; lia].
Qed.

End ownership.

(** ** Goroutines that use a pool *)
Inductive op :=
| OSend (c : ctx) (n : net) (data : gostring)
| OSendBatch (c : ctx) (n : net) (dataList : list gostring)
| OClose.

Definition program (M : nat) (o : op) : prog act result :=
  match o with
  | OSend c n data => Send c n data
  | OSendBatch c n dataList => SendBatch c n dataList
  | OClose => Close M
  end.

(** A context ends at any time. *)
Definition ctx_ends (p p' : UDPConnPool) : Prop := ∃ e, p' = upd_ctx p (Some e).

Lemma owns_finish M c r : owns M (finish (Some c) r) (mkOwn (Some c) 0 false None).
Proof. by simpl. Qed.

Lemma owns_batch_loop M c n i l le sc (f : option error * Z → prog act result) g :
  held g = Some c → (∀ r, owns M (f r) g) → owns M (bind (SendBatch_loop c n i l le sc) f) g.
Proof.
  intros Hh Hf. revert i le sc. induction l as [|d l IH]; intros i le sc; simpl; [done|].
  destruct (len d =? 0); [apply IH|]. simpl. split; [done|].
  destruct (write n i).2; simpl; intros _; apply IH.
Qed.

Lemma owns_close_loop M f m :
  (m ≤ f)%nat → owns M (run@ Close_loop f; Ret (Returned None)) (mkOwn None 0 true (Some m)).
Proof.
  revert m. induction f as [|f IH]; intros m Hm; simpl.
  - replace m with 0%nat by lia. done.
  - split_and!; try done. exists m. split_and!; try done. intros c. split_and!; try done.
    apply IH. lia.
Qed.

Lemma owns_program M o : owns M (program M o) idle.
Proof.
  destruct o as [c n d|c n l|]; simpl.
  - intros []; simpl; [by intros _|]. split_and!; try done.
    intros cn. split; [done|]. destruct (set_deadline n); simpl; [by intros _|]. split; [done|].
    destruct (write n 0) as [w [e|]]; simpl; [by intros _|]. by destruct (negb _); intros _.
  - unfold SendBatch. destruct (len l =? 0); [done|]. simpl.
    intros []; simpl; [by intros _|]. split_and!; try done.
    intros cn. split; [done|]. destruct (set_deadline n); simpl; [by intros _|].
    apply owns_batch_loop; [done|]. intros [[e|] sc]; simpl; [|done]. by destruct (sc =? 0).
  - split_and!; try done. intros []; [done|]. split_and!; try done. by apply owns_close_loop.
Qed.

(** A pool NewPool returned: [M] open connections in the channel. *)
Definition fresh (p : UDPConnPool) (M : nat) : Prop :=
  chan p = seq 0 M ∧ closed_conns p = [] ∧ activeConns p = Z.of_nat M ∧ maxConns p = Z.of_nat M
  ∧ locked p = false ∧ closed p = false ∧ chan_closed p = false.

Lemma fresh_inv p M n : fresh p M → pool_inv M p (replicate n idle).
Proof.
  intros (H1 & H2 & H3 & H4 & H5 & H6 & H7).
  assert (Hz : ∀ f : own → nat, f idle = 0%nat → sum_list_with f (replicate n idle) = 0%nat).
  { intros f Hf. induction n; simpl; lia. }
  assert (Ho : omap held (replicate n idle) = []) by (clear; induction n; [done|]; by csimpl).
  split.
  - rewrite H1, H2, Ho. by rewrite app_nil_r.
  - rewrite H1, H3, !Hz by done. unfold len. rewrite length_seq. lia.
  - intros g [-> _]%elem_of_replicate. simpl. lia.
  - done.
  - by rewrite H5, Hz.
  - congruence.
  - congruence.
  - intros _ g [-> _]%elem_of_replicate. done.
Qed.

Lemma pool_runs p M os c :
  fresh p M → Z.of_nat M + 1 < 2 ^ 31 →
  gsteps handle ctx_ends (program M <$> os, p) c →
  ∃ gs, Forall2 (owns M) c.1 gs ∧ pool_inv M c.2 gs.
Proof.
  intros Hf HM Hr.
  eapply (pool_invariant handle ctx_ends (owns M) (pool_inv M)); [| |exact Hr|].
  - intros. by eapply pool_step.
  - intros s s' gs HI (e & ->). by eapply pool_inv_frame.
  - exists (replicate (length os) idle). split; [|by apply fresh_inv]. simpl.
    apply Forall2_fmap_l, Forall2_replicate_r; [done|]. apply Forall_true. intros o. apply owns_program.
Qed.

(** The goroutine is about to use connection [c]. *)
Definition about_to_use (q : prog act result) (c : conn) : Prop :=
  (∃ k, q = Act (Write c) k) ∨ ((∃ k, q = Act (SetWriteDeadline c) k) ∨ (∃ k, q = Act (PutBack c) k)).

Lemma about_to_use_held M q c g : owns M q g → about_to_use q c → held g = Some c.
Proof. intros Ho [(k & ->)|[(k & ->)|(k & ->)]]; simpl in Ho; tauto. Qed.

(** C10. However sends, batch sends, closes and context ends interleave on a pool
    of [M] connections: a goroutine only ever uses a connection that is neither
    closed nor in the pool, and no two goroutines use the same one; and when all
    operations have returned, every connection is in the pool or closed,
    activeConns counts those in the pool, and a closed pool has none left. *)
Theorem pool_connections_safe p M os ts p' :
  fresh p M → Z.of_nat M + 1 < 2 ^ 31 →
  gsteps handle ctx_ends (program M <$> os, p) (ts, p') →
  (∀ i q c, ts !! i = Some q → about_to_use q c →
     c ∉ closed_conns p' ∧ c ∉ chan p' ∧
     ∀ j q', ts !! j = Some q' → about_to_use q' c → j = i)
  ∧ (∀ rs, ts = Ret <$> rs →
       Permutation (chan p' ++ closed_conns p') (seq 0 M)
       ∧ activeConns p' = len (chan p')
       ∧ (closed p' = true → chan p' = [] ∧ activeConns p' = 0)).
Proof.
  intros Hf HM Hr. destruct (pool_runs p M os _ Hf HM Hr) as (gs & HP & HI). simpl in *. split.
  - intros i q c Hq Hu. destruct (Forall2_lookup_l _ _ _ _ _ HP Hq) as (g & Hg & Ho).
    pose proof (about_to_use_held _ _ _ _ Ho Hu) as Hh.
    assert (Hnd : NoDup (chan p' ++ omap held gs ++ closed_conns p')).
    { rewrite (inv_perm _ _ _ HI). apply NoDup_seq. }
    apply NoDup_app in Hnd as (_ & Hd1 & Hnd). apply NoDup_app in Hnd as (Hnd & Hd2 & _).
    assert (Hin : c ∈ omap held gs).
    { apply list_elem_of_omap. exists g. split; [by eapply list_elem_of_lookup_2|done]. }
    split_and!.
    + by apply Hd2.
    + intros Hc. apply (Hd1 c Hc). apply elem_of_app. by left.
    + intros j q' Hq' Hu'. destruct (Forall2_lookup_l _ _ _ _ _ HP Hq') as (g' & Hg' & Ho').
      pose proof (about_to_use_held _ _ _ _ Ho' Hu') as Hh'.
      by eapply omap_held_inj.
  - intros rs ->.
    assert (Hidle : Forall (λ g, g = idle) gs).
    { apply Forall_forall. intros g Hg. apply list_elem_of_lookup in Hg as [i Hi].
      destruct (Forall2_lookup_r _ _ _ _ _ HP Hi) as (q & Hq & Ho).
      rewrite list_lookup_fmap in Hq. destruct (rs !! i); simpl in Hq; simplify_eq. exact Ho. }
    assert (Hz : ∀ f : own → nat, f idle = 0%nat → sum_list_with f gs = 0%nat).
    { intros f Hf0. clear -Hidle Hf0. induction Hidle as [|g gs -> _ IH]; simpl; lia. }
    assert (Ho : omap held gs = []).
    { clear -Hidle. induction Hidle as [|g gs -> _ IH]; [done|]. by csimpl. }
    pose proof (inv_perm _ _ _ HI) as Hp. rewrite Ho in Hp. split; [done|].
    pose proof (inv_active _ _ _ HI) as Ha. rewrite !Hz in Ha by done. split; [lia|].
    intros Hc. assert (Hl : locked p' = false).
    { pose proof (inv_lock _ _ _ HI) as Hl. rewrite Hz in Hl by done. by destruct (locked p'). }
    pose proof (pool_inv_drained _ _ _ HI Hc Hl) as He. split; [done|]. rewrite He in Ha.
    unfold len in Ha. simpl in Ha. lia.
Qed.

(** ** Opening a pool *)
Section opening.
Context (ResolveUDPAddr : gostring → gostring → option error).
Context (dialUnixgram : nat → gostring → option error).
Context (DialUDP : nat → gostring → option error) (SetWriteBuffer : nat → option error).

(** A pool while it is being filled: [i] connections so far. *)
Definition filling (p : UDPConnPool) (i M : nat) : Prop :=
  chan p = seq 0 i ∧ closed_conns p = [] ∧ activeConns p = Z.of_nat i ∧ maxConns p = Z.of_nat M
  ∧ locked p = false ∧ closed p = false ∧ chan_closed p = false.

Lemma dial_loop_spec n i p M :
  (i + n)%nat = M → Z.of_nat M < 2 ^ 31 → filling p i M →
  match dial_loop dialUnixgram DialUDP SetWriteBuffer n i p with
  | inl p' => fresh p' M ∧ network p' = network p ∧ address p' = address p ∧ timeout p' = timeout p
  | inr (_, p') => chan p' = [] ∧ closed p' = true ∧ activeConns p' = 0
                   ∧ ∃ j, (j < M)%nat ∧ closed_conns p' = seq 0 j
  end.
Proof.
  revert i p. induction n as [|n IH]; intros i p Hi HM Hf.
  - simpl. replace i with M in Hf by lia. done.
  - simpl. destruct Hf as (H1 & H2 & H3 & H4 & H5 & H6 & H7).
    destruct (createConnection _ _ _ i p) as [[err|] p1] eqn:E.
    + assert (p1 = p) as ->.
      { unfold createConnection in E. repeat case_match; simplify_eq; done. }
      simpl. rewrite H1, H2, H3. unfold len. rewrite length_seq, i32_small by lia.
      split_and!; try done; [lia|]. exists i. split; [lia|done].
    + assert (Hp1 : p1 = upd_active p (i32 (activeConns p + 1))).
      { unfold createConnection in E. repeat case_match; simplify_eq; done. }
      specialize (IH (S i) (upd_chan p1 (chan p1 ++ [i])) ltac:(lia) HM).
      subst p1. apply IH. split_and!; try done.
      * rewrite seq_S. simpl. by rewrite H1.
      * simpl. rewrite H3, i32_small by lia. lia.
Qed.

(** NewPool accepts exactly the datagram networks.  When it succeeds the pool
    holds its connections (4 by default, write timeout 100ms by default), all of
    them open and counted; when opening one fails, every connection opened so far
    has been closed and none is left counted as active. *)
Theorem NewPool_spec net addr size tmo :
  size < 2 ^ 31 →
  match NewPool ResolveUDPAddr dialUnixgram DialUDP SetWriteBuffer net addr size tmo with
  | inl p => is_datagram net = true ∧ fresh p (Z.to_nat (if size <=? 0 then 4 else size))
             ∧ network p = net ∧ address p = addr
             ∧ timeout p = (if tmo <=? 0 then 100 * Millisecond else tmo)
  | inr (err, None) => errors_is ErrUnsupportedNetwork err = true ↔ is_datagram net = false
                       ∨ (∃ e, ResolveUDPAddr net addr = Some e ∧ errors_is ErrUnsupportedNetwork e = true)
  | inr (err, Some p) => is_datagram net = true ∧ chan p = [] ∧ closed p = true ∧ activeConns p = 0
             ∧ ∃ j, Z.of_nat j < (if size <=? 0 then 4 else size) ∧ closed_conns p = seq 0 j
  end.
Proof.
  intros Hs. unfold NewPool. destruct (is_datagram net) eqn:Hd; cbn [negb].
  2: { simpl. split; [by left|done]. }
  set (n := Z.to_nat (if size <=? 0 then 4 else size)).
  assert (Hn : Z.of_nat n < 2 ^ 31 ∧ Z.of_nat n = if size <=? 0 then 4 else size).
  { subst n. destruct (Z.leb_spec size 0); lia. }
  destruct (if gostring_eqb net networkUnixgram then None else ResolveUDPAddr net addr) as [e|] eqn:Er.
  { destruct (gostring_eqb net networkUnixgram); [done|]. simpl. split.
    - intros He. right. eauto.
    - intros [?|(e' & He' & H)]; [done|congruence]. }
  pose proof (dial_loop_spec n 0 (mkPool net addr (if tmo <=? 0 then defaultWriteTimeout else tmo)
    (if size <=? 0 then 4 else size) [] false false false 0 0 0 [] None) n eq_refl (proj1 Hn)) as H.
  destruct (dial_loop _ _ _ n 0 _) as [p|[err p]].
  - destruct H as (H1 & H2 & H3 & H4); [|done]. split_and!; simpl; try done; lia.
  - split; [done|]. destruct H as (H1 & H2 & H3 & j & Hj & H4); [split_and!; simpl; try done; lia|].
    split_and!; try done. exists j. split; [lia|done].
Qed.

End opening.

(** A pool of two connections, and one that fails to open its third. *)
Definition two : UDPConnPool :=
  mkPool (str "udp") (str "127.0.0.1:8125") defaultWriteTimeout 2 [0; 1]%nat false false false 2 0 0 [] None.

Lemma NewPool_spec_witness :
  NewPool (λ _ _, None) (λ _ _, None) (λ _ _, None) (λ _, None) (str "udp") (str "127.0.0.1:8125") 2 0
    = inl two
  ∧ match NewPool (λ _ _, None) (λ _ _, None) (λ i _, if (i =? 2)%nat then Some (ErrExt 9) else None)
          (λ _, None) (str "udp4") (str "x") 0 5 with
    | inr (err, Some p) => is_datagram (str "udp4") = true ∧ closed_conns p = [0; 1]%nat
    | _ => False
    end.
Proof.
  split; [vm_compute; reflexivity|].
  pose proof (NewPool_spec (λ _ _, None) (λ _ _, None) (λ i _, if (i =? 2)%nat then Some (ErrExt 9) else None)
    (λ _, None) (str "udp4") (str "x") 0 5 ltac:(lia)) as H.
  vm_compute in H. destruct H as [H _]. split; [exact H|]. vm_compute. reflexivity.
Defined.

(** A send overlapping a close: the send has the first connection, the close takes
    the second; the send finds the pool closed and closes its connection itself. *)
Lemma pool_connections_safe_witness :
  ∃ p', gsteps handle ctx_ends
          (program 2 <$> [OSend (mkCtx None false) (mkNet None (λ _, (3, None))) (str "abc"); OClose], two)
          (Ret <$> [Returned None; Returned None], p')
    ∧ activeConns p' = 0 ∧ closed_conns p' = [1; 0]%nat.
Proof.
  eexists. match goal with |- ?G ∧ _ => assert (H : G) end.
  { apply (sched_gsteps _ _ [0; 0; 1; 1; 0; 0; 1; 1; 1; 1; 1; 0; 0]%nat). vm_compute. reflexivity. }
  split; [exact H|].
  destruct (pool_connections_safe two 2 _ _ _ ltac:(vm_compute; repeat split) ltac:(lia) H) as [_ Hr].
  destruct (Hr _ eq_refl) as (_ & _ & Hc). split; [apply Hc; reflexivity|vm_compute; reflexivity].
Defined.

(** ** A Get that waits while the pool is closed *)

(** Wherever a goroutine waits in [Get], a nil connection makes it panic. *)
Fixpoint nil_panics (p : prog act result) : Prop :=
  match p with
  | Ret _ => True
  | Act e k =>
      match e in act B return (B → prog act result) → Prop with
      | Select _ => λ k, k (inl None) = Ret Panicked
      | _ => λ _, True
      end k ∧ ∀ b, nil_panics (k b)
  end.

Lemma nil_panics_batch_loop c n i l le sc (f : option error * Z → prog act result) :
  (∀ r, nil_panics (f r)) → nil_panics (bind (SendBatch_loop c n i l le sc) f).
Proof.
  intros Hf. revert i le sc. induction l as [|d l IH]; intros i le sc; simpl; [done|].
  destruct (len d =? 0); [apply IH|]. simpl. split; [done|]. intros _.
  destruct (write n i).2; simpl; (split; [done|]); intros _; apply IH.
Qed.

Lemma nil_panics_close_loop f : nil_panics (run@ Close_loop f; Ret (Returned None)).
Proof. induction f as [|f IH]; simpl; [done|]. split; [done|]. intros [c|]; simpl; auto. Qed.

Lemma nil_panics_program M o : nil_panics (program M o).
Proof.
  destruct o as [c n d|c n l|]; simpl.
  - split; [done|]. intros []; simpl; [done|]. split; [done|]. intros [[cn|]|err]; simpl; try done.
    split; [done|]. intros _. destruct (set_deadline n); simpl; [done|]. split; [done|]. intros _.
    destruct (write n 0) as [w [e|]]; simpl; [done|]. by destruct (negb _).
  - unfold SendBatch. destruct (len l =? 0); [done|]. simpl.
    split; [done|]. intros []; simpl; [done|]. split; [done|]. intros [[cn|]|err]; simpl; try done.
    split; [done|]. intros _. destruct (set_deadline n); simpl; [done|].
    apply nil_panics_batch_loop. intros [[e|] sc]; simpl; [|done]. by destruct (sc =? 0).
  - split; [done|]. intros []; simpl; [done|]. split; [done|]. intros _. apply nil_panics_close_loop.
Qed.

Lemma nil_panics_runs M os p ts p' i q :
  gsteps handle ctx_ends (program M <$> os, p) (ts, p') → ts !! i = Some q → nil_panics q.
Proof.
  intros Hr Hq.
  destruct (pool_invariant handle ctx_ends (λ q (_ : unit), nil_panics q) (λ _ _, True)
    ltac:(intros B e k [] s gs j b s' _ [_ Hk] _ _; exists tt; by split) ltac:(done) _ _ Hr) as (gs & HP & _).
  { exists (replicate (length os) tt). split; [|done]. simpl.
    apply Forall2_fmap_l, Forall2_replicate_r; [done|]. apply Forall_true. intros o. apply nil_panics_program. }
  by destruct (Forall2_lookup_l _ _ _ _ _ HP Hq) as ([] & _ & H).
Qed.

(** One step of the goroutine at [i]. *)
Lemma run_one {B} (e : act B) (k : B → prog act result) ts p i b p' c :
  ts !! i = Some (Act e k) → (b, p') ∈ handle B e p →
  gsteps handle ctx_ends (<[i := k b]> ts, p') c → gsteps handle ctx_ends (ts, p) c.
Proof.
  intros Hi Hin Hr. eapply rtc_l; [|exact Hr]. eapply gstep_thread; [exact Hi|].
  simpl. apply list_elem_of_fmap. by exists (b, p').
Qed.

Lemma close_drains f q p :
  chan_closed p = true → (length (chan p) ≤ f)%nat →
  ∃ p', gsteps handle ctx_ends ([q; run@ Close_loop f; Ret (Returned None)], p) ([q; Ret (Returned None)], p')
    ∧ chan p' = [] ∧ chan_closed p' = true.
Proof.
  revert p. induction f as [|f IH]; intros p Hc Hl.
  - exists (upd_locked p false). split; [|split; [simpl; destruct (chan p); [done|simpl in Hl; lia]|done]].
    by eapply (run_one Unlock _ _ _ 1); [reflexivity|apply list_elem_of_singleton; reflexivity|].
  - destruct (chan p) as [|c l] eqn:E.
    + exists (upd_locked p false). split; [|done].
      eapply (run_one Drain _ _ _ 1 None p); [reflexivity|unfold handle, recv; rewrite E, Hc; by apply list_elem_of_singleton|].
      by eapply (run_one Unlock _ _ _ 1); [reflexivity|apply list_elem_of_singleton; reflexivity|].
    + destruct (IH (upd_active (upd_closed_conns (upd_chan p l) c) (i32 (activeConns p + -1)))) as (p' & Hr & H);
        [done|simpl in *; lia|].
      exists p'. split; [|done].
      eapply (run_one Drain _ _ _ 1 (Some c)); [reflexivity|unfold handle, recv; rewrite E; by apply list_elem_of_singleton|].
      eapply (run_one (CloseConn c) _ _ _ 1); [reflexivity|apply list_elem_of_singleton; reflexivity|].
      eapply (run_one (AddActive (-1)) _ _ _ 1); [reflexivity|apply list_elem_of_singleton; reflexivity|].
      exact Hr.
Qed.

(** C13. [Get] checks the closed flag, releases the lock and only then waits on the
    channel.  So on every pool NewPool returns, a Send can panic when Close runs
    at the same time, whatever its context, its data and the network.  And
    whatever calls are running: once the pool is closed and Close has released
    the lock, a goroutine that still waits in Get has only two ways on, the end
    of its context or the nil connection of the closed channel, and the latter,
    which is open to it at once, makes its Send or SendBatch panic. *)
Theorem send_during_close_panics p M :
  fresh p M → Z.of_nat M + 1 < 2 ^ 31 →
  (∀ c n data, ∃ p', gsteps handle ctx_ends (program M <$> [OSend c n data; OClose], p)
                       (Ret <$> [Panicked; Returned None], p'))
  ∧ ∀ os ts p' i c k,
      gsteps handle ctx_ends (program M <$> os, p) (ts, p') → closed p' = true → locked p' = false →
      ts !! i = Some (Act (Select c) k) →
      k (inl None) = Ret Panicked
      ∧ ∀ r p'', (r, p'') ∈ handle _ (Select c) p' ↔
          p'' = p' ∧ (r = inl None ∨ cancellable c = true ∧ ∃ err, ctx_err p' = Some err ∧ r = inr err).
Proof.
  intros Hf HM. split.
  - intros c n data. destruct Hf as (H1 & H2 & H3 & H4 & H5 & H6 & H7).
    assert (Hs : ∃ k k', Send c n data = Act ReadClosed k ∧ k false = Act (Select c) k' ∧ k' (inl None) = Ret Panicked)
      by (eexists _, _; split_and!; reflexivity).
    destruct Hs as (k & k' & Hs & Hk & Hk').
    destruct (close_drains M (k false) (upd_closed (upd_locked p true))) as (p' & Hr & Hc & Hcc);
      [done|simpl; by rewrite H1, length_seq|].
    exists p'. cbn [fmap list_fmap program]. rewrite Hs.
    eapply (run_one ReadClosed _ _ _ 0 false p); [reflexivity|unfold handle; rewrite H5, H6; by apply list_elem_of_singleton|].
    eapply (run_one Lock _ _ _ 1 false); [reflexivity|unfold handle; rewrite H5, H6; by apply list_elem_of_singleton|].
    eapply (run_one CloseChan _ _ _ 1); [reflexivity|apply list_elem_of_singleton; reflexivity|].
    etrans; [exact Hr|].
    eapply (run_one (Select c) k' _ _ 0 (inl None) p'); [by rewrite Hk| |simpl; by rewrite Hk'].
    unfold handle, recv. rewrite Hc, Hcc. by left.
  - intros os ts p' i c k Hr Hc Hl Hi. pose proof (nil_panics_runs _ _ _ _ _ _ _ Hr Hi) as [Hn _]. split; [exact Hn|].
    destruct (pool_runs p M os _ Hf HM Hr) as (gs & _ & HI). simpl in HI.
    pose proof (pool_inv_drained _ _ _ HI Hc Hl) as He. pose proof (inv_chan_closed _ _ _ HI) as Hcc.
    intros r p''. unfold handle, recv. rewrite He, Hcc, Hc. simpl. rewrite elem_of_cons.
    destruct (ctx_err p') as [err|], (cancellable c); rewrite ?list_elem_of_singleton; set_solver.
Qed.

(** The Send of a pool of two meets a Close; and with the pool closed another Send,
    past its check of the flag, is left with the nil connection. *)
Lemma send_during_close_panics_witness :
  let send := OSend (mkCtx None false) (mkNet None (λ _, (3, None))) (str "abc") in
  ∃ ts p' k, gsteps handle ctx_ends (program 2 <$> [OClose; send], two) (ts, p')
    ∧ ts !! 1%nat = Some (Act (Select (mkCtx None false)) k) ∧ k (inl None) = Ret Panicked
    ∧ ∀ r p'', (r, p'') ∈ handle _ (Select (mkCtx None false)) p' → r = inl None.
Proof.
  intros send.
  assert (H : ∃ k p', gsteps handle ctx_ends (program 2 <$> [OClose; send], two)
      ([Ret (Returned None); Act (Select (mkCtx None false)) k], p') ∧ closed p' = true ∧ locked p' = false).
  { eexists _, _. split; [|split].
    - apply (sched_gsteps _ _ [1; 0; 0; 0; 0; 0; 0; 0; 0; 0]%nat). vm_compute. reflexivity.
    - reflexivity.
    - reflexivity. }
  destruct H as (k & p' & Hr & Hc & Hl). exists [Ret (Returned None); Act (Select (mkCtx None false)) k], p', k.
  destruct (send_during_close_panics two 2 ltac:(vm_compute; repeat split) ltac:(lia)) as [_ H].
  destruct (H _ _ _ 1%nat _ _ Hr Hc Hl eq_refl) as [Hk Hh].
  split_and!; [exact Hr|reflexivity|exact Hk|].
  intros r p'' Hin. apply Hh in Hin as [_ [->|[? _]]]; [reflexivity|discriminate].
Defined.

End Udp.
