(* ===== verification/Attribute.v ===== *)
(** * The attribute package the library is written against

    go.opentelemetry.io/otel/attribute is not part of the repository: [Attributes]
    states, as a class, the documented behaviour of the few functions the
    library calls.  [toy_attributes] is an instance (its set is an insertion
    sort), so that every theorem proved against the class applies to concrete
    attributes. *)

From S2P Require Import Prelude GoLib.
From Stdlib Require Export Sorted.

(** ** The byte order of strings *)
Fixpoint gs_ltb (a b : gostring) : bool :=
  match a, b with
  | _, [] => false
  | [], _ :: _ => true
  | x :: a', y :: b' =>
      if code x <? code y then true else if code y <? code x then false else gs_ltb a' b'
  end.

Definition gs_lt (a b : gostring) : Prop := gs_ltb a b = true.

#[global] Instance gs_lt_dec a b : Decision (gs_lt a b).
Proof. unfold gs_lt. apply _. Defined.

Lemma gs_lt_irrefl a : ¬ gs_lt a a.
Proof.
  unfold gs_lt. induction a as [|x a IH]; simpl; [done|]. by rewrite Z.ltb_irrefl.
Qed.

Lemma gs_lt_trans : Transitive gs_lt.
Proof.
  unfold gs_lt. intros a b c. revert a c. induction b as [|y b IH]; intros [|x a] [|z c]; simpl; try done.
  intros Hxy Hyz. zbool; try done; try lia. eauto.
Qed.

Lemma gs_lt_total a b : gs_lt a b ∨ a = b ∨ gs_lt b a.
Proof.
  unfold gs_lt. revert b. induction a as [|x a IH]; intros [|y b]; simpl; auto.
  zbool; auto; try lia. assert (x = y) as -> by (apply code_inj; lia).
  destruct (IH b) as [|[->|]]; auto.
Qed.

(** ** The class *)
Class Attributes := {
  value : Type;
  Distinct : Type;
  is_string : value → bool;               (* v.Type() == attribute.STRING *)
  as_string : value → gostring;           (* v.AsString() *)
  string_value : gostring → value;        (* attribute.StringValue *)
  emit : value → gostring;                (* v.Emit() *)
  NewSet : list (gostring * value) → list (gostring * value);  (* NewSet(kvs...).ToSlice() *)
  Equivalent : list (gostring * value) → Distinct;             (* of a set's slice *)
  value_eq_dec :: EqDecision value;
  Distinct_eq_dec :: EqDecision Distinct;
  Distinct_countable :: Countable Distinct }.

Notation KeyValue := (gostring * value)%type.

(** The last value a list of attributes gives to a key. *)
Fixpoint last_value `{Attributes} (k : gostring) (kvs : list KeyValue) : option value :=
  match kvs with
  | [] => None
  | (k', v) :: rest =>
      match last_value k rest with
      | Some w => Some w
      | None => if decide (k' = k) then Some v else None
      end
  end.

(** What the documentation promises: a string value has the string type and
    carries the string, which is also what it emits; a set is sorted by key and
    has, for every key, the last of its values. *)
Class AttributesLaws `{Attributes} : Prop := {
  is_string_value : ∀ s, is_string (string_value s) = true;
  as_string_value : ∀ s, as_string (string_value s) = s;
  emit_string_value : ∀ s, emit (string_value s) = s;
  NewSet_sorted : ∀ kvs, StronglySorted gs_lt (NewSet kvs).*1;
  NewSet_last : ∀ kvs k v, (k, v) ∈ NewSet kvs ↔ last_value k kvs = Some v }.

(** attribute.String(k, v) *)
Definition String_kv `{Attributes} (k v : gostring) : KeyValue := (k, string_value v).

Lemma subseteq_take {A} n (l : list A) : take n l ⊆ l.
Proof. intros x Hx. apply elem_of_take in Hx as (i & Hi & _). by eapply list_elem_of_lookup_2. Qed.

Section laws.
#[local] Set Default Proof Using "Type*".
Context `{AttributesLaws}.

Lemma last_value_in k kvs v : last_value k kvs = Some v → (k, v) ∈ kvs.
Proof.
  induction kvs as [|[k' v'] rest IH]; simpl; [done|]. rewrite elem_of_cons.
  destruct (last_value k rest); [auto|]. case_decide; naive_solver.
Qed.

Lemma last_value_none k kvs : last_value k kvs = None ↔ k ∉ kvs.*1.
Proof.
  induction kvs as [|[k' v'] rest IH]; csimpl.
  - split; [|done]. intros _ Hin. inversion Hin.
  - rewrite not_elem_of_cons, <-IH. destruct (last_value k rest); [naive_solver|].
    case_decide; naive_solver.
Qed.

Lemma NewSet_keys kvs k : k ∈ (NewSet kvs).*1 ↔ k ∈ kvs.*1.
Proof.
  rewrite !list_elem_of_fmap. split.
  - intros ([k' v] & -> & Hin). apply NewSet_last, last_value_in in Hin. eauto.
  - intros ([k' v] & -> & Hin). destruct (last_value k' kvs) as [w|] eqn:E.
    + apply NewSet_last in E. by exists (k', w).
    + apply last_value_none in E. exfalso. apply E. apply list_elem_of_fmap. by exists (k', v).
Qed.

Lemma sorted_lt_NoDup (ks : list gostring) : StronglySorted gs_lt ks → NoDup ks.
Proof.
  induction 1 as [|k ks _ IH Hf]; constructor; [|done].
  intros Hin. rewrite Forall_forall in Hf. by apply (gs_lt_irrefl k), Hf.
Qed.

Lemma NewSet_NoDup kvs : NoDup (NewSet kvs).*1.
Proof. apply sorted_lt_NoDup, NewSet_sorted. Qed.

Lemma last_value_nodup kvs k v : NoDup kvs.*1 → (k, v) ∈ kvs → last_value k kvs = Some v.
Proof.
  induction kvs as [|[k' v'] rest IH]; csimpl; [intros _ Hin; inversion Hin|].
  intros [Hn Hnd]%NoDup_cons Hin. apply elem_of_cons in Hin as [[= -> ->]|Hin].
  - apply last_value_none in Hn. by rewrite Hn, decide_True.
  - by rewrite (IH Hnd Hin).
Qed.

Lemma sorted_keys_eq (l1 l2 : list gostring) :
  StronglySorted gs_lt l1 → StronglySorted gs_lt l2 → (∀ k, k ∈ l1 ↔ k ∈ l2) → l1 = l2.
Proof.
  revert l2. induction l1 as [|k l1 IH]; intros [|k2 l2] S1 S2 Heq.
  - done.
  - exfalso. assert (Hin : k2 ∈ []) by (apply Heq; constructor). inversion Hin.
  - exfalso. assert (Hin : k ∈ []) by (apply Heq; constructor). inversion Hin.
  - apply StronglySorted_inv in S1 as [S1 F1]. apply StronglySorted_inv in S2 as [S2 F2].
    rewrite Forall_forall in F1, F2.
    assert (Hhd : k = k2).
    { assert (H1 : k ∈ k2 :: l2) by (apply Heq; constructor).
      assert (H2 : k2 ∈ k :: l1) by (apply Heq; constructor).
      apply elem_of_cons in H1 as [|H1]; [done|]. apply elem_of_cons in H2 as [|H2]; [done|].
      exfalso. apply (gs_lt_irrefl k). eapply gs_lt_trans; [by apply F1|by apply F2]. }
    subst k2. f_equal. apply IH; try done. intros x. split; intros Hin.
    + assert (Hin' : x ∈ k :: l2) by (apply Heq; by apply list_elem_of_further).
      apply elem_of_cons in Hin' as [->|]; [|done]. exfalso. by apply (gs_lt_irrefl k), F1.
    + assert (Hin' : x ∈ k :: l1) by (apply Heq; by apply list_elem_of_further).
      apply elem_of_cons in Hin' as [->|]; [|done]. exfalso. by apply (gs_lt_irrefl k), F2.
Qed.

(** Two sorted lists of pairs with the same members are equal. *)
Lemma sorted_pairs_eq (l1 l2 : list KeyValue) :
  StronglySorted gs_lt l1.*1 → StronglySorted gs_lt l2.*1 →
  (∀ kv, kv ∈ l1 ↔ kv ∈ l2) → l1 = l2.
Proof.
  revert l2. induction l1 as [|[k v] l1 IH]; intros [|[k2 v2] l2] S1 S2 Heq; csimpl in *.
  - done.
  - exfalso. assert (Hin : (k2, v2) ∈ []) by (apply Heq; constructor). inversion Hin.
  - exfalso. assert (Hin : (k, v) ∈ []) by (apply Heq; constructor). inversion Hin.
  - apply StronglySorted_inv in S1 as [S1 F1]. apply StronglySorted_inv in S2 as [S2 F2].
    rewrite Forall_forall in F1, F2.
    assert (Hhd : (k, v) = (k2, v2)).
    { assert (H1 : (k, v) ∈ (k2, v2) :: l2) by (apply Heq; constructor).
      assert (H2 : (k2, v2) ∈ (k, v) :: l1) by (apply Heq; constructor).
      apply elem_of_cons in H1 as [|H1]; [done|]. apply elem_of_cons in H2 as [|H2]; [done|].
      exfalso. apply (gs_lt_irrefl k). eapply gs_lt_trans; [apply F1|apply F2];
        apply list_elem_of_fmap; eexists; (split; [|done]); done. }
    injection Hhd as -> ->. f_equal. apply IH; try done. intros kv. split; intros Hin.
    + assert (Hin' : kv ∈ (k2, v2) :: l2) by (apply Heq; by apply list_elem_of_further).
      apply elem_of_cons in Hin' as [->|]; [|done]. exfalso. apply (gs_lt_irrefl k2), F1.
      apply list_elem_of_fmap. by exists (k2, v2).
    + assert (Hin' : kv ∈ (k2, v2) :: l1) by (apply Heq; by apply list_elem_of_further).
      apply elem_of_cons in Hin' as [->|]; [|done]. exfalso. apply (gs_lt_irrefl k2), F2.
      apply list_elem_of_fmap. by exists (k2, v2).
Qed.

(** A set is determined by the last values; sorting a sorted list changes nothing. *)
Lemma NewSet_ext kvs1 kvs2 :
  (∀ k, last_value k kvs1 = last_value k kvs2) → NewSet kvs1 = NewSet kvs2.
Proof.
  intros Heq. apply sorted_pairs_eq; try apply NewSet_sorted.
  intros [k v]. by rewrite !NewSet_last, Heq.
Qed.

Lemma NewSet_fixed kvs : StronglySorted gs_lt kvs.*1 → NewSet kvs = kvs.
Proof.
  intros Hs. apply sorted_pairs_eq; [apply NewSet_sorted|done|]. intros [k v]. rewrite NewSet_last. split.
  - apply last_value_in.
  - apply last_value_nodup. by apply sorted_lt_NoDup.
Qed.

Lemma take_sorted n (ks : list gostring) : StronglySorted gs_lt ks → StronglySorted gs_lt (take n ks).
Proof.
  intros Hs. revert n. induction Hs as [|k ks _ IH Hf]; intros [|n]; simpl; constructor; auto.
  rewrite Forall_forall in *. intros x Hx. apply Hf. eapply elem_of_take in Hx as (i & Hi & _).
  by eapply list_elem_of_lookup_2.
Qed.

End laws.

(** ** An instance *)
Inductive toy_value := VString (s : gostring) | VInt (n : Z) | VBool (b : bool).

#[global] Instance toy_value_eq_dec : EqDecision toy_value.
Proof. solve_decision. Defined.

#[global] Instance toy_value_countable : Countable toy_value.
Proof.
  apply (inj_countable' (λ v, match v with VString s => inl (inl s) | VInt n => inl (inr n) | VBool b => inr b end)
    (λ x, match x with inl (inl s) => VString s | inl (inr n) => VInt n | inr b => VBool b end)).
  by intros [].
Defined.

Fixpoint toy_insert (k : gostring) (v : toy_value) (l : list (gostring * toy_value)) :=
  match l with
  | [] => [(k, v)]
  | (k', v') :: l' =>
      if gs_ltb k k' then (k, v) :: l
      else if gs_ltb k' k then (k', v') :: toy_insert k v l'
      else l
  end.

Definition toy_NewSet (kvs : list (gostring * toy_value)) : list (gostring * toy_value) :=
  foldr (λ kv acc, toy_insert kv.1 kv.2 acc) [] kvs.

#[global] Instance toy_attributes : Attributes := {|
  value := toy_value;
  Distinct := list (gostring * toy_value);
  is_string v := match v with VString _ => true | _ => false end;
  as_string v := match v with VString s => s | _ => [] end;
  string_value := VString;
  emit v := match v with VString s => s | VInt _ => str "1" | VBool b => if b then str "true" else str "false" end;
  NewSet := toy_NewSet;
  Equivalent s := s |}.

Lemma toy_insert_keys k v l x : x ∈ (toy_insert k v l).*1 ↔ x = k ∨ x ∈ l.*1.
Proof.
  induction l as [|[k' v'] l IH]; csimpl; [set_solver|].
  destruct (gs_ltb k k') eqn:E1; [csimpl; set_solver|].
  destruct (gs_ltb k' k) eqn:E2; csimpl; [rewrite elem_of_cons, IH; set_solver|].
  destruct (gs_lt_total k k') as [H|[->|H]]; unfold gs_lt in *; [congruence|set_solver|congruence].
Qed.

Lemma toy_insert_sorted k v l : StronglySorted gs_lt l.*1 → StronglySorted gs_lt (toy_insert k v l).*1.
Proof.
  induction l as [|[k' v'] l IH]; csimpl; intros Hs; [repeat constructor|].
  pose proof (StronglySorted_inv Hs) as [Hs' Hf]. rewrite Forall_forall in Hf.
  destruct (gs_ltb k k') eqn:E1.
  - csimpl. constructor; [done|]. constructor; [done|]. apply Forall_forall. intros x Hx.
    eapply gs_lt_trans; [exact E1|]. by apply Hf.
  - destruct (gs_ltb k' k) eqn:E2; [|done]. csimpl. constructor; [auto|].
    apply Forall_forall. intros x [->|Hx]%toy_insert_keys; [done|]. by apply Hf.
Qed.

Lemma toy_NewSet_sorted kvs : StronglySorted gs_lt (toy_NewSet kvs).*1.
Proof. induction kvs as [|[k v] kvs IH]; simpl; [constructor|by apply toy_insert_sorted]. Qed.

Lemma toy_insert_elem k v l kv :
  StronglySorted gs_lt l.*1 →
  kv ∈ toy_insert k v l ↔ kv ∈ l ∨ (kv = (k, v) ∧ k ∉ l.*1).
Proof.
  induction l as [|[k' v'] l IH]; csimpl; intros Hs; [set_solver|].
  pose proof (StronglySorted_inv Hs) as [Hs' Hf]. rewrite Forall_forall in Hf.
  destruct (gs_ltb k k') eqn:E1.
  - rewrite !elem_of_cons. assert (k ∉ k' :: l.*1); [|set_solver].
    intros [->|Hin]%elem_of_cons; [by apply (gs_lt_irrefl k')|].
    apply (gs_lt_irrefl k). eapply gs_lt_trans; [exact E1|]. by apply Hf.
  - destruct (gs_ltb k' k) eqn:E2.
    + rewrite elem_of_cons, (IH Hs'), elem_of_cons, not_elem_of_cons.
      assert (k ≠ k') by (intros ->; by apply (gs_lt_irrefl k')). naive_solver.
    + destruct (gs_lt_total k k') as [H|[->|H]]; unfold gs_lt in *; [congruence| |congruence].
      set_solver.
Qed.

#[global] Instance toy_laws : @AttributesLaws toy_attributes.
Proof.
  split; try done.
  - apply toy_NewSet_sorted.
  - intros kvs k v. simpl. revert k v. induction kvs as [|[k' v'] kvs IH]; intros k v; simpl.
    + split; [intros Hin; inversion Hin|done].
    + rewrite toy_insert_elem by apply toy_NewSet_sorted. rewrite IH.
      assert (Hk : k' ∉ (toy_NewSet kvs).*1 ↔ @last_value toy_attributes k' kvs = None).
      { destruct (last_value k' kvs) as [w|] eqn:E.
        - apply IH in E. split; [|done]. intros Hn. exfalso. apply Hn, list_elem_of_fmap. by exists (k', w).
        - split; [done|]. intros _ Hin. apply list_elem_of_fmap in Hin as ([? w] & -> & Hin).
          apply IH in Hin. simpl in *. congruence. }
      rewrite Hk. destruct (last_value k kvs) as [w|] eqn:E.
      * split; [|auto]. intros [|[[= -> ->] ?]]; congruence.
      * case_decide as Hd; [subst|]; naive_solver.
Qed.
