(* ===== verification/Metric.v ===== *)
(** * Metrics (models/metric.go, metric.go, exemplar.go)

    The observation record, its size estimate, the pool's reset, and the
    functional options that configure an observation. *)

From S2P Require Import Prelude GoLib Attribute.

Inductive MetricType := MetricTypeCounter | MetricTypeGauge | MetricTypeHistogram | MetricTypeOther (n : Z).

#[global] Instance MetricType_eq_dec : EqDecision MetricType.
Proof. solve_decision. Defined.

Definition MetricType_String (m : MetricType) : gostring :=
  match m with
  | MetricTypeCounter => str "counter"
  | MetricTypeGauge => str "gauge"
  | MetricTypeHistogram => str "histogram"
  | MetricTypeOther _ => str "unknown"
  end.

Section metric.
Context `{Attributes}.

(** [TraceID] and [SpanID] are arrays of 16 and 8 bytes, read as numbers; the
    zero array is the invalid one. *)
Record Metric := mkMetric {
  Name : gostring; Type_ : MetricType; Value : float64; Attributes_ : list KeyValue;
  Timestamp : Z; Priority : Z; TraceID : Z; SpanID : Z;
  Description : gostring; Unit : gostring }.

Definition HasExemplar (m : Metric) : bool := negb (TraceID m =? 0) && negb (SpanID m =? 0).

(** EstimateSize, with the additions of the source at int64. *)
Fixpoint EstimateSize_attrs (attrs : list KeyValue) (size : Z) : Z :=
  match attrs with
  | [] => size
  | (k, v) :: rest => EstimateSize_attrs rest (i64 (i64 (size + len k) + len (emit v)))
  end.

Definition EstimateSize (m : Metric) : Z :=
  let size := i64 (len (Name m) + len (Description m) + len (Unit m)) in
  let size := i64 (size + 8) in
  let size := i64 (size + 8) in
  let size := i64 (size + 4) in
  let size := i64 (size + 4) in
  let size := if HasExemplar m then i64 (size + (16 + 8)) else size in
  EstimateSize_attrs (Attributes_ m) size.

(** Reset, and what AcquireMetric hands out: a metric of the pool after Reset. *)
Definition Reset (m : Metric) : Metric :=
  mkMetric [] MetricTypeCounter f_zero [] 0 1 0 0 [] [].

Definition new_pooled : Metric := mkMetric [] MetricTypeCounter f_zero [] 0 1 0 0 [] [].

Definition AcquireMetric (pooled : option Metric) : Metric :=
  Reset (match pooled with Some m => m | None => new_pooled end).

(** Clone of a possibly nil metric. *)
Definition Clone (m : option Metric) : option Metric :=
  match m with
  | None => None
  | Some m => Some (mkMetric (Name m) (Type_ m) (Value m) (Attributes_ m) (Timestamp m) (Priority m)
                      (TraceID m) (SpanID m) (Description m) (Unit m))
  end.

(** ** Options (metric.go) *)
Definition MetricOption := Metric → Metric.

Definition with_attrs (a : list KeyValue) (m : Metric) : Metric :=
  mkMetric (Name m) (Type_ m) (Value m) a (Timestamp m) (Priority m) (TraceID m) (SpanID m)
    (Description m) (Unit m).

Definition WithAttribute (key val : gostring) : MetricOption :=
  λ m, with_attrs (Attributes_ m ++ [String_kv key val]) m.

Definition withKeyValues (attrs : list KeyValue) : MetricOption :=
  λ m, with_attrs (Attributes_ m ++ attrs) m.

(** The entries of a Go map arrive in an arbitrary order: [attrs] is that order. *)
Definition WithAttributes (attrs : list (gostring * gostring)) : MetricOption :=
  λ m, foldl (λ m kv, with_attrs (Attributes_ m ++ [String_kv kv.1 kv.2]) m) m attrs.

Definition WithPriority (p : Z) : MetricOption :=
  λ m, mkMetric (Name m) (Type_ m) (Value m) (Attributes_ m) (Timestamp m) p (TraceID m) (SpanID m)
         (Description m) (Unit m).

Definition WithTimestamp (ts : Z) : MetricOption :=
  λ m, mkMetric (Name m) (Type_ m) (Value m) (Attributes_ m) ts (Priority m) (TraceID m) (SpanID m)
         (Description m) (Unit m).

Definition WithDescription (d : gostring) : MetricOption :=
  λ m, mkMetric (Name m) (Type_ m) (Value m) (Attributes_ m) (Timestamp m) (Priority m) (TraceID m)
         (SpanID m) d (Unit m).

Definition WithUnit (u : gostring) : MetricOption :=
  λ m, mkMetric (Name m) (Type_ m) (Value m) (Attributes_ m) (Timestamp m) (Priority m) (TraceID m)
         (SpanID m) (Description m) u.

(** trace.SpanContextFromContext(ctx): identifiers, and the sampled flag. *)
Record SpanContext := mkSpan { sc_trace : Z; sc_span : Z; sc_sampled : bool }.
Definition span_valid (s : SpanContext) : bool := negb (sc_trace s =? 0) && negb (sc_span s =? 0).

Definition attachExemplar (span : SpanContext) (m : Metric) : Metric :=
  match Type_ m with
  | MetricTypeCounter | MetricTypeHistogram =>
      if negb (sc_sampled span) || negb (span_valid span) then m
      else mkMetric (Name m) (Type_ m) (Value m) (Attributes_ m) (Timestamp m) (Priority m)
             (sc_trace span) (sc_span span) (Description m) (Unit m)
  | _ => m
  end.

(** ** The size without wrap-around *)
Definition attrs_size (attrs : list KeyValue) : Z :=
  foldr (λ kv n, len kv.1 + len (emit kv.2) + n) 0 attrs.

Definition plain_size (m : Metric) : Z :=
  len (Name m) + len (Description m) + len (Unit m) + 24
  + (if HasExemplar m then 24 else 0) + attrs_size (Attributes_ m).

Lemma attrs_size_nonneg attrs : 0 ≤ attrs_size attrs.
Proof.
  induction attrs as [|[k v] attrs IH]; simpl; [lia|].
  pose proof (len_nonneg k). pose proof (len_nonneg (emit v)). lia.
Qed.

Lemma EstimateSize_attrs_plain attrs size :
  0 ≤ size → size + attrs_size attrs < 2 ^ 63 →
  EstimateSize_attrs attrs size = size + attrs_size attrs.
Proof.
  revert size. induction attrs as [|[k v] attrs IH]; intros size H1 H2; simpl in *; [lia|].
  pose proof (attrs_size_nonneg attrs). pose proof (len_nonneg k). pose proof (len_nonneg (emit v)).
  rewrite (i64_small (size + len k)) by lia. rewrite i64_small by lia. rewrite IH by lia. lia.
Qed.

(** A metric whose strings fit in memory has the size of its parts. *)
Lemma EstimateSize_plain m : plain_size m < 2 ^ 63 → EstimateSize m = plain_size m ∧ 24 ≤ EstimateSize m.
Proof.
  intros Hm. unfold EstimateSize, plain_size in *.
  pose proof (attrs_size_nonneg (Attributes_ m)). pose proof (len_nonneg (Name m)).
  pose proof (len_nonneg (Description m)). pose proof (len_nonneg (Unit m)).
  destruct (HasExemplar m); i64_inner; rewrite EstimateSize_attrs_plain by lia; lia.
Qed.

End metric.
