(* ===== verification/DogStatsD.v ===== *)
(** * The line serializers (serializers/dogstatsd.go, dogstatsd_event.go, statsd.go,
      exporters/lines.go, models/datadog_event.go)

    Metrics and events as the bytes of one DogStatsD or StatsD line.  The pooled
    buffers are reset before use and copied out, so a serializer is a pure
    function of its configuration. *)

From S2P Require Import Prelude GoLib Strconv Attribute Metric.

Definition colon : ascii := byte_of 58.
Definition bar : ascii := byte_of 124.
Definition comma : ascii := byte_of 44.
Definition newline : ascii := byte_of 10.
Definition cr : ascii := byte_of 13.

Section serializers.
Context `{Attributes}.

(** ** Configuration *)
Record DogStatsDSerializer := mkDogStatsD {
  globalTags : list gostring; distributions : bool; distributionPrefixes : list gostring;
  filters : gset gostring }.

Definition DogStatsDOption := DogStatsDSerializer → DogStatsDSerializer.

Definition WithDistributions (enabled : bool) : DogStatsDOption := λ s,
  mkDogStatsD (globalTags s) enabled (distributionPrefixes s) (filters s).

Definition WithDistributionPrefixes (prefixes : list gostring) : DogStatsDOption := λ s,
  mkDogStatsD (globalTags s) (distributions s) prefixes (filters s).

Definition WithTagFilters (keys : list gostring) : DogStatsDOption := λ s,
  mkDogStatsD (globalTags s) (distributions s) (distributionPrefixes s) (list_to_set keys).

Definition NewDogStatsDSerializer (tags : list gostring) (opts : list DogStatsDOption) : DogStatsDSerializer :=
  foldl (λ s opt, opt s) (mkDogStatsD tags false [] ∅) opts.

(** NewLineSerializer of exporters/lines.go *)
Definition NewLineSerializer : DogStatsDSerializer := NewDogStatsDSerializer [] [].

(** ** DogStatsD *)
Fixpoint has_any_prefix (name : gostring) (prefixes : list gostring) : bool :=
  match prefixes with
  | [] => false
  | p :: rest => if has_prefix name p then true else has_any_prefix name rest
  end.

Definition isDistribution (s : DogStatsDSerializer) (name : gostring) : bool :=
  if distributions s then true else has_any_prefix name (distributionPrefixes s).

Definition metricType (s : DogStatsDSerializer) (m : Metric) : gostring :=
  match Type_ m with
  | MetricTypeCounter => str "c"
  | MetricTypeGauge => str "g"
  | MetricTypeHistogram => if isDistribution s (Name m) then str "d" else str "h"
  | MetricTypeOther _ => str "c"
  end.

Definition filtered (s : DogStatsDSerializer) (key : gostring) : bool := bool_decide (key ∈ filters s).

Definition globalTagKey (tag : gostring) : gostring := (cut_byte colon tag).1.

(** The buffer of writeTags, and whether a tag was written. *)
Definition writeSep (st : bool * gostring) : bool * gostring :=
  if st.1 then (true, st.2 ++ [comma]) else (true, st.2 ++ str "|#").

Fixpoint write_global (s : DogStatsDSerializer) (tags : list gostring) (st : bool * gostring) : bool * gostring :=
  match tags with
  | [] => st
  | tag :: rest =>
      if filtered s (globalTagKey tag) then write_global s rest st
      else let st := writeSep st in write_global s rest (st.1, st.2 ++ tag)
  end.

Fixpoint write_attrs (s : DogStatsDSerializer) (attrs : list KeyValue) (st : bool * gostring) : bool * gostring :=
  match attrs with
  | [] => st
  | (key, v) :: rest =>
      if filtered s key then write_attrs s rest st
      else let st := writeSep st in write_attrs s rest (st.1, st.2 ++ key ++ [colon] ++ emit v)
  end.

Definition writeTags (s : DogStatsDSerializer) (buf : gostring) (attrs : list KeyValue) : gostring :=
  (write_attrs s attrs (write_global s (globalTags s) (false, buf))).2.

Definition serialize1 (s : DogStatsDSerializer) (m : Metric) : gostring :=
  writeTags s (Name m ++ [colon] ++ FormatFloat (Value m) ++ [bar] ++ metricType s m) (Attributes_ m).

Definition Serialize (s : DogStatsDSerializer) (metrics : list Metric) : list gostring := serialize1 s <$> metrics.

(** ** Events *)
Record DatadogEvent := mkEvent {
  Title : gostring; Text : gostring; EvTimestamp : Z; Host : gostring; EvPriority : gostring;
  AlertType : gostring; AggregationKey : gostring; SourceTypeName : gostring; EvTags : list KeyValue }.

(** Each line feed becomes a backslash and an n. *)
Definition backslash_n : gostring := [byte_of 92; byte_of 110].

Fixpoint eventNewlineEscaper (s : gostring) : gostring :=
  match s with
  | [] => []
  | c :: s' => if bool_decide (c = newline) then backslash_n ++ eventNewlineEscaper s' else c :: eventNewlineEscaper s'
  end.

(** [t.Unix()] *)
Definition UnixSeconds (t : Z) : Z := (t - unix_epoch) / 10 ^ 9.

Definition writeEventField (prefix : string) (value buf : gostring) : gostring :=
  match value with [] => buf | _ => buf ++ str prefix ++ value end.

Definition event_head (title text : gostring) : gostring :=
  str "_e{" ++ FormatInt (len title) ++ [comma] ++ FormatInt (len text) ++ str "}:" ++ title ++ [bar] ++ text.

Definition SerializeEvent (s : DogStatsDSerializer) (e : DatadogEvent) : gostring :=
  let title := eventNewlineEscaper (Title e) in
  let text := eventNewlineEscaper (Text e) in
  let buf := event_head title text in
  let buf := if IsZero (EvTimestamp e) then buf else buf ++ str "|d:" ++ FormatInt (UnixSeconds (EvTimestamp e)) in
  let buf := writeEventField "|h:" (Host e) buf in
  let buf := writeEventField "|p:" (EvPriority e) buf in
  let buf := writeEventField "|t:" (AlertType e) buf in
  let buf := writeEventField "|k:" (AggregationKey e) buf in
  let buf := writeEventField "|s:" (SourceTypeName e) buf in
  writeTags s buf (EvTags e).

(** ** StatsD *)
Fixpoint name_attrs (buf : gostring) (attrs : list KeyValue) : gostring :=
  match attrs with
  | [] => buf
  | (key, v) :: rest => name_attrs (buf ++ str "." ++ key ++ str "_" ++ emit v) rest
  end.

Definition buildMetricName (prefix : gostring) (m : Metric) : gostring :=
  name_attrs ((match prefix with [] => [] | _ => prefix ++ str "." end) ++ Name m) (Attributes_ m).

Definition statsd_metricType (t : MetricType) : gostring :=
  match t with
  | MetricTypeCounter => str "c"
  | MetricTypeGauge => str "g"
  | MetricTypeHistogram => str "ms"
  | MetricTypeOther _ => str "c"
  end.

Definition statsd_serialize1 (prefix : gostring) (m : Metric) : gostring :=
  buildMetricName prefix m ++ [colon] ++ FormatFloat (Value m) ++ [bar] ++ statsd_metricType (Type_ m).

Definition statsd_Serialize (prefix : gostring) (metrics : list Metric) : list gostring :=
  statsd_serialize1 prefix <$> metrics.

(** ** The tags of a line *)

(** The tags that survive the filters, in order. *)
Definition surviving (s : DogStatsDSerializer) (attrs : list KeyValue) : list gostring :=
  filter (λ tag, filtered s (globalTagKey tag) = false) (globalTags s)
  ++ ((λ kv, kv.1 ++ [colon] ++ emit kv.2) <$> filter (λ kv, filtered s kv.1 = false) attrs).

Definition tag_section (tags : list gostring) : gostring :=
  match tags with [] => [] | _ => str "|#" ++ join [comma] tags end.

(** The buffer once [tags] have been written after [buf]. *)
Definition wrote (buf : gostring) (tags : list gostring) : bool * gostring :=
  (match tags with [] => false | _ => true end, buf ++ tag_section tags).

Lemma join_snoc sep l t : l ≠ [] → join sep (l ++ [t]) = join sep l ++ sep ++ t.
Proof.
  induction l as [|a [|b l] IH]; intros Hl; [done|done|].
  change (join sep (a :: b :: l)) with (a ++ sep ++ join sep (b :: l)).
  change (join sep ((a :: b :: l) ++ [t])) with (a ++ sep ++ join sep ((b :: l) ++ [t])).
  by rewrite IH, <-!app_assoc.
Qed.

Lemma wrote_snoc buf tags t :
  let st := writeSep (wrote buf tags) in (st.1, st.2 ++ t) = wrote buf (tags ++ [t]).
Proof.
  destruct tags as [|a tags].
  - unfold wrote, writeSep, tag_section. simpl fst. simpl snd. by rewrite app_nil_r, <-app_assoc.
  - change (wrote buf ((a :: tags) ++ [t])) with (true, buf ++ str "|#" ++ join [comma] ((a :: tags) ++ [t])).
    rewrite join_snoc by done. unfold wrote, writeSep, tag_section. simpl fst. simpl snd.
    by rewrite <-!app_assoc.
Qed.

Lemma write_global_wrote s tags buf done_tags :
  write_global s tags (wrote buf done_tags)
  = wrote buf (done_tags ++ filter (λ tag, filtered s (globalTagKey tag) = false) tags).
Proof.
  revert done_tags. induction tags as [|t tags IH]; intros dt; cbn [write_global]; [by rewrite app_nil_r|].
  destruct (filtered s (globalTagKey t)) eqn:E; [rewrite filter_cons_False by congruence; apply IH|].
  rewrite filter_cons_True by done.
  cbv zeta. rewrite wrote_snoc, IH, <-app_assoc. done.
Qed.

Lemma write_attrs_wrote s attrs buf done_tags :
  write_attrs s attrs (wrote buf done_tags)
  = wrote buf (done_tags ++ ((λ kv, kv.1 ++ [colon] ++ emit kv.2) <$> filter (λ kv, filtered s kv.1 = false) attrs)).
Proof.
  revert done_tags. induction attrs as [|[k v] attrs IH]; intros dt; cbn [write_attrs]; [by rewrite app_nil_r|].
  destruct (filtered s k) eqn:E; [rewrite filter_cons_False by (simpl; congruence); apply IH|].
  rewrite filter_cons_True by done.
  cbv zeta. rewrite wrote_snoc, IH, <-app_assoc. done.
Qed.

(** writeTags appends the surviving tags, joined by commas, or nothing. *)
Lemma writeTags_spec s buf attrs : writeTags s buf attrs = buf ++ tag_section (surviving s attrs).
Proof.
  unfold writeTags. change (false, buf) with (false, buf).
  replace (false, buf) with (wrote buf []) by (unfold wrote; simpl; by rewrite app_nil_r).
  by rewrite write_global_wrote, write_attrs_wrote.
Qed.

End serializers.
