(* ===== verification/DogStatsDParse.v ===== *)
(** * Reading DogStatsD back (statstest/dogstatsd_parse.go, dogstatsd_format.go)

    The parser of the DogStatsD test server and the formatter of what it parsed,
    with the round trips: a parsed line formats back to a line that parses to the
    same metric; a metric or event the serializer writes parses back to it. *)

From S2P Require Import Prelude GoLib Strconv Attribute Metric DogStatsD.

(** ** Strings *)

(** strings.Cut *)
Fixpoint cut (sep s : gostring) : gostring * option gostring :=
  if has_prefix s sep then ([], Some (drop (length sep) s))
  else match s with
       | [] => ([], None)
       | c :: s' => let '(a, b) := cut sep s' in (c :: a, b)
       end.

(** bytes.TrimSuffix(line, "\r") *)
Definition trim_cr (s : gostring) : gostring :=
  match last s with
  | Some c => if bool_decide (c = cr) then take (length s - 1) s else s
  | None => s
  end.

(** strings.ReplaceAll of a backslash and an n by a line feed *)
Fixpoint unescapeEvent (s : gostring) : gostring :=
  match s with
  | c :: ((d :: s') as t) =>
      if bool_decide (c = byte_of 92) && bool_decide (d = byte_of 110) then newline :: unescapeEvent s'
      else c :: unescapeEvent t
  | _ => s
  end.

(** ** Messages *)
Record DogStatsDMetric := mkParsed {
  dm_name : gostring; dm_value : float64; dm_type : gostring; dm_tags : list gostring; dm_rate : float64 }.

Record DogStatsDEvent := mkParsedEvent {
  de_title : gostring; de_text : gostring; de_timestamp : Z; de_host : gostring; de_priority : gostring;
  de_alert : gostring; de_key : gostring; de_source : gostring; de_tags : list gostring }.

Inductive DogStatsDMessage := MsgMetric (m : DogStatsDMetric) | MsgEvent (e : DogStatsDEvent).

Definition known_types : list gostring := [str "c"; str "g"; str "h"; str "d"; str "s"; str "ms"].

(** ** Parsing a metric line *)
Definition splitTags (s : gostring) : list gostring := filter (λ t, t ≠ []) (split_byte comma s).

(** The optional sections, from the third on. *)
Fixpoint metric_sections (secs : list gostring) (m : DogStatsDMetric) : option DogStatsDMetric :=
  match secs with
  | [] => Some m
  | sec :: rest =>
      if has_prefix sec (str "@") then
        rate ← ParseFloat (drop 1 sec);
        if flt f_zero rate && fle rate f_one
        then metric_sections rest (mkParsed (dm_name m) (dm_value m) (dm_type m) (dm_tags m) rate)
        else None
      else if has_prefix sec (str "#") then
        metric_sections rest (mkParsed (dm_name m) (dm_value m) (dm_type m) (splitTags (drop 1 sec)) (dm_rate m))
      else metric_sections rest m
  end.

Definition parseDogStatsDMetric (line : gostring) : option DogStatsDMetric :=
  match cut_byte colon line with
  | (_, None) => None
  | ([], Some _) => None
  | (name, Some rest) =>
      match split_byte bar rest with
      | v :: typ :: secs =>
          value ← ParseFloat v;
          if is_nan value then None
          else if bool_decide (typ ∈ known_types)
          then metric_sections secs (mkParsed name value typ [] f_one)
          else None
      | _ => None
      end
  end.

(** ** Parsing an event line

    A slice expression out of range panics. *)
Inductive outcome (A : Type) := Panics | Rejected | Accepted (a : A).
#[global] Arguments Panics {A}.
#[global] Arguments Rejected {A}.
#[global] Arguments Accepted {A} a.

Definition setField (e : DogStatsDEvent) (sec : gostring) : option DogStatsDEvent :=
  let '(mkParsedEvent ti te ts ho pr al ke so ta) := e in
  if has_prefix sec (str "d:") then
    n ← ParseInt (drop 2 sec); Some (mkParsedEvent ti te (Unix n 0) ho pr al ke so ta)
  else if has_prefix sec (str "h:") then Some (mkParsedEvent ti te ts (drop 2 sec) pr al ke so ta)
  else if has_prefix sec (str "p:") then Some (mkParsedEvent ti te ts ho (drop 2 sec) al ke so ta)
  else if has_prefix sec (str "t:") then Some (mkParsedEvent ti te ts ho pr (drop 2 sec) ke so ta)
  else if has_prefix sec (str "k:") then Some (mkParsedEvent ti te ts ho pr al (drop 2 sec) so ta)
  else if has_prefix sec (str "s:") then Some (mkParsedEvent ti te ts ho pr al ke (drop 2 sec) ta)
  else if has_prefix sec (str "#") then Some (mkParsedEvent ti te ts ho pr al ke so (splitTags (drop 1 sec)))
  else Some e.

Fixpoint event_sections (secs : list gostring) (e : DogStatsDEvent) : option DogStatsDEvent :=
  match secs with
  | [] => Some e
  | sec :: rest => e ← setField e sec; event_sections rest e
  end.

(** [s[:n]] and [s[n:]] for a non-negative [n] *)
Definition slice_at (n : Z) (s : gostring) : option (gostring * gostring) :=
  if n <=? len s then Some (take (Z.to_nat n) s, drop (Z.to_nat n) s) else None.

Definition index_at (n : Z) (s : gostring) : option ascii := if n <? len s then s !! Z.to_nat n else None.

Definition event_body (titleLen textLen : Z) (body : gostring) : outcome DogStatsDEvent :=
  if len body <? i64 (i64 (titleLen + 1) + textLen) then Rejected
  else
    match index_at titleLen body with
    | None => Panics
    | Some c =>
        if bool_decide (c = bar) then
          let title := take (Z.to_nat titleLen) body in
          match slice_at textLen (drop (Z.to_nat titleLen + 1) body) with
          | None => Panics
          | Some (text, rest) =>
              if bool_decide (rest = []) || bool_decide (head rest = Some bar) then
                match event_sections (split_byte bar rest)
                        (mkParsedEvent (unescapeEvent title) (unescapeEvent text) 0 [] [] [] [] [] []) with
                | Some e => Accepted e
                | None => Rejected
                end
              else Rejected
          end
        else Rejected
    end.

(** [line] starts with "_e{". *)
Definition parseDogStatsDEvent (line : gostring) : outcome DogStatsDEvent :=
  match cut (str "}:") (drop 3 line) with
  | (_, None) => Rejected
  | (header, Some body) =>
      match cut_byte comma header with
      | (_, None) => Rejected
      | (tl, Some xl) =>
          match ParseInt tl, ParseInt xl with
          | Some titleLen, Some textLen =>
              if (titleLen <=? 0) || (textLen <? 0) then Rejected else event_body titleLen textLen body
          | _, _ => Rejected
          end
      end
  end.

(** ** Datagrams

    The messages handed to the handler, in order; [None] when a line panics.
    Every turn consumes a byte. *)
Definition dispatch_line (line : gostring) : option (list DogStatsDMessage) :=
  match line with
  | [] => Some []
  | _ =>
      if has_prefix line (str "_e{") then
        match parseDogStatsDEvent line with
        | Panics => None
        | Rejected => Some []
        | Accepted e => Some [MsgEvent e]
        end
      else Some (match parseDogStatsDMetric line with Some m => [MsgMetric m] | None => [] end)
  end.

Fixpoint dispatch_loop (fuel : nat) (data : gostring) : option (list DogStatsDMessage) :=
  match fuel, data with
  | S f, _ :: _ =>
      let '(line, rest) := cut_byte newline data in
      out ← dispatch_line (trim_cr line);
      more ← dispatch_loop f (default [] rest);
      Some (out ++ more)
  | _, _ => Some []
  end.

Definition dispatchDatagram (data : gostring) : option (list DogStatsDMessage) := dispatch_loop (length data) data.

(** ** Formatting *)
Definition writeFormattedTags (buf : gostring) (tags : list gostring) : gostring :=
  match tags with [] => buf | _ => buf ++ str "|#" ++ join [comma] tags end.

Definition Metric_String (m : DogStatsDMetric) : gostring :=
  let buf := dm_name m ++ [colon] ++ FormatFloat (dm_value m) ++ [bar] ++ dm_type m in
  let buf := if negb (feq (dm_rate m) f_zero) && negb (feq (dm_rate m) f_one)
             then buf ++ str "|@" ++ FormatFloat (dm_rate m) else buf in
  writeFormattedTags buf (dm_tags m).

Fixpoint write_fields (fields : list (string * gostring)) (buf : gostring) : gostring :=
  match fields with
  | [] => buf
  | (prefix, value) :: rest =>
      write_fields rest (match value with [] => buf | _ => buf ++ str prefix ++ value end)
  end.

Definition Event_String (e : DogStatsDEvent) : gostring :=
  let title := eventNewlineEscaper (de_title e) in
  let text := eventNewlineEscaper (de_text e) in
  let buf := event_head title text in
  let buf := if IsZero (de_timestamp e) then buf else buf ++ str "|d:" ++ FormatInt (UnixSeconds (de_timestamp e)) in
  let buf := write_fields [("|h:"%string, de_host e); ("|p:"%string, de_priority e); ("|t:"%string, de_alert e);
                           ("|k:"%string, de_key e); ("|s:"%string, de_source e)] buf in
  writeFormattedTags buf (de_tags e).

Lemma has_prefix_app p r : has_prefix (p ++ r) p = true.
Proof. apply has_prefix_spec. by exists r. Qed.

(** ** Round trips of metrics *)
Lemma fmt_fresh sep x : float_char sep = false → valid x = true → sep ∉ FormatFloat x.
Proof.
  intros Hs Hv Hin. destruct (FormatFloat_chars x Hv) as [Hf _]. rewrite Forall_forall in Hf.
  apply Hf in Hin. congruence.
Qed.

Lemma split_parts sep s : Forall (λ p, sep ∉ p) (split_byte sep s).
Proof.
  induction s as [|c s IH]; cbn [split_byte]; [repeat constructor; apply not_elem_of_nil|].
  case_bool_decide as Hc; [constructor; [apply not_elem_of_nil|done]|].
  destruct (split_byte sep s) as [|p ps]; [repeat constructor|].
  - rewrite list_elem_of_singleton. congruence.
  - apply Forall_cons in IH as [Hp Hps]. constructor; [|done]. rewrite not_elem_of_cons. auto.
Qed.

Lemma split_subset sep x s : x ∉ s → Forall (λ p, x ∉ p) (split_byte sep s).
Proof.
  intros Hx. pose proof (join_split sep s) as Hj. revert Hj. generalize (split_byte sep s) as l.
  intros l <-. induction l as [|p [|q l] IH]; [constructor|repeat constructor; done|].
  change (join [sep] (p :: q :: l)) with (p ++ [sep] ++ join [sep] (q :: l)) in Hx.
  rewrite !not_elem_of_app in Hx. destruct Hx as (Hp & _ & Hq). constructor; auto.
Qed.

(** Tags as the parser returns them. *)
Definition good_tag (t : gostring) : Prop := t ≠ [] ∧ (comma ∉ t) ∧ (bar ∉ t).

Lemma splitTags_good s : bar ∉ s → Forall good_tag (splitTags s).
Proof.
  intros Hb. apply Forall_forall. intros t Ht. apply list_elem_of_filter in Ht as [Hne Ht].
  pose proof (split_parts comma s) as H1. pose proof (split_subset comma bar s Hb) as H2.
  rewrite Forall_forall in H1, H2. split; auto.
Qed.

Lemma splitTags_join tags :
  tags ≠ [] → Forall (λ t, comma ∉ t) tags → splitTags (join [comma] tags) = filter (λ t, t ≠ []) tags.
Proof. intros Hne Hf. unfold splitTags. by rewrite split_join. Qed.

Lemma filter_all {A} (P : A → Prop) `{∀ x, Decision (P x)} l : Forall P l → filter P l = l.
Proof. induction 1 as [|x l Hx _ IH]; [done|]. rewrite filter_cons_True by done. by rewrite IH. Qed.

(** A line made of a name and sections, none of which holds a bar. *)
Lemma parse_line name v typ secs x :
  name ≠ [] → colon ∉ name → Forall (λ p, bar ∉ p) (v :: typ :: secs) → ParseFloat v = Some x → is_nan x = false →
  typ ∈ known_types →
  parseDogStatsDMetric (name ++ colon :: join [bar] (v :: typ :: secs))
  = metric_sections secs (mkParsed name x typ [] f_one).
Proof.
  intros Hn Hc Hb Hv Hx Ht. unfold parseDogStatsDMetric. rewrite cut_byte_app by done.
  destruct name as [|c name]; [done|]. rewrite split_join by done. rewrite Hv. cbn [mbind option_bind].
  by rewrite Hx, bool_decide_true.
Qed.

Lemma known_type_fresh typ : typ ∈ known_types → bar ∉ typ.
Proof.
  unfold known_types. intros Ht Hb.
  repeat (apply elem_of_cons in Ht as [->|Ht];
          [repeat (apply elem_of_cons in Hb as [Hb|Hb]; [discriminate|]); by apply not_elem_of_nil in Hb|]).
  by apply not_elem_of_nil in Ht.
Qed.

Lemma float_sep x : valid x = true → bar ∉ FormatFloat x.
Proof. by apply fmt_fresh. Qed.

(** A rate of the parser: positive, at most one. *)
Definition good_rate (r : float64) : Prop :=
  valid r = true ∧ flt f_zero r = true ∧ fle r f_one = true.

Lemma metric_sections_good secs m m' :
  Forall (λ p, bar ∉ p) secs → metric_sections secs m = Some m' →
  Forall good_tag (dm_tags m) → good_rate (dm_rate m) →
  dm_name m' = dm_name m ∧ dm_value m' = dm_value m ∧ dm_type m' = dm_type m
  ∧ Forall good_tag (dm_tags m') ∧ good_rate (dm_rate m').
Proof.
  intros Hf. revert m. induction Hf as [|sec secs Hb _ IH]; intros m Hs Ht Hr; cbn [metric_sections] in Hs; [by simplify_eq|].
  destruct (has_prefix sec (str "@")).
  - apply bind_Some in Hs as (rate & Hp & Hs). destruct (flt f_zero rate && fle rate f_one) eqn:Er; [|done].
    apply andb_true_iff in Er as [E2 E3]. apply IH in Hs; [done|done|]. split; [by eapply ParseFloat_valid|done].
  - destruct (has_prefix sec (str "#")); [|by eapply IH].
    apply IH in Hs; [done| |done]. simpl. apply splitTags_good. destruct sec; [done|].
    rewrite not_elem_of_cons in Hb. by destruct Hb.
Qed.

Lemma feq_finite x s m e : feq x (S754_finite s m e) = true → x = S754_finite s m e.
Proof.
  unfold feq, SFeqb. destruct x as [[]|[]| |s' m' e'], s; try done; destruct s'; try done; cbn [SFcompare];
    destruct (Z.compare_spec e' e) as [->| |]; try done; fold (Pos.compare m' m);
    destruct (Pos.compare_spec m' m) as [->| |]; done.
Qed.

Lemma feq_one r : feq r f_one = true → r = f_one.
Proof.
  assert (∃ s m e, f_one = S754_finite s m e) as (s & m & e & ->) by (do 3 eexists; vm_compute; reflexivity).
  apply feq_finite.
Qed.

Lemma positive_not_zero r : flt f_zero r = true → feq r f_zero = false.
Proof. unfold flt, feq, SFltb, SFeqb. by destruct r as [[]|[]| |[] m e]. Qed.

Definition rate_section (r : float64) : list gostring :=
  if negb (feq r f_zero) && negb (feq r f_one) then [str "@" ++ FormatFloat r] else [].

Definition tags_section (tags : list gostring) : list gostring :=
  match tags with [] => [] | _ => [str "#" ++ join [comma] tags] end.

Lemma Metric_String_join m :
  Metric_String m = dm_name m ++ colon ::
    join [bar] (FormatFloat (dm_value m) :: dm_type m :: rate_section (dm_rate m) ++ tags_section (dm_tags m)).
Proof.
  unfold Metric_String, writeFormattedTags, rate_section, tags_section.
  destruct (negb _ && negb _), (dm_tags m) as [|t ts]; cbn [app join]; rewrite <-?app_assoc; cbn [app];
    rewrite <-?app_assoc; done.
Qed.

Lemma bar_join tags : Forall (λ t, bar ∉ t) tags → bar ∉ join [comma] tags.
Proof.
  induction 1 as [|t [|u tags] Ht Hf IH]; [apply not_elem_of_nil|done|].
  change (join [comma] (t :: u :: tags)) with (t ++ [comma] ++ join [comma] (u :: tags)).
  rewrite !not_elem_of_app, not_elem_of_cons. split_and!; try done. apply not_elem_of_nil.
Qed.

Lemma metric_sections_tags tags m :
  Forall (λ t, comma ∉ t) tags → dm_tags m = [] →
  metric_sections (tags_section tags) m
  = Some (mkParsed (dm_name m) (dm_value m) (dm_type m) (filter (λ t, t ≠ []) tags) (dm_rate m)).
Proof.
  intros Hf Hm. destruct tags as [|t tags]; [simpl; destruct m; simpl in *; by subst|].
  cbn [tags_section metric_sections]. change (has_prefix (str "#" ++ join [comma] (t :: tags)) (str "@")) with false.
  rewrite has_prefix_app. change (drop 1 (str "#" ++ join [comma] (t :: tags))) with (join [comma] (t :: tags)).
  rewrite splitTags_join by done. done.
Qed.

Lemma tags_section_bar tags : Forall (λ t, bar ∉ t) tags → Forall (λ p, bar ∉ p) (tags_section tags).
Proof.
  intros Hf. destruct tags as [|t tags]; [constructor|]. repeat constructor.
  change (str "#" ++ join [comma] (t :: tags)) with (byte_of 35 :: join [comma] (t :: tags)).
  rewrite not_elem_of_cons. split; [done|by apply bar_join].
Qed.

(** Formatting a parsed metric gives a line that parses to the same metric,
    for every line the parser accepts: name, value (infinities included), type,
    tags in order and sample rate. *)
Theorem metric_reparse line m : parseDogStatsDMetric line = Some m → parseDogStatsDMetric (Metric_String m) = Some m.
Proof.
  intros Hp. unfold parseDogStatsDMetric in Hp. destruct (cut_byte colon line) as [name [rest|]] eqn:Ec; [|by destruct name].
  apply cut_byte_some in Ec as [_ Hcolon]. destruct name as [|c name]; [done|].
  pose proof (split_parts bar rest) as Hparts. destruct (split_byte bar rest) as [|v [|typ secs]]; [done..|].
  apply bind_Some in Hp as (x & Hx & Hp). destruct (is_nan x) eqn:Hnan; [done|]. case_bool_decide as Htyp; [|done].
  apply Forall_cons in Hparts as [_ Hparts]. apply Forall_cons in Hparts as [Hbt Hbs].
  pose proof (ParseFloat_valid _ _ Hx) as Hvx.
  destruct (metric_sections_good secs _ m Hbs Hp) as (En & Ev & Et & Htags & Hvr & Hpos & Hle);
    [constructor|by split; vm_compute|]. cbn [dm_name dm_value dm_type] in En, Ev, Et.
  assert (Htb : Forall (λ t, bar ∉ t) (dm_tags m)) by (eapply Forall_impl; [exact Htags|]; by intros t (_ & _ & ?)).
  assert (Htc : Forall (λ t, comma ∉ t) (dm_tags m)) by (eapply Forall_impl; [exact Htags|]; by intros t (_ & ? & _)).
  assert (Hft : filter (λ t, t ≠ []) (dm_tags m) = dm_tags m)
    by (apply filter_all; eapply Forall_impl; [exact Htags|]; by intros t (? & _ & _)).
  rewrite Metric_String_join, En, Ev, Et, (parse_line _ _ _ _ x); try done.
  - unfold rate_section. rewrite (positive_not_zero _ Hpos). cbn [negb andb].
    destruct (feq (dm_rate m) f_one) eqn:E1; cbn [negb app].
    + rewrite metric_sections_tags by done. cbn [dm_name dm_value dm_type dm_rate]. rewrite Hft.
      apply feq_one in E1. destruct m; simpl in *; by subst.
    + cbn [metric_sections]. rewrite has_prefix_app.
      change (drop 1 (str "@" ++ FormatFloat (dm_rate m))) with (FormatFloat (dm_rate m)).
      rewrite ParseFloat_FormatFloat by done. cbn [mbind option_bind]. rewrite Hpos, Hle. cbn [andb].
      rewrite metric_sections_tags by done. cbn [dm_name dm_value dm_type dm_rate]. rewrite Hft.
      destruct m; simpl in *; by subst.
  - repeat constructor; [by apply float_sep|by apply known_type_fresh|]. apply Forall_app.
    split; [|by apply tags_section_bar]. unfold rate_section. case_match; [|constructor]. repeat constructor.
    change (str "@" ++ FormatFloat (dm_rate m)) with (byte_of 64 :: FormatFloat (dm_rate m)).
    rewrite not_elem_of_cons. split; [done|by apply float_sep].
  - by apply ParseFloat_FormatFloat.
Qed.

Section serialized.
Context `{Attributes}.

(** A metric whose line can be read back: a name, a number, and tags free of the
    separators, which the serializer does not escape. *)
Record readable (s : DogStatsDSerializer) (m : Metric) : Prop := mkReadable {
  rd_name : Name m ≠ []; rd_colon : colon ∉ Name m; rd_value : valid (Value m) = true;
  rd_number : is_nan (Value m) = false;
  rd_tags : Forall (λ t, (bar ∉ t) ∧ (comma ∉ t)) (surviving s (Attributes_ m)) }.

(** What the parser should see of a metric. *)
Definition received (s : DogStatsDSerializer) (m : Metric) : DogStatsDMetric :=
  mkParsed (Name m) (Value m) (metricType s m) (filter (λ t, t ≠ []) (surviving s (Attributes_ m))) f_one.

Lemma serialize1_join s m :
  serialize1 s m = Name m ++ colon :: join [bar] (FormatFloat (Value m) :: metricType s m :: tags_section (surviving s (Attributes_ m))).
Proof.
  unfold serialize1. rewrite writeTags_spec. unfold tag_section, tags_section.
  destruct (surviving s (Attributes_ m)) as [|t ts]; cbn [app join]; rewrite <-?app_assoc; cbn [app];
    rewrite <-?app_assoc, ?app_nil_r; done.
Qed.

Lemma metricType_known s m : metricType s m ∈ known_types.
Proof.
  unfold metricType, known_types. destruct (Type_ m); [| |destruct (isDistribution s (Name m))|]; repeat constructor.
Qed.

Lemma parse_serialize s m : readable s m → parseDogStatsDMetric (serialize1 s m) = Some (received s m).
Proof.
  intros [Hn Hc Hv Hnan Ht]. pose proof (metricType_known s m) as Hk.
  assert (Htb : Forall (λ t, bar ∉ t) (surviving s (Attributes_ m))) by (eapply Forall_impl; [exact Ht|]; by intros t [? _]).
  assert (Htc : Forall (λ t, comma ∉ t) (surviving s (Attributes_ m))) by (eapply Forall_impl; [exact Ht|]; by intros t [_ ?]).
  rewrite serialize1_join, (parse_line _ _ _ _ (Value m)); try done.
  - by rewrite metric_sections_tags.
  - repeat constructor; [by apply float_sep|by apply known_type_fresh|by apply tags_section_bar].
  - by apply ParseFloat_FormatFloat.
Qed.
End serialized.

(** ** Round trip of events *)

(** Titles and texts in which no backslash is followed by an n. *)
Fixpoint plain_text (s : gostring) : bool :=
  match s with
  | c :: ((d :: _) as t) => negb (bool_decide (c = byte_of 92) && bool_decide (d = byte_of 110)) && plain_text t
  | _ => true
  end.

Lemma unescape_cons c s :
  match eventNewlineEscaper s with d :: _ => bool_decide (c = byte_of 92) && bool_decide (d = byte_of 110) | [] => false end = false →
  unescapeEvent (c :: eventNewlineEscaper s) = c :: unescapeEvent (eventNewlineEscaper s).
Proof. destruct (eventNewlineEscaper s) as [|d t]; [done|]. intros Hd. cbn [unescapeEvent]. by rewrite Hd. Qed.

Lemma unescape_escape s : plain_text s = true → unescapeEvent (eventNewlineEscaper s) = s.
Proof.
  induction s as [|c s IH]; intros Hp; [done|].
  assert (Hs : plain_text s = true) by (destruct s; [done|]; cbn [plain_text] in Hp; by apply andb_true_iff in Hp as [_ ?]).
  cbn [eventNewlineEscaper]. case_bool_decide as Hc.
  - subst c. unfold backslash_n. cbn [app unescapeEvent]. rewrite !bool_decide_true by done. cbn [andb].
    by rewrite IH.
  - rewrite unescape_cons; [by rewrite IH|]. destruct s as [|d s]; [done|]. cbn [eventNewlineEscaper].
    cbn [plain_text] in Hp. apply andb_true_iff in Hp as [Hcd _]. apply negb_true_iff in Hcd.
    destruct (bool_decide (d = newline)); [|exact Hcd]. unfold backslash_n. cbn [app].
    by rewrite (bool_decide_false (byte_of 92 = byte_of 110)), andb_false_r.
Qed.

Lemma cut_first x sep a b : x ∉ a → cut (x :: sep) (a ++ (x :: sep) ++ b) = (a, Some b).
Proof.
  induction a as [|c a IH]; intros Hx.
  - pose proof (has_prefix_app (x :: sep) b) as Hp. cbn [app] in *. cbn [cut]. rewrite Hp.
    change (x :: sep ++ b) with ((x :: sep) ++ b). by rewrite drop_app_length.
  - rewrite not_elem_of_cons in Hx. destruct Hx as [Hc Ha]. cbn [app cut has_prefix].
    rewrite bool_decide_false by done. cbn [andb].
    specialize (IH Ha). cbn [app] in IH. by rewrite IH.
Qed.

Lemma FormatInt_digits n : 0 ≤ n → all_dec (FormatInt n).
Proof. intros Hn. unfold FormatInt. destruct (Z.ltb_spec n 0); [lia|]. by apply format_uint_spec. Qed.

Lemma dec_fresh x s : is_dec x = false → all_dec s → x ∉ s.
Proof. intros Hx Hs Hin. unfold all_dec in Hs. rewrite Forall_forall in Hs. apply Hs in Hin. congruence. Qed.

(** Sections after the text, each behind a bar. *)
Definition bars (secs : list gostring) : gostring := concat ((λ p, bar :: p) <$> secs).

Lemma bars_app a b : bars (a ++ b) = bars a ++ bars b.
Proof. unfold bars. by rewrite fmap_app, concat_app. Qed.

Lemma bars_sections secs e :
  Forall (λ p, bar ∉ p) secs → event_sections (split_byte bar (bars secs)) e = event_sections secs e.
Proof.
  intros Hf. destruct secs as [|p secs]; [by destruct e|].
  assert (Hj : bars (p :: secs) = bar :: join [bar] (p :: secs)).
  { clear Hf. revert p. induction secs as [|q secs IH]; intros p; [unfold bars; simpl; by rewrite app_nil_r|].
    change (bars (p :: q :: secs)) with ((bar :: p) ++ bars (q :: secs)). rewrite IH. done. }
  rewrite Hj. change (bar :: join [bar] (p :: secs)) with ([] ++ bar :: join [bar] (p :: secs)).
  rewrite split_byte_app by apply not_elem_of_nil. rewrite split_join by done. by destruct e.
Qed.

Lemma index_at_app a c b : index_at (len a) (a ++ c :: b) = Some c.
Proof.
  unfold index_at, len. rewrite length_app. simpl length.
  destruct (Z.ltb_spec (Z.of_nat (length a)) (Z.of_nat (length a + S (length b)))); [|lia].
  rewrite Nat2Z.id. by apply list_lookup_middle.
Qed.

Lemma take_len_app (a b : gostring) : take (Z.to_nat (len a)) (a ++ b) = a.
Proof. unfold len. rewrite Nat2Z.id. apply take_app_length. Qed.

Lemma drop_len_app (a : gostring) c b : drop (Z.to_nat (len a) + 1) (a ++ c :: b) = b.
Proof.
  unfold len. rewrite Nat2Z.id. replace (length a + 1)%nat with (length (a ++ [c])) by (rewrite length_app; simpl; lia).
  change (a ++ c :: b) with (a ++ [c] ++ b). rewrite app_assoc. apply drop_app_length.
Qed.

Lemma slice_at_app a b : slice_at (len a) (a ++ b) = Some (a, b).
Proof.
  unfold slice_at. pose proof (take_len_app a b) as ->. unfold len. rewrite length_app, Nat2Z.id, drop_app_length.
  destruct (Z.leb_spec (Z.of_nat (length a)) (Z.of_nat (length a + length b))); [done|lia].
Qed.

(** An event line is accepted when its header counts its title and text. *)
Lemma parse_event title text secs :
  title ≠ [] → len title + 1 + len text < 2 ^ 63 → Forall (λ p, bar ∉ p) secs →
  parseDogStatsDEvent (event_head title text ++ bars secs)
  = match event_sections secs (mkParsedEvent (unescapeEvent title) (unescapeEvent text) 0 [] [] [] [] [] []) with
    | Some e => Accepted e
    | None => Rejected
    end.
Proof.
  intros Ht Hl Hf. pose proof (len_nonneg title). pose proof (len_nonneg text).
  assert (Hpos : 0 < len title) by (unfold len; destruct title; [done|simpl; lia]).
  pose proof (FormatInt_digits (len title) ltac:(lia)) as Hd1. pose proof (FormatInt_digits (len text) ltac:(lia)) as Hd2.
  unfold parseDogStatsDEvent, event_head.
  assert (Hdrop : drop 3 ((str "_e{" ++ FormatInt (len title) ++ [comma] ++ FormatInt (len text) ++ str "}:" ++ title ++ [bar] ++ text) ++ bars secs)
    = (FormatInt (len title) ++ comma :: FormatInt (len text)) ++ str "}:" ++ title ++ [bar] ++ text ++ bars secs).
  { rewrite <-!app_assoc. cbn [app]. done. }
  assert (Hcut : cut (str "}:") ((FormatInt (len title) ++ comma :: FormatInt (len text)) ++ str "}:"
                   ++ title ++ [bar] ++ text ++ bars secs)
    = (FormatInt (len title) ++ comma :: FormatInt (len text), Some (title ++ [bar] ++ text ++ bars secs))).
  { apply cut_first. rewrite not_elem_of_app, not_elem_of_cons. split_and!; [by apply dec_fresh|done|by apply dec_fresh]. }
  rewrite Hdrop, Hcut.
  rewrite cut_byte_app by (by apply dec_fresh). rewrite !ParseInt_FormatInt by (unfold in_i64; lia).
  destruct (Z.leb_spec (len title) 0); [lia|]. destruct (Z.ltb_spec (len text) 0); [lia|]. cbn [orb].
  unfold event_body. rewrite (i64_small (len title + 1)), i64_small by lia.
  assert (Hlen : len (title ++ [bar] ++ text ++ bars secs) = len title + 1 + len text + len (bars secs)).
  { unfold len. rewrite !length_app. simpl. lia. }
  pose proof (len_nonneg (bars secs)). rewrite Hlen.
  destruct (Z.ltb_spec (len title + 1 + len text + len (bars secs)) (len title + 1 + len text)); [lia|].
  change (title ++ [bar] ++ text ++ bars secs) with (title ++ bar :: text ++ bars secs).
  rewrite index_at_app, bool_decide_true by done. rewrite take_len_app, drop_len_app, slice_at_app.
  assert (bool_decide (bars secs = []) || bool_decide (head (bars secs) = Some bar) = true) as ->.
  { destruct secs; [done|]. by rewrite orb_true_iff, (bool_decide_eq_true (head _ = _)); right. }
  by rewrite bars_sections.
Qed.

Definition field_sec (prefix : string) (v : gostring) : list gostring :=
  match v with [] => [] | _ => [str prefix ++ v] end.

Definition time_sec (t : Z) : list gostring := if IsZero t then [] else [str "d:" ++ FormatInt (UnixSeconds t)].

Lemma FormatInt_bar n : bar ∉ FormatInt n.
Proof.
  unfold FormatInt. destruct (Z.ltb_spec n 0).
  - rewrite not_elem_of_cons. split; [done|]. apply dec_fresh; [done|]. apply format_uint_spec. lia.
  - apply dec_fresh; [done|]. by apply format_uint_spec.
Qed.

(** Every section names another field, so that the sections of an event set them
    one after the other. *)
Lemma event_sections_time t rest ti te ho pr al ke so ta :
  t = 0 ∨ (Unix (UnixSeconds t) 0 = t ∧ in_i64 (UnixSeconds t)) →
  event_sections (time_sec t ++ rest) (mkParsedEvent ti te 0 ho pr al ke so ta)
  = event_sections rest (mkParsedEvent ti te t ho pr al ke so ta).
Proof.
  intros Ht. unfold time_sec, IsZero. destruct (Z.eqb_spec t 0) as [->|Hne]; [done|].
  destruct Ht as [|[Ht Hi]]; [done|]. cbn [app event_sections]. unfold setField.
  rewrite has_prefix_app. change (drop 2 (str "d:" ++ FormatInt (UnixSeconds t))) with (FormatInt (UnixSeconds t)).
  rewrite ParseInt_FormatInt by done. cbn [mbind option_bind]. by rewrite Ht.
Qed.

Ltac set_field :=
  match goal with |- context [field_sec _ ?v] => destruct v end; [done|];
  cbn [field_sec app event_sections setField]; rewrite has_prefix_app; done.

Lemma event_sections_fields ti te ts ho pr al ke so rest :
  event_sections (field_sec "h:" ho ++ field_sec "p:" pr ++ field_sec "t:" al ++ field_sec "k:" ke ++ field_sec "s:" so ++ rest)
    (mkParsedEvent ti te ts [] [] [] [] [] [])
  = event_sections rest (mkParsedEvent ti te ts ho pr al ke so []).
Proof.
  assert (H1 : ∀ r, event_sections (field_sec "h:" ho ++ r) (mkParsedEvent ti te ts [] [] [] [] [] [])
    = event_sections r (mkParsedEvent ti te ts ho [] [] [] [] [])) by (intros r; set_field).
  assert (H2 : ∀ r, event_sections (field_sec "p:" pr ++ r) (mkParsedEvent ti te ts ho [] [] [] [] [])
    = event_sections r (mkParsedEvent ti te ts ho pr [] [] [] [])) by (intros r; set_field).
  assert (H3 : ∀ r, event_sections (field_sec "t:" al ++ r) (mkParsedEvent ti te ts ho pr [] [] [] [])
    = event_sections r (mkParsedEvent ti te ts ho pr al [] [] [])) by (intros r; set_field).
  assert (H4 : ∀ r, event_sections (field_sec "k:" ke ++ r) (mkParsedEvent ti te ts ho pr al [] [] [])
    = event_sections r (mkParsedEvent ti te ts ho pr al ke [] [])) by (intros r; set_field).
  assert (H5 : ∀ r, event_sections (field_sec "s:" so ++ r) (mkParsedEvent ti te ts ho pr al ke [] [])
    = event_sections r (mkParsedEvent ti te ts ho pr al ke so [])) by (intros r; set_field).
  by rewrite H1, H2, H3, H4, H5.
Qed.

Lemma event_sections_tags tags ti te ts ho pr al ke so :
  Forall (λ t, comma ∉ t) tags →
  event_sections (tags_section tags) (mkParsedEvent ti te ts ho pr al ke so [])
  = Some (mkParsedEvent ti te ts ho pr al ke so (filter (λ t, t ≠ []) tags)).
Proof.
  intros Hf. destruct tags as [|t tags]; [done|]. cbn [tags_section event_sections setField].
  rewrite has_prefix_app. change (drop 1 (str "#" ++ join [comma] (t :: tags))) with (join [comma] (t :: tags)).
  by rewrite splitTags_join.
Qed.

(** The fields of an event behind its head. *)
Definition event_secs (ts : Z) (ho pr al ke so : gostring) (tags : list gostring) : list gostring :=
  time_sec ts ++ field_sec "h:" ho ++ field_sec "p:" pr ++ field_sec "t:" al ++ field_sec "k:" ke
  ++ field_sec "s:" so ++ tags_section tags.

Lemma field_sec_bar p v : bar ∉ str p → bar ∉ v → Forall (λ x, bar ∉ x) (field_sec p v).
Proof. intros Hp Hv. destruct v; [constructor|]. repeat constructor. by rewrite not_elem_of_app. Qed.

Lemma event_parses title text ts ho pr al ke so tags :
  title ≠ [] → plain_text title = true → plain_text text = true →
  len (eventNewlineEscaper title) + 1 + len (eventNewlineEscaper text) < 2 ^ 63 →
  ts = 0 ∨ (Unix (UnixSeconds ts) 0 = ts ∧ in_i64 (UnixSeconds ts)) →
  Forall (λ f, bar ∉ f) [ho; pr; al; ke; so] → Forall (λ t, (bar ∉ t) ∧ (comma ∉ t)) tags →
  parseDogStatsDEvent (event_head (eventNewlineEscaper title) (eventNewlineEscaper text)
                         ++ bars (event_secs ts ho pr al ke so tags))
  = Accepted (mkParsedEvent title text ts ho pr al ke so (filter (λ t, t ≠ []) tags)).
Proof.
  intros Hne Hp1 Hp2 Hl Hts Hf Htags.
  assert (Htb : Forall (λ t, bar ∉ t) tags) by (eapply Forall_impl; [exact Htags|]; by intros t [? _]).
  assert (Htc : Forall (λ t, comma ∉ t) tags) by (eapply Forall_impl; [exact Htags|]; by intros t [_ ?]).
  rewrite !Forall_cons in Hf. destruct Hf as (H1 & H2 & H3 & H4 & H5 & _).
  assert (Hfresh : ∀ p : string, Forall (λ c, code c ≠ 124) (str p) → bar ∉ str p).
  { intros p Hc Hin. rewrite Forall_forall in Hc. by apply (Hc bar Hin). }
  rewrite parse_event; [|by destruct title as [|c title]; [|cbn [eventNewlineEscaper]; case_bool_decide]|done|].
  - rewrite !unescape_escape by done. unfold event_secs. rewrite event_sections_time, event_sections_fields by done.
    by rewrite event_sections_tags.
  - unfold event_secs. rewrite !Forall_app.
    split_and!; try (apply field_sec_bar; [apply Hfresh; by repeat constructor|done]); [|by apply tags_section_bar].
    unfold time_sec. case_match; [constructor|]. repeat constructor. rewrite not_elem_of_app.
    split; [apply Hfresh; by repeat constructor|apply FormatInt_bar].
Qed.

Lemma bars_field buf (p : string) v :
  buf ++ bars (field_sec p v) = match v with [] => buf | _ => buf ++ [bar] ++ str p ++ v end.
Proof. destruct v; unfold bars; cbn [field_sec fmap list_fmap concat]; by rewrite ?app_nil_r. Qed.

Lemma bars_time buf t :
  buf ++ bars (time_sec t) = if IsZero t then buf else buf ++ str "|d:" ++ FormatInt (UnixSeconds t).
Proof. unfold time_sec. destruct (IsZero t); unfold bars; cbn [fmap list_fmap concat]; by rewrite ?app_nil_r. Qed.

Lemma bars_tags buf tags : buf ++ bars (tags_section tags) = writeFormattedTags buf tags.
Proof. destruct tags; unfold bars; cbn [tags_section fmap list_fmap concat]; by rewrite ?app_nil_r. Qed.

(** *** Re-reading a parsed event *)
Lemma Event_String_secs e :
  Event_String e = event_head (eventNewlineEscaper (de_title e)) (eventNewlineEscaper (de_text e))
    ++ bars (event_secs (de_timestamp e) (de_host e) (de_priority e) (de_alert e) (de_key e) (de_source e) (de_tags e)).
Proof.
  unfold event_secs. rewrite !bars_app, !app_assoc, bars_time. unfold Event_String. cbn [write_fields].
  by rewrite !bars_field, bars_tags.
Qed.

Lemma plain_text_cons c d s :
  plain_text (c :: d :: s) = negb (bool_decide (c = byte_of 92) && bool_decide (d = byte_of 110)) && plain_text (d :: s).
Proof. done. Qed.

Lemma unescape_step c d s :
  unescapeEvent (c :: d :: s)
  = if bool_decide (c = byte_of 92) && bool_decide (d = byte_of 110) then newline :: unescapeEvent s
    else c :: unescapeEvent (d :: s).
Proof. done. Qed.

Lemma unescape_plain s : plain_text (unescapeEvent s) = true.
Proof.
  assert (∀ n s, (length s ≤ n)%nat → plain_text (unescapeEvent s) = true
    ∧ (head (unescapeEvent s) = Some (byte_of 110) → head s = Some (byte_of 110))) as Hn; [|by apply (Hn (length s))].
  clear s. induction n as [|n IH]; intros s Hl; [by destruct s; [|simpl in Hl; lia]|].
  destruct s as [|c [|d s]]; [done|done|]. rewrite unescape_step.
  destruct (bool_decide (c = byte_of 92) && bool_decide (d = byte_of 110)) eqn:E.
  - destruct (IH s ltac:(simpl in Hl; lia)) as [Hp _]. split; [|done].
    destruct (unescapeEvent s) as [|x r]; [done|]. by rewrite plain_text_cons, Hp.
  - destruct (IH (d :: s) ltac:(simpl in *; lia)) as [Hp Hh]. split; [|done].
    destruct (unescapeEvent (d :: s)) as [|x r]; [done|]. rewrite plain_text_cons, Hp, andb_true_r.
    apply negb_true_iff. destruct (bool_decide (c = byte_of 92)) eqn:Ec; [|done]. cbn [andb] in *.
    apply bool_decide_eq_false in E. apply bool_decide_eq_false. intros ->. apply E.
    specialize (Hh eq_refl). by injection Hh.
Qed.

Lemma escape_len s : len (eventNewlineEscaper s) ≤ 2 * len s.
Proof.
  unfold len. induction s as [|c s IH]; [done|]. cbn [eventNewlineEscaper]. case_bool_decide; simpl; lia.
Qed.

Lemma unescape_len s : len (unescapeEvent s) ≤ len s ∧ (s ≠ [] → unescapeEvent s ≠ []).
Proof.
  assert (∀ n s, (length s ≤ n)%nat → (length (unescapeEvent s) ≤ length s)%nat) as Hn.
  { clear s. induction n as [|n IH]; intros s Hl; [by destruct s; [|simpl in Hl; lia]|].
    destruct s as [|c [|d s]]; [done|done|]. rewrite unescape_step. case_match.
    - specialize (IH s ltac:(simpl in Hl; lia)). simpl. lia.
    - specialize (IH (d :: s) ltac:(simpl in *; lia)). simpl in *. lia. }
  split; [unfold len; specialize (Hn _ s (le_n _)); lia|].
  destruct s as [|c [|d s]]; [done|done|]. intros _. rewrite unescape_step. by case_match.
Qed.

Definition good_event (e : DogStatsDEvent) : Prop :=
  (de_timestamp e = 0 ∨ (Unix (UnixSeconds (de_timestamp e)) 0 = de_timestamp e ∧ in_i64 (UnixSeconds (de_timestamp e))))
  ∧ Forall (λ f, bar ∉ f) [de_host e; de_priority e; de_alert e; de_key e; de_source e]
  ∧ Forall good_tag (de_tags e).

Lemma UnixSeconds_Unix n : UnixSeconds (Unix n 0) = n.
Proof. unfold UnixSeconds, Unix. replace (unix_epoch + n * 10 ^ 9 + 0 - unix_epoch) with (n * 10 ^ 9) by lia. by apply Z.div_mul. Qed.

Lemma ParseInt_range s n : ParseInt s = Some n → in_i64 n.
Proof.
  unfold ParseInt. destruct (match s with [] => _ | _ => _ end) as [neg body]. destruct body; [done|].
  intros Hp. apply bind_Some in Hp as (v & _ & Hp). unfold in_i64. case_match eqn:E; [|done]. injection Hp as <-. lia.
Qed.

Lemma setField_good e sec e' :
  bar ∉ sec → good_event e → setField e sec = Some e' →
  good_event e' ∧ de_title e' = de_title e ∧ de_text e' = de_text e.
Proof.
  intros Hb (Ht & Hf & Hg) Hs. destruct e as [ti te ts ho pr al ke so ta]. unfold good_event in *. cbn [de_timestamp de_host de_priority de_alert de_key de_source de_tags de_title de_text] in *.
  assert (Hd : ∀ k, bar ∉ drop k sec) by (intros k Hin; apply Hb; by eapply subseteq_drop).
  rewrite !Forall_cons in Hf. destruct Hf as (H1 & H2 & H3 & H4 & H5 & H6). unfold setField in Hs.
  destruct (has_prefix sec (str "d:")).
  { apply bind_Some in Hs as (n & Hp & [= <-]). simpl. split; [|done]. split_and!; [|by repeat constructor|done].
    right. rewrite UnixSeconds_Unix. split; [done|by eapply ParseInt_range]. }
  repeat (match type of Hs with (if has_prefix _ ?p then _ else _) = _ => destruct (has_prefix sec p) end;
          [injection Hs as <-; simpl; split; [|done]; split_and!; [done|by repeat constructor|first [done|by apply splitTags_good]]|]).
  injection Hs as <-. simpl. split; [|done]. split_and!; [done|by repeat constructor|done].
Qed.

Lemma event_sections_good secs e e' :
  Forall (λ p, bar ∉ p) secs → good_event e → event_sections secs e = Some e' →
  good_event e' ∧ de_title e' = de_title e ∧ de_text e' = de_text e.
Proof.
  intros Hf. revert e. induction Hf as [|sec secs Hb _ IH]; intros e Hg Hs; simpl in Hs; [by simplify_eq|].
  apply bind_Some in Hs as (e1 & H1 & Hs). destruct (setField_good _ _ _ Hb Hg H1) as (Hg1 & <- & <-). by apply IH.
Qed.

Lemma cut_len sep s a b : cut sep s = (a, Some b) → (length b ≤ length s)%nat.
Proof.
  revert a b. induction s as [|c s IH]; intros a b E; cbn [cut] in E.
  - case_match; [|done]. injection E as _ <-. rewrite length_drop. simpl. lia.
  - case_match; [injection E as _ <-; rewrite length_drop; simpl; lia|].
    destruct (cut sep s) as [a' [b'|]] eqn:Es; [|done]. injection E as _ <-. specialize (IH _ _ eq_refl). simpl. lia.
Qed.

(** Formatting a parsed event gives a line that parses to the same event, for
    every line (shorter than 2^60 bytes) the parser accepts. *)
Theorem event_reparse line e :
  len line < 2 ^ 60 → parseDogStatsDEvent line = Accepted e → parseDogStatsDEvent (Event_String e) = Accepted e.
Proof.
  intros Hl Hp. unfold parseDogStatsDEvent in Hp. destruct (cut (str "}:") (drop 3 line)) as [header [body|]] eqn:Ec; [|done].
  assert (Hbl : len body ≤ len line).
  { apply cut_len in Ec. rewrite length_drop in Ec. unfold len. lia. }
  destruct (cut_byte comma header) as [tl [xl|]]; [|done].
  destruct (ParseInt tl) as [titleLen|]; [|done]. destruct (ParseInt xl) as [textLen|]; [|done].
  destruct ((titleLen <=? 0) || (textLen <? 0)) eqn:Epos; [done|]. apply orb_false_iff in Epos as [Hp1 Hp2].
  unfold event_body in Hp. destruct (len body <? _); [done|]. destruct (index_at titleLen body) as [c|] eqn:Ei; [|done].
  case_bool_decide; [|done]. unfold slice_at in Hp. destruct (textLen <=? _); [|done].
  destruct (_ || _); [|done].
  destruct (event_sections _ _) as [e0|] eqn:Es; [|done]. injection Hp as ->.
  apply event_sections_good in Es as ((Ht & Hf & Htags) & E1 & E2);
    [|apply split_parts|by split_and!; [left|repeat constructor; apply not_elem_of_nil|constructor]].
  cbn [de_title de_text] in E1, E2.
  set (title := take (Z.to_nat titleLen) body) in *. set (text := take (Z.to_nat textLen) _) in *.
  assert (Htl : len title ≤ len body ∧ len text ≤ len body ∧ title ≠ []).
  { unfold title, text, len. rewrite !length_take, length_drop. split_and!; [lia|lia|].
    unfold index_at in Ei. destruct (Z.ltb_spec titleLen (len body)) as [Hlt|]; [|done].
    intros Hn%(f_equal length). rewrite length_take in Hn. unfold len in Hlt. simpl in Hn. lia. }
  destruct Htl as (Hl1 & Hl2 & Hne). destruct (unescape_len title) as [Hu1 Hu1']. destruct (unescape_len text) as [Hu2 _].
  rewrite Event_String_secs, E1, E2, event_parses; try done.
  - destruct e; simpl in *; subst. f_equal. f_equal. apply filter_all. eapply Forall_impl; [exact Htags|]. by intros t (? & _).
  - auto.
  - apply unescape_plain.
  - apply unescape_plain.
  - pose proof (escape_len (unescapeEvent title)). pose proof (escape_len (unescapeEvent text)). lia.
  - eapply Forall_impl; [exact Htags|]. by intros t (_ & ? & ?).
Qed.

(** *** Serialized events *)
Section serialized_events.
Context `{Attributes}.

Lemma SerializeEvent_secs s e :
  SerializeEvent s e = event_head (eventNewlineEscaper (Title e)) (eventNewlineEscaper (Text e))
    ++ bars (event_secs (EvTimestamp e) (Host e) (EvPriority e) (AlertType e) (AggregationKey e) (SourceTypeName e)
               (surviving s (EvTags e))).
Proof.
  unfold event_secs. rewrite !bars_app, !app_assoc, bars_time. unfold SerializeEvent, writeEventField.
  rewrite writeTags_spec, !bars_field, bars_tags. unfold writeFormattedTags, tag_section.
  destruct (surviving s (EvTags e)); by rewrite ?app_nil_r.
Qed.

(** An event that is serialized parses back to its title, text, time, fields
    and surviving tags: titles and texts may hold any bytes but a backslash
    followed by an n (line feeds and bars included), times are whole seconds, and
    the other fields and tags hold no separator, which the serializer does not
    escape. *)
Theorem event_roundtrip s e :
  Title e ≠ [] → plain_text (Title e) = true → plain_text (Text e) = true → len (Title e) + len (Text e) < 2 ^ 60 →
  EvTimestamp e = 0 ∨ (Unix (UnixSeconds (EvTimestamp e)) 0 = EvTimestamp e ∧ in_i64 (UnixSeconds (EvTimestamp e))) →
  Forall (λ f, bar ∉ f) [Host e; EvPriority e; AlertType e; AggregationKey e; SourceTypeName e] →
  Forall (λ t, (bar ∉ t) ∧ (comma ∉ t)) (surviving s (EvTags e)) →
  parseDogStatsDEvent (SerializeEvent s e)
  = Accepted (mkParsedEvent (Title e) (Text e) (EvTimestamp e) (Host e) (EvPriority e) (AlertType e)
                (AggregationKey e) (SourceTypeName e) (filter (λ t, t ≠ []) (surviving s (EvTags e)))).
Proof.
  intros Hne Hp1 Hp2 Hl Hts Hf Htags. rewrite SerializeEvent_secs. apply event_parses; try done.
  pose proof (escape_len (Title e)). pose proof (escape_len (Text e)).
  pose proof (len_nonneg (Title e)). pose proof (len_nonneg (Text e)). lia.
Qed.
End serialized_events.

(** The header of an event is read back whatever lengths it counts. *)
Lemma parse_event_header tl xl body :
  0 < tl < 2 ^ 63 → 0 ≤ xl < 2 ^ 63 →
  parseDogStatsDEvent (str "_e{" ++ FormatInt tl ++ [comma] ++ FormatInt xl ++ str "}:" ++ body)
  = event_body tl xl body.
Proof.
  intros Ht Hx. pose proof (FormatInt_digits tl ltac:(lia)) as Hd1. pose proof (FormatInt_digits xl ltac:(lia)) as Hd2.
  unfold parseDogStatsDEvent.
  replace (drop 3 (str "_e{" ++ FormatInt tl ++ [comma] ++ FormatInt xl ++ str "}:" ++ body))
    with ((FormatInt tl ++ comma :: FormatInt xl) ++ str "}:" ++ body) by (rewrite <-!app_assoc; done).
  assert (Hcut : cut (str "}:") ((FormatInt tl ++ comma :: FormatInt xl) ++ str "}:" ++ body)
    = (FormatInt tl ++ comma :: FormatInt xl, Some body)).
  { apply cut_first. rewrite not_elem_of_app, not_elem_of_cons. split_and!; [by apply dec_fresh|done|by apply dec_fresh]. }
  rewrite Hcut.
  rewrite cut_byte_app by (by apply dec_fresh). rewrite !ParseInt_FormatInt by (unfold in_i64; lia).
  destruct (Z.leb_spec tl 0); [lia|]. by destruct (Z.ltb_spec xl 0); [lia|].
Qed.

(** C18. The event parser panics on exactly the headers whose length check
    overflows: when the counts of title and text, with the separator between
    them, exceed the largest int, the sum wraps to a negative number and the
    check that the body is long enough passes.  The parser then reads the byte at
    the end of the title: it panics when there is none, and when that byte is the
    separator it panics cutting the text.  With any other counts it never
    panics, however short the body is. *)
Theorem event_length_overflow tl xl body :
  0 < tl < 2 ^ 63 → 0 ≤ xl < 2 ^ 63 → len body < 2 ^ 62 →
  parseDogStatsDEvent (str "_e{" ++ FormatInt tl ++ [comma] ++ FormatInt xl ++ str "}:" ++ body) = Panics
  ↔ 2 ^ 63 ≤ tl + 1 + xl ∧ (len body ≤ tl ∨ body !! Z.to_nat tl = Some bar).
Proof.
  intros Ht Hx Hb. rewrite parse_event_header by done. unfold event_body. rewrite i64_add_l.
  pose proof (len_nonneg body) as Hb0. unfold slice_at.
  assert (Hw : i64 (tl + 1 + xl) = if 2 ^ 63 <=? tl + 1 + xl then tl + 1 + xl - 2 ^ 64 else tl + 1 + xl).
  { destruct (Z.leb_spec (2 ^ 63) (tl + 1 + xl)); [|apply i64_small; lia].
    unfold i64. rewrite (Z.mod_eq _ (2 ^ 64)) by lia.
    replace ((tl + 1 + xl + 2 ^ 63) / 2 ^ 64) with 1; [lia|].
    apply (Z.div_unique_pos _ _ 1 (tl + 1 + xl + 2 ^ 63 - 2 ^ 64)); lia. }
  assert (Hix : ∀ c, tl < len body → body !! Z.to_nat tl = Some c → index_at tl body = Some c).
  { intros c Hl Hc. unfold index_at. rewrite (proj2 (Z.ltb_lt _ _) Hl). exact Hc. }
  rewrite Hw. clear Hw. unfold len in *. rewrite length_drop.
  destruct (Z.leb_spec (2 ^ 63) (tl + 1 + xl)) as [Ho|Ho].
  - destruct (Z.ltb_spec (Z.of_nat (length body)) (tl + 1 + xl - 2 ^ 64)); [lia|].
    destruct (Z.ltb_spec tl (Z.of_nat (length body))) as [Hl|Hl].
    2: { unfold index_at, len. rewrite (proj2 (Z.ltb_ge _ _) Hl). split; [auto|done]. }
    destruct (lookup_lt_is_Some_2 body (Z.to_nat tl)) as [c Hc]; [lia|]. rewrite (Hix c Hl Hc).
    destruct (decide (c = bar)) as [->|Hne].
    + rewrite bool_decide_true by done. destruct (Z.leb_spec xl (Z.of_nat (length body - (Z.to_nat tl + 1)))); [lia|].
      split; [by auto|done].
    + rewrite bool_decide_false by done. split; [done|]. intros [_ [?|?]]; [lia|congruence].
  - split; [|lia]. destruct (Z.ltb_spec (Z.of_nat (length body)) (tl + 1 + xl)); [done|].
    destruct (Z.ltb_spec tl (Z.of_nat (length body))) as [Hl|Hl]; [|lia].
    destruct (lookup_lt_is_Some_2 body (Z.to_nat tl)) as [c Hc]; [lia|]. rewrite (Hix c Hl Hc).
    case_bool_decide; [|done]. destruct (Z.leb_spec xl (Z.of_nat (length body - (Z.to_nat tl + 1)))); [|lia].
    repeat case_match; done.
Qed.

(** ** Concrete lines *)
Lemma event_length_overflow_witness :
  parseDogStatsDEvent (str "_e{9223372036854775807,0}:x|y") = Panics
  ∧ parseDogStatsDEvent (str "_e{1,9223372036854775806}:x|y") = Panics.
Proof.
  split.
  - apply (event_length_overflow 9223372036854775807 0 (str "x|y")); [lia|lia|vm_compute; reflexivity|].
    split; [lia|left; vm_compute; discriminate].
  - apply (event_length_overflow 1 9223372036854775806 (str "x|y")); [lia|lia|vm_compute; reflexivity|].
    split; [lia|right; reflexivity].
Defined.

Lemma metric_reparse_witness :
  let line := str "a.b:1.50|ms|@0.5|c:xx|#a:b,,c" in
  ∃ m, parseDogStatsDMetric line = Some m ∧ parseDogStatsDMetric (Metric_String m) = Some m.
Proof.
  intros line. destruct (parseDogStatsDMetric line) as [m|] eqn:E; [|vm_compute in E; discriminate].
  exists m. split; [reflexivity|]. exact (metric_reparse line m E).
Defined.

Lemma event_reparse_witness :
  let line := str "_e{3,2}:a\n|xy|d:1234567|h:host|#a,b" in
  ∃ e, parseDogStatsDEvent line = Accepted e ∧ parseDogStatsDEvent (Event_String e) = Accepted e.
Proof.
  intros line. destruct (parseDogStatsDEvent line) as [| |e] eqn:E; [vm_compute in E; discriminate..|].
  exists e. split; [reflexivity|]. exact (event_reparse line e ltac:(reflexivity) E).
Defined.

Definition demo_event : @DatadogEvent toy_attributes :=
  mkEvent (str "deploy | done") (str "line") (Unix 1700000000 0) (str "web-1") (str "low") [] [] [] [(str "env", VString (str "prod"))].

Lemma event_roundtrip_witness :
  ∃ e, parseDogStatsDEvent (SerializeEvent (NewDogStatsDSerializer [str "team:core"] []) demo_event) = Accepted e
    ∧ de_title e = str "deploy | done".
Proof.
  eexists. split; [apply event_roundtrip|reflexivity].
  - discriminate.
  - reflexivity.
  - reflexivity.
  - reflexivity.
  - right. split; [reflexivity|split; vm_compute; congruence].
  - repeat constructor; apply (bool_decide_unpack _); vm_compute; exact I.
  - apply (bool_decide_unpack _); vm_compute; exact I.
Defined.
