(* ===== verification/Cardinality.v ===== *)
(** * Tag validation and the cardinality limiter (cardinality.go)

    [validTagKey] and [capTagValue] are the string loops of the source.  The
    limiter keeps, per metric name, the admitted attribute sets and the slots
    reserved by observations that are not recorded yet.  [admit], [commit] and
    [release] are trees of atomic actions: the lock-free lookups, the blocks
    under the per-metric mutex (each one action, since every other access to the
    fields it guards takes the same mutex) and the counter updates. *)

From S2P Require Import Prelude GoLib Atomic Attribute Metric.
#[local] Open Scope prog_scope.

Definition defaultMaxCardinality : Z := 2000.
Definition maxLabelsPerObservation : Z := 10.
Definition maxLabelValueChars : Z := 256.
Definition droppedLabelsMetric : gostring := str "telemetry_dropped_labels_total".

(** ** Tag keys *)
Definition ch (s : string) : ascii := match s with String.String c _ => c | _ => Ascii.zero end.

Definition between (lo hi : ascii) (c : ascii) : bool := (code lo <=? code c) && (code c <=? code hi).
Definition is_letter (c : ascii) : bool :=
  bool_decide (c = ch "_") || between (ch "a") (ch "z") c || between (ch "A") (ch "Z") c.
Definition is_digit (c : ascii) : bool := between (ch "0") (ch "9") c.

(** The loop of validTagKey from byte [i]; [None] is its early return of false. *)
Fixpoint validTagKey_loop (key : gostring) (i segmentStart : Z) : option Z :=
  match key with
  | [] => Some segmentStart
  | c :: rest =>
      if is_letter c then validTagKey_loop rest (i + 1) segmentStart
      else if is_digit c && (segmentStart <? i) then validTagKey_loop rest (i + 1) segmentStart
      else if bool_decide (c = ch ".") && (segmentStart <? i) then validTagKey_loop rest (i + 1) (i + 1)
      else None
  end.

Definition validTagKey (key : gostring) : bool :=
  match validTagKey_loop key 0 0 with
  | None => false
  | Some segmentStart => segmentStart <? len key
  end.

(** [a-zA-Z_][a-zA-Z0-9_]* *)
Definition is_segment (seg : gostring) : bool :=
  match seg with
  | [] => false
  | c :: rest => is_letter c && forallb (λ c, is_letter c || is_digit c) rest
  end.

Lemma is_segment_snoc u c :
  u ≠ [] → is_segment (u ++ [c]) = is_segment u && (is_letter c || is_digit c).
Proof.
  destruct u as [|x u]; [done|intros _]. simpl. rewrite forallb_app. simpl.
  by rewrite andb_true_r, andb_assoc.
Qed.

Lemma is_segment_app_bad u c p : is_letter c = false → is_digit c = false → is_segment (u ++ c :: p) = false.
Proof.
  intros H1 H2. destruct u as [|x u]; simpl; [by rewrite H1|].
  rewrite forallb_app. simpl. rewrite H1, H2. simpl. rewrite !andb_false_r. done.
Qed.

Lemma dot_not_tag : is_letter (ch ".") = false ∧ is_digit (ch ".") = false.
Proof. by vm_compute. Qed.

(** The loop with [u] the part of the current segment already read. *)
Lemma validTagKey_loop_segments key u i ss :
  len u = i - ss → (u = [] ∨ is_segment u = true) →
  match validTagKey_loop key i ss with None => false | Some ss' => ss' <? i + len key end
  = match split_byte (ch ".") key with
    | p :: ps => is_segment (u ++ p) && forallb is_segment ps
    | [] => false
    end.
Proof.
  revert u i ss. induction key as [|c key IH]; intros u i ss Hu Hseg.
  - simpl. rewrite app_nil_r, andb_true_r. change (len []) with 0.
    destruct Hseg as [->|Hseg]; [change (len []) with 0 in Hu; simpl; apply Z.ltb_ge; lia|].
    rewrite Hseg. apply Z.ltb_lt. destruct u; [done|]. unfold len in Hu. simpl in Hu. lia.
  - assert (Hlen : i + len (c :: key) = (i + 1) + len key) by (unfold len; simpl; lia).
    rewrite Hlen. cbn [validTagKey_loop split_byte].
    destruct (split_byte (ch ".") key) as [|p ps] eqn:Es; [by apply split_byte_ne in Es|].
    assert (Hnext : is_letter c || is_digit c = true → (u = [] → is_letter c = true) →
      match validTagKey_loop key (i + 1) ss with None => false | Some ss' => ss' <? i + 1 + len key end
      = is_segment (u ++ c :: p) && forallb is_segment ps).
    { intros Hl Hl'. rewrite (IH (u ++ [c]) (i + 1) ss); [by rewrite <-app_assoc| |].
      - unfold len in *. rewrite length_app. simpl. lia.
      - right. destruct u as [|x u]; [simpl; rewrite Hl' by done; done|].
        rewrite is_segment_snoc, Hl by done. destruct Hseg as [|Hs]; [done|by rewrite Hs]. }
    destruct dot_not_tag as [Hd1 Hd2]. destruct (is_letter c) eqn:E1.
    { rewrite (bool_decide_false (c = _)) by congruence. by apply Hnext. }
    assert (Hpos : (ss <? i) = negb (bool_decide (u = []))).
    { destruct u; unfold len in Hu; simpl in Hu; [apply Z.ltb_ge|apply Z.ltb_lt]; lia. }
    rewrite Hpos. destruct (is_digit c) eqn:E2.
    { rewrite !(bool_decide_false (c = _)) by congruence. case_bool_decide as Hun; cbn [andb negb].
      - subst u. simpl. by rewrite E1.
      - by apply Hnext. }
    cbn [andb]. destruct (decide (c = ch ".")) as [Hd|Hd].
    + rewrite !(bool_decide_true (c = _)) by done. cbn [andb].
      case_bool_decide as Hun; cbn [negb]; [by subst u|].
      rewrite (IH [] (i + 1) (i + 1)) by (try (by left); unfold len; simpl; lia).
      rewrite app_nil_r. destruct Hseg as [|Hs]; [done|]. by rewrite Hs.
    + rewrite !(bool_decide_false (c = _)) by done. by rewrite is_segment_app_bad.
Qed.

(** validTagKey accepts exactly the keys of the documented pattern: one or more
    identifier segments joined by single dots. *)
Theorem validTagKey_pattern key :
  validTagKey key = true ↔
  ∃ segs, segs ≠ [] ∧ Forall (λ seg, is_segment seg = true) segs ∧ key = join (str ".") segs.
Proof.
  pose proof (validTagKey_loop_segments key [] 0 0 eq_refl (or_introl eq_refl)) as H.
  unfold validTagKey. rewrite Z.add_0_l in H. rewrite H.
  assert (Hf : match split_byte (ch ".") key with
    p :: ps => is_segment ([] ++ p) && forallb is_segment ps | [] => false end = true
    ↔ Forall (λ seg, is_segment seg = true) (split_byte (ch ".") key)).
  { destruct (split_byte (ch ".") key) as [|p ps] eqn:Es; [by apply split_byte_ne in Es|].
    simpl. rewrite andb_true_iff, forallb_forall, Forall_cons, Forall_forall.
    by setoid_rewrite list_elem_of_In. }
  rewrite Hf. split.
  - intros Hs. exists (split_byte (ch ".") key).
    split_and!; [apply split_byte_ne|done|symmetry; apply (join_split (ch "."))].
  - intros (segs & Hne & Hs & ->). change (str ".") with [ch "."]. rewrite (split_join (ch ".") segs Hne); [done|].
    eapply Forall_impl; [exact Hs|]. intros seg Hseg Hin. destruct dot_not_tag as [Hd1 Hd2].
    apply list_elem_of_split in Hin as (l1 & l2 & ->).
    by rewrite is_segment_app_bad in Hseg.
Qed.

(** ** Tag values *)

(** The loop of capTagValue over the runes of the value, at byte offset [i];
    it answers where to cut, or [None] when it runs to the end. *)
Fixpoint capTagValue_loop (rs : list gostring) (i chars : Z) : option Z :=
  match rs with
  | [] => None
  | r :: rest => if chars =? maxLabelValueChars then Some i else capTagValue_loop rest (i + len r) (chars + 1)
  end.

Definition capTagValue (value : gostring) : gostring :=
  if (len value <=? maxLabelValueChars) || (rune_count value <=? maxLabelValueChars) then value
  else match capTagValue_loop (runes value) 0 0 with
       | Some i => take (Z.to_nat i) value
       | None => value
       end.

Lemma capTagValue_loop_spec rs i chars :
  0 ≤ chars ≤ maxLabelValueChars → maxLabelValueChars < chars + len rs →
  capTagValue_loop rs i chars
  = Some (i + len (concat (take (Z.to_nat (maxLabelValueChars - chars)) rs))).
Proof.
  revert i chars. induction rs as [|r rs IH]; intros i chars Hc Hl; unfold len in *; simpl in *; [lia|].
  destruct (Z.eqb_spec chars maxLabelValueChars) as [->|Hne].
  - rewrite Z.sub_diag. simpl. f_equal. lia.
  - rewrite IH by lia.
    replace (Z.to_nat (maxLabelValueChars - chars)) with (S (Z.to_nat (maxLabelValueChars - (chars + 1)))) by lia.
    simpl. rewrite length_app. unfold len. f_equal. lia.
Qed.

Lemma take_concat_prefix (l : list gostring) n :
  take (length (concat (take n l))) (concat l) = concat (take n l).
Proof.
  rewrite <-(take_drop n l) at 2. rewrite concat_app. by rewrite take_app_length.
Qed.

(** Truncating a string after its first rune does not change that rune. *)
Lemma rune_width_take s m : (rune_width s ≤ m)%nat → s ≠ [] → rune_width (take m s) = rune_width s.
Proof.
  intros Hm Hs. pose proof (rune_width_bounds s Hs) as [Hb _].
  destruct s as [|c0 s]; [done|]. destruct m as [|m]; [lia|]. revert Hm. simpl take. unfold rune_width.
  destruct (code c0 <? 194); [done|].
  destruct (code c0 <=? 223).
  { destruct s as [|c1 s], m as [|m]; try done; simpl. destruct (continuation c1); [lia|done]. }
  destruct (code c0 <=? 239).
  { destruct s as [|c1 [|c2 s]], m as [|[|m]]; try done; simpl;
      destruct (cont_byte _ _ c1 && continuation c2); try done; lia. }
  destruct (code c0 <=? 244); [|done].
  destruct s as [|c1 [|c2 [|c3 s]]], m as [|[|[|m]]]; try done; simpl;
    destruct (cont_byte _ _ c1 && continuation c2 && continuation c3); try done; lia.
Qed.

Lemma runes_fuel_take n s f f' :
  (length s ≤ f)%nat → (length (concat (take n (runes_fuel f s))) ≤ f')%nat →
  runes_fuel f' (concat (take n (runes_fuel f s))) = take n (runes_fuel f s).
Proof.
  revert n s f'. induction f as [|f IH]; intros n s f' Hf Hf'.
  { destruct n; by destruct f'. }
  destruct s as [|c s]; [destruct n; by destruct f'|]. destruct n as [|n]; [by destruct f'|].
  pose proof (rune_width_bounds (c :: s) ltac:(done)) as Hw. set (w := rune_width (c :: s)) in *.
  change (runes_fuel (S f) (c :: s)) with (take w (c :: s) :: runes_fuel f (drop w (c :: s))) in *.
  cbn [firstn take concat] in *. rewrite length_app in Hf'.
  set (tail := concat (take n (runes_fuel f (drop w (c :: s))))) in *.
  assert (Hlw : length (take w (c :: s)) = w) by (rewrite length_take; lia).
  destruct f' as [|f']; [lia|].
  assert (Htot : ∃ m, take w (c :: s) ++ tail = take m (c :: s) ∧ (w ≤ m)%nat).
  { exists (w + length tail)%nat. split; [|lia].
    rewrite <-take_take_drop. f_equal. unfold tail.
    pose proof (take_concat_prefix (runes_fuel f (drop w (c :: s))) n) as Hp.
    rewrite (runes_fuel_enough f (drop w (c :: s))) in Hp by (rewrite length_drop; simpl in *; lia).
    by rewrite Hp. }
  destruct Htot as (m & Hm & Hwm).
  assert (Hrw : rune_width (take w (c :: s) ++ tail) = w) by (rewrite Hm; by apply rune_width_take).
  destruct (take w (c :: s) ++ tail) as [|x rest] eqn:E.
  { apply (f_equal length) in E. rewrite length_app in E. simpl in E. lia. }
  change (runes_fuel (S f') (x :: rest)) with
    (take (rune_width (x :: rest)) (x :: rest) :: runes_fuel f' (drop (rune_width (x :: rest)) (x :: rest))).
  rewrite Hrw, <-E. rewrite <-Hlw at 1 3. rewrite take_app_length, drop_app_length. f_equal.
  apply IH; [rewrite length_drop; simpl in *; lia|fold tail; lia].
Qed.

Lemma runes_take n s : runes (concat (take n (runes s))) = take n (runes s).
Proof. unfold runes at 1. by apply runes_fuel_take. Qed.

(** capTagValue keeps the first 256 runes: the result is that prefix of the
    value, has at most 256 runes by Go's own count, ends on a rune boundary, and
    equals the value exactly when the value has no more than 256 runes. *)
Theorem capTagValue_spec v :
  capTagValue v = concat (take 256 (runes v))
  ∧ rune_count (capTagValue v) = Z.min 256 (rune_count v)
  ∧ (capTagValue v = v ↔ rune_count v ≤ 256).
Proof.
  assert (H1 : capTagValue v = concat (take 256 (runes v))).
  { unfold capTagValue. pose proof (rune_count_le_len v) as Hle.
    destruct (Z.leb_spec (len v) maxLabelValueChars) as [Hl|Hl], (Z.leb_spec (rune_count v) maxLabelValueChars) as [Hr|Hr];
      simpl; unfold maxLabelValueChars in *; unfold rune_count, len in *;
      try (rewrite take_ge by lia; by rewrite runes_concat); try lia.
    rewrite capTagValue_loop_spec by (unfold len, maxLabelValueChars; lia). change (maxLabelValueChars - 0) with 256.
    rewrite Z.add_0_l. unfold len. rewrite Nat2Z.id.
    rewrite <-(runes_concat v) at 2. by rewrite take_concat_prefix. }
  assert (H2 : rune_count (capTagValue v) = Z.min 256 (rune_count v)).
  { rewrite H1. unfold rune_count, len. rewrite runes_take, length_take. lia. }
  split_and!; try done. split.
  - intros He. rewrite He in H2. lia.
  - intros Hle. rewrite H1. rewrite take_ge; [apply runes_concat|]. unfold rune_count, len in Hle. lia.
Qed.

(** ** The limiter *)
Inductive dropReason := dropLabelLimit | dropSeriesLimit.

Definition dropReasonNames (r : dropReason) : gostring :=
  match r with dropLabelLimit => str "label_limit" | dropSeriesLimit => str "series_limit" end.

Section limiter.
Context `{Attributes}.

Record metricSeries := mkSeries {
  admitted : gset Distinct; count : Z; reserved : gmap Distinct Z }.

Record cardinalityLimiter := mkLimiter {
  metrics : gmap gostring metricSeries;
  pending_label : Z; pending_series : Z; total : Z }.

Definition empty_series : metricSeries := mkSeries ∅ 0 ∅.
Definition empty_limiter : cardinalityLimiter := mkLimiter ∅ 0 0 0.

(** [reserved[key]] of a Go map: zero when absent. *)
Definition slots (s : metricSeries) (key : Distinct) : Z := default 0 (reserved s !! key).

(** An admission: the metric whose series was reserved (nil when it was known),
    the series, and the labels trimmed. *)
Record admission := mkAdmission {
  a_series : option gostring; a_key : Distinct; labelsDropped : Z }.

(** *** The blocks under the mutex of a series *)
Inductive reserve_result := Known | Full | Reserved.

Definition reserve (limit : Z) (key : Distinct) (s : metricSeries) : reserve_result * metricSeries :=
  if decide (key ∈ admitted s) then (Known, s)
  else if slots s key =? 0 then
    if limit <=? count s then (Full, s)
    else (Reserved, mkSeries (admitted s) (i64 (count s + 1)) (<[key := i64 (slots s key + 1)]> (reserved s)))
  else (Reserved, mkSeries (admitted s) (count s) (<[key := i64 (slots s key + 1)]> (reserved s))).

Definition unreserve (key : Distinct) (s : metricSeries) : metricSeries :=
  let n := i64 (slots s key - 1) in
  if n =? 0 then mkSeries (admitted s) (count s) (delete key (reserved s))
  else mkSeries (admitted s) (count s) (<[key := n]> (reserved s)).

Definition commit_block (key : Distinct) (s : metricSeries) : metricSeries :=
  unreserve key (mkSeries ({[key]} ∪ admitted s) (count s) (reserved s)).

Definition release_block (key : Distinct) (s : metricSeries) : metricSeries :=
  let s := unreserve key s in
  if decide (key ∉ admitted s) then
    if slots s key =? 0 then mkSeries (admitted s) (i64 (count s - 1)) (reserved s) else s
  else s.

(** *** Atomic actions *)
Inductive act : Type → Type :=
| LoadOrStore (name : gostring) : act unit
| LoadAdmitted (name : gostring) (key : Distinct) : act bool
| ReserveBlock (name : gostring) (key : Distinct) (limit : Z) : act reserve_result
| CommitBlock (name : gostring) (key : Distinct) : act unit
| ReleaseBlock (name : gostring) (key : Distinct) : act unit
| AddPending (r : dropReason) (n : Z) : act unit
| AddTotal (n : Z) : act unit
| SwapPending (r : dropReason) : act Z.

Definition series_of (l : cardinalityLimiter) (name : gostring) : metricSeries :=
  default empty_series (metrics l !! name).

Definition set_series (l : cardinalityLimiter) (name : gostring) (s : metricSeries) : cardinalityLimiter :=
  mkLimiter (<[name := s]> (metrics l)) (pending_label l) (pending_series l) (total l).

Definition get_pending (l : cardinalityLimiter) (r : dropReason) : Z :=
  match r with dropLabelLimit => pending_label l | dropSeriesLimit => pending_series l end.

Definition set_pending (l : cardinalityLimiter) (r : dropReason) (n : Z) : cardinalityLimiter :=
  match r with
  | dropLabelLimit => mkLimiter (metrics l) n (pending_series l) (total l)
  | dropSeriesLimit => mkLimiter (metrics l) (pending_label l) n (total l)
  end.

Definition handle (B : Type) (e : act B) (l : cardinalityLimiter) : list (B * cardinalityLimiter) :=
  match e in act B return list (B * cardinalityLimiter) with
  | LoadOrStore name => [(tt, set_series l name (series_of l name))]
  | LoadAdmitted name key => [(bool_decide (key ∈ admitted (series_of l name)), l)]
  | ReserveBlock name key limit =>
      let r := reserve limit key (series_of l name) in [(r.1, set_series l name r.2)]
  | CommitBlock name key => [(tt, set_series l name (commit_block key (series_of l name)))]
  | ReleaseBlock name key => [(tt, set_series l name (release_block key (series_of l name)))]
  | AddPending r n => [(tt, set_pending l r (u64 (get_pending l r + n)))]
  | AddTotal n => [(tt, mkLimiter (metrics l) (pending_label l) (pending_series l) (u64 (total l + n)))]
  | SwapPending r => [(get_pending l r, set_pending l r 0)]
  end.

#[local] Notation "'let!' x := e ; k" := (@Act act _ _ e (λ x, k)) : prog_scope.
#[local] Notation "'run!' e ; k" := (@Act act _ _ e (λ _, k)) : prog_scope.

(** *** The methods *)
Definition drop_ (r : dropReason) (n : Z) : prog act unit :=
  run! AddPending r n;
  run! AddTotal n;
  Ret tt.

Fixpoint admitKeys (attrs : list KeyValue) : option error :=
  match attrs with
  | [] => None
  | (k, _) :: rest =>
      if negb (validTagKey k) then Some (ErrWrapAfter (ErrIs ErrInvalidTagKey) k) else admitKeys rest
  end.

Definition cap_value (kv : KeyValue) : KeyValue :=
  if is_string kv.2 then String_kv kv.1 (capTagValue (as_string kv.2)) else kv.

(** The attributes admit writes back, the labels it drops, and the series. *)
Definition admit_attrs (attrs : list KeyValue) : list KeyValue * Z * Distinct :=
  let set := NewSet (cap_value <$> attrs) in
  let extra := len set - maxLabelsPerObservation in
  if 0 <? extra then
    let trimmed := take (Z.to_nat maxLabelsPerObservation) set in
    (trimmed, extra, Equivalent (NewSet trimmed))
  else (set, 0, Equivalent set).

(** admit: the metric as it is left, and the admission or the error. *)
Definition admit_ (m : Metric) (limit : Z) : prog act (Metric * (admission + error)) :=
  match admitKeys (Attributes_ m) with
  | Some err => Ret (m, inr err)
  | None =>
      let '(attrs, extra, key) := admit_attrs (Attributes_ m) in
      let m := with_attrs attrs m in
      let limit := if limit <=? 0 then defaultMaxCardinality else limit in
      run! LoadOrStore (Name m);
      let! known := LoadAdmitted (Name m) key;
      if known then Ret (m, inl (mkAdmission None key extra))
      else
        let! r := ReserveBlock (Name m) key limit;
        match r with
        | Known => Ret (m, inl (mkAdmission None key extra))
        | Full => run@ drop_ dropSeriesLimit 1; Ret (m, inr (ErrIs ErrCardinalityLimit))
        | Reserved => Ret (m, inl (mkAdmission (Some (Name m)) key extra))
        end
  end.

Definition commit (a : admission) : prog act unit :=
  run@ (if 0 <? labelsDropped a then drop_ dropLabelLimit (labelsDropped a) else Ret tt);
  match a_series a with
  | None => Ret tt
  | Some name => run! CommitBlock name (a_key a); Ret tt
  end.

Definition release (a : admission) : prog act unit :=
  match a_series a with
  | None => Ret tt
  | Some name => run! ReleaseBlock name (a_key a); Ret tt
  end.

(** admitAndEnqueue; enqueue touches nothing of the limiter, so its result is an
    argument here. *)
Definition admitAndEnqueue (limit : Z) (enqueue : Metric → option error) (m : Metric) :
    prog act (Metric * option error) :=
  let@ r := admit_ m limit;
  match r with
  | (m, inr err) => Ret (m, Some err)
  | (m, inl a) =>
      match enqueue m with
      | Some err => run@ release a; Ret (m, Some err)
      | None => run@ commit a; Ret (m, None)
      end
  end.

(** The counter observation of one drop reason. *)
Definition drop_counter (now : Z) (r : dropReason) (n : Z) : Metric :=
  mkMetric droppedLabelsMetric MetricTypeCounter (f_of_Z n)
    [String_kv (str "reason") (dropReasonNames r)] now 1 0 0 [] [].

Definition drop_counters (now : Z) (n1 n2 : Z) : list Metric :=
  (if n1 =? 0 then [] else [drop_counter now dropLabelLimit n1])
  ++ (if n2 =? 0 then [] else [drop_counter now dropSeriesLimit n2]).

Definition appendDropCounters (now : Z) (batch : list Metric) : prog act (list Metric) :=
  let! n1 := SwapPending dropLabelLimit;
  let! n2 := SwapPending dropSeriesLimit;
  Ret (batch ++ drop_counters now n1 n2).

(** ** The admitted attributes are canonical *)
Section canonical.
Context `{!AttributesLaws}.
#[local] Set Default Proof Using "Type*".

Lemma capTagValue_idem v : capTagValue (capTagValue v) = capTagValue v.
Proof.
  unfold capTagValue at 1. assert (Hr : rune_count (capTagValue v) ≤ maxLabelValueChars).
  { unfold capTagValue. pose proof (rune_count_le_len v) as Hle.
    destruct (Z.leb_spec (len v) maxLabelValueChars), (Z.leb_spec (rune_count v) maxLabelValueChars);
      simpl; try lia.
    rewrite capTagValue_loop_spec by (unfold rune_count, len, maxLabelValueChars in *; lia).
    rewrite Z.add_0_l. unfold len. rewrite Nat2Z.id. rewrite <-(runes_concat v) at 2.
    rewrite take_concat_prefix. unfold rune_count, len. rewrite runes_take, length_take.
    unfold maxLabelValueChars. lia. }
  destruct (len _ <=? _); [done|]. by rewrite (proj2 (Z.leb_le _ _) Hr).
Qed.

Lemma cap_value_key kv : (cap_value kv).1 = kv.1.
Proof. unfold cap_value. by destruct (is_string kv.2). Qed.

Lemma cap_value_idem kv : cap_value (cap_value kv) = cap_value kv.
Proof.
  unfold cap_value. destruct (is_string kv.2) eqn:E; [|by rewrite E].
  simpl. rewrite is_string_value, as_string_value, capTagValue_idem. done.
Qed.

Lemma last_value_cap k attrs :
  last_value k (cap_value <$> attrs) = (λ v, (cap_value (k, v)).2) <$> last_value k attrs.
Proof.
  induction attrs as [|[k' v] attrs IH]; csimpl; [done|].
  destruct (cap_value (k', v)) as [k2 v2] eqn:E. pose proof (cap_value_key (k', v)) as Hk.
  rewrite E in Hk. simpl in Hk. subst k2. rewrite IH. destruct (last_value k attrs); [done|].
  simpl. case_decide; [subst|done]. simpl. by rewrite E.
Qed.

Lemma set_of_capped attrs kv : kv ∈ NewSet (cap_value <$> attrs) → cap_value kv = kv.
Proof.
  destruct kv as [k v]. rewrite NewSet_last, last_value_cap. destruct (last_value k attrs) as [w|]; [|done].
  simpl. intros [= <-]. pose proof (cap_value_idem (k, w)) as Hi. pose proof (cap_value_key (k, w)) as Hk.
  destruct (cap_value (k, w)) as [k2 v2]. simpl in *. by subst k2.
Qed.

(** admit writes back a canonical attribute list: sorted by key without
    duplicates, at most 10 labels, the last value of every key capped at 256
    characters; the labels dropped are those beyond the tenth; the list depends
    only on the last value given to each key, so permutations and repetitions
    make the same series; and admitting the list again changes nothing. *)
Theorem admit_attrs_canonical attrs attrs' kept extra key :
  admit_attrs attrs = (kept, extra, key) →
  (∀ k, last_value k attrs' = last_value k attrs) →
  StronglySorted gs_lt kept.*1
  ∧ len kept + extra = len (NewSet attrs)
  ∧ len kept ≤ 10 ∧ 0 ≤ extra
  ∧ (∀ k v, (k, v) ∈ kept → ∃ w, last_value k attrs = Some w ∧ v = (cap_value (k, w)).2)
  ∧ key = Equivalent kept
  ∧ admit_attrs attrs' = (kept, extra, key)
  ∧ admit_attrs kept = (kept, 0, key).
Proof.
  intros Ha Hl.
  assert (Hset : NewSet (cap_value <$> attrs') = NewSet (cap_value <$> attrs)).
  { apply NewSet_ext. intros k. by rewrite !last_value_cap, Hl. }
  set (set := NewSet (cap_value <$> attrs)).
  assert (Hs : StronglySorted gs_lt set.*1) by apply NewSet_sorted.
  assert (Hlen : len set = len (NewSet attrs)).
  { unfold len, set. f_equal. rewrite <-!(length_fmap fst). f_equal.
    apply (sorted_keys_eq); [apply NewSet_sorted..|]. intros k. rewrite !NewSet_keys, list_elem_of_fmap.
    rewrite list_elem_of_fmap. split; intros (kv & -> & Hin).
    - apply list_elem_of_fmap in Hin as (kv' & -> & Hin). exists kv'. by rewrite cap_value_key.
    - exists (cap_value kv). rewrite cap_value_key. split; [done|]. by apply list_elem_of_fmap_2. }
  assert (Hfix : ∀ l, l ⊆ set → StronglySorted gs_lt l.*1 → NewSet (cap_value <$> l) = l).
  { intros l Hsub Hsl. assert (Hc : cap_value <$> l = l).
    { rewrite <-(list_fmap_id l) at 2. apply list_fmap_ext. intros i kv Hi.
      apply (set_of_capped attrs). apply Hsub. by eapply list_elem_of_lookup_2. }
    rewrite Hc. by apply NewSet_fixed. }
  unfold admit_attrs in Ha |- *. rewrite Hset. fold set in Ha |- *.
  unfold maxLabelsPerObservation in *. destruct (Z.ltb_spec 0 (len set - 10)) as [Hx|Hx];
    injection Ha as <- <- <-.
  - set (kept := take (Z.to_nat 10) set). assert (Hk : StronglySorted gs_lt kept.*1).
    { unfold kept. rewrite fmap_take. by apply take_sorted. }
    assert (Hkl : len kept = 10) by (unfold kept, len in *; rewrite length_take; lia).
    rewrite (Hfix kept); [|unfold kept; apply subseteq_take|done]. rewrite (NewSet_fixed kept) by done.
    destruct (Z.ltb_spec 0 (len kept - 10)); [lia|].
    split_and!; try done; try lia. intros k v Hin. apply (subseteq_take _ _) in Hin.
    unfold set in Hin. rewrite NewSet_last, last_value_cap in Hin.
    destruct (last_value k attrs) as [w|]; [|done]. simpl in Hin. exists w. split; congruence.
  - rewrite (Hfix set) by done. destruct (Z.ltb_spec 0 (len set - 10)); [lia|].
    split_and!; try done; try lia. intros k v Hin.
    unfold set in Hin. rewrite NewSet_last, last_value_cap in Hin.
    destruct (last_value k attrs) as [w|]; [|done]. simpl in Hin. exists w. split; congruence.
Qed.

End canonical.

(** ** Every interleaving of observations and collections *)
Inductive result :=
| Observed (m : Metric) (err : option error)
| Collected (batch : list Metric).

Inductive op :=
| Observe (enqueue : Metric → option error) (m : Metric)
| Collect (now : Z) (batch : list Metric).

Definition program (limit : Z) (o : op) : prog act result :=
  match o with
  | Observe enqueue m => let@ r := admitAndEnqueue limit enqueue m; Ret (Observed r.1 r.2)
  | Collect now batch => let@ b := appendDropCounters now batch; Ret (Collected b)
  end.

(** What a goroutine has done to the drop counters: the drops it counted but has
    not yet added to the total, those it counted under each reason, and those it
    took away under each reason. *)
Record book := mkBook {
  owed : Z; counted_label : Z; counted_series : Z; moved_label : Z; moved_series : Z }.

Definition counted (r : dropReason) (b : book) : Z :=
  match r with dropLabelLimit => counted_label b | dropSeriesLimit => counted_series b end.
Definition moved (r : dropReason) (b : book) : Z :=
  match r with dropLabelLimit => moved_label b | dropSeriesLimit => moved_series b end.

Definition charge (r : dropReason) (n : Z) (b : book) : book :=
  match r with
  | dropLabelLimit => mkBook (owed b + n) (counted_label b + n) (counted_series b) (moved_label b) (moved_series b)
  | dropSeriesLimit => mkBook (owed b + n) (counted_label b) (counted_series b + n) (moved_label b) (moved_series b)
  end.
Definition pay (n : Z) (b : book) : book :=
  mkBook (owed b - n) (counted_label b) (counted_series b) (moved_label b) (moved_series b).
Definition carry (r : dropReason) (n : Z) (b : book) : book :=
  match r with
  | dropLabelLimit => mkBook (owed b) (counted_label b) (counted_series b) (moved_label b + n) (moved_series b)
  | dropSeriesLimit => mkBook (owed b) (counted_label b) (counted_series b) (moved_label b) (moved_series b + n)
  end.

(** The ghost state of a goroutine: the call it runs, the slot it holds, the series
    it saw admitted, the series it committed, and its book. *)
Record ghost := mkGhost {
  origin : op; hold : option (gostring * Distinct); seen : option (gostring * Distinct);
  committed : option (gostring * Distinct); books : book }.

Definition idle (o : op) : ghost := mkGhost o None None None (mkBook 0 0 0 0 0).

Definition see (nk : gostring * Distinct) (g : ghost) : ghost :=
  mkGhost (origin g) (hold g) (Some nk) (committed g) (books g).
Definition keep (nk : gostring * Distinct) (g : ghost) : ghost :=
  mkGhost (origin g) (Some nk) (seen g) (committed g) (books g).
Definition settle (nk : gostring * Distinct) (g : ghost) : ghost :=
  mkGhost (origin g) None (Some nk) (Some nk) (books g).
Definition give (g : ghost) : ghost := mkGhost (origin g) None (seen g) None (books g).
Definition enter (f : book → book) (g : ghost) : ghost :=
  mkGhost (origin g) (hold g) (seen g) (committed g) (f (books g)).

(** The labels an observation that was recorded lost: those it was given, keys
    repeated counted once, less those of the metric that was recorded. *)
Definition trimmed (o : op) (r : result) : Z :=
  match o, r with
  | Observe _ m, Observed m' None => len (NewSet (Attributes_ m)) - len (Attributes_ m')
  | _, _ => 0
  end.

(** An observation refused because its metric is at the series limit. *)
Definition refused (r : result) : Z :=
  match r with Observed _ (Some (ErrIs ErrCardinalityLimit)) => 1 | _ => 0 end.

(** The enqueue of a call has no cardinality error of its own. *)
Definition plain_enqueue (o : op) : Prop :=
  match o with
  | Observe enqueue _ => ∀ m, enqueue m ≠ Some (ErrIs ErrCardinalityLimit)
  | Collect _ _ => True
  end.

(** The drops, per reason, that a result carries away. *)
Definition carries (o : op) (r : result) (n : Z * Z) : Prop :=
  match o, r with
  | Observe _ _, Observed _ _ => n = (0, 0)
  | Collect now batch, Collected batch' => batch' = batch ++ drop_counters now n.1 n.2
  | _, _ => False
  end.

(** What a result says about the ghost state the goroutine ends in. *)
Definition result_ok (r : result) (g : ghost) : Prop :=
  carries (origin g) r (moved_label (books g), moved_series (books g))
  ∧ counted_label (books g) = trimmed (origin g) r
  ∧ (plain_enqueue (origin g) → counted_series (books g) = refused r)
  ∧ match r with
    | Observed m err =>
        (err = None → seen g = Some (Name m, Equivalent (Attributes_ m)))
        ∧ (∀ nk, committed g = Some nk → err = None ∧ nk = (Name m, Equivalent (Attributes_ m)))
    | Collected batch => committed g = None
    end.

Section invariant.
Context (L : Z) (os : list op).

Fixpoint accounts (p : prog act result) (g : ghost) : Prop :=
  match p with
  | Ret r => hold g = None ∧ owed (books g) = 0 ∧ result_ok r g
  | Act e k =>
      match e in act B return (B → prog act result) → Prop with
      | LoadOrStore _ => λ k, accounts (k tt) g
      | LoadAdmitted name key => λ k, accounts (k false) g ∧ accounts (k true) (see (name, key) g)
      | ReserveBlock name key limit => λ k, hold g = None ∧ limit = L
          ∧ accounts (k Known) (see (name, key) g) ∧ accounts (k Full) g
          ∧ accounts (k Reserved) (keep (name, key) g)
      | CommitBlock name key => λ k, hold g = Some (name, key) ∧ committed g = None
          ∧ accounts (k tt) (settle (name, key) g)
      | ReleaseBlock name key => λ k, hold g = Some (name, key) ∧ committed g = None ∧ accounts (k tt) (give g)
      | AddPending r n => λ k, accounts (k tt) (enter (charge r n) g)
      | AddTotal n => λ k, accounts (k tt) (enter (pay n) g)
      | SwapPending r => λ k, ∀ n, accounts (k n) (enter (carry r n) g)
      end k
  end.

Definition holds (name : gostring) (key : Distinct) (g : ghost) : nat :=
  if decide (hold g = Some (name, key)) then 1 else 0.

(** A series: the reserved counts are the goroutines holding the slot, and [count]
    is the number of series admitted or reserved, within the limit. *)
Record series_ok (s : metricSeries) (h : Distinct → nat) : Prop := mkSeriesOk {
  ok_slots : ∀ k, slots s k = Z.of_nat (h k);
  ok_nonzero : ∀ k n, reserved s !! k = Some n → n ≠ 0;
  ok_count : count s = Z.of_nat (size (admitted s ∪ dom (reserved s)));
  ok_limit : count s ≤ L }.

Lemma slots_dom s h k : series_ok s h → k ∈ dom (reserved s) ↔ (0 < h k)%nat.
Proof.
  intros [Hs Hn _ _]. specialize (Hs k). unfold slots in Hs. rewrite elem_of_dom.
  destruct (reserved s !! k) as [n|] eqn:E; simpl in Hs.
  - pose proof (Hn k n E). split; [lia|]. eauto.
  - split; [intros [? ?]; done|lia].
Qed.

Lemma size_insert_fresh (X : gset Distinct) k : k ∉ X → size ({[k]} ∪ X) = S (size X).
Proof. intros Hk. rewrite size_union by set_solver. by rewrite size_singleton. Qed.

Lemma union_move (X Y : gset Distinct) k : X ∪ ({[k]} ∪ Y) = ({[k]} ∪ X) ∪ Y.
Proof. set_solver. Qed.

Lemma union_absorb (X Y : gset Distinct) k : k ∈ X ∨ k ∈ Y → X ∪ ({[k]} ∪ Y) = X ∪ Y.
Proof. set_solver. Qed.

(** One goroutine more holds the slot of [key]. *)
Definition plus (h : Distinct → nat) (key : Distinct) : Distinct → nat :=
  λ k, if decide (k = key) then S (h k) else h k.

Lemma slots_insert s key n k c :
  slots (mkSeries (admitted s) c (<[key := n]> (reserved s))) k = if decide (k = key) then n else slots s k.
Proof.
  unfold slots. simpl. case_decide as Hk; [subst; by rewrite lookup_insert_eq|].
  by rewrite lookup_insert_ne by congruence.
Qed.

Lemma reserve_ok s h key :
  series_ok s h → Z.of_nat (h key) + 1 < 2 ^ 63 → L < 2 ^ 63 →
  match reserve L key s with
  | (Known, s') => s' = s ∧ key ∈ admitted s
  | (Full, s') => s' = s
  | (Reserved, s') => admitted s' = admitted s ∧ series_ok s' (plus h key)
  end.
Proof.
  intros Hok Hh HL. pose proof (slots_dom s h key Hok) as Hdom. destruct Hok as [Hs Hn Hc Hlim].
  unfold reserve. destruct (decide (key ∈ admitted s)) as [Ha|Ha]; [done|].
  rewrite (Hs key). destruct (Z.eqb_spec (Z.of_nat (h key)) 0) as [E|E].
  - destruct (Z.leb_spec L (count s)) as [Hl|Hl]; [done|]. split; [done|].
    assert (Hfresh : key ∉ admitted s ∪ dom (reserved s)) by (rewrite not_elem_of_union, Hdom; split; [done|lia]).
    split; simpl.
    + intros k. rewrite slots_insert. unfold plus. case_decide; [subst|done]. rewrite i64_small by lia. lia.
    + intros k n Hk. destruct (decide (k = key)) as [->|].
      * rewrite lookup_insert_eq in Hk. injection Hk as <-. rewrite i64_small by lia. lia.
      * rewrite lookup_insert_ne in Hk by congruence. eauto.
    + rewrite dom_insert_L, union_move, <-union_assoc_L. rewrite size_insert_fresh by done. rewrite i64_small by lia. lia.
    + rewrite i64_small by lia. lia.
  - split; [done|]. assert (Hin : key ∈ dom (reserved s)) by (apply Hdom; lia). split; simpl.
    + intros k. rewrite slots_insert. unfold plus. case_decide; [subst|done]. rewrite i64_small by lia. lia.
    + intros k n Hk. destruct (decide (k = key)) as [->|].
      * rewrite lookup_insert_eq in Hk. injection Hk as <-. rewrite i64_small by lia. lia.
      * rewrite lookup_insert_ne in Hk by congruence. eauto.
    + rewrite dom_insert_L, union_absorb by (by right). done.
    + done.
Qed.

Lemma unreserve_ok s h key :
  (∀ k, slots s k = Z.of_nat (plus h key k)) → (∀ k n, reserved s !! k = Some n → n ≠ 0) →
  Z.of_nat (h key) + 1 < 2 ^ 63 →
  (∀ k, slots (unreserve key s) k = Z.of_nat (h k))
  ∧ (∀ k n, reserved (unreserve key s) !! k = Some n → n ≠ 0)
  ∧ admitted (unreserve key s) = admitted s ∧ count (unreserve key s) = count s
  ∧ dom (reserved s) = {[key]} ∪ dom (reserved (unreserve key s))
  ∧ (key ∈ dom (reserved (unreserve key s)) ↔ h key ≠ 0%nat).
Proof.
  intros Hs Hn Hh. pose proof (Hs key) as Hk. unfold plus in Hk. rewrite decide_True in Hk by done.
  assert (Hin : key ∈ dom (reserved s)).
  { apply elem_of_dom. unfold slots in Hk. destruct (reserved s !! key); [eauto|simpl in Hk; lia]. }
  assert (Hother : ∀ k, k ≠ key → slots s k = Z.of_nat (h k)).
  { intros k Hne. rewrite Hs. unfold plus. by rewrite decide_False. }
  unfold unreserve. rewrite Hk, i64_small by lia. destruct (Z.eqb_spec (Z.of_nat (S (h key)) - 1) 0) as [E|E]; simpl.
  - split_and!; try done.
    + intros k. unfold slots. simpl. destruct (decide (k = key)) as [->|Hne].
      * rewrite lookup_delete_eq. simpl. lia.
      * rewrite lookup_delete_ne by congruence. by apply Hother.
    + intros k n. rewrite lookup_delete_Some. intros [_ ?]. eauto.
    + rewrite dom_delete_L. rewrite <-union_difference_L; [done|set_solver].
    + rewrite dom_delete_L. split; [set_solver|lia].
  - split_and!; try done.
    + intros k. rewrite slots_insert. case_decide; [subst; lia|by apply Hother].
    + intros k n Hk'. destruct (decide (k = key)) as [->|].
      * rewrite lookup_insert_eq in Hk'. injection Hk' as <-. lia.
      * rewrite lookup_insert_ne in Hk' by congruence. eauto.
    + rewrite dom_insert_L. set_solver.
    + rewrite dom_insert_L. split; [lia|set_solver].
Qed.

Lemma commit_ok s h key :
  series_ok s (plus h key) → Z.of_nat (h key) + 1 < 2 ^ 63 →
  series_ok (commit_block key s) h ∧ admitted (commit_block key s) = {[key]} ∪ admitted s.
Proof.
  intros [Hs Hn Hc Hl] Hh. unfold commit_block. set (s1 := mkSeries _ _ _).
  destruct (unreserve_ok s1 h key Hs Hn Hh) as (H1 & H2 & H3 & H4 & H5 & _).
  change (reserved s1) with (reserved s) in H5. change (count s1) with (count s) in H4.
  change (admitted s1) with ({[key]} ∪ admitted s) in H3.
  split; [|done]. split; try done; rewrite ?H3, H4; [|done].
  rewrite Hc. do 2 f_equal. rewrite H5. apply union_move.
Qed.

Lemma release_ok s h key :
  series_ok s (plus h key) → Z.of_nat (h key) + 1 < 2 ^ 63 → L < 2 ^ 63 →
  series_ok (release_block key s) h ∧ admitted (release_block key s) = admitted s.
Proof.
  intros [Hs Hn Hc Hl] Hh HL. unfold release_block.
  destruct (unreserve_ok s h key Hs Hn Hh) as (H1 & H2 & H3 & H4 & H5 & H6).
  rewrite H3. destruct (decide (key ∉ admitted s)) as [Ha|Ha].
  - rewrite (H1 key). destruct (Z.eqb_spec (Z.of_nat (h key)) 0) as [E|E].
    + split; [|done].
      assert (Hsz : size (admitted s ∪ dom (reserved s))
                    = S (size (admitted s ∪ dom (reserved (unreserve key s))))).
      { rewrite H5. rewrite <-size_insert_fresh with (k := key);
          [by rewrite union_move, union_assoc_L|]. rewrite not_elem_of_union. split; [done|]. rewrite H6. lia. }
      split; simpl; try done; rewrite ?H3, H4, i64_small by lia; lia.
    + split; [|done]. split; try done; rewrite ?H3, H4; [|done]. rewrite Hc. do 2 f_equal.
      rewrite H5. assert (key ∈ dom (reserved (unreserve key s))) by (apply H6; lia). apply union_absorb. by right.
  - split; [|done]. split; try done; rewrite ?H3, H4; [|done]. rewrite Hc. do 2 f_equal.
    apply dec_stable in Ha. rewrite H5. apply union_absorb. by left.
Qed.

(** The counters agree with the books: under each reason what is pending or was
    taken away is what was counted, and the total is all that was counted except
    what is still owed to it. *)
Definition books_ok (l : cardinalityLimiter) (gs : list ghost) : Prop :=
  (∀ r, u64 (get_pending l r + zsum (λ g, moved r (books g)) gs) = u64 (zsum (λ g, counted r (books g)) gs))
  ∧ u64 (total l + zsum (λ g, owed (books g)) gs)
    = u64 (zsum (λ g, counted_label (books g)) gs + zsum (λ g, counted_series (books g)) gs).

(** The shared invariant. *)
Record limiter_inv (l : cardinalityLimiter) (gs : list ghost) : Prop := mkInv {
  inv_series : ∀ name, series_ok (series_of l name) (λ k, sum_list_with (holds name k) gs);
  inv_seen : ∀ g n k, g ∈ gs → seen g = Some (n, k) → k ∈ admitted (series_of l n);
  inv_committed : ∀ n k, k ∈ admitted (series_of l n) → ∃ g, g ∈ gs ∧ committed g = Some (n, k);
  inv_books : books_ok l gs;
  inv_origin : origin <$> gs = os;
  inv_small : Z.of_nat (length gs) < 2 ^ 63 }.

Lemma series_ok_ext s h h' : (∀ k, h k = h' k) → series_ok s h → series_ok s h'.
Proof. intros He [H1 H2 H3 H4]. split; try done. intros k. by rewrite H1, He. Qed.

Lemma holds_le name k g : (holds name k g ≤ 1)%nat.
Proof. unfold holds. case_decide; lia. Qed.

Lemma holds_same gs i g g' name k :
  gs !! i = Some g → hold g' = hold g →
  sum_list_with (holds name k) (<[i := g']> gs) = sum_list_with (holds name k) gs.
Proof.
  intros Hi Hh. pose proof (sum_list_with_insert (holds name k) gs i g g' Hi) as Hs.
  unfold holds in Hs at 2 4. rewrite Hh in Hs. lia.
Qed.

Lemma holds_take gs i g g' name key n k :
  gs !! i = Some g → hold g = None → hold g' = Some (name, key) →
  sum_list_with (holds n k) (<[i := g']> gs)
  = if decide (n = name) then plus (λ k, sum_list_with (holds name k) gs) key k
    else sum_list_with (holds n k) gs.
Proof.
  intros Hi Hh Hh'. pose proof (sum_list_with_insert (holds n k) gs i g g' Hi) as Hs.
  unfold holds in Hs at 2 4. rewrite Hh, Hh' in Hs. unfold plus.
  repeat case_decide; simplify_eq; try congruence; lia.
Qed.

Lemma holds_drop gs i g g' name key n k :
  gs !! i = Some g → hold g = Some (name, key) → hold g' = None →
  sum_list_with (holds n k) gs
  = if decide (n = name) then plus (λ k, sum_list_with (holds name k) (<[i := g']> gs)) key k
    else sum_list_with (holds n k) (<[i := g']> gs).
Proof.
  intros Hi Hh Hh'. pose proof (sum_list_with_insert (holds n k) gs i g g' Hi) as Hs.
  unfold holds in Hs at 2 4. rewrite Hh, Hh' in Hs. unfold plus.
  repeat case_decide; simplify_eq; try congruence; lia.
Qed.

Lemma series_of_set l name s n :
  series_of (set_series l name s) n = if decide (n = name) then s else series_of l n.
Proof.
  unfold series_of, set_series. simpl. case_decide as Hn; [subst; by rewrite lookup_insert_eq|].
  by rewrite lookup_insert_ne by congruence.
Qed.

Lemma zsum_books (f : book → Z) gs i g g' :
  gs !! i = Some g →
  zsum (λ g, f (books g)) (<[i := g']> gs) = zsum (λ g, f (books g)) gs + (f (books g') - f (books g)).
Proof. intros Hi. pose proof (zsum_insert (λ g, f (books g)) gs i g g' Hi) as Hs. simpl in Hs. lia. Qed.

(** Whoever enters the same drops in its book and in the counters keeps them in
    agreement. *)
Lemma books_step l l' gs i g g' :
  books_ok l gs → gs !! i = Some g →
  (∀ r, u64 (get_pending l' r + (moved r (books g') - moved r (books g)))
        = u64 (get_pending l r + (counted r (books g') - counted r (books g)))) →
  u64 (total l' + (owed (books g') - owed (books g)))
  = u64 (total l + (counted_label (books g') - counted_label (books g))
                 + (counted_series (books g') - counted_series (books g))) →
  books_ok l' (<[i := g']> gs).
Proof.
  intros [Hp Ht] Hi Hpend Htot. split.
  - intros r. rewrite !(zsum_books _ gs i g g' Hi). specialize (Hp r). specialize (Hpend r).
    apply u64_eq_mod in Hp, Hpend. apply u64_eq_mod. destruct Hp as [a Ha], Hpend as [b Hb]. exists (a + b). lia.
  - rewrite !(zsum_books _ gs i g g' Hi).
    apply u64_eq_mod in Ht, Htot. apply u64_eq_mod. destruct Ht as [a Ha], Htot as [b Hb]. exists (a + b). lia.
Qed.

Lemma books_keep l gs i g g' : books_ok l gs → gs !! i = Some g → books g' = books g → books_ok l (<[i := g']> gs).
Proof. intros Hb Hi He. apply (books_step l l gs i g g' Hb Hi); intros; rewrite He; f_equal; lia. Qed.

Lemma origin_keep gs i g g' :
  origin <$> gs = os → gs !! i = Some g → origin g' = origin g → origin <$> <[i := g']> gs = os.
Proof.
  intros <- Hi He. rewrite list_fmap_insert, He. apply list_insert_id. by rewrite list_lookup_fmap, Hi.
Qed.

(** A step that keeps every series and every slot. *)
Lemma limiter_frame l l' gs i g g' :
  limiter_inv l gs → gs !! i = Some g → hold g' = hold g → committed g' = committed g →
  (∀ n, series_of l' n = series_of l n) →
  (∀ n k, seen g' = Some (n, k) → seen g = Some (n, k) ∨ k ∈ admitted (series_of l n)) →
  origin g' = origin g → books_ok l' (<[i := g']> gs) →
  limiter_inv l' (<[i := g']> gs).
Proof.
  intros [H1 H2 H3 H4 H4' H5] Hi Hh Hc Hs Hseen Ho Ht. split.
  - intros name. rewrite Hs. eapply series_ok_ext; [|apply H1]. intros k. by erewrite holds_same.
  - intros x n k Hx. rewrite Hs. destruct (elem_of_list_insert _ _ _ _ _ Hi Hx) as [->|Hx']; [|by apply H2].
    intros Hk. destruct (Hseen n k Hk) as [Hk'|]; [|done].
    apply (H2 g); [by eapply list_elem_of_lookup_2|done].
  - intros n k. rewrite Hs. intros Hk. destruct (H3 n k Hk) as (x & Hx & Hxc).
    destruct (elem_of_list_insert_other _ _ _ g' _ Hi Hx) as [->|Hx']; [|eauto].
    exists g'. split; [by eapply elem_of_list_insert_new|congruence].
  - done.
  - by eapply origin_keep.
  - by rewrite length_insert.
Qed.

(** A step of one series. *)
Lemma inv_series_step l gs i g g' name s :
  limiter_inv l gs → gs !! i = Some g → books g' = books g → origin g' = origin g →
  series_ok s (λ k, sum_list_with (holds name k) (<[i := g']> gs)) →
  (∀ n k, n ≠ name → sum_list_with (holds n k) (<[i := g']> gs) = sum_list_with (holds n k) gs) →
  admitted (series_of l name) ⊆ admitted s →
  (∀ n k, seen g' = Some (n, k) → seen g = Some (n, k) ∨ k ∈ admitted (series_of (set_series l name s) n)) →
  (∀ nk, committed g = Some nk → committed g' = Some nk) →
  (∀ k, k ∈ admitted s → k ∈ admitted (series_of l name) ∨ committed g' = Some (name, k)) →
  limiter_inv (set_series l name s) (<[i := g']> gs).
Proof.
  intros [H1 H2 H3 H4 H4' H5] Hi Hb Ho Hs Hother Hsub Hseen Hcom Hnew.
  assert (Hmono : ∀ n, admitted (series_of l n) ⊆ admitted (series_of (set_series l name s) n)).
  { intros n. rewrite series_of_set. case_decide; [by subst|done]. }
  split.
  - intros n. rewrite series_of_set. case_decide as Hn; [by subst|].
    eapply series_ok_ext; [|apply H1]. intros k. symmetry. by apply Hother.
  - intros x n k Hx Hk. destruct (elem_of_list_insert _ _ _ _ _ Hi Hx) as [->|Hx'].
    + destruct (Hseen n k Hk) as [Hk'|]; [|done]. apply Hmono, (H2 g); [by eapply list_elem_of_lookup_2|done].
    + apply Hmono. eauto.
  - intros n k Hk. assert (Hold : k ∈ admitted (series_of l n) ∨ committed g' = Some (n, k)).
    { rewrite series_of_set in Hk. case_decide as Hn; [subst; auto|auto]. }
    destruct Hold as [Hk'|Hc]; [|exists g'; split; [by eapply elem_of_list_insert_new|done]].
    destruct (H3 n k Hk') as (x & Hx & Hxc).
    destruct (elem_of_list_insert_other _ _ _ g' _ Hi Hx) as [->|Hx']; [|eauto].
    exists g'. split; [by eapply elem_of_list_insert_new|auto].
  - exact (books_keep l gs i g g' H4 Hi Hb).
  - by eapply origin_keep.
  - by rewrite length_insert.
Qed.

Context (HL : 0 < L < 2 ^ 63).

Lemma holds_bound gs name k :
  Z.of_nat (length gs) < 2 ^ 63 → Z.of_nat (sum_list_with (holds name k) gs) < 2 ^ 63.
Proof.
  intros Hs. pose proof (sum_list_with_le_length (holds name k) gs (holds_le name k)). lia.
Qed.

Lemma step_reserve l gs i g name key limit k b l' :
  gs !! i = Some g → accounts (Act (ReserveBlock name key limit) k) g → limiter_inv l gs →
  (b, l') ∈ handle _ (ReserveBlock name key limit) l →
  ∃ g', accounts (k b) g' ∧ limiter_inv l' (<[i := g']> gs).
Proof using HL.
  intros Hi (Hh & -> & Hknown & Hfull & Hres) HI Hin. apply list_elem_of_singleton in Hin as [= -> ->].
  pose proof (inv_small _ _ HI) as Hsm. pose proof (inv_series _ _ HI name) as Hok.
  assert (Hlt' : Z.of_nat (sum_list_with (holds name key) gs) + 1 < 2 ^ 63).
  { pose proof (holds_take gs i g (keep (name, key) g) name key name key Hi Hh eq_refl) as Ht.
    unfold plus in Ht. rewrite !decide_True in Ht by done.
    set (gs' := <[i := _]> gs) in Ht. pose proof (sum_list_with_le_length (holds name key) gs' (holds_le name key)) as Hle.
    unfold gs' in Hle at 2. rewrite length_insert in Hle. lia. }
  pose proof (reserve_ok _ _ key Hok Hlt' ltac:(lia)) as Hr.
  destruct (reserve L key (series_of l name)) as [[| |] s'] eqn:E; cbn [fst snd].
  - destruct Hr as [-> Hin]. eexists. split; [exact Hknown|].
    eapply inv_series_step; try done; simpl.
    + eapply series_ok_ext; [|exact Hok]. intros k'. by erewrite holds_same.
    + intros n k' _. by erewrite holds_same.
    + intros n k' [= -> ->]. right. by rewrite series_of_set, decide_True.
    + auto.
  - subst s'. exists g. split; [exact Hfull|]. eapply inv_series_step; try done.
    + eapply series_ok_ext; [|exact Hok]. intros k'. by rewrite list_insert_id.
    + intros n k' _. by rewrite list_insert_id.
    + auto.
    + auto.
  - destruct Hr as [Ha Hs']. eexists. split; [exact Hres|]. eapply inv_series_step; try done; simpl.
    + eapply series_ok_ext; [|exact Hs']. intros k'. erewrite (holds_take gs i g _ name key) by done.
      by rewrite decide_True.
    + intros n k' Hn. erewrite (holds_take gs i g _ name key) by done. by rewrite decide_False.
    + by rewrite Ha.
    + auto.
    + intros k'. rewrite Ha. auto.
Qed.

Lemma step_give l gs i g name key g' s :
  gs !! i = Some g → hold g = Some (name, key) → hold g' = None → limiter_inv l gs →
  books g' = books g → origin g' = origin g →
  series_ok s (λ k, sum_list_with (holds name k) (<[i := g']> gs)) →
  admitted (series_of l name) ⊆ admitted s →
  (∀ n k, seen g' = Some (n, k) → seen g = Some (n, k) ∨ k ∈ admitted (series_of (set_series l name s) n)) →
  (∀ nk, committed g = Some nk → committed g' = Some nk) →
  (∀ k, k ∈ admitted s → k ∈ admitted (series_of l name) ∨ committed g' = Some (name, k)) →
  limiter_inv (set_series l name s) (<[i := g']> gs).
Proof.
  intros Hi Hh Hh' HI Ho Hm Hs Hsub Hseen Hc Hn. eapply inv_series_step; try done.
  intros n k Hne. rewrite (holds_drop gs i g g' name key n k Hi Hh Hh'). by rewrite decide_False.
Qed.

(** Before it gives its slot back, a goroutine is one of the slot's holders. *)
Lemma held_series_ok l gs i g name key g' :
  gs !! i = Some g → hold g = Some (name, key) → hold g' = None → limiter_inv l gs →
  series_ok (series_of l name) (plus (λ k, sum_list_with (holds name k) (<[i := g']> gs)) key)
  ∧ Z.of_nat (sum_list_with (holds name key) (<[i := g']> gs)) + 1 < 2 ^ 63.
Proof.
  intros Hi Hh Hh' HI. split.
  - refine (series_ok_ext _ _ _ _ (inv_series _ _ HI name)). intros k.
    rewrite (holds_drop gs i g g' name key name k Hi Hh Hh'). by rewrite decide_True.
  - pose proof (holds_drop gs i g g' name key name key Hi Hh Hh') as He. rewrite decide_True in He by done.
    unfold plus in He. rewrite decide_True in He by done.
    pose proof (holds_bound gs name key (inv_small _ _ HI)). lia.
Qed.

Lemma step_counts l l' gs i g f :
  limiter_inv l gs → gs !! i = Some g → metrics l' = metrics l → books_ok l' (<[i := enter f g]> gs) →
  limiter_inv l' (<[i := enter f g]> gs).
Proof.
  intros HI Hi Hm Hb. eapply limiter_frame; try done; [|by auto].
  intros n. unfold series_of. by rewrite Hm.
Qed.

Lemma limiter_step B (e : act B) k g l gs i b l' :
  gs !! i = Some g → accounts (Act e k) g → limiter_inv l gs → (b, l') ∈ handle B e l →
  ∃ g', accounts (k b) g' ∧ limiter_inv l' (<[i := g']> gs).
Proof using HL.
  intros Hi Ha HI Hin. destruct e.
  - simpl in Ha, Hin. apply list_elem_of_singleton in Hin as [= -> ->]. exists g. split; [done|].
    eapply inv_series_step; try done; auto.
    + eapply series_ok_ext; [|apply (inv_series _ _ HI)]. intros k'. by rewrite list_insert_id.
    + intros n k' _. by rewrite list_insert_id.
  - simpl in Hin. apply list_elem_of_singleton in Hin as [= -> ->]. destruct Ha as [Hf Ht].
    case_bool_decide as Hk.
    + eexists. split; [exact Ht|]. eapply limiter_frame; try done; simpl.
      * intros n k' [= -> ->]. by right.
      * by apply (books_keep l gs i g (see (name, key) g) (inv_books _ _ HI)).
    + exists g. split; [done|]. by rewrite list_insert_id.
  - by eapply step_reserve.
  - simpl in Hin. apply list_elem_of_singleton in Hin as [= -> ->]. destruct Ha as (Hh & Hc & Hk).
    eexists. split; [exact Hk|]. set (g' := settle _ _).
    destruct (held_series_ok l gs i g name key g' Hi Hh eq_refl HI) as [Hok Hb].
    destruct (commit_ok _ _ key Hok Hb) as [Hs' Hadm].
    eapply (step_give l gs i g name key g'); try done.
    + rewrite Hadm. set_solver.
    + intros n k' [= -> ->]. right. rewrite series_of_set, decide_True by done. rewrite Hadm. set_solver.
    + intros nk. congruence.
    + intros k'. rewrite Hadm. intros [->%elem_of_singleton|]%elem_of_union; auto.
  - simpl in Hin. apply list_elem_of_singleton in Hin as [= -> ->]. destruct Ha as (Hh & Hc & Hk).
    eexists. split; [exact Hk|]. set (g' := give _).
    destruct (held_series_ok l gs i g name key g' Hi Hh eq_refl HI) as [Hok Hb].
    destruct (release_ok _ _ key Hok Hb ltac:(lia)) as [Hs' Hadm].
    eapply (step_give l gs i g name key g'); try done; auto.
    + by rewrite Hadm.
    + intros nk. congruence.
    + intros k'. rewrite Hadm. auto.
  - simpl in Ha, Hin. apply list_elem_of_singleton in Hin as [= -> ->]. eexists. split; [exact Ha|].
    eapply step_counts; try done; [by destruct r|]. eapply books_step; [apply (inv_books _ _ HI)|done| |].
    + intros r'. destruct r, r'; simpl; rewrite ?u64_add_l; f_equal; lia.
    + destruct r; simpl; f_equal; lia.
  - simpl in Ha, Hin. apply list_elem_of_singleton in Hin as [= -> ->]. eexists. split; [exact Ha|].
    eapply step_counts; try done. eapply books_step; [apply (inv_books _ _ HI)|done| |].
    + intros r'. destruct r'; simpl; f_equal; lia.
    + simpl. rewrite u64_add_l. f_equal. lia.
  - simpl in Ha, Hin. apply list_elem_of_singleton in Hin as [= -> ->]. eexists. split; [apply Ha|].
    eapply step_counts; try done; [by destruct r|]. eapply books_step; [apply (inv_books _ _ HI)|done| |].
    + intros r'. destruct r, r'; simpl; f_equal; lia.
    + destruct r; simpl; f_equal; lia.
Qed.

End invariant.

Definition effective_limit (limit : Z) : Z := if limit <=? 0 then defaultMaxCardinality else limit.

Section theorem.
Context `{!AttributesLaws}.
#[local] Set Default Proof Using "Type*".

Lemma admit_attrs_key attrs kept extra key :
  admit_attrs attrs = (kept, extra, key) → key = Equivalent kept.
Proof.
  unfold admit_attrs. destruct (0 <? _); intros [= <- <- <-]; [|done].
  rewrite NewSet_fixed; [done|]. rewrite fmap_take. apply take_sorted, NewSet_sorted.
Qed.

Lemma admit_attrs_trimmed attrs kept extra key :
  admit_attrs attrs = (kept, extra, key) → 0 ≤ extra ∧ extra = len (NewSet attrs) - len kept.
Proof.
  intros Ha. destruct (admit_attrs_canonical attrs attrs kept extra key Ha (λ _, eq_refl)) as (_ & Hl & _ & Hx & _).
  split; [done|lia].
Qed.

Ltac observed := simpl; split_and!; auto; try lia; try done; try (by intros ? [= <-]).

(** An error enqueue answers is not counted. *)
Lemma refused_enqueue (enqueue : Metric → option error) m err :
  (∀ m, enqueue m ≠ Some (ErrIs ErrCardinalityLimit)) → enqueue m = Some err →
  0 = refused (Observed m (Some err)).
Proof. intros Hp He. destruct err as [e| | | | | | |]; try done. destruct e; try done. by destruct (Hp m). Qed.

Lemma observe_accounts limit enqueue m :
  accounts (effective_limit limit) (program limit (Observe enqueue m)) (idle (Observe enqueue m)).
Proof.
  simpl. unfold admitAndEnqueue, admit_.
  destruct (admitKeys (Attributes_ m)) as [err|] eqn:Ek.
  { simpl. unfold result_ok. simpl. split_and!; try done. intros _. clear -Ek. induction (Attributes_ m) as [|[k v] l IH]; simpl in Ek; [done|].
    destruct (validTagKey k); simpl in Ek; [by apply IH|by injection Ek as <-]. }
  destruct (admit_attrs (Attributes_ m)) as [[kept extra] key] eqn:Ea.
  destruct (admit_attrs_trimmed _ _ _ _ Ea) as [Hx0 Hx].
  apply admit_attrs_key in Ea. subst key. set (m' := with_attrs kept m).
  assert (Hdone : ∀ sr g, origin g = Observe enqueue m → books g = mkBook 0 0 0 0 0 → committed g = None →
    match sr with
    | None => hold g = None ∧ seen g = Some (Name m, Equivalent kept)
    | Some name => hold g = Some (name, Equivalent kept) ∧ name = Name m
    end →
    accounts (effective_limit limit)
      (bind (match enqueue m' with
             | Some err => run@ release (mkAdmission sr (Equivalent kept) extra); Ret (m', Some err)
             | None => run@ commit (mkAdmission sr (Equivalent kept) extra); Ret (m', None)
             end) (λ r, Ret (Observed r.1 r.2))) g).
  { intros sr [o h se c b] Ho Hb Hc Hs. simpl in Ho, Hb, Hc. subst o b c.
    destruct (enqueue m') as [err|] eqn:He; unfold release, commit; simpl.
    - destruct sr as [name|]; simpl in Hs; destruct Hs as [-> ->]; simpl; unfold result_ok; simpl; split_and!; try done;
        intros Hp; by eapply refused_enqueue.
    - destruct (Z.ltb_spec 0 extra) as [Hlt|Hge]; destruct sr as [name|]; simpl in Hs; destruct Hs as [-> ->];
        simpl; unfold result_ok; simpl; split_and!; try done; try lia; by intros ? [= <-]. }
  simpl. split; [|by apply (Hdone None)]. split_and!; try done.
  - by apply (Hdone None).
  - by apply (Hdone (Some (Name m))).
Qed.

Lemma program_accounts limit o : accounts (effective_limit limit) (program limit o) (idle o).
Proof. destruct o as [enq m|now batch]; [apply observe_accounts|]. simpl. intros n1 n2. by split_and!. Qed.

Lemma zsum_idle (f : book → Z) os : f (mkBook 0 0 0 0 0) = 0 → zsum (λ g, f (books g)) (idle <$> os) = 0.
Proof. intros Hf. rewrite zsum_fmap. simpl. rewrite Hf. apply zsum_zero. Qed.

Lemma limiter_start limit os :
  0 < limit → Z.of_nat (length os) < 2 ^ 63 → limiter_inv limit os empty_limiter (idle <$> os).
Proof.
  intros Hl Hn. split.
  - intros name. unfold series_of. simpl. rewrite lookup_empty. simpl. split; simpl.
    + intros k. unfold slots. simpl. rewrite lookup_empty. simpl. clear Hn.
      induction os as [|o os IH]; [done|]. csimpl. by rewrite <-IH.
    + intros k n. by rewrite lookup_empty.
    + by rewrite dom_empty_L, union_empty_l_L, size_empty.
    + lia.
  - intros g n k (o & -> & _)%list_elem_of_fmap. done.
  - intros n k. unfold series_of. simpl. rewrite lookup_empty. simpl. set_solver.
  - split; [intros []|]; simpl; by rewrite !zsum_idle.
  - rewrite <-list_fmap_compose. apply list_fmap_id.
  - by rewrite length_fmap.
Qed.

Lemma limiter_runs limit os c :
  limit < 2 ^ 63 → Z.of_nat (length os) < 2 ^ 63 →
  gsteps handle (λ _ _, False) (program limit <$> os, empty_limiter) c →
  ∃ gs, Forall2 (accounts (effective_limit limit)) c.1 gs ∧ limiter_inv (effective_limit limit) os c.2 gs.
Proof.
  intros Hl Hn Hr. assert (HL : 0 < effective_limit limit < 2 ^ 63).
  { unfold effective_limit, defaultMaxCardinality. destruct (Z.leb_spec limit 0); lia. }
  eapply (pool_invariant handle (λ _ _, False) (accounts _) (limiter_inv _ os)); [| |exact Hr|].
  - intros. by eapply (limiter_step _ os HL).
  - done.
  - exists (idle <$> os). split; [|apply limiter_start; lia].
    simpl. apply Forall2_fmap_2, Forall_Forall2_diag, Forall_true. intros o. apply program_accounts.
Qed.

(** Once every call has returned, the books are the calls' results. *)
Lemma books_of_results limit os rs l gs :
  Forall2 (accounts limit) (Ret <$> rs) gs → limiter_inv limit os l gs →
  ∃ moves, Forall3 carries os rs moves
    ∧ u64 (total l) = u64 (pending_label l + pending_series l + zsum fst moves + zsum snd moves)
    ∧ u64 (pending_label l + zsum fst moves) = u64 (zsum (uncurry trimmed) (zip os rs))
    ∧ (Forall plain_enqueue os → u64 (pending_series l + zsum snd moves) = u64 (zsum refused rs)).
Proof.
  intros HP [_ _ _ [Hp Ht] <- _]. rewrite Forall2_fmap_l in HP.
  exists ((λ g, (moved_label (books g), moved_series (books g))) <$> gs). rewrite !zsum_fmap. simpl.
  assert (Ho : zsum (λ g, owed (books g)) gs = 0).
  { clear -HP. induction HP as [|r g rs gs (_ & Ho & _) _ IH]; [done|]. rewrite zsum_cons. lia. }
  assert (Hl : zsum (λ g, counted_label (books g)) gs = zsum (uncurry trimmed) (zip (origin <$> gs) rs)).
  { clear -HP. induction HP as [|r g rs gs (_ & _ & _ & Hc & _) _ IH]; [done|].
    csimpl. rewrite !zsum_cons. cbn [uncurry]. lia. }
  pose proof (Hp dropLabelLimit) as Hp1. pose proof (Hp dropSeriesLimit) as Hp2. simpl in Hp1, Hp2.
  split_and!.
  - clear -HP. induction HP as [|r g rs gs (_ & _ & Hc & _) _ IH]; [constructor|]. csimpl. by constructor.
  - rewrite Ho, Z.add_0_r in Ht. rewrite Ht. apply u64_eq_mod in Hp1, Hp2. apply u64_eq_mod.
    destruct Hp1 as [a Ha], Hp2 as [b Hb]. exists (- a - b). lia.
  - by rewrite Hp1, Hl.
  - intros Hpl. rewrite Hp2. f_equal. clear -HP Hpl.
    induction HP as [|r g rs gs (_ & _ & _ & _ & Hc & _) _ IH]; [done|].
    csimpl in Hpl. apply Forall_cons in Hpl as [Hpl1 Hpl2]. rewrite !zsum_cons, Hc, IH; done.
Qed.

(** C5. However concurrent observations and drop collections interleave: at every
    moment a metric has at most the limit (2000 when none is set) of admitted
    series.  Once all have returned no slot is left reserved, the count is the
    number of admitted series, and the admitted series are exactly those of the
    observations that were recorded, so a rejected or failed one takes no slot.
    Every drop counted in the total is either still pending or in exactly one
    collected batch.  What is pending or collected under label_limit is the number
    of labels the recorded observations lost, and under series_limit the number of
    observations refused at the series limit (when enqueue itself never answers
    that error), both modulo the counters' 2^64. *)
Theorem limiter_correct limit os ts l :
  limit < 2 ^ 63 → Z.of_nat (length os) < 2 ^ 63 →
  gsteps handle (λ _ _, False) (program limit <$> os, empty_limiter) (ts, l) →
  (∀ name, Z.of_nat (size (admitted (series_of l name))) ≤ effective_limit limit)
  ∧ ∀ rs, ts = Ret <$> rs →
      (∀ name, reserved (series_of l name) = ∅
               ∧ count (series_of l name) = Z.of_nat (size (admitted (series_of l name))))
      ∧ (∀ name key, key ∈ admitted (series_of l name) ↔
           ∃ m, Observed m None ∈ rs ∧ Name m = name ∧ key = Equivalent (Attributes_ m))
      ∧ ∃ moves, Forall3 carries os rs moves
           ∧ u64 (total l) = u64 (pending_label l + pending_series l + zsum fst moves + zsum snd moves)
           ∧ u64 (pending_label l + zsum fst moves) = u64 (zsum (uncurry trimmed) (zip os rs))
           ∧ (Forall plain_enqueue os → u64 (pending_series l + zsum snd moves) = u64 (zsum refused rs)).
Proof.
  intros Hl Hn Hr. destruct (limiter_runs limit os _ Hl Hn Hr) as (gs & HP & HI). simpl in *.
  pose proof HI as [H1 H2 H3 H4 _ H5]. split.
  - intros name. destruct (H1 name) as [_ _ Hc Hlim]. rewrite Hc in Hlim.
    assert (size (admitted (series_of l name)) ≤ size (admitted (series_of l name) ∪ dom (reserved (series_of l name))))%nat;
      [apply subseteq_size; set_solver|lia].
  - intros rs ->. pose proof (books_of_results _ _ _ _ _ HP HI) as Hbooks. rewrite Forall2_fmap_l in HP.
    assert (Hidle : ∀ name k, sum_list_with (holds name k) gs = 0%nat).
    { intros name k. clear -HP. induction HP as [|r g rs gs Ha _ IH]; simpl; [done|].
      destruct Ha as (Hh & _). unfold holds at 1. rewrite Hh, decide_False by done. done. }
    split_and!; [| |done].
    + intros name. destruct (H1 name) as [Hs Hnz Hc _].
      assert (Hre : reserved (series_of l name) = ∅).
      { apply map_empty. intros k. destruct (reserved (series_of l name) !! k) as [n|] eqn:E; [|done].
        pose proof (Hnz k n E). specialize (Hs k). unfold slots in Hs. rewrite E, Hidle in Hs. simpl in Hs. lia. }
      split; [done|]. rewrite Hc, Hre, dom_empty_L. do 2 f_equal. set_solver.
    + intros name key. split.
      * intros Hk. destruct (H3 name key Hk) as (g & Hg & Hc). apply list_elem_of_lookup in Hg as [i Hi].
        destruct (Forall2_lookup_r _ _ _ _ _ HP Hi) as (r & Hri & (_ & _ & (_ & _ & _ & Hok))).
        destruct r as [m err|batch]; [|congruence].
        destruct Hok as (_ & Hcom). destruct (Hcom _ Hc) as [-> [= -> ->]].
        exists m. split_and!; try done. by eapply list_elem_of_lookup_2.
      * intros (m & Hin & <- & ->). apply list_elem_of_lookup in Hin as [i Hi].
        destruct (Forall2_lookup_l _ _ _ _ _ HP Hi) as (g & Hg & (_ & _ & (_ & _ & _ & Hseen & _))).
        apply (H2 g); [by eapply list_elem_of_lookup_2|by apply Hseen].
Qed.

End theorem.

End limiter.

(** ** Concrete attributes *)
Definition kv (k v : string) : gostring * toy_value := (str k, VString (str v)).

Lemma admit_attrs_canonical_witness :
  let attrs := [kv "b" "1"; kv "a" "x"; kv "b" "2"] in
  admit_attrs attrs = ([kv "a" "x"; kv "b" "2"], 0, [kv "a" "x"; kv "b" "2"])
  ∧ admit_attrs [kv "b" "2"; kv "a" "y"; kv "a" "x"] = admit_attrs attrs.
Proof.
  intros attrs. assert (H : admit_attrs attrs = ([kv "a" "x"; kv "b" "2"], 0, [kv "a" "x"; kv "b" "2"])).
  { vm_compute. reflexivity. }
  split; [exact H|]. rewrite H.
  refine (proj1 (proj2 (proj2 (proj2 (proj2 (proj2 (proj2
    (admit_attrs_canonical attrs [kv "b" "2"; kv "a" "y"; kv "a" "x"] _ _ _ H _)))))))).
  intros k. simpl. repeat case_decide; simplify_eq; congruence.
Defined.

Definition obs (name : string) (attrs : list (gostring * toy_value)) : @Metric toy_attributes :=
  mkMetric (str name) MetricTypeCounter f_one attrs 1 1 0 0 [] [].

(** Limit one: the first observation reserves the slot, the second series is
    rejected meanwhile, a third observation of the first series shares the slot
    and fails to enqueue; the collection carries the one drop. *)
Definition demo_ops : list op :=
  [Observe (λ _, None) (obs "m" [kv "a" "1"]); Observe (λ _, None) (obs "m" [kv "a" "2"]);
   Observe (λ _, Some (ErrIs ErrBufferFull)) (obs "m" [kv "a" "1"]); Collect 5 []].

Definition demo_results : list result :=
  [Observed (obs "m" [kv "a" "1"]) None;
   Observed (obs "m" [kv "a" "2"]) (Some (ErrIs ErrCardinalityLimit));
   Observed (obs "m" [kv "a" "1"]) (Some (ErrIs ErrBufferFull));
   Collected [drop_counter 5 dropSeriesLimit 1]].

Definition demo_run : option (list (prog act result) * cardinalityLimiter) :=
  sched handle [0; 0; 0; 2; 2; 2; 1; 1; 1; 1; 1; 2; 0; 3; 3]%nat (program 1 <$> demo_ops, empty_limiter).

Lemma limiter_correct_witness :
  ∃ l, gsteps handle (λ _ _, False) (program 1 <$> demo_ops, empty_limiter) (Ret <$> demo_results, l)
    ∧ count (series_of l (str "m")) = 1
    ∧ ∃ moves, Forall3 carries demo_ops demo_results moves ∧ u64 (pending_series l + zsum snd moves) = 1.
Proof.
  assert (Hts : fst <$> demo_run = Some (Ret <$> demo_results)) 
    by (vm_cast_no_check (eq_refl (Some (Ret <$> demo_results) : option (list (prog act result))))).
  assert (Hsz : (λ c, size (admitted (series_of c.2 (str "m")))) <$> demo_run = Some 1%nat)
    by (vm_compute; reflexivity).
  destruct demo_run as [[ts l]|] eqn:E; [|discriminate].
  cbn [fmap option_fmap option_map fst snd] in Hts, Hsz. injection Hts as ->. injection Hsz as Hsz.
  exists l. assert (H : gsteps handle (λ _ _, False) (program 1 <$> demo_ops, empty_limiter) (Ret <$> demo_results, l))
    by exact (sched_gsteps handle _ _ _ _ E).
  split; [exact H|].
  destruct (limiter_correct 1 demo_ops _ _ ltac:(lia) ltac:(simpl; lia) H) as [_ Hr].
  destruct (Hr demo_results eq_refl) as (Hc & _ & moves & Hm & _ & _ & Hp). split.
  - destruct (Hc (str "m")) as [_ ->]. exact (f_equal Z.of_nat Hsz).
  - exists moves. split; [exact Hm|]. rewrite Hp; [vm_compute; reflexivity|]. repeat constructor; discriminate.
Defined.
