(* ===== verification/Config.v ===== *)
(** * Configuration (models/config.go, models/otlp_config.go, config.go)

    The settings of the client and of its backends, their validation, the resolution
    of the Datadog endpoint and of histogram bounds.  Settings that only the
    transports of the OpenTelemetry libraries look at (TLS, HTTP client, dial options)
    are kept as whether they are set.

    An error message is its text without the formatted arguments; an error made with
    two [%w] is the join of the two. *)

From S2P Require Import Prelude GoLib Strconv Attribute DogStatsD DogStatsDParse Cardinality.

(** ** Strings *)
Definition HasPrefix (s : gostring) (p : string) : bool := has_prefix s (str p).
Definition TrimPrefix (s : gostring) (p : string) : gostring := if HasPrefix s p then drop (length (str p)) s else s.

Fixpoint Contains (s sub : gostring) : bool :=
  has_prefix s sub || match s with [] => false | _ :: s' => Contains s' sub end.

Fixpoint IndexByte (s : gostring) (c : ascii) : option nat :=
  match s with
  | [] => None
  | d :: s' => if bool_decide (d = c) then Some 0%nat else S <$> IndexByte s' c
  end.

Fixpoint LastIndexByte (s : gostring) (c : ascii) : option nat :=
  match s with
  | [] => None
  | d :: s' => match LastIndexByte s' c with
               | Some i => Some (S i)
               | None => if bool_decide (d = c) then Some 0%nat else None
               end
  end.

Definition lbracket : ascii := byte_of 91.
Definition rbracket : ascii := byte_of 93.

(** net.SplitHostPort *)
Definition SplitHostPort (hostport : gostring) : option (gostring * gostring) :=
  i ← LastIndexByte hostport colon;
  '(host, j, k) ←
    (if bool_decide (head hostport = Some lbracket) then
       e ← IndexByte hostport rbracket;
       if Nat.eqb (S e) i then Some (drop 1 (take e hostport), 1%nat, S e) else None
     else
       let host := take i hostport in
       match IndexByte host colon with Some _ => None | None => Some (host, 0%nat, 0%nat) end);
  match IndexByte (drop j hostport) lbracket, IndexByte (drop k hostport) rbracket with
  | None, None => Some (host, drop (S i) hostport)
  | _, _ => None
  end.

(** ** Backends *)
Record CloudWatchConfig := mkCloudWatch {
  cw_Enabled : bool; cw_AgentHost : gostring; cw_AgentPort : Z; cw_Namespace : gostring; cw_Region : gostring }.

Record PrometheusConfig := mkPrometheus {
  pr_Enabled : bool; PushgatewayAddress : gostring; Job : gostring; Instance_ : gostring }.

(** A nil Filters selects the default ones. *)
Record DatadogConfig := mkDatadog {
  dd_Enabled : bool; dd_AgentHost : gostring; dd_AgentPort : Z; Endpoint : gostring; dd_BufferSize : Z;
  dd_Tags : list gostring; UseDistributions : bool; DistributionPrefixes : list gostring; Filters : option (list gostring) }.

Definition DefaultDatadogFilters : list gostring := [str "http_req_path"].

Definition DefaultDatadogUDPBufferSize : Z := 1432.
Definition DefaultDatadogUnixgramBufferSize : Z := 8192.
Definition MaxDatadogBufferSize : Z := 65507.

Record RuntimeMetricsConfig := mkRuntime {
  rm_Enabled : bool; CollectInterval : Z; Prefix : gostring; ProcessMetrics : bool; DelayMetrics : bool }.

Definition DefaultRuntimeMetricsConfig : RuntimeMetricsConfig := mkRuntime false (10 * Second) (str "runtime.go") false false.

(** fmt.Sprintf("%s:%d", host, port) *)
Definition host_port (host : gostring) (port : Z) : gostring := host ++ [colon] ++ FormatInt port.

Definition cw_Address (c : CloudWatchConfig) : gostring := host_port (cw_AgentHost c) (cw_AgentPort c).

Definition empty (s : gostring) : bool := len s =? 0.

Definition ResolveEndpoint (c : DatadogConfig) : (gostring * gostring) + error :=
  if empty (Endpoint c) then inl (str "udp", host_port (dd_AgentHost c) (dd_AgentPort c))
  else if HasPrefix (Endpoint c) "unixgram://" then
    let path := TrimPrefix (Endpoint c) "unixgram://" in
    if (len path <? 2) || negb (bool_decide (head path = Some (byte_of 47)))
    then inr (ErrText (str "datadog: unixgram endpoint needs an absolute path"))
    else inl (str "unixgram", path)
  else if negb (HasPrefix (Endpoint c) "udp://") && Contains (Endpoint c) (str "://")
  then inr (ErrText (str "datadog: unsupported endpoint scheme"))
  else
    let address := if HasPrefix (Endpoint c) "udp://" then TrimPrefix (Endpoint c) "udp://" else Endpoint c in
    match SplitHostPort address with
    | None => inr (ErrText (str "datadog: invalid endpoint"))
    | Some (host, port) =>
        if empty host then inr (ErrText (str "datadog: endpoint has no host"))
        else match ParseInt port with
             | Some n => if (n <=? 0) || (65535 <? n) then inr (ErrText (str "datadog: endpoint has an invalid port"))
                         else inl (str "udp", address)
             | None => inr (ErrText (str "datadog: endpoint has an invalid port"))
             end
    end.

Definition dd_Address (c : DatadogConfig) : gostring :=
  if negb (empty (Endpoint c)) then
    match ResolveEndpoint c with inl (_, address) => address | inr _ => Endpoint c end
  else host_port (dd_AgentHost c) (dd_AgentPort c).

Definition PacketSize (c : DatadogConfig) : Z :=
  if 0 <? dd_BufferSize c then dd_BufferSize c
  else match ResolveEndpoint c with
       | inl (network, _) => if gostring_eqb network (str "unixgram") then DefaultDatadogUnixgramBufferSize else DefaultDatadogUDPBufferSize
       | inr _ => DefaultDatadogUDPBufferSize
       end.

Definition bad_port (p : Z) : bool := (p <=? 0) || (65535 <? p).

Definition cw_Validate (c : CloudWatchConfig) : option error :=
  if empty (cw_AgentHost c) then Some (ErrText (str "cloudwatch: agent host is required"))
  else if bad_port (cw_AgentPort c) then Some (ErrText (str "cloudwatch: invalid agent port"))
  else if empty (cw_Namespace c) then Some (ErrText (str "cloudwatch: namespace is required"))
  else None.

Definition pr_Validate (c : PrometheusConfig) : option error :=
  if empty (PushgatewayAddress c) then Some (ErrText (str "prometheus: pushgateway address is required")) else None.

Definition dd_Validate (c : DatadogConfig) : option error :=
  match
    (if negb (empty (Endpoint c)) then match ResolveEndpoint c with inr err => Some err | inl _ => None end
     else if empty (dd_AgentHost c) then Some (ErrText (str "datadog: agent host is required"))
     else if bad_port (dd_AgentPort c) then Some (ErrText (str "datadog: invalid agent port"))
     else None)
  with
  | Some err => Some err
  | None =>
      if (dd_BufferSize c <? 0) || (MaxDatadogBufferSize <? dd_BufferSize c)
      then Some (ErrText (str "datadog: buffer size out of range")) else None
  end.

Definition rm_ApplyDefaults (c : RuntimeMetricsConfig) : RuntimeMetricsConfig :=
  mkRuntime (rm_Enabled c) (if CollectInterval c <=? 0 then 10 * Second else CollectInterval c)
    (if empty (Prefix c) then str "runtime.go" else Prefix c) (ProcessMetrics c) (DelayMetrics c).

Definition rm_Validate (c : RuntimeMetricsConfig) : option error :=
  if CollectInterval c <=? 0 then Some (ErrText (str "runtime metrics: collect interval must be greater than 0"))
  else if empty (Prefix c) then Some (ErrText (str "runtime metrics: prefix is required"))
  else None.

(** ** Histogram bounds *)
Fixpoint bounds_loop (prev : option float64) (bounds : list float64) : bool :=
  match bounds with
  | [] => true
  | b :: rest =>
      if is_nan b || is_inf b || match prev with Some p => fle b p | None => false end then false
      else bounds_loop (Some b) rest
  end.

Definition ValidateHistogramBuckets (bounds : list float64) : option error :=
  match bounds with
  | [] => Some (ErrText (str "histogram buckets must not be empty"))
  | _ => if bounds_loop None bounds then None else Some (ErrText (str "histogram buckets must be strictly increasing"))
  end.

(** The decimal [m] times ten to the power [- d], as the compiler rounds it. *)
Definition literal (m d : Z) : float64 := dec_to_float false m (- d).

Definition DefaultHistogramBuckets : list float64 :=
  [literal 5 3; literal 1 2; literal 25 3; literal 5 2; literal 1 1; literal 25 2; literal 5 1; literal 1 0; literal 25 1;
   literal 5 0; literal 10 0].

Definition UnprefixedBucketsKey (name : gostring) : gostring := str "*." ++ name.

(** A missing key reads as the empty slice. *)
Definition bounds_of (byName : gmap gostring (list float64)) (key : gostring) : list float64 := default [] (byName !! key).

Fixpoint unprefixed_loop (fuel : nat) (byName : gmap gostring (list float64)) (name : gostring) : list float64 :=
  match bounds_of byName (UnprefixedBucketsKey name), fuel with
  | (_ :: _) as bounds, _ => bounds
  | [], O => []
  | [], S f =>
      match IndexByte name (byte_of 46) with
      | None => []
      | Some i => unprefixed_loop f byName (drop (S i) name)
      end
  end.

(** Every turn drops a separator from the name. *)
Definition unprefixedBuckets (byName : gmap gostring (list float64)) (name : gostring) : list float64 :=
  unprefixed_loop (length name) byName name.

Definition NamedBuckets (byName : gmap gostring (list float64)) (name : gostring) : option (list float64) :=
  match bounds_of byName name with
  | (_ :: _) as bounds => Some bounds
  | [] => match unprefixedBuckets byName name with
          | (_ :: _) as bounds => Some bounds
          | [] => None
          end
  end.

Definition BucketsFor (byName : gmap gostring (list float64)) (global : list float64) (name : gostring) : list float64 :=
  match NamedBuckets byName name with
  | Some bounds => bounds
  | None => match global with _ :: _ => global | [] => DefaultHistogramBuckets end
  end.

(** ** OTLP *)
Record OTLPExponentialHistogram := mkExponential { eh_MaxSize : Z; eh_MaxScale : Z }.

Definition DefaultExponentialHistogramMaxSize : Z := 160.
Definition DefaultExponentialHistogramMaxScale : Z := 20.

Definition Resolved (h : OTLPExponentialHistogram) : OTLPExponentialHistogram :=
  mkExponential (if eh_MaxSize h =? 0 then DefaultExponentialHistogramMaxSize else eh_MaxSize h)
    (if eh_MaxScale h =? 0 then DefaultExponentialHistogramMaxScale else eh_MaxScale h).

Definition eh_Validate (h : OTLPExponentialHistogram) : option error :=
  let resolved := Resolved h in
  if eh_MaxSize resolved <? 2 then Some (ErrText (str "exponential histogram max size is less than 2"))
  else if (eh_MaxScale resolved <? -10) || (20 <? eh_MaxScale resolved)
  then Some (ErrText (str "exponential histogram max scale is outside [-10, 20]"))
  else None.

Record OTLPRetry := mkRetry { InitialInterval : Z; MaxInterval : Z; MaxElapsedTime : Z }.

Definition retry_Validate (r : OTLPRetry) : option error :=
  if InitialInterval r <=? 0 then Some (ErrText (str "retry initial interval must be positive"))
  else if MaxInterval r <? InitialInterval r then Some (ErrText (str "retry max interval must not be less than the initial interval"))
  else if MaxElapsedTime r <=? 0 then Some (ErrText (str "retry max elapsed time must be positive"))
  else None.

Section config.
Context `{Attributes}.

(** A TLS configuration, an HTTP client and a gRPC dial option are named by a number. *)
Record OTLPConfig := mkOTLP {
  o_Enabled : bool; o_Endpoint : gostring; o_Insecure : bool; o_Headers : gmap gostring gostring;
  o_ServiceName : gostring; o_DeploymentEnvironment : gostring; o_ServiceVersion : gostring;
  o_ResourceAttributes : list KeyValue; o_ResourceSchemaURL : gostring; o_Temporality : gostring;
  o_Protocol : gostring; o_Compression : gostring; o_ExportTimeout : Z;
  o_HistogramBuckets : option (list float64); o_BucketsByName : gmap gostring (list float64);
  o_Retry : option OTLPRetry; o_ExponentialHistogram : option OTLPExponentialHistogram; o_TLSConfig : option nat;
  o_CAFile : gostring; o_ClientCertFile : gostring; o_ClientKeyFile : gostring;
  o_DisableResourceDetection : bool; o_HTTPClient : option nat; o_GRPCDialOptions : option (list nat) }.

Definition OTLPProtocolGRPC : gostring := str "grpc".
Definition OTLPProtocolHTTP : gostring := str "http".
Definition Cumulative : gostring := str "cumulative".
Definition Delta : gostring := str "delta".

Definition one_of (s : gostring) (l : list gostring) : bool := bool_decide (s ∈ l).

(** The loops over maps stop at some invalid entry. *)
Definition invalid_bounds (byName : gmap gostring (list float64)) : option error :=
  head (omap (λ kv : gostring * list float64, ValidateHistogramBuckets kv.2) (map_to_list byName)).

(** The first check that fails. *)
Fixpoint first_error (checks : list (option error)) : option error :=
  match checks with
  | [] => None
  | Some err :: _ => Some err
  | None :: rest => first_error rest
  end.

Definition check (bad : bool) (msg : string) : option error := if bad then Some (ErrText (str msg)) else None.

Definition validateHistograms (c : OTLPConfig) : option error :=
  first_error
    [match o_HistogramBuckets c with Some bounds => ValidateHistogramBuckets bounds | None => None end;
     wrap "histogram buckets" (invalid_bounds (o_BucketsByName c));
     match o_ExponentialHistogram c with Some h => eh_Validate h | None => None end].

Definition otlp_Validate (c : OTLPConfig) : option error :=
  match
    first_error
      [check (negb (one_of (o_Temporality c) [[]; Cumulative; Delta])) "unsupported temporality";
       check (negb (one_of (o_Compression c) [[]; str "gzip"; str "none"])) "unsupported compression";
       check (o_ExportTimeout c <? 0) "export timeout must not be negative";
       validateHistograms c;
       match o_Retry c with Some r => retry_Validate r | None => None end]
  with
  | Some err => Some err
  | None =>
      if negb (o_Enabled c) then None
      else
        first_error
          [check (negb (Bool.eqb (empty (o_ClientCertFile c)) (empty (o_ClientKeyFile c)))) "client certificate and client key must be set together";
           check (bool_decide (is_Some (o_HTTPClient c)) && negb (gostring_eqb (o_Protocol c) OTLPProtocolHTTP)) "HTTPClient requires the http protocol";
           check ((0 <? len (default [] (o_GRPCDialOptions c))) && gostring_eqb (o_Protocol c) OTLPProtocolHTTP) "GRPCDialOptions requires the grpc protocol";
           check (empty (o_Endpoint c)) "endpoint is required";
           check (negb (one_of (o_Protocol c) [[]; OTLPProtocolGRPC; OTLPProtocolHTTP])) "unsupported protocol"]
  end.

(** ** The client's configuration *)
Inductive DropStrategy := DropNewest | DropOldest.

(** OTLPOverrides: a setting is [None] until an option states it. *)
Record OTLPOverrides := mkOverrides {
  ov_Endpoint : option gostring; ov_Insecure : option bool; ov_Headers : option (gmap gostring gostring);
  ov_Timeout : option Z; ov_Compression : option gostring; ov_Protocol : option gostring; ov_Temporality : option gostring;
  ov_CAFile : option gostring; ov_ClientCertFile : option gostring; ov_ClientKeyFile : option gostring }.

(** A custom exporter is its name; a nil one is [None]. *)
Record Config := mkConfig {
  ServiceName : gostring; Environment : gostring; BufferSize : Z; Workers : Z; FlushInterval : Z; FlushIntervalSet : bool;
  UDPTimeout : Z; MaxMemoryBytes : Z; MaxCardinality : Z; Strategy : DropStrategy; AdaptiveBatching : bool;
  HistogramBucketsByName : gmap gostring (list float64); RateLimitPerSecond : float64; RateLimitBurst : Z;
  CloudWatch : option CloudWatchConfig; Prometheus : option PrometheusConfig; Datadog : option DatadogConfig;
  OTLP : option OTLPConfig; Overrides : OTLPOverrides; RuntimeMetrics : option RuntimeMetricsConfig;
  Exporters : list (option gostring); VersionReporting : option bool }.

Definition no_overrides : OTLPOverrides := mkOverrides None None None None None None None None None None.

Definition DefaultConfig : Config :=
  mkConfig (str "unknown-service") (str "development") 16384 4 (100 * Millisecond) false (100 * Millisecond)
    (10 * 1024 * 1024) defaultMaxCardinality DropNewest false ∅ f_zero 0 None None None None no_overrides None [] None.

(** fmt.Errorf("%w: msg", ErrInvalidConfig) and fmt.Errorf("%w: prefix: %w", ErrInvalidConfig, err) *)
Definition invalid (msg : string) : error := ErrWrapAfter (ErrIs ErrInvalidConfig) (str msg).
Definition invalid_wrap (prefix : string) (err : error) : error := ErrJoin [ErrIs ErrInvalidConfig; ErrWrap (str prefix) err].

Definition check_invalid (bad : bool) (msg : string) : option error := if bad then Some (invalid msg) else None.

(** Validation of an optional backend, when it is enabled. *)
Definition when_enabled {A} (c : option A) (enabled : A → bool) (validate : A → option error) : option error :=
  match c with Some a => if enabled a then validate a else None | None => None end.

Definition validateOTLPConfig (o : option OTLPConfig) : option error :=
  match o with
  | None => None
  | Some o =>
      first_error
        [invalid_wrap "otlp config" <$> (match o_ExponentialHistogram o with Some h => eh_Validate h | None => None end);
         if o_Enabled o || (match o_HistogramBuckets o with Some _ => true | None => false end)
            || bool_decide (o_BucketsByName o ≠ ∅) || negb (empty (o_Temporality o))
            || negb (len (o_ResourceAttributes o) =? 0) || (match o_Retry o with Some _ => true | None => false end)
         then wrap "otlp config" (otlp_Validate o) else None]
  end.

Definition is_enabled {A} (enabled : A → bool) (c : option A) : bool := match c with Some a => enabled a | None => false end.

(** The names of the enabled built-in exporters. *)
Definition builtin_names (c : Config) : list gostring :=
  (if is_enabled dd_Enabled (Datadog c) then [str "datadog"] else [])
  ++ (if is_enabled pr_Enabled (Prometheus c) then [str "prometheus"] else [])
  ++ (if is_enabled cw_Enabled (CloudWatch c) then [str "cloudwatch"] else [])
  ++ (if is_enabled o_Enabled (OTLP c) then [str "otlp"] else []).

Fixpoint custom_loop (es : list (option gostring)) (seen : gset gostring) : option error :=
  match es with
  | [] => None
  | None :: _ => Some (invalid "custom exporter is nil")
  | Some name :: rest =>
      if bool_decide (name ∈ seen) then Some (invalid "duplicate exporter name")
      else custom_loop rest ({[name]} ∪ seen)
  end.

Definition validateCustomExporters (c : Config) : option error :=
  match Exporters c with
  | [] => None
  | es => custom_loop es (list_to_set (builtin_names c))
  end.

Definition ValidateConfig (c : Config) : option error :=
  first_error
    [check_invalid (empty (ServiceName c)) "service name is required";
     check_invalid (BufferSize c <=? 0) "buffer size must be positive";
     check_invalid (Workers c <=? 0) "workers must be positive";
     check_invalid (FlushInterval c <=? 0) "flush interval must be positive";
     check_invalid (MaxMemoryBytes c <=? 0) "max memory bytes must be positive";
     check_invalid (MaxCardinality c <? 0) "max cardinality must not be negative";
     wrap "cloudwatch config" (when_enabled (CloudWatch c) cw_Enabled cw_Validate);
     wrap "prometheus config" (when_enabled (Prometheus c) pr_Enabled pr_Validate);
     invalid_wrap "datadog config" <$> when_enabled (Datadog c) dd_Enabled dd_Validate;
     validateOTLPConfig (OTLP c);
     invalid_wrap "histogram buckets" <$> invalid_bounds (HistogramBucketsByName c);
     wrap "runtime metrics config" (when_enabled (RuntimeMetrics c) rm_Enabled rm_Validate);
     validateCustomExporters c].
End config.

(** ** Histogram bounds, resolved *)

(** The name, and what follows each of its dots, longest first. *)
Fixpoint tails {A} (l : list A) : list (list A) :=
  match l with
  | [] => []
  | x :: l' => l :: tails l'
  end.

Definition dotted_suffixes (name : gostring) : list gostring := join [byte_of 46] <$> tails (split_byte (byte_of 46) name).

Definition unprefixed_entry (byName : gmap gostring (list float64)) (name : gostring) : list float64 :=
  bounds_of byName (UnprefixedBucketsKey name).

Fixpoint first_bounds (candidates : list (list float64)) : list float64 :=
  match candidates with
  | [] => []
  | [] :: rest => first_bounds rest
  | bounds :: _ => bounds
  end.

Lemma IndexByte_cut s c :
  match IndexByte s c with
  | Some i => cut_byte c s = (take i s, Some (drop (S i) s)) ∧ (i < length s)%nat
  | None => cut_byte c s = (s, None)
  end.
Proof.
  induction s as [|d s IH]; simpl; [done|]. case_bool_decide as Hd.
  - split; [by rewrite drop_0|lia].
  - destruct (IndexByte s c) as [i|]; simpl; [destruct IH as [-> ?]; split; [done|lia]|by rewrite IH].
Qed.

Lemma split_cut sep s a b : cut_byte sep s = (a, Some b) → split_byte sep s = a :: split_byte sep b.
Proof. intros Hc. apply cut_byte_some in Hc as [-> Ha]. by apply split_byte_app. Qed.

Lemma dotted_suffixes_cut name a b :
  cut_byte (byte_of 46) name = (a, Some b) → dotted_suffixes name = name :: dotted_suffixes b.
Proof.
  intros Hc. unfold dotted_suffixes. rewrite (split_cut _ _ _ _ Hc). cbn [tails fmap list_fmap]. f_equal.
  rewrite <-(split_cut _ _ _ _ Hc). apply join_split.
Qed.

Lemma dotted_suffixes_last name : cut_byte (byte_of 46) name = (name, None) → dotted_suffixes name = [name].
Proof. intros Hc. unfold dotted_suffixes. apply cut_byte_none in Hc as [_ Hf]. by rewrite split_byte_fresh. Qed.

Lemma unprefixed_loop_spec fuel byName name :
  (length name ≤ fuel)%nat →
  unprefixed_loop fuel byName name = first_bounds (unprefixed_entry byName <$> dotted_suffixes name).
Proof.
  revert name. induction fuel as [|fuel IH]; intros name Hf; pose proof (IndexByte_cut name (byte_of 46)) as Hi.
  - destruct name; [|simpl in Hf; lia]. rewrite dotted_suffixes_last by done. cbn [unprefixed_loop fmap list_fmap first_bounds]. unfold unprefixed_entry. by destruct (bounds_of byName (UnprefixedBucketsKey [])).
  - cbn [unprefixed_loop]. destruct (IndexByte name (byte_of 46)) as [i|].
    + destruct Hi as [Hc Hl]. rewrite (dotted_suffixes_cut _ _ _ Hc). rewrite fmap_cons. cbn [first_bounds].
      change (unprefixed_entry byName name) with (bounds_of byName (UnprefixedBucketsKey name)).
      destruct (bounds_of byName (UnprefixedBucketsKey name)); [|done]. apply IH. rewrite length_drop. lia.
    + rewrite (dotted_suffixes_last _ Hi). cbn [fmap list_fmap first_bounds]. unfold unprefixed_entry. by destruct (bounds_of byName (UnprefixedBucketsKey name)).
Qed.

(** The bounds of a histogram are those of the longest match: its own entry;
    else the unprefixed entry of the name or of what follows one of its dots, trying
    the longest first; else the global bounds, else the defaults.  The loop over the suffixes always ends.
    And if every registered list is valid (not empty, finite, strictly increasing), so is the
    answer. *)
Theorem buckets_for_spec byName global name :
  BucketsFor byName global name
  = match first_bounds (bounds_of byName name :: (unprefixed_entry byName <$> dotted_suffixes name) ++ [global]) with
    | [] => DefaultHistogramBuckets
    | bounds => bounds
    end
  ∧ (map_Forall (λ _ b, ValidateHistogramBuckets b = None) byName → (global = [] ∨ ValidateHistogramBuckets global = None) →
     ValidateHistogramBuckets (BucketsFor byName global name) = None).
Proof.
  assert (Hname : NamedBuckets byName name
    = match first_bounds (bounds_of byName name :: (unprefixed_entry byName <$> dotted_suffixes name)) with
      | [] => None | bounds => Some bounds end).
  { unfold NamedBuckets, unprefixedBuckets. rewrite unprefixed_loop_spec by done. simpl. by destruct (bounds_of byName name). }
  assert (Happ : ∀ l g, first_bounds (l ++ [g]) = match first_bounds l with [] => g | b => b end).
  { intros l g. induction l as [|[|x b] l IH]; [by destruct g|exact IH|done]. }
  split.
  - unfold BucketsFor. rewrite Hname, app_comm_cons, Happ. destruct (first_bounds _); [|done]. by destruct global.
  - intros Hv Hg. unfold BucketsFor. rewrite Hname.
    assert (Hf : ∀ l, Forall (λ b, b = [] ∨ ValidateHistogramBuckets b = None) l →
      first_bounds l = [] ∨ ValidateHistogramBuckets (first_bounds l) = None).
    { induction 1 as [|b l Hb _ IH]; [by left|]. destruct b; [exact IH|]. right. by destruct Hb. }
    assert (Hof : ∀ k, bounds_of byName k = [] ∨ ValidateHistogramBuckets (bounds_of byName k) = None).
    { intros k. unfold bounds_of. destruct (byName !! k) as [b|] eqn:Ek; [right; by apply (Hv k)|by left]. }
    destruct (Hf (bounds_of byName name :: (unprefixed_entry byName <$> dotted_suffixes name))) as [->|Hr].
    + constructor; [apply Hof|]. apply Forall_fmap, Forall_true. intros s. apply Hof.
    + destruct global; [vm_compute; reflexivity|]. by destruct Hg.
    + destruct (first_bounds _); [done|exact Hr].
Qed.

(** ** Endpoints *)
Lemma LastIndexByte_app a c b : c ∉ b → LastIndexByte (a ++ c :: b) c = Some (length a).
Proof.
  intros Hb. assert (Hn : LastIndexByte b c = None).
  { clear a. induction b as [|d b IH]; [done|]. rewrite not_elem_of_cons in Hb. destruct Hb as [Hd Hb]. simpl.
    rewrite (IH Hb). by rewrite bool_decide_false by congruence. }
  induction a as [|d a IH]; simpl; [rewrite Hn; by rewrite bool_decide_true|by rewrite IH].
Qed.

Lemma IndexByte_fresh s c : c ∉ s → IndexByte s c = None.
Proof.
  induction s as [|d s IH]; [done|]. rewrite not_elem_of_cons. intros [Hd Hs]. simpl.
  rewrite bool_decide_false by congruence. by rewrite IH.
Qed.

(** A host name or an IPv4 address: no colon, no bracket. *)
Definition plain_host (h : gostring) : Prop := h ≠ [] ∧ (colon ∉ h) ∧ (lbracket ∉ h) ∧ (rbracket ∉ h).

Definition is_port (p : Z) : Prop := 0 < p ≤ 65535.

Lemma port_fresh p c : is_port p → is_dec c = false → c ∉ FormatInt p.
Proof. intros Hp Hc. apply dec_fresh; [done|]. apply FormatInt_digits. unfold is_port in Hp. lia. Qed.

Lemma SplitHostPort_host_port h p : plain_host h → is_port p → SplitHostPort (host_port h p) = Some (h, FormatInt p).
Proof.
  intros (Hne & Hc & Hl & Hr) Hp. unfold SplitHostPort, host_port.
  change (h ++ [colon] ++ FormatInt p) with (h ++ colon :: FormatInt p).
  rewrite LastIndexByte_app by (by apply port_fresh). cbn [mbind option_bind].
  rewrite bool_decide_false; [|destruct h; [done|]; simpl; intros [= ->]; apply Hl; apply elem_of_cons; by left].
  rewrite take_app_length, (IndexByte_fresh h) by done. cbn [mbind option_bind]. rewrite !drop_0.
  assert (Hfresh : ∀ c, c ∉ h → c ≠ colon → is_dec c = false → c ∉ h ++ colon :: FormatInt p).
  { intros c H1 H2 H3. rewrite not_elem_of_app, not_elem_of_cons. split_and!; try done. by apply port_fresh. }
  rewrite !IndexByte_fresh by (by apply Hfresh). do 2 f_equal.
  rewrite drop_app_ge by lia. replace (S (length h) - length h)%nat with 1%nat by lia. done.
Qed.

(** "host:port" has no scheme. *)
Lemma host_port_scheme h p (s : gostring) :
  colon ∉ h → is_port p → has_prefix (host_port h p) (s ++ str "://") = false.
Proof.
  intros Hc Hp. destruct (has_prefix _ _) eqn:E; [|done]. exfalso. apply has_prefix_spec in E as [r Hr].
  unfold host_port in Hr. rewrite <-app_assoc in Hr.
  change (h ++ [colon] ++ FormatInt p) with (h ++ colon :: FormatInt p) in Hr.
  change (s ++ str "://" ++ r) with (s ++ colon :: (str "//" ++ r)) in Hr.
  assert (Hd : is_dec (byte_of 47) = false) by done. apply (port_fresh p _ Hp) in Hd. apply Hd. clear Hd.
  assert (Hp' : ∀ a b x y, colon ∉ a → a ++ colon :: x = b ++ colon :: y → ∃ z, x = z ++ y).
  { clear. induction a as [|c a IH]; intros [|d b] x y Ha Heq; simplify_eq/=.
    - by exists [].
    - exists (b ++ [colon]). by rewrite <-app_assoc.
    - exfalso. apply Ha. apply elem_of_cons. by left.
    - eapply IH; [|done]. intros Hin. apply Ha. apply elem_of_cons. by right. }
  destruct (Hp' _ _ _ _ Hc Hr) as [z ->]. apply elem_of_app. right. apply elem_of_cons. by left.
Qed.

Lemma Contains_split s sub : Contains s sub = true → ∃ a b, s = a ++ sub ++ b.
Proof.
  induction s as [|c s IH]; cbn [Contains]; intros Hs.
  - apply orb_true_iff in Hs as [Hs|]; [|done]. apply has_prefix_spec in Hs as [r ->]. by exists [], r.
  - apply orb_true_iff in Hs as [Hs|Hs]; [apply has_prefix_spec in Hs as [r Hr]; by exists [], r|].
    destruct (IH Hs) as (a & b & ->). by exists (c :: a), b.
Qed.

Lemma host_port_no_scheme h p : colon ∉ h → is_port p → Contains (host_port h p) (str "://") = false.
Proof.
  intros Hc Hp. destruct (Contains _ _) eqn:E; [|done]. apply Contains_split in E as (a & b & Hab).
  pose proof (host_port_scheme h p a Hc Hp) as Hf. rewrite Hab in Hf. rewrite app_assoc in Hf.
  by rewrite has_prefix_app in Hf.
Qed.

(** The configuration with this endpoint. *)
Definition with_endpoint (c : DatadogConfig) (e : gostring) : DatadogConfig :=
  mkDatadog (dd_Enabled c) (dd_AgentHost c) (dd_AgentPort c) e (dd_BufferSize c) (dd_Tags c) (UseDistributions c)
    (DistributionPrefixes c) (Filters c).

(** One agent, three spellings.  For a host without colon or bracket and a valid port,
    an endpoint "host:port" and an endpoint "udp://host:port" resolve like AgentHost and
    AgentPort without an endpoint: the same network and the same address. *)
Theorem endpoint_spellings c :
  plain_host (dd_AgentHost c) → is_port (dd_AgentPort c) →
  let hp := host_port (dd_AgentHost c) (dd_AgentPort c) in
  ResolveEndpoint (with_endpoint c []) = inl (str "udp", hp)
  ∧ ResolveEndpoint (with_endpoint c hp) = inl (str "udp", hp)
  ∧ ResolveEndpoint (with_endpoint c (str "udp://" ++ hp)) = inl (str "udp", hp).
Proof.
  intros Hh Hp hp. pose proof Hh as (Hne & Hc & _). split; [done|].
  assert (Hport : (dd_AgentPort c <=? 0) || (65535 <? dd_AgentPort c) = false).
  { unfold is_port in Hp. destruct (Z.leb_spec (dd_AgentPort c) 0), (Z.ltb_spec 65535 (dd_AgentPort c)); done || lia. }
  assert (Hparse : ParseInt (FormatInt (dd_AgentPort c)) = Some (dd_AgentPort c)).
  { apply ParseInt_FormatInt. unfold is_port, in_i64 in *. lia. }
  assert (Hempty : empty (dd_AgentHost c) = false).
  { by destruct (dd_AgentHost c). }
  split; unfold ResolveEndpoint.
  - change (Endpoint (with_endpoint c hp)) with hp. assert (empty hp = false) as -> by (unfold hp, host_port, empty; by destruct (dd_AgentHost c)).
    unfold HasPrefix. change (str "unixgram://") with (str "unixgram" ++ str "://"). change (str "udp://") with (str "udp" ++ str "://").
    unfold hp. rewrite !host_port_scheme by done. rewrite host_port_no_scheme by done. cbn [negb andb].
    by rewrite SplitHostPort_host_port, Hempty, Hparse, Hport.
  - change (Endpoint (with_endpoint c (str "udp://" ++ hp))) with (str "udp://" ++ hp).
    change (HasPrefix (str "udp://" ++ hp) "unixgram://") with false.
    assert (Hpre : HasPrefix (str "udp://" ++ hp) "udp://" = true) by apply has_prefix_app.
    unfold TrimPrefix. rewrite Hpre. cbn [negb andb].
    change (drop (length (str "udp://")) (str "udp://" ++ hp)) with hp.
    change (empty (str "udp://" ++ hp)) with false. cbv iota.
    unfold hp. by rewrite SplitHostPort_host_port, Hempty, Hparse, Hport.
Qed.

Lemma packet_size_range c : dd_Validate c = None → 0 < PacketSize c ≤ MaxDatadogBufferSize.
Proof.
  unfold dd_Validate, PacketSize. intros Hv.
  destruct (if negb (empty (Endpoint c)) then _ else _); [done|].
  destruct ((dd_BufferSize c <? 0) || (MaxDatadogBufferSize <? dd_BufferSize c)) eqn:E; [done|].
  apply orb_false_iff in E as [E1%Z.ltb_ge E2%Z.ltb_ge]. destruct (Z.ltb_spec 0 (dd_BufferSize c)); [lia|].
  destruct (ResolveEndpoint c) as [[n a]|]; [destruct (gostring_eqb n (str "unixgram"))|];
    unfold MaxDatadogBufferSize, DefaultDatadogUnixgramBufferSize, DefaultDatadogUDPBufferSize; lia.
Qed.

(** ** What a valid configuration guarantees *)
Section validated.
Context `{Attributes}.

Lemma first_error_none checks : first_error checks = None ↔ Forall (λ c, c = None) checks.
Proof.
  split; [|by induction 1 as [|c cs -> _ IH]]. induction checks as [|[e|] checks IH]; [constructor|done|]. intros Hn. constructor; auto.
Qed.

Lemma first_error_some checks e : first_error checks = Some e → Some e ∈ checks.
Proof.
  induction checks as [|[e'|] checks IH]; simpl; [done|intros [= ->]; apply elem_of_cons; by left|].
  intros Hs. apply elem_of_cons. right. auto.
Qed.

Lemma custom_loop_none es seen :
  custom_loop es seen = None → Forall is_Some es ∧ NoDup (omap id es) ∧ ∀ n, n ∈ omap id es → n ∉ seen.
Proof.
  revert seen. induction es as [|[n|] es IH]; intros seen Hl; cbn [custom_loop] in Hl; [|case_bool_decide as Hin; [done|]|done].
  - split_and!; [constructor|constructor|]. intros n Hn. by apply not_elem_of_nil in Hn.
  - apply IH in Hl as (Hs & Hnd & Hout). simpl. split_and!.
    + constructor; [by eexists|done].
    + constructor; [|done]. intros Hx. apply (Hout n Hx). set_solver.
    + intros m [->|Hm]%elem_of_cons; [done|]. intros Hx. apply (Hout m Hm). set_solver.
Qed.

Lemma builtin_names_nodup (c : Config) : NoDup (builtin_names c).
Proof.
  unfold builtin_names. destruct (is_enabled dd_Enabled (Datadog c)), (is_enabled pr_Enabled (Prometheus c)),
    (is_enabled cw_Enabled (CloudWatch c)), (is_enabled o_Enabled (OTLP c));
    apply (bool_decide_unpack _); vm_compute; exact I.
Qed.

(** The names of the exporters the pipeline runs, in its order. *)
Definition exporter_names (c : Config) : list gostring := builtin_names c ++ omap id (Exporters c).

Lemma valid_names c : ValidateConfig c = None → Forall is_Some (Exporters c) ∧ NoDup (exporter_names c).
Proof.
  intros Hv. unfold ValidateConfig in Hv. apply first_error_none in Hv. repeat (apply Forall_cons in Hv as [? Hv]).
  match goal with Hx : validateCustomExporters c = None |- _ => rename Hx into Hc end. unfold validateCustomExporters in Hc.
  unfold exporter_names. destruct (Exporters c) as [|e es] eqn:Ee.
  - split; [constructor|]. simpl. rewrite app_nil_r. apply builtin_names_nodup.
  - apply custom_loop_none in Hc as (Hs & Hnd & Hout). split; [done|]. apply NoDup_app. split_and!; [apply builtin_names_nodup| |done].
    intros n Hb Hn. apply (Hout n Hn). by apply elem_of_list_to_set.
Qed.

(** Which configuration errors match ErrInvalidConfig: all of them, except those of
    an enabled CloudWatch, Prometheus or runtime metrics configuration and those of the OTLP
    settings other than the exponential histogram. *)
Theorem invalid_config_matches c e :
  ValidateConfig c = Some e → errors_is ErrInvalidConfig e = false →
  e ∈ omap id [wrap "cloudwatch config" (when_enabled (CloudWatch c) cw_Enabled cw_Validate);
               wrap "prometheus config" (when_enabled (Prometheus c) pr_Enabled pr_Validate);
               wrap "otlp config" (o ← OTLP c; otlp_Validate o);
               wrap "runtime metrics config" (when_enabled (RuntimeMetrics c) rm_Enabled rm_Validate)].
Proof.
  intros Hv His. unfold ValidateConfig in Hv. apply first_error_some in Hv.
  apply list_elem_of_omap. exists (Some e). split; [|done].
  repeat (apply elem_of_cons in Hv as [Hv|Hv]); try (by apply not_elem_of_nil in Hv); try (rewrite Hv; set_solver).
  all: try (unfold check_invalid in Hv; case_match; simplify_eq; done).
  - destruct (when_enabled (Datadog c) dd_Enabled dd_Validate); simpl in Hv; by simplify_eq.
  - unfold validateOTLPConfig in Hv. destruct (OTLP c) as [o|]; [|done]. symmetry in Hv. apply first_error_some in Hv.
    apply elem_of_cons in Hv as [Hv|Hv].
    + destruct (match o_ExponentialHistogram o with Some h => _ | None => _ end); simpl in Hv; by simplify_eq.
    + rewrite list_elem_of_singleton in Hv. case_match; [|done]. rewrite Hv. set_solver.
  - destruct (invalid_bounds _); simpl in Hv; by simplify_eq.
  - unfold validateCustomExporters in Hv. destruct (Exporters c) as [|x es]; [done|]. exfalso.
    revert Hv. generalize (list_to_set (C := gset gostring) (builtin_names c)). generalize (x :: es). clear -His.
    intros l. induction l as [|[n|] l IH]; intros seen Hv; simpl in Hv; [done| |simplify_eq; done].
    case_bool_decide; [simplify_eq; done|]. by eapply IH.
Qed.
End validated.

(** ** Concrete configurations *)
Definition demo_datadog : DatadogConfig :=
  mkDatadog true (str "agent.local") 8125 [] 0 [str "team:core"] false [] None.

Lemma endpoint_spellings_witness :
  ResolveEndpoint (with_endpoint demo_datadog (str "udp://agent.local:8125")) = ResolveEndpoint demo_datadog.
Proof.
  destruct (endpoint_spellings demo_datadog) as (H1 & _ & H3).
  - split_and!; try discriminate; apply (bool_decide_unpack _); vm_compute; exact I.
  - unfold is_port. simpl. lia.
  - exact (eq_trans H3 (eq_sym H1)).
Defined.

(** CloudWatch enabled without an agent host. *)
Definition bad_cloudwatch : @Config toy_attributes :=
  mkConfig (str "svc") (str "prod") 16 1 Second false Second 1024 0 DropNewest false ∅ f_zero 0
    (Some (mkCloudWatch true [] 25888 (str "ns") [])) None None None no_overrides None [] None.

Lemma invalid_config_matches_witness :
  ∃ e, ValidateConfig bad_cloudwatch = Some e
    ∧ e ∈ [ErrWrap (str "cloudwatch config") (ErrText (str "cloudwatch: agent host is required"))].
Proof.
  eexists. split; [reflexivity|].
  pose proof (invalid_config_matches bad_cloudwatch _ eq_refl eq_refl) as H. exact H.
Defined.

(** A configuration error that does not match ErrInvalidConfig: CloudWatch enabled
    without an agent host. *)
Theorem cloudwatch_error_unmatched :
  errors_is ErrInvalidConfig <$> ValidateConfig bad_cloudwatch = Some false.
Proof. reflexivity. Qed.
