(* ===== verification/Options.v ===== *)
(** * Options and environment (options.go, env_otlp.go, WithVersionReporting)

    An [Option] is a function on the configuration.  [buildConfig] applies the defaults
    and the options, then fills the OTLP settings the options left open from the
    environment, a function from names to values (os.Getenv).  [env_precedence] says which
    of them decides each setting, and that a variable whose setting an option states is
    not looked at. *)

From S2P Require Import Prelude GoLib Strings Strconv Attribute Metric Config.

Section options.
Context `{Attributes}.

(** Updates of one field. *)
Definition os_Enabled v o := mkOTLP v (o_Endpoint o) (o_Insecure o) (o_Headers o) (o_ServiceName o) (o_DeploymentEnvironment o) (o_ServiceVersion o) (o_ResourceAttributes o) (o_ResourceSchemaURL o) (o_Temporality o) (o_Protocol o) (o_Compression o) (o_ExportTimeout o) (o_HistogramBuckets o) (o_BucketsByName o) (o_Retry o) (o_ExponentialHistogram o) (o_TLSConfig o) (o_CAFile o) (o_ClientCertFile o) (o_ClientKeyFile o) (o_DisableResourceDetection o) (o_HTTPClient o) (o_GRPCDialOptions o).
Definition os_Endpoint v o := mkOTLP (o_Enabled o) v (o_Insecure o) (o_Headers o) (o_ServiceName o) (o_DeploymentEnvironment o) (o_ServiceVersion o) (o_ResourceAttributes o) (o_ResourceSchemaURL o) (o_Temporality o) (o_Protocol o) (o_Compression o) (o_ExportTimeout o) (o_HistogramBuckets o) (o_BucketsByName o) (o_Retry o) (o_ExponentialHistogram o) (o_TLSConfig o) (o_CAFile o) (o_ClientCertFile o) (o_ClientKeyFile o) (o_DisableResourceDetection o) (o_HTTPClient o) (o_GRPCDialOptions o).
Definition os_Insecure v o := mkOTLP (o_Enabled o) (o_Endpoint o) v (o_Headers o) (o_ServiceName o) (o_DeploymentEnvironment o) (o_ServiceVersion o) (o_ResourceAttributes o) (o_ResourceSchemaURL o) (o_Temporality o) (o_Protocol o) (o_Compression o) (o_ExportTimeout o) (o_HistogramBuckets o) (o_BucketsByName o) (o_Retry o) (o_ExponentialHistogram o) (o_TLSConfig o) (o_CAFile o) (o_ClientCertFile o) (o_ClientKeyFile o) (o_DisableResourceDetection o) (o_HTTPClient o) (o_GRPCDialOptions o).
Definition os_Headers v o := mkOTLP (o_Enabled o) (o_Endpoint o) (o_Insecure o) v (o_ServiceName o) (o_DeploymentEnvironment o) (o_ServiceVersion o) (o_ResourceAttributes o) (o_ResourceSchemaURL o) (o_Temporality o) (o_Protocol o) (o_Compression o) (o_ExportTimeout o) (o_HistogramBuckets o) (o_BucketsByName o) (o_Retry o) (o_ExponentialHistogram o) (o_TLSConfig o) (o_CAFile o) (o_ClientCertFile o) (o_ClientKeyFile o) (o_DisableResourceDetection o) (o_HTTPClient o) (o_GRPCDialOptions o).
Definition os_ServiceName v o := mkOTLP (o_Enabled o) (o_Endpoint o) (o_Insecure o) (o_Headers o) v (o_DeploymentEnvironment o) (o_ServiceVersion o) (o_ResourceAttributes o) (o_ResourceSchemaURL o) (o_Temporality o) (o_Protocol o) (o_Compression o) (o_ExportTimeout o) (o_HistogramBuckets o) (o_BucketsByName o) (o_Retry o) (o_ExponentialHistogram o) (o_TLSConfig o) (o_CAFile o) (o_ClientCertFile o) (o_ClientKeyFile o) (o_DisableResourceDetection o) (o_HTTPClient o) (o_GRPCDialOptions o).
Definition os_DeploymentEnvironment v o := mkOTLP (o_Enabled o) (o_Endpoint o) (o_Insecure o) (o_Headers o) (o_ServiceName o) v (o_ServiceVersion o) (o_ResourceAttributes o) (o_ResourceSchemaURL o) (o_Temporality o) (o_Protocol o) (o_Compression o) (o_ExportTimeout o) (o_HistogramBuckets o) (o_BucketsByName o) (o_Retry o) (o_ExponentialHistogram o) (o_TLSConfig o) (o_CAFile o) (o_ClientCertFile o) (o_ClientKeyFile o) (o_DisableResourceDetection o) (o_HTTPClient o) (o_GRPCDialOptions o).
Definition os_ResourceAttributes v o := mkOTLP (o_Enabled o) (o_Endpoint o) (o_Insecure o) (o_Headers o) (o_ServiceName o) (o_DeploymentEnvironment o) (o_ServiceVersion o) v (o_ResourceSchemaURL o) (o_Temporality o) (o_Protocol o) (o_Compression o) (o_ExportTimeout o) (o_HistogramBuckets o) (o_BucketsByName o) (o_Retry o) (o_ExponentialHistogram o) (o_TLSConfig o) (o_CAFile o) (o_ClientCertFile o) (o_ClientKeyFile o) (o_DisableResourceDetection o) (o_HTTPClient o) (o_GRPCDialOptions o).
Definition os_ResourceSchemaURL v o := mkOTLP (o_Enabled o) (o_Endpoint o) (o_Insecure o) (o_Headers o) (o_ServiceName o) (o_DeploymentEnvironment o) (o_ServiceVersion o) (o_ResourceAttributes o) v (o_Temporality o) (o_Protocol o) (o_Compression o) (o_ExportTimeout o) (o_HistogramBuckets o) (o_BucketsByName o) (o_Retry o) (o_ExponentialHistogram o) (o_TLSConfig o) (o_CAFile o) (o_ClientCertFile o) (o_ClientKeyFile o) (o_DisableResourceDetection o) (o_HTTPClient o) (o_GRPCDialOptions o).
Definition os_Temporality v o := mkOTLP (o_Enabled o) (o_Endpoint o) (o_Insecure o) (o_Headers o) (o_ServiceName o) (o_DeploymentEnvironment o) (o_ServiceVersion o) (o_ResourceAttributes o) (o_ResourceSchemaURL o) v (o_Protocol o) (o_Compression o) (o_ExportTimeout o) (o_HistogramBuckets o) (o_BucketsByName o) (o_Retry o) (o_ExponentialHistogram o) (o_TLSConfig o) (o_CAFile o) (o_ClientCertFile o) (o_ClientKeyFile o) (o_DisableResourceDetection o) (o_HTTPClient o) (o_GRPCDialOptions o).
Definition os_Protocol v o := mkOTLP (o_Enabled o) (o_Endpoint o) (o_Insecure o) (o_Headers o) (o_ServiceName o) (o_DeploymentEnvironment o) (o_ServiceVersion o) (o_ResourceAttributes o) (o_ResourceSchemaURL o) (o_Temporality o) v (o_Compression o) (o_ExportTimeout o) (o_HistogramBuckets o) (o_BucketsByName o) (o_Retry o) (o_ExponentialHistogram o) (o_TLSConfig o) (o_CAFile o) (o_ClientCertFile o) (o_ClientKeyFile o) (o_DisableResourceDetection o) (o_HTTPClient o) (o_GRPCDialOptions o).
Definition os_Compression v o := mkOTLP (o_Enabled o) (o_Endpoint o) (o_Insecure o) (o_Headers o) (o_ServiceName o) (o_DeploymentEnvironment o) (o_ServiceVersion o) (o_ResourceAttributes o) (o_ResourceSchemaURL o) (o_Temporality o) (o_Protocol o) v (o_ExportTimeout o) (o_HistogramBuckets o) (o_BucketsByName o) (o_Retry o) (o_ExponentialHistogram o) (o_TLSConfig o) (o_CAFile o) (o_ClientCertFile o) (o_ClientKeyFile o) (o_DisableResourceDetection o) (o_HTTPClient o) (o_GRPCDialOptions o).
Definition os_ExportTimeout v o := mkOTLP (o_Enabled o) (o_Endpoint o) (o_Insecure o) (o_Headers o) (o_ServiceName o) (o_DeploymentEnvironment o) (o_ServiceVersion o) (o_ResourceAttributes o) (o_ResourceSchemaURL o) (o_Temporality o) (o_Protocol o) (o_Compression o) v (o_HistogramBuckets o) (o_BucketsByName o) (o_Retry o) (o_ExponentialHistogram o) (o_TLSConfig o) (o_CAFile o) (o_ClientCertFile o) (o_ClientKeyFile o) (o_DisableResourceDetection o) (o_HTTPClient o) (o_GRPCDialOptions o).
Definition os_HistogramBuckets v o := mkOTLP (o_Enabled o) (o_Endpoint o) (o_Insecure o) (o_Headers o) (o_ServiceName o) (o_DeploymentEnvironment o) (o_ServiceVersion o) (o_ResourceAttributes o) (o_ResourceSchemaURL o) (o_Temporality o) (o_Protocol o) (o_Compression o) (o_ExportTimeout o) v (o_BucketsByName o) (o_Retry o) (o_ExponentialHistogram o) (o_TLSConfig o) (o_CAFile o) (o_ClientCertFile o) (o_ClientKeyFile o) (o_DisableResourceDetection o) (o_HTTPClient o) (o_GRPCDialOptions o).
Definition os_Retry v o := mkOTLP (o_Enabled o) (o_Endpoint o) (o_Insecure o) (o_Headers o) (o_ServiceName o) (o_DeploymentEnvironment o) (o_ServiceVersion o) (o_ResourceAttributes o) (o_ResourceSchemaURL o) (o_Temporality o) (o_Protocol o) (o_Compression o) (o_ExportTimeout o) (o_HistogramBuckets o) (o_BucketsByName o) v (o_ExponentialHistogram o) (o_TLSConfig o) (o_CAFile o) (o_ClientCertFile o) (o_ClientKeyFile o) (o_DisableResourceDetection o) (o_HTTPClient o) (o_GRPCDialOptions o).
Definition os_ExponentialHistogram v o := mkOTLP (o_Enabled o) (o_Endpoint o) (o_Insecure o) (o_Headers o) (o_ServiceName o) (o_DeploymentEnvironment o) (o_ServiceVersion o) (o_ResourceAttributes o) (o_ResourceSchemaURL o) (o_Temporality o) (o_Protocol o) (o_Compression o) (o_ExportTimeout o) (o_HistogramBuckets o) (o_BucketsByName o) (o_Retry o) v (o_TLSConfig o) (o_CAFile o) (o_ClientCertFile o) (o_ClientKeyFile o) (o_DisableResourceDetection o) (o_HTTPClient o) (o_GRPCDialOptions o).
Definition os_TLSConfig v o := mkOTLP (o_Enabled o) (o_Endpoint o) (o_Insecure o) (o_Headers o) (o_ServiceName o) (o_DeploymentEnvironment o) (o_ServiceVersion o) (o_ResourceAttributes o) (o_ResourceSchemaURL o) (o_Temporality o) (o_Protocol o) (o_Compression o) (o_ExportTimeout o) (o_HistogramBuckets o) (o_BucketsByName o) (o_Retry o) (o_ExponentialHistogram o) v (o_CAFile o) (o_ClientCertFile o) (o_ClientKeyFile o) (o_DisableResourceDetection o) (o_HTTPClient o) (o_GRPCDialOptions o).
Definition os_CAFile v o := mkOTLP (o_Enabled o) (o_Endpoint o) (o_Insecure o) (o_Headers o) (o_ServiceName o) (o_DeploymentEnvironment o) (o_ServiceVersion o) (o_ResourceAttributes o) (o_ResourceSchemaURL o) (o_Temporality o) (o_Protocol o) (o_Compression o) (o_ExportTimeout o) (o_HistogramBuckets o) (o_BucketsByName o) (o_Retry o) (o_ExponentialHistogram o) (o_TLSConfig o) v (o_ClientCertFile o) (o_ClientKeyFile o) (o_DisableResourceDetection o) (o_HTTPClient o) (o_GRPCDialOptions o).
Definition os_ClientCertFile v o := mkOTLP (o_Enabled o) (o_Endpoint o) (o_Insecure o) (o_Headers o) (o_ServiceName o) (o_DeploymentEnvironment o) (o_ServiceVersion o) (o_ResourceAttributes o) (o_ResourceSchemaURL o) (o_Temporality o) (o_Protocol o) (o_Compression o) (o_ExportTimeout o) (o_HistogramBuckets o) (o_BucketsByName o) (o_Retry o) (o_ExponentialHistogram o) (o_TLSConfig o) (o_CAFile o) v (o_ClientKeyFile o) (o_DisableResourceDetection o) (o_HTTPClient o) (o_GRPCDialOptions o).
Definition os_ClientKeyFile v o := mkOTLP (o_Enabled o) (o_Endpoint o) (o_Insecure o) (o_Headers o) (o_ServiceName o) (o_DeploymentEnvironment o) (o_ServiceVersion o) (o_ResourceAttributes o) (o_ResourceSchemaURL o) (o_Temporality o) (o_Protocol o) (o_Compression o) (o_ExportTimeout o) (o_HistogramBuckets o) (o_BucketsByName o) (o_Retry o) (o_ExponentialHistogram o) (o_TLSConfig o) (o_CAFile o) (o_ClientCertFile o) v (o_DisableResourceDetection o) (o_HTTPClient o) (o_GRPCDialOptions o).
Definition os_DisableResourceDetection v o := mkOTLP (o_Enabled o) (o_Endpoint o) (o_Insecure o) (o_Headers o) (o_ServiceName o) (o_DeploymentEnvironment o) (o_ServiceVersion o) (o_ResourceAttributes o) (o_ResourceSchemaURL o) (o_Temporality o) (o_Protocol o) (o_Compression o) (o_ExportTimeout o) (o_HistogramBuckets o) (o_BucketsByName o) (o_Retry o) (o_ExponentialHistogram o) (o_TLSConfig o) (o_CAFile o) (o_ClientCertFile o) (o_ClientKeyFile o) v (o_HTTPClient o) (o_GRPCDialOptions o).
Definition os_HTTPClient v o := mkOTLP (o_Enabled o) (o_Endpoint o) (o_Insecure o) (o_Headers o) (o_ServiceName o) (o_DeploymentEnvironment o) (o_ServiceVersion o) (o_ResourceAttributes o) (o_ResourceSchemaURL o) (o_Temporality o) (o_Protocol o) (o_Compression o) (o_ExportTimeout o) (o_HistogramBuckets o) (o_BucketsByName o) (o_Retry o) (o_ExponentialHistogram o) (o_TLSConfig o) (o_CAFile o) (o_ClientCertFile o) (o_ClientKeyFile o) (o_DisableResourceDetection o) v (o_GRPCDialOptions o).
Definition os_GRPCDialOptions v o := mkOTLP (o_Enabled o) (o_Endpoint o) (o_Insecure o) (o_Headers o) (o_ServiceName o) (o_DeploymentEnvironment o) (o_ServiceVersion o) (o_ResourceAttributes o) (o_ResourceSchemaURL o) (o_Temporality o) (o_Protocol o) (o_Compression o) (o_ExportTimeout o) (o_HistogramBuckets o) (o_BucketsByName o) (o_Retry o) (o_ExponentialHistogram o) (o_TLSConfig o) (o_CAFile o) (o_ClientCertFile o) (o_ClientKeyFile o) (o_DisableResourceDetection o) (o_HTTPClient o) v.
Definition set_ServiceName v c := mkConfig v (Environment c) (BufferSize c) (Workers c) (FlushInterval c) (FlushIntervalSet c) (UDPTimeout c) (MaxMemoryBytes c) (MaxCardinality c) (Strategy c) (AdaptiveBatching c) (HistogramBucketsByName c) (RateLimitPerSecond c) (RateLimitBurst c) (CloudWatch c) (Prometheus c) (Datadog c) (OTLP c) (Overrides c) (RuntimeMetrics c) (Exporters c) (VersionReporting c).
Definition set_Environment v c := mkConfig (ServiceName c) v (BufferSize c) (Workers c) (FlushInterval c) (FlushIntervalSet c) (UDPTimeout c) (MaxMemoryBytes c) (MaxCardinality c) (Strategy c) (AdaptiveBatching c) (HistogramBucketsByName c) (RateLimitPerSecond c) (RateLimitBurst c) (CloudWatch c) (Prometheus c) (Datadog c) (OTLP c) (Overrides c) (RuntimeMetrics c) (Exporters c) (VersionReporting c).
Definition set_BufferSize v c := mkConfig (ServiceName c) (Environment c) v (Workers c) (FlushInterval c) (FlushIntervalSet c) (UDPTimeout c) (MaxMemoryBytes c) (MaxCardinality c) (Strategy c) (AdaptiveBatching c) (HistogramBucketsByName c) (RateLimitPerSecond c) (RateLimitBurst c) (CloudWatch c) (Prometheus c) (Datadog c) (OTLP c) (Overrides c) (RuntimeMetrics c) (Exporters c) (VersionReporting c).
Definition set_Workers v c := mkConfig (ServiceName c) (Environment c) (BufferSize c) v (FlushInterval c) (FlushIntervalSet c) (UDPTimeout c) (MaxMemoryBytes c) (MaxCardinality c) (Strategy c) (AdaptiveBatching c) (HistogramBucketsByName c) (RateLimitPerSecond c) (RateLimitBurst c) (CloudWatch c) (Prometheus c) (Datadog c) (OTLP c) (Overrides c) (RuntimeMetrics c) (Exporters c) (VersionReporting c).
Definition set_FlushInterval v c := mkConfig (ServiceName c) (Environment c) (BufferSize c) (Workers c) v (FlushIntervalSet c) (UDPTimeout c) (MaxMemoryBytes c) (MaxCardinality c) (Strategy c) (AdaptiveBatching c) (HistogramBucketsByName c) (RateLimitPerSecond c) (RateLimitBurst c) (CloudWatch c) (Prometheus c) (Datadog c) (OTLP c) (Overrides c) (RuntimeMetrics c) (Exporters c) (VersionReporting c).
Definition set_FlushIntervalSet v c := mkConfig (ServiceName c) (Environment c) (BufferSize c) (Workers c) (FlushInterval c) v (UDPTimeout c) (MaxMemoryBytes c) (MaxCardinality c) (Strategy c) (AdaptiveBatching c) (HistogramBucketsByName c) (RateLimitPerSecond c) (RateLimitBurst c) (CloudWatch c) (Prometheus c) (Datadog c) (OTLP c) (Overrides c) (RuntimeMetrics c) (Exporters c) (VersionReporting c).
Definition set_UDPTimeout v c := mkConfig (ServiceName c) (Environment c) (BufferSize c) (Workers c) (FlushInterval c) (FlushIntervalSet c) v (MaxMemoryBytes c) (MaxCardinality c) (Strategy c) (AdaptiveBatching c) (HistogramBucketsByName c) (RateLimitPerSecond c) (RateLimitBurst c) (CloudWatch c) (Prometheus c) (Datadog c) (OTLP c) (Overrides c) (RuntimeMetrics c) (Exporters c) (VersionReporting c).
Definition set_MaxMemoryBytes v c := mkConfig (ServiceName c) (Environment c) (BufferSize c) (Workers c) (FlushInterval c) (FlushIntervalSet c) (UDPTimeout c) v (MaxCardinality c) (Strategy c) (AdaptiveBatching c) (HistogramBucketsByName c) (RateLimitPerSecond c) (RateLimitBurst c) (CloudWatch c) (Prometheus c) (Datadog c) (OTLP c) (Overrides c) (RuntimeMetrics c) (Exporters c) (VersionReporting c).
Definition set_MaxCardinality v c := mkConfig (ServiceName c) (Environment c) (BufferSize c) (Workers c) (FlushInterval c) (FlushIntervalSet c) (UDPTimeout c) (MaxMemoryBytes c) v (Strategy c) (AdaptiveBatching c) (HistogramBucketsByName c) (RateLimitPerSecond c) (RateLimitBurst c) (CloudWatch c) (Prometheus c) (Datadog c) (OTLP c) (Overrides c) (RuntimeMetrics c) (Exporters c) (VersionReporting c).
Definition set_Strategy v c := mkConfig (ServiceName c) (Environment c) (BufferSize c) (Workers c) (FlushInterval c) (FlushIntervalSet c) (UDPTimeout c) (MaxMemoryBytes c) (MaxCardinality c) v (AdaptiveBatching c) (HistogramBucketsByName c) (RateLimitPerSecond c) (RateLimitBurst c) (CloudWatch c) (Prometheus c) (Datadog c) (OTLP c) (Overrides c) (RuntimeMetrics c) (Exporters c) (VersionReporting c).
Definition set_AdaptiveBatching v c := mkConfig (ServiceName c) (Environment c) (BufferSize c) (Workers c) (FlushInterval c) (FlushIntervalSet c) (UDPTimeout c) (MaxMemoryBytes c) (MaxCardinality c) (Strategy c) v (HistogramBucketsByName c) (RateLimitPerSecond c) (RateLimitBurst c) (CloudWatch c) (Prometheus c) (Datadog c) (OTLP c) (Overrides c) (RuntimeMetrics c) (Exporters c) (VersionReporting c).
Definition set_HistogramBucketsByName v c := mkConfig (ServiceName c) (Environment c) (BufferSize c) (Workers c) (FlushInterval c) (FlushIntervalSet c) (UDPTimeout c) (MaxMemoryBytes c) (MaxCardinality c) (Strategy c) (AdaptiveBatching c) v (RateLimitPerSecond c) (RateLimitBurst c) (CloudWatch c) (Prometheus c) (Datadog c) (OTLP c) (Overrides c) (RuntimeMetrics c) (Exporters c) (VersionReporting c).
Definition set_RateLimitPerSecond v c := mkConfig (ServiceName c) (Environment c) (BufferSize c) (Workers c) (FlushInterval c) (FlushIntervalSet c) (UDPTimeout c) (MaxMemoryBytes c) (MaxCardinality c) (Strategy c) (AdaptiveBatching c) (HistogramBucketsByName c) v (RateLimitBurst c) (CloudWatch c) (Prometheus c) (Datadog c) (OTLP c) (Overrides c) (RuntimeMetrics c) (Exporters c) (VersionReporting c).
Definition set_RateLimitBurst v c := mkConfig (ServiceName c) (Environment c) (BufferSize c) (Workers c) (FlushInterval c) (FlushIntervalSet c) (UDPTimeout c) (MaxMemoryBytes c) (MaxCardinality c) (Strategy c) (AdaptiveBatching c) (HistogramBucketsByName c) (RateLimitPerSecond c) v (CloudWatch c) (Prometheus c) (Datadog c) (OTLP c) (Overrides c) (RuntimeMetrics c) (Exporters c) (VersionReporting c).
Definition set_CloudWatch v c := mkConfig (ServiceName c) (Environment c) (BufferSize c) (Workers c) (FlushInterval c) (FlushIntervalSet c) (UDPTimeout c) (MaxMemoryBytes c) (MaxCardinality c) (Strategy c) (AdaptiveBatching c) (HistogramBucketsByName c) (RateLimitPerSecond c) (RateLimitBurst c) v (Prometheus c) (Datadog c) (OTLP c) (Overrides c) (RuntimeMetrics c) (Exporters c) (VersionReporting c).
Definition set_Prometheus v c := mkConfig (ServiceName c) (Environment c) (BufferSize c) (Workers c) (FlushInterval c) (FlushIntervalSet c) (UDPTimeout c) (MaxMemoryBytes c) (MaxCardinality c) (Strategy c) (AdaptiveBatching c) (HistogramBucketsByName c) (RateLimitPerSecond c) (RateLimitBurst c) (CloudWatch c) v (Datadog c) (OTLP c) (Overrides c) (RuntimeMetrics c) (Exporters c) (VersionReporting c).
Definition set_Datadog v c := mkConfig (ServiceName c) (Environment c) (BufferSize c) (Workers c) (FlushInterval c) (FlushIntervalSet c) (UDPTimeout c) (MaxMemoryBytes c) (MaxCardinality c) (Strategy c) (AdaptiveBatching c) (HistogramBucketsByName c) (RateLimitPerSecond c) (RateLimitBurst c) (CloudWatch c) (Prometheus c) v (OTLP c) (Overrides c) (RuntimeMetrics c) (Exporters c) (VersionReporting c).
Definition set_OTLP v c := mkConfig (ServiceName c) (Environment c) (BufferSize c) (Workers c) (FlushInterval c) (FlushIntervalSet c) (UDPTimeout c) (MaxMemoryBytes c) (MaxCardinality c) (Strategy c) (AdaptiveBatching c) (HistogramBucketsByName c) (RateLimitPerSecond c) (RateLimitBurst c) (CloudWatch c) (Prometheus c) (Datadog c) v (Overrides c) (RuntimeMetrics c) (Exporters c) (VersionReporting c).
Definition set_Overrides v c := mkConfig (ServiceName c) (Environment c) (BufferSize c) (Workers c) (FlushInterval c) (FlushIntervalSet c) (UDPTimeout c) (MaxMemoryBytes c) (MaxCardinality c) (Strategy c) (AdaptiveBatching c) (HistogramBucketsByName c) (RateLimitPerSecond c) (RateLimitBurst c) (CloudWatch c) (Prometheus c) (Datadog c) (OTLP c) v (RuntimeMetrics c) (Exporters c) (VersionReporting c).
Definition set_RuntimeMetrics v c := mkConfig (ServiceName c) (Environment c) (BufferSize c) (Workers c) (FlushInterval c) (FlushIntervalSet c) (UDPTimeout c) (MaxMemoryBytes c) (MaxCardinality c) (Strategy c) (AdaptiveBatching c) (HistogramBucketsByName c) (RateLimitPerSecond c) (RateLimitBurst c) (CloudWatch c) (Prometheus c) (Datadog c) (OTLP c) (Overrides c) v (Exporters c) (VersionReporting c).
Definition set_Exporters v c := mkConfig (ServiceName c) (Environment c) (BufferSize c) (Workers c) (FlushInterval c) (FlushIntervalSet c) (UDPTimeout c) (MaxMemoryBytes c) (MaxCardinality c) (Strategy c) (AdaptiveBatching c) (HistogramBucketsByName c) (RateLimitPerSecond c) (RateLimitBurst c) (CloudWatch c) (Prometheus c) (Datadog c) (OTLP c) (Overrides c) (RuntimeMetrics c) v (VersionReporting c).
Definition set_VersionReporting v c := mkConfig (ServiceName c) (Environment c) (BufferSize c) (Workers c) (FlushInterval c) (FlushIntervalSet c) (UDPTimeout c) (MaxMemoryBytes c) (MaxCardinality c) (Strategy c) (AdaptiveBatching c) (HistogramBucketsByName c) (RateLimitPerSecond c) (RateLimitBurst c) (CloudWatch c) (Prometheus c) (Datadog c) (OTLP c) (Overrides c) (RuntimeMetrics c) (Exporters c) v.
Definition vs_Timeout v o := mkOverrides (ov_Endpoint o) (ov_Insecure o) (ov_Headers o) v (ov_Compression o) (ov_Protocol o) (ov_Temporality o) (ov_CAFile o) (ov_ClientCertFile o) (ov_ClientKeyFile o).
Definition vs_Temporality v o := mkOverrides (ov_Endpoint o) (ov_Insecure o) (ov_Headers o) (ov_Timeout o) (ov_Compression o) (ov_Protocol o) v (ov_CAFile o) (ov_ClientCertFile o) (ov_ClientKeyFile o).
Definition vs_CAFile v o := mkOverrides (ov_Endpoint o) (ov_Insecure o) (ov_Headers o) (ov_Timeout o) (ov_Compression o) (ov_Protocol o) (ov_Temporality o) v (ov_ClientCertFile o) (ov_ClientKeyFile o).
Definition vs_ClientCertFile v o := mkOverrides (ov_Endpoint o) (ov_Insecure o) (ov_Headers o) (ov_Timeout o) (ov_Compression o) (ov_Protocol o) (ov_Temporality o) (ov_CAFile o) v (ov_ClientKeyFile o).
Definition vs_ClientKeyFile v o := mkOverrides (ov_Endpoint o) (ov_Insecure o) (ov_Headers o) (ov_Timeout o) (ov_Compression o) (ov_Protocol o) (ov_Temporality o) (ov_CAFile o) (ov_ClientCertFile o) v.

(** ** Options (options.go) *)
Definition Option := Config → Config.

Definition empty_OTLP : OTLPConfig :=
  mkOTLP false [] false ∅ [] [] [] [] [] [] [] [] 0 None ∅ None None None [] [] [] false None None.

(** if c.OTLP == nil { c.OTLP = &OTLPConfig{} }, then a change of c.OTLP *)
Definition with_OTLP (f : OTLPConfig → OTLPConfig) (c : Config) : Config :=
  set_OTLP (Some (f (default empty_OTLP (OTLP c)))) c.

Definition override (f : OTLPOverrides → OTLPOverrides) (c : Config) : Config := set_Overrides (f (Overrides c)) c.

Definition WithServiceName (name : gostring) : Option := λ c, with_OTLP (os_ServiceName name) (set_ServiceName name c).

Definition WithTemporality (t : gostring) : Option := λ c,
  override (vs_Temporality (Some t)) (with_OTLP (os_Temporality t) c).

Definition WithOTLPExportTimeout (d : Z) : Option := λ c,
  override (vs_Timeout (Some d)) (with_OTLP (os_ExportTimeout d) c).

Definition WithFlushInterval (interval : Z) : Option := λ c, set_FlushIntervalSet true (set_FlushInterval interval c).
Definition WithOTLPExportInterval (d : Z) : Option := WithFlushInterval d.
Definition WithOTLPFromEnv : Option := with_OTLP (os_Enabled true).

Definition WithOTLPResourceAttributes (attrs : list KeyValue) : Option :=
  with_OTLP (λ o, os_ResourceAttributes (o_ResourceAttributes o ++ attrs) o).

Definition WithOTLPResourceSchemaURL (url : gostring) : Option := with_OTLP (os_ResourceSchemaURL url).

Definition WithEnvironment (env : gostring) : Option := λ c, with_OTLP (os_DeploymentEnvironment env) (set_Environment env c).

Definition WithBufferSize (size : Z) : Option := set_BufferSize size.
Definition WithWorkers (workers : Z) : Option := set_Workers workers.
Definition WithUDPTimeout (timeout : Z) : Option := set_UDPTimeout timeout.
Definition WithMaxMemoryBytes (bytes : Z) : Option := set_MaxMemoryBytes bytes.
Definition WithMaxCardinality (cardinality : Z) : Option := set_MaxCardinality cardinality.
Definition WithDropStrategy (strategy : DropStrategy) : Option := set_Strategy strategy.
Definition WithAdaptiveBatching (enabled : bool) : Option := set_AdaptiveBatching enabled.
Definition WithRateLimit (rate : float64) (burst : Z) : Option := λ c, set_RateLimitBurst burst (set_RateLimitPerSecond rate c).
Definition WithOTelMode : Option := λ c, c.

(** The caller's configuration, enabled. *)
Definition WithCloudWatch (cfg : CloudWatchConfig) : Option :=
  set_CloudWatch (Some (mkCloudWatch true (cw_AgentHost cfg) (cw_AgentPort cfg) (cw_Namespace cfg) (cw_Region cfg))).
Definition WithPrometheus (cfg : PrometheusConfig) : Option :=
  set_Prometheus (Some (mkPrometheus true (PushgatewayAddress cfg) (Job cfg) (Instance_ cfg))).
Definition WithDatadog (cfg : DatadogConfig) : Option :=
  set_Datadog (Some (mkDatadog true (dd_AgentHost cfg) (dd_AgentPort cfg) (Endpoint cfg) (dd_BufferSize cfg) (dd_Tags cfg)
                       (UseDistributions cfg) (DistributionPrefixes cfg) (Filters cfg))).

Definition WithExporter (e : option gostring) : Option := λ c, set_Exporters (Exporters c ++ [e]) c.

(** cmp.Or on strings and on pointers *)
Definition or_string (a b : gostring) : gostring := if empty a then b else a.
Definition or_ptr {A} (a b : option A) : option A := match a with Some x => Some x | None => b end.

(** WithOTLP: the struct, completed by what earlier options set; then every setting the
    environment could give counts as stated. *)
Definition merge_OTLP (cfg prev : OTLPConfig) : OTLPConfig :=
  mkOTLP (o_Enabled cfg) (o_Endpoint cfg) (o_Insecure cfg) (o_Headers cfg)
    (or_string (o_ServiceName cfg) (o_ServiceName prev))
    (or_string (o_DeploymentEnvironment cfg) (o_DeploymentEnvironment prev))
    (o_ServiceVersion cfg) (o_ResourceAttributes cfg ++ o_ResourceAttributes prev)
    (or_string (o_ResourceSchemaURL cfg) (o_ResourceSchemaURL prev))
    (or_string (o_Temporality cfg) (o_Temporality prev)) (o_Protocol cfg) (o_Compression cfg) (o_ExportTimeout cfg)
    (or_ptr (o_HistogramBuckets cfg) (o_HistogramBuckets prev)) (o_BucketsByName cfg)
    (or_ptr (o_Retry cfg) (o_Retry prev)) (or_ptr (o_ExponentialHistogram cfg) (o_ExponentialHistogram prev))
    (or_ptr (o_TLSConfig cfg) (o_TLSConfig prev)) (o_CAFile cfg) (o_ClientCertFile cfg) (o_ClientKeyFile cfg)
    (o_DisableResourceDetection cfg || o_DisableResourceDetection prev)
    (or_ptr (o_HTTPClient cfg) (o_HTTPClient prev)) (or_ptr (o_GRPCDialOptions cfg) (o_GRPCDialOptions prev)).

Definition all_stated (o : OTLPConfig) : OTLPOverrides :=
  mkOverrides (Some (o_Endpoint o)) (Some (o_Insecure o)) (Some (o_Headers o)) (Some (o_ExportTimeout o)) (Some (o_Compression o))
    (Some (o_Protocol o)) (Some (o_Temporality o)) (Some (o_CAFile o)) (Some (o_ClientCertFile o)) (Some (o_ClientKeyFile o)).

Definition WithOTLP (cfg : option OTLPConfig) : Option := λ c,
  match cfg with
  | None => c
  | Some cfg =>
      let merged := match OTLP c with Some prev => merge_OTLP cfg prev | None => cfg end in
      let merged := os_Enabled true merged in
      set_Overrides (all_stated merged) (set_OTLP (Some merged) c)
  end.

Definition WithHistogramBuckets (bounds : option (list float64)) : Option := with_OTLP (os_HistogramBuckets bounds).

Definition WithHistogramBucketsFor (name : gostring) (bounds : list float64) : Option := λ c,
  set_HistogramBucketsByName (<[name := bounds]> (HistogramBucketsByName c)) c.

Definition WithUnprefixedHistogramBucketsFor (name : gostring) (bounds : list float64) : Option :=
  WithHistogramBucketsFor (UnprefixedBucketsKey name) bounds.

Definition WithExponentialHistogram (maxSize maxScale : Z) : Option :=
  with_OTLP (os_ExponentialHistogram (Some (mkExponential maxSize maxScale))).

(** A clone of the TLS configuration is the same configuration. *)
Definition WithOTLPTLSConfig (cfg : option nat) : Option := with_OTLP (os_TLSConfig cfg).

(** One entry of the loop of WithOTLPCertificates. *)
Definition state_file (file : gostring) (target : gostring → OTLPConfig → OTLPConfig)
    (stated : option gostring → OTLPOverrides → OTLPOverrides) : Option := λ c,
  if empty file then c else override (stated (Some file)) (with_OTLP (target file) c).

Definition WithOTLPCertificates (caFile clientCertFile clientKeyFile : gostring) : Option := λ c,
  state_file clientKeyFile os_ClientKeyFile vs_ClientKeyFile
    (state_file clientCertFile os_ClientCertFile vs_ClientCertFile
      (state_file caFile os_CAFile vs_CAFile (with_OTLP id c))).

Definition WithOTLPHTTPClient (client : option nat) : Option := with_OTLP (os_HTTPClient client).

(** append(slices.Clone(l), opts...): nil only when both are empty and l is nil *)
Definition WithOTLPGRPCDialOptions (opts : list nat) : Option :=
  with_OTLP (λ o, os_GRPCDialOptions
    (match o_GRPCDialOptions o, opts with None, [] => None | l, _ => Some (default [] l ++ opts) end) o).

Definition WithoutOTLPResourceDetection : Option := with_OTLP (os_DisableResourceDetection true).

Definition WithOTLPRetry (initial maxInterval maxElapsed : Z) : Option :=
  with_OTLP (os_Retry (Some (mkRetry initial maxInterval maxElapsed))).

Definition enable_runtime (c : Config) : RuntimeMetricsConfig :=
  let r := default DefaultRuntimeMetricsConfig (RuntimeMetrics c) in
  rm_ApplyDefaults (mkRuntime true (CollectInterval r) (Prefix r) (ProcessMetrics r) (DelayMetrics r)).

Definition WithRuntimeMetrics : Option := λ c, set_RuntimeMetrics (Some (enable_runtime c)) c.

Definition WithRuntimeProcessMetrics : Option := λ c,
  let r := enable_runtime c in
  set_RuntimeMetrics (Some (mkRuntime (rm_Enabled r) (CollectInterval r) (Prefix r) true (DelayMetrics r))) c.

Definition WithRuntimeDelayMetrics : Option := λ c,
  let r := enable_runtime c in
  set_RuntimeMetrics (Some (mkRuntime (rm_Enabled r) (CollectInterval r) (Prefix r) (ProcessMetrics r) true)) c.

Definition WithVersionReporting (enabled : bool) : Option := set_VersionReporting (Some enabled).

(** ** Environment (env_otlp.go) *)
Definition envSDKDisabled : gostring := str "OTEL_SDK_DISABLED".
Definition envServiceName : gostring := str "OTEL_SERVICE_NAME".
Definition envExportInterval : gostring := str "OTEL_METRIC_EXPORT_INTERVAL".
Definition envTemporality : gostring := str "OTEL_EXPORTER_OTLP_METRICS_TEMPORALITY_PREFERENCE".
Definition envHistogramAggr : gostring := str "OTEL_EXPORTER_OTLP_METRICS_DEFAULT_HISTOGRAM_AGGREGATION".
Definition envExportTimeout : gostring := str "OTEL_METRIC_EXPORT_TIMEOUT".
Definition envGenericEndpoint : gostring := str "OTEL_EXPORTER_OTLP_ENDPOINT".
Definition envMetricsPrefix : gostring := str "OTEL_EXPORTER_OTLP_METRICS_".
Definition envGenericPrefix : gostring := str "OTEL_EXPORTER_OTLP_".
Definition metricsEndpointPath : gostring := str "/v1/metrics".

(** strings.ToLower compared with an ASCII text: two runes outside ASCII have an ASCII
    letter as their lower case, U+0130 (i) and U+212A (k); no other has. *)
Fixpoint to_lower (s : gostring) : gostring :=
  match s with
  | [] => []
  | b :: rest =>
      match rest with
      | b2 :: rest2 =>
          if (code b =? 196) && (code b2 =? 176) then byte_of 105 :: to_lower rest2
          else match rest2 with
               | b3 :: rest3 =>
                   if (code b =? 226) && (code b2 =? 132) && (code b3 =? 170) then byte_of 107 :: to_lower rest3
                   else lower_byte b :: to_lower rest
               | [] => lower_byte b :: to_lower rest
               end
      | [] => [lower_byte b]
      end
  end.

(** strings.EqualFold with true: none of its letters has another case outside ASCII. *)
Definition equal_fold_true (s : gostring) : bool := gostring_eqb (map lower_byte s) (str "true").

Definition unhex (b : ascii) : option Z :=
  let c := code b in
  if (48 <=? c) && (c <=? 57) then Some (c - 48)
  else if (97 <=? c) && (c <=? 102) then Some (c - 97 + 10)
  else if (65 <=? c) && (c <=? 70) then Some (c - 65 + 10)
  else None.

(** url.PathUnescape; [None] is an error. *)
Fixpoint PathUnescape (s : gostring) : option gostring :=
  match s with
  | [] => Some []
  | b :: rest =>
      if code b =? 37 then
        match rest with
        | h :: l :: rest2 =>
            hi ← unhex h; lo ← unhex l; r ← PathUnescape rest2; Some (byte_of (hi * 16 + lo) :: r)
        | _ => None
        end
      else r ← PathUnescape rest; Some (b :: r)
  end.

Section environment.
Context (Getenv : gostring → gostring).

Definition envValue (name : gostring) : gostring := TrimSpace (Getenv name).
Definition sdkDisabled : bool := equal_fold_true (envValue envSDKDisabled).

(** An envSetting: name and value. *)
Definition signalEnv (suffix : gostring) : option (gostring * gostring) :=
  let metrics := envValue (envMetricsPrefix ++ suffix) in
  let generic := envValue (envGenericPrefix ++ suffix) in
  if negb (empty metrics) then Some (envMetricsPrefix ++ suffix, metrics)
  else if negb (empty generic) then Some (envGenericPrefix ++ suffix, generic)
  else None.

(** envSetting.errorf; the quoted value is left out of the text. *)
Definition errorf (name : gostring) (msg : gostring) : error :=
  ErrWrapAfter (ErrIs ErrInvalidConfig) (name ++ str ": " ++ msg).

Definition resolveProtocol (cfg : Config) : Config + error :=
  match ov_Protocol (Overrides cfg) with
  | Some _ => inl cfg
  | None =>
      match signalEnv (str "PROTOCOL") with
      | None => inl cfg
      | Some (name, value) =>
          if gostring_eqb value (str "grpc") then inl (with_OTLP (os_Protocol OTLPProtocolGRPC) cfg)
          else if gostring_eqb value (str "http/protobuf") then inl (with_OTLP (os_Protocol OTLPProtocolHTTP) cfg)
          else if gostring_eqb value (str "http/json")
          then inr (errorf name (str "http/json is not supported (use grpc or http/protobuf)"))
          else inr (errorf name (str "unknown protocol (use grpc or http/protobuf)"))
      end
  end.

(** strings.TrimRight(s, "/") *)
Definition trim_slashes (s : gostring) : gostring := trim_right [[byte_of 47]] s.

Definition resolveEndpoint (cfg : Config) : Config + error :=
  match ov_Endpoint (Overrides cfg) with
  | Some _ => inl cfg
  | None =>
      match signalEnv (str "ENDPOINT") with
      | None => inl cfg
      | Some (name, value) =>
          let http := gostring_eqb (o_Protocol (default empty_OTLP (OTLP cfg))) OTLPProtocolHTTP in
          let endpoint := if gostring_eqb name envGenericEndpoint && http
                          then trim_slashes value ++ metricsEndpointPath else value in
          inl (with_OTLP (os_Endpoint endpoint) cfg)
      end
  end.

Definition resolveInsecure (cfg : Config) : Config + error :=
  match ov_Insecure (Overrides cfg) with
  | Some _ => inl cfg
  | None =>
      match signalEnv (str "INSECURE") with
      | None => inl cfg
      | Some (name, value) =>
          if gostring_eqb (to_lower value) (str "true") then inl (with_OTLP (os_Insecure true) cfg)
          else if gostring_eqb (to_lower value) (str "false") then inl (with_OTLP (os_Insecure false) cfg)
          else inr (errorf name (str "must be true or false"))
      end
  end.

(** parseHeaders: the loop over the pairs; a later pair replaces an earlier one. *)
Fixpoint parse_pairs (pairs : list gostring) (headers : gmap gostring gostring) : gmap gostring gostring + gostring :=
  match pairs with
  | [] => inl headers
  | entry :: rest =>
      let entry := TrimSpace entry in
      if empty entry then parse_pairs rest headers
      else match cut_byte (byte_of 61) entry with
           | (_, None) => inr (str "header is not key=value")
           | (rawKey, Some rawValue) =>
               match PathUnescape (TrimSpace rawKey) with
               | Some (k :: key) =>
                   match PathUnescape (TrimSpace rawValue) with
                   | Some decoded => parse_pairs rest (<[k :: key := decoded]> headers)
                   | None => inr (str "invalid header value")
                   end
               | _ => inr (str "invalid header key")
               end
           end
  end.

Definition parseHeaders (value : gostring) : gmap gostring gostring + gostring := parse_pairs (split_byte (byte_of 44) value) ∅.

Definition resolveHeaders (cfg : Config) : Config + error :=
  match ov_Headers (Overrides cfg) with
  | Some _ => inl cfg
  | None =>
      match signalEnv (str "HEADERS") with
      | None => inl cfg
      | Some (name, value) =>
          match parseHeaders value with
          | inr msg => inr (errorf name msg)
          | inl headers => inl (with_OTLP (os_Headers headers) cfg)
          end
      end
  end.

(** parseMilliseconds; the product is taken at int64. *)
Definition parseMilliseconds (value : gostring) : Z + gostring :=
  match ParseInt value with
  | None => inr (str "must be a whole number of milliseconds")
  | Some ms =>
      if ms <=? 0 then inr (str "must be positive")
      else if (2 ^ 63 - 1) / Millisecond <? ms then inr (str "is too large")
      else inl (i64 (ms * Millisecond))
  end.

Definition resolveTimeout (cfg : Config) : Config + error :=
  match ov_Timeout (Overrides cfg) with
  | Some _ => inl cfg
  | None =>
      let setting := match signalEnv (str "TIMEOUT") with
                     | Some s => Some s
                     | None => let value := envValue envExportTimeout in
                               if empty value then None else Some (envExportTimeout, value)
                     end in
      match setting with
      | None => inl cfg
      | Some (name, value) =>
          match parseMilliseconds value with
          | inr msg => inr (errorf name msg)
          | inl timeout => inl (with_OTLP (os_ExportTimeout timeout) cfg)
          end
      end
  end.

Definition resolveCompression (cfg : Config) : Config + error :=
  match ov_Compression (Overrides cfg) with
  | Some _ => inl cfg
  | None =>
      match signalEnv (str "COMPRESSION") with
      | None => inl cfg
      | Some (name, value) =>
          if one_of (to_lower value) [str "gzip"; str "none"] then inl (with_OTLP (os_Compression (to_lower value)) cfg)
          else inr (errorf name (str "must be gzip or none"))
      end
  end.

(** One entry of the loop of resolveTLSFiles. *)
Definition resolve_file (suffix : string) (stated : option gostring) (target : gostring → OTLPConfig → OTLPConfig)
    (cfg : Config) : Config :=
  match stated with
  | Some _ => cfg
  | None => match signalEnv (str suffix) with Some (_, value) => with_OTLP (target value) cfg | None => cfg end
  end.

Definition resolveTLSFiles (cfg : Config) : Config + error :=
  let cfg := resolve_file "CERTIFICATE" (ov_CAFile (Overrides cfg)) os_CAFile cfg in
  let cfg := resolve_file "CLIENT_CERTIFICATE" (ov_ClientCertFile (Overrides cfg)) os_ClientCertFile cfg in
  inl (resolve_file "CLIENT_KEY" (ov_ClientKeyFile (Overrides cfg)) os_ClientKeyFile cfg).

Definition resolveTemporality (cfg : Config) : Config + error :=
  match ov_Temporality (Overrides cfg) with
  | Some _ => inl cfg
  | None =>
      let value := envValue envTemporality in
      if empty value then inl cfg
      else if gostring_eqb (to_lower value) (str "cumulative") then inl (with_OTLP (os_Temporality Cumulative) cfg)
      else if one_of (to_lower value) [str "delta"; str "lowmemory"] then inl (with_OTLP (os_Temporality Delta) cfg)
      else inr (errorf envTemporality (str "must be cumulative, delta or lowmemory"))
  end.

Definition resolveHistogramAggregation (cfg : Config) : Config + error :=
  let value := envValue envHistogramAggr in
  let o := default empty_OTLP (OTLP cfg) in
  if empty value || bool_decide (is_Some (o_ExponentialHistogram o)) || bool_decide (is_Some (o_HistogramBuckets o)) then inl cfg
  else if gostring_eqb (to_lower value) (str "explicit_bucket_histogram") then inl cfg
  else if gostring_eqb (to_lower value) (str "base2_exponential_bucket_histogram")
  then inl (with_OTLP (os_ExponentialHistogram (Some (mkExponential 0 0))) cfg)
  else inr (errorf envHistogramAggr (str "must be explicit_bucket_histogram or base2_exponential_bucket_histogram")).

Definition resolveExportInterval (cfg : Config) : Config + error :=
  if FlushIntervalSet cfg then inl cfg
  else
    let value := envValue envExportInterval in
    if empty value then inl cfg
    else match parseMilliseconds value with
         | inr msg => inr (errorf envExportInterval msg)
         | inl interval => inl (set_FlushInterval interval cfg)
         end.

(** The steps in turn, up to the first error. *)
Fixpoint run_steps (steps : list (Config → Config + error)) (cfg : Config) : Config + error :=
  match steps with
  | [] => inl cfg
  | step :: rest => match step cfg with inl cfg => run_steps rest cfg | inr err => inr err end
  end.

Definition resolveOTLPEnv : Config → Config + error :=
  run_steps [resolveProtocol; resolveEndpoint; resolveInsecure; resolveHeaders; resolveTimeout; resolveCompression;
             resolveTLSFiles; resolveTemporality; resolveHistogramAggregation; resolveExportInterval].

(** The configuration the options make, before the environment is asked for the rest. *)
Definition optioned (opts : list Option) : Config :=
  let cfg := DefaultConfig in
  let name := envValue envServiceName in
  let cfg := if negb (empty name) then set_ServiceName name cfg else cfg in
  foldl (λ cfg opt, opt cfg) cfg opts.

Definition otlp_enabled (cfg : Config) : bool := match OTLP cfg with Some o => o_Enabled o | None => false end.

Definition buildConfig (opts : list Option) : Config + error :=
  let cfg := optioned opts in
  if otlp_enabled cfg then resolveOTLPEnv cfg else inl cfg.

End environment.

(** ** What decides a setting *)

(** The variables signalEnv looks at. *)
Definition signal_names (Getenv : gostring → gostring) (suffix : string) : list gostring :=
  (envMetricsPrefix ++ str suffix)
  :: (if empty (envValue Getenv (envMetricsPrefix ++ str suffix)) then [envGenericPrefix ++ str suffix] else []).

Definition unless (stated : bool) (names : list gostring) : list gostring := if stated then [] else names.
Definition is_stated {A} (o : option A) : bool := match o with Some _ => true | None => false end.

(** The settings of OTLP. *)
Definition otlp (c : Config) : OTLPConfig := default empty_OTLP (OTLP c).
Definition histograms_stated (c : Config) : bool :=
  is_stated (o_ExponentialHistogram (otlp c)) || is_stated (o_HistogramBuckets (otlp c)).

(** The variables buildConfig depends on, besides the service name, when the options made [c]. *)
Definition consulted (Getenv : gostring → gostring) (c : Config) : list gostring :=
  let ov := Overrides c in
  let names := signal_names Getenv in
  unless (is_stated (ov_Protocol ov)) (names "PROTOCOL") ++ unless (is_stated (ov_Endpoint ov)) (names "ENDPOINT")
  ++ unless (is_stated (ov_Insecure ov)) (names "INSECURE") ++ unless (is_stated (ov_Headers ov)) (names "HEADERS")
  ++ unless (is_stated (ov_Timeout ov)) (names "TIMEOUT" ++ unless (is_stated (signalEnv Getenv (str "TIMEOUT"))) [envExportTimeout])
  ++ unless (is_stated (ov_Compression ov)) (names "COMPRESSION")
  ++ unless (is_stated (ov_CAFile ov)) (names "CERTIFICATE")
  ++ unless (is_stated (ov_ClientCertFile ov)) (names "CLIENT_CERTIFICATE")
  ++ unless (is_stated (ov_ClientKeyFile ov)) (names "CLIENT_KEY")
  ++ unless (is_stated (ov_Temporality ov)) [envTemporality]
  ++ unless (histograms_stated c) [envHistogramAggr] ++ unless (FlushIntervalSet c) [envExportInterval].

Definition agree (env env' : gostring → gostring) (names : list gostring) : Prop := ∀ n, n ∈ names → env' n = env n.

Lemma agree_app env env' l1 l2 : agree env env' (l1 ++ l2) ↔ agree env env' l1 ∧ agree env env' l2.
Proof. unfold agree. setoid_rewrite elem_of_app. naive_solver. Qed.

Lemma agree_signal env env' suffix : agree env env' (signal_names env suffix) → signalEnv env' (str suffix) = signalEnv env (str suffix).
Proof.
  intros Ha. unfold signal_names in Ha. unfold signalEnv.
  assert (envValue env' (envMetricsPrefix ++ str suffix) = envValue env (envMetricsPrefix ++ str suffix)) as ->.
  { unfold envValue. rewrite Ha; [done|by left]. }
  destruct (empty (envValue env (envMetricsPrefix ++ str suffix))) eqn:Ee; cbn [negb]; [|done].
  assert (envValue env' (envGenericPrefix ++ str suffix) = envValue env (envGenericPrefix ++ str suffix)) as ->; [|done].
  unfold envValue. rewrite Ha; [done|]. right. by left.
Qed.

Lemma agree_value env env' n : agree env env' [n] → envValue env' n = envValue env n.
Proof. intros Ha. unfold envValue. rewrite (Ha n); [done|by left]. Qed.

Lemma run_steps_ext (R : Config → Prop) fs fs' c :
  Forall2 (λ f f', ∀ c, R c → f' c = f c ∧ ∀ c', f c = inl c' → R c') fs fs' → R c → run_steps fs' c = run_steps fs c.
Proof.
  intros HF. revert c. induction HF as [|f f' fs fs' Hf _ IH]; intros c HR; simpl; [done|].
  destruct (Hf c HR) as [-> Hn]. destruct (f c) as [c'|]; [|done]. apply IH. by apply Hn.
Qed.

Lemma run_steps_inv (R : Config → Prop) fs c c' :
  Forall (λ f, ∀ c c', R c → f c = inl c' → R c') fs → R c → run_steps fs c = inl c' → R c'.
Proof.
  intros HF. revert c. induction HF as [|f fs Hf _ IH]; intros c HR; simpl; [by intros [= <-]|].
  destruct (f c) as [c1|] eqn:Ef; [|done]. intros Hr. eapply IH; [|done]. by eapply Hf.
Qed.

Lemma run_steps_error (Q : error → Prop) fs c e :
  Forall (λ f, ∀ c e, f c = inr e → Q e) fs → run_steps fs c = inr e → Q e.
Proof.
  intros HF. revert c. induction HF as [|f fs Hf _ IH]; intros c; simpl; [done|].
  destruct (f c) as [c1|] eqn:Ef; [apply IH|]. intros [= <-]. by eapply Hf.
Qed.

(** What the steps need to stay as the options left it. *)
Definition same_stated (c0 c : Config) : Prop :=
  Overrides c = Overrides c0 ∧ FlushIntervalSet c = FlushIntervalSet c0 ∧ (histograms_stated c0 = true → histograms_stated c = true).

Lemma with_OTLP_stated c0 c f :
  same_stated c0 c →
  o_ExponentialHistogram (f (otlp c)) = o_ExponentialHistogram (otlp c) ∨ is_stated (o_ExponentialHistogram (f (otlp c))) = true →
  o_HistogramBuckets (f (otlp c)) = o_HistogramBuckets (otlp c) → same_stated c0 (with_OTLP f c).
Proof.
  intros (E1 & E2 & E3) He Hb. split_and!; [done|done|]. intros Hs. specialize (E3 Hs).
  unfold histograms_stated in *. change (otlp (with_OTLP f c)) with (f (otlp c)). rewrite Hb.
  destruct He as [-> | ->]; done.
Qed.

Definition steps (env : gostring → gostring) : list (Config → Config + error) :=
  [resolveProtocol env; resolveEndpoint env; resolveInsecure env; resolveHeaders env; resolveTimeout env; resolveCompression env;
   resolveTLSFiles env; resolveTemporality env; resolveHistogramAggregation env; resolveExportInterval env].

Lemma file_stated env suffix stated target c0 c :
  (∀ v o, o_ExponentialHistogram (target v o) = o_ExponentialHistogram o ∧ o_HistogramBuckets (target v o) = o_HistogramBuckets o) →
  same_stated c0 c → same_stated c0 (resolve_file env suffix stated target c).
Proof.
  intros Ht Hs. unfold resolve_file. repeat case_match; try done. apply with_OTLP_stated; [done|left|]; apply Ht.
Qed.

Lemma steps_stated env c0 : Forall (λ f, ∀ c c', same_stated c0 c → f c = inl c' → same_stated c0 c') (steps env).
Proof.
  unfold steps. rewrite !Forall_cons. split_and!; [..|apply Forall_nil_2]; intros c c' Hs Hf.
  1-6: cbv beta delta [resolveProtocol resolveEndpoint resolveInsecure resolveHeaders resolveTimeout resolveCompression] in Hf;
    repeat (case_match; simplify_eq/=); try done; apply with_OTLP_stated; auto.
  - unfold resolveTLSFiles in Hf. injection Hf as <-. repeat (apply file_stated; [done|]). done.
  - unfold resolveTemporality in Hf. repeat (case_match; simplify_eq/=); try done; apply with_OTLP_stated; auto.
  - unfold resolveHistogramAggregation in Hf. repeat (case_match; simplify_eq/=); try done; apply with_OTLP_stated; auto.
  - unfold resolveExportInterval in Hf. repeat (case_match; simplify_eq/=); try done.
Qed.

Lemma file_ext env env' suffix stated target c :
  agree env env' (unless (is_stated stated) (signal_names env suffix)) →
  resolve_file env' suffix stated target c = resolve_file env suffix stated target c.
Proof. intros Ha. unfold resolve_file. destruct stated; [done|]. by rewrite (agree_signal _ _ _ Ha). Qed.

Lemma file_overrides env suffix stated target c : Overrides (resolve_file env suffix stated target c) = Overrides c.
Proof. unfold resolve_file. by repeat case_match. Qed.

Lemma stated_decide {A} (o : option A) : bool_decide (is_Some o) = is_stated o.
Proof. destruct o; [by apply bool_decide_true|by apply bool_decide_false, is_Some_None]. Qed.

Lemma steps_independent env env' c0 :
  agree env env' (consulted env c0) → Forall2 (λ f f', ∀ c, same_stated c0 c → f' c = f c) (steps env) (steps env').
Proof.
  intros Ha. unfold consulted in Ha. cbv zeta in Ha. rewrite !agree_app in Ha.
  destruct Ha as (A1 & A2 & A3 & A4 & A5 & A6 & A7 & A8 & A9 & A10 & A11 & A12).
  unfold steps. repeat (apply Forall2_cons; split); [..|apply Forall2_nil_2]; intros c (E1 & E2 & E3).
  - unfold resolveProtocol. rewrite E1. destruct (ov_Protocol (Overrides c0)); [done|]. by rewrite (agree_signal _ _ _ A1).
  - unfold resolveEndpoint. rewrite E1. destruct (ov_Endpoint (Overrides c0)); [done|]. by rewrite (agree_signal _ _ _ A2).
  - unfold resolveInsecure. rewrite E1. destruct (ov_Insecure (Overrides c0)); [done|]. by rewrite (agree_signal _ _ _ A3).
  - unfold resolveHeaders. rewrite E1. destruct (ov_Headers (Overrides c0)); [done|]. by rewrite (agree_signal _ _ _ A4).
  - unfold resolveTimeout. rewrite E1. destruct (ov_Timeout (Overrides c0)); [done|]. cbn [is_stated unless] in A5.
    apply agree_app in A5 as [A5 A5']. rewrite (agree_signal _ _ _ A5).
    destruct (signalEnv env (str "TIMEOUT")); [done|]. by rewrite (agree_value _ _ _ A5').
  - unfold resolveCompression. rewrite E1. destruct (ov_Compression (Overrides c0)); [done|]. by rewrite (agree_signal _ _ _ A6).
  - unfold resolveTLSFiles. cbv zeta.
    rewrite (file_ext env env' "CERTIFICATE" (ov_CAFile (Overrides c)) os_CAFile c) by (rewrite E1; exact A7).
    set (c1 := resolve_file env "CERTIFICATE" _ _ c). assert (F1 : Overrides c1 = Overrides c0) by (unfold c1; by rewrite file_overrides).
    rewrite (file_ext env env' "CLIENT_CERTIFICATE" (ov_ClientCertFile (Overrides c1)) os_ClientCertFile c1) by (rewrite F1; exact A8).
    set (c2 := resolve_file env "CLIENT_CERTIFICATE" _ _ c1).
    assert (F2 : Overrides c2 = Overrides c0) by (unfold c2; by rewrite file_overrides). f_equal.
    apply file_ext. rewrite F2. exact A9.
  - unfold resolveTemporality. rewrite E1. destruct (ov_Temporality (Overrides c0)); [done|]. by rewrite (agree_value _ _ _ A10).
  - unfold resolveHistogramAggregation. fold (otlp c). destruct (histograms_stated c0) eqn:Eh.
    + specialize (E3 eq_refl). unfold histograms_stated in E3. rewrite !stated_decide, <-!orb_assoc, !E3. by rewrite !orb_true_r.
    + by rewrite (agree_value _ _ _ A11).
  - unfold resolveExportInterval. rewrite E2. destruct (FlushIntervalSet c0); [done|]. by rewrite (agree_value _ _ _ A12).
Qed.

(** The settings of OTLP the environment cannot give. *)
Definition rest (o : OTLPConfig) : OTLPConfig :=
  mkOTLP (o_Enabled o) [] false ∅ (o_ServiceName o) (o_DeploymentEnvironment o) (o_ServiceVersion o) (o_ResourceAttributes o)
    (o_ResourceSchemaURL o) [] [] [] 0 (o_HistogramBuckets o) (o_BucketsByName o) (o_Retry o) None (o_TLSConfig o) [] [] []
    (o_DisableResourceDetection o) (o_HTTPClient o) (o_GRPCDialOptions o).

(** What validation asks of the settings one by one. *)
Definition well_formed (c : Config) : Prop :=
  one_of (o_Temporality (otlp c)) [[]; Cumulative; Delta] = true
  ∧ one_of (o_Compression (otlp c)) [[]; str "gzip"; str "none"] = true
  ∧ one_of (o_Protocol (otlp c)) [[]; OTLPProtocolGRPC; OTLPProtocolHTTP] = true
  ∧ 0 ≤ o_ExportTimeout (otlp c) ∧ 0 < FlushInterval c
  ∧ match o_ExponentialHistogram (otlp c) with Some h => eh_Validate h | None => None end = None.

Definition in_range (c : Config) : Prop := o_ExportTimeout (otlp c) < 2 ^ 63 ∧ FlushInterval c < 2 ^ 63.

(** What validation asks of several settings together, and of the endpoint, for which
    there is no default. *)
Definition cross_checks (o : OTLPConfig) : option error :=
  first_error
    [check (negb (Bool.eqb (empty (o_ClientCertFile o)) (empty (o_ClientKeyFile o)))) "client certificate and client key must be set together";
     check (bool_decide (is_Some (o_HTTPClient o)) && negb (gostring_eqb (o_Protocol o) OTLPProtocolHTTP)) "HTTPClient requires the http protocol";
     check ((0 <? len (default [] (o_GRPCDialOptions o))) && gostring_eqb (o_Protocol o) OTLPProtocolHTTP) "GRPCDialOptions requires the grpc protocol";
     check (empty (o_Endpoint o)) "endpoint is required"].

(** [c] is [c0] but for settings that the options left open; what it takes is well formed. *)
Definition fills (c0 c : Config) : Prop :=
  let ov := Overrides c0 in
  set_FlushInterval 0 (set_OTLP None c) = set_FlushInterval 0 (set_OTLP None c0)
  ∧ rest (otlp c) = rest (otlp c0)
  ∧ (FlushIntervalSet c0 = true → FlushInterval c = FlushInterval c0)
  ∧ (histograms_stated c0 = true → o_ExponentialHistogram (otlp c) = o_ExponentialHistogram (otlp c0))
  ∧ (is_stated (ov_Endpoint ov) = true → o_Endpoint (otlp c) = o_Endpoint (otlp c0))
  ∧ (is_stated (ov_Insecure ov) = true → o_Insecure (otlp c) = o_Insecure (otlp c0))
  ∧ (is_stated (ov_Headers ov) = true → o_Headers (otlp c) = o_Headers (otlp c0))
  ∧ (is_stated (ov_Timeout ov) = true → o_ExportTimeout (otlp c) = o_ExportTimeout (otlp c0))
  ∧ (is_stated (ov_Compression ov) = true → o_Compression (otlp c) = o_Compression (otlp c0))
  ∧ (is_stated (ov_Protocol ov) = true → o_Protocol (otlp c) = o_Protocol (otlp c0))
  ∧ (is_stated (ov_Temporality ov) = true → o_Temporality (otlp c) = o_Temporality (otlp c0))
  ∧ (is_stated (ov_CAFile ov) = true → o_CAFile (otlp c) = o_CAFile (otlp c0))
  ∧ (is_stated (ov_ClientCertFile ov) = true → o_ClientCertFile (otlp c) = o_ClientCertFile (otlp c0))
  ∧ (is_stated (ov_ClientKeyFile ov) = true → o_ClientKeyFile (otlp c) = o_ClientKeyFile (otlp c0))
  ∧ (empty (o_Endpoint (otlp c0)) = false → empty (o_Endpoint (otlp c)) = false)
  ∧ (well_formed c0 → well_formed c) ∧ (in_range c0 → in_range c).

Lemma milliseconds_bounds v d : parseMilliseconds v = inl d → 0 < d < 2 ^ 63.
Proof.
  unfold parseMilliseconds. destruct (ParseInt v) as [ms|]; [|done]. destruct (Z.leb_spec ms 0); [done|].
  destruct (Z.ltb_spec ((2 ^ 63 - 1) / Millisecond) ms) as [|Hle]; [done|]. intros [= <-].
  assert (Hm : ms * Millisecond ≤ 2 ^ 63 - 1).
  { etrans; [exact (Z.mul_le_mono_nonneg_r ms ((2 ^ 63 - 1) / Millisecond) Millisecond ltac:(done) Hle)|]. rewrite Z.mul_comm. by apply Z.mul_div_le. }
  assert (Hp : 0 < ms * Millisecond) by (apply Z.mul_pos_pos; [done|done]).
  rewrite i64_small; lia.
Qed.

Lemma one_of_more s l : one_of s l = true → one_of s ([] :: l) = true.
Proof. unfold one_of. rewrite !bool_decide_eq_true. intros. by right. Qed.

Lemma signal_nonempty env suffix name value : signalEnv env suffix = Some (name, value) → empty value = false.
Proof.
  unfold signalEnv. destruct (empty (envValue env (envMetricsPrefix ++ suffix))) eqn:E1; cbn [negb].
  - destruct (empty (envValue env (envGenericPrefix ++ suffix))) eqn:E2; cbn [negb]; [done|]. by intros [= _ <-].
  - by intros [= _ <-].
Qed.

Lemma endpoint_nonempty (b : bool) value : empty value = false → empty (if b then trim_slashes value ++ metricsEndpointPath else value) = false.
Proof. intros Hv. destruct b; [|done]. by destruct (trim_slashes value). Qed.

(** Closes [fills c0 c'] for a step that changes one setting the options left open. *)
Ltac filled :=
  match goal with Hf : fills _ _ |- _ => destruct Hf as (? & ? & ? & ? & ? & ? & ? & ? & ? & ? & ? & ? & ? & ? & ? & ? & ?) end;
  unfold fills; split_and!;
  first [ assumption
        | intros; match goal with E : ?x = None, HH : is_stated ?x = true |- _ => rewrite E in HH; discriminate HH end
        | intros; match goal with Hw : well_formed ?c → well_formed _, HH : well_formed ?c |- _ =>
            destruct (Hw HH) as (? & ? & ? & ? & ? & ?) end;
          unfold well_formed; split_and!; first [assumption | reflexivity | by apply one_of_more | (simpl; lia)]
        | intros; assumption
        | intros; match goal with Hw : in_range ?c → in_range _, HH : in_range ?c |- _ => destruct (Hw HH) as (? & ?) end;
          unfold in_range; split_and!; first [assumption | (simpl; lia)]
        | idtac ].

Lemma steps_fill env c0 :
  Forall (λ f, ∀ c c', same_stated c0 c ∧ fills c0 c → f c = inl c' → same_stated c0 c' ∧ fills c0 c') (steps env).
Proof.
  apply Forall_forall. intros f Hin c c' [Hs Hf] He. split.
  { pose proof (steps_stated env c0) as Hall. rewrite Forall_forall in Hall. by eapply Hall. }
  destruct Hs as (E1 & E2 & E3). unfold steps in Hin.
  repeat (apply elem_of_cons in Hin as [->|Hin]); try (by apply not_elem_of_nil in Hin).
  - unfold resolveProtocol in He. rewrite E1 in He. repeat (case_match; simplify_eq); try done; filled.
  - unfold resolveEndpoint in He. rewrite E1 in He. destruct (ov_Endpoint (Overrides c0)) eqn:Ee; [by injection He as <-|].
    destruct (signalEnv env (str "ENDPOINT")) as [[name value]|] eqn:Es; [|by injection He as <-].
    apply signal_nonempty in Es. cbv zeta in He.
    pose proof (endpoint_nonempty (gostring_eqb name envGenericEndpoint
      && gostring_eqb (o_Protocol (default empty_OTLP (OTLP c))) OTLPProtocolHTTP) value Es) as Hne.
    injection He as <-. filled.
  - unfold resolveInsecure in He. rewrite E1 in He. repeat (case_match; simplify_eq); try done; filled.
  - unfold resolveHeaders in He. rewrite E1 in He. repeat (case_match; simplify_eq); try done; filled.
  - unfold resolveTimeout in He. rewrite E1 in He. repeat (case_match; simplify_eq); try done;
      match goal with Hp : parseMilliseconds _ = inl _ |- _ => apply milliseconds_bounds in Hp end; filled.
  - unfold resolveCompression in He. rewrite E1 in He. repeat (case_match; simplify_eq); try done. filled.
  - unfold resolveTLSFiles in He. injection He as <-. rewrite !file_overrides, E1. unfold resolve_file.
    repeat case_match; try done; filled.
  - unfold resolveTemporality in He. rewrite E1 in He. repeat (case_match; simplify_eq); try done; filled.
  - unfold resolveHistogramAggregation in He. fold (otlp c) in He. repeat (case_match; simplify_eq); try done; filled.
    intros Hh. specialize (E3 Hh). unfold histograms_stated in E3. rewrite <-!stated_decide in E3.
    match goal with Hb : _ || _ || _ = false |- _ => rewrite <-orb_assoc, E3, orb_true_r in Hb; discriminate Hb end.
  - unfold resolveExportInterval in He. rewrite E2 in He. destruct (FlushIntervalSet c0) eqn:Es; [by injection He as <-|].
    repeat (case_match; simplify_eq); try done;
      match goal with Hp : parseMilliseconds _ = inl _ |- _ => apply milliseconds_bounds in Hp end; filled.
    by rewrite Es.
Qed.

Lemma steps_errors env : Forall (λ f, ∀ c e, f c = inr e → errors_is ErrInvalidConfig e = true) (steps env).
Proof.
  unfold steps. rewrite !Forall_cons. split_and!; [..|apply Forall_nil_2]; intros c e Hf;
    cbv beta delta [resolveProtocol resolveEndpoint resolveInsecure resolveHeaders resolveTimeout resolveCompression
      resolveTLSFiles resolveTemporality resolveHistogramAggregation resolveExportInterval] in Hf;
    cbv zeta in Hf; repeat (case_match; simplify_eq/=); done.
Qed.

Lemma fills_refl c : fills c c.
Proof. by unfold fills. Qed.

Lemma check_none b msg : check b msg = None ↔ b = false.
Proof. by destruct b. Qed.

(** The checks of an enabled OTLP configuration, one setting at a time and between settings. *)
Lemma otlp_validate_split o :
  o_Enabled o = true →
  otlp_Validate o = None ↔
  (one_of (o_Temporality o) [[]; Cumulative; Delta] = true
   ∧ one_of (o_Compression o) [[]; str "gzip"; str "none"] = true
   ∧ one_of (o_Protocol o) [[]; OTLPProtocolGRPC; OTLPProtocolHTTP] = true
   ∧ 0 ≤ o_ExportTimeout o)
  ∧ validateHistograms o = None
  ∧ match o_Retry o with Some r => retry_Validate r | None => None end = None
  ∧ cross_checks o = None.
Proof.
  intros He. unfold otlp_Validate. rewrite He. cbn [negb]. set (retry := match o_Retry o with Some r => _ | None => _ end).
  unfold cross_checks. rewrite first_error_none. split.
  - destruct (first_error _) eqn:E; [done|]. apply first_error_none in E. rewrite first_error_none.
    rewrite !Forall_cons, !check_none, !negb_false_iff, Z.ltb_ge in *. intros. split_and!; by try tauto.
  - rewrite !Forall_cons, !check_none, !negb_false_iff. intros ((H1 & H2 & H3 & H4) & H6 & H7 & H8).
    assert (first_error [check (negb (one_of (o_Temporality o) [[]; Cumulative; Delta])) "unsupported temporality";
       check (negb (one_of (o_Compression o) [[]; str "gzip"; str "none"])) "unsupported compression";
       check (o_ExportTimeout o <? 0) "export timeout must not be negative"; validateHistograms o; retry] = None) as ->.
    { apply first_error_none. rewrite !Forall_cons, !check_none, !negb_false_iff, Z.ltb_ge. split_and!; done. }
    apply first_error_none. rewrite !Forall_cons, !check_none, !negb_false_iff. split_and!; by try tauto.
Qed.

(** An enabled configuration that passes every other check answers the cross checks. *)
Lemma otlp_validate_cross o :
  o_Enabled o = true →
  (one_of (o_Temporality o) [[]; Cumulative; Delta] = true
   ∧ one_of (o_Compression o) [[]; str "gzip"; str "none"] = true
   ∧ one_of (o_Protocol o) [[]; OTLPProtocolGRPC; OTLPProtocolHTTP] = true
   ∧ 0 ≤ o_ExportTimeout o) →
  validateHistograms o = None → match o_Retry o with Some r => retry_Validate r | None => None end = None →
  otlp_Validate o = cross_checks o.
Proof.
  intros He (H1 & H2 & H3 & H4) Hh Hr. unfold otlp_Validate, cross_checks.
  rewrite He, H1, H2, H3, Hh, Hr. rewrite (proj2 (Z.ltb_ge _ _) H4). cbn [negb check first_error].
  repeat case_match; congruence.
Qed.

(** A configuration that validates, with open settings filled, fails validation only
    in a check between settings or for want of an endpoint. *)
Lemma validate_filled c0 c :
  set_FlushInterval 0 (set_OTLP None c) = set_FlushInterval 0 (set_OTLP None c0) →
  rest (otlp c) = rest (otlp c0) → (well_formed c0 → well_formed c) →
  otlp_enabled c0 = true → ValidateConfig c0 = None →
  ValidateConfig c = wrap "otlp config" (cross_checks (otlp c)).
Proof.
  intros E1 E2 Hw Hen Hv.
  unfold ValidateConfig in Hv. apply first_error_none in Hv. repeat (apply Forall_cons in Hv as [? Hv]). clear Hv.
  destruct (OTLP c0) as [o0|] eqn:Eo0; [|by unfold otlp_enabled in Hen; rewrite Eo0 in Hen].
  assert (Hen0 : o_Enabled o0 = true) by (unfold otlp_enabled in Hen; by rewrite Eo0 in Hen).
  assert (Ho0 : otlp c0 = o0) by (unfold otlp; by rewrite Eo0). rewrite Ho0 in E2.
  destruct (OTLP c) as [o|] eqn:Eo.
  2: { unfold otlp in E2. rewrite Eo in E2. apply (f_equal o_Enabled) in E2. simpl in E2. congruence. }
  assert (Ho : otlp c = o) by (unfold otlp; by rewrite Eo). rewrite Ho in E2 |- *.
  assert (He : o_Enabled o = true) by (apply (f_equal o_Enabled) in E2; simpl in E2; congruence).
  match goal with Hx : validateOTLPConfig _ = None |- _ => rename Hx into Hot end.
  unfold validateOTLPConfig in Hot. rewrite Hen0 in Hot. cbn [orb] in Hot.
  apply first_error_none in Hot. apply Forall_cons in Hot as [He1 Hot]. apply Forall_cons in Hot as [Hov _].
  assert (Hov' : otlp_Validate o0 = None) by by destruct (otlp_Validate o0).
  apply (otlp_validate_split o0 Hen0) in Hov' as ((V1 & V2 & V3 & V4) & Hh & Hr & _).
  destruct Hw as (W1 & W2 & W3 & W4 & W5 & W7).
  { unfold well_formed. rewrite Ho0. split_and!; try done.
    - match goal with Hx : check_invalid (FlushInterval c0 <=? 0) _ = None |- _ => unfold check_invalid in Hx end.
      destruct (Z.leb_spec (FlushInterval c0) 0); [done|lia].
    - by destruct (o_ExponentialHistogram o0) as [h|]; [destruct (eh_Validate h)|]. }
  rewrite Ho in W1, W2, W3, W4, W7.
  assert (Hot : validateOTLPConfig (Some o) = wrap "otlp config" (cross_checks o)).
  { unfold validateOTLPConfig. rewrite W7, He. cbn [orb fmap option_fmap option_map first_error].
    rewrite otlp_validate_cross; [by destruct (cross_checks o)|done|done| |].
    - unfold validateHistograms in Hh |- *. rewrite W7. apply first_error_none in Hh.
      apply (f_equal o_HistogramBuckets) in E2 as B1. apply (f_equal o_BucketsByName) in E2 as B2. simpl in B1, B2.
      rewrite B1, B2. apply first_error_none. rewrite !Forall_cons in Hh |- *. tauto.
    - apply (f_equal o_Retry) in E2. simpl in E2. by rewrite E2. }
  unfold ValidateConfig. rewrite Eo, Hot.
  assert (Hcust : validateCustomExporters c = None).
  { match goal with Hx : validateCustomExporters c0 = None |- _ => rewrite <-Hx end.
    assert (builtin_names c = builtin_names c0) as Hb.
    { unfold builtin_names. rewrite Eo, Eo0. unfold is_enabled. rewrite He, Hen0.
      apply (f_equal Datadog) in E1 as D1. apply (f_equal Prometheus) in E1 as D2. apply (f_equal CloudWatch) in E1 as D3.
      simpl in D1, D2, D3. by rewrite D1, D2, D3. }
    unfold validateCustomExporters. rewrite Hb. apply (f_equal Exporters) in E1. simpl in E1. by rewrite E1. }
  rewrite Hcust. destruct c, c0. simpl in *. injection E1 as <-. subst.
  rewrite (proj2 (Z.leb_gt _ _) W5).
  repeat match goal with Hx : ?x = None |- context [?x] => rewrite Hx end.
  simpl. by destruct (cross_checks o).
Qed.

(** C26. Options win over the environment.  The environment is asked only when the options
    enable OTLP, and then only for the settings they left open, the variable of the metrics
    signal before the generic one: two environments that agree on those variables, and on
    the service name, give the same result, so an invalid variable of a stated setting
    breaks nothing.  A configuration that is returned is the options' own but for open
    settings.  When the options' own configuration is valid but for an endpoint, what the
    environment gives passes every check of a single setting: the one returned fails
    ValidateConfig only with the error of a check between settings (a client certificate
    without its key or the reverse, an HTTP client or gRPC dial options with the other
    protocol) or because neither gave an endpoint.
    An error of the environment matches ErrInvalidConfig. *)
Theorem env_precedence env opts :
  let c0 := optioned env opts in
  (∀ env', envValue env' envServiceName = envValue env envServiceName →
     (otlp_enabled c0 = true → agree env env' (consulted env c0)) → buildConfig env' opts = buildConfig env opts)
  ∧ (∀ c, buildConfig env opts = inl c → fills c0 c ∧ (otlp_enabled c0 = false → c = c0))
  ∧ (∀ c e, buildConfig env opts = inl c → ValidateConfig (with_OTLP (os_Endpoint e) c0) = None →
       ValidateConfig c = if otlp_enabled c0 then wrap "otlp config" (cross_checks (otlp c)) else ValidateConfig c0)
  ∧ (∀ e, buildConfig env opts = inr e → errors_is ErrInvalidConfig e = true).
Proof.
  intros c0. assert (Hss : same_stated c0 c0) by done.
  assert (Hfills : ∀ c, buildConfig env opts = inl c → fills c0 c ∧ (otlp_enabled c0 = false → c = c0)).
  { intros c. unfold buildConfig. fold c0. cbv zeta. destruct (otlp_enabled c0).
    - intros Hr. split; [|done]. eapply (run_steps_inv (λ c, same_stated c0 c ∧ fills c0 c) (steps env) c0); [apply steps_fill| |exact Hr].
      split; [done|apply fills_refl].
    - intros [= <-]. split; [apply fills_refl|done]. }
  split_and!; [|exact Hfills| |].
  - intros env' Hn Ha. unfold buildConfig. cbv zeta.
    assert (optioned env' opts = c0) as -> by (unfold c0, optioned; by rewrite Hn). fold c0.
    destruct (otlp_enabled c0); [|done]. specialize (Ha eq_refl).
    apply (run_steps_ext (same_stated c0) (steps env) (steps env')); [|done].
    pose proof (steps_independent env env' c0 Ha) as H1. pose proof (steps_stated env c0) as H2.
    revert H1 H2. generalize (steps env) (steps env'). intros l l' H1 H2.
    induction H1 as [|f f' l l' Hf _ IH]; [constructor|]. inversion H2; subst. constructor; [|auto].
    intros c Hc. split; [by apply Hf|]. eauto.
  - intros c e Hb. destruct (Hfills c Hb) as [Hf Hoff]. intros Hv. destruct (otlp_enabled c0) eqn:Ee.
    + destruct Hf as (E1 & E2 & _ & _ & _ & _ & _ & _ & _ & _ & _ & _ & _ & _ & _ & Hw & _).
      unfold otlp_enabled in Ee. destruct (OTLP c0) as [o0|] eqn:Eo; [|done].
      apply (validate_filled (with_OTLP (os_Endpoint e) c0) c); try done; unfold with_OTLP in *; rewrite Eo in *; done.
    + by rewrite (Hoff eq_refl).
  - intros e. unfold buildConfig. fold c0. cbv zeta. destruct (otlp_enabled c0); [|done].
    apply (run_steps_error (λ e, errors_is ErrInvalidConfig e = true) (steps env)), steps_errors.
Qed.

End options.

(** ** A concrete environment *)

(** The collector's address and an unknown compression; the option states the compression. *)
Definition demo_env (name : gostring) : gostring :=
  if gostring_eqb name (str "OTEL_EXPORTER_OTLP_ENDPOINT") then str " http://collector:4318/ "
  else if gostring_eqb name (str "OTEL_EXPORTER_OTLP_PROTOCOL") then str "http/protobuf"
  else if gostring_eqb name (str "OTEL_EXPORTER_OTLP_TIMEOUT") then str "2500"
  else if gostring_eqb name (str "OTEL_METRIC_EXPORT_INTERVAL") then str "soon"
  else [].

Definition demo_options : list (@Option toy_attributes) := [WithOTLPFromEnv; WithFlushInterval Second].

Definition demo_config : option (@Config toy_attributes) :=
  match buildConfig demo_env demo_options with inl c => Some c | inr _ => None end.

Example demo_config_resolved :
  (λ c, (o_Endpoint (otlp c), o_Protocol (otlp c), o_ExportTimeout (otlp c), FlushInterval c)) <$> demo_config
  = Some (str "http://collector:4318/v1/metrics", str "http", 2500 * Millisecond, Second).
Proof. vm_compute. reflexivity. Qed.

(** With a client certificate and no key the environment's configuration is rejected. *)
Example demo_certificate_alone :
  (λ c, ValidateConfig c) <$>
    (match buildConfig (λ n, if gostring_eqb n (str "OTEL_EXPORTER_OTLP_CLIENT_CERTIFICATE") then str "cert.pem" else demo_env n)
             demo_options with inl c => Some c | inr _ => None end)
  = Some (wrap "otlp config" (Some (ErrText (str "client certificate and client key must be set together")))).
Proof. vm_compute. reflexivity. Qed.

(** Without the option the invalid interval is an error, with it the variable is not
    read; and but for the endpoint the options' own configuration is valid. *)
Lemma env_precedence_witness :
  buildConfig (λ n, if gostring_eqb n envExportInterval then str "later" else demo_env n) demo_options
  = buildConfig demo_env demo_options
  ∧ (∀ c, buildConfig demo_env demo_options = inl c → ValidateConfig c = wrap "otlp config" (cross_checks (otlp c))).
Proof.
  destruct (env_precedence demo_env demo_options) as (Hind & _ & Hval & _).
  split; [|intros c Hc; apply (Hval c (str "collector") Hc); vm_compute; reflexivity].
  apply Hind; [reflexivity|]. intros _ n Hn.
  destruct (gostring_eqb n envExportInterval) eqn:E; [|reflexivity]. exfalso. apply bool_decide_eq_true in E. subst n.
  revert Hn. apply (bool_decide_unpack _). vm_compute. exact I.
Defined.
