(* ===== verification/Exporter.v ===== *)
(** * What the datagram exporters share (exporters/exporter.go)

    A [BaseExporter] is a serializer, a connection pool and a circuit breaker with
    two counters.  Its methods are trees of atomic actions, built from the trees of
    [Circuit] and [Udp] by [lift]: any number of workers may export at once.
    [exporter_accounting] shows that, however they interleave, the counters of the
    exporter and of its breaker agree with what the calls returned. *)

From S2P Require Import Prelude GoLib Atomic Circuit Udp Attribute Metric DogStatsD.
#[local] Open Scope prog_scope.

Module Exporter.
Section exporter.
Context `{Attributes}.

(** The Serializer interface: packets, or an error. *)
Record Serializer := mkSerializer { ser_name : gostring; ser_Serialize : list Metric → list gostring + error }.

(** The serializers of the package; these two never fail. *)
Definition dogstatsd_serializer (s : DogStatsDSerializer) : Serializer :=
  mkSerializer (str "dogstatsd") (λ ms, inl (Serialize s ms)).

Definition statsd_serializer (prefix : gostring) : Serializer :=
  mkSerializer (str "statsd") (λ ms, inl (statsd_Serialize prefix ms)).

Record BaseExporter := mkBase {
  name : gostring; pool : Udp.UDPConnPool; breaker : Circuit.CircuitBreaker; serializer : Serializer;
  exported : Z; errors : Z }.

Definition set_pool (e : BaseExporter) p := mkBase (name e) p (breaker e) (serializer e) (exported e) (errors e).
Definition set_breaker (e : BaseExporter) b := mkBase (name e) (pool e) b (serializer e) (exported e) (errors e).
Definition set_counts (e : BaseExporter) x r := mkBase (name e) (pool e) (breaker e) (serializer e) x r.

Section construction.
Context (ResolveUDPAddr : gostring → gostring → option error).
Context (dialUnixgram DialUDP : nat → gostring → option error) (SetWriteBuffer : nat → option error).

(** The breaker's second argument is a time.Duration. *)
Definition NewBaseExporterNetwork (name network address : gostring) (serializer : Serializer) (now : Z) :
    BaseExporter + error :=
  match Udp.NewPool ResolveUDPAddr dialUnixgram DialUDP SetWriteBuffer network address 4 (100 * Millisecond) with
  | inr (err, _) => inr (ErrWrap (str "create " ++ network ++ str " pool") err)
  | inl pool => inl (mkBase name pool (Circuit.NewCircuitBreaker 5 10 now) serializer 0 0)
  end.

Definition NewBaseExporter (name address : gostring) (serializer : Serializer) (now : Z) : BaseExporter + error :=
  NewBaseExporterNetwork name (str "udp") address serializer now.
End construction.

(** ** Atomic actions *)
Inductive act : Type → Type :=
| OfBreaker {B} (e : Circuit.act B) : act B
| OfPool {B} (e : Udp.act B) : act B
| AddExported (n : Z) : act unit
| AddErrors : act unit
| LoadExported : act Z
| LoadErrors : act Z.

Definition handle (B : Type) (e : act B) (s : BaseExporter) : list (B * BaseExporter) :=
  match e in act B return list (B * BaseExporter) with
  | OfBreaker e => (λ r, (r.1, set_breaker s r.2)) <$> Circuit.handle _ e (breaker s)
  | OfPool e => (λ r, (r.1, set_pool s r.2)) <$> Udp.handle _ e (pool s)
  | AddExported n => [(tt, set_counts s (u64 (exported s + n)) (errors s))]
  | AddErrors => [(tt, set_counts s (exported s) (u64 (errors s + 1)))]
  | LoadExported => [(exported s, s)]
  | LoadErrors => [(errors s, s)]
  end.

#[local] Notation "'run!' e ; k" := (@Act act _ _ e (λ _, k)) : prog_scope.
#[local] Notation "'let!' x := e ; k" := (@Act act _ _ e (λ x, k)) : prog_scope.

Definition of_breaker {A} : prog Circuit.act A → prog act A := lift (@OfBreaker).
Definition of_pool {A} : prog Udp.act A → prog act A := lift (@OfPool).

(** CircuitBreaker.Call around a function of the exporter; a panic of the function
    passes through it, and nothing is recorded. *)
Definition Call (fn : prog act Udp.result) : prog act Udp.result :=
  let@ allowed := of_breaker Circuit.allowRequest;
  if negb allowed then
    run! OfBreaker Circuit.AddTotalRejected;
    Ret (Udp.Returned (Some (ErrIs TransportErrCircuitOpen)))
  else
    let@ r := fn;
    match r with
    | Udp.Panicked => Ret Udp.Panicked
    | Udp.Returned (Some err) => run@ of_breaker Circuit.recordFailure; Ret (Udp.Returned (Some err))
    | Udp.Returned None => run@ of_breaker Circuit.recordSuccess; Ret (Udp.Returned None)
    end.

Definition send (c : Udp.ctx) (n : Udp.net) (packets : list gostring) (count : Z) : prog act Udp.result :=
  let@ r := of_pool (Udp.SendBatch c n packets);
  match r with
  | Udp.Panicked => Ret Udp.Panicked
  | Udp.Returned (Some err) => run! AddErrors; Ret (Udp.Returned (wrap "send batch" (Some err)))
  | Udp.Returned None =>
      if 0 <? count then run! AddExported (u64 count); Ret (Udp.Returned None) else Ret (Udp.Returned None)
  end.

Definition doExport (ser : Serializer) (c : Udp.ctx) (n : Udp.net) (metrics : list Metric) : prog act Udp.result :=
  match ser_Serialize ser metrics with
  | inr err => run! AddErrors; Ret (Udp.Returned (wrap "serialize metrics" (Some err)))
  | inl packets => send c n packets (len metrics)
  end.

Definition Export (ser : Serializer) (c : Udp.ctx) (n : Udp.net) (metrics : list Metric) : prog act Udp.result :=
  if len metrics =? 0 then Ret (Udp.Returned None) else Call (doExport ser c n metrics).

Definition SendPackets (c : Udp.ctx) (n : Udp.net) (packets : list gostring) (count : Z) : prog act Udp.result :=
  if len packets =? 0 then Ret (Udp.Returned None) else Call (send c n packets count).

Definition Shutdown (fuel : nat) : prog act Udp.result := of_pool (Udp.Close fuel).

Record ExporterStats := mkExporterStats {
  es_Name : gostring; es_Exported : Z; es_Errors : Z; PoolStats : Udp.PoolStats; BreakerStats : Circuit.CircuitStats }.

Definition Stats (name : gostring) : prog act ExporterStats :=
  let@ poolStats := of_pool Udp.Stats;
  let@ breakerStats := of_breaker Circuit.Stats;
  let! x := LoadExported;
  let! r := LoadErrors;
  Ret (mkExporterStats name x r poolStats breakerStats).

(** ** Accounting

    What a goroutine has counted so far: successes, failures and rejections at the
    breaker, metrics exported and errors at the exporter. *)
Record tally := mkTally { t_ok : Z; t_fail : Z; t_rej : Z; t_exp : Z; t_err : Z }.

Definition t_zero : tally := mkTally 0 0 0 0 0.
Definition t_add (a b : tally) : tally :=
  mkTally (t_ok a + t_ok b) (t_fail a + t_fail b) (t_rej a + t_rej b) (t_exp a + t_exp b) (t_err a + t_err b).

(** What one action counts. *)
Definition counts_breaker {B} (e : Circuit.act B) : tally :=
  match e with
  | Circuit.AddTotalSuccess => mkTally 1 0 0 0 0
  | Circuit.AddTotalFailures => mkTally 0 1 0 0 0
  | Circuit.AddTotalRejected => mkTally 0 0 1 0 0
  | _ => t_zero
  end.

Definition counts {B} (e : act B) : tally :=
  match e with
  | OfBreaker e => counts_breaker e
  | AddExported n => mkTally 0 0 0 n 0
  | AddErrors => mkTally 0 0 0 0 1
  | _ => t_zero
  end.

(** [acc Q p g]: after [g] and all that [p] counts, [Q] holds of its result. *)
Fixpoint acc {A} (Q : A → tally → Prop) (p : prog act A) (g : tally) : Prop :=
  match p with
  | Ret a => Q a g
  | Act e k => ∀ b, acc Q (k b) (t_add g (counts e))
  end.

Lemma t_add_zero g : t_add g t_zero = g.
Proof. destruct g. unfold t_add. simpl. by rewrite !Z.add_0_r. Qed.

Lemma acc_bind {A C} (Q : C → tally → Prop) (p : prog act A) f g :
  acc (λ a g', acc Q (f a) g') p g → acc Q (bind p f) g.
Proof. revert g. induction p as [a|B e k IH]; intros g; simpl; [done|]. intros Hp b. by apply IH. Qed.

Lemma acc_impl {A} (Q Q' : A → tally → Prop) p g :
  (∀ a g', Q a g' → Q' a g') → acc Q p g → acc Q' p g.
Proof. intros HQ. revert g. induction p as [a|B e k IH]; intros g; simpl; [apply HQ|]. intros Hp b. by apply IH. Qed.

Lemma acc_pool {A} (Q : A → tally → Prop) (p : prog Udp.act A) g : (∀ a, Q a g) → acc Q (of_pool p) g.
Proof. intros HQ. induction p as [a|B e k IH]; simpl; [done|]. intros b. rewrite t_add_zero. apply IH. Qed.

Ltac solve_acc :=
  repeat (cbn -[Z.eqb Z.leb Z.ltb Sub Unix UnixNano i32 t_add t_zero]; rewrite ?t_add_zero;
    match goal with
    | |- ∀ _, _ => intro
    | |- context [if ?b then _ else _] => destruct b
    end); cbn; auto.

Lemma acc_allow (Q : bool → tally → Prop) g : (∀ b, Q b g) → acc Q (of_breaker Circuit.allowRequest) g.
Proof. intros HQ. unfold Circuit.allowRequest. solve_acc. Qed.

Lemma acc_success (Q : unit → tally → Prop) g : Q tt (t_add g (mkTally 1 0 0 0 0)) → acc Q (of_breaker Circuit.recordSuccess) g.
Proof. intros HQ. unfold Circuit.recordSuccess. solve_acc. Qed.

Lemma acc_failure (Q : unit → tally → Prop) g : Q tt (t_add g (mkTally 0 1 0 0 0)) → acc Q (of_breaker Circuit.recordFailure) g.
Proof. intros HQ. unfold Circuit.recordFailure. solve_acc. Qed.

(** Goroutines that use an exporter. *)
Inductive op :=
| OExport (ser : Serializer) (c : Udp.ctx) (n : Udp.net) (metrics : list Metric)
| OSendPackets (c : Udp.ctx) (n : Udp.net) (packets : list gostring) (count : Z)
| OShutdown (fuel : nat).

Definition method (o : op) : prog act Udp.result :=
  match o with
  | OExport ser c n metrics => Export ser c n metrics
  | OSendPackets c n packets count => SendPackets c n packets count
  | OShutdown fuel => Shutdown fuel
  end.

Definition program (o : op) : prog act (op * Udp.result) := let@ r := method o; Ret (o, r).

(** Whether the call reaches the breaker, and the metrics it is about. *)
Definition guarded (o : op) : bool :=
  match o with
  | OExport _ _ _ metrics => negb (len metrics =? 0)
  | OSendPackets _ _ packets _ => negb (len packets =? 0)
  | OShutdown _ => false
  end.

Definition about (o : op) : Z :=
  match o with
  | OExport _ _ _ metrics => len metrics
  | OSendPackets _ _ _ count => Z.max 0 count
  | OShutdown _ => 0
  end.

(** What a call that returned should have counted. *)
Definition accounted (or : op * Udp.result) : tally :=
  if guarded or.1 then
    match or.2 with
    | Udp.Returned None => mkTally 1 0 0 (about or.1) 0
    | Udp.Returned (Some (ErrIs TransportErrCircuitOpen)) => mkTally 0 0 1 0 0
    | Udp.Returned (Some _) => mkTally 0 1 0 0 1
    | Udp.Panicked => t_zero
    end
  else t_zero.

(** What a guarded function should have counted when it returns [r]. *)
Definition fn_counted (count : Z) (r : Udp.result) : tally :=
  match r with
  | Udp.Returned None => mkTally 0 0 0 count 0
  | Udp.Returned (Some _) => mkTally 0 0 0 0 1
  | Udp.Panicked => t_zero
  end.

Definition not_open (r : Udp.result) : Prop := r ≠ Udp.Returned (Some (ErrIs TransportErrCircuitOpen)).

Lemma acc_send c n packets count :
  count < 2 ^ 64 →
  acc (λ r g, g = fn_counted (Z.max 0 count) r ∧ not_open r) (send c n packets count) t_zero.
Proof.
  intros Hc. unfold send. apply acc_bind, acc_pool. intros [[err|]|]; cbn [acc].
  - by intros _.
  - destruct (Z.ltb_spec 0 count); cbn [acc]; [intros _|]; split; try done;
      unfold fn_counted, t_add; simpl; f_equal; rewrite ?u64_small by lia; lia.
  - done.
Qed.

Lemma acc_Call fn count o :
  guarded o = true → about o = count →
  acc (λ r g, g = fn_counted count r ∧ not_open r) fn t_zero →
  acc (λ r g, g = accounted (o, r)) (Call fn) t_zero.
Proof.
  intros Hg Ha Hfn. unfold Call, accounted. cbn [fst snd]. rewrite Hg. apply acc_bind, acc_allow.
  intros [|]; cbn [negb]; [|by intros _]. apply acc_bind. eapply acc_impl; [|exact Hfn].
  intros [[err|]|] g [-> Hno]; cbn [fn_counted].
  - apply acc_bind, acc_failure. cbn [acc]. unfold t_add. simpl.
    by destruct err as [[]| | | | | | |].
  - apply acc_bind, acc_success. cbn [acc]. unfold t_add. simpl. rewrite Ha. f_equal; lia.
  - done.
Qed.

Definition small (o : op) : Prop := about o < 2 ^ 64.

Lemma acc_method o : small o → acc (λ r g, g = accounted (o, r)) (method o) t_zero.
Proof.
  intros Hs. destruct o as [ser c n metrics|c n packets count|fuel]; cbn [method].
  - unfold Export. destruct (len metrics =? 0) eqn:E; [simpl; unfold accounted; simpl; by rewrite E|].
    eapply acc_Call; [simpl; by rewrite E|done|]. unfold doExport. destruct (ser_Serialize ser metrics).
    + pose proof (len_nonneg metrics). pose proof (acc_send c n l (len metrics) Hs) as Hsd.
      rewrite Z.max_r in Hsd by lia. exact Hsd.
    + cbn [acc]. by intros _.
  - unfold SendPackets. destruct (len packets =? 0) eqn:E; [simpl; unfold accounted; simpl; by rewrite E|].
    eapply acc_Call; [simpl; by rewrite E|done|]. apply acc_send. unfold small in Hs. simpl in Hs. lia.
  - apply acc_pool. intros r. by destruct r.
Qed.

(** The counters of the exporter. *)
Definition state_tally (s : BaseExporter) : tally :=
  mkTally (Circuit.totalSuccess (breaker s)) (Circuit.totalFailures (breaker s)) (Circuit.totalRejected (breaker s))
    (exported s) (errors s).

Definition u64_tally (t : tally) : tally :=
  mkTally (u64 (t_ok t)) (u64 (t_fail t)) (u64 (t_rej t)) (u64 (t_exp t)) (u64 (t_err t)).

Definition sums (gs : list tally) : tally :=
  mkTally (zsum t_ok gs) (zsum t_fail gs) (zsum t_rej gs) (zsum t_exp gs) (zsum t_err gs).

Lemma u64_tally_add a b : u64_tally (t_add (u64_tally a) b) = u64_tally (t_add a b).
Proof. unfold u64_tally, t_add. simpl. by rewrite !u64_add_l. Qed.

Lemma tally_insert gs i g e : gs !! i = Some g → sums (<[i := t_add g e]> gs) = t_add (sums gs) e.
Proof.
  intros Hi.
  assert (Hf : ∀ f : tally → Z, f (t_add g e) = f g + f e → zsum f (<[i := t_add g e]> gs) = zsum f gs + f e).
  { intros f He. pose proof (zsum_insert f gs i g (t_add g e) Hi) as Hz. lia. }
  unfold sums. by rewrite !Hf.
Qed.

Lemma handle_counts {B} (e : act B) b s s' t :
  state_tally s = u64_tally t → (b, s') ∈ handle _ e s → state_tally s' = u64_tally (t_add t (counts e)).
Proof.
  intros Hs Hin. assert (Hz : u64_tally (t_add t t_zero) = state_tally s) by by rewrite t_add_zero.
  unfold state_tally, u64_tally in *. injection Hs as H1 H2 H3 H4 H5. destruct e as [B e|B e|n| | |]; simpl in Hin.
  - apply list_elem_of_fmap in Hin as ([b' cb'] & [= -> ->] & Hin). destruct e; simpl in Hin |- *;
      try (destruct (Circuit.state (breaker s) =? old)); apply list_elem_of_singleton in Hin as [= -> ->]; simpl;
      rewrite ?H1, ?H2, ?H3, ?H4, ?H5, ?u64_add_l, ?Z.add_0_r; done.
  - apply list_elem_of_fmap in Hin as ([b' p'] & [= -> ->] & _). symmetry. exact Hz.
  - apply list_elem_of_singleton in Hin as [= -> ->]. simpl. by rewrite H1, H2, H3, H4, H5, u64_add_l, !Z.add_0_r.
  - apply list_elem_of_singleton in Hin as [= -> ->]. simpl. by rewrite H1, H2, H3, H4, H5, u64_add_l, !Z.add_0_r.
  - apply list_elem_of_singleton in Hin as [= -> ->]. symmetry. exact Hz.
  - apply list_elem_of_singleton in Hin as [= -> ->]. symmetry. exact Hz.
Qed.

(** The clock moves and contexts end on their own. *)
Definition surroundings (s s' : BaseExporter) : Prop :=
  (∃ d, 0 ≤ d ∧ s' = set_breaker s (Circuit.with_wall (Circuit.wall (breaker s) + d) (breaker s)))
  ∨ (∃ p, Udp.ctx_ends (pool s) p ∧ s' = set_pool s p).

(** A goroutine's ghost state: its call, and what it has counted. *)
Definition settles (p : prog act (op * Udp.result)) (og : op * tally) : Prop :=
  acc (λ or g, or.1 = og.1 ∧ g = accounted or) p og.2.

Definition books (os : list op) (s : BaseExporter) (gs : list (op * tally)) : Prop :=
  gs.*1 = os ∧ state_tally s = u64_tally (sums gs.*2).

Lemma runs_counted os s c :
  Forall small os → state_tally s = t_zero → gsteps handle surroundings (program <$> os, s) c →
  ∃ gs, Forall2 settles c.1 gs ∧ books os c.2 gs.
Proof.
  intros Hos Hs Hr. eapply (pool_invariant handle surroundings settles (books os)); [| |exact Hr|].
  - intros B e k [o g] s1 gs i b s' Hi Ha [Ho HI] Hin. exists (o, t_add g (counts e)). split; [apply Ha|].
    split; rewrite list_fmap_insert; simpl.
    + rewrite list_insert_id; [done|]. by rewrite list_lookup_fmap, Hi.
    + rewrite (tally_insert _ _ g); [by eapply handle_counts|]. by rewrite list_lookup_fmap, Hi.
  - intros s1 s' gs HI [(d & _ & ->)|(p & _ & ->)]; exact HI.
  - exists ((λ o, (o, t_zero)) <$> os). split; [|split]; simpl.
    + apply Forall2_fmap, Forall_Forall2_diag. eapply Forall_impl; [exact Hos|].
      intros o Ho. unfold settles, program. apply acc_bind. eapply acc_impl; [|by apply acc_method]. by intros r g ->.
    + rewrite <-list_fmap_compose. apply list_fmap_id.
    + rewrite <-list_fmap_compose, Hs.
      assert (Hz : ∀ f, f t_zero = 0 → zsum f (snd ∘ (λ o : op, (o, t_zero)) <$> os) = 0).
      { intros f Hf. clear -Hf. induction os as [|o os IH]; [done|]. cbn [fmap list_fmap zsum foldr].
        change (f t_zero + zsum f (snd ∘ (λ o : op, (o, t_zero)) <$> os) = 0). lia. }
      unfold u64_tally, sums. simpl. by rewrite !Hz.
Qed.

(** C8. The exporter's books balance.  However any number of Export, SendPackets
    and Shutdown calls interleave with each other, with the clock and with the ends of
    contexts, once they have all returned the breaker has counted every call that
    reached it exactly once (successes are the calls that returned nil, rejections
    those that returned its own error, failures all others), [exported] is the number of
    metrics of the calls that returned nil, and [errors] the number of failed sends and
    serializations.  A rejected call counts neither; a call that panics counts nothing. *)
Theorem exporter_accounting os s rs s' :
  Forall small os → state_tally s = t_zero →
  gsteps handle surroundings (program <$> os, s) (Ret <$> rs, s') →
  rs.*1 = os ∧ state_tally s' = u64_tally (sums (accounted <$> rs)).
Proof.
  intros Hos Hs Hr. destruct (runs_counted _ _ _ Hos Hs Hr) as (gs & HP & <- & HI). simpl in *. rewrite HI. clear -HP.
  rewrite Forall2_fmap_l in HP.
  enough (rs.*1 = gs.*1 ∧ accounted <$> rs = gs.*2) as [-> ->] by done.
  induction HP as [|r [o g] rs1 gs1 Hst _ [IH1 IH2]]; [done|].
  destruct Hst as [Ho Hg]. simpl in Ho, Hg. rewrite !fmap_cons, IH1, IH2, <-Ho, <-Hg. done.
Qed.

(** ** How long the breaker stays open *)
Lemma machine_never_rejects thr tmo now cs m :
  (match m with Circuit.MOpen since => since ≤ now | _ => True end) →
  Forall (λ c : Z * Z * option error, tmo < c.1.1 ∧ 0 ≤ c.1.2) cs → 0 ≤ tmo →
  (Circuit.machine_calls thr tmo now cs m).1 = snd <$> cs.
Proof.
  intros Hm Hf Ht. revert now m Hm. induction Hf as [|[[gap d] fn] cs [Hg Hd] _ IH]; intros now m Hm; [done|].
  simpl in Hg, Hd. cbn [Circuit.machine_calls fmap list_fmap].
  assert (Hlet : Circuit.lets_through tmo (now + gap) m = true) by (destruct m; [done|]; simpl; apply Z.ltb_lt; lia).
  rewrite Hlet. destruct (Circuit.machine_call _ _ _ _ _ _) as [m1 r] eqn:Ec.
  assert (r = fn ∧ match m1 with Circuit.MOpen since => since ≤ now + gap + d | _ => True end) as [-> Hm1].
  { destruct m as [n|since], fn as [err|]; simpl in Ec; simpl in Hlet; rewrite ?Hlet in Ec; repeat case_match; simplify_eq; split; lia || done. }
  specialize (IH (now + gap + d) m1 Hm1). destruct (Circuit.machine_calls _ _ _ cs m1) as [rs m2]. simpl in *. by rewrite IH.
Qed.

(** C16. The breaker of a datagram exporter never rejects calls that are more than ten
    nanoseconds apart, however many of them fail: NewCircuitBreaker(5, 10) passes ten
    nanoseconds, so the open state is over before the next call. *)
Theorem breaker_window r d1 d2 sw nm net addr ser now e cs :
  NewBaseExporterNetwork r d1 d2 sw nm net addr ser now = inl e →
  unix_epoch ≤ now → now + Circuit.calls_time cs < unix_epoch + 2 ^ 63 →
  Forall (λ c : Z * Z * option error, 10 < c.1.1 ∧ 0 ≤ c.1.2) cs →
  fst <$> Circuit.run_calls cs (breaker e) = Some (snd <$> cs).
Proof.
  unfold NewBaseExporterNetwork. intros He Hn Hn' Hf.
  destruct (Udp.NewPool _ _ _ _ _ _ _ _) as [p|[]]; [|done]. injection He as <-. cbn [breaker].
  destruct (Circuit.run_calls_refines cs (Circuit.NewCircuitBreaker 5 10 now) (Circuit.MClosed 0)) as (cb' & Hr & _).
  - eapply Forall_impl; [exact Hf|]. simpl. intros [[] ?]. simpl. lia.
  - unfold Circuit.in_range. simpl. lia.
  - split; [done|]. simpl. lia.
  - rewrite Hr. simpl. f_equal. by apply machine_never_rejects.
Qed.
End exporter.

(** ** A concrete exporter *)
(** A serializer that writes the names only. *)
Definition name_lines : @Serializer toy_attributes := mkSerializer (str "names") (λ ms, inl (Name <$> ms)).

Definition demo_exporter : @BaseExporter toy_attributes :=
  mkBase (str "datadog") (Udp.mkPool (str "udp") (str "127.0.0.1:8125") (100 * Millisecond) 4 [0; 1; 2; 3]%nat false false false 4 0 0 [] None)
    (Circuit.NewCircuitBreaker 5 10 (unix_epoch + 1000)) (name_lines) 0 0.

Definition demo_metric (name : string) : @Metric toy_attributes :=
  mkMetric (str name) MetricTypeCounter f_one [] 0 1 0 0 [] [].

Definition demo_ops : list (@op toy_attributes) :=
  let c := Udp.mkCtx None false in
  [OExport (name_lines) c (Udp.mkNet None (λ _, (8, None))) [demo_metric "a"; demo_metric "b"];
   OExport (name_lines) c (Udp.mkNet None (λ _, (0, Some (ErrExt 3)))) [demo_metric "c"];
   OSendPackets c (Udp.mkNet (Some (ErrExt 4)) (λ _, (0, None))) [str "x"] 1].

(** The first two calls overlap; the third comes after. *)
Definition demo_schedule : list nat := concat (replicate 13 [0; 1]%nat) ++ [1%nat] ++ replicate 13 2%nat.

Definition demo_results : list (op * Udp.result) :=
  zip demo_ops
    [Udp.Returned None; Udp.Returned (wrap "send batch" (wrap "all writes failed" (Some (ErrExt 3))));
     Udp.Returned (wrap "send batch" (wrap "set deadline" (Some (ErrExt 4))))].

Lemma exporter_accounting_witness :
  ∃ s', gsteps handle surroundings (program <$> demo_ops, demo_exporter) (Ret <$> demo_results, s')
    ∧ state_tally s' = mkTally 1 2 0 2 2.
Proof.
  destruct (sched_reaches handle surroundings demo_schedule (program <$> demo_ops, demo_exporter) (Ret <$> demo_results))
    as [s' Hr]; [vm_cast_no_check (eq_refl (Some (Ret (E := act) <$> demo_results)))|].
  exists s'. split; [exact Hr|].
  destruct (exporter_accounting demo_ops demo_exporter demo_results s') as [_ Ht]; [|reflexivity|exact Hr|exact Ht].
  repeat constructor.
Defined.

(** Twelve failures a microsecond apart, none rejected. *)
Lemma breaker_window_witness :
  let cs := replicate 12 (1000, 5, Some (ErrExt 7)) in
  NewBaseExporterNetwork (λ _ _, None) (λ _ _, None) (λ _ _, None) (λ _, None) (str "datadog") (str "udp")
      (str "127.0.0.1:8125") name_lines (unix_epoch + 1000) = inl demo_exporter
  ∧ fst <$> Circuit.run_calls cs (breaker demo_exporter) = Some (replicate 12 (Some (ErrExt 7))).
Proof.
  intros cs. match goal with |- ?G ∧ _ => assert (He : G) by reflexivity end. split; [exact He|].
  rewrite (breaker_window _ _ _ _ _ _ _ _ _ _ cs He); [reflexivity|lia|vm_compute; reflexivity|].
  repeat constructor; simpl; lia.
Defined.
End Exporter.
