(* ===== verification/Fanout.v ===== *)
(** * Combining exporters (exporters/multi.go, exporters/filtered.go)

    An exporter is its name, its optional capabilities and what its calls return.
    A call is given the deadline of its context; its outcome is a value, an error or
    a panic.  [Multi] runs its children in goroutines that share nothing but the
    slice of errors, in which each writes its own element before [Wait] returns, so
    the outcomes are computed one by one. *)

From S2P Require Import Prelude GoLib Attribute Metric.

Section fanout.
Context `{Attributes}.

Inductive outcome := Ok | Failed (e : error) | Panics (v : gostring).

(** models.Exporter, with ExportTimeouter and IdleExporter when it has the methods. *)
Record Exporter := mkExporter {
  x_name : gostring;
  x_timeout : option Z;
  x_export : option Z → list Metric → outcome;
  x_idle : option (option Z → outcome);
  x_shutdown : option Z → outcome }.

(** ** Multi *)
Record multi := mkMulti { m_name : gostring; defaultTimeout : Z; children : list Exporter; maxTimeout : Z }.

Definition timeoutFor (defaultTimeout : Z) (e : Exporter) : Z :=
  match x_timeout e with Some t => t | None => defaultTimeout end.

(** The loop of Multi over its arguments; nil exporters are [None]. *)
Fixpoint add_children (es : list (option Exporter)) (m : multi) : multi :=
  match es with
  | [] => m
  | None :: rest => add_children rest m
  | Some e :: rest =>
      let d := timeoutFor (defaultTimeout m) e in
      add_children rest (mkMulti (m_name m) (defaultTimeout m) (children m ++ [e])
                           (if maxTimeout m <? d then d else maxTimeout m))
  end.

Definition Multi (name : gostring) (defaultTimeout : Z) (es : list (option Exporter)) : multi :=
  add_children es (mkMulti name defaultTimeout [] 0).

(** context.WithTimeout *)
Definition WithTimeout (now : Z) (ctx : option Z) (d : Z) : option Z :=
  match ctx with Some t => Some (Z.min t (now + d)) | None => Some (now + d) end.

Definition child_ctx (now : Z) (m : multi) (bounded : bool) (ctx : option Z) (e : Exporter) : option Z :=
  if bounded then
    let d := timeoutFor (defaultTimeout m) e in
    if 0 <? d then WithTimeout now ctx d else ctx
  else ctx.

(** The element of errs that the goroutine of [e] leaves. *)
Definition child_error (e : Exporter) (o : outcome) : option error :=
  match o with
  | Ok => None
  | Failed err => Some (ErrWrap (x_name e) err)
  | Panics v => Some (ErrText (x_name e ++ str ": panic: " ++ v))
  end.

(** A child that is not selected leaves its element nil. *)
Definition fanOut (now : Z) (m : multi) (ctx : option Z) (bounded : bool) (selected : Exporter → bool)
    (fn : option Z → Exporter → outcome) : option error :=
  errors_join
    ((λ e, if selected e then child_error e (fn (child_ctx now m bounded ctx e) e) else None) <$> children m).

Definition multi_Export (now : Z) (m : multi) (ctx : option Z) (metrics : list Metric) : option error :=
  fanOut now m ctx true (λ _, true) (λ ctx e, x_export e ctx metrics).

Definition has_idle (e : Exporter) : bool := match x_idle e with Some _ => true | None => false end.

Definition multi_ExportIdle (now : Z) (m : multi) (ctx : option Z) : option error :=
  fanOut now m ctx true has_idle (λ ctx e, match x_idle e with Some f => f ctx | None => Ok end).

Definition multi_Shutdown (now : Z) (m : multi) (ctx : option Z) : option error :=
  fanOut now m ctx false (λ _, true) (λ ctx e, x_shutdown e ctx).

Definition returned (r : option error) : outcome := match r with Some err => Failed err | None => Ok end.

(** What the pipeline sees of a Multi: it always has both capabilities. *)
Definition as_exporter (now : Z) (m : multi) : Exporter :=
  mkExporter (m_name m) (Some (maxTimeout m)) (λ ctx ms, returned (multi_Export now m ctx ms))
    (Some (λ ctx, returned (multi_ExportIdle now m ctx))) (λ ctx, returned (multi_Shutdown now m ctx)).

(** ** Filtered *)
Definition filtered_Export (inner : Exporter) (filter : option (list Metric → list Metric)) (ctx : option Z)
    (metrics : list Metric) : outcome :=
  let metrics := match filter with Some f => f metrics | None => metrics end in
  if len metrics =? 0 then Ok else x_export inner ctx metrics.

(** Filtered picks the wrapper with exactly the capabilities of [e]. *)
Definition Filtered (e : Exporter) (filter : option (list Metric → list Metric)) : Exporter :=
  let base := mkExporter (x_name e) None (filtered_Export e filter) None (x_shutdown e) in
  match x_timeout e, x_idle e with
  | Some t, Some i => mkExporter (x_name e) (Some t) (filtered_Export e filter) (Some i) (x_shutdown e)
  | Some t, None => mkExporter (x_name e) (Some t) (filtered_Export e filter) None (x_shutdown e)
  | None, Some i => mkExporter (x_name e) None (filtered_Export e filter) (Some i) (x_shutdown e)
  | None, None => base
  end.

(** ** Children of a Multi *)
Lemma foldr_max_init a b l : foldr Z.max (Z.max a b) l = Z.max a (foldr Z.max b l).
Proof. induction l as [|x l IH]; simpl; lia. Qed.

Lemma add_children_spec es m :
  let m' := add_children es m in
  m_name m' = m_name m ∧ defaultTimeout m' = defaultTimeout m ∧ children m' = children m ++ omap id es
  ∧ maxTimeout m' = foldr Z.max (maxTimeout m) (timeoutFor (defaultTimeout m) <$> omap id es).
Proof.
  revert m. induction es as [|[e|] es IH]; intros m; cbn [add_children].
  - by rewrite app_nil_r.
  - destruct (IH (mkMulti (m_name m) (defaultTimeout m) (children m ++ [e])
      (if maxTimeout m <? timeoutFor (defaultTimeout m) e then timeoutFor (defaultTimeout m) e else maxTimeout m)))
      as (-> & -> & -> & ->). simpl. rewrite <-app_assoc. split_and!; try done.
    replace (if _ <? _ then _ else _) with (Z.max (timeoutFor (defaultTimeout m) e) (maxTimeout m))
      by (destruct (Z.ltb_spec (maxTimeout m) (timeoutFor (defaultTimeout m) e)); lia).
    apply foldr_max_init.
  - apply IH.
Qed.

Lemma foldr_max_ge z x l : x ∈ l → x ≤ foldr Z.max z l.
Proof. induction 1 as [x l|x y l Hx IH]; simpl; lia. Qed.

Lemma Multi_children name d es :
  children (Multi name d es) = omap id es ∧ defaultTimeout (Multi name d es) = d
  ∧ maxTimeout (Multi name d es) = foldr Z.max 0 (timeoutFor d <$> omap id es).
Proof. by destruct (add_children_spec es (mkMulti name d [] 0)) as (_ & ? & ? & ?). Qed.

(** C14. One batch, every child.  The result of Multi's Export is nil exactly when
    every child (nil ones apart) returned nil; it matches a sentinel exactly when the error some child
    returned matches it, so a panicking sibling hides nothing; and every child whose
    timeout is positive runs with its own timeout, cut short only by the caller's
    deadline, which ExportTimeout keeps from happening: a context bounded by it leaves
    each child its full time. *)
Theorem multi_isolates name d es now ctx metrics :
  let m := Multi name d es in
  let run e := x_export e (child_ctx now m true ctx e) metrics in
  (multi_Export now m ctx metrics = None ↔ ∀ e, Some e ∈ es → run e = Ok)
  ∧ (∀ s, errors_is s <$> multi_Export now m ctx metrics = Some true
        ↔ ∃ e err, Some e ∈ es ∧ run e = Failed err ∧ errors_is s err = true)
  ∧ (∀ e, Some e ∈ es → 0 < timeoutFor d e →
        child_ctx now m true (WithTimeout now None (maxTimeout m)) e = Some (now + timeoutFor d e)).
Proof.
  intros m run. destruct (Multi_children name d es) as (Hc & Hd & Hmax). fold m in Hc, Hd, Hmax.
  assert (Hin : ∀ e, e ∈ children m ↔ Some e ∈ es).
  { intros e. rewrite Hc, list_elem_of_omap. unfold id. naive_solver. }
  unfold multi_Export, fanOut. split_and!.
  - rewrite errors_join_none, Forall_fmap, Forall_forall. unfold compose. cbv beta iota. split.
    + intros Hn e He. specialize (Hn e (proj2 (Hin e) He)). unfold run. by destruct (x_export e _ metrics).
    + intros Hr e He. apply Hin in He. specialize (Hr e He). unfold run in Hr. by rewrite Hr.
  - intros s. rewrite errors_join_is. split.
    + intros (err & Herr & Hs). apply list_elem_of_fmap in Herr as (e & He & Hec). cbv beta iota in He.
      exists e. apply Hin in Hec. unfold run. destruct (x_export e _ metrics) as [|err'|v]; simplify_eq/=; eauto.
    + intros (e & err & He & Hr & Hs). exists (ErrWrap (x_name e) err). split; [|done].
      apply list_elem_of_fmap. exists e. split; [|by apply Hin]. unfold run in Hr. cbv beta iota. by rewrite Hr.
  - intros e He Ht. unfold child_ctx. rewrite Hd. destruct (Z.ltb_spec 0 (timeoutFor d e)); [|lia].
    unfold WithTimeout. f_equal. rewrite Z.min_r; [done|].
    enough (timeoutFor d e ≤ maxTimeout m) by lia. rewrite Hmax. apply foldr_max_ge, list_elem_of_fmap.
    exists e. split; [done|]. apply list_elem_of_omap. by exists (Some e).
Qed.

End fanout.

(** ** Three children *)
Definition demo_child (name : string) (t : option Z) (o : outcome) : @Exporter toy_attributes :=
  mkExporter (str name) t (λ _ _, o) None (λ _, Ok).

(** One child fails, one panics, one is fine; the failure is still visible. *)
Example multi_demo :
  let m := Multi (str "all") 100 [Some (demo_child "a" None (Failed (ErrIs ErrTimeout))); None;
             Some (demo_child "b" (Some 500) (Panics (str "oops"))); Some (demo_child "c" None Ok)] in
  errors_is ErrTimeout <$> multi_Export 1000 m None [] = Some true ∧ maxTimeout m = 500.
Proof. split; reflexivity. Qed.
