(* ===== verification/Buffer.v ===== *)
(** * The buffering exporter (exporters/buffer.go)

    Goroutines append serialized packets to pooled buffers, each guarded by a spin
    flag, and write a buffer to the destination when it is full or flushed.  Methods
    are trees of atomic actions.  [buffer_lines] shows what reaches the destination
    under every interleaving: whole lines, each exactly once; [export_leaves_lines]
    shows that a concurrent call can leave lines behind in Export.

    The spinning loop of acquireBuffer is cut off after an arbitrary number of turns,
    so every finite execution is an execution of the model. *)

From S2P Require Import Prelude GoLib Atomic Attribute Metric DogStatsD.
#[local] Open Scope prog_scope.

Module Buffer.
Section buffer.
Context `{Attributes}.

Definition DefaultBufferSize : Z := 1024.

(** The fields set before first use; a nil Serializer is [None]. *)
Record config := mkConfig {
  has_dst : bool; Serializer : option (list Metric → list gostring + error);
  BufferSize : Z; BufferPoolSize : Z; GOMAXPROCS : Z }.

Record pooledBuffer := mkBuffer { lock : bool; data : gostring }.

Record state := mkState {
  prepared : bool; offset : Z; buffers : list pooledBuffer; writeMu : bool;
  (** history: the chunks given to Dst.Write, in order *)
  written : list gostring }.

Context (cfg : config).
(** What the n-th Write returns. *)
Context (write : nat → option error).

Definition size : Z := if 0 <? BufferSize cfg then BufferSize cfg else DefaultBufferSize.

Definition pool_size : Z := if BufferPoolSize cfg <=? 0 then i64 (2 * GOMAXPROCS cfg) else BufferPoolSize cfg.

Definition new_state : state := mkState false 0 [] false [].

(** ** Atomic actions *)
Inductive act : Type → Type :=
| Prepare : act unit                          (* once.Do *)
| NumBuffers : act Z
| AddOffset : act Z
| Acquire (i : nat) : act bool
| Release (i : nat) : act unit
| Append (i : nat) (bs : gostring) : act unit
| LenData (i : nat) : act Z
| Truncate (i : nat) : act unit
| LockWrite : act unit
| UnlockWrite : act unit
| WriteDst (i : nat) : act (option error).

Definition set_buffer (s : state) (i : nat) (b : pooledBuffer) : state :=
  mkState (prepared s) (offset s) (<[i := b]> (buffers s)) (writeMu s) (written s).

(** The methods only use indices of the slice. *)
Definition with_buffer {B} (s : state) (i : nat) (f : pooledBuffer → list (B * state)) : list (B * state) :=
  match buffers s !! i with Some b => f b | None => [] end.

Definition handle (B : Type) (e : act B) (s : state) : list (B * state) :=
  match e in act B return list (B * state) with
  | Prepare =>
      if prepared s then [(tt, s)]
      else [(tt, mkState true (offset s) (replicate (Z.to_nat pool_size) (mkBuffer false [])) (writeMu s) (written s))]
  | NumBuffers => [(len (buffers s), s)]
  | AddOffset => [(u64 (offset s + 1), mkState (prepared s) (u64 (offset s + 1)) (buffers s) (writeMu s) (written s))]
  | Acquire i => with_buffer s i (λ b, if lock b then [(false, s)] else [(true, set_buffer s i (mkBuffer true (data b)))])
  | Release i => with_buffer s i (λ b, [(tt, set_buffer s i (mkBuffer false (data b)))])
  | Append i bs => with_buffer s i (λ b, [(tt, set_buffer s i (mkBuffer (lock b) (data b ++ bs)))])
  | LenData i => with_buffer s i (λ b, [(len (data b), s)])
  | Truncate i => with_buffer s i (λ b, [(tt, set_buffer s i (mkBuffer (lock b) []))])
  | LockWrite => if writeMu s then [] else [(tt, mkState (prepared s) (offset s) (buffers s) true (written s))]
  | UnlockWrite => [(tt, mkState (prepared s) (offset s) (buffers s) false (written s))]
  | WriteDst i =>
      with_buffer s i (λ b,
        [(write (length (written s)), mkState (prepared s) (offset s) (buffers s) (writeMu s) (written s ++ [data b]))])
  end.

#[local] Notation "'let!' x := e ; k" := (@Act act _ _ e (λ x, k)) : prog_scope.
#[local] Notation "'run!' e ; k" := (@Act act _ _ e (λ _, k)) : prog_scope.

(** ** The methods *)
Definition errBufferConfig : error := ErrText (str "exporters: Buffer needs a Dst and a Serializer").

(** A method returns, or was still spinning when it was cut off. *)
Inductive result := Done (e : option error) | Spinning.

Fixpoint acquireBuffer (turns : nat) (n : Z) : prog act (option nat) :=
  match turns with
  | O => Ret None
  | S t =>
      let! o := AddOffset;
      let i := Z.to_nat (o mod n) in
      let! got := Acquire i;
      if got then Ret (Some i) else acquireBuffer t n
  end.

Definition drain (i : nat) : prog act (option error) :=
  let! l := LenData i;
  if l =? 0 then Ret None
  else
    run! LockWrite;
    let! err := WriteDst i;
    run! UnlockWrite;
    run! Truncate i;
    Ret err.

(** Whether the packet already ends in a line feed. *)
Definition terminated (p : gostring) : bool := bool_decide (last p = Some newline).

Fixpoint append_packets (i : nat) (packets : list gostring) : prog act unit :=
  match packets with
  | [] => Ret tt
  | p :: rest =>
      run! Append i p;
      if negb (terminated p) then run! Append i [newline]; append_packets i rest
      else append_packets i rest
  end.

Definition Handle (turns : nat) (metrics : list Metric) : prog act result :=
  match metrics with
  | [] => Ret (Done None)
  | _ =>
      match has_dst cfg, Serializer cfg with
      | true, Some serialize =>
          match serialize metrics with
          | inr err => Ret (Done (Some err))
          | inl packets =>
              run! Prepare;
              let! n := NumBuffers;
              let@ got := acquireBuffer turns n;
              match got with
              | None => Ret Spinning
              | Some i =>
                  run@ append_packets i packets;
                  let! l := LenData i;
                  if size <=? l then
                    let@ err := drain i;
                    run! Release i;
                    Ret (Done err)
                  else run! Release i; Ret (Done None)
              end
          end
      | _, _ => Ret (Done (Some errBufferConfig))
      end
  end.

(** Flush's loop: [k] buffers from index [i] on. *)
Fixpoint flush_loop (k i : nat) (errs : list (option error)) : prog act (list (option error)) :=
  match k with
  | O => Ret errs
  | S k' =>
      let! got := Acquire i;
      if negb got then flush_loop k' (S i) errs
      else
        let@ err := drain i;
        run! Release i;
        flush_loop k' (S i) (errs ++ [err])
  end.

Definition Flush : prog act result :=
  if has_dst cfg then
    run! Prepare;
    let! n := NumBuffers;
    let@ errs := flush_loop (Z.to_nat n) 0 [];
    Ret (Done (errors_join errs))
  else Ret (Done (Some errBufferConfig)).

Definition Export (turns : nat) (metrics : list Metric) : prog act result :=
  let@ r := Handle turns metrics;
  match r with
  | Done None => Flush
  | r => Ret r
  end.

Definition Shutdown : prog act result := Flush.

(** ** Who touches what

    The ghost state of a goroutine: the buffer it holds, the packet it has appended
    without its line feed, whether it holds the write lock, whether it has written the
    buffer and not emptied it yet, and the packets it has appended. *)
Record own := mkOwn { hold : option nat; part : option gostring; mu : bool; wrote : bool; acc : list gostring }.

Definition idle : own := mkOwn None None false false [].

(** The protocol: what an action requires of the goroutine's ghost state ([None] when
    it is not allowed), and what it makes of it. *)
Definition holds (g : own) (i : nat) : bool := bool_decide (hold g = Some i).

Definition step_own {B} (e : act B) (g : own) : option (B → own) :=
  match e in act B return option (B → own) with
  | Prepare | NumBuffers | AddOffset => Some (λ _, g)
  | Acquire i =>
      if bool_decide (hold g = None)
      then Some (λ b : bool, if b then mkOwn (Some i) None (mu g) false (acc g) else g) else None
  | Release i =>
      if holds g i && bool_decide (part g = None) && negb (wrote g)
      then Some (λ _, mkOwn None None (mu g) false (acc g)) else None
  | Append i bs =>
      if holds g i && negb (wrote g) then
        match part g with
        | None =>
            if terminated bs then Some (λ _, mkOwn (hold g) None (mu g) false (acc g ++ [bs]))
            else Some (λ _, mkOwn (hold g) (Some bs) (mu g) false (acc g))
        | Some p =>
            if bool_decide (bs = [newline]) && negb (terminated p)
            then Some (λ _, mkOwn (hold g) None (mu g) false (acc g ++ [p])) else None
        end
      else None
  | LenData i => if holds g i then Some (λ _, g) else None
  | Truncate i =>
      if holds g i && wrote g && bool_decide (part g = None)
      then Some (λ _, mkOwn (hold g) None (mu g) false (acc g)) else None
  | LockWrite => if mu g then None else Some (λ _, mkOwn (hold g) (part g) true (wrote g) (acc g))
  | UnlockWrite => if mu g then Some (λ _, mkOwn (hold g) (part g) false (wrote g) (acc g)) else None
  | WriteDst i =>
      if holds g i && mu g && negb (wrote g) && bool_decide (part g = None)
      then Some (λ _, mkOwn (hold g) None (mu g) true (acc g)) else None
  end.

Fixpoint follows {A} (Q : A → own → Prop) (p : prog act A) (g : own) : Prop :=
  match p with
  | Ret a => Q a g
  | Act e k => match step_own e g with Some f => ∀ b, follows Q (k b) (f b) | None => False end
  end.

Lemma follows_bind {A C} (Q : C → own → Prop) (p : prog act A) f g :
  follows (λ a g', follows Q (f a) g') p g → follows Q (bind p f) g.
Proof.
  revert g. induction p as [a|B e k IH]; intros g; simpl; [done|]. destruct (step_own e g); [|done]. intros Hp b. by apply IH.
Qed.

(** The lines as they are written. *)
Definition terminate (p : gostring) : gostring := if terminated p then p else p ++ [newline].

Definition body (ps : list gostring) : gostring := concat (terminate <$> ps).

Lemma body_snoc ps p : body (ps ++ [p]) = body ps ++ terminate p.
Proof. unfold body. rewrite fmap_app, concat_app. simpl. by rewrite app_nil_r. Qed.

(** [contents] are the packets of each buffer that have not been written, [wg] those of
    each write. *)
Record inv (s : state) (gs : list own) (contents wg : list (list gostring)) : Prop := mkInv {
  i_len : length contents = length (buffers s);
  i_written : written s = body <$> wg;
  i_perm : concat wg ++ concat contents ≡ₚ concat (acc <$> gs);
  i_free : ∀ i b c, buffers s !! i = Some b → contents !! i = Some c → lock b = false → data b = body c;
  i_held : ∀ j g i, gs !! j = Some g → hold g = Some i →
    ∃ b c, buffers s !! i = Some b ∧ contents !! i = Some c ∧ lock b = true
      ∧ if wrote g then c = [] else data b = body c ++ default [] (part g);
  i_lock : ∀ i b, buffers s !! i = Some b → lock b = true → ∃ j g, gs !! j = Some g ∧ hold g = Some i;
  i_uniq : ∀ j1 j2 g1 g2 i, gs !! j1 = Some g1 → gs !! j2 = Some g2 → hold g1 = Some i → hold g2 = Some i → j1 = j2;
  i_mu : ∀ j1 j2 g1 g2, gs !! j1 = Some g1 → gs !! j2 = Some g2 → mu g1 = true → mu g2 = true → j1 = j2;
  i_locked : ∀ j g, gs !! j = Some g → mu g = true → writeMu s = true;
  i_unprepared : prepared s = false → buffers s = [];
  i_writer : writeMu s = true → ∃ j g, gs !! j = Some g ∧ mu g = true }.

Lemma writer_insert (gs : list own) (j : nat) g g' :
  gs !! j = Some g → mu g' = mu g → (∃ j g, gs !! j = Some g ∧ mu g = true) →
  ∃ j0 g0, <[j := g']> gs !! j0 = Some g0 ∧ mu g0 = true.
Proof.
  intros Hj Hm (j0 & g0 & Hj0 & Hm0). pose proof (lookup_lt_Some _ _ _ Hj). destruct (decide (j = j0)) as [<-|Hne].
  - exists j, g'. rewrite list_lookup_insert_eq by done. split; [done|]. congruence.
  - exists j0, g0. by rewrite list_lookup_insert_ne.
Qed.

(** Replacing one element of a list of lists. *)
Lemma concat_replace {A} (ls : list (list A)) i l :
  ls !! i = Some l → ∃ rest, ∀ l', concat (<[i := l']> ls) ≡ₚ l' ++ rest.
Proof.
  revert i. induction ls as [|x ls IH]; intros [|i] Hi; simplify_eq/=; [by exists (concat ls)|].
  destruct (IH i Hi) as [rest Hr]. exists (x ++ rest). intros l'. rewrite Hr.
  rewrite !(assoc_L (++)). by rewrite (comm (++) x l').
Qed.

Lemma concat_take_out {A} (ls : list (list A)) i l :
  ls !! i = Some l → ∃ rest, concat ls ≡ₚ l ++ rest ∧ ∀ l', concat (<[i := l']> ls) ≡ₚ l' ++ rest.
Proof.
  intros Hi. destruct (concat_replace ls i l Hi) as [rest Hr]. exists rest. split; [|done].
  rewrite <-(list_insert_id ls i l Hi) at 1. apply Hr.
Qed.

Lemma lookup_insert_cases {A} (l : list A) i j x y : <[i := x]> l !! j = Some y → (j = i ∧ y = x) ∨ (j ≠ i ∧ l !! j = Some y).
Proof.
  intros Hl. destruct (decide (i = j)) as [->|Hne].
  - left. apply list_lookup_insert_Some in Hl as [(_ & -> & _)|(? & _)]; done.
  - right. rewrite list_lookup_insert_ne in Hl by done. done.
Qed.

Lemma perm_step {A} (wg wg' c c' : list A) a a' all_c all_c' all_a all_a' :
  wg ++ all_c ≡ₚ all_a →
  (∃ rest, all_c ≡ₚ c ++ rest ∧ all_c' ≡ₚ c' ++ rest) → (∃ rest, all_a ≡ₚ a ++ rest ∧ all_a' ≡ₚ a' ++ rest) →
  (∃ x, wg' ++ c' ≡ₚ x ++ wg ++ c ∧ a' ≡ₚ x ++ a) →
  wg' ++ all_c' ≡ₚ all_a'.
Proof.
  intros H0 (r1 & H1 & H1') (r2 & H2 & H2') (x & H3 & H4).
  rewrite H1', H2', (assoc_L (++)), H3, H4, <-!(assoc_L (++)), <-H1, H0, <-H2. done.
Qed.

(** The holder [j] of buffer [i] changes it, and keeps holding it. *)
Lemma inv_touch s s' gs contents wg wg' j g g' i b b' c c' :
  inv s gs contents wg → gs !! j = Some g → hold g = Some i → buffers s !! i = Some b → contents !! i = Some c →
  hold g' = Some i → mu g' = mu g → lock b' = true →
  (if wrote g' then c' = [] else data b' = body c' ++ default [] (part g')) →
  buffers s' = <[i := b']> (buffers s) → written s' = body <$> wg' → writeMu s' = writeMu s → prepared s' = prepared s →
  (∃ x, concat wg' ++ c' ≡ₚ x ++ concat wg ++ c ∧ acc g' ≡ₚ x ++ acc g) →
  inv s' (<[j := g']> gs) (<[i := c']> contents) wg'.
Proof.
  intros HI Hj Hh Hb Hc Hh' Hmu Hlock Hdata Hbs Hw Hwm Hpr Hx.
  pose proof (lookup_lt_Some _ _ _ Hb) as Hlt. pose proof (lookup_lt_Some _ _ _ Hc) as Hltc. pose proof (lookup_lt_Some _ _ _ Hj) as Hltj.
  destruct HI as [Hlen Hwr Hperm Hfree Hheld Hlk Huniq Hmuq Hlkd Hun Hwriter]. split.
  - by rewrite Hbs, !length_insert.
  - done.
  - eapply perm_step; [exact Hperm| | |exact Hx].
    + destruct (concat_take_out _ _ _ Hc) as (rest & ? & ?). exists rest. eauto.
    + assert (Ha : (acc <$> gs) !! j = Some (acc g)) by by rewrite list_lookup_fmap, Hj.
      destruct (concat_take_out _ _ _ Ha) as (rest & ? & Hr). exists rest. split; [done|]. rewrite list_fmap_insert. apply Hr.
  - intros i0 b0 c0 Hb0 Hc0 Hl0. rewrite Hbs in Hb0. apply lookup_insert_cases in Hb0 as [[-> ->]|[Hne Hb0]]; [congruence|].
    rewrite list_lookup_insert_ne in Hc0 by done. by eapply Hfree.
  - intros j0 g0 i0 Hg0 Hh0. apply lookup_insert_cases in Hg0 as [[-> ->]|[Hne Hg0]].
    + rewrite Hh' in Hh0. injection Hh0 as <-. exists b', c'. rewrite Hbs, !list_lookup_insert_eq by lia. done.
    + assert (i0 ≠ i) by (intros ->; destruct Hne; by eapply Huniq).
      rewrite Hbs, !list_lookup_insert_ne by done. by eapply Hheld.
  - intros i0 b0 Hb0 Hl0. rewrite Hbs in Hb0. apply lookup_insert_cases in Hb0 as [[-> ->]|[Hne Hb0]].
    + exists j, g'. by rewrite list_lookup_insert_eq.
    + destruct (Hlk i0 b0 Hb0 Hl0) as (j0 & g0 & Hj0 & Hh0). exists j0, g0. rewrite list_lookup_insert_ne; [done|]. congruence.
  - intros j1 j2 g1 g2 i0 H1 H2 Hi1 Hi2.
    apply lookup_insert_cases in H1 as [[-> ->]|[Hn1 H1]], H2 as [[-> ->]|[Hn2 H2]]; try done.
    + eapply (Huniq j j2); [done|done| |done]. congruence.
    + eapply (Huniq j1 j); [done|done|done|]. congruence.
    + by eapply Huniq.
  - intros j1 j2 g1 g2 H1 H2 Hi1 Hi2.
    apply lookup_insert_cases in H1 as [[-> ->]|[Hn1 H1]], H2 as [[-> ->]|[Hn2 H2]]; try done.
    + eapply (Hmuq j j2); try done. congruence.
    + eapply (Hmuq j1 j); try done. congruence.
    + by eapply Hmuq.
  - intros j0 g0 Hg0 Hm0. rewrite Hwm. apply lookup_insert_cases in Hg0 as [[-> ->]|[Hne Hg0]]; [|by eapply Hlkd].
    eapply Hlkd; [exact Hj|congruence].
  - rewrite Hpr, Hbs. intros Hp. rewrite (Hun Hp) in Hlt. simpl in Hlt. lia.
  - rewrite Hwm. intros Hm. eapply writer_insert; eauto.
Qed.

(** A goroutine takes a free buffer, or gives its own back. *)
Lemma inv_acquire s gs contents wg j g i b :
  inv s gs contents wg → gs !! j = Some g → hold g = None → buffers s !! i = Some b → lock b = false →
  inv (set_buffer s i (mkBuffer true (data b))) (<[j := mkOwn (Some i) None (mu g) false (acc g)]> gs) contents wg.
Proof.
  intros HI Hj Hh Hb Hl. pose proof (lookup_lt_Some _ _ _ Hb) as Hlt. pose proof (lookup_lt_Some _ _ _ Hj) as Hltj.
  destruct HI as [Hlen Hwr Hperm Hfree Hheld Hlk Huniq Hmuq Hlkd Hun Hwriter].
  destruct (lookup_lt_is_Some_2 contents i) as [c Hc]; [lia|].
  split; simpl; try done.
  - by rewrite length_insert.
  - rewrite list_fmap_insert, list_insert_id; [done|]. by rewrite list_lookup_fmap, Hj.
  - intros i0 b0 c0 Hb0 Hc0 Hl0. apply lookup_insert_cases in Hb0 as [[-> ->]|[Hne Hb0]]; [done|]. by eapply Hfree.
  - intros j0 g0 i0 Hg0 Hh0. apply lookup_insert_cases in Hg0 as [[-> ->]|[Hne Hg0]]; simpl in *.
    + injection Hh0 as <-. exists (mkBuffer true (data b)), c. rewrite list_lookup_insert_eq by done. simpl.
      rewrite app_nil_r. split_and!; try done. by eapply Hfree.
    + destruct (Hheld j0 g0 i0 Hg0 Hh0) as (b0 & c0 & Hb0 & Hr). exists b0, c0.
      rewrite list_lookup_insert_ne; [done|]. intros ->. destruct Hr as (_ & Hr & _). congruence.
  - intros i0 b0 Hb0 Hl0. apply lookup_insert_cases in Hb0 as [[-> ->]|[Hne Hb0]].
    + eexists j, _. by rewrite list_lookup_insert_eq.
    + destruct (Hlk i0 b0 Hb0 Hl0) as (j0 & g0 & Hj0 & Hh0). exists j0, g0. rewrite list_lookup_insert_ne; [done|]. congruence.
  - assert (Hfresh : ∀ j0 g0, gs !! j0 = Some g0 → hold g0 ≠ Some i).
    { intros j0 g0 Hg0 Hi0. destruct (Hheld j0 g0 i Hg0 Hi0) as (b0 & c0 & Hb0 & _ & Hl0 & _). congruence. }
    intros j1 j2 g1 g2 i0 H1 H2 Hi1 Hi2.
    apply lookup_insert_cases in H1 as [[-> ->]|[Hn1 H1]], H2 as [[-> ->]|[Hn2 H2]]; simpl in *; try done.
    + injection Hi1 as <-. by destruct (Hfresh j2 g2 H2).
    + injection Hi2 as <-. by destruct (Hfresh j1 g1 H1).
    + by eapply Huniq.
  - intros j1 j2 g1 g2 H1 H2 Hi1 Hi2.
    apply lookup_insert_cases in H1 as [[-> ->]|[Hn1 H1]], H2 as [[-> ->]|[Hn2 H2]]; simpl in *; eauto.
  - intros j0 g0 Hg0 Hm0. apply lookup_insert_cases in Hg0 as [[-> ->]|[Hne Hg0]]; eauto.
  - intros Hp. rewrite (Hun Hp) in Hlt. simpl in Hlt. lia.
  - intros Hm. eapply writer_insert; eauto.
Qed.

Lemma inv_release s gs contents wg j g i b :
  inv s gs contents wg → gs !! j = Some g → hold g = Some i → part g = None → wrote g = false → buffers s !! i = Some b →
  inv (set_buffer s i (mkBuffer false (data b))) (<[j := mkOwn None None (mu g) false (acc g)]> gs) contents wg.
Proof.
  intros HI Hj Hh Hpt Hwt Hb. pose proof (lookup_lt_Some _ _ _ Hb) as Hlt. pose proof (lookup_lt_Some _ _ _ Hj) as Hltj.
  destruct HI as [Hlen Hwr Hperm Hfree Hheld Hlk Huniq Hmuq Hlkd Hun Hwriter]. split; simpl; try done.
  - by rewrite length_insert.
  - rewrite list_fmap_insert, list_insert_id; [done|]. by rewrite list_lookup_fmap, Hj.
  - intros i0 b0 c0 Hb0 Hc0 Hl0. apply lookup_insert_cases in Hb0 as [[-> ->]|[Hne Hb0]]; [|by eapply Hfree]. simpl.
    destruct (Hheld j g i Hj Hh) as (b1 & c1 & Hb1 & Hc1 & _ & Hd). rewrite Hwt, Hpt in Hd. simplify_eq.
    by rewrite Hd, app_nil_r.
  - intros j0 g0 i0 Hg0 Hh0. apply lookup_insert_cases in Hg0 as [[-> ->]|[Hne Hg0]]; simpl in *; [done|].
    rewrite list_lookup_insert_ne; [by eapply Hheld|]. intros ->. destruct Hne. by eapply Huniq.
  - intros i0 b0 Hb0 Hl0. apply lookup_insert_cases in Hb0 as [[-> ->]|[Hne Hb0]]; [done|].
    destruct (Hlk i0 b0 Hb0 Hl0) as (j0 & g0 & Hj0 & Hh0). exists j0, g0. rewrite list_lookup_insert_ne; [done|]. congruence.
  - intros j1 j2 g1 g2 i0 H1 H2 Hi1 Hi2.
    apply lookup_insert_cases in H1 as [[-> ->]|[Hn1 H1]], H2 as [[-> ->]|[Hn2 H2]]; simpl in *; try done. by eapply Huniq.
  - intros j1 j2 g1 g2 H1 H2 Hi1 Hi2.
    apply lookup_insert_cases in H1 as [[-> ->]|[Hn1 H1]], H2 as [[-> ->]|[Hn2 H2]]; simpl in *; eauto.
  - intros j0 g0 Hg0 Hm0. apply lookup_insert_cases in Hg0 as [[-> ->]|[Hne Hg0]]; eauto.
  - intros Hp. rewrite (Hun Hp) in Hlt. simpl in Hlt. lia.
  - intros Hm. eapply writer_insert; eauto.
Qed.

(** A goroutine takes or releases the write lock. *)
Lemma inv_mu s gs contents wg j g (m : bool) :
  inv s gs contents wg → gs !! j = Some g → writeMu s = negb m → (m = false → mu g = true) →
  inv (mkState (prepared s) (offset s) (buffers s) m (written s))
    (<[j := mkOwn (hold g) (part g) m (wrote g) (acc g)]> gs) contents wg.
Proof.
  intros HI Hj Hm Hg. pose proof (lookup_lt_Some _ _ _ Hj) as Hltj.
  destruct HI as [Hlen Hwr Hperm Hfree Hheld Hlk Huniq Hmuq Hlkd Hun Hwriter]. split; simpl; try done.
  - rewrite list_fmap_insert, list_insert_id; [done|]. by rewrite list_lookup_fmap, Hj.
  - intros j0 g0 i0 Hg0 Hh0. apply lookup_insert_cases in Hg0 as [[-> ->]|[Hne Hg0]]; [exact (Hheld _ g _ Hj Hh0)|by eapply Hheld].
  - intros i0 b0 Hb0 Hl0. destruct (Hlk i0 b0 Hb0 Hl0) as (j0 & g0 & Hj0 & Hh0).
    destruct (decide (j0 = j)) as [->|Hne].
    + eexists j, _. rewrite list_lookup_insert_eq by done. split; [done|]. simpl. congruence.
    + exists j0, g0. by rewrite list_lookup_insert_ne.
  - intros j1 j2 g1 g2 i0 H1 H2 Hi1 Hi2.
    apply lookup_insert_cases in H1 as [[-> ->]|[Hn1 H1]], H2 as [[-> ->]|[Hn2 H2]];
      [done|exact (Huniq _ _ g _ _ Hj H2 Hi1 Hi2)|exact (Huniq _ _ _ g _ H1 Hj Hi1 Hi2)|by eapply Huniq].
  - assert (Hnone : ∀ j0 g0, j0 ≠ j → gs !! j0 = Some g0 → mu g0 = true → m = true → False).
    { intros j0 g0 Hne Hg0 Hm0 ->. simpl in Hm. rewrite (Hlkd j0 g0 Hg0 Hm0) in Hm. done. }
    intros j1 j2 g1 g2 H1 H2 Hi1 Hi2.
    apply lookup_insert_cases in H1 as [[-> ->]|[Hn1 H1]], H2 as [[-> ->]|[Hn2 H2]]; simpl in *; [done| | |by eapply Hmuq].
    + by destruct (Hnone j2 g2 Hn2 H2 Hi2 Hi1).
    + by destruct (Hnone j1 g1 Hn1 H1 Hi1 Hi2).
  - intros j0 g0 Hg0 Hm0. apply lookup_insert_cases in Hg0 as [[-> ->]|[Hne Hg0]]; [done|]. destruct m; [done|].
    destruct Hne. eapply Hmuq; eauto.
  - intros ->. eexists j, _. by rewrite list_lookup_insert_eq.
Qed.

(** Changes that no invariant looks at. *)
Lemma buffer_frame s s' gs contents wg :
  inv s gs contents wg → buffers s' = buffers s → written s' = written s → writeMu s' = writeMu s → prepared s' = prepared s →
  inv s' gs contents wg.
Proof. intros [] E1 E2 E3 E4. split; rewrite ?E1, ?E2, ?E3, ?E4; done. Qed.

Lemma inv_prepare s gs contents wg n :
  inv s gs contents wg → prepared s = false →
  inv (mkState true (offset s) (replicate n (mkBuffer false [])) (writeMu s) (written s)) gs (replicate n []) wg.
Proof.
  intros [Hlen Hwr Hperm Hfree Hheld Hlk Huniq Hmuq Hlkd Hun Hwriter] Hp. pose proof (Hun Hp) as Hb. rewrite Hb in Hlen.
  destruct contents; [|done]. split; simpl; try done.
  - by rewrite !length_replicate.
  - rewrite <-Hperm. f_equiv. clear. by induction n.
  - intros i b c Hi Hc _. apply lookup_replicate in Hi as [-> _]. apply lookup_replicate in Hc as [-> _]. done.
  - intros j g i Hg Hh. destruct (Hheld j g i Hg Hh) as (b & c & Hl & _). rewrite Hb in Hl. done.
  - intros i b Hi Hl. apply lookup_replicate in Hi as [-> _]. done.
Qed.

Ltac holder Hs :=
  repeat match type of Hs with
  | (if ?c then _ else _) = Some _ => destruct c eqn:?; [|done]
  | Some _ = Some _ => injection Hs as <-
  end;
  repeat match goal with
  | H : _ && _ = true |- _ => apply andb_true_iff in H as [? ?]
  | H : holds _ _ = true |- _ => apply bool_decide_eq_true in H
  | H : bool_decide _ = true |- _ => apply bool_decide_eq_true in H
  | H : negb _ = true |- _ => apply negb_true_iff in H
  end.

Lemma inv_append s gs contents wg j g i b bs f :
  inv s gs contents wg → gs !! j = Some g → buffers s !! i = Some b → step_own (Append i bs) g = Some f →
  ∃ contents', inv (set_buffer s i (mkBuffer (lock b) (data b ++ bs))) (<[j := f tt]> gs) contents' wg.
Proof.
  intros HI Hj Hb Hs. simpl in Hs. destruct (holds g i && negb (wrote g)) eqn:Eg; [|done].
  apply andb_true_iff in Eg as [Hh%bool_decide_eq_true Hw%negb_true_iff].
  destruct (i_held _ _ _ _ HI j g i Hj Hh) as (b1 & c & Hb1 & Hc & Hl & Hd). rewrite Hw in Hd. simplify_eq.
  destruct (part g) as [p|] eqn:Hp; simpl in Hd.
  - destruct (bool_decide (bs = [newline]) && negb (terminated p)) eqn:Eb; [|done].
    apply andb_true_iff in Eb as [->%bool_decide_eq_true Ht%negb_true_iff]. injection Hs as <-.
    exists (<[i := c ++ [p]]> contents). eapply inv_touch with (b' := mkBuffer (lock b) (data b ++ _)); try done; simpl; [|apply HI|].
    + rewrite body_snoc, Hd, app_nil_r. unfold terminate. by rewrite Ht, <-app_assoc.
    + exists [p]. rewrite (assoc_L (++)). split; [by rewrite (comm (++) _ [p])|by rewrite (comm (++) _ [p])].
  - destruct (terminated bs) eqn:Ht; injection Hs as <-.
    + exists (<[i := c ++ [bs]]> contents). eapply inv_touch with (b' := mkBuffer (lock b) (data b ++ _)); try done; simpl; [|apply HI|].
      * rewrite body_snoc, Hd, !app_nil_r. unfold terminate. by rewrite Ht.
      * exists [bs]. rewrite (assoc_L (++)). split; [by rewrite (comm (++) _ [bs])|by rewrite (comm (++) _ [bs])].
    + exists (<[i := c]> contents). eapply inv_touch with (b' := mkBuffer (lock b) (data b ++ _)); try done; simpl; [|apply HI|by exists []].
      by rewrite Hd, app_nil_r.
Qed.

Lemma inv_write s gs contents wg j g i b f e :
  inv s gs contents wg → gs !! j = Some g → buffers s !! i = Some b → step_own (WriteDst i) g = Some f →
  ∃ contents' wg',
    inv (mkState (prepared s) (offset s) (buffers s) (writeMu s) (written s ++ [data b])) (<[j := f e]> gs) contents' wg'.
Proof.
  intros HI Hj Hb Hs. simpl in Hs. holder Hs.
  destruct (i_held _ _ _ _ HI j g i Hj) as (b1 & c & Hb1 & Hc & Hl & Hd); [done|]. simplify_eq.
  repeat match goal with Hx : wrote g = false |- _ => rewrite Hx in Hd | Hx : part g = None |- _ => rewrite Hx in Hd end.
  simpl in Hd. rewrite app_nil_r in Hd.
  exists (<[i := []]> contents), (wg ++ [c]). eapply inv_touch with (b' := b); try done; simpl.
  - by rewrite list_insert_id.
  - rewrite fmap_app. by rewrite (i_written _ _ _ _ HI), Hd.
  - exists []. rewrite concat_app. simpl. by rewrite !app_nil_r.
Qed.

(** Every action preserves the invariant. *)
Lemma inv_step B (e : act B) s gs contents wg j g f b s' :
  inv s gs contents wg → gs !! j = Some g → step_own e g = Some f → (b, s') ∈ handle _ e s →
  ∃ contents' wg', inv s' (<[j := f b]> gs) contents' wg'.
Proof.
  intros HI Hj Hs Hin.
  assert (Hsame : <[j := g]> gs = gs) by by apply list_insert_id.
  destruct e as [| | |i|i|i bs|i|i| | |i]; try (simpl in Hin; unfold with_buffer in Hin;
    destruct (buffers s !! i) as [bf|] eqn:Hb; [|by apply not_elem_of_nil in Hin]).
  - injection Hs as <-. rewrite Hsame. simpl in Hin. destruct (prepared s) eqn:Hp;
      apply list_elem_of_singleton in Hin as [= -> ->]; [eauto|]. do 2 eexists. by eapply inv_prepare.
  - injection Hs as <-. rewrite Hsame. apply list_elem_of_singleton in Hin as [= -> ->]. eauto.
  - injection Hs as <-. rewrite Hsame. apply list_elem_of_singleton in Hin as [= -> ->]. do 2 eexists. by eapply buffer_frame.
  - simpl in Hs. holder Hs. destruct (lock bf) eqn:Hl; apply list_elem_of_singleton in Hin as [= -> ->].
    + rewrite Hsame. eauto.
    + do 2 eexists. by eapply inv_acquire.
  - simpl in Hs. holder Hs. apply list_elem_of_singleton in Hin as [= -> ->]. do 2 eexists. by eapply inv_release.
  - apply list_elem_of_singleton in Hin as [= -> ->]. destruct (inv_append _ _ _ _ _ _ _ _ _ _ HI Hj Hb Hs). eauto.
  - simpl in Hs. holder Hs. apply list_elem_of_singleton in Hin as [= -> ->]. rewrite Hsame. eauto.
  - simpl in Hs. holder Hs. apply list_elem_of_singleton in Hin as [= -> ->].
    destruct (i_held _ _ _ _ HI j g i Hj) as (b1 & c & Hb1 & Hc & Hl & Hd); [done|]. simplify_eq.
    match goal with Hx : wrote g = true |- _ => rewrite Hx in Hd end. subst c.
    exists (<[i := []]> contents), wg.
    eapply inv_touch with (b' := mkBuffer (lock bf) []); try done; [apply HI|by exists []].
  - simpl in Hs. destruct (mu g) eqn:Hm; [done|]. injection Hs as <-. simpl in Hin. destruct (writeMu s) eqn:Hwm.
    { by apply not_elem_of_nil in Hin. }
    apply list_elem_of_singleton in Hin as [= -> ->]. do 2 eexists. by eapply (inv_mu _ _ _ _ _ _ true).
  - simpl in Hs. destruct (mu g) eqn:Hm; [|done]. injection Hs as <-. apply list_elem_of_singleton in Hin as [= -> ->].
    do 2 eexists. eapply (inv_mu _ _ _ _ _ _ false); try done. by eapply i_locked.
  - apply list_elem_of_singleton in Hin as [= -> ->]. by eapply inv_write.
Qed.

(** ** Goroutines that use a buffer *)
Inductive op := OHandle (turns : nat) (metrics : list Metric) | OExport (turns : nat) (metrics : list Metric) | OFlush.

Definition method (o : op) : prog act result :=
  match o with
  | OHandle turns metrics => Handle turns metrics
  | OExport turns metrics => Export turns metrics
  | OFlush => Flush
  end.

Definition program (o : op) : prog act (op * result) := let@ r := method o; Ret (o, r).

(** The packets a call is to append, and those it did when it returned [r]. *)
Definition packets_of (metrics : list Metric) : list gostring :=
  match metrics with
  | [] => []
  | _ =>
      match has_dst cfg, Serializer cfg with
      | true, Some serialize => match serialize metrics with inl packets => packets | inr _ => [] end
      | _, _ => []
      end
  end.

Definition offered (o : op) : list gostring :=
  match o with OHandle _ metrics | OExport _ metrics => packets_of metrics | OFlush => [] end.

Definition accepted (or : op * result) : list gostring := match or.2 with Done _ => offered or.1 | Spinning => [] end.

(** Between methods a goroutine holds nothing. *)
Definition quiet (ps : list gostring) : own := mkOwn None None false false ps.
Definition holding (i : nat) (ps : list gostring) : own := mkOwn (Some i) None false false ps.

Lemma holds_holding i ps : holds (holding i ps) i = true.
Proof. unfold holds. by rewrite bool_decide_true. Qed.

Lemma follows_acquire (Q : option nat → own → Prop) turns n ps :
  Q None (quiet ps) → (∀ i, Q (Some i) (holding i ps)) → follows Q (acquireBuffer turns n) (quiet ps).
Proof. intros HN HS. induction turns as [|t IH]; simpl; [done|]. intros o [|]; [apply HS|exact IH]. Qed.

Lemma follows_drain (Q : option error → own → Prop) i ps : (∀ e, Q e (holding i ps)) → follows Q (drain i) (holding i ps).
Proof.
  intros HQ. unfold drain. cbn [follows step_own]. rewrite holds_holding. intros l. destruct (l =? 0); [apply HQ|].
  cbn [follows step_own mu holding]. intros _. cbn -[holds]. unfold holds. simpl. rewrite !bool_decide_true by done. simpl.
  intros e _. rewrite bool_decide_true by done. simpl. intros _. apply HQ.
Qed.

Lemma follows_append (Q : unit → own → Prop) i packets ps :
  Q tt (holding i (ps ++ packets)) → follows Q (append_packets i packets) (holding i ps).
Proof.
  revert ps. induction packets as [|p packets IH]; intros ps HQ; [by rewrite app_nil_r in HQ|].
  cbn [append_packets follows step_own]. rewrite holds_holding. cbn [negb wrote holding andb part].
  destruct (terminated p) eqn:Ht; cbn [negb]; intros _.
  - apply IH. by rewrite <-app_assoc.
  - cbn [follows step_own]. unfold holds. simpl hold. rewrite bool_decide_true by done. cbn [negb wrote andb part].
    rewrite bool_decide_true, Ht by done. cbn [negb andb]. intros _. apply (IH (ps ++ [p])). by rewrite <-app_assoc.
Qed.

Lemma follows_release {A} (Q : A → own → Prop) i ps (p : prog act A) :
  follows Q p (quiet ps) → follows Q (Act (Release i) (λ _, p)) (holding i ps).
Proof. intros Hp. cbn [follows step_own]. rewrite holds_holding. simpl. by intros _. Qed.

Lemma follows_flush_loop (Q : list (option error) → own → Prop) k i errs ps :
  (∀ errs, Q errs (quiet ps)) → follows Q (flush_loop k i errs) (quiet ps).
Proof.
  intros HQ. revert i errs. induction k as [|k IH]; intros i errs; [apply HQ|]. cbn [flush_loop follows step_own].
  simpl bool_decide. intros [|]; cbn [negb]; [|apply IH]. apply follows_bind, follows_drain. intros e.
  apply follows_release, IH.
Qed.

Lemma follows_Flush (Q : result → own → Prop) ps : (∀ e, Q (Done e) (quiet ps)) → follows Q Flush (quiet ps).
Proof.
  intros HQ. unfold Flush. destruct (has_dst cfg); [|apply HQ]. cbn [follows step_own]. intros _ n.
  apply follows_bind, follows_flush_loop. intros errs. apply HQ.
Qed.

Lemma follows_Handle (Q : result → own → Prop) turns metrics :
  Q Spinning (quiet []) → (∀ e, Q (Done e) (quiet (packets_of metrics))) → follows Q (Handle turns metrics) (quiet []).
Proof.
  intros HS HD. unfold Handle, packets_of in *. destruct metrics as [|m ms]; [apply HD|].
  destruct (has_dst cfg), (Serializer cfg) as [serialize|]; try apply HD.
  destruct (serialize (m :: ms)) as [packets|err]; [|apply HD]. cbn [follows step_own]. intros _ n.
  apply follows_bind, follows_acquire; [exact HS|]. intros i. apply follows_bind, follows_append. cbn [follows step_own app].
  rewrite holds_holding. intros l. destruct (size <=? l); [|by apply follows_release, HD].
  apply follows_bind, follows_drain. intros e. by apply follows_release, HD.
Qed.

Definition finished (o : op) (or : op * result) (g : own) : Prop := or.1 = o ∧ g = quiet (accepted or).

Lemma follows_program o : follows (finished o) (program o) (quiet []).
Proof.
  unfold program. apply follows_bind. destruct o as [turns ms|turns ms|]; cbn [method].
  - by apply follows_Handle.
  - unfold Export. apply follows_bind, follows_Handle; [done|]. intros [e|]; [done|]. by apply follows_Flush.
  - by apply follows_Flush.
Qed.

(** What a goroutine has appended is the beginning of what its call offers. *)
Lemma act_answer {B} (e : act B) : B.
Proof. destruct e; first [exact tt|exact 0|exact true|exact None]. Qed.

Lemma step_own_acc {B} (e : act B) g f b : step_own e g = Some f → acc g `prefix_of` acc (f b).
Proof.
  intros Hs. destruct e; simpl in Hs; repeat case_match; simplify_eq; simpl; try destruct b; simpl; first [done|by apply prefix_app_r].
Qed.

Lemma follows_prefix {A} (Q : A → own → Prop) p g : follows Q p g → ∃ a g', Q a g' ∧ acc g `prefix_of` acc g'.
Proof.
  revert g. induction p as [a|B e k IH]; intros g Hp; simpl in Hp; [by exists a, g|].
  destruct (step_own e g) as [f|] eqn:Hs; [|done].
  destruct (IH (act_answer e) _ (Hp (act_answer e))) as (a & g' & HQ & Hpre). exists a, g'. split; [done|].
  etrans; [by eapply step_own_acc|exact Hpre].
Qed.

(** A goroutine's ghost state with its call. *)
Definition obeys (p : prog act (op * result)) (og : op * own) : Prop := follows (finished og.1) p og.2.

Definition pool_ok (os : list op) (s : state) (gs : list (op * own)) : Prop :=
  gs.*1 = os ∧ ∃ contents wg, inv s gs.*2 contents wg.

Definition still (s s' : state) : Prop := False.

Lemma runs_ok os c :
  gsteps handle still (program <$> os, new_state) c → ∃ gs, Forall2 obeys c.1 gs ∧ pool_ok os c.2 gs.
Proof.
  intros Hr. eapply (pool_invariant handle still obeys (pool_ok os)); [|done|exact Hr|].
  - intros B e k [o g] s gs i b s' Hi Hp [Ho (contents & wg & HI)] Hin. unfold obeys in Hp. simpl in Hp.
    destruct (step_own e g) as [f|] eqn:Hs; [|done]. exists (o, f b). split; [apply Hp|].
    split; rewrite list_fmap_insert; simpl.
    + rewrite list_insert_id; [done|]. by rewrite list_lookup_fmap, Hi.
    + eapply inv_step; [exact HI| |exact Hs|exact Hin]. by rewrite list_lookup_fmap, Hi.
  - exists ((λ o, (o, quiet [])) <$> os). split; [|split]; simpl.
    + apply Forall2_fmap, Forall_Forall2_diag, Forall_true. intros o. apply follows_program.
    + rewrite <-list_fmap_compose. apply list_fmap_id.
    + exists [], []. rewrite <-list_fmap_compose.
      assert (Hq : ∀ j g, (snd ∘ (λ o : op, (o, quiet [])) <$> os) !! j = Some g → g = quiet []).
      { intros j g Hg. rewrite list_lookup_fmap in Hg. destruct (os !! j); simpl in Hg; by simplify_eq. }
      split; simpl; try done; try (intros; repeat match goal with Hx : _ !! _ = Some _ |- _ => apply Hq in Hx as -> end; done).
      clear. induction os; [done|]. simpl. done.
Qed.

(** ** Flush alone *)
Lemma terminate_ne p : terminate p ≠ [].
Proof. unfold terminate. destruct (terminated p) eqn:E; [|by destruct p]. by destruct p. Qed.

Lemma body_nil ps : body ps = [] ↔ ps = [].
Proof.
  split; [|by intros ->]. destruct ps as [|p ps]; [done|]. unfold body. simpl. intros Hb.
  apply app_eq_nil in Hb as [Hb _]. by apply terminate_ne in Hb.
Qed.

Fixpoint nonempty {A} (ls : list (list A)) : list (list A) :=
  match ls with
  | [] => []
  | [] :: rest => nonempty rest
  | l :: rest => l :: nonempty rest
  end.

Lemma nonempty_app {A} (a b : list (list A)) : nonempty (a ++ b) = nonempty a ++ nonempty b.
Proof. induction a as [|[|x l] a IH]; simpl; [done|done|]. by rewrite IH. Qed.

Lemma concat_nonempty {A} (ls : list (list A)) : concat (nonempty ls) = concat ls.
Proof. induction ls as [|[|x l] ls IH]; simpl; [done|done|]. by rewrite IH. Qed.

Lemma nonempty_bodies (contents : list (list gostring)) : nonempty (body <$> contents) = body <$> nonempty contents.
Proof.
  induction contents as [|[|p c] contents IH]; [done|done|]. cbn [nonempty fmap list_fmap]. rewrite <-IH.
  destruct (body (p :: c)) eqn:E; [|done]. by apply body_nil in E.
Qed.

Definition empty_buffer : pooledBuffer := mkBuffer false [].

Lemma drain_alone i b s :
  buffers s !! i = Some b → writeMu s = false →
  ∃ e, outcomes handle (drain i) s
    = [(e, mkState (prepared s) (offset s) (<[i := mkBuffer (lock b) []]> (buffers s)) false
             (written s ++ nonempty [data b]))].
Proof.
  intros Hb Hm. unfold drain. destruct b as [l d]. assert (Hlen : (len d =? 0) = bool_decide (d = [])).
  { destruct d; [done|]. unfold len. simpl. done. }
  rewrite (outcomes_step handle (LenData i) _ s (len d) s) by (simpl; unfold with_buffer; by rewrite Hb).
  simpl data. rewrite Hlen. destruct d as [|c d].
  - exists None. simpl. rewrite app_nil_r. simpl lock. rewrite list_insert_id by done. destruct s; simpl in *; congruence.
  - rewrite bool_decide_false by done. simpl. rewrite Hm. unfold with_buffer. simpl. rewrite Hb. simpl. rewrite Hb. eexists. reflexivity.
Qed.

(** The buffers before and after the loop reaches index [i]. *)
Lemma flush_loop_alone k i errs s :
  Forall (λ b, lock b = false) (buffers s) → writeMu s = false → length (buffers s) = (i + k)%nat →
  ∃ errs', outcomes handle (flush_loop k i errs) s
    = [(errs', mkState (prepared s) (offset s) (take i (buffers s) ++ replicate k empty_buffer) false
                 (written s ++ nonempty (data <$> drop i (buffers s))))].
Proof.
  revert i errs s. induction k as [|k IH]; intros i errs s Hf Hm Hl.
  - exists errs. simpl. rewrite take_ge, drop_ge by lia. simpl. rewrite !app_nil_r. destruct s; simpl in *; congruence.
  - destruct (lookup_lt_is_Some_2 (buffers s) i) as [b Hb]; [lia|].
    assert (Hlk : lock b = false) by (rewrite Forall_forall in Hf; apply Hf; by eapply list_elem_of_lookup_2).
    cbn [flush_loop]. set (s1 := set_buffer s i (mkBuffer true (data b))).
    rewrite (outcomes_step handle (Acquire i) _ s true s1) by (simpl; unfold with_buffer; by rewrite Hb, Hlk).
    cbn [negb]. destruct (drain_alone i (mkBuffer true (data b)) s1) as [e He]; [by apply list_lookup_insert_eq; lia|done|].
    rewrite (outcomes_bind_step handle _ _ _ _ _ He). set (s2 := mkState _ _ _ _ _).
    set (s3 := set_buffer s2 i empty_buffer).
    rewrite (outcomes_step handle (Release i) _ s2 tt s3).
    2: { simpl. unfold with_buffer. simpl. rewrite list_lookup_insert_eq; [done|]. rewrite length_insert. lia. }
    assert (Hb3 : buffers s3 = <[i := empty_buffer]> (buffers s)) by (simpl; by rewrite !list_insert_insert_eq).
    destruct (IH (S i) (errs ++ [e]) s3) as [errs' ->].
    + rewrite Hb3. by apply Forall_insert.
    + done.
    + rewrite Hb3, length_insert. lia.
    + exists errs'. do 2 f_equal. rewrite Hb3. f_equal.
      * erewrite (take_S_r _ i) by (apply list_lookup_insert_eq; lia).
        rewrite take_insert_ge by lia. by rewrite <-app_assoc.
      * rewrite drop_insert_lt by lia. rewrite (drop_S (buffers s) b i Hb). rewrite fmap_cons.
        change (data b :: (data <$> drop (S i) (buffers s))) with ([data b] ++ (data <$> drop (S i) (buffers s))).
        rewrite (nonempty_app (A := ascii)). symmetry. apply app_assoc.
Qed.

(** Flush on a buffer nobody else uses. *)
Lemma flush_alone s :
  has_dst cfg = true → Forall (λ b, lock b = false) (buffers s) → writeMu s = false → (prepared s = false → buffers s = []) →
  ∃ e s', outcomes handle Flush s = [(Done e, s')] ∧ written s' = written s ++ nonempty (data <$> buffers s).
Proof.
  intros Hd Hf Hm Hp. unfold Flush. rewrite Hd.
  assert (∃ s1, handle _ Prepare s = [(tt, s1)] ∧ Forall (λ b, lock b = false) (buffers s1) ∧ writeMu s1 = false
    ∧ written s1 = written s ∧ nonempty (data <$> buffers s1) = nonempty (data <$> buffers s)) as (s1 & H1 & H2 & H3 & <- & <-).
  { simpl. destruct (prepared s); [by eexists|]. eexists. split; [reflexivity|]. rewrite Hp by done. simpl.
    split_and!; try done; [by apply Forall_replicate|]. by induction (Z.to_nat pool_size). }
  rewrite (outcomes_step handle Prepare _ s tt s1) by done.
  rewrite (outcomes_step handle NumBuffers _ s1 (len (buffers s1)) s1) by done.
  destruct (flush_loop_alone (Z.to_nat (len (buffers s1))) 0 [] s1 H2 H3) as [errs He]; [unfold len; lia|].
  rewrite (outcomes_bind_step handle _ _ _ _ _ He). simpl. rewrite drop_0. eauto.
Qed.

Lemma finished_quiet rs (gs : list (op * own)) :
  Forall2 obeys (Ret <$> rs) gs → rs.*1 = gs.*1 ∧ gs.*2 = (λ or, quiet (accepted or)) <$> rs.
Proof.
  rewrite Forall2_fmap_l. induction 1 as [|r [o g] rs gs [Ho Hg] _ [IH1 IH2]]; [done|]. simpl in Ho, Hg.
  rewrite !fmap_cons, IH1, IH2. simpl. by rewrite Ho, Hg.
Qed.

Lemma appended_offered ts (gs : list (op * own)) :
  Forall2 obeys ts gs → ∃ rest, concat (acc <$> gs.*2) ++ rest ≡ₚ concat (offered <$> gs.*1).
Proof.
  induction 1 as [|p [o g] ts gs Hp _ [rest IH]]; [by exists []|].
  destruct (follows_prefix _ _ _ Hp) as (or & g' & [Hor Hg'] & Hpre). simpl in Hor, Hpre. subst g'.
  assert (∃ more, offered o = acc g ++ more) as [more Hmore].
  { simpl in Hpre. unfold accepted in Hpre. rewrite Hor in Hpre. destruct or.2; [by destruct Hpre as [k ->]; eauto|].
    apply prefix_nil_inv in Hpre as ->. by eexists. }
  exists (more ++ rest). simpl. rewrite Hmore, <-IH. rewrite <-!app_assoc. f_equiv.
  rewrite !app_assoc. by rewrite (comm (++) (concat _) more).
Qed.

(** When nobody is in the middle of a call, every buffer is free and whole. *)
Lemma quiet_buffers s gs contents wg :
  inv s gs contents wg → (∀ j g, gs !! j = Some g → hold g = None ∧ mu g = false) →
  Forall (λ b, lock b = false) (buffers s) ∧ writeMu s = false ∧ data <$> buffers s = body <$> contents.
Proof.
  intros HI Hnone.
  assert (Hfree : Forall (λ b, lock b = false) (buffers s)).
  { apply Forall_lookup. intros i b Hb. destruct (lock b) eqn:El; [|done].
    destruct (i_lock _ _ _ _ HI i b Hb El) as (j & g & Hg & Hh). destruct (Hnone j g Hg). congruence. }
  split_and!; [done| |].
  - destruct (writeMu s) eqn:Em; [|done]. destruct (i_writer _ _ _ _ HI Em) as (j & g & Hg & Hh).
    destruct (Hnone j g Hg). congruence.
  - apply list_eq. intros i. rewrite !list_lookup_fmap. pose proof (i_len _ _ _ _ HI) as Hl.
    destruct (buffers s !! i) as [b|] eqn:Hb, (contents !! i) as [c|] eqn:Hc; simpl; try done.
    + f_equal. eapply i_free; try done. by eapply Forall_lookup_1 in Hfree.
    + apply lookup_lt_Some in Hb. apply lookup_ge_None in Hc. lia.
    + apply lookup_ge_None in Hb. apply lookup_lt_Some in Hc. lia.
Qed.

(** C7. Lines arrive whole and once.  However Handle, Export and Flush calls
    interleave: at every moment each chunk written to the destination is a sequence of
    complete packets, each ended by a line feed, and no packet is written twice.  When all
    calls have returned nothing is lost: every packet of every call has been written or is
    in a buffer, whole; and a Flush then writes the rest, so that the destination
    has been given every packet exactly once. *)
Theorem buffer_lines os ts s :
  has_dst cfg = true → gsteps handle still (program <$> os, new_state) (ts, s) →
  (∃ wg rest, written s = body <$> wg ∧ concat wg ++ rest ≡ₚ concat (offered <$> os))
  ∧ (∀ rs, ts = Ret <$> rs →
      rs.*1 = os
      ∧ (∃ wg contents, written s = body <$> wg ∧ data <$> buffers s = body <$> contents
           ∧ concat wg ++ concat contents ≡ₚ concat (accepted <$> rs))
      ∧ (∃ wg e s', outcomes handle Flush s = [(Done e, s')] ∧ written s' = body <$> wg
           ∧ concat wg ≡ₚ concat (accepted <$> rs))).
Proof.
  intros Hd Hr. destruct (runs_ok os _ Hr) as (gs & HP & <- & contents & wg & HI). simpl in *. split.
  - destruct (appended_offered ts gs HP) as [rest Hrest]. exists wg, (concat contents ++ rest). split; [apply HI|].
    by rewrite app_assoc, (i_perm _ _ _ _ HI).
  - intros rs ->. destruct (finished_quiet rs gs HP) as [H1 H2]. split; [done|].
    destruct (quiet_buffers s gs.*2 contents wg HI) as (Hfree & Hmu & Hdata).
    { intros j g Hg. rewrite H2, list_lookup_fmap in Hg. destruct (rs !! j); simpl in Hg; by simplify_eq. }
    assert (Hperm : concat wg ++ concat contents ≡ₚ concat (accepted <$> rs)).
    { rewrite (i_perm _ _ _ _ HI), H2, <-list_fmap_compose. done. }
    split; [exists wg, contents; split_and!; [apply HI|done|done]|].
    destruct (flush_alone s Hd Hfree Hmu (i_unprepared _ _ _ _ HI)) as (e & s' & He & Hw).
    exists (wg ++ nonempty contents), e, s'.
    rewrite He, Hw, Hdata, nonempty_bodies, fmap_app, concat_app, concat_nonempty, (i_written _ _ _ _ HI). done.
Qed.
End buffer.

(** ** Concrete runs *)
Definition demo_metric (name : string) : @Metric toy_attributes := mkMetric (str name) MetricTypeCounter f_one [] 0 1 0 0 [] [].

(** One buffer of eight bytes; packets are the names of the metrics. *)
Definition demo_config : @config toy_attributes := mkConfig true (Some (λ ms, inl (Name <$> ms))) 8 1 2.

Definition demo_calls : list (@op toy_attributes) :=
  [OExport 3 [demo_metric "first"]; OHandle 3 [demo_metric "second"; demo_metric "third"]].

(** What a call has returned, if it has. *)
Definition result_of (i : nat) (c : list (prog act (op * result)) * state) : option result :=
  match c.1 !! i with Some (Ret r) => Some r.2 | _ => None end.

(** C17. Export can return before its lines are written.  Export promises that everything
    it accepted is written when it returns.  With one buffer: the first call appends its
    packet and releases the buffer; the second call takes the buffer before the first
    gets to Flush, which skips buffers that are held, so the first returns nil with
    nothing written. *)
Theorem export_leaves_lines :
  ∃ c, gsteps (handle demo_config (λ _, None)) still (program demo_config <$> demo_calls, new_state) c
    ∧ result_of 0 c = Some (Done None) ∧ written c.2 = []
    ∧ offered demo_config <$> demo_calls !! 0%nat = Some [str "first"].
Proof.
  destruct (sched_observes (handle demo_config (λ _, None)) still (λ c, (result_of 0 c, written c.2))
    (replicate 8 0%nat ++ replicate 4 1%nat ++ replicate 3 0%nat) (program demo_config <$> demo_calls, new_state)
    (Some (Done None), [])) as (c & Hc & Ho); [vm_compute; reflexivity|].
  injection Ho as Hr Hw. exists c. done.
Qed.

(** Both calls run to their end; the second finds the buffer past its size and writes it. *)
Lemma buffer_lines_witness :
  ∃ c, gsteps (handle demo_config (λ _, None)) still (program demo_config <$> demo_calls, new_state) c
    ∧ (∃ wg rest, written c.2 = body <$> wg ∧ concat wg ++ rest ≡ₚ concat (offered demo_config <$> demo_calls)).
Proof.
  destruct (sched_observes (handle demo_config (λ _, None)) still (λ c, (result_of 1 c, written c.2))
    (replicate 8 0%nat ++ replicate 15 1%nat) (program demo_config <$> demo_calls, new_state)
    (Some (Done None), [str "first" ++ [newline] ++ str "second" ++ [newline] ++ str "third" ++ [newline]]))
    as ([ts s] & Hc & Ho); [vm_compute; reflexivity|].
  exists (ts, s). split; [exact Hc|]. apply (buffer_lines demo_config (λ _, None) demo_calls ts s eq_refl Hc).
Defined.
End Buffer.
