(* ===== verification/Datadog.v ===== *)
(** * The Datadog exporter (exporters/datadog/exporter.go)

    Serialized lines are packed into datagrams of a bounded size.  Composed with
    the parser of the test server, the exporter delivers exactly the metrics whose
    line fits a datagram, in order, with their names, values, types and tags. *)

From S2P Require Import Prelude GoLib Strconv Attribute Metric DogStatsD DogStatsDParse.

(** ** Packing lines *)
Record packing := mkPacking { packets : list gostring; cur : gostring; oversized : Z }.

Definition flush (p : packing) : packing :=
  match cur p with
  | [] => p
  | c => mkPacking (packets p ++ [c]) [] (oversized p)
  end.

Definition pack_line (size : Z) (p : packing) (line : gostring) : packing :=
  if len line =? 0 then p
  else if size <? len line then mkPacking (packets p) (cur p) (i64 (oversized p + 1))
  else
    let p := if (0 <? len (cur p)) && (size <? len (cur p) + 1 + len line) then flush p else p in
    let c := if 0 <? len (cur p) then cur p ++ [newline] else cur p in
    mkPacking (packets p) (c ++ line) (oversized p).

Definition packetize (lines : list gostring) (size : Z) : list gostring * Z :=
  let p := flush (foldl (pack_line size) (mkPacking [] [] 0) lines) in
  (packets p, oversized p).

(** The lines a datagram can carry. *)
Definition fits (size : Z) (line : gostring) : bool := negb (len line =? 0) && (len line <=? size).

Definition fitting (size : Z) (lines : list gostring) : list gostring := filter (λ l, fits size l) lines.

(** The datagrams are lines in groups: [groups] are finished, [open_] is in the
    buffer. *)
Record packed (size : Z) (lines : list gostring) (p : packing) (groups : list (list gostring)) (open_ : list gostring) : Prop := {
  pk_packets : packets p = join [newline] <$> groups;
  pk_cur : cur p = join [newline] open_;
  pk_lines : concat groups ++ open_ = fitting size lines;
  pk_size : Forall (λ d, len d ≤ size) (packets p);
  pk_open : len (cur p) ≤ Z.max size 0;
  pk_groups : Forall (λ g, g ≠ []) groups }.

Lemma fits_line size line : len line ≠ 0 → len line ≤ size → fits size line = true.
Proof. intros ??. unfold fits. destruct (Z.eqb_spec (len line) 0); [done|]. by apply Z.leb_le. Qed.

Lemma not_fits size line : size < len line → fits size line = false.
Proof. intros ?. unfold fits. apply andb_false_intro2. apply Z.leb_gt. lia. Qed.

Lemma fitting_app size a b : fitting size (a ++ b) = fitting size a ++ fitting size b.
Proof. apply filter_app. Qed.

Lemma fitting_cons size line lines :
  fitting size (line :: lines) = if fits size line then line :: fitting size lines else fitting size lines.
Proof. unfold fitting. cbn [filter list_filter]. by destruct (fits size line). Qed.

Lemma fitting_snoc size lines line :
  fitting size (lines ++ [line]) = if fits size line then fitting size lines ++ [line] else fitting size lines.
Proof. rewrite fitting_app, fitting_cons. destruct (fits size line); [done|]. apply app_nil_r. Qed.

Lemma fitting_nonempty size lines : Forall (λ l, l ≠ []) (fitting size lines).
Proof. apply Forall_forall. intros l Hl. apply list_elem_of_filter in Hl as [Hl _]. by intros ->. Qed.

Lemma join_nil sep l : Forall (λ x, x ≠ []) l → join sep l = [] → l = [].
Proof.
  intros Hf. destruct Hf as [|x [|y l] Hx Hf]; [done|simpl; congruence|].
  intros Hj. change (join sep (x :: y :: l)) with (x ++ sep ++ join sep (y :: l)) in Hj.
  by apply app_eq_nil in Hj as [? _].
Qed.

Lemma flush_packed size lines p groups open_ :
  packed size lines p groups open_ →
  ∃ groups', packed size lines (flush p) groups' [] ∧ (cur p ≠ [] → cur (flush p) = []) ∧ oversized (flush p) = oversized p.
Proof.
  intros [Hp Hc Hl Hs Ho Hg]. unfold flush. destruct (cur p) as [|c0 c] eqn:E.
  - exists groups. assert (open_ = []) as ->.
    { eapply join_nil; [|by rewrite Hc]. pose proof (fitting_nonempty size lines) as Hne. rewrite <-Hl in Hne.
      by apply Forall_app in Hne as [_ ?]. }
    split; [|done]. by split; rewrite ?E.
  - exists (groups ++ [open_]). split; [|done]. split; simpl; try done.
    + by rewrite fmap_app, Hp, Hc.
    + rewrite concat_app. simpl. by rewrite !app_nil_r.
    + apply Forall_app. split; [done|]. repeat constructor. unfold len in *. simpl in *. lia.
    + unfold len. simpl. lia.
    + apply Forall_app. split; [done|]. repeat constructor. intros ->. done.
Qed.

(** How many lines are too long. *)
Definition too_long (size : Z) (lines : list gostring) : Z := len (filter (λ l, size < len l) lines).

Lemma pack_line_packed size lines p groups open_ line :
  0 ≤ size → packed size lines p groups open_ → oversized p = i64 (too_long size lines) →
  ∃ groups' open', packed size (lines ++ [line]) (pack_line size p line) groups' open'
    ∧ oversized (pack_line size p line) = i64 (too_long size (lines ++ [line])).
Proof.
  intros Hsz HP Hov.
  assert (Hlong : too_long size (lines ++ [line]) = too_long size lines + (if decide (size < len line) then 1 else 0)).
  { unfold too_long. rewrite filter_app, len_app. f_equal. rewrite filter_cons. by case_decide. }
  pose proof (fitting_snoc size lines line) as Hfit.
  unfold pack_line. destruct (Z.eqb_spec (len line) 0) as [E0|E0].
  - assert (line = []) as El by (destruct line; [done|unfold len in E0; simpl in E0; lia]).
    exists groups, open_. rewrite Hlong. rewrite decide_False by (rewrite El; unfold len; simpl; lia).
    unfold fits in Hfit. rewrite E0 in Hfit. cbn [Z.eqb negb andb] in Hfit. rewrite Z.add_0_r. split; [|done]. destruct HP. split; first [done|congruence].
  - assert (Hne : line ≠ []) by (intros ->; done).
    destruct (Z.ltb_spec size (len line)) as [Hlt|Hle].
    + exists groups, open_. rewrite Hlong. rewrite decide_True by done. rewrite not_fits in Hfit by lia.
      split; [destruct HP; split; simpl; first [done|congruence]|]. simpl. rewrite Hov. apply i64_add_l.
    + rewrite Hlong. rewrite decide_False by lia. rewrite fits_line in Hfit by done. rewrite Z.add_0_r.
      (* the buffer the line joins *)
      assert (∃ q groups1 open1, packed size lines q groups1 open1 ∧ oversized q = oversized p
        ∧ (cur q = [] ∨ len (cur q) + 1 + len line ≤ size)
        ∧ (if (0 <? len (cur p)) && (size <? len (cur p) + 1 + len line) then flush p else p) = q)
        as (q & groups1 & open1 & HQ & Hoq & Hroom & ->).
      { destruct (Z.ltb_spec 0 (len (cur p))) as [Hc|Hc]; cbn [andb];
          [destruct (Z.ltb_spec size (len (cur p) + 1 + len line))|].
        - destruct (flush_packed size lines p groups open_ HP) as (g' & HF & Hcur & Hof).
          exists (flush p), g', []. split_and!; try done. left. apply Hcur. intros Hn. rewrite Hn in Hc. done.
        - exists p, groups, open_. split_and!; try done. right. lia.
        - exists p, groups, open_. split_and!; try done. left. destruct (cur p); [done|unfold len in Hc; simpl in Hc; lia]. }
      exists groups1, (open1 ++ [line]). split; [|simpl; congruence]. destruct HQ.
      assert (Hop : Forall (λ l, l ≠ []) open1).
      { pose proof (fitting_nonempty size lines) as Hn. rewrite <-pk_lines0 in Hn. by apply Forall_app in Hn as [_ ?]. }
      assert (Hcur : (if 0 <? len (cur q) then cur q ++ [newline] else cur q) ++ line = join [newline] (open1 ++ [line])).
      { rewrite pk_cur0. destruct open1 as [|a open1]; [done|]. rewrite join_snoc by done.
        destruct (Z.ltb_spec 0 (len (join [newline] (a :: open1)))) as [|Hz]; [by rewrite <-app_assoc|].
        assert (join [newline] (a :: open1) = []) as Hj%join_nil; [|done|done].
        destruct (join _ _); [done|unfold len in Hz; simpl in Hz; lia]. }
      split; simpl; try done.
      * by rewrite Hfit, app_assoc, pk_lines0.
      * destruct Hroom as [Hc|Hr].
        -- rewrite Hc. unfold len. simpl. unfold len in Hle. lia.
        -- destruct (0 <? len (cur q)); unfold len in *; rewrite ?length_app; simpl; rewrite ?length_app in *; simpl; lia.
Qed.

Lemma pack_lines size lines done_ p groups open_ :
  0 ≤ size → packed size done_ p groups open_ → oversized p = i64 (too_long size done_) →
  ∃ groups' open', packed size (done_ ++ lines) (foldl (pack_line size) p lines) groups' open'
    ∧ oversized (foldl (pack_line size) p lines) = i64 (too_long size (done_ ++ lines)).
Proof.
  intros Hsz. revert done_ p groups open_. induction lines as [|l lines IH]; intros dn p groups open_ HP Hov.
  - rewrite app_nil_r. eauto.
  - destruct (pack_line_packed size dn p groups open_ l Hsz HP Hov) as (g' & o' & HP' & Hov').
    destruct (IH _ _ _ _ HP' Hov') as (g2 & o2 & H2). rewrite <-app_assoc in H2. eauto.
Qed.

Lemma packetize_groups lines size :
  0 ≤ size →
  ∃ groups, (packetize lines size).1 = join [newline] <$> groups ∧ concat groups = fitting size lines
    ∧ Forall (λ d, len d ≤ size) (packetize lines size).1 ∧ Forall (λ g, g ≠ []) groups
    ∧ (packetize lines size).2 = i64 (too_long size lines).
Proof.
  intros Hsz. destruct (pack_lines size lines [] (mkPacking [] [] 0) [] [] Hsz) as (g & o & HP & Hov);
    [split; simpl; try done; unfold len; simpl; lia|done|].
  destruct (flush_packed _ _ _ _ _ HP) as (g' & [] & _ & Hof). exists g'. unfold packetize. simpl.
  rewrite app_nil_r in pk_lines0. split_and!; try done. by rewrite Hof, Hov.
Qed.

(** ** What the test server reads of the datagrams *)
Lemma has_prefix_left sep a b p : sep ∉ p → has_prefix (a ++ sep :: b) p = has_prefix a p.
Proof.
  revert p. induction a as [|c a IH]; intros [|d p] Hp; try done; rewrite not_elem_of_cons in Hp; destruct Hp as [Hd Hp].
  - simpl. by rewrite bool_decide_false by congruence.
  - simpl. by rewrite IH.
Qed.

(** A line that the splitting of a datagram returns unchanged. *)
Definition whole_line (l : gostring) : Prop := l ≠ [] ∧ (newline ∉ l) ∧ last l ≠ Some cr.

Lemma trim_cr_whole l : whole_line l → trim_cr l = l.
Proof. intros (_ & _ & Hl). unfold trim_cr. destruct (last l); [|done]. rewrite bool_decide_false; congruence. Qed.

Lemma dispatch_join lines outs fuel :
  Forall2 (λ l o, whole_line l ∧ dispatch_line l = Some o) lines outs →
  (length (join [newline] lines) ≤ fuel)%nat → dispatch_loop fuel (join [newline] lines) = Some (concat outs).
Proof.
  intros Hf. revert fuel. induction Hf as [|l o lines outs [Hw Ho] Hf IH]; intros fuel Hfu; [by destruct fuel|].
  assert (Hne : l ≠ []) by apply Hw. assert (Hnl : newline ∉ l) by apply Hw.
  destruct fuel as [|fuel]; [destruct l as [|c l]; [done|]; destruct lines; simpl in Hfu; lia|].
  destruct lines as [|l2 lines].
  - apply Forall2_nil_inv_l in Hf as ->. simpl join. destruct l as [|c l]; [done|].
    cbn [dispatch_loop]. rewrite cut_byte_fresh, trim_cr_whole, Ho by done. cbn [mbind option_bind default].
    destruct fuel; simpl; done.
  - change (join [newline] (l :: l2 :: lines)) with (l ++ newline :: join [newline] (l2 :: lines)) in *.
    rewrite length_app in Hfu. cbn [length] in Hfu.
    assert (Hd : dispatch_loop fuel (join [newline] (l2 :: lines)) = Some (concat outs)) by (apply IH; lia).
    pose proof (cut_byte_app newline l (join [newline] (l2 :: lines)) Hnl) as Hcut.
    destruct l as [|c l]; [done|]. cbn [app dispatch_loop]. cbn [app] in Hcut. rewrite Hcut, trim_cr_whole, Ho by done.
    cbn [mbind option_bind default]. unfold default, id. rewrite Hd. done.
Qed.

Lemma groups_fmap {A B} (f : A → B) (gs : list (list B)) (l : list A) :
  concat gs = map f l → ∃ gs' : list (list A), gs = map (map f) gs' ∧ concat gs' = l.
Proof.
  revert l. induction gs as [|g gs IH]; intros l Hl; simpl in Hl.
  - exists []. split; [done|]. by destruct l.
  - symmetry in Hl. apply map_eq_app in Hl as (l1 & l2 & -> & <- & Hl2).
    destruct (IH l2 (eq_sym Hl2)) as (gs' & -> & <-). by exists (l1 :: gs').
Qed.

Lemma Forall_concat_inv {A} (P : A → Prop) gs : Forall P (concat gs) → Forall (Forall P) gs.
Proof. induction gs as [|g gs IH]; simpl; [done|]. rewrite Forall_app. intros [? ?]. auto. Qed.

(** The messages of a list of datagrams, in order. *)
Definition dispatched (packets : list gostring) : option (list DogStatsDMessage) := @concat _ <$> mapM dispatchDatagram packets.

Lemma dispatched_cons d ds out outs :
  dispatchDatagram d = Some out → dispatched ds = Some outs → dispatched (d :: ds) = Some (out ++ outs).
Proof.
  intros Hd Hds. unfold dispatched in *. apply fmap_Some in Hds as (os & Hm & ->). simpl. by rewrite Hd, Hm.
Qed.

Section delivery.
Context `{Attributes}.

(** A metric whose line reads back, and stays one line of a datagram. *)
Record deliverable (s : DogStatsDSerializer) (m : Metric) : Prop := mkDeliverable {
  dl_readable : readable s m;
  dl_line : newline ∉ serialize1 s m;
  dl_last : last (serialize1 s m) ≠ Some cr;
  dl_event : has_prefix (Name m) (str "_e{") = false }.

Lemma dispatch_serialized s m :
  deliverable s m → whole_line (serialize1 s m) ∧ dispatch_line (serialize1 s m) = Some [MsgMetric (received s m)].
Proof.
  intros [Hr Hl Hcr He]. pose proof (parse_serialize s m Hr) as Hp.
  assert (Hne : serialize1 s m ≠ []) by (rewrite serialize1_join; by destruct (Name m)).
  assert (Hpre : has_prefix (serialize1 s m) (str "_e{") = false).
  { rewrite serialize1_join, has_prefix_left; [done|]. apply (bool_decide_unpack _). by vm_compute. }
  split; [done|]. unfold dispatch_line. destruct (serialize1 s m) eqn:E; [done|]. rewrite Hpre, Hp. done.
Qed.

Lemma dispatched_groups s groups :
  Forall (Forall (deliverable s)) groups →
  dispatched (join [newline] <$> (fmap (serialize1 s) <$> groups)) = Some (MsgMetric ∘ received s <$> concat groups).
Proof.
  induction 1 as [|g groups Hg Hgs IH]; [done|]. cbn [concat]. rewrite fmap_app.
  apply (dispatched_cons (join [newline] (serialize1 s <$> g))); [|exact IH].
  unfold dispatchDatagram. rewrite (dispatch_join _ ((λ m, [MsgMetric (received s m)]) <$> g)); [| |done].
  - f_equal. clear. induction g as [|m g IH]; [done|]. exact (f_equal (cons (MsgMetric (received s m))) IH).
  - apply Forall2_fmap, Forall_Forall2_diag. eapply Forall_impl; [done|]. intros m. apply dispatch_serialized.
Qed.

(** The metrics whose line fits a datagram. *)
Definition delivered (s : DogStatsDSerializer) (size : Z) (metrics : list Metric) : list Metric :=
  filter (λ m, len (serialize1 s m) ≤ size) metrics.

Lemma fitting_serialized s size metrics :
  Forall (deliverable s) metrics → fitting size (Serialize s metrics) = serialize1 s <$> delivered s size metrics.
Proof.
  unfold Serialize, delivered. induction 1 as [|m metrics Hm Hms IH]; [done|].
  rewrite filter_cons. rewrite fmap_cons, fitting_cons, IH.
  destruct (dispatch_serialized s m Hm) as [[Hne _] _].
  assert (len (serialize1 s m) ≠ 0) by (destruct (serialize1 s m); [done|unfold len; simpl; lia]).
  case_decide; [rewrite fits_line by lia|rewrite not_fits by lia]; done.
Qed.

Lemma too_long_serialized s size metrics :
  too_long size (Serialize s metrics) = len (filter (λ m, size < len (serialize1 s m)) metrics).
Proof.
  unfold too_long, Serialize. induction metrics as [|m metrics IH]; [done|]. rewrite fmap_cons.
  rewrite !filter_cons. repeat case_decide; try done. unfold len in IH |- *. cbn [length]. rewrite !Nat2Z.inj_succ. by f_equal.
Qed.

(** C6. The exporter delivers.  Whatever the metrics, if each of them is readable
    (see [deliverable]: the protocol has no escape for its separators), every datagram
    packetize makes of their lines is at most the configured size, and the parser of
    the test server reads from the datagrams exactly the metrics whose line fits one,
    in order, each with its name, its exact value, its type and its surviving tags; the
    others are counted as oversized. *)
Theorem datadog_delivers s metrics size :
  0 ≤ size → Forall (deliverable s) metrics →
  Forall (λ d, len d ≤ size) (packetize (Serialize s metrics) size).1
  ∧ dispatched (packetize (Serialize s metrics) size).1 = Some (MsgMetric ∘ received s <$> delivered s size metrics)
  ∧ (packetize (Serialize s metrics) size).2 = i64 (len (filter (λ m, size < len (serialize1 s m)) metrics)).
Proof.
  intros Hsz Hf. destruct (packetize_groups (Serialize s metrics) size Hsz) as (groups & Hp & Hc & Hb & _ & Ho).
  rewrite Hp in *. rewrite fitting_serialized in Hc by done. destruct (groups_fmap _ _ _ Hc) as (gs & -> & Hgs).
  split; [done|]. split; [|by rewrite Ho, too_long_serialized]. rewrite dispatched_groups, Hgs; [done|].
  apply Forall_concat_inv. rewrite Hgs. rewrite Forall_forall in *. intros m [_ Hm]%list_elem_of_filter. auto.
Qed.
End delivery.

(** ** A concrete batch *)
Definition demo_metric (name : string) (t : MetricType) (v : float64) (attrs : list KeyValue) : @Metric toy_attributes :=
  mkMetric (str name) t v attrs 0 1 0 0 [] [].

Definition demo_batch : list (@Metric toy_attributes) :=
  [demo_metric "reqs" MetricTypeCounter f_one []; demo_metric "a.name.that.is.too.long" MetricTypeGauge f_one [];
   demo_metric "lat" MetricTypeHistogram f_one [(str "env", VString (str "prod"))]; demo_metric "up" MetricTypeGauge f_zero []].

(** The long line is dropped, two lines share the first datagram, the last one has its own. *)
Example demo_packets :
  packetize (Serialize (NewDogStatsDSerializer [] []) demo_batch) 25
  = ([str "reqs:1|c"; str "lat:1|h|#env:prod" ++ [newline] ++ str "up:0|g"], 1).
Proof. reflexivity. Qed.

Lemma datadog_delivers_witness :
  let s := NewDogStatsDSerializer [] [] in
  dispatched (packetize (Serialize s demo_batch) 25).1 = Some (MsgMetric ∘ received s <$> delivered s 25 demo_batch)
  ∧ (packetize (Serialize s demo_batch) 25).2 = 1.
Proof.
  intros s. split; [|reflexivity]. apply datadog_delivers; [lia|].
  repeat constructor; try (apply (bool_decide_unpack _); vm_compute; exact I); try (intros; discriminate); try reflexivity.
Defined.
