(* ===== verification/RateLimiter.v ===== *)
(** * The token bucket (ratelimit.go)

    Tokens are float64 values, computed with the IEEE operations of the source.
    The methods run under the limiter's mutex, so each is one function of the
    state and the time the clock shows. *)

From S2P Require Import Prelude GoLib.

Record RateLimiter := mkRL { rate : float64; burst : Z; tokens : float64; lastUpdate : Z }.

Definition NewRateLimiter (rate : float64) (burst now : Z) : RateLimiter :=
  let rate := if fle rate f_zero then f_of_Z 1000 else rate in
  let burst := if burst <=? 0 then 100 else burst in
  mkRL rate burst (f_of_Z burst) now.

(** The tokens after the elapsed time has been added and the bucket capped. *)
Definition refill (rl : RateLimiter) (now : Z) : float64 :=
  let t := fadd (tokens rl) (fmul (Seconds (Sub now (lastUpdate rl))) (rate rl)) in
  if flt (f_of_Z (burst rl)) t then f_of_Z (burst rl) else t.

Definition Allow (now : Z) (rl : RateLimiter) : bool * RateLimiter :=
  let t := refill rl now in
  if fle f_one t then (true, mkRL (rate rl) (burst rl) (fsub t f_one) now)
  else (false, mkRL (rate rl) (burst rl) t now).

Definition AllowN (n now : Z) (rl : RateLimiter) : bool * RateLimiter :=
  let t := refill rl now in
  let tokensNeeded := f_of_Z n in
  if fle tokensNeeded t then (true, mkRL (rate rl) (burst rl) (fsub t tokensNeeded) now)
  else (false, mkRL (rate rl) (burst rl) t now).

(** The sleep of one turn of Wait, in nanoseconds: whole milliseconds; a
    conversion out of range is left open by the language. *)
Definition waitTime (rl : RateLimiter) : option Z :=
  let tokensNeeded := fsub f_one (tokens rl) in
  ms ← f_trunc (fmul (fdiv tokensNeeded (rate rl)) (f_of_Z 1000));
  Some (i64 (ms * Millisecond)).

(** Wait with at most [fuel] turns; [clock i] is the time of turn [i].  It answers
    the turns that had to sleep. *)
Fixpoint Wait (fuel i : nat) (clock : nat → Z) (rl : RateLimiter) : option (nat * RateLimiter) :=
  match fuel with
  | O => None
  | S f =>
      match Allow (clock i) rl with
      | (true, rl') => Some (i, rl')
      | (false, rl') => Wait f (S i) clock rl'
      end
  end.

Record RateLimiterStats := mkRLStats {
  rls_Rate : float64; rls_Burst : Z; AvailableTokens : float64; Utilization : float64 }.

Definition RL_Stats (now : Z) (rl : RateLimiter) : RateLimiterStats :=
  let t := refill rl now in
  mkRLStats (rate rl) (burst rl) t (fsub f_one (fdiv t (f_of_Z (burst rl)))).

(** A bucket never holds more than its burst after a refill. *)
Lemma flt_irrefl x : flt x x = false.
Proof.
  unfold flt, SFltb. destruct x as [s|s| |s m e]; simpl; try done; try by destruct s.
  destruct s; rewrite ?Z.compare_refl, Pos.compare_cont_refl; done.
Qed.

Lemma refill_capped rl now : flt (f_of_Z (burst rl)) (refill rl now) = false.
Proof. unfold refill. destruct (flt _ (fadd _ _)) eqn:E; [apply flt_irrefl|done]. Qed.

(** Allow is AllowN of one metric; a refill never leaves more tokens than the
    burst; and a request is allowed exactly when the refilled bucket holds what
    it needs, in which case that is what it takes. *)
Lemma AllowN_spec n now rl :
  Allow now rl = AllowN 1 now rl
  ∧ flt (f_of_Z (burst rl)) (refill rl now) = false
  ∧ (AllowN n now rl).1 = fle (f_of_Z n) (refill rl now)
  ∧ tokens (AllowN n now rl).2
    = (if (AllowN n now rl).1 then fsub (refill rl now) (f_of_Z n) else refill rl now)
  ∧ lastUpdate (AllowN n now rl).2 = now.
Proof.
  split; [done|]. split; [apply refill_capped|]. unfold AllowN. by destruct (fle (f_of_Z n) _).
Qed.
