(* ===== verification/Pipeline.v ===== *)
(** * The pipeline (pipeline.go, drain.go, admitAndEnqueue of cardinality.go)

    Producers record metrics into the ring, workers batch and export them, Flush
    and Shutdown make every worker drain.  Each method is a tree of atomic
    actions over the shared state: atomics, the ring's operations, the limiter's
    actions, channel operations, exporter calls.  The worker's endless loop and
    the retry loop of the memory reservation are cut off after an arbitrary
    number of turns, so that every finite execution is an execution of the model.

    The ring is the bounded FIFO queue of [Ring] and [RingMPMC]; an item carries
    the number of its push, which no code looks at.  Exporters are parameters:
    what the n-th call returns is arbitrary. *)

From S2P Require Import Prelude GoLib Atomic Attribute Metric Cardinality RateLimiter.
#[local] Open Scope prog_scope.

Module Pipeline.
Section pipeline.
Context `{Attributes}.

(** ** Exporters (models/exporter.go) *)
Inductive outcome := Ok | Failed (e : error) | Panics (v : gostring).

Record Exporter := mkExporter {
  x_name : gostring;
  x_timeout : option Z;              (* ExportTimeout(), when implemented *)
  x_export : nat → option Z → outcome; (* what the n-th Export returns, given its deadline *)
  x_idle : option (nat → outcome);   (* ExportIdle, when implemented *)
  x_shutdown : option error }.

Inductive DropStrategy := DropNewest | DropOldest.

#[global] Instance DropStrategy_eq_dec : EqDecision DropStrategy.
Proof. solve_decision. Defined.

(** The configuration the pipeline reads (models/config.go). *)
Record Config := mkConfig {
  MaxMemoryBytes : Z; Strategy : DropStrategy; MaxCardinality : Z; FlushInterval : Z;
  UDPTimeout : Z; AdaptiveBatching : bool }.

Context (cfg : Config) (exporters : list Exporter).
(** How the runtime grows a slice's capacity to hold a given length. *)
Context (growslice : Z → Z → Z).

(** ** State *)
(** An observation with the number of its push; the drop counters, which never
    were in the ring, have none. *)
Definition item := (option nat * Metric)%type.

(** flushRequest; the done channel is the acknowledgement list of its number. *)
Record flushRequest := mkRequest { req_ctx : nat; req_gen : Z; req_stop : bool; req_done : nat }.

(** A context is a number; 0 is the pipeline's own. *)
Record state := mkState {
  ring : list item; cap : Z; ring_dropped : Z; next : nat;
  memUsage : Z; dropped : Z; processed : Z; errors : Z; rateLimited : Z;
  exporterErrors : list Z; sourceErrors : gmap gostring Z;
  rateLimiter : option RateLimiter; cardinality : cardinalityLimiter;
  flushGen : Z; lastExport : Z;
  readers : nat; shutdown : bool; done_ctx : gmap nat error; wall : Z;
  offers : list (option flushRequest); acks : gmap nat (list (option error)); next_done : nat;
  running : nat; calls : nat; once_done : bool;
  (** history: batches every exporter was given, and items given up *)
  exported : list (list item); given_up : list item }.

(** ** Atomic actions *)
Inductive selected := SelDone | SelFlush (r : flushRequest) | SelTick | SelDefault.

Inductive act : Type → Type :=
| RLock : act unit
| RUnlock : act unit
| LoadShutdown : act bool
| CloseShutdown : act bool                     (* shutdownOnce; Lock, close, Unlock *)
| OnceDone : act unit                          (* shutdownOnce returns *)
| Cancel : act unit
| Now : act Z
| AllowRate : act (option bool)                (* rateLimiter.Allow(), nil limiter: None *)
| AddRateLimited : act unit
| Limiter {B} (e : Cardinality.act B) : act B
| LoadMem : act Z
| CasMem (old new : Z) : act bool
| AddMem (d : Z) : act unit
| AddDropped (n : Z) : act unit
| Push (m : Metric) : act bool
| PushDropOldest (m : Metric) : act (option item * bool)
| Pop : act (option item)
| Len : act Z
| Cap : act Z
| GiveUp (ms : list item) : act unit           (* a worker drops its batch *)
| CtxErr (c : nat) : act (option error)
| CallExporter (i : nat) : act nat             (* the number of the call *)
| AddErrors : act unit
| AddExporterErrors (i : nat) : act unit
| AddSourceErrors (name : gostring) : act unit
| Processed (batch : list item) : act unit     (* wg.Wait(); processed.Add; release *)
| StoreLastExport (t : Z) : act unit
| LoadLastExport : act Z
| AddFlushGen : act Z
| LoadFlushGen : act Z
| NewDone (c : nat) : act nat                  (* make(chan error, n), for a call with context c *)
| Select (i : nat) : act selected              (* the worker's select *)
| Offer (i : nat) (r : flushRequest) : act (option error)
| AwaitTaken (i d c : nat) : act (option error) (* the send to i is received, or a context is done *)
| SendAck (d : nat) (e : option error) : act unit
| RecvAck (d : nat) (c : nat) : act (option error + error)
| WorkerExit : act unit
| AwaitWorkers (c : nat) : act (option error)
| LoadStats : act state.

(** Updates of one field. *)
Definition set_ring s l d n := mkState l (cap s) d n (memUsage s) (dropped s) (processed s) (errors s) (rateLimited s) (exporterErrors s) (sourceErrors s) (rateLimiter s) (cardinality s) (flushGen s) (lastExport s) (readers s) (shutdown s) (done_ctx s) (wall s) (offers s) (acks s) (next_done s) (running s) (calls s) (once_done s) (exported s) (given_up s).
Definition set_mem s v := mkState (ring s) (cap s) (ring_dropped s) (next s) v (dropped s) (processed s) (errors s) (rateLimited s) (exporterErrors s) (sourceErrors s) (rateLimiter s) (cardinality s) (flushGen s) (lastExport s) (readers s) (shutdown s) (done_ctx s) (wall s) (offers s) (acks s) (next_done s) (running s) (calls s) (once_done s) (exported s) (given_up s).
Definition set_counters s dr pr er rl := mkState (ring s) (cap s) (ring_dropped s) (next s) (memUsage s) dr pr er rl (exporterErrors s) (sourceErrors s) (rateLimiter s) (cardinality s) (flushGen s) (lastExport s) (readers s) (shutdown s) (done_ctx s) (wall s) (offers s) (acks s) (next_done s) (running s) (calls s) (once_done s) (exported s) (given_up s).
Definition set_errors s xe se := mkState (ring s) (cap s) (ring_dropped s) (next s) (memUsage s) (dropped s) (processed s) (errors s) (rateLimited s) xe se (rateLimiter s) (cardinality s) (flushGen s) (lastExport s) (readers s) (shutdown s) (done_ctx s) (wall s) (offers s) (acks s) (next_done s) (running s) (calls s) (once_done s) (exported s) (given_up s).
Definition set_limits s rl ca := mkState (ring s) (cap s) (ring_dropped s) (next s) (memUsage s) (dropped s) (processed s) (errors s) (rateLimited s) (exporterErrors s) (sourceErrors s) rl ca (flushGen s) (lastExport s) (readers s) (shutdown s) (done_ctx s) (wall s) (offers s) (acks s) (next_done s) (running s) (calls s) (once_done s) (exported s) (given_up s).
Definition set_gen s g le := mkState (ring s) (cap s) (ring_dropped s) (next s) (memUsage s) (dropped s) (processed s) (errors s) (rateLimited s) (exporterErrors s) (sourceErrors s) (rateLimiter s) (cardinality s) g le (readers s) (shutdown s) (done_ctx s) (wall s) (offers s) (acks s) (next_done s) (running s) (calls s) (once_done s) (exported s) (given_up s).
Definition set_close s rd sd dc := mkState (ring s) (cap s) (ring_dropped s) (next s) (memUsage s) (dropped s) (processed s) (errors s) (rateLimited s) (exporterErrors s) (sourceErrors s) (rateLimiter s) (cardinality s) (flushGen s) (lastExport s) rd sd dc (wall s) (offers s) (acks s) (next_done s) (running s) (calls s) (once_done s) (exported s) (given_up s).
Definition set_wall s w := mkState (ring s) (cap s) (ring_dropped s) (next s) (memUsage s) (dropped s) (processed s) (errors s) (rateLimited s) (exporterErrors s) (sourceErrors s) (rateLimiter s) (cardinality s) (flushGen s) (lastExport s) (readers s) (shutdown s) (done_ctx s) w (offers s) (acks s) (next_done s) (running s) (calls s) (once_done s) (exported s) (given_up s).
Definition set_channels s o a nd := mkState (ring s) (cap s) (ring_dropped s) (next s) (memUsage s) (dropped s) (processed s) (errors s) (rateLimited s) (exporterErrors s) (sourceErrors s) (rateLimiter s) (cardinality s) (flushGen s) (lastExport s) (readers s) (shutdown s) (done_ctx s) (wall s) o a nd (running s) (calls s) (once_done s) (exported s) (given_up s).
Definition set_run s rn ca od := mkState (ring s) (cap s) (ring_dropped s) (next s) (memUsage s) (dropped s) (processed s) (errors s) (rateLimited s) (exporterErrors s) (sourceErrors s) (rateLimiter s) (cardinality s) (flushGen s) (lastExport s) (readers s) (shutdown s) (done_ctx s) (wall s) (offers s) (acks s) (next_done s) rn ca od (exported s) (given_up s).
Definition set_history s ex gu := mkState (ring s) (cap s) (ring_dropped s) (next s) (memUsage s) (dropped s) (processed s) (errors s) (rateLimited s) (exporterErrors s) (sourceErrors s) (rateLimiter s) (cardinality s) (flushGen s) (lastExport s) (readers s) (shutdown s) (done_ctx s) (wall s) (offers s) (acks s) (next_done s) (running s) (calls s) (once_done s) ex gu.

Definition pipeline_ctx : nat := 0.
Definition ctx_done (s : state) (c : nat) : option error := done_ctx s !! c.

(** The errors a blocked send of a flush request can end with. *)
Definition send_errors (s : state) (c : nat) : list error :=
  option_list (ctx_done s c) ++ match ctx_done s pipeline_ctx with Some _ => [ErrIs ErrClientClosed] | None => [] end.

(** The worker's select: a ready channel is taken before the default branch. *)
Definition select_outcomes (s : state) (i : nat) : list (selected * state) :=
  let closed := match ctx_done s pipeline_ctx with Some _ => [(SelDone, s)] | None => [] end in
  let flush :=
    match offers s !! i with
    | Some (Some r) => [(SelFlush r, set_channels s (<[i := None]> (offers s)) (acks s) (next_done s))]
    | _ => []
    end in
  match closed ++ flush with
  | [] => [(SelDefault, s); (SelTick, s)]
  | l => l ++ [(SelTick, s)]
  end.

Definition add_at (i : nat) (l : list Z) : list Z :=
  match l !! i with Some n => <[i := u64 (n + 1)]> l | None => l end.

Definition handle (B : Type) (e : act B) (s : state) : list (B * state) :=
  match e in act B return list (B * state) with
  | RLock => [(tt, set_close s (S (readers s)) (shutdown s) (done_ctx s))]
  | RUnlock => [(tt, set_close s (pred (readers s)) (shutdown s) (done_ctx s))]
  | LoadShutdown => [(shutdown s, s)]
  | CloseShutdown =>
      if shutdown s then (if once_done s then [(false, s)] else [])
      else if (readers s =? 0)%nat then [(true, set_close s (readers s) true (done_ctx s))] else []
  | OnceDone => [(tt, set_run s (running s) (calls s) true)]
  | Cancel => [(tt, set_close s (readers s) (shutdown s) (<[pipeline_ctx := ErrCanceled]> (done_ctx s)))]
  | Now => [(wall s, s)]
  | AllowRate =>
      match rateLimiter s with
      | None => [(None, s)]
      | Some rl => let r := Allow (wall s) rl in [(Some r.1, set_limits s (Some r.2) (cardinality s))]
      end
  | AddRateLimited => [(tt, set_counters s (dropped s) (processed s) (errors s) (u64 (rateLimited s + 1)))]
  | Limiter e => (λ r, (r.1, set_limits s (rateLimiter s) r.2)) <$> Cardinality.handle _ e (cardinality s)
  | LoadMem => [(memUsage s, s)]
  | CasMem old new => if memUsage s =? old then [(true, set_mem s new)] else [(false, s)]
  | AddMem d => [(tt, set_mem s (i64 (memUsage s + d)))]
  | AddDropped n => [(tt, set_counters s (u64 (dropped s + n)) (processed s) (errors s) (rateLimited s))]
  | Push m =>
      if len (ring s) <? cap s
      then [(true, set_ring s (ring s ++ [(Some (next s), m)]) (ring_dropped s) (S (next s)));
            (false, set_ring s (ring s) (u64 (ring_dropped s + 1)) (next s))]
      else [(false, set_ring s (ring s) (u64 (ring_dropped s + 1)) (next s))]
  | PushDropOldest m =>
      let refused := ((None, false), set_ring s (ring s) (u64 (ring_dropped s + 1)) (next s)) in
      if len (ring s) <? cap s
      then [((None, true), set_ring s (ring s ++ [(Some (next s), m)]) (ring_dropped s) (S (next s))); refused]
      else match ring s with
           | [] => [refused]
           | old :: rest =>
               [((Some old, true),
                 set_history (set_ring s (rest ++ [(Some (next s), m)]) (u64 (ring_dropped s + 1)) (S (next s)))
                   (exported s) (given_up s ++ [old]));
                refused]
           end
  | Pop =>
      match ring s with
      | [] => [(None, s)]
      | x :: rest => [(Some x, set_ring s rest (ring_dropped s) (next s))]
      end
  | Len => [(len (ring s), s)]
  | Cap => [(cap s, s)]
  | GiveUp ms => [(tt, set_history s (exported s) (given_up s ++ ms))]
  | CtxErr c => [(ctx_done s c, s)]
  | CallExporter i => [(calls s, set_run s (running s) (S (calls s)) (once_done s))]
  | AddErrors => [(tt, set_counters s (dropped s) (processed s) (u64 (errors s + 1)) (rateLimited s))]
  | AddExporterErrors i => [(tt, set_errors s (add_at i (exporterErrors s)) (sourceErrors s))]
  | AddSourceErrors name =>
      [(tt, set_errors s (exporterErrors s)
              (<[name := u64 (default 0 (sourceErrors s !! name) + 1)]> (sourceErrors s)))]
  | Processed batch =>
      [(tt, set_history (set_counters s (dropped s) (u64 (processed s + len batch)) (errors s) (rateLimited s))
              (exported s ++ [batch]) (given_up s))]
  | StoreLastExport t => [(tt, set_gen s (flushGen s) t)]
  | LoadLastExport => [(lastExport s, s)]
  | AddFlushGen => [(u64 (flushGen s + 1), set_gen s (u64 (flushGen s + 1)) (lastExport s))]
  | LoadFlushGen => [(flushGen s, s)]
  | NewDone _ => [(next_done s, set_channels s (offers s) (<[next_done s := []]> (acks s)) (S (next_done s)))]
  | Select i => select_outcomes s i
  | Offer i r =>
      match offers s !! i with
      | Some None => [(None, set_channels s (<[i := Some r]> (offers s)) (acks s) (next_done s))]
      | _ => (λ e, (Some e, s)) <$> send_errors s (req_ctx r)
      end
  | AwaitTaken i d c =>
      match offers s !! i with
      | Some (Some r) =>
          if (req_done r =? d)%nat then
            (* still offered: only a done context ends the wait, and withdraws *)
            let withdrawn := set_channels s (<[i := None]> (offers s)) (acks s) (next_done s) in
            (λ e, (Some e, withdrawn)) <$> send_errors s c
          else [(None, s)]
      | _ => [(None, s)]
      end
  | SendAck d e => [(tt, set_channels s (offers s) (<[d := default [] (acks s !! d) ++ [e]]> (acks s)) (next_done s))]
  | RecvAck d c =>
      match acks s !! d with
      | Some (e :: rest) => [(inl e, set_channels s (offers s) (<[d := rest]> (acks s)) (next_done s))]
      | _ => []
      end
      ++ match ctx_done s c with Some e => [(inr e, s)] | None => [] end
  | WorkerExit => [(tt, set_run s (pred (running s)) (calls s) (once_done s))]
  | AwaitWorkers c =>
      (if (running s =? 0)%nat then [(None, s)] else [])
      ++ match ctx_done s c with Some e => [(Some e, s)] | None => [] end
  | LoadStats => [(s, s)]
  end.

#[local] Notation "'let!' x := e ; k" := (@Act act _ _ e (λ x, k)) : prog_scope.
#[local] Notation "'run!' e ; k" := (@Act act _ _ e (λ _, k)) : prog_scope.

(** The limiter's methods run on the pipeline's limiter. *)
Fixpoint limiter {A} (p : prog Cardinality.act A) : prog act A :=
  match p with
  | Ret a => Ret a
  | Act e k => Act (Limiter e) (λ b, limiter (k b))
  end.

(** ** Recording *)

(** The reservation loop of enqueue: [None] when it is cut off still retrying. *)
Fixpoint reserve_loop (fuel : nat) (size : Z) : prog act (option (option error)) :=
  match fuel with
  | O => Ret None
  | S f =>
      let! current := LoadMem;
      let newUsage := i64 (current + size) in
      if MaxMemoryBytes cfg <? newUsage then
        run! AddDropped 1;
        Ret (Some (Some (ErrIs ErrMemoryLimit)))
      else
        let! swapped := CasMem current newUsage;
        if swapped then Ret (Some None) else reserve_loop f size
  end.

Definition enqueueDropOldest (m : Metric) (size : Z) : prog act (option error) :=
  let! r := PushDropOldest m;
  match r with
  | (_, false) =>
      run! AddMem (- size);
      run! AddDropped 1;
      Ret (Some (ErrIs ErrBufferFull))
  | (Some old, true) =>
      run! AddMem (- EstimateSize old.2);
      Ret None
  | (None, true) => Ret None
  end.

(** enqueue; the outer [None] is the cut-off. *)
Definition enqueue (fuel : nat) (m : Metric) : prog act (option (option error)) :=
  let size := EstimateSize m in
  let@ r := reserve_loop fuel size;
  match r with
  | None => Ret None
  | Some (Some err) => Ret (Some (Some err))
  | Some None =>
      if decide (Strategy cfg = DropOldest) then
        let@ e := enqueueDropOldest m size; Ret (Some e)
      else
        let! ok := Push m;
        if negb ok then
          run! AddMem (- size);
          run! AddDropped 1;
          Ret (Some (Some (ErrIs ErrBufferFull)))
        else Ret (Some None)
  end.

Definition admitAndEnqueue (fuel : nat) (m : Metric) : prog act (option (option error)) :=
  let@ r := limiter (admit_ m (MaxCardinality cfg));
  match r with
  | (m, inr err) => Ret (Some (Some err))
  | (m, inl a) =>
      let@ e := enqueue fuel m;
      match e with
      | None => Ret None
      | Some (Some err) => run@ limiter (release a); Ret (Some (Some err))
      | Some None => run@ limiter (commit a); Ret (Some None)
      end
  end.

Definition with_timestamp (m : Metric) (t : Z) : Metric := WithTimestamp t m.

(** Record; [span] is the span of the caller's context. *)
Definition Record_ (fuel : nat) (span : SpanContext) (m : Metric) : prog act (option (option error)) :=
  run! RLock;
  let! closed := LoadShutdown;
  if closed then run! RUnlock; Ret (Some (Some (ErrIs ErrClientClosed)))
  else
    let! allowed := AllowRate;
    match allowed with
    | Some false =>
        run! AddRateLimited;
        run! RUnlock;
        Ret (Some (Some (ErrIs ErrRateLimitExceeded)))
    | _ =>
        let! now := Now;
        let m := if IsZero (Timestamp m) then with_timestamp m now else m in
        let m := attachExemplar span m in
        let@ r := admitAndEnqueue fuel m;
        run! RUnlock;
        Ret r
    end.

(** ** Exporting *)
Definition exporter_error (x : Exporter) (o : outcome) : option error :=
  match o with
  | Ok => None
  | Failed e => Some (ErrWrap (str "exporter " ++ x_name x) e)
  | Panics v => Some (ErrText (str "exporter " ++ x_name x ++ str " panicked: " ++ v))
  end.

(** The deadline processBatchWith puts on an exporter's context. *)
Definition export_deadline (defaultTimeout : Z) (x : Exporter) : option Z :=
  match x_timeout x with
  | Some _ => None
  | None => if 0 <? defaultTimeout then Some defaultTimeout else None
  end.

(** The goroutines of processBatchWith, each calling its exporter and counting a
    failure or a panic; wg.Wait follows. *)
Fixpoint export_all (defaultTimeout : Z) (i : nat) (xs : list Exporter) : prog act (list (option error)) :=
  match xs with
  | [] => Ret []
  | x :: rest =>
      let! n := CallExporter i;
      let err := exporter_error x (x_export x n (export_deadline defaultTimeout x)) in
      match err with
      | None => let@ errs := export_all defaultTimeout (S i) rest; Ret (None :: errs)
      | Some e =>
          run! AddErrors;
          run! AddExporterErrors i;
          let@ errs := export_all defaultTimeout (S i) rest; Ret (Some e :: errs)
      end
  end.

Definition processBatchWith (ctx : nat) (batch : list item) (defaultTimeout : Z) : prog act (option error) :=
  if len batch =? 0 then Ret None
  else
    let@ errs := export_all defaultTimeout 0 exporters;
    run! Processed batch;
    Ret (errors_join errs).

Definition processBatch (ctx : nat) (batch : list item) : prog act (option error) :=
  processBatchWith ctx batch 0.

Definition exportInBackground (batch : list item) : prog act (option error) :=
  let! now := Now;
  run! StoreLastExport (UnixNano now);
  processBatchWith pipeline_ctx batch (UDPTimeout cfg).

Definition idleSince (d : Z) : prog act bool :=
  let! last := LoadLastExport;
  let! now := Now;
  Ret (d <=? Sub now (Unix 0 last)).

Fixpoint exportIdle_all (i : nat) (xs : list Exporter) : prog act (list (option error)) :=
  match xs with
  | [] => Ret []
  | x :: rest =>
      match x_idle x with
      | None => exportIdle_all (S i) rest
      | Some out =>
          let! n := CallExporter i;
          match exporter_error x (out n) with
          | None => exportIdle_all (S i) rest
          | Some e =>
              run! AddErrors;
              run! AddExporterErrors i;
              let@ errs := exportIdle_all (S i) rest; Ret (Some e :: errs)
          end
      end
  end.

Definition exportIdleInBackground : prog act (option error) :=
  let@ errs := exportIdle_all 0 exporters;
  Ret (errors_join errs).

(** appendPopped: a metric leaves its memory reservation when it joins a batch. *)
Fixpoint appendPopped (batch items : list item) : prog act (list item) :=
  match items with
  | [] => Ret batch
  | x :: rest =>
      run! AddMem (- EstimateSize x.2);
      appendPopped (batch ++ [x]) rest
  end.

(** PopBatch of the ring *)
Fixpoint PopBatch (maxItems : nat) (items : list item) : prog act (list item) :=
  match maxItems with
  | O => Ret items
  | S n =>
      let! x := Pop;
      match x with
      | None => Ret items
      | Some x => PopBatch n (items ++ [x])
      end
  end.

(** The drop counters join a batch as observations that never were in the ring. *)
Definition appendDropCounters (batch : list item) : prog act (list item) :=
  let! now := Now;
  let@ counters := limiter (Cardinality.appendDropCounters now []);
  Ret (batch ++ ((λ m, (None, m)) <$> counters)).


(** ** Draining (drain.go) *)
Definition drainChunk : nat := 500.

Record exportFailure := mkFailure { f_err : option error; f_gen : Z }.

Definition record_failure (f : exportFailure) (err : option error) : prog act exportFailure :=
  match err with
  | None => Ret f
  | Some e => let! gen := LoadFlushGen; Ret (mkFailure (Some e) gen)
  end.

Definition since (f : exportFailure) (gen : Z) : option error :=
  match f_err f with
  | None => None
  | Some e => if f_gen f <? gen then None
              else Some (ErrWrap (str "export in progress during flush failed") e)
  end.

(** The loop of drain: every turn that goes on has popped an item, so [Cap] turns
    are enough. *)
Fixpoint drain_loop (fuel : nat) (ctx : nat) (popped capacity : Z) (batch : list item)
    (errs : list (option error)) : prog act (list item * list (option error)) :=
  match fuel with
  | O => Ret (batch, errs)
  | S f =>
      if popped <? capacity then
        let! err := CtxErr ctx;
        match err with
        | Some _ => Ret (batch, errs)
        | None =>
            let@ items := PopBatch drainChunk [];
            if len items =? 0 then Ret (batch, errs)
            else
              let@ batch := appendPopped batch items;
              if Z.of_nat drainChunk <=? len batch then
                let@ e := processBatch ctx batch;
                drain_loop f ctx (popped + len items) capacity [] (errs ++ [e])
              else drain_loop f ctx (popped + len items) capacity batch errs
        end
      else Ret (batch, errs)
  end.

Definition drain (ctx : nat) (batch : list item) : prog act (option error) :=
  let! capacity := Cap;
  let@ r := drain_loop (Z.to_nat capacity) ctx 0 capacity batch [];
  let@ batch := appendDropCounters r.1;
  let@ e := processBatch ctx batch;
  Ret (errors_join (r.2 ++ [e])).

(** ** The worker *)

(** The capacity of a slice of length [l] and capacity [c] after [n] appends. *)
Fixpoint appended_cap (c : Z) (l : nat) (n : nat) : Z :=
  match n with
  | O => c
  | S n' =>
      let c' := if c <? Z.of_nat (S l) then growslice c (Z.of_nat (S l)) else c in
      appended_cap c' (S l) n'
  end.

Definition initialCap : Z := 100.

Inductive exit := Stopped | Cancelled | Running.

(** [turns] turns of worker [id]'s loop, with its batch, the batch's capacity
    and its latest failure. *)
Fixpoint worker_loop (turns : nat) (id : nat) (batch : list item) (c : Z) (inFlight : exportFailure) :
    prog act exit :=
  match turns with
  | O => Ret Running
  | S n =>
      let! sel := Select id;
      match sel with
      | SelDone =>
          run! AddDropped (len batch);
          run! GiveUp batch;
          run! WorkerExit;
          Ret Cancelled
      | SelFlush request =>
          let@ e := drain (req_ctx request) batch;
          run! SendAck (req_done request) (errors_join [since inFlight (req_gen request); e]);
          if req_stop request then run! WorkerExit; Ret Stopped
          else worker_loop n id [] c inFlight
      | SelTick =>
          let@ batch' := appendDropCounters batch;
          let c := appended_cap c (length batch) (length batch' - length batch) in
          let batch := batch' in
          if 0 <? len batch then
            let@ e := exportInBackground batch;
            let@ f := record_failure inFlight e;
            worker_loop n id [] c f
          else if (id =? 0)%nat then
            let@ idle := idleSince (FlushInterval cfg);
            if idle then
              let@ e := exportIdleInBackground;
              let@ f := record_failure inFlight e;
              worker_loop n id batch c f
            else worker_loop n id batch c inFlight
          else worker_loop n id batch c inFlight
      | SelDefault =>
          let! l := Len;
          let! bufferCap := Cap;
          let batchSize := if AdaptiveBatching cfg && (bufferCap / 2 <? l) then 500%nat else 100%nat in
          let@ items := PopBatch batchSize [];
          if len items =? 0 then worker_loop n id batch c inFlight
          else
            let c := appended_cap c (length batch) (length items) in
            let@ batch := appendPopped batch items;
            if c <=? len batch then
              let@ e := exportInBackground batch;
              let@ f := record_failure inFlight e;
              worker_loop n id [] c f
            else worker_loop n id batch c inFlight
      end
  end.

Definition worker (turns : nat) (id : nat) : prog act exit :=
  worker_loop turns id [] initialCap (mkFailure None 0).

(** ** Flush and Shutdown (drain.go) *)

(** The sends of broadcast, to the workers from [i] on. *)
Fixpoint broadcast_send (n i : nat) (r : flushRequest) : prog act (option error) :=
  match n with
  | O => Ret None
  | S n' =>
      let! e := Offer i r;
      match e with
      | Some err => Ret (Some err)
      | None =>
          let! e := AwaitTaken i (req_done r) (req_ctx r);
          match e with
          | Some err => Ret (Some err)
          | None => broadcast_send n' (S i) r
          end
      end
  end.

(** The acknowledgements: [inr] is the context's error. *)
Fixpoint broadcast_wait (n : nat) (r : flushRequest) (errs : list (option error)) :
    prog act (list (option error) + error) :=
  match n with
  | O => Ret (inl errs)
  | S n' =>
      let! a := RecvAck (req_done r) (req_ctx r);
      match a with
      | inr err => Ret (inr err)
      | inl e => broadcast_wait n' r (errs ++ [e])
      end
  end.

Definition broadcast (workers : nat) (ctx : nat) (stop : bool) : prog act (option error) :=
  let! d := NewDone ctx;
  let! gen := AddFlushGen;
  let request := mkRequest ctx gen stop d in
  let@ e := broadcast_send workers 0 request;
  match e with
  | Some err => Ret (Some err)
  | None =>
      let@ r := broadcast_wait workers request [];
      match r with
      | inr err => Ret (Some err)
      | inl errs => Ret (errors_join errs)
      end
  end.

Definition Flush (workers : nat) (ctx : nat) : prog act (option error) :=
  let! closed := LoadShutdown;
  if closed then Ret (Some (ErrIs ErrClientClosed))
  else
    let@ e := broadcast workers ctx false;
    Ret (wrap "flush" e).

Definition waitWorkers (ctx : nat) : prog act (option error) :=
  let! e := AwaitWorkers ctx;
  Ret (wrap "wait for workers" e).

Definition shutdown_errors : list (option error) :=
  (λ x, ErrWrap (str "exporter " ++ x_name x ++ str " shutdown") <$> x_shutdown x) <$> exporters.

Definition Shutdown (workers : nat) (ctx : nat) : prog act (option error) :=
  let! first := CloseShutdown;
  if negb first then Ret None
  else
    let@ e := broadcast workers ctx true;
    run! Cancel;
    let! done := CtxErr ctx;
    let@ w := (match done with None => waitWorkers ctx | Some _ => Ret None end);
    run! OnceDone;
    Ret (wrap "pipeline shutdown" (errors_join ([e; w] ++ shutdown_errors))).

(** ** Statistics *)
Record PipelineStats := mkPipelineStats {
  BufferLen : Z; BufferCap : Z; BufferDropped : Z; st_Processed : Z; Dropped : Z; RateLimited : Z;
  Errors : Z; MemoryUsage : Z; MaxMemory : Z; Workers : Z; ExporterErrors : gmap gostring Z;
  st_RateLimiter : option RateLimiterStats; DroppedLabels : Z }.

(** getExporterErrors: exporters of one name share an entry, the last one's count;
    the other sources are added. *)
Definition getExporterErrors (s : state) : gmap gostring Z :=
  let byExporter := foldl (λ m xe, <[x_name xe.1 := xe.2]> m) ∅ (zip exporters (exporterErrors s)) in
  map_fold (λ k v m, <[k := u64 (default 0 (m !! k) + v)]> m) byExporter (sourceErrors s).

Definition Stats (workers : Z) : prog act PipelineStats :=
  let! s := LoadStats;
  Ret (mkPipelineStats (len (ring s)) (cap s) (ring_dropped s) (processed s) (dropped s) (rateLimited s)
         (errors s) (memUsage s) (MaxMemoryBytes cfg) workers (getExporterErrors s)
         (RL_Stats (wall s) <$> rateLimiter s) (total (cardinality s))).

Fixpoint exporter (name : gostring) (xs : list Exporter) : option Exporter :=
  match xs with
  | [] => None
  | x :: rest => if gostring_eqb (x_name x) name then Some x else exporter name rest
  end.

Fixpoint exporter_index (name : gostring) (i : nat) (xs : list Exporter) : option nat :=
  match xs with
  | [] => None
  | x :: rest => if gostring_eqb (x_name x) name then Some i else exporter_index name (S i) rest
  end.

Definition RecordExporterError (name : gostring) : prog act unit :=
  run! AddErrors;
  match exporter_index name 0 exporters with
  | Some i => run! AddExporterErrors i; Ret tt
  | None => run! AddSourceErrors name; Ret tt
  end.

(** The state of a pipeline NewPipeline returns, for a ring of capacity [capacity]. *)
Definition new_state (capacity : Z) (rl : option RateLimiter) (now : Z) : state :=
  mkState [] capacity 0 0 0 0 0 0 0 (replicate (length exporters) 0) ∅ rl empty_limiter 0 0
    0 false ∅ now [] ∅ 0 0 0 false [] [].

(** Start, on a pipeline that has been created: a flush channel per worker. *)
Definition Start (workers : nat) (s : state) : state :=
  set_run (set_channels s (replicate workers None) (acks s) (next_done s)) workers (calls s) (once_done s).

End pipeline.
End Pipeline.
