(* ===== verification/Backends.v ===== *)
(** * The built-in backends (exporters/datadog, exporters/cloudwatch,
    exporters/prometheus, newExporters of pipeline_init.go)

    The exporters that send datagrams are a configuration, a serializer and a
    [BaseExporter].  [newExporters] builds those that are enabled; the pipeline
    counts errors per name, which a valid configuration keeps distinct. *)

From S2P Require Import Prelude GoLib Atomic Circuit Udp Attribute Metric DogStatsD DogStatsDParse Config Exporter Datadog RateLimiter Cardinality Pipeline.
#[local] Open Scope prog_scope.

Section backends.
Context `{Attributes}.
Context (ResolveUDPAddr : gostring → gostring → option error).
Context (dialUnixgram DialUDP : nat → gostring → option error) (SetWriteBuffer : nat → option error).
(** serializers.NewEMFSerializer, and otlp.NewExporter on the settings newOTLPExporter fills in. *)
Context (EMFSerializer : gostring → gostring → Exporter.Serializer) (otlp_NewExporter : OTLPConfig → option error).

#[local] Abbreviation NewBase := (Exporter.NewBaseExporterNetwork ResolveUDPAddr dialUnixgram DialUDP SetWriteBuffer).

(** ** Datadog *)
Record datadog_Exporter := mkDatadogExporter {
  dd_base : Exporter.BaseExporter; dd_config : DatadogConfig; dd_serializer : DogStatsDSerializer; dd_packetSize : Z }.

(** The exporter's copy of the configuration. *)
Definition datadog_copy (c : DatadogConfig) : DatadogConfig :=
  mkDatadog (dd_Enabled c) (dd_AgentHost c) (dd_AgentPort c) (Endpoint c) (dd_BufferSize c) (dd_Tags c) (UseDistributions c)
    (DistributionPrefixes c) (Some (match Filters c with Some f => f | None => DefaultDatadogFilters end)).

Definition datadog_serializer (cfg : DatadogConfig) : DogStatsDSerializer :=
  NewDogStatsDSerializer (dd_Tags cfg)
    [WithDistributions (UseDistributions cfg); WithDistributionPrefixes (DistributionPrefixes cfg);
     WithTagFilters (default [] (Filters cfg))].

Definition datadog_NewExporter (config : option DatadogConfig) (now : Z) : datadog_Exporter + error :=
  match config with
  | None => inr (ErrText (str "datadog config is nil"))
  | Some config =>
      match dd_Validate config with
      | Some err => inr (ErrWrap (str "invalid config") err)
      | None =>
          let cfg := datadog_copy config in
          match ResolveEndpoint cfg with
          | inr err => inr (ErrWrap (str "invalid config") err)
          | inl (network, address) =>
              let serializer := datadog_serializer cfg in
              match NewBase (str "datadog") network address (Exporter.dogstatsd_serializer serializer) now with
              | inr err => inr err
              | inl base => inl (mkDatadogExporter base cfg serializer (PacketSize cfg))
              end
          end
      end
  end.

Definition dropped_lines : error := ErrText (str "datadog: dropped lines larger than buffer size").

Definition datadog_Export (e : datadog_Exporter) (c : Udp.ctx) (n : Udp.net) (metrics : list Metric) :
    prog Exporter.act Udp.result :=
  if negb (dd_Enabled (dd_config e)) || (len metrics =? 0) then Ret (Udp.Returned None)
  else
    let lines := Serialize (dd_serializer e) metrics in
    let '(packets, oversized) := packetize lines (dd_packetSize e) in
    let@ r := Exporter.SendPackets c n packets (i64 (len lines - oversized));
    match r with
    | Udp.Panicked => Ret Udp.Panicked
    | Udp.Returned sendErr =>
        let dropErr := if 0 <? oversized then Some dropped_lines else None in
        Ret (Udp.Returned (errors_join [sendErr; dropErr]))
    end.

Definition datadog_SendEvent (e : datadog_Exporter) (c : Udp.ctx) (n : Udp.net) (ev : DatadogEvent) :
    prog Exporter.act Udp.result :=
  let payload := SerializeEvent (dd_serializer e) ev in
  if dd_packetSize e <? len payload
  then Ret (Udp.Returned (Some (ErrWrapAfter (ErrIs ErrEventTooLarge) (str "larger than the buffer size"))))
  else Exporter.SendPackets c n [payload] 0.

(** ** CloudWatch and Prometheus *)
Record base_Exporter (config : Type) := mkBackend { b_base : Exporter.BaseExporter; b_config : config }.
#[global] Arguments mkBackend {config} b_base b_config.
#[global] Arguments b_base {config}.
#[global] Arguments b_config {config}.

Definition cloudwatch_NewExporter (config : option CloudWatchConfig) (now : Z) : base_Exporter CloudWatchConfig + error :=
  match config with
  | None => inr (ErrText (str "cloudwatch config is nil"))
  | Some config =>
      match cw_Validate config with
      | Some err => inr (ErrWrap (str "invalid config") err)
      | None =>
          let region := if empty (cw_Region config) then str "us-east-1" else cw_Region config in
          match NewBase (str "cloudwatch") (str "udp") (cw_Address config) (EMFSerializer (cw_Namespace config) region) now with
          | inr err => inr err
          | inl base => inl (mkBackend base config)
          end
      end
  end.

Definition cloudwatch_Export (e : base_Exporter CloudWatchConfig) (c : Udp.ctx) (n : Udp.net) (metrics : list Metric) :
    prog Exporter.act Udp.result :=
  if negb (cw_Enabled (b_config e)) then Ret (Udp.Returned None)
  else Exporter.Export (Exporter.serializer (b_base e)) c n metrics.

Definition prometheus_NewExporter (config : option PrometheusConfig) (now : Z) : base_Exporter PrometheusConfig + error :=
  match config with
  | None => inr (ErrText (str "prometheus config is nil"))
  | Some config =>
      match pr_Validate config with
      | Some err => inr (ErrWrap (str "invalid config") err)
      | None =>
          let prefix := if empty (Job config) then str "stats" else Job config in
          match NewBase (str "prometheus") (str "udp") (PushgatewayAddress config) (Exporter.statsd_serializer prefix) now with
          | inr err => inr err
          | inl base => inl (mkBackend base config)
          end
      end
  end.

Definition prometheus_Export (e : base_Exporter PrometheusConfig) (c : Udp.ctx) (n : Udp.net) (metrics : list Metric) :
    prog Exporter.act Udp.result :=
  if negb (pr_Enabled (b_config e)) then Ret (Udp.Returned None)
  else Exporter.Export (Exporter.serializer (b_base e)) c n metrics.

(** ** The exporters of a pipeline *)

(** newOTLPExporter's settings: the client's identity where the OTLP one is not set, and
    the client's bounds over the OTLP ones. *)
Definition otlp_settings (cfg : Config) (o : OTLPConfig) : OTLPConfig :=
  mkOTLP (o_Enabled o) (o_Endpoint o) (o_Insecure o) (o_Headers o)
    (if empty (o_ServiceName o) && negb (gostring_eqb (ServiceName cfg) (str "unknown-service")) then ServiceName cfg else o_ServiceName o)
    (if empty (o_DeploymentEnvironment o) && negb (gostring_eqb (Environment cfg) (str "development")) then Environment cfg else o_DeploymentEnvironment o)
    (o_ServiceVersion o) (o_ResourceAttributes o) (o_ResourceSchemaURL o) (o_Temporality o) (o_Protocol o) (o_Compression o)
    (o_ExportTimeout o) (o_HistogramBuckets o)
    (if bool_decide (HistogramBucketsByName cfg ≠ ∅) then HistogramBucketsByName cfg ∪ o_BucketsByName o else o_BucketsByName o)
    (o_Retry o) (o_ExponentialHistogram o) (o_TLSConfig o) (o_CAFile o) (o_ClientCertFile o) (o_ClientKeyFile o) (o_DisableResourceDetection o)
    (o_HTTPClient o) (o_GRPCDialOptions o).

(** One backend: the name of its exporter when it is enabled. *)
Definition backend {A B} (enabled : A → bool) (new : A → B + error) (name : B → gostring) (prefix : string) (c : option A) :
    list gostring + error :=
  match c with
  | Some a =>
      if enabled a then
        match new a with
        | inl e => inl [name e]
        | inr err => inr (ErrWrap (str prefix) err)
        end
      else inl []
  | None => inl []
  end.

Definition then_ {A} (a : list A + error) (b : list A + error) : list A + error :=
  match a with
  | inr err => inr err
  | inl l => match b with inr err => inr err | inl m => inl (l ++ m) end
  end.

(** newExporters, as the names of the exporters: the enabled backends, then the custom
    exporters.  The configuration is validated, so no custom exporter is nil. *)
Definition newExporters (cfg : Config) (now : Z) : list gostring + error :=
  then_ (backend dd_Enabled (λ c, datadog_NewExporter (Some c) now) (λ e, Exporter.name (dd_base e)) "create datadog exporter" (Datadog cfg))
  (then_ (backend pr_Enabled (λ c, prometheus_NewExporter (Some c) now) (λ e, Exporter.name (b_base e)) "create prometheus exporter" (Prometheus cfg))
  (then_ (backend cw_Enabled (λ c, cloudwatch_NewExporter (Some c) now) (λ e, Exporter.name (b_base e)) "create cloudwatch exporter" (CloudWatch cfg))
  (then_ (backend o_Enabled (λ o, match otlp_NewExporter (otlp_settings cfg o) with None => inl tt | Some err => inr err end)
            (λ _, str "otlp") "create otlp exporter" (OTLP cfg))
         (inl (omap id (Exporters cfg)))))).

Lemma NewBase_name nm net addr ser now e : NewBase nm net addr ser now = inl e → Exporter.name e = nm.
Proof. unfold Exporter.NewBaseExporterNetwork. destruct (Udp.NewPool _ _ _ _ _ _ _ _) as [p|[]]; [|done]. by intros [= <-]. Qed.

Lemma datadog_name c now e : datadog_NewExporter c now = inl e → Exporter.name (dd_base e) = str "datadog".
Proof.
  unfold datadog_NewExporter. destruct c as [c|]; [|done]. destruct (dd_Validate c); [done|].
  destruct (ResolveEndpoint _) as [[net addr]|]; [|done]. destruct (NewBase _ _ _ _ _) as [b|] eqn:E; [|done].
  intros [= <-]. by apply NewBase_name in E.
Qed.

Lemma prometheus_name c now e : prometheus_NewExporter c now = inl e → Exporter.name (b_base e) = str "prometheus".
Proof.
  unfold prometheus_NewExporter. destruct c as [c|]; [|done]. destruct (pr_Validate c); [done|].
  destruct (NewBase _ _ _ _ _) as [b|] eqn:E; [|done]. intros [= <-]. by apply NewBase_name in E.
Qed.

Lemma cloudwatch_name c now e : cloudwatch_NewExporter c now = inl e → Exporter.name (b_base e) = str "cloudwatch".
Proof.
  unfold cloudwatch_NewExporter. destruct c as [c|]; [|done]. destruct (cw_Validate c); [done|].
  destruct (NewBase _ _ _ _ _) as [b|] eqn:E; [|done]. intros [= <-]. by apply NewBase_name in E.
Qed.

Lemma backend_names {A B} enabled (new : A → B + error) name prefix c l nm :
  (∀ a e, new a = inl e → name e = nm) → backend enabled new name prefix c = inl l →
  l = if is_enabled enabled c then [nm] else [].
Proof.
  intros Hn. unfold backend, is_enabled. destruct c as [a|]; [|by intros [= <-]].
  destruct (enabled a); [|by intros [= <-]]. destruct (new a) as [e|] eqn:E; [|done].
  intros [= <-]. by rewrite (Hn a e E).
Qed.

Lemma then_inl {A} (a b : list A + error) l : then_ a b = inl l → ∃ x y, a = inl x ∧ b = inl y ∧ l = x ++ y.
Proof. unfold then_. destruct a, b; try done. intros [= <-]. eauto. Qed.

Lemma newExporters_names cfg now names : newExporters cfg now = inl names → names = exporter_names cfg.
Proof.
  unfold newExporters, exporter_names, builtin_names. intros Hn.
  apply then_inl in Hn as (l1 & r1 & H1 & Hn & ->). apply then_inl in Hn as (l2 & r2 & H2 & Hn & ->).
  apply then_inl in Hn as (l3 & r3 & H3 & Hn & ->). apply then_inl in Hn as (l4 & r4 & H4 & Hn & ->).
  injection Hn as <-. rewrite <-!app_assoc.
  rewrite (backend_names _ _ _ _ _ _ (str "datadog") (λ a e, datadog_name _ _ e) H1).
  rewrite (backend_names _ _ _ _ _ _ (str "prometheus") (λ a e, prometheus_name _ _ e) H2).
  rewrite (backend_names _ _ _ _ _ _ (str "cloudwatch") (λ a e, cloudwatch_name _ _ e) H3).
  rewrite (backend_names _ _ _ _ _ _ (str "otlp") (λ _ _ _, eq_refl) H4). done.
Qed.

(** The map that the reporting of errors builds. *)
Lemma by_exporter_lookup (xs : list Pipeline.Exporter) (es : list Z) (m : gmap gostring Z) i x n :
  NoDup (Pipeline.x_name <$> xs) → xs !! i = Some x → es !! i = Some n →
  foldl (λ m (xe : Pipeline.Exporter * Z), <[Pipeline.x_name xe.1 := xe.2]> m) m (zip xs es) !! Pipeline.x_name x = Some n.
Proof.
  assert (Hkeep : ∀ xs es (m : gmap gostring Z) k v, k ∉ Pipeline.x_name <$> xs → m !! k = v →
    foldl (λ m (xe : Pipeline.Exporter * Z), <[Pipeline.x_name xe.1 := xe.2]> m) m (zip xs es) !! k = v).
  { clear. induction xs as [|x xs IH]; intros [|e es] m k v Hk Hm; try done. simpl. csimpl in Hk.
    rewrite not_elem_of_cons in Hk. destruct Hk. apply IH; [done|]. by rewrite lookup_insert_ne. }
  revert es m i. induction xs as [|y xs IH]; intros [|e es] m [|i] Hnd Hx He; simplify_eq/=; csimpl in Hnd;
    apply NoDup_cons in Hnd as [Hy Hnd].
  - apply Hkeep; [done|]. by rewrite lookup_insert_eq.
  - by eapply IH.
Qed.

Lemma add_sources_lookup (src base : gmap gostring Z) k :
  src !! k = None → map_fold (λ k v m, <[k := u64 (default 0 (m !! k) + v)]> m) base src !! k = base !! k.
Proof.
  revert src. refine (map_fold_weak_ind (λ r src, src !! k = None → r !! k = base !! k) _ base _ _); [done|].
  intros i x src r Hi IH Hk. destruct (decide (i = k)) as [->|Hne]; [by rewrite lookup_insert_eq in Hk|].
  rewrite lookup_insert_ne in Hk by done. rewrite lookup_insert_ne by done. auto.
Qed.

(** Errors are reported per exporter.  If the configuration is valid, the exporters
    newExporters builds from it have distinct names, so the statistics show for each of
    them exactly the errors counted for it. *)
Theorem exporter_errors_exact cfg now names xs s i x n :
  ValidateConfig cfg = None → newExporters cfg now = inl names → Pipeline.x_name <$> xs = names →
  xs !! i = Some x → Pipeline.exporterErrors s !! i = Some n → Pipeline.sourceErrors s !! Pipeline.x_name x = None →
  Pipeline.getExporterErrors xs s !! Pipeline.x_name x = Some n.
Proof.
  intros Hv Hn Hx Hi He Hs. apply newExporters_names in Hn. subst names. destruct (valid_names cfg Hv) as [_ Hnd].
  unfold Pipeline.getExporterErrors. rewrite add_sources_lookup by done. eapply by_exporter_lookup; [|done|done]. by rewrite Hx.
Qed.

(** C15. Datagrams fit.  For every valid Datadog configuration, every datagram that Export
    makes of any batch is at most the configured size, which is at most what a UDP
    datagram can carry, and none is empty; an event is sent as one such datagram, or, when it is larger,
    nothing is sent and the error matches ErrEventTooLarge. *)
Theorem datadog_datagrams_fit c now e :
  datadog_NewExporter (Some c) now = inl e →
  (∀ metrics, Forall (λ d, 0 < len d ≤ dd_packetSize e) (packetize (Serialize (dd_serializer e) metrics) (dd_packetSize e)).1)
  ∧ dd_packetSize e ≤ MaxDatadogBufferSize
  ∧ (∀ ctx n ev,
       let payload := SerializeEvent (dd_serializer e) ev in
       (len payload ≤ dd_packetSize e ∧ datadog_SendEvent e ctx n ev = Exporter.SendPackets ctx n [payload] 0)
       ∨ (∃ err, datadog_SendEvent e ctx n ev = Ret (Udp.Returned (Some err)) ∧ errors_is ErrEventTooLarge err = true)).
Proof.
  intros He. assert (Hsize : 0 < dd_packetSize e ≤ MaxDatadogBufferSize).
  { unfold datadog_NewExporter in He. destruct (dd_Validate c) eqn:Hv; [done|]. destruct (ResolveEndpoint _) as [[net addr]|]; [|done].
    destruct (NewBase _ _ _ _ _) as [b|]; [|done]. injection He as <-. cbn [dd_packetSize].
    change (PacketSize (datadog_copy c)) with (PacketSize c). by apply packet_size_range. }
  split_and!; [|lia|].
  - intros metrics. destruct (packetize_groups (Serialize (dd_serializer e) metrics) (dd_packetSize e)) as (gs & Hp & Hc & Hf & Hne & _); [lia|].
    rewrite Hp in *. rewrite Forall_fmap in Hf |- *. assert (Hlines : Forall (Forall (λ l, l ≠ [])) gs).
    { pose proof (fitting_nonempty (dd_packetSize e) (Serialize (dd_serializer e) metrics)) as Hn. rewrite <-Hc in Hn.
      by apply Forall_concat_inv in Hn. }
    apply Forall_forall. intros g Hg. rewrite Forall_forall in Hf, Hne, Hlines. unfold compose in *. split; [|by apply Hf].
    destruct (join [newline] g) eqn:Ej; [|unfold len; simpl; lia]. exfalso.
    by apply (Hne g Hg), (join_nil [newline] g (Hlines g Hg)).
  - intros ctx n ev payload. unfold datadog_SendEvent. fold payload.
    destruct (Z.ltb_spec (dd_packetSize e) (len payload)); [right; by eexists|by left].
Qed.
End backends.

(** ** A concrete client *)
Definition no_error : gostring → gostring → option error := λ _ _, None.
Definition dials : nat → gostring → option error := λ _ _, None.
Definition names_only : gostring → gostring → @Exporter.Serializer toy_attributes :=
  λ _ _, Exporter.mkSerializer (str "names") (λ ms, inl (Name <$> ms)).

Definition demo_exporter : @datadog_Exporter toy_attributes :=
  let cfg := datadog_copy demo_datadog in
  let serializer := datadog_serializer cfg in
  mkDatadogExporter
    (Exporter.mkBase (str "datadog")
       (Udp.mkPool (str "udp") (str "agent.local:8125") (100 * Millisecond) 4 [0; 1; 2; 3]%nat false false false 4 0 0 [] None)
       (Circuit.NewCircuitBreaker 5 10 (unix_epoch + 1)) (Exporter.dogstatsd_serializer serializer) 0 0)
    cfg serializer 1432.

Lemma datadog_datagrams_fit_witness :
  datadog_NewExporter no_error dials dials (λ _, None) (Some demo_datadog) (unix_epoch + 1) = inl demo_exporter
  ∧ 1432 ≤ MaxDatadogBufferSize.
Proof.
  match goal with |- ?G ∧ _ => assert (He : G) by reflexivity end.
  split; [exact He|]. apply (datadog_datagrams_fit no_error dials dials (λ _, None) demo_datadog (unix_epoch + 1) demo_exporter He).
Defined.

Definition demo_config : @Config toy_attributes :=
  mkConfig (str "svc") (str "prod") 16 1 Second false Second 1024 0 Config.DropNewest false ∅ f_zero 0
    None None (Some demo_datadog) None no_overrides None [Some (str "mine")] None.

Definition demo_exporters : list Pipeline.Exporter :=
  [Pipeline.mkExporter (str "datadog") None (λ _ _, Pipeline.Ok) None None;
   Pipeline.mkExporter (str "mine") None (λ _ _, Pipeline.Ok) None None].

(** Three failures of the second exporter and one of another source. *)
Definition demo_state : @Pipeline.state toy_attributes :=
  Pipeline.set_errors (Pipeline.new_state demo_exporters 16 None 0) [0; 3] {[ str "runtimemetrics.cpu" := 1 ]}.

Lemma exporter_errors_exact_witness :
  Pipeline.getExporterErrors demo_exporters demo_state !! str "mine" = Some 3.
Proof.
  apply (exporter_errors_exact no_error dials dials (λ _, None) names_only (λ _, None) demo_config 0 [str "datadog"; str "mine"]
    demo_exporters demo_state 1 (Pipeline.mkExporter (str "mine") None (λ _ _, Pipeline.Ok) None None) 3);
    try reflexivity.
Defined.
