(* ===== verification/PipelineInv.v ===== *)
(** * The pipeline under every interleaving

    The goroutines of a started pipeline: its workers, and any number of calls of
    Record, Flush, Shutdown and RecordExporterError.  The ghost state of a
    goroutine says which observations it holds, how much of the memory counter
    is its own, how far it is with a drain or a broadcast.  [pre], [resp] and
    [upd] give, for each atomic action, what the goroutine must have, what it may
    rely on in the answer and how its ghost state moves; [accounts] checks a
    method against them. *)

From S2P Require Import Prelude GoLib Atomic Attribute Metric Cardinality RateLimiter Pipeline.
Import Pipeline.
#[local] Open Scope prog_scope.

Section goroutines.
Context `{Attributes}.
Context (cfg : Config) (exporters : list Exporter) (growslice : Z → Z → Z).
(** The number of workers and the ring's capacity. *)
Context (W : nat) (C : Z).

#[local] Notation "'let!' x := e ; k" := (@Act act _ _ e (λ x, k)) : prog_scope.
#[local] Notation "'run!' e ; k" := (@Act act _ _ e (λ _, k)) : prog_scope.

(** What the goroutines run. *)
Inductive op :=
| ORecord (fuel : nat) (span : SpanContext) (m : Metric)
| OFlush (ctx : nat)
| OShutdown (ctx : nat)
| OExporterError (name : gostring).

Inductive result :=
| RRecord (r : option (option error))
| RFlush (ctx : nat) (e : option error)
| RShutdown (e : option error)
| RWorker (e : exit)
| RUnit.

Definition program (o : op) : prog act result :=
  match o with
  | ORecord fuel span m => let@ r := Record_ cfg fuel span m; Ret (RRecord r)
  | OFlush ctx => let@ e := Flush W ctx; Ret (RFlush ctx e)
  | OShutdown ctx => let@ e := Shutdown exporters W ctx; Ret (RShutdown e)
  | OExporterError name => let@ _ := RecordExporterError exporters name; Ret RUnit
  end.

Definition worker_program (turns : nat) (id : nat) : prog act result :=
  let@ e := worker cfg exporters growslice turns id; Ret (RWorker e).

(** ** Ghost state *)
Inductive dstat := DPop (n : Z) | DClear.

Inductive stage :=
| SIdle
| SFlush (d c : nat) (sent recvd : nat) (awaiting : bool)
| SDead.

Record ghost := mkGhost {
  held : list nat;                        (* observations it holds *)
  mem : Z;                                (* its share of memUsage *)
  wid : option nat;                       (* the worker it is *)
  drain_of : option (nat * nat * dstat);  (* the request it drains for, its context, how far *)
  at_stage : stage;                       (* how far its broadcast is *)
  quit : bool;                            (* it saw the pipeline's context done *)
  pushed : nat }.                         (* observations it put into the ring *)

Definition ids (l : list item) : list nat := omap fst l.
Definition size (x : item) : Z := EstimateSize x.2.

Definition set_held h g := mkGhost h (mem g) (wid g) (drain_of g) (at_stage g) (quit g) (pushed g).
Definition set_gmem v g := mkGhost (held g) v (wid g) (drain_of g) (at_stage g) (quit g) (pushed g).
Definition set_drain v g := mkGhost (held g) (mem g) (wid g) v (at_stage g) (quit g) (pushed g).
Definition set_stage v g := mkGhost (held g) (mem g) (wid g) (drain_of g) v (quit g) (pushed g).

Definition set_quit g := mkGhost (held g) (mem g) (wid g) (drain_of g) (at_stage g) true (pushed g).
Definition set_pushed g := mkGhost (held g) (mem g) (wid g) (drain_of g) (at_stage g) (quit g) (S (pushed g)).

Definition drained (st : dstat) : Prop := st = DClear ∨ ∃ n, st = DPop n ∧ C ≤ n.

(** What a goroutine in ghost state [g] must have to perform an action. *)
Definition pre {B} (e : act B) (g : ghost) : Prop :=
  match e with
  | CasMem old new => old ≤ new ≤ MaxMemoryBytes cfg
  | AddMem d => 0 ≤ - d ≤ mem g
  | Push m => 0 ≤ EstimateSize m ≤ mem g
  | PushDropOldest m => 0 ≤ EstimateSize m ≤ mem g ∧ held g = [] ∧ Strategy cfg = DropOldest
  | Pop => wid g ≠ None
  | GiveUp ms => held g = ids ms ∧ quit g = true
  | Processed batch => held g = ids batch
  | CtxErr c => ∀ d c' st, drain_of g = Some (d, c', st) → c' = c
  | NewDone _ => at_stage g = SIdle
  | Select i => wid g = Some i ∧ drain_of g = None ∧ mem g = 0
  | Offer i r => at_stage g = SFlush (req_done r) (req_ctx r) i 0 false ∧ (i < W)%nat
  | AwaitTaken i d c => at_stage g = SFlush d c i 0 true
  | SendAck d e => held g = [] ∧ ∃ c st, drain_of g = Some (d, c, st) ∧ drained st
  | RecvAck d c => ∃ n, at_stage g = SFlush d c W n false ∧ (n < W)%nat
  | _ => True
  end.

(** What it may rely on in the answer. *)
Definition resp {B} (e : act B) : B → Prop :=
  match e in act B return B → Prop with
  | LoadMem => λ b, 0 ≤ b ≤ MaxMemoryBytes cfg
  | PushDropOldest m => λ b, match b.1 with Some x => 0 ≤ size x | None => True end
  | Pop => λ b, match b with Some x => 0 ≤ size x | None => True end
  | Cap => λ b, b = C
  | _ => λ _, True
  end.

(** How an answer moves its ghost state. *)
Definition upd {B} (e : act B) : B → ghost → ghost :=
  match e in act B return B → ghost → ghost with
  | CasMem old new => λ b g, if b then set_gmem (mem g + (new - old)) g else g
  | AddMem d => λ _ g, set_gmem (mem g + d) g
  | Push m => λ b g, if b then set_pushed (set_gmem (mem g - EstimateSize m) g) else g
  | PushDropOldest m => λ b g,
      match b with
      | (Some x, true) =>
          set_pushed (set_gmem (mem g - EstimateSize m + size x) g)
      | (None, true) => set_pushed (set_gmem (mem g - EstimateSize m) g)
      | (_, false) => g
      end
  | Pop => λ b g,
      match b with
      | Some x =>
          let g := set_held (held g ++ ids [x]) (set_gmem (mem g + size x) g) in
          match drain_of g with
          | Some (d, c, DPop n) => set_drain (Some (d, c, DPop (n + 1))) g
          | _ => g
          end
      | None =>
          match drain_of g with
          | Some (d, c, _) => set_drain (Some (d, c, DClear)) g
          | None => g
          end
      end
  | GiveUp ms => λ _ g, set_held [] g
  | Processed batch => λ _ g, set_held [] g
  | CtxErr c => λ b g,
      match b, drain_of g with
      | Some _, Some (d, c', _) => set_drain (Some (d, c', DClear)) g
      | _, _ => g
      end
  | NewDone c => λ d g, set_stage (SFlush d c 0 0 false) g
  | Select i => λ b g,
      match b with
      | SelFlush r => set_drain (Some (req_done r, req_ctx r, DPop 0)) g
      | SelDone => set_quit g
      | _ => g
      end
  | Offer i r => λ b g,
      set_stage (match b with None => SFlush (req_done r) (req_ctx r) i 0 true | Some _ => SDead end) g
  | AwaitTaken i d c => λ b g,
      set_stage (match b, at_stage g with
                 | None, SFlush d c' i' n _ => SFlush d c' (S i') n false
                 | _, _ => SDead
                 end) g
  | SendAck d e => λ _ g, set_drain None g
  | RecvAck d c => λ b g,
      set_stage (match b, at_stage g with
                 | inl _, SFlush d c' i n a => SFlush d c' i (S n) a
                 | _, _ => SDead
                 end) g
  | _ => λ _ g, g
  end.

Definition final (r : result) (g : ghost) : Prop :=
  mem g = 0 ∧ pushed g = (match r with RRecord (Some None) => 1 | _ => 0 end)%nat ∧
  match r with
  | RWorker Running => True
  | RFlush c None => held g = [] ∧ ∃ d, at_stage g = SFlush d c W W false
  | _ => held g = []
  end.

(** [wp p Q g]: a goroutine in ghost state [g] that runs [p] has what each action
    needs, and [Q] holds of the result and the ghost state it ends in. *)
Fixpoint wp {A} (p : prog act A) (Q : A → ghost → Prop) (g : ghost) : Prop :=
  match p with
  | Ret a => Q a g
  | Act e k => pre e g ∧ ∀ b, resp e b → wp (k b) Q (upd e b g)
  end.

Lemma wp_mono {A} (p : prog act A) (Q R : A → ghost → Prop) g :
  wp p Q g → (∀ a g', Q a g' → R a g') → wp p R g.
Proof.
  intros Hp HQR. revert g Hp. induction p as [a|B e k IH]; simpl; intros g Hp; [auto|].
  destruct Hp as [H1 H2]. split; [done|]. auto.
Qed.

Lemma wp_bind {A D} (p : prog act A) (f : A → prog act D) (Q : D → ghost → Prop) g :
  wp p (λ a g', wp (f a) Q g') g → wp (bind p f) Q g.
Proof.
  revert g. induction p as [a|B e k IH]; simpl; intros g Hp; [done|].
  destruct Hp as [H1 H2]. split; [done|]. auto.
Qed.

(** All values a tree of limiter actions can return. *)
Fixpoint leaves {A} (p : prog Cardinality.act A) (φ : A → Prop) : Prop :=
  match p with
  | Ret a => φ a
  | Act e k => ∀ b, leaves (k b) φ
  end.

Lemma wp_limiter {A} (p : prog Cardinality.act A) (φ : A → Prop) (Q : A → ghost → Prop) g :
  leaves p φ → (∀ a, φ a → Q a g) → wp (limiter p) Q g.
Proof.
  intros Hl HQ. induction p as [a|B e k IH]; simpl in *; [auto|]. split; [done|]. intros b _.
  apply IH, Hl.
Qed.

Lemma leaves_true {A} (p : prog Cardinality.act A) : leaves p (λ _, True).
Proof. induction p; simpl; auto. Qed.

(** *** Recording *)
Definition size_ok (m : Metric) : Prop :=
  0 ≤ EstimateSize m ∧ MaxMemoryBytes cfg + EstimateSize m < 2 ^ 63.

(** A metric as Record hands it to enqueue. *)
Definition stamped (span : SpanContext) (now : Z) (m : Metric) : Metric :=
  attachExemplar span (if IsZero (Timestamp m) then with_timestamp m now else m).

Definition stored (span : SpanContext) (now : Z) (m : Metric) : Metric :=
  let m := stamped span now m in with_attrs (admit_attrs (Attributes_ m)).1.1 m.

Definition recordable (span : SpanContext) (m : Metric) : Prop := ∀ now, size_ok (stored span now m).

Lemma admit_leaves m limit :
  leaves (admit_ m limit) (λ r, match r.2 with
    | inl _ => r.1 = with_attrs (admit_attrs (Attributes_ m)).1.1 m | inr _ => True end).
Proof.
  unfold admit_. destruct (admitKeys (Attributes_ m)); simpl; [done|].
  destruct (admit_attrs (Attributes_ m)) as [[kept extra] key]. simpl. intros _ [|]; [done|].
  intros []; simpl; auto.
Qed.

Lemma wp_reserve_loop fuel sz g :
  0 ≤ sz → MaxMemoryBytes cfg + sz < 2 ^ 63 →
  wp (reserve_loop cfg fuel sz)
     (λ r g', g' = match r with Some None => set_gmem (mem g + sz) g | _ => g end) g.
Proof.
  intros Hs Hm. induction fuel as [|f IH]; simpl; [done|]. split; [done|]. intros cur Hcur.
  rewrite i64_small by lia. destruct (Z.ltb_spec (MaxMemoryBytes cfg) (cur + sz)); simpl; [done|].
  split; [lia|]. intros [] _; simpl; [|done]. by replace (cur + sz - cur) with sz by lia.
Qed.

Lemma set_gmem_same g v : mem g = v → set_gmem v g = g.
Proof. intros <-. by destruct g. Qed.

Lemma set_held_same g v : held g = v → set_held v g = g.
Proof. intros <-. by destruct g. Qed.

(** The ghost state after a recording that returned [r]. *)
Definition recorded (r : option (option error)) (g : ghost) : ghost :=
  match r with Some None => set_pushed g | _ => g end.

Lemma wp_enqueue fuel m g :
  size_ok m → mem g = 0 → held g = [] →
  wp (enqueue cfg fuel m) (λ r g', g' = recorded r g) g.
Proof.
  intros [H1 H2] Hm Hh. unfold enqueue. apply wp_bind.
  eapply wp_mono; [by apply wp_reserve_loop|]. intros [[err|]|] g' ->; [done| |done].
  destruct (decide (Strategy cfg = DropOldest)) as [Hd|Hd].
  - apply wp_bind. simpl. split; [split; [lia|done]|]. intros [[old|] []] Hr; unfold size in *; simpl in *.
    + split_and!; [lia|lia|]. intros _ _. destruct g as [h0 m0 w0 d0 s0 q0 n0]; simpl in *; subst. unfold set_held, set_gmem, set_pushed; simpl. f_equal. lia.
    + split; [lia|]. intros _ _. split; [done|]. intros _ _.
      destruct g as [h0 m0 w0 d0 s0 q0 n0]; simpl in *; subst. unfold set_gmem, set_pushed; simpl. f_equal. lia.
    + destruct g as [h0 m0 w0 d0 s0 q0 n0]; simpl in *; subst. unfold set_gmem, set_pushed; simpl. f_equal. lia.
    + split; [lia|]. intros _ _. split; [done|]. intros _ _.
      destruct g as [h0 m0 w0 d0 s0 q0 n0]; simpl in *; subst. unfold set_gmem, set_pushed; simpl. f_equal. lia.
  - simpl. split; [lia|]. intros [] _; simpl.
    + destruct g as [h0 m0 w0 d0 s0 q0 n0]; simpl in *; subst. unfold set_gmem, set_pushed; simpl. f_equal. lia.
    + split; [lia|]. intros _ _. split; [done|]. intros _ _.
      destruct g as [h0 m0 w0 d0 s0 q0 n0]; simpl in *; subst. unfold set_gmem, set_pushed; simpl. f_equal. lia.
Qed.

Lemma wp_Record fuel span m g :
  recordable span m → mem g = 0 → held g = [] → wp (Record_ cfg fuel span m) (λ r g', g' = recorded r g) g.
Proof.
  intros Hrec Hm Hh. unfold Record_. simpl. split; [done|]. intros _ _. split; [done|].
  intros closed _. destruct closed; simpl; [done|]. split; [done|]. intros allowed _.
  assert (Hgo : wp (let! now := Now;
      let m := if IsZero (Timestamp m) then with_timestamp m now else m in
      let m := attachExemplar span m in
      let@ r := admitAndEnqueue cfg fuel m; run! RUnlock; Ret r) (λ r g', g' = recorded r g) g).
  { split; [done|]. intros now _. change (upd Now now g) with g. cbv zeta.
    change (attachExemplar span _) with (stamped span now m). apply wp_bind. unfold admitAndEnqueue.
    apply wp_bind. eapply wp_limiter; [apply admit_leaves|]. intros [m' [a|err]] Hm'; simpl in Hm'; [|simpl; done].
    apply wp_bind. subst m'. eapply wp_mono; [apply wp_enqueue; [apply (Hrec now)|done|done]|].
    intros [[err|]|] g' ->; [| |simpl; done]; apply wp_bind;
      (eapply wp_limiter; [apply leaves_true|]); intros; simpl; done. }
  destruct allowed as [[]|]; [exact Hgo|simpl; done|exact Hgo].
Qed.

(** *** Exporting and draining *)
Lemma wp_export_all tmo i xs g : wp (export_all tmo i xs) (λ _ g', g' = g) g.
Proof.
  revert i. induction xs as [|x xs IH]; intros i; [done|]. cbn [export_all]. split; [done|]. intros n _.
  change (upd (CallExporter i) n g) with g.
  destruct (exporter_error x _); [|apply wp_bind; eapply wp_mono; [apply IH|by intros ? ? ->]].
  split; [done|]. intros [] _. split; [done|]. intros [] _. apply wp_bind.
  eapply wp_mono; [apply IH|by intros ? ? ->].
Qed.

Lemma wp_processBatchWith ctx batch tmo g :
  held g = ids batch → wp (processBatchWith exporters ctx batch tmo) (λ _ g', g' = set_held [] g) g.
Proof.
  intros Hh. unfold processBatchWith. destruct (len batch =? 0) eqn:E.
  - simpl. symmetry. apply set_held_same. destruct batch; [done|]. apply Z.eqb_eq in E. unfold len in E. simpl in E. lia.
  - apply wp_bind. eapply wp_mono; [apply wp_export_all|]. intros errs g' ->. simpl. done.
Qed.

Lemma wp_exportInBackground batch g :
  held g = ids batch → wp (exportInBackground cfg exporters batch) (λ _ g', g' = set_held [] g) g.
Proof.
  intros Hh. unfold exportInBackground. split; [done|]. intros now _. split; [done|]. intros [] _.
  by apply wp_processBatchWith.
Qed.

Lemma wp_exportIdle_all i xs g : wp (exportIdle_all i xs) (λ _ g', g' = g) g.
Proof.
  revert i. induction xs as [|x xs IH]; intros i; [done|]. cbn [exportIdle_all].
  destruct (x_idle x) as [out|]; [|apply IH]. split; [done|]. intros n _.
  change (upd (CallExporter i) n g) with g. destruct (exporter_error x (out n)); [|apply IH].
  split; [done|]. intros [] _. split; [done|]. intros [] _. apply wp_bind.
  eapply wp_mono; [apply IH|by intros ? ? ->].
Qed.

Lemma wp_record_failure f e g : wp (record_failure f e) (λ _ g', g' = g) g.
Proof. destruct e; simpl; done. Qed.

Lemma ids_app l1 l2 : ids (l1 ++ l2) = ids l1 ++ ids l2.
Proof. apply omap_app. Qed.

Lemma ids_counters (ms : list Metric) : ids ((λ m, (None, m)) <$> ms) = [].
Proof. induction ms as [|m ms IH]; [done|]. by csimpl. Qed.

Lemma wp_appendDropCounters batch g :
  wp (appendDropCounters batch) (λ b g', g' = g ∧ ids b = ids batch) g.
Proof.
  unfold appendDropCounters. split; [done|]. intros now _. change (upd Now now g) with g.
  apply wp_bind. eapply wp_limiter; [apply leaves_true|]. intros counters _. simpl. split; [done|].
  by rewrite ids_app, ids_counters, app_nil_r.
Qed.

Lemma wp_appendPopped batch items g :
  mem g = zsum size items → Forall (λ x, 0 ≤ size x) items →
  wp (appendPopped batch items) (λ b g', b = batch ++ items ∧ g' = set_gmem 0 g) g.
Proof.
  revert batch g. induction items as [|x items IH]; intros batch g Hm Hf; cbn [appendPopped].
  - simpl. split; [by rewrite app_nil_r|]. symmetry. by apply set_gmem_same.
  - inversion Hf as [|? ? Hx Hf']; subst. change (zsum size (x :: items)) with (size x + zsum size items) in Hm.
    assert (Hnn : 0 ≤ zsum size items).
    { clear -Hf'. induction Hf' as [|y l Hy _ IHl]; [done|].
      change (zsum size (y :: l)) with (size y + zsum size l). lia. }
    split; [simpl; unfold size in *; lia|]. intros [] _.
    eapply wp_mono; [apply IH; [simpl; unfold size in *; lia|done]|].
    intros b g' [-> ->]. rewrite <-app_assoc. done.
Qed.

(** How popping moves a drain: every item counts, an empty ring clears it. *)
Definition drain_rel (d0 : option (nat * nat * dstat)) (new : list item) (n : nat)
    (d1 : option (nat * nat * dstat)) : Prop :=
  match d0 with
  | None => d1 = None
  | Some (d, c, st) => ∃ st', d1 = Some (d, c, st')
      ∧ (st' = DClear ∨ ∃ k, st = DPop k ∧ st' = DPop (k + len new))
      ∧ (new = [] → n ≠ 0%nat → st' = DClear)
  end.

Lemma wp_PopBatch n items g h :
  wid g ≠ None → held g = h ++ ids items → mem g = zsum size items → Forall (λ x, 0 ≤ size x) items →
  wp (PopBatch n items) (λ items' g', ∃ new, items' = items ++ new
      ∧ Forall (λ x, 0 ≤ size x) items' ∧ held g' = h ++ ids items' ∧ mem g' = zsum size items'
      ∧ wid g' = wid g ∧ pushed g' = pushed g ∧ drain_rel (drain_of g) new n (drain_of g')) g.
Proof.
  revert items g. induction n as [|n IH]; intros items g Hwid Hh Hm Hf; cbn [PopBatch].
  - simpl. exists []. rewrite app_nil_r. split_and!; try done. unfold drain_rel.
    destruct (drain_of g) as [[[d c] [k|]]|]; [|eauto|done].
    eexists. split_and!; [done|right; exists k; split; [done|by rewrite Z.add_0_r]|done].
  - split; [done|]. intros [x|] Hx; simpl in Hx.
    + eapply wp_mono; [apply (IH (items ++ [x]))|].
      * simpl. by destruct (drain_of g) as [[[d c] [k|]]|].
      * simpl. destruct (drain_of g) as [[[d c] [k|]]|]; simpl; by rewrite Hh, ids_app, app_assoc.
      * rewrite zsum_app. simpl.
        destruct (drain_of g) as [[[d c] [k|]]|]; simpl; rewrite Hm; unfold zsum; simpl; lia.
      * apply Forall_app. split; [done|by constructor].
      * intros items' g' (new & -> & Hf' & Hh' & Hm' & Hw & Hs & Hd). exists (x :: new).
        rewrite <-app_assoc. split_and!; try done.
        -- by rewrite <-app_assoc in Hf'.
        -- by rewrite <-app_assoc in Hh'.
        -- by rewrite <-app_assoc in Hm'.
        -- rewrite Hw. simpl. by destruct (drain_of g) as [[[d c] [k|]]|].
        -- rewrite Hs. simpl. by destruct (drain_of g) as [[[d c] [k|]]|].
        -- simpl in Hd. unfold drain_rel in *.
           destruct (drain_of g) as [[[d c] [k|]]|] eqn:Ed; simpl in Hd; rewrite ?Ed in Hd.
           ++ destruct Hd as (st' & -> & Hst & _). eexists. split_and!; [done| |done].
              destruct Hst as [->|(k' & [= <-] & ->)]; [by left|]. right. exists k. split; [done|].
              f_equal. unfold len. simpl. lia.
           ++ destruct Hd as (st' & -> & Hst & _). eexists. split_and!; [done| |done].
              destruct Hst as [->|(k' & Hk & ->)]; [by left|done].
           ++ done.
    + simpl. exists []. rewrite app_nil_r. unfold drain_rel.
      destruct (drain_of g) as [[[d c] st]|] eqn:Ed; simpl; split_and!; try done.
      eexists. split_and!; [done|by left|done].
Qed.

Lemma wp_drain_loop fuel c popped batch errs g d st :
  wid g ≠ None →
  drain_of g = Some (d, c, st) → (st = DClear ∨ st = DPop popped) → held g = ids batch → mem g = 0 →
  0 ≤ popped → C ≤ popped + Z.of_nat fuel →
  wp (drain_loop exporters fuel c popped C batch errs)
     (λ r g', held g' = ids r.1 ∧ mem g' = 0 ∧ wid g' = wid g ∧ pushed g' = pushed g
              ∧ ∃ st', drain_of g' = Some (d, c, st') ∧ drained st') g.
Proof.
  revert popped batch errs g st.
  induction fuel as [|f IH]; intros popped batch errs g st Hwid Hd Hst Hh Hm Hp Hf; cbn [drain_loop].
  - simpl. split_and!; try done. exists st. split; [done|]. destruct Hst as [->| ->]; [by left|].
    right. exists popped. split; [done|lia].
  - destruct (Z.ltb_spec popped C) as [Hlt|Hge].
    2: { simpl. split_and!; try done. exists st. split; [done|]. destruct Hst as [->| ->]; [by left|].
         right. exists popped. done. }
    split; [simpl; intros ? ? ?; congruence|]. intros [e|] _.
    { simpl. rewrite Hd. simpl. split_and!; try done. exists DClear. split; [done|by left]. }
    change (upd (CtxErr c) None g) with g. apply wp_bind.
    eapply wp_mono; [apply (wp_PopBatch _ [] g (held g)); [congruence|by rewrite app_nil_r|done|done]|].
    intros items g1 (new & -> & Hf1 & Hh1 & Hm1 & Hw1 & Hs1 & Hd1). simpl in Hf1, Hh1, Hm1. simpl.
    unfold drain_rel in Hd1. rewrite Hd in Hd1. destruct Hd1 as (st1 & Hd1 & Hst1 & Hnil).
    destruct (Z.eqb_spec (len new) 0) as [E|E].
    { assert (new = []) as -> by (destruct new; [done|unfold len in E; simpl in E; lia]).
      simpl. rewrite Hh1, Hh, app_nil_r. split_and!; try done.
      exists st1. split; [done|]. left. apply Hnil; done. }
    assert (Hlen : 0 < len new) by (pose proof (len_nonneg new); lia).
    apply wp_bind. eapply wp_mono; [by apply wp_appendPopped|]. intros batch' g2 [-> ->].
    assert (Hst2 : st1 = DClear ∨ st1 = DPop (popped + len new)).
    { destruct Hst1 as [->|(k & -> & ->)]; [by left|]. destruct Hst as [|[= ->]]; [done|]. by right. }
    destruct (Z.of_nat drainChunk <=? len (batch ++ new)).
    + apply wp_bind. eapply wp_mono; [apply wp_processBatchWith; simpl; by rewrite Hh1, Hh, ids_app|].
      intros e g3 ->. eapply wp_mono; [apply (IH _ [] _ _ st1); simpl; try done; try lia; congruence|].
      simpl. intros r g' (? & ? & ? & ? & ?). rewrite Hw1, Hs1 in *. done.
    + eapply wp_mono; [apply (IH _ _ _ _ st1); simpl; try done; try lia; [congruence|by rewrite Hh1, Hh, ids_app]|].
      simpl. intros r g' (? & ? & ? & ? & ?). rewrite Hw1, Hs1 in *. done.
Qed.

Lemma wp_drain c batch g d :
  wid g ≠ None → drain_of g = Some (d, c, DPop 0) → held g = ids batch → mem g = 0 →
  wp (drain exporters c batch)
     (λ _ g', held g' = [] ∧ mem g' = 0 ∧ wid g' = wid g ∧ pushed g' = pushed g
              ∧ ∃ st, drain_of g' = Some (d, c, st) ∧ drained st) g.
Proof.
  intros Hwid Hd Hh Hm. unfold drain. split; [done|]. intros cap0 ->. change (upd Cap C g) with g.
  apply wp_bind. eapply wp_mono; [eapply wp_drain_loop; try done; [by right|lia]|].
  intros [b errs] g1 (Hh1 & Hm1 & Hw1 & Hs1 & st & Hd1 & Hst). cbn [fst snd] in *.
  apply wp_bind. eapply wp_mono; [apply wp_appendDropCounters|]. intros b' g2 [-> Hb'].
  apply wp_bind. eapply wp_mono; [apply wp_processBatchWith; by rewrite Hh1|].
  intros e g3 ->. simpl. split_and!; try done. eauto.
Qed.

(** *** The worker *)
Lemma wp_worker_loop turns id batch c f g :
  held g = ids batch → mem g = 0 → wid g = Some id → drain_of g = None → pushed g = 0%nat →
  wp (worker_loop cfg exporters growslice turns id batch c f) (λ e, final (RWorker e)) g.
Proof.
  revert batch c f g. induction turns as [|n IH]; intros batch c f g Hh Hm Hw Hd Hpu; cbn [worker_loop]; [done|].
  split; [done|]. intros sel _. destruct sel as [|r| |].
  - simpl. split; [done|]. intros [] _. split_and!; [done|done|]. intros [] _. done.
  - apply wp_bind. eapply wp_mono; [apply (wp_drain (req_ctx r) batch _ (req_done r)); try done; simpl; congruence|].
    intros e g1 (Hh1 & Hm1 & Hw1 & Hs1 & st & Hd1 & Hst). simpl in Hw1, Hs1.
    split; [split; [done|eauto]|]. intros [] _.
    destruct (req_stop r); [simpl; split; [done|]; intros [] _; split_and!; simpl; try done; congruence|].
    apply IH; simpl; try done; congruence.
  - change (upd (Select id) SelTick g) with g. apply wp_bind.
    eapply wp_mono; [apply wp_appendDropCounters|]. intros batch' g1 [-> Hb]. cbv zeta.
    assert (Hexp : wp (let@ e := exportInBackground cfg exporters batch';
        let@ f0 := record_failure f e;
        worker_loop cfg exporters growslice n id [] (appended_cap growslice c (length batch) (length batch' - length batch)) f0)
        (λ e, final (RWorker e)) g).
    { apply wp_bind. eapply wp_mono; [apply wp_exportInBackground; congruence|]. intros e g1 ->.
      apply wp_bind. eapply wp_mono; [apply wp_record_failure|]. intros f1 g2 ->. by apply IH. }
    destruct (0 <? len batch'); [exact Hexp|]. destruct (id =? 0)%nat; [|apply IH; congruence].
    apply wp_bind. split; [done|]. intros last _. split; [done|]. intros now _.
    destruct (FlushInterval cfg <=? _); [|apply IH; simpl; congruence].
    apply wp_bind. apply wp_bind. eapply wp_mono; [apply wp_exportIdle_all|]. intros errs g1 ->.
    apply wp_bind. eapply wp_mono; [apply wp_record_failure|]. intros f1 g2 ->. apply IH; simpl; congruence.
  - change (upd (Select id) SelDefault g) with g. split; [done|]. intros l _. split; [done|]. intros bc _.
    change (upd Cap bc (upd Len l g)) with g. cbv zeta. apply wp_bind.
    eapply wp_mono; [apply (wp_PopBatch _ [] g (held g)); [congruence|by rewrite app_nil_r|done|done]|].
    intros items g1 (new & -> & Hf1 & Hh1 & Hm1 & Hw1 & Hs1 & Hd1). cbn [app] in *.
    unfold drain_rel in Hd1. rewrite Hd in Hd1. destruct (Z.eqb_spec (len new) 0) as [E|E].
    { assert (new = []) as -> by (destruct new; [done|unfold len in E; simpl in E; lia]).
      apply IH; try congruence; [by rewrite Hh1, Hh, app_nil_r|done]. }
    apply wp_bind. eapply wp_mono; [by apply wp_appendPopped|]. intros batch' g2 [-> ->].
    assert (Hh2 : held (set_gmem 0 g1) = ids (batch ++ new)) by (simpl; by rewrite Hh1, Hh, ids_app).
    destruct (appended_cap growslice c (length batch) (length new) <=? len (batch ++ new));
      [|apply IH; simpl; try done; congruence].
    apply wp_bind. eapply wp_mono; [apply wp_exportInBackground; exact Hh2|]. intros e g3 ->.
    apply wp_bind. eapply wp_mono; [apply wp_record_failure|]. intros f1 g4 ->. apply IH; simpl; try done; congruence.
Qed.

(** *** Flush and Shutdown *)
Lemma wp_broadcast_send n i r g :
  (i + n)%nat = W → at_stage g = SFlush (req_done r) (req_ctx r) i 0 false →
  wp (broadcast_send n i r) (λ e g', g' = set_stage (at_stage g') g ∧
      (e = None → at_stage g' = SFlush (req_done r) (req_ctx r) W 0 false)) g.
Proof.
  revert i g. induction n as [|n IH]; intros i g Hi Hs; cbn [broadcast_send].
  - simpl. split; [by destruct g|]. intros _. rewrite Hs. f_equal. lia.
  - split; [split; [done|lia]|]. intros [e|] _; [simpl; done|].
    split; [done|]. intros [e|] _; [simpl; done|].
    eapply wp_mono; [apply IH; [lia|done]|]. simpl. intros e g' [Hg' Hst]. split; [|done].
    rewrite Hg'. by destruct g.
Qed.

Lemma wp_broadcast_wait n k r errs g :
  (k + n)%nat = W → at_stage g = SFlush (req_done r) (req_ctx r) W k false →
  wp (broadcast_wait n r errs) (λ e g', g' = set_stage (at_stage g') g ∧
      match e with inl _ => at_stage g' = SFlush (req_done r) (req_ctx r) W W false | inr _ => True end) g.
Proof.
  revert k errs g. induction n as [|n IH]; intros k errs g Hk Hs; cbn [broadcast_wait].
  - simpl. split; [by destruct g|]. rewrite Hs. f_equal. lia.
  - split; [exists k; split; [done|lia]|]. intros [e|e] _; [|simpl; done].
    eapply wp_mono; [apply (IH (S k)); [lia|simpl; by rewrite Hs]|]. simpl. intros e' g' [Hg' Hst]. split; [|done].
    rewrite Hg'. by destruct g.
Qed.

Lemma wp_broadcast ctx stop g :
  at_stage g = SIdle →
  wp (broadcast W ctx stop) (λ e g', g' = set_stage (at_stage g') g ∧
      (e = None → ∃ d, at_stage g' = SFlush d ctx W W false)) g.
Proof.
  intros Hs. unfold broadcast. split; [done|]. intros d _. split; [done|]. intros gen _. cbv zeta.
  apply wp_bind. eapply wp_mono; [by apply wp_broadcast_send|].
  intros [e|] g1 [Hg1 Hst1]; [simpl; split; [rewrite Hg1; by destruct g|done]|].
  apply wp_bind. eapply wp_mono; [apply (wp_broadcast_wait W 0); [done|by apply Hst1]|].
  intros [errs|e] g2 [Hg2 Hst2]; simpl; (split; [rewrite Hg2, Hg1; by destruct g|]); [eauto|done].
Qed.

Lemma wp_program o g :
  (∀ fuel span m, o = ORecord fuel span m → recordable span m) →
  held g = [] → mem g = 0 → drain_of g = None → at_stage g = SIdle → pushed g = 0%nat →
  wp (program o) final g.
Proof.
  intros Hrec Hh Hm Hd Hs Hpu. destruct o as [fuel span m|ctx|ctx|name]; unfold program; apply wp_bind.
  - eapply wp_mono; [apply wp_Record; eauto|]. intros r g' ->. destruct r as [[|]|]; simpl; split_and!; simpl; auto; lia.
  - unfold Flush. split; [done|]. intros [] _; [simpl; done|]. apply wp_bind.
    eapply wp_mono; [by apply wp_broadcast|]. intros e g' [Hg' Hst]. simpl. rewrite Hg'.
    split; [done|]. split; [by destruct e|]. destruct e; [done|]. simpl. split; [done|].
    destruct (Hst eq_refl) as [d Hd']. by exists d.
  - unfold Shutdown. split; [done|]. intros [] _; [|simpl; done]. apply wp_bind.
    eapply wp_mono; [by apply wp_broadcast|]. intros e g' [Hg' _]. rewrite Hg'. simpl. split; [done|]. intros [] _.
    split; [intros; simpl in *; congruence|]. intros dn _.
    destruct dn; simpl; rewrite ?Hd; simpl; [done|]. split; [done|]. intros; simpl; done.
  - unfold RecordExporterError. split; [done|]. intros [] _. destruct (exporter_index _ _ _); simpl; done.
Qed.

Lemma wp_worker turns id g :
  held g = [] → mem g = 0 → wid g = Some id → drain_of g = None → pushed g = 0%nat →
  wp (worker_program turns id) final g.
Proof.
  intros. unfold worker_program. apply wp_bind. eapply wp_mono; [by apply wp_worker_loop|]. done.
Qed.

End goroutines.
