(* ===== verification/PipelineSafe.v ===== *)
(** * Memory accounting and conservation of observations

    The shared invariant of a running pipeline: the memory counter is the size of
    what the ring holds plus what goroutines have reserved, within the limit; and
    every observation that entered the ring is in exactly one place: the ring, a
    goroutine, a batch every exporter was given, or given up. *)

From S2P Require Import Prelude GoLib Atomic Attribute Metric Cardinality RateLimiter Pipeline PipelineInv.
Import Pipeline.

Section safety.
Context `{Attributes}.
Context (cfg : Config) (exporters : list Exporter) (growslice : Z → Z → Z).
Context (W : nat) (C : Z).

Record base (s : state) (gs : list ghost) : Prop := mkBase {
  b_cap : cap s = C;
  b_len : len (ring s) ≤ C;
  b_ring : Forall (λ x : item, is_Some x.1 ∧ 0 ≤ size x) (ring s);
  b_sorted : StronglySorted lt (ids (ring s));
  b_mem : memUsage s = zsum size (ring s) + zsum mem gs;
  b_max : 0 ≤ memUsage s ≤ MaxMemoryBytes cfg;
  b_share : Forall (λ g, 0 ≤ mem g) gs;
  b_perm : Permutation (ids (ring s) ++ concat (held <$> gs) ++ ids (concat (exported s)) ++ ids (given_up s))
             (seq 0 (next s));
  b_next : next s = sum_list_with pushed gs;
  b_processed : processed s = u64 (len (concat (exported s)));
  b_quit : ∀ g, g ∈ gs → quit g = true → is_Some (done_ctx s !! pipeline_ctx);
  b_given : given_up s ≠ [] → Strategy cfg = DropOldest ∨ is_Some (done_ctx s !! pipeline_ctx) }.

Lemma concat_held_insert (gs : list ghost) i g g' :
  gs !! i = Some g →
  ∃ rest, Permutation (concat (held <$> gs)) (held g ++ rest)
        ∧ Permutation (concat (held <$> <[i := g']> gs)) (held g' ++ rest).
Proof.
  intros Hi. exists (concat (held <$> take i gs) ++ concat (held <$> drop (S i) gs)).
  rewrite insert_take_drop by (by eapply lookup_lt_Some).
  rewrite <-(take_drop_middle gs i g Hi) at 1. rewrite !fmap_app, !concat_app, !fmap_cons. simpl.
  split; by rewrite Permutation_app_swap_app.
Qed.

Lemma Forall_insert_ghost (P : ghost → Prop) gs i g : Forall P gs → P g → Forall P (<[i := g]> gs).
Proof. intros HF HP. by apply Forall_insert. Qed.

(** A goroutine's share is part of the counter. *)
Lemma share_le s gs i g : base s gs → gs !! i = Some g → 0 ≤ mem g ≤ zsum mem gs.
Proof.
  intros HB Hi. pose proof (b_share _ _ HB) as Hs. split; [by eapply Forall_lookup_1 in Hs|].
  pose proof (zsum_insert mem gs i g (set_gmem 0 g) Hi) as Hz. simpl in Hz.
  pose proof (zsum_nonneg mem (<[i := set_gmem 0 g]> gs)
    (Forall_insert_ghost (λ g, 0 ≤ mem g) _ i (set_gmem 0 g) Hs (Z.le_refl 0))). lia.
Qed.

(** Actions that touch neither the ring, the counter nor the history. *)
Lemma base_frame s s' gs i g g' :
  base s gs → gs !! i = Some g → held g' = held g → mem g' = mem g → pushed g' = pushed g →
  ring s' = ring s → cap s' = cap s → next s' = next s → memUsage s' = memUsage s →
  processed s' = processed s → exported s' = exported s → given_up s' = given_up s →
  (is_Some (done_ctx s !! pipeline_ctx) → is_Some (done_ctx s' !! pipeline_ctx)) →
  (quit g' = true → quit g = true ∨ is_Some (done_ctx s' !! pipeline_ctx)) →
  base s' (<[i := g']> gs).
Proof.
  intros [] Hi Hh Hm Hp E1 E2 E3 E4 E5 E6 E7 E8 Hq.
  pose proof (sum_list_with_insert pushed gs i g g' Hi) as Hn.
  destruct (concat_held_insert gs i g g' Hi) as (rest & Hr & Hr').
  pose proof (zsum_insert mem gs i g g' Hi) as Hz.
  split; rewrite ?E1, ?E2, ?E3, ?E4, ?E5, ?E6, ?E7; try done.
  - lia.
  - apply Forall_insert_ghost; [done|]. rewrite Hm. by eapply (Forall_lookup_1 _ _ _ _ b_share0 Hi).
  - rewrite Hr', Hh, <-Hr. done.
  - lia.
  - intros x Hx Hxq. destruct (elem_of_list_insert _ _ _ _ _ Hi Hx) as [->|Hx']; [|eauto].
    destruct (Hq Hxq) as [Hg|]; [|done]. apply E8, (b_quit0 g); [by eapply list_elem_of_lookup_2|done].
  - intros Hg. destruct (b_given0 Hg); [by left|right; auto].
Qed.

(** Actions on the memory counter alone. *)
Lemma base_mem s gs i g v :
  base s gs → gs !! i = Some g → 0 ≤ mem g + v → 0 ≤ memUsage s + v ≤ MaxMemoryBytes cfg →
  base (set_mem s (memUsage s + v)) (<[i := set_gmem (mem g + v) g]> gs).
Proof.
  intros [] Hi Hv Hmax. destruct (concat_held_insert gs i g (set_gmem (mem g + v) g) Hi) as (rest & Hr & Hr').
  pose proof (zsum_insert mem gs i g (set_gmem (mem g + v) g) Hi) as Hz. simpl in Hz, Hr'.
  pose proof (sum_list_with_insert pushed gs i g (set_gmem (mem g + v) g) Hi) as Hn. simpl in Hn.
  split; simpl; try done.
  - lia.
  - by apply Forall_insert_ghost.
  - rewrite Hr', <-Hr. done.
  - lia.
  - intros x Hx Hxq. destruct (elem_of_list_insert _ _ _ _ _ Hi Hx) as [->|Hx']; [|eauto].
    apply (b_quit0 g); [by eapply list_elem_of_lookup_2|done].
Qed.

Lemma perm_move_export {A} (a r e b g : list A) :
  Permutation (a ++ r ++ (e ++ b) ++ g) (a ++ (b ++ r) ++ e ++ g).
Proof.
  apply Permutation_app_head. rewrite <-!app_assoc.
  by rewrite (Permutation_app_swap_app e b), (Permutation_app_swap_app r b).
Qed.

(** Observations move from a goroutine into the history. *)
Lemma base_history s s' gs i g :
  base s gs → gs !! i = Some g →
  ring s' = ring s → cap s' = cap s → next s' = next s → memUsage s' = memUsage s → done_ctx s' = done_ctx s →
  (∃ batch, ids batch = held g ∧
     (exported s' = exported s ++ [batch] ∧ given_up s' = given_up s
        ∧ processed s' = u64 (processed s + len batch)
      ∨ exported s' = exported s ∧ given_up s' = given_up s ++ batch ∧ processed s' = processed s
        ∧ (Strategy cfg = DropOldest ∨ quit g = true))) →
  base s' (<[i := set_held [] g]> gs).
Proof.
  intros [] Hi E1 E2 E3 E4 E5 (batch & Hb & Hcase).
  destruct (concat_held_insert gs i g (set_held [] g) Hi) as (rest & Hr & Hr').
  pose proof (zsum_insert mem gs i g (set_held [] g) Hi) as Hz. simpl in Hz, Hr'.
  pose proof (sum_list_with_insert pushed gs i g (set_held [] g) Hi) as Hn. simpl in Hn.
  pose proof (list_elem_of_lookup_2 _ _ _ Hi) as Hg.
  split; rewrite ?E1, ?E2, ?E3, ?E4, ?E5; try done.
  - lia.
  - apply Forall_insert_ghost; [done|]. by eapply (Forall_lookup_1 _ _ _ _ b_share0 Hi).
  - rewrite <-b_perm0, Hr, Hr', <-Hb. destruct Hcase as [(-> & -> & _)|(-> & -> & _)].
    + rewrite concat_app, ids_app. simpl. rewrite app_nil_r. apply perm_move_export.
    + rewrite (ids_app (given_up s)), (Permutation_app_comm (ids (given_up s)) (ids batch)).
      rewrite (app_assoc (ids (concat (exported s)))). apply perm_move_export.
  - lia.
  - destruct Hcase as [(-> & _ & ->)|(-> & _ & -> & _)]; [|done].
    rewrite b_processed0, u64_add_l, concat_app. f_equal. unfold len. rewrite length_app. simpl.
    rewrite app_nil_r. lia.
  - intros x Hx Hxq. destruct (elem_of_list_insert _ _ _ _ _ Hi Hx) as [->|Hx']; [|eauto].
    apply (b_quit0 g); done.
  - destruct Hcase as [(_ & -> & _)|(_ & _ & _ & [Hs|Hq])]; [done|by left|]. intros _. right. by apply (b_quit0 g).
Qed.

Lemma ring_ids_lt s gs n : base s gs → n ∈ ids (ring s) → (n < next s)%nat.
Proof.
  intros HB Hn. assert (Hin : n ∈ seq 0 (next s)).
  { rewrite <-(b_perm _ _ HB). apply elem_of_app. by left. }
  apply elem_of_seq in Hin. lia.
Qed.

Lemma sorted_snoc l n : StronglySorted lt l → (∀ x, x ∈ l → x < n)%nat → StronglySorted lt (l ++ [n]).
Proof.
  intros Hs Hl. induction Hs as [|x l Hs IH Hf]; simpl; [repeat constructor|].
  constructor; [apply IH; intros; apply Hl; by apply list_elem_of_further|].
  apply Forall_app. split; [done|]. constructor; [apply Hl; constructor|constructor].
Qed.

Lemma base_push s gs i g m rd :
  base s gs → gs !! i = Some g → len (ring s) < C → 0 ≤ EstimateSize m ≤ mem g →
  base (set_ring s (ring s ++ [(Some (next s), m)]) rd (S (next s)))
       (<[i := set_pushed (set_gmem (mem g - EstimateSize m) g)]> gs).
Proof.
  intros HB Hi Hlen Hm. pose proof (λ n, ring_ids_lt s gs n HB) as Hlt. destruct HB.
  destruct (concat_held_insert gs i g (set_pushed (set_gmem (mem g - EstimateSize m) g)) Hi) as (rest & Hr & Hr').
  pose proof (zsum_insert mem gs i g (set_pushed (set_gmem (mem g - EstimateSize m) g)) Hi) as Hz. simpl in Hz, Hr'.
  pose proof (sum_list_with_insert pushed gs i g (set_pushed (set_gmem (mem g - EstimateSize m) g)) Hi) as Hn. simpl in Hn.
  assert (Hperm : Permutation (ids (ring s ++ [(Some (next s), m)])
      ++ concat (held <$> <[i:=set_pushed (set_gmem (mem g - EstimateSize m) g)]> gs)
      ++ ids (concat (exported s)) ++ ids (given_up s)) (seq 0 (S (next s)))).
  { rewrite ids_app, Hr', <-Hr, seq_S, <-b_perm0, <-app_assoc.
    change (ids [(Some (next s), m)]) with [next s].
    by rewrite Permutation_app_swap_app, (Permutation_app_comm _ [0 + next s]%nat). }
  split; simpl; try done.
  - unfold len in *. rewrite length_app. simpl. lia.
  - apply Forall_app. split; [done|]. repeat constructor; simpl; [eauto|]. unfold size. simpl. lia.
  - rewrite ids_app. apply sorted_snoc; [done|]. intros x Hx. by apply Hlt.
  - rewrite zsum_app. unfold zsum at 2. simpl. unfold size at 2. simpl. lia.
  - apply Forall_insert_ghost; [done|]. simpl. lia.
  - lia.
  - intros x Hx Hxq. destruct (elem_of_list_insert _ _ _ _ _ Hi Hx) as [->|Hx']; [|eauto].
    apply (b_quit0 g); [by eapply list_elem_of_lookup_2|done].
Qed.

Lemma base_pop s gs i g x rest rd h :
  base s gs → gs !! i = Some g → ring s = x :: rest → h = held g ++ ids [x] →
  base (set_ring s rest rd (next s)) (<[i := set_held h (set_gmem (mem g + size x) g)]> gs).
Proof.
  intros [] Hi Hring ->. rewrite Hring in *.
  set (g' := set_held _ _). destruct (concat_held_insert gs i g g' Hi) as (hrest & Hr & Hr').
  pose proof (zsum_insert mem gs i g g' Hi) as Hz. simpl in Hz, Hr'.
  pose proof (sum_list_with_insert pushed gs i g g' Hi) as Hpn. simpl in Hpn.
  inversion b_ring0 as [|? ? [[n Hn] Hx] Hf]; subst. change (ids (x :: rest)) with (ids ([x] ++ rest)) in *.
  rewrite ids_app in *. assert (Hids : ids [x] = [n]) by (unfold ids; simpl; by rewrite Hn). rewrite Hids in *.
  split; simpl; try done.
  - unfold len in *. simpl in *. lia.
  - simpl in b_sorted0. by apply StronglySorted_inv in b_sorted0 as [? _].
  - change (zsum size (x :: rest)) with (size x + zsum size rest) in b_mem0. lia.
  - apply Forall_insert_ghost; [done|]. simpl.
    pose proof (Forall_lookup_1 _ _ _ _ b_share0 Hi) as Hg. simpl in Hg. lia.
  - rewrite <-b_perm0, Hr, Hr'. rewrite <-!app_assoc, Hn.
    by rewrite (Permutation_app_swap_app (held g) [n]), (Permutation_app_swap_app (ids rest) [n]).
  - lia.
  - intros y Hy Hyq. destruct (elem_of_list_insert _ _ _ _ _ Hi Hy) as [->|Hy']; [|eauto].
    apply (b_quit0 g); [by eapply list_elem_of_lookup_2|done].
Qed.

(** The eviction of PushDropOldest: the oldest observation is given up and its
    share of the counter passes to the goroutine. *)
Lemma base_evict s gs i g x rest rd :
  base s gs → gs !! i = Some g → ring s = x :: rest → held g = [] → Strategy cfg = DropOldest →
  base (set_history (set_ring s rest rd (next s)) (exported s) (given_up s ++ [x]))
       (<[i := set_gmem (mem g + size x) g]> gs).
Proof.
  intros HB Hi Er Hh Hst. pose proof (base_pop s gs i g x rest rd _ HB Hi Er eq_refl) as HB1.
  assert (Hlt : (i < length gs)%nat) by (by eapply lookup_lt_Some).
  eapply base_history with (s' := set_history (set_ring s rest rd (next s)) (exported s) (given_up s ++ [x])) in HB1;
    [|by apply list_lookup_insert_eq|done..|].
  - rewrite list_insert_insert_eq in HB1. unfold set_held, set_gmem in *. simpl in HB1. rewrite <-Hh in HB1. exact HB1.
  - exists [x]. rewrite Hh. split; [done|]. right. auto.
Qed.

Lemma select_inv s i b s' :
  (b, s') ∈ select_outcomes s i →
  (b = SelDone ∧ s' = s ∧ is_Some (done_ctx s !! pipeline_ctx))
  ∨ (∃ r, b = SelFlush r ∧ offers s !! i = Some (Some r)
          ∧ s' = set_channels s (<[i := None]> (offers s)) (acks s) (next_done s))
  ∨ ((b = SelTick ∨ b = SelDefault) ∧ s' = s).
Proof.
  unfold select_outcomes, ctx_done.
  destruct (done_ctx s !! pipeline_ctx) eqn:Ec, (offers s !! i) as [[r|]|] eqn:Eo; simpl; intros Hin;
    repeat (apply elem_of_cons in Hin as [Hin|Hin]; [simplify_eq; eauto 10|]); inversion Hin.
Qed.

Context (HMax : MaxMemoryBytes cfg < 2 ^ 63).

(** One action of one goroutine keeps the invariant, and answers what the
    goroutine relies on. *)
Lemma base_step B (e : act B) s gs i g b s' :
  base s gs → gs !! i = Some g → pre cfg W C e g → (b, s') ∈ handle B e s →
  resp cfg C e b ∧ base s' (<[i := upd e b g]> gs).
Proof using HMax.
  intros HB Hi Hpre Hin. pose proof (b_max _ _ HB) as Hmax. pose proof (share_le _ _ _ _ HB Hi) as Hshare.
  destruct e; simpl in Hin;
    try (apply list_elem_of_singleton in Hin; simplify_eq; split; [done|];
         eapply base_frame; try done; simpl; auto; fail).
  all: try (repeat case_match; simplify_eq; simpl in Hin;
            repeat (apply elem_of_app in Hin as [Hin|Hin]); simpl in Hin;
            first [by inversion Hin|apply list_elem_of_singleton in Hin; simplify_eq];
            (split; [done|]); eapply base_frame; try done; simpl; auto; fail).
  - (* Cancel *)
    apply list_elem_of_singleton in Hin; simplify_eq. split; [done|].
    eapply base_frame; try done; simpl; auto. intros _. rewrite lookup_insert_eq. eauto.
  - (* Limiter *)
    apply list_elem_of_fmap in Hin as ([b' l'] & [= -> ->] & _). split; [done|].
    eapply base_frame; try done; simpl; auto.
  - (* CasMem *)
    simpl in Hpre. destruct (Z.eqb_spec (memUsage s) old) as [<-|]; apply list_elem_of_singleton in Hin;
      simplify_eq; (split; [done|]); [|eapply base_frame; try done; simpl; auto].
    replace new with (memUsage s + (new - memUsage s)) at 1 by lia. apply base_mem; try done; lia.
  - (* AddMem *)
    simpl in Hpre. apply list_elem_of_singleton in Hin; simplify_eq. split; [done|].
    pose proof (b_mem _ _ HB) as Hmem. pose proof (zsum_nonneg size (ring s)) as Hnn.
    assert (0 ≤ zsum size (ring s)).
    { apply Hnn. eapply Forall_impl; [apply (b_ring _ _ HB)|]. by intros x [_ ?]. }
    rewrite i64_small by lia. apply base_mem; try done; lia.
  - (* Push *)
    simpl in Hpre. pose proof (b_cap _ _ HB) as Hcap.
    assert (Hrefused : ∀ s1, s1 = set_ring s (ring s) (u64 (ring_dropped s + 1)) (next s) →
              base s1 (<[i := g]> gs)) by (intros s1 ->; eapply base_frame; try done; simpl; auto).
    split; [done|]. destruct (Z.ltb_spec (len (ring s)) (cap s));
      [apply elem_of_cons in Hin as [Hin|Hin]|]; simplify_eq;
      [|apply list_elem_of_singleton in Hin; simplify_eq; by apply Hrefused
       |apply list_elem_of_singleton in Hin; simplify_eq; by apply Hrefused].
    apply base_push; try done; lia.
  - (* PushDropOldest *)
    simpl in Hpre. destruct Hpre as (Hpre & Hh & Hst). pose proof (b_cap _ _ HB) as Hcap.
    set (s0 := set_ring s (ring s) (u64 (ring_dropped s + 1)) (next s)) in Hin.
    assert (Hrefused : base s0 (<[i := g]> gs)) by (eapply base_frame; try done; simpl; auto).
    destruct (Z.ltb_spec (len (ring s)) (cap s)).
    + apply elem_of_cons in Hin as [Hin|Hin]; [|apply list_elem_of_singleton in Hin]; simplify_eq; [|done].
      split; [done|]. apply base_push; try done; lia.
    + destruct (ring s) as [|old rest] eqn:Er; [apply list_elem_of_singleton in Hin; by simplify_eq|].
      apply elem_of_cons in Hin as [Hin|Hin]; [|apply list_elem_of_singleton in Hin]; simplify_eq; [|done].
      pose proof (b_ring _ _ HB) as Hf. rewrite Er in Hf. inversion Hf as [|? ? [_ Hold] _]; subst.
      split; [done|].
      pose proof (base_evict s gs i g old rest (u64 (ring_dropped s + 1)) HB Hi Er Hh Hst) as HB1.
      assert (Hlt : (i < length gs)%nat) by (by eapply lookup_lt_Some).
      pose proof (b_len _ _ HB) as Hlen. rewrite Er in Hlen.
      eapply (base_push _ _ i _ m (u64 (ring_dropped s + 1))) in HB1;
        [|by apply list_lookup_insert_eq|unfold len in *; simpl in *; lia|simpl; lia].
      rewrite list_insert_insert_eq in HB1. simpl in HB1 |- *. unfold set_pushed, set_gmem in *. simpl in *.
      by replace (mem g + size old - EstimateSize m) with (mem g - EstimateSize m + size old) in HB1 by lia.
  - (* Pop *)
    destruct (ring s) as [|x rest] eqn:Er; apply list_elem_of_singleton in Hin; simplify_eq.
    + split; [done|]. eapply base_frame; try done; simpl; auto; destruct (drain_of g) as [[[d c] st]|]; auto.
    + pose proof (b_ring _ _ HB) as Hf. rewrite Er in Hf. inversion Hf as [|? ? [_ Hx] _]; subst.
      split; [done|].
      pose proof (base_pop s gs i g x rest (ring_dropped s) _ HB Hi Er eq_refl) as HB1.
      simpl. destruct (drain_of g) as [[[d c] [n|]]|] eqn:Ed; try exact HB1.
      eapply base_frame in HB1; [|apply list_lookup_insert_eq; by eapply lookup_lt_Some|..];
        [rewrite list_insert_insert_eq in HB1; exact HB1|..]; simpl; auto.
  - (* Cap *)
    apply list_elem_of_singleton in Hin; simplify_eq. split; [apply (b_cap _ _ HB)|].
    by rewrite list_insert_id.
  - (* GiveUp *)
    simpl in Hpre. destruct Hpre as [Hh Hq]. apply list_elem_of_singleton in Hin; simplify_eq. split; [done|].
    eapply base_history; try done. exists ms. split; [done|]. right. auto.
  - (* CtxErr *)
    apply list_elem_of_singleton in Hin; simplify_eq. split; [done|]. simpl.
    eapply base_frame; try done; destruct (ctx_done s c), (drain_of g) as [[[d c'] st]|]; simpl; auto.
  - (* Processed *)
    simpl in Hpre. apply list_elem_of_singleton in Hin; simplify_eq. split; [done|].
    eapply base_history; try done. exists batch. split; [done|]. left. done.
  - (* Select *)
    split; [done|]. apply select_inv in Hin as [(-> & -> & Hd)|[(r & -> & _ & ->)|([-> | ->] & ->)]];
      eapply base_frame; try done; simpl; auto.
  - split; [done|]. destruct (offers s !! i0) as [[r'|]|].
    + apply list_elem_of_fmap in Hin as (e & [= -> ->] & _). eapply base_frame; try done; simpl; auto.
    + apply list_elem_of_singleton in Hin; simplify_eq. eapply base_frame; try done; simpl; auto.
    + apply list_elem_of_fmap in Hin as (e & [= -> ->] & _). eapply base_frame; try done; simpl; auto.
  - split; [done|]. destruct (offers s !! i0) as [[r'|]|]; [destruct (req_done r' =? d)%nat|..].
    + apply list_elem_of_fmap in Hin as (e & [= -> ->] & _). eapply base_frame; try done; simpl; auto.
    + apply list_elem_of_singleton in Hin; simplify_eq. eapply base_frame; try done; simpl; auto.
    + apply list_elem_of_singleton in Hin; simplify_eq. eapply base_frame; try done; simpl; auto.
    + apply list_elem_of_singleton in Hin; simplify_eq. eapply base_frame; try done; simpl; auto.
  - split; [done|]. apply elem_of_app in Hin as [Hin|Hin].
    + destruct (acks s !! d) as [[|a l]|]; try (by inversion Hin). apply list_elem_of_singleton in Hin; simplify_eq.
      eapply base_frame; try done; simpl; auto.
    + destruct (ctx_done s c); [|by inversion Hin]. apply list_elem_of_singleton in Hin; simplify_eq.
      eapply base_frame; try done; simpl; auto.
  - split; [done|]. apply elem_of_app in Hin as [Hin|Hin].
    + destruct (running s =? 0)%nat; [|by inversion Hin]. apply list_elem_of_singleton in Hin; simplify_eq.
      eapply base_frame; try done; simpl; auto.
    + destruct (ctx_done s c); [|by inversion Hin]. apply list_elem_of_singleton in Hin; simplify_eq.
      eapply base_frame; try done; simpl; auto.
Qed.

(** ** Runs of a started pipeline *)

(** The clock advances; contexts of callers end. *)
Definition env (s s' : state) : Prop :=
  (∃ d, 0 ≤ d ∧ s' = set_wall s (wall s + d))
  ∨ ∃ c e, c ≠ pipeline_ctx ∧ s' = set_close s (readers s) (shutdown s) (<[c := e]> (done_ctx s)).

(** The workers, each with the number of turns of its loop, and the callers. *)
Definition goroutines (turns : list nat) (os : list op) : list (prog act result) :=
  imap (λ id n, worker_program cfg exporters growslice n id) turns ++ (program cfg exporters W <$> os).

Definition worker_ghost (id : nat) : ghost := mkGhost [] 0 (Some id) None SIdle false 0.
Definition caller_ghost : ghost := mkGhost [] 0 None None SIdle false 0.
Definition ghosts (turns : list nat) (os : list op) : list ghost :=
  imap (λ id _, worker_ghost id) turns ++ replicate (length os) caller_ghost.

Definition all_recordable (os : list op) : Prop :=
  ∀ fuel span m, ORecord fuel span m ∈ os → recordable cfg span m.

Lemma goroutines_wp turns os :
  all_recordable os → Forall2 (λ p g, wp cfg W C p (final W) g) (goroutines turns os) (ghosts turns os).
Proof.
  intros Hrec. unfold goroutines, ghosts. apply Forall2_app.
  - apply Forall2_same_length_lookup. split; [by rewrite !length_imap|].
    intros i p g Hp Hg. rewrite list_lookup_imap in Hp. rewrite list_lookup_imap in Hg.
    destruct (turns !! i); simplify_eq/=.
    by apply wp_worker.
  - apply Forall2_fmap_l, Forall2_replicate_r; [done|]. apply Forall_forall. intros o Ho.
    apply wp_program; try done. intros fuel span m ->. by eapply Hrec.
Qed.

Lemma base_env s s' gs : base s gs → env s s' → base s' gs.
Proof.
  intros [] [(d & _ & ->)|(c & e & Hc & ->)]; [by split|]. split; try done; simpl.
  - intros g Hg Hq. rewrite lookup_insert_ne by done. eauto.
  - intros Hg. rewrite lookup_insert_ne by done. auto.
Qed.

Definition started (rl : option RateLimiter) (now : Z) : state := Start W (new_state exporters C rl now).

Lemma base_started turns os rl now :
  0 ≤ C → 0 ≤ MaxMemoryBytes cfg → base (started rl now) (ghosts turns os).
Proof.
  intros HC HM.
  assert (Hz : zsum mem (ghosts turns os) = 0 ∧ concat (held <$> ghosts turns os) = []
               ∧ sum_list_with pushed (ghosts turns os) = 0%nat
               ∧ Forall (λ g, mem g = 0 ∧ held g = [] ∧ pushed g = 0%nat ∧ quit g = false) (ghosts turns os)).
  { assert (HF : Forall (λ g, mem g = 0 ∧ held g = [] ∧ pushed g = 0%nat ∧ quit g = false) (ghosts turns os)).
    { unfold ghosts. apply Forall_app. split; [|by apply Forall_replicate]. apply Forall_lookup. intros i g Hg.
      rewrite list_lookup_imap in Hg. destruct (turns !! i); by simplify_eq/=. }
    split_and!; [| | |done]; clear -HF; induction HF as [|g l (H1 & H2 & H3 & _) _ IH]; try done.
    - change (mem g + zsum mem l = 0). lia.
    - csimpl. by rewrite H2, IH.
    - simpl. by rewrite H3, IH. }
  destruct Hz as (Hz1 & Hz2 & Hz3 & Hz4). rewrite Forall_forall in Hz4.
  split; simpl; rewrite ?Hz1, ?Hz2, ?Hz3; try done; try lia; try constructor.
  - apply Forall_forall. intros g Hg. destruct (Hz4 g Hg) as (-> & _). done.
  - intros g Hg Hq. destruct (Hz4 g Hg) as (_ & _ & _ & ?). congruence.
Qed.

Lemma pipeline_runs turns os rl now c :
  0 ≤ C → 0 ≤ MaxMemoryBytes cfg → all_recordable os →
  gsteps handle env (goroutines turns os, started rl now) c →
  ∃ gs, Forall2 (λ p g, wp cfg W C p (final W) g) c.1 gs ∧ base c.2 gs.
Proof using HMax.
  intros HC HM Hrec Hr.
  eapply (pool_invariant handle env (λ p g, wp cfg W C p (final W) g) base); [| |exact Hr|].
  - intros B e k g s gs i b s' Hi [Hpre Hk] HB Hin.
    destruct (base_step B e s gs i g b s' HB Hi Hpre Hin) as [Hresp HB']. eauto.
  - intros s s' gs HB He. by eapply base_env.
  - exists (ghosts turns os). split; [by apply goroutines_wp|by apply base_started].
Qed.

End safety.

(** The observations a result accepted. *)
Definition accepted (r : result) : nat := match r with RRecord (Some None) => 1 | _ => 0 end.

(** C2. Under every interleaving of recordings, workers, flushes and shutdowns, with
    clocks and contexts moving in between: the memory counter never leaves
    [0, MaxMemoryBytes], and it covers everything the ring holds; no observation
    is ever in two places among the ring, the exported batches and the ones given
    up.  Once every goroutine has returned, the counter is exactly the size of
    the ring, each observation whose Record returned nil is in the ring, in
    exactly one exported batch or given up (no observation is lost or exported
    twice), and processed counts the exported metrics; and observations are only
    given up by evicting the oldest or by cancelling a worker. *)
Theorem pipeline_conserves `{Attributes} cfg exporters growslice W C turns os rl now ts s :
  MaxMemoryBytes cfg < 2 ^ 63 → 0 ≤ MaxMemoryBytes cfg → 0 ≤ C → all_recordable cfg os →
  gsteps handle env (goroutines cfg exporters growslice W turns os, started exporters W C rl now) (ts, s) →
  zsum size (ring s) ≤ memUsage s ≤ MaxMemoryBytes cfg
  ∧ NoDup (ids (ring s) ++ ids (concat (exported s)) ++ ids (given_up s))
  ∧ (given_up s ≠ [] → Strategy cfg = DropOldest ∨ is_Some (done_ctx s !! pipeline_ctx))
  ∧ processed s = u64 (len (concat (exported s)))
  ∧ ∀ rs, ts = Ret <$> rs → RWorker Running ∉ rs →
      memUsage s = zsum size (ring s)
      ∧ Permutation (ids (ring s) ++ ids (concat (exported s)) ++ ids (given_up s))
          (seq 0 (sum_list_with accepted rs)).
Proof.
  intros HMax HM HC Hrec Hr.
  destruct (pipeline_runs cfg exporters growslice W C HMax turns os rl now _ HC HM Hrec Hr) as (gs & HP & HB).
  simpl in *. pose proof (zsum_nonneg mem gs (b_share _ _ _ _ HB)) as Hnn.
  pose proof (b_max _ _ _ _ HB) as Hmx. pose proof (b_mem _ _ _ _ HB) as Hmem.
  split; [lia|]. split.
  { assert (Hnd : NoDup (ids (ring s) ++ concat (held <$> gs) ++ ids (concat (exported s)) ++ ids (given_up s))).
    { rewrite (b_perm _ _ _ _ HB). apply NoDup_seq. }
    rewrite Permutation_app_swap_app in Hnd. by apply NoDup_app in Hnd as (_ & _ & Hnd). }
  split; [apply (b_given _ _ _ _ HB)|]. split; [apply (b_processed _ _ _ _ HB)|].
  intros rs -> Hrun. rewrite Forall2_fmap_l in HP.
  assert (Hz : zsum mem gs = 0 ∧ concat (held <$> gs) = [] ∧ sum_list_with pushed gs = sum_list_with accepted rs).
  { clear -HP Hrun. induction HP as [|r g rs gs Hf _ IH]; [done|].
    rewrite not_elem_of_cons in Hrun. destruct Hrun as [Hne Hrun]. destruct (IH Hrun) as (I1 & I2 & I3).
    destruct Hf as (Hm & Hp & Hfin). split_and!.
    - change (mem g + zsum mem gs = 0). lia.
    - csimpl. rewrite I2, app_nil_r. destruct r as [|c [|]| |[]|]; try done; by destruct Hfin.
    - simpl. by rewrite I3, Hp. }
  destruct Hz as (Hz1 & Hz2 & Hz3). split; [lia|].
  rewrite <-Hz3, <-(b_next _ _ _ _ HB), <-(b_perm _ _ _ _ HB), Hz2. done.
Qed.

(** ** A concrete run: one recording, then a shutdown that drains it *)
Definition demo_cfg : Config := mkConfig 10000 DropNewest 10 1000 100 false.
Definition demo_exporter : @Exporter := mkExporter (str "x") None (λ _ _, Ok) None None.
Definition demo_grow (c n : Z) : Z := Z.max (2 * c) n.
Definition demo_ops : list op := [ORecord 1 (mkSpan 0 0 false) (obs "m" [kv "a" "1"]); OShutdown 1].
Definition demo_start : list (prog act result) * state :=
  (goroutines demo_cfg [demo_exporter] demo_grow 1 [1%nat] demo_ops, started [demo_exporter] 1 4 None 7).

Definition demo_results : list result := [RWorker Stopped; RRecord (Some None); RShutdown None].

Definition demo_schedule : list nat := (replicate 12 1 ++ replicate 4 2 ++ replicate 15 0 ++ replicate 6 2)%nat.

Lemma demo_recordable : all_recordable demo_cfg demo_ops.
Proof.
  intros fuel span m Hin. apply elem_of_cons in Hin as [[= -> -> ->]|Hin].
  - intros now. split; vm_compute; [discriminate|reflexivity].
  - apply list_elem_of_singleton in Hin. discriminate.
Qed.

Lemma demo_returns : fst <$> sched handle demo_schedule demo_start = Some (Ret <$> demo_results).
Proof. vm_cast_no_check (eq_refl (Some (Ret <$> demo_results) : option (list (prog act result)))). Qed.

Lemma pipeline_conserves_witness :
  ∃ s, gsteps handle env demo_start (Ret <$> demo_results, s)
    ∧ memUsage s = zsum size (ring s)
    ∧ Permutation (ids (ring s) ++ ids (concat (exported s)) ++ ids (given_up s)) [0%nat].
Proof.
  destruct (sched_reaches handle env _ _ _ demo_returns) as [s Hr]. exists s. split; [exact Hr|].
  assert (Hrun : RWorker Running ∉ demo_results).
  { intros Hin. repeat (apply elem_of_cons in Hin as [Hin|Hin]; [discriminate|]). inversion Hin. }
  destruct (pipeline_conserves demo_cfg [demo_exporter] demo_grow 1 4 [1%nat] demo_ops None 7 _ s
    ltac:(reflexivity) ltac:(cbn; lia) ltac:(lia) demo_recordable Hr) as (_ & _ & _ & _ & Hdone).
  exact (Hdone demo_results eq_refl Hrun).
Defined.
