(* ===== verification/PipelineFlush.v ===== *)
(** * The flush barrier

    Flush exports every observation accepted before the call (drain.go).  The
    invariant follows one Flush through every interleaving: which workers have
    its request, which have acknowledged it, that a drain has emptied the ring of
    the observations older than the call when it acknowledges, and that a worker
    that has acknowledged never holds one of those again. *)

From S2P Require Import Prelude GoLib Atomic Attribute Metric Cardinality RateLimiter Pipeline PipelineInv PipelineSafe.
Import Pipeline.

Section flush.
Context `{Attributes}.
Context (cfg : Config).
Context (W : nat) (C : Z).

(** ** Channels *)

(** A goroutine's requests are among the [n] made so far; only workers hold
    observations and drain. *)
Definition local (n j : nat) (g : ghost) : Prop :=
  match wid g with
  | Some i => i = j ∧ (j < W)%nat
  | None => held g = [] ∧ drain_of g = None
  end
  ∧ (∀ d c a b f, at_stage g = SFlush d c a b f → (d < n)%nat)
  ∧ (∀ d c st, drain_of g = Some (d, c, st) → (d < n)%nat).

Record chan (s : state) (gs : list ghost) : Prop := mkChan {
  ch_local : ∀ j g, gs !! j = Some g → local (next_done s) j g;
  ch_offer : ∀ i r, offers s !! i = Some (Some r) → (req_done r < next_done s)%nat }.

Lemma local_mono n n' j g : (n ≤ n')%nat → local n j g → local n' j g.
Proof.
  intros Hn (H1 & H2 & H3). split; [done|]. split; intros; [eapply Nat.lt_le_trans; [by eapply H2|done]|].
  eapply Nat.lt_le_trans; [by eapply H3|done].
Qed.

Lemma chan_update s s' gs i g' :
  chan s gs → (next_done s ≤ next_done s')%nat → local (next_done s') i g' →
  (∀ j r, offers s' !! j = Some (Some r) → offers s !! j = Some (Some r) ∨ (req_done r < next_done s')%nat) →
  chan s' (<[i := g']> gs).
Proof.
  intros [Hl Ho] Hn Hg Hoff. split.
  - intros j g Hj. destruct (decide (j = i)) as [->|Hne].
    + apply list_lookup_insert_Some in Hj as [(_ & <- & _)|[]]; done.
    + rewrite list_lookup_insert_ne in Hj by done. eapply local_mono; [done|auto].
  - intros j r Hr. destruct (Hoff j r Hr) as [Hr'|]; [|done]. apply Ho in Hr'. lia.
Qed.

(** How an action changes the channels. *)
Definition same_channels (s s' : state) : Prop :=
  offers s' = offers s ∧ acks s' = acks s ∧ next_done s' = next_done s.

Lemma chan_same s s' gs i g g' :
  chan s gs → gs !! i = Some g → same_channels s s' →
  wid g' = wid g → at_stage g' = at_stage g → fst <$> drain_of g' = fst <$> drain_of g →
  (wid g = None → held g = [] → held g' = []) →
  chan s' (<[i := g']> gs).
Proof.
  intros HC Hi (E1 & E2 & E3) Hw Hs Hd Hh. pose proof (ch_local _ _ HC i g Hi) as (L1 & L2 & L3).
  apply (chan_update s); [done|lia| |intros; left; congruence]. rewrite E3. split; [|split].
  - rewrite Hw. destruct (wid g) eqn:Ew; [done|]. destruct L1 as [L1 L1']. rewrite L1' in Hd.
    split; [auto|]. by destruct (drain_of g').
  - rewrite Hs. done.
  - intros d c st E. rewrite E in Hd. destruct (drain_of g) as [[[d0 c0] st0]|] eqn:E0; simpl in Hd; simplify_eq.
    by eapply L3.
Qed.

(** ** Observations older than the call *)
Section call.
(** The number of observations accepted before the call. *)
Context (N : nat).

Definition low (s : state) : list nat := filter (λ n, (n < N)%nat) (ids (ring s)).
Definition clean (g : ghost) : Prop := Forall (λ n, (N ≤ n)%nat) (held g).

(** How far a drain is, with [p] old observations left in the ring. *)
Definition progress (p : nat) (st : dstat) : Prop :=
  match st with
  | DClear => p = 0%nat
  | DPop n => p = 0%nat ∨ Z.of_nat p + n ≤ C
  end.

(** What an action that is not a channel operation does. *)
Record effect (s : state) (g : ghost) (s' : state) (g' : ghost) : Prop := mkEffect {
  e_channels : same_channels s s';
  e_wid : wid g' = wid g;
  e_stage : at_stage g' = at_stage g;
  e_drain : fst <$> drain_of g' = fst <$> drain_of g;
  e_held : wid g = None → held g = [] → held g' = [];
  e_next : (next s ≤ next s')%nat;
  e_ctx : ∀ c, done_ctx s' !! c = None → done_ctx s !! c = None;
  e_low : (length (low s') ≤ length (low s))%nat;
  e_clean : low s = [] → clean g → clean g';
  e_progress : ∀ d c st st', drain_of g = Some (d, c, st) → drain_of g' = Some (d, c, st') →
    done_ctx s !! c = None → progress (length (low s)) st → progress (length (low s')) st' }.

Lemma progress_mono p p' st : (p' ≤ p)%nat → progress p st → progress p' st.
Proof. destruct st; simpl; lia. Qed.

Lemma effect_frame s s' g g' :
  same_channels s s' → wid g' = wid g → at_stage g' = at_stage g → drain_of g' = drain_of g →
  held g' = held g ∨ held g' = [] → (next s ≤ next s')%nat →
  (∀ c, done_ctx s' !! c = None → done_ctx s !! c = None) → (length (low s') ≤ length (low s))%nat →
  effect s g s' g'.
Proof.
  intros Hc Hw Hs Hd Hh Hn Hx Hl. split; try done.
  - by rewrite Hd.
  - destruct Hh as [->| ->]; done.
  - unfold clean. destruct Hh as [->| ->]; [done|]. intros. constructor.
  - intros d c st st' E E' _ Hp. rewrite Hd, E in E'. simplify_eq. by eapply progress_mono.
Qed.

Lemma low_push s (l : list item) (x : Metric) :
  (N ≤ next s)%nat → length (filter (λ n, n < N)%nat (ids (l ++ [(Some (next s), x) : item]))) = length (filter (λ n, n < N)%nat (ids l)).
Proof.
  intros HN. rewrite ids_app, filter_app. change (ids [(Some (next s), x) : item]) with [next s].
  rewrite filter_cons_False by lia. by rewrite app_nil_r.
Qed.

(** The ring is ordered: when its head is new, all of it is. *)
Lemma low_head s gs x rest n :
  base cfg C s gs → ring s = x :: rest → x.1 = Some n →
  if decide (n < N)%nat then length (low s) = S (length (filter (λ n, n < N)%nat (ids rest)))
  else low s = [] ∧ filter (λ n, n < N)%nat (ids rest) = [].
Proof.
  intros HB Er Ex. pose proof (b_sorted _ _ _ _ HB) as Hs. unfold low. rewrite Er in *.
  assert (Hids : ids (x :: rest) = n :: ids rest) by (unfold ids; simpl; by rewrite Ex).
  rewrite Hids in *. apply StronglySorted_inv in Hs as [_ Hf].
  case_decide as Hd; [by rewrite filter_cons_True|]. rewrite filter_cons_False by done.
  assert (Hnil : filter (λ n, n < N)%nat (ids rest) = []); [|done].
  clear -Hf Hd. induction Hf as [|y l Hy _ IH]; [done|]. rewrite filter_cons_False by lia. done.
Qed.

Definition channel_act {B} (e : act B) : bool :=
  match e with
  | NewDone _ | Select _ | Offer _ _ | AwaitTaken _ _ _ | SendAck _ _ | RecvAck _ _ => true
  | _ => false
  end.

Lemma pop_effect s gs g x rest :
  base cfg C s gs → ring s = x :: rest → wid g ≠ None →
  effect s g (set_ring s rest (ring_dropped s) (next s)) (upd (B:=option item) Pop (Some x) g).
Proof.
  intros HB Er Hw. pose proof (b_ring _ _ _ _ HB) as Hf. rewrite Er in Hf.
  inversion Hf as [|? ? [[n Hn] _] _]; subst.
  pose proof (low_head s gs x rest n HB Er Hn) as Hlow.
  assert (Hids : ids [x] = [n]) by (unfold ids; simpl; by rewrite Hn).
  assert (Hle : (length (filter (λ n, n < N)%nat (ids rest)) ≤ length (low s))%nat).
  { case_decide; [lia|]. destruct Hlow as [-> ->]. done. }
  assert (Hcl : low s = [] → clean g → Forall (λ n, (N ≤ n)%nat) (held g ++ [n])).
  { intros Hl Hg. apply Forall_app. split; [done|]. constructor; [|constructor].
    case_decide; [|lia]. rewrite Hl in Hlow. done. }
  simpl. destruct (drain_of g) as [[[d c] [k|]]|] eqn:Ed; split; try done; simpl; unfold clean; simpl;
    rewrite ?Ed, ?Hn; try done; try (intros; done).
  - intros d' c' st st' [= <- <- <-] [= <-] _ Hp. unfold low at 1. simpl in *. case_decide as Hd.
    + destruct Hp; lia.
    + destruct Hlow as [_ ->]. by left.
  - intros d' c' st st' [= <- <- <-] [= <-] _ Hp. unfold low at 1. simpl in *. lia.
Qed.

Lemma act_effect B (e : act B) s gs i g b s' :
  base cfg C s gs → (N ≤ next s)%nat → gs !! i = Some g → pre cfg W C e g → channel_act e = false →
  (b, s') ∈ handle B e s → effect s g s' (upd e b g).
Proof.
  intros HB HN Hi Hpre Hch Hin. destruct e; simpl in Hin; try discriminate;
    try (apply list_elem_of_singleton in Hin; simplify_eq; apply effect_frame; simpl; auto; done).
  all: try (repeat case_match; simplify_eq; simpl in Hin;
            repeat (apply elem_of_app in Hin as [Hin|Hin]); simpl in Hin;
            first [by inversion Hin|apply list_elem_of_singleton in Hin; simplify_eq];
            apply effect_frame; simpl; auto; done).
  - (* Cancel *)
    apply list_elem_of_singleton in Hin; simplify_eq. apply effect_frame; simpl; auto; try done.
    intros c. destruct (decide (c = pipeline_ctx)) as [->|]; [by rewrite lookup_insert_eq|by rewrite lookup_insert_ne].
  - (* Limiter *)
    apply list_elem_of_fmap in Hin as ([b' l'] & [= -> ->] & _). apply effect_frame; simpl; auto; done.
  - (* Push *)
    assert (Hrefused : ∀ s1, s1 = set_ring s (ring s) (u64 (ring_dropped s + 1)) (next s) → effect s g s1 g)
      by (intros s1 ->; apply effect_frame; simpl; auto; done).
    destruct (len (ring s) <? cap s); [apply elem_of_cons in Hin as [Hin|Hin]|];
      try (rewrite list_elem_of_singleton in Hin); simplify_eq; try by apply Hrefused.
    apply effect_frame; simpl; auto; try done. by apply Nat.eq_le_incl, low_push.
  - (* PushDropOldest *)
    assert (Hrefused : ∀ s1, s1 = set_ring s (ring s) (u64 (ring_dropped s + 1)) (next s) → effect s g s1 g)
      by (intros s1 ->; apply effect_frame; simpl; auto; done).
    destruct (len (ring s) <? cap s); [|destruct (ring s) as [|old rest] eqn:Er];
      try (apply elem_of_cons in Hin as [Hin|Hin]); try (rewrite list_elem_of_singleton in Hin);
      try (by inversion Hin); simplify_eq; try by apply Hrefused.
    + apply effect_frame; simpl; auto; try done. by apply Nat.eq_le_incl, low_push.
    + apply effect_frame; simpl; auto; try done. etrans; [by apply Nat.eq_le_incl, low_push|].
      unfold low. rewrite Er. change (old :: rest) with ([old] ++ rest). rewrite ids_app, filter_app, length_app. lia.
  - (* Pop *)
    destruct (ring s) as [|x rest] eqn:Er; apply list_elem_of_singleton in Hin; simplify_eq;
      [|by eapply pop_effect].
    assert (Hl : low s = []) by (unfold low; by rewrite Er). simpl.
    destruct (drain_of g) as [[[d c] st]|] eqn:Ed; [|apply effect_frame; simpl; auto; done].
    split; simpl; rewrite ?Ed, ?Hl; try done. by intros ? ? ? ? [= <- <- <-] [= <-].
  - (* CtxErr *)
    apply list_elem_of_singleton in Hin; simplify_eq. simpl in Hpre |- *. unfold ctx_done.
    destruct (done_ctx s !! c) eqn:Ec, (drain_of g) as [[[d c'] st]|] eqn:Ed;
      try (apply effect_frame; simpl; auto; done).
    pose proof (Hpre d c' st eq_refl) as ->.
    split; simpl; rewrite ?Ed; try done. intros ? ? ? ? [= <- <- <-]. congruence.
  - (* AwaitWorkers *)
    apply elem_of_app in Hin as [Hin|Hin]; [destruct (running s =? 0)%nat|destruct (ctx_done s c)];
      try (by inversion Hin); apply list_elem_of_singleton in Hin; simplify_eq; apply effect_frame; simpl; auto; done.
Qed.

(** ** The call *)

(** The goroutine of the call. *)
Context (t : nat).

(** Worker [j] has taken request [d]. *)
Definition received (d sent : nat) (aw : bool) (s : state) (j : nat) : Prop :=
  (j < sent)%nat ∨ (j = sent ∧ aw = true ∧ (∀ r, offers s !! j = Some (Some r) → req_done r ≠ d)).

(** The call with request [d] and context [c] is at worker [sent], waiting there
    when [aw], and has received [recvd] acknowledgements; the workers of [K] have
    sent theirs. *)
Record track (d c sent recvd : nat) (aw : bool) (K : gset nat) (s : state) (gs : list ghost) : Prop := mkTrack {
  t_made : (d < next_done s)%nat;
  t_own : ∀ j g d' c' a b f, gs !! j = Some g → at_stage g = SFlush d' c' a b f → j ≠ t → d' ≠ d;
  t_workers : K ⊆ set_seq 0 W;
  t_acks : base.size K = (recvd + length (default [] (acks s !! d)))%nat;
  t_offer : ∀ j r, offers s !! j = Some (Some r) → req_done r = d → j = sent ∧ aw = true ∧ req_ctx r = c;
  t_acked : ∀ j, j ∈ K → received d sent aw s j;
  t_drain : ∀ j g c' st, gs !! j = Some g → drain_of g = Some (d, c', st) →
    (j ∉ K) ∧ c' = c ∧ received d sent aw s j;
  t_clean : done_ctx s !! c = None →
    (K ≠ ∅ → low s = []) ∧ (∀ j g, gs !! j = Some g → j ∈ K → clean g)
    ∧ (∀ j g c' st, gs !! j = Some g → drain_of g = Some (d, c', st) → progress (length (low s)) st) }.

(** Actions of any goroutine that are not channel operations. *)
Lemma track_effect d c sent recvd aw K s s' gs i g g' :
  track d c sent recvd aw K s gs → gs !! i = Some g → effect s g s' g' →
  track d c sent recvd aw K s' (<[i := g']> gs).
Proof.
  intros [] Hi []. destruct e_channels0 as (E1 & E2 & E3).
  assert (Hlook : ∀ j x, <[i := g']> gs !! j = Some x → j = i ∧ x = g' ∨ j ≠ i ∧ gs !! j = Some x).
  { intros j x. rewrite list_lookup_insert_Some. naive_solver. }
  assert (Hdrain : ∀ d0 c0 st, drain_of g' = Some (d0, c0, st) → ∃ st0, drain_of g = Some (d0, c0, st0)).
  { intros d0 c0 st E. rewrite E in e_drain0. destruct (drain_of g) as [[[d1 c1] st0]|]; simpl in *; simplify_eq. eauto. }
  split; unfold received; rewrite ?E1, ?E2, ?E3; try done.
  - intros j x d' c' a b f Hx Hs. destruct (Hlook j x Hx) as [[-> ->]|[_ Hx']]; [|eauto].
    rewrite e_stage0 in Hs. eauto.
  - intros j x c' st Hx Hs. destruct (Hlook j x Hx) as [[-> ->]|[_ Hx']]; [|eauto].
    destruct (Hdrain _ _ _ Hs) as [st0 Hs0]. eauto.
  - intros Hc. destruct (t_clean0 (e_ctx0 c Hc)) as (HK & Hcl & Hpr). split; [|split].
    + intros HK'. apply nil_length_inv. rewrite (HK HK') in e_low0. simpl in e_low0. lia.
    + intros j x Hx Hj. destruct (Hlook j x Hx) as [[-> ->]|[_ Hx']]; [|eauto].
      apply e_clean0; [apply HK; set_solver|eauto].
    + intros j x c' st Hx Hs. destruct (Hlook j x Hx) as [[-> ->]|[_ Hx']].
      * destruct (Hdrain _ _ _ Hs) as [st0 Hs0]. destruct (t_drain0 i g c' st0 Hi Hs0) as (_ & -> & _).
        eapply e_progress0; eauto.
      * eapply progress_mono; [exact e_low0|eauto].
Qed.

Lemma low_le_cap s gs : base cfg C s gs → Z.of_nat (length (low s)) ≤ C.
Proof.
  intros HB. pose proof (b_len _ _ _ _ HB) as Hl. unfold low, len in *.
  pose proof (length_filter (λ n, n < N)%nat (ids (ring s))).
  assert (length (ids (ring s)) ≤ length (ring s))%nat; [|lia].
  clear. induction (ring s) as [|[[n|] m] l IH]; unfold ids in *; csimpl; lia.
Qed.

(** Channel operations that acknowledge nothing. *)
Lemma track_channel d c sent recvd aw K s gs i g s' g' sent' recvd' aw' :
  track d c sent recvd aw K s gs → base cfg C s gs → gs !! i = Some g →
  ring s' = ring s → done_ctx s' = done_ctx s → held g' = held g → (next_done s ≤ next_done s')%nat →
  base.size K = (recvd' + length (default [] (acks s' !! d)))%nat →
  (∀ d' c' a b f, at_stage g' = SFlush d' c' a b f → i ≠ t → d' ≠ d) →
  (∀ j r, offers s' !! j = Some (Some r) → req_done r = d → j = sent' ∧ aw' = true ∧ req_ctx r = c) →
  (∀ j, received d sent aw s j → received d sent' aw' s' j) →
  (∀ c' st, drain_of g' = Some (d, c', st) →
     drain_of g = Some (d, c', st) ∨ ((i ∉ K) ∧ c' = c ∧ received d sent' aw' s' i ∧ st = DPop 0)) →
  track d c sent' recvd' aw' K s' (<[i := g']> gs).
Proof.
  intros HT HB Hi Er Ec Eh En Ha Hs Ho Hr Hd. pose proof (low_le_cap s gs HB) as Hcap. destruct HT.
  assert (Hlook : ∀ j x, <[i := g']> gs !! j = Some x → j = i ∧ x = g' ∨ j ≠ i ∧ gs !! j = Some x).
  { intros j x. rewrite list_lookup_insert_Some. naive_solver. }
  assert (El : low s' = low s) by (unfold low; by rewrite Er).
  split; rewrite ?El, ?Ec; try done; try lia.
  - intros j x d' c' a b f Hx Hst Hj. destruct (Hlook j x Hx) as [[-> ->]|[_ Hx']]; eauto.
  - eauto.
  - intros j x c' st Hx Hst. destruct (Hlook j x Hx) as [[-> ->]|[_ Hx']].
    + destruct (Hd c' st Hst) as [Hd'|(? & ? & ? & _)]; [|done]. destruct (t_drain0 i g c' st Hi Hd') as (? & ? & ?). auto.
    + destruct (t_drain0 j x c' st Hx' Hst) as (? & ? & ?). auto.
  - intros Hc. destruct (t_clean0 Hc) as (HK & Hcl & Hpr). split; [done|]. split.
    + intros j x Hx Hj. destruct (Hlook j x Hx) as [[-> ->]|[_ Hx']]; [|eauto]. unfold clean. rewrite Eh. by apply (Hcl i g).
    + intros j x c' st Hx Hst. destruct (Hlook j x Hx) as [[-> ->]|[_ Hx']]; [|eauto].
      destruct (Hd c' st Hst) as [Hd'|(_ & _ & _ & ->)]; [eauto|]. right. lia.
Qed.

(** A worker acknowledges the call. *)
Lemma track_ack d c sent recvd aw K s gs i g s' c0 st :
  track d c sent recvd aw K s gs → gs !! i = Some g → (i < W)%nat →
  ring s' = ring s → done_ctx s' = done_ctx s → offers s' = offers s → next_done s' = next_done s →
  length (default [] (acks s' !! d)) = S (length (default [] (acks s !! d))) →
  held g = [] → drain_of g = Some (d, c0, st) → drained C st →
  track d c sent recvd aw ({[i]} ∪ K) s' (<[i := set_drain None g]> gs).
Proof.
  intros [] Hi HW Er Ec Eo En Ea Hh Hd Hst.
  destruct (t_drain0 i g c0 st Hi Hd) as (HiK & -> & Hrec).
  assert (Hlook : ∀ j x, <[i := set_drain None g]> gs !! j = Some x →
            j = i ∧ x = set_drain None g ∨ j ≠ i ∧ gs !! j = Some x).
  { intros j x. rewrite list_lookup_insert_Some. naive_solver. }
  assert (El : low s' = low s) by (unfold low; by rewrite Er).
  split; unfold received; rewrite ?El, ?Ec, ?Eo, ?En; try done.
  - intros j x d' c' a b f Hx Hs Hj. destruct (Hlook j x Hx) as [[-> ->]|[_ Hx']]; [|eauto].
    apply (t_own0 i g d' c' a b f); done.
  - apply union_subseteq. split; [|done]. apply singleton_subseteq_l, elem_of_set_seq. lia.
  - rewrite size_union by set_solver. rewrite size_singleton, Ea. lia.
  - intros j Hj. apply elem_of_union in Hj as [Hj|Hj]; [apply elem_of_singleton in Hj as ->; done|by apply t_acked0].
  - intros j x c' st' Hx Hs. destruct (Hlook j x Hx) as [[-> ->]|[Hj Hx']]; [done|].
    destruct (t_drain0 j x c' st' Hx' Hs) as (? & ? & ?). split; [set_solver|done].
  - intros Hc. destruct (t_clean0 Hc) as (HK & Hcl & Hpr).
    assert (Hlow : low s = []).
    { apply nil_length_inv. pose proof (Hpr i g c st Hi Hd) as Hp.
      destruct Hst as [->|(n & -> & Hn)]; simpl in Hp; lia. }
    split; [done|]. split.
    + intros j x Hx Hj. destruct (Hlook j x Hx) as [[-> ->]|[Hne Hx']].
      * unfold clean. simpl. rewrite Hh. constructor.
      * apply (Hcl j); [done|]. set_solver.
    + intros j x c' st' Hx Hs. destruct (Hlook j x Hx) as [[-> ->]|[_ Hx']]; [done|eauto].
Qed.

Lemma chan_step B (e : act B) s gs i g b s' :
  base cfg C s gs → (N ≤ next s)%nat → chan s gs → gs !! i = Some g → pre cfg W C e g →
  (b, s') ∈ handle B e s → chan s' (<[i := upd e b g]> gs).
Proof.
  intros HB HN HC Hi Hpre Hin. destruct (channel_act e) eqn:Ech.
  2: { pose proof (act_effect B e s gs i g b s' HB HN Hi Hpre Ech Hin) as []. by eapply chan_same. }
  pose proof (ch_local _ _ HC i g Hi) as (L1 & L2 & L3).
  destruct e; simpl in Hin, Hpre; try discriminate.
  - apply list_elem_of_singleton in Hin; simplify_eq. apply (chan_update s); simpl; [done|lia| |auto].
    split; [done|]. split; simpl; [intros; simplify_eq; lia|]. intros d c' st Hd. apply L3 in Hd. lia.
  - destruct Hpre as (Hw & Hd & Hm). rewrite Hw in L1.
    apply select_inv in Hin as [(-> & -> & _)|[(r & -> & Ho & ->)|([-> | ->] & ->)]];
      try (eapply chan_same; try done; simpl; auto; done).
    apply (chan_update s); simpl; [done|lia| |].
    + split; [simpl; by rewrite Hw|]. split; [done|]. simpl. intros d c st [= <- <- _]. by eapply ch_offer.
    + intros j r'. rewrite list_lookup_insert_Some. naive_solver.
  - destruct Hpre as [Hs _].
    assert (Hl : ∀ v, (∀ d c a b f, v = SFlush d c a b f → (d < next_done s)%nat) → local (next_done s) i (set_stage v g))
      by (intros v Hv; done).
    assert (Hr : (req_done r < next_done s)%nat) by (by eapply L2).
    destruct (offers s !! i0) as [[r'|]|]; [apply list_elem_of_fmap in Hin as (e & [= -> ->] & _)
      |apply list_elem_of_singleton in Hin; simplify_eq|apply list_elem_of_fmap in Hin as (e & [= -> ->] & _)];
      apply (chan_update s); simpl; auto; try (apply Hl; intros; simplify_eq; done).
    intros j r'. rewrite list_lookup_insert_Some. naive_solver.
  - assert (Hl : ∀ v, (∀ d c a b f, v = SFlush d c a b f → (d < next_done s)%nat) → local (next_done s) i (set_stage v g))
      by (intros v Hv; done).
    assert (Hr : (d < next_done s)%nat) by (by eapply L2).
    destruct (offers s !! i0) as [[r'|]|]; [destruct (req_done r' =? d)%nat;
      [apply list_elem_of_fmap in Hin as (e & [= -> ->] & _)|apply list_elem_of_singleton in Hin; simplify_eq]
      |apply list_elem_of_singleton in Hin; simplify_eq|apply list_elem_of_singleton in Hin; simplify_eq];
      apply (chan_update s); simpl; auto; rewrite ?Hpre; try (apply Hl; intros; simplify_eq; done).
    intros j r''. rewrite list_lookup_insert_Some. naive_solver.
  - apply list_elem_of_singleton in Hin; simplify_eq. apply (chan_update s); simpl; [done|lia| |auto].
    split; [|done]. simpl. destruct (wid g); [done|]. by destruct L1.
  - destruct Hpre as (n & Hs & _).
    assert (Hr : (d < next_done s)%nat) by (by eapply L2).
    assert (Hl : ∀ v, (∀ d c a b f, v = SFlush d c a b f → (d < next_done s)%nat) → local (next_done s) i (set_stage v g))
      by (intros v Hv; done).
    apply elem_of_app in Hin as [Hin|Hin]; [destruct (acks s !! d) as [[|a l]|]|destruct (ctx_done s c)];
      try (by inversion Hin); apply list_elem_of_singleton in Hin; simplify_eq;
      apply (chan_update s); simpl; rewrite ?Hs; auto; apply Hl; intros; simplify_eq; done.
Qed.

Lemma received_frame d sent aw s s' j :
  (∀ r, offers s' !! j = Some (Some r) → req_done r = d → offers s !! j = Some (Some r)) →
  received d sent aw s j → received d sent aw s' j.
Proof. intros Ho [?|(? & ? & Hr)]; [by left|right]. split_and!; [done..|]. intros r Hj Hd. eapply Hr; [by apply Ho|done]. Qed.

(** A channel operation of another goroutine. *)
Lemma track_other d c sent recvd aw K B (e : act B) s gs i g b s' :
  track d c sent recvd aw K s gs → base cfg C s gs → chan s gs → gs !! i = Some g → pre cfg W C e g →
  channel_act e = true → (b, s') ∈ handle B e s → i ≠ t →
  ∃ K', track d c sent recvd aw K' s' (<[i := upd e b g]> gs).
Proof.
  intros HT HB HC Hi Hpre Hch Hin Hit.
  pose proof (t_made _ _ _ _ _ _ _ _ HT) as Hmade. pose proof (t_acks _ _ _ _ _ _ _ _ HT) as Hacks.
  pose proof (t_offer _ _ _ _ _ _ _ _ HT) as Hoffer.
  assert (Hown : ∀ d' c' a b f, at_stage g = SFlush d' c' a b f → i ≠ t → d' ≠ d) by (intros; by eapply t_own).
  destruct e; simpl in Hin, Hpre; try discriminate.
  - apply list_elem_of_singleton in Hin; simplify_eq. exists K. eapply track_channel; try done; simpl; auto.
    + by rewrite lookup_insert_ne by lia.
    + intros; simplify_eq; lia.
  - destruct Hpre as (Hw & Hd & Hm). pose proof (ch_local _ _ HC i g Hi) as (L1 & _). rewrite Hw in L1. destruct L1 as [-> HW].
    apply select_inv in Hin as [(-> & -> & _)|[(r & -> & Ho & ->)|([-> | ->] & ->)]];
      try (exists K; eapply track_channel; try done; simpl; eauto; done).
    assert (Hclear : ∀ j r', <[i := None]> (offers s) !! j = Some (Some r') → j ≠ i ∧ offers s !! j = Some (Some r')).
    { intros j r'. rewrite list_lookup_insert_Some. naive_solver. }
    exists K. eapply track_channel; try done; simpl; auto.
    + intros j r' Hj. apply Hoffer. by apply Hclear.
    + intros j. apply received_frame. simpl. intros r' Hj _. by apply Hclear.
    + intros c' st [= <- <- <-]. right. destruct (Hoffer i r Ho eq_refl) as (-> & -> & ->). split_and!; [|done| |done].
      * intros HK. destruct (t_acked _ _ _ _ _ _ _ _ HT _ HK) as [?|(_ & _ & Hr)]; [lia|by apply (Hr r)].
      * right. split_and!; [done..|]. simpl. intros r' Hj. by apply Hclear in Hj as [].
  - destruct Hpre as [Hs HW]. pose proof (Hown _ _ _ _ _ Hs Hit) as Hne. exists K.
    destruct (offers s !! i0) as [[r'|]|] eqn:Ho; [apply list_elem_of_fmap in Hin as (e & [= -> ->] & _)
      |apply list_elem_of_singleton in Hin; simplify_eq|apply list_elem_of_fmap in Hin as (e & [= -> ->] & _)];
      eapply track_channel; try done; simpl; eauto; try (intros; simplify_eq; done).
    + intros j r'. rewrite list_lookup_insert_Some. intros [(-> & [= <-] & _)|[_ Hj]]; [done|by apply Hoffer].
    + intros j. apply received_frame. simpl. intros r'. rewrite list_lookup_insert_Some. naive_solver.
  - pose proof (Hown _ _ _ _ _ Hpre Hit) as Hne. exists K.
    assert (Hst : ∀ v, (∀ d' c' a b f, v = SFlush d' c' a b f → d' = d0) →
              ∀ d' c' a b f, at_stage (set_stage v g) = SFlush d' c' a b f → i ≠ t → d' ≠ d).
    { intros v Hv d' c' a bb f Hv' _. simpl in Hv'. by rewrite (Hv _ _ _ _ _ Hv'). }
    destruct (offers s !! i0) as [[r'|]|] eqn:Ho; [destruct (req_done r' =? d0)%nat eqn:Er;
      [apply list_elem_of_fmap in Hin as (e & [= -> ->] & _)|apply list_elem_of_singleton in Hin; simplify_eq]
      |apply list_elem_of_singleton in Hin; simplify_eq|apply list_elem_of_singleton in Hin; simplify_eq];
      eapply track_channel; try done; simpl; eauto; rewrite ?Hpre; try (intros; simplify_eq; done).
    + intros j r''. rewrite list_lookup_insert_Some. naive_solver.
    + intros j. apply received_frame. simpl. intros r''. rewrite list_lookup_insert_Some. naive_solver.
  - destruct Hpre as (Hh & c' & st & Hd & Hst). apply list_elem_of_singleton in Hin; simplify_eq.
    pose proof (ch_local _ _ HC i g Hi) as (L1 & _).
    destruct (decide (d0 = d)) as [->|Hne].
    + exists ({[i]} ∪ K). eapply track_ack; try done; simpl.
      * destruct (wid g); [by destruct L1 as [-> ?]|]. destruct L1. congruence.
      * rewrite lookup_insert_eq. simpl. rewrite length_app. simpl. lia.
    + exists K. eapply track_channel; try done; simpl; eauto. by rewrite lookup_insert_ne.
  - destruct Hpre as (n & Hs & HW). pose proof (Hown _ _ _ _ _ Hs Hit) as Hne. exists K.
    apply elem_of_app in Hin as [Hin|Hin]; [destruct (acks s !! d0) as [[|a l]|]|destruct (ctx_done s c0)];
      try (by inversion Hin); apply list_elem_of_singleton in Hin; simplify_eq;
      eapply track_channel; try done; simpl; eauto; rewrite ?Hs; try (intros; simplify_eq; done).
    by rewrite lookup_insert_ne.
Qed.

Definition tracked (st : stage) (s : state) (gs : list ghost) : Prop :=
  match st with
  | SFlush d c sent recvd aw => ∃ K, track d c sent recvd aw K s gs
  | _ => True
  end.

(** The call makes its request: nobody has heard of it yet. *)
Lemma track_made s gs g c :
  chan s gs → gs !! t = Some g →
  track (next_done s) c 0 0 false ∅
    (set_channels s (offers s) (<[next_done s := []]> (acks s)) (S (next_done s)))
    (<[t := set_stage (SFlush (next_done s) c 0 0 false) g]> gs).
Proof.
  intros [Hl Ho] Ht.
  assert (Hlook : ∀ j x, <[t := set_stage (SFlush (next_done s) c 0 0 false) g]> gs !! j = Some x →
    ∃ x0, local (next_done s) j x0 ∧ drain_of x = drain_of x0 ∧ (j ≠ t → x = x0)).
  { intros j x. rewrite list_lookup_insert_Some. intros [(-> & <- & _)|[Hne Hx]]; [|eauto 10].
    exists g. split; [auto|]. done. }
  split; simpl; try done; try lia.
  - intros j x d' c' a b f Hx Hs Hne. destruct (Hlook j x Hx) as (x0 & (_ & L & _) & _ & Heq).
    rewrite (Heq Hne) in Hs. apply L in Hs. lia.
  - by rewrite lookup_insert_eq.
  - intros j r Hj Hd. apply Ho in Hj. lia.
  - intros j x c' st Hx Hd. destruct (Hlook j x Hx) as (x0 & (_ & _ & L) & Heq & _). rewrite Heq in Hd.
    apply L in Hd. lia.
  - intros _. split; [done|]. split; [set_solver|]. intros j x c' st Hx Hd.
    destruct (Hlook j x Hx) as (x0 & (_ & _ & L) & Heq & _). rewrite Heq in Hd. apply L in Hd. lia.
Qed.

(** A channel operation of the call. *)
Lemma track_call B (e : act B) s gs g b s' :
  tracked (at_stage g) s gs → base cfg C s gs → chan s gs → gs !! t = Some g → wid g = None → pre cfg W C e g →
  channel_act e = true → (b, s') ∈ handle B e s →
  tracked (at_stage (upd e b g)) s' (<[t := upd e b g]> gs).
Proof.
  intros HT HB HC Hi Hw Hpre Hch Hin. pose proof (ch_local _ _ HC t g Hi) as (L1 & _). rewrite Hw in L1.
  destruct L1 as [Lh Ld].
  destruct e; simpl in Hin, Hpre; try discriminate.
  - apply list_elem_of_singleton in Hin; simplify_eq. exists ∅. by apply track_made.
  - destruct Hpre as (Hw' & _). congruence.
  - destruct Hpre as [Hs HW]. rewrite Hs in HT. destruct HT as [K HT].
    pose proof (t_acks _ _ _ _ _ _ _ _ HT) as Hacks. pose proof (t_offer _ _ _ _ _ _ _ _ HT) as Hoffer.
    destruct (offers s !! i) as [[r'|]|] eqn:Ho; [by apply list_elem_of_fmap in Hin as (e & [= -> ->] & _)
      | |by apply list_elem_of_fmap in Hin as (e & [= -> ->] & _)].
    apply list_elem_of_singleton in Hin; simplify_eq. simpl. exists K.
    eapply track_channel; try done; simpl; rewrite ?Ld; try done.
    + intros j r'. rewrite list_lookup_insert_Some. intros [(-> & [= <-] & _)|[_ Hj]] Hd; [done|].
      destruct (Hoffer j r' Hj Hd) as (_ & ? & _). done.
    + intros j [?|(_ & ? & _)]; [by left|done].
  - rewrite Hpre in HT. destruct HT as [K HT].
    pose proof (t_acks _ _ _ _ _ _ _ _ HT) as Hacks. pose proof (t_offer _ _ _ _ _ _ _ _ HT) as Hoffer.
    assert (Htaken : (∀ r, offers s !! i = Some (Some r) → req_done r ≠ d) →
      ∃ K, track d c (S i) 0 false K s (<[t := set_stage (SFlush d c (S i) 0 false) g]> gs)).
    { intros Hne. exists K. eapply track_channel; try done; simpl; rewrite ?Ld; try done.
      - intros j r' Hj Hd. destruct (Hoffer j r' Hj Hd) as (-> & _). by destruct (Hne r').
      - intros j [?|(-> & _)]; left; lia. }
    destruct (offers s !! i) as [[r'|]|] eqn:Ho; [destruct (Nat.eqb_spec (req_done r') d)|..].
    + by apply list_elem_of_fmap in Hin as (e' & [= -> ->] & _).
    + apply list_elem_of_singleton in Hin; simplify_eq. simpl. rewrite Hpre. simpl. apply Htaken. naive_solver.
    + apply list_elem_of_singleton in Hin; simplify_eq. simpl. rewrite Hpre. simpl. by apply Htaken.
    + apply list_elem_of_singleton in Hin; simplify_eq. simpl. rewrite Hpre. simpl. by apply Htaken.
  - destruct Hpre as (_ & c & st & Hd & _). congruence.
  - destruct Hpre as (n & Hs & HW). rewrite Hs in HT. destruct HT as [K HT].
    pose proof (t_acks _ _ _ _ _ _ _ _ HT) as Hacks. pose proof (t_offer _ _ _ _ _ _ _ _ HT) as Hoffer.
    apply elem_of_app in Hin as [Hin|Hin]; [destruct (acks s !! d) as [[|a l]|] eqn:Ea|destruct (ctx_done s c)];
      try (by inversion Hin); apply list_elem_of_singleton in Hin; simplify_eq; simpl; rewrite ?Hs; simpl; [|done].
    exists K. eapply track_channel; try done; simpl; rewrite ?Ld; try done.
    rewrite lookup_insert_eq. simpl in *. lia.
Qed.

Lemma next_channel B (e : act B) s b s' : channel_act e = true → (b, s') ∈ handle B e s → next s' = next s.
Proof.
  intros Hch Hin. destruct e; simpl in Hin; try discriminate.
  - by apply list_elem_of_singleton in Hin; simplify_eq.
  - by apply select_inv in Hin as [(-> & -> & _)|[(r & -> & Ho & ->)|([-> | ->] & ->)]].
  - destruct (offers s !! i) as [[r'|]|]; [by apply list_elem_of_fmap in Hin as (e & [= -> ->] & _)
      |by apply list_elem_of_singleton in Hin; simplify_eq|by apply list_elem_of_fmap in Hin as (e & [= -> ->] & _)].
  - destruct (offers s !! i) as [[r'|]|]; [destruct (req_done r' =? d)%nat;
      [by apply list_elem_of_fmap in Hin as (e & [= -> ->] & _)|]|..];
      by apply list_elem_of_singleton in Hin; simplify_eq.
  - by apply list_elem_of_singleton in Hin; simplify_eq.
  - apply elem_of_app in Hin as [Hin|Hin]; [destruct (acks s !! d) as [[|a l]|]|destruct (ctx_done s c)];
      try (by inversion Hin); by apply list_elem_of_singleton in Hin; simplify_eq.
Qed.

(** ** The invariant after the call began *)
Definition flushing (s : state) (gs : list ghost) : Prop :=
  base cfg C s gs ∧ chan s gs ∧ (N ≤ next s)%nat ∧
  ∃ g, gs !! t = Some g ∧ wid g = None ∧ tracked (at_stage g) s gs.

Lemma flushing_act B (e : act B) s gs i g b s' :
  MaxMemoryBytes cfg < 2 ^ 63 →
  flushing s gs → gs !! i = Some g → pre cfg W C e g → (b, s') ∈ handle B e s →
  flushing s' (<[i := upd e b g]> gs).
Proof.
  intros HMax (HB & HC & HN & gt & Ht & Hw & HT) Hi Hpre Hin.
  pose proof (proj2 (base_step cfg W C HMax B e s gs i g b s' HB Hi Hpre Hin)) as HB'.
  pose proof (chan_step B e s gs i g b s' HB HN HC Hi Hpre Hin) as HC'.
  assert (HN' : (N ≤ next s')%nat).
  { destruct (channel_act e) eqn:Ech; [|pose proof (e_next _ _ _ _ (act_effect B e s gs i g b s' HB HN Hi Hpre Ech Hin)); lia].
    rewrite (next_channel B e s b s' Ech Hin). lia. }
  split; [done|]. split; [done|]. split; [done|].
  destruct (decide (i = t)) as [->|Hne].
  - rewrite Ht in Hi. injection Hi as <-. exists (upd e b gt).
    rewrite list_lookup_insert_eq by (by eapply lookup_lt_Some). split; [done|].
    destruct (channel_act e) eqn:Ech.
    + split; [|by eapply track_call].
      pose proof (ch_local _ _ HC t gt Ht) as (L1 & _). rewrite Hw in L1. destruct L1 as [_ Ld].
      destruct e; try discriminate; simpl; try done. by destruct b.
    + pose proof (act_effect B e s gs t gt b s' HB HN Ht Hpre Ech Hin) as He.
      rewrite (e_wid _ _ _ _ He), (e_stage _ _ _ _ He). split; [done|].
      destruct (at_stage gt); simpl in *; try done. destruct HT as [K HT]. exists K. by eapply track_effect.
  - exists gt. rewrite list_lookup_insert_ne by done. split; [done|]. split; [done|].
    destruct (at_stage gt) as [|d c sent recvd aw|]; simpl in *; try done. destruct HT as [K HT].
    destruct (channel_act e) eqn:Ech; [by eapply track_other|]. exists K. eapply track_effect; try done.
    by eapply act_effect.
Qed.

Lemma env_effect s s' g : env s s' → effect s g s' g.
Proof.
  intros [(d & _ & ->)|(c & e & _ & ->)]; apply effect_frame; simpl; auto; try done.
  intros c'. destruct (decide (c' = c)) as [->|]; [by rewrite lookup_insert_eq|by rewrite lookup_insert_ne].
Qed.

Lemma chan_env s s' gs : chan s gs → env s s' → chan s' gs.
Proof. intros [Hl Ho] [(d & _ & ->)|(c & e & _ & ->)]; by split. Qed.

Lemma flushing_env s s' gs : flushing s gs → env s s' → flushing s' gs.
Proof.
  intros (HB & HC & HN & gt & Ht & Hw & HT) He.
  split; [by eapply base_env|]. split; [by eapply chan_env|]. pose proof (env_effect s s' gt He) as Heff.
  split; [pose proof (e_next _ _ _ _ Heff); lia|]. exists gt. split; [done|]. split; [done|].
  destruct (at_stage gt); simpl in *; try done. destruct HT as [K HT]. exists K.
  rewrite <-(list_insert_id gs t gt Ht). by eapply track_effect.
Qed.

(** When the call has every acknowledgement, nothing old is left. *)
Lemma all_acked d c s gs K :
  base cfg C s gs → chan s gs → (N ≤ next s)%nat → (0 < W)%nat → done_ctx s !! c = None →
  track d c W W false K s gs →
  ∀ x, (x < N)%nat → x ∈ ids (concat (exported s)) ∨ x ∈ ids (given_up s).
Proof.
  intros HB HC HN HW Hc [] x Hx. destruct (t_clean0 Hc) as (HK & Hcl & _).
  assert (Hall : K = set_seq 0 W).
  { apply set_subseteq_size_eq; [done|]. rewrite size_set_seq. lia. }
  assert (Hlow : low s = []).
  { apply HK. intros ->. rewrite size_empty in t_acks0. lia. }
  assert (Hin : x ∈ seq 0 (next s)) by (apply elem_of_seq; lia). rewrite <-(b_perm _ _ _ _ HB) in Hin.
  rewrite !elem_of_app in Hin. destruct Hin as [Hin|[Hin|[Hin|Hin]]]; auto; exfalso.
  - assert (Hl : x ∈ low s) by (apply list_elem_of_filter; auto). rewrite Hlow in Hl. by apply not_elem_of_nil in Hl.
  - apply list_elem_of_In, in_concat in Hin as (h & Hh & Hxh). rewrite <-list_elem_of_In in Hh. rewrite <-list_elem_of_In in Hxh. apply list_elem_of_fmap in Hh as (g & -> & Hg).
    apply list_elem_of_lookup in Hg as [j Hj]. pose proof (ch_local _ _ HC j g Hj) as (L1 & _).
    destruct (wid g); [|destruct L1 as [L1 _]; rewrite L1 in Hxh; by apply not_elem_of_nil in Hxh].
    destruct L1 as [-> Hjw]. assert (Hjc : clean g) by (eapply Hcl; [done|]; rewrite Hall; apply elem_of_set_seq; lia).
    unfold clean in Hjc. rewrite Forall_forall in Hjc. apply Hjc in Hxh. lia.
Qed.

End call.
End flush.

(** ** The theorem *)
Lemma chan_started `{Attributes} exporters C turns os rl now :
  chan (length turns) (started exporters (length turns) C rl now) (ghosts turns os).
Proof.
  split.
  - intros j g Hj. unfold ghosts in Hj. apply lookup_app_Some in Hj as [Hj|[_ Hj]].
    + rewrite list_lookup_imap in Hj. destruct (turns !! j) eqn:Ej; simplify_eq/=.
      split; [|done]. split; [done|]. by eapply lookup_lt_Some.
    + apply lookup_replicate in Hj as [-> _]. done.
  - intros i r Hi. simpl in Hi. apply lookup_replicate in Hi as [? _]. done.
Qed.

(** C1. Flush is a barrier: when Flush returns nil and its context has not ended,
    every observation accepted before the call has been handed to every exporter,
    or was given up by an eviction of DropOldest or a cancelled worker.  This
    holds under every interleaving with recordings, other flushes, shutdowns and
    any number of workers; under DropNewest, while the pipeline is not cancelled,
    every one of them has been exported. *)
Theorem flush_barrier `{Attributes} cfg exporters growslice C turns os rl now t c ts1 s1 ts2 s2 :
  MaxMemoryBytes cfg < 2 ^ 63 → 0 ≤ MaxMemoryBytes cfg → 0 ≤ C → all_recordable cfg os →
  (0 < length turns)%nat → (length turns ≤ t)%nat →
  gsteps handle env (goroutines cfg exporters growslice (length turns) turns os,
                     started exporters (length turns) C rl now) (ts1, s1) →
  ts1 !! t = Some (program cfg exporters (length turns) (OFlush c)) →
  gsteps handle env (ts1, s1) (ts2, s2) →
  ts2 !! t = Some (Ret (RFlush c None)) → done_ctx s2 !! c = None →
  ∀ x, (x < next s1)%nat →
    (x ∈ ids (concat (exported s2)) ∨ x ∈ ids (given_up s2))
    ∧ (Strategy cfg = DropNewest → done_ctx s2 !! pipeline_ctx = None → x ∈ ids (concat (exported s2))).
Proof.
  intros HMax HM HC Hrec HW Ht Hr1 Hts1 Hr2 Hts2 Hc.
  set (P := λ p g, wp cfg (length turns) C p (final (length turns)) g).
  assert (Hbefore : ∃ gs, Forall2 P ts1 gs ∧ base cfg C s1 gs ∧ chan (length turns) s1 gs).
  { apply (pool_invariant handle env P (λ s gs, base cfg C s gs ∧ chan (length turns) s gs)) in Hr1; [done|..].
    - intros B e k g s gs i b s' Hi [Hpre Hk] [HB HCh] Hin.
      destruct (base_step cfg _ C HMax B e s gs i g b s' HB Hi Hpre Hin) as [Hresp HB'].
      exists (upd e b g). split; [by apply Hk|]. split; [done|]. eapply (chan_step _ _ _ 0); eauto; lia.
    - intros s s' gs [HB HCh] He. split; [by eapply base_env|by eapply chan_env].
    - exists (ghosts turns os). split; [by apply goroutines_wp|]. split; [by apply base_started|apply chan_started]. }
  destruct Hbefore as (gs1 & HP1 & HB1 & HCh1).
  destruct (Forall2_lookup_l _ _ _ _ _ HP1 Hts1) as (g1 & Hg1 & Hp1).
  assert (Hw1 : wid g1 = None).
  { pose proof (ch_local _ _ _ HCh1 t g1 Hg1) as (L & _). destruct (wid g1); [lia|done]. }
  assert (Hs1 : at_stage g1 = SIdle).
  { destruct Hp1 as [_ Hk]. destruct (Hk false I) as [Hpre _]. exact Hpre. }
  apply (pool_invariant handle env P (flushing cfg (length turns) C (next s1) t)) in Hr2.
  - destruct Hr2 as (gs2 & HP2 & HB2 & HCh2 & HN2 & g2 & Hg2 & _ & HT). simpl in *.
    destruct (Forall2_lookup_l _ _ _ _ _ HP2 Hts2) as (g2' & Hg2' & Hp2). simplify_eq.
    destruct Hp2 as (_ & _ & _ & d & Hst). rewrite Hst in HT. destruct HT as [K HT].
    intros x Hx. pose proof (all_acked _ _ _ _ _ _ _ _ _ _ HB2 HCh2 HN2 HW Hc HT x Hx) as Hor.
    split; [done|]. intros Hnew Halive. destruct Hor as [|Hg]; [done|].
    destruct (b_given _ _ _ _ HB2) as [|[e He]]; [|congruence|congruence].
    intros E. rewrite E in Hg. by apply not_elem_of_nil in Hg.
  - intros B e k g s gs i b s' Hi [Hpre Hk] HF Hin. exists (upd e b g).
    split; [|by eapply flushing_act]. apply Hk.
    by destruct (base_step cfg _ C HMax B e s gs i g b s' (proj1 HF) Hi Hpre Hin).
  - intros s s' gs. apply flushing_env.
  - exists gs1. split; [done|]. split; [done|]. split; [done|]. split; [simpl; lia|].
    exists g1. rewrite Hs1. done.
Qed.

(** A recording, then a Flush that drains it. *)
Definition flush_ops : list op := [ORecord 1 (mkSpan 0 0 false) (obs "m" [kv "a" "1"]); OFlush 1].

Definition flush_start : list (prog act result) * state :=
  (goroutines demo_cfg [demo_exporter] demo_grow 1 [1%nat] flush_ops, started [demo_exporter] 1 4 None 7).

Definition flush_results : list result := [RWorker Running; RRecord (Some None); RFlush 1 None].

Lemma flush_returns :
  (c1 ← sched handle (replicate 12 1)%nat flush_start;
   c2 ← sched handle (replicate 4 2 ++ replicate 14 0 ++ replicate 2 2)%nat c1;
   Some ((next c1.2, done_ctx c2.2 !! 1%nat, done_ctx c2.2 !! pipeline_ctx), c2.1))
  = Some ((1%nat, None, None), Ret <$> flush_results).
Proof.
  vm_cast_no_check (eq_refl (Some ((1%nat, None, None), Ret <$> flush_results)
    : option (nat * option error * option error * list (prog act result)))).
Qed.

Lemma flush_recordable : all_recordable demo_cfg flush_ops.
Proof.
  intros fuel span m Hin. apply elem_of_cons in Hin as [[= -> -> ->]|Hin].
  - intros now. split; vm_compute; [discriminate|reflexivity].
  - apply list_elem_of_singleton in Hin. discriminate.
Qed.

Lemma flush_barrier_witness :
  ∃ ts1 s1 s2, gsteps handle env flush_start (ts1, s1) ∧ next s1 = 1%nat
    ∧ gsteps handle env (ts1, s1) (Ret <$> flush_results, s2) ∧ 0%nat ∈ ids (concat (exported s2)).
Proof.
  assert (Ht : 2%nat ∉ replicate 12 1%nat) by (intros [? _]%elem_of_replicate; done).
  destruct (sched_parts handle env (λ s1 s2, (next s1, done_ctx s2 !! 1%nat, done_ctx s2 !! pipeline_ctx))
    _ _ _ 2%nat _ _ Ht flush_returns) as (ts1 & s1 & s2 & H1 & Ht1 & H2 & Hf).
  injection Hf as Hn Hc Hp.
  exists ts1, s1, s2. split; [exact H1|]. split; [exact Hn|]. split; [exact H2|].
  refine (proj2 (flush_barrier demo_cfg [demo_exporter] demo_grow 4 [1%nat] flush_ops None 7 2 1 ts1 s1 _ s2
    eq_refl ltac:(cbn; lia) ltac:(lia) flush_recordable ltac:(cbn; lia) ltac:(cbn; lia) H1 Ht1 H2 eq_refl Hc 0 _) eq_refl Hp).
  rewrite Hn. lia.
Defined.

(** ** A context that ends during a drain *)

(** The caller's context 1 ends. *)
Definition cancel_caller (s : state) : state := set_close s (readers s) (shutdown s) (<[1%nat := ErrCanceled]> (done_ctx s)).

Lemma cancelled_run :
  (c1 ← sched handle (replicate 12 1 ++ replicate 4 2 ++ replicate 2 0)%nat flush_start;
   c2 ← sched handle (replicate 5 0 ++ replicate 2 2)%nat (c1.1, cancel_caller c1.2);
   Some (ids (ring c2.2), ids (concat (exported c2.2)), c2.1)) = Some ([0%nat], [], Ret <$> flush_results).
Proof.
  vm_cast_no_check (eq_refl (Some ([0%nat], [], Ret <$> flush_results)
    : option (list nat * list nat * list (prog act result)))).
Qed.

(** C12. The worker stops its drain when the caller's context ends, acknowledges
    without an error, and Flush may take that acknowledgement before it looks at
    the context: it returns nil with the observation still in the ring. *)
Lemma flush_nil_after_cancel :
  ∃ s2, gsteps handle env flush_start (Ret <$> flush_results, s2)
    ∧ ids (ring s2) = [0%nat] ∧ ids (concat (exported s2)) = [].
Proof.
  destruct (sched_env handle env (λ s, (ids (ring s), ids (concat (exported s)))) cancel_caller _ _ _ _ _
    ltac:(intros s; right; exists 1%nat, ErrCanceled; done) cancelled_run) as (s2 & Hs & Hf).
  injection Hf as Hr He. by exists s2.
Qed.
