(* ===== verification/Ring.v ===== *)
(** * The ring buffer of [transport/buffer.go], executed by one goroutine

    The data of [RingBuffer] and every method of it as state-passing functions:
    [NewRingBuffer], [Push], [PushDropOldest], [pop] (for [Pop] and [TryPop]),
    [PopBatch] and the observers.  Atomic loads, stores and compare-and-swaps
    act on the record; the retry loops take fuel, and the theorems show that an
    undisturbed goroutine needs one turn.  [RingMPMC] runs the same code one
    atomic action at a time among many goroutines. *)
From S2P Require Import Prelude.
Open Scope go_scope.

(** [item any], with [nil] as [None]. *)
Record slot (A : Type) := Slot { seq : Z; item : option A }.
Arguments Slot {A}.
Arguments seq {A}.
Arguments item {A}.

#[export] Instance slot_inhabited A : Inhabited (slot A) := populate (Slot 0 None).

Record RingBuffer (A : Type) := MkRingBuffer {
  slots : list (slot A);
  capacity : Z;
  mask : Z;
  writePos : Z;
  readPos : Z;
  dropped : Z;
  added : Z;
  removed : Z;
}.
Arguments MkRingBuffer {A}.
Arguments slots {A}.
Arguments capacity {A}.
Arguments mask {A}.
Arguments writePos {A}.
Arguments readPos {A}.
Arguments dropped {A}.
Arguments added {A}.
Arguments removed {A}.

(** ** Field access *)
Section access.
Context {A : Type}.
Implicit Types (rb : RingBuffer A).

(** [rb.slots[pos&rb.mask]]; [slot_index_in_range] shows that the index never
    leaves the slice. *)
Definition slot_index rb (pos : Z) : nat := Z.to_nat (Z.land pos (mask rb)).
Definition slot_at rb (pos : Z) : slot A := slots rb !!! slot_index rb pos.

Definition set_slot rb (pos : Z) (s : slot A) : RingBuffer A :=
  MkRingBuffer (<[slot_index rb pos := s]> (slots rb)) (capacity rb) (mask rb)
    (writePos rb) (readPos rb) (dropped rb) (added rb) (removed rb).
Definition store_seq rb (pos v : Z) : RingBuffer A :=
  set_slot rb pos (Slot v (item (slot_at rb pos))).
Definition store_item rb (pos : Z) (x : option A) : RingBuffer A :=
  set_slot rb pos (Slot (seq (slot_at rb pos)) x).
Definition store_writePos rb (v : Z) : RingBuffer A :=
  MkRingBuffer (slots rb) (capacity rb) (mask rb) v (readPos rb)
    (dropped rb) (added rb) (removed rb).
Definition store_readPos rb (v : Z) : RingBuffer A :=
  MkRingBuffer (slots rb) (capacity rb) (mask rb) (writePos rb) v
    (dropped rb) (added rb) (removed rb).
Definition add_dropped rb : RingBuffer A :=
  MkRingBuffer (slots rb) (capacity rb) (mask rb) (writePos rb) (readPos rb)
    (dropped rb +u 1) (added rb) (removed rb).
Definition add_added rb : RingBuffer A :=
  MkRingBuffer (slots rb) (capacity rb) (mask rb) (writePos rb) (readPos rb)
    (dropped rb) (added rb +u 1) (removed rb).
Definition add_removed rb : RingBuffer A :=
  MkRingBuffer (slots rb) (capacity rb) (mask rb) (writePos rb) (readPos rb)
    (dropped rb) (added rb) (removed rb +u 1).

Definition cas_writePos rb (old new : Z) : RingBuffer A * bool :=
  if writePos rb =? old then (store_writePos rb new, true) else (rb, false).
Definition cas_readPos rb (old new : Z) : RingBuffer A * bool :=
  if readPos rb =? old then (store_readPos rb new, true) else (rb, false).
Definition cas_seq rb (pos old new : Z) : RingBuffer A * bool :=
  if seq (slot_at rb pos) =? old then (store_seq rb pos new, true) else (rb, false).

End access.

(** ** Construction *)

(** [nextPowerOfTwo]: smear the top bit of [n-1] to the right and add one. *)
Definition nextPowerOfTwo (n : Z) : Z :=
  if n =? 0 then 1 else
  let n := n -u 1 in
  let n := Z.lor n (Z.shiftr n 1) in
  let n := Z.lor n (Z.shiftr n 2) in
  let n := Z.lor n (Z.shiftr n 4) in
  let n := Z.lor n (Z.shiftr n 8) in
  let n := Z.lor n (Z.shiftr n 16) in
  let n := Z.lor n (Z.shiftr n 32) in
  n +u 1.

Definition NewRingBuffer {A} (cap : Z) : RingBuffer A :=
  let capCount := Z.max (nextPowerOfTwo (u64 (Z.max cap 0))) 2 in
  MkRingBuffer ((λ i : nat, Slot (Z.of_nat i) None) <$> List.seq 0 (Z.to_nat capCount))
    capCount (capCount - 1) 0 0 0 0 0.

(** ** Operations *)
Inductive attempt := retry | pushed | rejected.

#[export] Instance attempt_eq_dec : EqDecision attempt.
Proof. solve_decision. Defined.

Section operations.
Context {A : Type}.
Implicit Types (rb : RingBuffer A) (x : A).

(** [pushAt] publishes [x] at [w] of a buffer that is not full. *)
Definition pushAt rb (w : Z) (x : A) : RingBuffer A * attempt :=
  let s := seq (slot_at rb w) in
  if s <? w then (rb, rejected)
  else if s =? w then
    match cas_writePos rb w (w +u 1) with
    | (rb, true) =>
        let rb := store_item rb w (Some x) in
        let rb := store_seq rb w (w +u 1) in
        (add_added rb, pushed)
    | (rb, false) => (rb, retry)
    end
  else (rb, retry).

(** [replaceOldest] evicts the item at [r] of a full buffer and publishes [x]
    at [w], which shares its slot. *)
Definition replaceOldest rb (r w : Z) (x : A) : RingBuffer A * (attempt * option A) :=
  let s := seq (slot_at rb r) in
  if s <=? r then (rb, (rejected, None))
  else if negb (s =? r +u 1) || negb (w =? r +u capacity rb) then (rb, (retry, None))
  else
    match cas_seq rb r (r +u 1) r with
    | (rb, false) => (rb, (retry, None))
    | (rb, true) =>
      match cas_readPos rb r (r +u 1) with
      | (rb, false) => (rb, (retry, None))
      | (rb, true) =>
          let old := item (slot_at rb r) in
          let rb := store_writePos rb (w +u 1) in
          let rb := store_item rb r (Some x) in
          let rb := store_seq rb r (w +u 1) in
          (add_added (add_dropped (add_removed rb)), (pushed, old))
      end
    end.

(** One turn of the loop of [Push]. *)
Definition Push_turn rb (x : A) : RingBuffer A * attempt :=
  let r := readPos rb in
  let w := writePos rb in
  if w -u r <? capacity rb then pushAt rb w x else (rb, rejected).

Fixpoint Push_loop (fuel : nat) rb (x : A) : option (RingBuffer A * bool) :=
  match fuel with
  | O => None
  | S fuel =>
      match Push_turn rb x with
      | (rb, pushed) => Some (rb, true)
      | (rb, rejected) => Some (add_dropped rb, false)
      | (rb, retry) => Push_loop fuel rb x
      end
  end.

Definition Push (fuel : nat) rb (it : option A) : option (RingBuffer A * bool) :=
  match it with
  | None => Some (rb, false)
  | Some x => Push_loop fuel rb x
  end.

(** One turn of the loop of [PushDropOldest]. *)
Definition PushDropOldest_turn rb (x : A) : RingBuffer A * (attempt * option A) :=
  let r := readPos rb in
  let w := writePos rb in
  if w -u r <? capacity rb
  then match pushAt rb w x with (rb, a) => (rb, (a, None)) end
  else replaceOldest rb r w x.

Fixpoint PushDropOldest_loop (fuel : nat) rb (x : A)
    : option (RingBuffer A * (option A * bool)) :=
  match fuel with
  | O => None
  | S fuel =>
      match PushDropOldest_turn rb x with
      | (rb, (pushed, evicted)) => Some (rb, (evicted, true))
      | (rb, (rejected, _)) => Some (add_dropped rb, (None, false))
      | (rb, (retry, _)) => PushDropOldest_loop fuel rb x
      end
  end.

Definition PushDropOldest (fuel : nat) rb (it : option A)
    : option (RingBuffer A * (option A * bool)) :=
  match it with
  | None => Some (rb, (None, false))
  | Some x => PushDropOldest_loop fuel rb x
  end.

(** [pop]; a turn that must look again (a writer that has not stored its item,
    a stale position, a lost compare-and-swap) continues the loop. *)
Fixpoint pop (fuel : nat) (waitForWriter : bool) rb : option (RingBuffer A * option A) :=
  match fuel with
  | O => None
  | S fuel =>
      let r := readPos rb in
      if writePos rb <=? r then Some (rb, None) else
      let s := seq (slot_at rb r) in
      if s <=? r then
        if negb waitForWriter then Some (rb, None) else pop fuel waitForWriter rb
      else if s =? r +u 1 then
        match cas_readPos rb r (r +u 1) with
        | (rb, true) =>
            let it := item (slot_at rb r) in
            let rb := store_item rb r None in
            let rb := store_seq rb r (r +u capacity rb) in
            Some (add_removed rb, it)
        | (rb, false) => pop fuel waitForWriter rb
        end
      else pop fuel waitForWriter rb
  end.

Definition Pop (fuel : nat) rb := pop fuel true rb.
Definition TryPop (fuel : nat) rb := pop fuel false rb.

(** The body of [PopBatch]'s loop, [n] turns at most. *)
Fixpoint PopBatch_loop (fuel n : nat) rb (batch : list A) : option (RingBuffer A * list A) :=
  match n with
  | O => Some (rb, batch)
  | S n =>
      match Pop fuel rb with
      | None => None
      | Some (rb, None) => Some (rb, batch)
      | Some (rb, Some x) => PopBatch_loop fuel n rb (batch ++ [x])
      end
  end.

Definition PopBatch (fuel : nat) rb (maxItems : Z) : option (RingBuffer A * list A) :=
  if maxItems <=? 0 then Some (rb, []) else PopBatch_loop fuel (Z.to_nat maxItems) rb [].

Definition Len rb : Z :=
  let w := writePos rb in
  let r := readPos rb in
  if w <? r then 0 else i64 (w -u r).
Definition Cap rb : Z := i64 (capacity rb).
Definition Dropped rb : Z := dropped rb.
Definition Added rb : Z := added rb.
Definition Removed rb : Z := removed rb.
Definition IsFull rb : bool := capacity rb <=? writePos rb -u readPos rb.
Definition IsEmpty rb : bool := Len rb =? 0.
Definition ResetStats rb : RingBuffer A :=
  MkRingBuffer (slots rb) (capacity rb) (mask rb) (writePos rb) (readPos rb) 0 0 0.

End operations.

Example ring_demo :
  let rb := NewRingBuffer (A := nat) 3 in
  (rb1 ← Push 1 rb (Some 7%nat); rb2 ← Push 1 (fst rb1) (Some 8%nat);
   r ← Pop 1 (fst rb2); mret (snd r, Len (fst r), Cap (fst r)))
  = Some (Some 7%nat, 1, 4).
Proof. vm_compute. reflexivity. Qed.

(** ** [nextPowerOfTwo]

    [smeared w a b]: bit [i] of [b] is set exactly when [a] has a bit in the
    window of [w] positions starting at [i].  Each or-shift doubles the window. *)
Definition smeared (w a b : Z) : Prop :=
  0 ≤ b ∧ ∀ i, 0 ≤ i → Z.testbit b i = true ↔ ∃ j, i ≤ j < i + w ∧ Z.testbit a j = true.

Lemma smeared_one a : 0 ≤ a → smeared 1 a a.
Proof.
  intros Ha; split; [done|]. intros i Hi; split.
  - intros. exists i. split; [lia|done].
  - intros (j & Hj & Hb). by replace i with j by lia.
Qed.

Lemma smeared_double w w2 a b :
  0 < w → w2 = w + w → smeared w a b → smeared w2 a (Z.lor b (Z.shiftr b w)).
Proof.
  intros Hw -> [Hb Hs]; split.
  { apply Z.lor_nonneg. split; [done|]. by apply Z.shiftr_nonneg. }
  intros i Hi. rewrite Z.lor_spec, Z.shiftr_spec, orb_true_iff by lia.
  rewrite !Hs by lia. split.
  - intros [(j & ? & ?)|(j & ? & ?)]; exists j; split; (done || lia).
  - intros (j & ? & ?). destruct (decide (j < i + w)).
    + left. exists j. split; [lia|done].
    + right. exists j. split; [lia|done].
Qed.

Lemma smeared_full a b :
  0 < a < 2 ^ 64 → smeared 64 a b → b = 2 ^ (Z.log2 a + 1) - 1.
Proof.
  intros Ha [Hb Hs].
  assert (0 ≤ Z.log2 a < 64) by (split; [apply Z.log2_nonneg | apply Z.log2_lt_pow2; lia]).
  rewrite Z.sub_1_r, <-Z.ones_equiv.
  apply Z.bits_inj_iff'. intros i Hi.
  apply eq_true_iff_eq. rewrite Hs, Z.testbit_ones_nonneg, Z.ltb_lt by lia.
  split.
  - intros (j & Hj & Hbit). destruct (decide (j ≤ Z.log2 a)); [lia|].
    rewrite Z.bits_above_log2 in Hbit by lia. done.
  - intros. exists (Z.log2 a). split; [lia|]. apply Z.bit_log2. lia.
Qed.

Lemma nextPowerOfTwo_spec n :
  0 < n ≤ 2 ^ 63 →
  ∃ k, 0 ≤ k ≤ 63 ∧ nextPowerOfTwo n = 2 ^ k ∧ n ≤ 2 ^ k ∧ 2 ^ k < 2 * n.
Proof.
  intros Hn. unfold nextPowerOfTwo. destruct (Z.eqb_spec n 0); [lia|].
  rewrite (u64_small (n - 1)) by lia.
  destruct (decide (n = 1)) as [->|].
  { exists 0. vm_compute. intuition congruence. }
  assert (Hlog : 0 ≤ Z.log2 (n - 1) < 63)
    by (split; [apply Z.log2_nonneg | apply Z.log2_lt_pow2; lia]).
  assert (Hs := smeared_one (n - 1) ltac:(lia)).
  apply (smeared_double 1 2) in Hs; [| lia..].
  apply (smeared_double 2 4) in Hs; [| lia..].
  apply (smeared_double 4 8) in Hs; [| lia..].
  apply (smeared_double 8 16) in Hs; [| lia..].
  apply (smeared_double 16 32) in Hs; [| lia..].
  apply (smeared_double 32 64) in Hs; [| lia..].
  apply smeared_full in Hs; [| lia]. rewrite Hs.
  pose proof (Z.log2_spec (n - 1) ltac:(lia)) as [Hlo Hhi].
  exists (Z.log2 (n - 1) + 1). rewrite <-Z.add_1_r in Hhi.
  rewrite Z.pow_add_r in * by lia.
  assert (2 ^ Z.log2 (n - 1) < 2 ^ 63) by (apply Z.pow_lt_mono_r; lia).
  rewrite u64_small by lia. repeat split; lia.
Qed.

(** ** Slot geometry

    The capacity is a power of two of at least 2, so masking a position is
    reducing it modulo the capacity. *)
Record geometry {A} (rb : RingBuffer A) : Prop := {
  geo_pow : ∃ k, 1 ≤ k ≤ 63 ∧ capacity rb = 2 ^ k;
  geo_mask : mask rb = capacity rb - 1;
  geo_len : length (slots rb) = Z.to_nat (capacity rb);
}.

Section geometry_lemmas.
Context {A : Type}.
Implicit Types (rb : RingBuffer A).

Lemma geometry_cap rb : geometry rb → 2 ≤ capacity rb ≤ 2 ^ 63.
Proof.
  intros [(k & Hk & ->) _ _]. split.
  - change 2 with (2 ^ 1) at 1. apply Z.pow_le_mono_r; lia.
  - apply Z.pow_le_mono_r; lia.
Qed.

Lemma slot_index_mod rb p : geometry rb → slot_index rb p = Z.to_nat (p mod capacity rb).
Proof.
  intros [(k & Hk & Hc) Hm _]. unfold slot_index. rewrite Hm, Hc.
  rewrite Z.sub_1_r, <-Z.ones_equiv, Z.land_ones by lia. done.
Qed.

(** The slice index of the code is always in range. *)
Lemma slot_index_in_range rb p : geometry rb → (slot_index rb p < length (slots rb))%nat.
Proof.
  intros Hg. rewrite slot_index_mod, (geo_len _ Hg) by done.
  pose proof (geometry_cap _ Hg). pose proof (Z.mod_pos_bound p (capacity rb)). lia.
Qed.

Lemma slot_index_eq rb p q :
  geometry rb → slot_index rb p = slot_index rb q ↔ p mod capacity rb = q mod capacity rb.
Proof.
  intros Hg. rewrite !slot_index_mod by done. pose proof (geometry_cap _ Hg).
  pose proof (Z.mod_pos_bound p (capacity rb)). pose proof (Z.mod_pos_bound q (capacity rb)).
  lia.
Qed.

Lemma slot_at_set_slot rb p q s :
  geometry rb →
  slot_at (set_slot rb p s) q =
    if decide (p mod capacity rb = q mod capacity rb) then s else slot_at rb q.
Proof.
  intros Hg. unfold slot_at. change (slot_index (set_slot rb p s) q) with (slot_index rb q).
  simpl. pose proof (slot_index_in_range rb p Hg).
  case_decide as H1; rewrite <-(slot_index_eq rb p q Hg) in H1.
  - rewrite <-H1. rewrite list_lookup_total_insert_eq; done.
  - rewrite list_lookup_total_insert_ne; done.
Qed.

Lemma slot_at_mod rb p q :
  geometry rb → p mod capacity rb = q mod capacity rb → slot_at rb p = slot_at rb q.
Proof. intros Hg Hm. unfold slot_at. by rewrite (proj2 (slot_index_eq rb p q Hg) Hm). Qed.

Lemma slot_at_store_seq rb p q v :
  geometry rb →
  slot_at (store_seq rb p v) q =
    if decide (p mod capacity rb = q mod capacity rb)
    then Slot v (item (slot_at rb q)) else slot_at rb q.
Proof.
  intros Hg. unfold store_seq. rewrite slot_at_set_slot by done.
  case_decide; [|done]. by rewrite (slot_at_mod rb p q).
Qed.

Lemma slot_at_store_item rb p q x :
  geometry rb →
  slot_at (store_item rb p x) q =
    if decide (p mod capacity rb = q mod capacity rb)
    then Slot (seq (slot_at rb q)) x else slot_at rb q.
Proof.
  intros Hg. unfold store_item. rewrite slot_at_set_slot by done.
  case_decide; [|done]. by rewrite (slot_at_mod rb p q).
Qed.

Lemma geometry_set_slot rb p s : geometry rb → geometry (set_slot rb p s).
Proof. intros [H1 H2 H3]; split; simpl; [done..|]. by rewrite length_insert. Qed.
Lemma geometry_store_seq rb p v : geometry rb → geometry (store_seq rb p v).
Proof. apply geometry_set_slot. Qed.
Lemma geometry_store_item rb p v : geometry rb → geometry (store_item rb p v).
Proof. apply geometry_set_slot. Qed.
Lemma geometry_store_writePos rb v : geometry rb → geometry (store_writePos rb v).
Proof. intros [H1 H2 H3]; split; done. Qed.
Lemma geometry_store_readPos rb v : geometry rb → geometry (store_readPos rb v).
Proof. intros [H1 H2 H3]; split; done. Qed.
Lemma geometry_counters rb d a r :
  geometry rb →
  geometry (MkRingBuffer (slots rb) (capacity rb) (mask rb) (writePos rb) (readPos rb) d a r).
Proof. intros [H1 H2 H3]; split; done. Qed.

(** Positions and counters do not touch the slots. *)
Lemma slot_at_fields rb w r d a m p :
  slot_at (MkRingBuffer (slots rb) (capacity rb) (mask rb) w r d a m) p = slot_at rb p.
Proof. done. Qed.

End geometry_lemmas.

#[export] Hint Resolve geometry_set_slot geometry_store_seq geometry_store_item
  geometry_store_writePos geometry_store_readPos geometry_counters : go.

Lemma NewRingBuffer_geometry {A} cap :
  cap ≤ 2 ^ 63 →
  geometry (NewRingBuffer (A := A) cap) ∧
  cap ≤ capacity (NewRingBuffer (A := A) cap) ≤ Z.max 2 (2 * cap).
Proof.
  intros Hc. unfold NewRingBuffer. set (n := Z.max cap 0).
  rewrite (u64_small n) by (subst n; lia).
  assert (∃ k, 0 ≤ k ≤ 63 ∧ nextPowerOfTwo n = 2 ^ k ∧ n ≤ 2 ^ k ≤ Z.max 1 (2 * n))
    as (k & Hk & -> & Hle).
  { destruct (decide (n = 0)) as [->|].
    - exists 0. vm_compute. intuition congruence.
    - destruct (nextPowerOfTwo_spec n) as (k & ? & ? & ? & ?); [subst n; lia|].
      exists k. repeat split; (done || lia). }
  assert (∃ k', 1 ≤ k' ≤ 63 ∧ Z.max (2 ^ k) 2 = 2 ^ k') as (k' & Hk' & Hmax).
  { destruct (decide (k = 0)) as [->|]; [by exists 1|]. exists k. split; [lia|].
    rewrite Z.max_l; [done|]. change 2 with (2 ^ 1) at 1. apply Z.pow_le_mono_r; lia. }
  split; [|simpl; subst n; lia]. split; simpl; [eauto|done|].
  by rewrite length_fmap, length_seq.
Qed.

Lemma NewRingBuffer_slot {A} cap p :
  cap ≤ 2 ^ 63 → 0 ≤ p < capacity (NewRingBuffer (A := A) cap) →
  slot_at (NewRingBuffer (A := A) cap) p = Slot p None.
Proof.
  intros Hc Hp. destruct (@NewRingBuffer_geometry A cap Hc) as [Hg _].
  unfold slot_at. rewrite slot_index_mod, Z.mod_small by done.
  apply list_lookup_total_correct. unfold NewRingBuffer in *; simpl in *.
  rewrite list_lookup_fmap, lookup_seq_lt by lia. simpl. by rewrite Z2Nat.id by lia.
Qed.

(** ** The contents of a quiescent ring

    [ring_repr n rb q]: no goroutine is inside an operation, [rb] holds [q],
    oldest first, and [n] more positions fit in 64 bits. *)
Record ring_repr {A} (n : Z) (rb : RingBuffer A) (q : list A) : Prop := {
  repr_geo : geometry rb;
  repr_read : 0 ≤ readPos rb;
  repr_write : writePos rb = readPos rb + Z.of_nat (length q);
  repr_fits : Z.of_nat (length q) ≤ capacity rb;
  repr_room : 0 ≤ n ∧ writePos rb + capacity rb + n < 2 ^ 64;
  repr_full : ∀ (i : nat) x, q !! i = Some x →
    slot_at rb (readPos rb + Z.of_nat i) = Slot (readPos rb + Z.of_nat i + 1) (Some x);
  repr_free : ∀ p, writePos rb ≤ p < readPos rb + capacity rb → slot_at rb p = Slot p None;
}.

Section repr_lemmas.
Context {A : Type}.
Implicit Types (rb : RingBuffer A) (q : list A).

Lemma repr_bounds n rb q :
  ring_repr n rb q →
  2 ≤ capacity rb ≤ 2 ^ 63 ∧ 0 ≤ readPos rb ≤ writePos rb ∧
  writePos rb ≤ readPos rb + capacity rb ∧ writePos rb + capacity rb < 2 ^ 64.
Proof. intros []. pose proof (geometry_cap _ repr_geo0). lia. Qed.

(** Two positions of one window of [cap] positions in one slot are equal. *)
Lemma same_slot rb p p' :
  geometry rb → p mod capacity rb = p' mod capacity rb →
  - capacity rb < p - p' < capacity rb → p = p'.
Proof. intros Hg. pose proof (geometry_cap _ Hg). apply mod_eq_close. lia. Qed.

Lemma NewRingBuffer_repr cap n :
  cap ≤ 2 ^ 62 → 0 ≤ n < 2 ^ 63 → ring_repr n (NewRingBuffer (A := A) cap) [].
Proof.
  intros Hc Hn. destruct (@NewRingBuffer_geometry A cap) as [Hg _]; [lia|].
  assert (capacity (NewRingBuffer (A := A) cap) ≤ 2 ^ 63) by (by apply geometry_cap).
  split; simpl; try done; try lia.
  - pose proof (geometry_cap _ Hg). simpl in *. lia.
  - intros p Hp. apply NewRingBuffer_slot; simpl; lia.
Qed.

(** Writing [x] at the write position: what [pushAt] does on success. *)
Definition published rb (x : A) : RingBuffer A :=
  add_added (store_seq (store_item (store_writePos rb (writePos rb + 1)) (writePos rb) (Some x))
    (writePos rb) (writePos rb + 1)).

Lemma published_slot rb x p :
  geometry rb →
  slot_at (published rb x) p =
    if decide (writePos rb mod capacity rb = p mod capacity rb)
    then Slot (writePos rb + 1) (Some x) else slot_at rb p.
Proof.
  intros Hg. unfold published, add_added. rewrite slot_at_fields.
  rewrite slot_at_store_seq, slot_at_store_item by auto with go.
  simpl. by repeat case_decide.
Qed.

(** A ring with the new positions, built from the slots. *)
Lemma repr_intro n rb rb' q :
  geometry rb' → capacity rb' = capacity rb → 0 ≤ readPos rb' →
  writePos rb' = readPos rb' + Z.of_nat (length q) → Z.of_nat (length q) ≤ capacity rb →
  0 ≤ n → writePos rb' + capacity rb + n < 2 ^ 64 →
  (∀ (i : nat) x, q !! i = Some x →
    slot_at rb' (readPos rb' + Z.of_nat i) = Slot (readPos rb' + Z.of_nat i + 1) (Some x)) →
  (∀ p, writePos rb' ≤ p < readPos rb' + capacity rb → slot_at rb' p = Slot p None) →
  ring_repr n rb' q.
Proof. intros Hg Hc. rewrite <-Hc. by split. Qed.

Lemma published_repr n rb q x :
  ring_repr (n + 1) rb q → 0 ≤ n → Z.of_nat (length q) < capacity rb →
  ring_repr n (published rb x) (q ++ [x]).
Proof.
  intros Hr Hn Hlt. pose proof (repr_bounds _ _ _ Hr). destruct Hr.
  apply (repr_intro n rb); try done.
  - unfold published, add_added. auto with go.
  - change (writePos (published rb x)) with (writePos rb + 1).
    change (readPos (published rb x)) with (readPos rb). rewrite length_app. simpl. lia.
  - rewrite length_app. simpl. lia.
  - change (writePos (published rb x)) with (writePos rb + 1). lia.
  - change (readPos (published rb x)) with (readPos rb). intros i y Hi.
    rewrite published_slot by done. destruct (decide (i = length q)) as [->|Hne].
    + rewrite lookup_app_r, Nat.sub_diag in Hi by lia. injection Hi as ->.
      rewrite decide_True by (f_equal; lia). f_equal. lia.
    + assert (i < length q)%nat.
      { apply lookup_lt_Some in Hi. rewrite length_app in Hi. simpl in Hi. lia. }
      rewrite lookup_app_l in Hi by lia. rewrite decide_False; [auto|].
      intros Hm%same_slot; [lia|done|lia].
  - change (writePos (published rb x)) with (writePos rb + 1).
    change (readPos (published rb x)) with (readPos rb). intros p Hp.
    rewrite published_slot by done. rewrite decide_False; [apply repr_free0; lia|].
    intros Hm%same_slot; [lia|done|lia].
Qed.

(** Taking the item at the read position: what [pop] does on success. *)
Definition taken rb : RingBuffer A :=
  add_removed (store_seq (store_item (store_readPos rb (readPos rb + 1)) (readPos rb) None)
    (readPos rb) (readPos rb + capacity rb)).

Lemma taken_slot rb p :
  geometry rb →
  slot_at (taken rb) p =
    if decide (readPos rb mod capacity rb = p mod capacity rb)
    then Slot (readPos rb + capacity rb) None else slot_at rb p.
Proof.
  intros Hg. unfold taken, add_removed. rewrite slot_at_fields.
  rewrite slot_at_store_seq, slot_at_store_item by auto with go.
  simpl. by repeat case_decide.
Qed.

Lemma taken_repr n rb q x :
  ring_repr n rb (x :: q) → ring_repr n (taken rb) q.
Proof.
  intros Hr. pose proof (repr_bounds _ _ _ Hr). destruct Hr. simpl in *.
  apply (repr_intro n rb); try done; try lia;
    change (readPos (taken rb)) with (readPos rb + 1);
    change (writePos (taken rb)) with (writePos rb); try lia.
  - unfold taken, add_removed. auto with go.
  - intros i y Hi. rewrite taken_slot by done. rewrite decide_False.
    + specialize (repr_full0 (S i) y Hi).
      replace (readPos rb + 1 + Z.of_nat i) with (readPos rb + Z.of_nat (S i)) by lia. done.
    + apply lookup_lt_Some in Hi. intros Hm%same_slot; [lia|done|lia].
  - intros p Hp. rewrite taken_slot by done. case_decide as Hm.
    + rewrite <-(mod_add_cap (capacity rb) (readPos rb)) in Hm by lia.
      apply same_slot in Hm; [by subst|done|lia].
    + destruct (decide (p = readPos rb + capacity rb)) as [->|]; [|apply repr_free0; lia].
      rewrite mod_add_cap in Hm by lia. done.
Qed.

(** Evicting the oldest item of a full ring and publishing [x] in its slot. *)
Definition replaced rb (x : A) : RingBuffer A :=
  let r := readPos rb in
  let w := writePos rb in
  add_added (add_dropped (add_removed
    (store_seq (store_item (store_writePos (store_readPos (store_seq rb r r) (r + 1)) (w + 1))
      r (Some x)) r (w + 1)))).

Lemma replaced_slot rb x p :
  geometry rb →
  slot_at (replaced rb x) p =
    if decide (readPos rb mod capacity rb = p mod capacity rb)
    then Slot (writePos rb + 1) (Some x) else slot_at rb p.
Proof.
  intros Hg. unfold replaced, add_added, add_dropped, add_removed. rewrite !slot_at_fields.
  rewrite slot_at_store_seq, slot_at_store_item by auto 10 with go.
  unfold store_writePos, store_readPos. rewrite !slot_at_fields, slot_at_store_seq by done.
  simpl. by repeat case_decide.
Qed.

Lemma replaced_repr n rb q y x :
  ring_repr (n + 1) rb (y :: q) → 0 ≤ n → Z.of_nat (length (y :: q)) = capacity rb →
  ring_repr n (replaced rb x) (q ++ [x]).
Proof.
  intros Hr Hn Hlen. pose proof (repr_bounds _ _ _ Hr). destruct Hr. simpl in *.
  assert (writePos rb mod capacity rb = readPos rb mod capacity rb) as Hwr.
  { replace (writePos rb) with (readPos rb + capacity rb) by lia. apply mod_add_cap. lia. }
  apply (repr_intro n rb); try done; rewrite ?length_app; simpl length; try lia;
    change (readPos (replaced rb x)) with (readPos rb + 1);
    change (writePos (replaced rb x)) with (writePos rb + 1); try lia.
  - unfold replaced, add_added, add_dropped, add_removed. auto 10 with go.
  - intros i z Hi. rewrite replaced_slot by done.
    destruct (decide (i = length q)) as [->|Hne].
    + rewrite lookup_app_r, Nat.sub_diag in Hi by lia. injection Hi as ->.
      rewrite decide_True; [f_equal; lia|]. rewrite <-Hwr. f_equal. lia.
    + assert (i < length q)%nat.
      { apply lookup_lt_Some in Hi. rewrite length_app in Hi. simpl in Hi. lia. }
      rewrite lookup_app_l in Hi by lia. rewrite decide_False.
      * specialize (repr_full0 (S i) z Hi).
        replace (readPos rb + 1 + Z.of_nat i) with (readPos rb + Z.of_nat (S i)) by lia. done.
      * intros Hm%same_slot; [lia|done|lia].
Qed.

Lemma repr_weaken n n' rb q : ring_repr n rb q → 0 ≤ n' ≤ n → ring_repr n' rb q.
Proof. intros [] ?. split; auto. lia. Qed.

Lemma repr_counters n rb q d a m :
  ring_repr n rb q →
  ring_repr n (MkRingBuffer (slots rb) (capacity rb) (mask rb) (writePos rb) (readPos rb) d a m) q.
Proof. intros []. split; auto with go. Qed.

(** ** The loops turn once *)

Lemma pushAt_free n rb q x :
  ring_repr (n + 1) rb q → 0 ≤ n → Z.of_nat (length q) < capacity rb →
  pushAt rb (writePos rb) x = (published rb x, pushed).
Proof.
  intros Hr Hn Hlt. pose proof (repr_bounds _ _ _ Hr). destruct Hr. unfold pushAt.
  rewrite (repr_free0 (writePos rb)) by lia. simpl.
  rewrite Z.ltb_irrefl, Z.eqb_refl. unfold cas_writePos. rewrite Z.eqb_refl.
  by rewrite !u64_small by lia.
Qed.

Lemma full_test n rb q :
  ring_repr n rb q →
  (writePos rb -u readPos rb <? capacity rb) = bool_decide (Z.of_nat (length q) < capacity rb).
Proof.
  intros Hr. pose proof (repr_bounds _ _ _ Hr). destruct Hr.
  rewrite u64_small by lia. case_bool_decide; zbool; lia.
Qed.

Lemma replaceOldest_full n rb q y x :
  ring_repr (n + 1) rb (y :: q) → 0 ≤ n → Z.of_nat (length (y :: q)) = capacity rb →
  replaceOldest rb (readPos rb) (writePos rb) x = (replaced rb x, (pushed, Some y)).
Proof.
  intros Hr Hn Hlen. pose proof (repr_bounds _ _ _ Hr). destruct Hr. simpl in *.
  pose proof (repr_full0 0%nat y eq_refl) as Hy. simpl in Hy. rewrite Z.add_0_r in Hy.
  unfold replaceOldest, cas_seq. rewrite Hy. simpl. rewrite !u64_small by lia.
  destruct (Z.leb_spec (readPos rb + 1) (readPos rb)); [lia|].
  rewrite Z.eqb_refl. simpl.
  destruct (Z.eqb_spec (writePos rb) (readPos rb + capacity rb)); [|lia]. simpl.
  unfold cas_readPos. simpl. rewrite Z.eqb_refl.
  unfold replaced. f_equal. f_equal.
  unfold store_readPos. rewrite slot_at_fields, slot_at_store_seq by done.
  rewrite decide_True by done. by rewrite Hy.
Qed.

(** What one call of [Push] does to a quiescent ring: it appends when there is
    room and otherwise leaves the contents alone, and it needs one loop turn. *)
Lemma Push_repr n rb q x fuel :
  ring_repr (n + 1) rb q → 0 ≤ n →
  if bool_decide (Z.of_nat (length q) < capacity rb)
  then Push (S fuel) rb (Some x) = Some (published rb x, true) ∧
       ring_repr n (published rb x) (q ++ [x])
  else Push (S fuel) rb (Some x) = Some (add_dropped rb, false) ∧
       ring_repr n (add_dropped rb) q.
Proof.
  intros Hr Hn. simpl. unfold Push_turn. rewrite (full_test _ _ _ Hr).
  case_bool_decide.
  - rewrite (pushAt_free n rb q) by done. split; [done|]. by apply published_repr.
  - split; [done|]. apply repr_counters. eapply repr_weaken; [done|lia].
Qed.

Lemma PushDropOldest_repr n rb q x fuel :
  ring_repr (n + 1) rb q → 0 ≤ n →
  if bool_decide (Z.of_nat (length q) < capacity rb)
  then PushDropOldest (S fuel) rb (Some x) = Some (published rb x, (None, true)) ∧
       ring_repr n (published rb x) (q ++ [x])
  else PushDropOldest (S fuel) rb (Some x) = Some (replaced rb x, (head q, true)) ∧
       ring_repr n (replaced rb x) (tail q ++ [x]).
Proof.
  intros Hr Hn. simpl. unfold PushDropOldest_turn. rewrite (full_test _ _ _ Hr).
  pose proof (repr_bounds _ _ _ Hr). case_bool_decide.
  - rewrite (pushAt_free n rb q) by done. split; [done|]. by apply published_repr.
  - destruct q as [|y q]; [simpl in *; lia|].
    assert (Z.of_nat (length (y :: q)) = capacity rb) by (pose proof (repr_fits _ _ _ Hr); lia).
    rewrite (replaceOldest_full n rb q y x) by done.
    split; [done|]. by eapply replaced_repr.
Qed.

Lemma pop_repr n rb q fuel wait :
  ring_repr n rb q →
  match q with
  | [] => pop (S fuel) wait rb = Some (rb, None)
  | x :: q => pop (S fuel) wait rb = Some (taken rb, Some x) ∧ ring_repr n (taken rb) q
  end.
Proof.
  intros Hr. pose proof (repr_bounds _ _ _ Hr). simpl. destruct q as [|x q].
  - destruct Hr. simpl in *. destruct (Z.leb_spec (writePos rb) (readPos rb)); [done|lia].
  - split; [|by eapply taken_repr]. destruct Hr. simpl in *.
    pose proof (repr_full0 0%nat x eq_refl) as Hx. simpl in Hx. rewrite Z.add_0_r in Hx.
    destruct (Z.leb_spec (writePos rb) (readPos rb)); [lia|].
    rewrite Hx. simpl. rewrite !u64_small by lia.
    destruct (Z.leb_spec (readPos rb + 1) (readPos rb)); [lia|]. rewrite Z.eqb_refl.
    unfold cas_readPos. rewrite Z.eqb_refl. simpl.
    rewrite u64_small by lia.
    unfold taken. f_equal. f_equal. unfold store_readPos. rewrite slot_at_fields. by rewrite Hx.
Qed.

End repr_lemmas.

(** ** The ring as a bounded queue

    The promise of the component: a bounded FIFO queue with three counters.
    [ring_refines_queue] shows that any sequence of calls on a new ring returns
    what this specification returns. *)
Inductive op (A : Type) :=
| OpPush (x : option A) | OpPushDropOldest (x : option A)
| OpPop | OpTryPop | OpPopBatch (n : Z)
| OpLen | OpCap | OpIsFull | OpIsEmpty
| OpDropped | OpAdded | OpRemoved | OpResetStats.
Arguments OpPush {A}.
Arguments OpPushDropOldest {A}.
Arguments OpPop {A}.
Arguments OpTryPop {A}.
Arguments OpPopBatch {A}.
Arguments OpLen {A}.
Arguments OpCap {A}.
Arguments OpIsFull {A}.
Arguments OpIsEmpty {A}.
Arguments OpDropped {A}.
Arguments OpAdded {A}.
Arguments OpRemoved {A}.
Arguments OpResetStats {A}.

Inductive out (A : Type) :=
| OutBool (b : bool) | OutEvicted (old : option A) (ok : bool)
| OutItem (x : option A) | OutItems (xs : list A) | OutInt (n : Z) | OutUnit.
Arguments OutBool {A}.
Arguments OutEvicted {A}.
Arguments OutItem {A}.
Arguments OutItems {A}.
Arguments OutInt {A}.
Arguments OutUnit {A}.

Record queue (A : Type) := Queue {
  q_items : list A; q_dropped : Z; q_added : Z; q_removed : Z }.
Arguments Queue {A}.
Arguments q_items {A}.
Arguments q_dropped {A}.
Arguments q_added {A}.
Arguments q_removed {A}.

Definition queue_op {A} (cap : Z) (s : queue A) (o : op A) : queue A * out A :=
  let '(Queue q d a m) := s in
  match o with
  | OpPush None => (s, OutBool false)
  | OpPush (Some x) =>
      if bool_decide (Z.of_nat (length q) < cap)
      then (Queue (q ++ [x]) d (a +u 1) m, OutBool true)
      else (Queue q (d +u 1) a m, OutBool false)
  | OpPushDropOldest None => (s, OutEvicted None false)
  | OpPushDropOldest (Some x) =>
      if bool_decide (Z.of_nat (length q) < cap)
      then (Queue (q ++ [x]) d (a +u 1) m, OutEvicted None true)
      else (Queue (tail q ++ [x]) (d +u 1) (a +u 1) (m +u 1), OutEvicted (head q) true)
  | OpPop | OpTryPop =>
      match q with
      | [] => (s, OutItem None)
      | x :: q => (Queue q d a (m +u 1), OutItem (Some x))
      end
  | OpPopBatch n =>
      let k := Nat.min (Z.to_nat n) (length q) in
      (Queue (drop k q) d a (m +u Z.of_nat k), OutItems (take k q))
  | OpLen => (s, OutInt (Z.of_nat (length q)))
  | OpCap => (s, OutInt cap)
  | OpIsFull => (s, OutBool (bool_decide (Z.of_nat (length q) = cap)))
  | OpIsEmpty => (s, OutBool (bool_decide (q = [])))
  | OpDropped => (s, OutInt d)
  | OpAdded => (s, OutInt a)
  | OpRemoved => (s, OutInt m)
  | OpResetStats => (Queue q 0 0 0, OutUnit)
  end.

Definition ring_op {A} (fuel : nat) (rb : RingBuffer A) (o : op A)
    : option (RingBuffer A * out A) :=
  match o with
  | OpPush x => '(rb, ok) ← Push fuel rb x; Some (rb, OutBool ok)
  | OpPushDropOldest x => '(rb, (old, ok)) ← PushDropOldest fuel rb x; Some (rb, OutEvicted old ok)
  | OpPop => '(rb, x) ← Pop fuel rb; Some (rb, OutItem x)
  | OpTryPop => '(rb, x) ← TryPop fuel rb; Some (rb, OutItem x)
  | OpPopBatch n => '(rb, xs) ← PopBatch fuel rb n; Some (rb, OutItems xs)
  | OpLen => Some (rb, OutInt (Len rb))
  | OpCap => Some (rb, OutInt (Cap rb))
  | OpIsFull => Some (rb, OutBool (IsFull rb))
  | OpIsEmpty => Some (rb, OutBool (IsEmpty rb))
  | OpDropped => Some (rb, OutInt (Dropped rb))
  | OpAdded => Some (rb, OutInt (Added rb))
  | OpRemoved => Some (rb, OutInt (Removed rb))
  | OpResetStats => Some (ResetStats rb, OutUnit)
  end.

Fixpoint ring_run {A} (fuel : nat) (rb : RingBuffer A) (os : list (op A)) : option (list (out A)) :=
  match os with
  | [] => Some []
  | o :: os => '(rb, r) ← ring_op fuel rb o; rs ← ring_run fuel rb os; Some (r :: rs)
  end.

Fixpoint queue_run {A} (cap : Z) (s : queue A) (os : list (op A)) : list (out A) :=
  match os with
  | [] => []
  | o :: os => let '(s, r) := queue_op cap s o in r :: queue_run cap s os
  end.

Section refinement.
Context {A : Type}.
Implicit Types (rb : RingBuffer A) (s : queue A).

(** The simulation relation between the ring and the specification. *)
Record ring_sim (n : Z) rb s : Prop := {
  sim_repr : ring_repr n rb (q_items s);
  sim_dropped : dropped rb = q_dropped s;
  sim_added : added rb = q_added s;
  sim_removed : removed rb = q_removed s;
  sim_range : in_u64 (removed rb);
}.

Lemma PopBatch_loop_repr fuel k n rb q batch :
  ring_repr n rb q → in_u64 (removed rb) →
  ∃ rb', PopBatch_loop (S fuel) k rb batch = Some (rb', batch ++ take k q) ∧
    ring_repr n rb' (drop k q) ∧ capacity rb' = capacity rb ∧
    dropped rb' = dropped rb ∧ added rb' = added rb ∧
    removed rb' = removed rb +u Z.of_nat (Nat.min k (length q)).
Proof.
  revert rb q batch. induction k as [|k IH]; intros rb q batch Hr Hm.
  - exists rb. rewrite app_nil_r, Z.add_0_r, u64_small by done. done.
  - simpl. unfold Pop. pose proof (pop_repr n rb q fuel true Hr) as Hp. destruct q as [|x q].
    + exists rb. rewrite Hp. simpl. rewrite app_nil_r, Z.add_0_r, u64_small by done. done.
    + destruct Hp as [-> Hr']. destruct (IH (taken rb) q (batch ++ [x]) Hr')
        as (rb' & -> & Hrep & Hc & Hd & Ha & Hrm); [apply u64_range|].
      exists rb'. rewrite <-app_assoc. repeat (split; [done|]).
      rewrite Hrm. simpl. unfold u64. rewrite Zplus_mod_idemp_l. f_equal. lia.
Qed.

Lemma observers_repr n rb q :
  ring_repr n rb q →
  Len rb = Z.of_nat (length q) ∧ (capacity rb < 2 ^ 63 → Cap rb = capacity rb) ∧
  IsFull rb = bool_decide (Z.of_nat (length q) = capacity rb) ∧
  IsEmpty rb = bool_decide (q = []).
Proof.
  intros Hr. pose proof (repr_bounds _ _ _ Hr). destruct Hr.
  assert (Z.of_nat (length q) < 2 ^ 63) by lia.
  assert (HL : Len rb = Z.of_nat (length q)).
  { unfold Len. destruct (Z.ltb_spec (writePos rb) (readPos rb)); [lia|].
    rewrite u64_small, i64_small by lia. lia. }
  split; [done|]. split; [intros; apply i64_small; lia|]. split.
  - unfold IsFull. rewrite u64_small by lia. case_bool_decide; zbool; lia.
  - unfold IsEmpty. rewrite HL. destruct q; [done|]. rewrite bool_decide_false by done.
    simpl. zbool; lia.
Qed.

Lemma ring_op_sim fuel n rb s o :
  ring_sim (n + 1) rb s → 0 ≤ n → capacity rb < 2 ^ 63 →
  ∃ rb', ring_op (S fuel) rb o = Some (rb', snd (queue_op (capacity rb) s o)) ∧
    ring_sim n rb' (fst (queue_op (capacity rb) s o)) ∧ capacity rb' = capacity rb.
Proof.
  intros [Hr Hd Ha Hm Hrng] Hn Hcap. destruct s as [q d a m]. simpl in *. subst.
  assert (Hr' : ring_repr n rb q) by (eapply repr_weaken; [done|lia]).
  destruct (observers_repr _ _ _ Hr) as (HL & HC & HF & HE).
  destruct o as [[x|]|[x|]| | |k| | | | | | | |]; unfold ring_op; simpl queue_op.
  - pose proof (Push_repr n rb q x fuel Hr Hn) as Hp.
    case_bool_decide; destruct Hp as [-> Hp]; simpl; eexists; (split; [done|]); split; try done;
      by split.
  - eexists; split; [done|]. split; [by split|done].
  - pose proof (PushDropOldest_repr n rb q x fuel Hr Hn) as Hp.
    case_bool_decide; destruct Hp as [-> Hp]; simpl; eexists; (split; [done|]); split; try done;
      split; try done; apply u64_range.
  - eexists; split; [done|]. split; [by split|done].
  - pose proof (pop_repr n rb q fuel true Hr') as Hp. unfold Pop. destruct q as [|x q].
    + rewrite Hp. eexists; split; [done|]. split; [by split|done].
    + destruct Hp as [-> Hp]. eexists; split; [done|]. split; [|done].
      split; try done; apply u64_range.
  - pose proof (pop_repr n rb q fuel false Hr') as Hp. unfold TryPop. destruct q as [|x q].
    + rewrite Hp. eexists; split; [done|]. split; [by split|done].
    + destruct Hp as [-> Hp]. eexists; split; [done|]. split; [|done].
      split; try done; apply u64_range.
  - unfold PopBatch. destruct (Z.leb_spec k 0).
    + rewrite (Z2Nat.nonpos k), Z.add_0_r, u64_small by done.
      eexists; split; [done|]. split; [by split|done].
    + destruct (PopBatch_loop_repr fuel (Z.to_nat k) n rb q [] Hr' Hrng)
        as (rb' & -> & Hp & Hc & Hd & Ha & Hm). simpl.
      rewrite take_min_length, drop_min_length.
      eexists; split; [done|]. split; [|done].
      split; simpl; try done. rewrite Hm. apply u64_range.
  - rewrite HL. eexists; split; [done|]. split; [by split|done].
  - rewrite HC by done. eexists; split; [done|]. split; [by split|done].
  - rewrite HF. eexists; split; [done|]. split; [by split|done].
  - rewrite HE. eexists; split; [done|]. split; [by split|done].
  - eexists; split; [done|]. split; [by split|done].
  - eexists; split; [done|]. split; [by split|done].
  - eexists; split; [done|]. split; [by split|done].
  - eexists; split; [done|]. split; [|done].
    split; simpl; try done. by apply repr_counters.
Qed.

Lemma ring_run_sim fuel os rb s n :
  ring_sim (n + Z.of_nat (length os)) rb s → 0 ≤ n → capacity rb < 2 ^ 63 →
  ring_run (S fuel) rb os = Some (queue_run (capacity rb) s os).
Proof.
  revert rb s. induction os as [|o os IH]; intros rb s Hs Hn Hc; [done|].
  simpl length in Hs.
  destruct (ring_op_sim fuel (n + Z.of_nat (length os)) rb s o) as (rb' & Ho & Hs' & Hc');
    [by replace (n + Z.of_nat (length os) + 1) with (n + Z.of_nat (S (length os))) by lia|lia|done|].
  cbn [ring_run queue_run]. rewrite Ho. destruct (queue_op (capacity rb) s o) as [s' r]. simpl in *.
  rewrite (IH rb' s') by (done || lia). by rewrite Hc'.
Qed.

End refinement.

(**  Refinement of the ring buffer to a bounded FIFO queue: on a new buffer
    of any requested size up to 2^62-1, every sequence of fewer than 2^62 calls
    ([Push], [PushDropOldest], [Pop], [TryPop], [PopBatch], [Len], [Cap],
    [IsFull], [IsEmpty], the counters and [ResetStats], nil items included)
    made by one goroutine returns what the abstract queue returns, and every
    retry loop finishes in its first turn. *)
Theorem ring_refines_queue {A} (cap : Z) (fuel : nat) (os : list (op A)) :
  cap < 2 ^ 62 → Z.of_nat (length os) < 2 ^ 62 →
  let rb := NewRingBuffer (A := A) cap in
  ring_run (S fuel) rb os = Some (queue_run (capacity rb) (Queue [] 0 0 0) os)
  ∧ cap ≤ capacity rb < 2 ^ 63.
Proof.
  intros Hc Hos rb. destruct (@NewRingBuffer_geometry A cap) as [Hg Hle]; [lia|].
  fold rb in Hg, Hle. split; [|lia]. apply (ring_run_sim fuel os rb _ 0); [|lia..].
  split; try done. apply NewRingBuffer_repr; lia.
Qed.

Lemma ring_refines_queue_witness :
  let os := [OpPush (Some 1%nat); OpPushDropOldest (Some 2%nat); OpPushDropOldest (Some 3%nat);
             OpLen; OpPop; OpPopBatch 5; OpDropped] in
  ring_run 1 (NewRingBuffer 2) os = Some (queue_run 2 (Queue [] 0 0 0) os).
Proof.
  intros os. refine (proj1 (ring_refines_queue 2 0 os _ _)); vm_compute; reflexivity.
Defined.
