(* ===== verification/RingMPMC.v ===== *)
(** * The ring buffer of [transport/buffer.go] among many goroutines

    [Push], [PushDropOldest], [Pop] and [TryPop] as machines whose steps are the
    single atomic actions of the code: one load, store, compare-and-swap or
    counter increment of shared memory, with the slot's plain [item] field read
    and written in steps of its own.  Any number of goroutines interleave in any
    order.  The file proves the invariant of the slot protocol (each slot is
    free, being filled, full, marked by an evictor, being drained or being
    replaced, and each of the last four has one owner), and from it that the ring
    is a FIFO queue, that no [item] access races with a write, and that [Push],
    [PushDropOldest] and [TryPop] never wait for another goroutine. *)
From S2P Require Import Prelude Ring.
Open Scope go_scope.

(** ** Program counters

    A constructor names the next atomic action and carries the locals that are
    live there: [d] tells [PushDropOldest] from [Push], [r] and [w] are the
    loaded [readPos] and [writePos]. *)
Inductive pc (A : Type) :=
(* Push, PushDropOldest *)
| PuLoadR (d : bool) (x : A)
| PuLoadW (d : bool) (x : A) (r : Z)
| PuDrop
| PuRet (r : option Z) (evicted : option A) (ok : bool)
(* pushAt *)
| PuSeq (d : bool) (x : A) (w : Z)
| PuCAS (d : bool) (x : A) (w : Z)
| PuItem (x : A) (w : Z)
| PuPub (x : A) (w : Z)
| PuAdded
(* replaceOldest *)
| EvSeq (x : A) (r w : Z)
| EvMark (x : A) (r w : Z)
| EvCAS (x : A) (r w : Z)
| EvOld (x : A) (r w : Z)
| EvStoreW (x : A) (r w : Z) (old : option A)
| EvItem (x : A) (r w : Z) (old : option A)
| EvPub (x : A) (r w : Z) (old : option A)
| EvRemoved (r : Z) (old : option A)
| EvDropped (r : Z) (old : option A)
| EvAdded (r : Z) (old : option A)
(* pop *)
| PoLoadR (wait : bool)
| PoLoadW (wait : bool) (r : Z)
| PoSeq (wait : bool) (r : Z)
| PoCAS (wait : bool) (r : Z)
| PoItem (r : Z)
| PoClear (r : Z) (it : option A)
| PoFree (r : Z) (it : option A)
| PoRemoved (r : Z) (it : option A)
| PoRet (r : option Z) (it : option A).
Arguments PuLoadR {A}. Arguments PuLoadW {A}. Arguments PuDrop {A}. Arguments PuRet {A}.
Arguments PuSeq {A}. Arguments PuCAS {A}. Arguments PuItem {A}. Arguments PuPub {A}.
Arguments PuAdded {A}. Arguments EvSeq {A}. Arguments EvMark {A}. Arguments EvCAS {A}.
Arguments EvOld {A}. Arguments EvStoreW {A}. Arguments EvItem {A}. Arguments EvPub {A}.
Arguments EvRemoved {A}. Arguments EvDropped {A}. Arguments EvAdded {A}.
Arguments PoLoadR {A}. Arguments PoLoadW {A}. Arguments PoSeq {A}. Arguments PoCAS {A}.
Arguments PoItem {A}. Arguments PoClear {A}. Arguments PoFree {A}. Arguments PoRemoved {A}.
Arguments PoRet {A}.

Section machine.
Context {A : Type}.
Implicit Types (rb : RingBuffer A) (x : A).

(** The next atomic action of a goroutine at [p]. *)
Definition exec rb (p : pc A) : RingBuffer A * pc A :=
  match p with
  | PuLoadR d x => (rb, PuLoadW d x (readPos rb))
  | PuLoadW d x r =>
      let w := writePos rb in
      if w -u r <? capacity rb then (rb, PuSeq d x w)
      else if d then (rb, EvSeq x r w) else (rb, PuDrop)
  | PuDrop => (add_dropped rb, PuRet None None false)
  | PuSeq d x w =>
      let s := seq (slot_at rb w) in
      if s <? w then (rb, PuDrop)
      else if s =? w then (rb, PuCAS d x w)
      else (rb, PuLoadR d x)
  | PuCAS d x w =>
      match cas_writePos rb w (w +u 1) with
      | (rb, true) => (rb, PuItem x w)
      | (rb, false) => (rb, PuLoadR d x)
      end
  | PuItem x w => (store_item rb w (Some x), PuPub x w)
  | PuPub x w => (store_seq rb w (w +u 1), PuAdded)
  | PuAdded => (add_added rb, PuRet None None true)
  | EvSeq x r w =>
      let s := seq (slot_at rb r) in
      if s <=? r then (rb, PuDrop)
      else if negb (s =? r +u 1) || negb (w =? r +u capacity rb) then (rb, PuLoadR true x)
      else (rb, EvMark x r w)
  | EvMark x r w =>
      match cas_seq rb r (r +u 1) r with
      | (rb, true) => (rb, EvCAS x r w)
      | (rb, false) => (rb, PuLoadR true x)
      end
  | EvCAS x r w =>
      match cas_readPos rb r (r +u 1) with
      | (rb, true) => (rb, EvOld x r w)
      | (rb, false) => (rb, PuLoadR true x)
      end
  | EvOld x r w => (rb, EvStoreW x r w (item (slot_at rb r)))
  | EvStoreW x r w old => (store_writePos rb (w +u 1), EvItem x r w old)
  | EvItem x r w old => (store_item rb r (Some x), EvPub x r w old)
  | EvPub x r w old => (store_seq rb r (w +u 1), EvRemoved r old)
  | EvRemoved r old => (add_removed rb, EvDropped r old)
  | EvDropped r old => (add_dropped rb, EvAdded r old)
  | EvAdded r old => (add_added rb, PuRet (Some r) old true)
  | PoLoadR wait => (rb, PoLoadW wait (readPos rb))
  | PoLoadW wait r => if writePos rb <=? r then (rb, PoRet None None) else (rb, PoSeq wait r)
  | PoSeq wait r =>
      let s := seq (slot_at rb r) in
      if s <=? r then if negb wait then (rb, PoRet None None) else (rb, PoLoadR wait)
      else if s =? r +u 1 then (rb, PoCAS wait r)
      else (rb, PoLoadR wait)
  | PoCAS wait r =>
      match cas_readPos rb r (r +u 1) with
      | (rb, true) => (rb, PoItem r)
      | (rb, false) => (rb, PoLoadR wait)
      end
  | PoItem r => (rb, PoClear r (item (slot_at rb r)))
  | PoClear r it => (store_item rb r None, PoFree r it)
  | PoFree r it => (store_seq rb r (r +u capacity rb), PoRemoved r it)
  | PoRemoved r it => (add_removed rb, PoRet (Some r) it)
  | PuRet _ _ _ | PoRet _ _ => (rb, p)
  end.

Lemma exec_capacity rb p rb' p' : exec rb p = (rb', p') → capacity rb' = capacity rb.
Proof.
  intros Hex. destruct p; simpl in Hex; simplify_eq; try done;
    unfold cas_writePos, cas_readPos, cas_seq in Hex; repeat case_match; by simplify_eq.
Qed.

Definition returned (p : pc A) : bool :=
  match p with PuRet _ _ _ | PoRet _ _ => true | _ => false end.

(** The first action of a call: [Push x], [PushDropOldest x], [Pop], [TryPop]. *)
Definition entry (p : pc A) : bool :=
  match p with PuLoadR _ _ | PoLoadR _ => true | _ => false end.

(** The items whose write position the next action of [p] claims: the
    linearization point of a push.  It feeds the history, which the code does
    not have. *)
Definition claims rb (p : pc A) : list A :=
  match p with
  | PuCAS _ x w => if writePos rb =? w then [x] else []
  | EvStoreW x _ _ _ => [x]
  | _ => []
  end.

(** The buffer, the goroutines inside it, and the history: the item of every
    claimed write position, in position order. *)
Record config := Config { ring : RingBuffer A; thr : gmap nat (pc A); hist : list A }.

(** One step: a call by a goroutine that is not inside the buffer, or the next
    action of one that is.  The label of an action is the goroutine and its
    program counters before and after. *)
Definition label : Type := nat * pc A * pc A.

Inductive cstep : config → option label → config → Prop :=
| cstep_call c t p :
    entry p = true → (∀ p0, thr c !! t = Some p0 → returned p0 = true) →
    cstep c None (Config (ring c) (<[t := p]> (thr c)) (hist c))
| cstep_run c t p rb' p' :
    thr c !! t = Some p → returned p = false → exec (ring c) p = (rb', p') →
    cstep c (Some (t, p, p')) (Config rb' (<[t := p']> (thr c)) (hist c ++ claims (ring c) p)).

Definition initial (cap : Z) : config := Config (NewRingBuffer cap) ∅ [].

(** The executions of any number of goroutines on a new buffer, with the
    actions they performed in order. *)
Inductive run (cap : Z) : list label → config → Prop :=
| run_nil : run cap [] (initial cap)
| run_call tr c c' : run cap tr c → cstep c None c' → run cap tr c'
| run_act tr c l c' : run cap tr c → cstep c (Some l) c' → run cap (tr ++ [l]) c'.

(** What an action contributed: a claimed write position with its item, a
    claimed read position, a value returned for a claimed read position. *)
Definition put_of (l : label) : option (Z * A) :=
  match l.2 with PuItem x w => Some (w, x) | EvItem x _ w _ => Some (w, x) | _ => None end.
Definition take_of (l : label) : option (nat * Z) :=
  match l.2 with PoItem r => Some (l.1.1, r) | EvOld _ r _ => Some (l.1.1, r) | _ => None end.
Definition return_of (l : label) : option (nat * Z * option A) :=
  match l.2 with
  | PoRet (Some r) v => Some (l.1.1, r, v)
  | PuRet (Some r) v true => Some (l.1.1, r, v)
  | _ => None
  end.

End machine.

(** ** The slot protocol

    The phase of a slot, with the position it is about and its owner. *)
Inductive phase :=
| Free (p : Z)                (* waiting for the writer of p *)
| Filling (p : Z) (t : nat)   (* t claimed p and has not published it *)
| Full (p : Z)                (* holds the published item of p *)
| Marked (p : Z) (t : nat)    (* full, with its sequence number taken back by evictor t *)
| Draining (p : Z) (t : nat)  (* t claimed the item of p and has not released the slot *)
| Evicting (p : Z) (t : nat). (* evictor t claimed the item of p and owns position p+cap *)

Section invariant.
Context {A : Type}.
Implicit Types (c : config (A := A)) (φ : Z → phase).

Definition R c : Z := readPos (ring c).
Definition W c : Z := writePos (ring c).
Definition cap c : Z := capacity (ring c).
Definition sq c (p : Z) : Z := seq (slot_at (ring c) p).
Definition it c (p : Z) : option A := item (slot_at (ring c) p).
(** The item pushed at position [p]. *)
Definition val c (p : Z) : option A := hist c !! Z.to_nat p.

(** A goroutine at [q] fills position [p], whose slot is [s]. *)
Definition filling c (p : Z) (q : pc A) : Prop :=
  match q with
  | PuItem x w => w = p ∧ val c p = Some x ∧ sq c p = p
  | PuPub x w => w = p ∧ val c p = Some x ∧ sq c p = p ∧ it c p = Some x
  | EvItem x r w _ => w = p ∧ w = r + cap c ∧ 0 ≤ r ∧ val c p = Some x ∧ sq c p = r
  | EvPub x r w _ => w = p ∧ w = r + cap c ∧ 0 ≤ r ∧ val c p = Some x ∧ sq c p = r ∧ it c p = Some x
  | _ => False
  end.

Definition draining c (p : Z) (q : pc A) : Prop :=
  match q with
  | PoItem r => r = p ∧ it c p = val c p
  | PoClear r _ => r = p
  | PoFree r _ => r = p ∧ it c p = None
  | _ => False
  end.

Definition evicting c (p : Z) (q : pc A) : Prop :=
  match q with
  | EvOld _ r _ => r = p ∧ it c p = val c p
  | EvStoreW _ r _ _ => r = p
  | _ => False
  end.

(** What the phase of slot [i] says about memory and its owner. *)
Definition phase_ok c (i : Z) (ph : phase) : Prop :=
  match ph with
  | Free p => p mod cap c = i ∧ W c ≤ p < R c + cap c ∧ sq c p = p ∧ it c p = None
  | Filling p t => p mod cap c = i ∧ R c ≤ p < W c ∧ ∃ q, thr c !! t = Some q ∧ filling c p q
  | Full p => p mod cap c = i ∧ R c ≤ p < W c ∧ sq c p = p + 1 ∧ it c p = val c p
  | Marked p t =>
      p mod cap c = i ∧ R c = p ∧ W c = p + cap c ∧ sq c p = p ∧ it c p = val c p ∧
      ∃ x, thr c !! t = Some (EvCAS x p (p + cap c))
  | Draining p t =>
      p mod cap c = i ∧ 0 ≤ p < R c ∧ W c ≤ p + cap c ∧ (sq c p = p + 1 ∨ sq c p = p) ∧
      ∃ q, thr c !! t = Some q ∧ draining c p q
  | Evicting p t =>
      p mod cap c = i ∧ 0 ≤ p < R c ∧ W c = p + cap c ∧ sq c p = p ∧
      ∃ q, thr c !! t = Some q ∧ evicting c p q
  end.

(** What a goroutine at [q] knows: loaded positions are never ahead, a loaded
    sequence number says something as long as the position is still current,
    and an owner owns. *)
Definition thread_ok c φ (t : nat) (q : pc A) : Prop :=
  let slot_phase p := φ (p mod cap c) in
  match q with
  | PuLoadR _ _ | PuDrop | PuAdded | PoLoadR _ => True
  | PuLoadW _ _ r => 0 ≤ r ≤ R c
  | PuSeq _ _ w => 0 ≤ w ≤ W c
  | PuCAS _ _ w => 0 ≤ w ≤ W c ∧ (W c = w → slot_phase w = Free w)
  | PuItem _ w | PuPub _ w => slot_phase w = Filling w t
  | EvSeq _ r w => 0 ≤ r ≤ R c ∧ w ≤ W c
  | EvMark _ r w => 0 ≤ r ≤ R c ∧ w = r + cap c ∧ w ≤ W c
  | EvCAS _ r w => 0 ≤ r ≤ R c ∧ w = r + cap c ∧ (R c = r → slot_phase r = Marked r t)
  | EvOld _ r w => w = r + cap c ∧ slot_phase r = Evicting r t
  | EvStoreW _ r w old =>
      w = r + cap c ∧ slot_phase r = Evicting r t ∧ 0 ≤ r < R c ∧ old = val c r
  | EvItem _ r w old | EvPub _ r w old =>
      w = r + cap c ∧ slot_phase r = Filling w t ∧ 0 ≤ r < R c ∧ old = val c r
  | EvRemoved r old | EvDropped r old | EvAdded r old => 0 ≤ r < R c ∧ old = val c r
  | PoLoadW _ r => 0 ≤ r ≤ R c
  | PoSeq _ r => 0 ≤ r ≤ R c ∧ r < W c
  | PoCAS _ r =>
      0 ≤ r ≤ R c ∧ r < W c ∧
      (R c = r → slot_phase r = Full r ∨ ∃ t', slot_phase r = Marked r t')
  | PoItem r => slot_phase r = Draining r t
  | PoClear r v | PoFree r v => slot_phase r = Draining r t ∧ 0 ≤ r < R c ∧ v = val c r
  | PoRemoved r v => 0 ≤ r < R c ∧ v = val c r
  | PuRet (Some r) old true => 0 ≤ r < R c ∧ old = val c r
  | PuRet _ old _ => old = None
  | PoRet (Some r) v => 0 ≤ r < R c ∧ v = val c r
  | PoRet None v => v = None
  end.

(** The invariant after [n] steps. *)
Record Inv (n : Z) c φ : Prop := {
  inv_geo : geometry (ring c);
  inv_pos : 0 ≤ R c ≤ W c ∧ W c ≤ R c + cap c;
  inv_steps : 0 ≤ n ∧ W c ≤ n;
  inv_hist : Z.of_nat (length (hist c)) = W c;
  inv_slot : ∀ i, 0 ≤ i < cap c → phase_ok c i (φ i);
  inv_thr : ∀ t q, thr c !! t = Some q → thread_ok c φ t q;
}.

Definition owner (ph : phase) : option nat :=
  match ph with
  | Free _ | Full _ => None
  | Filling _ t | Marked _ t | Draining _ t | Evicting _ t => Some t
  end.

(** The position a goroutine may own. *)
Definition owned (q : pc A) : option Z :=
  match q with
  | PuItem _ w | PuPub _ w | EvItem _ _ w _ | EvPub _ _ w _ => Some w
  | EvCAS _ r _ | EvOld _ r _ | EvStoreW _ r _ _ => Some r
  | PoItem r | PoClear r _ | PoFree r _ => Some r
  | _ => None
  end.

Lemma owner_owned c i ph t q :
  phase_ok c i ph → owner ph = Some t → thr c !! t = Some q →
  ∃ p, owned q = Some p ∧ i = p mod cap c.
Proof.
  intros Hph Ho Hq. destruct ph; simpl in *; simplify_eq.
  - destruct Hph as (<- & _ & q' & Hq' & Hf). assert (q' = q) as -> by congruence.
    destruct q; simpl in *; try done; destruct_and?; subst; eauto.
  - destruct Hph as (<- & _ & _ & _ & _ & x & Hx). simplify_eq. by eexists.
  - destruct Hph as (<- & _ & _ & _ & q' & Hq' & Hf). assert (q' = q) as -> by congruence.
    destruct q; simpl in *; try done; destruct_and?; subst; eauto.
  - destruct Hph as (<- & _ & _ & _ & q' & Hq' & Hf). assert (q' = q) as -> by congruence.
    destruct q; simpl in *; try done; destruct_and?; subst; eauto.
Qed.

(** A step of goroutine [t] that may change the slot of residue [i] only. *)
Record frame c c' (t : nat) (q' : pc A) (i : Z) : Prop := {
  fr_cap : cap c' = cap c;
  fr_geo : geometry (ring c');
  fr_thr : thr c' = <[t := q']> (thr c);
  fr_slot : ∀ p, p mod cap c ≠ i → slot_at (ring c') p = slot_at (ring c) p;
  fr_val : ∀ p, 0 ≤ p < W c → val c' p = val c p;
}.

Lemma frame_filling c c' t q' i p q :
  frame c c' t q' i → p mod cap c ≠ i → 0 ≤ p < W c → filling c p q → filling c' p q.
Proof.
  intros [Hc _ _ Hs Hv] Hp Hw. unfold filling, sq, it.
  destruct q; try done; rewrite ?Hs, ?Hv, ?Hc by done; done.
Qed.

Lemma frame_draining c c' t q' i p q :
  frame c c' t q' i → p mod cap c ≠ i → 0 ≤ p < W c → draining c p q → draining c' p q.
Proof.
  intros [Hc _ _ Hs Hv] Hp Hw. unfold draining, it.
  destruct q; try done; rewrite ?Hs, ?Hv by done; done.
Qed.

Lemma frame_evicting c c' t q' i p q :
  frame c c' t q' i → p mod cap c ≠ i → 0 ≤ p < W c → evicting c p q → evicting c' p q.
Proof.
  intros [Hc _ _ Hs Hv] Hp Hw. unfold evicting, it.
  destruct q; try done; rewrite ?Hs, ?Hv by done; done.
Qed.

(** The phases of the other slots survive a step that moves [readPos] or
    [writePos] by at most one, past a position of residue [i]. *)
Lemma frame_phase c c' t q' i j ph :
  frame c c' t q' i → 0 ≤ R c ≤ W c → j ≠ i → owner ph ≠ Some t →
  (R c' = R c ∨ R c' = R c + 1 ∧ R c mod cap c = i) →
  (W c' = W c ∨ W c' = W c + 1 ∧ W c mod cap c = i) →
  phase_ok c j ph → phase_ok c' j ph.
Proof.
  intros Hf HRW Hj Ho HR HW. pose proof (geometry_cap _ (fr_geo _ _ _ _ _ Hf)) as Hcap.
  change (capacity (ring c')) with (cap c') in Hcap.
  pose proof (fr_cap _ _ _ _ _ Hf) as Hc. pose proof (fr_slot _ _ _ _ _ Hf) as Hs.
  pose proof (fr_thr _ _ _ _ _ Hf) as Ht. pose proof (fr_val _ _ _ _ _ Hf) as Hv.
  rewrite Hc in Hcap.
  assert (HWc : ∀ p, p mod cap c = j → W c' = W c + 1 → W c mod cap c = i → W c ≠ p + cap c).
  { intros p Hp _ Hi HW0. rewrite HW0, mod_add_cap in Hi by lia. congruence. }
  assert (Hne : ∀ p, p mod cap c = j → p mod cap c ≠ i) by congruence.
  destruct ph as [p|p u|p|p u|p u|p u]; unfold phase_ok, sq, it; simpl in Ho; rewrite Hc.
  - intros (Hp & Hb & Hsq & Hit). rewrite Hs by auto. repeat split; try done; [|lia].
    assert (W c mod cap c = i → W c ≠ p) by congruence. lia.
  - intros (Hp & Hb & q & Hq & Hfl). repeat split; try done; [|lia|].
    + assert (R c mod cap c = i → R c ≠ p) by congruence. lia.
    + exists q. rewrite Ht, lookup_insert_ne by congruence. split; [done|].
      eapply frame_filling; eauto. lia.
  - intros (Hp & Hb & Hsq & Hit). rewrite Hs, Hv by (auto || lia). repeat split; try done; [|lia].
    assert (R c mod cap c = i → R c ≠ p) by congruence. lia.
  - intros (Hp & Hb & Hw & Hsq & Hit & x & Hx). rewrite Hs, Hv by (auto || lia).
    assert (R c mod cap c = i → R c ≠ p) by congruence. specialize (HWc p Hp).
    repeat split; try done; [lia..|]. exists x. rewrite Ht, lookup_insert_ne by congruence. done.
  - intros (Hp & Hb & Hw & Hsq & q & Hq & Hfl). rewrite Hs by auto. specialize (HWc p Hp).
    repeat split; try done; [lia..|]. exists q. rewrite Ht, lookup_insert_ne by congruence.
    split; [done|]. eapply frame_draining; eauto. lia.
  - intros (Hp & Hb & Hw & Hsq & q & Hq & Hfl). rewrite Hs by auto. specialize (HWc p Hp).
    repeat split; try done; [lia..|]. exists q. rewrite Ht, lookup_insert_ne by congruence.
    split; [done|]. eapply frame_evicting; eauto. lia.
Qed.

(** The phase changes a step of [t] makes to its slot, as the other goroutines
    see them. *)
Definition compat c c' (t : nat) (ph ph' : phase) : Prop :=
  ph' = ph ∨
  match ph with
  | Free p => W c' = W c + 1
  | Full p => ph' = Marked p t ∨ R c' = R c + 1
  | Marked p u => R c' = R c + 1
  | Filling _ u | Draining _ u | Evicting _ u => u = t
  end.

Lemma frame_thread c c' φ φ' t q' i t' q :
  frame c c' t q' i → t' ≠ t → 0 ≤ R c ≤ W c →
  (R c' = R c ∨ R c' = R c + 1) → (W c' = W c ∨ W c' = W c + 1) →
  (∀ j, j ≠ i → φ' j = φ j) → compat c c' t (φ i) (φ' i) →
  thread_ok c φ t' q → thread_ok c' φ' t' q.
Proof.
  intros Hf Ht HRW HR HW Hφ Hcm. pose proof (fr_val _ _ _ _ _ Hf) as Hv.
  pose proof (fr_cap _ _ _ _ _ Hf) as Hc.
  assert (Hch : ∀ p ph, φ (p mod cap c) = ph →
    φ' (p mod cap c) = ph ∨ compat c c' t ph (φ' (p mod cap c))).
  { intros p ph Hp. destruct (decide (p mod cap c = i)) as [<-|].
    - right. by rewrite <-Hp.
    - left. by rewrite Hφ. }
  assert (Hown : ∀ p ph, φ (p mod cap c) = ph → owner ph = Some t' →
    (match ph with Marked _ _ => False | _ => True end) → φ' (p mod cap c) = ph).
  { intros p ph Hp Ho Hm. destruct (Hch p ph Hp) as [|[|Hx]]; try done.
    destruct ph; simpl in *; simplify_eq; done. }
  assert (Hfree : ∀ w, W c' = w → w ≤ W c → (W c = w → φ (w mod cap c) = Free w) →
    φ' (w mod cap c) = Free w).
  { intros w H1 H2 H3. destruct (Hch w (Free w)) as [|[|Hx]]; [apply H3; lia|done|done|].
    simpl in Hx. lia. }
  assert (Hmark : ∀ r u, R c' = r → r ≤ R c → φ (r mod cap c) = Marked r u →
    φ' (r mod cap c) = Marked r u).
  { intros r u H1 H2 H3. destruct (Hch r _ H3) as [|[|Hx]]; [done..|]. simpl in Hx. lia. }
  assert (Hfull : ∀ r, R c' = r → r ≤ R c → φ (r mod cap c) = Full r →
    φ' (r mod cap c) = Full r ∨ φ' (r mod cap c) = Marked r t).
  { intros r H1 H2 H3. destruct (Hch r _ H3) as [|[|[Hx|Hx]]]; [auto..|lia]. }
  destruct q as [d x|d x r| |o e b|d x w|d x w|x w|x w| |x r w|x r w|x r w|x r w|x r w old|x r w old
    |x r w old|r old|r old|r old|b|b r|b r|b r|r|r v|r v|r v|[r|] v];
    unfold thread_ok; rewrite ?Hc; try done; try lia; try (by eauto);
    try (intros (? & ->); rewrite ?Hv by lia; (split; [lia|done]));
    try (intros (? & Hp & ? & ->); rewrite ?Hv by lia; apply Hown in Hp; [repeat split; (done || lia)|done..]);
    try (intros (Hp & ? & ->); rewrite ?Hv by lia; apply Hown in Hp; [repeat split; (done || lia)|done..]).
  - destruct o as [r|]; [|done]. destruct b; [|done].
    intros (? & ->). rewrite Hv by lia. split; [lia|done].
  - intros (? & Hp). split; [lia|]. intros. apply Hfree; (done || lia).
  - intros (? & ? & Hp). split; [lia|]. split; [done|]. intros. apply Hmark; [done|lia|].
    apply Hp. lia.
  - intros (? & Hp). split; [done|]. by apply Hown.
  - intros (? & ? & Hp). split; [lia|]. split; [lia|]. intros.
    destruct Hp as [Hp|[u Hp]]; [lia| |].
    + destruct (Hfull r) as [|]; eauto; lia.
    + right. exists u. apply Hmark; (done || lia).
Qed.

(** Preservation, reduced to the changed slot and the running goroutine. *)
Lemma inv_frame n c c' φ φ' t q' i :
  Inv n c φ → frame c c' t q' i →
  (∀ j, 0 ≤ j < cap c → j ≠ i → owner (φ j) ≠ Some t) →
  (R c' = R c ∨ R c' = R c + 1 ∧ R c mod cap c = i) →
  (W c' = W c ∨ W c' = W c + 1 ∧ W c mod cap c = i) →
  R c' ≤ W c' ≤ R c' + cap c → Z.of_nat (length (hist c')) = W c' →
  (∀ j, j ≠ i → φ' j = φ j) → compat c c' t (φ i) (φ' i) →
  (0 ≤ i < cap c → phase_ok c' i (φ' i)) → thread_ok c' φ' t q' →
  Inv (n + 1) c' φ'.
Proof.
  intros [Hg Hp Hn Hh Hs Ht] Hf Ho HR HW HRW Hl Hφ Hcm Hi Htq.
  pose proof (fr_cap _ _ _ _ _ Hf) as Hc. split.
  - apply Hf.
  - rewrite Hc. lia.
  - lia.
  - done.
  - intros j Hj. rewrite Hc in Hj. destruct (decide (j = i)) as [->|]; [auto|].
    rewrite Hφ by done. eapply frame_phase; eauto; lia.
  - intros t' q Hq. rewrite (fr_thr _ _ _ _ _ Hf) in Hq. destruct (decide (t' = t)) as [->|].
    + rewrite lookup_insert_eq in Hq. by simplify_eq.
    + rewrite lookup_insert_ne in Hq by done. eapply frame_thread; eauto; [lia|intuition|intuition].
Qed.

Lemma inv_not_owner n c φ t :
  Inv n c φ → (∀ q, thr c !! t = Some q → owned q = None) →
  ∀ j, 0 ≤ j < cap c → owner (φ j) ≠ Some t.
Proof.
  intros HI Hq j Hj Ho. pose proof (inv_slot _ _ _ HI j Hj) as Hph.
  destruct (thr c !! t) as [q|] eqn:E.
  - destruct (owner_owned _ _ _ _ _ Hph Ho E) as (p & Hp & _). by rewrite (Hq q) in Hp.
  - destruct (φ j); simpl in Ho; try done; injection Ho as ->; simpl in Hph;
      rewrite E in Hph; repeat destruct Hph as (? & Hph); done.
Qed.

(** A step that leaves slots, positions and history alone. *)
Lemma inv_local n c φ t rb' q' :
  Inv n c φ →
  (∀ j, 0 ≤ j < cap c → owner (φ j) ≠ Some t) →
  slots rb' = slots (ring c) → capacity rb' = cap c → mask rb' = mask (ring c) →
  readPos rb' = R c → writePos rb' = W c →
  thread_ok c φ t q' →
  Inv (n + 1) (Config rb' (<[t := q']> (thr c)) (hist c)) φ.
Proof.
  intros HI Ho Hs Hc Hm HR HW Htq. set (c' := Config _ _ _).
  assert (Hsl : ∀ p, slot_at rb' p = slot_at (ring c) p).
  { intros p. unfold slot_at, slot_index. by rewrite Hs, Hm. }
  apply (inv_frame n c c' φ φ t q' (-1)); [done| |auto|left; apply HR|left; apply HW| | |done| |lia|].
  - split; try done. destruct (inv_geo _ _ _ HI) as [G1 G2 G3].
    split; simpl; rewrite ?Hc, ?Hm, ?Hs; done.
  - change (R c') with (readPos rb'). change (W c') with (writePos rb').
    pose proof (inv_pos _ _ _ HI). lia.
  - simpl. change (W c') with (writePos rb'). rewrite HW. apply HI.
  - by left.
  - revert Htq. unfold thread_ok. change (val c') with (val c).
    change (cap c') with (capacity rb'). rewrite Hc.
    change (R c') with (readPos rb'). change (W c') with (writePos rb'). by rewrite HR, HW.
Qed.

Definition upd φ (i : Z) (ph : phase) : Z → phase := λ j, if decide (j = i) then ph else φ j.

Lemma upd_eq φ i ph : upd φ i ph i = ph.
Proof. unfold upd. by rewrite decide_True. Qed.
Lemma upd_ne φ i j ph : j ≠ i → upd φ i ph j = φ j.
Proof. intros. unfold upd. by rewrite decide_False. Qed.

Lemma inv_residue n c φ p : Inv n c φ → 0 ≤ p mod cap c < cap c.
Proof. intros HI. apply Z.mod_pos_bound. pose proof (geometry_cap _ (inv_geo _ _ _ HI)). unfold cap. lia. Qed.

Lemma inv_phase n c φ p ph : Inv n c φ → φ (p mod cap c) = ph → phase_ok c (p mod cap c) ph.
Proof. intros HI <-. apply HI. by eapply inv_residue. Qed.

Lemma inv_owner_unique n c φ t q p :
  Inv n c φ → thr c !! t = Some q → owned q = Some p →
  ∀ j, 0 ≤ j < cap c → j ≠ p mod cap c → owner (φ j) ≠ Some t.
Proof.
  intros HI Hq Hp j Hj Hne Ho. pose proof (inv_slot _ _ _ HI j Hj) as Hph.
  destruct (owner_owned _ _ _ _ _ Hph Ho Hq) as (p' & ? & ?). congruence.
Qed.

(** A step of [t] on the slot of [p] that moves neither position. *)
Lemma inv_slot_step n c φ t rb' q' p ph' :
  Inv n c φ →
  (∀ j, 0 ≤ j < cap c → j ≠ p mod cap c → owner (φ j) ≠ Some t) →
  geometry rb' → capacity rb' = cap c → readPos rb' = R c → writePos rb' = W c →
  (∀ p', p' mod cap c ≠ p mod cap c → slot_at rb' p' = slot_at (ring c) p') →
  let c' := Config rb' (<[t := q']> (thr c)) (hist c) in
  let φ' := upd φ (p mod cap c) ph' in
  compat c c' t (φ (p mod cap c)) ph' →
  phase_ok c' (p mod cap c) ph' → thread_ok c' φ' t q' →
  Inv (n + 1) c' φ'.
Proof.
  intros HI Ho Hg Hc HR HW Hs c' φ' Hcm Hph Htq.
  apply (inv_frame n c c' φ φ' t q' (p mod cap c)); try done.
  - left. apply HR.
  - left. apply HW.
  - change (R c') with (readPos rb'). change (W c') with (writePos rb').
    pose proof (inv_pos _ _ _ HI). lia.
  - simpl. change (W c') with (writePos rb'). rewrite HW. apply HI.
  - intros. by apply upd_ne.
  - subst φ'. by rewrite upd_eq.
  - subst φ'. by rewrite upd_eq.
Qed.

(** A step of [t] that advances a position and hands the slot of [p] to [t]. *)
Lemma inv_claim_step n c φ t rb' q' p ph' h :
  Inv n c φ →
  (∀ j, 0 ≤ j < cap c → j ≠ p mod cap c → owner (φ j) ≠ Some t) →
  slots rb' = slots (ring c) → capacity rb' = cap c → mask rb' = mask (ring c) →
  (readPos rb' = R c ∨ readPos rb' = R c + 1 ∧ R c mod cap c = p mod cap c) →
  (writePos rb' = W c ∨ writePos rb' = W c + 1 ∧ W c mod cap c = p mod cap c) →
  readPos rb' ≤ writePos rb' ≤ readPos rb' + cap c →
  Z.of_nat (length h) = writePos rb' → (∃ k, h = hist c ++ k) →
  let c' := Config rb' (<[t := q']> (thr c)) h in
  let φ' := upd φ (p mod cap c) ph' in
  compat c c' t (φ (p mod cap c)) ph' →
  phase_ok c' (p mod cap c) ph' → thread_ok c' φ' t q' →
  Inv (n + 1) c' φ'.
Proof.
  intros HI Ho Hs Hc Hm HR HW HRW Hl [k ->] c' φ' Hcm Hph Htq.
  apply (inv_frame n c c' φ φ' t q' (p mod cap c)); try done.
  - split; try done.
    + destruct (inv_geo _ _ _ HI) as [G1 G2 G3]. split; simpl; rewrite ?Hc, ?Hm, ?Hs; done.
    + intros p' _. unfold slot_at, slot_index. simpl. by rewrite Hs, Hm.
    + intros p' Hp'. unfold val. simpl. apply lookup_app_l.
      pose proof (inv_hist _ _ _ HI). lia.
  - intros. by apply upd_ne.
  - subst φ'. by rewrite upd_eq.
  - subst φ'. by rewrite upd_eq.
Qed.

(** Positions stay far from the wrap-around for the number of steps considered. *)
Definition small (n : Z) c : Prop := n + cap c + 1 < 2 ^ 64.

Lemma inv_u64 n c φ p :
  Inv n c φ → small n c → 0 ≤ p ≤ W c → u64 (p + 1) = p + 1 ∧ u64 (p + cap c) = p + cap c.
Proof.
  intros HI Hs Hp. pose proof (inv_steps _ _ _ HI). pose proof (geometry_cap _ (inv_geo _ _ _ HI)).
  unfold small, cap in *. split; apply u64_small; lia.
Qed.

Lemma inv_cap n c φ : Inv n c φ → 2 ≤ cap c ≤ 2 ^ 63.
Proof. intros HI. apply geometry_cap, HI. Qed.

Lemma step_PuCAS n c φ t d x w :
  Inv n c φ → small n c → thr c !! t = Some (PuCAS d x w) → W c = w →
  Inv (n + 1) (Config (store_writePos (ring c) (w +u 1)) (<[t := PuItem x w]> (thr c))
    (hist c ++ [x])) (upd φ (w mod cap c) (Filling w t)).
Proof.
  intros HI Hsm Hq HW. pose proof (inv_pos _ _ _ HI). pose proof (inv_hist _ _ _ HI) as Hh.
  destruct (inv_thr _ _ _ HI _ _ Hq) as [Hw Hfree]. specialize (Hfree HW).
  destruct (inv_u64 n c φ w HI Hsm ltac:(lia)) as [-> _].
  destruct (inv_phase _ _ _ _ _ HI Hfree) as (_ & Hb & Hsq & _).
  apply (inv_claim_step n c φ t _ _ w); try done; simpl; try lia.
  - intros j Hj _. eapply inv_not_owner; eauto. intros q Hq'. by simplify_eq.
  - by left.
  - right. by rewrite HW.
  - fold (R c). lia.
  - rewrite length_app. simpl. lia.
  - eauto.
  - right. rewrite Hfree. change (w + 1 = W c + 1). lia.
  - split; [done|]. split; [change (R c ≤ w < w + 1); lia|].
    eexists. rewrite lookup_insert_eq. split; [done|]. simpl. split; [done|]. split; [|done].
    unfold val; simpl. rewrite lookup_app_r by lia. by replace (Z.to_nat w - length (hist c))%nat with 0%nat by lia.
  - unfold cap at 1 2. simpl. by rewrite upd_eq.
Qed.

Lemma slot_at_store_item_same rb p v :
  geometry rb → slot_at (store_item (A := A) rb p v) p = Slot (seq (slot_at rb p)) v.
Proof. intros Hg. rewrite slot_at_store_item by done. by rewrite decide_True. Qed.

Lemma slot_at_store_seq_same rb p v :
  geometry rb → slot_at (store_seq (A := A) rb p v) p = Slot v (item (slot_at rb p)).
Proof. intros Hg. rewrite slot_at_store_seq by done. by rewrite decide_True. Qed.

Lemma slot_at_store_item_ne rb p p' v :
  geometry rb → p' mod capacity rb ≠ p mod capacity rb →
  slot_at (store_item (A := A) rb p v) p' = slot_at rb p'.
Proof. intros Hg Hne. rewrite slot_at_store_item by done. by rewrite decide_False. Qed.

Lemma slot_at_store_seq_ne rb p p' v :
  geometry rb → p' mod capacity rb ≠ p mod capacity rb →
  slot_at (store_seq (A := A) rb p v) p' = slot_at rb p'.
Proof. intros Hg Hne. rewrite slot_at_store_seq by done. by rewrite decide_False. Qed.

(** A store into [item] or [seq] of the slot of [p] by [t]. *)
Lemma inv_store_item n c φ t q q' p v ph' :
  Inv n c φ → thr c !! t = Some q → owned q = Some p →
  let c' := Config (store_item (ring c) p v) (<[t := q']> (thr c)) (hist c) in
  compat c c' t (φ (p mod cap c)) ph' →
  phase_ok c' (p mod cap c) ph' → thread_ok c' (upd φ (p mod cap c) ph') t q' →
  Inv (n + 1) c' (upd φ (p mod cap c) ph').
Proof.
  intros HI Hq Ho c'. apply inv_slot_step; try done.
  - by eapply inv_owner_unique.
  - apply geometry_store_item, HI.
  - intros p' Hp'. apply slot_at_store_item_ne; [apply HI|done].
Qed.

Lemma inv_store_seq n c φ t q' p v ph' :
  Inv n c φ →
  (∀ j, 0 ≤ j < cap c → j ≠ p mod cap c → owner (φ j) ≠ Some t) →
  let c' := Config (store_seq (ring c) p v) (<[t := q']> (thr c)) (hist c) in
  compat c c' t (φ (p mod cap c)) ph' →
  phase_ok c' (p mod cap c) ph' → thread_ok c' (upd φ (p mod cap c) ph') t q' →
  Inv (n + 1) c' (upd φ (p mod cap c) ph').
Proof.
  intros HI Ho c'. apply inv_slot_step; try done.
  - apply geometry_store_seq, HI.
  - intros p' Hp'. apply slot_at_store_seq_ne; [apply HI|done].
Qed.

Lemma store_item_mod rb p p' v :
  geometry rb → p mod capacity rb = p' mod capacity rb →
  store_item (A := A) rb p v = store_item rb p' v.
Proof.
  intros Hg Hm. unfold store_item, set_slot. rewrite (slot_at_mod rb p p') by done.
  by rewrite (proj2 (slot_index_eq rb p p' Hg) Hm).
Qed.

Lemma store_seq_mod rb p p' v :
  geometry rb → p mod capacity rb = p' mod capacity rb →
  store_seq (A := A) rb p v = store_seq rb p' v.
Proof.
  intros Hg Hm. unfold store_seq, set_slot. rewrite (slot_at_mod rb p p') by done.
  by rewrite (proj2 (slot_index_eq rb p p' Hg) Hm).
Qed.

Lemma step_PuItem n c φ t x w :
  Inv n c φ → thr c !! t = Some (PuItem x w) →
  Inv (n + 1) (Config (store_item (ring c) w (Some x)) (<[t := PuPub x w]> (thr c)) (hist c))
    (upd φ (w mod cap c) (Filling w t)).
Proof.
  intros HI Hq. pose proof (inv_thr _ _ _ HI _ _ Hq) as Hph. simpl in Hph.
  destruct (inv_phase _ _ _ _ _ HI Hph) as (_ & Hb & q & Hq' & Hf). simplify_eq.
  destruct Hf as (_ & Hv & Hs).
  apply (inv_store_item n c φ t (PuItem x w)); try done.
  - left. by rewrite Hph.
  - split; [done|]. split; [done|]. eexists. simpl. rewrite lookup_insert_eq. split; [done|].
    unfold filling, sq, it. simpl. rewrite slot_at_store_item_same by apply HI. done.
  - simpl. apply upd_eq.
Qed.

Lemma step_PuPub n c φ t x w :
  Inv n c φ → small n c → thr c !! t = Some (PuPub x w) →
  Inv (n + 1) (Config (store_seq (ring c) w (w +u 1)) (<[t := PuAdded]> (thr c)) (hist c))
    (upd φ (w mod cap c) (Full w)).
Proof.
  intros HI Hsm Hq. pose proof (inv_thr _ _ _ HI _ _ Hq) as Hph. simpl in Hph.
  destruct (inv_phase _ _ _ _ _ HI Hph) as (_ & Hb & q & Hq' & Hf). simplify_eq.
  destruct Hf as (_ & Hv & Hs & Hit). pose proof (inv_pos _ _ _ HI).
  destruct (inv_u64 n c φ w HI Hsm ltac:(lia)) as [-> _].
  apply inv_store_seq; try done.
  - by eapply inv_owner_unique.
  - right. by rewrite Hph.
  - split; [done|]. split; [done|]. unfold sq, it. simpl.
    rewrite slot_at_store_seq_same by apply HI. split; [done|]. exact (eq_trans Hit (eq_sym Hv)).
Qed.

Lemma step_EvOld n c φ t x r w :
  Inv n c φ → thr c !! t = Some (EvOld x r w) →
  Inv (n + 1) (Config (ring c) (<[t := EvStoreW x r w (it c r)]> (thr c)) (hist c))
    (upd φ (r mod cap c) (Evicting r t)).
Proof.
  intros HI Hq. destruct (inv_thr _ _ _ HI _ _ Hq) as [Hw Hph].
  destruct (inv_phase _ _ _ _ _ HI Hph) as (_ & Hb & HW & Hs & q & Hq' & Hf). simplify_eq.
  destruct Hf as (_ & Hit).
  apply inv_slot_step; try done.
  - by eapply inv_owner_unique.
  - apply HI.
  - left. by rewrite Hph.
  - do 4 (split; [done|]). eexists. simpl. by rewrite lookup_insert_eq.
  - split; [done|]. split; [apply upd_eq|]. split; [done|]. by rewrite Hit.
Qed.

Lemma step_EvStoreW n c φ t x r w old :
  Inv n c φ → small n c → thr c !! t = Some (EvStoreW x r w old) →
  Inv (n + 1) (Config (store_writePos (ring c) (w +u 1)) (<[t := EvItem x r w old]> (thr c))
    (hist c ++ [x])) (upd φ (w mod cap c) (Filling w t)).
Proof.
  intros HI Hsm Hq. destruct (inv_thr _ _ _ HI _ _ Hq) as (Hw & Hph & Hr & Hold).
  destruct (inv_phase _ _ _ _ _ HI Hph) as (_ & Hb & HW & Hs & q & Hq' & Hf). simplify_eq.
  pose proof (inv_pos _ _ _ HI). pose proof (inv_hist _ _ _ HI) as Hh.
  pose proof (inv_cap _ _ _ HI).
  destruct (inv_u64 n c φ (r + cap c) HI Hsm ltac:(lia)) as [-> _].
  assert (Hmod : (r + cap c) mod cap c = r mod cap c) by (apply mod_add_cap; lia).
  assert (Hlen : Z.to_nat (r + cap c) = length (hist c)) by lia.
  apply (inv_claim_step n c φ t _ _ (r + cap c)); try done; simpl; try lia.
  - rewrite Hmod. by eapply inv_owner_unique.
  - by left.
  - right. by rewrite HW.
  - fold (R c). lia.
  - rewrite length_app. simpl. lia.
  - eauto.
  - right. by rewrite Hmod, Hph.
  - split; [done|]. split; [change (R c ≤ r + cap c < r + cap c + 1); lia|].
    eexists. rewrite lookup_insert_eq. split; [done|]. simpl. repeat (split; [done||lia|]).
    split.
    + unfold val; simpl. rewrite lookup_app_r by lia. by rewrite Hlen, Nat.sub_diag.
    + unfold sq. simpl. unfold store_writePos. rewrite slot_at_fields.
      rewrite (slot_at_mod _ _ r) by (apply HI || done). done.
  - split; [done|]. split; [|split; [done|]].
    + change (cap (Config _ _ _)) with (cap c). rewrite <-Hmod. apply upd_eq.
    + unfold val. simpl. by rewrite lookup_app_l by lia.
Qed.

Lemma step_EvItem n c φ t x r w old :
  Inv n c φ → thr c !! t = Some (EvItem x r w old) →
  Inv (n + 1) (Config (store_item (ring c) r (Some x)) (<[t := EvPub x r w old]> (thr c)) (hist c))
    (upd φ (w mod cap c) (Filling w t)).
Proof.
  intros HI Hq. destruct (inv_thr _ _ _ HI _ _ Hq) as (Hw & Hph & Hr & Hold).
  pose proof (inv_cap _ _ _ HI).
  assert (Hmod : w mod cap c = r mod cap c) by (subst w; apply mod_add_cap; lia).
  rewrite <-Hmod in Hph.
  destruct (inv_phase _ _ _ _ _ HI Hph) as (_ & Hb & q & Hq' & Hf).
  assert (q = EvItem x r w old) as -> by congruence. destruct Hf as (_ & _ & _ & Hv & Hs).
  rewrite (store_item_mod _ r w) by (apply HI || done).
  apply (inv_store_item n c φ t (EvItem x r w old)); try done.
  - left. by rewrite Hph.
  - split; [done|]. split; [done|]. eexists. simpl. rewrite lookup_insert_eq. split; [done|].
    unfold filling, sq, it. simpl. rewrite slot_at_store_item_same by apply HI.
    repeat (split; [done||lia|]). done.
  - split; [done|]. split; [|done]. change (cap (Config _ _ _)) with (cap c). rewrite <-Hmod.
    apply upd_eq.
Qed.

Lemma step_EvPub n c φ t x r w old :
  Inv n c φ → small n c → thr c !! t = Some (EvPub x r w old) →
  Inv (n + 1) (Config (store_seq (ring c) r (w +u 1)) (<[t := EvRemoved r old]> (thr c)) (hist c))
    (upd φ (w mod cap c) (Full w)).
Proof.
  intros HI Hsm Hq. destruct (inv_thr _ _ _ HI _ _ Hq) as (Hw & Hph & Hr & Hold).
  pose proof (inv_cap _ _ _ HI). pose proof (inv_pos _ _ _ HI).
  assert (Hmod : w mod cap c = r mod cap c) by (subst w; apply mod_add_cap; lia).
  rewrite <-Hmod in Hph.
  destruct (inv_phase _ _ _ _ _ HI Hph) as (_ & Hb & q & Hq' & Hf).
  assert (q = EvPub x r w old) as -> by congruence. destruct Hf as (_ & _ & _ & Hv & Hs & Hit).
  destruct (inv_u64 n c φ w HI Hsm ltac:(lia)) as [-> _].
  rewrite (store_seq_mod _ r w) by (apply HI || done).
  apply inv_store_seq; try done.
  - by eapply inv_owner_unique.
  - right. by rewrite Hph.
  - split; [done|]. split; [done|]. unfold sq, it. simpl.
    rewrite slot_at_store_seq_same by apply HI. split; [done|]. exact (eq_trans Hit (eq_sym Hv)).
Qed.

Lemma sq_mod n c φ p p' : Inv n c φ → p mod cap c = p' mod cap c → sq c p = sq c p'.
Proof. intros HI Hm. unfold sq. by rewrite (slot_at_mod _ p p') by (apply HI || done). Qed.

(** A published sequence number names a slot that is full or being drained. *)
Lemma published_phase n c φ r :
  Inv n c φ → sq c r = r + 1 →
  φ (r mod cap c) = Full r ∨ ∃ u, φ (r mod cap c) = Draining r u.
Proof.
  intros HI Hsq. pose proof (inv_cap _ _ _ HI) as Hc.
  pose proof (inv_phase _ _ _ r _ HI eq_refl) as Hph.
  assert (Hno : ∀ p, p mod cap c = r mod cap c → sq c p ≠ p).
  { intros p Hm Hp. rewrite (sq_mod _ _ _ p r HI Hm), Hsq in Hp.
    by apply (mod_succ_ne (cap c) r p); [lia|..]. }
  assert (Heq : ∀ p, p mod cap c = r mod cap c → sq c p = p + 1 → p = r).
  { intros p Hm Hp. rewrite (sq_mod _ _ _ p r HI Hm), Hsq in Hp. lia. }
  destruct (φ (r mod cap c)) as [p|p u|p|p u|p u|p u]; simpl in Hph.
  - destruct Hph as (Hm & _ & Hp & _). by apply Hno in Hp.
  - destruct Hph as (Hm & _ & q & _ & Hf). destruct q; simpl in Hf; try done; destruct_and!.
    1,2: exfalso; by eapply Hno.
    all: exfalso; assert (Hr : r0 mod cap c = r mod cap c)
           by (rewrite <-Hm; subst p w; symmetry; apply mod_add_cap; lia);
         apply (Hno r0 Hr); rewrite <-(sq_mod _ _ _ p r0 HI) by congruence; done.
  - destruct Hph as (Hm & _ & Hp & _). left. f_equal. by apply Heq.
  - destruct Hph as (Hm & _ & _ & Hp & _). by apply Hno in Hp.
  - destruct Hph as (Hm & _ & _ & [Hp|Hp] & _).
    + right. exists u. f_equal. by apply Heq.
    + by apply Hno in Hp.
  - destruct Hph as (Hm & _ & _ & Hp & _). by apply Hno in Hp.
Qed.

Lemma step_EvMark n c φ t x r w :
  Inv n c φ → thr c !! t = Some (EvMark x r w) → sq c r = r + 1 →
  ∃ φ', Inv (n + 1) (Config (store_seq (ring c) r r) (<[t := EvCAS x r w]> (thr c)) (hist c)) φ'.
Proof.
  intros HI Hq Hsq. destruct (inv_thr _ _ _ HI _ _ Hq) as (Hr & Hw & HwW).
  pose proof (inv_pos _ _ _ HI).
  assert (Ho : ∀ j, 0 ≤ j < cap c → j ≠ r mod cap c → owner (φ j) ≠ Some t).
  { intros j Hj _. eapply inv_not_owner; eauto. intros q Hq'. by simplify_eq. }
  destruct (published_phase _ _ _ _ HI Hsq) as [Hph|[u Hph]];
    pose proof (inv_phase _ _ _ _ _ HI Hph) as Hok; simpl in Hok.
  - destruct Hok as (_ & Hb & _ & Hit). assert (R c = r ∧ W c = r + cap c) as [HR HW] by lia.
    exists (upd φ (r mod cap c) (Marked r t)). apply inv_store_seq; try done.
    + right. rewrite Hph. by left.
    + split; [done|]. split; [done|]. split; [done|]. unfold sq, it. simpl.
      rewrite slot_at_store_seq_same by apply HI. split; [done|]. split; [done|].
      exists x. by rewrite lookup_insert_eq, Hw.
    + split; [done|]. split; [done|]. intros _. apply upd_eq.
  - destruct Hok as (_ & Hb & HW & _ & q & Hqu & Hd). assert (u ≠ t).
    { intros ->. simplify_eq. done. }
    exists (upd φ (r mod cap c) (Draining r u)). apply inv_store_seq; try done.
    + by left.
    + split; [done|]. split; [done|]. split; [done|]. unfold sq. simpl.
      rewrite slot_at_store_seq_same by apply HI. split; [by right|].
      exists q. rewrite lookup_insert_ne by done. split; [done|].
      destruct q; simpl in Hd |- *; try done; unfold it in *; simpl;
        rewrite slot_at_store_seq_same by apply HI; done.
    + split; [done|]. split; [done|]. intros HR. change (R c = r) in HR. lia.
Qed.

Lemma step_EvCAS n c φ t x r w :
  Inv n c φ → small n c → thr c !! t = Some (EvCAS x r w) → R c = r →
  Inv (n + 1) (Config (store_readPos (ring c) (r +u 1)) (<[t := EvOld x r w]> (thr c)) (hist c))
    (upd φ (r mod cap c) (Evicting r t)).
Proof.
  intros HI Hsm Hq HR. destruct (inv_thr _ _ _ HI _ _ Hq) as (Hr & Hw & Hph).
  specialize (Hph HR). pose proof (inv_pos _ _ _ HI). pose proof (inv_cap _ _ _ HI).
  destruct (inv_phase _ _ _ _ _ HI Hph) as (_ & _ & HW & Hs & Hit & _).
  destruct (inv_u64 n c φ r HI Hsm ltac:(lia)) as [-> _].
  apply (inv_claim_step n c φ t _ _ r); try done; simpl; try lia.
  - by eapply inv_owner_unique.
  - right. by rewrite HR.
  - by left.
  - fold (W c). lia.
  - apply HI.
  - exists []. by rewrite app_nil_r.
  - right. rewrite Hph. change (r + 1 = R c + 1). lia.
  - split; [done|]. split; [change (0 ≤ r < r + 1); lia|]. split; [done|]. split; [done|].
    eexists. rewrite lookup_insert_eq. split; [done|]. by split.
  - split; [done|]. apply upd_eq.
Qed.

Lemma step_PoCAS n c φ t wait r :
  Inv n c φ → small n c → thr c !! t = Some (PoCAS wait r) → R c = r →
  Inv (n + 1) (Config (store_readPos (ring c) (r +u 1)) (<[t := PoItem r]> (thr c)) (hist c))
    (upd φ (r mod cap c) (Draining r t)).
Proof.
  intros HI Hsm Hq HR. destruct (inv_thr _ _ _ HI _ _ Hq) as (Hr & Hw & Hph).
  specialize (Hph HR). pose proof (inv_pos _ _ _ HI). pose proof (inv_cap _ _ _ HI).
  destruct (inv_u64 n c φ r HI Hsm ltac:(lia)) as [-> _].
  assert ((sq c r = r + 1 ∨ sq c r = r) ∧ it c r = val c r) as [Hs Hit].
  { destruct Hph as [Hph|[u Hph]]; pose proof (inv_phase _ _ _ _ _ HI Hph) as Hok; simpl in Hok.
    - destruct Hok as (_ & _ & ? & ?). auto.
    - destruct Hok as (_ & _ & _ & ? & ? & _). auto. }
  apply (inv_claim_step n c φ t _ _ r); try done; simpl; try lia.
  - intros j Hj _. eapply inv_not_owner; eauto. intros q Hq'. by simplify_eq.
  - right. by rewrite HR.
  - by left.
  - fold (W c). lia.
  - apply HI.
  - exists []. by rewrite app_nil_r.
  - right. destruct Hph as [->|[u ->]]; [right|]; change (r + 1 = R c + 1); lia.
  - split; [done|]. split; [change (0 ≤ r < r + 1); lia|].
    split; [change (W c ≤ r + cap c); lia|]. split; [done|].
    eexists. rewrite lookup_insert_eq. split; [done|]. by split.
  - apply upd_eq.
Qed.

Lemma step_PoItem n c φ t r :
  Inv n c φ → thr c !! t = Some (PoItem r) →
  Inv (n + 1) (Config (ring c) (<[t := PoClear r (it c r)]> (thr c)) (hist c))
    (upd φ (r mod cap c) (Draining r t)).
Proof.
  intros HI Hq. pose proof (inv_thr _ _ _ HI _ _ Hq) as Hph. simpl in Hph.
  destruct (inv_phase _ _ _ _ _ HI Hph) as (_ & Hb & HW & Hs & q & Hq' & Hf). simplify_eq.
  destruct Hf as (_ & Hit).
  apply inv_slot_step; try done.
  - by eapply inv_owner_unique.
  - apply HI.
  - left. by rewrite Hph.
  - do 4 (split; [done|]). eexists. simpl. by rewrite lookup_insert_eq.
  - split; [apply upd_eq|]. by split.
Qed.

Lemma step_PoClear n c φ t r v :
  Inv n c φ → thr c !! t = Some (PoClear r v) →
  Inv (n + 1) (Config (store_item (ring c) r None) (<[t := PoFree r v]> (thr c)) (hist c))
    (upd φ (r mod cap c) (Draining r t)).
Proof.
  intros HI Hq. destruct (inv_thr _ _ _ HI _ _ Hq) as (Hph & Hr & Hv).
  destruct (inv_phase _ _ _ _ _ HI Hph) as (_ & Hb & HW & Hs & q & Hq' & Hf). simplify_eq.
  apply (inv_store_item n c φ t (PoClear r (val c r))); try done.
  - left. by rewrite Hph.
  - do 3 (split; [done|]). split.
    + unfold sq. simpl. by rewrite slot_at_store_item_same by apply HI.
    + eexists. simpl. rewrite lookup_insert_eq. split; [done|]. split; [done|].
      unfold it. simpl. by rewrite slot_at_store_item_same by apply HI.
  - split; [apply upd_eq|]. by split.
Qed.

Lemma step_PoFree n c φ t r v :
  Inv n c φ → small n c → thr c !! t = Some (PoFree r v) →
  Inv (n + 1) (Config (store_seq (ring c) r (r +u cap c)) (<[t := PoRemoved r v]> (thr c)) (hist c))
    (upd φ (r mod cap c) (Free (r + cap c))).
Proof.
  intros HI Hsm Hq. destruct (inv_thr _ _ _ HI _ _ Hq) as (Hph & Hr & Hv).
  destruct (inv_phase _ _ _ _ _ HI Hph) as (_ & Hb & HW & Hs & q & Hq' & Hf). simplify_eq.
  destruct Hf as (_ & Hit). pose proof (inv_pos _ _ _ HI). pose proof (inv_cap _ _ _ HI).
  destruct (inv_u64 n c φ r HI Hsm ltac:(lia)) as [_ ->].
  assert (Hmod : (r + cap c) mod cap c = r mod cap c) by (apply mod_add_cap; lia).
  apply inv_store_seq; try done.
  - by eapply inv_owner_unique.
  - right. by rewrite Hph.
  - split; [done|]. split; [change (W c ≤ r + cap c < R c + cap c); lia|].
    unfold sq, it. simpl. rewrite (slot_at_mod _ (r + cap c) r);
      [|apply geometry_store_seq, HI|done].
    rewrite slot_at_store_seq_same by apply HI. done.
Qed.

(** A sequence number equal to the current write position names a free slot. *)
Lemma free_phase n c φ w :
  Inv n c φ → sq c w = w → W c = w → φ (w mod cap c) = Free w.
Proof.
  intros HI Hsq HW. pose proof (inv_cap _ _ _ HI) as Hc. pose proof (inv_pos _ _ _ HI).
  pose proof (inv_phase _ _ _ w _ HI eq_refl) as Hph.
  assert (Heq : ∀ p, p mod cap c = w mod cap c → sq c p = w).
  { intros p Hm. by rewrite (sq_mod _ _ _ p w HI Hm). }
  destruct (φ (w mod cap c)) as [p|p u|p|p u|p u|p u]; simpl in Hph.
  - destruct Hph as (Hm & _ & Hp & _). rewrite Heq in Hp by done. by subst.
  - destruct Hph as (Hm & Hb & q & _ & Hf). specialize (Heq p Hm).
    destruct q; simpl in Hf; try done; destruct_and!; lia.
  - destruct Hph as (Hm & Hb & Hp & _). rewrite Heq in Hp by done.
    exfalso. by apply (mod_succ_ne (cap c) p w); [lia|..].
  - destruct Hph as (Hm & ? & ? & Hp & _). rewrite Heq in Hp by done. lia.
  - destruct Hph as (Hm & Hb & _ & [Hp|Hp] & _); rewrite Heq in Hp by done.
    + exfalso. by apply (mod_succ_ne (cap c) p w); [lia|..].
    + lia.
  - destruct Hph as (Hm & Hb & _ & Hp & _). rewrite Heq in Hp by done. lia.
Qed.

Ltac not_owner HI Hq := intros j Hj; eapply (inv_not_owner _ _ _ _ HI);
  [intros ? Hq'; rewrite Hq in Hq'; by simplify_eq | done].

Lemma EvCAS_lost_not_owner n c φ t x r w :
  Inv n c φ → thr c !! t = Some (EvCAS x r w) → R c ≠ r →
  ∀ j, 0 ≤ j < cap c → owner (φ j) ≠ Some t.
Proof.
  intros HI Hq HR j Hj Ho. pose proof (inv_slot _ _ _ HI j Hj) as Hph.
  destruct (φ j) as [p|p u|p|p u|p u|p u]; simpl in Ho; simplify_eq; simpl in Hph.
  - destruct Hph as (_ & _ & q & Hq' & Hf). by simplify_eq.
  - destruct Hph as (_ & HR' & _ & _ & _ & x' & Hq'). by simplify_eq.
  - destruct Hph as (_ & _ & _ & _ & q & Hq' & Hf). by simplify_eq.
  - destruct Hph as (_ & _ & _ & _ & q & Hq' & Hf). by simplify_eq.
Qed.

(** Every atomic action of every goroutine preserves the invariant. *)
Lemma inv_exec n c φ t p rb' p' :
  Inv n c φ → small n c → thr c !! t = Some p → returned p = false →
  exec (ring c) p = (rb', p') →
  ∃ φ', Inv (n + 1) (Config rb' (<[t := p']> (thr c)) (hist c ++ claims (ring c) p)) φ'.
Proof.
  intros HI Hsm Hq Hret Hex. pose proof (inv_pos _ _ _ HI) as Hpos.
  pose proof (inv_thr _ _ _ HI _ _ Hq) as Htok.
  assert (Hloc : ∀ rb0 q0, (∀ j, 0 ≤ j < cap c → owner (φ j) ≠ Some t) →
    slots rb0 = slots (ring c) → capacity rb0 = cap c → mask rb0 = mask (ring c) →
    readPos rb0 = R c → writePos rb0 = W c → thread_ok c φ t q0 →
    ∃ φ', Inv (n + 1) (Config rb0 (<[t := q0]> (thr c)) (hist c ++ [])) φ').
  { intros. exists φ. rewrite app_nil_r. by apply inv_local. }
  destruct p as [d x|d x r| |o e b|d x w|d x w|x w|x w| |x r w|x r w|x r w|x r w|x r w old
    |x r w old|x r w old|r old|r old|r old|b|b r|b r|b r|r|r v|r v|r v|o v];
    simpl in Hex, Htok, Hret; try done; unfold claims.
  - simplify_eq. apply Hloc; try done; [not_owner HI Hq|]. simpl. fold (R c). lia.
  - assert (HO : ∀ j, 0 ≤ j < cap c → owner (φ j) ≠ Some t) by not_owner HI Hq.
    case_match; [|destruct d]; simplify_eq; (apply Hloc; try done); simpl; fold (W c); lia.
  - simplify_eq. apply Hloc; try done. not_owner HI Hq.
  - assert (HO : ∀ j, 0 ≤ j < cap c → owner (φ j) ≠ Some t) by not_owner HI Hq.
    fold (sq c w) in Hex.
    destruct (Z.ltb_spec (sq c w) w); [simplify_eq; by apply Hloc|].
    destruct (Z.eqb_spec (sq c w) w); simplify_eq; apply Hloc; try done.
    split; [done|]. intros. by eapply free_phase.
  - unfold cas_writePos in Hex. fold (W c) in Hex. fold (W c).
    destruct (Z.eqb_spec (W c) w); simplify_eq.
    + eexists. by apply step_PuCAS with d.
    + apply Hloc; try done. not_owner HI Hq.
  - simplify_eq. rewrite app_nil_r. eexists. by apply step_PuItem.
  - simplify_eq. rewrite app_nil_r. eexists. by eapply step_PuPub.
  - simplify_eq. apply Hloc; try done. not_owner HI Hq.
  - assert (HO : ∀ j, 0 ≤ j < cap c → owner (φ j) ≠ Some t) by not_owner HI Hq.
    destruct (inv_u64 n c φ r HI Hsm ltac:(lia)) as [H1 H2].
    rewrite H1 in Hex. fold (cap c) in Hex. rewrite H2 in Hex.
    fold (sq c r) in Hex.
    destruct (Z.leb_spec (sq c r) r); [simplify_eq; by apply Hloc|].
    case_match eqn:E; simplify_eq; apply Hloc; try done.
    apply orb_false_iff in E as [_ E]. apply negb_false_iff, Z.eqb_eq in E. simpl. lia.
  - destruct (inv_u64 n c φ r HI Hsm ltac:(lia)) as [H1 H2].
    unfold cas_seq in Hex. rewrite H1 in Hex. fold (sq c r) in Hex.
    destruct (Z.eqb_spec (sq c r) (r + 1)); simplify_eq.
    + rewrite app_nil_r. by eapply step_EvMark.
    + apply Hloc; try done. not_owner HI Hq.
  - unfold cas_readPos in Hex. fold (R c) in Hex.
    destruct (Z.eqb_spec (R c) r); simplify_eq.
    + rewrite app_nil_r. eexists. by apply step_EvCAS.
    + apply Hloc; try done. by eapply EvCAS_lost_not_owner.
  - simplify_eq. rewrite app_nil_r. eexists. by apply step_EvOld.
  - simplify_eq. eexists. by apply step_EvStoreW.
  - simplify_eq. rewrite app_nil_r. eexists. by apply step_EvItem.
  - simplify_eq. rewrite app_nil_r. eexists. by eapply step_EvPub.
  - simplify_eq. apply Hloc; try done. not_owner HI Hq.
  - simplify_eq. apply Hloc; try done. not_owner HI Hq.
  - simplify_eq. apply Hloc; try done. not_owner HI Hq.
  - simplify_eq. apply Hloc; try done; [not_owner HI Hq|]. simpl. fold (R c). lia.
  - assert (HO : ∀ j, 0 ≤ j < cap c → owner (φ j) ≠ Some t) by not_owner HI Hq.
    fold (W c) in Hex. destruct (Z.leb_spec (W c) r); simplify_eq; apply Hloc; try done.
  - assert (HO : ∀ j, 0 ≤ j < cap c → owner (φ j) ≠ Some t) by not_owner HI Hq.
    destruct (inv_u64 n c φ r HI Hsm ltac:(lia)) as [H1 H2]. rewrite H1 in Hex.
    fold (sq c r) in Hex.
    destruct (Z.leb_spec (sq c r) r); [destruct b; simpl in Hex; simplify_eq; by apply Hloc|].
    destruct (Z.eqb_spec (sq c r) (r + 1)) as [Hs|]; simplify_eq; apply Hloc; try done.
    split; [lia|]. split; [lia|]. intros HR.
    destruct (published_phase _ _ _ _ HI Hs) as [|[u Hu]]; [by left|].
    destruct (inv_phase _ _ _ _ _ HI Hu) as (_ & ? & _). lia.
  - unfold cas_readPos in Hex. fold (R c) in Hex.
    destruct (Z.eqb_spec (R c) r); simplify_eq.
    + rewrite app_nil_r. eexists. by eapply step_PoCAS.
    + apply Hloc; try done. not_owner HI Hq.
  - simplify_eq. rewrite app_nil_r. eexists. by apply step_PoItem.
  - simplify_eq. rewrite app_nil_r. eexists. by apply step_PoClear.
  - simplify_eq. rewrite app_nil_r. eexists. by apply step_PoFree.
  - simplify_eq. apply Hloc; try done. not_owner HI Hq.
Qed.

Lemma run_capacity cp tr c : run cp tr c → cap c = capacity (NewRingBuffer (A := A) cp).
Proof.
  induction 1 as [|tr c c' Hr IH Hs|tr c l c' Hr IH Hs]; [done|..]; inversion Hs; subst;
    rewrite <-IH; [done|]. by eapply exec_capacity.
Qed.

Lemma inv_call n c φ t p :
  Inv n c φ → entry p = true → (∀ p0, thr c !! t = Some p0 → returned p0 = true) →
  Inv n (Config (ring c) (<[t := p]> (thr c)) (hist c)) φ.
Proof.
  intros HI Hp Hret.
  assert (HI' : Inv (n + 1) (Config (ring c) (<[t := p]> (thr c)) (hist c)) φ).
  { apply inv_local; try done.
    - apply (inv_not_owner _ _ _ _ HI). intros q Hq. apply Hret in Hq. by destruct q.
    - by destruct p. }
  destruct HI' as [H1 H2 _ H4 H5 H6]. pose proof (inv_steps _ _ _ HI). by split.
Qed.

Lemma inv_initial cp : cp ≤ 2 ^ 62 → Inv 0 (initial (A := A) cp) Free.
Proof.
  intros Hc. destruct (@NewRingBuffer_geometry A cp) as [Hg _]; [lia|].
  pose proof (geometry_cap _ Hg). split; [done| |done|done| |done].
  { change (0 ≤ 0 ≤ 0 ∧ 0 ≤ 0 + capacity (NewRingBuffer (A := A) cp)). lia. }
  intros i Hi. unfold cap in Hi. simpl ring in Hi. unfold phase_ok, sq, it.
  change (cap (initial cp)) with (capacity (NewRingBuffer (A := A) cp)) in *.
  simpl ring. rewrite NewRingBuffer_slot by lia. rewrite Z.mod_small by lia.
  split; [done|]. split; [change (0 ≤ i < 0 + capacity (NewRingBuffer (A := A) cp)); lia|done].
Qed.

(** Positions do not wrap: at one action per nanosecond, for centuries. *)
Definition long_enough (cp : Z) (tr : list (label (A := A))) : Prop :=
  Z.of_nat (length tr) + capacity (NewRingBuffer (A := A) cp) + 1 < 2 ^ 64.

Lemma run_inv cp tr c :
  cp ≤ 2 ^ 62 → run cp tr c → long_enough cp tr →
  cap c = capacity (NewRingBuffer (A := A) cp) ∧ ∃ φ, Inv (Z.of_nat (length tr)) c φ.
Proof.
  unfold long_enough. intros Hc Hr. induction Hr as [|tr c c' Hr IH Hs|tr c l c' Hr IH Hs]; intros Hlen.
  - split; [done|]. exists Free. by apply inv_initial.
  - destruct (IH Hlen) as (HC & φ & HI). inversion Hs; subst. split; [done|].
    exists φ. by apply inv_call.
  - rewrite length_app in Hlen |- *. cbn [length] in Hlen |- *.
    destruct IH as (HC & φ & HI); [lia|]. inversion Hs; subst.
    destruct (inv_exec _ _ _ t p rb' p' HI) as [φ' HI']; [unfold small; lia|done..|].
    split.
    + rewrite <-HC. by eapply exec_capacity.
    + exists φ'. by replace (Z.of_nat (length tr + 1)) with (Z.of_nat (length tr) + 1) by lia.
Qed.

(** ** Consequences *)

(** Which actions move the positions, and by whom. *)
Lemma action_effect n c φ t p rb' p' :
  Inv n c φ → small n c → thr c !! t = Some p → returned p = false →
  exec (ring c) p = (rb', p') →
  match put_of (t, p, p') with
  | Some (w, x) => w = W c ∧ writePos rb' = W c + 1 ∧ claims (ring c) p = [x]
  | None => writePos rb' = W c ∧ claims (ring c) p = []
  end ∧
  match take_of (t, p, p') with
  | Some (t', r) => t' = t ∧ r = R c ∧ readPos rb' = R c + 1
  | None => readPos rb' = R c
  end.
Proof.
  intros HI Hsm Hq Hret Hex. pose proof (inv_pos _ _ _ HI).
  assert (HuR : u64 (R c + 1) = R c + 1) by (apply (inv_u64 n c φ); (done || lia)).
  assert (HuW : u64 (W c + 1) = W c + 1) by (apply (inv_u64 n c φ); (done || lia)).
  pose proof (inv_thr _ _ _ HI _ _ Hq) as Htok.
  destruct p; simpl in Hex, Hret; try done; unfold put_of, take_of; simpl; simplify_eq; try done;
    try (unfold cas_writePos, cas_readPos, cas_seq in Hex; repeat case_match; simplify_eq; done).
  - unfold cas_writePos in Hex. fold (W c) in Hex |- *. destruct (Z.eqb_spec (W c) w); by simplify_eq.
  - unfold cas_readPos in Hex. fold (R c) in Hex. destruct (Z.eqb_spec (R c) r); by simplify_eq.
  - destruct Htok as (-> & Hph & _). destruct (inv_phase _ _ _ _ _ HI Hph) as (_ & _ & HW & _).
    by rewrite <-HW, HuW.
  - unfold cas_readPos in Hex. fold (R c) in Hex. destruct (Z.eqb_spec (R c) r); by simplify_eq.
Qed.

(** The read position a goroutine has claimed in its current call. *)
Definition took (q : pc A) : option Z :=
  match q with
  | EvOld _ r _ | EvStoreW _ r _ _ | EvItem _ r _ _ | EvPub _ r _ _
  | EvRemoved r _ | EvDropped r _ | EvAdded r _
  | PoItem r | PoClear r _ | PoFree r _ | PoRemoved r _ => Some r
  | PuRet (Some r) _ true => Some r
  | PoRet (Some r) _ => Some r
  | _ => None
  end.

Lemma took_step rb t p rb' p' r :
  exec rb p = (rb', p') → returned p = false → took p' = Some r →
  took p = Some r ∨ take_of (t, p, p') = Some (t, r).
Proof.
  intros Hex Hret. destruct p; simpl in Hex, Hret; try done;
    unfold cas_writePos, cas_readPos, cas_seq in Hex; repeat case_match; simplify_eq; simpl; intros; simplify_eq; auto.
Qed.

Record trace_ok (tr : list (label (A := A))) c : Prop := {
  tr_puts : (omap put_of tr).*1 = seqZ 0 (W c);
  tr_items : (omap put_of tr).*2 = hist c;
  tr_takes : (omap take_of tr).*2 = seqZ 0 (R c);
  tr_took : ∀ t q r, thr c !! t = Some q → took q = Some r → (t, r) ∈ omap take_of tr;
  tr_returns : ∀ t r v, (t, r, v) ∈ omap return_of tr →
    (t, r) ∈ omap take_of tr ∧ 0 ≤ r < R c ∧ v = val c r;
}.

Lemma seqZ_snoc n : 0 ≤ n → seqZ 0 (n + 1) = seqZ 0 n ++ [n].
Proof. intros. by rewrite seqZ_app by lia. Qed.

Lemma trace_ok_act tr n c φ t p rb' p' :
  Inv n c φ → small n c → thr c !! t = Some p → returned p = false →
  exec (ring c) p = (rb', p') → trace_ok tr c →
  (∀ φ', Inv (n + 1) (Config rb' (<[t := p']> (thr c)) (hist c ++ claims (ring c) p)) φ' →
  trace_ok (tr ++ [(t, p, p')]) (Config rb' (<[t := p']> (thr c)) (hist c ++ claims (ring c) p))).
Proof.
  intros HI Hsm Hq Hret Hex [H1 H2 H3 H4 H5] φ' HI'. set (c' := Config _ _ _) in *.
  pose proof (inv_pos _ _ _ HI) as Hpos. pose proof (inv_hist _ _ _ HI) as Hh.
  destruct (action_effect _ _ _ t p rb' p' HI Hsm Hq Hret Hex) as [Hput Htake].
  assert (Hval : ∀ r, 0 ≤ r < W c → val c' r = val c r).
  { intros r Hr. unfold val; simpl. apply lookup_app_l. lia. }
  assert (Htk : ∀ t' r, (t', r) ∈ omap take_of tr → (t', r) ∈ omap take_of (tr ++ [(t, p, p')])).
  { intros. rewrite omap_app. apply elem_of_app. by left. }
  assert (Htook : ∀ t' q r, thr c' !! t' = Some q → took q = Some r →
    (t', r) ∈ omap take_of (tr ++ [(t, p, p')])).
  { intros t' q r Hq' Ht. simpl in Hq'. apply lookup_insert_Some in Hq' as [[<- <-]|[_ Hq']]; [|eauto].
    destruct (took_step _ t _ _ _ _ Hex Hret Ht) as [Hp|Hp]; [eauto|].
    rewrite omap_app. apply elem_of_app. right. cbn -[take_of]. rewrite Hp. by left. }
  split.
  - rewrite omap_app, fmap_app, H1. cbn -[put_of]. change (W c') with (writePos rb').
    destruct (put_of (t, p, p')) as [[w x]|].
    + destruct Hput as (-> & -> & _). by rewrite seqZ_snoc by lia.
    + destruct Hput as (-> & _). by rewrite app_nil_r.
  - rewrite omap_app, fmap_app, H2. cbn -[put_of claims]. simpl hist.
    destruct (put_of (t, p, p')) as [[w x]|].
    + destruct Hput as (_ & _ & ->). done.
    + destruct Hput as (_ & ->). done.
  - rewrite omap_app, fmap_app, H3. cbn -[take_of]. change (R c') with (readPos rb').
    destruct (take_of (t, p, p')) as [[u r]|].
    + destruct Htake as (_ & -> & ->). by rewrite seqZ_snoc by lia.
    + rewrite Htake. by rewrite app_nil_r.
  - done.
  - intros t' r v. rewrite omap_app, elem_of_app. intros [Hr|Hr].
    + destruct (H5 _ _ _ Hr) as (Ht & Hb & Hv). split; [auto|].
      rewrite Hval by lia. split; [|done].
      change (R c') with (readPos rb'). destruct (take_of (t, p, p')) as [[u ?]|]; lia.
    + assert (Hp' : thr c' !! t = Some p') by (simpl; by rewrite lookup_insert_eq).
      pose proof (inv_thr _ _ _ HI' _ _ Hp') as Htok.
      assert (t' = t ∧ took p' = Some r ∧ 0 ≤ r < R c' ∧ v = val c' r) as (-> & Ht & ? & ?);
        [|by eauto].
      destruct p' as [| | |[?|] ? []| | | | | | | | | | | | | | | | | | | | | | | |[?|] ?];
        cbn in Hr; try (by apply elem_of_nil in Hr);
        apply list_elem_of_singleton in Hr; simplify_eq; by destruct Htok.
Qed.

Lemma run_trace_ok cp tr c :
  cp ≤ 2 ^ 62 → run cp tr c → long_enough cp tr → trace_ok tr c.
Proof.
  intros Hc Hr. induction Hr as [|tr c c' Hr IH Hs|tr c l c' Hr IH Hs]; intros Hlen.
  - split; try done. intros t r v Hin. by apply elem_of_nil in Hin.
  - destruct (IH Hlen) as [H1 H2 H3 H4 H5]. inversion Hs; subst. split; try done.
    intros t' q r Hq. simpl in Hq. apply lookup_insert_Some in Hq as [[<- <-]|[_ Hq]]; [|eauto].
    by destruct p.
  - assert (Hlen' : long_enough cp tr).
    { unfold long_enough in *. rewrite length_app in Hlen. cbn [length] in Hlen. lia. }
    assert (Hrun : run cp (tr ++ [l]) c') by (by eapply run_act).
    destruct (run_inv cp tr c Hc Hr Hlen') as (HC & φ & HI).
    destruct (run_inv cp _ c' Hc Hrun Hlen) as (_ & φ' & HI').
    inversion Hs; subst. eapply trace_ok_act; eauto.
    + unfold small, long_enough in *. lia.
    + rewrite length_app in HI'. cbn [length] in HI'.
      by replace (Z.of_nat (length tr) + 1) with (Z.of_nat (length tr + 1)) by lia.
Qed.

(** The queue the goroutines see: what is written and not yet claimed. *)
Definition contents c : list A := drop (Z.to_nat (R c)) (hist c).

Lemma run_invs cp tr c l c' :
  cp ≤ 2 ^ 62 → run cp tr c → cstep c l c' → long_enough cp (tr ++ option_list l) →
  ∃ n φ φ', Inv n c φ ∧ small n c ∧ Inv (n + Z.of_nat (length (option_list l))) c' φ'.
Proof.
  intros Hc Hr Hs Hlen.
  assert (Hr' : run cp (tr ++ option_list l) c').
  { destruct l; simpl; [by eapply run_act|]. rewrite app_nil_r. by eapply run_call. }
  assert (Hlen' : long_enough cp tr).
  { unfold long_enough in *. rewrite length_app in Hlen. lia. }
  destruct (run_inv cp tr c Hc Hr Hlen') as (HC & φ & HI).
  destruct (run_inv cp _ c' Hc Hr' Hlen) as (_ & φ' & HI').
  exists (Z.of_nat (length tr)), φ, φ'. split; [done|].
  rewrite length_app in HI'. split; [unfold small, long_enough in *; lia|].
  by rewrite Nat2Z.inj_add in HI'.
Qed.

Inductive queue_step (cp : Z) : list A → option label → list A → Prop :=
| queue_enq q l w x :
    put_of l = Some (w, x) → Z.of_nat (length q) < cp → queue_step cp q (Some l) (q ++ [x])
| queue_deq q l tp x : take_of l = Some tp → queue_step cp (x :: q) (Some l) q
| queue_act q l : put_of l = None → take_of l = None → queue_step cp q (Some l) q
| queue_call q : queue_step cp q None q.

Lemma contents_length n c φ : Inv n c φ → Z.of_nat (length (contents c)) = W c - R c.
Proof.
  intros HI. pose proof (inv_pos _ _ _ HI). pose proof (inv_hist _ _ _ HI).
  unfold contents. rewrite length_drop. lia.
Qed.

Lemma act_refines n c φ c' φ' t p rb' p' :
  Inv n c φ → small n c → thr c !! t = Some p → returned p = false →
  exec (ring c) p = (rb', p') →
  c' = Config rb' (<[t := p']> (thr c)) (hist c ++ claims (ring c) p) → Inv (n + 1) c' φ' →
  queue_step (cap c) (contents c) (Some (t, p, p')) (contents c').
Proof.
  intros HI Hsm Hq Hret Hex -> HI'. set (c' := Config _ _ _) in *.
  destruct (action_effect _ _ _ t p rb' p' HI Hsm Hq Hret Hex) as [Hput Htake].
  pose proof (inv_pos _ _ _ HI). pose proof (inv_hist _ _ _ HI) as Hh.
  pose proof (inv_pos _ _ _ HI') as Hpos'. pose proof (contents_length _ _ _ HI).
  change (R c') with (readPos rb') in Hpos'. change (W c') with (writePos rb') in Hpos'.
  assert (cap c' = cap c) as Hcap by (by eapply exec_capacity).
  rewrite Hcap in Hpos'. unfold contents at 2. change (R c') with (readPos rb'). simpl hist.
  destruct (put_of (t, p, p')) as [[w x]|] eqn:Ep; destruct (take_of (t, p, p')) as [[u r]|] eqn:Et.
  - destruct p'; by simpl in *.
  - destruct Hput as (-> & HW & ->). rewrite Htake.
    rewrite drop_app_le by lia. eapply queue_enq; [done|]. fold (contents c). lia.
  - destruct Hput as (HW & ->). destruct Htake as (-> & -> & HR). rewrite app_nil_r, HR.
    destruct (hist c !! Z.to_nat (R c)) as [x|] eqn:Ex.
    + unfold contents. rewrite (drop_S _ x) by done.
      replace (Z.to_nat (R c + 1)) with (S (Z.to_nat (R c))) by lia. by eapply queue_deq.
    + apply lookup_ge_None in Ex. lia.
  - destruct Hput as (HW & ->). rewrite app_nil_r, Htake. by apply queue_act.
Qed.

End invariant.

(** C3.  The lock-free ring is a bounded FIFO queue.  Under every interleaving
    of the atomic actions of any number of goroutines in [Push],
    [PushDropOldest], [Pop] and [TryPop], each action is one step of an abstract
    queue of at most [cap] items: the action that claims a write position
    appends that goroutine's item (and only when there is room), the action
    that claims a read position removes the oldest item, and every other action
    leaves the queue alone. *)
Theorem mpmc_refines_queue {A} cp tr (c c' : config (A := A)) l :
  cp ≤ 2 ^ 62 → run cp tr c → cstep c l c' → long_enough cp (tr ++ option_list l) →
  queue_step (cap c) (contents c) l (contents c') ∧ Z.of_nat (length (contents c)) ≤ cap c.
Proof.
  intros Hc Hr Hs Hlen. destruct (run_invs _ _ _ _ _ Hc Hr Hs Hlen) as (n & φ & φ' & HI & Hsm & HI').
  pose proof (contents_length _ _ _ HI). pose proof (inv_pos _ _ _ HI). split; [|lia].
  inversion Hs; subst.
  - apply queue_call.
  - by eapply act_refines.
Qed.

(** C4.  Every item is delivered exactly once and in order.  In every execution
    the write positions 0, 1, 2, ... are claimed once each, in order, and the
    items at them form the history; the read positions are claimed once each,
    in order; and whenever [Pop], [TryPop] or the eviction of [PushDropOldest]
    returns a value for the position it claimed, that value is the item pushed
    at that position, never [nil] and never the item of another lap. *)
Theorem mpmc_exactly_once {A} cp tr (c : config (A := A)) :
  cp ≤ 2 ^ 62 → run cp tr c → long_enough cp tr →
  (omap put_of tr).*1 = seqZ 0 (W c) ∧ (omap put_of tr).*2 = hist c ∧
  (omap take_of tr).*2 = seqZ 0 (R c) ∧ R c ≤ W c ≤ R c + cap c ∧
  ∀ t r v, (t, r, v) ∈ omap return_of tr →
    (t, r) ∈ omap take_of tr ∧ ∃ x, v = Some x ∧ hist c !! Z.to_nat r = Some x.
Proof.
  intros Hc Hr Hlen. destruct (run_trace_ok cp tr c Hc Hr Hlen) as [H1 H2 H3 H4 H5].
  destruct (run_inv cp tr c Hc Hr Hlen) as (_ & φ & HI).
  pose proof (inv_pos _ _ _ HI). pose proof (inv_hist _ _ _ HI).
  do 3 (split; [done|]). split; [lia|]. intros t r v Hin.
  destruct (H5 t r v Hin) as (Ht & Hb & Hv). split; [done|].
  destruct (lookup_lt_is_Some_2 (hist c) (Z.to_nat r)) as [x Hx]; [lia|].
  exists x. split; [|done]. subst v. exact Hx.
Qed.

Section progress.
Context {A : Type}.
Implicit Types (c : config (A := A)) (φ : Z → phase).

(** The slot a goroutine is about to access through the plain field [item]. *)
Definition item_access (q : pc A) : option Z :=
  match q with
  | PuItem _ w => Some w
  | EvOld _ r _ | EvItem _ r _ _ => Some r
  | PoItem r | PoClear r _ => Some r
  | _ => None
  end.

Lemma item_access_owner n c φ t q p :
  Inv n c φ → thr c !! t = Some q → item_access q = Some p → owner (φ (p mod cap c)) = Some t.
Proof.
  intros HI Hq Hp. pose proof (inv_thr _ _ _ HI _ _ Hq) as Ht.
  destruct q; simpl in Hp; simplify_eq; simpl in Ht; destruct_and?;
    match goal with H : φ _ = _ |- _ => by rewrite H end.
Qed.

(** ** Running alone *)

(** The next [k] actions of [t], nobody else moving. *)
Fixpoint alone (k : nat) (t : nat) c : config :=
  match k with
  | O => c
  | S k =>
      match thr c !! t with
      | Some p =>
          if returned p then c else
          let '(rb', p') := exec (ring c) p in
          alone k t (Config rb' (<[t := p']> (thr c)) (hist c ++ claims (ring c) p))
      | None => c
      end
  end.

(** Actions left before the loop of the call starts again or the call returns. *)
Definition rank (q : pc A) : nat :=
  match q with
  | PuLoadR _ _ => 12 | PuLoadW _ _ _ => 11 | PuDrop => 1 | PuRet _ _ _ => 0
  | PuSeq _ _ _ => 5 | PuCAS _ _ _ => 4 | PuItem _ _ => 3 | PuPub _ _ => 2 | PuAdded => 1
  | EvSeq _ _ _ => 10 | EvMark _ _ _ => 9 | EvCAS _ _ _ => 8 | EvOld _ _ _ => 7
  | EvStoreW _ _ _ _ => 6 | EvItem _ _ _ _ => 5 | EvPub _ _ _ _ => 4
  | EvRemoved _ _ => 3 | EvDropped _ _ => 2 | EvAdded _ _ => 1
  | PoLoadR _ => 8 | PoLoadW _ _ => 7 | PoSeq _ _ => 6 | PoCAS _ _ => 5
  | PoItem _ => 4 | PoClear _ _ => 3 | PoFree _ _ => 2 | PoRemoved _ _ => 1 | PoRet _ _ => 0
  end.

(** A call that must not wait: any push, or a pop with [waitForWriter] false. *)
Definition nonblocking (q : pc A) : bool :=
  match q with
  | PoLoadR b | PoLoadW b _ | PoSeq b _ | PoCAS b _ => negb b
  | _ => true
  end.

Lemma exec_rank rb p rb' p' :
  exec rb p = (rb', p') → returned p = false → nonblocking p = true →
  (entry p' = true ∨ (rank p' < rank p)%nat) ∧ nonblocking p' = true.
Proof.
  intros Hex Hret Hnb. destruct p; simpl in Hex, Hret; try done;
    unfold cas_writePos, cas_readPos, cas_seq in Hex; repeat case_match; simplify_eq;
    (split; [first [by left | right; simpl; lia] | done]).
Qed.

(** The oldest slot of a non-empty ring is published or not published yet. *)
Lemma sq_read n c φ : Inv n c φ → R c < W c → sq c (R c) ≤ R c ∨ sq c (R c) = R c + 1.
Proof.
  intros HI HRW. pose proof (inv_cap _ _ _ HI) as Hc. pose proof (inv_pos _ _ _ HI).
  pose proof (inv_phase _ _ _ (R c) _ HI eq_refl) as Hph.
  assert (Heq : ∀ p, p mod cap c = R c mod cap c → - cap c < p - R c < cap c → p = R c)
    by (intros; apply (mod_eq_close (cap c)); (done || lia)).
  destruct (φ (R c mod cap c)) as [p|p u|p|p u|p u|p u]; simpl in Hph.
  - destruct Hph as (Hm & Hb & _). apply Heq in Hm; lia.
  - destruct Hph as (Hm & Hb & q & _ & Hf). apply Heq in Hm; [|lia]. subst p.
    destruct q; simpl in Hf; try done; destruct_and!; lia.
  - destruct Hph as (Hm & Hb & Hs & _). apply Heq in Hm; [|lia]. subst p. by right.
  - destruct Hph as (Hm & -> & _ & Hs & _). left. lia.
  - destruct Hph as (Hm & Hb & HW & _). apply Heq in Hm; lia.
  - destruct Hph as (Hm & Hb & HW & _). apply Heq in Hm; lia.
Qed.

(** The next slot to write of a ring with room is free or not released yet. *)
Lemma sq_write n c φ : Inv n c φ → W c < R c + cap c → sq c (W c) ≤ W c.
Proof.
  intros HI HRW. pose proof (inv_cap _ _ _ HI) as Hc. pose proof (inv_pos _ _ _ HI).
  pose proof (inv_phase _ _ _ (W c) _ HI eq_refl) as Hph.
  assert (Heq : ∀ p, p mod cap c = W c mod cap c → - cap c < p - W c < cap c → p = W c)
    by (intros; apply (mod_eq_close (cap c)); (done || lia)).
  assert (Hprev : ∀ p, p mod cap c = W c mod cap c → - cap c < p + cap c - W c < cap c →
    p = W c - cap c).
  { intros p Hm ?. rewrite <-(mod_add_cap (cap c) p) in Hm by lia. apply Heq in Hm; lia. }
  destruct (φ (W c mod cap c)) as [p|p u|p|p u|p u|p u]; simpl in Hph.
  - destruct Hph as (Hm & Hb & Hs & _). apply Heq in Hm; [subst p; lia|lia].
  - destruct Hph as (Hm & Hb & _). apply Heq in Hm; lia.
  - destruct Hph as (Hm & Hb & _). apply Heq in Hm; lia.
  - destruct Hph as (Hm & Hb & HW & _). lia.
  - destruct Hph as (Hm & Hb & HW & Hs & _). rewrite (sq_mod _ _ _ (W c) p HI) by done. lia.
  - destruct Hph as (Hm & Hb & HW & Hs & _). rewrite (sq_mod _ _ _ (W c) p HI) by done. lia.
Qed.

(** The same on the buffer and one program counter. *)
Fixpoint solo (k : nat) (rb : RingBuffer A) (p : pc A) : RingBuffer A * pc A :=
  match k with
  | O => (rb, p)
  | S k => if returned p then (rb, p) else let '(rb', p') := exec rb p in solo k rb' p'
  end.

Lemma alone_solo k t c p :
  thr c !! t = Some p →
  ring (alone k t c) = (solo k (ring c) p).1 ∧
  thr (alone k t c) !! t = Some (solo k (ring c) p).2.
Proof.
  revert c p. induction k as [|k IH]; intros c p Hp; [done|]. simpl. rewrite Hp.
  destruct (returned p); [done|]. destruct (exec (ring c) p) as [rb' p'].
  apply IH. simpl. by rewrite lookup_insert_eq.
Qed.

Lemma solo_returned k rb p : returned p = true → solo k rb p = (rb, p).
Proof. intros H. destruct k; [done|]. simpl. by rewrite H. Qed.

Lemma solo_add k k' rb p : solo (k + k') rb p = solo k' (solo k rb p).1 (solo k rb p).2.
Proof.
  revert rb p. induction k as [|k IH]; intros rb p; [done|]. simpl.
  destruct (returned p) eqn:E; [by rewrite solo_returned|].
  destruct (exec rb p). apply IH.
Qed.

(** From the top of its loop a call that must not wait returns. *)
Lemma solo_entry n c φ p :
  Inv n c φ → small n c → entry p = true → nonblocking p = true →
  returned (solo 12 (ring c) p).2 = true.
Proof.
  intros HI Hsm He Hnb. pose proof (inv_pos _ _ _ HI). pose proof (inv_steps _ _ _ HI).
  pose proof (inv_cap _ _ _ HI).
  destruct (inv_u64 n c φ (R c) HI Hsm ltac:(lia)) as [HR1 HRc].
  assert (Hdiff : u64 (W c - R c) = W c - R c) by (unfold small in Hsm; apply u64_small; lia).
  destruct p as [d x| | | | | | | | | | | | | | | | | | |b| | | | | | | | ]; try done; simpl in Hnb.
  - cbn -[u64 slot_at Z.ltb Z.leb Z.eqb store_seq store_item store_writePos store_readPos].
    fold (R c) (W c) (cap c). rewrite Hdiff. destruct (Z.ltb_spec (W c - R c) (cap c)).
    + cbn -[u64 slot_at Z.ltb Z.leb Z.eqb]. fold (sq c (W c)).
      pose proof (sq_write _ _ _ HI ltac:(lia)).
      destruct (Z.ltb_spec (sq c (W c)) (W c)); [done|].
      destruct (Z.eqb_spec (sq c (W c)) (W c)); [|lia].
      cbn -[u64 slot_at Z.ltb Z.leb Z.eqb]. unfold cas_writePos. by rewrite Z.eqb_refl.
    + destruct d; [|done]. cbn -[u64 slot_at Z.ltb Z.leb Z.eqb]. fold (sq c (R c)) (cap c).
      rewrite HR1, HRc. destruct (Z.leb_spec (sq c (R c)) (R c)); [done|].
      destruct (sq_read _ _ _ HI ltac:(lia)) as [|Hs]; [lia|]. rewrite Hs, Z.eqb_refl.
      destruct (Z.eqb_spec (W c) (R c + cap c)); [|lia].
      cbn -[u64 slot_at Z.ltb Z.leb Z.eqb]. unfold cas_seq. fold (sq c (R c)).
      rewrite HR1, Hs, Z.eqb_refl. cbn -[u64 slot_at Z.ltb Z.leb Z.eqb].
      unfold cas_readPos. cbn -[u64 slot_at Z.ltb Z.leb Z.eqb]. fold (R c). by rewrite Z.eqb_refl.
  - destruct b; [done|].
    cbn -[u64 slot_at Z.ltb Z.leb Z.eqb]. fold (R c) (W c).
    destruct (Z.leb_spec (W c) (R c)); [done|]. cbn -[u64 slot_at Z.ltb Z.leb Z.eqb].
    fold (sq c (R c)). rewrite HR1.
    destruct (Z.leb_spec (sq c (R c)) (R c)); [done|].
    destruct (sq_read _ _ _ HI ltac:(lia)) as [|Hs]; [lia|]. rewrite Hs, Z.eqb_refl.
    cbn -[u64 slot_at Z.ltb Z.leb Z.eqb]. unfold cas_readPos. fold (R c). by rewrite Z.eqb_refl.
Qed.

(** From anywhere in its code it reaches the top of the loop or returns. *)
Lemma solo_rank k n c φ t p :
  Inv n c φ → n + Z.of_nat k + cap c + 1 < 2 ^ 64 → thr c !! t = Some p →
  nonblocking p = true → (rank p ≤ k)%nat →
  ∃ j c' φ' p', (j ≤ k)%nat ∧ Inv (n + Z.of_nat j) c' φ' ∧ cap c' = cap c ∧
    solo j (ring c) p = (ring c', p') ∧ nonblocking p' = true ∧
    (entry p' = true ∨ returned p' = true).
Proof.
  revert n c φ p. induction k as [|k IH]; intros n c φ p HI Hsm Hp Hnb Hk.
  - exists 0%nat, c, φ, p. rewrite Z.add_0_r. do 5 (split; [done|]).
    right. destruct p; simpl in Hk; (done || lia).
  - destruct (returned p) eqn:Hret.
    { exists 0%nat, c, φ, p. rewrite Z.add_0_r. split; [lia|]. do 4 (split; [done|]). by right. }
    destruct (exec (ring c) p) as [rb' p'] eqn:Hex.
    destruct (inv_exec n c φ t p rb' p' HI) as [φ' HI']; [unfold small; lia|done..|].
    destruct (exec_rank _ _ _ _ Hex Hret Hnb) as [Hcase Hnb'].
    set (c' := Config rb' _ _) in HI'.
    assert (Hcap : cap c' = cap c) by (by eapply exec_capacity).
    destruct Hcase as [He|Hlt].
    + exists 1%nat, c', φ', p'. simpl. rewrite Hret, Hex.
      split; [lia|]. do 4 (split; [done|]). by left.
    + destruct (IH (n + 1) c' φ' p') as (j & c2 & φ2 & p2 & Hj & HI2 & Hc2 & Hs & Hnb2 & Hend);
        [done|rewrite Hcap; lia|simpl; by rewrite lookup_insert_eq|done|lia|].
      exists (S j), c2, φ2, p2. simpl. rewrite Hret, Hex.
      split; [lia|]. split; [by replace (n + Z.of_nat (S j)) with (n + 1 + Z.of_nat j) by lia|].
      split; [congruence|]. done.
Qed.

End progress.

(**  No data race on the plain field [item].  In every reachable state two
    different goroutines are never both about to read or write the [item] of
    the same slot, so the unsynchronized accesses of [pushAt], [replaceOldest]
    and [pop] never conflict. *)
Theorem mpmc_item_exclusive {A} cp tr (c : config (A := A)) t1 t2 q1 q2 p1 p2 :
  cp ≤ 2 ^ 62 → run cp tr c → long_enough cp tr →
  thr c !! t1 = Some q1 → thr c !! t2 = Some q2 →
  item_access q1 = Some p1 → item_access q2 = Some p2 →
  slot_index (ring c) p1 = slot_index (ring c) p2 → t1 = t2.
Proof.
  intros Hc Hr Hlen H1 H2 Ha1 Ha2 Hs. destruct (run_inv cp tr c Hc Hr Hlen) as (_ & φ & HI).
  pose proof (item_access_owner _ _ _ _ _ _ HI H1 Ha1) as Ho1.
  pose proof (item_access_owner _ _ _ _ _ _ HI H2 Ha2) as Ho2.
  apply slot_index_eq in Hs; [|apply HI]. unfold cap in *. rewrite Hs in Ho1. congruence.
Qed.

(** C11.  [Push], [PushDropOldest] and [TryPop] never wait for another goroutine:
    from any reachable state and any point of such a call, with every other
    goroutine stopped wherever it happens to be, the call returns within 24 of
    its own atomic actions. *)
Theorem mpmc_obstruction_free {A} cp tr (c : config (A := A)) t p :
  cp ≤ 2 ^ 62 → run cp tr c → Z.of_nat (length tr) + 24 + cap c + 1 < 2 ^ 64 →
  thr c !! t = Some p → nonblocking p = true →
  ∃ q, thr (alone 24 t c) !! t = Some q ∧ returned q = true.
Proof.
  intros Hc Hr Hlen Hp Hnb.
  assert (long_enough cp tr) as Hle by (unfold long_enough; rewrite <-(run_capacity cp tr c Hr); lia).
  destruct (run_inv cp tr c Hc Hr Hle) as (_ & φ & HI).
  destruct (solo_rank 12 _ c φ t p HI) as (j & c' & φ' & p' & Hj & HI' & Hcap & Hs & Hnb' & He);
    [lia|done|done|destruct p; simpl; lia|].
  exists (solo 24 (ring c) p).2. split; [by apply alone_solo|].
  replace 24%nat with (j + (12 + (12 - j)))%nat by lia.
  rewrite solo_add, Hs, solo_add. simpl fst; simpl snd.
  assert (Hret : returned (solo 12 (ring c') p').2 = true).
  { destruct He as [He|He]; [eapply solo_entry; eauto; unfold small; lia|].
    by rewrite solo_returned. }
  by rewrite (solo_returned _ _ _ Hret).
Qed.

(** ** The sequential operations of [Ring] are the machines running alone *)
Section sequential.
Context {A : Type}.
Implicit Types (rb : RingBuffer A).

Ltac code := cbn -[u64 slot_at Z.ltb Z.leb Z.eqb cas_writePos cas_readPos cas_seq].
Ltac run_code k := exists k; code.
Ltac code_if E := rewrite E; code.

Lemma pushAt_solo d rb w x rb' a :
  pushAt rb w x = (rb', a) →
  ∃ k, solo k rb (PuSeq d x w) =
    match a with
    | pushed => (rb', PuRet None None true)
    | rejected => (rb', PuDrop)
    | retry => (rb', PuLoadR d x)
    end.
Proof.
  unfold pushAt. destruct (seq (slot_at rb w) <? w) eqn:E1.
  { intros [= <- <-]. run_code 1%nat. code_if E1. done. }
  destruct (seq (slot_at rb w) =? w) eqn:E2.
  - destruct (cas_writePos rb w (w +u 1)) as [rb1 []] eqn:E3; intros [= <- <-].
    + run_code 5%nat. code_if E1. code_if E2. code_if E3. done.
    + run_code 2%nat. code_if E1. code_if E2. code_if E3. done.
  - intros [= <- <-]. run_code 1%nat. code_if E1. code_if E2. done.
Qed.

Lemma replaceOldest_solo rb r w x rb' a old :
  replaceOldest rb r w x = (rb', (a, old)) →
  ∃ k, solo k rb (EvSeq x r w) =
    match a with
    | pushed => (rb', PuRet (Some r) old true)
    | rejected => (rb', PuDrop)
    | retry => (rb', PuLoadR true x)
    end.
Proof.
  unfold replaceOldest. destruct (seq (slot_at rb r) <=? r) eqn:E1.
  { intros [= <- <- <-]. run_code 1%nat. code_if E1. done. }
  destruct (negb (seq (slot_at rb r) =? r +u 1) || negb (w =? r +u capacity rb)) eqn:E2.
  { intros [= <- <- <-]. run_code 1%nat. code_if E1. code_if E2. done. }
  destruct (cas_seq rb r (r +u 1) r) as [rb1 []] eqn:E3.
  - destruct (cas_readPos rb1 r (r +u 1)) as [rb2 []] eqn:E4; intros [= <- <- <-].
    + run_code 10%nat. code_if E1. code_if E2. code_if E3. code_if E4. done.
    + run_code 3%nat. code_if E1. code_if E2. code_if E3. code_if E4. done.
  - intros [= <- <- <-]. run_code 2%nat. code_if E1. code_if E2. code_if E3. done.
Qed.

Lemma solo_trans k1 k2 rb p rb1 p1 rb2 p2 :
  solo k1 rb p = (rb1, p1) → solo k2 rb1 p1 = (rb2, p2) → solo (k1 + k2) rb p = (rb2, p2).
Proof. intros H1 H2. by rewrite solo_add, H1. Qed.

Lemma Push_loop_solo fuel rb x rb' ok :
  Push_loop fuel rb x = Some (rb', ok) →
  ∃ k, solo k rb (PuLoadR false x) = (rb', PuRet None None ok).
Proof.
  revert rb. induction fuel as [|fuel IH]; intros rb; [done|]. simpl. unfold Push_turn.
  destruct (writePos rb -u readPos rb <? capacity rb) eqn:E.
  - destruct (pushAt rb (writePos rb) x) as [rb1 a] eqn:E1.
    destruct (pushAt_solo false _ _ _ _ _ E1) as [k Hk].
    assert (Hst : solo 2 rb (PuLoadR false x) = (rb, PuSeq false x (writePos rb)))
      by (simpl; by rewrite E).
    pose proof (solo_trans _ _ _ _ _ _ _ _ Hst (eq_trans Hk (surjective_pairing _))) as Ht.
    destruct a; intros Hr.
    + destruct (IH _ Hr) as [k' Hk']. eexists. by eapply solo_trans.
    + simplify_eq. by eexists.
    + simplify_eq. eexists. eapply solo_trans; [done|]. by instantiate (1 := 1%nat).
  - intros [= <- <-]. exists 3%nat. simpl. by rewrite E.
Qed.

Lemma PushDropOldest_loop_solo fuel rb x rb' old ok :
  PushDropOldest_loop fuel rb x = Some (rb', (old, ok)) →
  ∃ k r, solo k rb (PuLoadR true x) = (rb', PuRet r old ok).
Proof.
  revert rb. induction fuel as [|fuel IH]; intros rb; [done|]. simpl. unfold PushDropOldest_turn.
  destruct (writePos rb -u readPos rb <? capacity rb) eqn:E.
  - destruct (pushAt rb (writePos rb) x) as [rb1 a] eqn:E1.
    destruct (pushAt_solo true _ _ _ _ _ E1) as [k Hk].
    assert (Hst : solo 2 rb (PuLoadR true x) = (rb, PuSeq true x (writePos rb)))
      by (simpl; by rewrite E).
    pose proof (solo_trans _ _ _ _ _ _ _ _ Hst (eq_trans Hk (surjective_pairing _))) as Ht.
    destruct a; intros Hr.
    + destruct (IH _ Hr) as (k' & r & Hk'). eexists _, r. by eapply solo_trans.
    + simplify_eq. by eexists _, _.
    + simplify_eq. eexists _, None. eapply solo_trans; [done|]. by instantiate (1 := 1%nat).
  - destruct (replaceOldest rb (readPos rb) (writePos rb) x) as [rb1 [a old1]] eqn:E1.
    destruct (replaceOldest_solo _ _ _ _ _ _ _ E1) as [k Hk].
    assert (Hst : solo 2 rb (PuLoadR true x) = (rb, EvSeq x (readPos rb) (writePos rb)))
      by (simpl; by rewrite E).
    pose proof (solo_trans _ _ _ _ _ _ _ _ Hst (eq_trans Hk (surjective_pairing _))) as Ht.
    destruct a; intros Hr.
    + destruct (IH _ Hr) as (k' & r & Hk'). eexists _, r. by eapply solo_trans.
    + simplify_eq. by eexists _, _.
    + simplify_eq. eexists _, None. eapply solo_trans; [done|]. by instantiate (1 := 1%nat).
Qed.

Lemma pop_solo fuel wait rb rb' v :
  pop fuel wait rb = Some (rb', v) →
  ∃ k r, solo k rb (PoLoadR wait) = (rb', PoRet r v).
Proof.
  revert rb. induction fuel as [|fuel IH]; intros rb; [done|]. simpl.
  destruct (writePos rb <=? readPos rb) eqn:E1.
  { intros [= <- <-]. exists 2%nat, None. simpl. by rewrite E1. }
  assert (Hst : solo 2 rb (PoLoadR wait) = (rb, PoSeq wait (readPos rb))) by (simpl; by rewrite E1).
  destruct (seq (slot_at rb (readPos rb)) <=? readPos rb) eqn:E2.
  { destruct wait; simpl.
    - intros Hr. destruct (IH _ Hr) as (k & r & Hk). exists (2 + (1 + k))%nat, r.
      eapply solo_trans; [done|]. eapply solo_trans; [|done]. simpl. by rewrite E2.
    - intros [= <- <-]. exists (2 + 1)%nat, None. eapply solo_trans; [done|].
      simpl. by rewrite E2. }
  destruct (seq (slot_at rb (readPos rb)) =? readPos rb +u 1) eqn:E3.
  - destruct (cas_readPos rb (readPos rb) (readPos rb +u 1)) as [rb1 []] eqn:E4.
    + intros [= <- <-]. exists (2 + 6)%nat, (Some (readPos rb)). eapply solo_trans; [done|].
      code. code_if E2. code_if E3. code_if E4. done.
    + intros Hr. destruct (IH _ Hr) as (k & r & Hk). exists (2 + (2 + k))%nat, r.
      eapply solo_trans; [done|]. eapply solo_trans; [|done].
      code. code_if E2. code_if E3. code_if E4. done.
  - intros Hr. destruct (IH _ Hr) as (k & r & Hk). exists (2 + (1 + k))%nat, r.
    eapply solo_trans; [done|]. eapply solo_trans; [|done]. code. code_if E2. code_if E3. done.
Qed.

End sequential.

(**  The sequential [Push], [PushDropOldest] and [pop] of the ring model are
    the concurrent machines run by one goroutine: from every buffer state, a
    call that returns does so with the same buffer and the same result after
    some number of uninterrupted atomic actions. *)
Theorem sequential_is_solo {A} fuel (rb : RingBuffer A) :
  (∀ x rb' ok, Push fuel rb (Some x) = Some (rb', ok) →
    ∃ k, solo k rb (PuLoadR false x) = (rb', PuRet None None ok)) ∧
  (∀ x rb' old ok, PushDropOldest fuel rb (Some x) = Some (rb', (old, ok)) →
    ∃ k r, solo k rb (PuLoadR true x) = (rb', PuRet r old ok)) ∧
  (∀ wait rb' v, pop fuel wait rb = Some (rb', v) →
    ∃ k r, solo k rb (PoLoadR wait) = (rb', PoRet r v)).
Proof.
  split; [|split].
  - intros x rb' ok. apply Push_loop_solo.
  - intros x rb' old ok. apply PushDropOldest_loop_solo.
  - intros wait rb' v. apply pop_solo.
Qed.

(** ** Executing a schedule

    A schedule names who moves next: [inl (t, p)] starts a call, [inr t] runs
    one action of [t]. *)
Section schedules.
Context {A : Type}.

Definition sched_step (c : config (A := A)) (m : nat * pc A + nat)
    : option (option label * config (A := A)) :=
  match m with
  | inl (t, p) =>
      if entry p && match thr c !! t with Some p0 => returned p0 | None => true end
      then Some (None, Config (ring c) (<[t := p]> (thr c)) (hist c)) else None
  | inr t =>
      match thr c !! t with
      | Some p =>
          if returned p then None else
          let '(rb', p') := exec (ring c) p in
          Some (Some (t, p, p'), Config rb' (<[t := p']> (thr c)) (hist c ++ claims (ring c) p))
      | None => None
      end
  end.

Fixpoint sched_run (tr : list label) (c : config (A := A)) (ms : list (nat * pc A + nat))
    : option (list label * config (A := A)) :=
  match ms with
  | [] => Some (tr, c)
  | m :: ms => '(l, c) ← sched_step c m; sched_run (tr ++ option_list l) c ms
  end.

Lemma sched_step_sound c m l c' : sched_step c m = Some (l, c') → cstep c l c'.
Proof.
  destruct m as [[t p]|t]; simpl.
  - destruct (entry p) eqn:E; [|done]. simpl.
    destruct (thr c !! t) as [p0|] eqn:Ht; [destruct (returned p0) eqn:Er; [|done]|];
      intros [= <- <-]; (apply cstep_call; [done|]); intros p1; rewrite Ht; intros; by simplify_eq.
  - destruct (thr c !! t) as [p|] eqn:Ht; [|done]. destruct (returned p) eqn:Er; [done|].
    destruct (exec (ring c) p) as [rb' p'] eqn:Ex. intros [= <- <-]. by apply cstep_run.
Qed.

Lemma sched_run_sound cp tr c ms tr' c' :
  run cp tr c → sched_run tr c ms = Some (tr', c') → run cp tr' c'.
Proof.
  revert tr c. induction ms as [|m ms IH]; intros tr c Hr; simpl; [by intros [= <- <-]|].
  destruct (sched_step c m) as [[l c1]|] eqn:E; [|done]. simpl. intros Hs.
  apply sched_step_sound in E. eapply IH; [|done].
  destruct l; simpl; [by eapply run_act|]. rewrite app_nil_r. by eapply run_call.
Qed.

End schedules.

(** A concrete interleaving on a buffer of two slots: goroutine 0 pushes 10 and
    11, goroutine 1 claims position 0 and stops, goroutine 2 in
    [PushDropOldest] meets the full buffer and evicts. *)
Definition demo_schedule : list (nat * pc nat + nat) :=
  [inl (0%nat, PuLoadR false 10%nat)] ++ replicate 7 (inr 0%nat) ++
  [inl (0%nat, PuLoadR false 11%nat)] ++ replicate 7 (inr 0%nat) ++
  [inl (1%nat, PoLoadR true)] ++ replicate 3 (inr 1%nat) ++
  [inl (2%nat, PuLoadR true 12%nat)] ++ replicate 4 (inr 2%nat) ++
  replicate 5 (inr 1%nat) ++ replicate 5 (inr 2%nat).

Definition demo_tr : list (label (A := nat)) :=
  match sched_run [] (initial 2) demo_schedule with Some (tr, _) => tr | None => [] end.
Definition demo_c : config (A := nat) :=
  match sched_run [] (initial 2) demo_schedule with Some (_, c) => c | None => initial 2 end.

Lemma demo_sched : sched_run [] (initial 2) demo_schedule = Some (demo_tr, demo_c).
Proof. vm_compute. reflexivity. Qed.

Lemma demo_run : run 2 demo_tr demo_c.
Proof. exact (sched_run_sound 2 [] (initial 2) demo_schedule _ _ (run_nil 2) demo_sched). Qed.

Lemma demo_long : long_enough 2 demo_tr.
Proof. vm_compute. reflexivity. Qed.

Lemma mpmc_refines_queue_witness :
  ∃ l c', cstep demo_c l c' ∧ queue_step (cap demo_c) (contents demo_c) l (contents c').
Proof.
  pose (m := sched_step demo_c (inr 2%nat)).
  destruct m as [[l c']|] eqn:E; [|exfalso; vm_compute in E; discriminate].
  exists l, c'. assert (Hs : cstep demo_c l c') by exact (sched_step_sound _ _ _ _ E).
  split; [exact Hs|].
  refine (proj1 (mpmc_refines_queue 2 demo_tr demo_c c' l _ demo_run Hs _)); [lia|].
  vm_compute in E. injection E as <- <-. vm_compute. reflexivity.
Defined.

Lemma mpmc_exactly_once_witness :
  (1%nat, 0, Some 10%nat) ∈ omap return_of demo_tr ∧ hist demo_c !! 0%nat = Some 10%nat.
Proof.
  assert (Hin : (1%nat, 0, Some 10%nat) ∈ omap return_of demo_tr) by (vm_compute; left).
  split; [exact Hin|].
  destruct (mpmc_exactly_once 2 demo_tr demo_c ltac:(lia) demo_run demo_long)
    as (_ & _ & _ & _ & Hret).
  destruct (Hret _ _ _ Hin) as (_ & x & Hx & Hh). injection Hx as <-. exact Hh.
Defined.

Lemma mpmc_item_exclusive_witness :
  thr demo_c !! 2%nat = Some (PuItem 12%nat 2) ∧ 2%nat = 2%nat.
Proof.
  assert (H : thr demo_c !! 2%nat = Some (PuItem 12%nat 2)) by (vm_compute; reflexivity).
  split; [exact H|].
  exact (mpmc_item_exclusive 2 demo_tr demo_c 2%nat 2%nat _ _ 2 2 ltac:(lia) demo_run demo_long
    H H eq_refl eq_refl eq_refl).
Defined.

Lemma mpmc_obstruction_free_witness :
  thr demo_c !! 2%nat = Some (PuItem 12%nat 2) ∧
  ∃ q, thr (alone 24 2%nat demo_c) !! 2%nat = Some q ∧ returned q = true.
Proof.
  assert (H : thr demo_c !! 2%nat = Some (PuItem 12%nat 2)) by (vm_compute; reflexivity).
  split; [exact H|].
  refine (mpmc_obstruction_free 2 demo_tr demo_c 2%nat _ _ demo_run _ H eq_refl); [lia|].
  vm_compute. reflexivity.
Defined.

Lemma sequential_is_solo_witness :
  ∃ k, solo k (NewRingBuffer 2) (PuLoadR false 5%nat) =
    ((solo 7 (NewRingBuffer 2) (PuLoadR false 5%nat)).1, PuRet None None true).
Proof.
  apply (proj1 (sequential_is_solo 1 (NewRingBuffer 2))). vm_compute. reflexivity.
Defined.
