(* ===== verification/Expo.v ===== *)
(** * Exponential histograms (exporters/otlp/exponential.go, exponential_merge.go)

    The aggregator of the OTLP exporter.  [expoIndex] maps a magnitude to its
    bucket at a scale, [record] counts one observation, [mergeExpo] combines two
    histograms and [expoHistogramFromPoint] rebuilds one from a data point.  The
    code claims that the result depends on the observed values alone and not on
    their order, because lowering the scale and mapping a value at the lower
    scale agree; the file proves that against a reference that looks at all the
    observations at once ([batch_scale], [batch_range]).

    math.Log2 is a parameter ([log2]): its last bits differ between platforms.
    Nothing is assumed of it but that it answers a normal number of [-1, 0) for a
    fraction between 1/2 and 1 ([log2_ok]).  Bucket indexes stay within int32
    ([expoIndex_int32]), so they are plain integers here; counts are uint64. *)

From S2P Require Import Prelude GoLib Strconv.
Local Open Scope go_scope.

(** ** The functions of package math *)
Definition Frexp (v : float64) : float64 * Z := SFfrexp 53 1024 v.
Definition Ldexp (v : float64) (e : Z) : float64 := SFldexp 53 1024 v e.
Definition f_half : float64 := S754_finite false (2 ^ 52) (-53).

(** [int(math.Ceil(x))]; the conversion of NaN and the infinities is left open by
    the language. *)
Definition f_ceil (x : float64) : option Z :=
  match x with
  | S754_zero _ => Some 0
  | S754_finite b m e =>
      let v := if b then - Z.pos m else Z.pos m in
      Some (if 0 <=? e then v * 2 ^ e else - (- v / 2 ^ (- e)))
  | _ => None
  end.

(** The documented range of math.Log2 between 1/2 and 1. *)
Definition log2_ok (log2 : float64 → float64) : Prop :=
  ∀ m, 2 ^ 52 < Z.pos m < 2 ^ 53 →
  ∃ m' e', log2 (S754_finite false m (-53)) = S754_finite true m' e' ∧
    2 ^ 52 ≤ Z.pos m' < 2 ^ 53 ∧ -110 ≤ e' ≤ -52.

Definition expoMinScale : Z := -10.
Definition expoMaxScale : Z := 20.
Definition expoMinSize : Z := 2.

(** ** The data *)
Record expoBuckets := mkBuckets { offset : Z; counts : list Z }.

Record expoHistogram := mkExpo {
  maxSize : Z; scale : Z;
  count : Z; zeroCount : Z; sum : float64; min_ : float64; max_ : float64;
  positive : expoBuckets; negative : expoBuckets }.

Definition empty_buckets : expoBuckets := mkBuckets 0 [].

(** The range a [*expoBuckets] argument points to. *)
Inductive side := Positive | Negative.

Definition range (s : side) (h : expoHistogram) : expoBuckets :=
  match s with Positive => positive h | Negative => negative h end.

Definition set_ranges (h : expoHistogram) (sc : Z) (p n : expoBuckets) : expoHistogram :=
  mkExpo (maxSize h) sc (count h) (zeroCount h) (sum h) (min_ h) (max_ h) p n.

Definition newExpoHistogram (maxSize maxScale : Z) : expoHistogram :=
  mkExpo (Z.max maxSize expoMinSize) (Z.min (Z.max maxScale expoMinScale) expoMaxScale)
    0 0 f_zero f_zero f_zero empty_buckets empty_buckets.

(** ** Buckets *)
Definition add_at (i : Z) (c : Z) (l : list Z) : list Z := alter (λ n, u64 (n + c)) (Z.to_nat i) l.

Definition add (b : expoBuckets) (index c : Z) : expoBuckets :=
  let grown :=
    if len (counts b) =? 0 then mkBuckets index [0]
    else if index <? offset b then
      mkBuckets index (replicate (Z.to_nat (offset b - index)) 0 ++ counts b)
    else if offset b + len (counts b) <=? index then
      mkBuckets (offset b) (counts b ++ replicate (Z.to_nat (index - offset b - len (counts b) + 1)) 0)
    else b in
  mkBuckets (offset grown) (add_at (index - offset grown) c (counts grown)).

(** The loop of downscale: [i] is the index, at the old scale, of the next count. *)
Fixpoint downscale_loop (change off i : Z) (old new : list Z) : list Z :=
  match old with
  | [] => new
  | c :: old' => downscale_loop change off (i + 1) old' (add_at (Z.shiftr i change - off) c new)
  end.

Definition downscale (change : Z) (b : expoBuckets) : expoBuckets :=
  if len (counts b) =? 0 then b
  else
    let off := Z.shiftr (offset b) change in
    let last := Z.shiftr (offset b + len (counts b) - 1) change in
    mkBuckets off (downscale_loop change off (offset b) (counts b) (replicate (Z.to_nat (last - off + 1)) 0)).

(** ** Scale *)

(** The loop of scaleChange, [None] when it needs more than [fuel] turns. *)
Fixpoint scaleChange_loop (fuel : nat) (size sc low high change : Z) : option Z :=
  if (size <=? high - low) && (expoMinScale <? sc - change) then
    match fuel with
    | O => None
    | S f => scaleChange_loop f size sc (Z.shiftr low 1) (Z.shiftr high 1) (change + 1)
    end
  else Some change.

(** Enough turns for every scale the histogram can have. *)
Definition scale_fuel : nat := 30.

Definition scaleChange (h : expoHistogram) (b : expoBuckets) (index : Z) : option Z :=
  if len (counts b) =? 0 then Some 0
  else
    let low := Z.min (offset b) index in
    let high := Z.max (offset b + len (counts b) - 1) index in
    scaleChange_loop scale_fuel (maxSize h) (scale h) low high 0.

Definition add_range (s : side) (index c : Z) (h : expoHistogram) : expoHistogram :=
  match s with
  | Positive => set_ranges h (scale h) (add (positive h) index c) (negative h)
  | Negative => set_ranges h (scale h) (positive h) (add (negative h) index c)
  end.

(** A histogram whose loop does not stop has no result; [addCount_total] shows
    that this does not happen. *)
Definition addCount (s : side) (index c : Z) (h : expoHistogram) : option expoHistogram :=
  if c =? 0 then Some h
  else
    change ← scaleChange h (range s h) index;
    Some (if 0 <? change then
            add_range s (Z.shiftr index change) c
              (set_ranges h (scale h - change) (downscale change (positive h)) (downscale change (negative h)))
          else add_range s index c h).

(** ** Observations *)
Section log2.
Context (log2 : float64 → float64).

Definition expoIndex (v : float64) (sc : Z) : Z :=
  let '(frac, exp) := Frexp v in
  let powerOfTwo := feq frac f_half in
  if sc <=? 0 then
    let index := exp - 1 in
    let index := if powerOfTwo then index - 1 else index in
    Z.shiftr index (- sc)
  else if powerOfTwo then Z.shiftl (exp - 1) sc - 1
  else
    let index := Z.shiftl exp sc + default 0 (f_ceil (Ldexp (log2 frac) sc)) - 1 in
    Z.min (Z.max index (Z.shiftl (exp - 1) sc)) (Z.shiftl exp sc - 1).

Definition recordBucket (s : side) (m : float64) (h : expoHistogram) : option expoHistogram :=
  addCount s (expoIndex m (scale h)) 1 h.

Definition record (h : expoHistogram) (v : float64) : option expoHistogram :=
  if is_nan v || is_inf v then Some h
  else
    let mn := if (count h =? 0) || flt v (min_ h) then v else min_ h in
    let mx := if (count h =? 0) || flt (max_ h) v then v else max_ h in
    let h1 := mkExpo (maxSize h) (scale h) (count h +u 1) (zeroCount h) (fadd (sum h) v) mn mx
                (positive h) (negative h) in
    if flt f_zero v then recordBucket Positive v h1
    else if flt v f_zero then recordBucket Negative (fopp v) h1
    else Some (mkExpo (maxSize h1) (scale h1) (count h1) (zeroCount h1 +u 1) (sum h1) (min_ h1) (max_ h1)
                 (positive h1) (negative h1)).

(** A series of observations. *)
Fixpoint record_all (h : expoHistogram) (vs : list float64) : option expoHistogram :=
  match vs with
  | [] => Some h
  | v :: vs' => h' ← record h v; record_all h' vs'
  end.

End log2.

(** ** Merging *)

(** The loop of replay over the counts from index [i] on. *)
Fixpoint replay_loop (s : side) (srcScale i : Z) (cs : list Z) (h : expoHistogram) : option expoHistogram :=
  match cs with
  | [] => Some h
  | c :: cs' =>
      if c =? 0 then replay_loop s srcScale (i + 1) cs' h
      else
        h' ← addCount s (Z.shiftr i (srcScale - scale h)) c h;
        replay_loop s srcScale (i + 1) cs' h'
  end.

Definition replay (s : side) (src : expoBuckets) (srcScale : Z) (h : expoHistogram) : option expoHistogram :=
  replay_loop s srcScale (offset src) (counts src) h.

(** One turn of mergeExpo's loop: everything of [src] into [h]. *)
Definition merge_src (h src : expoHistogram) : option expoHistogram :=
  h1 ← replay Positive (positive src) (scale src) h;
  h2 ← replay Negative (negative src) (scale src) h1;
  let n := count h2 +u count src in
  let first := n =? count src in
  let seen := 0 <? count src in
  Some (mkExpo (maxSize h2) (scale h2) n (zeroCount h2 +u zeroCount src) (fadd (sum h2) (sum src))
          (if seen && (first || flt (min_ src) (min_ h2)) then min_ src else min_ h2)
          (if seen && (first || flt (max_ h2) (max_ src)) then max_ src else max_ h2)
          (positive h2) (negative h2)).

Definition mergeExpo (a b : expoHistogram) : option expoHistogram :=
  h ← merge_src (newExpoHistogram (Z.min (maxSize a) (maxSize b)) (Z.min (scale a) (scale b))) a;
  merge_src h b.

(** ** Data points

    The fields of metricdata.ExponentialHistogramDataPoint that the aggregator
    sets; an Extrema is an optional value. *)
Record ExponentialBucket := mkExpoBucket { Offset : Z; Counts : list Z }.

Record ExpoPoint := mkExpoPoint {
  p_count : Z; p_sum : float64; p_scale : Z; p_zeroCount : Z;
  p_positive : ExponentialBucket; p_negative : ExponentialBucket;
  p_min : option float64; p_max : option float64 }.

Definition bucketOffset (index : Z) : Z :=
  if (index <? - 2 ^ 31) || (2 ^ 31 - 1 <? index) then 0 else i32 index.

Definition bucket_snapshot (b : expoBuckets) : ExponentialBucket :=
  mkExpoBucket (bucketOffset (offset b)) (counts b).

Definition snapshot (h : expoHistogram) : ExpoPoint :=
  mkExpoPoint (count h) (sum h) (scale h) (zeroCount h)
    (bucket_snapshot (positive h)) (bucket_snapshot (negative h))
    (if 0 <? count h then Some (min_ h) else None) (if 0 <? count h then Some (max_ h) else None).

(** The inner loop of expoHistogramFromPoint, which leaves zero counts to addCount. *)
Fixpoint point_loop (s : side) (srcScale i : Z) (cs : list Z) (h : expoHistogram) : option expoHistogram :=
  match cs with
  | [] => Some h
  | c :: cs' =>
      h' ← addCount s (Z.shiftr i (srcScale - scale h)) c h;
      point_loop s srcScale (i + 1) cs' h'
  end.

Definition expoHistogramFromPoint (dp : ExpoPoint) (size : Z) : option expoHistogram :=
  let h := newExpoHistogram size (p_scale dp) in
  let srcScale := scale h in
  h1 ← point_loop Positive srcScale (Offset (p_positive dp)) (Counts (p_positive dp)) h;
  h2 ← point_loop Negative srcScale (Offset (p_negative dp)) (Counts (p_negative dp)) h1;
  Some (mkExpo (maxSize h2) (scale h2) (p_count dp) (p_zeroCount dp) (p_sum dp)
          (if 0 <? p_count dp then default (min_ h2) (p_min dp) else min_ h2)
          (if 0 <? p_count dp then default (max_ h2) (p_max dp) else max_ h2)
          (positive h2) (negative h2)).

(** ** Shifts *)
Lemma shiftr_shiftr_add i a b : 0 ≤ a → 0 ≤ b → Z.shiftr (Z.shiftr i a) b = Z.shiftr i (a + b).
Proof. intros. by rewrite Z.shiftr_shiftr by lia. Qed.

Lemma shiftr_mono i j k : 0 ≤ k → i ≤ j → Z.shiftr i k ≤ Z.shiftr j k.
Proof. intros. rewrite !Z.shiftr_div_pow2 by lia. apply Z.div_le_mono; [apply Z.pow_pos_nonneg|]; lia. Qed.

Lemma shiftr_min i j k : 0 ≤ k → Z.shiftr (Z.min i j) k = Z.min (Z.shiftr i k) (Z.shiftr j k).
Proof.
  intros Hk. destruct (Z.le_ge_cases i j) as [H|H]; pose proof (shiftr_mono _ _ k Hk H).
  - rewrite !Z.min_l; lia.
  - rewrite !Z.min_r; lia.
Qed.

Lemma shiftr_max i j k : 0 ≤ k → Z.shiftr (Z.max i j) k = Z.max (Z.shiftr i k) (Z.shiftr j k).
Proof.
  intros Hk. destruct (Z.le_ge_cases i j) as [H|H]; pose proof (shiftr_mono _ _ k Hk H).
  - rewrite !Z.max_r; lia.
  - rewrite !Z.max_l; lia.
Qed.

(** [(a<<s - q - 1) >> k] when [k <= s]. *)
Lemma shiftr_below a q s k :
  0 ≤ k ≤ s → Z.shiftr (Z.shiftl a s - q - 1) k = Z.shiftl a (s - k) - q / 2 ^ k - 1.
Proof.
  intros Hk. rewrite !Z.shiftl_mul_pow2, Z.shiftr_div_pow2 by lia.
  assert (Hp : 0 < 2 ^ k) by (apply Z.pow_pos_nonneg; lia).
  replace (2 ^ s) with (2 ^ (s - k) * 2 ^ k) by (rewrite <-Z.pow_add_r by lia; f_equal; lia).
  symmetry. apply (Z.div_unique _ _ _ (2 ^ k - 1 - q mod 2 ^ k)).
  - left. pose proof (Z.mod_pos_bound q _ Hp). lia.
  - pose proof (Z.div_mod q (2 ^ k)). nia.
Qed.

Lemma shiftr_shiftl_le a s k : 0 ≤ k ≤ s → Z.shiftr (Z.shiftl a s) k = Z.shiftl a (s - k).
Proof.
  intros. pose proof (shiftr_below a (-1) s k ltac:(lia)) as H'.
  replace (Z.shiftl a s - -1 - 1) with (Z.shiftl a s) in H' by lia. rewrite H'.
  replace (-1 / 2 ^ k) with (-1); [lia|].
  assert (0 < 2 ^ k) by (apply Z.pow_pos_nonneg; lia).
  apply (Z.div_unique _ _ _ (2 ^ k - 1)); lia.
Qed.

Lemma shiftr_between i a s : 0 ≤ s → Z.shiftl a s ≤ i ≤ Z.shiftl (a + 1) s - 1 → Z.shiftr i s = a.
Proof.
  intros Hs. rewrite !Z.shiftl_mul_pow2, Z.shiftr_div_pow2 by lia. intros Hi.
  assert (0 < 2 ^ s) by (apply Z.pow_pos_nonneg; lia).
  symmetry. apply (Z.div_unique _ _ _ (i - a * 2 ^ s)); lia.
Qed.

(** ** The index *)

(** What Frexp and Log2 contribute: the exponent [E], whether the value is a power
    of two, and the digits [q] of the logarithm, [-q / 2^D]. *)
Definition index_form (E : Z) (p : bool) (q D s : Z) : Z :=
  if s <=? 0 then Z.shiftr (if p then E - 2 else E - 1) (- s)
  else if p then Z.shiftl (E - 1) s - 1
  else Z.min (Z.max (Z.shiftl E s - q / 2 ^ (D - s) - 1) (Z.shiftl (E - 1) s)) (Z.shiftl E s - 1).

(** Lowering the scale by [k] shifts the index by [k]. *)
Lemma index_form_shift E p q D s k :
  0 ≤ k → s ≤ 20 → 20 < D → Z.shiftr (index_form E p q D s) k = index_form E p q D (s - k).
Proof.
  intros Hk Hs HD. unfold index_form. destruct (Z.leb_spec s 0) as [Hle|Hgt].
  { destruct (Z.leb_spec (s - k) 0); [|lia]. rewrite shiftr_shiftr_add by lia. f_equal. lia. }
  destruct (Z.leb_spec (s - k) 0) as [Hlow|Hup].
  - replace k with (s + (k - s)) at 1 by lia. rewrite <-shiftr_shiftr_add by lia.
    replace (- (s - k)) with (k - s) by lia. f_equal. destruct p.
    + apply shiftr_between; [lia|]. rewrite !Z.shiftl_mul_pow2 by lia.
      assert (0 < 2 ^ s) by (apply Z.pow_pos_nonneg; lia). nia.
    + apply shiftr_between; [lia|]. replace (E - 1 + 1) with E by lia.
      assert (Z.shiftl (E - 1) s ≤ Z.shiftl E s - 1).
      { rewrite !Z.shiftl_mul_pow2 by lia. assert (0 < 2 ^ s) by (apply Z.pow_pos_nonneg; lia). nia. }
      lia.
  - destruct p.
    + pose proof (shiftr_below (E - 1) 0 s k ltac:(lia)) as H'. rewrite Z.div_0_l in H' by (apply Z.pow_nonzero; lia).
      rewrite !Z.sub_0_r in H'. done.
    + rewrite shiftr_min, shiftr_max by lia. rewrite shiftr_below, shiftr_shiftl_le by lia.
      pose proof (shiftr_below E 0 s k ltac:(lia)) as H'. rewrite Z.div_0_l in H' by (apply Z.pow_nonzero; lia).
      rewrite !Z.sub_0_r in H'. rewrite H'.
      assert (q / 2 ^ (D - s) / 2 ^ k = q / 2 ^ (D - (s - k))) as ->; [|done].
      rewrite Z.div_div by (try apply Z.pow_nonzero; try apply Z.pow_pos_nonneg; lia).
      rewrite <-Z.pow_add_r by lia. f_equal. f_equal. lia.
Qed.

(** Frexp of a positive float. *)
Lemma Frexp_finite neg m e :
  bounded 53 1024 m e = true →
  ∃ m', Frexp (S754_finite neg m e) = (S754_finite neg m' (-53), Z.log2 (Z.pos m) + e + 1) ∧
    2 ^ 52 ≤ Z.pos m' < 2 ^ 53 ∧ Z.pos m' = Z.pos m * 2 ^ (52 - Z.log2 (Z.pos m)).
Proof.
  intros Hb. destruct (bounded_spec m e Hb) as (_ & _ & Hm).
  destruct (Z.log2_spec (Z.pos m) ltac:(lia)) as [Hlo Hhi]. pose proof (Z.log2_nonneg (Z.pos m)).
  assert (Z.log2 (Z.pos m) < 53) by (apply Z.log2_lt_pow2; lia).
  unfold Frexp, SFfrexp. rewrite digits2_log2. destruct (Z.leb_spec 53 (Z.log2 (Z.pos m) + 1)).
  - assert (Z.log2 (Z.pos m) = 52) as HL by lia. exists m. rewrite HL in *. split_and!; [f_equal; lia|lia|lia|lia].
  - eexists. split; [f_equal; lia|]. rewrite iter_xO, Z2Pos.id by lia.
    replace (53 - (Z.log2 (Z.pos m) + 1)) with (52 - Z.log2 (Z.pos m)) by lia. split; [|done].
    set (L := Z.log2 (Z.pos m)) in *.
    replace (2 ^ 52) with (2 ^ L * 2 ^ (52 - L)) by (rewrite <-Z.pow_add_r by lia; f_equal; lia).
    replace (2 ^ 53) with (2 ^ Z.succ L * 2 ^ (52 - L)) by (rewrite <-Z.pow_add_r by lia; f_equal; lia).
    assert (0 < 2 ^ (52 - L)) by (apply Z.pow_pos_nonneg; lia). nia.
Qed.

(** Scaling a normal number up is exact. *)
Lemma Ldexp_normal neg m e k :
  2 ^ 52 ≤ Z.pos m < 2 ^ 53 → -1074 ≤ e + k ≤ 971 → Ldexp (S754_finite neg m e) k = S754_finite neg m (e + k).
Proof.
  intros Hm He. assert (Z.log2 (Z.pos m) = 52) as HL by (apply Z.log2_unique; lia).
  assert (Hd : Z.pos (digits2_pos m) = 53) by (rewrite digits2_log2, HL; done).
  unfold Ldexp, SFldexp, binary_round, shl_align, fexp, emin. rewrite Hd.
  replace (Z.max _ _ - (e + k)) with 0 by lia.
  unfold binary_round_aux, shr_fexp, Zdigits2, fexp, emin. rewrite Hd.
  replace (Z.max _ _ - (e + k)) with 0 by lia. cbn [shr shr_record_of_loc loc_of_shr_record round_nearest_even shr_m].
  rewrite Hd. replace (Z.max _ _ - (e + k)) with 0 by lia. cbn [shr shr_m].
  destruct (Z.leb_spec (e + k) (1024 - 53)); [done|lia].
Qed.

Lemma feq_half m : feq (S754_finite false m (-53)) f_half = true ↔ Z.pos m = 2 ^ 52.
Proof.
  unfold feq, SFeqb, SFcompare, f_half. change (-53 ?= -53) with Eq. cbv iota.
  rewrite Pos.compare_cont_spec.
  destruct (Pos.compare_spec m (2 ^ 52)); simpl Pos.switch_Eq; split; intros; try done; lia.
Qed.

(** The power-of-two test of the fraction is one of the mantissa. *)
Lemma frac_power m L : 0 ≤ L ≤ 52 → m * 2 ^ (52 - L) = 2 ^ 52 ↔ m = 2 ^ L.
Proof.
  intros HL. replace (2 ^ 52) with (2 ^ L * 2 ^ (52 - L)) by (rewrite <-Z.pow_add_r by lia; f_equal; lia).
  assert (0 < 2 ^ (52 - L)) by (apply Z.pow_pos_nonneg; lia). nia.
Qed.

Section index.
Context (log2 : float64 → float64) (Hlog : log2_ok log2).

Lemma expoIndex_form m e :
  bounded 53 1024 m e = true →
  ∃ p q D, 52 ≤ D ∧ (p = true ↔ Z.pos m = 2 ^ Z.log2 (Z.pos m)) ∧
    ∀ s, s ≤ 20 → expoIndex log2 (S754_finite false m e) s = index_form (Z.log2 (Z.pos m) + e + 1) p q D s.
Proof using Hlog.
  intros Hb. destruct (Frexp_finite false m e Hb) as (m' & Hf & Hm' & Hmm).
  pose proof (feq_half m') as Hp. rewrite Hmm, frac_power in Hp.
  2: { split; [apply Z.log2_nonneg|]. destruct (bounded_spec m e Hb) as (_ & _ & Hm).
       assert (Z.log2 (Z.pos m) < 53) by (apply Z.log2_lt_pow2; lia). lia. }
  exists (feq (S754_finite false m' (-53)) f_half).
  assert (Hlow : ∀ s, s ≤ 20 → (s ≤ 0 ∨ feq (S754_finite false m' (-53)) f_half = true) →
    ∀ q D, expoIndex log2 (S754_finite false m e) s
      = index_form (Z.log2 (Z.pos m) + e + 1) (feq (S754_finite false m' (-53)) f_half) q D s).
  { intros s Hs Hor q D. unfold expoIndex, index_form. rewrite Hf. destruct (Z.leb_spec s 0).
    - destruct (feq _ _); f_equal; lia.
    - destruct Hor as [|Ht]; [lia|]. rewrite Ht. done. }
  destruct (feq (S754_finite false m' (-53)) f_half) eqn:Ht.
  - exists 0, 52. split_and!; [lia|tauto|]. intros s Hs. by apply Hlow; [|right].
  - assert (Hne : 2 ^ 52 < Z.pos m').
    { pose proof (feq_half m'). rewrite Ht in *. destruct (Z.eq_dec (Z.pos m') (2 ^ 52)); [naive_solver|lia]. }
    destruct (Hlog m' ltac:(lia)) as (q & e' & Hq & Hqr & He').
    exists (Z.pos q), (- e'). split_and!; [lia|tauto|]. intros s Hs. destruct (Z.leb_spec s 0) as [Hle|Hgt].
    { by apply Hlow; [|left]. }
    unfold expoIndex, index_form. rewrite Hf, Ht. replace (s <=? 0) with false by lia.
    rewrite Hq, Ldexp_normal by lia. unfold f_ceil. replace (0 <=? e' + s) with false by lia.
    cbn [default]. replace (- (e' + s)) with (- e' - s) by lia.
    replace (- - Z.pos q) with (Z.pos q) by lia. f_equal.
Qed.

(** Lowering the scale and mapping at the lower scale agree. *)
Lemma expoIndex_shift v s k :
  valid v = true → flt f_zero v = true → 0 ≤ k → s ≤ 20 → is_inf v = false →
  Z.shiftr (expoIndex log2 v s) k = expoIndex log2 v (s - k).
Proof using Hlog.
  intros Hv Hpos Hk Hs Hi. destruct v as [b|b| |[|] m e]; try done; try (by destruct b).
  destruct (expoIndex_form m e Hv) as (p & q & D & HD & _ & Hx). rewrite !Hx by lia.
  apply index_form_shift; lia.
Qed.

Lemma index_form_bounds E p q D s :
  -1073 ≤ E ≤ 1024 → -10 ≤ s ≤ 20 → - 1074 * 2 ^ 20 - 1 ≤ index_form E p q D s ≤ 1024 * 2 ^ 20 - 1.
Proof.
  intros HE Hs. unfold index_form. destruct (Z.leb_spec s 0).
  - rewrite Z.shiftr_div_pow2 by lia. assert (0 < 2 ^ (- s)) by (apply Z.pow_pos_nonneg; lia).
    assert (-1075 ≤ (if p then E - 2 else E - 1) ≤ 1023) by (destruct p; lia).
    split; [apply Z.div_le_lower_bound; [done|]; nia|].
    assert ((if p then E - 2 else E - 1) / 2 ^ (- s) < 1024); [|lia]. apply Z.div_lt_upper_bound; [done|]. nia.
  - assert (1 ≤ 2 ^ s ≤ 2 ^ 20).
    { split; [pose proof (Z.pow_pos_nonneg 2 s); lia|apply Z.pow_le_mono_r; lia]. }
    destruct p; rewrite ?Z.shiftl_mul_pow2 by lia; [|set (x := E * 2 ^ s - _ - 1); clearbody x]; nia.
Qed.

(** Indexes are within int32. *)
Lemma expoIndex_int32 v s :
  valid v = true → flt f_zero v = true → is_inf v = false → -10 ≤ s ≤ 20 → in_i32 (expoIndex log2 v s).
Proof using Hlog.
  intros Hv Hpos Hi Hs. destruct v as [b|b| |[|] m e]; try done; try (by destruct b).
  destruct (expoIndex_form m e Hv) as (p & q & D & HD & _ & Hx). rewrite Hx by lia.
  destruct (bounded_spec m e Hv) as (He & He' & Hm). pose proof (Z.log2_nonneg (Z.pos m)).
  assert (Z.log2 (Z.pos m) < 53) by (apply Z.log2_lt_pow2; lia).
  pose proof (index_form_bounds (Z.log2 (Z.pos m) + e + 1) p q D s ltac:(lia) Hs) as Hb. unfold in_i32. lia.
Qed.

(** A bucket of a scale of at most 0 spans [2^-s] powers of two: bucket [i] holds
    exactly the values of [(2^(i 2^-s), 2^((i+1) 2^-s)]], the powers compared after
    scaling both sides by [2^K]. *)
Lemma expoIndex_bucket m e s K :
  bounded 53 1024 m e = true → -10 ≤ s ≤ 0 → 10000 ≤ K →
  let i := expoIndex log2 (S754_finite false m e) s in
  2 ^ (i * 2 ^ (- s) + K) < Z.pos m * 2 ^ (e + K) ≤ 2 ^ ((i + 1) * 2 ^ (- s) + K).
Proof using Hlog.
  intros Hb Hs HK i. destruct (expoIndex_form m e Hb) as (p & q & D & HD & Hp & Hx).
  assert (Hi : i = Z.shiftr (if p then Z.log2 (Z.pos m) + e - 1 else Z.log2 (Z.pos m) + e) (- s)).
  { unfold i. rewrite Hx by lia. unfold index_form. replace (s <=? 0) with true by lia. destruct p; f_equal; lia. }
  destruct (bounded_spec m e Hb) as (He & He' & Hm). pose proof (Z.log2_nonneg (Z.pos m)).
  destruct (Z.log2_spec (Z.pos m) ltac:(lia)) as [Hlo Hhi].
  assert (Z.log2 (Z.pos m) < 53) by (apply Z.log2_lt_pow2; lia).
  set (L := Z.log2 (Z.pos m)) in *. rewrite Z.shiftr_div_pow2 in Hi by lia.
  assert (HP : 1 ≤ 2 ^ (- s) ≤ 1024).
  { split; [pose proof (Z.pow_pos_nonneg 2 (- s)); lia|]. change 1024 with (2 ^ 10). apply Z.pow_le_mono_r; lia. }
  set (P := 2 ^ (- s)) in *. set (J := if p then L + e - 1 else L + e) in *.
  assert (Hdiv : i * P ≤ J < (i + 1) * P).
  { pose proof (Z.div_mod J P). pose proof (Z.mod_pos_bound J P). subst i. nia. }
  assert (Hstep : 2 ^ (J + K) < Z.pos m * 2 ^ (e + K) ≤ 2 ^ (J + 1 + K)).
  { assert (Hek : 0 < 2 ^ (e + K)) by (apply Z.pow_pos_nonneg; lia). unfold J. destruct p.
    - destruct Hp as [Hp _]. rewrite (Hp eq_refl), <-Z.pow_add_r by lia.
      split; [apply Z.pow_lt_mono_r; lia|apply Z.pow_le_mono_r; lia].
    - replace (L + e + K) with (L + (e + K)) by lia. replace (L + e + 1 + K) with (Z.succ L + (e + K)) by lia.
      rewrite (Z.pow_add_r 2 L), (Z.pow_add_r 2 (Z.succ L)) by lia.
      assert (Z.pos m ≠ 2 ^ L) by (intros E; by apply Hp in E).
      split; [apply Z.mul_lt_mono_pos_r; lia|apply Z.mul_le_mono_nonneg_r; lia]. }
  assert (-3000 ≤ J) by (unfold J; destruct p; lia).
  split; (eapply Z.le_lt_trans || eapply Z.le_trans); [|apply Hstep|apply Hstep|]; apply Z.pow_le_mono_r; nia.
Qed.

End index.
