(* ===== verification/ExpoSpec.v ===== *)
(** * The exponential histogram against its reference

    The specification sees all the observations of a range at once: the list [W]
    of their indexes at the starting scale, with multiplicities.  [spec] says what
    the aggregator's state is for such lists: the scale is the finest that fits,
    and every bucket holds the weight of the indexes that fall into it.  Each
    operation is shown to keep [spec] ([addCount_spec]); since [spec] determines
    the state, the order of the observations, a merge and the rebuilding of a data
    point are all covered by it. *)

From S2P Require Import Prelude GoLib Strconv Expo.
Local Open Scope go_scope.

(** ** Sums over lists *)
(** The sum of an indicator over an interval. *)
Lemma zsum_point j c a n :
  zsum (λ i, if j =? i then c else 0) (seqZ a n) = if (a <=? j) && (j <? a + n) then c else 0.
Proof.
  destruct (Z.le_gt_cases 0 n) as [Hn|Hn].
  2: { rewrite seqZ_nil by lia. destruct (Z.leb_spec a j), (Z.ltb_spec j (a + n)); try done. lia. }
  revert a. pattern n. apply natlike_ind; [| |done].
  - intros a. rewrite seqZ_nil by lia. destruct (Z.leb_spec a j), (Z.ltb_spec j (a + 0)); try done. lia.
  - intros m Hm IH a. rewrite seqZ_cons by lia. rewrite Z.pred_succ.
    change ((if j =? a then c else 0) + zsum (λ i, if j =? i then c else 0) (seqZ (Z.succ a) m) =
      if (a <=? j) && (j <? a + Z.succ m) then c else 0).
    rewrite IH. zbool; simpl; lia.
Qed.

(** ** Weighted indexes *)
Definition weight (k : Z) (W : list (Z * Z)) (x : Z) : Z :=
  zsum (λ p, if Z.shiftr p.1 k =? x then p.2 else 0) W.

Definition total (W : list (Z * Z)) : Z := zsum snd W.
Definition counted (W : list (Z * Z)) : Prop := Forall (λ p, 0 < p.2) W.

Lemma weight_cons k p W x : weight k (p :: W) x = (if Z.shiftr p.1 k =? x then p.2 else 0) + weight k W x.
Proof. done. Qed.

Lemma weight_app k W1 W2 x : weight k (W1 ++ W2) x = weight k W1 x + weight k W2 x.
Proof. apply zsum_app. Qed.

(** A bucket of a lower scale is the sum of the buckets it covers. *)
Lemma weight_range k W x :
  0 ≤ k → weight k W x = zsum (λ i, weight 0 W i) (seqZ (x * 2 ^ k) (2 ^ k)).
Proof.
  intros Hk. induction W as [|[j c] W IH].
  - change (0 = zsum (λ _ : Z, 0) (seqZ (x * 2 ^ k) (2 ^ k))). by rewrite zsum_zero.
  - rewrite weight_cons, IH. rewrite (zsum_ext (λ i, weight 0 ((j, c) :: W) i)
      (λ i, (if j =? i then c else 0) + weight 0 W i)) by (intros i _; by rewrite weight_cons, Z.shiftr_0_r).
    rewrite zsum_add, zsum_point. f_equal. cbn [fst snd]. rewrite Z.shiftr_div_pow2 by lia.
    assert (Hp : 0 < 2 ^ k) by (apply Z.pow_pos_nonneg; lia).
    pose proof (Z.div_mod j (2 ^ k)). pose proof (Z.mod_pos_bound j (2 ^ k) Hp).
    destruct (Z.eqb_spec (j / 2 ^ k) x), (Z.leb_spec (x * 2 ^ k) j), (Z.ltb_spec j (x * 2 ^ k + 2 ^ k)); simpl; try done; nia.
Qed.

Lemma weight_ext W1 W2 k x : (∀ i, weight 0 W1 i = weight 0 W2 i) → 0 ≤ k → weight k W1 x = weight k W2 x.
Proof. intros He Hk. rewrite !weight_range by done. by apply zsum_ext. Qed.

Lemma weight_shift W d k x :
  0 ≤ d → 0 ≤ k → weight k ((λ p, (Z.shiftr p.1 d, p.2)) <$> W) x = weight (d + k) W x.
Proof.
  intros Hd Hk. induction W as [|p W IH]; [done|]. rewrite fmap_cons, !weight_cons, IH. cbn [fst snd].
  by rewrite shiftr_shiftr_add by done.
Qed.

Lemma weight_nonneg k W x : Forall (λ p, 0 ≤ p.2) W → 0 ≤ weight k W x.
Proof.
  intros HW. transitivity (zsum (λ _ : Z * Z, 0) W); [by rewrite zsum_zero|]. apply zsum_le.
  eapply Forall_impl; [exact HW|]. intros p Hp. simpl in *. destruct (_ =? _); lia.
Qed.

Lemma weight_le_total k W x : Forall (λ p, 0 ≤ p.2) W → weight k W x ≤ total W.
Proof.
  intros HW. apply zsum_le. eapply Forall_impl; [exact HW|]. intros p Hp. simpl in *. destruct (_ =? _); lia.
Qed.

Lemma weight_pos k W x : counted W → 0 < weight k W x ↔ ∃ p, p ∈ W ∧ Z.shiftr p.1 k = x.
Proof.
  intros HW. induction HW as [|p W Hp HW IH].
  - split; [unfold weight, zsum; simpl; lia|]. intros (p & Hp & _). by apply elem_of_nil in Hp.
  - rewrite weight_cons. assert (0 ≤ weight k W x).
    { apply weight_nonneg. eapply Forall_impl; [exact HW|]. simpl. lia. }
    destruct (Z.eqb_spec (Z.shiftr p.1 k) x) as [E|E].
    + split; [intros _; exists p; split; [by left|done]|lia].
    + rewrite Z.add_0_l, IH. split; intros (q & Hq & Hx); exists q; (split; [|done]); [by right|].
      apply elem_of_cons in Hq as [->|Hq]; [done|done].
Qed.

(** The entries of a list of counts that starts at index [i]. *)
Fixpoint entries (i : Z) (cs : list Z) : list (Z * Z) :=
  match cs with [] => [] | c :: cs' => (i, c) :: entries (i + 1) cs' end.

Lemma entries_app i c1 c2 : entries i (c1 ++ c2) = entries i c1 ++ entries (i + len c1) c2.
Proof.
  revert i. induction c1 as [|c c1 IH]; intros i; simpl.
  - f_equal. unfold len. simpl. lia.
  - rewrite IH. do 2 f_equal. unfold len. simpl. f_equal. lia.
Qed.

Lemma weight_zeros k i n x : weight k (entries i (replicate n 0)) x = 0.
Proof.
  revert i. induction n as [|n IH]; intros i; [done|]. simpl. rewrite weight_cons, IH. cbn [snd]. by destruct (_ =? _).
Qed.

Lemma entries_fst i cs p : p ∈ entries i cs → i ≤ p.1 < i + len cs.
Proof.
  revert i. induction cs as [|c cs IH]; intros i Hp; simpl in Hp; [by apply elem_of_nil in Hp|].
  unfold len in *. simpl length. apply elem_of_cons in Hp as [->|Hp]; [simpl; lia|]. apply IH in Hp. lia.
Qed.

Lemma weight_outside i cs x : ¬ (i ≤ x < i + len cs) → weight 0 (entries i cs) x = 0.
Proof.
  intros Hx. unfold weight. rewrite (zsum_ext _ (λ _, 0)); [apply zsum_zero|].
  intros p Hp. apply entries_fst in Hp. rewrite Z.shiftr_0_r. destruct (Z.eqb_spec p.1 x); [lia|done].
Qed.

Lemma entries_nonneg i cs : Forall (λ c, 0 ≤ c) cs → Forall (λ p, 0 ≤ p.2) (entries i cs).
Proof. intros Hc. revert i. induction Hc; intros i; simpl; constructor; auto. Qed.

(** Adding to one count. *)
Lemma add_at_spec i c cs idx :
  i ≤ idx < i + len cs → 0 ≤ c → Forall (λ n, 0 ≤ n) cs → weight 0 (entries i cs) idx + c < 2 ^ 64 →
  length (add_at (idx - i) c cs) = length cs ∧ Forall (λ n, 0 ≤ n) (add_at (idx - i) c cs) ∧
  ∀ x, weight 0 (entries i (add_at (idx - i) c cs)) x = weight 0 (entries i cs) x + (if idx =? x then c else 0).
Proof.
  intros Hi Hc Hn Hb. unfold add_at. split; [apply length_alter|].
  revert i idx Hi Hb. induction Hn as [|n cs Hn Hcs IH]; intros i idx Hi Hb; [unfold len in Hi; simpl in Hi; lia|].
  unfold len in Hi. simpl length in Hi.
  destruct (Z.eq_dec idx i) as [->|Hne].
  - rewrite Z.sub_diag. cbn [entries] in *. rewrite weight_cons, Z.shiftr_0_r, Z.eqb_refl in Hb. cbn [snd fst] in Hb.
    rewrite weight_outside in Hb by lia. change (alter (λ n0, u64 (n0 + c)) (Z.to_nat 0) (n :: cs)) with (u64 (n + c) :: cs).
    rewrite u64_small by lia. split; [constructor; [lia|done]|]. intros x. cbn [entries]. rewrite !weight_cons, !Z.shiftr_0_r.
    cbn [fst snd]. destruct (i =? x); lia.
  - cbn [entries] in Hb. rewrite weight_cons in Hb. rewrite Z.shiftr_0_r in Hb. cbn [fst snd] in Hb.
    replace (i =? idx) with false in Hb by lia.
    destruct (IH (i + 1) idx ltac:(unfold len; lia) ltac:(lia)) as [IH1 IH2].
    replace (Z.to_nat (idx - i)) with (S (Z.to_nat (idx - (i + 1)))) by lia.
    change (alter (λ n0, u64 (n0 + c)) (S (Z.to_nat (idx - (i + 1)))) (n :: cs))
      with (n :: alter (λ n0, u64 (n0 + c)) (Z.to_nat (idx - (i + 1))) cs).
    split; [by constructor|]. intros x. cbn [entries]. rewrite !weight_cons, IH2. lia.
Qed.

(** ** A range of buckets *)

(** [b] holds the weighted indexes [W], lowered by [k], and no bucket more. *)
Record holds (b : expoBuckets) (W : list (Z * Z)) (k : Z) : Prop := mkHolds {
  hd_nonneg : Forall (λ c, 0 ≤ c) (counts b);
  hd_weight x : weight 0 (entries (offset b) (counts b)) x = weight k W x;
  hd_empty : W = [] → b = empty_buckets;
  hd_in p : p ∈ W → offset b ≤ Z.shiftr p.1 k < offset b + len (counts b);
  hd_first : W ≠ [] → ∃ p, p ∈ W ∧ Z.shiftr p.1 k = offset b;
  hd_last : W ≠ [] → ∃ p, p ∈ W ∧ Z.shiftr p.1 k = offset b + len (counts b) - 1 }.

Lemma holds_nil k : holds empty_buckets [] k.
Proof. split; try done. intros q Hq. by apply elem_of_nil in Hq. Qed.

Lemma holds_len b W k : holds b W k → len (counts b) = 0 ↔ W = [].
Proof.
  intros Hh. split; [|by intros ->%(hd_empty _ _ _ Hh)]. intros Hl. destruct W as [|p W]; [done|].
  pose proof (hd_in _ _ _ Hh p ltac:(by left)). lia.
Qed.

(** Growing the range to an index keeps the counts. *)
Definition grow (b : expoBuckets) (index : Z) : expoBuckets :=
  if len (counts b) =? 0 then mkBuckets index [0]
  else if index <? offset b then mkBuckets index (replicate (Z.to_nat (offset b - index)) 0 ++ counts b)
  else if offset b + len (counts b) <=? index then
    mkBuckets (offset b) (counts b ++ replicate (Z.to_nat (index - offset b - len (counts b) + 1)) 0)
  else b.

Lemma add_grow b index c :
  add b index c = mkBuckets (offset (grow b index)) (add_at (index - offset (grow b index)) c (counts (grow b index))).
Proof. done. Qed.

Lemma grow_spec b index :
  Forall (λ c, 0 ≤ c) (counts b) →
  Forall (λ c, 0 ≤ c) (counts (grow b index)) ∧
  (∀ x, weight 0 (entries (offset (grow b index)) (counts (grow b index))) x = weight 0 (entries (offset b) (counts b)) x) ∧
  (len (counts b) = 0 ∧ offset (grow b index) = index ∧ len (counts (grow b index)) = 1 ∨
   len (counts b) ≠ 0 ∧ offset (grow b index) = Z.min (offset b) index ∧
     offset (grow b index) + len (counts (grow b index)) - 1 = Z.max (offset b + len (counts b) - 1) index).
Proof.
  intros Hn. pose proof (len_nonneg (counts b)) as Hl0. unfold grow. destruct (Z.eqb_spec (len (counts b)) 0) as [Hl|Hl].
  - assert (counts b = []) as Hc by (unfold len in Hl; destruct (counts b); [done|simpl in Hl; lia]).
    rewrite Hc. simpl. split_and!; [repeat constructor; lia| |by left].
    intros x. rewrite weight_cons. cbn [snd]. by destruct (_ =? _).
  - destruct (Z.ltb_spec index (offset b)); [|destruct (Z.leb_spec (offset b + len (counts b)) index)]; simpl.
    + split_and!; [apply Forall_app; split; [by apply Forall_replicate|done]| |right; split_and!; [done|lia|]].
      * intros x. rewrite entries_app, weight_app, weight_zeros. unfold len. rewrite length_replicate.
        rewrite Z2Nat.id by lia. by replace (index + (offset b - index)) with (offset b) by lia.
      * rewrite len_app. unfold len. rewrite length_replicate, Z2Nat.id by lia. fold (len (counts b)). lia.
    + split_and!; [apply Forall_app; split; [done|by apply Forall_replicate]| |right; split_and!; [done|lia|]].
      * intros x. rewrite entries_app, weight_app, weight_zeros. lia.
      * rewrite len_app. unfold len at 2. rewrite length_replicate, Z2Nat.id by lia. lia.
    + split_and!; [done|done|right; lia].
Qed.

Lemma holds_add b W k j c :
  holds b W k → 0 < c → counted W → total W + c < 2 ^ 64 → holds (add b (Z.shiftr j k) c) ((j, c) :: W) k.
Proof.
  intros Hh Hc HW Ht. set (index := Z.shiftr j k). rewrite add_grow.
  destruct (grow_spec b index (hd_nonneg _ _ _ Hh)) as (Hn & Hw & Hr). set (g := grow b index) in *.
  assert (Hpos : Forall (λ p, 0 ≤ p.2) W) by (eapply Forall_impl; [exact HW|]; simpl; lia).
  pose proof (weight_le_total k W index Hpos) as Hle.
  assert (Hin : offset g ≤ index < offset g + len (counts g)).
  { lia. }
  destruct (add_at_spec (offset g) c (counts g) index Hin ltac:(lia) Hn) as (Hlen & Hn' & Hw').
  { rewrite Hw, (hd_weight _ _ _ Hh). lia. }
  assert (Hlen' : len (add_at (index - offset g) c (counts g)) = len (counts g)) by (unfold len; by rewrite Hlen).
  pose proof (holds_len _ _ _ Hh) as Hemp.
  split; cbn [offset counts]; rewrite ?Hlen'; [done| |done| | |].
  - intros x. rewrite Hw', Hw, (hd_weight _ _ _ Hh), weight_cons. cbn [fst snd]. fold index. lia.
  - intros p [->|Hp]%elem_of_cons; [done|]. pose proof (hd_in _ _ _ Hh p Hp).
    destruct Hr as [[E _]|Hr]; [|lia]. apply Hemp in E as ->. by apply elem_of_nil in Hp.
  - intros _. destruct Hr as [Hr|[E Hr]].
    { exists (j, c). split; [by left|]. symmetry. apply Hr. }
    destruct (hd_first _ _ _ Hh) as (p & Hp & Hx); [by intros HWe; apply E, Hemp|].
    destruct (Z.le_gt_cases (offset b) index); [exists p|exists (j, c)]; (split; [|cbn [fst]; fold index; lia]); [by right|by left].
  - intros _. destruct Hr as [Hr|[E Hr]].
    { exists (j, c). split; [by left|]. cbn [fst]. fold index. lia. }
    destruct (hd_last _ _ _ Hh) as (p & Hp & Hx); [by intros HWe; apply E, Hemp|].
    destruct (Z.le_gt_cases index (offset b + len (counts b) - 1)); [exists p|exists (j, c)];
      (split; [|cbn [fst]; fold index; lia]); [by right|by left].
Qed.

(** The loop of downscale adds every old count to the bucket that covers it. *)
Lemma downscale_loop_spec d off i old new :
  0 ≤ d → Forall (λ c, 0 ≤ c) old → Forall (λ c, 0 ≤ c) new →
  (∀ t, i ≤ t < i + len old → off ≤ Z.shiftr t d < off + len new) →
  (∀ x, weight 0 (entries off new) x + weight d (entries i old) x < 2 ^ 64) →
  length (downscale_loop d off i old new) = length new ∧
  Forall (λ c, 0 ≤ c) (downscale_loop d off i old new) ∧
  ∀ x, weight 0 (entries off (downscale_loop d off i old new)) x
       = weight 0 (entries off new) x + weight d (entries i old) x.
Proof.
  intros Hd Ho. revert i new. induction Ho as [|c old Hc Ho IH]; intros i new Hn Hin Hb.
  { split_and!; [done|done|]. intros x. change (weight d (entries i []) x) with 0. cbn [downscale_loop]. lia. }
  unfold len in Hin. simpl length in Hin. cbn [downscale_loop].
  assert (Hw : ∀ x, weight d (entries i (c :: old)) x
    = (if Z.shiftr i d =? x then c else 0) + weight d (entries (i + 1) old) x) by done.
  assert (0 ≤ weight d (entries (i + 1) old) (Z.shiftr i d)) by (by apply weight_nonneg, entries_nonneg).
  pose proof (Hb (Z.shiftr i d)) as Hbi. rewrite Hw, Z.eqb_refl in Hbi.
  destruct (add_at_spec off c new (Z.shiftr i d) (Hin i ltac:(lia)) Hc Hn ltac:(lia)) as (Hlen & Hn' & Hw').
  assert (Hl' : len (add_at (Z.shiftr i d - off) c new) = len new) by (unfold len; by rewrite Hlen).
  destruct (IH (i + 1) (add_at (Z.shiftr i d - off) c new)) as (IH1 & IH2 & IH3).
  - done.
  - intros t Ht. rewrite Hl'. apply Hin. unfold len in *. lia.
  - intros x. rewrite Hw'. specialize (Hb x). rewrite Hw in Hb. lia.
  - split_and!; [congruence|done|]. intros x. rewrite IH3, Hw', Hw. lia.
Qed.

Lemma holds_downscale b W k d :
  holds b W k → counted W → total W < 2 ^ 64 → 0 ≤ k → 0 ≤ d → holds (downscale d b) W (k + d).
Proof.
  intros Hh HW Ht Hk Hd. unfold downscale. pose proof (holds_len _ _ _ Hh) as Hemp.
  destruct (Z.eqb_spec (len (counts b)) 0) as [E|E].
  { apply Hemp in E as ->. rewrite (hd_empty _ _ _ Hh) by done. apply holds_nil. }
  pose proof (len_nonneg (counts b)) as Hl0. assert (HW0 : W ≠ []) by (by intros HWe; apply E, Hemp).
  set (off := Z.shiftr (offset b) d). set (last := Z.shiftr (offset b + len (counts b) - 1) d).
  assert (Hol : off ≤ last) by (apply shiftr_mono; lia).
  assert (Hpos : Forall (λ p, 0 ≤ p.2) W) by (eapply Forall_impl; [exact HW|]; simpl; lia).
  assert (Hsum : ∀ x, weight d (entries (offset b) (counts b)) x = weight (k + d) W x).
  { intros x. rewrite <-weight_shift by done. apply weight_ext; [|done]. intros i.
    rewrite (hd_weight _ _ _ Hh), weight_shift by lia. by rewrite Z.add_0_r. }
  destruct (downscale_loop_spec d off (offset b) (counts b) (replicate (Z.to_nat (last - off + 1)) 0) Hd)
    as (Hlen & Hn & Hw).
  - apply (hd_nonneg _ _ _ Hh).
  - by apply Forall_replicate.
  - intros t Ht'. replace (len (replicate (Z.to_nat (last - off + 1)) 0)) with (last - off + 1) by (unfold len; rewrite length_replicate, Z2Nat.id; lia).
    pose proof (shiftr_mono (offset b) t d Hd ltac:(lia)).
    pose proof (shiftr_mono t (offset b + len (counts b) - 1) d Hd ltac:(lia)). unfold off, last in *. lia.
  - intros x. rewrite weight_zeros, Hsum. pose proof (weight_le_total (k + d) W x Hpos). lia.
  - assert (Hl : len (downscale_loop d off (offset b) (counts b) (replicate (Z.to_nat (last - off + 1)) 0)) = last - off + 1).
    { unfold len. rewrite Hlen, length_replicate, Z2Nat.id; lia. }
    split; cbn [offset counts]; rewrite ?Hl; [done| |done| | |].
    + intros x. by rewrite Hw, weight_zeros, Hsum.
    + intros p Hp. pose proof (hd_in _ _ _ Hh p Hp). rewrite <-shiftr_shiftr_add by lia.
      pose proof (shiftr_mono (offset b) (Z.shiftr p.1 k) d Hd ltac:(lia)).
      pose proof (shiftr_mono (Z.shiftr p.1 k) (offset b + len (counts b) - 1) d Hd ltac:(lia)). unfold off, last in *. lia.
    + intros _. destruct (hd_first _ _ _ Hh HW0) as (p & Hp & Hx). exists p. split; [done|].
      rewrite <-shiftr_shiftr_add by lia. by rewrite Hx.
    + intros _. destruct (hd_last _ _ _ Hh HW0) as (p & Hp & Hx). exists p. split; [done|].
      rewrite <-shiftr_shiftr_add by lia. rewrite Hx. fold last. lia.
Qed.

(** ** The scale *)
Definition fits (M k : Z) (W : list (Z * Z)) : Prop :=
  ∀ p q, p ∈ W → q ∈ W → Z.shiftr p.1 k - Z.shiftr q.1 k < M.

(** Halving never widens a distance. *)
Lemma shiftr_distance i j d M : 0 ≤ d → 1 ≤ M → i - j < M → Z.shiftr i d - Z.shiftr j d < M.
Proof.
  intros Hd HM. destruct (Z.le_gt_cases i j) as [Hij|Hij].
  { pose proof (shiftr_mono _ _ d Hd Hij). lia. }
  rewrite !Z.shiftr_div_pow2 by lia. assert (Hp : 0 < 2 ^ d) by (apply Z.pow_pos_nonneg; lia).
  pose proof (Z.div_mod i (2 ^ d)). pose proof (Z.mod_pos_bound i _ Hp).
  pose proof (Z.div_mod j (2 ^ d)). pose proof (Z.mod_pos_bound j _ Hp). nia.
Qed.

Lemma fits_mono M k d W : 1 ≤ M → 0 ≤ k → 0 ≤ d → fits M k W → fits M (k + d) W.
Proof.
  intros HM Hk Hd Hf p q Hp Hq. rewrite <-!shiftr_shiftr_add by lia. apply shiftr_distance; [done|done|]. by apply Hf.
Qed.

(** The loop of scaleChange stops within the room above [expoMinScale], at the
    smallest change that brings the two ends within [size] buckets. *)
Lemma scaleChange_loop_spec fuel size sc low high c0 :
  expoMinScale ≤ sc - c0 ≤ expoMinScale + Z.of_nat fuel →
  ∃ d, scaleChange_loop fuel size sc low high c0 = Some (c0 + d) ∧ 0 ≤ d ∧ expoMinScale ≤ sc - (c0 + d) ∧
    (Z.shiftr high d - Z.shiftr low d < size ∨ sc - (c0 + d) = expoMinScale) ∧
    ∀ d', 0 ≤ d' < d → size ≤ Z.shiftr high d' - Z.shiftr low d'.
Proof.
  revert low high c0. induction fuel as [|f IH]; intros low high c0 Hr; cbn [scaleChange_loop];
    destruct (Z.leb_spec size (high - low)) as [Hs|Hs], (Z.ltb_spec expoMinScale (sc - c0)) as [Hm|Hm]; cbn [andb];
    try (exists 0; rewrite !Z.add_0_r, !Z.shiftr_0_r; split_and!; [done|lia|lia|lia|lia]); [lia|].
  destruct (IH (Z.shiftr low 1) (Z.shiftr high 1) (c0 + 1) ltac:(lia)) as (d & Hl & Hd & Hmin & Hfit & Hleast).
  exists (d + 1). rewrite Hl. rewrite !shiftr_shiftr_add in Hfit by lia. rewrite (Z.add_comm 1 d) in Hfit.
  split_and!; [f_equal; lia|lia|lia|destruct Hfit; [by left|right; lia]|].
  intros d' Hd'. destruct (Z.eq_dec d' 0) as [->|]; [by rewrite !Z.shiftr_0_r|].
  specialize (Hleast (d' - 1) ltac:(lia)). rewrite !shiftr_shiftr_add in Hleast by lia.
  by replace (1 + (d' - 1)) with d' in Hleast by lia.
Qed.

(** ** The state of a histogram

    [W s] are the indexes, at the starting scale [S0], that were counted into range [s]. *)
Record spec (M S0 : Z) (W : side → list (Z * Z)) (h : expoHistogram) : Prop := mkSpec {
  sp_size : maxSize h = M;
  sp_scale : expoMinScale ≤ scale h ≤ S0;
  sp_counted s : counted (W s);
  sp_total s : total (W s) < 2 ^ 64;
  sp_range s : holds (range s h) (W s) (S0 - scale h);
  sp_fits : scale h = expoMinScale ∨ ∀ s, fits M (S0 - scale h) (W s);
  sp_least k : 0 ≤ k < S0 - scale h → ∃ s, ¬ fits M k (W s) }.

Definition upd (s : side) (p : Z * Z) (W : side → list (Z * Z)) : side → list (Z * Z) :=
  λ s', match s, s' with
        | Positive, Positive | Negative, Negative => p :: W s'
        | _, _ => W s'
        end.

Lemma upd_same s p W : upd s p W s = p :: W s.
Proof. by destruct s. Qed.

Lemma upd_other s s' p W : s ≠ s' → upd s p W s' = W s'.
Proof. by destruct s, s'. Qed.

#[global] Instance side_eq_dec : EqDecision side.
Proof. solve_decision. Defined.

Lemma upd_incl s s' p q W : q ∈ W s' → q ∈ upd s p W s'.
Proof. destruct (decide (s = s')) as [->|Hn]; [rewrite upd_same; by right|by rewrite upd_other]. Qed.

(** What a change of buckets leaves alone. *)
Definition same_totals (h h' : expoHistogram) : Prop :=
  count h' = count h ∧ zeroCount h' = zeroCount h ∧ sum h' = sum h ∧ min_ h' = min_ h ∧ max_ h' = max_ h.

Lemma add_range_range s s' i c h :
  range s' (add_range s i c h) = if decide (s = s') then add (range s h) i c else range s' h.
Proof. by destruct s, s'. Qed.

Lemma addCount_eq s i c h d :
  c ≠ 0 → scaleChange h (range s h) i = Some d → 0 ≤ d →
  ∃ h', addCount s i c h = Some h' ∧ same_totals h h' ∧ maxSize h' = maxSize h ∧ scale h' = scale h - d ∧
    ∀ s', range s' h' =
      let lowered := if 0 <? d then downscale d (range s' h) else range s' h in
      if decide (s = s') then add lowered (Z.shiftr i d) c else lowered.
Proof.
  intros Hc Hd Hd0. unfold addCount. replace (c =? 0) with false by lia. rewrite Hd. eexists. split; [done|].
  destruct (Z.ltb_spec 0 d).
  - split_and!; [by destruct s| by destruct s|by destruct s|]. intros s'. rewrite add_range_range. by destruct s, s'.
  - assert (d = 0) as -> by lia. rewrite Z.shiftr_0_r.
    split_and!; [by destruct s|by destruct s|destruct s; simpl; lia|]. intros s'. rewrite add_range_range. by destruct s, s'.
Qed.

Section ops.
Context (M S0 : Z) (HM : 2 ≤ M) (HS : S0 ≤ expoMaxScale).

Lemma spec_shift_range W h : spec M S0 W h → 0 ≤ S0 - scale h ≤ 30.
Proof using HS. intros Hs. pose proof (sp_scale _ _ _ _ Hs). unfold expoMinScale, expoMaxScale in *. lia. Qed.

(** The change the code makes for an index: the loop's answer, in terms of the
    indexes counted so far and the new one. *)
Lemma scaleChange_spec W h s j c :
  spec M S0 W h →
  ∃ d, scaleChange h (range s h) (Z.shiftr j (S0 - scale h)) = Some d ∧ 0 ≤ d ∧ expoMinScale ≤ scale h - d ∧
    (fits M (S0 - scale h + d) ((j, c) :: W s) ∨ scale h - d = expoMinScale) ∧
    ∀ d', 0 ≤ d' < d → ¬ fits M (S0 - scale h + d') ((j, c) :: W s).
Proof using HM HS.
  intros Hs. pose proof (spec_shift_range _ _ Hs) as Hk. pose proof (sp_scale _ _ _ _ Hs) as Hsc.
  pose proof (sp_range _ _ _ _ Hs s) as Hh. pose proof (holds_len _ _ _ Hh) as Hemp.
  set (k := S0 - scale h) in *. set (b := range s h) in *. unfold scaleChange.
  destruct (Z.eqb_spec (len (counts b)) 0) as [E|E].
  { apply Hemp in E. rewrite E. exists 0. split_and!; [done|lia|lia| |lia]. left.
    intros p q [->|Hp]%elem_of_cons [->|Hq]%elem_of_cons; try (by apply elem_of_nil in Hp);
      try (by apply elem_of_nil in Hq). lia. }
  assert (HW0 : W s ≠ []) by (by intros HWe; apply E, Hemp).
  destruct (scaleChange_loop_spec scale_fuel (maxSize h) (scale h) (Z.min (offset b) (Z.shiftr j k))
    (Z.max (offset b + len (counts b) - 1) (Z.shiftr j k)) 0) as (d & Hl & Hd & Hmin & Hfit & Hleast).
  { unfold scale_fuel, expoMinScale, expoMaxScale in *. lia. }
  rewrite (sp_size _ _ _ _ Hs) in *. rewrite Z.add_0_l in *. exists d. split_and!; [done|done|done| |].
  - destruct Hfit as [Hfit|]; [left|by right].
    assert (Hin : ∀ p, p ∈ (j, c) :: W s → Z.min (offset b) (Z.shiftr j k) ≤ Z.shiftr p.1 k
      ≤ Z.max (offset b + len (counts b) - 1) (Z.shiftr j k)).
    { intros p [->|Hp]%elem_of_cons; [simpl; lia|]. pose proof (hd_in _ _ _ Hh p Hp). lia. }
    intros p q Hp Hq. rewrite <-!shiftr_shiftr_add by lia.
    pose proof (shiftr_mono _ _ d Hd (proj2 (Hin p Hp))). pose proof (shiftr_mono _ _ d Hd (proj1 (Hin q Hq))). lia.
  - intros d' Hd' Hf. specialize (Hleast d' Hd').
    destruct (hd_first _ _ _ Hh HW0) as (p & Hp & Hpx). destruct (hd_last _ _ _ Hh HW0) as (q & Hq & Hqx).
    assert (Hlow : ∃ p', p' ∈ (j, c) :: W s ∧ Z.shiftr p'.1 k = Z.min (offset b) (Z.shiftr j k)).
    { destruct (Z.le_gt_cases (offset b) (Z.shiftr j k)); [exists p; split; [by right|lia]|exists (j, c); split; [by left|simpl; lia]]. }
    assert (Hhigh : ∃ p', p' ∈ (j, c) :: W s ∧ Z.shiftr p'.1 k = Z.max (offset b + len (counts b) - 1) (Z.shiftr j k)).
    { destruct (Z.le_gt_cases (Z.shiftr j k) (offset b + len (counts b) - 1));
        [exists q; split; [by right|lia]|exists (j, c); split; [by left|simpl; lia]]. }
    destruct Hlow as (p' & Hp' & Hpx'), Hhigh as (q' & Hq' & Hqx').
    specialize (Hf q' p' Hq' Hp'). rewrite <-!shiftr_shiftr_add in Hf by lia. rewrite Hpx', Hqx' in Hf. lia.
Qed.

(** Counting [c] observations of index [j] (at the starting scale). *)
Lemma addCount_spec W h s j c :
  spec M S0 W h → 0 < c → total (W s) + c < 2 ^ 64 →
  ∃ h', addCount s (Z.shiftr j (S0 - scale h)) c h = Some h' ∧ spec M S0 (upd s (j, c) W) h' ∧ same_totals h h'.
Proof using HM HS.
  intros Hs Hc Ht. destruct (scaleChange_spec W h s j c Hs) as (d & Hd & Hd0 & Hmin & Hfit & Hleast).
  destruct (addCount_eq s _ c h d ltac:(lia) Hd Hd0) as (h' & Ha & Hsame & Hsz & Hsc & Hr).
  exists h'. split; [done|]. split; [|done]. pose proof (sp_scale _ _ _ _ Hs) as Hscale.
  assert (Hk : S0 - scale h' = S0 - scale h + d) by lia.
  assert (Hlow : ∀ s', holds (if 0 <? d then downscale d (range s' h) else range s' h) (W s') (S0 - scale h + d)).
  { intros s'. pose proof (sp_range _ _ _ _ Hs s') as Hh. destruct (Z.ltb_spec 0 d).
    - apply holds_downscale; [done|apply Hs|apply Hs|lia|lia].
    - replace (S0 - scale h + d) with (S0 - scale h) by lia. done. }
  split.
  - rewrite Hsz. apply Hs.
  - lia.
  - intros s'. destruct (decide (s = s')) as [->|Hn]; [rewrite upd_same|rewrite upd_other by done; apply Hs].
    constructor; [done|apply Hs].
  - intros s'. destruct (decide (s = s')) as [->|Hn]; [rewrite upd_same|rewrite upd_other by done; apply Hs].
    unfold total in *. rewrite zsum_cons. simpl. lia.
  - intros s'. rewrite Hr, Hk. cbv zeta. case_decide as Hn; [subst s'; rewrite upd_same|by rewrite upd_other].
    rewrite shiftr_shiftr_add by lia. apply holds_add; [apply Hlow|done|apply Hs|done].
  - rewrite Hk. destruct Hfit as [Hfit|Hfit]; [|left; lia]. destruct (sp_fits _ _ _ _ Hs) as [Hm|Hf]; [left; lia|right].
    intros s'. destruct (decide (s = s')) as [->|Hn]; [by rewrite upd_same|]. rewrite upd_other by done.
    apply fits_mono; [lia|lia|lia|apply Hf].
  - intros k Hk'. destruct (Z.le_gt_cases (S0 - scale h) k) as [Hge|Hlt].
    + exists s. rewrite upd_same. replace k with (S0 - scale h + (k - (S0 - scale h))) by lia. apply Hleast. lia.
    + destruct (sp_least _ _ _ _ Hs k ltac:(lia)) as [s' Hs']. exists s'. intros Hf. apply Hs'.
      intros p q Hp Hq. apply Hf; by apply upd_incl.
Qed.

End ops.

(** ** The state is determined by the weights *)
Definition same_weights (W1 W2 : side → list (Z * Z)) : Prop := ∀ s x, weight 0 (W1 s) x = weight 0 (W2 s) x.

Lemma weights_fits M k W1 W2 :
  counted W1 → counted W2 → 0 ≤ k → (∀ x, weight 0 W1 x = weight 0 W2 x) → fits M k W1 → fits M k W2.
Proof.
  intros H1 H2 Hk Hw Hf p q Hp Hq.
  assert (Hback : ∀ p, p ∈ W2 → ∃ p', p' ∈ W1 ∧ Z.shiftr p'.1 k = Z.shiftr p.1 k).
  { intros r Hr. apply weight_pos; [done|]. rewrite (weight_ext W1 W2) by done. apply weight_pos; [done|]. by exists r. }
  destruct (Hback p Hp) as (p' & Hp' & Ep), (Hback q Hq) as (q' & Hq' & Eq). rewrite <-Ep, <-Eq. by apply Hf.
Qed.

(** A list of counts is determined by its weights. *)
Lemma entries_inj i c1 c2 :
  length c1 = length c2 → (∀ x, weight 0 (entries i c1) x = weight 0 (entries i c2) x) → c1 = c2.
Proof.
  revert i c2. induction c1 as [|a c1 IH]; intros i [|b c2] Hl Hw; try done.
  pose proof (Hw i) as Hi. cbn [entries] in Hi, Hw. rewrite !weight_cons, !Z.shiftr_0_r, !Z.eqb_refl in Hi. cbn [snd] in Hi.
  rewrite !weight_outside in Hi by lia. f_equal; [lia|]. apply (IH (i + 1)); [by injection Hl|].
  intros x. specialize (Hw x). rewrite !weight_cons in Hw. cbn [fst snd] in Hw. rewrite !Z.shiftr_0_r in Hw.
  destruct (i =? x); lia.
Qed.

Lemma holds_unique b1 b2 W1 W2 k :
  counted W1 → counted W2 → 0 ≤ k → (∀ x, weight 0 W1 x = weight 0 W2 x) → holds b1 W1 k → holds b2 W2 k → b1 = b2.
Proof.
  intros H1 H2 Hk Hw Hb1 Hb2.
  assert (Hback : ∀ U V, counted U → counted V → (∀ x, weight 0 U x = weight 0 V x) →
    ∀ p, p ∈ U → ∃ p', p' ∈ V ∧ Z.shiftr p'.1 k = Z.shiftr p.1 k).
  { intros U V HU HV HUV r Hr. apply weight_pos; [done|]. rewrite <-(weight_ext U V) by done. apply weight_pos; [done|]. by exists r. }
  destruct (decide (W1 = [])) as [E1|N1].
  { assert (W2 = []) as E2.
    { destruct W2 as [|p W2]; [done|]. destruct (Hback (p :: W2) W1 H2 H1 (λ x, eq_sym (Hw x)) p) as (q & Hq & _); [by left|].
      rewrite E1 in Hq. by apply elem_of_nil in Hq. }
    rewrite (hd_empty _ _ _ Hb1 E1), (hd_empty _ _ _ Hb2 E2). done. }
  assert (N2 : W2 ≠ []).
  { intros E2. destruct W1 as [|p W1]; [done|]. destruct (Hback (p :: W1) W2 H1 H2 Hw p) as (q & Hq & _); [by left|].
    rewrite E2 in Hq. by apply elem_of_nil in Hq. }
  assert (Hends : ∀ ba bb U V, counted U → counted V → (∀ x, weight 0 U x = weight 0 V x) → U ≠ [] →
    holds ba U k → holds bb V k → offset bb ≤ offset ba ∧ offset ba + len (counts ba) ≤ offset bb + len (counts bb)).
  { intros ba bb U V HU HV HUV NU Ha Hb.
    destruct (hd_first _ _ _ Ha NU) as (p & Hp & Ep), (hd_last _ _ _ Ha NU) as (q & Hq & Eq).
    destruct (Hback U V HU HV HUV p Hp) as (p' & Hp' & Ep'), (Hback U V HU HV HUV q Hq) as (q' & Hq' & Eq').
    pose proof (hd_in _ _ _ Hb p' Hp'). pose proof (hd_in _ _ _ Hb q' Hq'). lia. }
  destruct (Hends b1 b2 W1 W2 H1 H2 Hw N1 Hb1 Hb2) as [Ho1 Hl1].
  destruct (Hends b2 b1 W2 W1 H2 H1 (λ x, eq_sym (Hw x)) N2 Hb2 Hb1) as [Ho2 Hl2].
  destruct b1 as [o1 c1], b2 as [o2 c2]. cbn [offset counts] in *. assert (o1 = o2) as -> by lia. f_equal.
  apply (entries_inj o2); [unfold len in *; lia|]. intros x.
  pose proof (hd_weight _ _ _ Hb1 x) as Hx1. pose proof (hd_weight _ _ _ Hb2 x) as Hx2. cbn [offset counts] in Hx1, Hx2.
  rewrite Hx1, Hx2. by apply weight_ext.
Qed.

Lemma spec_unique M S0 W1 W2 h1 h2 :
  same_weights W1 W2 → spec M S0 W1 h1 → spec M S0 W2 h2 →
  scale h1 = scale h2 ∧ positive h1 = positive h2 ∧ negative h1 = negative h2.
Proof.
  intros Hw Hs1 Hs2.
  assert (Hle : ∀ Wa Wb ha hb, same_weights Wa Wb → spec M S0 Wa ha → spec M S0 Wb hb → scale hb ≤ scale ha).
  { intros Wa Wb ha hb Hab Ha Hb. destruct (Z.le_gt_cases (scale hb) (scale ha)) as [|Hlt]; [done|]. exfalso.
    pose proof (sp_scale _ _ _ _ Ha). pose proof (sp_scale _ _ _ _ Hb).
    destruct (sp_least _ _ _ _ Ha (S0 - scale hb) ltac:(lia)) as [s Hns]. apply Hns.
    destruct (sp_fits _ _ _ _ Hb) as [Hm|Hf]; [lia|].
    apply (weights_fits M _ (Wb s)); [apply Hb|apply Ha|lia| |apply Hf]. intros x. symmetry. apply Hab. }
  assert (Hsc : scale h1 = scale h2).
  { apply Z.le_antisymm; [apply (Hle W2 W1); [|done|done]; intros s x; symmetry; apply Hw|by apply (Hle W1 W2)]. }
  pose proof (sp_scale _ _ _ _ Hs1). split; [done|].
  assert (Hr : ∀ s, range s h1 = range s h2).
  { intros s. apply (holds_unique _ _ (W1 s) (W2 s) (S0 - scale h1)); [apply Hs1|apply Hs2|lia|apply Hw|apply Hs1|].
    rewrite Hsc. apply Hs2. }
  split; [apply (Hr Positive)|apply (Hr Negative)].
Qed.

(** ** Changing the starting scale *)
Definition shifted (d : Z) (W : list (Z * Z)) : list (Z * Z) := (λ p, (Z.shiftr p.1 d, p.2)) <$> W.

Lemma shifted_counted d W : counted W → counted (shifted d W).
Proof. intros HW. apply Forall_fmap. eapply Forall_impl; [exact HW|]. done. Qed.

Lemma shifted_total d W : total (shifted d W) = total W.
Proof. induction W as [|p W IH]; [done|]. unfold shifted, total in *. rewrite fmap_cons, !zsum_cons. simpl in *. lia. Qed.

Lemma shifted_elem d W p : p ∈ shifted d W ↔ ∃ q, q ∈ W ∧ p = (Z.shiftr q.1 d, q.2).
Proof. unfold shifted. rewrite list_elem_of_fmap. naive_solver. Qed.

Lemma holds_shifted b W d k : 0 ≤ d → 0 ≤ k → holds b W (d + k) → holds b (shifted d W) k.
Proof.
  intros Hd Hk Hh. pose proof (shiftr_shiftr_add) as Hsh. split.
  - apply Hh.
  - intros x. rewrite (hd_weight _ _ _ Hh). symmetry. by apply weight_shift.
  - intros E. apply (hd_empty _ _ _ Hh). by destruct W.
  - intros p (q & Hq & ->)%shifted_elem. cbn [fst]. rewrite Hsh by done. by apply Hh.
  - intros Hne. destruct (hd_first _ _ _ Hh) as (p & Hp & Ep); [by destruct W|].
    exists (Z.shiftr p.1 d, p.2). split; [apply shifted_elem; eauto|]. cbn [fst]. by rewrite Hsh.
  - intros Hne. destruct (hd_last _ _ _ Hh) as (p & Hp & Ep); [by destruct W|].
    exists (Z.shiftr p.1 d, p.2). split; [apply shifted_elem; eauto|]. cbn [fst]. by rewrite Hsh.
Qed.

Lemma fits_shifted M d k W : 0 ≤ d → 0 ≤ k → fits M k (shifted d W) ↔ fits M (d + k) W.
Proof.
  intros Hd Hk. split; intros Hf.
  - intros p q Hp Hq. rewrite <-!shiftr_shiftr_add by done.
    apply (Hf (Z.shiftr p.1 d, p.2) (Z.shiftr q.1 d, q.2)); apply shifted_elem; eauto.
  - intros p q (p' & Hp & ->)%shifted_elem (q' & Hq & ->)%shifted_elem. cbn [fst].
    rewrite !shiftr_shiftr_add by done. by apply Hf.
Qed.

Lemma spec_restart M S0 S1 W h :
  spec M S0 W h → scale h ≤ S1 ≤ S0 → spec M S1 (λ s, shifted (S0 - S1) (W s)) h.
Proof.
  intros Hs Hsc. pose proof (sp_scale _ _ _ _ Hs). split.
  - apply Hs.
  - lia.
  - intros s. apply shifted_counted, Hs.
  - intros s. rewrite shifted_total. apply Hs.
  - intros s. apply holds_shifted; [lia|lia|]. replace (S0 - S1 + (S1 - scale h)) with (S0 - scale h) by lia. apply Hs.
  - destruct (sp_fits _ _ _ _ Hs) as [|Hf]; [by left|right]. intros s. apply fits_shifted; [lia|lia|].
    replace (S0 - S1 + (S1 - scale h)) with (S0 - scale h) by lia. apply Hf.
  - intros k Hk. destruct (sp_least _ _ _ _ Hs (S0 - S1 + k) ltac:(lia)) as [s Hn]. exists s.
    rewrite fits_shifted by lia. done.
Qed.

(** ** Replaying buckets *)
Lemma total_weights k W lo n :
  (∀ p, p ∈ W → lo ≤ Z.shiftr p.1 k < lo + n) → total W = zsum (weight k W) (seqZ lo n).
Proof.
  induction W as [|p W IH]; intros Hin.
  - change (0 = zsum (λ _ : Z, 0) (seqZ lo n)). by rewrite zsum_zero.
  - unfold total in *. rewrite zsum_cons, IH by (intros q Hq; apply Hin; by right).
    rewrite (zsum_ext (weight k (p :: W)) (λ x, (if Z.shiftr p.1 k =? x then p.2 else 0) + weight k W x)) by done.
    rewrite zsum_add, zsum_point. pose proof (Hin p ltac:(by left)).
    replace (lo <=? Z.shiftr p.1 k) with true by lia. by replace (Z.shiftr p.1 k <? lo + n) with true by lia.
Qed.

Lemma holds_total b W k : holds b W k → total (entries (offset b) (counts b)) = total W.
Proof.
  intros Hh. rewrite (total_weights k W (offset b) (len (counts b)) (hd_in _ _ _ Hh)).
  rewrite (total_weights 0 _ (offset b) (len (counts b))).
  - apply zsum_ext. intros x _. apply (hd_weight _ _ _ Hh).
  - intros p Hp. rewrite Z.shiftr_0_r. by apply entries_fst.
Qed.

Section replay.
Context (M S0 : Z) (HM : 2 ≤ M) (HS : S0 ≤ expoMaxScale).

Lemma replay_loop_spec s srcScale i cs W h :
  spec M S0 W h → S0 ≤ srcScale → Forall (λ c, 0 ≤ c) cs → total (W s) + total (entries i cs) < 2 ^ 64 →
  ∃ h' W', replay_loop s srcScale i cs h = Some h' ∧ spec M S0 W' h' ∧ same_totals h h' ∧
    (∀ s', s ≠ s' → W' s' = W s') ∧ total (W' s) = total (W s) + total (entries i cs) ∧
    ∀ x, weight 0 (W' s) x = weight 0 (W s) x + weight (srcScale - S0) (entries i cs) x.
Proof using HM HS.
  intros Hs Hsrc Hn. revert i W h Hs. induction Hn as [|c cs Hc Hn IH]; intros i W h Hs Ht; cbn [replay_loop].
  { exists h, W. split_and!; try done; [change (total (entries i [])) with 0; lia|].
    intros x. change (weight (srcScale - S0) (entries i []) x) with 0. lia. }
  assert (Htc : total (entries i (c :: cs)) = c + total (entries (i + 1) cs)) by done.
  assert (Hwc : ∀ x, weight (srcScale - S0) (entries i (c :: cs)) x
    = (if Z.shiftr i (srcScale - S0) =? x then c else 0) + weight (srcScale - S0) (entries (i + 1) cs) x) by done.
  assert (0 ≤ total (entries (i + 1) cs)).
  { rewrite <-(zsum_zero (entries (i + 1) cs)). apply zsum_le. by apply entries_nonneg. }
  pose proof (sp_scale _ _ _ _ Hs) as Hsc. destruct (Z.eqb_spec c 0) as [->|Hc0].
  { destruct (IH (i + 1) W h Hs ltac:(lia)) as (h' & W' & Hl & Hs' & Hst & Ho & Htot & Hw). exists h', W'.
    split_and!; try done. intros x. rewrite Hw, Hwc. destruct (_ =? x); lia. }
  destruct (addCount_spec M S0 HM HS W h s (Z.shiftr i (srcScale - S0)) c Hs ltac:(lia) ltac:(lia)) as (h1 & Ha & Hs1 & Hst1).
  rewrite shiftr_shiftr_add in Ha by lia. replace (srcScale - S0 + (S0 - scale h)) with (srcScale - scale h) in Ha by lia.
  rewrite Ha. assert (Htu : total (upd s (Z.shiftr i (srcScale - S0), c) W s) = c + total (W s)) by (by rewrite upd_same).
  destruct (IH (i + 1) _ h1 Hs1 ltac:(lia)) as (h' & W' & Hl & Hs' & Hst & Ho & Htot & Hw). exists h', W'.
  cbn [mbind option_bind]. split_and!; [done|done| |intros s' Hne; by rewrite Ho, upd_other|lia|].
  - unfold same_totals in *. intuition congruence.
  - intros x. rewrite Hw, Hwc, upd_same, weight_cons. cbn [fst snd]. rewrite Z.shiftr_0_r. lia.
Qed.

End replay.

Lemma point_loop_replay s srcScale i cs h : point_loop s srcScale i cs h = replay_loop s srcScale i cs h.
Proof.
  revert i h. induction cs as [|c cs IH]; intros i h; simpl; [done|]. destruct (Z.eqb_spec c 0) as [->|].
  - unfold addCount. simpl. apply IH.
  - unfold mbind, option_bind. destruct (addCount _ _ _ _); [apply IH|done].
Qed.

(** Replaying both ranges of a histogram: the weights add up. *)
Lemma replay_both M S0 W h Ws ks (src : expoHistogram) :
  2 ≤ M → S0 ≤ expoMaxScale → spec M S0 W h → S0 ≤ scale src → 0 ≤ ks →
  (∀ s, holds (range s src) (Ws s) ks) → (∀ s, total (W s) + total (Ws s) < 2 ^ 64) →
  ∃ h1 h2 W', replay Positive (positive src) (scale src) h = Some h1 ∧
    replay Negative (negative src) (scale src) h1 = Some h2 ∧ spec M S0 W' h2 ∧ same_totals h h2 ∧
    (∀ s, total (W' s) = total (W s) + total (Ws s)) ∧
    ∀ s x, weight 0 (W' s) x = weight 0 (W s) x + weight (ks + (scale src - S0)) (Ws s) x.
Proof.
  intros HM HS Hs Hsrc Hks Hh Ht.
  assert (Hw : ∀ s x, weight (scale src - S0) (entries (offset (range s src)) (counts (range s src))) x
    = weight (ks + (scale src - S0)) (Ws s) x).
  { intros s x. rewrite <-weight_shift by lia. apply weight_ext; [|lia]. intros i.
    rewrite (hd_weight _ _ _ (Hh s)), weight_shift by lia. by rewrite Z.add_0_r. }
  pose proof (holds_total _ _ _ (Hh Positive)) as Htp. pose proof (holds_total _ _ _ (Hh Negative)) as Htn.
  pose proof (Hw Positive) as Hwp. pose proof (Hw Negative) as Hwn. cbn [range] in Htp, Htn, Hwp, Hwn.
  destruct (replay_loop_spec M S0 HM HS Positive (scale src) (offset (positive src)) (counts (positive src)) W h Hs Hsrc)
    as (h1 & W1 & Hl1 & Hs1 & Hst1 & Ho1 & Ht1 & Hw1).
  { apply (hd_nonneg _ _ _ (Hh Positive)). }
  { rewrite Htp. apply Ht. }
  destruct (replay_loop_spec M S0 HM HS Negative (scale src) (offset (negative src)) (counts (negative src)) W1 h1 Hs1 Hsrc)
    as (h2 & W2 & Hl2 & Hs2 & Hst2 & Ho2 & Ht2 & Hw2).
  { apply (hd_nonneg _ _ _ (Hh Negative)). }
  { rewrite Htn, Ho1 by done. apply Ht. }
  exists h1, h2, W2. split_and!; [done|done|done|unfold same_totals in *; intuition congruence| |].
  - intros [|]; [rewrite Ho2, Ht1 by done; by rewrite Htp|rewrite Ht2, Ho1 by done; by rewrite Htn].
  - intros [|] x; [rewrite Ho2, Hw1 by done; by rewrite Hwp|rewrite Hw2, Ho1 by done; by rewrite Hwn].
Qed.
