(* ===== verification/ExpoCorrect.v ===== *)
(** * The exponential histogram: theorems

    [record_all] against the reference that sorts out all the observations at once,
    mergeExpo against recording everything into one histogram, and the round trip
    of a histogram through its data point. *)

From S2P Require Import Prelude GoLib Strconv Expo ExpoSpec.
Local Open Scope go_scope.

(** ** The order of the floats

    Comparing two floats is comparing two integers. *)
Definition fkey (x : float64) : Z :=
  match x with
  | S754_zero _ | S754_nan => 0
  | S754_infinity b => if b then - 2 ^ 70 else 2 ^ 70
  | S754_finite b m e => let a := (e + 1075) * 2 ^ 53 + Z.pos m in if b then - a else a
  end.

Lemma pos_compare_cont m m' : Pos.compare_cont Eq m m' = (Z.pos m ?= Z.pos m').
Proof. done. Qed.

Lemma flt_key x y :
  valid x = true → valid y = true → is_nan x = false → is_nan y = false → flt x y = (fkey x <? fkey y).
Proof.
  assert (Hb : ∀ m e, bounded 53 1024 m e = true → 0 < Z.pos m < 2 ^ 53 ∧ -1074 ≤ e ≤ 971).
  { intros m e Hb. destruct (bounded_spec m e Hb). lia. }
  intros Hx Hy Nx Ny. unfold flt, SFltb, fkey.
  destruct x as [sx|sx| |sx m e], y as [sy|sy| |sy m' e']; try done;
    try (apply Hb in Hx); try (apply Hb in Hy); cbn [SFcompare];
    repeat match goal with s : bool |- _ => destruct s end; try done; try (symmetry; apply Z.ltb_lt; lia);
    try (symmetry; apply Z.ltb_ge; lia);
    rewrite pos_compare_cont; destruct (Z.compare_spec e e'), (Z.compare_spec (Z.pos m) (Z.pos m')); simpl CompOpp;
    cbv iota; symmetry; (apply Z.ltb_lt; nia) || (apply Z.ltb_ge; nia).
Qed.

(** ** The reference

    What a histogram of the observations [vs] should be, computed from all of them. *)
Section reference.
Context (log2 : float64 → float64).

(** The range of an observation and its index at scale [s0]; NaN, the infinities
    and the zeros have none. *)
Definition bucket_of (s0 : Z) (v : float64) : option (side * Z) :=
  if is_nan v || is_inf v then None
  else if flt f_zero v then Some (Positive, expoIndex log2 v s0)
  else if flt v f_zero then Some (Negative, expoIndex log2 (fopp v) s0)
  else None.

Definition indexes (s0 : Z) (s : side) (vs : list float64) : list Z :=
  omap (λ v, match bucket_of s0 v with Some (s', i) => if decide (s = s') then Some i else None | None => None end) vs.

Definition batch_fits (M k : Z) (ids : list Z) : bool :=
  forallb (λ i, forallb (λ j, Z.shiftr i k - Z.shiftr j k <? M) ids) ids.

(** The smallest drop of the scale, from [k] on and within [room], that fits both ranges. *)
Fixpoint batch_drop (room : nat) (M k : Z) (ps ns : list Z) : Z :=
  match room with
  | O => k
  | S r => if batch_fits M k ps && batch_fits M k ns then k else batch_drop r M (k + 1) ps ns
  end.

Definition batch_scale (M s0 : Z) (vs : list float64) : Z :=
  s0 - batch_drop (Z.to_nat (s0 - expoMinScale)) M 0 (indexes s0 Positive vs) (indexes s0 Negative vs).

Definition occurrences (x : Z) (ids : list Z) : Z := zsum (λ i, if i =? x then 1 else 0) ids.

(** The buckets from the lowest to the highest index, each with its occurrences. *)
Definition batch_range (ids : list Z) : expoBuckets :=
  match ids with
  | [] => empty_buckets
  | i :: ids' =>
      let lo := foldr Z.min i ids' in
      let hi := foldr Z.max i ids' in
      mkBuckets lo ((λ x, occurrences x ids) <$> seqZ lo (hi - lo + 1))
  end.

Definition batch_buckets (M s0 : Z) (s : side) (vs : list float64) : expoBuckets :=
  batch_range ((λ i, Z.shiftr i (s0 - batch_scale M s0 vs)) <$> indexes s0 s vs).

Definition finite_obs (vs : list float64) : list float64 := List.filter is_finite vs.
Definition zero_obs (vs : list float64) : list float64 := List.filter (λ v, fkey v =? 0) (finite_obs vs).

End reference.

(** *** The reference meets the specification *)
Lemma foldr_min_spec i ids : foldr Z.min i ids ∈ i :: ids ∧ ∀ j, j ∈ i :: ids → foldr Z.min i ids ≤ j.
Proof.
  induction ids as [|a ids [IH1 IH2]]; simpl.
  - split; [by left|]. intros j [->|Hj%elem_of_nil]%elem_of_cons; [lia|done].
  - split.
    + destruct (Z.min_spec a (foldr Z.min i ids)) as [[_ ->]|[_ ->]]; [by right; left|].
      apply elem_of_cons in IH1 as [IH1|IH1]; [rewrite IH1; by left|by right; right].
    + intros j Hj. rewrite !elem_of_cons in Hj. destruct Hj as [->|[->|Hj]]; [|lia|].
      * specialize (IH2 i ltac:(by left)). lia.
      * specialize (IH2 j ltac:(by right)). lia.
Qed.

Lemma foldr_max_spec i ids : foldr Z.max i ids ∈ i :: ids ∧ ∀ j, j ∈ i :: ids → j ≤ foldr Z.max i ids.
Proof.
  induction ids as [|a ids [IH1 IH2]]; simpl.
  - split; [by left|]. intros j [->|Hj%elem_of_nil]%elem_of_cons; [lia|done].
  - split.
    + destruct (Z.max_spec a (foldr Z.max i ids)) as [[_ ->]|[_ ->]]; [|by right; left].
      apply elem_of_cons in IH1 as [IH1|IH1]; [rewrite IH1; by left|by right; right].
    + intros j Hj. rewrite !elem_of_cons in Hj. destruct Hj as [->|[->|Hj]]; [|lia|].
      * specialize (IH2 i ltac:(by left)). lia.
      * specialize (IH2 j ltac:(by right)). lia.
Qed.

Definition once (ids : list Z) : list (Z * Z) := (λ i, (i, 1)) <$> ids.

Lemma once_counted ids : counted (once ids).
Proof. apply Forall_fmap, Forall_true. intros. simpl. lia. Qed.

Lemma once_elem ids p : p ∈ once ids ↔ p.2 = 1 ∧ p.1 ∈ ids.
Proof. unfold once. rewrite list_elem_of_fmap. destruct p as [a b]. simpl. naive_solver. Qed.

Lemma once_total ids : total (once ids) = len ids.
Proof.
  unfold total, once. induction ids as [|i ids IH]; [done|]. rewrite fmap_cons, zsum_cons, IH. unfold len. simpl. lia.
Qed.

Lemma weight_once k ids x : weight k (once ids) x = occurrences x ((λ i, Z.shiftr i k) <$> ids).
Proof.
  unfold once, occurrences. induction ids as [|i ids IH]; [done|].
  rewrite !fmap_cons, weight_cons, zsum_cons, IH. done.
Qed.

Lemma weight_tabulate (f : Z → Z) lo n x :
  0 ≤ n → weight 0 (entries lo (f <$> seqZ lo n)) x = if (lo <=? x) && (x <? lo + n) then f x else 0.
Proof.
  intros Hn. revert lo. pattern n. apply natlike_ind; [| |done].
  - intros lo. rewrite seqZ_nil by lia. change (0 = if (lo <=? x) && (x <? lo + 0) then f x else 0).
    destruct (Z.leb_spec lo x), (Z.ltb_spec x (lo + 0)); try done. lia.
  - intros m Hm IH lo. rewrite seqZ_cons, Z.pred_succ, fmap_cons by lia. cbn [entries].
    rewrite weight_cons, Z.shiftr_0_r. cbn [fst snd]. replace (lo + 1) with (Z.succ lo) by lia. rewrite IH.
    destruct (Z.eqb_spec lo x) as [->|]; zbool; simpl; try lia.
Qed.

Lemma batch_range_holds k ids : holds (batch_range ((λ i, Z.shiftr i k) <$> ids)) (once ids) k.
Proof.
  destruct ids as [|i ids]; [apply holds_nil|]. unfold batch_range. rewrite fmap_cons.
  set (js := (λ i0, Z.shiftr i0 k) <$> ids). set (j := Z.shiftr i k).
  destruct (foldr_min_spec j js) as [Hmi Hmin], (foldr_max_spec j js) as [Hma Hmax].
  set (lo := foldr Z.min j js) in *. set (hi := foldr Z.max j js) in *.
  assert (Hlh : lo ≤ hi) by (specialize (Hmin hi Hma); lia).
  assert (Hel : ∀ x, x ∈ j :: js ↔ ∃ p, p ∈ once (i :: ids) ∧ Z.shiftr p.1 k = x).
  { intros x. change (j :: js) with ((λ i0, Z.shiftr i0 k) <$> (i :: ids)). rewrite list_elem_of_fmap. split.
    - intros (y & -> & Hy). exists (y, 1). split; [by apply once_elem|done].
    - intros (p & [_ Hp]%once_elem & <-). by exists p.1. }
  assert (Hlen : len ((λ x, occurrences x (j :: js)) <$> seqZ lo (hi - lo + 1)) = hi - lo + 1).
  { unfold len. rewrite length_fmap, length_seqZ. lia. }
  split; cbn [offset counts]; rewrite ?Hlen.
  - apply Forall_fmap, Forall_true. intros x. simpl. unfold occurrences.
    transitivity (zsum (λ _ : Z, 0) (j :: js)); [by rewrite zsum_zero|]. apply zsum_le, Forall_true. intros y. by destruct (_ =? _).
  - intros x. rewrite weight_tabulate by lia. rewrite weight_once.
    change ((λ i0, Z.shiftr i0 k) <$> (i :: ids)) with (j :: js).
    destruct (Z.leb_spec lo x), (Z.ltb_spec x (lo + (hi - lo + 1))); cbn [andb]; try done; symmetry; unfold occurrences;
      rewrite (zsum_ext _ (λ _, 0)); try (by rewrite zsum_zero); intros y Hy; pose proof (Hmin y Hy); pose proof (Hmax y Hy);
      destruct (Z.eqb_spec y x); try done; lia.
  - done.
  - intros p Hp. assert (Hx : Z.shiftr p.1 k ∈ j :: js) by (apply Hel; eauto). pose proof (Hmin _ Hx). pose proof (Hmax _ Hx). lia.
  - intros _. apply Hel. done.
  - intros _. apply Hel. by replace (lo + (hi - lo + 1) - 1) with hi by lia.
Qed.

Lemma batch_fits_spec M k ids : batch_fits M k ids = true ↔ fits M k (once ids).
Proof.
  unfold batch_fits. rewrite forallb_forall. split.
  - intros Hf p q [_ Hp]%once_elem [_ Hq]%once_elem. specialize (Hf p.1). rewrite <-list_elem_of_In in Hf. specialize (Hf Hp).
    rewrite forallb_forall in Hf. specialize (Hf q.1). rewrite <-list_elem_of_In in Hf. specialize (Hf Hq). by apply Z.ltb_lt in Hf.
  - intros Hf i Hi%list_elem_of_In. apply forallb_forall. intros j Hj%list_elem_of_In. apply Z.ltb_lt.
    apply (Hf (i, 1) (j, 1)); by apply once_elem.
Qed.

Lemma batch_drop_spec room M k ps ns :
  let d := batch_drop room M k ps ns in
  k ≤ d ≤ k + Z.of_nat room ∧
  ((fits M d (once ps) ∧ fits M d (once ns)) ∨ d = k + Z.of_nat room) ∧
  ∀ k', k ≤ k' < d → ¬ (fits M k' (once ps) ∧ fits M k' (once ns)).
Proof.
  revert k. induction room as [|r IH]; intros k; cbn [batch_drop].
  { split_and!; [lia|lia|right; lia|lia]. }
  destruct (batch_fits M k ps && batch_fits M k ns) eqn:E.
  { apply andb_true_iff in E as [E1 E2]. split_and!; [lia|lia| |lia]. left. split; by apply batch_fits_spec. }
  destruct (IH (k + 1)) as (H1 & H2 & H3). cbv zeta in *. split_and!; [lia|lia|destruct H2; [by left|right; lia]|].
  intros k' Hk'. destruct (Z.eq_dec k' k) as [->|]; [|apply H3; lia]. rewrite <-!batch_fits_spec.
  intros [E1 E2]. by rewrite E1, E2 in E.
Qed.

(** ** Extrema

    A histogram keeps the first of the smallest and the first of the largest
    observations.  [better v x] says that [v] replaces [x]. *)
Definition pick (better : float64 → float64 → bool) (m : option float64) (v : float64) : option float64 :=
  Some (match m with Some x => if better v x then v else x | None => v end).

Definition lowest := pick flt.
Definition highest := pick (λ v x, flt x v).

Definition join_ext (better : float64 → float64 → bool) (m m' : option float64) : option float64 :=
  match m' with Some v => pick better m v | None => m end.

Definition number (v : float64) : Prop := valid v = true ∧ is_nan v = false.

Section extremum.
Context (better : float64 → float64 → bool) (key : float64 → Z).
Context (Hb : ∀ x y, number x → number y → better x y = (key x <? key y)).

(** The fold answers an element that no other one beats. *)
Lemma extremum_spec vs m0 :
  number m0 → Forall number vs →
  ∃ m, foldl (pick better) (Some m0) vs = Some m ∧ number m ∧ m ∈ m0 :: vs ∧ ∀ v, v ∈ m0 :: vs → key m ≤ key v.
Proof using Hb.
  intros Hm0 Hvs. revert m0 Hm0. induction Hvs as [|v vs Hv Hvs IH]; intros m0 Hm0.
  { exists m0. split_and!; [done|done|by left|]. intros v [->|Hv%elem_of_nil]%elem_of_cons; [lia|done]. }
  cbn [foldl]. unfold pick at 2. rewrite Hb by done. destruct (Z.ltb_spec (key v) (key m0)) as [E|E].
  - destruct (IH v Hv) as (m & Hm & Hn & Hin & Hle). exists m. split_and!; [done|done|by right|].
    intros u [->|Hu]%elem_of_cons; [|by apply Hle]. specialize (Hle v ltac:(by left)). lia.
  - destruct (IH m0 Hm0) as (m & Hm & Hn & Hin & Hle). exists m. split_and!; [done|done| |].
    + apply elem_of_cons in Hin as [->|Hin]; [by left|by right; right].
    + intros u Hu. pose proof (Hle m0 ltac:(by left)). rewrite !elem_of_cons in Hu.
      destruct Hu as [->|[->|Hu]]; [lia|lia|apply Hle; by right].
Qed.

(** Two runs, one after the other. *)
Lemma extremum_app acc ys :
  (∀ x, acc = Some x → number x) → Forall number ys →
  foldl (pick better) acc ys = join_ext better acc (foldl (pick better) None ys).
Proof using Hb.
  intros Ha Hys. revert acc Ha. induction Hys as [|y ys Hy Hys IH]; intros acc Ha; [done|]. cbn [foldl].
  rewrite IH.
  2: { intros x [= <-]. destruct acc as [a|]; [|done]. specialize (Ha a eq_refl). by destruct (better y a). }
  rewrite (IH (pick better None y)) by (by intros x [= <-]).
  destruct ys as [|t ys]; [done|]. destruct (extremum_spec ys t) as (m & Hm & Hn & _); [by inversion Hys|by inversion Hys|].
  cbn [foldl]. change (pick better None t) with (Some t). rewrite Hm. cbn [join_ext].
  destruct acc as [a|]; [|done]. specialize (Ha a eq_refl). unfold join_ext, pick. f_equal. rewrite (Hb y a), (Hb m y) by done.
  destruct (Z.ltb_spec (key y) (key a)), (Z.ltb_spec (key m) (key y)); rewrite !Hb by done;
    repeat (match goal with |- context [?x <? ?y] => destruct (Z.ltb_spec x y) end); try done; lia.
Qed.

End extremum.

Lemma flt_better x y : number x → number y → flt x y = (fkey x <? fkey y).
Proof. intros [] []. by apply flt_key. Qed.

Lemma fgt_better x y : number x → number y → flt y x = (- fkey x <? - fkey y).
Proof. intros Hx Hy. rewrite flt_better by done. zbool; lia. Qed.

(** ** Recording *)
Section record.
Context (log2 : float64 → float64) (Hlog : log2_ok log2).

Lemma finite_not v : is_nan v || is_inf v = negb (is_finite v).
Proof. by destruct v. Qed.

(** The totals of a histogram that recorded [n] finite values, [z] of them zero. *)
Record totals (h : expoHistogram) (n z : Z) (lo hi : option float64) : Prop := mkTotals {
  to_count : count h = n;
  to_zero : zeroCount h = z;
  to_lo : min_ h = default f_zero lo;
  to_hi : max_ h = default f_zero hi;
  to_some : lo = None ↔ n = 0;
  to_some' : hi = None ↔ n = 0 }.

Lemma same_totals_totals h h' n z lo hi : same_totals h h' → totals h n z lo hi → totals h' n z lo hi.
Proof. intros (E1 & E2 & E3 & E4 & E5) [T1 T2 T3 T4 T5 T6]. split; congruence. Qed.

(** A magnitude of one range. *)
Lemma recordBucket_spec M S0 W h s m :
  2 ≤ M → S0 ≤ expoMaxScale → spec M S0 W h → valid m = true → flt f_zero m = true → is_inf m = false →
  total (W s) + 1 < 2 ^ 64 →
  ∃ h', recordBucket log2 s m h = Some h' ∧ spec M S0 (upd s (expoIndex log2 m S0, 1) W) h' ∧ same_totals h h'.
Proof using Hlog.
  intros HM HS Hs Hv Hp Hinf Ht. pose proof (sp_scale _ _ _ _ Hs) as Hsc.
  pose proof (expoIndex_shift log2 Hlog m S0 (S0 - scale h) Hv Hp ltac:(lia) HS Hinf) as Hi.
  replace (S0 - (S0 - scale h)) with (scale h) in Hi by lia.
  destruct (addCount_spec M S0 HM HS W h s (expoIndex log2 m S0) 1 Hs ltac:(lia) Ht) as (h' & Ha & Hs' & Hst).
  rewrite Hi in Ha. eauto.
Qed.

(** The totals after a finite value. *)
Definition counted_in (h : expoHistogram) (v : float64) : expoHistogram :=
  mkExpo (maxSize h) (scale h) (count h +u 1) (zeroCount h) (fadd (sum h) v)
    (if (count h =? 0) || flt v (min_ h) then v else min_ h)
    (if (count h =? 0) || flt (max_ h) v then v else max_ h) (positive h) (negative h).

Lemma counted_in_totals h v n z lo hi :
  totals h n z lo hi → 0 ≤ n → n + 1 < 2 ^ 64 → totals (counted_in h v) (n + 1) z (lowest lo v) (highest hi v).
Proof.
  intros [T1 T2 T3 T4 T5 T6] Hn0 Hn. split; simpl; try done; rewrite ?T1.
  - rewrite u64_small; lia.
  - rewrite T3. destruct (Z.eqb_spec n 0) as [E|E].
    + apply T5 in E as ->. done.
    + destruct lo as [x|]; [done|]. exfalso. by apply E, T5.
  - rewrite T4. destruct (Z.eqb_spec n 0) as [E|E].
    + apply T6 in E as ->. done.
    + destruct hi as [x|]; [done|]. exfalso. by apply E, T6.
  - split; [done|lia].
  - split; [done|lia].
Qed.

Lemma fopp_pos v : valid v = true → is_finite v = true → flt v f_zero = true →
  valid (fopp v) = true ∧ flt f_zero (fopp v) = true ∧ is_inf (fopp v) = false.
Proof. destruct v as [b|b| |[|] m e]; done. Qed.

(** One observation. *)
Lemma record_spec M S0 W h v n z lo hi :
  2 ≤ M → S0 ≤ expoMaxScale → spec M S0 W h → totals h n z lo hi → valid v = true →
  0 ≤ z ≤ n → n + 1 < 2 ^ 64 → (∀ s, total (W s) + 1 < 2 ^ 64) →
  ∃ h' W', record log2 h v = Some h' ∧ spec M S0 W' h' ∧
    (∀ s, W' s = once (indexes log2 S0 s [v]) ++ W s) ∧
    sum h' = (if is_finite v then fadd (sum h) v else sum h) ∧
    if is_finite v then
      totals h' (n + 1) (if fkey v =? 0 then z + 1 else z) (lowest lo v) (highest hi v)
    else totals h' n z lo hi.
Proof using Hlog.
  intros HM HS Hs HT Hv Hz Hn Ht. unfold record. rewrite finite_not. unfold indexes, bucket_of. cbn [omap list_omap].
  rewrite finite_not. destruct (is_finite v) eqn:Hf; cbn [negb]; [|by exists h, W].
  pose proof (counted_in_totals h v n z lo hi HT ltac:(lia) Hn) as HT1. unfold counted_in in HT1.
  set (h1 := mkExpo _ _ _ _ _ _ _ _ _) in *. assert (Hs1 : spec M S0 W h1) by (destruct Hs; split; done).
  assert (is_nan v = false ∧ is_inf v = false) as [Hnan Hinf] by (by destruct v).
  assert (Hk1 : flt f_zero v = (0 <? fkey v)) by (by apply (flt_key f_zero v)).
  assert (Hk2 : flt v f_zero = (fkey v <? 0)) by (by apply (flt_key v f_zero)).
  destruct (flt f_zero v) eqn:Hp; [|destruct (flt v f_zero) eqn:Hng].
  - destruct (recordBucket_spec M S0 W h1 Positive v HM HS Hs1 Hv Hp Hinf (Ht _)) as (h' & Ha & Hs' & Hst).
    eexists h', _. replace (fkey v =? 0) with false by lia. split_and!; [done|exact Hs'|by intros [|]|by destruct Hst as (_ & _ & -> & _)|].
    by eapply same_totals_totals.
  - destruct (fopp_pos v Hv Hf Hng) as (Hv' & Hp' & Hi').
    destruct (recordBucket_spec M S0 W h1 Negative (fopp v) HM HS Hs1 Hv' Hp' Hi' (Ht _)) as (h' & Ha & Hs' & Hst).
    eexists h', _. replace (fkey v =? 0) with false by lia. split_and!; [done|exact Hs'|by intros [|]|by destruct Hst as (_ & _ & -> & _)|].
    by eapply same_totals_totals.
  - replace (fkey v =? 0) with true by lia. eexists _, W. split; [done|]. split; [by destruct Hs1; split|]. split; [done|]. split; [done|].
    destruct HT1 as [T1 T2 T3 T4 T5 T6]. rewrite T2, u64_small by lia. by split.
Qed.

Lemma indexes_cons S0 s v vs : indexes log2 S0 s (v :: vs) = indexes log2 S0 s [v] ++ indexes log2 S0 s vs.
Proof. unfold indexes. simpl. destruct (bucket_of _ _ _) as [[s' i]|]; [case_decide|]; done. Qed.

Lemma indexes_app S0 s vs ws : indexes log2 S0 s (vs ++ ws) = indexes log2 S0 s vs ++ indexes log2 S0 s ws.
Proof. induction vs as [|v vs IH]; [done|]. rewrite <-app_comm_cons, indexes_cons, IH, (indexes_cons S0 s v vs). by rewrite app_assoc. Qed.

Lemma indexes_length S0 s vs : len (indexes log2 S0 s vs) ≤ len vs.
Proof.
  induction vs as [|v vs IH]; [done|]. rewrite indexes_cons, len_app.
  assert (len (indexes log2 S0 s [v]) ≤ 1).
  { unfold indexes, len. simpl. destruct (bucket_of _ _ _) as [[s' i]|]; [case_decide|]; simpl; lia. }
  assert (len (v :: vs) = len vs + 1) by (unfold len; simpl; lia). lia.
Qed.

(** A series of observations. *)
Lemma record_all_spec M S0 vs W h n z lo hi :
  2 ≤ M → S0 ≤ expoMaxScale → spec M S0 W h → totals h n z lo hi → Forall (λ v, valid v = true) vs →
  0 ≤ z ≤ n → n + len vs < 2 ^ 64 → (∀ s, total (W s) + len vs < 2 ^ 64) →
  ∃ h' W', record_all log2 h vs = Some h' ∧ spec M S0 W' h' ∧
    (∀ s, W' s ≡ₚ once (indexes log2 S0 s vs) ++ W s) ∧
    sum h' = foldl fadd (sum h) (finite_obs vs) ∧
    totals h' (n + len (finite_obs vs)) (z + len (zero_obs vs)) (foldl lowest lo (finite_obs vs)) (foldl highest hi (finite_obs vs)).
Proof using Hlog.
  intros HM HS Hs HT Hv. revert W h n z lo hi Hs HT. induction Hv as [|v vs Hv Hvs IH]; intros W h n z lo hi Hs HT Hz Hn Ht.
  { exists h, W. split_and!; try done. unfold finite_obs, zero_obs, len. simpl. rewrite !Z.add_0_r. done. }
  assert (Hlen : len (v :: vs) = len vs + 1) by (unfold len; simpl; lia). pose proof (len_nonneg vs).
  rewrite Hlen in Hn. assert (Ht' : ∀ s, total (W s) + (len vs + 1) < 2 ^ 64) by (intros s; rewrite <-Hlen; apply Ht).
  clear Ht. rename Ht' into Ht.
  destruct (record_spec M S0 W h v n z lo hi HM HS Hs HT Hv Hz ltac:(lia) ltac:(intros s; specialize (Ht s); lia))
    as (h1 & W1 & Hr & Hs1 & HW1 & Hsum & HT1).
  cbn [record_all]. rewrite Hr. cbn [mbind option_bind].
  assert (Htot : ∀ s, total (W1 s) + len vs < 2 ^ 64).
  { intros s. rewrite HW1. unfold total. rewrite zsum_app. fold (total (once (indexes log2 S0 s [v]))). fold (total (W s)).
    rewrite once_total. pose proof (indexes_length S0 s [v]). change (len [v]) with 1 in *. specialize (Ht s). lia. }
  assert (Hw : ∀ s, once (indexes log2 S0 s vs) ++ W1 s ≡ₚ once (indexes log2 S0 s (v :: vs)) ++ W s).
  { intros s. rewrite HW1, (indexes_cons S0 s v vs). unfold once. rewrite fmap_app. solve_Permutation. }
  assert (Hz' : 0 ≤ (if fkey v =? 0 then z + 1 else z) ≤ n + 1) by (destruct (fkey v =? 0); lia).
  unfold zero_obs, finite_obs in *. cbn [List.filter]. destruct (is_finite v) eqn:Hf.
  - destruct (IH W1 h1 (n + 1) _ _ _ Hs1 HT1 Hz' ltac:(lia) Htot) as (h' & W' & H1 & H2 & H3 & H4 & H5).
    exists h', W'. split_and!; [done|done|intros; by rewrite H3, Hw|by rewrite H4, Hsum|].
    cbn [List.filter foldl] in *. replace (n + len (v :: List.filter is_finite vs)) with (n + 1 + len (List.filter is_finite vs))
      by (unfold len; simpl; lia).
    revert H5. destruct (fkey v =? 0); intros H5; [|done]. by match goal with H5 : totals _ _ ?a _ _ |- totals _ _ ?b _ _ =>
      replace b with a by (unfold len; simpl; lia) end.
  - destruct (IH W1 h1 n z _ _ Hs1 HT1 ltac:(lia) ltac:(lia) Htot) as (h' & W' & H1 & H2 & H3 & H4 & H5).
    exists h', W'. split_and!; [done|done|intros; by rewrite H3, Hw|by rewrite H4, Hsum|done].
Qed.

End record.

Lemma perm_weights W1 W2 : (∀ s, W1 s ≡ₚ W2 s) → same_weights W1 W2.
Proof. intros HP s x. apply zsum_perm, HP. Qed.

Lemma perm_total W1 W2 : W1 ≡ₚ W2 → total W1 = total W2.
Proof. apply zsum_perm. Qed.

Definition start_scale (maxScale : Z) : Z := Z.min (Z.max maxScale expoMinScale) expoMaxScale.
Definition start_size (size : Z) : Z := Z.max size expoMinSize.

Lemma start_scale_range S : expoMinScale ≤ start_scale S ≤ expoMaxScale.
Proof. unfold start_scale, expoMinScale, expoMaxScale. lia. Qed.

Lemma spec_new M S : spec (start_size M) (start_scale S) (λ _, []) (newExpoHistogram M S).
Proof.
  pose proof (start_scale_range S). split; simpl; fold (start_scale S); try done; try lia.
  - intros s. constructor.
  - intros [|]; apply holds_nil.
  - right. intros s p q Hp. by apply elem_of_nil in Hp.
Qed.

Lemma totals_new M S : totals (newExpoHistogram M S) 0 0 None None.
Proof. by split. Qed.

Lemma finite_obs_numbers vs : Forall (λ v, valid v = true) vs → Forall number (finite_obs vs).
Proof.
  intros Hv. apply Forall_forall. intros v Hin. apply list_elem_of_In, filter_In in Hin as [Hin Hf].
  rewrite Forall_forall in Hv. split; [apply Hv; by apply list_elem_of_In|by destruct v].
Qed.

Section theorems.
Context (log2 : float64 → float64).

(** The reference, as a histogram, meets the specification. *)
Definition batch (M S0 : Z) (vs : list float64) : expoHistogram :=
  mkExpo M (batch_scale log2 M S0 vs) 0 0 f_zero f_zero f_zero
    (batch_buckets log2 M S0 Positive vs) (batch_buckets log2 M S0 Negative vs).

Lemma batch_spec M S0 vs :
  expoMinScale ≤ S0 → len vs < 2 ^ 64 → spec M S0 (λ s, once (indexes log2 S0 s vs)) (batch M S0 vs).
Proof.
  intros HS Hl. pose proof (batch_drop_spec (Z.to_nat (S0 - expoMinScale)) M 0 (indexes log2 S0 Positive vs)
    (indexes log2 S0 Negative vs)) as (Hd & Hf & Hleast). cbv zeta in *.
  assert (Hsc : S0 - batch_scale log2 M S0 vs = batch_drop (Z.to_nat (S0 - expoMinScale)) M 0 (indexes log2 S0 Positive vs)
    (indexes log2 S0 Negative vs)) by (unfold batch_scale; lia).
  rewrite <-Hsc in *. rewrite Z.add_0_l, Z2Nat.id in * by lia. split; cbn [scale batch].
  - done.
  - lia.
  - intros s. apply once_counted.
  - intros s. rewrite once_total. pose proof (indexes_length log2 S0 s vs). lia.
  - intros [|]; apply batch_range_holds.
  - destruct Hf as [Hf|Hf]; [right; intros [|]; apply Hf|left; lia].
  - intros k Hk. specialize (Hleast k Hk).
    destruct (decide (batch_fits M k (indexes log2 S0 Positive vs) = true)) as [E|E]; rewrite batch_fits_spec in E;
      [exists Negative|exists Positive]; naive_solver.
Qed.

Context (Hlog : log2_ok log2).

(** The observations of a new histogram. *)
Lemma record_new_spec M S vs :
  Forall (λ v, valid v = true) vs → len vs < 2 ^ 64 →
  ∃ h W, record_all log2 (newExpoHistogram M S) vs = Some h ∧ spec (start_size M) (start_scale S) W h ∧
    (∀ s, W s ≡ₚ once (indexes log2 (start_scale S) s vs)) ∧
    sum h = foldl fadd f_zero (finite_obs vs) ∧
    totals h (len (finite_obs vs)) (len (zero_obs vs)) (foldl lowest None (finite_obs vs)) (foldl highest None (finite_obs vs)).
Proof using Hlog.
  intros Hv Hl. pose proof (start_scale_range S).
  destruct (record_all_spec log2 Hlog (start_size M) (start_scale S) vs _ _ 0 0 None None ltac:(unfold start_size, expoMinSize; lia)
    ltac:(lia) (spec_new M S) (totals_new M S) Hv ltac:(lia) ltac:(lia) ltac:(done)) as (h & W & H1 & H2 & H3 & H4 & H5).
  exists h, W. split_and!; [done|done| |done|by rewrite !Z.add_0_l in H5].
  intros s. by rewrite H3, app_nil_r.
Qed.

(** Recording gives what the reference computes from all the observations. *)
Lemma record_new_batch M S vs :
  Forall (λ v, valid v = true) vs → len vs < 2 ^ 64 →
  ∃ h, record_all log2 (newExpoHistogram M S) vs = Some h ∧
    scale h = batch_scale log2 (start_size M) (start_scale S) vs ∧
    (∀ s, range s h = batch_buckets log2 (start_size M) (start_scale S) s vs) ∧
    count h = len (finite_obs vs) ∧ zeroCount h = len (zero_obs vs) ∧ sum h = foldl fadd f_zero (finite_obs vs) ∧
    (finite_obs vs ≠ [] → min_ h ∈ finite_obs vs ∧ max_ h ∈ finite_obs vs ∧
      ∀ v, v ∈ finite_obs vs → flt v (min_ h) = false ∧ flt (max_ h) v = false).
Proof using Hlog.
  intros Hv Hl. destruct (record_new_spec M S vs Hv Hl) as (h & W & Hr & Hs & Hw & Hsum & HT).
  exists h. pose proof (start_scale_range S).
  destruct (spec_unique _ _ _ _ _ _ (perm_weights _ _ Hw) Hs (batch_spec (start_size M) (start_scale S) vs ltac:(lia) Hl)) as (E1 & E2 & E3).
  split_and!; [done|done|by intros [|]|apply HT|apply HT|done|]. intros Hne.
  pose proof (finite_obs_numbers vs Hv) as Hnum. destruct HT as [_ _ T3 T4 _ _]. rewrite T3, T4. clear T3 T4.
  destruct (finite_obs vs) as [|v0 fs] eqn:Ef; [done|]. clear Hne. pose proof Hnum as [Hn0 Hnf]%Forall_cons.
  destruct (extremum_spec flt fkey flt_better fs v0 Hn0 Hnf) as (lo & Elo & Hlon & Hlo & Hle).
  destruct (extremum_spec (λ v x, flt x v) (λ v, - fkey v) fgt_better fs v0 Hn0 Hnf) as (hi & Ehi & Hhin & Hhi & Hge).
  change (foldl lowest None (v0 :: fs)) with (foldl (pick flt) (Some v0) fs).
  change (foldl highest None (v0 :: fs)) with (foldl (pick (λ v x, flt x v)) (Some v0) fs).
  rewrite Elo, Ehi. change (default f_zero (Some lo)) with lo. change (default f_zero (Some hi)) with hi.
  split_and!; [done|done|]. intros v Hin. specialize (Hle v Hin). specialize (Hge v Hin).
  rewrite Forall_forall in Hnum. specialize (Hnum v Hin).
  split; rewrite flt_better by done; apply Z.ltb_ge; lia.
Qed.

End theorems.

(** ** Merging *)
Lemma merge_src_totals h src h2 n z lo hi n' z' lo' hi' :
  same_totals h h2 → totals h n z lo hi → totals src n' z' lo' hi' → 0 ≤ z ≤ n → 0 ≤ z' ≤ n' → n + n' < 2 ^ 64 →
  let c := count h2 +u count src in
  let seen := 0 <? count src in
  totals (mkExpo (maxSize h2) (scale h2) c (zeroCount h2 +u zeroCount src) (fadd (sum h2) (sum src))
          (if seen && ((c =? count src) || flt (min_ src) (min_ h2)) then min_ src else min_ h2)
          (if seen && ((c =? count src) || flt (max_ h2) (max_ src)) then max_ src else max_ h2)
          (positive h2) (negative h2))
    (n + n') (z + z') (join_ext flt lo lo') (join_ext (λ v x, flt x v) hi hi').
Proof.
  intros Hst HT HT' Hz Hz' Hn. apply (same_totals_totals _ _ _ _ _ _ Hst) in HT.
  destruct HT as [T1 T2 T3 T4 T5 T6], HT' as [U1 U2 U3 U4 U5 U6]. cbv zeta. rewrite T1, U1, !(u64_small (n + n')) by lia.
  assert (Hext : ∀ better m0 m1 (mo mo' : option float64),
    m0 = default f_zero mo → m1 = default f_zero mo' → (mo = None ↔ n = 0) → (mo' = None ↔ n' = 0) →
    (if (0 <? n') && ((n + n' =? n') || better m1 m0) then m1 else m0) = default f_zero (join_ext better mo mo') ∧
    (join_ext better mo mo' = None ↔ n + n' = 0)).
  { intros better m0 m1 mo mo' -> -> E1 E2. destruct mo' as [y|].
    - assert (n' ≠ 0) by (intros ?%E2; done). replace (0 <? n') with true by lia. destruct mo as [x|].
      + assert (n ≠ 0) by (intros ?%E1; done). replace (n + n' =? n') with false by lia. simpl.
        split; [by destruct (better y x)|split; [done|lia]].
      + assert (n = 0) as -> by (by apply E1). rewrite Z.add_0_l, Z.eqb_refl. simpl. split; [done|split; [done|lia]].
    - assert (n' = 0) as -> by (by apply E2). simpl. rewrite Z.add_0_r. by split. }
  destruct (Hext flt (min_ h2) (min_ src) lo lo' T3 U3 T5 U5) as [M1 M2].
  destruct (Hext (λ v x, flt x v) (max_ h2) (max_ src) hi hi' T4 U4 T6 U6) as [M3 M4].
  split; cbn [count zeroCount min_ max_]; [done|rewrite T2, U2, u64_small; lia|done|done|done|done].
Qed.

Lemma merge_src_spec M S0 W h Ms Ss Ws src n z lo hi n' z' lo' hi' :
  2 ≤ M → S0 ≤ expoMaxScale → spec M S0 W h → spec Ms Ss Ws src → S0 ≤ scale src →
  totals h n z lo hi → totals src n' z' lo' hi' → 0 ≤ z ≤ n → 0 ≤ z' ≤ n' → n + n' < 2 ^ 64 →
  (∀ s, total (W s) + total (Ws s) < 2 ^ 64) →
  ∃ h' W', merge_src h src = Some h' ∧ spec M S0 W' h' ∧ (∀ s, total (W' s) = total (W s) + total (Ws s)) ∧
    (∀ s x, weight 0 (W' s) x = weight 0 (W s) x + weight 0 (shifted (Ss - S0) (Ws s)) x) ∧
    totals h' (n + n') (z + z') (join_ext flt lo lo') (join_ext (λ v x, flt x v) hi hi') ∧
    sum h' = fadd (sum h) (sum src).
Proof.
  intros HM HS Hs Hsrc Hle HT HT' Hz Hz' Hn Ht. pose proof (sp_scale _ _ _ _ Hsrc) as Hsc.
  destruct (replay_both M S0 W h Ws (Ss - scale src) src HM HS Hs Hle ltac:(lia) (sp_range _ _ _ _ Hsrc) Ht)
    as (h1 & h2 & W' & Hr1 & Hr2 & Hs2 & Hst & Htot & Hw).
  unfold merge_src. rewrite Hr1. cbn [mbind option_bind]. rewrite Hr2. cbn [mbind option_bind].
  eexists _, W'. split_and!; [done| |done| |exact (merge_src_totals h src h2 _ _ _ _ _ _ _ _ Hst HT HT' Hz Hz' Hn)|].
  - by destruct Hs2; split.
  - intros s x. rewrite Hw. f_equal. unfold shifted. rewrite weight_shift by lia. f_equal. lia.
  - cbn [sum]. by destruct Hst as (_ & _ & -> & _).
Qed.

(** mergeExpo, in terms of what the two histograms hold. *)
Lemma mergeExpo_spec Ma Sa Wa a na za loa hia Mb Sb Wb b nb zb lob hib :
  2 ≤ Ma → 2 ≤ Mb → Sa ≤ expoMaxScale → Sb ≤ expoMaxScale → spec Ma Sa Wa a → spec Mb Sb Wb b →
  totals a na za loa hia → totals b nb zb lob hib → 0 ≤ za ≤ na → 0 ≤ zb ≤ nb → na + nb < 2 ^ 64 →
  (∀ s, total (Wa s) + total (Wb s) < 2 ^ 64) →
  let S0 := Z.min (scale a) (scale b) in
  ∃ h W, mergeExpo a b = Some h ∧ spec (Z.min Ma Mb) S0 W h ∧
    (∀ s x, weight 0 (W s) x = weight 0 (shifted (Sa - S0) (Wa s)) x + weight 0 (shifted (Sb - S0) (Wb s)) x) ∧
    (∀ s, total (W s) = total (Wa s) + total (Wb s)) ∧
    totals h (na + nb) (za + zb) (join_ext flt loa lob) (join_ext (λ v x, flt x v) hia hib) ∧
    sum h = fadd (fadd f_zero (sum a)) (sum b).
Proof.
  intros HMa HMb HSa HSb Ha Hb HTa HTb Hza Hzb Hn Ht S0. set (M := Z.min Ma Mb).
  pose proof (sp_scale _ _ _ _ Ha). pose proof (sp_scale _ _ _ _ Hb).
  assert (HS0 : start_scale S0 = S0) by (unfold start_scale, expoMinScale, expoMaxScale in *; lia).
  assert (HM : start_size M = M) by (unfold start_size, expoMinSize, M; lia).
  assert (Hpos : ∀ s, 0 ≤ total (Wb s)).
  { intros s. transitivity (zsum (λ _ : Z * Z, 0) (Wb s)); [by rewrite zsum_zero|]. apply zsum_le.
    eapply Forall_impl; [apply (sp_counted _ _ _ _ Hb)|]. simpl. lia. }
  pose proof (spec_new M S0) as Hs0. rewrite HS0, HM in Hs0.
  destruct (merge_src_spec M S0 (λ _, []) (newExpoHistogram M S0) Ma Sa Wa a 0 0 None None na za loa hia ltac:(lia) ltac:(lia)
    Hs0 Ha ltac:(lia) (totals_new M S0) HTa ltac:(lia) Hza ltac:(lia)) as (h1 & W1 & E1 & Hs1 & Ht1 & Hw1 & HT1 & Hsum1).
  { intros s. change (total []) with 0. specialize (Ht s). specialize (Hpos s). lia. }
  destruct (merge_src_spec M S0 W1 h1 Mb Sb Wb b _ _ _ _ nb zb lob hib ltac:(lia) ltac:(lia)
    Hs1 Hb ltac:(lia) HT1 HTb ltac:(lia) Hzb ltac:(lia)) as (h2 & W2 & E2 & Hs2 & Ht2 & Hw2 & HT2 & Hsum2).
  { intros s. rewrite Ht1. change (total []) with 0. specialize (Ht s). lia. }
  exists h2, W2. split_and!; [|done| |intros s; rewrite Ht2, Ht1; by change (total []) with 0| |].
  - unfold mergeExpo. rewrite (sp_size _ _ _ _ Ha), (sp_size _ _ _ _ Hb). fold M. fold S0. rewrite E1. done.
  - intros s x. rewrite Hw2, Hw1. change (weight 0 [] x) with 0. lia.
  - rewrite !Z.add_0_l in HT2. by destruct loa, hia.
  - by rewrite Hsum2, Hsum1.
Qed.

Section merged.
Context (log2 : float64 → float64) (Hlog : log2_ok log2).

(** The indexes of a lower scale. *)
Lemma indexes_shift S S' s vs :
  Forall (λ v, valid v = true) vs → S' ≤ S ≤ expoMaxScale →
  once (indexes log2 S' s vs) = shifted (S - S') (once (indexes log2 S s vs)).
Proof using Hlog.
  unfold expoMaxScale. intros Hv HS. unfold once, shifted. rewrite <-list_fmap_compose. induction Hv as [|v vs Hv Hvs IH]; [done|].
  rewrite (indexes_cons log2 S' s v vs), (indexes_cons log2 S s v vs), !fmap_app, IH. f_equal.
  unfold indexes. cbn [omap list_omap]. unfold bucket_of. rewrite finite_not.
  destruct (is_finite v) eqn:Hf; cbn [negb]; [|done].
  destruct (flt f_zero v) eqn:Hp; [|destruct (flt v f_zero) eqn:Hng; [|done]].
  - case_decide; [|done]. simpl. rewrite (expoIndex_shift log2 Hlog) by (done || lia || by destruct v). do 3 f_equal. lia.
  - destruct (fopp_pos v Hv Hf Hng) as (Hv' & Hp' & Hi'). case_decide; [|done]. simpl.
    rewrite (expoIndex_shift log2 Hlog) by (done || lia). do 3 f_equal. lia.
Qed.

Lemma finite_obs_app vs ws : finite_obs (vs ++ ws) = finite_obs vs ++ finite_obs ws.
Proof. apply List.filter_app. Qed.

Lemma zero_obs_app vs ws : zero_obs (vs ++ ws) = zero_obs vs ++ zero_obs ws.
Proof. unfold zero_obs. by rewrite finite_obs_app, List.filter_app. Qed.

Lemma zero_obs_length vs : 0 ≤ len (zero_obs vs) ≤ len (finite_obs vs).
Proof. split; [apply len_nonneg|]. unfold len, zero_obs. pose proof (List.filter_length_le (λ v, fkey v =? 0) (finite_obs vs)). lia. Qed.

Lemma finite_obs_length vs : 0 ≤ len (finite_obs vs) ≤ len vs.
Proof. split; [apply len_nonneg|]. unfold len, finite_obs. pose proof (List.filter_length_le is_finite vs). lia. Qed.

(** The totals of two runs together. *)
Lemma totals_app h vs ws :
  Forall (λ v, valid v = true) vs → Forall (λ v, valid v = true) ws →
  totals h (len (finite_obs vs) + len (finite_obs ws)) (len (zero_obs vs) + len (zero_obs ws))
    (join_ext flt (foldl lowest None (finite_obs vs)) (foldl lowest None (finite_obs ws)))
    (join_ext (λ v x, flt x v) (foldl highest None (finite_obs vs)) (foldl highest None (finite_obs ws))) →
  totals h (len (finite_obs (vs ++ ws))) (len (zero_obs (vs ++ ws)))
    (foldl lowest None (finite_obs (vs ++ ws))) (foldl highest None (finite_obs (vs ++ ws))).
Proof.
  intros Hv Hw HT. rewrite finite_obs_app, zero_obs_app, !len_app, !foldl_app.
  pose proof (finite_obs_numbers _ Hv) as Nv. pose proof (finite_obs_numbers _ Hw) as Nw.
  assert (Hacc : ∀ better key, (∀ x y, number x → number y → better x y = (key x <? key y)) →
    ∀ x, foldl (pick better) None (finite_obs vs) = Some x → number x).
  { intros better key Hb x. destruct (finite_obs vs) as [|v0 fs]; [done|]. apply Forall_cons in Nv as [N0 Nf].
    destruct (extremum_spec better key Hb fs v0 N0 Nf) as (m & Hm & Hn & _). change (foldl (pick better) None (v0 :: fs)) with (foldl (pick better) (Some v0) fs). rewrite Hm. by intros [= <-]. }
  unfold lowest, highest in *.
  rewrite (extremum_app flt fkey flt_better _ _ (Hacc _ _ flt_better) Nw).
  by rewrite (extremum_app (λ v x, flt x v) (λ v, - fkey v) fgt_better _ _ (Hacc _ _ fgt_better) Nw).
Qed.

Lemma totals_eq h h' n z lo hi : totals h n z lo hi → totals h' n z lo hi →
  count h = count h' ∧ zeroCount h = zeroCount h' ∧ min_ h = min_ h' ∧ max_ h = max_ h'.
Proof. intros [] []. split_and!; congruence. Qed.

(** Equality of histograms but for the rounding of the sum. *)
Definition same_but_sum (h h' : expoHistogram) : Prop :=
  maxSize h = maxSize h' ∧ scale h = scale h' ∧ count h = count h' ∧ zeroCount h = zeroCount h' ∧
  min_ h = min_ h' ∧ max_ h = max_ h' ∧ positive h = positive h' ∧ negative h = negative h'.

Lemma same_but_sum_spec M S0 W W' h h' n z lo hi :
  same_weights W W' → spec M S0 W h → spec M S0 W' h' → totals h n z lo hi → totals h' n z lo hi → same_but_sum h h'.
Proof.
  intros Hw Hs Hs' HT HT'. destruct (spec_unique _ _ _ _ _ _ Hw Hs Hs') as (E1 & E2 & E3).
  destruct (totals_eq _ _ _ _ _ _ HT HT') as (E4 & E5 & E6 & E7).
  split_and!; try done. by rewrite (sp_size _ _ _ _ Hs), (sp_size _ _ _ _ Hs').
Qed.

(** [h] is the histogram of the observations [vs], up to the rounding of the sum. *)
Definition histogram_for (M S : Z) (vs : list float64) (h : expoHistogram) : Prop :=
  ∃ W, spec (start_size M) (start_scale S) W h ∧ same_weights W (λ s, once (indexes log2 (start_scale S) s vs)) ∧
    (∀ s, total (W s) = len (indexes log2 (start_scale S) s vs)) ∧
    totals h (len (finite_obs vs)) (len (zero_obs vs)) (foldl lowest None (finite_obs vs)) (foldl highest None (finite_obs vs)).

Lemma record_new_for M S vs :
  Forall (λ v, valid v = true) vs → len vs < 2 ^ 64 →
  ∃ h, record_all log2 (newExpoHistogram M S) vs = Some h ∧ histogram_for M S vs h.
Proof using Hlog.
  intros Hv Hl. destruct (record_new_spec log2 Hlog M S vs Hv Hl) as (h & W & E & Hs & Hw & _ & HT).
  exists h. split; [done|]. exists W. split_and!; [done|by apply perm_weights| |done].
  intros s. by rewrite (perm_total _ _ (Hw s)), once_total.
Qed.

Lemma recorded_for M S vs h :
  record_all log2 (newExpoHistogram M S) vs = Some h → Forall (λ v, valid v = true) vs → len vs < 2 ^ 64 → histogram_for M S vs h.
Proof using Hlog.
  intros E Hv Hl. destruct (record_new_for M S vs Hv Hl) as (h' & E' & Hf). by assert (h' = h) as -> by congruence.
Qed.

Lemma histogram_for_unique M S vs h h' : histogram_for M S vs h → histogram_for M S vs h' → same_but_sum h h'.
Proof.
  intros (W & Hs & Hw & _ & HT) (W' & Hs' & Hw' & _ & HT'). refine (same_but_sum_spec _ _ _ _ _ _ _ _ _ _ _ Hs Hs' HT HT').
  intros s x. by rewrite Hw, Hw'.
Qed.

Lemma histogram_for_same M S vs h h' : same_but_sum h h' → histogram_for M S vs h' → histogram_for M S vs h.
Proof.
  intros (E1 & E2 & E3 & E4 & E5 & E6 & E7 & E8) (W & Hs & Hw & Ht & HT). exists W. split_and!; [|done|done|].
  - assert (Er : ∀ s, range s h = range s h') by (by intros [|]). destruct Hs. split; try done; rewrite ?E1, ?E2; try done.
    intros s. by rewrite Er.
  - destruct HT. split; congruence.
Qed.

(** Merging the histograms of two runs. *)
Lemma merge_for M1 S1 xs a M2 S2 ys b :
  histogram_for M1 S1 xs a → histogram_for M2 S2 ys b →
  Forall (λ v, valid v = true) xs → Forall (λ v, valid v = true) ys → len xs + len ys < 2 ^ 64 →
  ∃ h, mergeExpo a b = Some h ∧ histogram_for (Z.min M1 M2) (Z.min (scale a) (scale b)) (xs ++ ys) h ∧
    sum h = fadd (fadd f_zero (sum a)) (sum b).
Proof using Hlog.
  intros (Wa & Hsa & Hwa & Hta & HTa) (Wb & Hsb & Hwb & Htb & HTb) Hx Hy Hl.
  pose proof (sp_scale _ _ _ _ Hsa) as Hsca. pose proof (sp_scale _ _ _ _ Hsb) as Hscb.
  pose proof (start_scale_range S1). pose proof (start_scale_range S2).
  pose proof (finite_obs_length xs). pose proof (finite_obs_length ys).
  destruct (mergeExpo_spec (start_size M1) (start_scale S1) Wa a _ _ _ _ (start_size M2) (start_scale S2) Wb b _ _ _ _
    ltac:(unfold start_size, expoMinSize; lia) ltac:(unfold start_size, expoMinSize; lia) ltac:(lia) ltac:(lia) Hsa Hsb HTa HTb
    (zero_obs_length xs) (zero_obs_length ys) ltac:(lia)) as (h & W & E & Hs & Hw & Ht & HT & Hsum).
  { intros s. rewrite Hta, Htb. pose proof (indexes_length log2 (start_scale S1) s xs).
    pose proof (indexes_length log2 (start_scale S2) s ys). lia. }
  set (S0 := Z.min (scale a) (scale b)) in *.
  assert (HS0 : start_scale S0 = S0) by (unfold start_scale, expoMinScale, expoMaxScale in *; lia).
  assert (HM : start_size (Z.min M1 M2) = Z.min (start_size M1) (start_size M2)) by (unfold start_size; lia).
  exists h. split_and!; [done| |done]. exists W. rewrite HS0, HM. split_and!; [done| | |by apply totals_app].
  - intros s x. rewrite Hw, indexes_app. unfold once at 1. rewrite fmap_app. fold (once (indexes log2 S0 s xs)).
    fold (once (indexes log2 S0 s ys)). rewrite weight_app, (indexes_shift (start_scale S1) S0), (indexes_shift (start_scale S2) S0) by (done || lia).
    f_equal; unfold shifted; rewrite !weight_shift by lia; (apply weight_ext; [|lia]); intros i; apply Hwa || apply Hwb.
  - intros s. rewrite Ht, Hta, Htb, indexes_app, len_app. f_equal; rewrite <-!once_total.
    + by rewrite (indexes_shift (start_scale S1) S0), shifted_total by (done || lia).
    + by rewrite (indexes_shift (start_scale S2) S0), shifted_total by (done || lia).
Qed.

(** Observing more only lowers the scale. *)
Lemma scale_antitone M S0 W W' h h' :
  spec M S0 W h → spec M S0 W' h' → (∀ s x, 0 < weight 0 (W s) x → 0 < weight 0 (W' s) x) → scale h' ≤ scale h.
Proof.
  intros Hs Hs' Hin. destruct (Z.le_gt_cases (scale h') (scale h)) as [|Hlt]; [done|]. exfalso.
  pose proof (sp_scale _ _ _ _ Hs). pose proof (sp_scale _ _ _ _ Hs').
  destruct (sp_least _ _ _ _ Hs (S0 - scale h') ltac:(lia)) as [s Hn]. apply Hn.
  destruct (sp_fits _ _ _ _ Hs') as [|Hf]; [lia|].
  assert (Hel : ∀ p, p ∈ W s → ∃ p', p' ∈ W' s ∧ p'.1 = p.1).
  { intros p Hp. destruct (proj1 (weight_pos 0 (W' s) p.1 (sp_counted _ _ _ _ Hs' s))) as (p' & Hp' & Ep).
    - apply Hin, weight_pos; [apply Hs|]. exists p. split; [done|apply Z.shiftr_0_r].
    - exists p'. by rewrite Z.shiftr_0_r in Ep. }
  intros p q Hp Hq. destruct (Hel p Hp) as (p' & Hp' & <-), (Hel q Hq) as (q' & Hq' & <-). by apply (Hf s p' q').
Qed.

(** With one configuration, the merge is the histogram of all the observations. *)
Lemma merge_is_histogram M S xs a ys b :
  histogram_for M S xs a → histogram_for M S ys b →
  Forall (λ v, valid v = true) xs → Forall (λ v, valid v = true) ys → len xs + len ys < 2 ^ 64 →
  ∃ h, mergeExpo a b = Some h ∧ histogram_for M S (xs ++ ys) h.
Proof using Hlog.
  intros Ha Hb Hx Hy Hl. pose proof (start_scale_range S). destruct (merge_for M S xs a M S ys b Ha Hb Hx Hy Hl) as (h & Hm & Hfor & _).
  rewrite Z.min_id in Hfor. set (S0 := Z.min (scale a) (scale b)) in *.
  destruct (record_new_for M S (xs ++ ys)) as (h2 & _ & Hf2); [by apply Forall_app|by rewrite len_app|].
  exists h. split; [done|]. apply (histogram_for_same M S _ h h2); [|done].
  destruct Ha as (Wa & Hsa & Hwa & _), Hb as (Wb & Hsb & Hwb & _), Hf2 as (W2 & Hs2 & Hw2 & _ & HT2), Hfor as (W1 & Hs1 & Hw1 & _ & HT1).
  assert (Hin : ∀ s x, weight 0 (W2 s) x = weight 0 (Wa s) x + weight 0 (Wb s) x).
  { intros s x. rewrite Hw2, Hwa, Hwb, indexes_app. unfold once. by rewrite fmap_app, weight_app. }
  assert (Hpos : ∀ (W : side → list (Z * Z)) s x, (∀ s, counted (W s)) → 0 ≤ weight 0 (W s) x).
  { intros W s x HW. apply weight_nonneg. eapply Forall_impl; [apply HW|]. simpl. lia. }
  assert (scale h2 ≤ scale a).
  { apply (scale_antitone _ _ _ _ _ _ Hsa Hs2). intros s x. rewrite Hin. pose proof (Hpos Wb s x (sp_counted _ _ _ _ Hsb)). lia. }
  assert (scale h2 ≤ scale b).
  { apply (scale_antitone _ _ _ _ _ _ Hsb Hs2). intros s x. rewrite Hin. pose proof (Hpos Wa s x (sp_counted _ _ _ _ Hsa)). lia. }
  pose proof (sp_scale _ _ _ _ Hsa). pose proof (sp_scale _ _ _ _ Hsb).
  assert (HS0 : start_scale S0 = S0) by (unfold start_scale, expoMinScale, expoMaxScale in *; lia). rewrite HS0 in *.
  pose proof (spec_restart _ _ S0 _ _ Hs2 ltac:(lia)) as Hs2'.
  refine (same_but_sum_spec _ _ _ _ _ _ _ _ _ _ _ Hs1 Hs2' HT1 HT2). intros s x. rewrite Hw1.
  rewrite (indexes_shift (start_scale S) S0); [|by apply Forall_app|lia]. unfold shifted. rewrite !weight_shift by lia.
  symmetry. apply weight_ext; [|lia]. intros i. apply Hw2.
Qed.

(** ** Data points *)
Lemma bucketOffset_id i : in_i32 i → bucketOffset i = i.
Proof.
  unfold in_i32, bucketOffset. intros Hi. replace (i <? - 2 ^ 31) with false by lia.
  replace (2 ^ 31 - 1 <? i) with false by lia. apply i32_small. lia.
Qed.

Lemma shiftr_i32 i k : 0 ≤ k → in_i32 i → in_i32 (Z.shiftr i k).
Proof.
  unfold in_i32. intros Hk Hi. rewrite Z.shiftr_div_pow2 by done. assert (0 < 2 ^ k) by (apply Z.pow_pos_nonneg; lia).
  split; [apply Z.div_le_lower_bound|apply Z.div_lt_upper_bound]; nia.
Qed.

Lemma indexes_i32 S0 s vs i :
  Forall (λ v, valid v = true) vs → expoMinScale ≤ S0 ≤ expoMaxScale → i ∈ indexes log2 S0 s vs → in_i32 i.
Proof using Hlog.
  unfold expoMinScale, expoMaxScale. intros Hv HS Hi. apply list_elem_of_omap in Hi as (v & Hin & Hb).
  rewrite Forall_forall in Hv. specialize (Hv v Hin). unfold bucket_of in Hb. rewrite finite_not in Hb.
  destruct (is_finite v) eqn:Hf; cbn [negb] in Hb; [|done].
  destruct (flt f_zero v) eqn:Hp; [|destruct (flt v f_zero) eqn:Hng; [|done]]; case_decide; try done; injection Hb as <-.
  - apply (expoIndex_int32 log2 Hlog); [done|done|by destruct v|lia].
  - destruct (fopp_pos v Hv Hf Hng) as (Hv' & Hp' & Hi'). apply (expoIndex_int32 log2 Hlog); [done|done|done|lia].
Qed.

(** A histogram survives its data point. *)
Lemma point_roundtrip M S vs h :
  histogram_for M S vs h → Forall (λ v, valid v = true) vs → expoHistogramFromPoint (snapshot h) (maxSize h) = Some h.
Proof using Hlog.
  intros (W & Hs & Hw & _ & HT) Hv. pose proof (start_scale_range S).
  set (S1 := start_scale S) in *. pose proof (sp_scale _ _ _ _ Hs) as Hsc.
  assert (HM : 2 ≤ start_size M) by (unfold start_size, expoMinSize; lia).
  assert (Hoff : ∀ s, bucketOffset (offset (range s h)) = offset (range s h)).
  { intros s. pose proof (sp_range _ _ _ _ Hs s) as Hh. apply bucketOffset_id. destruct (W s) as [|p Ws] eqn:EW.
    - rewrite (hd_empty _ _ _ Hh) by done. unfold in_i32. simpl. lia.
    - destruct (hd_first _ _ _ Hh ltac:(done)) as (q & Hq & <-). apply shiftr_i32; [lia|]. rewrite <-EW in Hq.
      destruct (proj1 (weight_pos 0 (once (indexes log2 S1 s vs)) q.1 (once_counted _))) as (r & [_ Hr]%once_elem & Er).
      + rewrite <-(Hw s). apply weight_pos; [apply Hs|]. exists q. split; [done|apply Z.shiftr_0_r].
      + rewrite Z.shiftr_0_r in Er. rewrite <-Er. by apply (indexes_i32 S1 s vs). }
  assert (HS1 : start_scale (scale h) = scale h) by (unfold start_scale; lia).
  pose proof (spec_new (start_size M) (scale h)) as Hs0. rewrite HS1 in Hs0.
  replace (start_size (start_size M)) with (start_size M) in Hs0 by (unfold start_size; lia).
  destruct (replay_both (start_size M) (scale h) (λ _, []) (newExpoHistogram (start_size M) (scale h)) W (S1 - scale h) h HM ltac:(lia)
    Hs0 ltac:(lia) ltac:(lia) (sp_range _ _ _ _ Hs)) as (h1 & h2 & W' & E1 & E2 & Hs2 & Hst & Ht & Hwt).
  { intros s. change (total []) with 0. rewrite Z.add_0_l. apply Hs. }
  pose proof (spec_restart _ _ (scale h) _ _ Hs ltac:(lia)) as Hsr.
  assert (Hsw : same_weights W' (λ s, shifted (S1 - scale h) (W s))).
  { intros s x. rewrite Hwt. change (weight 0 [] x) with 0. unfold shifted. rewrite weight_shift, Z.add_0_l by lia. f_equal. lia. }
  destruct (spec_unique _ _ _ _ _ _ Hsw Hs2 Hsr) as (F1 & F2 & F3).
  unfold expoHistogramFromPoint, snapshot. cbn [p_scale p_positive p_negative p_count p_min p_max p_sum p_zeroCount].
  rewrite (sp_size _ _ _ _ Hs). cbn [scale newExpoHistogram]. fold (start_scale (scale h)). rewrite HS1.
  unfold bucket_snapshot. cbn [Offset Counts]. rewrite !point_loop_replay.
  pose proof (Hoff Positive) as Hop. pose proof (Hoff Negative) as Hon. cbn [range] in Hop, Hon. rewrite Hop, Hon.
  unfold replay in E1, E2. rewrite E1. cbn [mbind option_bind]. rewrite point_loop_replay, E2. cbn [mbind option_bind].
  destruct Hst as (_ & _ & _ & G4 & G5). rewrite F1, F2, F3, G4, G5. cbn [min_ max_ newExpoHistogram].
  destruct HT as [T1 _ T3 T4 T5 T6]. pose proof (sp_size _ _ _ _ Hs) as Hsz. rewrite (sp_size _ _ _ _ Hs2), <-Hsz.
  pose proof (finite_obs_length vs). destruct (Z.ltb_spec 0 (count h)) as [Hc|Hc].
  - by destruct h.
  - assert (len (finite_obs vs) = 0) as Hz by lia. rewrite (proj2 T5 Hz) in T3. rewrite (proj2 T6 Hz) in T4. simpl in T3, T4.
    rewrite <-T3. destruct h. simpl in *. congruence.
Qed.

(** ** The size *)
Lemma index_min_scale v :
  valid v = true → flt f_zero v = true → is_inf v = false → -2 ≤ expoIndex log2 v expoMinScale ≤ 0.
Proof using Hlog.
  intros Hv Hp Hi. destruct v as [b|b| |[|] m e]; try done; try (by destruct b).
  destruct (expoIndex_form log2 Hlog m e Hv) as (p & q & D & _ & _ & Hx). rewrite Hx by (unfold expoMinScale; lia).
  destruct (bounded_spec m e Hv) as (He & He' & Hm). pose proof (Z.log2_nonneg (Z.pos m)).
  assert (Z.log2 (Z.pos m) < 53) by (apply Z.log2_lt_pow2; lia).
  unfold index_form. change (expoMinScale <=? 0) with true. cbv iota. rewrite Z.shiftr_div_pow2 by (unfold expoMinScale; lia).
  change (2 ^ (- expoMinScale)) with 1024.
  assert (-1075 ≤ (if p then Z.log2 (Z.pos m) + e + 1 - 2 else Z.log2 (Z.pos m) + e + 1 - 1) ≤ 1023) as Hr by (destruct p; lia).
  split; [apply Z.div_le_lower_bound; lia|]. pose proof (Z.div_lt_upper_bound (if p then Z.log2 (Z.pos m) + e + 1 - 2 else Z.log2 (Z.pos m) + e + 1 - 1) 1024 1). lia.
Qed.

Lemma recorded_size M S vs h s :
  record_all log2 (newExpoHistogram M S) vs = Some h → Forall (λ v, valid v = true) vs → len vs < 2 ^ 64 →
  expoMinScale ≤ scale h ≤ start_scale S ∧
  (expoMinScale < scale h → len (counts (range s h)) ≤ start_size M) ∧ len (counts (range s h)) ≤ Z.max (start_size M) 3.
Proof using Hlog.
  intros E Hv Hl. pose proof (start_scale_range S) as HSr.
  destruct (record_new_spec log2 Hlog M S vs Hv Hl) as (h' & W & E' & Hs & Hw & _). assert (h' = h) as -> by congruence.
  pose proof (sp_scale _ _ _ _ Hs) as Hsc. pose proof (sp_range _ _ _ _ Hs s) as Hh.
  assert (HM : 2 ≤ start_size M) by (unfold start_size, expoMinSize; lia). split; [done|].
  destruct (decide (W s = [])) as [EW|EW].
  { rewrite (hd_empty _ _ _ Hh EW). unfold len. simpl. lia. }
  destruct (hd_first _ _ _ Hh EW) as (p & Hp & Ep), (hd_last _ _ _ Hh EW) as (q & Hq & Eq).
  destruct (sp_fits _ _ _ _ Hs) as [Hm|Hf]; [|specialize (Hf s q p Hq Hp); lia]. split; [lia|].
  assert (Hb : ∀ r, r ∈ W s → -2 ≤ Z.shiftr r.1 (start_scale S - scale h) ≤ 0); [|pose proof (Hb p Hp); pose proof (Hb q Hq); lia].
  intros r Hr. rewrite (Hw s) in Hr. apply once_elem in Hr as [_ Hr]. apply list_elem_of_omap in Hr as (v & Hin & Hbk).
  rewrite Forall_forall in Hv. specialize (Hv v Hin). unfold bucket_of in Hbk. rewrite finite_not in Hbk. unfold expoMaxScale in HSr.
  destruct (is_finite v) eqn:Hfin; cbn [negb] in Hbk; [|done].
  destruct (flt f_zero v) eqn:Hpos; [|destruct (flt v f_zero) eqn:Hng; [|done]]; case_decide; try done; injection Hbk as <-.
  - assert (is_inf v = false) by (by destruct v). rewrite (expoIndex_shift log2 Hlog) by (done || lia).
    replace (start_scale S - (start_scale S - scale h)) with expoMinScale by lia. by apply index_min_scale.
  - destruct (fopp_pos v Hv Hfin Hng) as (Hv' & Hp' & Hi'). rewrite (expoIndex_shift log2 Hlog) by (done || lia).
    replace (start_scale S - (start_scale S - scale h)) with expoMinScale by lia. by apply index_min_scale.
Qed.

End merged.

Lemma bfilter_perm {A} (f : A → bool) l1 l2 : l1 ≡ₚ l2 → List.filter f l1 ≡ₚ List.filter f l2.
Proof.
  induction 1 as [|x l1 l2 _ IH|x y l|l1 l2 l3 _ IH1 _ IH2]; simpl; [done| | |by rewrite IH1].
  - destruct (f x); [by constructor|done].
  - destruct (f x), (f y); try done. apply Permutation_swap.
Qed.

(** The order of the observations does not matter. *)
Lemma record_permuted log2 M S vs vs' h h' :
  log2_ok log2 → Forall (λ v, valid v = true) vs → len vs < 2 ^ 64 → vs ≡ₚ vs' →
  record_all log2 (newExpoHistogram M S) vs = Some h → record_all log2 (newExpoHistogram M S) vs' = Some h' →
  scale h' = scale h ∧ (∀ s, range s h' = range s h) ∧ count h' = count h ∧ zeroCount h' = zeroCount h.
Proof.
  intros Hlog Hv Hl HP E E'.
  assert (Hv' : Forall (λ v, valid v = true) vs') by (by rewrite <-HP).
  assert (Hl' : len vs' = len vs) by (unfold len; by rewrite HP).
  destruct (record_new_spec log2 Hlog M S vs Hv Hl) as (g & W & Eg & Hs & Hw & _ & HT). assert (g = h) as -> by congruence.
  destruct (record_new_spec log2 Hlog M S vs' Hv' ltac:(lia)) as (g' & W' & Eg' & Hs' & Hw' & _ & HT').
  assert (g' = h') as -> by congruence.
  assert (Hww : same_weights W' W).
  { apply perm_weights. intros s. rewrite (Hw' s), (Hw s). unfold once, indexes. by rewrite HP. }
  destruct (spec_unique _ _ _ _ _ _ Hww Hs' Hs) as (F1 & F2 & F3).
  assert (Hf : finite_obs vs ≡ₚ finite_obs vs') by (by apply bfilter_perm).
  assert (Hz : zero_obs vs ≡ₚ zero_obs vs') by (by apply bfilter_perm).
  destruct HT as [T1 T2 _ _ _ _], HT' as [U1 U2 _ _ _ _].
  split_and!; [done|by intros [|]|rewrite T1, U1; unfold len; by rewrite Hf|rewrite T2, U2; unfold len; by rewrite Hz].
Qed.

(** ** Properties *)

(** C19. The exponential histogram is exact and does not depend on the order of the
    observations.  Recording any list of floats, one at a time, always gives a
    histogram; its scale is the finest at which both ranges fit in the configured
    number of buckets (or the lowest), its buckets are those of the reference that
    looks at all the observations at once (first and last occupied index, each
    count the number of observations in the bucket), NaN and the infinities are
    not counted, the zeros are counted apart, and the minimum and the maximum are
    observations that no other one beats.  Any other order of the same observations
    gives the same scale, buckets and counts. *)
Theorem expo_batch log2 M S vs :
  log2_ok log2 → Forall (λ v, valid v = true) vs → len vs < 2 ^ 64 →
  ∃ h, record_all log2 (newExpoHistogram M S) vs = Some h ∧
    scale h = batch_scale log2 (start_size M) (start_scale S) vs ∧
    (∀ s, range s h = batch_buckets log2 (start_size M) (start_scale S) s vs) ∧
    count h = len (finite_obs vs) ∧ zeroCount h = len (zero_obs vs) ∧ sum h = foldl fadd f_zero (finite_obs vs) ∧
    (finite_obs vs ≠ [] → min_ h ∈ finite_obs vs ∧ max_ h ∈ finite_obs vs ∧
      ∀ v, v ∈ finite_obs vs → flt v (min_ h) = false ∧ flt (max_ h) v = false) ∧
    ∀ vs', vs ≡ₚ vs' → ∃ h', record_all log2 (newExpoHistogram M S) vs' = Some h' ∧
      scale h' = scale h ∧ (∀ s, range s h' = range s h) ∧ count h' = count h ∧ zeroCount h' = zeroCount h.
Proof.
  intros Hlog Hv Hl. destruct (record_new_batch log2 Hlog M S vs Hv Hl) as (h & E & H1 & H2 & H3 & H4 & H5 & H6).
  exists h. split_and!; try done. intros vs' HP.
  destruct (record_new_batch log2 Hlog M S vs') as (h' & E' & _); [by rewrite <-HP|unfold len in *; by rewrite <-HP|].
  exists h'. split; [done|]. by apply (record_permuted log2 M S vs vs').
Qed.

(** Merging loses nothing: mergeExpo of the histograms of two runs of
    observations always returns, and equals in every field but the rounding of the
    sum the histogram that records both runs, with the smaller size and starting
    at the coarser of the two scales; with one configuration for both, that is the
    histogram of the concatenated runs itself. *)
Theorem expo_merge log2 M1 S1 xs a M2 S2 ys b :
  log2_ok log2 → Forall (λ v, valid v = true) xs → Forall (λ v, valid v = true) ys → len xs + len ys < 2 ^ 64 →
  record_all log2 (newExpoHistogram M1 S1) xs = Some a → record_all log2 (newExpoHistogram M2 S2) ys = Some b →
  ∃ h, mergeExpo a b = Some h ∧ sum h = fadd (fadd f_zero (sum a)) (sum b) ∧
    (∃ h', record_all log2 (newExpoHistogram (Z.min M1 M2) (Z.min (scale a) (scale b))) (xs ++ ys) = Some h' ∧
      same_but_sum h h') ∧
    (M1 = M2 → S1 = S2 → ∃ h', record_all log2 (newExpoHistogram M1 S1) (xs ++ ys) = Some h' ∧ same_but_sum h h').
Proof.
  intros Hlog Hx Hy Hl Ea Eb. pose proof (len_nonneg xs). pose proof (len_nonneg ys).
  pose proof (recorded_for log2 Hlog _ _ _ _ Ea Hx ltac:(lia)) as Fa. pose proof (recorded_for log2 Hlog _ _ _ _ Eb Hy ltac:(lia)) as Fb.
  assert (Hxy : Forall (λ v, valid v = true) (xs ++ ys)) by (by apply Forall_app).
  assert (Hlen : len (xs ++ ys) < 2 ^ 64) by (by rewrite len_app).
  destruct (merge_for log2 Hlog M1 S1 xs a M2 S2 ys b Fa Fb Hx Hy Hl) as (h & E & Hf & Hsum). exists h. split_and!; [done|done| |].
  - destruct (record_new_for log2 Hlog (Z.min M1 M2) (Z.min (scale a) (scale b)) (xs ++ ys) Hxy Hlen) as (h' & E' & Hf').
    exists h'. split; [done|]. by eapply histogram_for_unique.
  - intros <- <-. destruct (merge_is_histogram log2 Hlog M1 S1 xs a ys b Fa Fb Hx Hy Hl) as (g & Eg & Fg).
    assert (g = h) as -> by congruence. destruct (record_new_for log2 Hlog M1 S1 (xs ++ ys) Hxy Hlen) as (h' & E' & Hf').
    exists h'. split; [done|]. by eapply histogram_for_unique.
Qed.

(** A histogram rebuilt by expoHistogramFromPoint from the data point its
    snapshot gives is the histogram itself, whatever was recorded. *)
Theorem expo_roundtrip log2 M S vs h :
  log2_ok log2 → Forall (λ v, valid v = true) vs → len vs < 2 ^ 64 →
  record_all log2 (newExpoHistogram M S) vs = Some h →
  expoHistogramFromPoint (snapshot h) (maxSize h) = Some h.
Proof. intros Hlog Hv Hl E. apply (point_roundtrip log2 Hlog M S vs); [by apply recorded_for|done]. Qed.

(** C20. The loop that lowers the scale stops, and lowers it enough: for every series
    of observations recording gives a histogram (the loop never takes more than the
    30 turns from the highest scale to the lowest), its scale is within the limits,
    and a range has at most the configured number of buckets above the lowest scale
    and at most three, or that number, at it. *)
Theorem expo_bounded log2 M S vs :
  log2_ok log2 → Forall (λ v, valid v = true) vs → len vs < 2 ^ 64 →
  ∃ h, record_all log2 (newExpoHistogram M S) vs = Some h ∧ expoMinScale ≤ scale h ≤ start_scale S ∧
    ∀ s, (expoMinScale < scale h → len (counts (range s h)) ≤ start_size M) ∧
      len (counts (range s h)) ≤ Z.max (start_size M) 3.
Proof.
  intros Hlog Hv Hl. destruct (record_new_spec log2 Hlog M S vs Hv Hl) as (h & _ & E & _).
  exists h. split; [done|]. pose proof (λ s, recorded_size log2 Hlog M S vs h s E Hv Hl) as Hr.
  split; [apply (Hr Positive)|]. intros s. apply (Hr s).
Qed.

(** ** Concrete runs

    The chord [2 (f - 1)] of the logarithm stands for math.Log2. *)
Definition chord_log2 (f : float64) : float64 :=
  match f with
  | S754_finite false m _ =>
      match 2 ^ 53 - Z.pos m with
      | Z.pos d => S754_finite true (Z.to_pos (Z.pos d * 2 ^ (52 - Z.log2 (Z.pos d)))) (Z.log2 (Z.pos d) - 104)
      | _ => f
      end
  | _ => f
  end.

Lemma chord_log2_ok : log2_ok chord_log2.
Proof.
  intros m Hm. unfold chord_log2. destruct (2 ^ 53 - Z.pos m) as [|d|d] eqn:E; [lia| |lia].
  destruct (Z.log2_spec (Z.pos d) ltac:(lia)) as [Hlo Hhi]. pose proof (Z.log2_nonneg (Z.pos d)).
  assert (Z.log2 (Z.pos d) < 52) by (apply Z.log2_lt_pow2; lia). set (L := Z.log2 (Z.pos d)) in *.
  assert (Hp : 0 < 2 ^ (52 - L)) by (apply Z.pow_pos_nonneg; lia).
  eexists _, _. split; [done|]. rewrite Z2Pos.id by nia.
  replace (2 ^ 52) with (2 ^ L * 2 ^ (52 - L)) by (rewrite <-Z.pow_add_r by lia; f_equal; lia).
  replace (2 ^ 53) with (2 ^ Z.succ L * 2 ^ (52 - L)) by (rewrite <-Z.pow_add_r by lia; f_equal; lia). split; [nia|lia].
Qed.

Definition demo_obs : list float64 := f_of_Z <$> [1; 2; 3; 0; -5; 6; 1000].
Definition demo_more : list float64 := [S754_nan; f_of_Z 7; f_inf true; f_of_Z (-1)].

(** The histogram of a list, for the concrete runs. *)
Definition histogram_of (M S : Z) (vs : list float64) : expoHistogram :=
  default (newExpoHistogram M S) (record_all chord_log2 (newExpoHistogram M S) vs).

Lemma demo_valid : Forall (λ v, valid v = true) (demo_obs ++ demo_more).
Proof. repeat constructor. Qed.

Lemma expo_batch_witness :
  ∃ h, record_all chord_log2 (newExpoHistogram 4 20) demo_obs = Some h ∧ scale h = -2 ∧
    positive h = mkBuckets (-1) [1; 3; 0; 1].
Proof.
  destruct (expo_batch chord_log2 4 20 demo_obs chord_log2_ok ltac:(repeat constructor) ltac:(vm_compute; reflexivity))
    as (h & E & Hs & Hr & _).
  exists h. split; [exact E|]. split; [rewrite Hs; vm_compute; reflexivity|].
  change (positive h) with (range Positive h). rewrite Hr. vm_compute. reflexivity.
Defined.

Lemma expo_merge_witness :
  ∃ h, mergeExpo (histogram_of 4 20 demo_obs) (histogram_of 3 5 demo_more) = Some h ∧ count h = 9.
Proof.
  destruct (expo_merge chord_log2 4 20 demo_obs (histogram_of 4 20 demo_obs) 3 5 demo_more (histogram_of 3 5 demo_more)
    chord_log2_ok ltac:(repeat constructor) ltac:(repeat constructor) ltac:(vm_compute; reflexivity)
    ltac:(vm_compute; reflexivity) ltac:(vm_compute; reflexivity)) as (h & E & _ & (h' & E' & Hs) & _).
  exists h. split; [exact E|]. destruct Hs as (_ & _ & -> & _). vm_compute in E'. injection E' as <-. reflexivity.
Defined.

Lemma expo_roundtrip_witness :
  expoHistogramFromPoint (snapshot (histogram_of 4 20 demo_obs)) 4 = Some (histogram_of 4 20 demo_obs).
Proof.
  exact (expo_roundtrip chord_log2 4 20 demo_obs (histogram_of 4 20 demo_obs) chord_log2_ok ltac:(repeat constructor)
    ltac:(vm_compute; reflexivity) ltac:(vm_compute; reflexivity)).
Defined.

Lemma expo_bounded_witness :
  ∃ h, record_all chord_log2 (newExpoHistogram 4 20) (demo_obs ++ demo_more) = Some h ∧ len (counts (positive h)) ≤ 4.
Proof.
  destruct (expo_bounded chord_log2 4 20 (demo_obs ++ demo_more) chord_log2_ok demo_valid ltac:(vm_compute; reflexivity))
    as (h & E & _ & Hb).
  exists h. split; [exact E|]. apply (Hb Positive).
Defined.
