(* ===== verification/Otlp.v ===== *)
(** * The OTLP exporter (exporters/otlp: exporter.go, histogram.go, exemplar.go,
      accumulator.go, reexport.go)

    An export converts a batch of metrics to OTLP data ([toResourceMetricsWithConfig]:
    one data point per counter and gauge observation, one per series of a histogram),
    folds it into the state of every series it knows ([accumulate]), and repeats the
    cumulative series the batch does not mention ([unobserved]).  Conversion reads the
    configuration only; the state is read and written under the exporter's mutex, so
    exports are sequential.

    The data of package metricdata are the records below.  A result of [None] is a
    Go panic: an index out of range or a failed type assertion.  The iteration of
    [unobserved] over a Go map has no fixed order: the order is an argument.  The
    resource attributes and the transport do not depend on the metrics and are left
    out; the outcome of a send is an argument of [export]. *)

From S2P Require Import Prelude GoLib Strconv Attribute Metric DogStatsDParse Cardinality Config Expo.
Local Open Scope go_scope.

(** The identity of a series (histogramKey). *)
Abbreviation histogramKey := (gostring * Distinct)%type.

Section otlp.
Context `{Attributes}.
Context (log2 : float64 → float64).

(** ** Data points *)
Record Exemplar := mkExemplar { ex_time : Z; ex_value : float64; ex_trace : Z; ex_span : Z }.

Record DataPoint := mkPoint {
  dp_attrs : list KeyValue; dp_start : Z; dp_time : Z; dp_value : float64; dp_exemplars : list Exemplar }.

Record HistogramDataPoint := mkHistPoint {
  hp_attrs : list KeyValue; hp_start : Z; hp_time : Z; hp_count : Z; hp_sum : float64;
  hp_bounds : list float64; hp_buckets : list Z; hp_min : option float64; hp_max : option float64;
  hp_exemplars : list Exemplar }.

Record ExponentialDataPoint := mkExpPoint {
  ep_attrs : list KeyValue; ep_start : Z; ep_time : Z; ep_point : ExpoPoint; ep_exemplars : list Exemplar }.

(** The data of a metric: temporality ([true] for delta) and points. *)
Inductive Aggregation :=
| ASum (delta monotonic : bool) (pts : list DataPoint)
| AGauge (pts : list DataPoint)
| AHistogram (delta : bool) (pts : list HistogramDataPoint)
| AExponential (delta : bool) (pts : list ExponentialDataPoint)
| ANone.

Record Metrics := mkMetrics { mt_name : gostring; mt_description : gostring; mt_unit : gostring; mt_data : Aggregation }.

Definition metricTemporality (temporality : gostring) : bool := bool_decide (temporality = Delta).

(** ** Exemplars *)
Definition exemplarOf (m : Metric) : list Exemplar :=
  if HasExemplar m then [mkExemplar (Timestamp m) (Value m) (TraceID m) (SpanID m)] else [].

(** A bucketExemplars maps a series to a slot per bucket; a slot without a trace ID
    is empty. *)
Definition bucket_offer (b : (gmap histogramKey (list (option Exemplar)))) (key : histogramKey) (bucket buckets : nat) (m : Metric) :
    option (gmap histogramKey (list (option Exemplar))) :=
  match exemplarOf m with
  | [] => Some b
  | exemplar :: _ =>
      let slots := default (replicate buckets None) (b !! key) in
      slot ← slots !! bucket;
      Some (if match slot with None => true | Some old => negb (Timestamp m <? ex_time old) end
            then <[key := <[bucket := Some exemplar]> slots]> b
            else <[key := slots]> b)
  end.

Definition attach_exemplars (slots : list (option Exemplar)) (p : HistogramDataPoint) : HistogramDataPoint :=
  mkHistPoint (hp_attrs p) (hp_start p) (hp_time p) (hp_count p) (hp_sum p) (hp_bounds p) (hp_buckets p)
    (hp_min p) (hp_max p) (hp_exemplars p ++ omap id slots).

(** Every key has its own point, so the order of the loop over the map does not matter. *)
Definition attach (b : (gmap histogramKey (list (option Exemplar)))) (histograms : gmap gostring (list HistogramDataPoint))
    (indexes : gmap histogramKey nat) : gmap gostring (list HistogramDataPoint) :=
  map_fold (λ (key : histogramKey) slots hs, alter (alter (attach_exemplars slots) (default 0%nat (indexes !! key))) key.1 hs)
    histograms b.

Record newestExemplars := mkNewest { ne_limit : Z; ne_kept : list Exemplar }.

(** The index of the first of the oldest exemplars. *)
Fixpoint oldest_loop (kept : list Exemplar) (i oldest : nat) (t : Z) : nat * Z :=
  match kept with
  | [] => (oldest, t)
  | e :: rest => if ex_time e <? t then oldest_loop rest (S i) i (ex_time e) else oldest_loop rest (S i) oldest t
  end.

Definition newest_offer (e : newestExemplars) (m : Metric) : option newestExemplars :=
  match exemplarOf m with
  | [] => Some e
  | exemplar :: _ =>
      if len (ne_kept e) <? ne_limit e then Some (mkNewest (ne_limit e) (ne_kept e ++ [exemplar]))
      else
        first ← ne_kept e !! 0%nat;
        let '(oldest, t) := oldest_loop (ne_kept e) 0 0 (ex_time first) in
        Some (if negb (Timestamp m <? t) then mkNewest (ne_limit e) (<[oldest := exemplar]> (ne_kept e)) else e)
  end.

(** slices.SortStableFunc by time *)
Fixpoint insert_stable (x : Exemplar) (l : list Exemplar) : list Exemplar :=
  match l with
  | [] => [x]
  | y :: l' => if ex_time x <=? ex_time y then x :: l else y :: insert_stable x l'
  end.

Definition sorted (e : newestExemplars) : list Exemplar := foldr insert_stable [] (ne_kept e).

(** ** Explicit-bucket histograms *)

(** sort.Search: the smallest index for which [f] holds, by bisection. *)
Fixpoint sort_Search_loop (fuel : nat) (f : nat → bool) (i j : nat) : nat :=
  match fuel with
  | O => i
  | S fuel' =>
      if (i <? j)%nat then
        let h := ((i + j) / 2)%nat in
        if f h then sort_Search_loop fuel' f i h else sort_Search_loop fuel' f (S h) j
      else i
  end.

Definition sort_Search (n : nat) (f : nat → bool) : nat := sort_Search_loop n f 0 n.

Definition usesExponential (config : OTLPConfig) (name : gostring) : bool :=
  match o_ExponentialHistogram config with
  | None => false
  | Some _ => match NamedBuckets (o_BucketsByName config) name with Some _ => false | None => true end
  end.

Definition key_of (m : Metric) : histogramKey := (Name m, Equivalent (NewSet (Attributes_ m))).

(** The state of the loop of explicitHistograms. *)
Record explicit_state := mkExplicit {
  x_histograms : gmap gostring (list HistogramDataPoint);
  x_indexes : gmap histogramKey nat;
  x_exemplars : (gmap histogramKey (list (option Exemplar))) }.

(** What an observation does to its point. *)
Definition observe_point (m : Metric) (bucket : nat) (p : HistogramDataPoint) : HistogramDataPoint :=
  mkHistPoint (hp_attrs p) (hp_start p) (if hp_time p <? Timestamp m then Timestamp m else hp_time p)
    (hp_count p +u 1) (fadd (hp_sum p) (Value m)) (hp_bounds p) (alter (λ c, u64 (c + 1)) bucket (hp_buckets p))
    (if flt (Value m) (default f_zero (hp_min p)) then Some (Value m) else hp_min p)
    (if flt (default f_zero (hp_max p)) (Value m) then Some (Value m) else hp_max p)
    (hp_exemplars p).

Definition new_point (m : Metric) (bounds : list float64) : HistogramDataPoint :=
  mkHistPoint (NewSet (Attributes_ m)) 0 (Timestamp m) 0 f_zero bounds (replicate (S (length bounds)) 0)
    (Some (Value m)) (Some (Value m)) [].

Definition explicit_step (config : OTLPConfig) (globalBounds : list float64) (m : Metric) (x : explicit_state) :
    option explicit_state :=
  let bounds := BucketsFor (o_BucketsByName config) globalBounds (Name m) in
  let key := key_of m in
  let points := default [] (x_histograms x !! Name m) in
  let '(points, indexes, index) :=
    match x_indexes x !! key with
    | Some index => (points, x_indexes x, index)
    | None => (points ++ [new_point m bounds], <[key := length points]> (x_indexes x), length points)
    end in
  let bucket := sort_Search (length bounds) (λ i, fle (Value m) (default f_zero (bounds !! i))) in
  p ← points !! index;
  _ ← hp_buckets p !! bucket;
  exemplars ← bucket_offer (x_exemplars x) key bucket (length (hp_buckets p)) m;
  Some (mkExplicit (<[Name m := <[index := observe_point m bucket p]> points]> (x_histograms x)) indexes exemplars).

Fixpoint explicit_loop (config : OTLPConfig) (globalBounds : list float64) (ms : list Metric) (x : explicit_state) :
    option explicit_state :=
  match ms with
  | [] => Some x
  | m :: ms' =>
      if negb (bool_decide (Type_ m = MetricTypeHistogram)) || usesExponential config (Name m)
      then explicit_loop config globalBounds ms' x
      else x' ← explicit_step config globalBounds m x; explicit_loop config globalBounds ms' x'
  end.

Definition explicitHistograms (config : OTLPConfig) (ms : list Metric) (globalBounds : list float64) :
    option (gmap gostring (list HistogramDataPoint)) :=
  x ← explicit_loop config globalBounds ms (mkExplicit ∅ ∅ ∅);
  Some (attach (x_exemplars x) (x_histograms x) (x_indexes x)).

(** ** Exponential histograms *)
Record expoSeries := mkSeries {
  es_attrs : list KeyValue; es_time : Z; es_histogram : expoHistogram; es_exemplars : newestExemplars }.

Definition newExpoSeries (attrs : list KeyValue) (size scale : Z) : expoSeries :=
  let h := newExpoHistogram size scale in
  mkSeries attrs 0 h (mkNewest (Z.min (maxSize h) 20) []).

Definition series_record (s : expoSeries) (m : Metric) : option expoSeries :=
  h ← record log2 (es_histogram s) (Value m);
  e ← newest_offer (es_exemplars s) m;
  Some (mkSeries (es_attrs s) (if es_time s <? Timestamp m then Timestamp m else es_time s) h e).

Definition series_point (s : expoSeries) : ExponentialDataPoint :=
  mkExpPoint (es_attrs s) 0 (es_time s) (snapshot (es_histogram s)) (sorted (es_exemplars s)).

(** The series of a name, by key in the order of their first observation, and the
    series the pointers of both maps of the source share. *)
Record expo_state := mkExpoState { y_names : gmap gostring (list histogramKey); y_series : gmap histogramKey expoSeries }.

Fixpoint exponential_loop (config : OTLPConfig) (settings : OTLPExponentialHistogram) (ms : list Metric) (y : expo_state) :
    option expo_state :=
  match ms with
  | [] => Some y
  | m :: ms' =>
      if negb (bool_decide (Type_ m = MetricTypeHistogram)) || negb (usesExponential config (Name m))
      then exponential_loop config settings ms' y
      else
        let key := key_of m in
        let '(names, series) :=
          match y_series y !! key with
          | Some s => (y_names y, s)
          | None => (<[Name m := default [] (y_names y !! Name m) ++ [key]]> (y_names y),
                     newExpoSeries (NewSet (Attributes_ m)) (eh_MaxSize settings) (eh_MaxScale settings))
          end in
        s' ← series_record series m;
        exponential_loop config settings ms' (mkExpoState names (<[key := s']> (y_series y)))
  end.

Definition exponentialHistograms (config : OTLPConfig) (ms : list Metric) :
    option (gmap gostring (list ExponentialDataPoint)) :=
  match o_ExponentialHistogram config with
  | None => Some ∅
  | Some h =>
      y ← exponential_loop config (Resolved h) ms (mkExpoState ∅ ∅);
      Some ((λ keys : list histogramKey, omap (λ key, series_point <$> y_series y !! key) keys) <$> y_names y)
  end.

(** ** Conversion *)
Fixpoint convert_loop (config : OTLPConfig) (histograms : gmap gostring (list HistogramDataPoint))
    (exponential : gmap gostring (list ExponentialDataPoint)) (ms : list Metric) (added : gset gostring) : list Metrics :=
  match ms with
  | [] => []
  | m :: ms' =>
      let attrs := NewSet (Attributes_ m) in
      let delta := metricTemporality (o_Temporality config) in
      let metric := mkMetrics (Name m) (Description m) (Unit m) in
      match Type_ m with
      | MetricTypeCounter =>
          metric (ASum delta true [mkPoint attrs 0 (Timestamp m) (Value m) (exemplarOf m)])
            :: convert_loop config histograms exponential ms' added
      | MetricTypeGauge =>
          metric (AGauge [mkPoint attrs 0 (Timestamp m) (Value m) []])
            :: convert_loop config histograms exponential ms' added
      | MetricTypeHistogram =>
          if bool_decide (Name m ∈ added) then convert_loop config histograms exponential ms' added
          else
            metric (match exponential !! Name m with
                    | Some pts => AExponential delta pts
                    | None => AHistogram delta (default [] (histograms !! Name m))
                    end)
              :: convert_loop config histograms exponential ms' ({[Name m]} ∪ added)
      | MetricTypeOther _ => convert_loop config histograms exponential ms' added
      end
  end.

Definition toResourceMetricsWithConfig (config : OTLPConfig) (ms : list Metric) (globalBounds : list float64) :
    option (list Metrics) :=
  histograms ← explicitHistograms config ms globalBounds;
  exponential ← exponentialHistograms config ms;
  Some (convert_loop config histograms exponential ms ∅).

(** ** The state of a series *)
Inductive seriesKind := kindSum | kindHistogram | kindGauge | kindExponential.

Record seriesMeta := mkMeta { sm_name : gostring; sm_description : gostring; sm_unit : gostring }.

Definition metaOf (m : Metrics) : seriesMeta := mkMeta (mt_name m) (mt_description m) (mt_unit m).

Definition zero_hist : HistogramDataPoint := mkHistPoint [] 0 0 0 f_zero [] [] None None [].
Definition zero_expo : ExponentialDataPoint :=
  mkExpPoint [] 0 0 (mkExpoPoint 0 f_zero 0 0 (mkExpoBucket 0 []) (mkExpoBucket 0 []) None None) [].

(** [st_kind] is [None] before the first point. *)
Record seriesState := mkState {
  st_start : Z; st_lastTime : Z; st_sum : float64; st_histogram : HistogramDataPoint;
  st_exponential : ExponentialDataPoint; st_meta : seriesMeta; st_attributes : list KeyValue;
  st_kind : option seriesKind; st_gauge : float64; st_gaugeTime : Z }.

Definition zero_state : seriesState :=
  mkState 0 0 f_zero zero_hist zero_expo (mkMeta [] [] []) [] None f_zero 0.

Definition minPointSpacing : Z := Millisecond.

Definition pointTime (s : seriesState) (observed exported : Z) (cumulative : bool) : Z * seriesState :=
  let floor := if cumulative && negb (IsZero exported) then exported + minPointSpacing else exported in
  let observed := if observed <? floor then floor else observed in
  let observed := if observed <? st_lastTime s then st_lastTime s else observed in
  (observed, mkState (st_start s) observed (st_sum s) (st_histogram s) (st_exponential s) (st_meta s)
               (st_attributes s) (st_kind s) (st_gauge s) (st_gaugeTime s)).

(** One export: the committed states, the next ones, and the series observed in it. *)
Record accumulation := mkAcc {
  a_exported : (gmap histogramKey seriesState); a_next : (gmap histogramKey seriesState); a_cumulative : bool;
  a_seen : gset histogramKey; a_expoMaxSize : Z }.

Definition acc_state (a : accumulation) (key : histogramKey) (observed : Z) : seriesState * bool :=
  match a_next a !! key with
  | Some s => (s, true)
  | None => (mkState observed 0 f_zero zero_hist zero_expo (mkMeta [] [] []) [] None f_zero 0, false)
  end.

Definition times (a : accumulation) (key : histogramKey) (s : seriesState) (observed : Z) : Z * Z * seriesState :=
  let start := if negb (a_cumulative a) && negb (IsZero (st_lastTime s)) then st_lastTime s else st_start s in
  let '(at_, s') := pointTime s observed (st_lastTime (default zero_state (a_exported a !! key))) (a_cumulative a) in
  (start, at_, s').

Definition store (a : accumulation) (key : histogramKey) (s : seriesState) : accumulation :=
  mkAcc (a_exported a) (<[key := s]> (a_next a)) (a_cumulative a) ({[key]} ∪ a_seen a) (a_expoMaxSize a).

Definition identify (meta : seriesMeta) (attrs : list KeyValue) (kind : seriesKind) (s : seriesState) : seriesState :=
  mkState (st_start s) (st_lastTime s) (st_sum s) (st_histogram s) (st_exponential s) meta attrs (Some kind)
    (st_gauge s) (st_gaugeTime s).

Definition with_sum (v : float64) (s : seriesState) : seriesState :=
  mkState (st_start s) (st_lastTime s) v (st_histogram s) (st_exponential s) (st_meta s) (st_attributes s) (st_kind s)
    (st_gauge s) (st_gaugeTime s).

Definition with_histogram (p : HistogramDataPoint) (s : seriesState) : seriesState :=
  mkState (st_start s) (st_lastTime s) (st_sum s) p (st_exponential s) (st_meta s) (st_attributes s) (st_kind s)
    (st_gauge s) (st_gaugeTime s).

Definition with_exponential (p : ExponentialDataPoint) (s : seriesState) : seriesState :=
  mkState (st_start s) (st_lastTime s) (st_sum s) (st_histogram s) p (st_meta s) (st_attributes s) (st_kind s)
    (st_gauge s) (st_gaugeTime s).

Definition point_key (meta : seriesMeta) (attrs : list KeyValue) : histogramKey := (sm_name meta, Equivalent attrs).

Definition sumPoint (a : accumulation) (meta : seriesMeta) (p : DataPoint) : DataPoint * accumulation :=
  let key := point_key meta (dp_attrs p) in
  let '(s, _) := acc_state a key (dp_time p) in
  let s := identify meta (dp_attrs p) kindSum s in
  let s := with_sum (fadd (st_sum s) (dp_value p)) s in
  let '(start, at_, s) := times a key s (dp_time p) in
  let value := if a_cumulative a then st_sum s else dp_value p in
  let s := if a_cumulative a then s else with_sum f_zero s in
  (mkPoint (dp_attrs p) start at_ value (dp_exemplars p), store a key s).

(** A loop over the buckets of [point] that reads the same buckets of [previous]. *)
Fixpoint add_buckets (cs ps : list Z) : option (list Z) :=
  match cs, ps with
  | [], _ => Some []
  | c :: cs', p :: ps' => rest ← add_buckets cs' ps'; Some (u64 (c + p) :: rest)
  | _ :: _, [] => None
  end.

Definition addHistogram (p previous : HistogramDataPoint) : option HistogramDataPoint :=
  buckets ← add_buckets (hp_buckets p) (hp_buckets previous);
  Some (mkHistPoint (hp_attrs p) (hp_start p) (hp_time p) (hp_count p +u hp_count previous)
          (fadd (hp_sum p) (hp_sum previous)) (hp_bounds p) buckets
          (match hp_min previous with
           | Some old => if flt old (default f_zero (hp_min p)) then Some old else hp_min p
           | None => hp_min p
           end)
          (match hp_max previous with
           | Some old => if flt (default f_zero (hp_max p)) old then Some old else hp_max p
           | None => hp_max p
           end)
          (hp_exemplars p)).

Definition hist_at (start at_ : Z) (p : HistogramDataPoint) : HistogramDataPoint :=
  mkHistPoint (hp_attrs p) start at_ (hp_count p) (hp_sum p) (hp_bounds p) (hp_buckets p) (hp_min p) (hp_max p)
    (hp_exemplars p).

Definition hist_no_exemplars (p : HistogramDataPoint) : HistogramDataPoint :=
  mkHistPoint (hp_attrs p) (hp_start p) (hp_time p) (hp_count p) (hp_sum p) (hp_bounds p) (hp_buckets p) (hp_min p)
    (hp_max p) [].

Definition histogramPoint (a : accumulation) (meta : seriesMeta) (p : HistogramDataPoint) :
    option (HistogramDataPoint * accumulation) :=
  let key := point_key meta (hp_attrs p) in
  let '(s, exists_) := acc_state a key (hp_time p) in
  let s := identify meta (hp_attrs p) kindHistogram s in
  p ← (if a_cumulative a && exists_ then addHistogram p (st_histogram s) else Some p);
  let '(start, at_, s) := times a key s (hp_time p) in
  let p := hist_at start at_ p in
  Some (p, store a key (with_histogram (if a_cumulative a then hist_no_exemplars p else zero_hist) s)).

Definition exp_at (start at_ : Z) (p : ExponentialDataPoint) : ExponentialDataPoint :=
  mkExpPoint (ep_attrs p) start at_ (ep_point p) (ep_exemplars p).

(** The copy has no exemplars; that it shares no counts is immaterial here. *)
Definition copyExponential (p : ExponentialDataPoint) : ExponentialDataPoint :=
  mkExpPoint (ep_attrs p) (ep_start p) (ep_time p) (ep_point p) [].

Definition addExponential (p previous : ExponentialDataPoint) (size : Z) : option ExponentialDataPoint :=
  hp ← expoHistogramFromPoint (ep_point previous) size;
  hn ← expoHistogramFromPoint (ep_point p) size;
  h ← mergeExpo hp hn;
  Some (mkExpPoint (ep_attrs p) (ep_start p) (ep_time p) (snapshot h) (ep_exemplars p)).

Definition exponentialPoint (a : accumulation) (meta : seriesMeta) (p : ExponentialDataPoint) :
    option (ExponentialDataPoint * accumulation) :=
  let key := point_key meta (ep_attrs p) in
  let '(s, exists_) := acc_state a key (ep_time p) in
  let s := identify meta (ep_attrs p) kindExponential s in
  p ← (if a_cumulative a && exists_ then addExponential p (st_exponential s) (a_expoMaxSize a) else Some p);
  let '(start, at_, s) := times a key s (ep_time p) in
  let p := exp_at start at_ p in
  Some (p, store a key (with_exponential (if a_cumulative a then copyExponential p else zero_expo) s)).

Definition gaugePoint (a : accumulation) (meta : seriesMeta) (p : DataPoint) : accumulation :=
  let key := point_key meta (dp_attrs p) in
  let '(s, _) := acc_state a key (dp_time p) in
  let s := identify meta (dp_attrs p) kindGauge s in
  let newer := negb (dp_time p <? st_gaugeTime s) in
  store a key
    (mkState (st_start s) (if st_lastTime s <? dp_time p then dp_time p else st_lastTime s) (st_sum s) (st_histogram s)
       (st_exponential s) (st_meta s) (st_attributes s) (st_kind s)
       (if newer then dp_value p else st_gauge s) (if newer then dp_time p else st_gaugeTime s)).

(** addSumPoint: the first point of the same attributes takes the new point's place. *)
Fixpoint addSumPoint (delta : bool) (pts : list DataPoint) (p : DataPoint) : list DataPoint :=
  match pts with
  | [] => [p]
  | q :: pts' =>
      if bool_decide (Equivalent (dp_attrs q) = Equivalent (dp_attrs p)) then
        mkPoint (dp_attrs p) (if delta then dp_start q else dp_start p) (dp_time p)
          (if delta then fadd (dp_value p) (dp_value q) else dp_value p)
          (match dp_exemplars q with
           | [] => dp_exemplars p
           | old :: _ => match dp_exemplars p with
                         | [] => dp_exemplars q
                         | new :: _ => if ex_time new <? ex_time old then dp_exemplars q else dp_exemplars p
                         end
           end) :: pts'
      else q :: addSumPoint delta pts' p
  end.

(** ** One export *)
Record acc_loop := mkLoop { l_acc : accumulation; l_merged : list Metrics; l_sums : gmap gostring nat }.

(** The loop over the observations of a Sum. *)
Fixpoint sum_points (a : accumulation) (meta : seriesMeta) (delta : bool) (obs pts : list DataPoint) :
    accumulation * list DataPoint :=
  match obs with
  | [] => (a, pts)
  | p :: obs' => let '(p', a') := sumPoint a meta p in sum_points a' meta delta obs' (addSumPoint delta pts p')
  end.

Fixpoint histogram_points (a : accumulation) (meta : seriesMeta) (pts : list HistogramDataPoint) :
    option (accumulation * list HistogramDataPoint) :=
  match pts with
  | [] => Some (a, [])
  | p :: pts' =>
      '(p', a1) ← histogramPoint a meta p;
      '(a2, rest) ← histogram_points a1 meta pts';
      Some (a2, p' :: rest)
  end.

Fixpoint exponential_points (a : accumulation) (meta : seriesMeta) (pts : list ExponentialDataPoint) :
    option (accumulation * list ExponentialDataPoint) :=
  match pts with
  | [] => Some (a, [])
  | p :: pts' =>
      '(p', a1) ← exponentialPoint a meta p;
      '(a2, rest) ← exponential_points a1 meta pts';
      Some (a2, p' :: rest)
  end.

Definition with_data (m : Metrics) (d : Aggregation) : Metrics :=
  mkMetrics (mt_name m) (mt_description m) (mt_unit m) d.

Definition accumulate_step (m : Metrics) (l : acc_loop) : option acc_loop :=
  match mt_data m with
  | ASum delta mono observations =>
      let '(merged, sums, index) :=
        match l_sums l !! mt_name m with
        | Some index => (l_merged l, l_sums l, index)
        | None => (l_merged l ++ [with_data m (ASum delta mono [])], <[mt_name m := length (l_merged l)]> (l_sums l),
                   length (l_merged l))
        end in
      target ← merged !! index;
      match mt_data target with
      | ASum delta' mono' pts =>
          let '(a, pts') := sum_points (l_acc l) (metaOf m) delta' observations pts in
          Some (mkLoop a (<[index := with_data target (ASum delta' mono' pts')]> merged) sums)
      | _ => None
      end
  | AHistogram delta pts =>
      '(a, pts') ← histogram_points (l_acc l) (metaOf m) pts;
      Some (mkLoop a (l_merged l ++ [with_data m (AHistogram delta pts')]) (l_sums l))
  | AExponential delta pts =>
      '(a, pts') ← exponential_points (l_acc l) (metaOf m) pts;
      Some (mkLoop a (l_merged l ++ [with_data m (AExponential delta pts')]) (l_sums l))
  | AGauge pts =>
      Some (mkLoop (foldl (λ a p, gaugePoint a (metaOf m) p) (l_acc l) pts) (l_merged l ++ [m]) (l_sums l))
  | ANone => Some (mkLoop (l_acc l) (l_merged l ++ [m]) (l_sums l))
  end.

Fixpoint accumulate_loop (ms : list Metrics) (l : acc_loop) : option acc_loop :=
  match ms with
  | [] => Some l
  | m :: ms' => l' ← accumulate_step m l; accumulate_loop ms' l'
  end.

Definition sameKind (a b : Aggregation) : bool :=
  match a, b with
  | ASum _ _ _, ASum _ _ _ | AGauge _, AGauge _ | AHistogram _ _, AHistogram _ _ | AExponential _ _, AExponential _ _ => true
  | _, _ => false
  end.

(** [add] on the metric of that name and kind, or on a new one. *)
Fixpoint append_to (ms : list Metrics) (name : gostring) (kind : Aggregation) (add : Aggregation → Aggregation) :
    option (list Metrics) :=
  match ms with
  | [] => None
  | m :: ms' =>
      if bool_decide (mt_name m = name) && sameKind (mt_data m) kind then Some (with_data m (add (mt_data m)) :: ms')
      else (m ::.) <$> append_to ms' name kind add
  end.

Definition appendUnobserved (ms : list Metrics) (meta : seriesMeta) (add : Aggregation → Aggregation) : list Metrics :=
  match append_to ms (sm_name meta) (add ANone) add with
  | Some ms' => ms'
  | None => ms ++ [mkMetrics (sm_name meta) (sm_description meta) (sm_unit meta) (add ANone)]
  end.

(** What unobserved adds for the state of a series. *)
Definition unobserved_point (s : seriesState) (start at_ : Z) : option (Aggregation → Aggregation) :=
  match st_kind s with
  | Some kindSum => Some (λ d, ASum false true
      (match d with ASum _ _ pts => pts | _ => [] end ++ [mkPoint (st_attributes s) start at_ (st_sum s) []]))
  | Some kindGauge => Some (λ d, AGauge
      (match d with AGauge pts => pts | _ => [] end ++ [mkPoint (st_attributes s) 0 at_ (st_gauge s) []]))
  | Some kindHistogram => Some (λ d, AHistogram false
      (match d with AHistogram _ pts => pts | _ => [] end ++ [hist_at start at_ (st_histogram s)]))
  | Some kindExponential => Some (λ d, AExponential false
      (match d with AExponential _ pts => pts | _ => [] end ++ [exp_at start at_ (copyExponential (st_exponential s))]))
  | None => None
  end.

Fixpoint unobserved_loop (order : list histogramKey) (now : Z) (a : accumulation) (ms : list Metrics) :
    accumulation * list Metrics :=
  match order with
  | [] => (a, ms)
  | key :: order' =>
      if bool_decide (key ∈ a_seen a) then unobserved_loop order' now a ms
      else
        match a_next a !! key with
        | None => unobserved_loop order' now a ms
        | Some s =>
            let '(start, at_, s') := times a key s now in
            let a' := mkAcc (a_exported a) (<[key := s']> (a_next a)) (a_cumulative a) (a_seen a) (a_expoMaxSize a) in
            unobserved_loop order' now a'
              (match unobserved_point s' start at_ with
               | Some add => appendUnobserved ms (st_meta s') add
               | None => ms
               end)
        end
  end.

Definition unobserved (order : list histogramKey) (a : accumulation) (ms : list Metrics) (now : Z) :
    accumulation * list Metrics :=
  if a_cumulative a then unobserved_loop order now a ms else (a, ms).

Definition accumulate (config : OTLPConfig) (order : list histogramKey) (exported : (gmap histogramKey seriesState)) (ms : list Metrics) (now : Z) :
    option (list Metrics * (gmap histogramKey seriesState)) :=
  let size := match o_ExponentialHistogram config with Some h => eh_MaxSize (Resolved h) | None => 0 end in
  let acc := mkAcc exported exported (negb (bool_decide (o_Temporality config = Delta))) ∅ size in
  l ← accumulate_loop ms (mkLoop acc [] ∅);
  let '(a, out) := unobserved order (l_acc l) (l_merged l) now in
  Some (out, a_next a).

(** export: what was sent, if anything, the state afterwards and the error.  [send] is
    the outcome of the transport; a state of [None] is the nil pointer. *)
Definition export (config : OTLPConfig) (order : list histogramKey) (now : Z) (send : option error)
    (series : option (gmap histogramKey seriesState)) (metrics : list Metric) :
    option (option (list Metrics) * option (gmap histogramKey seriesState) * option error) :=
  if negb (o_Enabled config) then Some (None, series, None)
  else
    rm ← toResourceMetricsWithConfig config metrics (default [] (o_HistogramBuckets config));
    '(out, next) ← accumulate config order (default ∅ series) rm now;
    if (len metrics =? 0) && (len out =? 0) then Some (None, series, None)
    else Some (Some out, Some next, send).

Definition Export (config : OTLPConfig) (order : list histogramKey) (now : Z) (send : option error)
    (series : option (gmap histogramKey seriesState)) (metrics : list Metric) :
    option (option (list Metrics) * option (gmap histogramKey seriesState) * option error) :=
  if len metrics =? 0 then Some (None, series, None) else export config order now send series metrics.

Definition ExportIdle (config : OTLPConfig) (order : list histogramKey) (now : Z) (send : option error)
    (series : option (gmap histogramKey seriesState)) : option (option (list Metrics) * option (gmap histogramKey seriesState) * option error) :=
  export config order now send series [].

End otlp.
