(* ===== verification/OtlpCorrect.v ===== *)
(** * The OTLP exporter: cumulative counters

    Every export of a run carries, for every counter series observed so far, exactly
    one point with the total of all its observations, whether earlier sends failed
    or not, and the points of a series are at least a millisecond apart. *)

From S2P Require Import Prelude GoLib Strconv Attribute Metric DogStatsDParse Cardinality Config Expo ExpoSpec ExpoCorrect Otlp.
Local Open Scope go_scope.

Section counters.
Context `{Attributes}.
Context (log2 : float64 → float64).

Implicit Types (K : histogramKey) (a : accumulation) (s : seriesState).

(** ** What is said about a series *)

(** The points of a series in the data of an export. *)
Definition is_point K (p : DataPoint) : bool := bool_decide (Equivalent (dp_attrs p) = K.2).

Definition points_in K (m : Metrics) : list DataPoint :=
  match mt_data m with
  | ASum _ _ pts => if bool_decide (mt_name m = K.1) then List.filter (is_point K) pts else []
  | _ => []
  end.

Definition sum_points_of K (out : list Metrics) : list DataPoint := concat (map (points_in K) out).

(** The keys of the points of a metric. *)
Definition data_keys (m : Metrics) : list histogramKey :=
  match mt_data m with
  | ASum _ _ pts | AGauge pts => (λ p, (mt_name m, Equivalent (dp_attrs p))) <$> pts
  | AHistogram _ pts => (λ p, (mt_name m, Equivalent (hp_attrs p))) <$> pts
  | AExponential _ pts => (λ p, (mt_name m, Equivalent (ep_attrs p))) <$> pts
  | ANone => []
  end.

Definition is_sum (m : Metrics) : bool := match mt_data m with ASum _ _ _ => true | _ => false end.

(** Every state knows the series it belongs to. *)
Definition identified K s : Prop := point_key (st_meta s) (st_attributes s) = K ∧ is_Some (st_kind s).
Definition states_ok (st : gmap histogramKey seriesState) : Prop := ∀ K s, st !! K = Some s → identified K s.

(** ** Times *)
Lemma pointTime_spec s t e c at_ s' :
  pointTime s t e c = (at_, s') →
  st_lastTime s' = at_ ∧ st_lastTime s ≤ at_ ∧ e ≤ at_ ∧ t ≤ at_ ∧
  (c = true → e ≠ 0 → e + minPointSpacing ≤ at_) ∧
  st_sum s' = st_sum s ∧ st_meta s' = st_meta s ∧ st_attributes s' = st_attributes s ∧ st_kind s' = st_kind s.
Proof.
  unfold pointTime, IsZero, minPointSpacing, Millisecond. intros [= <- <-]. simpl.
  destruct c, (Z.eqb_spec e 0); simpl; zbool; split_and!; try done; try lia.
Qed.

Lemma times_spec a K s t start at_ s' :
  times a K s t = (start, at_, s') →
  st_lastTime s' = at_ ∧ st_lastTime s ≤ at_ ∧
  (a_cumulative a = true → st_lastTime (default zero_state (a_exported a !! K)) ≠ 0 →
     st_lastTime (default zero_state (a_exported a !! K)) + minPointSpacing ≤ at_) ∧
  st_sum s' = st_sum s ∧ st_meta s' = st_meta s ∧ st_attributes s' = st_attributes s ∧ st_kind s' = st_kind s.
Proof.
  unfold times. destruct (pointTime _ _ _ _) as [x s1] eqn:E. intros [= _ <- <-].
  destruct (pointTime_spec _ _ _ _ _ _ E) as (H1 & H2 & H3 & H4 & H5 & H6 & H7 & H8 & H9). split_and!; try done.
Qed.

Lemma acc_state_fields a K t s e :
  acc_state a K t = (s, e) →
  (a_next a !! K = Some s ∧ e = true) ∨
  (a_next a !! K = None ∧ e = false ∧ st_sum s = f_zero ∧ st_lastTime s = 0).
Proof. unfold acc_state. destruct (a_next a !! K); intros [= <- <-]; [left|right]; done. Qed.

(** ** The operations on one series *)

(** An accumulation that differs from another in the series [K] only. *)
Definition same_but K a a' : Prop :=
  a_exported a' = a_exported a ∧ a_cumulative a' = a_cumulative a ∧
  (∀ K', K' ≠ K → a_next a' !! K' = a_next a !! K' ∧ (K' ∈ a_seen a' ↔ K' ∈ a_seen a)).

Lemma store_same a K s : same_but K a (store a K s).
Proof.
  split_and!; [done|done|]. intros K' HK. cbn [store a_next a_seen]. rewrite lookup_insert_ne by done.
  split; [done|]. set_solver.
Qed.

Lemma store_ok a K s : states_ok (a_next a) → identified K s → states_ok (a_next (store a K s)).
Proof.
  intros Ha Hs K' s'. cbn [store a_next]. destruct (decide (K' = K)) as [->|HK].
  - rewrite lookup_insert_eq. by intros [= <-].
  - rewrite lookup_insert_ne by done. apply Ha.
Qed.

Lemma store_seen a K s : K ∈ a_seen (store a K s) ∧ a_next (store a K s) !! K = Some s.
Proof. cbn [store a_seen a_next]. rewrite lookup_insert_eq. set_solver. Qed.

(** A counter's point: the new total, in the state and in the data. *)
Lemma sumPoint_spec a meta p p' a' :
  a_cumulative a = true → sumPoint a meta p = (p', a') →
  let K := point_key meta (dp_attrs p) in
  same_but K a a' ∧ (states_ok (a_next a) → states_ok (a_next a')) ∧ dp_attrs p' = dp_attrs p ∧
  ∃ s', a_next a' !! K = Some s' ∧ K ∈ a_seen a' ∧ st_kind s' = Some kindSum ∧
    st_sum s' = fadd (match a_next a !! K with Some s => st_sum s | None => f_zero end) (dp_value p) ∧
    dp_value p' = st_sum s' ∧ dp_time p' = st_lastTime s' ∧
    (st_lastTime (default zero_state (a_exported a !! K)) ≠ 0 →
       st_lastTime (default zero_state (a_exported a !! K)) + minPointSpacing ≤ st_lastTime s').
Proof.
  intros Hc. unfold sumPoint. set (K := point_key meta (dp_attrs p)).
  destruct (acc_state a K (dp_time p)) as [s e] eqn:Es.
  destruct (times _ _ _ _) as [[start at_] s1] eqn:Et. rewrite Hc. intros [= <- <-].
  apply times_spec in Et as (H1 & H2 & H3 & H4 & H5 & H6 & H7). simpl in *.
  assert (Hid : identified K s1) by (split; [by rewrite H5, H6|by rewrite H7]).
  split_and!; [apply store_same|by intros Hok; apply store_ok|done|].
  exists s1. destruct (store_seen a K s1) as [Hseen Hnext]. split_and!; [done|done|done| |done|done|].
  - rewrite H4. by apply acc_state_fields in Es as [[-> _]|(-> & _ & -> & _)].
  - intros He. rewrite H1. by apply H3.
Qed.

Lemma histogramPoint_spec a meta p p' a' :
  histogramPoint a meta p = Some (p', a') →
  let K := point_key meta (hp_attrs p) in
  same_but K a a' ∧ (states_ok (a_next a) → states_ok (a_next a')).
Proof.
  unfold histogramPoint. set (K := point_key meta (hp_attrs p)). destruct (acc_state a K (hp_time p)) as [s e].
  destruct (if a_cumulative a && e then _ else _) as [q|]; [|done]. cbn [mbind option_bind].
  destruct (times _ _ _ _) as [[start at_] s1] eqn:Et. intros [= _ <-].
  apply times_spec in Et as (H1 & H2 & H3 & H4 & H5 & H6 & H7). simpl in *.
  split; [apply store_same|]. intros Hok. apply store_ok; [done|]. split; [cbn; by rewrite H5, H6|cbn; by rewrite H7].
Qed.

Lemma exponentialPoint_spec a meta p p' a' :
  exponentialPoint a meta p = Some (p', a') →
  let K := point_key meta (ep_attrs p) in
  same_but K a a' ∧ (states_ok (a_next a) → states_ok (a_next a')).
Proof.
  unfold exponentialPoint. set (K := point_key meta (ep_attrs p)). destruct (acc_state a K (ep_time p)) as [s e].
  destruct (if a_cumulative a && e then _ else _) as [q|]; [|done]. cbn [mbind option_bind].
  destruct (times _ _ _ _) as [[start at_] s1] eqn:Et. intros [= _ <-].
  apply times_spec in Et as (H1 & H2 & H3 & H4 & H5 & H6 & H7). simpl in *.
  split; [apply store_same|]. intros Hok. apply store_ok; [done|]. split; [cbn; by rewrite H5, H6|cbn; by rewrite H7].
Qed.

Lemma gaugePoint_spec a meta p :
  let K := point_key meta (dp_attrs p) in
  same_but K a (gaugePoint a meta p) ∧ (states_ok (a_next a) → states_ok (a_next (gaugePoint a meta p))).
Proof.
  unfold gaugePoint. set (K := point_key meta (dp_attrs p)). destruct (acc_state a K (dp_time p)) as [s e].
  split; [apply store_same|]. intros Hok. apply store_ok; [done|]. by split.
Qed.

(** ** Points of other series *)
Definition untouched K a a' : Prop :=
  a_exported a' = a_exported a ∧ a_cumulative a' = a_cumulative a ∧ a_next a' !! K = a_next a !! K ∧
  (K ∈ a_seen a' ↔ K ∈ a_seen a) ∧ (states_ok (a_next a) → states_ok (a_next a')).

Lemma untouched_refl K a : untouched K a a.
Proof. by split_and!. Qed.

Lemma untouched_trans K a1 a2 a3 : untouched K a1 a2 → untouched K a2 a3 → untouched K a1 a3.
Proof. unfold untouched. intros (?&?&?&?&?) (?&?&?&?&?). split_and!; try congruence; naive_solver. Qed.

Lemma same_but_untouched K K' a a' :
  K ≠ K' → same_but K' a a' → (states_ok (a_next a) → states_ok (a_next a')) → untouched K a a'.
Proof. intros HK (H1 & H2 & H3) Hok. destruct (H3 K HK). by split_and!. Qed.

Lemma histogram_points_untouched K meta pts a a' pts' :
  histogram_points a meta pts = Some (a', pts') → Forall (λ p, point_key meta (hp_attrs p) ≠ K) pts → untouched K a a'.
Proof.
  intros Hp Hf. revert a a' pts' Hp. induction Hf as [|p pts HK _ IH]; intros a a' pts'; simpl.
  { intros [= <- _]. apply untouched_refl. }
  destruct (histogramPoint a meta p) as [[p' a1]|] eqn:E; [|done]. cbn [mbind option_bind].
  destruct (histogram_points a1 meta pts) as [[a2 rest]|] eqn:E2; [|done]. cbn [mbind option_bind]. intros [= <- _].
  apply histogramPoint_spec in E as [E Eok]. eapply untouched_trans; [|by eapply IH].
  eapply same_but_untouched; [|exact E|exact Eok]. done.
Qed.

Lemma exponential_points_untouched K meta pts a a' pts' :
  exponential_points a meta pts = Some (a', pts') → Forall (λ p, point_key meta (ep_attrs p) ≠ K) pts → untouched K a a'.
Proof.
  intros Hp Hf. revert a a' pts' Hp. induction Hf as [|p pts HK _ IH]; intros a a' pts'; simpl.
  { intros [= <- _]. apply untouched_refl. }
  destruct (exponentialPoint a meta p) as [[p' a1]|] eqn:E; [|done]. cbn [mbind option_bind].
  destruct (exponential_points a1 meta pts) as [[a2 rest]|] eqn:E2; [|done]. cbn [mbind option_bind]. intros [= <- _].
  apply exponentialPoint_spec in E as [E Eok]. eapply untouched_trans; [|by eapply IH].
  eapply same_but_untouched; [|exact E|exact Eok]. done.
Qed.

Lemma gauge_points_untouched K meta pts a :
  Forall (λ p, point_key meta (dp_attrs p) ≠ K) pts → untouched K a (foldl (λ a p, gaugePoint a meta p) a pts).
Proof.
  intros Hf. revert a. induction Hf as [|p pts HK _ IH]; intros a; simpl; [apply untouched_refl|].
  eapply untouched_trans; [|apply IH]. destruct (gaugePoint_spec a meta p) as [E Eok].
  eapply same_but_untouched; [|exact E|exact Eok]. done.
Qed.

(** ** The points of a sum *)
Lemma addSumPoint_other K pts p :
  Equivalent (dp_attrs p) ≠ K.2 → List.filter (is_point K) (addSumPoint false pts p) = List.filter (is_point K) pts.
Proof.
  intros HK. assert (Hp : is_point K p = false) by (unfold is_point; by apply bool_decide_eq_false).
  induction pts as [|q pts IH]; simpl; [by rewrite Hp|].
  case_bool_decide as E; simpl; [|by rewrite IH]. unfold is_point at 1. cbn [dp_attrs].
  rewrite bool_decide_eq_false_2 by done. unfold is_point at 2. by rewrite bool_decide_eq_false_2 by congruence.
Qed.

Lemma addSumPoint_same K pts p :
  Equivalent (dp_attrs p) = K.2 → (length (List.filter (is_point K) pts) ≤ 1)%nat →
  ∃ q, List.filter (is_point K) (addSumPoint false pts p) = [q] ∧ dp_value q = dp_value p ∧ dp_time q = dp_time p.
Proof.
  intros HK. assert (Hp : is_point K p = true) by (unfold is_point; by apply bool_decide_eq_true).
  induction pts as [|q pts IH]; simpl; intros Hl; [rewrite Hp; eauto|].
  assert (Hq : is_point K q = bool_decide (Equivalent (dp_attrs q) = Equivalent (dp_attrs p))).
  { unfold is_point. by rewrite HK. }
  case_bool_decide as E; rewrite Hq in Hl; simpl in *.
  - unfold is_point at 1. cbn [dp_attrs]. rewrite bool_decide_eq_true_2 by done.
    destruct (List.filter (is_point K) pts); [|simpl in Hl; lia]. eexists. split; [done|done].
  - rewrite Hq. by apply IH.
Qed.

Lemma points_update K ms i m m' :
  ms !! i = Some m → points_in K m' = points_in K m → sum_points_of K (<[i := m']> ms) = sum_points_of K ms.
Proof.
  intros Hi Hp. unfold sum_points_of. f_equal. change (points_in K <$> <[i := m']> ms = points_in K <$> ms).
  rewrite list_fmap_insert, Hp. apply list_insert_id. by rewrite list_lookup_fmap, Hi.
Qed.

Lemma points_only K ms i m :
  ms !! i = Some m → (∀ j m', ms !! j = Some m' → j ≠ i → points_in K m' = []) → sum_points_of K ms = points_in K m.
Proof.
  revert i. induction ms as [|m0 ms IH]; intros i Hi Ho; [done|]. unfold sum_points_of. cbn [map concat].
  destruct i as [|i]; simpl in Hi.
  - injection Hi as ->. change (concat (map (points_in K) ms)) with (sum_points_of K ms).
    assert (sum_points_of K ms = []) as ->; [|by rewrite app_nil_r].
    assert (Hn : ∀ j m', ms !! j = Some m' → points_in K m' = []) by (intros j m' Hj; by apply (Ho (S j))).
    clear -Hn. induction ms as [|m1 ms IH]; [done|]. unfold sum_points_of. cbn [map concat]. rewrite (Hn 0%nat m1 eq_refl).
    apply IH. intros j m' Hj. by apply (Hn (S j)).
  - rewrite (Ho 0%nat m0) by done. apply (IH i); [done|]. intros j m' Hj Hne. apply (Ho (S j)); [done|lia].
Qed.

Lemma points_app K ms m : sum_points_of K (ms ++ [m]) = sum_points_of K ms ++ points_in K m.
Proof. unfold sum_points_of. rewrite map_app, concat_app. simpl. by rewrite app_nil_r. Qed.

Lemma points_in_other_name K m : mt_name m ≠ K.1 → points_in K m = [].
Proof. intros Hn. unfold points_in. destruct (mt_data m); try done. by rewrite bool_decide_eq_false_2. Qed.

Lemma points_in_not_sum K m : is_sum m = false → points_in K m = [].
Proof. unfold is_sum, points_in. by destruct (mt_data m). Qed.

(** ** Where the sums are

    Every sum of the merged data has its name's place, and no other does. *)
Definition places (merged : list Metrics) (sums : gmap gostring nat) : Prop :=
  (∀ n i, sums !! n = Some i → ∃ m pts, merged !! i = Some m ∧ mt_name m = n ∧ mt_data m = ASum false true pts) ∧
  (∀ i m, merged !! i = Some m → is_sum m = true → sums !! mt_name m = Some i).

Lemma places_append merged sums m : places merged sums → is_sum m = false → places (merged ++ [m]) sums.
Proof.
  intros [Hs Hu] Hm. split.
  - intros n i Hn. destruct (Hs n i Hn) as (m' & pts & Hl & Hr). exists m', pts. split; [|done]. by apply lookup_app_l_Some.
  - intros i m' [Hl|[Hge Hl]]%lookup_app_Some Hsum; [by apply Hu|]. apply list_lookup_singleton_Some in Hl as [_ <-]. congruence.
Qed.

Lemma places_new merged sums m :
  places merged sums → sums !! mt_name m = None →
  places (merged ++ [with_data m (ASum false true [])]) (<[mt_name m := length merged]> sums).
Proof.
  intros [Hs Hu] Hn. split.
  - intros n i. destruct (decide (n = mt_name m)) as [->|Hne].
    + rewrite lookup_insert_eq. intros [= <-]. eexists _, []. split; [apply list_lookup_middle; done|done].
    + rewrite lookup_insert_ne by done. intros Hl. destruct (Hs n i Hl) as (m' & pts & Hl' & Hr).
      exists m', pts. split; [by apply lookup_app_l_Some|done].
  - intros i m' [Hl|[Hge Hl]]%lookup_app_Some Hsum.
    + pose proof (Hu i m' Hl Hsum). destruct (decide (mt_name m' = mt_name m)) as [E|E]; [congruence|]. by rewrite lookup_insert_ne.
    + apply list_lookup_singleton_Some in Hl as [Hz <-]. cbn [mt_name with_data]. rewrite lookup_insert_eq. f_equal. lia.
Qed.

Lemma places_update merged sums i m pts pts' :
  places merged sums → merged !! i = Some m → mt_data m = ASum false true pts →
  places (<[i := with_data m (ASum false true pts')]> merged) sums.
Proof.
  intros [Hs Hu] Hi Hd. assert (Hlt : (i < length merged)%nat) by (by eapply lookup_lt_Some). split.
  - intros n j Hj. destruct (Hs n j Hj) as (m' & pts0 & Hm & Hmn & Hmd). destruct (decide (i = j)) as [->|Hne].
    + rewrite list_lookup_insert_eq by done. eexists _, pts'. split; [done|]. simpl. split; [congruence|done].
    + rewrite list_lookup_insert_ne by done. eauto.
  - intros j m' Hj Hsum. destruct (decide (i = j)) as [->|Hne].
    + rewrite list_lookup_insert_eq in Hj by done. injection Hj as <-. cbn [with_data mt_name].
      apply Hu; [done|]. unfold is_sum. by rewrite Hd.
    + rewrite list_lookup_insert_ne in Hj by done. by apply Hu.
Qed.

(** The points of a series are those of its name's sum. *)
Lemma places_points K merged sums i m :
  places merged sums → sums !! K.1 = Some i → merged !! i = Some m → sum_points_of K merged = points_in K m.
Proof.
  intros [Hs Hu] Hn Hi. apply (points_only K _ i); [done|]. intros j m' Hj Hne.
  destruct (is_sum m') eqn:Es; [|by apply points_in_not_sum]. apply points_in_other_name. intros E.
  specialize (Hu j m' Hj Es). congruence.
Qed.

(** ** The loop of accumulate *)
Section loop.
Context (E0 : gmap histogramKey seriesState) (K : histogramKey).

(** The total and the last time the exporter committed for the series. *)
Definition base_sum : float64 := match E0 !! K with Some s => st_sum s | None => f_zero end.
Definition base_time : Z := st_lastTime (default zero_state (E0 !! K)).

(** The series after a point of this export: its state and its only point. *)
Definition reported (total : float64) (st : gmap histogramKey seriesState) (out : list Metrics) : Prop :=
  ∃ s pt, st !! K = Some s ∧ st_kind s = Some kindSum ∧ st_sum s = total ∧ sum_points_of K out = [pt] ∧
    dp_value pt = total ∧ dp_time pt = st_lastTime s ∧ (base_time ≠ 0 → base_time + minPointSpacing ≤ st_lastTime s).

(** The series while [vs] are the values observed in this export. *)
Definition series_inv (vs : list float64) (a : accumulation) (out : list Metrics) : Prop :=
  if decide (vs = []) then a_next a !! K = E0 !! K ∧ K ∉ a_seen a ∧ sum_points_of K out = []
  else K ∈ a_seen a ∧ reported (foldl fadd base_sum vs) (a_next a) out.

Record loop_inv (vs : list float64) (l : acc_loop) : Prop := mkLoopInv {
  li_cumulative : a_cumulative (l_acc l) = true;
  li_exported : a_exported (l_acc l) = E0;
  li_ok : states_ok (a_next (l_acc l));
  li_places : places (l_merged l) (l_sums l);
  li_series : series_inv vs (l_acc l) (l_merged l) }.

Lemma li_untouched vs l a' merged' sums' :
  loop_inv vs l → untouched K (l_acc l) a' → sum_points_of K merged' = sum_points_of K (l_merged l) →
  places merged' sums' → loop_inv vs (mkLoop a' merged' sums').
Proof.
  intros [H1 H2 H3 H4 H5] (U1 & U2 & U3 & U4 & U5) Hp Hs. split; cbn [l_acc l_merged l_sums]; try done.
  - congruence.
  - congruence.
  - by apply U5.
  - unfold series_inv, reported in *. case_decide; rewrite ?U3, ?U4, ?Hp; done.
Qed.

(** A metric that is not a sum goes to the end. *)
Lemma li_append vs l m a' :
  loop_inv vs l → untouched K (l_acc l) a' → is_sum m = false → loop_inv vs (mkLoop a' (l_merged l ++ [m]) (l_sums l)).
Proof.
  intros Hi Hu Hm. apply (li_untouched vs l); [done|done| |by apply places_append; [apply Hi|]].
  rewrite points_app, points_in_not_sum by done. apply app_nil_r.
Qed.

(** The first sum of a name gets its place. *)
Lemma li_new_sum vs l m :
  loop_inv vs l → l_sums l !! mt_name m = None →
  loop_inv vs (mkLoop (l_acc l) (l_merged l ++ [with_data m (ASum false true [])]) (<[mt_name m := length (l_merged l)]> (l_sums l))).
Proof.
  intros Hi Hn. apply (li_untouched vs l); [done|apply untouched_refl| |by apply places_new; [apply Hi|]].
  rewrite points_app. unfold points_in at 1. simpl. case_bool_decide; simpl; apply app_nil_r.
Qed.

(** The point of another series in the sum of a name. *)
Lemma li_sum_other vs l i target pts meta p p' a' :
  loop_inv vs l → l_merged l !! i = Some target → mt_name target = sm_name meta →
  mt_data target = ASum false true pts → sumPoint (l_acc l) meta p = (p', a') → point_key meta (dp_attrs p) ≠ K →
  loop_inv vs (mkLoop a' (<[i := with_data target (ASum false true (addSumPoint false pts p'))]> (l_merged l)) (l_sums l)).
Proof.
  intros Hi Ht Hname Hd Hsp HK. destruct (sumPoint_spec _ _ _ _ _ (li_cumulative _ _ Hi) Hsp) as (Hsame & Hok & Ha & _).
  apply (li_untouched vs l); [done|eapply same_but_untouched; [|exact Hsame|exact Hok]; congruence| |].
  - apply (points_update K _ i target); [done|]. unfold points_in, with_data. cbn [mt_data mt_name]. rewrite Hd.
    case_bool_decide as En; [|done]. apply addSumPoint_other. rewrite Ha. intros E. apply HK. unfold point_key.
    rewrite <-Hname, En, E. by destruct K.
  - eapply places_update; [apply Hi|done|done].
Qed.

(** The point of the series itself. *)
Lemma li_sum_same vs l i target pts meta p p' a' :
  loop_inv vs l → l_sums l !! sm_name meta = Some i → l_merged l !! i = Some target → mt_name target = sm_name meta →
  mt_data target = ASum false true pts → sumPoint (l_acc l) meta p = (p', a') → point_key meta (dp_attrs p) = K →
  loop_inv (vs ++ [dp_value p])
    (mkLoop a' (<[i := with_data target (ASum false true (addSumPoint false pts p'))]> (l_merged l)) (l_sums l)).
Proof.
  intros Hi Hn Ht Hname Hd Hsp HK.
  destruct (sumPoint_spec _ _ _ _ _ (li_cumulative _ _ Hi) Hsp) as ((HE & HC & _) & Hok & Ha & s' & S1 & S2 & S3 & S4 & S5 & S6 & S7).
  rewrite HK, (li_exported _ _ Hi) in *. set (target' := with_data target _).
  assert (HKn : K.1 = sm_name meta) by (by rewrite <-HK). assert (HKe : Equivalent (dp_attrs p) = K.2) by (by rewrite <-HK).
  rewrite <-HKn in Hn. pose proof (places_update _ _ i target pts (addSumPoint false pts p') (li_places _ _ Hi) Ht Hd) as Hpl.
  assert (Hlt : (i < length (l_merged l))%nat) by (by eapply lookup_lt_Some).
  pose proof (places_points K _ _ i target (li_places _ _ Hi) Hn Ht) as Hold.
  pose proof (places_points K _ _ i target' Hpl Hn (list_lookup_insert_eq _ _ _ Hlt)) as Hnew.
  unfold points_in in Hold, Hnew. cbn [target' with_data mt_data mt_name] in Hnew. rewrite Hd in Hold.
  rewrite bool_decide_eq_true_2 in Hold, Hnew by congruence. pose proof (li_series _ _ Hi) as Hser. unfold series_inv in Hser.
  destruct (addSumPoint_same K pts p') as (q & Hq & Hqv & Hqt); [by rewrite Ha|..].
  { rewrite <-Hold. case_decide; [destruct Hser as (_ & _ & ->); simpl; lia|].
    destruct Hser as (_ & s & pt & _ & _ & _ & -> & _). simpl. lia. }
  assert (Htot : st_sum s' = foldl fadd base_sum (vs ++ [dp_value p])).
  { rewrite foldl_app. cbn [foldl]. rewrite S4. f_equal. case_decide as Ev.
    - rewrite Ev. destruct Hser as (-> & _ & _). done.
    - destruct Hser as (_ & s & pt & -> & _ & Hss & _). done. }
  split; cbn [l_acc l_merged l_sums]; try done; [by rewrite HC; apply Hi|by apply Hok, Hi|].
  unfold series_inv. rewrite decide_False by (by destruct vs). split; [done|]. exists s', q. rewrite <-Htot.
  split_and!; try done; [by etrans; [exact Hnew|]|congruence|congruence].
Qed.

(** A metric of the converted batch: an observation of the series, or data without it. *)
Definition concerns (m : Metrics) : option float64 :=
  match mt_data m with
  | ASum _ _ [p] => if decide ((mt_name m, Equivalent (dp_attrs p)) = K) then Some (dp_value p) else None
  | _ => None
  end.

(** The shape of converted data: one point per sum, cumulative, and no other kind of
    data for the series. *)
Definition converted (m : Metrics) : Prop :=
  match mt_data m with
  | ASum d mono pts => d = false ∧ mono = true ∧ ∃ p, pts = [p]
  | _ => K ∉ data_keys m
  end.

Lemma accumulate_step_inv vs l m l' :
  loop_inv vs l → converted m → accumulate_step m l = Some l' →
  loop_inv (vs ++ match concerns m with Some v => [v] | None => [] end) l'.
Proof.
  intros Hi Hm. unfold accumulate_step, concerns, converted in *.
  destruct (mt_data m) as [d mono pts|pts|d pts|d pts|] eqn:Ed.
  - destruct Hm as (-> & -> & p & ->).
    assert (Hgo : ∀ l1 i, loop_inv vs l1 → l_acc l1 = l_acc l → l_sums l1 !! mt_name m = Some i →
      (target ← l_merged l1 !! i;
       match mt_data target with
       | ASum delta' mono' pts =>
           let '(a, pts') := sum_points (l_acc l) (metaOf m) delta' [p] pts in
           Some (mkLoop a (<[i := with_data target (ASum delta' mono' pts')]> (l_merged l1)) (l_sums l1))
       | _ => None
       end) = Some l' →
      loop_inv (vs ++ match (if decide ((mt_name m, Equivalent (dp_attrs p)) = K) then Some (dp_value p) else None) with
                      | Some v => [v] | None => [] end) l').
    { intros l1 i H1 Ha Hn. destruct (proj1 (li_places _ _ H1) _ _ Hn) as (target & pts & Ht & Htn & Htd).
      rewrite Ht. cbn [mbind option_bind]. rewrite Htd. simpl. destruct (sumPoint (l_acc l) (metaOf m) p) as [p' a'] eqn:Esp.
      rewrite <-Ha in Esp. intros [= <-]. case_decide as HK.
      - by apply (li_sum_same vs l1 i target pts (metaOf m) p p' a').
      - rewrite app_nil_r. by apply (li_sum_other vs l1 i target pts (metaOf m) p p' a'). }
    destruct (l_sums l !! mt_name m) as [i|] eqn:En.
    + by apply (Hgo l i).
    + apply (Hgo _ (length (l_merged l)) (li_new_sum vs l m Hi En)); [done|]. cbn [l_sums]. by rewrite lookup_insert_eq.
  - intros [= <-]. rewrite app_nil_r. apply li_append; [done| |by unfold is_sum; rewrite Ed].
    apply gauge_points_untouched. apply Forall_forall. intros p Hp E. apply Hm. unfold data_keys. rewrite Ed.
    apply list_elem_of_fmap. exists p. split; [by rewrite <-E|done].
  - destruct (histogram_points _ _ _) as [[a pts']|] eqn:E; [|done]. cbn [mbind option_bind]. intros [= <-]. rewrite app_nil_r.
    apply li_append; [done| |done]. eapply histogram_points_untouched; [exact E|]. apply Forall_forall. intros p Hp E'. apply Hm.
    unfold data_keys. rewrite Ed. apply list_elem_of_fmap. exists p. split; [by rewrite <-E'|done].
  - destruct (exponential_points _ _ _) as [[a pts']|] eqn:E; [|done]. cbn [mbind option_bind]. intros [= <-]. rewrite app_nil_r.
    apply li_append; [done| |done]. eapply exponential_points_untouched; [exact E|]. apply Forall_forall. intros p Hp E'. apply Hm.
    unfold data_keys. rewrite Ed. apply list_elem_of_fmap. exists p. split; [by rewrite <-E'|done].
  - intros [= <-]. rewrite app_nil_r. apply li_append; [done|apply untouched_refl|by unfold is_sum; rewrite Ed].
Qed.

Lemma accumulate_loop_inv vs l ms l' :
  loop_inv vs l → Forall converted ms → accumulate_loop ms l = Some l' → loop_inv (vs ++ omap concerns ms) l'.
Proof.
  intros Hi Hf. revert vs l Hi. induction Hf as [|m ms Hm _ IH]; intros vs l Hi; simpl.
  { intros [= <-]. by rewrite app_nil_r. }
  destruct (accumulate_step m l) as [l1|] eqn:E; [|done]. cbn [mbind option_bind]. intros Hl.
  pose proof (accumulate_step_inv _ _ _ _ Hi Hm E) as H1. specialize (IH _ _ H1 Hl).
  destruct (concerns m); [by rewrite <-app_assoc in IH|by rewrite app_nil_r in IH].
Qed.

End loop.

(** ** Conversion *)
Section conversion.
Context (K : histogramKey).

(** Every observation of the series is a counter's. *)
Definition only_counters (ms : list Metric) : Prop := Forall (λ m, key_of m = K → Type_ m = MetricTypeCounter) ms.

Definition observed (ms : list Metric) : list float64 :=
  omap (λ m, if decide (key_of m = K) then match Type_ m with MetricTypeCounter => Some (Value m) | _ => None end else None) ms.

Definition hist_free (hs : gmap gostring (list HistogramDataPoint)) : Prop :=
  ∀ n pts p, hs !! n = Some pts → p ∈ pts → (n, Equivalent (hp_attrs p)) ≠ K.

Lemma explicit_step_free config g m x x' :
  key_of m ≠ K → hist_free (x_histograms x) → explicit_step config g m x = Some x' → hist_free (x_histograms x').
Proof.
  intros HK Hf. unfold explicit_step. set (bounds := BucketsFor _ _ _). set (old := default [] _).
  assert (Hold : ∀ p, p ∈ old → (Name m, Equivalent (hp_attrs p)) ≠ K).
  { unfold old. destruct (x_histograms x !! Name m) as [pts|] eqn:E; intros p Hp; [by eapply Hf|by apply elem_of_nil in Hp]. }
  destruct (match x_indexes x !! key_of m with Some _ => _ | None => _ end) as [[points indexes] index] eqn:Ei.
  assert (Hpts : ∀ p, p ∈ points → (Name m, Equivalent (hp_attrs p)) ≠ K).
  { intros p Hp. destruct (x_indexes x !! key_of m); injection Ei as <- <- <-; [by apply Hold|].
    apply elem_of_app in Hp as [Hp|Hp]; [by apply Hold|]. apply list_elem_of_singleton in Hp as ->. done. }
  destruct (points !! index) as [p|] eqn:Ep; [|done]. cbn [mbind option_bind].
  destruct (hp_buckets p !! _) as [c|]; [|done]. cbn [mbind option_bind].
  destruct (bucket_offer _ _ _ _ _) as [e|]; [|done]. cbn [mbind option_bind]. intros [= <-]. cbn [x_histograms].
  intros n pts q. destruct (decide (n = Name m)) as [->|Hn]; [|rewrite lookup_insert_ne by done; apply Hf].
  rewrite lookup_insert_eq. intros [= <-] Hq. destruct (elem_of_list_insert _ _ _ _ _ Ep Hq) as [->|Hq']; [|by apply Hpts].
  unfold observe_point. cbn [hp_attrs]. apply Hpts. by eapply list_elem_of_lookup_2.
Qed.

Lemma explicit_loop_free config g ms x x' :
  Forall (λ m, key_of m = K → Type_ m ≠ MetricTypeHistogram ∨ usesExponential config (Name m) = true) ms →
  hist_free (x_histograms x) →
  explicit_loop config g ms x = Some x' → hist_free (x_histograms x').
Proof.
  intros Hc. revert x. induction Hc as [|m ms Hm _ IH]; intros x Hf; simpl; [by intros [= <-]|].
  destruct (negb _ || _) eqn:E; [by apply IH|]. destruct (explicit_step config g m x) as [x1|] eqn:E1; [|done].
  cbn [mbind option_bind]. apply IH. eapply explicit_step_free; [|exact Hf|exact E1].
  apply orb_false_iff in E as [E E']. apply negb_false_iff, bool_decide_eq_true in E. intros HK.
  destruct (Hm HK); congruence.
Qed.

Lemma attach_free b hs idx : hist_free hs → hist_free (attach b hs idx).
Proof.
  intros Hf. unfold attach. apply (map_fold_weak_ind (λ r _, hist_free r)); [done|].
  intros key slots b' hs' _ Hr n pts p. destruct (decide (n = key.1)) as [->|Hn]; [|rewrite lookup_alter_ne by done; apply Hr].
  rewrite lookup_alter_eq. destruct (hs' !! key.1) as [pts'|] eqn:E; [|done]. intros [= <-] Hp.
  apply list_elem_of_lookup in Hp as [i Hi]. rewrite list_lookup_alter in Hi. case_decide.
  - apply fmap_Some in Hi as (q & Eq & ->). cbn [attach_exemplars hp_attrs].
    apply (Hr _ _ q E). by eapply list_elem_of_lookup_2.
  - apply (Hr _ _ p E). by eapply list_elem_of_lookup_2.
Qed.

Definition expo_free (y : expo_state) : Prop :=
  (∀ n keys key, y_names y !! n = Some keys → key ∈ keys → key.1 = n) ∧
  (∀ key (s : expoSeries), y_series y !! key = Some s → key ≠ K ∧ Equivalent (es_attrs s) = key.2).

Lemma exponential_loop_free config settings ms y y' :
  Forall (λ m, key_of m = K → Type_ m = MetricTypeCounter) ms → expo_free y →
  exponential_loop log2 config settings ms y = Some y' → expo_free y'.
Proof.
  intros Hc. revert y. induction Hc as [|m ms Hm _ IH]; intros y [Hn Hs]; simpl; [by intros [= <-]|].
  destruct (negb (bool_decide _) || _) eqn:E; [by apply IH|].
  apply orb_false_iff in E as [E _]. apply negb_false_iff, bool_decide_eq_true in E.
  assert (HK : key_of m ≠ K) by (intros HK; specialize (Hm HK); congruence).
  destruct (match y_series y !! key_of m with Some _ => _ | None => _ end) as [names series] eqn:Ey.
  destruct (series_record log2 series m) as [s'|] eqn:Er; [|done]. cbn [mbind option_bind]. apply IH.
  assert (Ha : Equivalent (es_attrs s') = (key_of m).2).
  { unfold series_record in Er. destruct (record _ _ _); [|done]. cbn [mbind option_bind] in Er.
    destruct (newest_offer _ _); [|done]. cbn [mbind option_bind] in Er. injection Er as <-. cbn [es_attrs].
    destruct (y_series y !! key_of m) as [s0|] eqn:E0; injection Ey as _ <-; [by apply (Hs _ _ E0)|done]. }
  split; cbn [y_names y_series].
  - intros n keys key Hl Hin. destruct (y_series y !! key_of m); injection Ey as <- _; [by eapply Hn|].
    destruct (decide (n = Name m)) as [->|Hne]; [|rewrite lookup_insert_ne in Hl by done; by eapply Hn].
    rewrite lookup_insert_eq in Hl. injection Hl as <-. apply elem_of_app in Hin as [Hin|Hin].
    + destruct (y_names y !! Name m) as [ks|] eqn:Ek; [by eapply Hn|by apply elem_of_nil in Hin].
    + by apply list_elem_of_singleton in Hin as ->.
  - intros key s Hl. destruct (decide (key = key_of m)) as [->|Hne].
    + rewrite lookup_insert_eq in Hl. by injection Hl as <-.
    + rewrite lookup_insert_ne in Hl by done. by apply Hs.
Qed.

Lemma omap_cons_match {A B} (f : A → option B) x l :
  omap f (x :: l) = match f x with Some y => y :: omap f l | None => omap f l end.
Proof. done. Qed.

Lemma convert_loop_spec config hs es ms added :
  o_Temporality config ≠ Delta → only_counters ms → hist_free hs →
  (∀ n pts p, es !! n = Some pts → p ∈ pts → (n, Equivalent (ep_attrs p)) ≠ K) →
  Forall (converted K) (convert_loop config hs es ms added) ∧
  omap (concerns K) (convert_loop config hs es ms added) = observed ms.
Proof.
  intros Ht Hc Hh He. assert (Hd : metricTemporality (o_Temporality config) = false) by (by apply bool_decide_eq_false).
  revert added. induction Hc as [|m ms Hm _ IH]; intros added; [done|]. cbn [convert_loop].
  unfold observed in *. rewrite omap_cons_match. destruct (Type_ m) eqn:Et.
  - destruct (IH added) as [IH1 IH2]. split.
    + constructor; [|done]. unfold converted. simpl. rewrite Hd. eauto.
    + rewrite omap_cons_match, IH2. unfold concerns. simpl. by change (Name m, Equivalent (NewSet (Attributes_ m))) with (key_of m); case_decide.
  - destruct (IH added) as [IH1 IH2]. rewrite decide_False by (intros E; specialize (Hm E); congruence).
    split; [|by rewrite omap_cons_match]. constructor; [|done]. unfold converted, data_keys. simpl.
    intros Hin%list_elem_of_singleton. symmetry in Hin. specialize (Hm Hin). congruence.
  - rewrite decide_False by (intros E; specialize (Hm E); congruence). case_bool_decide; [apply IH|].
    destruct (IH ({[Name m]} ∪ added)) as [IH1 IH2]. destruct (es !! Name m) as [pts|] eqn:Ee.
    + split; [|by rewrite omap_cons_match]. constructor; [|done]. unfold converted, data_keys. simpl.
      intros (p & E & Hp)%list_elem_of_fmap. by apply (He _ _ p Ee Hp).
    + split; [|by rewrite omap_cons_match]. constructor; [|done]. unfold converted, data_keys. simpl.
      intros (p & E & Hp)%list_elem_of_fmap.
      destruct (hs !! Name m) as [pts|] eqn:Eh; [by apply (Hh _ _ p Eh Hp)|by apply elem_of_nil in Hp].
  - rewrite decide_False by (intros E; specialize (Hm E); congruence). apply IH.
Qed.

Lemma conversion_spec config ms bounds rm :
  o_Temporality config ≠ Delta → only_counters ms → toResourceMetricsWithConfig log2 config ms bounds = Some rm →
  Forall (converted K) rm ∧ omap (concerns K) rm = observed ms.
Proof.
  intros Ht Hc. unfold toResourceMetricsWithConfig, explicitHistograms.
  destruct (explicit_loop config bounds ms _) as [x|] eqn:Ex; [|done]. cbn [mbind option_bind].
  destruct (exponentialHistograms log2 config ms) as [es|] eqn:Ee; [|done]. cbn [mbind option_bind]. intros [= <-].
  apply convert_loop_spec; [done|done| |].
  - apply attach_free. eapply explicit_loop_free; [| |exact Ex].
    { eapply Forall_impl; [exact Hc|]. intros m Hm HK. left. specialize (Hm HK). congruence. }
    intros n pts p. cbn [x_histograms]. by rewrite lookup_empty.
  - unfold exponentialHistograms in Ee. destruct (o_ExponentialHistogram config) as [h|]; [|injection Ee as <-; intros n pts p; by rewrite lookup_empty].
    destruct (exponential_loop _ _ _ _ _) as [y|] eqn:Ey; [|done]. cbn [mbind option_bind] in Ee. injection Ee as <-.
    assert (Hy : expo_free y).
    { eapply exponential_loop_free; [done| |exact Ey]. split; [intros n keys key|intros key s]; cbn; by rewrite lookup_empty. }
    destruct Hy as [Hn Hs]. intros n pts p. rewrite lookup_fmap. destruct (y_names y !! n) as [keys|] eqn:En; [|done].
    intros [= <-] Hp. apply list_elem_of_omap in Hp as (key & Hk & Hp). destruct (y_series y !! key) as [s|] eqn:Es; [|done].
    injection Hp as <-. cbn [series_point ep_attrs]. destruct (Hs _ _ Es) as [HK ->]. rewrite <-(Hn _ _ _ En Hk). by destruct key.
Qed.

End conversion.

(** ** Series not observed *)
Lemma append_to_flat {X} (pin : Metrics → list X) ms n kind add ms' ext :
  append_to ms n kind add = Some ms' →
  (∀ m, mt_name m = n → sameKind (mt_data m) kind = true → pin (with_data m (add (mt_data m))) = pin m ++ ext) →
  ∃ l1 l2, concat (map pin ms) = l1 ++ l2 ∧ concat (map pin ms') = l1 ++ ext ++ l2.
Proof.
  revert ms'. induction ms as [|m ms IH]; intros ms'; simpl; [done|]. intros Ha He.
  destruct (bool_decide (mt_name m = n) && sameKind (mt_data m) kind) eqn:E.
  - injection Ha as <-. apply andb_true_iff in E as [E Ek]. apply bool_decide_eq_true in E.
    exists (pin m), (concat (map pin ms)). split; [done|]. cbn [map concat]. rewrite He by done. by rewrite <-app_assoc.
  - destruct (append_to ms n kind add) as [ms1|]; [|done]. injection Ha as <-.
    destruct (IH ms1 eq_refl He) as (l1 & l2 & E1 & E2). exists (pin m ++ l1), l2.
    split; cbn [map concat]; [rewrite E1|rewrite E2]; by rewrite app_assoc.
Qed.

(** What unobserved adds for the state of a series: points of that series alone. *)
Definition unobserved_ext K s (start at_ : Z) : list DataPoint :=
  match st_kind s with
  | Some kindSum => if decide (point_key (st_meta s) (st_attributes s) = K)
                    then [mkPoint (st_attributes s) start at_ (st_sum s) []] else []
  | _ => []
  end.

Lemma unobserved_ext_spec K s start at_ add m :
  unobserved_point s start at_ = Some add → mt_name m = sm_name (st_meta s) →
  (mt_data m = ANone ∨ sameKind (mt_data m) (add ANone) = true) →
  points_in K (with_data m (add (mt_data m))) = points_in K m ++ unobserved_ext K s start at_.
Proof.
  unfold unobserved_point, unobserved_ext. intros Ha Hn Hk.
  destruct (st_kind s) as [[]|]; [|..|done]; injection Ha as <-;
    [|rewrite app_nil_r; unfold points_in; simpl; destruct (mt_data m); destruct Hk; done..].
  set (pt := mkPoint _ _ _ _ _).
  assert (Hpt : List.filter (is_point K) [pt] = if decide (Equivalent (st_attributes s) = K.2) then [pt] else []).
  { simpl. unfold is_point. cbn [pt dp_attrs]. by case_decide; case_bool_decide. }
  assert (Hm : ∀ pts, mt_data m = ANone ∧ pts = [] ∨ (∃ d b, mt_data m = ASum d b pts) →
    points_in K (with_data m (ASum false true (pts ++ [pt]))) =
    points_in K m ++ (if decide (point_key (st_meta s) (st_attributes s) = K) then [pt] else [])).
  { intros pts Hpts. unfold points_in, with_data. cbn [mt_data mt_name]. rewrite List.filter_app, Hpt. unfold point_key. rewrite <-Hn.
    destruct K as [k1 k2]. cbn [fst snd]. case_bool_decide as E1.
    - rewrite E1. destruct (decide (Equivalent (st_attributes s) = k2)) as [E2|E2].
      + rewrite decide_True by congruence. destruct Hpts as [[-> ->]|(d & b & ->)]; [done|]. rewrite ?bool_decide_eq_true_2 by done; by rewrite ?app_nil_r.
      + rewrite decide_False by congruence. destruct Hpts as [[-> ->]|(d & b & ->)]; [done|]. rewrite ?bool_decide_eq_true_2 by done; by rewrite ?app_nil_r.
    - rewrite decide_False by congruence. destruct Hpts as [[-> ->]|(d & b & ->)]; [done|]. by rewrite ?bool_decide_eq_false_2. }
  destruct Hk as [Hk|Hk].
  - rewrite Hk. apply (Hm []). by left.
  - destruct (mt_data m) as [d b pts| | | |] eqn:Ed; try done. apply (Hm pts). right. eauto.
Qed.

Lemma appendUnobserved_points K ms s start at_ add :
  unobserved_point s start at_ = Some add →
  ∃ l1 l2, sum_points_of K ms = l1 ++ l2 ∧
    sum_points_of K (appendUnobserved ms (st_meta s) add) = l1 ++ unobserved_ext K s start at_ ++ l2.
Proof.
  intros Ha. unfold appendUnobserved. destruct (append_to ms _ _ add) as [ms'|] eqn:E.
  - unfold sum_points_of. eapply (append_to_flat (points_in K)); [exact E|]. intros m Hn Hk. apply unobserved_ext_spec; [done|done|by right].
  - exists (sum_points_of K ms), []. rewrite !app_nil_r. split; [done|]. rewrite points_app. f_equal.
    apply (unobserved_ext_spec K s start at_ add (mkMetrics (sm_name (st_meta s)) (sm_description (st_meta s)) (sm_unit (st_meta s)) ANone));
      [done|done|by left].
Qed.

Lemma unobserved_loop_app o1 o2 now a ms :
  unobserved_loop (o1 ++ o2) now a ms = let '(a1, ms1) := unobserved_loop o1 now a ms in unobserved_loop o2 now a1 ms1.
Proof.
  revert a ms. induction o1 as [|k o1 IH]; intros a ms; [done|]. cbn [app unobserved_loop]. case_bool_decide; [apply IH|].
  destruct (a_next a !! k) as [s|]; [|apply IH]. destruct (times a k s now) as [[start at_] s']. apply IH.
Qed.

(** One turn of the loop. *)
Definition unobserved_turn (a : accumulation) (k : histogramKey) s' : accumulation :=
  mkAcc (a_exported a) (<[k := s']> (a_next a)) (a_cumulative a) (a_seen a) (a_expoMaxSize a).

Lemma unobserved_turn_ok a k s now start at_ s' :
  states_ok (a_next a) → a_next a !! k = Some s → times a k s now = (start, at_, s') →
  identified k s' ∧ is_Some (unobserved_point s' start at_) ∧ states_ok (a_next (unobserved_turn a k s')).
Proof.
  intros Hok Hk Ht. apply times_spec in Ht as (_ & _ & _ & _ & H5 & H6 & H7).
  assert (Hid : identified k s') by (destruct (Hok k s Hk); split; [by rewrite H5, H6|by rewrite H7]). split_and!; [done| |].
  - destruct Hid as [_ [kd Ek]]. unfold unobserved_point. rewrite Ek. destruct kd; by eexists.
  - intros k' t. cbn [unobserved_turn a_next]. destruct (decide (k' = k)) as [->|Hn].
    + rewrite lookup_insert_eq. by intros [= <-].
    + rewrite lookup_insert_ne by done. apply Hok.
Qed.

(** The turns of the other series, and of a series that was observed or is unknown. *)
Lemma unobserved_loop_other K order now a ms a' ms' :
  states_ok (a_next a) → (K ∈ a_seen a ∨ K ∉ order ∨ a_next a !! K = None) → unobserved_loop order now a ms = (a', ms') →
  untouched K a a' ∧ sum_points_of K ms' = sum_points_of K ms ∧ (∀ k, is_Some (a_next a !! k) → is_Some (a_next a' !! k)).
Proof.
  revert a ms. induction order as [|k order IH]; intros a ms Hok HK; cbn [unobserved_loop].
  { intros [= <- <-]. split_and!; [apply untouched_refl|done|done]. }
  assert (HK' : K ∈ a_seen a ∨ K ∉ order ∨ a_next a !! K = None) by (destruct HK as [|[|]]; [by left|right; left; set_solver|by right; right]).
  case_bool_decide as Es; [by apply IH|]. destruct (a_next a !! k) as [s|] eqn:Ek; [|by apply IH].
  destruct (times a k s now) as [[start at_] s'] eqn:Et.
  destruct (unobserved_turn_ok _ _ _ _ _ _ _ Hok Ek Et) as (Hid & [add Ha] & Hok'). rewrite Ha. fold (unobserved_turn a k s').
  assert (Hne : K ≠ k) by (intros ->; destruct HK as [|[|]]; [done|set_solver|congruence]).
  assert (HK2 : K ∈ a_seen (unobserved_turn a k s') ∨ K ∉ order ∨ a_next (unobserved_turn a k s') !! K = None).
  { destruct HK' as [|[|]]; [by left|by right; left|right; right]. cbn [unobserved_turn a_next]. by rewrite lookup_insert_ne. }
  intros Hl. destruct (IH _ _ Hok' HK2 Hl) as (U & Hp & Hd). split_and!.
  - eapply untouched_trans; [|exact U]. split_and!; [done|done| |done|done]. cbn [unobserved_turn a_next]. by rewrite lookup_insert_ne.
  - rewrite Hp. destruct (appendUnobserved_points K ms s' start at_ add Ha) as (l1 & l2 & -> & ->).
    assert (unobserved_ext K s' start at_ = []) as ->; [|done]. unfold unobserved_ext. destruct Hid as [Hid _].
    destruct (st_kind s') as [[]|]; try done. by rewrite decide_False by congruence.
  - intros k' Hk'. apply Hd. cbn [unobserved_turn a_next]. destruct (decide (k' = k)) as [->|]; [by rewrite lookup_insert_eq|].
    by rewrite lookup_insert_ne.
Qed.

(** The turn of the series itself, when it was not observed. *)
Lemma unobserved_loop_self K order now a ms a' ms' s :
  states_ok (a_next a) → a_cumulative a = true → K ∉ a_seen a → NoDup order → K ∈ order →
  a_next a !! K = Some s → st_kind s = Some kindSum → sum_points_of K ms = [] →
  unobserved_loop order now a ms = (a', ms') →
  reported (a_exported a) K (st_sum s) (a_next a') ms' ∧ states_ok (a_next a').
Proof.
  intros Hok Hc Hseen Hnd Hin Hs Hkind Hp. apply list_elem_of_split in Hin as (o1 & o2 & ->).
  apply NoDup_app in Hnd as (_ & Hd1 & Hd2). apply NoDup_cons in Hd2 as [Hn2 _].
  assert (Hn1 : K ∉ o1) by (intros Hin; apply (Hd1 K Hin); by left).
  rewrite unobserved_loop_app. destruct (unobserved_loop o1 now a ms) as [a1 ms1] eqn:E1.
  destruct (unobserved_loop_other K o1 now a ms a1 ms1 Hok ltac:(by right; left) E1) as ((U1 & U2 & U3 & U4 & U5) & P1 & _).
  cbn [unobserved_loop]. rewrite bool_decide_eq_false_2 by (by rewrite U4). rewrite U3, Hs.
  destruct (times a1 K s now) as [[start at_] s'] eqn:Et. fold (unobserved_turn a1 K s').
  destruct (unobserved_turn_ok a1 K s now start at_ s' (U5 Hok) ltac:(by rewrite U3) Et) as ([Hid _] & [add Ha] & Hok1).
  rewrite Ha. intros E2.
  destruct (unobserved_loop_other K o2 now (unobserved_turn a1 K s') _ a' ms' Hok1 ltac:(by right; left) E2) as ((V1 & V2 & V3 & V4 & V5) & P2 & _).
  apply times_spec in Et as (T1 & _ & T3 & T4 & _ & _ & T7). rewrite U1, U2, Hc in T3. split; [|by apply V5].
  exists s', (mkPoint (st_attributes s') start at_ (st_sum s') []). cbn [dp_value dp_time]. split_and!.
  - rewrite V3. cbn [unobserved_turn a_next]. apply lookup_insert_eq.
  - congruence.
  - done.
  - rewrite P2. destruct (appendUnobserved_points K ms1 s' start at_ add Ha) as (l1 & l2 & Hl & ->).
    rewrite P1, Hp in Hl. symmetry in Hl. apply app_nil in Hl as [-> ->]. unfold unobserved_ext. rewrite T7, Hkind.
    by rewrite decide_True by done.
  - done.
  - done.
  - intros Hb. rewrite T1. apply T3; done.
Qed.

(** ** One export *)

(** The order of a loop over a map: all its keys, once. *)
Definition enumerates (order : list histogramKey) (st : gmap histogramKey seriesState) : Prop :=
  NoDup order ∧ ∀ k, is_Some (st !! k) → k ∈ order.

Lemma accumulate_series config order E0 K ms bounds rm now out st :
  o_Temporality config ≠ Delta → only_counters K ms → states_ok E0 →
  (∀ s, E0 !! K = Some s → st_kind s = Some kindSum) → enumerates order st →
  toResourceMetricsWithConfig log2 config ms bounds = Some rm → accumulate config order E0 rm now = Some (out, st) →
  states_ok st ∧
  (E0 !! K = None → observed K ms = [] → st !! K = None ∧ sum_points_of K out = []) ∧
  (is_Some (E0 !! K) ∨ observed K ms ≠ [] → reported E0 K (foldl fadd (base_sum E0 K) (observed K ms)) st out).
Proof.
  intros Ht Hc Hok Hkind [Hnd Hdom] Hrm. destruct (conversion_spec K config ms bounds rm Ht Hc Hrm) as [Hconv Hobs].
  unfold accumulate. rewrite bool_decide_eq_false_2 by done. set (acc := mkAcc _ _ _ _ _).
  destruct (accumulate_loop rm (mkLoop acc [] ∅)) as [l|] eqn:El; [|done]. cbn [mbind option_bind].
  assert (Hinit : loop_inv E0 K [] (mkLoop acc [] ∅)).
  { by split. }
  pose proof (accumulate_loop_inv E0 K [] _ rm l Hinit Hconv El) as Hl. rewrite app_nil_l, Hobs in Hl.
  destruct Hl as [L1 L2 L3 _ L5]. unfold unobserved. rewrite L1.
  destruct (unobserved_loop order now (l_acc l) (l_merged l)) as [a' out'] eqn:Eu. intros [= <- <-].
  unfold series_inv in L5. destruct (decide (observed K ms = [])) as [Ev|Ev].
  2: { destruct L5 as [Hs (s & pt & R1 & R2 & R3 & R4 & R5)].
    destruct (unobserved_loop_other K order now _ _ _ _ L3 ltac:(by left) Eu) as ((U1 & U2 & U3 & U4 & U5) & P & _).
    split_and!; [by apply U5|done|]. intros _. exists s, pt. rewrite U3, P. done. }
  destruct L5 as (Hn & Hs & Hp). rewrite Ev. cbn [foldl]. unfold base_sum. destruct (E0 !! K) as [s0|] eqn:E0K.
  - assert (HKo : K ∈ order).
    { destruct (decide (K ∈ order)) as [Hin|Hnin]; [done|].
      destruct (unobserved_loop_other K order now _ _ _ _ L3 ltac:(by right; left) Eu) as ((_ & _ & U3 & _) & _).
      apply Hdom. rewrite U3, Hn. by eexists. }
    destruct (unobserved_loop_self K order now (l_acc l) (l_merged l) a' out' s0 L3 L1 Hs Hnd HKo Hn (Hkind s0 eq_refl) Hp Eu) as [R Hok'].
    rewrite L2 in R. split_and!; [done|done|]. intros _. exact R.
  - destruct (unobserved_loop_other K order now _ _ _ _ L3 ltac:(by right; right) Eu) as ((U1 & U2 & U3 & U4 & U5) & P & _).
    split_and!; [by apply U5|intros _ _; by rewrite U3, Hn, P|]. intros [[s ?]|]; done.
Qed.

(** ** Runs

    The exports of a run: the batch, the time, the order of the loop over the states
    and what the transport answered are free; [outs] are the data sent and [st] the
    state at the end.  An export that sends nothing leaves the state alone. *)
Inductive run (config : OTLPConfig) : list (list Metric) → list (list Metrics) → option (gmap histogramKey seriesState) → Prop :=
| run_start : run config [] [] None
| run_export bs outs st ms order now send out st' err :
    run config bs outs st → export log2 config order now send st ms = Some (Some out, Some st', err) → enumerates order st' →
    run config (bs ++ [ms]) (outs ++ [out]) (Some st')
| run_idle bs outs st ms order now send st' err :
    run config bs outs st → export log2 config order now send st ms = Some (None, st', err) →
    run config (bs ++ [ms]) outs st'.

(** What an export does, when it sends. *)
Lemma export_sends config order now send st ms out st' err :
  export log2 config order now send st ms = Some (Some out, Some st', err) →
  ∃ rm, toResourceMetricsWithConfig log2 config ms (default [] (o_HistogramBuckets config)) = Some rm ∧
    accumulate config order (default ∅ st) rm now = Some (out, st').
Proof.
  unfold export. destruct (o_Enabled config); [|done]. cbn [negb].
  destruct (toResourceMetricsWithConfig _ _ _ _) as [rm|]; [|done]. cbn [mbind option_bind].
  destruct (accumulate _ _ _ _ _) as [[o n]|] eqn:E; [|done]. cbn [mbind option_bind].
  destruct (_ && _); [done|]. intros [= <- <- _]. eauto.
Qed.

Lemma export_idle_spec config order now send st ms st' err :
  export log2 config order now send st ms = Some (None, st', err) → st' = st ∧ (o_Enabled config = true → ms = []).
Proof.
  unfold export. destruct (o_Enabled config); cbn [negb]; [|intros [= <- _]; by split].
  destruct (toResourceMetricsWithConfig _ _ _ _) as [rm|]; [|done]. cbn [mbind option_bind].
  destruct (accumulate _ _ _ _ _) as [[o n]|] eqn:E; [|done]. cbn [mbind option_bind].
  destruct (_ && _) eqn:Eb; [|done]. intros [= <- _]. split; [done|]. intros _. apply andb_true_iff in Eb as [Eb _].
  apply Z.eqb_eq in Eb. unfold len in Eb. destruct ms; [done|simpl in Eb; lia].
Qed.

Definition all_observed K (bs : list (list Metric)) : list float64 := concat (map (observed K) bs).

(** The state of a counter series in a run. *)
Lemma run_series config bs outs st K :
  run config bs outs st → o_Enabled config = true → o_Temporality config ≠ Delta → Forall (only_counters K) bs →
  states_ok (default ∅ st) ∧
  match default ∅ st !! K with
  | None => all_observed K bs = [] ∧ Forall (λ out, sum_points_of K out = []) outs
  | Some s => all_observed K bs ≠ [] ∧ st_kind s = Some kindSum ∧ st_sum s = foldl fadd f_zero (all_observed K bs) ∧
      ∃ outs' out pt, outs = outs' ++ [out] ∧ sum_points_of K out = [pt] ∧ dp_value pt = st_sum s ∧ dp_time pt = st_lastTime s
  end.
Proof.
  intros Hr He Ht. induction Hr as [|bs outs st ms order now send out st' err Hr IH Hx Hen|bs outs st ms order now send st' err Hr IH Hx];
    intros Hc.
  { cbn. split; [intros K' s; by rewrite lookup_empty|]. by rewrite lookup_empty. }
  - apply Forall_app in Hc as [Hc Hm]. rewrite Forall_singleton in Hm. destruct (IH Hc) as [Hok IHs]. clear IH.
    destruct (export_sends _ _ _ _ _ _ _ _ _ Hx) as (rm & Hrm & Hacc). cbn [default].
    unfold all_observed in *. rewrite map_app, concat_app. cbn [map concat]. rewrite app_nil_r.
    destruct (accumulate_series config order (default ∅ st) K ms (default [] (o_HistogramBuckets config)) rm now out st' Ht Hm Hok) as (Hok' & Hnone & Hsome); [|done|done|done|].
    { intros s Hs. rewrite Hs in IHs. apply IHs. }
    split; [done|]. change (id st') with st'. destruct (decide (default ∅ st !! K = None ∧ observed K ms = [])) as [[E1 E2]|En].
    + destruct (Hnone E1 E2) as [Hs Hp]. change (default ∅ (Some st') !! K) with (st' !! K). rewrite Hs, E2, app_nil_r.
      rewrite E1 in IHs. destruct IHs as [Ho Hf]. split; [done|]. apply Forall_app. split; [done|]. by apply Forall_singleton.
    + assert (Hor : is_Some (default ∅ st !! K) ∨ observed K ms ≠ []).
      { destruct (default ∅ st !! K); [left; by eexists|right; naive_solver]. }
      destruct (Hsome Hor) as (s & pt & R1 & R2 & R3 & R4 & R5 & R6 & _).
      change (default ∅ (Some st') !! K) with (st' !! K). rewrite R1. unfold base_sum in *.
      assert (Htot : st_sum s = foldl fadd f_zero (concat (map (observed K) bs) ++ observed K ms)).
      { rewrite R3, foldl_app. f_equal. destruct (default ∅ st !! K) as [s0|]; [by destruct IHs as (_ & _ & -> & _)|].
        by destruct IHs as [-> _]. }
      split_and!; [|done|done|exists outs, out, pt; split_and!; try done; congruence].
      destruct (default ∅ st !! K) as [s0|]; [destruct IHs as [Hn _]; intros [E _]%app_nil; done|].
      destruct Hor as [[? ?]|Hor]; [done|]. by intros [_ E]%app_nil.
  - apply Forall_app in Hc as [Hc Hm]. destruct (IH Hc) as [Hok IHs]. destruct (export_idle_spec _ _ _ _ _ _ _ _ Hx) as [-> Hms].
    split; [done|]. unfold all_observed in *. rewrite map_app, concat_app. cbn [map concat]. rewrite (Hms He).
    change (observed K []) with (@nil float64). by rewrite !app_nil_r.
Qed.

(** Two exports, one after the other. *)
Lemma run_spacing config bs outs st K :
  run config bs outs st → o_Enabled config = true → o_Temporality config ≠ Delta → Forall (only_counters K) bs →
  ∀ outs' out1 out2 p1 p2, outs = outs' ++ [out1; out2] → sum_points_of K out1 = [p1] → sum_points_of K out2 = [p2] →
    dp_time p1 ≠ 0 → dp_time p1 + Millisecond ≤ dp_time p2.
Proof.
  intros Hr He Ht Hc outs' out1 out2 p1 p2. revert Hc.
  induction Hr as [|bs outs st ms order now send out st' err Hr IH Hx Hen|bs outs st ms order now send st' err Hr IH Hx]; intros Hc Ho H1 H2 Hz.
  - by destruct outs'.
  - apply Forall_app in Hc as [Hc Hm]. rewrite Forall_singleton in Hm.
    change (outs' ++ [out1; out2]) with (outs' ++ [out1] ++ [out2]) in Ho. rewrite app_assoc in Ho. apply app_inj_tail in Ho as [-> ->].
    destruct (run_series config bs _ st K Hr He Ht Hc) as [Hok Hs]. destruct (export_sends _ _ _ _ _ _ _ _ _ Hx) as (rm & Hrm & Hacc).
    destruct (default ∅ st !! K) as [s|] eqn:Es.
    2: { destruct Hs as [_ Hf]. apply Forall_app in Hf as [_ Hf]. rewrite Forall_singleton in Hf. congruence. }
    destruct Hs as (_ & Hkind & _ & o' & o & pt & E & Hp & _ & Htime). apply app_inj_tail in E as [_ <-].
    destruct (accumulate_series config order (default ∅ st) K ms (default [] (o_HistogramBuckets config)) rm now out2 st' Ht Hm Hok)
      as (_ & _ & Hrep); [by intros s0 [= <-]%(eq_trans (eq_sym Es))|done|done|done|].
    destruct (Hrep ltac:(left; by eexists)) as (s' & pt' & R1 & R2 & R3 & R4 & R5 & R6 & R7).
    unfold base_time, minPointSpacing in R7. rewrite Es in R7. change (default zero_state (Some s)) with s in R7.
    assert (p1 = pt) as -> by congruence. assert (p2 = pt') as -> by congruence. rewrite Htime, R6 in *. by apply R7.
  - apply Forall_app in Hc as [Hc _]. by apply IH.
Qed.

(** C21. Cumulative counters are exact.  In every run of exports of an enabled exporter
    with cumulative temporality (any batches, with data of any other series, any times,
    any order of the loop over the states, any outcome of the sends), a series observed
    as a counter has, in the data of the last export, exactly one point, whose value is
    the total of all its observations so far in order, also those whose send failed and
    also when the last batch does not mention it; a series not observed has none; and two
    consecutive points of it are at least a millisecond apart. *)
Theorem otlp_counter_totals config bs outs st K :
  run config bs outs st → o_Enabled config = true → o_Temporality config ≠ Delta → Forall (only_counters K) bs →
  (all_observed K bs ≠ [] → ∃ outs' out pt, outs = outs' ++ [out] ∧ sum_points_of K out = [pt] ∧
     dp_value pt = foldl fadd f_zero (all_observed K bs)) ∧
  (all_observed K bs = [] → Forall (λ out, sum_points_of K out = []) outs) ∧
  (∀ outs' out1 out2 p1 p2, outs = outs' ++ [out1; out2] → sum_points_of K out1 = [p1] → sum_points_of K out2 = [p2] →
     dp_time p1 ≠ 0 → dp_time p1 + Millisecond ≤ dp_time p2).
Proof.
  intros Hr He Ht Hc. destruct (run_series config bs outs st K Hr He Ht Hc) as [_ Hs].
  split_and!; [| |by apply (run_spacing config bs outs st K)].
  - intros Hne. destruct (default ∅ st !! K) as [s|]; [|by destruct Hs].
    destruct Hs as (_ & _ & Hsum & outs' & out & pt & -> & Hp & Hv & _). exists outs', out, pt. split_and!; [done|done|congruence].
  - intros Hnil. destruct (default ∅ st !! K) as [s|]; [by destruct Hs as [Hn _]|by destruct Hs].
Qed.

(** ** Executable runs *)
Definition enumeratesb (order : list histogramKey) (st : gmap histogramKey seriesState) : bool :=
  bool_decide (NoDup order) && forallb (λ p, bool_decide (p.1 ∈ order)) (map_to_list st).

Lemma enumeratesb_sound order st : enumeratesb order st = true → enumerates order st.
Proof.
  unfold enumeratesb. intros [Hn Hf]%andb_true_iff. apply bool_decide_eq_true in Hn. split; [done|]. intros k [s Hs].
  rewrite forallb_forall in Hf. specialize (Hf (k, s)). rewrite <-list_elem_of_In in Hf.
  apply elem_of_map_to_list in Hs. specialize (Hf Hs). by apply bool_decide_eq_true in Hf.
Qed.

(** The data and the state after a list of batches; every loop over the states takes the order given. *)
Fixpoint run_exec (config : OTLPConfig) (steps : list (list Metric * list histogramKey * Z * option error)) :
    option (list (list Metrics) * option (gmap histogramKey seriesState)) :=
  match steps with
  | [] => Some ([], None)
  | (ms, order, now, send) :: earlier =>
      '(outs, st) ← run_exec config earlier;
      '(out, st', _) ← export log2 config order now send st ms;
      match out, st' with
      | Some o, Some t => if enumeratesb order t then Some (outs ++ [o], st') else None
      | None, _ => Some (outs, st')
      | _, _ => None
      end
  end.

Lemma run_exec_sound config steps outs st :
  run_exec config steps = Some (outs, st) → run config (rev (map (λ x, x.1.1.1) steps)) outs st.
Proof.
  revert outs st. induction steps as [|[[[ms order] now] send] steps IH]; intros outs st; cbn [run_exec map rev fst].
  { intros [= <- <-]. constructor. }
  destruct (run_exec config steps) as [[o1 s1]|]; [|done]. cbn [mbind option_bind].
  destruct (export log2 config order now send s1 ms) as [[[out st'] err]|] eqn:E; [|done]. cbn [mbind option_bind].
  destruct out as [o|].
  - destruct st' as [t|]; [|done]. destruct (enumeratesb order t) eqn:En; [|done]. intros [= <- <-].
    eapply run_export; [by apply IH|exact E|by apply enumeratesb_sound].
  - intros [= <- <-]. eapply run_idle; [by apply IH|exact E].
Qed.

End counters.

(** ** Concrete runs *)
Definition otlp_config (temporality : gostring) : @OTLPConfig toy_attributes :=
  mkOTLP true [] true ∅ [] [] [] [] [] temporality [] [] 0 None ∅ None None None [] [] [] false None None.

Definition otlp_obs (name : string) (t : MetricType) (v ts : Z) : @Metric toy_attributes :=
  mkMetric (str name) t (f_of_Z v) [] ts 1 0 0 [] [].

Definition req_key : gostring * @Distinct toy_attributes := (str "req", []).

(** Two counter observations whose send fails, then a batch without the counter, then
    an idle export. *)
Definition otlp_steps : list (list (@Metric toy_attributes) * list (gostring * @Distinct toy_attributes) * Z * option error) :=
  [([], [(str "req", []); (str "load", [])], 3000000, None);
   ([otlp_obs "load" MetricTypeGauge 9 2000000], [(str "load", []); (str "req", [])], 2000000, None);
   ([otlp_obs "req" MetricTypeCounter 3 1000000; otlp_obs "req" MetricTypeCounter 4 1500000], [(str "req", [])], 1500000,
    Some ErrDeadlineExceeded)].

Lemma otlp_steps_run : bool_decide (is_Some (run_exec chord_log2 (otlp_config []) otlp_steps)) = true.
Proof. vm_compute. reflexivity. Qed.

Lemma otlp_counter_totals_witness :
  ∃ outs' out pt, fst <$> run_exec chord_log2 (otlp_config []) otlp_steps = Some (outs' ++ [out]) ∧
    sum_points_of req_key out = [pt] ∧ dp_value pt = f_of_Z 7.
Proof.
  pose proof otlp_steps_run as Hrun. destruct (run_exec chord_log2 (otlp_config []) otlp_steps) as [[outs st]|] eqn:E; [|discriminate Hrun].
  pose proof (run_exec_sound chord_log2 (otlp_config []) otlp_steps outs st E) as Hr.
  destruct (otlp_counter_totals chord_log2 (otlp_config []) _ outs st req_key Hr eq_refl ltac:(done)) as (Hv & _).
  { cbn [rev map app otlp_steps fst]. unfold only_counters.
    repeat (apply Forall_cons_2 || apply Forall_nil_2); intros Hk; first [reflexivity|discriminate (f_equal fst Hk)]. }
  destruct Hv as (outs' & out & pt & -> & Hp & Hval).
  { vm_compute. discriminate. }
  exists outs', out, pt. split; [reflexivity|]. split; [exact Hp|]. rewrite Hval. vm_compute. reflexivity.
Defined.
