(* ===== verification/OtlpExpo.v ===== *)
(** * The OTLP exporter: cumulative exponential histograms

    Every export of a run carries, for every histogram series observed so far that is
    exported as an exponential histogram, exactly one point, and the point is that of one
    histogram which recorded all the observations of all the exports. *)

From S2P Require Import Prelude GoLib Strconv Attribute Metric DogStatsDParse Cardinality Config Expo ExpoSpec ExpoCorrect Otlp OtlpCorrect.
Local Open Scope go_scope.

#[local] Instance seriesKind_eq_dec : EqDecision seriesKind.
Proof. solve_decision. Defined.

Section exponential.
Context `{Attributes}.
Context (log2 : float64 → float64) (Hlog : log2_ok log2).

Implicit Types (K : histogramKey) (a : accumulation) (s : seriesState).

(** ** Points *)

(** The point holds the histogram of the observations [vs], up to the rounding of its sum. *)
Definition point_for (M S : Z) (vs : list float64) (p : ExponentialDataPoint) : Prop :=
  ∃ h, histogram_for log2 M S vs h ∧ ep_point p = snapshot h.

Lemma from_point_size dp M : expoHistogramFromPoint dp (start_size M) = expoHistogramFromPoint dp M.
Proof.
  unfold expoHistogramFromPoint, newExpoHistogram. fold (start_size M). fold (start_size (start_size M)).
  by replace (start_size (start_size M)) with (start_size M) by (unfold start_size; lia).
Qed.

Lemma from_point_for M S vs p h :
  histogram_for log2 M S vs h → ep_point p = snapshot h → Forall (λ v, valid v = true) vs →
  expoHistogramFromPoint (ep_point p) M = Some h.
Proof using Hlog.
  intros Hf -> Hv. pose proof (point_roundtrip log2 Hlog M S vs h Hf Hv) as Hr. destruct Hf as (W & Hs & _).
  by rewrite (sp_size _ _ _ _ Hs), from_point_size in Hr.
Qed.

(** addExponential of two such points. *)
Lemma addExponential_for M S xs ys p prev :
  point_for M S ys p → point_for M S xs prev → Forall (λ v, valid v = true) xs → Forall (λ v, valid v = true) ys →
  len xs + len ys < 2 ^ 64 →
  ∃ q, addExponential p prev M = Some q ∧ point_for M S (xs ++ ys) q ∧ ep_attrs q = ep_attrs p ∧ ep_exemplars q = ep_exemplars p.
Proof using Hlog.
  intros (hy & Hy & Ey) (hx & Hx & Ex) Vx Vy Hl. unfold addExponential.
  rewrite (from_point_for M S xs prev hx Hx Ex Vx), (from_point_for M S ys p hy Hy Ey Vy). cbn [mbind option_bind].
  destruct (merge_is_histogram log2 Hlog M S xs hx ys hy Hx Hy Vx Vy Hl) as (h & -> & Hh). cbn [mbind option_bind].
  eexists. split; [done|]. split; [by exists h|done].
Qed.

(** The points of a series in the data of an export. *)
Definition is_expo K (p : ExponentialDataPoint) : bool := bool_decide (Equivalent (ep_attrs p) = K.2).

Definition expo_in K (m : Metrics) : list ExponentialDataPoint :=
  match mt_data m with
  | AExponential _ pts => if bool_decide (mt_name m = K.1) then List.filter (is_expo K) pts else []
  | _ => []
  end.

Definition expo_points_of K (out : list Metrics) : list ExponentialDataPoint := concat (map (expo_in K) out).

Lemma expo_points_app K ms ms' : expo_points_of K (ms ++ ms') = expo_points_of K ms ++ expo_points_of K ms'.
Proof. unfold expo_points_of. by rewrite map_app, concat_app. Qed.

Lemma expo_points_snoc K ms m : expo_points_of K (ms ++ [m]) = expo_points_of K ms ++ expo_in K m.
Proof. rewrite expo_points_app. unfold expo_points_of at 2. simpl. by rewrite app_nil_r. Qed.

Lemma expo_points_update K ms i m m' :
  ms !! i = Some m → expo_in K m' = expo_in K m → expo_points_of K (<[i := m']> ms) = expo_points_of K ms.
Proof.
  intros Hi Hp. unfold expo_points_of. f_equal. change (expo_in K <$> <[i := m']> ms = expo_in K <$> ms).
  rewrite list_fmap_insert, Hp. apply list_insert_id. by rewrite list_lookup_fmap, Hi.
Qed.

(** ** What an export leaves alone *)

(** The point kept for an exponential series has the attributes of the series. *)
Definition attrs_ok (st : gmap histogramKey seriesState) : Prop :=
  ∀ K s, st !! K = Some s → st_kind s = Some kindExponential → Equivalent (ep_attrs (st_exponential s)) = K.2.

Definition quiet K a a' : Prop :=
  untouched K a a' ∧ a_expoMaxSize a' = a_expoMaxSize a ∧ (attrs_ok (a_next a) → attrs_ok (a_next a')).

Lemma quiet_refl K a : quiet K a a.
Proof. split; [apply untouched_refl|done]. Qed.

Lemma quiet_trans K a1 a2 a3 : quiet K a1 a2 → quiet K a2 a3 → quiet K a1 a3.
Proof.
  intros (U & M & A) (U' & M' & A'). split_and!; [by eapply untouched_trans|congruence|auto].
Qed.

Lemma attrs_store a K s :
  attrs_ok (a_next a) → (st_kind s = Some kindExponential → Equivalent (ep_attrs (st_exponential s)) = K.2) →
  attrs_ok (a_next (store a K s)).
Proof.
  intros Ha Hs K' s'. cbn [store a_next]. destruct (decide (K' = K)) as [->|HK].
  - rewrite lookup_insert_eq. by intros [= <-].
  - rewrite lookup_insert_ne by done. apply Ha.
Qed.

Lemma times_fields a K s t start at_ s' :
  times a K s t = (start, at_, s') →
  st_exponential s' = st_exponential s ∧ st_kind s' = st_kind s ∧ st_histogram s' = st_histogram s.
Proof. unfold times, pointTime. by intros [= _ _ <-]. Qed.

Lemma sumPoint_quiet K a meta p p' a' :
  a_cumulative a = true → sumPoint a meta p = (p', a') → point_key meta (dp_attrs p) ≠ K → quiet K a a'.
Proof.
  intros Hc Hp HK. split_and!.
  - destruct (sumPoint_spec _ _ _ _ _ Hc Hp) as (Hs & Hok & _). by eapply same_but_untouched; [|exact Hs|exact Hok].
  - unfold sumPoint in Hp. destruct (acc_state _ _ _) as [s e]. destruct (times _ _ _ _) as [[x y] z]. by injection Hp as <- <-.
  - unfold sumPoint in Hp. destruct (acc_state _ _ _) as [s e]. destruct (times _ _ _ _) as [[x y] z] eqn:Et.
    apply times_fields in Et as (_ & Ek & _). rewrite Hc in Hp. injection Hp as <- <-. intros Ha.
    apply attrs_store; [done|]. rewrite Ek. done.
Qed.

Lemma histogramPoint_quiet K a meta p p' a' :
  histogramPoint a meta p = Some (p', a') → point_key meta (hp_attrs p) ≠ K → quiet K a a'.
Proof.
  intros Hp HK. pose proof (histogramPoint_spec _ _ _ _ _ Hp) as [Hs Hok].
  split; [by eapply same_but_untouched; [|exact Hs|exact Hok]|]. unfold histogramPoint in Hp.
  destruct (acc_state _ _ _) as [s e]. destruct (if a_cumulative a && e then _ else _) as [q|]; [|done].
  cbn [mbind option_bind] in Hp. destruct (times _ _ _ _) as [[x y] z] eqn:Et. injection Hp as <- <-.
  apply times_fields in Et as (_ & Ek & _). split; [done|]. intros Ha. apply attrs_store; [done|]. simpl. rewrite Ek. by intros [=].
Qed.

Lemma gaugePoint_quiet K a meta p : point_key meta (dp_attrs p) ≠ K → quiet K a (gaugePoint a meta p).
Proof.
  intros HK. destruct (gaugePoint_spec a meta p) as [Hs Hok].
  split; [by eapply same_but_untouched; [|exact Hs|exact Hok]|]. unfold gaugePoint.
  destruct (acc_state _ _ _) as [s e]. split; [done|]. intros Ha. by apply attrs_store.
Qed.

Lemma addExponential_attrs p q size r : addExponential p q size = Some r → ep_attrs r = ep_attrs p.
Proof.
  unfold addExponential. intros (hp & _ & (hn & _ & (h & _ & [= <-])%bind_Some)%bind_Some)%bind_Some. done.
Qed.

(** A point of any series keeps its attributes. *)
Lemma exponentialPoint_attrs a meta p p' a' :
  a_cumulative a = true → exponentialPoint a meta p = Some (p', a') →
  ep_attrs p' = ep_attrs p ∧ a_cumulative a' = true ∧ a_expoMaxSize a' = a_expoMaxSize a ∧
  (attrs_ok (a_next a) → attrs_ok (a_next a')).
Proof.
  intros Hc. unfold exponentialPoint. destruct (acc_state _ _ _) as [s e]. rewrite Hc.
  destruct (if true && e then _ else _) as [q|] eqn:Eq; [|done]. cbn [mbind option_bind].
  destruct (times _ _ _ _) as [[x y] z] eqn:Et. intros [= <- <-].
  assert (Ha : ep_attrs q = ep_attrs p).
  { destruct e; simpl in Eq; [by eapply addExponential_attrs|by injection Eq as <-]. }
  split_and!; [done|done|done|]. intros Hok. apply attrs_store; [done|]. intros _. simpl. by rewrite Ha.
Qed.

Lemma exponentialPoint_quiet K a meta p p' a' :
  a_cumulative a = true → exponentialPoint a meta p = Some (p', a') → point_key meta (ep_attrs p) ≠ K → quiet K a a'.
Proof.
  intros Hc Hp HK. destruct (exponentialPoint_spec _ _ _ _ _ Hp) as [Hs Hok].
  destruct (exponentialPoint_attrs _ _ _ _ _ Hc Hp) as (_ & _ & HM & HA).
  split; [by eapply same_but_untouched; [|exact Hs|exact Hok]|done].
Qed.

Lemma quiet_cumulative K a a' : quiet K a a' → a_cumulative a = true → a_cumulative a' = true.
Proof. intros ((_ & -> & _) & _). done. Qed.

Lemma sum_points_quiet K meta d obs a pts a' pts' :
  a_cumulative a = true → sum_points a meta d obs pts = (a', pts') →
  Forall (λ p, point_key meta (dp_attrs p) ≠ K) obs → quiet K a a'.
Proof.
  intros Hc Hp Hf. revert a pts Hc Hp. induction Hf as [|p obs HK _ IH]; intros a pts Hc; simpl.
  { intros [= <- _]. apply quiet_refl. }
  destruct (sumPoint a meta p) as [p' a1] eqn:E. intros Hp.
  pose proof (sumPoint_quiet K _ _ _ _ _ Hc E HK) as Q. eapply quiet_trans; [exact Q|].
  eapply IH; [by eapply quiet_cumulative|exact Hp].
Qed.

Lemma histogram_points_quiet K meta pts a a' pts' :
  histogram_points a meta pts = Some (a', pts') → Forall (λ p, point_key meta (hp_attrs p) ≠ K) pts → quiet K a a'.
Proof.
  intros Hp Hf. revert a a' pts' Hp. induction Hf as [|p pts HK _ IH]; intros a a' pts'; simpl.
  { intros [= <- _]. apply quiet_refl. }
  destruct (histogramPoint a meta p) as [[p' a1]|] eqn:E; [|done]. cbn [mbind option_bind].
  destruct (histogram_points a1 meta pts) as [[a2 rest]|] eqn:E2; [|done]. cbn [mbind option_bind]. intros [= <- _].
  eapply quiet_trans; [by eapply histogramPoint_quiet|by eapply IH].
Qed.

(** The points of other series, which keep their attributes. *)
Lemma exponential_points_quiet K meta pts a a' pts' :
  a_cumulative a = true → exponential_points a meta pts = Some (a', pts') →
  Forall (λ p, point_key meta (ep_attrs p) ≠ K) pts → quiet K a a' ∧ ep_attrs <$> pts' = ep_attrs <$> pts.
Proof.
  intros Hc Hp Hf. revert a a' pts' Hc Hp. induction Hf as [|p pts HK _ IH]; intros a a' pts' Hc; simpl.
  { intros [= <- <-]. split; [apply quiet_refl|done]. }
  destruct (exponentialPoint a meta p) as [[p' a1]|] eqn:E; [|done]. cbn [mbind option_bind].
  destruct (exponential_points a1 meta pts) as [[a2 rest]|] eqn:E2; [|done]. cbn [mbind option_bind]. intros [= <- <-].
  pose proof (exponentialPoint_quiet K _ _ _ _ _ Hc E HK) as Q.
  destruct (IH a1 a2 rest (quiet_cumulative _ _ _ Q Hc) E2) as [Q2 E3].
  split; [by eapply quiet_trans|]. csimpl. rewrite E3. f_equal. by destruct (exponentialPoint_attrs _ _ _ _ _ Hc E).
Qed.

Lemma gauge_points_quiet K meta pts a :
  Forall (λ p, point_key meta (dp_attrs p) ≠ K) pts → quiet K a (foldl (λ a p, gaugePoint a meta p) a pts).
Proof.
  intros Hf. revert a. induction Hf as [|p pts HK _ IH]; intros a; simpl; [apply quiet_refl|].
  eapply quiet_trans; [|apply IH]. by apply gaugePoint_quiet.
Qed.

Lemma not_in_keys {X} K (meta : seriesMeta) (attrs : X → list KeyValue) (pts : list X) :
  K ∉ ((λ p, (sm_name meta, Equivalent (attrs p))) <$> pts) → Forall (λ p, point_key meta (attrs p) ≠ K) pts.
Proof.
  intros Hn. apply Forall_forall. intros p Hp E. apply Hn, list_elem_of_fmap. exists p. split; [by rewrite <-E|done].
Qed.

Lemma filter_expo_none K pts :
  Forall (λ p, Equivalent (ep_attrs p) ≠ K.2) pts → List.filter (is_expo K) pts = [].
Proof.
  induction 1 as [|p pts Hp _ IH]; [done|]. simpl. unfold is_expo at 1. by rewrite bool_decide_eq_false_2.
Qed.

Lemma filter_attrs K pts pts' :
  ep_attrs <$> pts' = ep_attrs <$> pts → Forall (λ p, Equivalent (ep_attrs p) ≠ K.2) pts →
  Forall (λ p, Equivalent (ep_attrs p) ≠ K.2) pts'.
Proof.
  revert pts'. induction pts as [|p pts IH]; intros [|p' pts']; csimpl; try done. intros [= E1 E2] Hf.
  apply Forall_cons in Hf as [Hp Hf]. constructor; [by rewrite E1|by apply IH].
Qed.

(** A metric without the series: what it does to the data and the states. *)
Lemma accumulate_step_free K m l l' :
  a_cumulative (l_acc l) = true → K ∉ data_keys m → accumulate_step m l = Some l' →
  quiet K (l_acc l) (l_acc l') ∧ expo_points_of K (l_merged l') = expo_points_of K (l_merged l).
Proof.
  intros Hc Hm. unfold accumulate_step, data_keys in *.
  destruct (mt_data m) as [d mono pts|pts|d pts|d pts|] eqn:Ed.
  - assert (Hf : Forall (λ p, point_key (metaOf m) (dp_attrs p) ≠ K) pts) by (by apply not_in_keys).
    assert (Hgo : ∀ merged sums i, expo_points_of K merged = expo_points_of K (l_merged l) →
      (target ← merged !! i;
       match mt_data target with
       | ASum delta' mono' pts0 =>
           let '(a, pts') := sum_points (l_acc l) (metaOf m) delta' pts pts0 in
           Some (mkLoop a (<[i := with_data target (ASum delta' mono' pts')]> merged) sums)
       | _ => None
       end) = Some l' →
      quiet K (l_acc l) (l_acc l') ∧ expo_points_of K (l_merged l') = expo_points_of K (l_merged l)).
    { intros merged sums i Hmer. destruct (merged !! i) as [target|] eqn:Et; [|done]. cbn [mbind option_bind].
      destruct (mt_data target) as [d' mono' pts0| | | |] eqn:Etd; try done.
      destruct (sum_points _ _ _ _ _) as [a' pts'] eqn:Es. intros [= <-]. cbn [l_acc l_merged].
      split; [by eapply sum_points_quiet|]. rewrite <-Hmer. apply (expo_points_update K _ i target); [done|].
      unfold expo_in. by rewrite Etd. }
    destruct (l_sums l !! mt_name m) as [i|].
    + by apply Hgo.
    + apply Hgo. rewrite expo_points_snoc. apply app_nil_r.
  - intros [= <-]. cbn [l_acc l_merged]. split; [by apply gauge_points_quiet, not_in_keys|].
    rewrite expo_points_snoc. unfold expo_in at 1. rewrite Ed. apply app_nil_r.
  - destruct (histogram_points _ _ _) as [[a pts']|] eqn:E; [|done]. cbn [mbind option_bind]. intros [= <-]. cbn [l_acc l_merged].
    split; [by eapply histogram_points_quiet; [exact E|apply not_in_keys]|]. rewrite expo_points_snoc. apply app_nil_r.
  - destruct (exponential_points _ _ _) as [[a pts']|] eqn:E; [|done]. cbn [mbind option_bind]. intros [= <-]. cbn [l_acc l_merged].
    pose proof (not_in_keys K (metaOf m) ep_attrs pts Hm) as Hf.
    destruct (exponential_points_quiet K _ _ _ _ _ Hc E Hf) as [Q Ea]. split; [done|].
    rewrite expo_points_snoc. unfold expo_in at 1. cbn [with_data mt_data mt_name]. case_bool_decide as En; [|apply app_nil_r].
    rewrite filter_expo_none; [apply app_nil_r|]. eapply filter_attrs; [exact Ea|]. eapply Forall_impl; [exact Hf|].
    intros p Hp E'. apply Hp. unfold point_key. cbn [metaOf sm_name]. rewrite En, E'. by destruct K.
  - intros [= <-]. cbn [l_acc l_merged]. split; [apply quiet_refl|]. rewrite expo_points_snoc. unfold expo_in at 1. rewrite Ed. apply app_nil_r.
Qed.

Lemma accumulate_loop_free K ms l l' :
  a_cumulative (l_acc l) = true → Forall (λ m, K ∉ data_keys m) ms → accumulate_loop ms l = Some l' →
  quiet K (l_acc l) (l_acc l') ∧ expo_points_of K (l_merged l') = expo_points_of K (l_merged l).
Proof.
  intros Hc Hf. revert l Hc. induction Hf as [|m ms Hm _ IH]; intros l Hc; simpl.
  { intros [= <-]. split; [apply quiet_refl|done]. }
  destruct (accumulate_step m l) as [l1|] eqn:E; [|done]. cbn [mbind option_bind]. intros Hl.
  destruct (accumulate_step_free K m l l1 Hc Hm E) as [Q1 P1].
  destruct (IH l1 (quiet_cumulative _ _ _ Q1 Hc) Hl) as [Q2 P2]. split; [by eapply quiet_trans|congruence].
Qed.

Lemma accumulate_loop_app ms1 ms2 l l' :
  accumulate_loop (ms1 ++ ms2) l = Some l' →
  ∃ l1, accumulate_loop ms1 l = Some l1 ∧ accumulate_loop ms2 l1 = Some l'.
Proof.
  revert l. induction ms1 as [|m ms1 IH]; intros l; simpl; [by eauto|].
  destruct (accumulate_step m l) as [l1|]; [|done]. cbn [mbind option_bind]. apply IH.
Qed.

(** ** The series itself *)
Section series.
Context (K : histogramKey) (M S : Z).

(** What the exporter keeps for the series after the observations [xs]. *)
Definition kept (xs : list float64) (o : option seriesState) : Prop :=
  match o with
  | None => xs = []
  | Some s => st_kind s = Some kindExponential ∧ xs ≠ [] ∧ point_for M S xs (st_exponential s)
  end.

(** The series in the states and in the data of an export. *)
Definition reported_expo (vs : list float64) (st : gmap histogramKey seriesState) (out : list Metrics) : Prop :=
  ∃ s pt, st !! K = Some s ∧ st_kind s = Some kindExponential ∧ point_for M S vs (st_exponential s) ∧
    expo_points_of K out = [pt] ∧ point_for M S vs pt.

(** The metric of the converted batch that has the series, with its observations. *)
Definition converted_expo (ys : list float64) (m : Metrics) : Prop :=
  mt_name m = K.1 ∧ ∃ p1 p p2, mt_data m = AExponential false (p1 ++ p :: p2) ∧
    Forall (λ q, Equivalent (ep_attrs q) ≠ K.2) p1 ∧ Forall (λ q, Equivalent (ep_attrs q) ≠ K.2) p2 ∧
    Equivalent (ep_attrs p) = K.2 ∧ point_for M S ys p.

Lemma point_for_at vs p start at_ : point_for M S vs p → point_for M S vs (exp_at start at_ p).
Proof. done. Qed.

Lemma point_for_copy vs p : point_for M S vs p → point_for M S vs (copyExponential p).
Proof. done. Qed.

(** The point of the series: the export's observations join the earlier ones. *)
Lemma exponentialPoint_own xs ys a meta p :
  a_cumulative a = true → a_expoMaxSize a = M → point_key meta (ep_attrs p) = K → kept xs (a_next a !! K) →
  point_for M S ys p → Forall (λ v, valid v = true) (xs ++ ys) → len (xs ++ ys) < 2 ^ 64 →
  ∃ p' a' s', exponentialPoint a meta p = Some (p', a') ∧ point_for M S (xs ++ ys) p' ∧ ep_attrs p' = ep_attrs p ∧
    a_next a' !! K = Some s' ∧ st_kind s' = Some kindExponential ∧ point_for M S (xs ++ ys) (st_exponential s') ∧ K ∈ a_seen a'.
Proof using Hlog.
  intros Hc HM HK Hkept Hy Hv Hl. apply Forall_app in Hv as [Vx Vy]. rewrite len_app in Hl.
  unfold exponentialPoint. rewrite HK. unfold acc_state. rewrite Hc, HM.
  assert (Hq : ∃ q, (if true && (match a_next a !! K with Some _ => true | None => false end)
      then addExponential p (st_exponential (match a_next a !! K with Some s => s | None => zero_state end)) M else Some p) = Some q
      ∧ point_for M S (xs ++ ys) q ∧ ep_attrs q = ep_attrs p).
  { destruct (a_next a !! K) as [s|]; simpl in *.
    - destruct Hkept as (_ & _ & Hx). destruct (addExponential_for M S xs ys p (st_exponential s) Hy Hx Vx Vy Hl) as (q & E & Hf & Ha & _).
      eauto.
    - subst xs. eauto. }
  destruct Hq as (q & Eq & Hfor & Ha). destruct (a_next a !! K) as [s|]; cbn [andb identify st_exponential] in Eq |- *.
  all: rewrite Eq; cbn [mbind option_bind]; destruct (times _ _ _ _) as [[start at_] s1] eqn:Et;
    apply times_fields in Et as (_ & Ek & _); eexists _, _, _; split; [done|]; split; [by apply point_for_at|]; split; [done|];
    split; [apply store_seen|]; split; [done|]; split; [by apply point_for_copy, point_for_at|apply store_seen].
Qed.

Lemma accumulate_step_own xs ys m l l' :
  a_cumulative (l_acc l) = true → a_expoMaxSize (l_acc l) = M → attrs_ok (a_next (l_acc l)) → states_ok (a_next (l_acc l)) →
  kept xs (a_next (l_acc l) !! K) → converted_expo ys m → Forall (λ v, valid v = true) (xs ++ ys) → len (xs ++ ys) < 2 ^ 64 →
  expo_points_of K (l_merged l) = [] → accumulate_step m l = Some l' →
  a_cumulative (l_acc l') = true ∧ attrs_ok (a_next (l_acc l')) ∧ states_ok (a_next (l_acc l')) ∧ K ∈ a_seen (l_acc l') ∧
  reported_expo (xs ++ ys) (a_next (l_acc l')) (l_merged l').
Proof using Hlog.
  intros Hc HM Hat Hok Hkept (Hn & p1 & p & p2 & Ed & F1 & F2 & Hp & Hy) Hv Hl He. unfold accumulate_step. rewrite Ed.
  destruct (exponential_points _ _ _) as [[a3 pts']|] eqn:E; [|done]. cbn [mbind option_bind]. intros [= <-]. cbn [l_acc l_merged].
  assert (Hother : ∀ pts, Forall (λ q, Equivalent (ep_attrs q) ≠ K.2) pts → Forall (λ q, point_key (metaOf m) (ep_attrs q) ≠ K) pts).
  { intros pts Hf. eapply Forall_impl; [exact Hf|]. intros q Hq Eq. apply Hq. by rewrite <-Eq. }
  assert (Hsplit : ∃ a1 a2 q1 q q2, exponential_points (l_acc l) (metaOf m) p1 = Some (a1, q1) ∧
    exponentialPoint a1 (metaOf m) p = Some (q, a2) ∧ exponential_points a2 (metaOf m) p2 = Some (a3, q2) ∧ pts' = q1 ++ q :: q2).
  { revert E. generalize (l_acc l). clear. revert pts'. induction p1 as [|r p1 IH]; intros pts' a; simpl.
    - destruct (exponentialPoint a (metaOf m) p) as [[q a2]|] eqn:E1; [|done]. cbn [mbind option_bind].
      destruct (exponential_points a2 (metaOf m) p2) as [[a' q2]|] eqn:E2; [|done]. cbn [mbind option_bind]. intros [= <- <-].
      exists a, a2, [], q, q2. done.
    - destruct (exponentialPoint a (metaOf m) r) as [[r' a0]|]; [|done]. cbn [mbind option_bind].
      destruct (exponential_points a0 (metaOf m) (p1 ++ p :: p2)) as [[a' rest]|] eqn:E2; [|done]. cbn [mbind option_bind]. intros [= <- <-].
      destruct (IH rest a0 E2) as (a1 & a2 & q1 & q & q2 & E3 & E4 & E5 & ->).
      exists a1, a2, (r' :: q1), q, q2. rewrite E3. done. }
  destruct Hsplit as (a1 & a2 & q1 & q & q2 & E1 & E2 & E3 & ->).
  destruct (exponential_points_quiet K _ _ _ _ _ Hc E1 (Hother _ F1)) as [((U1 & U2 & U3 & U4 & U5) & UM & UA) A1].
  assert (Hc1 : a_cumulative a1 = true) by congruence.
  assert (HK : point_key (metaOf m) (ep_attrs p) = K).
  { unfold point_key. cbn [metaOf sm_name]. rewrite Hn, Hp. by destruct K. }
  destruct (exponentialPoint_own xs ys a1 (metaOf m) p Hc1 ltac:(congruence) HK ltac:(by rewrite U3) Hy Hv Hl)
    as (q' & a2' & s' & E2' & Hq & Hqa & Hs' & Hk' & Hf' & Hseen).
  rewrite E2 in E2'. injection E2' as <- <-.
  destruct (exponentialPoint_attrs _ _ _ _ _ Hc1 E2) as (_ & Hc2 & _ & HA2).
  destruct (exponentialPoint_spec _ _ _ _ _ E2) as [_ Hok2].
  destruct (exponential_points_quiet K _ _ _ _ _ Hc2 E3 (Hother _ F2)) as [((V1 & V2 & V3 & V4 & V5) & VM & VA) A3].
  split_and!; [congruence|by auto|by auto|by apply V4|].
  exists s', q. split_and!; [by rewrite V3|done|done| |done].
  rewrite expo_points_snoc, He. unfold expo_in. cbn [with_data mt_data mt_name]. rewrite bool_decide_eq_true_2 by done.
  rewrite List.filter_app. simpl. rewrite (filter_expo_none K q1) by (by eapply filter_attrs).
  rewrite (filter_expo_none K q2) by (by eapply filter_attrs). unfold is_expo. by rewrite Hqa, bool_decide_eq_true_2.
Qed.

(** *** When the export has no observation of the series *)

(** What unobserved adds for a state that is not of the series: nothing of the series. *)
Lemma unobserved_expo_spec s start at_ add m :
  unobserved_point s start at_ = Some add → mt_name m = sm_name (st_meta s) →
  (mt_data m = ANone ∨ sameKind (mt_data m) (add ANone) = true) →
  expo_in K (with_data m (add (mt_data m))) = expo_in K m ++
    (if bool_decide (st_kind s = Some kindExponential ∧ sm_name (st_meta s) = K.1 ∧ Equivalent (ep_attrs (st_exponential s)) = K.2)
     then [exp_at start at_ (copyExponential (st_exponential s))] else []).
Proof.
  unfold unobserved_point. intros Ha Hn Hk.
  destruct (st_kind s) as [[]|]; [| | | |done]; injection Ha as <-.
  1-3: rewrite bool_decide_eq_false_2 by naive_solver; rewrite app_nil_r; unfold expo_in; simpl; destruct (mt_data m); destruct Hk; done.
  set (pt := exp_at _ _ _). assert (Hpt : ep_attrs pt = ep_attrs (st_exponential s)) by done.
  assert (Hm : ∀ pts, mt_data m = ANone ∧ pts = [] ∨ (∃ d, mt_data m = AExponential d pts) →
    expo_in K (with_data m (AExponential false (pts ++ [pt]))) = expo_in K m ++
    (if bool_decide (Some kindExponential = Some kindExponential ∧ sm_name (st_meta s) = K.1 ∧ Equivalent (ep_attrs (st_exponential s)) = K.2)
     then [pt] else [])).
  { intros pts Hpts. unfold expo_in, with_data. cbn [mt_data mt_name]. rewrite List.filter_app. simpl. unfold is_expo at 2. rewrite Hpt.
    rewrite <-Hn. destruct (decide (mt_name m = K.1)) as [E1|E1].
    - rewrite !(bool_decide_eq_true_2 (mt_name m = K.1)) by done.
      destruct (decide (Equivalent (ep_attrs (st_exponential s)) = K.2)) as [E2|E2].
      + rewrite !bool_decide_eq_true_2 by done. destruct Hpts as [[-> ->]|(d & ->)]; done.
      + rewrite !bool_decide_eq_false_2 by tauto. destruct Hpts as [[-> ->]|(d & ->)]; by rewrite ?app_nil_r.
    - rewrite !bool_decide_eq_false_2 by tauto. destruct Hpts as [[-> ->]|(d & ->)]; done. }
  destruct Hk as [Hk|Hk].
  - rewrite Hk. apply (Hm []). by left.
  - destruct (mt_data m) as [| | |d pts|] eqn:Ed; try done. apply (Hm pts). right. eauto.
Qed.

Lemma appendUnobserved_expo ms s start at_ add :
  unobserved_point s start at_ = Some add →
  ∃ l1 l2, expo_points_of K ms = l1 ++ l2 ∧ expo_points_of K (appendUnobserved ms (st_meta s) add) = l1 ++
    (if bool_decide (st_kind s = Some kindExponential ∧ sm_name (st_meta s) = K.1 ∧ Equivalent (ep_attrs (st_exponential s)) = K.2)
     then [exp_at start at_ (copyExponential (st_exponential s))] else []) ++ l2.
Proof.
  intros Ha. unfold appendUnobserved. destruct (append_to ms _ _ add) as [ms'|] eqn:E.
  - unfold expo_points_of. eapply (append_to_flat (expo_in K)); [exact E|].
    intros m Hn Hk. apply unobserved_expo_spec; [done|done|by right].
  - exists (expo_points_of K ms), []. rewrite !app_nil_r. split; [done|]. rewrite expo_points_snoc. f_equal.
    apply (unobserved_expo_spec s start at_ add (mkMetrics (sm_name (st_meta s)) (sm_description (st_meta s)) (sm_unit (st_meta s)) ANone));
      [done|done|by left].
Qed.

(** One turn of the loop keeps the attributes of the kept points. *)
Lemma unobserved_turn_attrs a k s now start at_ s' :
  attrs_ok (a_next a) → a_next a !! k = Some s → times a k s now = (start, at_, s') →
  attrs_ok (a_next (unobserved_turn a k s')) ∧ (st_kind s' = Some kindExponential → Equivalent (ep_attrs (st_exponential s')) = k.2).
Proof.
  intros Hat Hk Ht. apply times_fields in Ht as (E1 & E2 & _).
  assert (Hs : st_kind s' = Some kindExponential → Equivalent (ep_attrs (st_exponential s')) = k.2).
  { rewrite E1, E2. by apply Hat. }
  split; [|done]. intros k' t. cbn [unobserved_turn a_next]. destruct (decide (k' = k)) as [->|Hn].
  - rewrite lookup_insert_eq. by intros [= <-].
  - rewrite lookup_insert_ne by done. apply Hat.
Qed.

(** The turns of the other series, and of a series that was observed or is unknown. *)
Lemma unobserved_expo_other order now a ms a' ms' :
  states_ok (a_next a) → attrs_ok (a_next a) → (K ∈ a_seen a ∨ K ∉ order ∨ a_next a !! K = None) →
  unobserved_loop order now a ms = (a', ms') →
  a_next a' !! K = a_next a !! K ∧ (K ∈ a_seen a' ↔ K ∈ a_seen a) ∧ states_ok (a_next a') ∧ attrs_ok (a_next a') ∧
  expo_points_of K ms' = expo_points_of K ms.
Proof.
  clear Hlog. revert a ms. induction order as [|k order IH]; intros a ms Hok Hat HK; cbn [unobserved_loop].
  { by intros [= <- <-]. }
  assert (HK' : K ∈ a_seen a ∨ K ∉ order ∨ a_next a !! K = None) by (destruct HK as [|[|]]; [by left|right; left; set_solver|by right; right]).
  case_bool_decide as Es; [by apply IH|]. destruct (a_next a !! k) as [s|] eqn:Ek; [|by apply IH].
  destruct (times a k s now) as [[start at_] s'] eqn:Et.
  destruct (unobserved_turn_ok _ _ _ _ _ _ _ Hok Ek Et) as ((Hid & _) & [add Ha] & Hok'). rewrite Ha. fold (unobserved_turn a k s').
  destruct (unobserved_turn_attrs _ _ _ _ _ _ _ Hat Ek Et) as [Hat' Hs'].
  assert (Hne : K ≠ k) by (intros ->; destruct HK as [|[|]]; [done|set_solver|congruence]).
  assert (Hl : a_next (unobserved_turn a k s') !! K = a_next a !! K) by (cbn [unobserved_turn a_next]; by rewrite lookup_insert_ne).
  assert (HK2 : K ∈ a_seen (unobserved_turn a k s') ∨ K ∉ order ∨ a_next (unobserved_turn a k s') !! K = None).
  { rewrite Hl. destruct HK' as [|[|]]; auto. }
  intros E. destruct (IH _ _ Hok' Hat' HK2 E) as (I1 & I2 & I3 & I4 & I5). split_and!; [by rewrite I1|done|done|done|].
  rewrite I5. destruct (appendUnobserved_expo ms s' start at_ add Ha) as (l1 & l2 & -> & ->).
  rewrite bool_decide_eq_false_2; [done|]. intros (H1 & H2 & H3). apply Hne. rewrite (Hs' H1) in H3.
  unfold point_key in Hid. destruct K as [k1 k2], k as [j1 j2]. simpl in *. congruence.
Qed.

(** The turn of the series itself: its last point is sent again. *)
Lemma unobserved_expo_self order now a ms a' ms' xs :
  states_ok (a_next a) → attrs_ok (a_next a) → K ∉ a_seen a → NoDup order → K ∈ order →
  xs ≠ [] → kept xs (a_next a !! K) → expo_points_of K ms = [] → unobserved_loop order now a ms = (a', ms') →
  reported_expo xs (a_next a') ms' ∧ states_ok (a_next a') ∧ attrs_ok (a_next a').
Proof.
  intros Hok Hat Hseen Hnd Hin Hxs Hkept Hp. apply list_elem_of_split in Hin as (o1 & o2 & ->).
  apply NoDup_app in Hnd as (_ & Hd1 & Hd2). apply NoDup_cons in Hd2 as [Hn2 _].
  assert (Hn1 : K ∉ o1) by (intros Hin; apply (Hd1 K Hin); by left).
  rewrite unobserved_loop_app. destruct (unobserved_loop o1 now a ms) as [a1 ms1] eqn:E1.
  destruct (unobserved_expo_other o1 now a ms a1 ms1 Hok Hat ltac:(by right; left) E1) as (U1 & U2 & U3 & U4 & U5).
  destruct (a_next a !! K) as [s|]; [|done]. destruct Hkept as (Hk & _ & Hfor).
  cbn [unobserved_loop]. rewrite bool_decide_eq_false_2 by (by rewrite U2). rewrite U1.
  destruct (times a1 K s now) as [[start at_] s'] eqn:Et. fold (unobserved_turn a1 K s').
  destruct (unobserved_turn_ok a1 K s now start at_ s' U3 U1 Et) as ([Hid _] & [add Ha] & Hok1).
  destruct (unobserved_turn_attrs a1 K s now start at_ s' U4 U1 Et) as [Hat1 Hs'].
  rewrite Ha. intros E2.
  destruct (unobserved_expo_other o2 now (unobserved_turn a1 K s') _ a' ms' Hok1 Hat1 ltac:(by right; left) E2) as (V1 & V2 & V3 & V4 & V5).
  apply times_fields in Et as (T1 & T2 & _). split; [|done].
  exists s', (exp_at start at_ (copyExponential (st_exponential s'))). split_and!.
  - rewrite V1. cbn [unobserved_turn a_next]. apply lookup_insert_eq.
  - congruence.
  - by rewrite T1.
  - rewrite V5. destruct (appendUnobserved_expo ms1 s' start at_ add Ha) as (l1 & l2 & Hl & ->).
    rewrite U5, Hp in Hl. symmetry in Hl. apply app_nil in Hl as [-> ->]. rewrite bool_decide_eq_true_2; [done|].
    rewrite T2. split_and!; [done| |apply Hs'; congruence]. by rewrite <-Hid.
  - rewrite T1. by apply point_for_at, point_for_copy.
Qed.

(** *** One export *)

(** The batch has one metric with the series, or none. *)
Definition batch_expo (ys : list float64) (rm : list Metrics) : Prop :=
  (ys = [] ∧ Forall (λ m, K ∉ data_keys m) rm)
  ∨ ys ≠ [] ∧ ∃ l1 m l2, rm = l1 ++ m :: l2 ∧ Forall (λ m, K ∉ data_keys m) (l1 ++ l2) ∧ converted_expo ys m.

Lemma accumulate_expo config order E0 xs ys rm now out st :
  o_Temporality config ≠ Delta → M = match o_ExponentialHistogram config with Some h => eh_MaxSize (Resolved h) | None => 0 end →
  states_ok E0 → attrs_ok E0 → kept xs (E0 !! K) → batch_expo ys rm →
  Forall (λ v, valid v = true) (xs ++ ys) → len (xs ++ ys) < 2 ^ 64 → enumerates order st →
  accumulate config order E0 rm now = Some (out, st) →
  states_ok st ∧ attrs_ok st ∧
  (xs ++ ys = [] → st !! K = None ∧ expo_points_of K out = []) ∧
  (xs ++ ys ≠ [] → reported_expo (xs ++ ys) st out).
Proof using Hlog.
  intros Ht HM Hok Hat Hkept Hb Hv Hl [Hnd Hdom]. unfold accumulate. rewrite bool_decide_eq_false_2 by done. rewrite <-HM.
  set (acc := mkAcc _ _ _ _ _). destruct (accumulate_loop rm (mkLoop acc [] ∅)) as [l|] eqn:El; [|done]. cbn [mbind option_bind].
  destruct Hb as [[-> Hf]|(Hys & l1 & m & l2 & -> & Hf & Hm)].
  - destruct (accumulate_loop_free K rm (mkLoop acc [] ∅) l eq_refl Hf El) as [((Q1 & Q2 & Q3 & Q4 & Q5) & QM & QA) P].
    cbn [l_acc l_merged] in *. unfold unobserved. rewrite Q2. cbn [acc a_cumulative negb].
    destruct (unobserved_loop order now (l_acc l) (l_merged l)) as [a' out'] eqn:Eu. intros [= <- <-].
    rewrite app_nil_r in *. cbn [acc a_next a_seen] in Q3, Q4.
    assert (Hns : K ∉ a_seen (l_acc l)) by (rewrite Q4; set_solver).
    destruct (decide (xs = [])) as [->|Hxs].
    + destruct (E0 !! K) as [s0|] eqn:E0K; [by destruct Hkept as (_ & ? & _)|].
      destruct (unobserved_expo_other order now _ _ _ _ (Q5 Hok) (QA Hat) ltac:(right; right; by rewrite Q3) Eu) as (U1 & U2 & U3 & U4 & U5).
      split_and!; [done|done| |done]. intros _. rewrite U1, U5, Q3, P. done.
    + assert (HKo : K ∈ order).
      { destruct (decide (K ∈ order)) as [|Hn]; [done|].
        destruct (unobserved_expo_other order now _ _ _ _ (Q5 Hok) (QA Hat) ltac:(by right; left) Eu) as (U1 & _).
        apply Hdom. rewrite U1, Q3. destruct (E0 !! K); [by eexists|done]. }
      destruct (unobserved_expo_self order now (l_acc l) (l_merged l) a' out' xs (Q5 Hok) (QA Hat) Hns Hnd HKo Hxs
        ltac:(by rewrite Q3) ltac:(by rewrite P) Eu) as (R & R2 & R3). split_and!; [done|done|done|by intros _].
  - apply accumulate_loop_app in El as (la & Ea & Em). cbn [accumulate_loop] in Em.
    destruct (accumulate_step m la) as [lb|] eqn:Es; [|done]. cbn [mbind option_bind] in Em. apply Forall_app in Hf as [F1 F2].
    destruct (accumulate_loop_free K l1 (mkLoop acc [] ∅) la eq_refl F1 Ea) as [((Q1 & Q2 & Q3 & Q4 & Q5) & QM & QA) P].
    cbn [l_acc l_merged] in *.
    destruct (accumulate_step_own xs ys m la lb ltac:(by rewrite Q2) ltac:(by rewrite QM) (QA Hat) (Q5 Hok) ltac:(by rewrite Q3) Hm Hv Hl
      ltac:(by rewrite P) Es) as (B1 & B2 & B3 & B4 & (s & pt & R1 & R2 & R3 & R4 & R5)).
    destruct (accumulate_loop_free K l2 lb l B1 F2 Em) as [((V1 & V2 & V3 & V4 & V5) & VM & VA) P2].
    unfold unobserved. rewrite V2, B1.
    destruct (unobserved_loop order now (l_acc l) (l_merged l)) as [a' out'] eqn:Eu. intros [= <- <-].
    destruct (unobserved_expo_other order now _ _ _ _ (V5 B3) (VA B2) ltac:(left; by apply V4) Eu) as (U1 & U2 & U3 & U4 & U5).
    assert (Hrep : reported_expo (xs ++ ys) (a_next a') out').
    { exists s, pt. rewrite U1, V3, U5, P2. done. }
    split_and!; [done|done| |done]. by intros [_ ?]%app_nil.
Qed.

(** *** Conversion *)

(** Every observation of the series is a histogram's. *)
Definition only_histograms (ms : list Metric) : Prop := Forall (λ m, key_of m = K → Type_ m = MetricTypeHistogram) ms.

Definition recorded (ms : list Metric) : list float64 :=
  omap (λ m, if decide (key_of m = K) then match Type_ m with MetricTypeHistogram => Some (Value m) | _ => None end else None) ms.

Lemma record_all_snoc h vs v : record_all log2 h (vs ++ [v]) = h' ← record_all log2 h vs; record log2 h' v.
Proof.
  revert h. induction vs as [|x vs IH]; intros h; simpl.
  - by destruct (record log2 h v).
  - destruct (record log2 h x) as [h'|]; [|done]. cbn [mbind option_bind]. apply IH.
Qed.

(** The loop over the batch, with [vs] the observations of the series so far. *)
Record expo_loop_inv (vs : list float64) (y : expo_state) : Prop := mkExpoInv {
  xi_names : ∀ n keys, y_names y !! n = Some keys →
    NoDup keys ∧ ∀ key : histogramKey, key ∈ keys → key.1 = n ∧ is_Some (y_series y !! key);
  xi_series : ∀ (key : histogramKey) (s : expoSeries), y_series y !! key = Some s →
    Equivalent (es_attrs s) = key.2 ∧ key ∈ default [] (y_names y !! key.1);
  xi_own : match y_series y !! K with
           | None => vs = []
           | Some s => vs ≠ [] ∧ record_all log2 (newExpoHistogram M S) vs = Some (es_histogram s)
           end }.

Lemma series_record_spec (s : expoSeries) m (s' : expoSeries) :
  series_record log2 s m = Some s' → es_attrs s' = es_attrs s ∧ record log2 (es_histogram s) (Value m) = Some (es_histogram s').
Proof. unfold series_record. by intros (h & Hh & (e & _ & [= <-])%bind_Some)%bind_Some. Qed.

Lemma exponential_loop_inv config settings ms vs y y' :
  eh_MaxSize settings = M → eh_MaxScale settings = S → usesExponential config K.1 = true →
  expo_loop_inv vs y → exponential_loop log2 config settings ms y = Some y' → expo_loop_inv (vs ++ recorded ms) y'.
Proof.
  clear Hlog. intros HM HS Hu. revert vs y. induction ms as [|m ms IH]; intros vs y Hi; simpl; [intros [= <-]; by rewrite app_nil_r|].
  destruct (negb (bool_decide _) || _) eqn:E.
  { intros Hl. specialize (IH vs y Hi Hl). destruct (decide (key_of m = K)) as [EK|]; [|done].
    apply orb_true_iff in E as [E|E].
    - apply negb_true_iff, bool_decide_eq_false in E. by destruct (Type_ m).
    - rewrite <-EK in Hu. cbn [key_of fst] in Hu. rewrite Hu in E. done. }
  apply orb_false_iff in E as [E _]. apply negb_false_iff, bool_decide_eq_true in E.
  destruct (match y_series y !! key_of m with Some _ => _ | None => _ end) as [names series] eqn:Ey.
  destruct (series_record log2 series m) as [s'|] eqn:Er; [|done]. cbn [mbind option_bind]. intros Hl.
  apply series_record_spec in Er as [Ea Eh]. destruct Hi as [Hn Hs Ho].
  assert (Hi' : expo_loop_inv (vs ++ match (if decide (key_of m = K) then Some (Value m) else None) with Some v => [v] | None => [] end)
                  (mkExpoState names (<[key_of m := s']> (y_series y)))).
  { split; cbn [y_names y_series].
    - intros n keys Hk. destruct (y_series y !! key_of m) as [s0|] eqn:E0; injection Ey as <- <-.
      + destruct (Hn n keys Hk) as [Hnd Hk2]. split; [done|]. intros key Hin. destruct (Hk2 key Hin) as [? [t ?]]. split; [done|].
        destruct (decide (key = key_of m)) as [->|]; [by rewrite lookup_insert_eq|by rewrite lookup_insert_ne].
      + destruct (decide (n = Name m)) as [->|Hne].
        * rewrite lookup_insert_eq in Hk. injection Hk as <-.
          assert (Hold : NoDup (default [] (y_names y !! Name m)) ∧
            ∀ key : histogramKey, key ∈ default [] (y_names y !! Name m) → key.1 = Name m ∧ is_Some (y_series y !! key)).
          { destruct (y_names y !! Name m) as [ks|] eqn:Ek; [by apply Hn|]. split; [constructor|]. by intros key ?%elem_of_nil. }
          destruct Hold as [Hnd Hk2]. split.
          -- apply NoDup_app. split_and!; [done| |apply NoDup_singleton]. intros key Hin ->%list_elem_of_singleton.
             destruct (Hk2 _ Hin) as [_ [? ?]]. congruence.
          -- intros key [Hin| ->%list_elem_of_singleton]%elem_of_app; [|split; [done|by rewrite lookup_insert_eq]].
             destruct (Hk2 key Hin) as [? [t ?]]. split; [done|].
             destruct (decide (key = key_of m)) as [->|]; [by rewrite lookup_insert_eq|by rewrite lookup_insert_ne].
        * rewrite lookup_insert_ne in Hk by done. destruct (Hn n keys Hk) as [Hnd Hk2]. split; [done|].
          intros key Hin. destruct (Hk2 key Hin) as [? [t ?]]. split; [done|].
          destruct (decide (key = key_of m)) as [->|]; [by rewrite lookup_insert_eq|by rewrite lookup_insert_ne].
    - intros key s. destruct (decide (key = key_of m)) as [->|Hne].
      + rewrite lookup_insert_eq. intros [= <-]. rewrite Ea. destruct (y_series y !! key_of m) as [s0|] eqn:E0; injection Ey as <- <-.
        * by apply Hs.
        * split; [done|]. cbn [key_of fst]. rewrite lookup_insert_eq. apply elem_of_app. right. by apply list_elem_of_singleton.
      + rewrite lookup_insert_ne by done. intros Hk. destruct (Hs key s Hk) as [H1 H2]. split; [done|].
        destruct (y_series y !! key_of m); injection Ey as <- _; [done|].
        destruct (decide (key.1 = Name m)) as [En|]; [|by rewrite lookup_insert_ne].
        rewrite En in H2 |- *. rewrite lookup_insert_eq. apply elem_of_app. by left.
    - destruct (decide (key_of m = K)) as [EK|EK].
      + rewrite <-EK in *. rewrite lookup_insert_eq. split; [by destruct vs|]. rewrite record_all_snoc.
        destruct (y_series y !! key_of m) as [s0|]; injection Ey as _ <-.
        * destruct Ho as [_ ->]. done.
        * subst vs. simpl in *. rewrite HM, HS in Eh. done.
      + rewrite lookup_insert_ne by done. by rewrite app_nil_r. }
  specialize (IH _ _ Hi' Hl). rewrite E. destruct (decide (key_of m = K)).
  - by rewrite <-app_assoc in IH.
  - by rewrite app_nil_r in IH.
Qed.

(** The converted points of the name: one of the series when it was observed, else none. *)
Definition expo_points_ok (vs : list float64) (o : option (list ExponentialDataPoint)) : Prop :=
  match vs with
  | [] => ∀ pts, o = Some pts → Forall (λ q, Equivalent (ep_attrs q) ≠ K.2) pts
  | _ => ∃ p1 p p2, o = Some (p1 ++ p :: p2) ∧ Forall (λ q, Equivalent (ep_attrs q) ≠ K.2) p1 ∧
           Forall (λ q, Equivalent (ep_attrs q) ≠ K.2) p2 ∧ Equivalent (ep_attrs p) = K.2 ∧ point_for M S vs p
  end.

Lemma exponentialHistograms_spec config settings ms es :
  o_ExponentialHistogram config = Some settings → eh_MaxSize (Resolved settings) = M → eh_MaxScale (Resolved settings) = S →
  usesExponential config K.1 = true → Forall (λ v, valid v = true) (recorded ms) → len (recorded ms) < 2 ^ 64 →
  exponentialHistograms log2 config ms = Some es → expo_points_ok (recorded ms) (es !! K.1).
Proof using Hlog.
  intros Hc HM HS Hu Hv Hl. unfold exponentialHistograms. rewrite Hc.
  destruct (exponential_loop _ _ _ _ _) as [y|] eqn:Ey; [|done]. cbn [mbind option_bind]. intros [= <-].
  assert (Hi : expo_loop_inv [] (mkExpoState ∅ ∅)).
  { split; cbn [y_names y_series]; [intros n keys|intros key s|]; by rewrite lookup_empty. }
  pose proof (exponential_loop_inv _ _ _ _ _ _ HM HS Hu Hi Ey) as [Hn Hs Ho]. rewrite app_nil_l in Ho.
  rewrite lookup_fmap. set (f := λ key : histogramKey, series_point <$> y_series y !! key).
  assert (Hother : ∀ keys, (∀ key : histogramKey, key ∈ keys → key.1 = K.1 ∧ key ≠ K) →
    Forall (λ q, Equivalent (ep_attrs q) ≠ K.2) (omap f keys)).
  { intros keys Hk. apply Forall_forall. intros q (key & Hin & Hq)%list_elem_of_omap. unfold f in Hq.
    destruct (y_series y !! key) as [s|] eqn:Es; [|done]. injection Hq as <-. cbn [series_point ep_attrs].
    destruct (Hs key s Es) as [-> _]. destruct (Hk key Hin) as [E1 E2]. intros E3. apply E2. by apply injective_projections. }
  destruct (y_series y !! K) as [s|] eqn:EK.
  - destruct Ho as [Hne Hr]. destruct (Hs K s EK) as [Ea Hin].
    destruct (y_names y !! K.1) as [keys|] eqn:En; [|by apply elem_of_nil in Hin]. cbn [default] in Hin.
    change (id keys) with keys in Hin. destruct (Hn _ _ En) as [Hnd Hk]. apply list_elem_of_split in Hin as (k1 & k2 & ->).
    apply NoDup_app in Hnd as (_ & Hd1 & Hd2). apply NoDup_cons in Hd2 as [Hn2 _].
    unfold expo_points_ok. destruct (recorded ms) as [|v vs] eqn:Er; [done|].
    exists (omap f k1), (series_point s), (omap f k2). split_and!.
    + simpl. f_equal. rewrite omap_app. f_equal. cbn [omap list_omap]. unfold f at 1. by rewrite EK.
    + apply Hother. intros key Hin. split; [apply Hk, elem_of_app; by left|]. intros ->. apply (Hd1 K Hin). by left.
    + apply Hother. intros key Hin. split; [apply Hk, elem_of_app; right; by right|]. by intros ->.
    + done.
    + exists (es_histogram s). split; [|done]. by apply recorded_for.
  - rewrite Ho. intros pts Hp. destruct (y_names y !! K.1) as [keys|] eqn:En; [|done]. injection Hp as <-.
    apply Hother. intros key Hin. destruct (Hn _ _ En) as [_ Hk]. destruct (Hk key Hin) as [E1 [t E2]]. split; [done|congruence].
Qed.

Lemma data_key_name m : K ∈ data_keys m → mt_name m = K.1.
Proof. unfold data_keys. destruct (mt_data m); try (by intros (p & -> & _)%list_elem_of_fmap). by intros ?%elem_of_nil. Qed.

(** The converted batch, when no point of the name is of the series. *)
Lemma convert_free config hs es ms added :
  only_histograms ms → hist_free K hs → expo_points_ok [] (es !! K.1) →
  Forall (λ m, K ∉ data_keys m) (convert_loop config hs es ms added).
Proof.
  intros Hc Hh He. revert added. induction Hc as [|m ms Hm _ IH]; intros added; cbn [convert_loop]; [done|]. destruct (Type_ m) eqn:Et.
  - constructor; [|apply IH]. unfold data_keys. simpl. intros Hin%list_elem_of_singleton. symmetry in Hin. specialize (Hm Hin). congruence.
  - constructor; [|apply IH]. unfold data_keys. simpl. intros Hin%list_elem_of_singleton. symmetry in Hin. specialize (Hm Hin). congruence.
  - case_bool_decide; [apply IH|]. constructor; [|apply IH]. intros Hin. pose proof (data_key_name _ Hin) as Hn. simpl in Hn.
    unfold data_keys in Hin. rewrite Hn in Hin. destruct (es !! K.1) as [pts|] eqn:Ee; simpl in Hin.
    + apply list_elem_of_fmap in Hin as (p & E & Hp). specialize (He pts eq_refl). rewrite Forall_forall in He.
      apply (He p Hp). by rewrite E.
    + apply list_elem_of_fmap in Hin as (p & E & Hp). destruct (hs !! K.1) as [pts|] eqn:Eh; [|by apply elem_of_nil in Hp].
      by apply (Hh _ _ p Eh Hp).
  - apply IH.
Qed.

(** Once the name is added, no metric has the series. *)
Lemma convert_added config hs es ms added :
  only_histograms ms → K.1 ∈ added → Forall (λ m, K ∉ data_keys m) (convert_loop config hs es ms added).
Proof.
  clear Hlog. intros Hc. revert added. induction Hc as [|m ms Hm _ IH]; intros added Ha; cbn [convert_loop]; [done|]. destruct (Type_ m) eqn:Et.
  - constructor; [|by apply IH]. unfold data_keys. simpl. intros Hin%list_elem_of_singleton. symmetry in Hin. specialize (Hm Hin). congruence.
  - constructor; [|by apply IH]. unfold data_keys. simpl. intros Hin%list_elem_of_singleton. symmetry in Hin. specialize (Hm Hin). congruence.
  - case_bool_decide as En; [by apply IH|]. constructor; [|apply IH; set_solver].
    intros Hin. apply data_key_name in Hin. simpl in Hin. congruence.
  - by apply IH.
Qed.

Lemma convert_one config hs es ms added :
  o_Temporality config ≠ Delta → only_histograms ms → K.1 ∉ added → recorded ms ≠ [] → 
  ∀ vs, expo_points_ok vs (es !! K.1) → vs ≠ [] →
  ∃ l1 m l2, convert_loop config hs es ms added = l1 ++ m :: l2 ∧ Forall (λ m, K ∉ data_keys m) (l1 ++ l2) ∧ converted_expo vs m.
Proof.
  clear Hlog. intros Ht Hc Ha Hr vs He Hvs. assert (Hd : metricTemporality (o_Temporality config) = false) by (by apply bool_decide_eq_false).
  revert added Ha Hr. induction Hc as [|m ms Hm Hms IH]; intros added Ha Hr; [done|]. cbn [convert_loop].
  unfold recorded in Hr. rewrite omap_cons_match in Hr. destruct (Type_ m) eqn:Et.
  - assert (HK : key_of m ≠ K) by (intros E; specialize (Hm E); congruence). rewrite decide_False in Hr by done.
    destruct (IH added Ha Hr) as (l1 & m0 & l2 & -> & Hf & Hm0). eexists (_ :: l1), m0, l2. split; [done|]. split; [|done].
    constructor; [|done]. unfold data_keys. simpl. intros Hin%list_elem_of_singleton. by symmetry in Hin.
  - assert (HK : key_of m ≠ K) by (intros E; specialize (Hm E); congruence). rewrite decide_False in Hr by done.
    destruct (IH added Ha Hr) as (l1 & m0 & l2 & -> & Hf & Hm0). eexists (_ :: l1), m0, l2. split; [done|]. split; [|done].
    constructor; [|done]. unfold data_keys. simpl. intros Hin%list_elem_of_singleton. by symmetry in Hin.
  - destruct (decide (Name m = K.1)) as [En|En].
    + rewrite bool_decide_eq_false_2 by (by rewrite En). destruct vs as [|v vs]; [done|].
      destruct He as (p1 & p & p2 & Ee & F1 & F2 & Hp & Hy). rewrite En, Ee, Hd.
      eexists [], _, _. split; [done|]. split; [by apply convert_added; [|set_solver]|]. split; [done|]. exists p1, p, p2. done.
    + assert (HK : key_of m ≠ K) by (intros E; apply En; by rewrite <-E). rewrite decide_False in Hr by done.
      case_bool_decide as Ea; [by apply IH|].
      destruct (IH ({[Name m]} ∪ added) ltac:(set_solver) Hr) as (l1 & m0 & l2 & -> & Hf & Hm0).
      eexists (_ :: l1), m0, l2. split; [done|]. split; [|done]. constructor; [|done]. intros Hin. apply data_key_name in Hin. done.
  - assert (HK : key_of m ≠ K) by (intros E; specialize (Hm E); congruence). rewrite decide_False in Hr by done. by apply IH.
Qed.

Lemma conversion_expo config settings ms bounds rm :
  o_Temporality config ≠ Delta → o_ExponentialHistogram config = Some settings →
  eh_MaxSize (Resolved settings) = M → eh_MaxScale (Resolved settings) = S → usesExponential config K.1 = true → only_histograms ms →
  Forall (λ v, valid v = true) (recorded ms) → len (recorded ms) < 2 ^ 64 →
  toResourceMetricsWithConfig log2 config ms bounds = Some rm → batch_expo (recorded ms) rm.
Proof using Hlog.
  intros Ht Hc HM HS Hu Ho Hv Hl. unfold toResourceMetricsWithConfig, explicitHistograms.
  destruct (explicit_loop config bounds ms _) as [x|] eqn:Ex; [|done]. cbn [mbind option_bind].
  destruct (exponentialHistograms log2 config ms) as [es|] eqn:Ee; [|done]. cbn [mbind option_bind]. intros [= <-].
  pose proof (exponentialHistograms_spec config settings ms es Hc HM HS Hu Hv Hl Ee) as Hes.
  assert (Hfree : hist_free K (attach (x_exemplars x) (x_histograms x) (x_indexes x))).
  { apply attach_free. eapply explicit_loop_free; [| |exact Ex].
    - apply Forall_true. intros m HK. right. by rewrite <-Hu, <-HK.
    - intros n pts p. cbn [x_histograms]. by rewrite lookup_empty. }
  destruct (decide (recorded ms = [])) as [Er|Er].
  - left. split; [done|]. rewrite Er in Hes. by apply convert_free.
  - right. split; [done|]. by apply (convert_one config _ es ms ∅); [done|done|set_solver|done|done|].
Qed.

(** *** Runs *)
Definition all_recorded (bs : list (list Metric)) : list float64 := concat (map recorded bs).

Lemma all_recorded_snoc bs ms : all_recorded (bs ++ [ms]) = all_recorded bs ++ recorded ms.
Proof. unfold all_recorded. rewrite map_app, concat_app. simpl. by rewrite app_nil_r. Qed.

Lemma run_expo config settings bs outs st :
  run log2 config bs outs st → o_Enabled config = true → o_Temporality config ≠ Delta →
  o_ExponentialHistogram config = Some settings → eh_MaxSize (Resolved settings) = M → eh_MaxScale (Resolved settings) = S →
  usesExponential config K.1 = true → Forall only_histograms bs →
  Forall (λ v, valid v = true) (all_recorded bs) → len (all_recorded bs) < 2 ^ 64 →
  states_ok (default ∅ st) ∧ attrs_ok (default ∅ st) ∧ kept (all_recorded bs) (default ∅ st !! K) ∧
  (all_recorded bs = [] → Forall (λ out, expo_points_of K out = []) outs) ∧
  (all_recorded bs ≠ [] → ∃ outs' out pt, outs = outs' ++ [out] ∧ expo_points_of K out = [pt] ∧ point_for M S (all_recorded bs) pt).
Proof using Hlog.
  intros Hr He Ht Hc HM HS Hu. induction Hr as [|bs outs st ms order now send out st' err Hr IH Hx Hen|bs outs st ms order now send st' err Hr IH Hx];
    intros Ho Hv Hl.
  { cbn. split_and!; [intros k s; by rewrite lookup_empty|intros k s; by rewrite lookup_empty|by rewrite lookup_empty|done|done]. }
  - apply Forall_app in Ho as [Ho Hm]. rewrite Forall_singleton in Hm. rewrite all_recorded_snoc in *.
    pose proof Hv as [Vx Vy]%Forall_app. pose proof (len_nonneg (all_recorded bs)). pose proof (len_nonneg (recorded ms)).
    pose proof Hl as Hl'. rewrite len_app in Hl'.
    destruct (IH Ho Vx ltac:(lia)) as (Hok & Hat & Hk & Hnil & _). clear IH.
    destruct (export_sends _ _ _ _ _ _ _ _ _ _ Hx) as (rm & Hrm & Hacc).
    pose proof (conversion_expo config settings ms _ rm Ht Hc HM HS Hu Hm Vy ltac:(lia) Hrm) as Hb.
    destruct (accumulate_expo config order (default ∅ st) (all_recorded bs) (recorded ms) rm now out st' Ht ltac:(by rewrite Hc) Hok Hat Hk
      Hb Hv Hl Hen Hacc) as (Hok' & Hat' & Hnone & Hsome).
    change (default ∅ (Some st')) with st'. split_and!; [done|done| | |].
    + destruct (decide (all_recorded bs ++ recorded ms = [])) as [E|E].
      * destruct (Hnone E) as [-> _]. done.
      * destruct (Hsome E) as (s & pt & -> & R2 & R3 & _). done.
    + intros E. destruct (Hnone E) as [_ Hp]. apply app_nil in E as [E _]. apply Forall_app. split; [by apply Hnil|]. by apply Forall_singleton.
    + intros E. destruct (Hsome E) as (s & pt & _ & _ & _ & R4 & R5). by exists outs, out, pt.
  - apply Forall_app in Ho as [Ho _]. rewrite all_recorded_snoc in *. destruct (export_idle_spec _ _ _ _ _ _ _ _ _ Hx) as [-> Hms].
    rewrite (Hms He) in *. change (recorded []) with (@nil float64) in *. rewrite app_nil_r in *. by apply IH.
Qed.

End series.

End exponential.

(** C22. Cumulative exponential histograms are exact.  In every run of exports of an enabled
    exporter with cumulative temporality (any batches, with data of any other series, any
    times, any order of the loop over the states, any outcome of the sends), a histogram
    series that has no explicit bounds of its own has, in the data of the last export,
    exactly one point, and it is the point of one histogram that recorded all the
    observations of the series so far, from the first export on: the same scale, buckets,
    counts and extrema (the sum is added up in another order), also for observations whose
    send failed and also when the last batch does not mention the series.  A series not
    observed has no point. *)
Theorem otlp_exponential_totals `{Attributes} log2 config settings bs outs st K :
  log2_ok log2 → run log2 config bs outs st → o_Enabled config = true → o_Temporality config ≠ Delta →
  o_ExponentialHistogram config = Some settings → NamedBuckets (o_BucketsByName config) K.1 = None →
  Forall (only_histograms K) bs → Forall (λ v, valid v = true) (all_recorded K bs) → len (all_recorded K bs) < 2 ^ 64 →
  (all_recorded K bs ≠ [] → ∃ outs' out pt h all_at_once, outs = outs' ++ [out] ∧ expo_points_of K out = [pt] ∧
     ep_point pt = snapshot h ∧ same_but_sum h all_at_once ∧
     record_all log2 (newExpoHistogram (eh_MaxSize (Resolved settings)) (eh_MaxScale (Resolved settings))) (all_recorded K bs)
     = Some all_at_once) ∧
  (all_recorded K bs = [] → Forall (λ out, expo_points_of K out = []) outs).
Proof.
  intros Hlog Hr He Ht Hc Hn Ho Hv Hl.
  assert (Hu : usesExponential config K.1 = true) by (unfold usesExponential; by rewrite Hc, Hn).
  destruct (run_expo log2 Hlog K _ _ config settings bs outs st Hr He Ht Hc eq_refl eq_refl Hu Ho Hv Hl) as (_ & _ & _ & Hnil & Hsome).
  split; [|done]. intros Hne. destruct (Hsome Hne) as (outs' & out & pt & -> & Hp & h & Hf & Eh).
  destruct (record_new_for log2 Hlog (eh_MaxSize (Resolved settings)) (eh_MaxScale (Resolved settings)) (all_recorded K bs) Hv Hl) as (ref & Er & Hf').
  exists outs', out, pt, h, ref. split_and!; [done|done|done|by eapply histogram_for_unique|done].
Qed.

(** ** A concrete run *)
Definition expo_config : @OTLPConfig toy_attributes :=
  mkOTLP true [] true ∅ [] [] [] [] [] [] [] [] 0 None ∅ None (Some (mkExponential 4 20)) None [] [] [] false None None.

Definition lat_key : gostring * @Distinct toy_attributes := (str "lat", []).

(** Two observations whose send fails, then one more with a gauge, then an idle export. *)
Definition expo_steps : list (list (@Metric toy_attributes) * list (gostring * @Distinct toy_attributes) * Z * option error) :=
  [([], [lat_key; (str "load", [])], 3000000, None);
   ([otlp_obs "load" MetricTypeGauge 9 2000000; otlp_obs "lat" MetricTypeHistogram 40 2000000], [(str "load", []); lat_key], 2000000, None);
   ([otlp_obs "lat" MetricTypeHistogram 3 1000000; otlp_obs "lat" MetricTypeHistogram 4 1500000], [lat_key], 1500000,
    Some ErrDeadlineExceeded)].

Lemma expo_steps_run : bool_decide (is_Some (run_exec chord_log2 expo_config expo_steps)) = true.
Proof. vm_compute. reflexivity. Qed.

Lemma otlp_exponential_totals_witness :
  ∃ outs' out pt h all_at_once, fst <$> run_exec chord_log2 expo_config expo_steps = Some (outs' ++ [out]) ∧
    expo_points_of lat_key out = [pt] ∧ ep_point pt = snapshot h ∧ same_but_sum h all_at_once ∧
    record_all chord_log2 (newExpoHistogram 4 20) [f_of_Z 3; f_of_Z 4; f_of_Z 40] = Some all_at_once.
Proof.
  pose proof expo_steps_run as Hrun. destruct (run_exec chord_log2 expo_config expo_steps) as [[outs st]|] eqn:E; [|discriminate Hrun].
  pose proof (run_exec_sound chord_log2 expo_config expo_steps outs st E) as Hr.
  assert (Hall : all_recorded lat_key (rev (map (λ x, x.1.1.1) expo_steps)) = [f_of_Z 3; f_of_Z 4; f_of_Z 40]) by reflexivity.
  destruct (otlp_exponential_totals chord_log2 expo_config (mkExponential 4 20) _ outs st lat_key chord_log2_ok Hr eq_refl ltac:(done)
    eq_refl eq_refl) as (Hv & _).
  { cbn [rev map app expo_steps fst]. unfold only_histograms.
    repeat (apply Forall_cons_2 || apply Forall_nil_2); intros Hk; first [reflexivity|discriminate (f_equal fst Hk)]. }
  { rewrite Hall. repeat constructor. }
  { rewrite Hall. vm_compute. reflexivity. }
  rewrite Hall in Hv. destruct Hv as (outs' & out & pt & h & ref & -> & Hp & Hs & Hsame & Hrec); [discriminate|].
  exists outs', out, pt, h, ref. split; [reflexivity|]. split; [exact Hp|]. split; [exact Hs|]. split; [exact Hsame|exact Hrec].
Defined.
