(* ===== verification/OtlpClash.v ===== *)
(** * The OTLP exporter: one name, two kinds

    A series that was exported as a counter or a gauge and is then observed as a histogram
    of the same name and attributes: the state of the series has no buckets, addHistogram
    indexes them, and the export panics. *)

From S2P Require Import Prelude GoLib Strconv Attribute Metric DogStatsDParse Cardinality Config Expo ExpoSpec ExpoCorrect Otlp OtlpCorrect.
Local Open Scope go_scope.

Section clash.
Context `{Attributes}.
Context (log2 : float64 → float64).
Context (K : histogramKey).

Implicit Types (a : accumulation) (s : seriesState).

(** The series, if the exporter knows it, has no buckets; and the exporter knows it. *)
Definition flat (st : gmap histogramKey seriesState) : Prop := ∀ s, st !! K = Some s → hp_buckets (st_histogram s) = [].
Definition known (st : gmap histogramKey seriesState) : Prop := is_Some (st !! K).

(** A step that gives the series no buckets and does not forget it. *)
Definition tame (st st' : gmap histogramKey seriesState) : Prop := (flat st → flat st') ∧ (known st → known st').

Lemma tame_refl st : tame st st.
Proof. done. Qed.

Lemma tame_trans st1 st2 st3 : tame st1 st2 → tame st2 st3 → tame st1 st3.
Proof. intros [H1 H2] [H3 H4]. split; auto. Qed.

Lemma tame_insert st k s :
  (k = K → flat st → hp_buckets (st_histogram s) = []) → tame st (<[k := s]> st) ∧ (k = K → known (<[k := s]> st)).
Proof.
  intros Hs. split; [split|].
  - intros Hf s'. destruct (decide (k = K)) as [->|Hk]; [rewrite lookup_insert_eq; intros [= <-]; by apply Hs|].
    rewrite lookup_insert_ne by done. apply Hf.
  - unfold known. destruct (decide (k = K)) as [->|Hk]; [rewrite lookup_insert_eq; by eexists|by rewrite lookup_insert_ne].
  - intros ->. unfold known. rewrite lookup_insert_eq. by eexists.
Qed.

Lemma acc_state_flat a k t s e :
  acc_state a k t = (s, e) → (e = true ↔ is_Some (a_next a !! k)) ∧ (k = K → flat (a_next a) → hp_buckets (st_histogram s) = []).
Proof.
  unfold acc_state. destruct (a_next a !! k) as [s0|] eqn:E; intros [= <- <-].
  - split; [split; [by eexists|done]|]. intros -> Hf. by apply Hf.
  - split; [split; [done|by intros [? ?]]|done].
Qed.

Lemma times_histogram a k s t start at_ s' : times a k s t = (start, at_, s') → st_histogram s' = st_histogram s.
Proof. unfold times, pointTime. by intros [= _ _ <-]. Qed.

Lemma sumPoint_tame a meta p p' a' :
  sumPoint a meta p = (p', a') →
  a_cumulative a' = a_cumulative a ∧ tame (a_next a) (a_next a') ∧ (point_key meta (dp_attrs p) = K → known (a_next a')).
Proof.
  unfold sumPoint. destruct (acc_state _ _ _) as [s e] eqn:Es. destruct (times _ _ _ _) as [[x y] z] eqn:Et. intros [= _ <-].
  apply acc_state_flat in Es as [_ Hf]. apply times_histogram in Et. split; [done|]. cbn [store a_next].
  apply tame_insert. intros HK Ha. destruct (a_cumulative a); simpl; rewrite Et; by apply Hf.
Qed.

Lemma gaugePoint_tame a meta p :
  let a' := gaugePoint a meta p in
  a_cumulative a' = a_cumulative a ∧ tame (a_next a) (a_next a') ∧ (point_key meta (dp_attrs p) = K → known (a_next a')).
Proof.
  unfold gaugePoint. destruct (acc_state _ _ _) as [s e] eqn:Es. apply acc_state_flat in Es as [_ Hf]. split; [done|]. cbn [store a_next].
  by apply tame_insert.
Qed.

Lemma exponentialPoint_tame a meta p p' a' :
  exponentialPoint a meta p = Some (p', a') → a_cumulative a' = a_cumulative a ∧ tame (a_next a) (a_next a').
Proof.
  unfold exponentialPoint. destruct (acc_state _ _ _) as [s e] eqn:Es. destruct (if a_cumulative a && e then _ else _) as [q|]; [|done].
  cbn [mbind option_bind]. destruct (times _ _ _ _) as [[x y] z] eqn:Et. intros [= _ <-].
  apply acc_state_flat in Es as [_ Hf]. apply times_histogram in Et. split; [done|]. cbn [store a_next].
  apply tame_insert. intros HK Ha. simpl. rewrite Et. by apply Hf.
Qed.

(** A point of another series; or, when the series is known without buckets, a point
    without buckets: any other point of the series makes the export panic. *)
Lemma histogramPoint_tame a meta p p' a' :
  histogramPoint a meta p = Some (p', a') →
  a_cumulative a' = a_cumulative a ∧
  (point_key meta (hp_attrs p) ≠ K → tame (a_next a) (a_next a')) ∧
  (point_key meta (hp_attrs p) = K → a_cumulative a = true → known (a_next a) → flat (a_next a) →
     hp_buckets p = [] ∧ known (a_next a') ∧ flat (a_next a')).
Proof.
  unfold histogramPoint. destruct (acc_state _ _ _) as [s e] eqn:Es. destruct (if a_cumulative a && e then _ else _) as [q|] eqn:Eq; [|done].
  cbn [mbind option_bind]. destruct (times _ _ _ _) as [[x y] z] eqn:Et. intros [= _ <-]. split; [done|]. cbn [store a_next].
  apply acc_state_flat in Es as [He Hf]. split.
  - intros HK. by apply tame_insert.
  - intros HK Hc Hkn Hfl. unfold known in Hkn. rewrite <-HK in Hkn. apply He in Hkn. rewrite Hc, Hkn in Eq. cbn [andb identify st_histogram] in Eq.
    unfold addHistogram in Eq. rewrite (Hf HK Hfl) in Eq. destruct (hp_buckets p) as [|c cs] eqn:Eb; [|done].
    cbn [add_buckets mbind option_bind] in Eq. injection Eq as <-. split; [done|].
    split; [unfold known; rewrite HK, lookup_insert_eq; by eexists|]. intros s'. rewrite HK, lookup_insert_eq. intros [= <-].
    cbn. by rewrite Hc.
Qed.

(** ** The loop of accumulate *)

(** The histogram points of the series in a metric. *)
Definition hist_points (m : Metrics) : list HistogramDataPoint :=
  match mt_data m with
  | AHistogram _ pts => List.filter (λ p, bool_decide ((mt_name m, Equivalent (hp_attrs p)) = K)) pts
  | _ => []
  end.

(** The metric has an observation of the series as a counter or a gauge. *)
Definition scalar (m : Metrics) : Prop :=
  match mt_data m with
  | ASum _ _ pts | AGauge pts => ∃ p, p ∈ pts ∧ (mt_name m, Equivalent (dp_attrs p)) = K
  | _ => False
  end.

Lemma sum_points_tame meta d obs a pts a' pts' :
  sum_points a meta d obs pts = (a', pts') →
  a_cumulative a' = a_cumulative a ∧ tame (a_next a) (a_next a') ∧
  ((∃ p, p ∈ obs ∧ point_key meta (dp_attrs p) = K) → known (a_next a')).
Proof.
  revert a pts. induction obs as [|p obs IH]; intros a pts; simpl.
  { intros [= <- _]. split_and!; [done|apply tame_refl|]. by intros (p & ?%elem_of_nil & _). }
  destruct (sumPoint a meta p) as [p' a1] eqn:E. intros Hs. destruct (sumPoint_tame _ _ _ _ _ E) as (C1 & T1 & N1).
  destruct (IH _ _ Hs) as (C2 & T2 & N2). split_and!; [congruence|by eapply tame_trans|].
  intros (q & [->|Hq]%elem_of_cons & HK); [apply T2; by apply N1|apply N2; eauto].
Qed.

Lemma gauge_points_tame meta pts a :
  let a' := foldl (λ a p, gaugePoint a meta p) a pts in
  a_cumulative a' = a_cumulative a ∧ tame (a_next a) (a_next a') ∧
  ((∃ p, p ∈ pts ∧ point_key meta (dp_attrs p) = K) → known (a_next a')).
Proof.
  simpl. revert a. induction pts as [|p pts IH]; intros a; simpl.
  { split_and!; [done|apply tame_refl|]. by intros (p & ?%elem_of_nil & _). }
  destruct (gaugePoint_tame a meta p) as (C1 & T1 & N1). destruct (IH (gaugePoint a meta p)) as (C2 & T2 & N2).
  split_and!; [congruence|by eapply tame_trans|].
  intros (q & [->|Hq]%elem_of_cons & HK); [apply T2; by apply N1|apply N2; eauto].
Qed.

Lemma exponential_points_tame meta pts a a' pts' :
  exponential_points a meta pts = Some (a', pts') → a_cumulative a' = a_cumulative a ∧ tame (a_next a) (a_next a').
Proof.
  revert a a' pts'. induction pts as [|p pts IH]; intros a a' pts'; simpl.
  { intros [= <- _]. split; [done|apply tame_refl]. }
  intros ([p' a1] & E & ([a2 rest] & E2 & [= <- _])%bind_Some)%bind_Some.
  destruct (exponentialPoint_tame _ _ _ _ _ E) as [C1 T1]. destruct (IH _ _ _ E2) as [C2 T2].
  split; [congruence|by eapply tame_trans].
Qed.

Lemma histogram_points_tame meta pts a a' pts' :
  histogram_points a meta pts = Some (a', pts') →
  a_cumulative a' = a_cumulative a ∧
  (Forall (λ p, point_key meta (hp_attrs p) ≠ K) pts → tame (a_next a) (a_next a')) ∧
  (a_cumulative a = true → known (a_next a) → flat (a_next a) →
     known (a_next a') ∧ flat (a_next a') ∧ Forall (λ p, point_key meta (hp_attrs p) = K → hp_buckets p = []) pts).
Proof.
  revert a a' pts'. induction pts as [|p pts IH]; intros a a' pts'; simpl.
  { intros [= <- _]. split_and!; [done|intros _; apply tame_refl|done]. }
  intros ([p' a1] & E & ([a2 rest] & E2 & [= <- _])%bind_Some)%bind_Some.
  destruct (histogramPoint_tame _ _ _ _ _ E) as (C1 & T1 & N1). destruct (IH _ _ _ E2) as (C2 & T2 & N2). split_and!; [congruence| |].
  - intros [Hp Hf]%Forall_cons. eapply tame_trans; [by apply T1|by apply T2].
  - intros Hc Hk Hf. destruct (decide (point_key meta (hp_attrs p) = K)) as [HK|HK].
    + destruct (N1 HK Hc Hk Hf) as (B & K1 & F1). destruct (N2 ltac:(congruence) K1 F1) as (K2 & F2 & B2). by split_and!; [..|constructor].
    + destruct (T1 HK) as [Tf Tk]. destruct (N2 ltac:(congruence) (Tk Hk) (Tf Hf)) as (K2 & F2 & B2). by split_and!; [..|constructor].
Qed.

Lemma accumulate_step_tame m l l' :
  accumulate_step m l = Some l' →
  a_cumulative (l_acc l') = a_cumulative (l_acc l) ∧
  (hist_points m = [] → tame (a_next (l_acc l)) (a_next (l_acc l'))) ∧
  (scalar m → known (a_next (l_acc l'))) ∧
  (a_cumulative (l_acc l) = true → known (a_next (l_acc l)) → flat (a_next (l_acc l)) →
     known (a_next (l_acc l')) ∧ flat (a_next (l_acc l')) ∧ Forall (λ p, hp_buckets p = []) (hist_points m)).
Proof.
  unfold accumulate_step, scalar, hist_points. destruct (mt_data m) as [d mono pts|pts|d pts|d pts|] eqn:Ed.
  - assert (Hgo : ∀ merged sums i,
      (target ← merged !! i;
       match mt_data target with
       | ASum delta' mono' pts0 =>
           let '(a, pts') := sum_points (l_acc l) (metaOf m) delta' pts pts0 in
           Some (mkLoop a (<[i := with_data target (ASum delta' mono' pts')]> merged) sums)
       | _ => None
       end) = Some l' → ∃ d0 pts0 pts', sum_points (l_acc l) (metaOf m) d0 pts pts0 = (l_acc l', pts')).
    { intros merged sums i (target & _ & Hs)%bind_Some. destruct (mt_data target) as [d0 m0 pts0| | | |]; try done.
      destruct (sum_points _ _ _ _ _) as [a pts'] eqn:E. injection Hs as <-. eauto. }
    intros Hs. assert (He : ∃ d0 pts0 pts', sum_points (l_acc l) (metaOf m) d0 pts pts0 = (l_acc l', pts')).
    { destruct (l_sums l !! mt_name m); by apply Hgo in Hs. }
    destruct He as (d0 & pts0 & pts' & E). destruct (sum_points_tame _ _ _ _ _ _ _ E) as (C & T & N).
    split_and!; [done|done|exact N|]. intros _ Hk Hf. split_and!; [by apply T|by apply T|done].
  - intros [= <-]. cbn [l_acc]. destruct (gauge_points_tame (metaOf m) pts (l_acc l)) as (C & T & N).
    split_and!; [done|done|exact N|]. intros _ Hk Hf. split_and!; [by apply T|by apply T|done].
  - intros ([a pts'] & E & [= <-])%bind_Some. cbn [l_acc]. destruct (histogram_points_tame _ _ _ _ _ E) as (C & T & N).
    split_and!; [done| |done|].
    + intros Hf. apply T. apply Forall_forall. intros p Hp HK.
      assert (Hin : p ∈ List.filter (λ p, bool_decide ((mt_name m, Equivalent (hp_attrs p)) = K)) pts).
      { apply list_elem_of_In, filter_In. split; [by apply list_elem_of_In|by apply bool_decide_eq_true]. }
      rewrite Hf in Hin. by apply elem_of_nil in Hin.
    + intros Hc Hk Hf. destruct (N Hc Hk Hf) as (K1 & F1 & B). split_and!; [done|done|]. apply Forall_forall.
      intros p [Hp HK]%list_elem_of_In%filter_In. rewrite Forall_forall in B. apply B; [by apply list_elem_of_In|].
      by apply bool_decide_eq_true in HK.
  - intros ([a pts'] & E & [= <-])%bind_Some. cbn [l_acc]. destruct (exponential_points_tame _ _ _ _ _ E) as [C T].
    split_and!; [done|done|done|]. intros _ Hk Hf. split_and!; [by apply T|by apply T|done].
  - intros [= <-]. cbn [l_acc]. split_and!; [done|intros _; apply tame_refl|done|done].
Qed.

Lemma accumulate_loop_tame ms l l' :
  accumulate_loop ms l = Some l' →
  a_cumulative (l_acc l') = a_cumulative (l_acc l) ∧
  (Forall (λ m, hist_points m = []) ms → tame (a_next (l_acc l)) (a_next (l_acc l')) ∧ (Exists scalar ms → known (a_next (l_acc l')))) ∧
  (a_cumulative (l_acc l) = true → known (a_next (l_acc l)) → flat (a_next (l_acc l)) →
     Forall (λ m, Forall (λ p, hp_buckets p = []) (hist_points m)) ms).
Proof.
  revert l. induction ms as [|m ms IH]; intros l; simpl.
  { intros [= <-]. split_and!; [done|intros _; split; [apply tame_refl|by intros ?%Exists_nil]|done]. }
  intros (l1 & E & Hl)%bind_Some. destruct (accumulate_step_tame _ _ _ E) as (C1 & T1 & S1 & N1).
  destruct (IH l1 Hl) as (C2 & T2 & N2). split_and!; [congruence| |].
  - intros [Hm Hms]%Forall_cons. destruct (T2 Hms) as [T2' S2]. split; [by eapply tame_trans; [apply T1|]|].
    intros [Hs|Hs]%Exists_cons; [apply T2'; by apply S1|by apply S2].
  - intros Hc Hk Hf. destruct (N1 Hc Hk Hf) as (K1 & F1 & B1). constructor; [done|]. apply N2; [congruence|done|done].
Qed.

Lemma unobserved_loop_tame order now a ms a' ms' :
  unobserved_loop order now a ms = (a', ms') → tame (a_next a) (a_next a').
Proof.
  revert a ms. induction order as [|k order IH]; intros a ms; cbn [unobserved_loop]; [intros [= <- _]; apply tame_refl|].
  case_bool_decide; [apply IH|]. destruct (a_next a !! k) as [s|] eqn:Ek; [|apply IH].
  destruct (times a k s now) as [[start at_] s'] eqn:Et. intros Hl. apply IH in Hl. eapply tame_trans; [|exact Hl]. cbn [a_next].
  apply tame_insert. intros -> Hf. rewrite (times_histogram _ _ _ _ _ _ _ Et). by apply Hf.
Qed.

(** ** Conversion of batches without a histogram of the series *)
Definition never_histogram (ms : list Metric) : Prop := Forall (λ m, key_of m = K → Type_ m ≠ MetricTypeHistogram) ms.

Definition observes (ms : list Metric) : Prop :=
  Exists (λ m, key_of m = K ∧ (Type_ m = MetricTypeCounter ∨ Type_ m = MetricTypeGauge)) ms.

Lemma hist_points_free m : (∀ d pts, mt_data m = AHistogram d pts → ∀ p, p ∈ pts → (mt_name m, Equivalent (hp_attrs p)) ≠ K) → hist_points m = [].
Proof.
  intros Hf. unfold hist_points. destruct (mt_data m) as [| |d pts| |]; try done. specialize (Hf d pts eq_refl).
  induction pts as [|p pts IH]; [done|]. simpl. rewrite bool_decide_eq_false_2 by (apply Hf; by left).
  apply IH. intros q Hq. apply Hf. by right.
Qed.

Lemma convert_scalar config hs es ms added :
  hist_free K hs →
  Forall (λ m, hist_points m = []) (convert_loop config hs es ms added) ∧
  (observes ms → Exists scalar (convert_loop config hs es ms added)).
Proof.
  intros Hh. revert added. induction ms as [|m ms IH]; intros added; cbn [convert_loop]; [split; [done|by intros ?%Exists_nil]|].
  destruct (Type_ m) eqn:Et.
  - destruct (IH added) as [IH1 IH2]. split; [by constructor|]. intros [[HK _]|Ho]%Exists_cons; [left|right; auto].
    unfold scalar. simpl. eexists. split; [by left|exact HK].
  - destruct (IH added) as [IH1 IH2]. split; [by constructor|]. intros [[HK _]|Ho]%Exists_cons; [left|right; auto].
    unfold scalar. simpl. eexists. split; [by left|exact HK].
  - case_bool_decide.
    { destruct (IH added) as [IH1 IH2]. split; [done|]. intros [[_ [?|?]]|Ho]%Exists_cons; [congruence|congruence|auto]. }
    destruct (IH ({[Name m]} ∪ added)) as [IH1 IH2]. split.
    + constructor; [|done]. apply hist_points_free. intros d pts. simpl. destruct (es !! Name m); [done|]. intros [= _ <-] p Hp.
      destruct (hs !! Name m) as [pts|] eqn:E; [by apply (Hh _ _ p E)|by apply elem_of_nil in Hp].
    + intros [[_ [?|?]]|Ho]%Exists_cons; [congruence|congruence|right; auto].
  - destruct (IH added) as [IH1 IH2]. split; [done|]. intros [[_ [?|?]]|Ho]%Exists_cons; [congruence|congruence|auto].
Qed.

Lemma conversion_scalar config ms bounds rm :
  never_histogram ms → toResourceMetricsWithConfig log2 config ms bounds = Some rm →
  Forall (λ m, hist_points m = []) rm ∧ (observes ms → Exists scalar rm).
Proof.
  intros Hn. unfold toResourceMetricsWithConfig, explicitHistograms.
  intros (hs & (x & Ex & [= <-])%bind_Some & (es & _ & [= <-])%bind_Some)%bind_Some. apply convert_scalar.
  apply attach_free. eapply explicit_loop_free; [| |exact Ex].
  - eapply Forall_impl; [exact Hn|]. intros m Hm HK. left. auto.
  - intros n pts p. cbn [x_histograms]. by rewrite lookup_empty.
Qed.

(** ** Runs: a series known only as a counter or a gauge has no buckets *)
Lemma run_flat config bs outs st :
  run log2 config bs outs st → o_Temporality config ≠ Delta → o_Enabled config = true → Forall never_histogram bs →
  flat (default ∅ st) ∧ (Exists observes bs → known (default ∅ st)).
Proof.
  intros Hr Ht He. induction Hr as [|bs outs st ms order now send out st' err Hr IH Hx Hen|bs outs st ms order now send st' err Hr IH Hx]; intros Hn.
  { split; [|by intros ?%Exists_nil]. intros s. cbn. by rewrite lookup_empty. }
  - apply Forall_app in Hn as [Hn Hm]. rewrite Forall_singleton in Hm. destruct (IH Hn) as [Hf Hk].
    destruct (export_sends _ _ _ _ _ _ _ _ _ _ Hx) as (rm & Hrm & Hacc). change (default ∅ (Some st')) with st'.
    destruct (conversion_scalar _ _ _ _ Hm Hrm) as [Hfree Hsc]. unfold accumulate in Hacc.
    apply bind_Some in Hacc as (l & El & Hacc). destruct (accumulate_loop_tame _ _ _ El) as (_ & T & _). cbn [l_acc a_next] in T.
    destruct (T Hfree) as [T1 S1]. unfold unobserved in Hacc.
    assert (T2 : tame (a_next (l_acc l)) st').
    { destruct (a_cumulative (l_acc l)); [|by injection Hacc as _ <-].
      destruct (unobserved_loop _ _ _ _) as [a' out'] eqn:Eu. injection Hacc as _ <-. by eapply unobserved_loop_tame. }
    split; [by apply T2, T1|]. intros [Ho|Ho]%Exists_app; [by apply T2, T1, Hk|].
    apply Exists_cons in Ho as [Ho|?%Exists_nil]; [|done]. by apply T2, S1, Hsc.
  - apply Forall_app in Hn as [Hn _]. destruct (IH Hn) as [Hf Hk]. destruct (export_idle_spec _ _ _ _ _ _ _ _ _ Hx) as [-> Hms].
    split; [done|]. intros [Ho|Ho]%Exists_app; [by apply Hk|]. apply Exists_cons in Ho as [Ho|?%Exists_nil]; [|done].
    rewrite (Hms He) in Ho. by apply Exists_nil in Ho.
Qed.

(** ** Conversion of a batch with a histogram of the series *)

(** Every series indexed has its point, with buckets. *)
Definition indexed (x : explicit_state) : Prop :=
  ∀ (key : histogramKey) i, x_indexes x !! key = Some i →
    ∃ pts p, x_histograms x !! key.1 = Some pts ∧ pts !! i = Some p ∧ Equivalent (hp_attrs p) = key.2 ∧ hp_buckets p ≠ [].

Lemma explicit_step_indexed config g m x x' :
  indexed x → explicit_step config g m x = Some x' →
  indexed x' ∧ is_Some (x_indexes x' !! key_of m) ∧ (∀ key, is_Some (x_indexes x !! key) → is_Some (x_indexes x' !! key)).
Proof.
  intros Hi. unfold explicit_step. set (bounds := BucketsFor _ _ _). set (bucket := sort_Search _ _). set (old := default [] _).
  destruct (match x_indexes x !! key_of m with Some _ => _ | None => _ end) as [[points indexes] index] eqn:Ei.
  intros (p & Ep & (c & _ & (e & _ & [= <-])%bind_Some)%bind_Some)%bind_Some. unfold indexed. cbn [x_indexes x_histograms].
  (** The points before this one is updated. *)
  assert (Hpre : indexes !! key_of m = Some index ∧ (∀ key, is_Some (x_indexes x !! key) → is_Some (indexes !! key)) ∧
    ∀ (key : histogramKey) i, indexes !! key = Some i →
      ∃ pts p, (if decide (key.1 = Name m) then Some points else x_histograms x !! key.1) = Some pts ∧ pts !! i = Some p ∧
        Equivalent (hp_attrs p) = key.2 ∧ hp_buckets p ≠ []).
  { destruct (x_indexes x !! key_of m) as [j|] eqn:Ej; injection Ei as <- <- <-.
    - split_and!; [done|done|]. intros key i Hk. destruct (Hi key i Hk) as (pts & q & H1 & H2). exists pts, q. split; [|done].
      case_decide as En; [|done]. unfold old. rewrite <-En, H1. done.
    - split_and!; [by rewrite lookup_insert_eq| |].
      + intros key [i Hk]. destruct (decide (key = key_of m)) as [->|]; [by rewrite lookup_insert_eq|rewrite lookup_insert_ne by done; by eexists].
      + intros key i. destruct (decide (key = key_of m)) as [->|Hne].
        * rewrite lookup_insert_eq. intros [= <-]. eexists _, _. rewrite decide_True by done. split; [done|].
          split; [by apply list_lookup_middle|]. split; [done|]. unfold new_point. cbn [hp_buckets]. done.
        * rewrite lookup_insert_ne by done. intros Hk. destruct (Hi key i Hk) as (pts & q & H1 & H2 & H3). case_decide as En.
          -- exists (old ++ [new_point m bounds]), q. split; [done|]. split; [|done]. apply lookup_app_l_Some. unfold old. by rewrite <-En, H1.
          -- exists pts, q. done. }
  destruct Hpre as (P1 & P2 & P3). split_and!; [|by rewrite P1|done].
  intros key i Hk. destruct (P3 key i Hk) as (pts & q & H1 & H2 & H3 & H4). case_decide as En.
  - injection H1 as <-. rewrite En, lookup_insert_eq. exists (<[index := observe_point m bucket p]> points). destruct (decide (i = index)) as [->|Hne].
    + exists (observe_point m bucket p). split; [done|]. assert (p = q) as -> by congruence.
      split; [apply list_lookup_insert_eq; by eapply lookup_lt_Some|]. split; [done|]. unfold observe_point. cbn [hp_buckets].
      intros Hb. apply H4. apply (f_equal length) in Hb. rewrite length_alter in Hb. by destruct (hp_buckets q).
    + exists q. split; [done|]. by rewrite list_lookup_insert_ne.
  - rewrite lookup_insert_ne by done. by exists pts, q.
Qed.

Lemma explicit_loop_indexed config g ms x x' :
  indexed x → explicit_loop config g ms x = Some x' →
  indexed x' ∧ (∀ key, is_Some (x_indexes x !! key) → is_Some (x_indexes x' !! key)) ∧
  (usesExponential config K.1 = false → Exists (λ m, key_of m = K ∧ Type_ m = MetricTypeHistogram) ms → is_Some (x_indexes x' !! K)).
Proof.
  revert x. induction ms as [|m ms IH]; intros x Hi; simpl; [intros [= <-]; split_and!; [done|done|by intros _ ?%Exists_nil]|].
  destruct (negb _ || _) eqn:E.
  - intros Hl. destruct (IH x Hi Hl) as (I1 & I2 & I3). split_and!; [done|done|]. intros Hu [[HK Ht]|Ho]%Exists_cons; [|by apply I3].
    apply orb_true_iff in E as [E|E]; [by rewrite bool_decide_eq_true_2 in E|]. rewrite <-HK in Hu. cbn [key_of fst] in Hu. congruence.
  - intros (x1 & E1 & Hl)%bind_Some. destruct (explicit_step_indexed _ _ _ _ _ Hi E1) as (J1 & J2 & J3).
    destruct (IH x1 J1 Hl) as (I1 & I2 & I3). split_and!; [done|by auto|]. intros Hu [[HK Ht]|Ho]%Exists_cons; [|by apply I3].
    rewrite <-HK. by apply I2.
Qed.

(** A histogram point of the series, with buckets. *)
Definition has_buckets (hs : gmap gostring (list HistogramDataPoint)) : Prop :=
  ∃ pts p, hs !! K.1 = Some pts ∧ p ∈ pts ∧ Equivalent (hp_attrs p) = K.2 ∧ hp_buckets p ≠ [].

Lemma attach_buckets b hs idx : has_buckets hs → has_buckets (attach b hs idx).
Proof.
  intros Hf. unfold attach. apply (map_fold_weak_ind (λ r _, has_buckets r)); [done|].
  intros key slots b' hs' _ (pts & p & H1 & H2 & H3 & H4). destruct (decide (key.1 = K.1)) as [En|En].
  - apply list_elem_of_lookup in H2 as [i Hi]. set (j := default 0%nat (idx !! key)). unfold has_buckets. rewrite En, lookup_alter_eq, H1.
    exists (alter (attach_exemplars slots) j pts). destruct (decide (j = i)) as [Ej|Ej].
    + exists (attach_exemplars slots p). split_and!; [done| |done|done]. apply list_elem_of_lookup. exists i.
      rewrite Ej, list_lookup_alter_eq. by rewrite Hi.
    + exists p. split_and!; [done| |done|done]. apply list_elem_of_lookup. exists i. by rewrite list_lookup_alter_ne.
  - exists pts, p. rewrite lookup_alter_ne by done. done.
Qed.

Lemma exponential_loop_names config settings ms y y' :
  (∀ n, is_Some (y_names y !! n) → usesExponential config n = true) → exponential_loop log2 config settings ms y = Some y' →
  ∀ n, is_Some (y_names y' !! n) → usesExponential config n = true.
Proof.
  revert y. induction ms as [|m ms IH]; intros y Hn; simpl; [by intros [= <-]|].
  destruct (negb (bool_decide _) || _) eqn:E; [by apply IH|]. apply orb_false_iff in E as [_ E]. apply negb_false_iff in E.
  destruct (match y_series y !! key_of m with Some _ => _ | None => _ end) as [names series] eqn:Ey.
  intros (s' & _ & Hl)%bind_Some. refine (IH _ _ Hl). cbn [y_names]. intros n.
  destruct (y_series y !! key_of m); injection Ey as <- _; [apply Hn|].
  destruct (decide (n = Name m)) as [->|]; [done|]. rewrite lookup_insert_ne by done. apply Hn.
Qed.

Lemma convert_histogram config hs es ms added :
  has_buckets hs → es !! K.1 = None → K.1 ∉ added → Exists (λ m, key_of m = K ∧ Type_ m = MetricTypeHistogram) ms →
  ¬ Forall (λ m, Forall (λ p, hp_buckets p = []) (hist_points m)) (convert_loop config hs es ms added).
Proof.
  intros (pts & p & H1 & H2 & H3 & H4) He. revert added. induction ms as [|m ms IH]; intros added Ha Hx; [by apply Exists_nil in Hx|].
  cbn [convert_loop]. apply Exists_cons in Hx. destruct (Type_ m) eqn:Et.
  - intros [_ Hf]%Forall_cons. destruct Hx as [[_ ?]|Hx]; [done|]. by apply (IH added).
  - intros [_ Hf]%Forall_cons. destruct Hx as [[_ ?]|Hx]; [done|]. by apply (IH added).
  - destruct (decide (Name m = K.1)) as [En|En].
    + rewrite bool_decide_eq_false_2 by (by rewrite En). intros [Hf _]%Forall_cons. rewrite En, He, H1 in Hf. unfold hist_points in Hf.
      cbn [mt_data mt_name default] in Hf. rewrite Forall_forall in Hf. apply H4, Hf. apply list_elem_of_In, filter_In.
      split; [by apply list_elem_of_In|]. apply bool_decide_eq_true. rewrite H3. by destruct K.
    + assert (Hx' : Exists (λ m, key_of m = K ∧ Type_ m = MetricTypeHistogram) ms).
      { destruct Hx as [[HK _]|]; [|done]. destruct En. by rewrite <-HK. }
      case_bool_decide; [by apply IH|]. intros [_ Hf]%Forall_cons. by apply (IH ({[Name m]} ∪ added)); [set_solver|..].
  - destruct Hx as [[_ ?]|Hx]; [done|]. by apply IH.
Qed.

(** C23. One name used for two kinds.  In every run of exports with cumulative temporality,
    once a series was observed as a counter or a gauge and never as a histogram, an export
    of any batch that has a histogram observation of the same name and attributes, in
    explicit buckets, panics, whatever else the batch holds, the time, the transport and the
    order of the states: the state of the series has no buckets, and addHistogram indexes
    them.  The state is not replaced, so no later export of such a batch succeeds either. *)
Theorem otlp_kind_clash_panics config bs outs st :
  run log2 config bs outs st → o_Enabled config = true → o_Temporality config ≠ Delta → usesExponential config K.1 = false →
  Forall never_histogram bs → Exists observes bs →
  ∀ ms order now send, Exists (λ m, key_of m = K ∧ Type_ m = MetricTypeHistogram) ms →
    export log2 config order now send st ms = None.
Proof.
  intros Hr He Ht Hu Hn Ho ms order now send Hx. destruct (run_flat config bs outs st Hr Ht He Hn) as [Hf Hk]. specialize (Hk Ho).
  destruct (export log2 config order now send st ms) as [[[out st'] err]|] eqn:E; [|done]. exfalso. unfold export in E. rewrite He in E. cbn [negb] in E.
  apply bind_Some in E as (rm & Hrm & E). apply bind_Some in E as ([o n] & Hacc & _). unfold accumulate in Hacc.
  apply bind_Some in Hacc as (l & El & _). destruct (accumulate_loop_tame _ _ _ El) as (_ & _ & N). cbn [l_acc a_next a_cumulative] in N.
  rewrite bool_decide_eq_false_2 in N by done. specialize (N eq_refl Hk Hf).
  unfold toResourceMetricsWithConfig, explicitHistograms in Hrm.
  apply bind_Some in Hrm as (hs & (x & Ex & [= <-])%bind_Some & (es & Ee & [= <-])%bind_Some).
  assert (J0 : indexed (mkExplicit ∅ ∅ ∅)) by (intros key i; cbn [x_indexes]; by rewrite lookup_empty).
  destruct (explicit_loop_indexed _ _ _ _ _ J0 Ex) as (J1 & _ & J3).
  destruct (J3 Hu Hx) as [i Hi]. destruct (J1 K i Hi) as (pts & p & P1 & P2 & P3 & P4).
  revert N. apply convert_histogram; [|..|done].
  - apply attach_buckets. exists pts, p. split_and!; [done|by eapply list_elem_of_lookup_2|done|done].
  - unfold exponentialHistograms in Ee. destruct (o_ExponentialHistogram config) as [h|]; [|injection Ee as <-; apply lookup_empty].
    apply bind_Some in Ee as (y & Ey & [= <-]). rewrite lookup_fmap. destruct (y_names y !! K.1) eqn:En; [|done].
    assert (usesExponential config K.1 = true); [|congruence].
    eapply (exponential_loop_names config _ ms _ y); [|exact Ey|by rewrite En]. intros n0 [? Hx0]. cbn [y_names] in Hx0. by rewrite lookup_empty in Hx0.
  - set_solver.
Qed.

End clash.

(** ** A concrete run *)
Definition clash_steps : list (list (@Metric toy_attributes) * list (gostring * @Distinct toy_attributes) * Z * option error) :=
  [([otlp_obs "load" MetricTypeGauge 9 2000000], [(str "load", []); (str "req", [])], 2000000, None);
   ([otlp_obs "req" MetricTypeCounter 3 1000000], [(str "req", [])], 1500000, None)].

Lemma clash_steps_run : bool_decide (is_Some (run_exec chord_log2 (otlp_config []) clash_steps)) = true.
Proof. vm_compute. reflexivity. Qed.

Lemma otlp_kind_clash_panics_witness :
  ∃ outs st, run_exec chord_log2 (otlp_config []) clash_steps = Some (outs, st)
    ∧ ∀ order now send, export chord_log2 (otlp_config []) order now send st
        [otlp_obs "load" MetricTypeGauge 1 3000000; otlp_obs "req" MetricTypeHistogram 5 3500000] = None.
Proof.
  pose proof clash_steps_run as Hrun. destruct (run_exec chord_log2 (otlp_config []) clash_steps) as [[outs st]|] eqn:E; [|discriminate Hrun].
  exists outs, st. split; [reflexivity|]. intros order now send.
  refine (otlp_kind_clash_panics chord_log2 req_key (otlp_config []) _ outs st (run_exec_sound chord_log2 (otlp_config []) clash_steps outs st E)
    eq_refl _ eq_refl _ _ _ order now send _).
  - discriminate.
  - cbn [rev map app clash_steps fst]. unfold never_histogram.
    repeat (apply Forall_cons_2 || apply Forall_nil_2); intros _; discriminate.
  - cbn [rev map app clash_steps fst]. apply Exists_cons. left. apply Exists_cons. left. split; [reflexivity|left; reflexivity].
  - apply Exists_cons. right. apply Exists_cons. left. split; reflexivity.
Defined.
