(* ===== verification/Client.v ===== *)
(** * The client (client.go, client_lifecycle.go, client_event.go, context_tags.go,
      clock.go, observe.go, noop.go, version_metrics.go, version/version.go)

    A [Client] is a handle (prefix, tags, root) on a core that every view shares.  The
    pipeline below is an interface, [Pipelines]: programs over actions of its own, which
    [Pipe] embeds in the actions of the client; [pipeline_instance] is the pipeline of
    [Pipeline].  The RWMutex of the core, its two sync.Once, the tag sets carried by
    contexts and the metric pool are shared state; a blocked action has no outcome.
    Two actions without effect, [CallRecord] and [CallShutdown], with [RecordReturned],
    write the history of the calls the client makes to the pipeline. *)

From S2P Require Import Prelude GoLib Strings Atomic Attribute Metric Cardinality DogStatsD Config Options Pipeline.
#[local] Open Scope prog_scope.

(** ** Names *)

Definition nonempty (s : gostring) : bool := negb (len s =? 0).

(** joinName: the non-empty parts, joined with a dot. *)
Definition joinName (parts : list gostring) : gostring := join [byte_of 46] (List.filter nonempty parts).

Definition validateMetricName (name : gostring) : option error :=
  if len name =? 0 then Some (ErrWrapAfter (ErrIs ErrInvalidConfig) (str "metric name cannot be empty"))
  else if 256 <? len name
  then Some (ErrWrapAfter (ErrIs ErrInvalidConfig) (str "metric name exceeds maximum length (256 characters)"))
  else None.

Definition validateMetricInput (name : gostring) (value : float64) : option error :=
  match validateMetricName name with
  | Some err => Some err
  | None =>
      if is_nan value then Some (ErrWrapAfter (ErrIs ErrInvalidConfig) (str "metric value cannot be NaN"))
      else if is_inf value then Some (ErrWrapAfter (ErrIs ErrInvalidConfig) (str "metric value cannot be Inf"))
      else None
  end.

(** ** Versions (version/version.go, version_metrics.go) *)
Definition ModulePath : gostring := str "github.com/convoy-road-trips-app/stats".
Definition Unknown : gostring := str "(devel)".

(** debug.Module: path, version, and the version of a replacement. *)
Record Module_ := mkModule { mod_Path : gostring; mod_Version : gostring; mod_Replace : option gostring }.
Record BuildInfo := mkBuildInfo { bi_Main : Module_; bi_Deps : list Module_ }.

(** The loop over the dependencies, which the first one of the module's path ends. *)
Fixpoint deps_version (vsn : gostring) (deps : list Module_) : gostring :=
  match deps with
  | [] => vsn
  | dep :: rest =>
      if negb (gostring_eqb (mod_Path dep) ModulePath) then deps_version vsn rest
      else match mod_Replace dep with
           | Some v => if negb (len v =? 0) then v else if negb (len (mod_Version dep) =? 0) then mod_Version dep else vsn
           | None => if negb (len (mod_Version dep) =? 0) then mod_Version dep else vsn
           end
  end.

(** moduleVersion; [None] is a program without build information. *)
Definition moduleVersion (info : option BuildInfo) : gostring :=
  match info with
  | None => Unknown
  | Some info =>
      let vsn := if gostring_eqb (mod_Path (bi_Main info)) ModulePath && negb (len (mod_Version (bi_Main info)) =? 0)
                 then mod_Version (bi_Main info) else Unknown in
      deps_version vsn (bi_Deps info)
  end.

(** What the program was built with: the build information and runtime.Version(). *)
Record Build := mkBuild { build_info : option BuildInfo; runtime_Version : gostring }.
Definition Version (b : Build) : gostring := moduleVersion (build_info b).
Definition GoVersion (b : Build) : gostring := trim_prefix (runtime_Version b) (str "go").
Definition isDevel (vsn : gostring) : bool := (2 <? count_byte vsn (byte_of 32)) || has_prefix vsn (str "devel").
Definition DevelGoVersion (b : Build) : bool := isDevel (GoVersion b).

Definition envDisableVersionReporting : gostring := str "STATS_DISABLE_GO_VERSION_REPORTING".

(** [option_] is cfg.VersionReporting, [env] the value of the variable. *)
Definition versionReportingEnabled (option_ : option bool) (env : gostring) : bool :=
  match option_ with
  | Some enabled => enabled
  | None => negb (bool_decide (TrimSpace env ∈ str <$> ["true"; "TRUE"; "yes"; "1"; "on"]))
  end.

Definition statsVersionMetric : gostring := str "stats_version".
Definition goVersionMetric : gostring := str "go_version".

(** ** What the client expects of a pipeline

    Record may be cut off while it still retries ([None]); the sender is the exporter
    named datadog when it can deliver events, with the outcomes a delivery may have. *)
Class Pipelines `{Attributes} := {
  pact : Type → Type;
  pstate : Type;
  phandle : ∀ B, pact B → pstate → list (B * pstate);
  p_Record : SpanContext → Metric → prog pact (option (option error));
  p_Flush : nat → prog pact (option error);
  p_Shutdown : nat → prog pact (option error);
  p_Stats : prog pact Pipeline.PipelineStats;
  p_RecordExporterError : gostring → prog pact unit;
  p_sender : option (option Z → DatadogEvent → list Pipeline.outcome) }.

Definition datadogExporterName : gostring := str "datadog".

(** The pipeline of [Pipeline]: [as_sender] is the type assertion to eventExporter. *)
Definition pipeline_instance `{Attributes} (cfg : Pipeline.Config) (xs : list Pipeline.Exporter) (workers fuel : nat)
    (as_sender : Pipeline.Exporter → option (option Z → DatadogEvent → list Pipeline.outcome)) : Pipelines := {|
  pact := Pipeline.act;
  pstate := Pipeline.state;
  phandle := Pipeline.handle;
  p_Record := Pipeline.Record_ cfg fuel;
  p_Flush := Pipeline.Flush workers;
  p_Shutdown := Pipeline.Shutdown xs workers;
  p_Stats := Pipeline.Stats cfg xs (Z.of_nat workers);
  p_RecordExporterError := Pipeline.RecordExporterError xs;
  p_sender := Pipeline.exporter datadogExporterName xs ≫= as_sender |}.

Section client.
Context `{Pipelines}.

(** ** State *)

(** The fields of clientCore that never change.  [collector] holds the outcomes Stop may
    have; [build] is what the program was built with. *)
Record clientCore := mkCore {
  cfg : Config; disabled : bool; reportVersions : bool; collector : option (nat → list (option error)); build : Build }.

(** A handle; the core is the one of the running program. *)
Record Client := mkClient { prefix : gostring; tags : list KeyValue; root : bool }.

(** A context: its number for the pipeline, the span it carries, and the address of the
    tag set it carries. *)
Record Context_ := mkContext { ctx_id : nat; ctx_span : SpanContext; ctx_tags : option nat }.
Definition Background : Context_ := mkContext 0 (mkSpan 0 0 false) None.

(** sync.Once *)
Inductive once := Fresh | Busy | Complete.
Inductive which := shutdownOnce | versionOnce.

(** The history of the calls to the pipeline. *)
Inductive event := EvRecord (m : Metric) | EvRecorded | EvShutdown.

(** [readers] and [writer] are the RWMutex; a waiting writer does not hold back readers
    here, so there are more interleavings than the mutex allows. *)
Record state := mkState {
  readers : nat; writer : bool; closed : bool; shutdown_once : once; version_once : once;
  eventsDropped : Z; tag_sets : gmap nat (list KeyValue); pool : list Metric; wall : Z;
  pipe : pstate; history : list event }.

Definition set_mutex s r w := mkState r w (closed s) (shutdown_once s) (version_once s) (eventsDropped s) (tag_sets s) (pool s) (wall s) (pipe s) (history s).
Definition set_closed s b := mkState (readers s) (writer s) b (shutdown_once s) (version_once s) (eventsDropped s) (tag_sets s) (pool s) (wall s) (pipe s) (history s).
Definition set_once s (w : which) o :=
  match w with
  | shutdownOnce => mkState (readers s) (writer s) (closed s) o (version_once s) (eventsDropped s) (tag_sets s) (pool s) (wall s) (pipe s) (history s)
  | versionOnce => mkState (readers s) (writer s) (closed s) (shutdown_once s) o (eventsDropped s) (tag_sets s) (pool s) (wall s) (pipe s) (history s)
  end.
Definition set_dropped s n := mkState (readers s) (writer s) (closed s) (shutdown_once s) (version_once s) n (tag_sets s) (pool s) (wall s) (pipe s) (history s).
Definition set_tags s t := mkState (readers s) (writer s) (closed s) (shutdown_once s) (version_once s) (eventsDropped s) t (pool s) (wall s) (pipe s) (history s).
Definition set_pool s p := mkState (readers s) (writer s) (closed s) (shutdown_once s) (version_once s) (eventsDropped s) (tag_sets s) p (wall s) (pipe s) (history s).
Definition set_wall s t := mkState (readers s) (writer s) (closed s) (shutdown_once s) (version_once s) (eventsDropped s) (tag_sets s) (pool s) t (pipe s) (history s).
Definition set_pipe s p := mkState (readers s) (writer s) (closed s) (shutdown_once s) (version_once s) (eventsDropped s) (tag_sets s) (pool s) (wall s) p (history s).
Definition add_history s e := mkState (readers s) (writer s) (closed s) (shutdown_once s) (version_once s) (eventsDropped s) (tag_sets s) (pool s) (wall s) (pipe s) (history s ++ [e]).

Definition once_of (s : state) (w : which) : once :=
  match w with shutdownOnce => shutdown_once s | versionOnce => version_once s end.

(** The state of the core NewClient builds around a started pipeline. *)
Definition new_core (p : pstate) (now : Z) : state :=
  mkState 0 false false Fresh Fresh 0 ∅ [] now p [].

(** ** Atomic actions *)
Inductive act : Type → Type :=
| RLock : act unit
| RUnlock : act unit
| Lock : act unit
| Unlock : act unit
| LoadClosed : act bool
| SetClosed : act unit
| OnceEnter (w : which) : act bool                   (* true: the caller runs the function *)
| OnceExit (w : which) : act unit
| NewTags (kvs : list KeyValue) : act nat            (* &contextTags{...} *)
| AppendTags (ref : nat) (kvs : list KeyValue) : act unit
| LoadTags (ref : nat) : act (list KeyValue)
| Now : act Z
| PoolGet : act (option Metric)
| PoolPut (m : Metric) : act unit
| StopCollector (stop : nat → list (option error)) (ctx : nat) : act (option error)
| Deliver (send : option Z → DatadogEvent → list Pipeline.outcome) (timeout : option Z) (ev : DatadogEvent) :
    act Pipeline.outcome
| AddEventsDropped : act unit
| LoadEventsDropped : act Z
| Pipe {B} (e : pact B) : act B
| CallRecord (m : Metric) : act unit
| RecordReturned : act unit
| CallShutdown : act unit.

(** sync.Pool: Get finds nothing, or takes one of the metrics put back. *)
Fixpoint pool_outcomes (before after : list Metric) (s : state) : list (option Metric * state) :=
  match after with
  | [] => []
  | m :: rest => (Some m, set_pool s (before ++ rest)) :: pool_outcomes (before ++ [m]) rest s
  end.

Definition handle (B : Type) (e : act B) (s : state) : list (B * state) :=
  match e in act B return list (B * state) with
  | RLock => if writer s then [] else [(tt, set_mutex s (S (readers s)) (writer s))]
  | RUnlock => [(tt, set_mutex s (pred (readers s)) (writer s))]
  | Lock => if writer s || negb (Nat.eqb (readers s) 0) then [] else [(tt, set_mutex s (readers s) true)]
  | Unlock => [(tt, set_mutex s (readers s) false)]
  | LoadClosed => [(closed s, s)]
  | SetClosed => [(tt, set_closed s true)]
  | OnceEnter w => match once_of s w with
                   | Fresh => [(true, set_once s w Busy)]
                   | Busy => []
                   | Complete => [(false, s)]
                   end
  | OnceExit w => [(tt, set_once s w Complete)]
  | NewTags kvs => let ref := fresh (dom (tag_sets s)) in [(ref, set_tags s (<[ref := kvs]> (tag_sets s)))]
  | AppendTags ref kvs => [(tt, set_tags s (<[ref := default [] (tag_sets s !! ref) ++ kvs]> (tag_sets s)))]
  | LoadTags ref => [(default [] (tag_sets s !! ref), s)]
  | Now => [(wall s, s)]
  | PoolGet => (None, s) :: pool_outcomes [] (pool s) s
  | PoolPut m => [(tt, set_pool s (m :: pool s))]
  | StopCollector stop ctx => (λ e, (e, s)) <$> stop ctx
  | Deliver send timeout ev => (λ o, (o, s)) <$> send timeout ev
  | AddEventsDropped => [(tt, set_dropped s (u64 (eventsDropped s + 1)))]
  | LoadEventsDropped => [(eventsDropped s, s)]
  | Pipe e => (λ r, (r.1, set_pipe s r.2)) <$> phandle _ e (pipe s)
  | CallRecord m => [(tt, add_history s (EvRecord m))]
  | RecordReturned => [(tt, add_history s EvRecorded)]
  | CallShutdown => [(tt, add_history s EvShutdown)]
  end.

#[local] Notation "'let!' x := e ; k" := (@Act act _ _ e (λ x, k)) : prog_scope.
#[local] Notation "'run!' e ; k" := (@Act act _ _ e (λ _, k)) : prog_scope.
(** Calls that the pipeline cut off do not return. *)
#[local] Notation "'let?' x := p ; k" := (bind p (λ r, match r with Some x => k | None => Ret None end))
  (at level 10, x name, p at level 100, k at level 200) : prog_scope.

Definition pipeline {A} (p : prog pact A) : prog act A := lift (@Pipe) p.

(** A call of pipeline.Record, with its ends in the history. *)
Definition pipeline_Record (span : SpanContext) (m : Metric) : prog act (option (option error)) :=
  run! CallRecord m;
  let? err := pipeline (p_Record span m);
  run! RecordReturned;
  Ret (Some err).

(** ** Context tags (context_tags.go) *)
Definition ContextWithTags (ctx : Context_) (kvs : list KeyValue) : prog act Context_ :=
  let! ref := NewTags kvs;
  Ret (mkContext (ctx_id ctx) (ctx_span ctx) (Some ref)).

Definition ContextAddTags (ctx : Context_) (kvs : list KeyValue) : prog act bool :=
  match ctx_tags ctx with
  | None => Ret false
  | Some ref => run! AppendTags ref kvs; Ret true
  end.

Definition ContextTags (ctx : Context_) : prog act (option (list KeyValue)) :=
  match ctx_tags ctx with
  | None => Ret None
  | Some ref => let! kvs := LoadTags ref; Ret (Some kvs)
  end.

(** ** Views *)
Definition zero_metric : Metric := mkMetric [] MetricTypeCounter f_zero [] 0 0 0 0 [] [].

Definition apply_options (opts : list MetricOption) (m : Metric) : Metric := foldl (λ m opt, opt m) m opts.

Definition view (c : Client) (opts : list MetricOption) : Client :=
  let scratch := apply_options opts zero_metric in
  mkClient (prefix c) (tags c ++ Attributes_ scratch) false.

Definition WithPrefix (c : Client) (pre : gostring) (opts : list MetricOption) : Client :=
  let v := view c opts in
  mkClient (joinName [prefix c; pre]) (tags v) (root v).

Definition WithTags (c : Client) (opts : list MetricOption) : Client := view c opts.

(** ** Recording *)
Section core.
Context (core : clientCore).

(** resolveAttrs: view tags, then the tags of the context, then what is there. *)
Definition resolveAttrs (c : Client) (ctx : Context_) (existing : list KeyValue) : prog act (list KeyValue) :=
  match ctx_tags ctx with
  | Some ref => let! ct := LoadTags ref; Ret (tags c ++ (ct ++ existing))
  | None => Ret (tags c ++ existing)
  end.

Definition with_name (n : gostring) (m : Metric) : Metric :=
  mkMetric n (Type_ m) (Value m) (Attributes_ m) (Timestamp m) (Priority m) (TraceID m) (SpanID m)
    (Description m) (Unit m).

Definition isClosed : prog act bool :=
  run! RLock;
  let! b := LoadClosed;
  run! RUnlock;
  Ret b.

Definition ReleaseMetric (m : Metric) : prog act unit := run! PoolPut m; Ret tt.

(** recordVersionGauge: the attributes are those of the service and the version. *)
Definition recordVersionGauge (name version : gostring) (service : list KeyValue) : prog act (option unit) :=
  let! pooled := PoolGet;
  let m := AcquireMetric pooled in
  let m := mkMetric name MetricTypeGauge f_one (Attributes_ m ++ service ++ [String_kv name version])
             (Timestamp m) (Priority m) (TraceID m) (SpanID m) (Description m) (Unit m) in
  let? err := pipeline_Record (ctx_span Background) m;
  match err with
  | Some _ => run@ ReleaseMetric m; Ret (Some tt)
  | None => Ret (Some tt)
  end.

Definition service_attrs : list KeyValue :=
  [String_kv (str "service") (ServiceName (cfg core)); String_kv (str "environment") (Environment (cfg core))].

Definition reportVersionsOnce : prog act (option unit) :=
  if negb (reportVersions core) then Ret (Some tt)
  else
    let! first := OnceEnter versionOnce;
    if negb first then Ret (Some tt)
    else
      let? u := recordVersionGauge statsVersionMetric (Version (build core)) service_attrs;
      let? u := (if negb (DevelGoVersion (build core))
                 then recordVersionGauge goVersionMetric (runtime_Version (build core)) service_attrs
                 else Ret (Some tt));
      run! OnceExit versionOnce;
      Ret (Some tt).

(** record: the error, and the metric as the caller finds it after one (the pipeline may
    also have made its attributes canonical). *)
Definition record (c : Client) (ctx : Context_) (m : Metric) (opts : list MetricOption) :
    prog act (option (option error * Metric)) :=
  if disabled core then Ret (Some (None, m))
  else
    run! RLock;
    let! b := LoadClosed;
    if b then run! RUnlock; Ret (Some (Some (ErrIs ErrClientClosed), m))
    else
      let name := Name m in
      let m := with_name (joinName [prefix c; name]) m in
      match validateMetricName (Name m) with
      | Some err => run! RUnlock; Ret (Some (Some err, with_name name m))
      | None =>
          let@ attrs := resolveAttrs c ctx (Attributes_ m);
          let m := apply_options opts (with_attrs attrs m) in
          let? err := pipeline_Record (ctx_span ctx) m;
          match err with
          | Some err => run! RUnlock; Ret (Some (Some err, with_name name m))
          | None =>
              let? u := (if root c then reportVersionsOnce else Ret (Some tt));
              run! RUnlock;
              Ret (Some (None, m))
          end
      end.

Definition recordValue (c : Client) (ctx : Context_) (typ : MetricType) (name : gostring) (value : float64)
    (opts : list MetricOption) : prog act (option (option error)) :=
  if disabled core then Ret (Some None)
  else
    match validateMetricInput name value with
    | Some err =>
        let@ b := isClosed;
        Ret (Some (Some (if b then ErrIs ErrClientClosed else err)))
    | None =>
        let! pooled := PoolGet;
        let m := AcquireMetric pooled in
        let! now := Now;
        let m := mkMetric name typ value (Attributes_ m) now (Priority m) (TraceID m) (SpanID m)
                   (Description m) (Unit m) in
        let? r := record c ctx m opts;
        match r.1 with
        | Some err => run@ ReleaseMetric r.2; Ret (Some (Some err))
        | None => Ret (Some None)
        end
    end.

Definition Counter c ctx name value opts := recordValue c ctx MetricTypeCounter name value opts.
Definition Gauge c ctx name value opts := recordValue c ctx MetricTypeGauge name value opts.
Definition Histogram c ctx name value opts := recordValue c ctx MetricTypeHistogram name value opts.
Definition RecordMetric c ctx m := record c ctx m [].
Definition Increment c ctx name opts := Counter c ctx name f_one opts.
Definition IncrementBy c ctx name value opts := Counter c ctx name value opts.
(** time.Duration.Milliseconds truncates towards zero. *)
Definition Timing c ctx name (d : Z) opts := Histogram c ctx name (f_of_Z (Z.quot d Millisecond)) opts.
Definition Observe c ctx name (d : Z) opts := Histogram c ctx name (Seconds d) opts.

(** runtimeRecord drops the error of the call. *)
Definition runtimeRecord (c : Client) (name : gostring) (mtype : MetricType) (value : float64) (attrs : list KeyValue) :
    prog act (option unit) :=
  let opts := if 0 <? len attrs then [withKeyValues attrs] else [] in
  match mtype with
  | MetricTypeGauge => let? e := Gauge c Background name value opts; Ret (Some tt)
  | MetricTypeCounter => let? e := Counter c Background name value opts; Ret (Some tt)
  | MetricTypeHistogram => let? e := Histogram c Background name value opts; Ret (Some tt)
  | MetricTypeOther _ => Ret (Some tt)
  end.

(** ** Lifecycle (client_lifecycle.go) *)
Definition Flush (c : Client) (ctx : Context_) : prog act (option error) :=
  if disabled core then Ret None
  else
    let@ b := isClosed;
    if b then Ret (Some (ErrIs ErrClientClosed)) else pipeline (p_Flush (ctx_id ctx)).

Definition joinShutdownErrors (collectorErr pipelineErr : option error) : option error :=
  match collectorErr, pipelineErr with
  | None, _ => pipelineErr
  | Some _, None => collectorErr
  | Some _, Some _ => errors_join [collectorErr; pipelineErr]
  end.

Definition shutdown (ctx : nat) : prog act (option error) :=
  if disabled core then Ret None
  else
    let! first := OnceEnter shutdownOnce;
    if negb first then Ret None
    else
      run! Lock;
      run! SetClosed;
      run! Unlock;
      let@ collectorErr := (match collector core with
                            | Some stop => let! e := StopCollector stop ctx; Ret (wrap "stop runtime collector" e)
                            | None => Ret None
                            end);
      run! CallShutdown;
      let@ pipelineErr := pipeline (p_Shutdown ctx);
      run! OnceExit shutdownOnce;
      Ret (joinShutdownErrors collectorErr pipelineErr).

Definition Shutdown (c : Client) (ctx : nat) : prog act (option error) :=
  if negb (root c) then Ret None else shutdown ctx.

(** Close: [timeout_ctx] is the context with the five second timeout. *)
Definition Close (c : Client) (timeout_ctx : nat) : prog act (option error) :=
  if negb (root c) then Ret None else Shutdown c timeout_ctx.

(** ** Events (client_event.go) *)
Definition with_tags (kvs : list KeyValue) (ev : DatadogEvent) : DatadogEvent :=
  mkEvent (Title ev) (Text ev) (EvTimestamp ev) (Host ev) (EvPriority ev) (AlertType ev) (AggregationKey ev)
    (SourceTypeName ev) kvs.

(** A panic of the exporter is recovered into an error. *)
Definition deliverEvent (send : option Z → DatadogEvent → list Pipeline.outcome) (ev : DatadogEvent) :
    prog act (option error) :=
  let timeout := if 0 <? UDPTimeout (cfg core) then Some (UDPTimeout (cfg core)) else None in
  let! o := Deliver send timeout ev;
  Ret (match o with
       | Pipeline.Ok => None
       | Pipeline.Failed e => Some e
       | Pipeline.Panics v => Some (ErrWrapAfter (ErrIs ErrExportFailed) (str "datadog event: panic: " ++ v))
       end).

Definition sendEvent (c : Client) (ctx : Context_) (ev : DatadogEvent) : prog act (option error) :=
  if disabled core then Ret None
  else
    run! RLock;
    let! b := LoadClosed;
    if b then run! RUnlock; Ret (Some (ErrIs ErrClientClosed))
    else
      match p_sender with
      | None => run! RUnlock; Ret (Some (ErrIs ErrDatadogNotConfigured))
      | Some send =>
          let@ attrs := resolveAttrs c ctx (EvTags ev);
          match admitKeys attrs with
          | Some err => run! RUnlock; Ret (Some err)
          | None =>
              let@ err := deliverEvent send (with_tags (NewSet attrs) ev);
              match err with
              | Some err =>
                  run! AddEventsDropped;
                  run@ pipeline (p_RecordExporterError datadogExporterName);
                  run! RUnlock;
                  Ret (Some err)
              | None => run! RUnlock; Ret None
              end
          end
      end.

Definition Event (c : Client) (ctx : Context_) (ev : DatadogEvent) : prog act (option error) := sendEvent c ctx ev.

(** ** Statistics *)
Record ClientStats := mkClientStats {
  cs_ServiceName : gostring; cs_Environment : gostring; cs_Closed : bool; cs_EventsDropped : Z;
  cs_Pipeline : Pipeline.PipelineStats }.

Definition zero_pipeline_stats : Pipeline.PipelineStats :=
  Pipeline.mkPipelineStats 0 0 0 0 0 0 0 0 0 0 ∅ None 0.

(** Stats: the pipeline is read first, then the flag and the counter. *)
Definition Stats : prog act ClientStats :=
  if disabled core then Ret (mkClientStats [] [] false 0 zero_pipeline_stats)
  else
    run! RLock;
    let@ p := pipeline p_Stats;
    let! b := LoadClosed;
    let! n := LoadEventsDropped;
    run! RUnlock;
    Ret (mkClientStats (ServiceName (cfg core)) (Environment (cfg core)) b n p).

(** ** Clocks (clock.go), through a recorder (interface.go, observe.go)

    A recorder may or may not be a DurationObserver. *)
Record Recorder := mkRecorder {
  r_Histogram : Context_ → gostring → float64 → list MetricOption → prog act (option (option error));
  r_Observe : option (Context_ → gostring → Z → list MetricOption → prog act (option (option error))) }.

Definition client_recorder (c : Client) : Recorder := mkRecorder (Histogram c) (Some (Observe c)).

(** *** NoOpClient (noop.go): nothing happens and every method returns nil. *)
Definition noop_value (ctx : Context_) (name : gostring) (value : float64) (opts : list MetricOption) : prog act (option (option error)) :=
  Ret (Some None).
Definition noop_Increment (ctx : Context_) (name : gostring) (opts : list MetricOption) : prog act (option (option error)) :=
  Ret (Some None).
Definition noop_duration (ctx : Context_) (name : gostring) (d : Z) (opts : list MetricOption) : prog act (option (option error)) :=
  Ret (Some None).
Definition noop_RecordMetric (ctx : Context_) (m : Metric) : prog act (option (option error)) := Ret (Some None).
Definition noop_Event (ctx : Context_) (ev : DatadogEvent) : prog act (option error) := Ret None.
Definition noop_end (ctx : Context_) : prog act (option error) := Ret None.
Definition noop_recorder : Recorder := mkRecorder noop_value (Some noop_duration).

Record Clock := mkClock { cl_recorder : Recorder; cl_name : gostring; first : Z; last : Z; cl_opts : list MetricOption }.

Definition StampTag : gostring := str "stamp".
Definition StampTotal : gostring := str "total".

Definition NewClockAt (r : Recorder) (name : gostring) (start : Z) (opts : list MetricOption) : Clock :=
  mkClock r name start start opts.

Definition NewClock (r : Recorder) (name : gostring) (opts : list MetricOption) : prog act Clock :=
  let! now := Now; Ret (NewClockAt r name now opts).

Definition observe (c : Clock) (ctx : Context_) (stamp : gostring) (d : Z) : prog act (option (option error)) :=
  let opts := cl_opts c ++ [WithAttribute StampTag stamp] in
  match r_Observe (cl_recorder c) with
  | Some Observe => Observe ctx (cl_name c) d opts
  | None => r_Histogram (cl_recorder c) ctx (cl_name c) (Seconds d) opts
  end.

(** StampAt moves the clock also when the observation fails. *)
Definition StampAt (c : Clock) (ctx : Context_) (name : gostring) (now : Z) : Clock * prog act (option (option error)) :=
  let d := Sub now (last c) in
  let c := mkClock (cl_recorder c) (cl_name c) (first c) now (cl_opts c) in
  (c, observe c ctx name d).

Definition StopAt (c : Clock) (ctx : Context_) (now : Z) : prog act (option (option error)) :=
  observe c ctx StampTotal (Sub now (first c)).

Definition Stamp (c : Clock) (ctx : Context_) (name : gostring) : prog act (Clock * option (option error)) :=
  let! now := Now;
  let@ r := (StampAt c ctx name now).2;
  Ret ((StampAt c ctx name now).1, r).

Definition Stop (c : Clock) (ctx : Context_) : prog act (option (option error)) :=
  let! now := Now; StopAt c ctx now.

End core.

(** ** Builders *)
Definition new_builder (typ : MetricType) (name : gostring) (value : float64) (now : Z) : Metric :=
  mkMetric name typ value [] now 1 0 0 [] [].
Definition NewCounter := new_builder MetricTypeCounter.
Definition NewGauge := new_builder MetricTypeGauge.
Definition NewHistogram := new_builder MetricTypeHistogram.

Definition mb_WithTag (key val : gostring) (mb : Metric) : Metric := with_attrs (Attributes_ mb ++ [String_kv key val]) mb.
(** The entries of the map arrive in the order [kvs]. *)
Definition mb_WithTags (kvs : list (gostring * gostring)) (mb : Metric) : Metric :=
  foldl (λ mb kv, mb_WithTag kv.1 kv.2 mb) mb kvs.
Definition mb_WithPriority (p : Z) (mb : Metric) : Metric := WithPriority p mb.
Definition Build_ (mb : Metric) : Metric := mb.

(** ** NewClient

    [new_pipeline] is NewPipeline with its started state, [stop] the outcomes of stopping
    a collector; the root client has neither prefix nor tags. *)
Inductive client_start := Disabled_ (core : clientCore) | Running (core : clientCore) (s : state).

Definition new_root : Client := mkClient [] [] true.

Definition NewClient (Getenv : gostring → gostring) (b : Build) (new_pipeline : Config → pstate + error)
    (start : pstate → pstate + error) (stop : RuntimeMetricsConfig → nat → list (option error)) (opts : list Option) (now : Z) :
    client_start + error :=
  if sdkDisabled Getenv then inl (Disabled_ (mkCore DefaultConfig true false None b))
  else
    match buildConfig Getenv opts with
    | inr err => inr (ErrWrap (str "invalid configuration") err)
    | inl cfg =>
        match ValidateConfig cfg with
        | Some err => inr (ErrWrap (str "invalid configuration") err)
        | None =>
            match new_pipeline cfg with
            | inr err => inr (ErrWrap (str "create pipeline") err)
            | inl p =>
                match start p with
                | inr err => inr (ErrWrap (str "start pipeline") err)
                | inl p =>
                    let versions := versionReportingEnabled (VersionReporting cfg) (Getenv envDisableVersionReporting) in
                    let collector := match RuntimeMetrics cfg with
                                     | Some rc => if rm_Enabled rc then Some (stop rc) else None
                                     | None => None
                                     end in
                    inl (Running (mkCore cfg false versions collector b) (new_core p now))
                end
            end
        end
    end.

(** ** Calls by any number of goroutines *)
Inductive op :=
| OpValue (c : Client) (ctx : Context_) (typ : MetricType) (name : gostring) (value : float64) (opts : list MetricOption)
| OpMetric (c : Client) (ctx : Context_) (m : Metric)
| OpFlush (c : Client) (ctx : Context_)
| OpShutdown (c : Client) (ctx : nat)
| OpClose (c : Client) (ctx : nat)
| OpEvent (c : Client) (ctx : Context_) (ev : DatadogEvent)
| OpStats
| OpWithTags (ctx : Context_) (kvs : list KeyValue)
| OpAddTags (ctx : Context_) (kvs : list KeyValue).

Inductive result :=
| Returned (err : option error)
| CutOff                                            (* still in the pipeline *)
| GotStats (st : ClientStats)
| GotContext (ctx : Context_)
| GotBool (b : bool).

Definition returned (r : option (option error)) : result := match r with Some e => Returned e | None => CutOff end.

Definition program (core : clientCore) (o : op) : prog act result :=
  match o with
  | OpValue c ctx typ name value opts => let@ r := recordValue core c ctx typ name value opts; Ret (returned r)
  | OpMetric c ctx m => let@ r := RecordMetric core c ctx m; Ret (returned (fst <$> r))
  | OpFlush c ctx => let@ e := Flush core c ctx; Ret (Returned e)
  | OpShutdown c ctx => let@ e := Shutdown core c ctx; Ret (Returned e)
  | OpClose c ctx => let@ e := Close core c ctx; Ret (Returned e)
  | OpEvent c ctx ev => let@ e := Event core c ctx ev; Ret (Returned e)
  | OpStats => let@ st := Stats core; Ret (GotStats st)
  | OpWithTags ctx kvs => let@ c := ContextWithTags ctx kvs; Ret (GotContext c)
  | OpAddTags ctx kvs => let@ b := ContextAddTags ctx kvs; Ret (GotBool b)
  end.

(** The surroundings: time passes, and the pipeline's own goroutines change its state. *)
Definition env (s s' : state) : Prop := ∃ t p, s' = set_wall (set_pipe s p) t.

End client.
