(* ===== verification/ClientSafe.v ===== *)
(** * Concurrent clients

    [client_lifecycle]: whatever goroutines call the client, its views and its contexts,
    no call of pipeline.Record overlaps or follows the call of pipeline.Shutdown; what a
    successful call hands to the pipeline; and a call made after the client is closed
    returns ErrClientClosed.  [client_tag_precedence]: which of the tags of view,
    context, metric and options the recorded series carries. *)

From S2P Require Import Prelude GoLib Strings Atomic Attribute Metric Cardinality DogStatsD Config Pipeline Client.
#[local] Open Scope prog_scope.

Section safe.
Context `{Pipelines}.

(** ** What a call hands over *)

(** The metric record gives the pipeline, when the context carries the tags [ct]. *)
Definition delivered (c : Client) (ct : list KeyValue) (m : Metric) (opts : list MetricOption) : Metric :=
  apply_options opts (with_attrs (tags c ++ ct ++ Attributes_ m) (with_name (joinName [prefix c; Name m]) m)).

Definition fresh_metric (typ : MetricType) (name : gostring) (value : float64) (now : Z) : Metric :=
  mkMetric name typ value [] now 1 0 0 [] [].

(** ** Ghost state

    Where a goroutine stands: outside; inside the read lock, before and after it found the
    client open, and inside pipeline.Record; in the function of shutdownOnce, before the
    lock, holding it, having set the flag, having released it, and inside
    pipeline.Shutdown. *)
Inductive phase := Out | Reading | Live | Recording | Entered | Writing | Flagged | Closer | Called.

Record ghost := mkGhost { g_op : op; ph : phase; handed : option Metric; seen : list (nat * list KeyValue) }.

Definition at_ (p : phase) (g : ghost) : ghost := mkGhost (g_op g) p (handed g) (seen g).
Definition hand (m : Metric) (g : ghost) : ghost :=
  mkGhost (g_op g) Recording (Some (default m (handed g))) (seen g).
Definition see (r : nat) (kvs : list KeyValue) (g : ghost) : ghost :=
  mkGhost (g_op g) (ph g) (handed g) ((r, kvs) :: seen g).

(** The tags [ct] are those a read of the context's tag set gave. *)
Definition context_read (ctx : Context_) (ct : list KeyValue) (g : ghost) : Prop :=
  match ctx_tags ctx with None => ct = [] | Some ref => (ref, ct) ∈ seen g end.

(** The metric was handed over, or the call failed before. *)
Definition refused (err : option error) : Prop :=
  ∃ e, err = Some e ∧ (e = ErrIs ErrClientClosed ∨ errors_is ErrInvalidConfig e = true).

Definition value_ok (c : Client) (ctx : Context_) (m : Metric) (opts : list MetricOption) (err : option error) (g : ghost) : Prop :=
  (∃ ct, context_read ctx ct g ∧ handed g = Some (delivered c ct m opts)) ∨ refused err.

Definition result_ok (r : result) (g : ghost) : Prop :=
  match g_op g, r with
  | OpValue c ctx typ name value opts, Returned err =>
      ∃ now, value_ok c ctx (fresh_metric typ name value now) opts err g
  | OpMetric c ctx m, Returned err => value_ok c ctx m [] err g
  | _, _ => True
  end.

(** [safe Q p g]: from ghost value [g], [p] follows the protocol and ends with [Q]. *)
Fixpoint safe {A} (Q : A → ghost → Prop) (p : prog act A) (g : ghost) : Prop :=
  match p with
  | Ret r => Q r g
  | Act e k =>
      match e in act B return (B → prog act A) → Prop with
      | RLock => λ k, ph g = Out ∧ safe Q (k tt) (at_ Reading g)
      | RUnlock => λ k, (ph g = Reading ∨ ph g = Live) ∧ safe Q (k tt) (at_ Out g)
      | Lock => λ k, ph g = Entered ∧ safe Q (k tt) (at_ Writing g)
      | SetClosed => λ k, ph g = Writing ∧ safe Q (k tt) (at_ Flagged g)
      | Unlock => λ k, ph g = Flagged ∧ safe Q (k tt) (at_ Closer g)
      | LoadClosed => λ k, ph g = Reading ∧ safe Q (k true) g ∧ safe Q (k false) (at_ Live g)
      | OnceEnter shutdownOnce => λ k, ph g = Out ∧ safe Q (k true) (at_ Entered g) ∧ safe Q (k false) g
      | OnceExit shutdownOnce => λ k, ph g = Called ∧ safe Q (k tt) (at_ Out g)
      | CallRecord m => λ k, ph g = Live ∧ safe Q (k tt) (hand m g)
      | RecordReturned => λ k, ph g = Recording ∧ safe Q (k tt) (at_ Live g)
      | CallShutdown => λ k, ph g = Closer ∧ safe Q (k tt) (at_ Called g)
      | LoadTags ref => λ k, ∀ kvs, safe Q (k kvs) (see ref kvs g)
      | _ => λ k, ∀ b, safe Q (k b) g
      end k
  end.

(** A call ends outside the locks, with a result as the client promises, or it is cut off. *)
Definition finished (r : result) (g : ghost) : Prop := r = CutOff ∨ (ph g = Out ∧ result_ok r g).

(** ** The invariant *)
Definition ind (b : bool) : Z := if b then 1 else 0.
Definition rd g := ind (match ph g with Reading | Live | Recording => true | _ => false end).
Definition lv g := ind (match ph g with Live | Recording => true | _ => false end).
Definition rc g := ind (match ph g with Recording => true | _ => false end).
Definition wr g := ind (match ph g with Writing | Flagged => true | _ => false end).
Definition sh g := ind (match ph g with Entered | Writing | Flagged | Closer | Called => true | _ => false end).
Definition cl g := ind (match ph g with Flagged | Closer | Called => true | _ => false end).
Definition cd g := ind (match ph g with Called => true | _ => false end).

Definition ev_flight (e : event) : Z := match e with EvRecord _ => 1 | EvRecorded => -1 | EvShutdown => 0 end.
Definition ev_shutdown (e : event) : Z := match e with EvShutdown => 1 | _ => 0 end.
(** Calls of pipeline.Record that have not returned, and calls of pipeline.Shutdown. *)
Definition in_flight (h : list event) : Z := zsum ev_flight h.
Definition shutdowns (h : list event) : Z := zsum ev_shutdown h.

(** No call of Record is open when Shutdown is called, and nothing follows it. *)
Definition ordered (h : list event) : Prop :=
  ∀ l1 l2, h = l1 ++ EvShutdown :: l2 → in_flight l1 = 0 ∧ l2 = [].

Record client_inv (s : state) (gs : list ghost) : Prop := mkInv {
  inv_readers : Z.of_nat (readers s) = zsum rd gs;
  inv_writer : zsum wr gs = ind (writer s);
  inv_exclusive : writer s = true → zsum rd gs = 0;
  inv_closed : closed s = true → zsum lv gs = 0;
  inv_once : zsum sh gs = ind (match shutdown_once s with Busy => true | _ => false end);
  inv_open : closed s = false → zsum cl gs = 0 ∧ shutdown_once s ≠ Complete;
  inv_flight : in_flight (history s) = zsum rc gs;
  inv_shutdowns : shutdowns (history s) = zsum cd gs + ind (match shutdown_once s with Complete => true | _ => false end);
  inv_ordered : ordered (history s);
  inv_handed : ∀ g m, g ∈ gs → handed g = Some m → EvRecord m ∈ history s;
  inv_seen : ∀ g r kvs, g ∈ gs → (r, kvs) ∈ seen g → kvs `prefix_of` default [] (tag_sets s !! r) }.

Lemma indicators g :
  0 ≤ rc g ≤ lv g ∧ lv g ≤ rd g ∧ 0 ≤ wr g ≤ sh g ∧ 0 ≤ cd g ≤ cl g ∧ cl g ≤ sh g ∧ rd g + sh g ≤ 1.
Proof. unfold rc, lv, rd, wr, sh, cd, cl. destruct (ph g); simpl; lia. Qed.

(** The order of the sums, and what a step of goroutine [i] does to them. *)
Lemma sums_bounds gs :
  0 ≤ zsum rc gs ≤ zsum lv gs ∧ zsum lv gs ≤ zsum rd gs ∧ 0 ≤ zsum wr gs ≤ zsum sh gs
  ∧ 0 ≤ zsum cd gs ≤ zsum cl gs ∧ zsum cl gs ≤ zsum sh gs.
Proof. repeat split; (apply zsum_le || apply zsum_nonneg); apply Forall_true; intros y; pose proof (indicators y); lia. Qed.

Lemma phase_sums gs i g g' :
  gs !! i = Some g →
  let gs' := <[i := g']> gs in
  zsum rd gs' + rd g = zsum rd gs + rd g' ∧ zsum lv gs' + lv g = zsum lv gs + lv g'
  ∧ zsum rc gs' + rc g = zsum rc gs + rc g' ∧ zsum wr gs' + wr g = zsum wr gs + wr g'
  ∧ zsum sh gs' + sh g = zsum sh gs + sh g' ∧ zsum cl gs' + cl g = zsum cl gs + cl g'
  ∧ zsum cd gs' + cd g = zsum cd gs + cd g'.
Proof. intros Hi. repeat split; by apply zsum_insert. Qed.

Lemma sums_lookup gs i g :
  gs !! i = Some g → rd g ≤ zsum rd gs ∧ lv g ≤ zsum lv gs ∧ rc g ≤ zsum rc gs ∧ wr g ≤ zsum wr gs
  ∧ sh g ≤ zsum sh gs ∧ cl g ≤ zsum cl gs ∧ cd g ≤ zsum cd gs.
Proof. intros Hi. repeat split; eapply zsum_ge; try done; intros y; pose proof (indicators y); lia. Qed.

(** The parts of the invariant about numbers, and about the order of events. *)
Definition numbers (s : state) (gs : list ghost) : Prop :=
  Z.of_nat (readers s) = zsum rd gs ∧ zsum wr gs = ind (writer s) ∧ (writer s = true → zsum rd gs = 0)
  ∧ (closed s = true → zsum lv gs = 0)
  ∧ zsum sh gs = ind (match shutdown_once s with Busy => true | _ => false end)
  ∧ (closed s = false → zsum cl gs = 0 ∧ shutdown_once s ≠ Complete)
  ∧ in_flight (history s) = zsum rc gs
  ∧ shutdowns (history s) = zsum cd gs + ind (match shutdown_once s with Complete => true | _ => false end).

Lemma inv_numbers s gs : client_inv s gs → numbers s gs.
Proof. intros []. unfold numbers. auto 10. Qed.

Lemma core_step s s' gs i g g' :
  client_inv s gs → gs !! i = Some g → numbers s' (<[i := g']> gs) → ordered (history s') →
  (∀ e, e ∈ history s → e ∈ history s') →
  (∀ m, handed g' = Some m → handed g = Some m ∨ EvRecord m ∈ history s') →
  (∀ r, default [] (tag_sets s !! r) `prefix_of` default [] (tag_sets s' !! r)) →
  (∀ r kvs, (r, kvs) ∈ seen g' → (r, kvs) ∈ seen g ∨ kvs = default [] (tag_sets s !! r)) →
  client_inv s' (<[i := g']> gs).
Proof.
  intros HI Hi (N1 & N2 & N3 & N4 & N5 & N6 & N7 & N8) Ho Hh Hm Ht Hs. split; try done.
  - intros x m Hx Hxm. destruct (elem_of_list_insert _ _ _ _ _ Hi Hx) as [->|Hx'].
    + destruct (Hm m Hxm) as [Hg|]; [|done]. apply Hh. eapply inv_handed; [done| |done]. by eapply list_elem_of_lookup_2.
    + apply Hh. by eapply inv_handed.
  - intros x r kvs Hx Hxr. destruct (elem_of_list_insert _ _ _ _ _ Hi Hx) as [->|Hx'].
    + destruct (Hs r kvs Hxr) as [Hg| ->]; [|done]. etrans; [|apply Ht]. eapply inv_seen; [done| |done].
      by eapply list_elem_of_lookup_2.
    + etrans; [|apply Ht]. by eapply inv_seen.
Qed.

Lemma shutdowns_none h : shutdowns h = 0 → EvShutdown ∉ h.
Proof.
  intros Hz Hin. apply list_elem_of_lookup_1 in Hin as [i Hi].
  pose proof (zsum_ge ev_shutdown h i _ ltac:(by intros []) Hi) as Hge. unfold shutdowns in Hz. simpl in Hge. lia.
Qed.

Lemma ordered_snoc h e :
  EvShutdown ∉ h → (e = EvShutdown → in_flight h = 0) → ordered (h ++ [e]).
Proof.
  intros Hn He l1 l2 Heq. destruct l2 as [|x l2 _] using rev_ind.
  - apply app_inj_tail in Heq as [-> ->]. auto.
  - exfalso. apply Hn. rewrite app_comm_cons, app_assoc in Heq. apply app_inj_tail in Heq as [-> _].
    apply elem_of_app. right. by left.
Qed.

Lemma values g p :
  ph g = p →
  rd g = ind (match p with Reading | Live | Recording => true | _ => false end)
  ∧ lv g = ind (match p with Live | Recording => true | _ => false end)
  ∧ rc g = ind (match p with Recording => true | _ => false end)
  ∧ wr g = ind (match p with Writing | Flagged => true | _ => false end)
  ∧ sh g = ind (match p with Entered | Writing | Flagged | Closer | Called => true | _ => false end)
  ∧ cl g = ind (match p with Flagged | Closer | Called => true | _ => false end)
  ∧ cd g = ind (match p with Called => true | _ => false end).
Proof. by intros <-. Qed.

Lemma flight_snoc h e : in_flight (h ++ [e]) = in_flight h + ev_flight e.
Proof. unfold in_flight. rewrite zsum_app. unfold zsum at 2. simpl. lia. Qed.
Lemma shutdowns_snoc h e : shutdowns (h ++ [e]) = shutdowns h + ev_shutdown e.
Proof. unfold shutdowns. rewrite zsum_app. unfold zsum at 2. simpl. lia. Qed.

(** Closes a numeric goal of a step of goroutine [i] from ghost value [g] to [g'],
    with [Hph] the phase of [g]. *)
Ltac count HI Hi Hph g' :=
  pose proof (inv_numbers _ _ HI) as (N1 & N2 & N3 & N4 & N5 & N6 & N7 & N8);
  pose proof (phase_sums _ _ _ g' Hi) as (S1 & S2 & S3 & S4 & S5 & S6 & S7);
  pose proof (sums_lookup _ _ _ Hi) as (L1 & L2 & L3 & L4 & L5 & L6 & L7);
  match type of Hi with ?gs !! ?i = Some ?g =>
    pose proof (sums_bounds gs) as (B1 & B2 & B3 & B4 & B5);
    pose proof (sums_bounds (<[i := g']> gs)) as (C1 & C2 & C3 & C4 & C5);
    pose proof (values g _ Hph) as (V1 & V2 & V3 & V4 & V5 & V6 & V7);
    pose proof (values g' _ eq_refl) as (W1 & W2 & W3 & W4 & W5 & W6 & W7)
  end.

Ltac crunch :=
  repeat match goal with
  | H : true = true → _ |- _ => specialize (H eq_refl)
  | H : false = false → _ |- _ => specialize (H eq_refl)
  | H : true = false → _ |- _ => clear H
  | H : false = true → _ |- _ => clear H
  | H : _ ∧ _ |- _ => destruct H
  end; cbn [ind at_ hand see ph] in *; rewrite ?flight_snoc, ?shutdowns_snoc; cbn [ev_flight ev_shutdown]; repeat split; intros; try done; try lia.

Ltac stepping HI Hi Hph s g' :=
  count HI Hi Hph g'; unfold numbers;
  cbn [set_mutex set_closed set_once add_history readers writer closed shutdown_once version_once history];
  destruct (closed s) eqn:Ec, (writer s) eqn:Ew, (shutdown_once s) eqn:Eo; crunch.

(** A step that only moves the goroutine to phase [p]. *)
Lemma inv_move s s' gs i g p :
  client_inv s gs → gs !! i = Some g → numbers s' (<[i := at_ p g]> gs) → history s' = history s →
  tag_sets s' = tag_sets s → client_inv s' (<[i := at_ p g]> gs).
Proof.
  intros HI Hi Hn Hh Ht. eapply core_step; try done; rewrite ?Hh, ?Ht; auto. apply (inv_ordered _ _ HI).
Qed.

Lemma step_lock {A} (Q : A → ghost → Prop) B (e : act B) k g s gs i b s' :
  gs !! i = Some g → safe Q (Act e k) g → client_inv s gs → (b, s') ∈ handle B e s →
  match e with RLock | RUnlock | Lock | Unlock | SetClosed | LoadClosed | OnceEnter shutdownOnce | OnceExit shutdownOnce => True | _ => False end →
  ∃ g', (safe Q (k b) g' ∧ g_op g' = g_op g) ∧ client_inv s' (<[i := g']> gs).
Proof.
  intros Hi Hs HI Hin He. destruct e as [| | | | | |[]|[]| | | | | | | | | | | | | |]; try done; simpl in Hin.
  - destruct (writer s) eqn:Hw; [inversion Hin|]. apply list_elem_of_singleton in Hin as [= -> ->]. destruct Hs as [Hph Hs].
    eexists. split; [split; [exact Hs|done]|]. apply inv_move with s; try done. stepping HI Hi Hph s (at_ Reading g).
  - apply list_elem_of_singleton in Hin as [= -> ->]. destruct Hs as [[Hph|Hph] Hs]; (eexists; split; [split; [exact Hs|done]|]; apply inv_move with s; try done; stepping HI Hi Hph s (at_ Out g)).
  - destruct (writer s) eqn:Hw; [inversion Hin|]. destruct (Nat.eqb_spec (readers s) 0) as [Hr|]; [|inversion Hin].
    apply list_elem_of_singleton in Hin as [= -> ->]. destruct Hs as [Hph Hs].
    eexists. split; [split; [exact Hs|done]|]. apply inv_move with s; try done. stepping HI Hi Hph s (at_ Writing g).
  - apply list_elem_of_singleton in Hin as [= -> ->]. destruct Hs as [Hph Hs].
    eexists. split; [split; [exact Hs|done]|]. apply inv_move with s; try done. stepping HI Hi Hph s (at_ Closer g).
  - apply list_elem_of_singleton in Hin as [= -> ->]. destruct Hs as (Hph & Ht & Hf). destruct (closed s) eqn:Hc.
    + exists g. split; [done|]. by rewrite list_insert_id.
    + eexists. split; [split; [exact Hf|done]|]. apply inv_move with s; try done. stepping HI Hi Hph s (at_ Live g).
  - apply list_elem_of_singleton in Hin as [= -> ->]. destruct Hs as [Hph Hs].
    eexists. split; [split; [exact Hs|done]|]. apply inv_move with s; try done. stepping HI Hi Hph s (at_ Flagged g).
  - destruct Hs as (Hph & Ht & Hf). destruct (shutdown_once s) eqn:Ho; [|inversion Hin|].
    + apply list_elem_of_singleton in Hin as [= -> ->]. eexists. split; [split; [exact Ht|done]|]. apply inv_move with s; try done.
      stepping HI Hi Hph s (at_ Entered g).
    + apply list_elem_of_singleton in Hin as [= -> ->]. exists g. split; [done|]. by rewrite list_insert_id.
  - apply list_elem_of_singleton in Hin as [= -> ->]. destruct Hs as [Hph Hs].
    eexists. split; [split; [exact Hs|done]|]. apply inv_move with s; try done. stepping HI Hi Hph s (at_ Out g).
Qed.

(** A step that writes event [e] while the client is open or closing. *)
Lemma inv_event s gs i g g' e :
  client_inv s gs → gs !! i = Some g → numbers (add_history s e) (<[i := g']> gs) →
  shutdowns (history s) = 0 → (e = EvShutdown → in_flight (history s) = 0) →
  (∀ m, handed g' = Some m → handed g = Some m ∨ e = EvRecord m) → seen g' = seen g →
  client_inv (add_history s e) (<[i := g']> gs).
Proof.
  intros HI Hi Hn Hz He Hm Hs. eapply core_step; try done; simpl.
  - apply ordered_snoc; [by apply shutdowns_none|done].
  - intros x Hx. apply elem_of_app. by left.
  - intros m Hg. destruct (Hm m Hg) as [|Heq]; [by left|]. right. apply elem_of_app. right. rewrite Heq. by left.
  - rewrite Hs. auto.
Qed.

Lemma hand_keeps m g m' : handed (hand m g) = Some m' → handed g = Some m' ∨ EvRecord m = EvRecord m'.
Proof. unfold hand. simpl. destruct (handed g); simpl; intros [= ->]; auto. Qed.

Lemma step_event {A} (Q : A → ghost → Prop) B (e : act B) k g s gs i b s' :
  gs !! i = Some g → safe Q (Act e k) g → client_inv s gs → (b, s') ∈ handle B e s →
  match e with CallRecord _ | RecordReturned | CallShutdown => True | _ => False end →
  ∃ g', (safe Q (k b) g' ∧ g_op g' = g_op g) ∧ client_inv s' (<[i := g']> gs).
Proof.
  intros Hi Hs HI Hin He. destruct e; try done; apply list_elem_of_singleton in Hin as [= -> ->]; destruct Hs as [Hph Hs];
    (eexists; split; [split; [exact Hs|done]|]).
  - apply inv_event with g; try done; [stepping HI Hi Hph s (hand m g) | stepping HI Hi Hph s (hand m g) | apply hand_keeps].
  - apply inv_event with g; try done; [stepping HI Hi Hph s (at_ Live g) | stepping HI Hi Hph s (at_ Live g) | by left].
  - apply inv_event with g; try done; [stepping HI Hi Hph s (at_ Called g) | stepping HI Hi Hph s (at_ Called g) | | by left].
    intros _. stepping HI Hi Hph s (at_ Called g).
Qed.

(** A step that changes nothing the invariant reads. *)
Definition same_core (s s' : state) : Prop :=
  readers s' = readers s ∧ writer s' = writer s ∧ closed s' = closed s ∧ shutdown_once s' = shutdown_once s
  ∧ history s' = history s
  ∧ ∀ r, default [] (tag_sets s !! r) `prefix_of` default [] (tag_sets s' !! r).

Lemma core_frame s s' gs : client_inv s gs → same_core s s' → client_inv s' gs.
Proof.
  intros [] (E1 & E2 & E3 & E4 & E5 & E6). split; rewrite ?E1, ?E2, ?E3, ?E4, ?E5; try done.
  intros g r kvs Hg Hr. etrans; [|apply E6]. eauto.
Qed.

Lemma pool_outcomes_frame before after s b s' : (b, s') ∈ pool_outcomes before after s → ∃ p, s' = set_pool s p.
Proof.
  revert before. induction after as [|m rest IH]; intros before Hin; [by apply not_elem_of_nil in Hin|].
  apply elem_of_cons in Hin as [[= -> ->]|Hin]; eauto.
Qed.

Lemma prefix_insert (t : gmap nat (list KeyValue)) ref kvs r :
  default [] (t !! ref) `prefix_of` kvs → default [] (t !! r) `prefix_of` default [] (<[ref := kvs]> t !! r).
Proof.
  intros Hp. destruct (decide (r = ref)) as [->|Hne]; [by rewrite lookup_insert_eq|by rewrite lookup_insert_ne].
Qed.

Lemma step_frame B (e : act B) s b s' :
  (b, s') ∈ handle B e s →
  match e with
  | RLock | RUnlock | Lock | Unlock | SetClosed | LoadClosed | OnceEnter shutdownOnce | OnceExit shutdownOnce
  | CallRecord _ | RecordReturned | CallShutdown => False
  | _ => True
  end →
  same_core s s'.
Proof.
  intros Hin He. destruct e as [| | | | | |[]|[]| | |ref| | | | | | | | | | |]; try done; simpl in Hin.
  - destruct (version_once s); [|inversion Hin|]; apply list_elem_of_singleton in Hin as [= -> ->]; repeat split; done.
  - apply list_elem_of_singleton in Hin as [= -> ->]; repeat split; done.
  - apply list_elem_of_singleton in Hin as [= -> ->]. repeat split; try done. intros r. apply prefix_insert.
    assert (Hf : tag_sets s !! fresh (dom (tag_sets s)) = None) by (apply not_elem_of_dom, is_fresh).
    rewrite Hf. apply prefix_nil.
  - apply list_elem_of_singleton in Hin as [= -> ->]. repeat split; try done. intros r. apply prefix_insert.
    by apply prefix_app_r.
  - apply list_elem_of_singleton in Hin as [= -> ->]; repeat split; done.
  - apply list_elem_of_singleton in Hin as [= -> ->]; repeat split; done.
  - apply elem_of_cons in Hin as [[= -> ->]|Hin]; [repeat split; done|]. apply pool_outcomes_frame in Hin as [p ->].
    repeat split; done.
  - apply list_elem_of_singleton in Hin as [= -> ->]; repeat split; done.
  - apply list_elem_of_fmap in Hin as (o & [= -> ->] & _). repeat split; done.
  - apply list_elem_of_fmap in Hin as (o & [= -> ->] & _). repeat split; done.
  - apply list_elem_of_singleton in Hin as [= -> ->]; repeat split; done.
  - apply list_elem_of_singleton in Hin as [= -> ->]; repeat split; done.
  - apply list_elem_of_fmap in Hin as (o & [= -> ->] & _). repeat split; done.
Qed.

Lemma client_step {A} (Q : A → ghost → Prop) B (e : act B) k g s gs i b s' :
  gs !! i = Some g → safe Q (Act e k) g → client_inv s gs → (b, s') ∈ handle B e s →
  ∃ g', (safe Q (k b) g' ∧ g_op g' = g_op g) ∧ client_inv s' (<[i := g']> gs).
Proof.
  intros Hi Hs HI Hin.
  assert (Hframe : safe Q (k b) g → same_core s s' → ∃ g', (safe Q (k b) g' ∧ g_op g' = g_op g) ∧ client_inv s' (<[i := g']> gs)).
  { intros Hk Hc. exists g. split; [done|]. rewrite list_insert_id by done. by eapply core_frame. }
  destruct e as [| | | | | |[]|[]| | |ref| | | | | | | | | | |];
    first [exact (step_lock Q _ _ k g s gs i b s' Hi Hs HI Hin I) | exact (step_event Q _ _ k g s gs i b s' Hi Hs HI Hin I)
      | exact (Hframe (Hs b) (step_frame _ _ s b s' Hin I)) | idtac].
  pose proof Hin as Hin'. apply list_elem_of_singleton in Hin' as [= -> ->]. eexists. split; [split; [apply Hs|done]|].
  eapply core_step; try done; auto.
  - stepping HI Hi (@eq_refl phase (ph g)) s (see ref (default [] (tag_sets s !! ref)) g).
  - apply (inv_ordered _ _ HI).
  - simpl. intros r kvs Hr. apply elem_of_cons in Hr as [[= -> ->]|Hr]; auto.
Qed.

(** ** The methods follow the protocol *)
Lemma safe_mono {A} (Q R : A → ghost → Prop) p g : safe Q p g → (∀ a g, Q a g → R a g) → safe R p g.
Proof.
  intros Hp HQ. revert g Hp. induction p as [a|B e k IH]; intros g Hp; [by apply HQ|].
  destruct e as [| | | | | |[]|[]| | | | | | | | | | | | | |]; simpl in *; naive_solver.
Qed.

Lemma safe_bind {A C} (Q : A → ghost → Prop) (R : C → ghost → Prop) p f g :
  safe Q p g → (∀ a g, Q a g → safe R (f a) g) → safe R (bind p f) g.
Proof.
  intros Hp HQ. revert g Hp. induction p as [a|B e k IH]; intros g Hp; [by apply HQ|].
  destruct e as [| | | | | |[]|[]| | | | | | | | | | | | | |]; simpl in *; naive_solver.
Qed.

(** The pipeline moves no ghost state. *)
Lemma safe_pipeline {A} (p : prog pact A) g : safe (λ _ g', g' = g) (pipeline p) g.
Proof. induction p as [a|B e k IH]; [done|]. intros b. apply IH. Qed.

Lemma safe_pipeline_bind {A C} (p : prog pact A) (f : A → prog act C) R g :
  (∀ a, safe R (f a) g) → safe R (bind (pipeline p) f) g.
Proof. intros Hf. eapply safe_bind; [apply safe_pipeline|]. by intros a g' ->. Qed.

(** A call that may be cut off, followed by the rest of the method. *)
Lemma safe_try {A C} (P : A → ghost → Prop) (R : option C → ghost → Prop) (p : prog act (option A)) (f : A → prog act (option C)) g :
  safe (λ r g', r = None ∨ ∃ a, r = Some a ∧ P a g') p g → (∀ g', R None g') → (∀ a g', P a g' → safe R (f a) g') →
  safe R (bind p (λ r, match r with Some x => f x | None => Ret None end)) g.
Proof.
  intros Hp HN Hf. eapply safe_bind; [exact Hp|]. intros [a|] g' HP; [|apply HN].
  apply Hf. destruct HP as [|(? & [= <-] & HP)]; done.
Qed.

Definition tried {A} (P : A → ghost → Prop) (r : option A) (g : ghost) : Prop := r = None ∨ ∃ a, r = Some a ∧ P a g.

Lemma safe_Record span m g :
  ph g = Live → safe (tried (λ _ g', g' = at_ Live (hand m g))) (pipeline_Record span m) g.
Proof.
  intros Hph. split; [done|]. apply safe_pipeline_bind. intros [err|]; [|by left]. split; [done|]. right. eauto.
Qed.

(** A goroutine that holds the read lock and has handed its metric over. *)
Definition served (g : ghost) : Prop := ph g = Live ∧ is_Some (handed g).

Lemma served_again m g : served g → at_ Live (hand m g) = g.
Proof. destruct g as [o p h se]. intros [Hp [m' Hh]]. simpl in *. by subst. Qed.

Lemma safe_gauge name version service g :
  served g → safe (tried (λ _ g', g' = g)) (recordVersionGauge name version service) g.
Proof.
  intros Hg pooled. eapply safe_try; [apply safe_Record, Hg|by left|]. intros err g' ->. rewrite served_again by done.
  destruct err; [intros b|]; right; eauto.
Qed.

Lemma safe_versions core g : served g → safe (tried (λ _ g', g' = g)) (reportVersionsOnce core) g.
Proof.
  intros Hg. unfold reportVersionsOnce. destruct (reportVersions core); [|right; eauto]. intros [|]; [|right; eauto].
  eapply safe_try; [by apply safe_gauge|by left|]. intros u g' ->.
  eapply (safe_try (λ _ g', g' = g)); [|by left|].
  - destruct (negb (DevelGoVersion (build core))); [by apply safe_gauge|right; eauto].
  - intros u' g' -> b. right. eauto.
Qed.

(** Before a call: nothing handed over. *)
Definition idle (o : op) : ghost := mkGhost o Out None [].

Lemma name_errors n e : validateMetricName n = Some e → errors_is ErrInvalidConfig e = true.
Proof. unfold validateMetricName. intros He. repeat case_match; simplify_eq; done. Qed.

Lemma input_errors n v e : validateMetricInput n v = Some e → errors_is ErrInvalidConfig e = true.
Proof.
  unfold validateMetricInput. destruct (validateMetricName n) eqn:En; [intros [= <-]; by eapply name_errors|].
  intros He. repeat case_match; simplify_eq; done.
Qed.

Lemma safe_attrs c ctx existing g :
  safe (λ attrs g', ∃ ct, context_read ctx ct g' ∧ attrs = tags c ++ ct ++ existing
                      ∧ ph g' = ph g ∧ handed g' = handed g ∧ g_op g' = g_op g) (resolveAttrs c ctx existing) g.
Proof.
  unfold resolveAttrs. destruct (ctx_tags ctx) as [ref|] eqn:Et.
  - intros ct. exists ct. split_and!; try done. unfold context_read. rewrite Et. by left.
  - exists []. split_and!; try done. unfold context_read. by rewrite Et.
Qed.

Lemma safe_record core c ctx m opts o :
  disabled core = false →
  safe (tried (λ r g, ph g = Out ∧ g_op g = o ∧ value_ok c ctx m opts r.1 g)) (record core c ctx m opts) (idle o).
Proof.
  intros Hd. unfold record. rewrite Hd. split; [done|]. split; [done|]. split.
  { split; [by left|]. right. eexists. split; [done|]. split_and!; try done. right. eexists. split; [done|]. by left. }
  cbv zeta. destruct (validateMetricName _) as [err|] eqn:En.
  { split; [by right|]. right. eexists. split; [done|]. split_and!; try done. right. eexists. split; [done|]. right. by eapply name_errors. }
  eapply safe_bind; [apply safe_attrs|]. intros attrs g (ct & Hct & -> & Hph & Hha & Hop).
  eapply safe_try; [by apply safe_Record; rewrite Hph|by left|]. intros err g' ->.
  assert (Hg : served (at_ Live (hand (delivered c ct m opts) g))) by (split; [done|by eexists]).
  change (apply_options opts _) with (delivered c ct m opts). destruct err as [err|].
  { split; [by right|]. right. eexists. split; [done|]. split_and!; try done. left. exists ct. split; [done|].
    simpl. by rewrite Hha. }
  eapply (safe_try (λ _ g', g' = at_ Live (hand (delivered c ct m opts) g))); [|by left|].
  - destruct (root c); [by apply safe_versions|right; eauto].
  - intros u g' ->. split; [by right|]. right. eexists. split; [done|]. split_and!; try done. left. exists ct.
    split; [done|]. simpl. by rewrite Hha.
Qed.

Lemma safe_isClosed o : safe (λ _ g, g = idle o) isClosed (idle o).
Proof. split; [done|]. split; [done|]. split; (split; [by auto|done]). Qed.

Lemma safe_value core c ctx typ name value opts o :
  disabled core = false →
  safe (tried (λ err g, ph g = Out ∧ g_op g = o ∧ ∃ now, value_ok c ctx (fresh_metric typ name value now) opts err g))
    (recordValue core c ctx typ name value opts) (idle o).
Proof.
  intros Hd. unfold recordValue. rewrite Hd. destruct (validateMetricInput name value) as [err|] eqn:Ei.
  - eapply safe_bind; [apply safe_isClosed|]. intros b g ->. right. eexists. split; [done|]. split_and!; try done.
    exists 0. right. eexists. split; [done|]. destruct b; [by left|right; by eapply input_errors].
  - intros pooled now. eapply safe_try; [by apply safe_record|by left|]. intros [err m'] g (Hph & Hop & Hv).
    destruct err as [err|]; simpl; [intros _|]; right; eexists; (split; [done|]); split_and!; try done; by exists now.
Qed.

Lemma safe_shutdown core ctx o : safe (λ _ g, ph g = Out ∧ g_op g = o) (shutdown core ctx) (idle o).
Proof.
  unfold shutdown. destruct (disabled core); [done|]. split; [done|]. split; [|done].
  repeat (split; [done|]). eapply (safe_bind (λ _ g, g = at_ Closer (idle o))).
  { destruct (collector core); [by intros e|done]. }
  intros ce g ->. split; [done|]. apply safe_pipeline_bind. intros pe. by repeat split.
Qed.

Lemma safe_event core c ctx ev o : safe (λ _ g, ph g = Out ∧ g_op g = o) (Event core c ctx ev) (idle o).
Proof.
  unfold Event, sendEvent. destruct (disabled core); [done|]. split; [done|]. split; [done|]. split.
  { split; [by left|done]. }
  destruct p_sender as [send|]; [|by split; [right|]]. eapply safe_bind; [apply safe_attrs|].
  intros attrs g (ct & _ & _ & Hph & _ & Hop). destruct (admitKeys attrs); [by split; [right|]|].
  intros out. simpl. destruct out; [by split; [right|]| |];
    (intros b; apply safe_pipeline_bind; intros u; by split; [right|]).
Qed.

Lemma program_safe core o : disabled core = false → safe finished (program core o) (idle o).
Proof.
  intros Hd. destruct o as [c ctx typ name value opts|c ctx m|c ctx|c ctx|c ctx|c ctx ev| |ctx kvs|ctx kvs]; cbn [program].
  - eapply safe_bind; [by apply safe_value|]. intros r g [->|(err & -> & Hph & Hop & Hv)]; [by left|].
    right. split; [done|]. unfold result_ok. by rewrite Hop.
  - eapply safe_bind; [by apply safe_record|]. intros r g [->|([err m'] & -> & Hph & Hop & Hv)]; [by left|].
    right. split; [done|]. unfold result_ok. by rewrite Hop.
  - unfold Flush. rewrite Hd. eapply (safe_bind (λ _ g, ph g = Out ∧ g_op g = OpFlush c ctx)).
    + eapply safe_bind; [apply safe_isClosed|]. intros b g ->. destruct b; [done|].
      eapply safe_mono; [apply safe_pipeline|]. by intros a g ->.
    + intros e g [Hph Hop]. right. split; [done|]. unfold result_ok. by rewrite Hop.
  - eapply (safe_bind (λ _ g, ph g = Out ∧ g_op g = OpShutdown c ctx)).
    + unfold Shutdown. destruct (root c); [apply safe_shutdown|done].
    + intros e g [Hph Hop]. right. split; [done|]. unfold result_ok. by rewrite Hop.
  - eapply (safe_bind (λ _ g, ph g = Out ∧ g_op g = OpClose c ctx)).
    + unfold Close, Shutdown. destruct (root c); [apply safe_shutdown|done].
    + intros e g [Hph Hop]. right. split; [done|]. unfold result_ok. by rewrite Hop.
  - eapply safe_bind; [apply safe_event|]. intros e g [Hph Hop]. right. split; [done|]. unfold result_ok. by rewrite Hop.
  - unfold Stats. rewrite Hd. split; [done|].
    eapply (safe_bind (λ _ g, ph g = Out ∧ g_op g = OpStats)); [|intros st g [Hph Hop]; right; split; [done|]; unfold result_ok; by rewrite Hop].
    apply safe_pipeline_bind. intros st. split; [done|]. split; intros n; (split; [by auto|done]).
  - intros ref. by right.
  - unfold ContextAddTags. destruct (ctx_tags ctx); [intros u|]; by right.
Qed.

(** ** The theorems *)
Lemma new_core_inv os p now : client_inv (new_core p now) (idle <$> os).
Proof.
  assert (Hz : ∀ f : ghost → Z, (∀ o, f (idle o) = 0) → zsum f (idle <$> os) = 0).
  { intros f Hf. induction os as [|o os' IH]; [done|]. change (f (idle o) + zsum f (idle <$> os') = 0). by rewrite Hf, IH. }
  split; simpl; rewrite ?Hz by done; try done.
  - intros [|] l2 Heq; done.
  - intros g m (o & -> & _)%list_elem_of_fmap. done.
  - intros g r kvs (o & -> & _)%list_elem_of_fmap Hin. by apply not_elem_of_nil in Hin.
Qed.

Lemma client_runs core os p now c :
  disabled core = false →
  gsteps handle env (program core <$> os, new_core p now) c →
  ∃ gs, Forall2 (safe finished) c.1 gs ∧ g_op <$> gs = os ∧ client_inv c.2 gs.
Proof.
  intros Hd Hr.
  assert (Hall : ∃ gs, Forall2 (safe finished) c.1 gs ∧ (g_op <$> gs = os ∧ client_inv c.2 gs)); [|done].
  eapply (pool_invariant handle env (safe finished) (λ s gs, g_op <$> gs = os ∧ client_inv s gs)); [| |exact Hr|].
  - intros B e k g s gs i b s' Hi Hp [Hop HI] Hin.
    destruct (client_step _ _ e k g s gs i b s' Hi Hp HI Hin) as (g' & [Hs Hg] & HI'). exists g'. split_and!; try done.
    rewrite list_fmap_insert, Hg, list_insert_id; [done|]. by rewrite list_lookup_fmap, Hi.
  - intros s s' gs [Hop HI] (t & q & ->). split; [done|]. eapply core_frame; [done|]. by repeat split.
  - exists (idle <$> os). split_and!; [| |by apply new_core_inv].
    + simpl. apply Forall2_fmap, Forall_Forall2_diag, Forall_true. intros o. by apply program_safe.
    + rewrite <-list_fmap_compose. apply list_fmap_id.
Qed.

(** *** Calls made after the client is closed *)

(** [late Q p]: when the client is closed, [p] calls no Record and ends with [Q]. *)
Fixpoint late {A} (Q : A → Prop) (p : prog act A) : Prop :=
  match p with
  | Ret r => Q r
  | Act e k =>
      match e in act B return (B → prog act A) → Prop with
      | LoadClosed => λ k, late Q (k true)
      | CallRecord _ => λ k, False
      | _ => λ k, ∀ b, late Q (k b)
      end k
  end.

Lemma late_bind {A C} (Q : A → Prop) (R : C → Prop) p f :
  late Q p → (∀ a, Q a → late R (f a)) → late R (bind p f).
Proof.
  intros Hp HQ. induction p as [a|B e k IH]; [by apply HQ|]. destruct e; simpl in *; auto.
Qed.

Lemma late_pipeline {A} (p : prog pact A) : late (λ _, True) (pipeline p).
Proof. induction p as [a|B e k IH]; [done|]. intros b. apply IH. Qed.

Definition closed_result (o : op) (r : result) : Prop :=
  match o with
  | OpValue _ _ _ _ _ _ | OpMetric _ _ _ | OpFlush _ _ | OpEvent _ _ _ => r = Returned (Some (ErrIs ErrClientClosed))
  | OpStats => ∃ st, r = GotStats st ∧ cs_Closed st = true
  | _ => True
  end.

Lemma late_record core c ctx m opts :
  disabled core = false → late (λ r, ∃ m', r = Some (Some (ErrIs ErrClientClosed), m')) (record core c ctx m opts).
Proof. intros Hd. unfold record. rewrite Hd. intros u u'. by eexists. Qed.

Definition recording (o : op) : bool :=
  match o with OpValue _ _ _ _ _ _ | OpMetric _ _ _ | OpFlush _ _ | OpEvent _ _ _ | OpStats => true | _ => false end.

Lemma program_late core o :
  disabled core = false → recording o = true → late (closed_result o) (program core o).
Proof.
  intros Hd Hr. destruct o as [c ctx typ name value opts|c ctx m|c ctx|c ctx|c ctx|c ctx ev| |ctx kvs|ctx kvs]; try done; cbn [program].
  - eapply (late_bind (λ r, r = Some (Some (ErrIs ErrClientClosed)))); [|by intros r ->].
    unfold recordValue. rewrite Hd. destruct (validateMetricInput name value); [by intros u u'|]. intros pooled now.
    eapply late_bind; [by apply late_record|]. by intros r [m' ->].
  - eapply late_bind; [by apply late_record|]. by intros r [m' ->].
  - unfold Flush. rewrite Hd. by intros u u'.
  - unfold Event, sendEvent. rewrite Hd. by intros u u'.
  - unfold Stats. rewrite Hd. intros u.
    eapply (late_bind (λ st, cs_Closed st = true)); [eapply (late_bind (λ _, True)); [apply late_pipeline|]|].
    + by intros st _ n u'.
    + intros st Hst. by exists st.
Qed.

Lemma closed_stays B (e : act B) s b s' : (b, s') ∈ handle B e s → closed s = true → closed s' = true.
Proof.
  intros Hin Hc. destruct e as [| | | | | |[]|[]| | |ref| | | | | | | | | | |]; simpl in Hin; repeat case_match;
    try (by inversion Hin);
    try (by apply list_elem_of_singleton in Hin as [= -> ->]);
    try (by apply list_elem_of_fmap in Hin as (o & [= -> ->] & _)).
  apply elem_of_cons in Hin as [[= -> ->]|Hin]; [done|]. by apply pool_outcomes_frame in Hin as [q ->].
Qed.

Lemma late_runs (Q : result → Prop) c c2 i p r :
  gsteps handle env c c2 → closed c.2 = true → c.1 !! i = Some p → late Q p → c2.1 !! i = Some (Ret r) → Q r.
Proof.
  intros Hr Hc Hi Hl Hr2. set (P := λ (p : prog act result) (b : bool), b = true → late Q p).
  assert (Hall : ∃ bs, Forall2 P c2.1 bs ∧ (closed c2.2 = true ∧ bs !! i = Some true)).
  { eapply (pool_invariant handle env P (λ s bs, closed s = true ∧ bs !! i = Some true)); [| |exact Hr|].
    - intros B e k g s gs j b s' Hj HP [Hs Hbi] Hin. exists g. rewrite list_insert_id by done.
      split; [|split; [by eapply closed_stays|done]]. intros ->. specialize (HP eq_refl).
      destruct e; simpl in HP; try (by apply HP); [|done].
      apply list_elem_of_singleton in Hin as [= -> ->]. by rewrite Hs.
    - intros s s' bs [Hs Hb] (t & q & ->). done.
    - exists ((λ j, bool_decide (j = i)) <$> seq 0 (length c.1)). split_and!; [|done|].
      + apply Forall2_same_length_lookup. rewrite length_fmap, length_seq. split; [done|].
        intros j q b Hq Hb Hbt. subst b. apply list_lookup_fmap_Some in Hb as (j' & Hb & Hj').
        apply lookup_seq in Hj' as [-> _]. symmetry in Hb. apply bool_decide_eq_true in Hb. simpl in Hb. subst. by simplify_eq.
      + rewrite list_lookup_fmap. rewrite lookup_seq_lt by (by eapply lookup_lt_Some). simpl. by rewrite bool_decide_true. }
  destruct Hall as (bs & HF & _ & Hb). exact (Forall2_lookup_lr _ _ _ _ _ _ HF Hr2 Hb eq_refl).
Qed.

(** The tags a context carries are a prefix of what its tag set holds later. *)
Definition context_tags (ctx : Context_) (ct : list KeyValue) (s : state) : Prop :=
  match ctx_tags ctx with None => ct = [] | Some ref => ct `prefix_of` default [] (tag_sets s !! ref) end.

(** What a returned call has done: its metric went to the pipeline, under the full name
    and with the tags of view, context, metric and options in this order, or the call was
    refused before. *)
Definition served_or_refused (s : state) (o : op) (r : result) : Prop :=
  match o, r with
  | OpValue c ctx typ name value opts, Returned err =>
      (∃ now ct, context_tags ctx ct s ∧ EvRecord (delivered c ct (fresh_metric typ name value now) opts) ∈ history s)
      ∨ refused err
  | OpMetric c ctx m, Returned err =>
      (∃ ct, context_tags ctx ct s ∧ EvRecord (delivered c ct m []) ∈ history s) ∨ refused err
  | _, _ => True
  end.

Lemma value_ok_history c ctx m opts err g s gs i :
  client_inv s gs → gs !! i = Some g → value_ok c ctx m opts err g →
  (∃ ct, context_tags ctx ct s ∧ EvRecord (delivered c ct m opts) ∈ history s) ∨ refused err.
Proof.
  intros HI Hi [(ct & Hct & Hh)|Hr]; [left|by right]. apply list_elem_of_lookup_2 in Hi. exists ct.
  split; [|by eapply inv_handed]. unfold context_read in Hct. unfold context_tags. destruct (ctx_tags ctx); [|done].
  by eapply inv_seen.
Qed.

(** Every call that returned was served or refused. *)
Lemma calls_served core os p now c i o r :
  disabled core = false → gsteps handle env (program core <$> os, new_core p now) c →
  os !! i = Some o → c.1 !! i = Some (Ret r) → served_or_refused c.2 o r.
Proof.
  intros Hd Hr Ho Hi. destruct (client_runs core os p now c Hd Hr) as (gs & HF & Hop & HI).
  destruct (Forall2_lookup_l _ _ _ _ _ HF Hi) as (g & Hg & [->|[_ Hres]]); [by destruct o|].
  assert (g_op g = o) as Hgo by (rewrite <-Hop, list_lookup_fmap, Hg in Ho; by injection Ho).
  unfold result_ok in Hres. rewrite Hgo in Hres. destruct o, r; try done; simpl.
  - destruct Hres as [t Hv]. destruct (value_ok_history _ _ _ _ _ _ _ _ _ HI Hg Hv) as [(ct & Hc & Hh)|]; [|by right].
    left. by exists t, ct.
  - by eapply value_ok_history.
Qed.

(** C24. Goroutines that use a client at the same time, under every interleaving, with the
    pipeline's own goroutines changing its state at will: pipeline.Shutdown is called at
    most once, when no call of pipeline.Record is open, and no call of Record follows it; a
    recording call that returns nil has handed the pipeline the metric it describes, and one
    that returns an error has either done so too or was refused as closed or invalid; and a
    call made once the client is closed returns ErrClientClosed (Stats: shows it closed). *)
Theorem client_lifecycle core os p now c :
  disabled core = false →
  gsteps handle env (program core <$> os, new_core p now) c →
  (∀ l1 l2, history c.2 = l1 ++ EvShutdown :: l2 → in_flight l1 = 0 ∧ l2 = [])
  ∧ (∀ i o r, os !! i = Some o → c.1 !! i = Some (Ret r) → served_or_refused c.2 o r)
  ∧ (∀ i o c2 r, c.1 !! i = Some (program core o) → recording o = true → closed c.2 = true →
       gsteps handle env c c2 → c2.1 !! i = Some (Ret r) → closed_result o r).
Proof.
  intros Hd Hr. destruct (client_runs core os p now c Hd Hr) as (gs & HF & Hop & HI). split_and!.
  - apply (inv_ordered _ _ HI).
  - intros i o r Ho Hi. by eapply calls_served.
  - intros i o c2 r Hi Hrec Hc Hr2 Hi2. by eapply late_runs; [..|apply program_late|].
Qed.

End safe.

(** ** Names and tags of nested views *)
Section views.
Context `{Pipelines} `{!AttributesLaws}.
#[local] Set Default Proof Using "Type*".













End views.

(** ** A concrete run: a recording through a view, a shutdown, a late recording *)
Definition demo_sender (timeout : option Z) (ev : @DatadogEvent toy_attributes) : list Pipeline.outcome := [Pipeline.Ok].
#[local] Instance demo_pipeline : @Pipelines toy_attributes :=
  pipeline_instance (Pipeline.mkConfig 10000 Pipeline.DropNewest 10 1000 100 false)
    [Pipeline.mkExporter (str "datadog") None (λ _ _, Pipeline.Ok) None None] 0 1 (λ _, Some demo_sender).

Definition demo_core : clientCore :=
  mkCore DefaultConfig false false None (mkBuild None (str "go1.25.5")).
Definition demo_root : Client := mkClient (str "app") [String_kv (str "region") (str "eu")] true.
Definition demo_view : Client := WithPrefix demo_root (str "api") [WithAttribute (str "region") (str "us")].
Definition demo_calls : list op :=
  [OpValue demo_view Background MetricTypeCounter (str "req") f_one [WithAttribute (str "code") (str "200")];
   OpShutdown demo_root 1;
   OpValue demo_view Background MetricTypeCounter (str "req") f_one []].

Definition demo_state : state :=
  new_core (Pipeline.Start 0 (Pipeline.new_state [Pipeline.mkExporter (str "datadog") None (λ _ _, Pipeline.Ok) None None] 4 None 7)) 7.
Definition demo_results : list result :=
  [Returned None; Returned None; Returned (Some (ErrIs ErrClientClosed))].

Definition demo_start : list (prog act result) * state := (program demo_core <$> demo_calls, demo_state).

Lemma demo_runs :
  (c1 ← sched handle (replicate 19 0 ++ replicate 13 1)%nat demo_start;
   c2 ← sched handle (replicate 6 2)%nat c1;
   Some (closed c1.2, c2.1)) = Some (true, Ret <$> demo_results).
Proof. vm_cast_no_check (eq_refl (Some (true, Ret <$> demo_results) : option (bool * list (prog act result)))). Qed.

Lemma client_lifecycle_witness :
  ∃ s2, gsteps handle env demo_start (Ret <$> demo_results, s2)
    ∧ (∃ now ct, EvRecord (delivered demo_view ct (fresh_metric MetricTypeCounter (str "req") f_one now)
                             [WithAttribute (str "code") (str "200")]) ∈ history s2)
    ∧ closed_result (OpValue demo_view Background MetricTypeCounter (str "req") f_one [])
        (Returned (Some (ErrIs ErrClientClosed))).
Proof.
  assert (Ht : 2%nat ∉ (replicate 19 0 ++ replicate 13 1)%nat) by (apply (bool_decide_unpack _); vm_compute; exact I).
  destruct (sched_parts handle env (λ s1 _, closed s1) _ _ _ 2%nat _ _ Ht demo_runs)
    as (ts1 & s1 & s2 & H1 & Ht1 & H2 & Hc).
  assert (Hall : gsteps handle env demo_start (Ret <$> demo_results, s2)) by (etrans; [exact H1|exact H2]).
  exists s2. split; [exact Hall|]. split.
  - destruct (client_lifecycle demo_core demo_calls _ _ _ eq_refl Hall) as (_ & Hs & _).
    destruct (Hs 0%nat _ _ eq_refl eq_refl) as [(now & ct & _ & Hin)|(e & He & _)]; [|discriminate].
    exists now, ct. exact Hin.
  - destruct (client_lifecycle demo_core demo_calls _ _ _ eq_refl H1) as (_ & _ & Hl).
    exact (Hl 2%nat _ _ _ Ht1 eq_refl Hc H2 eq_refl).
Defined.



