(* ===== verification/Prom.v ===== *)
(** * Prometheus pull exposition (exporters/prometheus/exposition.go,
      exposition_registry.go, exposition_write.go, store.go, handler.go;
      prometheus_handler.go)

    A [Handler] folds observations into families of series and renders them as text.
    Its clock readings and the order in which a Go map is walked are arguments or the
    order of [map_to_list]; the text does not depend on the latter.  The theorems are in
    [PromCorrect]. *)

From S2P Require Import Prelude GoLib Strconv Strings Attribute Metric Cardinality Config Options Otlp.

(** ** Names (exposition.go) *)

(** One rune of a name; [first] when it is at index 0. *)
Definition normalize_rune (allowColon first : bool) (r : gostring) : gostring :=
  match r with
  | [b] =>
      if is_letter b || bool_decide (b = byte_of 95) then [b]
      else if is_digit b then (if first then [byte_of 95] else []) ++ [b]
      else if bool_decide (b = byte_of 58) && allowColon then [b]
      else [byte_of 95]
  | _ => [byte_of 95]
  end.

Definition normalizeName (name : gostring) (allowColon : bool) : gostring :=
  match runes name with
  | [] => [byte_of 95]
  | r :: rs => normalize_rune allowColon true r ++ concat (map (normalize_rune allowColon false) rs)
  end.

Definition NormalizeMetricName (name : gostring) : gostring := normalizeName name true.
Definition NormalizeLabelName (name : gostring) : gostring := normalizeName name false.

(** strings.HasSuffix *)
Definition has_suffix (s p : gostring) : bool := has_prefix (rev s) (rev p).

Definition CounterFamilyName (name : gostring) : gostring :=
  let n := NormalizeMetricName name in
  if has_suffix n (str "_total") then n else n ++ str "_total".

(** ** Stable sorting: an element moves before those that are greater than it. *)
Section sorting.
Context {A : Type} (ltb : A → A → bool).

Fixpoint insert_stable (x : A) (l : list A) : list A :=
  match l with
  | [] => [x]
  | y :: l' => if ltb x y then x :: y :: l' else y :: insert_stable x l'
  end.

Definition sort_stable (l : list A) : list A := foldl (λ acc x, insert_stable x acc) [] l.
End sorting.

(** ** Labels, series and families *)
Record Label := mkLabel { l_Name : gostring; l_Value : gostring }.
#[global] Instance Label_eq_dec : EqDecision Label.
Proof. solve_decision. Defined.

Record HistogramData := mkHistogram { hd_Bounds : list float64; hd_Counts : list Z; hd_Sum : float64 }.
Record Series := mkSeries { s_Labels : list Label; s_Value : float64; s_Histogram : option HistogramData }.
Record Family := mkFamily { f_Name : gostring; f_Type : MetricType; f_Series : list Series }.

Definition reserved (typ : MetricType) (name : gostring) : bool :=
  has_prefix name (str "__") || (bool_decide (typ = MetricTypeHistogram) && gostring_eqb name (str "le")).

Definition exposed_name (typ : MetricType) (key : gostring) : gostring :=
  let name := NormalizeLabelName key in
  if reserved typ name then byte_of 95 :: name else name.

(** The loop that looks for equal neighbours. *)
Fixpoint label_collision (labels : list Label) : bool :=
  match labels with
  | a :: (b :: _) as rest => gostring_eqb (l_Name b) (l_Name a) || label_collision rest
  | _ => false
  end.

(** ** The registry (exposition_registry.go) *)
Record FamilyRegistry := mkRegistry { r_families : gmap gostring (gostring * MetricType); r_series : gmap gostring gostring }.

Definition NewFamilyRegistry : FamilyRegistry := mkRegistry ∅ ∅.

Definition seriesNames (family : gostring) (typ : MetricType) : list gostring :=
  if bool_decide (typ = MetricTypeHistogram)
  then [family ++ str "_bucket"; family ++ str "_sum"; family ++ str "_count"]
  else [family].

Definition family_name (source : gostring) (typ : MetricType) : gostring :=
  if bool_decide (typ = MetricTypeCounter) then CounterFamilyName source else NormalizeMetricName source.

Definition collision (msg : gostring) : error := ErrWrapAfter (ErrIs ErrFamilyCollision) msg.

(** The loop over the names a family would expose. *)
Fixpoint taken (r : FamilyRegistry) (names : list gostring) : option error :=
  match names with
  | [] => None
  | s :: rest =>
      match r_families r !! s with
      | Some _ => Some (collision (str "series is an existing family"))
      | None => match r_series r !! s with
                | Some _ => Some (collision (str "series is owned by a family"))
                | None => taken r rest
                end
      end
  end.

Definition Register (r : FamilyRegistry) (source : gostring) (typ : MetricType) : FamilyRegistry * (gostring + error) :=
  let family := family_name source typ in
  match r_families r !! family with
  | Some (source', typ') =>
      if gostring_eqb source' source && bool_decide (typ' = typ) then (r, inl family)
      else (r, inr (collision (str "conflict on a family")))
  | None =>
      match r_series r !! family with
      | Some _ => (r, inr (collision (str "conflict on a series")))
      | None =>
          let names := seriesNames family typ in
          match taken r names with
          | Some err => (r, inr err)
          | None => (mkRegistry (<[family := (source, typ)]> (r_families r))
                       (foldl (λ m s, <[s := family]> m) (r_series r) names), inl family)
          end
      end
  end.

(** ** The store (store.go) *)
Record storeSeries := mkStoreSeries {
  ss_labels : list Label; ss_value : float64; ss_gaugeTime : Z; ss_counts : list Z; ss_sum : float64; ss_updated : Z }.
Record storeFamily := mkStoreFamily { sf_typ : MetricType; sf_bounds : list float64; sf_series : gmap gostring storeSeries }.

(** [h_Buckets] is the configured lookup, nil when [None]; the registry and the map of
    families are made by the first Export. *)
Record Handler := mkHandler {
  h_TrimPrefix : gostring; h_MetricTimeout : Z; h_Buckets : option (gostring → list float64);
  h_registry : FamilyRegistry; h_families : gmap gostring storeFamily }.

Definition PullExporterName : gostring := str "prometheus-pull".
Definition DefaultMetricTimeout : Z := 120 * Second.

Definition timeout (h : Handler) : Z := if 0 <? h_MetricTimeout h then h_MetricTimeout h else DefaultMetricTimeout.

Definition bucketsFor (h : Handler) (name : gostring) : list float64 :=
  match h_Buckets h with
  | Some f => if 0 <? len (f name) then f name else DefaultHistogramBuckets
  | None => DefaultHistogramBuckets
  end.

(** labelsKey: every string preceded by its length. *)
Definition label_key (l : Label) : gostring :=
  FormatInt (len (l_Name l)) ++ [byte_of 58] ++ l_Name l ++ [byte_of 61]
  ++ FormatInt (len (l_Value l)) ++ [byte_of 58] ++ l_Value l ++ [byte_of 59].
Definition labelsKey (labels : list Label) : gostring := concat (map label_key labels).

(** sort.SearchFloat64s *)
Definition SearchFloat64s (bounds : list float64) (x : float64) : nat :=
  sort_Search (length bounds) (λ i, negb (flt (default f_zero (bounds !! i)) x)).

Section store.
Context `{Attributes} (value_String : value → gostring).

(** ExposedLabels: normalized, reserved names marked, sorted; a name given twice is an error. *)
Definition ExposedLabels (typ : MetricType) (attrs : list KeyValue) : list Label + error :=
  let labels := map (λ kv, mkLabel (exposed_name typ kv.1) (value_String kv.2)) attrs in
  let labels := sort_stable (λ a b, gs_ltb (l_Name a) (l_Name b)) labels in
  if label_collision labels then inr (ErrWrapAfter (ErrIs ErrLabelCollision) (str "label given twice")) else inl labels.

Definition with_families (h : Handler) (r : FamilyRegistry) (f : gmap gostring storeFamily) : Handler :=
  mkHandler (h_TrimPrefix h) (h_MetricTimeout h) (h_Buckets h) r f.

(** family: the family, made on first use; invalid bounds make none. *)
Definition family (h : Handler) (famName : gostring) (m : Metric) : storeFamily + error :=
  match h_families h !! famName with
  | Some fam => inl fam
  | None =>
      if bool_decide (Type_ m = MetricTypeHistogram) then
        let bounds := bucketsFor h (Name m) in
        match ValidateHistogramBuckets bounds with
        | Some err => inr (ErrWrap (str "prometheus: histogram") err)
        | None => inl (mkStoreFamily (Type_ m) bounds ∅)
        end
      else inl (mkStoreFamily (Type_ m) [] ∅)
  end.

(** The series of the labels, made on first use; a gauge begins with the observation. *)
Definition new_series (fam : storeFamily) (labels : list Label) (m : Metric) : storeSeries :=
  let counts := if bool_decide (Type_ m = MetricTypeHistogram) then replicate (S (length (sf_bounds fam))) 0 else [] in
  if bool_decide (Type_ m = MetricTypeGauge)
  then mkStoreSeries labels (Value m) (Timestamp m) counts f_zero 0
  else mkStoreSeries labels f_zero 0 counts f_zero 0.

Definition apply_metric (fam : storeFamily) (m : Metric) (now : Z) (s : storeSeries) : storeSeries :=
  match Type_ m with
  | MetricTypeCounter => mkStoreSeries (ss_labels s) (fadd (ss_value s) (Value m)) (ss_gaugeTime s) (ss_counts s) (ss_sum s) now
  | MetricTypeGauge =>
      if ss_gaugeTime s <? Timestamp m
      then mkStoreSeries (ss_labels s) (Value m) (Timestamp m) (ss_counts s) (ss_sum s) now
      else mkStoreSeries (ss_labels s) (ss_value s) (ss_gaugeTime s) (ss_counts s) (ss_sum s) now
  | MetricTypeHistogram =>
      mkStoreSeries (ss_labels s) (ss_value s) (ss_gaugeTime s)
        (alter (λ n, u64 (n + 1)) (SearchFloat64s (sf_bounds fam) (Value m)) (ss_counts s)) (fadd (ss_sum s) (Value m)) now
  | MetricTypeOther _ => mkStoreSeries (ss_labels s) (ss_value s) (ss_gaugeTime s) (ss_counts s) (ss_sum s) now
  end.

(** observe, once the type and the value are accepted: labels first, so that labels that
    collide register nothing. *)
Definition store_metric (h : Handler) (m : Metric) (now : Z) : Handler * option error :=
  match ExposedLabels (Type_ m) (NewSet (Attributes_ m)) with
  | inr err => (h, Some err)
  | inl labels =>
      match Register (h_registry h) (trim_prefix (Name m) (h_TrimPrefix h)) (Type_ m) with
      | (r, inr err) => (with_families h r (h_families h), Some err)
      | (r, inl famName) =>
          match family h famName m with
          | inr err => (with_families h r (h_families h), Some err)
          | inl fam =>
              let key := labelsKey labels in
              let s := default (new_series fam labels m) (sf_series fam !! key) in
              let fam := mkStoreFamily (sf_typ fam) (sf_bounds fam) (<[key := apply_metric fam m now s]> (sf_series fam)) in
              (with_families h r (<[famName := fam]> (h_families h)), None)
          end
      end
  end.

Definition prom_observe (h : Handler) (m : Metric) (now : Z) : Handler * option error :=
  match Type_ m with
  | MetricTypeOther _ => (h, Some (ErrText (str "prometheus: metric has unsupported type")))
  | _ =>
      if bool_decide (Type_ m = MetricTypeHistogram) && is_nan (Value m)
      then (h, Some (ErrText (str "prometheus: histogram observed NaN")))
      else store_metric h m now
  end.

(** Export; a nil metric is skipped. *)
Fixpoint export_loop (h : Handler) (ms : list (option Metric)) (now : Z) (errs : list (option error)) : Handler * list (option error) :=
  match ms with
  | [] => (h, errs)
  | None :: rest => export_loop h rest now errs
  | Some m :: rest =>
      let '(h, err) := prom_observe h m now in
      export_loop h rest now (match err with Some _ => errs ++ [err] | None => errs end)
  end.

Definition prom_Export (h : Handler) (ms : list (option Metric)) (now : Z) : Handler * option error :=
  let '(h, errs) := export_loop h ms now [] in (h, errors_join errs).

End store.

(** snapshot: stale series are removed, the others copied; families without series are left out. *)
Definition fresh_series (cutoff : Z) (fam : storeFamily) : gmap gostring storeSeries :=
  filter (λ ks, ¬ ss_updated ks.2 < cutoff) (sf_series fam).

Definition series_of_store (fam : storeFamily) (s : storeSeries) : Series :=
  mkSeries (ss_labels s) (ss_value s)
    (if bool_decide (sf_typ fam = MetricTypeHistogram) then Some (mkHistogram (sf_bounds fam) (ss_counts s) (ss_sum s)) else None).

Definition expire (cutoff : Z) (fam : storeFamily) : storeFamily :=
  mkStoreFamily (sf_typ fam) (sf_bounds fam) (fresh_series cutoff fam).

Definition family_of_store (name : gostring) (fam : storeFamily) : Family :=
  mkFamily name (sf_typ fam) (map (λ ks, series_of_store fam ks.2) (map_to_list (sf_series fam))).

Definition snapshot (h : Handler) (now : Z) : Handler * list Family :=
  let cutoff := now - timeout h in
  let fams := expire cutoff <$> h_families h in
  (with_families h (h_registry h) fams,
   List.filter (λ f, 0 <? len (f_Series f)) (map (λ nf, family_of_store nf.1 nf.2) (map_to_list fams))).

(** ** The text format (exposition_write.go) *)

(** labelValueEscaper *)
Definition escape_byte (b : ascii) : gostring :=
  if bool_decide (b = byte_of 92) then [byte_of 92; byte_of 92]
  else if bool_decide (b = byte_of 34) then [byte_of 92; byte_of 34]
  else if bool_decide (b = byte_of 10) then [byte_of 92; byte_of 110]
  else [b].
Definition escapeLabelValue (v : gostring) : gostring := concat (map escape_byte v).

Definition formatValue (v : float64) : gostring :=
  if is_nan v then str "NaN"
  else if is_inf v then (if signbit v then str "-Inf" else str "+Inf")
  else FormatFloat v.

Definition writeLabel (l : Label) : gostring :=
  l_Name l ++ [byte_of 61; byte_of 34] ++ escapeLabelValue (l_Value l) ++ [byte_of 34].

Fixpoint write_labels (first : bool) (labels : list Label) : gostring :=
  match labels with
  | [] => []
  | l :: rest => (if first then [] else [byte_of 44]) ++ writeLabel l ++ write_labels false rest
  end.

Definition writeSample (name : gostring) (labels : list Label) (extra : option Label) (value : gostring) : gostring :=
  name
  ++ (if (0 <? len labels) || bool_decide (is_Some extra)
      then [byte_of 123] ++ write_labels true labels
           ++ (match extra with
               | Some l => (if 0 <? len labels then [byte_of 44] else []) ++ writeLabel l
               | None => []
               end) ++ [byte_of 125]
      else [])
  ++ [byte_of 32] ++ value ++ [byte_of 10].

(** strings.Compare as an order *)
Definition Compare (a b : gostring) : comparison :=
  if gs_ltb a b then Lt else if gs_ltb b a then Gt else Eq.

Fixpoint compareLabels (a b : list Label) : comparison :=
  match a, b with
  | x :: a', y :: b' =>
      match Compare (l_Name x) (l_Name y) with
      | Eq => match Compare (l_Value x) (l_Value y) with Eq => compareLabels a' b' | c => c end
      | c => c
      end
  | [], [] => Eq
  | [], _ :: _ => Lt
  | _ :: _, [] => Gt
  end.

Definition invalid_family (msg : string) : error := ErrWrapAfter (ErrIs ErrInvalidFamily) (str msg).

Fixpoint increasing (bounds : list float64) : bool :=
  match bounds with
  | a :: (b :: _) as rest => flt a b && increasing rest
  | _ => true
  end.

(** The buckets up to each bound, with the counts added up. *)
Fixpoint write_buckets (name : gostring) (labels : list Label) (bounds : list float64) (counts : list Z) (cum : Z) : gostring * Z :=
  match bounds, counts with
  | b :: bounds', n :: counts' =>
      let cum := u64 (cum + n) in
      let line := writeSample (name ++ str "_bucket") labels (Some (mkLabel (str "le") (FormatFloat b))) (FormatInt cum) in
      let '(text, total) := write_buckets name labels bounds' counts' cum in
      (line ++ text, total)
  | _, _ => ([], cum)
  end.

Definition writeHistogram (name : gostring) (s : Series) : gostring + error :=
  match s_Histogram s with
  | None => inr (invalid_family "histogram series has no data")
  | Some h =>
      if negb (len (hd_Counts h) =? len (hd_Bounds h) + 1) then inr (invalid_family "histogram has bounds and counts that do not fit")
      else if negb (increasing (hd_Bounds h)) then inr (invalid_family "histogram bounds are not strictly increasing")
      else
        let '(text, cum) := write_buckets name (s_Labels s) (hd_Bounds h) (hd_Counts h) 0 in
        let cum := u64 (cum + default 0 (hd_Counts h !! length (hd_Bounds h))) in
        inl (text
             ++ writeSample (name ++ str "_bucket") (s_Labels s) (Some (mkLabel (str "le") (str "+Inf"))) (FormatInt cum)
             ++ writeSample (name ++ str "_sum") (s_Labels s) None (formatValue (hd_Sum h))
             ++ writeSample (name ++ str "_count") (s_Labels s) None (FormatInt cum))
  end.

Definition writeSeries (f : Family) (s : Series) : gostring + error :=
  if negb (bool_decide (f_Type f = MetricTypeHistogram))
  then inl (writeSample (f_Name f) (s_Labels s) None (formatValue (s_Value s)))
  else writeHistogram (f_Name f) s.

(** Texts in turn, up to the first error. *)
Fixpoint write_all {A} (write : A → gostring + error) (l : list A) : gostring + error :=
  match l with
  | [] => inl []
  | x :: rest =>
      match write x with
      | inr err => inr err
      | inl t => match write_all write rest with inl ts => inl (t ++ ts) | inr err => inr err end
      end
  end.

Definition series_ltb (a b : Series) : bool := match compareLabels (s_Labels a) (s_Labels b) with Lt => true | _ => false end.

Definition writeFamily (f : Family) : gostring + error :=
  match f_Type f with
  | MetricTypeOther _ => inr (invalid_family "family has unsupported type")
  | _ =>
      match write_all (writeSeries f) (sort_stable series_ltb (f_Series f)) with
      | inr err => inr err
      | inl text => inl (str "# TYPE " ++ f_Name f ++ [byte_of 32] ++ MetricType_String (f_Type f) ++ [byte_of 10] ++ text)
      end
  end.

(** WriteFamilies: the text; the writer is the caller's. *)
Definition WriteFamilies (families : list Family) : gostring + error :=
  write_all writeFamily (sort_stable (λ a b, gs_ltb (f_Name a) (f_Name b)) families).

Definition WriteStats (h : Handler) (now : Z) : Handler * (gostring + error) :=
  let '(h, fams) := snapshot h now in (h, WriteFamilies fams).

(** ** Scrapes over HTTP (handler.go) *)

(** strings.EqualFold with an ASCII word whose letters have no other case outside ASCII. *)
Definition equal_fold (s : gostring) (word : string) : bool := gostring_eqb (map lower_byte s) (str word).

(** The parameters in turn; a q that is not a number ends the search. *)
Fixpoint quality_loop (ps : list gostring) : option float64 :=
  match ps with
  | [] => None
  | p :: rest =>
      match cut_byte (byte_of 61) (TrimSpace p) with
      | (k, Some v) => if equal_fold (TrimSpace k) "q" then ParseFloat (TrimSpace v) else quality_loop rest
      | (_, None) => quality_loop rest
      end
  end.

Definition qualityOf (params : gostring) : option float64 := quality_loop (split_byte (byte_of 59) params).

Definition accepts_part (part : gostring) : bool :=
  let '(coding, params) := cut_byte (byte_of 59) (TrimSpace part) in
  equal_fold (TrimSpace coding) "gzip"
  && match qualityOf (default [] params) with Some q => negb (fle q f_zero) | None => true end.

Definition acceptsGzip (values : list gostring) : bool :=
  existsb (λ v, existsb accepts_part (split_byte (byte_of 44) v)) values.

Definition ContentType : gostring := str "text/plain; version=0.0.4; charset=utf-8".

(** A response: status, headers in the order they are set, body. *)
Record response := mkResponse { rs_status : Z; rs_headers : list (string * gostring); rs_body : gostring }.

(** http.Error: a plain text body behind the headers set so far. *)
Definition http_Error (headers : list (string * gostring)) (msg : gostring) (status : Z) : response :=
  mkResponse status
    (headers ++ [("Content-Type"%string, str "text/plain; charset=utf-8"); ("X-Content-Type-Options"%string, str "nosniff")])
    (msg ++ [byte_of 10]).

(** [gzip] compresses; writing to memory does not fail.  [Error] is the text of an error. *)
Definition ServeHTTP (gzip : gostring → gostring) (Error : error → gostring) (h : Handler) (now : Z) (method : gostring)
    (accept : list gostring) : Handler * response :=
  let vary := [("Vary"%string, str "Accept-Encoding")] in
  let get := gostring_eqb method (str "GET") in
  let head := gostring_eqb method (str "HEAD") in
  if negb get && negb head
  then (h, http_Error (vary ++ [("Allow"%string, str "GET, HEAD")]) (str "method not allowed") 405)
  else
    match WriteStats h now with
    | (h, inr err) => (h, http_Error vary (str "render metrics: " ++ Error err) 500)
    | (h, inl body) =>
        let zip := acceptsGzip accept in
        let out := if zip then gzip body else body in
        let headers := vary ++ (if zip then [("Content-Encoding"%string, str "gzip")] else [])
                       ++ [("Content-Type"%string, ContentType); ("Content-Length"%string, FormatInt (len out))] in
        (h, mkResponse 200 headers (if head then [] else out))
    end.

(** ** A handler of a client (prometheus_handler.go) *)
Section handler_option.
Context `{Attributes}.

(** WithPrometheusHandler: the configuration lists custom exporters by name, nil as [None]. *)
Definition WithPrometheusHandler (h : option Handler) : Option :=
  match h with
  | None => WithExporter None
  | Some _ => WithExporter (Some PullExporterName)
  end.

Definition bindBuckets (cfg : Config) (h : Handler) : Handler :=
  match h_Buckets h with
  | Some _ => h
  | None =>
      let byName := HistogramBucketsByName cfg in
      let global := match OTLP cfg with Some o => default [] (o_HistogramBuckets o) | None => [] end in
      mkHandler (h_TrimPrefix h) (h_MetricTimeout h) (Some (BucketsFor byName global)) (h_registry h) (h_families h)
  end.

(** The custom exporters, those that are handlers as [Some]. *)
Definition bindPullHandlers (cfg : Config) (exporters : list (option Handler)) : list (option Handler) :=
  map (option_map (bindBuckets cfg)) exporters.
End handler_option.
