(* ===== verification/PromCorrect.v ===== *)
(** * Prometheus pull exposition: theorems

    The registry never lets two families expose one name, and the key of a series
    determines its labels.  From this: [exposition_unique], a scrape always renders, and
    no two of its samples have the same name and labels; and [pull_store_refines], the
    store holds for every series the total, newest value or bucket counts of its
    observations since it last expired. *)

From stdpp Require Import sorting.
From S2P Require Import Prelude GoLib Strconv Strings Attribute Metric Cardinality Config Options Otlp Expo ExpoSpec ExpoCorrect Prom.
From S2P Require Import DogStatsDParse.

Definition ind (b : bool) : Z := if b then 1 else 0.

(** ** Keys *)
Lemma cut_unique {A} (x : A) a b r s : x ∉ a → x ∉ b → a ++ x :: r = b ++ x :: s → a = b ∧ r = s.
Proof.
  revert b. induction a as [|y a IH]; intros [|z b] Ha Hb; simpl; intros Heq; simplify_eq.
  - done.
  - exfalso. apply Hb. by left.
  - exfalso. apply Ha. by left.
  - rewrite not_elem_of_cons in Ha, Hb. destruct Ha, Hb. by destruct (IH b) as [-> ->].
Qed.

Lemma FormatInt_inj a b : 0 ≤ a → 0 ≤ b → FormatInt a = FormatInt b → a = b.
Proof.
  intros Ha Hb. unfold FormatInt. destruct (Z.ltb_spec a 0), (Z.ltb_spec b 0); try lia. intros Heq.
  destruct (format_uint_spec a Ha) as (_ & <- & _). destruct (format_uint_spec b Hb) as (_ & <- & _). by rewrite Heq.
Qed.

(** A string behind its length. *)
Lemma counted_inj (s t : gostring) r q :
  FormatInt (len s) ++ [byte_of 58] ++ s ++ r = FormatInt (len t) ++ [byte_of 58] ++ t ++ q → s = t ∧ r = q.
Proof.
  intros Heq. pose proof (len_nonneg s) as Hs. pose proof (len_nonneg t) as Ht.
  assert (Hc : is_dec (byte_of 58) = false) by done.
  apply cut_unique in Heq as [Hl Hr]; [|by apply dec_fresh, FormatInt_digits..].
  apply FormatInt_inj in Hl; [|done..]. unfold len in Hl. apply app_inj_1 in Hr; [done|lia].
Qed.

Lemma label_key_inj a b r s : label_key a ++ r = label_key b ++ s → a = b ∧ r = s.
Proof.
  unfold label_key. rewrite <-!app_assoc. intros Heq. apply counted_inj in Heq as [Hn Heq].
  injection Heq as Heq. apply counted_inj in Heq as [Hv Heq]. injection Heq as ->.
  destruct a, b. simpl in *. by subst.
Qed.

Lemma label_key_nonempty l : label_key l ≠ [].
Proof. unfold label_key. intros H. by apply app_nil in H as [_ H]. Qed.

Lemma labelsKey_inj a b : labelsKey a = labelsKey b → a = b.
Proof.
  unfold labelsKey. revert b. induction a as [|l a IH]; intros [|k b] Heq; simpl in Heq; [done| | |].
  - symmetry in Heq. apply app_nil in Heq as [Heq _]. by apply label_key_nonempty in Heq.
  - apply app_nil in Heq as [Heq _]. by apply label_key_nonempty in Heq.
  - apply label_key_inj in Heq as [-> Heq]. f_equal. by apply IH.
Qed.

(** ** The registry *)

(** A family owns the names its series expose, and no other family has one of them. *)
Record registry_ok (r : FamilyRegistry) : Prop := mkRegistryOk {
  ok_owned : ∀ f src t n, r_families r !! f = Some (src, t) → n ∈ seriesNames f t → r_series r !! n = Some f;
  ok_owner : ∀ n f, r_series r !! n = Some f → ∃ src t, r_families r !! f = Some (src, t) ∧ n ∈ seriesNames f t;
  ok_apart : ∀ n f, r_series r !! n = Some f → n ≠ f → r_families r !! n = None }.

Lemma taken_none r (names : list gostring) : taken r names = None ↔ ∀ n, n ∈ names → r_families r !! n = None ∧ r_series r !! n = None.
Proof.
  induction names as [|s rest IH]; simpl.
  - split; [|done]. intros _ n Hn. by apply not_elem_of_nil in Hn.
  - setoid_rewrite elem_of_cons. destruct (r_families r !! s) eqn:Ef; [naive_solver|].
    destruct (r_series r !! s) eqn:Es; [naive_solver|]. rewrite IH. naive_solver.
Qed.

Lemma claim_lookup (f : gostring) (names : list gostring) (m : gmap gostring gostring) (n : gostring) :
  foldl (λ m s, <[s := f]> m) m names !! n = if decide (n ∈ names) then Some f else m !! n.
Proof.
  revert m. induction names as [|s rest IH]; intros m; cbn [foldl]; [by rewrite decide_False by apply not_elem_of_nil|].
  rewrite IH. destruct (decide (n ∈ rest)) as [Hr|Hr].
  - rewrite decide_True; [done|by right].
  - destruct (decide (n = s)) as [->|Hs].
    + rewrite lookup_insert_eq, decide_True; [done|by left].
    + rewrite lookup_insert_ne by congruence. rewrite decide_False; [done|]. rewrite not_elem_of_cons. done.
Qed.

Lemma Register_ok r src t : registry_ok r → registry_ok (Register r src t).1.
Proof.
  intros Hok. unfold Register. cbv zeta. set (f := family_name src t).
  destruct (r_families r !! f) as [[src' t']|] eqn:Ef; [by case_match|].
  destruct (r_series r !! f) as [o|] eqn:Es; [done|]. destruct (taken r (seriesNames f t)) as [|] eqn:Et; [done|].
  rewrite taken_none in Et. cbn [fst]. split; cbn [r_families r_series].
  - intros f' src' t' n Hf' Hn. rewrite claim_lookup. destruct (decide (f' = f)) as [->|Hne].
    + rewrite lookup_insert_eq in Hf'. injection Hf' as <- <-. by rewrite decide_True.
    + rewrite lookup_insert_ne in Hf' by congruence. pose proof (ok_owned r Hok _ _ _ _ Hf' Hn) as Ho.
      rewrite decide_False; [done|]. intros Hin. destruct (Et n Hin) as [_ Hx]. congruence.
  - intros n f'. rewrite claim_lookup. case_decide as Hin.
    + intros [= <-]. exists src, t. by rewrite lookup_insert_eq.
    + intros Hn. destruct (ok_owner r Hok n f' Hn) as (src' & t' & Hf' & Hin'). exists src', t'.
      rewrite lookup_insert_ne; [done|]. intros <-. congruence.
  - intros n f' Hn Hne. rewrite claim_lookup in Hn. case_decide as Hin.
    + injection Hn as <-. rewrite lookup_insert_ne by congruence. by apply Et.
    + destruct (decide (n = f)) as [->|Hnf]; [congruence|]. rewrite lookup_insert_ne by congruence. by eapply ok_apart.
Qed.

(** Two families do not expose one name. *)
Lemma families_disjoint r f1 f2 s1 s2 t1 t2 n :
  registry_ok r → r_families r !! f1 = Some (s1, t1) → r_families r !! f2 = Some (s2, t2) →
  n ∈ seriesNames f1 t1 → n ∈ seriesNames f2 t2 → f1 = f2.
Proof.
  intros Hok H1 H2 Hn1 Hn2. pose proof (ok_owned r Hok _ _ _ _ H1 Hn1) as E1.
  pose proof (ok_owned r Hok _ _ _ _ H2 Hn2) as E2. congruence.
Qed.

(** ** Sorting *)
Section sorted.
Context {A : Type} (ltb : A → A → bool).
Context (ltb_irrefl : ∀ x, ltb x x = false) (ltb_trans : ∀ x y z, ltb x y = true → ltb y z = true → ltb x z = true)
  (ltb_weak : ∀ x y z, ltb y x = false → ltb z y = false → ltb z x = false).

Definition le_of (x y : A) : Prop := ltb y x = false.

Lemma insert_stable_perm x l : insert_stable ltb x l ≡ₚ x :: l.
Proof using Type.
  induction l as [|y l IH]; simpl; [done|]. destruct (ltb x y); [done|]. rewrite IH. apply Permutation_swap.
Qed.

Lemma sort_stable_perm l : sort_stable ltb l ≡ₚ l.
Proof using Type.
  unfold sort_stable. assert (Hg : ∀ acc, foldl (λ acc x, insert_stable ltb x acc) acc l ≡ₚ acc ++ l).
  { induction l as [|x l IH]; intros acc; simpl; [by rewrite app_nil_r|].
    rewrite IH, insert_stable_perm. apply Permutation_middle. }
  apply Hg.
Qed.

Lemma insert_stable_sorted x l : StronglySorted le_of l → StronglySorted le_of (insert_stable ltb x l).
Proof using ltb_trans ltb_weak ltb_irrefl.
  induction 1 as [|y l Hs IH Hy]; simpl; [by repeat constructor|]. destruct (ltb x y) eqn:E.
  - assert (Hyx : le_of x y). { unfold le_of. destruct (ltb y x) eqn:E2; [|done]. pose proof (ltb_irrefl x). by rewrite (ltb_trans x y x) in H. }
    constructor; [by constructor|]. constructor; [done|]. eapply Forall_impl; [exact Hy|]. intros z Hz. by eapply ltb_weak.
  - constructor; [done|]. rewrite insert_stable_perm. by constructor.
Qed.

Lemma sort_stable_sorted l : StronglySorted le_of (sort_stable ltb l).
Proof using ltb_trans ltb_weak ltb_irrefl.
  unfold sort_stable. assert (Hg : ∀ acc, StronglySorted le_of acc → StronglySorted le_of (foldl (λ acc x, insert_stable ltb x acc) acc l)).
  { induction l as [|x l IH]; intros acc Ha; simpl; [done|]. apply IH. by apply insert_stable_sorted. }
  apply Hg. constructor.
Qed.
End sorted.

Lemma gs_ltb_irrefl a : gs_ltb a a = false.
Proof. apply not_true_iff_false, gs_lt_irrefl. Qed.
Lemma gs_ltb_trans a b c : gs_ltb a b = true → gs_ltb b c = true → gs_ltb a c = true.
Proof. apply gs_lt_trans. Qed.
Lemma gs_ltb_weak a b c : gs_ltb b a = false → gs_ltb c b = false → gs_ltb c a = false.
Proof.
  intros H1 H2. destruct (gs_ltb c a) eqn:E; [|done].
  destruct (gs_lt_total a b) as [Hab|[->|Hba]]; [|congruence|unfold gs_lt in Hba; congruence].
  pose proof (gs_lt_trans c a b E Hab) as Hcb. unfold gs_lt in Hcb. congruence.
Qed.

(** Sorting by a key that is a string. *)
Lemma sorted_by_key {A} (key : A → gostring) l :
  StronglySorted (le_of (λ a b, gs_ltb (key a) (key b))) (sort_stable (λ a b, gs_ltb (key a) (key b)) l).
Proof.
  apply sort_stable_sorted.
  - intros x. apply gs_ltb_irrefl.
  - intros x y z. apply gs_ltb_trans.
  - intros x y z. apply gs_ltb_weak.
Qed.

(** Elements of a list with different keys are told apart by them. *)
Lemma NoDup_key {A K} (key : A → K) l x y : NoDup (key <$> l) → x ∈ l → y ∈ l → key x = key y → x = y.
Proof.
  intros Hn Hx Hy He. apply list_elem_of_lookup in Hx as [i Hi], Hy as [j Hj]. assert (i = j) as <-; [|congruence].
  apply (NoDup_lookup (key <$> l) i j (key x)); [done|..]; rewrite list_lookup_fmap; [by rewrite Hi|by rewrite Hj, He].
Qed.

(** Sorted labels without equal neighbours have increasing names. *)
Lemma no_collision labels :
  StronglySorted (le_of (λ a b, gs_ltb (l_Name a) (l_Name b))) labels → label_collision labels = false →
  StronglySorted gs_lt (map l_Name labels).
Proof.
  intros Hs Hc. apply Sorted_StronglySorted; [exact gs_lt_trans|]. induction Hs as [|a l Hl IH Ha]; [constructor|].
  destruct l as [|b l]; [by repeat constructor|]. cbn [label_collision] in Hc. apply orb_false_iff in Hc as [Hab Hc].
  cbn [map]. constructor; [by apply IH|]. constructor. inversion Ha as [|? ? Hle _]; subst. unfold le_of in Hle.
  destruct (gs_lt_total (l_Name a) (l_Name b)) as [|[He|Hlt]]; [done| |unfold gs_lt in Hlt; congruence].
  apply bool_decide_eq_false in Hab. congruence.
Qed.

Lemma exposed_not_le key : exposed_name MetricTypeHistogram key ≠ str "le".
Proof.
  unfold exposed_name, reserved. destruct (has_prefix _ _) eqn:Ep; cbn [orb]; [discriminate|].
  rewrite bool_decide_true by done. cbn [andb]. unfold gostring_eqb. case_bool_decide; [discriminate|done].
Qed.

(** What the labels of an observation are. *)
Definition labels_ok (typ : MetricType) (labels : list Label) : Prop :=
  StronglySorted gs_lt (map l_Name labels) ∧ (typ = MetricTypeHistogram → str "le" ∉ map l_Name labels).

Section exposed.
Context `{Attributes} (value_String : value → gostring).

Lemma ExposedLabels_ok typ attrs labels : ExposedLabels value_String typ attrs = inl labels → labels_ok typ labels.
Proof.
  unfold ExposedLabels. cbv zeta. set (raw := map _ attrs). destruct (label_collision _) eqn:Ec; [done|]. intros [= <-].
  split.
  - apply no_collision; [|done]. apply sorted_by_key.
  - intros ->. rewrite (sort_stable_perm _ raw). unfold raw. rewrite map_map. intros Hin.
    apply list_elem_of_In, in_map_iff in Hin as (kv & He & _). by apply exposed_not_le in He.
Qed.
End exposed.

(** ** What a series shows of its observations *)
Section refine.
Context `{Attributes} (value_String : value → gostring).

(** Observations with the time they arrived, oldest first. *)
Definition observations : Type := list (Metric * Z).

Definition total (obs : observations) : float64 := foldl (λ a mt, fadd a (Value mt.1)) f_zero obs.

(** The newest by its own timestamp, the first of equals. *)
Definition newest (obs : observations) : option Metric :=
  foldl (λ acc mt, match acc with
                   | Some a => if Timestamp a <? Timestamp mt.1 then Some mt.1 else Some a
                   | None => Some mt.1
                   end) None obs.

Definition in_bucket (bounds : list float64) (i : nat) (mt : Metric * Z) : Z :=
  if decide (SearchFloat64s bounds (Value mt.1) = i) then 1 else 0.

Definition bucket_counts (bounds : list float64) (obs : observations) : list Z :=
  map (λ i, u64 (zsum (in_bucket bounds i) obs)) (seq 0 (S (length bounds))).

Definition last_time (obs : observations) : Z := default 0 (snd <$> list.last obs).

Definition shows (typ : MetricType) (bounds : list float64) (obs : observations) (s : storeSeries) : Prop :=
  ss_updated s = last_time obs
  ∧ match typ with
    | MetricTypeCounter => ss_value s = total obs
    | MetricTypeGauge => ∃ m, newest obs = Some m ∧ ss_value s = Value m ∧ ss_gaugeTime s = Timestamp m
    | MetricTypeHistogram => ss_counts s = bucket_counts bounds obs ∧ ss_sum s = total obs
    | MetricTypeOther _ => False
    end.

Lemma total_snoc obs m t : total (obs ++ [(m, t)]) = fadd (total obs) (Value m).
Proof. unfold total. by rewrite foldl_app. Qed.

Lemma newest_snoc obs m t :
  newest (obs ++ [(m, t)]) = match newest obs with
                             | Some a => if Timestamp a <? Timestamp m then Some m else Some a
                             | None => Some m
                             end.
Proof. unfold newest. by rewrite foldl_app. Qed.

Lemma bucket_counts_snoc bounds obs m t :
  (SearchFloat64s bounds (Value m) ≤ length bounds)%nat →
  bucket_counts bounds (obs ++ [(m, t)])
  = alter (λ n, u64 (n + 1)) (SearchFloat64s bounds (Value m)) (bucket_counts bounds obs).
Proof.
  intros Hb. apply list_eq. intros i. unfold bucket_counts. set (j := SearchFloat64s bounds (Value m)) in *.
  assert (Hone : ∀ k, zsum (in_bucket bounds k) (obs ++ [(m, t)]) = zsum (in_bucket bounds k) obs + (if decide (j = k) then 1 else 0)).
  { intros k. rewrite zsum_app. unfold zsum at 2. cbn [foldr]. unfold in_bucket at 2. cbn [fst]. fold j. lia. }
  change (map ?f ?l) with (f <$> l). destruct (decide (i = j)) as [->|Hne].
  - rewrite list_lookup_alter_eq, !list_lookup_fmap, !lookup_seq_lt by lia. cbn. f_equal.
    rewrite Hone, decide_True by done. by rewrite u64_add_l.
  - rewrite list_lookup_alter_ne by congruence. rewrite !list_lookup_fmap.
    destruct (seq 0 (S (length bounds)) !! i) as [k|] eqn:Ek; [|done]. apply lookup_seq in Ek as [-> _]. cbn. f_equal.
    rewrite Hone, decide_False by congruence. by rewrite Z.add_0_r.
Qed.

Lemma Search_le n f i j fuel : (i ≤ j ≤ n)%nat → (sort_Search_loop fuel f i j ≤ n)%nat.
Proof.
  revert i j. induction fuel as [|fuel IH]; intros i j Hij; cbn [sort_Search_loop]; [lia|]. destruct (Nat.ltb_spec i j) as [Hlt|]; [|lia].
  assert (Hh : (i ≤ (i + j) / 2 < j)%nat).
  { split; [apply Nat.div_le_lower_bound; lia|apply Nat.Div0.div_lt_upper_bound; lia]. }
  cbv zeta. destruct (f ((i + j) / 2)%nat); apply IH; lia.
Qed.

Lemma SearchFloat64s_le bounds x : (SearchFloat64s bounds x ≤ length bounds)%nat.
Proof. unfold SearchFloat64s, sort_Search. apply Search_le. lia. Qed.

Lemma last_time_snoc obs m t : last_time (obs ++ [(m, t)]) = t.
Proof. unfold last_time. by rewrite last_snoc. Qed.

(** An observation of a series, and the first one. *)
Lemma apply_shows fam m now obs s :
  Type_ m = sf_typ fam → shows (sf_typ fam) (sf_bounds fam) obs s →
  shows (sf_typ fam) (sf_bounds fam) (obs ++ [(m, now)]) (apply_metric fam m now s).
Proof.
  intros Ht [Hu Hs]. unfold shows, apply_metric. rewrite last_time_snoc, Ht. destruct (sf_typ fam); [| | |done].
  - split; [done|]. cbn. by rewrite total_snoc, Hs.
  - destruct Hs as (a & Hn & Hv & Hg). rewrite newest_snoc, Hn, Hg. destruct (Timestamp a <? Timestamp m); (split; [done|]).
    + by exists m.
    + exists a. done.
  - destruct Hs as [Hc Hsum]. split; [done|]. cbn. rewrite Hc, Hsum, total_snoc. split; [|done].
    symmetry. apply bucket_counts_snoc, SearchFloat64s_le.
Qed.

Lemma new_shows fam m now labels :
  Type_ m = sf_typ fam → (∀ n, sf_typ fam ≠ MetricTypeOther n) →
  shows (sf_typ fam) (sf_bounds fam) [(m, now)] (apply_metric fam m now (new_series fam labels m)).
Proof.
  intros Ht Hno. unfold shows, apply_metric, new_series. rewrite Ht. destruct (sf_typ fam) eqn:E; [| | |by destruct (Hno n)].
  - split; [done|]. done.
  - rewrite (bool_decide_true (MetricTypeGauge = MetricTypeGauge)) by done. cbn [ss_gaugeTime]. rewrite Z.ltb_irrefl.
    split; [done|]. by exists m.
  - rewrite (bool_decide_true (MetricTypeHistogram = MetricTypeHistogram)) by done.
    rewrite (bool_decide_false (MetricTypeHistogram = MetricTypeGauge)) by done. split; [done|]. cbn [ss_counts ss_sum]. split; [|done].
    change [(m, now)] with ([] ++ [(m, now)]). rewrite bucket_counts_snoc by apply SearchFloat64s_le. f_equal.
    apply list_eq. intros i. unfold bucket_counts. change (map ?f ?l) with (f <$> l). rewrite list_lookup_fmap.
    destruct (decide (i < S (length (sf_bounds fam)))%nat) as [Hi|Hi].
    + rewrite lookup_seq_lt by done. rewrite lookup_replicate_2 by done. done.
    + rewrite lookup_seq_ge by lia. apply lookup_replicate_None. lia.
Qed.

(** ** The store *)

(** The observations of every series since it was last made. *)
Definition history : Type := gostring → list Label → observations.

Definition no_history : history := λ _ _, [].

Definition add_history (hist : history) (f : gostring) (labels : list Label) (m : Metric) (now : Z) : history := λ f' l',
  if decide (f' = f ∧ l' = labels) then hist f labels ++ [(m, now)] else hist f' l'.

(** Observations a family of type [typ] accepts. *)
Definition acceptable (typ : MetricType) (mt : Metric * Z) : Prop := typ = MetricTypeHistogram → is_nan (Value mt.1) = false.

Record family_ok (r : FamilyRegistry) (hist : history) (f : gostring) (fam : storeFamily) : Prop := mkFamilyOk {
  fo_registered : ∃ src, r_families r !! f = Some (src, sf_typ fam);
  fo_typ : ∀ n, sf_typ fam ≠ MetricTypeOther n;
  fo_bounds : sf_typ fam = MetricTypeHistogram →
    ValidateHistogramBuckets (sf_bounds fam) = None ∧ Forall (λ x, valid x = true) (sf_bounds fam);
  fo_series : ∀ key s, sf_series fam !! key = Some s →
    key = labelsKey (ss_labels s) ∧ labels_ok (sf_typ fam) (ss_labels s)
    ∧ (hist f (ss_labels s) ≠ [] ∧ Forall (acceptable (sf_typ fam)) (hist f (ss_labels s)))
    ∧ shows (sf_typ fam) (sf_bounds fam) (hist f (ss_labels s)) s }.

(** The configured bounds are floats. *)
Definition buckets_valid (h : Handler) : Prop :=
  ∀ lookup name, h_Buckets h = Some lookup → Forall (λ x, valid x = true) (lookup name).

Record store_ok (h : Handler) (hist : history) : Prop := mkStoreOk {
  so_registry : registry_ok (h_registry h);
  so_buckets : buckets_valid h;
  so_family : ∀ f fam, h_families h !! f = Some fam → family_ok (h_registry h) hist f fam;
  so_history : ∀ f labels, hist f labels ≠ [] →
    ∃ fam s, h_families h !! f = Some fam ∧ sf_series fam !! labelsKey labels = Some s ∧ ss_labels s = labels }.

Lemma default_buckets_valid : Forall (λ x, valid x = true) DefaultHistogramBuckets.
Proof. apply (bool_decide_unpack _). vm_compute. exact I. Qed.

Lemma bucketsFor_valid h name : buckets_valid h → Forall (λ x, valid x = true) (bucketsFor h name).
Proof.
  intros Hb. unfold bucketsFor. destruct (h_Buckets h) as [f|] eqn:E; [|apply default_buckets_valid].
  destruct (0 <? len (f name)); [by apply Hb|apply default_buckets_valid].
Qed.

(** What Register answers. *)
Lemma Register_spec r src t r' res :
  Register r src t = (r', res) →
  (∀ f e, r_families r !! f = Some e → r_families r' !! f = Some e)
  ∧ (∀ f, res = inl f → f = family_name src t ∧ r_families r' !! f = Some (src, t)).
Proof.
  unfold Register. cbv zeta. set (f := family_name src t). destruct (r_families r !! f) as [[src' t']|] eqn:Ef.
  - destruct (gostring_eqb src' src && bool_decide (t' = t)) eqn:E; intros [= <- <-]; (split; [done|]); [|done].
    intros f' [= <-]. split; [done|]. apply andb_true_iff in E as [E1 E2].
    apply bool_decide_eq_true in E1, E2. by subst.
  - destruct (r_series r !! f); [intros [= <- <-]; done|]. destruct (taken r (seriesNames f t)); intros [= <- <-]; [done|].
    split.
    + intros f' e Hf'. cbn. rewrite lookup_insert_ne; [done|]. intros <-. congruence.
    + intros f' [= <-]. split; [done|]. cbn. apply lookup_insert_eq.
Qed.

(** A store whose families are the same and whose registry has grown. *)
Lemma store_ok_registry h hist r :
  store_ok h hist → registry_ok r → (∀ f e, r_families (h_registry h) !! f = Some e → r_families r !! f = Some e) →
  store_ok (with_families h r (h_families h)) hist.
Proof.
  intros [H1 H2 H3 H4] Hr Hmono. split; try done. intros f fam Hf. destruct (H3 f fam Hf) as [[src Hs] Ht Hb Hser].
  split; try done. exists src. by apply Hmono.
Qed.

(** The series an observation belongs to. *)
Definition identity (h : Handler) (m : Metric) : option (gostring * list Label) :=
  match ExposedLabels value_String (Type_ m) (NewSet (Attributes_ m)) with
  | inl labels => Some (family_name (trim_prefix (Name m) (h_TrimPrefix h)) (Type_ m), labels)
  | inr _ => None
  end.

(** An observation that was accepted is added to its series. *)
Definition recorded (h : Handler) (hist : history) (m : Metric) (now : Z) (err : option error) : history :=
  match err, identity h m with
  | None, Some (f, labels) => add_history hist f labels m now
  | _, _ => hist
  end.

Lemma family_spec h hist r f m fam :
  store_ok h hist → family h f m = inl fam → (∀ n, Type_ m ≠ MetricTypeOther n) →
  (∀ f e, r_families (h_registry h) !! f = Some e → r_families r !! f = Some e) →
  (∃ src, r_families r !! f = Some (src, Type_ m)) →
  sf_typ fam = Type_ m ∧ family_ok r hist f fam.
Proof.
  intros [H1 H2 H3 H4] Hf Hno Hmono [src Hsrc]. unfold family in Hf. destruct (h_families h !! f) as [fam'|] eqn:Ef.
  - injection Hf as <-. destruct (H3 f fam' Ef) as [[src' Hs'] Ht Hb Hser]. apply Hmono in Hs'.
    split; [congruence|]. split; eauto.
  - case_bool_decide as Ht.
    + cbv zeta in Hf. destruct (ValidateHistogramBuckets _) eqn:Ev; [done|]. injection Hf as <-.
      split; [done|]. split; cbn; [by exists src|done| |].
      * intros _. split; [done|]. by apply bucketsFor_valid.
      * intros key s Hs. by rewrite lookup_empty in Hs.
    + injection Hf as <-. split; [done|]. split; cbn; [by exists src|done| |].
      * intros Hh. congruence.
      * intros key s Hs. by rewrite lookup_empty in Hs.
Qed.

Lemma add_history_eq hist f labels m now : add_history hist f labels m now f labels = hist f labels ++ [(m, now)].
Proof. unfold add_history. by rewrite decide_True. Qed.

Lemma add_history_ne hist f labels m now f' l' :
  (f', l') ≠ (f, labels) → add_history hist f labels m now f' l' = hist f' l'.
Proof. intros Hne. unfold add_history. rewrite decide_False; [done|]. intros [-> ->]. done. Qed.

Lemma add_history_mono hist f labels m now f' l' : hist f' l' ≠ [] → add_history hist f labels m now f' l' ≠ [].
Proof. unfold add_history. case_decide; [|done]. intros _ Hn. by apply app_nil in Hn as [_ Hn]. Qed.

Lemma ss_labels_apply fam m now s : ss_labels (apply_metric fam m now s) = ss_labels s.
Proof. unfold apply_metric. by repeat case_match. Qed.
Lemma ss_labels_new fam labels m : ss_labels (new_series fam labels m) = labels.
Proof. unfold new_series. by repeat case_match. Qed.

(** The family of an accepted observation. *)
Lemma family_add r hist f fam labels m now s0 :
  family_ok r hist f fam → Type_ m = sf_typ fam → labels_ok (sf_typ fam) labels → acceptable (sf_typ fam) (m, now) →
  s0 = default (new_series fam labels m) (sf_series fam !! labelsKey labels) →
  (sf_series fam !! labelsKey labels = None → hist f labels = []) →
  family_ok r (add_history hist f labels m now) f
    (mkStoreFamily (sf_typ fam) (sf_bounds fam) (<[labelsKey labels := apply_metric fam m now s0]> (sf_series fam)))
  ∧ ss_labels s0 = labels.
Proof.
  intros [H1 H2 H3 H4] Ht Hl Hacc Hs0 Hnone.
  assert (Hlab : ss_labels s0 = labels).
  { subst s0. destruct (sf_series fam !! labelsKey labels) as [s|] eqn:Es; cbn; [|apply ss_labels_new].
    destruct (H4 _ _ Es) as [Hk _]. symmetry. by apply labelsKey_inj. }
  split; [|done]. split; cbn [sf_typ sf_bounds sf_series]; try done. intros key s Hs. destruct (decide (key = labelsKey labels)) as [->|Hne].
  - rewrite lookup_insert_eq in Hs. injection Hs as <-. rewrite ss_labels_apply, Hlab, add_history_eq.
    split_and!; [done|done|by intros Hn; apply app_nil in Hn as [_ Hn]| |]; subst s0.
    + apply Forall_app. split; [|by constructor]. destruct (sf_series fam !! labelsKey labels) as [s|] eqn:Es.
      * destruct (H4 _ _ Es) as (Hk & _ & [_ Hf] & _). apply labelsKey_inj in Hk. by rewrite Hk.
      * by rewrite (Hnone eq_refl).
    + destruct (sf_series fam !! labelsKey labels) as [s|] eqn:Es; cbn [default].
      * destruct (H4 _ _ Es) as (Hk & _ & _ & Hsh). apply labelsKey_inj in Hk. rewrite Hk. by apply apply_shows.
      * rewrite (Hnone eq_refl). by apply new_shows.
  - rewrite lookup_insert_ne in Hs by congruence. destruct (H4 key s Hs) as (Hk & Hlo & Hh & Hsh).
    rewrite add_history_ne; [done|]. intros [= Heq]. apply Hne. by rewrite Hk, Heq.
Qed.

Lemma family_existing h f m fam fam0 : h_families h !! f = Some fam0 → family h f m = inl fam → fam0 = fam.
Proof. intros Hf. unfold family. rewrite Hf. by intros [= ->]. Qed.

(** The store after an accepted observation. *)
Lemma store_add h hist r f fam labels m now :
  store_ok h hist → registry_ok r → (∀ f e, r_families (h_registry h) !! f = Some e → r_families r !! f = Some e) →
  family h f m = inl fam → sf_typ fam = Type_ m → family_ok r hist f fam → labels_ok (Type_ m) labels →
  acceptable (Type_ m) (m, now) →
  let s := default (new_series fam labels m) (sf_series fam !! labelsKey labels) in
  store_ok
    (with_families h r
       (<[f := mkStoreFamily (sf_typ fam) (sf_bounds fam) (<[labelsKey labels := apply_metric fam m now s]> (sf_series fam))]>
          (h_families h))) (add_history hist f labels m now).
Proof.
  intros [H1 H2 H3 H4] Hr Hmono Hf Ht Hfo Hl Hacc s.
  assert (Hnone : sf_series fam !! labelsKey labels = None → hist f labels = []).
  { intros Hn. destruct (decide (hist f labels = [])) as [|Hne]; [done|]. destruct (H4 f labels Hne) as (fam0 & s0 & E1 & E2 & _).
    rewrite (family_existing _ _ _ _ _ E1 Hf) in E2. congruence. }
  destruct (family_add r hist f fam labels m now s Hfo) as [Hadd Hlab]; try done; [by rewrite Ht..|].
  split; cbn [with_families h_registry h_families h_Buckets]; try done.
  - intros f' fam' Hf'. destruct (decide (f' = f)) as [->|Hne].
    + rewrite lookup_insert_eq in Hf'. by injection Hf' as <-.
    + rewrite lookup_insert_ne in Hf' by congruence. destruct (H3 f' fam' Hf') as [[src Hs] Ho Hb Hser].
      split; try done; [exists src; by apply Hmono|]. intros key s' Hs'. rewrite add_history_ne by congruence. by apply Hser.
  - intros f' l' Hh. destruct (decide (f' = f)) as [->|Hne].
    + rewrite lookup_insert_eq. destruct (decide (l' = labels)) as [->|Hl'].
      * do 2 eexists. split; [done|]. cbn [sf_series]. rewrite lookup_insert_eq. split; [done|]. by rewrite ss_labels_apply.
      * rewrite add_history_ne in Hh by congruence. destruct (H4 f l' Hh) as (fam0 & s0 & E1 & E2 & E3).
        eexists _, s0. split; [done|]. cbn [sf_series]. rewrite lookup_insert_ne by (intros Hk; apply labelsKey_inj in Hk; congruence).
        by rewrite (family_existing _ _ _ _ _ E1 Hf) in E2.
    + rewrite lookup_insert_ne by congruence. rewrite add_history_ne in Hh by congruence. by apply H4.
Qed.

Lemma observe_ok h hist m now :
  store_ok h hist →
  let r := prom_observe value_String h m now in store_ok r.1 (recorded h hist m now r.2).
Proof.
  intros Hok. cbv zeta. assert (Hmain : (∀ n, Type_ m ≠ MetricTypeOther n) → acceptable (Type_ m) (m, now) →
    store_ok (store_metric value_String h m now).1 (recorded h hist m now (store_metric value_String h m now).2)).
  { intros Hno Hacc. unfold store_metric, recorded, identity. destruct (ExposedLabels _ _ _) as [labels|] eqn:El; [|done].
    pose proof (Register_ok (h_registry h) (trim_prefix (Name m) (h_TrimPrefix h)) (Type_ m) (so_registry _ _ Hok)) as Hr.
    destruct (Register _ _ _) as [r [f|err]] eqn:ER; cbn [fst] in Hr; apply Register_spec in ER as [Hmono Hf]; cbn [fst snd].
    - destruct (Hf f eq_refl) as [-> Hreg]. destruct (family h _ m) as [fam|err] eqn:Ef; cbn [fst snd].
      + destruct (family_spec h hist r _ m fam Hok Ef Hno Hmono) as [Ht Hfo]; [eauto|]. apply store_add; try done.
        by eapply ExposedLabels_ok.
      + by apply store_ok_registry.
    - by apply store_ok_registry. }
  unfold prom_observe. destruct (Type_ m) eqn:Et; try done;
    (destruct (bool_decide _ && is_nan (Value m)) eqn:En; [done|]; apply Hmain; [done|]; intros Hh; try congruence).
  by rewrite bool_decide_true in En.
Qed.

(** ** Runs of exports and scrapes *)
Inductive event := EvExport (ms : list (option Metric)) (now : Z) | EvScrape (now : Z).

Fixpoint history_export (h : Handler) (hist : history) (ms : list (option Metric)) (now : Z) : history :=
  match ms with
  | [] => hist
  | None :: rest => history_export h hist rest now
  | Some m :: rest =>
      let r := prom_observe value_String h m now in
      history_export r.1 (recorded h hist m now r.2) rest now
  end.

(** A scrape forgets the series that were not updated for the timeout. *)
Definition history_scrape (h : Handler) (hist : history) (now : Z) : history := λ f l,
  if last_time (hist f l) <? now - timeout h then [] else hist f l.

Fixpoint run (h : Handler) (hist : history) (evs : list event) : Handler * history :=
  match evs with
  | [] => (h, hist)
  | EvExport ms now :: rest => run (prom_Export value_String h ms now).1 (history_export h hist ms now) rest
  | EvScrape now :: rest => run (snapshot h now).1 (history_scrape h hist now) rest
  end.

Lemma export_loop_ok h hist ms now errs :
  store_ok h hist → store_ok (export_loop value_String h ms now errs).1 (history_export h hist ms now).
Proof.
  revert h hist errs. induction ms as [|[m|] ms IH]; intros h hist errs Hok; cbn [export_loop history_export]; [done| |by apply IH].
  pose proof (observe_ok h hist m now Hok) as Hm. cbv zeta in *. destruct (prom_observe value_String h m now) as [h' err]. by apply IH.
Qed.

Lemma export_ok h hist ms now : store_ok h hist → store_ok (prom_Export value_String h ms now).1 (history_export h hist ms now).
Proof.
  intros Hok. unfold prom_Export. pose proof (export_loop_ok h hist ms now [] Hok) as He.
  destruct (export_loop _ _ _ _ _) as [h' errs]. done.
Qed.

Lemma snapshot_ok h hist now : store_ok h hist → store_ok (snapshot h now).1 (history_scrape h hist now).
Proof.
  intros [H1 H2 H3 H4]. unfold snapshot. cbv zeta. cbn [fst]. split; cbn [with_families h_registry h_families]; try done.
  - intros f fam' Hf. rewrite lookup_fmap in Hf. destruct (h_families h !! f) as [fam|] eqn:Ef; [|done]. injection Hf as <-.
    destruct (H3 f fam Ef) as [Hreg Ho Hb Hser]. split; try done. cbn [expire sf_series sf_typ sf_bounds]. intros key s Hs.
    unfold fresh_series in Hs. apply map_lookup_filter_Some in Hs as [Hs Hfresh]. cbn in Hfresh.
    destruct (Hser key s Hs) as (Hk & Hl & Hh & Hsh). unfold history_scrape. rewrite <-(proj1 Hsh).
    destruct (Z.ltb_spec (ss_updated s) (now - timeout h)); [lia|]. done.
  - intros f l Hh. unfold history_scrape in Hh. destruct (Z.ltb_spec (last_time (hist f l)) (now - timeout h)); [done|].
    destruct (H4 f l Hh) as (fam & s & E1 & E2 & E3). exists (expire (now - timeout h) fam), s.
    rewrite lookup_fmap, E1. split; [done|]. split; [|done]. cbn [expire sf_series]. unfold fresh_series.
    apply map_lookup_filter_Some. split; [done|]. cbn. destruct (H3 f fam E1) as [_ _ _ Hser].
    destruct (Hser _ _ E2) as (_ & _ & _ & Hsh). rewrite (proj1 Hsh), E3. lia.
Qed.

Lemma run_ok h hist evs : store_ok h hist → store_ok (run h hist evs).1 (run h hist evs).2.
Proof.
  revert h hist. induction evs as [|[ms now|now] evs IH]; intros h hist Hok; cbn [run]; [done| |]; apply IH.
  - by apply export_ok.
  - by apply snapshot_ok.
Qed.

End refine.

(** ** Bounds *)
Lemma fle_key x y : valid x = true → valid y = true → is_nan x = false → is_nan y = false → fle x y = (fkey x <=? fkey y).
Proof.
  intros Hx Hy Nx Ny. assert (fle x y = negb (flt y x)) as ->.
  { unfold fle, flt, SFleb, SFltb. destruct x as [[]|[]| |[] m e], y as [[]|[]| |[] m' e']; try done; cbn [SFcompare];
      rewrite ?pos_compare_cont; rewrite ?(Z.compare_antisym e e'), ?(Z.compare_antisym (Z.pos m) (Z.pos m'));
      destruct (e ?= e'), (Z.pos m ?= Z.pos m'); done. }
  rewrite (flt_key y x) by done. destruct (Z.leb_spec (fkey x) (fkey y)), (Z.ltb_spec (fkey y) (fkey x)); simpl; try done; lia.
Qed.

Definition bound (x : float64) : Prop := valid x = true ∧ is_nan x = false ∧ is_inf x = false.

Lemma bounds_sorted bounds :
  ValidateHistogramBuckets bounds = None → Forall (λ x, valid x = true) bounds →
  Forall bound bounds ∧ StronglySorted (λ a b, fkey a < fkey b) bounds.
Proof.
  intros Hv Hval. assert (Hl : bounds_loop None bounds = true).
  { unfold ValidateHistogramBuckets in Hv. destruct bounds; [done|]. by destruct (bounds_loop None _). }
  clear Hv. assert (Hg : ∀ prev, (∀ p, prev = Some p → bound p) → bounds_loop prev bounds = true →
    Forall bound bounds ∧ Sorted (λ a b, fkey a < fkey b) (option_list prev ++ bounds)).
  { clear Hl. induction Hval as [|b bounds Hb _ IH]; intros prev Hp Hl; cbn [bounds_loop] in Hl.
    - split; [done|]. destruct prev; simpl; by repeat constructor.
    - destruct (is_nan b || is_inf b || _) eqn:E; [done|]. apply orb_false_iff in E as [E Ep]. apply orb_false_iff in E as [En Ei].
      assert (Hbb : bound b) by done. destruct (IH (Some b)) as [IH1 IH2]; [by intros p [= <-]|done|]. split; [by constructor|].
      destruct prev as [p|]; [|done]. cbn. constructor; [done|]. constructor. destruct (Hp p eq_refl) as (Vp & Np & _).
      rewrite fle_key in Ep by done. apply Z.leb_gt in Ep. lia. }
  destruct (Hg None) as [H1 H2]; [done|done|]. split; [done|]. apply Sorted_StronglySorted; [|done]. intros x y z. lia.
Qed.

Lemma increasing_bounds bounds : Forall bound bounds → StronglySorted (λ a b, fkey a < fkey b) bounds → increasing bounds = true.
Proof.
  intros Hb Hs. induction Hs as [|a l Hl IH Ha]; [done|]. destruct l as [|b l]; [done|]. cbn [increasing].
  apply Forall_cons in Hb as [(Va & Na & _) Hb]. pose proof (Forall_inv Hb) as (Vb & Nb & _).
  rewrite flt_key by done. apply andb_true_iff. split; [|by apply IH]. apply Z.ltb_lt. by apply Forall_inv in Ha.
Qed.

(** Different bounds have different texts, none of them that of the last bucket. *)
Lemma bound_texts bounds :
  Forall bound bounds → StronglySorted (λ a b, fkey a < fkey b) bounds → NoDup (map FormatFloat bounds ++ [str "+Inf"]).
Proof.
  intros Hb Hs. assert (Hinj : ∀ x y, bound x → bound y → FormatFloat x = FormatFloat y → x = y).
  { intros x y (Vx & _) (Vy & _) He. apply ParseFloat_FormatFloat in Vx, Vy. congruence. }
  apply NoDup_app. split_and!.
  - induction Hs as [|a l Hl IH Ha]; [constructor|]. apply Forall_cons in Hb as [Hba Hb]. cbn [map]. constructor; [|by apply IH].
    intros Hin. apply list_elem_of_In, in_map_iff in Hin as (b & He & Hin). apply list_elem_of_In in Hin.
    rewrite Forall_forall in Ha, Hb. specialize (Ha b Hin). rewrite (Hinj b a) in Ha; [lia|by apply Hb|done|done].
  - intros t Hin. apply list_elem_of_In, in_map_iff in Hin as (b & <- & Hin). apply list_elem_of_In in Hin.
    rewrite list_elem_of_singleton. intros He. rewrite Forall_forall in Hb. destruct (Hb b Hin) as (Vb & _ & Ib).
    apply ParseFloat_FormatFloat in Vb. rewrite He in Vb. vm_compute in Vb. injection Vb as <-. done.
  - apply NoDup_singleton.
Qed.

(** ** The text as a list of samples *)
Record sample := mkSample { sm_name : gostring; sm_labels : list Label; sm_extra : option Label; sm_value : gostring }.

Definition sample_text (s : sample) : gostring := writeSample (sm_name s) (sm_labels s) (sm_extra s) (sm_value s).

(** What identifies a sample: its name and all its labels. *)
Definition sample_id (s : sample) : gostring * list Label := (sm_name s, sm_labels s ++ option_list (sm_extra s)).

(** The counts up to a bucket, as they are added up. *)
Fixpoint running (cum : Z) (counts : list Z) : list Z :=
  match counts with
  | [] => []
  | n :: rest => u64 (cum + n) :: running (u64 (cum + n)) rest
  end.

Definition le_label (text : gostring) : Label := mkLabel (str "le") text.

Definition histogram_samples (f : gostring) (labels : list Label) (h : HistogramData) : list sample :=
  let cums := running 0 (hd_Counts h) in
  zip_with (λ t c, mkSample (f ++ str "_bucket") labels (Some (le_label t)) (FormatInt c))
    (map FormatFloat (hd_Bounds h) ++ [str "+Inf"]) cums
  ++ [mkSample (f ++ str "_sum") labels None (formatValue (hd_Sum h));
      mkSample (f ++ str "_count") labels None (FormatInt (default 0 (list.last cums)))].

Definition series_samples (f : Family) (s : Series) : list sample :=
  match s_Histogram s with
  | Some h => if bool_decide (f_Type f = MetricTypeHistogram) then histogram_samples (f_Name f) (s_Labels s) h
              else [mkSample (f_Name f) (s_Labels s) None (formatValue (s_Value s))]
  | None => [mkSample (f_Name f) (s_Labels s) None (formatValue (s_Value s))]
  end.

Definition family_samples (f : Family) : list sample := concat (map (series_samples f) (sort_stable series_ltb (f_Series f))).

Definition family_text (f : Family) : gostring :=
  str "# TYPE " ++ f_Name f ++ [byte_of 32] ++ MetricType_String (f_Type f) ++ [byte_of 10]
  ++ concat (map sample_text (family_samples f)).

(** A family that renders: every histogram series has fitting counts and increasing bounds. *)
Definition series_renders (f : Family) (s : Series) : Prop :=
  f_Type f = MetricTypeHistogram →
  ∃ h, s_Histogram s = Some h ∧ length (hd_Counts h) = S (length (hd_Bounds h)) ∧ increasing (hd_Bounds h) = true.

Definition family_renders (f : Family) : Prop :=
  (∀ n, f_Type f ≠ MetricTypeOther n) ∧ Forall (series_renders f) (f_Series f).

Lemma write_all_ok {A} (write : A → gostring + error) (text : A → gostring) l :
  Forall (λ x, write x = inl (text x)) l → write_all write l = inl (concat (map text l)).
Proof. induction 1 as [|x l Hx _ IH]; [done|]. cbn [write_all map concat]. by rewrite Hx, IH. Qed.

Lemma write_buckets_spec name labels bounds counts cum :
  (length bounds < length counts)%nat →
  ∃ last_, counts !! length bounds = Some last_ ∧
  (write_buckets name labels bounds counts cum).1
    = concat (map sample_text (zip_with (λ t c, mkSample (name ++ str "_bucket") labels (Some (le_label t)) (FormatInt c))
        (map FormatFloat bounds) (running cum counts)))
  ∧ running cum counts !! length bounds = Some (u64 ((write_buckets name labels bounds counts cum).2 + last_)).
Proof.
  revert counts cum. induction bounds as [|b bounds IH]; intros [|n counts] cum Hl; simpl in Hl; try lia.
  - exists n. done.
  - destruct (IH counts (u64 (cum + n))) as (last_ & E1 & E2 & E3); [lia|]. exists last_.
    cbn [write_buckets map running zip_with concat length lookup list_lookup].
    destruct (write_buckets name labels bounds counts (u64 (cum + n))) as [text total] eqn:Ew. cbn [fst snd] in *.
    split_and!; [done|by rewrite <-E2|done].
Qed.

Lemma running_length cum counts : length (running cum counts) = length counts.
Proof. revert cum. induction counts as [|n counts IH]; intros cum; simpl; [done|]. by rewrite IH. Qed.

Lemma zip_with_app_l {A B C} (g : A → B → C) l1 l2 k :
  (length l1 ≤ length k)%nat →
  zip_with g (l1 ++ l2) k = zip_with g l1 k ++ zip_with g l2 (drop (length l1) k).
Proof.
  revert k. induction l1 as [|a l1 IH]; intros [|b k] Hl; simpl in *; try done; try lia. f_equal. apply IH. lia.
Qed.

Lemma writeHistogram_spec f s :
  f_Type f = MetricTypeHistogram → series_renders f s →
  writeHistogram (f_Name f) s = inl (concat (map sample_text (series_samples f s))).
Proof.
  intros Ht Hr. destruct (Hr Ht) as (h & Hh & Hl & Hi). unfold writeHistogram, series_samples. rewrite Hh, Hi.
  rewrite bool_decide_true by done. assert ((len (hd_Counts h) =? len (hd_Bounds h) + 1) = true) as ->.
  { apply Z.eqb_eq. unfold len. rewrite Hl. lia. }
  cbn [negb]. destruct (write_buckets_spec (f_Name f) (s_Labels s) (hd_Bounds h) (hd_Counts h) 0) as (n & E1 & E2 & E3); [lia|].
  destruct (write_buckets _ _ _ _ _) as [text total] eqn:Ew. cbn [fst snd] in *. rewrite E1. cbn [default]. unfold histogram_samples. cbv zeta.
  rewrite zip_with_app_l by (rewrite running_length, List.length_map; lia). rewrite List.length_map.
  rewrite (drop_S _ _ _ E3). cbn [zip_with].
  rewrite last_lookup, running_length, Hl. cbn [pred]. rewrite E3. cbn [default].
  rewrite !map_app, !concat_app, <-E2. cbn [map concat]. f_equal. rewrite <-!app_assoc. cbn. by rewrite !app_nil_r.
Qed.

Lemma writeFamily_spec f : family_renders f → writeFamily f = inl (family_text f).
Proof.
  intros [Ho Hs]. unfold writeFamily, family_text, family_samples.
  rewrite (write_all_ok (writeSeries f) (λ s, concat (map sample_text (series_samples f s)))).
  - destruct (f_Type f) eqn:Et; try (by destruct (Ho n)); do 6 f_equal; generalize (sort_stable series_ltb (f_Series f)); intros l;
      (induction l as [|x l IH]; [done|]; cbn [map concat]; rewrite map_app, concat_app; by rewrite IH).
  - rewrite (sort_stable_perm series_ltb). eapply Forall_impl; [exact Hs|]. intros s Hr. unfold writeSeries.
    case_bool_decide as Ht; cbn [negb]; [by apply writeHistogram_spec|]. unfold series_samples.
    rewrite (bool_decide_false (f_Type f = MetricTypeHistogram)) by done. destruct (s_Histogram s); cbn; by rewrite app_nil_r.
Qed.

(** ** No sample twice *)
Lemma NoDup_by_key {A B K} (key : A → K) (g : A → list B) l :
  NoDup (key <$> l) → (∀ x, x ∈ l → NoDup (g x)) →
  (∀ x y b, x ∈ l → y ∈ l → b ∈ g x → b ∈ g y → key x = key y) → NoDup (concat (map g l)).
Proof.
  induction l as [|x l IH]; intros Hk Hg Hc; [constructor|]. cbn [map concat]. inversion Hk as [|? ? Hx Hl]; subst.
  apply NoDup_app. split_and!.
  - apply Hg. by left.
  - intros b Hb Hin. apply list_elem_of_In, in_concat in Hin as (bs & Hbs & Hin). apply in_map_iff in Hbs as (y & <- & Hy).
    apply list_elem_of_In in Hy, Hin. apply Hx. rewrite (Hc x y b); [|by left|by right|done|done].
    apply list_elem_of_fmap. eauto.
  - apply IH; [done| |].
    + intros y Hy. apply Hg. by right.
    + intros y z b Hy Hz. apply Hc; by right.
Qed.

Definition family_ids (f : Family) : list (gostring * list Label) :=
  concat (map (λ s, map sample_id (series_samples f s)) (sort_stable series_ltb (f_Series f))).

Lemma family_ids_spec f : map sample_id (family_samples f) = family_ids f.
Proof.
  unfold family_samples, family_ids. induction (sort_stable series_ltb (f_Series f)) as [|s l IH]; [done|].
  cbn [map concat]. by rewrite map_app, IH.
Qed.

(** The ids of a histogram series: its buckets, its sum and its count. *)
Lemma histogram_ids f labels h :
  length (hd_Counts h) = S (length (hd_Bounds h)) →
  map sample_id (histogram_samples f labels h)
  = map (λ t, (f ++ str "_bucket", labels ++ [le_label t])) (map FormatFloat (hd_Bounds h) ++ [str "+Inf"])
    ++ [(f ++ str "_sum", labels); (f ++ str "_count", labels)].
Proof.
  intros Hl. unfold histogram_samples. cbv zeta. rewrite map_app. f_equal.
  - assert (Hlen : length (map FormatFloat (hd_Bounds h) ++ [str "+Inf"]) = length (running 0 (hd_Counts h))).
    { rewrite length_app, List.length_map, running_length. simpl. lia. }
    revert Hlen. generalize (running 0 (hd_Counts h)). induction (map FormatFloat (hd_Bounds h) ++ [str "+Inf"]) as [|t ts IH];
      intros [|c cs] Hlen; try done. cbn [zip_with map]. f_equal. apply IH. by injection Hlen.
  - cbn [map]. unfold sample_id. cbn. by rewrite app_nil_r.
Qed.

Lemma suffix_names (f : gostring) :
  f ++ str "_bucket" ≠ f ++ str "_sum" ∧ f ++ str "_bucket" ≠ f ++ str "_count" ∧ f ++ str "_sum" ≠ f ++ str "_count".
Proof. split_and!; intros He; by apply app_inv_head in He. Qed.

(** What a family of the store shows. *)
Definition shown_ok (f : Family) : Prop :=
  (∀ n, f_Type f ≠ MetricTypeOther n)
  ∧ (NoDup (s_Labels <$> f_Series f) ∧ Forall (λ s, labels_ok (f_Type f) (s_Labels s)) (f_Series f))
  ∧ Forall (λ s, if bool_decide (f_Type f = MetricTypeHistogram)
                 then ∃ h, s_Histogram s = Some h ∧ length (hd_Counts h) = S (length (hd_Bounds h))
                      ∧ Forall bound (hd_Bounds h) ∧ StronglySorted (λ a b, fkey a < fkey b) (hd_Bounds h)
                 else s_Histogram s = None) (f_Series f).

Lemma shown_renders f : shown_ok f → family_renders f.
Proof.
  intros (Ho & _ & Hs). split; [done|]. eapply Forall_impl; [exact Hs|]. intros s Hsr Ht. rewrite bool_decide_true in Hsr by done.
  destruct Hsr as (h & Hh & Hl & Hb & Hst). exists h. split_and!; try done. by apply increasing_bounds.
Qed.

Lemma series_ids f s id :
  shown_ok f → s ∈ f_Series f → id ∈ map sample_id (series_samples f s) →
  id.1 ∈ seriesNames (f_Name f) (f_Type f)
  ∧ (id.2 = s_Labels s ∨ ∃ t, id = (f_Name f ++ str "_bucket", s_Labels s ++ [le_label t]) ∧ f_Type f = MetricTypeHistogram).
Proof.
  intros (_ & _ & Hs) Hin Hid. rewrite Forall_forall in Hs. specialize (Hs s Hin). unfold series_samples in Hid. unfold seriesNames.
  case_bool_decide as Ht.
  - destruct Hs as (h & Hh & Hl & _). rewrite Hh, histogram_ids in Hid by done. apply elem_of_app in Hid as [Hid|Hid].
    + apply list_elem_of_In, in_map_iff in Hid as (t & <- & _). split; [by left|]. right. by exists t.
    + rewrite !elem_of_cons in Hid. destruct Hid as [-> | [-> |Hid]]; [| |by apply not_elem_of_nil in Hid]; (split; [|by left]); simpl; set_solver.
  - rewrite Hs in Hid. apply list_elem_of_singleton in Hid as ->. unfold sample_id. cbn. rewrite app_nil_r. split; [by left|by left].
Qed.

Lemma series_ids_nodup f s : shown_ok f → s ∈ f_Series f → NoDup (map sample_id (series_samples f s)).
Proof.
  intros (_ & _ & Hs) Hin. rewrite Forall_forall in Hs. specialize (Hs s Hin). unfold series_samples. case_bool_decide as Ht.
  - destruct Hs as (h & Hh & Hl & Hb & Hst). rewrite Hh, histogram_ids by done. destruct (suffix_names (f_Name f)) as (N1 & N2 & N3).
    apply NoDup_app. split_and!.
    + apply (NoDup_fmap_2_strong (λ t, (f_Name f ++ str "_bucket", s_Labels s ++ [le_label t]))); [|by apply bound_texts].
      intros x y _ _ [= He]. by apply app_inj_tail in He as [_ [= ->]].
    + intros id Hid Hid2. apply list_elem_of_In, in_map_iff in Hid as (t & <- & _). rewrite !elem_of_cons in Hid2.
      destruct Hid2 as [He|[He|He]]; [| |by apply not_elem_of_nil in He]; injection He as He _; done.
    + repeat constructor; rewrite ?elem_of_cons; [|by intros He; apply not_elem_of_nil in He].
      intros [He|He]; [injection He as He; done|by apply not_elem_of_nil in He].
  - rewrite Hs. apply NoDup_singleton.
Qed.

Lemma le_not_label f s s' t :
  shown_ok f → s' ∈ f_Series f → f_Type f = MetricTypeHistogram → s_Labels s ++ [le_label t] ≠ s_Labels s'.
Proof.
  intros (_ & [_ Hl] & _) Hs Ht He. rewrite Forall_forall in Hl. destruct (Hl s' Hs) as [_ Hle]. apply (Hle Ht).
  rewrite <-He, map_app. apply elem_of_app. right. by left.
Qed.

Lemma family_ids_nodup f : shown_ok f → NoDup (family_ids f).
Proof.
  intros Hok. unfold family_ids. apply (NoDup_by_key s_Labels).
  - rewrite (sort_stable_perm series_ltb). apply Hok.
  - intros s Hs. rewrite (sort_stable_perm series_ltb) in Hs. by apply series_ids_nodup.
  - intros s s' id Hs Hs' Hi Hi'. rewrite (sort_stable_perm series_ltb) in Hs, Hs'.
    destruct (series_ids f s id Hok Hs Hi) as [_ [H1|(t & H1 & Ht)]], (series_ids f s' id Hok Hs' Hi') as [_ [H2|(t' & H2 & Ht')]].
    + congruence.
    + subst id. exfalso. by apply (le_not_label f s' s t') in H1.
    + subst id. exfalso. by apply (le_not_label f s s' t) in H2.
    + rewrite H1 in H2. injection H2 as He. by apply app_inj_tail in He as [He _].
Qed.

(** The label names of a sample are distinct. *)
Lemma id_labels_nodup f s id :
  shown_ok f → s ∈ f_Series f → id ∈ map sample_id (series_samples f s) → NoDup (map l_Name id.2).
Proof.
  intros Hok Hs Hid. destruct (series_ids f s id Hok Hs Hid) as [_ Hcase]. destruct Hok as (_ & [_ Hl] & _).
  rewrite Forall_forall in Hl. destruct (Hl s Hs) as [Hsort Hle]. apply sorted_lt_NoDup in Hsort.
  destruct id as [n ls]. cbn [snd] in *. destruct Hcase as [-> |(t & [= -> ->] & Ht)]; [done|]. rewrite map_app. apply NoDup_app. split_and!; [done| |apply NoDup_singleton].
  intros x Hx Hx2. apply list_elem_of_singleton in Hx2 as ->. by apply (Hle Ht).
Qed.

Lemma exposition_nodup r fams :
  registry_ok r → NoDup (f_Name <$> fams) → Forall shown_ok fams →
  Forall (λ f, ∃ src, r_families r !! f_Name f = Some (src, f_Type f)) fams →
  NoDup (concat (map family_ids fams)).
Proof.
  intros Hr Hn Hok Hreg. rewrite Forall_forall in Hok, Hreg. apply (NoDup_by_key f_Name); [done| |].
  - intros f Hf. apply family_ids_nodup. by apply Hok.
  - intros f f' id Hf Hf' Hi Hi'. destruct (Hreg f Hf) as [src Hs]. destruct (Hreg f' Hf') as [src' Hs'].
    assert (Hname : ∀ g, shown_ok g → id ∈ family_ids g → id.1 ∈ seriesNames (f_Name g) (f_Type g)).
    { intros g Hg Hid. unfold family_ids in Hid. apply list_elem_of_In, in_concat in Hid as (ids & Hids & Hid).
      apply in_map_iff in Hids as (s & <- & Hs0). apply list_elem_of_In in Hs0, Hid. rewrite (sort_stable_perm series_ltb) in Hs0.
      by eapply series_ids. }
    eapply families_disjoint; [done|exact Hs|exact Hs'|by apply Hname; [apply Hok|]|by apply Hname; [apply Hok|]].
Qed.

(** ** The text does not depend on the order of maps *)
Lemma Compare_lt a b : Compare a b = Lt ↔ gs_lt a b.
Proof. unfold Compare, gs_lt. destruct (gs_ltb a b); [done|]. by destruct (gs_ltb b a). Qed.

Lemma Compare_eq a b : Compare a b = Eq ↔ a = b.
Proof.
  unfold Compare. split.
  - destruct (gs_ltb a b) eqn:E1; [done|]. destruct (gs_ltb b a) eqn:E2; [done|]. intros _.
    destruct (gs_lt_total a b) as [H|[H|H]]; [|done|]; unfold gs_lt in H; congruence.
  - intros ->. by rewrite gs_ltb_irrefl.
Qed.

Lemma Compare_flip a b : Compare b a = CompOpp (Compare a b).
Proof.
  unfold Compare. destruct (gs_ltb a b) eqn:E1, (gs_ltb b a) eqn:E2; try done.
  pose proof (gs_lt_trans a b a E1 E2) as H. unfold gs_lt in H. by rewrite gs_ltb_irrefl in H.
Qed.

Lemma Compare_refl a : Compare a a = Eq.
Proof. by apply Compare_eq. Qed.

Lemma compareLabels_eq a b : compareLabels a b = Eq ↔ a = b.
Proof.
  revert b. induction a as [|[n v] a IH]; intros [|[n' v'] b]; try done. cbn [compareLabels l_Name l_Value]. split.
  - destruct (Compare n n') eqn:En; try done. destruct (Compare v v') eqn:Ev; try done.
    apply Compare_eq in En as ->. apply Compare_eq in Ev as ->. intros Hab. apply IH in Hab. by rewrite Hab.
  - intros [= -> -> ->]. rewrite !Compare_refl. by apply IH.
Qed.

Lemma compareLabels_flip a b : compareLabels b a = CompOpp (compareLabels a b).
Proof.
  revert b. induction a as [|[n v] a IH]; intros [|[n' v'] b]; try done. cbn [compareLabels l_Name l_Value].
  rewrite (Compare_flip n n'), (Compare_flip v v'), IH. by destruct (Compare n n'), (Compare v v').
Qed.

Lemma compareLabels_trans a b c : compareLabels a b = Lt → compareLabels b c = Lt → compareLabels a c = Lt.
Proof.
  revert b c. induction a as [|[n v] a IH]; intros [|[n' v'] b] [|[n2 v2] c]; try done. cbn [compareLabels l_Name l_Value].
  assert (Hs : ∀ x y z, Compare x y = Lt → Compare y z = Lt → Compare x z = Lt).
  { intros x y z. rewrite !Compare_lt. apply gs_lt_trans. }
  destruct (Compare n n') eqn:E1; try done; destruct (Compare n' n2) eqn:E2; try done;
    repeat match goal with Hx : Compare _ _ = Eq |- _ => apply Compare_eq in Hx as -> end; rewrite ?E1, ?E2, ?Compare_refl; try done;
    try by rewrite (Hs _ _ _ E1 E2).
  destruct (Compare v v') eqn:E3; try done; destruct (Compare v' v2) eqn:E4; try done;
    repeat match goal with Hx : Compare _ _ = Eq |- _ => apply Compare_eq in Hx as -> end; rewrite ?E3, ?E4, ?Compare_refl; try done;
    try by rewrite (Hs _ _ _ E3 E4).
  apply IH.
Qed.

Lemma series_ltb_lt a b : series_ltb a b = true ↔ compareLabels (s_Labels a) (s_Labels b) = Lt.
Proof. unfold series_ltb. by destruct (compareLabels _ _). Qed.

Lemma series_sorted l : StronglySorted (le_of series_ltb) (sort_stable series_ltb l).
Proof.
  assert (Ht : ∀ x y z, series_ltb x y = true → series_ltb y z = true → series_ltb x z = true).
  { intros x y z. rewrite !series_ltb_lt. apply compareLabels_trans. }
  apply sort_stable_sorted; [|exact Ht|].
  - intros x. unfold series_ltb. by rewrite (proj2 (compareLabels_eq _ _) eq_refl).
  - intros x y z Hyx Hzy. destruct (series_ltb z x) eqn:Ezx; [|done]. destruct (compareLabels (s_Labels x) (s_Labels y)) eqn:Exy.
    + apply compareLabels_eq in Exy. unfold series_ltb in *. by rewrite Exy, Hzy in Ezx.
    + apply series_ltb_lt in Exy. by rewrite (Ht z x y) in Hzy.
    + unfold series_ltb in Hyx. by rewrite compareLabels_flip, Exy in Hyx.
Qed.

Lemma series_sort_unique l l' : NoDup (s_Labels <$> l) → l ≡ₚ l' → sort_stable series_ltb l = sort_stable series_ltb l'.
Proof.
  intros Hn Hp. apply (StronglySorted_unique_strong (le_of series_ltb)); [|apply series_sorted..|by rewrite !sort_stable_perm].
  intros x y Hx Hy Hxy Hyx. rewrite sort_stable_perm in Hx, Hy. rewrite <-Hp in Hy.
  apply (NoDup_key s_Labels l); try done. apply compareLabels_eq. unfold le_of, series_ltb in Hxy, Hyx.
  rewrite compareLabels_flip in Hxy. by destruct (compareLabels (s_Labels x) (s_Labels y)).
Qed.

Definition name_ltb (a b : Family) : bool := gs_ltb (f_Name a) (f_Name b).

Lemma family_sort_unique l l' : NoDup (f_Name <$> l) → l ≡ₚ l' → sort_stable name_ltb l = sort_stable name_ltb l'.
Proof.
  intros Hn Hp. apply (StronglySorted_unique_strong (le_of name_ltb)); [|apply sorted_by_key..|by rewrite !sort_stable_perm].
  intros x y Hx Hy Hxy Hyx. rewrite sort_stable_perm in Hx, Hy. rewrite <-Hp in Hy. unfold le_of, name_ltb in Hxy, Hyx.
  apply (NoDup_key f_Name l); try done.
  destruct (gs_lt_total (f_Name x) (f_Name y)) as [Hlt|[Hlt|Hlt]]; [|done|]; unfold gs_lt in Hlt; congruence.
Qed.

(** A family whose map of series is walked in another order. *)
Definition same_family (f g : Family) : Prop := f_Name f = f_Name g ∧ f_Type f = f_Type g ∧ f_Series f ≡ₚ f_Series g.

Lemma sort_stable_Forall2 {A} (ltb : A → A → bool) (R : A → A → Prop) l k :
  (∀ x y x' y', R x x' → R y y' → ltb x y = ltb x' y') → Forall2 R l k → Forall2 R (sort_stable ltb l) (sort_stable ltb k).
Proof.
  intros HR Hlk. assert (Hi : ∀ x x' a b, R x x' → Forall2 R a b → Forall2 R (insert_stable ltb x a) (insert_stable ltb x' b)).
  { intros x x' a b Hx. induction 1 as [|y y' a b Hy Hab IH]; cbn [insert_stable]; [by repeat constructor|].
    rewrite (HR x y x' y') by done. destruct (ltb x' y'); by repeat constructor. }
  unfold sort_stable. assert (Hg : ∀ a b, Forall2 R a b →
    Forall2 R (foldl (λ acc x, insert_stable ltb x acc) a l) (foldl (λ acc x, insert_stable ltb x acc) b k)).
  { induction Hlk as [|x y l k Hxy _ IH]; intros a b Hab; [done|]. cbn [foldl]. apply IH. by apply Hi. }
  by apply Hg.
Qed.

Lemma writeFamily_same f g : same_family f g → NoDup (s_Labels <$> f_Series f) → writeFamily f = writeFamily g.
Proof.
  intros (Hn & Ht & Hs) Hnd. unfold writeFamily. rewrite (series_sort_unique _ _ Hnd Hs), Hn, Ht.
  assert (He : ∀ l, write_all (writeSeries f) l = write_all (writeSeries g) l).
  { induction l as [|x l IH]; [done|]. cbn [write_all]. rewrite IH. unfold writeSeries. by rewrite Hn, Ht. }
  by rewrite He.
Qed.

(** The output of WriteFamilies is deterministic: when the families have different
    names and the series of each different labels, neither the order of the families
    nor that of the series in them changes the text, or the error. *)
Theorem exposition_deterministic fams mid fams' :
  NoDup (f_Name <$> fams) → Forall (λ f, NoDup (s_Labels <$> f_Series f)) fams →
  fams ≡ₚ mid → Forall2 same_family mid fams' → WriteFamilies fams = WriteFamilies fams'.
Proof.
  intros Hn Hl Hp Hf. unfold WriteFamilies. change (λ a b, gs_ltb (f_Name a) (f_Name b)) with name_ltb.
  rewrite (family_sort_unique fams mid Hn Hp). rewrite Hp in Hl. rewrite <-(sort_stable_perm name_ltb mid) in Hl.
  assert (Hs : Forall2 same_family (sort_stable name_ltb mid) (sort_stable name_ltb fams')).
  { apply sort_stable_Forall2; [|done]. intros x y x' y' (E1 & _) (E2 & _). unfold name_ltb. by rewrite E1, E2. }
  revert Hl. induction Hs as [|f g l k Hfg _ IH]; intros Hl; [done|]. apply Forall_cons in Hl as [Hf0 Hl].
  cbn [write_all]. by rewrite (writeFamily_same f g Hfg Hf0), (IH Hl).
Qed.

(** ** What a scrape shows *)
Section scrape.
Context `{Attributes} (value_String : value → gostring).

Lemma bucket_counts_length bounds (obs : observations) : length (bucket_counts bounds obs) = S (length bounds).
Proof. unfold bucket_counts. by rewrite List.length_map, length_seq. Qed.

Lemma shown_family r hist f fam : family_ok r hist f fam → shown_ok (family_of_store f fam).
Proof.
  intros [Hreg Ho Hb Hser]. unfold shown_ok, family_of_store. cbn [f_Type f_Series].
  assert (Hin : ∀ S, S ∈ map (λ ks : gostring * storeSeries, series_of_store fam ks.2) (map_to_list (sf_series fam)) →
    ∃ key s, sf_series fam !! key = Some s ∧ S = series_of_store fam s).
  { intros S HS. apply list_elem_of_In, in_map_iff in HS as ([key s] & <- & Hks). apply list_elem_of_In, elem_of_map_to_list in Hks.
    by exists key, s. }
  split_and!; [done| | |].
  - pose proof (NoDup_fst_map_to_list (sf_series fam)) as Hnd.
    apply (NoDup_fmap_1 labelsKey). rewrite <-list_fmap_compose. change (map ?g ?l) with (g <$> l). rewrite <-list_fmap_compose.
    erewrite (list_fmap_ext _ fst); [exact Hnd|]. intros i [key s] Hks. apply list_elem_of_lookup_2, elem_of_map_to_list in Hks.
    cbn. by destruct (Hser key s Hks) as [-> _].
  - apply Forall_forall. intros S HS. apply Hin in HS as (key & s & Hs & ->). cbn. by destruct (Hser key s Hs) as (_ & Hl & _).
  - apply Forall_forall. intros S HS. apply Hin in HS as (key & s & Hs & ->). unfold series_of_store. cbn [s_Histogram].
    case_bool_decide as Ht; [|done]. destruct (Hser key s Hs) as (_ & _ & _ & Hsh). destruct Hsh as [_ Hsh]. rewrite Ht in Hsh.
    destruct Hsh as [Hc _]. destruct (Hb Ht) as [Hv Hval]. destruct (bounds_sorted _ Hv Hval) as [B1 B2].
    eexists. split; [done|]. cbn [hd_Counts hd_Bounds]. split_and!; [|done|done]. rewrite Hc. apply bucket_counts_length.
Qed.

(** The families of a snapshot are those of the store it leaves, without the empty ones. *)
Lemma snapshot_families h hist now :
  store_ok h hist →
  let h' := (snapshot h now).1 in let fams := (snapshot h now).2 in
  NoDup (f_Name <$> fams) ∧ Forall shown_ok fams
  ∧ Forall (λ f, ∃ src, r_families (h_registry h') !! f_Name f = Some (src, f_Type f)) fams
  ∧ ∀ F, F ∈ fams ↔ ∃ f fam, h_families h' !! f = Some fam ∧ F = family_of_store f fam ∧ f_Series F ≠ [].
Proof.
  intros Hok. pose proof (snapshot_ok h hist now Hok) as [_ _ Hfam _]. cbv zeta. revert Hfam. unfold snapshot. cbv zeta.
  cbn [fst snd with_families h_families h_registry]. set (fams' := expire _ <$> h_families h). intros Hfam.
  assert (Hin : ∀ F, F ∈ List.filter (λ f, 0 <? len (f_Series f)) (map (λ nf, family_of_store nf.1 nf.2) (map_to_list fams')) ↔
    ∃ f fam, fams' !! f = Some fam ∧ F = family_of_store f fam ∧ f_Series F ≠ []).
  { intros F. rewrite list_elem_of_In, filter_In, in_map_iff. split.
    - intros (([f fam] & <- & Hnf) & Hl). apply list_elem_of_In, elem_of_map_to_list in Hnf. exists f, fam. split_and!; try done.
      intros He. by rewrite He in Hl.
    - intros (f & fam & Hf & -> & Hne). split; [exists (f, fam); split; [done|]; by apply list_elem_of_In, elem_of_map_to_list|].
      apply Z.ltb_lt. destruct (f_Series (family_of_store f fam)); [done|]. unfold len. simpl. lia. }
  split_and!; [|apply Forall_forall; intros F HF; apply Hin in HF as (f & fam & Hf & -> & _); by eapply shown_family, Hfam| |exact Hin].
  - assert (Hsub : ∀ l, NoDup (f_Name <$> l) → NoDup (f_Name <$> List.filter (λ f, 0 <? len (f_Series f)) l)).
    { intros l. induction l as [|F l IH]; intros Hn; [done|]. inversion Hn as [|? ? Hx Hl]; subst. cbn [List.filter].
      destruct (0 <? _); [|by apply IH]. constructor; [|by apply IH]. intros Hc. apply Hx.
      apply list_elem_of_fmap in Hc as (G & -> & HG). apply list_elem_of_In, filter_In in HG as [HG _].
      apply list_elem_of_fmap. exists G. split; [done|]. by apply list_elem_of_In. }
    apply Hsub. change (map ?g ?l) with (g <$> l). rewrite <-list_fmap_compose. exact (NoDup_fst_map_to_list fams').
  - apply Forall_forall. intros F HF. apply Hin in HF as (f & fam & Hf & -> & _). cbn. by destruct (Hfam f fam Hf) as [? _ _ _].
Qed.

Lemma names_sorted fams :
  NoDup (f_Name <$> fams) →
  StronglySorted gs_lt (f_Name <$> sort_stable (λ a b, gs_ltb (f_Name a) (f_Name b)) fams).
Proof.
  intros Hn. set (l := sort_stable _ fams).
  pose proof (sorted_by_key f_Name fams) as Hl. fold l in Hl.
  assert (Hnd : NoDup (f_Name <$> l)) by (unfold l; by rewrite sort_stable_perm).
  clearbody l. induction Hl as [|a l Hl IH Ha]; [constructor|]. inversion Hnd as [|? ? Hx Hnl]; subst. cbn. constructor; [by apply IH|].
  apply Forall_fmap. rewrite Forall_forall in Ha |- *. intros b Hb. specialize (Ha b Hb). unfold le_of in Ha. cbn.
  destruct (gs_lt_total (f_Name a) (f_Name b)) as [|[He|Hlt]]; [done| |unfold gs_lt in Hlt; congruence].
  exfalso. apply Hx. rewrite He. apply list_elem_of_fmap. eauto.
Qed.

(** A handler that has not been used. *)
Definition unused (h : Handler) : Prop := h_registry h = NewFamilyRegistry ∧ h_families h = ∅ ∧ buckets_valid h.

Lemma unused_ok h : unused h → store_ok h no_history.
Proof.
  intros (Hr & Hf & Hb). split; [|done| |].
  - rewrite Hr. split; cbn; intros *; by rewrite lookup_empty.
  - intros f fam. by rewrite Hf, lookup_empty.
  - done.
Qed.

(** C28. Whatever was exported and scraped before, a scrape renders: the text is a line
    of type and the samples of each family, the families in increasing order of their
    names, and no two samples have the same name and labels, nor has one sample a label
    twice. *)
Theorem exposition_unique h0 evs now :
  unused h0 →
  let h := (run value_String h0 no_history evs).1 in
  ∃ fams, fams ≡ₚ (snapshot h now).2 ∧ (WriteStats h now).2 = inl (concat (map family_text fams))
    ∧ StronglySorted gs_lt (f_Name <$> fams)
    ∧ NoDup (concat (map (λ f, map sample_id (family_samples f)) fams))
    ∧ ∀ f s, f ∈ fams → s ∈ family_samples f → NoDup (map l_Name (sample_id s).2).
Proof.
  intros Hu h. pose proof (run_ok value_String h0 no_history evs (unused_ok h0 Hu)) as Hok.
  pose proof (so_registry _ _ (snapshot_ok _ _ now Hok)) as Hreg.
  destruct (snapshot_families _ _ now Hok) as (Hn & Hs & Hr & _). fold h in Hn, Hs, Hr, Hreg.
  exists (sort_stable (λ a b, gs_ltb (f_Name a) (f_Name b)) (snapshot h now).2).
  pose proof (sort_stable_perm (λ a b, gs_ltb (f_Name a) (f_Name b)) (snapshot h now).2) as Hp.
  assert (Hs' : Forall shown_ok (sort_stable (λ a b, gs_ltb (f_Name a) (f_Name b)) (snapshot h now).2)) by (by rewrite Hp).
  split_and!; [done| |by apply names_sorted| |].
  - unfold WriteStats. destruct (snapshot h now) as [h' fams] eqn:E. cbn [snd] in *. unfold WriteFamilies. apply write_all_ok.
    eapply Forall_impl; [exact Hs'|]. intros f Hf. by apply writeFamily_spec, shown_renders.
  - rewrite (map_ext _ family_ids) by apply family_ids_spec. apply (exposition_nodup (h_registry (snapshot h now).1)); [done|by rewrite Hp|done|by rewrite Hp].
  - intros f s Hf Hin. rewrite Forall_forall in Hs'. specialize (Hs' f Hf). unfold family_samples in Hin.
    apply list_elem_of_In, in_concat in Hin as (l & Hl & Hin). apply in_map_iff in Hl as (S & <- & HS). apply list_elem_of_In in HS.
    rewrite (sort_stable_perm series_ltb) in HS. eapply (id_labels_nodup f S); [done|done|]. by apply list_elem_of_In, in_map.
Qed.

(** *** Buckets count the observations up to their bound *)
Lemma Search_loop_spec n f i j fuel :
  (∀ a b, (a ≤ b < n)%nat → f a = true → f b = true) →
  (i ≤ j ≤ n)%nat → (j - i ≤ fuel)%nat → (∀ k, (k < i)%nat → f k = false) → (∀ k, (j ≤ k < n)%nat → f k = true) →
  let r := sort_Search_loop fuel f i j in (∀ k, (k < r)%nat → f k = false) ∧ (∀ k, (r ≤ k < n)%nat → f k = true).
Proof.
  intros Hm. revert i j. induction fuel as [|fuel IH]; intros i j Hij Hf Hlo Hhi; cbn [sort_Search_loop].
  - assert (i = j) as <- by lia. done.
  - destruct (Nat.ltb_spec i j) as [Hlt|]; [|assert (i = j) as <- by lia; done].
    assert (Hh : (i ≤ (i + j) / 2 < j)%nat).
    { split; [apply Nat.div_le_lower_bound; lia|apply Nat.Div0.div_lt_upper_bound; lia]. }
    cbv zeta. destruct (f ((i + j) / 2)%nat) eqn:E; apply IH; try done; try lia.
    + intros k Hk. eapply Hm; [|exact E]. lia.
    + intros k Hk. destruct (f k) eqn:Ek; [|done]. rewrite (Hm k ((i + j) / 2)%nat) in E; [done|lia|done].
Qed.

Lemma SearchFloat64s_spec bounds v i b :
  Forall bound bounds → StronglySorted (λ a b, fkey a < fkey b) bounds → valid v = true → is_nan v = false →
  bounds !! i = Some b → (SearchFloat64s bounds v ≤ i)%nat ↔ fle v b = true.
Proof.
  intros Hb Hs Hv Hn Hi. set (f := λ i, negb (flt (default f_zero (bounds !! i)) v)).
  assert (Hf : ∀ k x, bounds !! k = Some x → f k = fle v x).
  { intros k x Hk. unfold f. rewrite Hk. cbn [default]. rewrite Forall_lookup in Hb. destruct (Hb k x Hk) as (Vx & Nx & _).
    rewrite flt_key, fle_key by done. destruct (Z.ltb_spec (fkey x) (fkey v)), (Z.leb_spec (fkey v) (fkey x)); simpl; try done; lia. }
  assert (Hm : ∀ a b, (a ≤ b < length bounds)%nat → f a = true → f b = true).
  { intros a c Hac Ha. destruct (decide (a = c)) as [->|Hne]; [done|].
    destruct (lookup_lt_is_Some_2 bounds a ltac:(lia)) as [x Hx]. destruct (lookup_lt_is_Some_2 bounds c ltac:(lia)) as [y Hy].
    rewrite (Hf a x Hx) in Ha. rewrite (Hf c y Hy). rewrite Forall_lookup in Hb.
    destruct (Hb a x Hx) as (Vx & Nx & _). destruct (Hb c y Hy) as (Vy & Ny & _). rewrite fle_key in Ha |- * by done.
    assert (fkey x < fkey y).
    { clear -Hs Hx Hy Hac Hne. revert a c Hx Hy Hac Hne. induction Hs as [|z l Hl IH Hz]; intros a c Hx Hy Hac Hne; [done|].
      destruct c as [|c]; [lia|]. cbn in Hy. destruct a as [|a]; cbn in Hx.
      - injection Hx as ->. rewrite Forall_forall in Hz. apply Hz. by eapply list_elem_of_lookup_2.
      - apply (IH a c); try done; [simpl in Hac; lia|congruence]. }
    apply Z.leb_le in Ha. apply Z.leb_le. lia. }
  destruct (Search_loop_spec (length bounds) f 0 (length bounds) (length bounds) Hm) as [Hlo Hhi]; try lia.
  unfold SearchFloat64s, sort_Search. fold f. rewrite <-(Hf i b Hi). split; intros Hx.
  - apply Hhi. split; [done|]. by eapply lookup_lt_Some.
  - destruct (le_lt_dec (sort_Search_loop (length bounds) f 0 (length bounds)) i) as [|Hlt]; [done|].
    rewrite (Hlo i Hlt) in Hx. done.
Qed.

Lemma running_map c (g : nat → Z) a n i :
  (i < n)%nat → running (u64 c) (map (λ j, u64 (g j)) (seq a n)) !! i = Some (u64 (c + zsum g (seq a (S i)))).
Proof.
  revert c a i. induction n as [|n IH]; intros c a i Hi; [lia|].
  change (seq a (S n)) with (a :: seq (S a) n). change (seq a (S i)) with (a :: seq (S a) i).
  rewrite zsum_cons. cbn [map running]. rewrite u64_add_l, u64_add_r. destruct i as [|i].
  - cbn [seq]. change (zsum g []) with 0. cbn. do 2 f_equal. lia.
  - change ((?x :: ?l) !! S i) with (l !! i). rewrite IH by lia. do 2 f_equal. lia.
Qed.

Lemma zsum_swap {A B} (g : A → B → Z) l k : zsum (λ a, zsum (g a) k) l = zsum (λ b, zsum (λ a, g a b) l) k.
Proof.
  induction l as [|a l IH]; [rewrite zsum_zero; done|]. rewrite zsum_cons, IH, <-zsum_add. apply zsum_ext. intros b _. done.
Qed.

Lemma zsum_indicator x a n : zsum (λ j, if decide (x = j) then 1 else 0) (seq a n) = if decide (a ≤ x < a + n)%nat then 1 else 0.
Proof.
  revert a. induction n as [|n IH]; intros a; cbn [seq]; [rewrite decide_False by lia; done|]. rewrite zsum_cons, IH.
  repeat case_decide; lia.
Qed.

(** The count a bucket shows: the observations that are at most its bound. *)
Definition at_most (b : float64) (obs : observations) : Z := zsum (λ mt, ind (fle (Value mt.1) b)) obs.

Lemma bucket_cumulative bounds obs i b :
  Forall bound bounds → StronglySorted (λ a b, fkey a < fkey b) bounds →
  Forall (λ mt, valid (Value mt.1) = true ∧ is_nan (Value mt.1) = false) obs → bounds !! i = Some b →
  running 0 (bucket_counts bounds obs) !! i = Some (u64 (at_most b obs)).
Proof.
  intros Hb Hs Ho Hi. pose proof (lookup_lt_Some _ _ _ Hi) as Hlt. unfold bucket_counts. change 0 with (u64 0) at 1.
  rewrite running_map by lia. rewrite Z.add_0_l, zsum_swap. do 2 f_equal. unfold at_most. apply zsum_ext. intros mt Hmt.
  rewrite Forall_forall in Ho. destruct (Ho mt Hmt) as [Hv Hn]. unfold in_bucket. rewrite zsum_indicator.
  pose proof (SearchFloat64s_spec bounds (Value mt.1) i b Hb Hs Hv Hn Hi) as Hsp. unfold ind.
  destruct (fle (Value mt.1) b); case_decide as Hd; try done; exfalso; [apply Hd; pose proof (proj2 Hsp eq_refl); lia|].
  assert (SearchFloat64s bounds (Value mt.1) ≤ i)%nat as Hle by lia. by apply Hsp in Hle.
Qed.

Lemma bucket_total bounds obs : running 0 (bucket_counts bounds obs) !! length bounds = Some (u64 (len obs)).
Proof.
  unfold bucket_counts. change 0 with (u64 0) at 1. rewrite running_map by lia. rewrite Z.add_0_l, zsum_swap. do 2 f_equal.
  transitivity (zsum (λ _ : Metric * Z, 1) obs).
  - apply zsum_ext. intros mt _. unfold in_bucket. rewrite zsum_indicator, decide_True; [done|].
    pose proof (SearchFloat64s_le bounds (Value mt.1)). lia.
  - unfold len, zsum. induction obs as [|mt obs IH]; simpl; [done|]. rewrite IH. lia.
Qed.

(** *** Observed values are floats *)
Definition hist_valid (hist : history) : Prop := ∀ f l, Forall (λ mt, valid (Value mt.1) = true) (hist f l).
Definition metric_valid (m : option Metric) : Prop := match m with Some m => valid (Value m) = true | None => True end.
Definition event_valid (e : event) : Prop := match e with EvExport ms _ => Forall metric_valid ms | EvScrape _ => True end.

Lemma recorded_valid h hist m now err : hist_valid hist → valid (Value m) = true → hist_valid (recorded value_String h hist m now err).
Proof using Type.
  intros Hh Hm. unfold recorded. destruct err; [done|]. destruct (identity _ _ _) as [[f l]|]; [|done].
  intros f' l'. unfold add_history. case_decide; [|done]. apply Forall_app. split; [apply Hh|by constructor].
Qed.

Lemma history_export_valid h hist ms now :
  hist_valid hist → Forall metric_valid ms → hist_valid (history_export value_String h hist ms now).
Proof using Type.
  intros Hh Hm. revert h hist Hh. induction Hm as [|[m|] ms Hm _ IH]; intros h hist Hh; cbn [history_export]; [done| |by apply IH].
  apply IH. by apply recorded_valid.
Qed.

Lemma history_scrape_valid h hist now : hist_valid hist → hist_valid (history_scrape h hist now).
Proof using Type. intros Hh f l. unfold history_scrape. by case_match. Qed.

Lemma run_valid h hist evs : hist_valid hist → Forall event_valid evs → hist_valid (run value_String h hist evs).2.
Proof using Type.
  intros Hh He. revert h hist Hh. induction He as [|[ms now|now] evs He _ IH]; intros h hist Hh; cbn [run]; [done| |]; apply IH.
  - by apply history_export_valid.
  - by apply history_scrape_valid.
Qed.

(** *** The contract of a series that is shown *)
Definition tells (F : Family) (S : Series) (obs : observations) : Prop :=
  match f_Type F with
  | MetricTypeCounter => s_Value S = total obs
  | MetricTypeGauge => ∃ m, newest obs = Some m ∧ s_Value S = Value m
  | MetricTypeHistogram =>
      ∃ d, s_Histogram S = Some d ∧ hd_Sum d = total obs
        ∧ (∀ i b, hd_Bounds d !! i = Some b → running 0 (hd_Counts d) !! i = Some (u64 (at_most b obs)))
        ∧ running 0 (hd_Counts d) !! length (hd_Bounds d) = Some (u64 (len obs))
  | MetricTypeOther _ => False
  end.

Lemma shown_tells r hist f fam key s :
  family_ok r hist f fam → hist_valid hist → sf_series fam !! key = Some s →
  tells (family_of_store f fam) (series_of_store fam s) (hist f (ss_labels s)).
Proof using Type.
  intros [_ Hno Hb Hser] Hval Hs. destruct (Hser key s Hs) as (_ & _ & [_ Hacc] & [_ Hsh]). unfold tells. cbn [family_of_store f_Type].
  destruct (sf_typ fam) eqn:Et; try done.
  - destruct Hsh as (m & Hn & Hv & _). by exists m.
  - destruct Hsh as [Hc Hsum]. destruct (Hb eq_refl) as [Hvb Hvv]. destruct (bounds_sorted _ Hvb Hvv) as [B1 B2].
    unfold series_of_store. rewrite Et, bool_decide_true by done. eexists. split; [done|]. cbn [hd_Sum hd_Counts hd_Bounds]. rewrite Hc.
    split_and!; [done| |apply bucket_total]. intros i b Hi. apply bucket_cumulative; try done.
    specialize (Hval f (ss_labels s)). rewrite Forall_forall in Hval, Hacc. apply Forall_forall. intros mt Hmt.
    split; [by apply Hval|]. by apply Hacc.
Qed.

(** C27. The store is the fold of what it accepted: after any exports and scrapes, a
    scrape shows exactly the series that were observed within the timeout, a counter as
    the total of its observations since it was last made, a gauge as the value of the
    newest of them, and a histogram as their sum and, for every bound, how many of them
    are at most that bound. *)
Theorem pull_store_refines h0 evs now :
  unused h0 → Forall event_valid evs →
  let h := (run value_String h0 no_history evs).1 in
  let hist := history_scrape h (run value_String h0 no_history evs).2 now in
  let fams := (snapshot h now).2 in
  (∀ f l, hist f l ≠ [] ↔ ∃ F S, F ∈ fams ∧ f_Name F = f ∧ S ∈ f_Series F ∧ s_Labels S = l)
  ∧ ∀ F S, F ∈ fams → S ∈ f_Series F → tells F S (hist (f_Name F) (s_Labels S)).
Proof.
  intros Hu He h hist fams. pose proof (run_ok value_String h0 no_history evs (unused_ok h0 Hu)) as Hok. fold h in Hok.
  pose proof (snapshot_ok _ _ now Hok) as [_ _ Hfam Hhist]. fold hist in Hfam, Hhist.
  destruct (snapshot_families _ _ now Hok) as (_ & _ & _ & Hin). fold fams in Hin.
  assert (Hval : hist_valid hist) by (apply history_scrape_valid, run_valid; [by intros ? ?; constructor|done]).
  assert (Hser : ∀ f fam S, S ∈ f_Series (family_of_store f fam) ↔ ∃ key s, sf_series fam !! key = Some s ∧ S = series_of_store fam s).
  { intros f fam S. cbn [family_of_store f_Series]. rewrite list_elem_of_In, in_map_iff. split.
    - intros ([key s] & <- & Hks). apply list_elem_of_In, elem_of_map_to_list in Hks. eauto.
    - intros (key & s & Hs & ->). exists (key, s). split; [done|]. by apply list_elem_of_In, elem_of_map_to_list. }
  split.
  - intros f l. split.
    + intros Hh. destruct (Hhist f l Hh) as (fam & s & E1 & E2 & E3). assert (HS : series_of_store fam s ∈ f_Series (family_of_store f fam)) by (apply Hser; eauto).
      exists (family_of_store f fam), (series_of_store fam s). split_and!; try done. apply Hin. exists f, fam. split_and!; try done.
      intros Hn. rewrite Hn in HS. by apply not_elem_of_nil in HS.
    + intros (F & S & HF & <- & HS & <-). apply Hin in HF as (f & fam & E1 & -> & _). apply Hser in HS as (key & s & Hs & ->). cbn.
      destruct (Hfam f fam E1) as [_ _ _ Hx]. by destruct (Hx key s Hs) as (_ & _ & [Hne _] & _).
  - intros F S HF HS. apply Hin in HF as (f & fam & E1 & -> & _). apply Hser in HS as (key & s & Hs & ->). eapply shown_tells; eauto.
Qed.

End scrape.

(** ** A run *)
Definition toy_text : @value toy_attributes → gostring := λ v, match v with VString s => s | _ => str "?" end.

Definition demo_handler : Handler :=
  mkHandler (str "app.") 0 (Some (λ _, [f_one; f_of_Z 5])) NewFamilyRegistry ∅.

Definition demo_obs (typ : MetricType) (name : string) (v : float64) (path : string) (t : Z) : option (@Metric toy_attributes) :=
  Some (mkMetric (str name) typ v [(str "path", VString (str path))] t 1 0 0 [] []).

Definition demo_events : list (@event toy_attributes) :=
  [EvExport [demo_obs MetricTypeCounter "app.hits" f_one "/" 1; None; demo_obs MetricTypeGauge "app.load" (f_of_Z 3) "/" 9;
             demo_obs MetricTypeHistogram "app.lat" (f_of_Z 5) "/" 1] 10;
   EvScrape 20;
   EvExport [demo_obs MetricTypeCounter "app.hits" (f_of_Z 2) "/" 2; demo_obs MetricTypeGauge "app.load" (f_of_Z 4) "/" 8;
             demo_obs MetricTypeHistogram "app.lat" (f_of_Z 7) "/" 2; demo_obs MetricTypeGauge "app.hits_total" f_one "/" 3] 30].

(** Text in which an apostrophe stands for a double quote. *)
Definition quoted (s : string) : gostring := map (λ b, if bool_decide (b = byte_of 39) then byte_of 34 else b) (str s).

Example demo_text :
  (WriteStats (run toy_text demo_handler no_history demo_events).1 40).2
  = inl (quoted "# TYPE hits_total counter
hits_total{path='/'} 3
# TYPE lat histogram
lat_bucket{path='/',le='1'} 0
lat_bucket{path='/',le='5'} 1
lat_bucket{path='/',le='+Inf'} 2
lat_sum{path='/'} 12
lat_count{path='/'} 2
# TYPE load gauge
load{path='/'} 3
").
Proof. vm_compute. reflexivity. Qed.

Example demo_scrape :
  (ServeHTTP id (λ _, []) (run toy_text demo_handler no_history demo_events).1 (40 + 2 * DefaultMetricTimeout) (str "GET")
     [str "br, gzip;q=0.5"]).2
  = mkResponse 200
      [("Vary"%string, str "Accept-Encoding"); ("Content-Encoding"%string, str "gzip"); ("Content-Type"%string, ContentType);
       ("Content-Length"%string, str "0")] [].
Proof. vm_compute. reflexivity. Qed.

Lemma demo_unused : unused demo_handler.
Proof.
  split_and!; [done|done|]. intros lookup_ name [= <-]. apply (bool_decide_unpack _). vm_compute. exact I.
Qed.

Lemma demo_events_valid : Forall event_valid demo_events.
Proof. repeat constructor. Qed.

Lemma exposition_unique_witness :
  let h := (run toy_text demo_handler no_history demo_events).1 in
  ∃ fams, (WriteStats h 40).2 = inl (concat (map family_text fams)) ∧ StronglySorted gs_lt (f_Name <$> fams)
    ∧ length (snapshot h 40).2 = 3%nat.
Proof.
  destruct (exposition_unique toy_text demo_handler demo_events 40 demo_unused) as (fams & _ & Ht & Hs & _).
  exists fams. split_and!; [exact Ht|exact Hs|vm_compute; reflexivity].
Defined.

Lemma demo_observed :
  let r := run toy_text demo_handler no_history demo_events in
  length (history_scrape r.1 r.2 40 (str "lat") [mkLabel (str "path") (str "/")]) = 2%nat.
Proof. vm_compute. reflexivity. Qed.

Lemma pull_store_refines_witness :
  let r := run toy_text demo_handler no_history demo_events in
  ∃ F S, F ∈ (snapshot r.1 40).2 ∧ f_Name F = str "lat" ∧ S ∈ f_Series F
    ∧ tells F S (history_scrape r.1 r.2 40 (str "lat") [mkLabel (str "path") (str "/")]).
Proof.
  destruct (pull_store_refines toy_text demo_handler demo_events 40 demo_unused demo_events_valid) as [Hiff Ht].
  destruct (proj1 (Hiff (str "lat") [mkLabel (str "path") (str "/")])) as (F & S & HF & Hn & HS & Hl).
  - intros Hnil. pose proof demo_observed as Hl. cbv zeta in Hl. by rewrite Hnil in Hl.
  - exists F, S. split_and!; try done. specialize (Ht F S HF HS). by rewrite Hn, Hl in Ht.
Defined.

Definition demo_family (series : list Series) : Family := mkFamily (str "load") MetricTypeGauge series.
Definition demo_at (path : string) (n : Z) : Series := mkSeries [mkLabel (str "path") (str path)] (f_of_Z n) None.
Definition other_family : Family := mkFamily (str "up") MetricTypeGauge [mkSeries [] f_one None].

Lemma exposition_deterministic_witness :
  WriteFamilies [demo_family [demo_at "/a" 1; demo_at "/b" 2]; other_family]
  = WriteFamilies [other_family; demo_family [demo_at "/b" 2; demo_at "/a" 1]].
Proof.
  apply (exposition_deterministic _ [other_family; demo_family [demo_at "/a" 1; demo_at "/b" 2]]).
  - apply (bool_decide_unpack _). vm_compute. exact I.
  - repeat constructor; set_solver.
  - apply Permutation_swap.
  - constructor; [done|]. constructor; [|constructor]. split_and!; [done|done|apply Permutation_swap].
Defined.
