(* ===== verification/Transport.v ===== *)
(** * Resource and transport of the OTLP exporter (exporters/otlp/resource.go, transport.go, tls.go)

    The attributes of the resource are merged from the detected ones, the environment and
    the configuration.  The transport's constructors put together the options they pass to
    the OpenTelemetry exporters, which are parameters, as are the files and certificates
    of TLS and the parser of URLs.

    [transport_explicit]: endpoint, headers, timeout and TLS are always passed explicitly.
    [resource_precedence]: of every key the resource has the value of the source that wins
    according to the documentation.  [insecure_reads_no_files]: an insecure endpoint does
    not depend on the TLS settings.  [tls_never_relaxed]: verification is as the caller set
    it, and the lowest version is TLS 1.2 when the caller set none. *)

From S2P Require Import Prelude GoLib Strings Attribute Config Options Prom PromCorrect.

Section resource.
Context `{Attributes}.

(** os.LookupEnv: [None] when the variable is not set. *)
Context (LookupEnv : gostring → option gostring).
(** What the detectors of the SDK found, and the host name or the random identifier. *)
Context (detected : list KeyValue) (hostname : option gostring) (random_id : gostring).

Notation attr_map := (gmap gostring value).

Definition put (attrs : attr_map) (entry : KeyValue) : attr_map := <[entry.1 := entry.2]> attrs.

Definition defaultInstanceID : gostring :=
  match hostname with
  | Some host => if gostring_eqb host [] then random_id else host
  | None => random_id
  end.

Definition applyEnvironmentAttribute (attrs : attr_map) (key env : gostring) : attr_map :=
  match LookupEnv env with
  | Some v => if gostring_eqb v [] then attrs else put attrs (String_kv key v)
  | None => attrs
  end.

(** One entry of the list; [None] when it is skipped. *)
Definition parse_entry (entry : gostring) : option KeyValue :=
  match cut_byte (byte_of 61) (TrimSpace entry) with
  | (_, None) => None
  | (key, Some v) =>
      if gostring_eqb key [] then None
      else
        let key := TrimSpace key in
        if gostring_eqb key [] then None
        else
          let v := TrimSpace v in
          Some (String_kv key (default v (PathUnescape v)))
  end.

Definition parseResourceAttributes (raw : gostring) : list KeyValue := omap parse_entry (split_byte (byte_of 44) raw).

Definition serviceName : gostring := str "service.name".
Definition deploymentEnvironment : gostring := str "deployment.environment".
Definition serviceVersion : gostring := str "service.version".
Definition serviceInstanceID : gostring := str "service.instance.id".

(** A field of the configuration, or a fallback for a key that has no value yet. *)
Definition field_or (key configured fallback : gostring) (attrs : attr_map) : attr_map :=
  if negb (gostring_eqb configured []) then put attrs (String_kv key configured)
  else match attrs !! key with Some _ => attrs | None => put attrs (String_kv key fallback) end.

Definition resource_attrs (config : OTLPConfig) : attr_map :=
  let attrs : attr_map := ∅ in
  let attrs := if o_DisableResourceDetection config then attrs else foldl put attrs detected in
  let attrs := foldl put attrs (parseResourceAttributes (default [] (LookupEnv (str "OTEL_RESOURCE_ATTRIBUTES")))) in
  let attrs := applyEnvironmentAttribute attrs serviceName (str "OTEL_SERVICE_NAME") in
  let attrs := applyEnvironmentAttribute attrs deploymentEnvironment (str "DEPLOYMENT_ENVIRONMENT") in
  let attrs := applyEnvironmentAttribute attrs serviceVersion (str "SERVICE_VERSION") in
  let attrs := foldl put attrs (o_ResourceAttributes config) in
  let attrs := field_or serviceName (o_ServiceName config) (str "unknown_service") attrs in
  let attrs := field_or deploymentEnvironment (o_DeploymentEnvironment config) (str "unknown") attrs in
  let attrs := field_or serviceInstanceID [] defaultInstanceID attrs in
  field_or serviceVersion (o_ServiceVersion config) (str "unknown") attrs.

(** The schema URL and the attributes, sorted by key, passed to resource.NewWithAttributes. *)
Definition resourceForConfig (config : OTLPConfig) : gostring * list KeyValue :=
  (o_ResourceSchemaURL config, sort_stable (λ a b : KeyValue, gs_ltb a.1 b.1) (map_to_list (resource_attrs config))).

(** ** The reference: the sources of a key, the one that wins first *)
Definition field_of (config : OTLPConfig) (key : gostring) : gostring :=
  if gostring_eqb key serviceName then o_ServiceName config
  else if gostring_eqb key deploymentEnvironment then o_DeploymentEnvironment config
  else if gostring_eqb key serviceVersion then o_ServiceVersion config
  else [].

Definition variable_of (key : gostring) : option gostring :=
  if gostring_eqb key serviceName then LookupEnv (str "OTEL_SERVICE_NAME")
  else if gostring_eqb key deploymentEnvironment then LookupEnv (str "DEPLOYMENT_ENVIRONMENT")
  else if gostring_eqb key serviceVersion then LookupEnv (str "SERVICE_VERSION")
  else None.

Definition fallback_of (key : gostring) : option gostring :=
  if gostring_eqb key serviceName then Some (str "unknown_service")
  else if gostring_eqb key deploymentEnvironment then Some (str "unknown")
  else if gostring_eqb key serviceInstanceID then Some defaultInstanceID
  else if gostring_eqb key serviceVersion then Some (str "unknown")
  else None.

Definition stated (v : gostring) : option value := if gostring_eqb v [] then None else Some (string_value v).

Definition sources (config : OTLPConfig) (key : gostring) : list (option value) :=
  [stated (field_of config key);
   last_value key (o_ResourceAttributes config);
   v ← variable_of key; stated v;
   last_value key (parseResourceAttributes (default [] (LookupEnv (str "OTEL_RESOURCE_ATTRIBUTES"))));
   if o_DisableResourceDetection config then None else last_value key detected;
   string_value <$> fallback_of key].

Definition first_some {A} (l : list (option A)) : option A := head (omap id l).

Lemma foldl_put attrs kvs key : foldl put attrs kvs !! key = first_some [last_value key kvs; attrs !! key].
Proof.
  revert attrs. induction kvs as [|[k v] kvs IH]; intros attrs; simpl; [by destruct (attrs !! key)|].
  rewrite IH. destruct (last_value key kvs); [done|]. unfold put. simpl. case_decide as Hk.
  - subst. by rewrite lookup_insert_eq.
  - by rewrite lookup_insert_ne.
Qed.

Lemma applyEnvironment_lookup attrs k env key :
  applyEnvironmentAttribute attrs k env !! key =
  first_some [if gostring_eqb key k then (v ← LookupEnv env; stated v) else None; attrs !! key].
Proof.
  unfold applyEnvironmentAttribute, stated, gostring_eqb. destruct (decide (key = k)) as [->|Hk].
  - rewrite (bool_decide_eq_true_2 (k = k)) by done. destruct (LookupEnv env) as [v|]; simpl; [|by destruct (attrs !! k)].
    case_bool_decide; simpl; [by destruct (attrs !! k)|]. unfold put. simpl. by rewrite lookup_insert_eq.
  - rewrite (bool_decide_eq_false_2 (key = k)) by done.
    assert (Hx : ∀ v, put attrs (String_kv k v) !! key = attrs !! key) by (intros v; unfold put; simpl; by rewrite lookup_insert_ne).
    repeat case_match; rewrite ?Hx; by destruct (attrs !! key).
Qed.

Lemma field_or_lookup k configured fallback attrs key :
  field_or k configured fallback attrs !! key =
  if gostring_eqb key k then first_some [stated configured; attrs !! key; Some (string_value fallback)] else attrs !! key.
Proof.
  unfold field_or, stated, gostring_eqb. destruct (decide (key = k)) as [->|Hk].
  - rewrite (bool_decide_eq_true_2 (k = k)) by done. case_bool_decide; simpl; [|unfold put; simpl; by rewrite lookup_insert_eq].
    destruct (attrs !! k) as [v|] eqn:E; simpl; [by rewrite E|]. unfold put. simpl. by rewrite lookup_insert_eq.
  - rewrite (bool_decide_eq_false_2 (key = k)) by done.
    assert (Hx : ∀ v, put attrs (String_kv k v) !! key = attrs !! key) by (intros v; unfold put; simpl; by rewrite lookup_insert_ne).
    repeat case_match; by rewrite ?Hx.
Qed.

Lemma first_some_nest {A} (a b : option A) (l : list (option A)) : first_some [a; first_some (b :: l)] = first_some (a :: b :: l).
Proof. unfold first_some. destruct a; [done|]. by destruct (head (omap id (b :: l))) eqn:E; csimpl in *. Qed.

Lemma keys_distinct : NoDup [serviceName; deploymentEnvironment; serviceVersion; serviceInstanceID].
Proof. apply (bool_decide_eq_true_1 _). vm_compute. reflexivity. Qed.

Lemma resource_attrs_lookup config key : resource_attrs config !! key = first_some (sources config key).
Proof.
  pose proof keys_distinct as Hd. unfold resource_attrs, sources, field_of, variable_of, fallback_of.
  set (env := parseResourceAttributes _). repeat rewrite field_or_lookup. repeat rewrite foldl_put. repeat rewrite applyEnvironment_lookup.
  repeat rewrite foldl_put.
  assert (Hdet : (if o_DisableResourceDetection config then (∅ : attr_map) else foldl put ∅ detected) !! key
    = (if o_DisableResourceDetection config then None else last_value key detected)).
  { destruct (o_DisableResourceDetection config); [done|]. rewrite foldl_put, lookup_empty. by destruct (last_value key detected). }
  rewrite Hdet. clear Hdet. set (det := if o_DisableResourceDetection config then None else _). clearbody det.
  rewrite !NoDup_cons, !not_elem_of_cons in Hd. destruct Hd as ((H1 & H2 & H3 & _) & (H4 & H5 & _) & (H6 & _) & _).
  assert (Hnil : stated [] = None) by done. unfold gostring_eqb.
  repeat case_bool_decide; try congruence; rewrite ?Hnil;
    repeat match goal with |- context [last_value ?k ?l] => destruct (last_value k l) end;
    repeat match goal with |- context [LookupEnv ?v] => destruct (LookupEnv v) end; simpl;
    repeat match goal with |- context [stated ?v] => destruct (stated v) end; try done; by destruct det.
Qed.


Lemma sorted_keys_strict (l : list KeyValue) :
  NoDup l.*1 → StronglySorted (le_of (λ a b : KeyValue, gs_ltb a.1 b.1)) l → StronglySorted gs_lt l.*1.
Proof.
  intros Hn. induction 1 as [|x l Hs IH Hx]; csimpl in *; [constructor|]. apply NoDup_cons in Hn as [Hx' Hn].
  constructor; [by apply IH|]. apply Forall_forall. intros k Hk. pose proof Hk as (y & -> & Hy)%list_elem_of_fmap.
  rewrite Forall_forall in Hx. specialize (Hx y Hy). unfold le_of in Hx.
  destruct (gs_lt_total x.1 y.1) as [|[He|Hlt]]; [done|by rewrite He in Hx'|unfold gs_lt in Hlt; congruence].
Qed.

(** The resource has of every key the value of the source that comes first: the field of
    the configuration, the attributes of the configuration, the variable of the key, the list
    in OTEL_RESOURCE_ATTRIBUTES, the detectors, the fallback; a later attribute of one list
    wins over an earlier one, and empty fields and variables count as absent.  The attributes
    are sorted and their keys distinct; the service's name, environment, version and instance
    are always there. *)
Theorem resource_precedence config :
  (resourceForConfig config).1 = o_ResourceSchemaURL config ∧
  (∀ key v, (key, v) ∈ (resourceForConfig config).2 ↔ first_some (sources config key) = Some v) ∧
  StronglySorted gs_lt (resourceForConfig config).2.*1 ∧
  (∀ key, key ∈ [serviceName; deploymentEnvironment; serviceVersion; serviceInstanceID] → key ∈ (resourceForConfig config).2.*1).
Proof.
  assert (Hperm : (resourceForConfig config).2 ≡ₚ map_to_list (resource_attrs config)) by apply sort_stable_perm.
  assert (Hin : ∀ key v, (key, v) ∈ (resourceForConfig config).2 ↔ resource_attrs config !! key = Some v).
  { intros key v. by rewrite Hperm, elem_of_map_to_list. }
  split_and!; [done|..].
  - intros key v. by rewrite Hin, resource_attrs_lookup.
  - apply sorted_keys_strict; [|apply (sorted_by_key fst)]. rewrite Hperm. apply NoDup_fst_map_to_list.
  - intros key Hkey. assert (is_Some (resource_attrs config !! key)) as [v Hv].
    { rewrite resource_attrs_lookup. unfold sources.
      assert (is_Some (fallback_of key)) as [f ->].
      { set_unfold in Hkey. destruct Hkey as [->|[->|[->|[->|[]]]]]; vm_compute; eauto. }
      unfold first_some. csimpl. repeat match goal with |- context [match ?x with _ => _ end] => destruct x end; simpl; eauto. }
    apply Hin in Hv. apply list_elem_of_fmap. by exists (key, v).
Qed.

End resource.

(** ** TLS (tls.go)

    The fields of a tls.Config the code looks at; [pool] and [pair] stand for certificates. *)
Section transport.
Context `{Attributes}.
Context (pool pair : Type).

Record tlsConfig := mkTLS { MinVersion : Z; RootCAs : option pool; Certificates : list pair; InsecureSkipVerify : bool }.

Definition VersionTLS12 : Z := 771.

(** The file system and the certificates in it, the tls.Configs of the program, the
    environment; url.Parse (scheme, host and path) and URL.String. *)
Record files := mkFiles {
  ReadFile : gostring → gostring + error;
  AppendCertsFromPEM : gostring → option pool;
  LoadX509KeyPair : gostring → gostring → pair + error }.

Context (tls_configs : nat → tlsConfig) (is_set : gostring → bool).
Context (url_Parse : gostring → (gostring * gostring * gostring) + error) (url_String : gostring → gostring → gostring → gostring).
Context (quote : gostring → gostring).

Definition with_roots (cfg : tlsConfig) (p : pool) : tlsConfig := mkTLS (MinVersion cfg) (Some p) (Certificates cfg) (InsecureSkipVerify cfg).
Definition with_pair (cfg : tlsConfig) (p : pair) : tlsConfig := mkTLS (MinVersion cfg) (RootCAs cfg) (Certificates cfg ++ [p]) (InsecureSkipVerify cfg).

Definition base_tls (config : OTLPConfig) : tlsConfig :=
  match o_TLSConfig config with Some a => tls_configs a | None => mkTLS 0 None [] false end.

Definition tls_roots (fs : files) (config : OTLPConfig) (cfg : tlsConfig) : tlsConfig + error :=
  if gostring_eqb (o_CAFile config) [] then inl cfg
  else
    match ReadFile fs (o_CAFile config) with
    | inr err => inr (ErrWrap (str "read otlp CA file") err)
    | inl pem =>
        match AppendCertsFromPEM fs pem with
        | None => inr (ErrText (str "otlp CA file " ++ quote (o_CAFile config) ++ str " contains no PEM certificate"))
        | Some p => inl (with_roots cfg p)
        end
    end.

Definition tls_pair (fs : files) (config : OTLPConfig) (cfg : tlsConfig) : tlsConfig + error :=
  if gostring_eqb (o_ClientCertFile config) [] && gostring_eqb (o_ClientKeyFile config) [] then inl cfg
  else
    match LoadX509KeyPair fs (o_ClientCertFile config) (o_ClientKeyFile config) with
    | inr err => inr (ErrWrap (str "load otlp client certificate") err)
    | inl p => inl (with_pair cfg p)
    end.

Definition buildTLSConfig (fs : files) (config : OTLPConfig) : tlsConfig + error :=
  let cfg := base_tls config in
  let cfg := if MinVersion cfg =? 0 then mkTLS VersionTLS12 (RootCAs cfg) (Certificates cfg) (InsecureSkipVerify cfg) else cfg in
  match tls_roots fs config cfg with
  | inr err => inr err
  | inl cfg => tls_pair fs config cfg
  end.

(** ** The transport (transport.go) *)
Definition defaultExportTimeout : Z := 10 * Second.
Definition defaultMetricsPath : gostring := str "/v1/metrics".

Record endpointSettings := mkEndpoint { e_host : gostring; e_path : gostring; e_insecure : bool }.

Definition parseEndpoint (config : OTLPConfig) : endpointSettings + error :=
  let raw := TrimSpace (o_Endpoint config) in
  if negb (Contains raw (str "://")) then inl (mkEndpoint raw [] (o_Insecure config))
  else
    match url_Parse raw with
    | inr err => inr (ErrWrap (str "invalid otlp endpoint " ++ quote raw) err)
    | inl (scheme, host, path) =>
        if (negb (gostring_eqb scheme (str "http")) && negb (gostring_eqb scheme (str "https"))) || gostring_eqb host []
        then inr (ErrText (str "invalid otlp endpoint " ++ quote raw ++ str ": want host:port or an http(s) URL"))
        else inl (mkEndpoint host path (o_Insecure config || gostring_eqb scheme (str "http")))
    end.

Definition endpoint_url (e : endpointSettings) (path : gostring) : gostring :=
  url_String (if e_insecure e then str "http" else str "https") (e_host e) path.

Definition exportTimeout (config : OTLPConfig) : Z :=
  if o_ExportTimeout config =? 0 then defaultExportTimeout else o_ExportTimeout config.

(** maps.Copy into an empty map *)
Definition headersOrEmpty (headers : gmap gostring gostring) : gmap gostring gostring := headers ∪ ∅.

(** The options of the two exporters of the SDK. *)
Inductive sdk_option :=
| WithEndpointURL (url : gostring)
| WithHeaders (headers : gmap gostring gostring)
| WithTimeout (d : Z)
| WithCompressor (name : gostring)              (* gRPC *)
| WithCompression (gzip : bool)                 (* HTTP *)
| WithTLS (cfg : option tlsConfig)              (* WithTLSCredentials, WithTLSClientConfig *)
| WithInsecure
| WithDialOption (opts : list nat)
| WithHTTPClient (client : nat)
| WithRetry (r : OTLPRetry).

Definition grpcCompressor (compression : gostring) : option gostring :=
  if gostring_eqb compression (str "gzip") then Some (str "gzip")
  else if is_set (str "OTEL_EXPORTER_OTLP_COMPRESSION") || is_set (str "OTEL_EXPORTER_OTLP_METRICS_COMPRESSION") then Some []
  else None.

(** The TLS configuration of a secure endpoint; nothing is read for an insecure one. *)
Definition tls_for (fs : files) (needed : bool) (config : OTLPConfig) : option tlsConfig + error :=
  if needed then match buildTLSConfig fs config with inr err => inr err | inl cfg => inl (Some cfg) end
  else inl None.

Definition grpc_options (config : OTLPConfig) (e : endpointSettings) (tls : option tlsConfig) : list sdk_option :=
  [WithEndpointURL (endpoint_url e []); WithHeaders (headersOrEmpty (o_Headers config)); WithTimeout (exportTimeout config)]
  ++ (match grpcCompressor (o_Compression config) with Some c => [WithCompressor c] | None => [] end)
  ++ (if e_insecure e then [WithTLS None; WithInsecure] else [WithTLS tls])
  ++ (match o_GRPCDialOptions config with Some (_ :: _ as opts) => [WithDialOption opts] | _ => [] end)
  ++ (match o_Retry config with Some r => [WithRetry r] | None => [] end).

Definition http_options (config : OTLPConfig) (e : endpointSettings) (tls : option tlsConfig) : list sdk_option :=
  let path := if gostring_eqb (e_path e) [] then defaultMetricsPath else e_path e in
  [WithEndpointURL (endpoint_url e path); WithHeaders (headersOrEmpty (o_Headers config)); WithTimeout (exportTimeout config);
   WithCompression (gostring_eqb (o_Compression config) (str "gzip"))]
  ++ (if e_insecure e then [WithTLS None] else [WithTLS tls])
  ++ (match o_HTTPClient config with Some c => [WithHTTPClient c] | None => [] end)
  ++ (match o_Retry config with Some r => [WithRetry r] | None => [] end).

(** The constructors of the SDK. *)
Context (exporter : Type) (grpc_New http_New : list sdk_option → exporter + error).

Definition newGRPCExporter (fs : files) (config : OTLPConfig) : exporter + error :=
  match parseEndpoint config with
  | inr err => inr err
  | inl e =>
      match tls_for fs (negb (e_insecure e)) config with
      | inr err => inr err
      | inl tls =>
          match grpc_New (grpc_options config e tls) with
          | inr err => inr (ErrWrap (str "create otlp grpc exporter") err)
          | inl exp => inl exp
          end
      end
  end.

Definition newHTTPExporter (fs : files) (config : OTLPConfig) : exporter + error :=
  match parseEndpoint config with
  | inr err => inr err
  | inl e =>
      match tls_for fs (negb (e_insecure e) && bool_decide (o_HTTPClient config = None)) config with
      | inr err => inr err
      | inl tls =>
          match http_New (http_options config e tls) with
          | inr err => inr (ErrWrap (str "create otlp http exporter") err)
          | inl exp => inl exp
          end
      end
  end.

Definition newTransport (fs : files) (config : OTLPConfig) : exporter + error :=
  if gostring_eqb (o_Protocol config) OTLPProtocolHTTP then newHTTPExporter fs config else newGRPCExporter fs config.

(** ** What the transport passes on *)

(** The parts of an option list that the SDK would otherwise take from the environment. *)
Definition is_endpoint (o : sdk_option) : bool := match o with WithEndpointURL _ => true | _ => false end.
Definition is_headers (o : sdk_option) : bool := match o with WithHeaders _ => true | _ => false end.
Definition is_timeout (o : sdk_option) : bool := match o with WithTimeout _ => true | _ => false end.
Definition is_tls (o : sdk_option) : bool := match o with WithTLS _ => true | _ => false end.

(** Verification is as the caller set it, the caller's certificates are kept, and the lowest
    version is the caller's or TLS 1.2. *)
Theorem tls_never_relaxed fs config cfg :
  buildTLSConfig fs config = inl cfg →
  InsecureSkipVerify cfg = InsecureSkipVerify (base_tls config) ∧
  MinVersion cfg = (if MinVersion (base_tls config) =? 0 then VersionTLS12 else MinVersion (base_tls config)) ∧
  Certificates (base_tls config) `prefix_of` Certificates cfg ∧
  (o_TLSConfig config = None → InsecureSkipVerify cfg = false).
Proof.
  unfold buildTLSConfig, tls_roots, tls_pair. intros Hb.
  assert (Hx : InsecureSkipVerify cfg = InsecureSkipVerify (base_tls config) ∧
    MinVersion cfg = (if MinVersion (base_tls config) =? 0 then VersionTLS12 else MinVersion (base_tls config)) ∧
    Certificates (base_tls config) `prefix_of` Certificates cfg).
  { destruct (MinVersion (base_tls config) =? 0) eqn:E; repeat case_match; simplify_eq; simpl; split_and!; try done;
      by apply prefix_app_r. }
  destruct Hx as (H1 & H2 & H3). split_and!; try done. intros Hn. rewrite H1. unfold base_tls. by rewrite Hn.
Qed.

(** An insecure endpoint ignores the TLS settings: no file decides what is built. *)
Theorem insecure_reads_no_files fs fs' config e :
  parseEndpoint config = inl e → e_insecure e = true → newTransport fs config = newTransport fs' config.
Proof. intros He Hi. unfold newTransport, newHTTPExporter, newGRPCExporter. rewrite He, Hi. done. Qed.

(** Endpoint, headers, timeout and TLS are passed once each, as resolved here, so that none
    of them is taken from the environment; an insecure endpoint clears TLS. *)
Theorem transport_explicit config e tls :
  let grpc := grpc_options config e tls in
  let http := http_options config e tls in
  let path := if gostring_eqb (e_path e) [] then defaultMetricsPath else e_path e in
  List.filter is_endpoint grpc = [WithEndpointURL (endpoint_url e [])] ∧
  List.filter is_endpoint http = [WithEndpointURL (endpoint_url e path)] ∧
  ∀ opts, opts ∈ [grpc; http] →
    List.filter is_headers opts = [WithHeaders (o_Headers config)] ∧
    List.filter is_timeout opts = [WithTimeout (exportTimeout config)] ∧
    List.filter is_tls opts = [WithTLS (if e_insecure e then None else tls)].
Proof.
  intros grpc http path.
  assert (Hh : headersOrEmpty (o_Headers config) = o_Headers config) by apply map_union_empty.
  split_and!; [| |intros opts Ho; set_unfold in Ho; destruct Ho as [->|[->|[]]]]; unfold grpc, http, grpc_options, http_options;
    rewrite ?Hh; repeat case_match; by split_and?.
Qed.

End transport.

(** ** An example

    Variables, a list and detectors that disagree about the service. *)
#[local] Existing Instance toy_attributes.
Definition demo_lookup (name : gostring) : option gostring :=
  if gostring_eqb name (str "OTEL_RESOURCE_ATTRIBUTES") then Some (str " service.name=listed , team=a%20b,host.name=h1,=x")
  else if gostring_eqb name (str "OTEL_SERVICE_NAME") then Some (str "variable")
  else None.
Definition demo_detected : list (gostring * value) := [String_kv (str "host.name") (str "h0"); String_kv (str "process.pid") (str "7")].
Example demo_resource :
  resourceForConfig demo_lookup demo_detected None (str "id") (mkOTLP true [] true ∅ [] [] (str "2") [] [] [] [] [] 0 None ∅ None None None [] [] [] false None None)
  = ([], (λ kv, String_kv (str kv.1) (str kv.2)) <$>
      [("deployment.environment", "unknown"); ("host.name", "h1"); ("process.pid", "7"); ("service.instance.id", "id");
       ("service.name", "variable"); ("service.version", "2"); ("team", "a b")]%string).
Proof. vm_compute. reflexivity. Qed.
