(* ===== verification/Netlink.v ===== *)
(** * Taskstats over generic netlink (runtimemetrics/taskstats_parse.go,
      taskstats_genl.go, taskstats_linux.go, delay.go)

    The requests are built by writing into a zeroed buffer; replies are scanned as
    messages and attributes with lengths of their own.  Slicing is checked: an index out
    of range is the outcome [Panicked].  The byte order is that of the machine, an
    argument of everything here.

    [encode_msg] and [encode_attr] say how the kernel lays messages out.  The theorems:
    no reply makes the parser panic ([reply_parser_total]), a reply is found among
    messages to others and its values are those the kernel wrote
    ([taskstats_reply_found]), and the requests are well-formed messages
    ([requests_encode]). *)

From S2P Require Import Prelude GoLib Strconv.

Definition u16 (z : Z) : Z := z mod 2 ^ 16.
Definition u32 (z : Z) : Z := z mod 2 ^ 32.

(** The result of a scan: a value, none, an error; a panic, or no fuel. *)
Inductive outcome (T : Type) := Found (v : T) | NotFound | Failed (e : error) | Panicked | Diverged.
Arguments Found {T} _. Arguments NotFound {T}. Arguments Failed {T} _. Arguments Panicked {T}. Arguments Diverged {T}.

Notation "'let?' x := e ; k" := (match e with Some x => k | None => Panicked end)
  (at level 10, x name, e at level 100, k at level 200).

(** [b[lo:hi]] *)
Definition slice (b : gostring) (lo hi : Z) : option gostring :=
  if (0 <=? lo) && (lo <=? hi) && (hi <=? len b) then Some (take (Z.to_nat (hi - lo)) (drop (Z.to_nat lo) b)) else None.

Definition nlmsgHdrLen : Z := 16.
Definition nlmsgError : Z := 2.
Definition nlaHdrLen : Z := 4.
Definition nlAlign : Z := 4.
Definition nlaTypeMask : Z := 16383.
Definition genlHdrLen : Z := 4.
Definition taskstatsTypeStats : Z := 3.
Definition taskstatsTypeAggrTGID : Z := 5.
Definition offVersion : Z := 0.
Definition offCPUDelay : Z := 24.
Definition offBlkioDelay : Z := 40.
Definition offSwapinDelay : Z := 56.
Definition offFreepagesDelay : Z := 320.
Definition minVersionFreepages : Z := 7.

Definition align4 (n : Z) : Z := Z.ldiff (n + nlAlign - 1) (nlAlign - 1).

Record DelayInfo := mkDelayInfo { d_CPU : Z; d_BlockIO : Z; d_SwapIn : Z; d_FreePages : Z }.

Definition errTaskstatsUnsupported : error := ErrWrap (str "taskstats") (ErrIs ErrUnsupported).
Definition short (what : string) : error := ErrWrapAfter (ErrIs ErrTaskstatsShort) (str what).

(** errors.Is(err, syscall.Errno(n)) *)
Fixpoint is_errno (n : Z) (e : error) : bool :=
  match e with
  | ErrExt m => m =? n
  | ErrWrap _ e' | ErrWrapAfter e' _ => is_errno n e'
  | ErrJoin es => existsb (is_errno n) es
  | _ => false
  end.

Definition ENOENT : Z := 2.

(** IsUnsupported: the package's own value wraps errors.ErrUnsupported. *)
Definition IsUnsupported (err : error) : bool := errors_is ErrUnsupported err.

Definition nsToDuration (ns : Z) : Z := if 2 ^ 63 - 1 <? ns then 2 ^ 63 - 1 else ns.

Section endian.
Context (big : bool).

(** The value of bytes in the order of the machine. *)
Fixpoint le_value (b : gostring) : Z :=
  match b with
  | [] => 0
  | c :: b' => code c + 256 * le_value b'
  end.
Definition value_of (b : gostring) : Z := le_value (if big then rev b else b).

Fixpoint le_bytes (n : nat) (z : Z) : gostring :=
  match n with
  | O => []
  | S n' => byte_of (z mod 256) :: le_bytes n' (z / 256)
  end.
Definition bytes_of (n : nat) (z : Z) : gostring := if big then rev (le_bytes n z) else le_bytes n z.

(** binary.NativeEndian.Uint16, Uint32 and Uint64: the first bytes of [b]. *)
Definition Uint (n : nat) (b : gostring) : option Z := if len b <? Z.of_nat n then None else Some (value_of (take n b)).
Definition Uint16 (b : gostring) : option Z := Uint 2 b.
Definition Uint32 (b : gostring) : option Z := Uint 4 b.
Definition Uint64 (b : gostring) : option Z := Uint 8 b.

(** ** Scanning replies (taskstats_parse.go) *)

(** Every turn drops a header: the length of the buffer is enough fuel. *)
Section findReply.
Context {T : Type} (parse : gostring → outcome T) (seq : Z).

Fixpoint findReply_loop (fuel : nat) (buf : gostring) : outcome T :=
  if negb (0 <? len buf) then NotFound
  else
    match fuel with
    | O => Diverged
    | S fuel =>
        if len buf <? nlmsgHdrLen then Failed (short "netlink header")
        else
          let? b0 := slice buf 0 4; let? msgLen := Uint32 b0;
          let? b4 := slice buf 4 6; let? msgType := Uint16 b4;
          let? b8 := slice buf 8 12; let? msgSeq := Uint32 b8;
          if (msgLen <? nlmsgHdrLen) || (len buf <? msgLen) then Failed (short "netlink length")
          else
            let? payload := slice buf nlmsgHdrLen msgLen;
            let next := Z.min (align4 msgLen) (len buf) in
            let? buf := slice buf next (len buf);
            if negb (msgSeq =? seq) then findReply_loop fuel buf
            else if msgType =? nlmsgError then
              if len payload <? 4 then Failed (short "netlink error payload")
              else
                let? p0 := slice payload 0 4; let? code := Uint32 p0;
                if code =? 0 then findReply_loop fuel buf
                else
                  let code := if negb (Z.land code (Z.shiftl 1 31) =? 0) then u32 (- code) else code in
                  Failed (ErrWrap (str "taskstats: netlink error") (ErrExt code))
            else
              match parse payload with
              | NotFound => findReply_loop fuel buf
              | r => r
              end
    end.

Definition findReply (buf : gostring) : outcome T := findReply_loop (length buf) buf.
End findReply.

Fixpoint findAttr_loop (fuel : nat) (buf : gostring) (want : Z) : outcome gostring :=
  if negb (0 <? len buf) then NotFound
  else
    match fuel with
    | O => Diverged
    | S fuel =>
        if len buf <? nlaHdrLen then Failed (short "attribute header")
        else
          let? b0 := slice buf 0 2; let? attrLen := Uint16 b0;
          let? b2 := slice buf 2 4; let? rawType := Uint16 b2;
          let attrType := Z.land rawType nlaTypeMask in
          if (attrLen <? nlaHdrLen) || (len buf <? attrLen) then Failed (short "attribute length")
          else if attrType =? want then let? v := slice buf nlaHdrLen attrLen; Found v
          else
            let? buf := slice buf (Z.min (align4 attrLen) (len buf)) (len buf);
            findAttr_loop fuel buf want
    end.

Definition findAttr (buf : gostring) (want : Z) : outcome gostring := findAttr_loop (length buf) buf want.

(** The eight bytes at an offset. *)
Definition field64 (p : gostring) (off : Z) : option Z := b ← slice p off (len p); Uint64 b.

Definition decodeTaskstats (p : gostring) : outcome DelayInfo :=
  if len p <? offSwapinDelay + 8 then Failed (short "taskstats payload")
  else
    let? b := slice p offVersion (offVersion + 2); let? version := Uint16 b;
    let? cpu := field64 p offCPUDelay;
    let? blkio := field64 p offBlkioDelay;
    let? swapin := field64 p offSwapinDelay;
    let info := mkDelayInfo (nsToDuration cpu) (nsToDuration blkio) (nsToDuration swapin) 0 in
    if minVersionFreepages <=? version then
      if len p <? offFreepagesDelay + 8 then Failed (short "taskstats payload of its version")
      else let? free := field64 p offFreepagesDelay;
           Found (mkDelayInfo (d_CPU info) (d_BlockIO info) (d_SwapIn info) (nsToDuration free))
    else Found info.

(** The steps of a message parser: a value, or what ends it. *)
Definition bind {A B} (r : outcome A) (k : A → outcome B) : outcome B :=
  match r with
  | Found v => k v
  | NotFound => NotFound
  | Failed e => Failed e
  | Panicked => Panicked
  | Diverged => Diverged
  end.

Definition parseTaskstatsMessage (payload : gostring) : outcome DelayInfo :=
  if len payload <? genlHdrLen then Failed (short "genetlink header")
  else
    let? body := slice payload genlHdrLen (len payload);
    bind (findAttr body taskstatsTypeAggrTGID) (λ aggr, bind (findAttr aggr taskstatsTypeStats) decodeTaskstats).

Definition ParseTaskstatsReply (buf : gostring) (seq : Z) : outcome DelayInfo := findReply parseTaskstatsMessage seq buf.

(** ** Requests and the family (taskstats_genl.go) *)
Definition nlmFRequest : Z := 1.
Definition genlIDCtrl : Z := 16.
Definition ctrlVersion : Z := 1.
Definition ctrlCmdGetFamily : Z := 3.
Definition ctrlAttrFamilyID : Z := 1.
Definition ctrlAttrFamilyName : Z := 2.
Definition taskstatsFamilyName : gostring := str "TASKSTATS".
Definition taskstatsGenlVersion : Z := 1.
Definition taskstatsCmdGet : Z := 1.
Definition taskstatsCmdAttrTGID : Z := 2.
Definition reqAttrOff : Z := nlmsgHdrLen + genlHdrLen.

(** Bytes written into a buffer at an offset; the buffer is long enough in every use. *)
Definition put (msg : gostring) (off : Z) (b : gostring) : gostring :=
  take (Z.to_nat off) msg ++ b ++ drop (Z.to_nat off + length b) msg.

(** genlRequest: the message, and the place of the value in it. *)
Definition genlRequest (msgType seq cmd version attrType valueLen : Z) : gostring * (Z * Z) :=
  let attrLen := u16 (nlaHdrLen + valueLen) in
  let msgLen := u32 (reqAttrOff + Z.ldiff (u16 (attrLen + nlAlign - 1)) (nlAlign - 1)) in
  let msg := replicate (Z.to_nat msgLen) (byte_of 0) in
  let msg := put msg 0 (bytes_of 4 msgLen) in
  let msg := put msg 4 (bytes_of 2 msgType) in
  let msg := put msg 6 (bytes_of 2 nlmFRequest) in
  let msg := put msg 8 (bytes_of 4 seq) in
  let msg := put msg nlmsgHdrLen [byte_of cmd] in
  let msg := put msg (nlmsgHdrLen + 1) [byte_of version] in
  let msg := put msg reqAttrOff (bytes_of 2 attrLen) in
  let msg := put msg (reqAttrOff + 2) (bytes_of 2 attrType) in
  (msg, (reqAttrOff + nlaHdrLen, reqAttrOff + attrLen)).

(** copy(value, name) writes as much as fits. *)
Definition familyRequest (seq : Z) : gostring :=
  let nameLen := len taskstatsFamilyName + 1 in
  let '(msg, (lo, hi)) := genlRequest genlIDCtrl seq ctrlCmdGetFamily ctrlVersion ctrlAttrFamilyName nameLen in
  put msg lo (take (Z.to_nat (hi - lo)) taskstatsFamilyName).

Definition taskstatsRequest (family seq tgid : Z) : gostring :=
  let '(msg, (lo, _)) := genlRequest family seq taskstatsCmdGet taskstatsGenlVersion taskstatsCmdAttrTGID 4 in
  put msg lo (bytes_of 4 tgid).

Definition parseFamilyMessage (payload : gostring) : outcome Z :=
  if len payload <? genlHdrLen then Failed (short "genetlink header")
  else
    let? body := slice payload genlHdrLen (len payload);
    bind (findAttr body ctrlAttrFamilyID) (λ value,
      if len value <? 2 then Failed (short "family id") else let? id := Uint16 value; Found id).

Definition parseFamilyReply (buf : gostring) (seq : Z) : outcome Z :=
  match findReply parseFamilyMessage seq buf with
  | Failed err =>
      if is_errno ENOENT err
      then Failed (ErrJoin [ErrWrapAfter errTaskstatsUnsupported (str "no TASKSTATS generic netlink family"); ErrExt ENOENT])
      else Failed err
  | r => r
  end.

(** ** Exchanges with the kernel (taskstats_linux.go) *)
Definition EINTR : Z := 4.
Definition EAGAIN : Z := 11.
Definition EAFNOSUPPORT : Z := 97.
Definition EPROTONOSUPPORT : Z := 93.

(** One turn of the receive loop before the deadline: bytes, or the error of Recvfrom. *)
Definition received : Type := gostring + error.

(** The turns end with the deadline. *)
Fixpoint exchange_loop {T} (parse : gostring → outcome T) (turns : list received) : outcome T :=
  match turns with
  | [] => Failed (ErrText (str "taskstats: no reply within"))
  | inr err :: rest =>
      if is_errno EINTR err then exchange_loop parse rest
      else if is_errno EAGAIN err then Failed (ErrWrap (str "taskstats: no reply within") err)
      else Failed (ErrWrap (str "taskstats: receive") err)
  | inl buf :: rest =>
      match parse buf with
      | NotFound => exchange_loop parse rest
      | r => r
      end
  end.

(** What the system calls of one request return: Sendto, then the turns. *)
Record answers := mkAnswers { a_send : option error; a_turns : list received }.

Definition exchange {T} (parse : gostring → outcome T) (a : answers) : outcome T :=
  match a_send a with
  | Some err => Failed (ErrWrap (str "taskstats: send") err)
  | None => exchange_loop parse (a_turns a)
  end.

(** The system calls before the requests, and the counter of requests as it is found. *)
Record socket := mkSocket { k_socket : option error; k_timeout : option error; k_bind : option error; k_seq : Z }.

(** Get, with the two messages it sends. *)
Definition Get (k : socket) (first second : answers) (pid : Z) : list gostring * outcome DelayInfo :=
  if (pid <=? 0) || (2 ^ 31 - 1 <? pid) then ([], Failed (ErrText (str "taskstats: invalid pid")))
  else
    match k_socket k with
    | Some err =>
        if is_errno EAFNOSUPPORT err || is_errno EPROTONOSUPPORT err
        then ([], Failed (ErrJoin [ErrWrapAfter errTaskstatsUnsupported (str "netlink socket"); err]))
        else ([], Failed (ErrWrap (str "taskstats: netlink socket") err))
    | None =>
        match k_timeout k with
        | Some err => ([], Failed (ErrWrap (str "taskstats: set receive timeout") err))
        | None =>
            match k_bind k with
            | Some err => ([], Failed (ErrWrap (str "taskstats: bind") err))
            | None =>
                let seq := u32 (k_seq k + 1) in
                let request := familyRequest seq in
                match exchange (λ buf, parseFamilyReply buf seq) first with
                | Found family =>
                    let seq := u32 (seq + 1) in
                    ([request; taskstatsRequest family seq (u32 pid)], exchange (λ buf, ParseTaskstatsReply buf seq) second)
                | NotFound => ([request], NotFound)
                | Failed err => ([request], Failed err)
                | Panicked => ([request], Panicked)
                | Diverged => ([request], Diverged)
                end
            end
        end
    end.

End endian.

(** ** Bytes of an integer *)
Lemma le_bytes_length n z : length (le_bytes n z) = n.
Proof. revert z. induction n as [|n IH]; intros z; simpl; [done|]. by rewrite IH. Qed.

Lemma le_value_bytes n z : le_value (le_bytes n z) = z mod 256 ^ Z.of_nat n.
Proof.
  revert z. induction n as [|n IH]; intros z; [by rewrite Z.mod_1_r|]. cbn [le_bytes le_value].
  rewrite IH, code_byte_of by (apply Z.mod_pos_bound; lia).
  rewrite Nat2Z.inj_succ, Z.pow_succ_r by lia. rewrite Z.rem_mul_r by lia. lia.
Qed.

Lemma le_value_range b : 0 ≤ le_value b < 256 ^ len b.
Proof.
  induction b as [|c b IH]; [done|]. cbn [le_value]. pose proof (code_range c).
  replace (len (c :: b)) with (Z.succ (len b)) by (unfold len; simpl; lia).
  rewrite Z.pow_succ_r by (apply len_nonneg). lia.
Qed.

Section native.
Context (big : bool).

Lemma bytes_of_length n z : length (bytes_of big n z) = n.
Proof. unfold bytes_of. destruct big; rewrite ?length_rev; apply le_bytes_length. Qed.

Lemma value_bytes n z : value_of big (bytes_of big n z) = z mod 256 ^ Z.of_nat n.
Proof. unfold value_of, bytes_of. destruct big; rewrite ?rev_involutive; apply le_value_bytes. Qed.

Lemma value_of_range b : 0 ≤ value_of big b < 256 ^ len b.
Proof.
  unfold value_of. pose proof (le_value_range (if big then rev b else b)) as H.
  replace (len b) with (len (if big then rev b else b)); [done|]. destruct big; unfold len; by rewrite ?length_rev.
Qed.

Lemma Uint_app n z r : Uint big n (bytes_of big n z ++ r) = Some (z mod 256 ^ Z.of_nat n).
Proof.
  unfold Uint. rewrite len_app. pose proof (len_nonneg r). unfold len at 1. rewrite bytes_of_length.
  destruct (Z.ltb_spec (Z.of_nat n + len r) (Z.of_nat n)); [lia|]. rewrite take_app_length' by (by rewrite bytes_of_length). by rewrite value_bytes.
Qed.

Lemma Uint_some n b : Z.of_nat n ≤ len b → ∃ v, Uint big n b = Some v ∧ 0 ≤ v < 256 ^ Z.of_nat n.
Proof.
  intros Hl. unfold Uint. destruct (Z.ltb_spec (len b) (Z.of_nat n)); [lia|]. eexists. split; [done|].
  pose proof (value_of_range (take n b)) as Hr. unfold len in Hr, Hl. rewrite length_take_le in Hr by lia. exact Hr.
Qed.

(** ** Slices *)
Lemma slice_some b lo hi : 0 ≤ lo ≤ hi → hi ≤ len b → ∃ s, slice b lo hi = Some s ∧ len s = hi - lo.
Proof.
  intros Hlo Hhi. unfold slice. destruct (Z.leb_spec 0 lo), (Z.leb_spec lo hi), (Z.leb_spec hi (len b)); try lia. cbn [andb].
  eexists. split; [done|]. unfold len in *. rewrite length_take_le; [lia|]. rewrite length_drop. lia.
Qed.

Lemma slice_mid a b c lo hi : lo = len a → hi = len a + len b → slice (a ++ b ++ c) lo hi = Some b.
Proof.
  intros -> ->. pose proof (len_nonneg a). pose proof (len_nonneg b). pose proof (len_nonneg c). unfold slice. rewrite !len_app.
  destruct (Z.leb_spec 0 (len a)), (Z.leb_spec (len a) (len a + len b)), (Z.leb_spec (len a + len b) (len a + (len b + len c))); try lia.
  cbn [andb]. f_equal. replace (Z.to_nat (len a)) with (length a) by (unfold len; lia). rewrite drop_app_length.
  replace (Z.to_nat (len a + len b - len a)) with (length b) by (unfold len; lia). apply take_app_length.
Qed.

Lemma align4_spec n : align4 n = 4 * ((n + 3) / 4).
Proof.
  unfold align4, nlAlign. replace (n + 4 - 1) with (n + 3) by lia. change (4 - 1) with (Z.ones 2). rewrite Z.ldiff_ones_r by lia.
  rewrite Z.shiftr_div_pow2, Z.shiftl_mul_pow2 by lia. change (2 ^ 2) with 4. lia.
Qed.

Lemma align4_le n : n ≤ align4 n < n + 4.
Proof. rewrite align4_spec. pose proof (Z.div_mod (n + 3) 4). pose proof (Z.mod_pos_bound (n + 3) 4). lia. Qed.

(** ** No input makes a scan panic *)

(** A result of a scan of bytes from outside. *)
Definition sound {T} (r : outcome T) : Prop :=
  match r with
  | Found _ | NotFound => True
  | Failed e => errors_is ErrTaskstatsShort e = true ∨ ∃ n, 0 < n ≤ 2 ^ 31 ∧ e = ErrWrap (str "taskstats: netlink error") (ErrExt n)
  | Panicked | Diverged => False
  end.

Lemma short_sound {T} what : sound (@Failed T (short what)).
Proof. by left. Qed.

(** A slice in range, and the integer at its start. *)
Ltac cutout b lo hi s :=
  let Hs := fresh "Hs" in let Hl := fresh "Hl" in
  destruct (slice_some b lo hi) as (s & Hs & Hl); [unfold nlmsgHdrLen, nlaHdrLen, genlHdrLen in *; lia..|];
  rewrite Hs; cbn beta iota.
Ltac read b lo hi s v :=
  cutout b lo hi s;
  let Hv := fresh "Hv" in
  first [destruct (Uint_some 4 s) as (v & Hv & ?); [lia|]; unfold Uint32; rewrite Hv; cbn beta iota
        |destruct (Uint_some 2 s) as (v & Hv & ?); [lia|]; unfold Uint16; rewrite Hv; cbn beta iota].

Lemma findAttr_sound fuel buf want : (length buf ≤ fuel)%nat → sound (findAttr_loop big fuel buf want).
Proof.
  revert buf. induction fuel as [|fuel IH]; intros buf Hf; cbn [findAttr_loop].
  - destruct buf; [done|simpl in Hf; lia].
  - destruct (Z.ltb_spec 0 (len buf)) as [Hpos|]; cbn [negb]; [|done].
    destruct (Z.ltb_spec (len buf) nlaHdrLen) as [|Hh]; [apply short_sound|].
    read buf 0 2 b0 attrLen. read buf 2 4 b2 rawType. cbv zeta.
    destruct (Z.ltb_spec attrLen nlaHdrLen), (Z.ltb_spec (len buf) attrLen); cbn [orb]; try apply short_sound.
    destruct (_ =? want); [cutout buf nlaHdrLen attrLen v; done|]. pose proof (align4_le attrLen).
    cutout buf (Z.min (align4 attrLen) (len buf)) (len buf) rest. apply IH. unfold len, nlaHdrLen in *. lia.
Qed.

(** The sign bit of a 32-bit integer. *)
Lemma bit31 c : 0 ≤ c < 2 ^ 32 → (Z.land c (Z.shiftl 1 31) =? 0) = (c <? 2 ^ 31).
Proof.
  intros Hc. change (Z.shiftl 1 31) with (2 ^ 31).
  assert (Hl : Z.land c (2 ^ 31) = if Z.testbit c 31 then 2 ^ 31 else 0).
  { apply Z.bits_inj'. intros i Hi. rewrite Z.land_spec. destruct (Z.eq_dec i 31) as [->|Hne].
    - rewrite Z.pow2_bits_true by lia. by destruct (Z.testbit c 31).
    - rewrite Z.pow2_bits_false by lia. rewrite andb_false_r. destruct (Z.testbit c 31); [by rewrite Z.pow2_bits_false by lia|by rewrite Z.bits_0]. }
  rewrite Hl. rewrite Z.testbit_odd, Z.shiftr_div_pow2 by lia. destruct (Z.ltb_spec c (2 ^ 31)).
  - by rewrite Z.div_small by lia.
  - assert (c / 2 ^ 31 = 1) as ->; [|done]. symmetry. apply (Z.div_unique _ _ _ (c - 2 ^ 31)); lia.
Qed.

Lemma findReply_sound {T} (parse : gostring → outcome T) seq fuel buf :
  (∀ p, sound (parse p)) → (length buf ≤ fuel)%nat → sound (findReply_loop big parse seq fuel buf).
Proof.
  intros Hp. revert buf. induction fuel as [|fuel IH]; intros buf Hf; cbn [findReply_loop].
  - destruct buf; [done|simpl in Hf; lia].
  - destruct (Z.ltb_spec 0 (len buf)) as [Hpos|]; cbn [negb]; [|done].
    destruct (Z.ltb_spec (len buf) nlmsgHdrLen) as [|Hh]; [apply short_sound|].
    read buf 0 4 b0 msgLen. read buf 4 6 b4 msgType. read buf 8 12 b8 msgSeq.
    destruct (Z.ltb_spec msgLen nlmsgHdrLen), (Z.ltb_spec (len buf) msgLen); cbn [orb]; try apply short_sound.
    cutout buf nlmsgHdrLen msgLen payload. cbv zeta. pose proof (align4_le msgLen).
    cutout buf (Z.min (align4 msgLen) (len buf)) (len buf) rest.
    assert (Hrec : sound (findReply_loop big parse seq fuel rest)) by (apply IH; unfold len, nlmsgHdrLen in *; lia).
    destruct (msgSeq =? seq); cbn [negb]; [|done]. destruct (msgType =? nlmsgError).
    + destruct (Z.ltb_spec (len payload) 4); [apply short_sound|]. read payload 0 4 p0 c.
      destruct (Z.eqb_spec c 0) as [|Hc]; [done|]. right. eexists. split; [|done].
      rewrite bit31 by lia. unfold u32. destruct (Z.ltb_spec c (2 ^ 31)); cbn [negb]; [lia|].
      rewrite <-(Z.mod_unique_pos (- c) (2 ^ 32) (-1) (2 ^ 32 - c)) by lia. lia.
    + pose proof (Hp payload) as Hpp. by destruct (parse payload).
Qed.

Lemma bind_sound {A B} (r : outcome A) (k : A → outcome B) : sound r → (∀ v, sound (k v)) → sound (bind r k).
Proof. intros Hr Hk. by destruct r; [apply Hk|..]. Qed.

Lemma field64_some p off : 0 ≤ off → off + 8 ≤ len p → ∃ v, field64 big p off = Some v.
Proof.
  intros H0 Hl. unfold field64. destruct (slice_some p off (len p)) as (s & -> & Hs); [lia..|]. cbn.
  destruct (Uint_some 8 s) as (v & Hv & _); [lia|]. by exists v.
Qed.

Lemma decodeTaskstats_sound p : sound (decodeTaskstats big p).
Proof.
  unfold decodeTaskstats. destruct (Z.ltb_spec (len p) (offSwapinDelay + 8)) as [|Hl]; [apply short_sound|].
  unfold offSwapinDelay in Hl. unfold offVersion. read p 0 (0 + 2) b version.
  destruct (field64_some p offCPUDelay) as [c ->]; [unfold offCPUDelay; lia..|].
  destruct (field64_some p offBlkioDelay) as [i ->]; [unfold offBlkioDelay; lia..|].
  destruct (field64_some p offSwapinDelay) as [w ->]; [unfold offSwapinDelay; lia..|]. cbv zeta.
  destruct (minVersionFreepages <=? version); [|done].
  destruct (Z.ltb_spec (len p) (offFreepagesDelay + 8)) as [|Hf]; [apply short_sound|].
  destruct (field64_some p offFreepagesDelay) as [f ->]; [unfold offFreepagesDelay in *; lia..|]. done.
Qed.

(** A message parser that skips the generic header. *)
Ltac skip_header payload body :=
  destruct (Z.ltb_spec (len payload) genlHdrLen); [apply short_sound|]; cutout payload genlHdrLen (len payload) body.

Lemma parseTaskstatsMessage_sound payload : sound (parseTaskstatsMessage big payload).
Proof.
  unfold parseTaskstatsMessage. skip_header payload body. apply bind_sound; [by apply findAttr_sound|]. intros aggr.
  apply bind_sound; [by apply findAttr_sound|]. apply decodeTaskstats_sound.
Qed.

Lemma parseFamilyMessage_sound payload : sound (parseFamilyMessage big payload).
Proof.
  unfold parseFamilyMessage. skip_header payload body. apply bind_sound; [by apply findAttr_sound|]. intros v.
  destruct (Z.ltb_spec (len v) 2); [apply short_sound|]. destruct (Uint_some 2 v) as (n & Hn & _); [lia|]. unfold Uint16. by rewrite Hn.
Qed.

(** C29. No bytes make the parsers of replies panic or loop: for every buffer the
    taskstats parser returns what it found, or nothing, or an error that is either a
    report of malformed data or the errno of the kernel's reply as a positive number; the
    parser of the family returns the same or, for ENOENT, an error that IsUnsupported
    recognizes. *)
Theorem reply_parser_total buf seq :
  sound (ParseTaskstatsReply big buf seq)
  ∧ match parseFamilyReply big buf seq with
    | Failed e => is_errno ENOENT e = true ∧ IsUnsupported e = true ∨ is_errno ENOENT e = false ∧ sound (@Failed Z e)
    | r => sound r
    end.
Proof.
  split; [apply findReply_sound; [apply parseTaskstatsMessage_sound|done]|].
  unfold parseFamilyReply. pose proof (findReply_sound (parseFamilyMessage big) seq (length buf) buf parseFamilyMessage_sound) as Hs.
  specialize (Hs (Nat.le_refl _)). fold (findReply big (parseFamilyMessage big) seq buf) in Hs.
  destruct (findReply big (parseFamilyMessage big) seq buf) as [v| |e| |]; try done.
  destruct (is_errno ENOENT e) eqn:Ee; [by left|right]. done.
Qed.

(** ** Messages as the kernel writes them *)
Definition pad (b : gostring) : gostring := b ++ replicate (Z.to_nat (align4 (len b) - len b)) (byte_of 0).

Record message := mkMessage { m_type : Z; m_flags : Z; m_seq : Z; m_pid : Z; m_payload : gostring }.

Definition encode_msg (m : message) : gostring :=
  pad (bytes_of big 4 (nlmsgHdrLen + len (m_payload m)) ++ bytes_of big 2 (m_type m) ++ bytes_of big 2 (m_flags m)
       ++ bytes_of big 4 (m_seq m) ++ bytes_of big 4 (m_pid m) ++ m_payload m).

(** An attribute: its type, with the flags of the two high bits, and its value. *)
Definition encode_attr (a : Z * gostring) : gostring :=
  pad (bytes_of big 2 (nlaHdrLen + len a.2) ++ bytes_of big 2 a.1 ++ a.2).
Definition encode_attrs (l : list (Z * gostring)) : gostring := concat (map encode_attr l).

Definition msg_ok (m : message) : Prop := 0 ≤ m_type m < 2 ^ 16 ∧ 0 ≤ m_seq m < 2 ^ 32 ∧ nlmsgHdrLen + len (m_payload m) < 2 ^ 32.
Definition attr_ok (a : Z * gostring) : Prop := 0 ≤ a.1 < 2 ^ 16 ∧ nlaHdrLen + len a.2 < 2 ^ 16.
Definition attr_type (a : Z * gostring) : Z := Z.land a.1 nlaTypeMask.

Lemma len_bytes_of n z : len (bytes_of big n z) = Z.of_nat n.
Proof. unfold len. by rewrite bytes_of_length. Qed.

Lemma pad_len b : len (pad b) = align4 (len b).
Proof. unfold pad. rewrite len_app. unfold len at 2. rewrite length_replicate. pose proof (align4_le (len b)). lia. Qed.

(** What comes after a padded block. *)
Lemma slice_rest b r : slice (pad b ++ r) (Z.min (align4 (len b)) (len (pad b ++ r))) (len (pad b ++ r)) = Some r.
Proof.
  rewrite <-(app_nil_r r) at 1. pose proof (len_nonneg r). rewrite len_app, pad_len. apply slice_mid; rewrite ?pad_len; lia.
Qed.

Lemma pow256 : 256 ^ Z.of_nat 2 = 2 ^ 16 ∧ 256 ^ Z.of_nat 4 = 2 ^ 32 ∧ 256 ^ Z.of_nat 8 = 2 ^ 64.
Proof. done. Qed.

(** An integer field of known bytes around it. *)
Lemma slice_field n z a c lo hi :
  lo = len a → hi = len a + Z.of_nat n → slice (a ++ bytes_of big n z ++ c) lo hi = Some (bytes_of big n z).
Proof. intros -> ->. apply slice_mid; [done|]. by rewrite len_bytes_of. Qed.

Lemma Uint_exact n z : Uint big n (bytes_of big n z) = Some (z mod 256 ^ Z.of_nat n).
Proof. rewrite <-(app_nil_r (bytes_of big n z)). apply Uint_app. Qed.

Lemma findAttr_step fuel a rest want :
  attr_ok a →
  findAttr_loop big (S fuel) (encode_attr a ++ rest) want
  = if attr_type a =? want then Found a.2 else findAttr_loop big fuel rest want.
Proof.
  intros [Ht Hl]. destruct a as [t v]. cbn [fst snd] in *. pose proof (len_nonneg v) as Hv. pose proof (len_nonneg rest) as Hr.
  set (body := bytes_of big 2 (nlaHdrLen + len v) ++ bytes_of big 2 t ++ v).
  assert (Hb : len body = 4 + len v) by (unfold body; rewrite !len_app, !len_bytes_of; lia).
  pose proof (align4_le (len body)) as Ha.
  assert (Hlen : len (encode_attr (t, v) ++ rest) = align4 (len body) + len rest) by (rewrite len_app; unfold encode_attr; by rewrite pad_len).
  cbn [findAttr_loop]. rewrite Hlen. unfold nlaHdrLen in *.
  destruct (Z.ltb_spec 0 (align4 (len body) + len rest)); [|lia]. cbn [negb].
  destruct (Z.ltb_spec (align4 (len body) + len rest) 4); [lia|].
  assert (Hshape : ∃ tail, encode_attr (t, v) ++ rest = bytes_of big 2 (4 + len v) ++ bytes_of big 2 t ++ v ++ tail).
  { unfold encode_attr, pad. cbn [fst snd]. eexists. rewrite <-!app_assoc. reflexivity. }
  destruct Hshape as [tail Hshape].
  assert (E0 : slice (encode_attr (t, v) ++ rest) 0 2 = Some (bytes_of big 2 (4 + len v))).
  { rewrite Hshape. by apply (slice_field 2 _ []). }
  assert (E2 : slice (encode_attr (t, v) ++ rest) 2 4 = Some (bytes_of big 2 t)).
  { rewrite Hshape. apply slice_field; by rewrite len_bytes_of. }
  assert (Ev : slice (encode_attr (t, v) ++ rest) 4 (4 + len v) = Some v).
  { rewrite Hshape, app_assoc. apply slice_mid; rewrite len_app, !len_bytes_of; lia. }
  rewrite E0, E2. unfold Uint16. rewrite !Uint_exact. cbn beta iota. destruct pow256 as (-> & _ & _). rewrite !Z.mod_small by lia. cbv zeta.
  destruct (Z.ltb_spec (4 + len v) 4); [lia|]. destruct (Z.ltb_spec (align4 (len body) + len rest) (4 + len v)); [lia|]. cbn [orb].
  unfold attr_type. cbn [fst snd]. destruct (_ =? want); [by rewrite Ev|].
  rewrite <-Hlen. rewrite <-Hb. unfold encode_attr. cbn [fst snd]. by rewrite slice_rest.
Qed.

(** The first attribute of a type, behind others. *)
Lemma findAttr_found before a after want :
  Forall (λ b, attr_ok b ∧ attr_type b ≠ want) before → attr_ok a → attr_type a = want →
  findAttr big (encode_attrs (before ++ a :: after)) want = Found a.2.
Proof.
  intros Hb Ha Hw. unfold findAttr.
  assert (Hlen : ∀ b, (0 < length (encode_attr b))%nat).
  { intros b. unfold encode_attr, pad. rewrite !length_app, bytes_of_length. lia. }
  assert (Hf : ∀ fuel, (length (encode_attrs (before ++ a :: after)) ≤ fuel)%nat →
    findAttr_loop big fuel (encode_attrs (before ++ a :: after)) want = Found a.2); [|by apply Hf].
  induction Hb as [|b before [Hok Hne] _ IH]; intros fuel Hfuel; unfold encode_attrs in *; cbn [map concat app] in *;
    rewrite length_app in Hfuel.
  - pose proof (Hlen a). destruct fuel as [|fuel]; [lia|]. rewrite findAttr_step by done. by rewrite Hw, Z.eqb_refl.
  - pose proof (Hlen b). destruct fuel as [|fuel]; [lia|]. rewrite findAttr_step by done.
    destruct (Z.eqb_spec (attr_type b) want); [done|]. apply IH. lia.
Qed.

Lemma encode_msg_shape m rest : ∃ tail, encode_msg m ++ rest
  = bytes_of big 4 (16 + len (m_payload m)) ++ bytes_of big 2 (m_type m) ++ bytes_of big 2 (m_flags m)
    ++ bytes_of big 4 (m_seq m) ++ bytes_of big 4 (m_pid m) ++ m_payload m ++ tail.
Proof. unfold encode_msg, pad. eexists. rewrite <-!app_assoc. reflexivity. Qed.

Lemma findReply_step {T} (parse : gostring → outcome T) seq fuel m rest :
  msg_ok m →
  findReply_loop big parse seq (S fuel) (encode_msg m ++ rest)
  = if negb (m_seq m =? seq) then findReply_loop big parse seq fuel rest
    else if m_type m =? nlmsgError then
      if len (m_payload m) <? 4 then Failed (short "netlink error payload")
      else
        let? p0 := slice (m_payload m) 0 4; let? code := Uint32 big p0;
        if code =? 0 then findReply_loop big parse seq fuel rest
        else Failed (ErrWrap (str "taskstats: netlink error")
               (ErrExt (if negb (Z.land code (Z.shiftl 1 31) =? 0) then u32 (- code) else code)))
    else match parse (m_payload m) with NotFound => findReply_loop big parse seq fuel rest | r => r end.
Proof.
  intros (Ht & Hs & Hl). unfold nlmsgHdrLen in Hl. pose proof (len_nonneg (m_payload m)) as Hv. pose proof (len_nonneg rest) as Hr.
  destruct (encode_msg_shape m rest) as [tail Hshape].
  set (body := bytes_of big 4 (nlmsgHdrLen + len (m_payload m)) ++ bytes_of big 2 (m_type m) ++ bytes_of big 2 (m_flags m)
       ++ bytes_of big 4 (m_seq m) ++ bytes_of big 4 (m_pid m) ++ m_payload m).
  assert (Hb : len body = 16 + len (m_payload m)) by (unfold body; rewrite !len_app, !len_bytes_of; lia).
  pose proof (align4_le (len body)) as Ha.
  assert (Hlen : len (encode_msg m ++ rest) = align4 (len body) + len rest) by (rewrite len_app; unfold encode_msg; by rewrite pad_len).
  assert (E0 : slice (encode_msg m ++ rest) 0 4 = Some (bytes_of big 4 (16 + len (m_payload m)))).
  { rewrite Hshape. by apply (slice_field 4 _ []). }
  assert (E4 : slice (encode_msg m ++ rest) 4 6 = Some (bytes_of big 2 (m_type m))).
  { rewrite Hshape. apply slice_field; by rewrite len_bytes_of. }
  assert (E8 : slice (encode_msg m ++ rest) 8 12 = Some (bytes_of big 4 (m_seq m))).
  { rewrite Hshape. pose proof (slice_field 4 (m_seq m) (bytes_of big 4 (16 + len (m_payload m)) ++ bytes_of big 2 (m_type m)
      ++ bytes_of big 2 (m_flags m)) (bytes_of big 4 (m_pid m) ++ m_payload m ++ tail) 8 12) as Hf.
    rewrite <-!app_assoc in Hf. apply Hf; by rewrite !len_app, !len_bytes_of. }
  assert (Ep : slice (encode_msg m ++ rest) 16 (16 + len (m_payload m)) = Some (m_payload m)).
  { rewrite Hshape. rewrite !app_assoc. rewrite <-(app_assoc _ (m_payload m)). apply slice_mid; rewrite !len_app, !len_bytes_of; lia. }
  assert (Er : slice (encode_msg m ++ rest) (Z.min (align4 (16 + len (m_payload m))) (len (encode_msg m ++ rest))) (len (encode_msg m ++ rest)) = Some rest).
  { rewrite <-Hb. apply slice_rest. }
  cbn [findReply_loop]. unfold nlmsgHdrLen. rewrite E0, E4, E8. unfold Uint32, Uint16. rewrite !Uint_exact.
  destruct pow256 as (-> & -> & _). rewrite !Z.mod_small by lia. cbn beta iota. cbv zeta. rewrite Er, Ep, Hlen.
  destruct (Z.ltb_spec 0 (align4 (len body) + len rest)); [|lia]. cbn [negb].
  destruct (Z.ltb_spec (align4 (len body) + len rest) 16); [lia|].
  destruct (Z.ltb_spec (16 + len (m_payload m)) 16); [lia|].
  destruct (Z.ltb_spec (align4 (len body) + len rest) (16 + len (m_payload m))); [lia|]. cbn [orb]. done.
Qed.

(** struct taskstats up to the delays, with what lies between them. *)
Record taskstats := mkTaskstats {
  t_version : Z; t_cpu : Z; t_blkio : Z; t_swapin : Z; t_freepages : Z;
  t_gap1 : gostring; t_gap2 : gostring; t_gap3 : gostring; t_gap4 : gostring; t_rest : gostring }.

Definition encode_taskstats (t : taskstats) : gostring :=
  bytes_of big 2 (t_version t) ++ t_gap1 t ++ bytes_of big 8 (t_cpu t) ++ t_gap2 t ++ bytes_of big 8 (t_blkio t) ++ t_gap3 t
  ++ bytes_of big 8 (t_swapin t) ++ t_gap4 t ++ bytes_of big 8 (t_freepages t) ++ t_rest t.

Definition taskstats_ok (t : taskstats) : Prop :=
  0 ≤ t_version t < 2 ^ 16 ∧ (in_u64 (t_cpu t) ∧ in_u64 (t_blkio t) ∧ in_u64 (t_swapin t) ∧ in_u64 (t_freepages t))
  ∧ len (t_gap1 t) = 22 ∧ len (t_gap2 t) = 8 ∧ len (t_gap3 t) = 8 ∧ len (t_gap4 t) = 256.

(** The delays a collector should see: saturated, the last one only where the kernel has it. *)
Definition delays (t : taskstats) : DelayInfo :=
  mkDelayInfo (Z.min (t_cpu t) (2 ^ 63 - 1)) (Z.min (t_blkio t) (2 ^ 63 - 1)) (Z.min (t_swapin t) (2 ^ 63 - 1))
    (if 7 <=? t_version t then Z.min (t_freepages t) (2 ^ 63 - 1) else 0).

Lemma field64_at a z c off : off = len a → in_u64 z → field64 big (a ++ bytes_of big 8 z ++ c) off = Some z.
Proof.
  intros -> Hz. unfold field64. pose proof (len_nonneg (bytes_of big 8 z ++ c)).
  rewrite <-(app_nil_r (bytes_of big 8 z ++ c)) at 1. rewrite slice_mid; [|done|by rewrite len_app].
  cbn. unfold Uint64. rewrite Uint_app. destruct pow256 as (_ & _ & ->). by rewrite Z.mod_small.
Qed.

Lemma nsToDuration_min n : nsToDuration n = Z.min n (2 ^ 63 - 1).
Proof. unfold nsToDuration. destruct (Z.ltb_spec (2 ^ 63 - 1) n); lia. Qed.

Lemma decode_encode_taskstats t : taskstats_ok t → decodeTaskstats big (encode_taskstats t) = Found (delays t).
Proof.
  intros (Hv & (Hc & Hb & Hs & Hf) & L1 & L2 & L3 & L4). pose proof (len_nonneg (t_rest t)) as Hr.
  assert (Hlen : len (encode_taskstats t) = 328 + len (t_rest t)) by (unfold encode_taskstats; rewrite !len_app, !len_bytes_of; lia).
  assert (Ev : slice (encode_taskstats t) 0 (0 + 2) = Some (bytes_of big 2 (t_version t))) by (by apply (slice_field 2 _ [])).
  assert (Hfield : ∀ off z a c, encode_taskstats t = a ++ bytes_of big 8 z ++ c → off = len a → in_u64 z →
    field64 big (encode_taskstats t) off = Some z) by (intros off z a c -> ? ?; by apply field64_at).
  unfold decodeTaskstats. rewrite Hlen. unfold offVersion, offSwapinDelay. rewrite Ev. unfold Uint16. rewrite Uint_exact.
  destruct pow256 as (-> & _ & _). rewrite Z.mod_small by done. cbn beta iota.
  destruct (Z.ltb_spec (328 + len (t_rest t)) (56 + 8)); [lia|].
  rewrite (Hfield offCPUDelay (t_cpu t) (bytes_of big 2 (t_version t) ++ t_gap1 t) _ ltac:(unfold encode_taskstats; rewrite <-!app_assoc; reflexivity));
    [|by rewrite len_app, len_bytes_of, L1|done].
  rewrite (Hfield offBlkioDelay (t_blkio t) (bytes_of big 2 (t_version t) ++ t_gap1 t ++ bytes_of big 8 (t_cpu t) ++ t_gap2 t) _
    ltac:(unfold encode_taskstats; rewrite <-!app_assoc; reflexivity)); [|by rewrite !len_app, !len_bytes_of, L1, L2|done].
  rewrite (Hfield 56 (t_swapin t) (bytes_of big 2 (t_version t) ++ t_gap1 t ++ bytes_of big 8 (t_cpu t) ++ t_gap2 t
      ++ bytes_of big 8 (t_blkio t) ++ t_gap3 t) _ ltac:(unfold encode_taskstats; rewrite <-!app_assoc; reflexivity));
    [|by rewrite !len_app, !len_bytes_of, L1, L2, L3|done].
  rewrite (Hfield offFreepagesDelay (t_freepages t) (bytes_of big 2 (t_version t) ++ t_gap1 t ++ bytes_of big 8 (t_cpu t) ++ t_gap2 t
      ++ bytes_of big 8 (t_blkio t) ++ t_gap3 t ++ bytes_of big 8 (t_swapin t) ++ t_gap4 t) _
    ltac:(unfold encode_taskstats; rewrite <-!app_assoc; reflexivity)); [|by rewrite !len_app, !len_bytes_of, L1, L2, L3, L4|done].
  cbv zeta. unfold minVersionFreepages, offFreepagesDelay, delays. rewrite !nsToDuration_min.
  destruct (7 <=? t_version t); [|done]. destruct (Z.ltb_spec (328 + len (t_rest t)) (320 + 8)); [lia|]. done.
Qed.

(** A message a scan for [seq] passes over: to another request, or an acknowledgement. *)
Definition passed_over (seq : Z) (m : message) : Prop :=
  msg_ok m ∧ (m_seq m ≠ seq ∨ m_type m = nlmsgError ∧ ∃ r, m_payload m = bytes_of big 4 0 ++ r).

Lemma findReply_behind {T} (parse : gostring → outcome T) seq pre m rest v :
  Forall (passed_over seq) pre → msg_ok m → m_seq m = seq → m_type m ≠ nlmsgError → parse (m_payload m) = Found v →
  findReply big parse seq (concat (map encode_msg pre) ++ encode_msg m ++ rest) = Found v.
Proof.
  intros Hpre Hm Hseq Ht Hp. unfold findReply. set (buf := concat (map encode_msg pre) ++ encode_msg m ++ rest).
  assert (Hlen : ∀ x, (0 < length (encode_msg x))%nat).
  { intros x. unfold encode_msg, pad. rewrite !length_app, bytes_of_length. lia. }
  assert (Hf : ∀ fuel, (length buf ≤ fuel)%nat → findReply_loop big parse seq fuel buf = Found v); [|by apply Hf].
  unfold buf. clear buf. induction Hpre as [|x pre [Hok Hx] _ IH]; intros fuel Hfuel; cbn [map concat app] in *;
    rewrite ?length_app in Hfuel.
  - pose proof (Hlen m). destruct fuel as [|fuel]; [lia|]. rewrite findReply_step by done.
    rewrite Hseq, Z.eqb_refl. cbn [negb]. destruct (Z.eqb_spec (m_type m) nlmsgError); [done|]. by rewrite Hp.
  - pose proof (Hlen x). destruct fuel as [|fuel]; [lia|]. rewrite <-app_assoc. rewrite findReply_step by done.
    assert (Hrec : findReply_loop big parse seq fuel (concat (map encode_msg pre) ++ encode_msg m ++ rest) = Found v).
    { apply IH. rewrite !length_app. lia. }
    destruct Hx as [Hne|[He [r Hr]]].
    + destruct (Z.eqb_spec (m_seq x) seq); [done|]. exact Hrec.
    + destruct (Z.eqb_spec (m_seq x) seq); [|exact Hrec]. cbn [negb]. rewrite He, Z.eqb_refl, Hr, len_app, len_bytes_of.
      pose proof (len_nonneg r). destruct (Z.ltb_spec (Z.of_nat 4 + len r) 4); [lia|].
      pose proof (slice_field 4 0 [] r 0 4 eq_refl eq_refl) as Hsl. cbn [app] in Hsl. rewrite Hsl. unfold Uint32. rewrite Uint_exact. exact Hrec.
Qed.

(** C30. The reply to a request is found and read back: in a buffer of messages as the
    kernel lays them out, behind any number of messages to other requests and of
    acknowledgements, the reply that carries the statistics of a task, nested among
    other attributes, gives exactly the delays the kernel wrote, saturated at the largest
    duration, with the delay of memory reclaim only from version 7 on. *)
Theorem taskstats_reply_found seq pre m rest hdr before flags inner t inner_after after :
  Forall (passed_over seq) pre → msg_ok m → m_seq m = seq → m_type m ≠ nlmsgError →
  m_payload m = hdr ++ encode_attrs (before ++ (flags, encode_attrs (inner ++ (taskstatsTypeStats, encode_taskstats t) :: inner_after)) :: after) →
  len hdr = genlHdrLen →
  Forall (λ a, attr_ok a ∧ attr_type a ≠ taskstatsTypeAggrTGID) before → Forall (λ a, attr_ok a ∧ attr_type a ≠ taskstatsTypeStats) inner →
  attr_ok (flags, encode_attrs (inner ++ (taskstatsTypeStats, encode_taskstats t) :: inner_after)) →
  Z.land flags nlaTypeMask = taskstatsTypeAggrTGID → attr_ok (taskstatsTypeStats, encode_taskstats t) → taskstats_ok t →
  ParseTaskstatsReply big (concat (map encode_msg pre) ++ encode_msg m ++ rest) seq = Found (delays t).
Proof.
  intros Hpre Hm Hseq Ht Hpay Hh Hbefore Hinner Hao Hflags Hso Hts. apply findReply_behind; [done..|].
  unfold parseTaskstatsMessage. rewrite Hpay. set (attrs := encode_attrs (before ++ _ :: after)).
  pose proof (len_nonneg attrs). rewrite len_app, Hh. destruct (Z.ltb_spec (genlHdrLen + len attrs) genlHdrLen); [lia|].
  rewrite <-(app_nil_r attrs) at 1. rewrite slice_mid; [|done|by rewrite Hh]. unfold attrs. rewrite findAttr_found by done. cbn [bind snd].
  rewrite findAttr_found by done. cbn [bind snd]. by apply decode_encode_taskstats.
Qed.

End native.

(** The requests are messages of the layout, with a generic header and one attribute. *)
Theorem requests_encode big family seq tgid :
  taskstatsRequest big family seq tgid
  = encode_msg big (mkMessage family nlmFRequest seq 0
      ([byte_of taskstatsCmdGet; byte_of taskstatsGenlVersion; byte_of 0; byte_of 0] ++ encode_attr big (taskstatsCmdAttrTGID, bytes_of big 4 tgid)))
  ∧ familyRequest big seq
    = encode_msg big (mkMessage genlIDCtrl nlmFRequest seq 0
        ([byte_of ctrlCmdGetFamily; byte_of ctrlVersion; byte_of 0; byte_of 0]
         ++ encode_attr big (ctrlAttrFamilyName, taskstatsFamilyName ++ [byte_of 0]))).
Proof. destruct big; split; reflexivity. Qed.

(** ** A reply *)
Definition demo_stats : taskstats :=
  mkTaskstats 9 1000 2000 (2 ^ 63 + 5) 77 (replicate 22 (byte_of 1)) (replicate 8 (byte_of 2)) (replicate 8 (byte_of 3))
    (replicate 256 (byte_of 4)) [].
Definition demo_nest : gostring := encode_attrs false ([(4, bytes_of false 4 42)] ++ (taskstatsTypeStats, encode_taskstats false demo_stats) :: []).
Definition demo_reply : message :=
  mkMessage 22 0 7 42 ([byte_of 2; byte_of 1; byte_of 0; byte_of 0] ++ encode_attrs false ([(6, [])] ++ (32768 + 5, demo_nest) :: [])).
Definition demo_others : list message :=
  [mkMessage 22 0 6 42 [byte_of 1]; mkMessage 2 0 7 42 (bytes_of false 4 0 ++ replicate 16 (byte_of 9))].

Lemma taskstats_reply_found_witness :
  ParseTaskstatsReply false (concat (map (encode_msg false) demo_others) ++ encode_msg false demo_reply ++ []) 7
  = Found (mkDelayInfo 1000 2000 (2 ^ 63 - 1) 77).
Proof.
  refine (eq_trans (taskstats_reply_found false 7 demo_others demo_reply [] [byte_of 2; byte_of 1; byte_of 0; byte_of 0] [(6, [])]
    (32768 + 5) [(4, bytes_of false 4 42)] demo_stats [] [] _ _ _ _ _ _ _ _ _ _ _ _) _).
  - constructor; [|constructor; [|constructor]].
    + split; [by vm_compute|]. left. done.
    + split; [by vm_compute|]. right. split; [done|]. by eexists.
  - by vm_compute.
  - done.
  - done.
  - done.
  - done.
  - constructor; [|constructor]. split; [by vm_compute|done].
  - constructor; [|constructor]. split; [by vm_compute|done].
  - by vm_compute.
  - done.
  - by vm_compute.
  - by vm_compute.
  - by vm_compute.
Defined.

(** A whole exchange: the controller names family 27, the kernel's answer follows an interrupted receive. *)
Definition demo_family_reply : message :=
  mkMessage genlIDCtrl 0 1 42 ([byte_of 1; byte_of 2; byte_of 0; byte_of 0] ++ encode_attr false (ctrlAttrFamilyID, bytes_of false 2 27)).
Definition demo_stats_reply : message := mkMessage 27 0 2 42 (m_payload demo_reply).

Example demo_Get :
  (Get false (mkSocket None None None 0) (mkAnswers None [inl (encode_msg false demo_family_reply)])
     (mkAnswers None [inr (ErrExt EINTR); inl (encode_msg false demo_stats_reply)]) 1234).2
  = Found (mkDelayInfo 1000 2000 (2 ^ 63 - 1) 77).
Proof. vm_compute. reflexivity. Qed.
