(* ===== verification/Procfs.v ===== *)
(** * Files of /proc and of cgroups (runtimemetrics/procfs, runtimemetrics/procinfo.go,
      procinfo_procfs.go, cpucount.go)

    The parsers are functions on the bytes of a file; the operating system is the record
    [OS] of what its calls return.  [PathClean] models filepath.Clean of Unix.  The
    theorems are in [ProcfsCorrect]. *)

From S2P Require Import Prelude GoLib Strconv Strings Attribute DogStatsD DogStatsDParse Cardinality Config.

(** ** Helpers of strings, strconv and filepath *)

(** strings.Fields: an encoded space begins with a byte that begins a rune, so it is
    looked for at every byte. *)
Definition flush_word (cur : gostring) : list gostring := match cur with [] => [] | _ => [cur] end.

Fixpoint fields_loop (fuel : nat) (s cur : gostring) : list gostring :=
  match fuel with
  | O => flush_word cur
  | S fuel =>
      match s with
      | [] => flush_word cur
      | b :: s' =>
          match match_prefix spaces s with
          | Some n => flush_word cur ++ fields_loop fuel (drop n s) []
          | None => fields_loop fuel s' (cur ++ [b])
          end
      end
  end.

Definition Fields (s : gostring) : list gostring := fields_loop (S (length s)) s [].

(** strconv.ParseUint(s, 10, 64) *)
Definition ParseUint (s : gostring) : option Z :=
  match s with
  | [] => None
  | _ => n ← read_dec 0 s; if n <? 2 ^ 64 then Some n else None
  end.

(** filepath.Clean: the elements, with the last ones on top. *)
Definition dot : gostring := str ".".
Definition dotdot : gostring := str "..".

Definition clean_step (rooted : bool) (stack : list gostring) (e : gostring) : list gostring :=
  if gostring_eqb e [] || gostring_eqb e dot then stack
  else if gostring_eqb e dotdot then
    match stack with
    | top :: rest => if gostring_eqb top dotdot then e :: stack else rest
    | [] => if rooted then [] else [e]
    end
  else e :: stack.

Definition slash : ascii := byte_of 47.
Definition is_rooted (path : gostring) : bool := match path with c :: _ => bool_decide (c = slash) | [] => false end.

(** The elements of a path after cleaning. *)
Definition elements (path : gostring) : list gostring :=
  rev (foldl (clean_step (is_rooted path)) [] (split_byte slash path)).

Definition PathClean (path : gostring) : gostring :=
  let es := elements path in
  if is_rooted path then slash :: join [slash] es
  else match es with [] => dot | _ => join [slash] es end.

(** filepath.Join: empty leading elements are skipped. *)
Fixpoint PathJoin (elem : list gostring) : gostring :=
  match elem with
  | [] => []
  | [] :: rest => PathJoin rest
  | _ => PathClean (join [slash] elem)
  end.

(** ** Parsing (parse.go) *)
Definition malformed (file : string) : error := ErrWrapAfter (ErrIs ErrMalformed) (str file).

(** The value of one line, if it counts: key and value. *)
Definition key_value (line : gostring) : option (gostring * Z) :=
  match cut_byte colon line with
  | (_, None) => None
  | (key, Some rest) =>
      match Fields rest with
      | [f] => v ← ParseUint f; Some (TrimSpace key, v)
      | [f; unit_] => v ← ParseUint f; if gostring_eqb unit_ (str "kB") then Some (TrimSpace key, u64 (v * 1024)) else None
      | _ => None
      end
  end.

Definition KeyValues (b : gostring) : gmap gostring Z :=
  foldl (λ out line, match key_value line with Some (k, v) => <[k := v]> out | None => out end) ∅ (split_byte newline b).

(** parseUints: the values for [n] destinations. *)
Fixpoint parse_uints (fields : list gostring) (n : nat) : option (list Z) :=
  match n, fields with
  | O, _ => Some []
  | S n', f :: rest => v ← ParseUint f; vs ← parse_uints rest n'; Some (v :: vs)
  | S _, [] => None
  end.

(** A value of a map, zero when it is missing. *)
Definition at_key (kv : gmap gostring Z) (k : string) : Z := default 0 (kv !! str k).

(** ** stat and statm *)
Record Stat := mkStat {
  st_PID : Z; st_Comm : gostring; st_State : ascii; st_PPID : Z; st_PGRP : Z; st_Session : Z; st_TTYNr : Z; st_TPGID : Z;
  st_Flags : Z; st_Minflt : Z; st_Cminflt : Z; st_Majflt : Z; st_Cmajflt : Z; st_Utime : Z; st_Stime : Z;
  st_Cutime : Z; st_Cstime : Z; st_Priority : Z; st_Nice : Z; st_NumThreads : Z; st_Starttime : Z; st_Vsize : Z; st_Rss : Z }.

Definition statFieldsAfterComm : Z := 24 - 2.

(** The numbers of the fields with the given places in proc(5), by [parse]; the place of
    f[i] is i + 3. *)
Fixpoint number_fields (parse : gostring → option Z) (f : list gostring) (places : list nat) : option (list Z) :=
  match places with
  | [] => Some []
  | p :: rest => t ← f !! (p - 3)%nat; v ← parse t; vs ← number_fields parse f rest; Some (v :: vs)
  end.

Definition ParseStat (b : gostring) : Stat + error :=
  match IndexByte b (byte_of 40), LastIndexByte b (byte_of 41) with
  | Some open_, Some end_ =>
      if (end_ <? open_)%nat then inr (malformed "stat")
      else
        match ParseInt (TrimSpace (take open_ b)) with
        | None => inr (malformed "stat")
        | Some pid =>
            let f := Fields (drop (end_ + 1) b) in
            if len f <? statFieldsAfterComm then inr (malformed "stat")
            else
              match f with
              | [state] :: _ =>
                  let comm := take (end_ - (open_ + 1)) (drop (open_ + 1) b) in
                  match number_fields ParseInt f [4; 5; 6; 7; 8]%nat,
                        number_fields ParseInt f [16; 17; 18; 19; 20; 24]%nat,
                        number_fields ParseUint f [9; 10; 11; 12; 13; 14; 15; 22; 23]%nat with
                  | Some [ppid; pgrp; session; tty; tpgid], Some [cutime; cstime; priority; nice; threads; rss],
                    Some [flags; minflt; cminflt; majflt; cmajflt; utime; stime; start; vsize] =>
                      inl (mkStat pid comm state ppid pgrp session tty tpgid flags minflt cminflt majflt cmajflt utime stime
                             cutime cstime priority nice threads start vsize rss)
                  | _, _, _ => inr (malformed "stat")
                  end
              | _ => inr (malformed "stat")
              end
        end
  | _, _ => inr (malformed "stat")
  end.

Record Statm := mkStatm { sm_Size : Z; sm_Resident : Z; sm_Shared : Z; sm_Text : Z; sm_Lib : Z; sm_Data : Z; sm_Dirty : Z }.

Definition ParseStatm (b : gostring) : Statm + error :=
  match parse_uints (Fields b) 7 with
  | Some [size; resident; shared; text; lib; data; dirty] => inl (mkStatm size resident shared text lib data dirty)
  | _ => inr (malformed "statm")
  end.

(** ** sched *)
Record Sched := mkSched {
  sc_NRSwitches : Z; sc_NRVoluntarySwitches : Z; sc_NRInvoluntarySwitches : Z; sc_SEAvgLoadSum : Z; sc_SEAvgUtilSum : Z;
  sc_SEAvgLoadAvg : Z; sc_SEAvgUtilAvg : Z }.

(** [*dst += v] for the field named by the key; other keys are skipped. *)
Definition sched_add (s : Sched) (key : gostring) (v : Z) : Sched :=
  let add (name : string) (x : Z) := if gostring_eqb key (str name) then u64 (x + v) else x in
  mkSched (add "nr_switches"%string (sc_NRSwitches s)) (add "nr_voluntary_switches"%string (sc_NRVoluntarySwitches s))
    (add "nr_involuntary_switches"%string (sc_NRInvoluntarySwitches s)) (add "se.avg.load_sum"%string (sc_SEAvgLoadSum s))
    (add "se.avg.util_sum"%string (sc_SEAvgUtilSum s)) (add "se.avg.load_avg"%string (sc_SEAvgLoadAvg s))
    (add "se.avg.util_avg"%string (sc_SEAvgUtilAvg s)).

Definition sched_line (s : Sched) (line : gostring) : Sched :=
  match cut_byte colon line with
  | (key, Some val) => match ParseUint (TrimSpace val) with Some v => sched_add s (TrimSpace key) v | None => s end
  | (_, None) => s
  end.

Definition ParseSched (b : gostring) : Sched + error :=
  let lines := split_byte newline b in
  if len lines <? 2 then inr (malformed "sched") else inl (foldl sched_line (mkSched 0 0 0 0 0 0 0) (drop 2 lines)).

(** ** limits *)
Definition Unlimited : Z := 2 ^ 64 - 1.

Record Limit := mkLimit { li_Name : gostring; li_Soft : Z; li_Hard : Z; li_Unit : gostring }.
Definition no_limit : Limit := mkLimit [] 0 0 [].

(** The rows of the struct Limits, in its order. *)
Definition limit_rows : list gostring :=
  str <$> ["Max cpu time"; "Max file size"; "Max data size"; "Max stack size"; "Max core file size"; "Max resident set";
           "Max processes"; "Max open files"; "Max locked memory"; "Max address space"; "Max file locks";
           "Max pending signals"; "Max msgqueue size"; "Max nice priority"; "Max realtime priority"; "Max realtime timeout"]%string.

(** Limits: one entry per row. *)
Definition Limits : Type := gmap gostring Limit.
Definition limit_of (l : Limits) (row : string) : Limit := default no_limit (l !! str row).

(** columnSep.Split: columns are two or more spaces apart.  [run] spaces are pending. *)
Fixpoint split_columns (s cur : gostring) (run : nat) : list gostring :=
  match s with
  | [] => if (2 <=? run)%nat then [cur; []] else [cur ++ replicate run (byte_of 32)]
  | c :: s' =>
      if bool_decide (c = byte_of 32) then split_columns s' cur (S run)
      else if (2 <=? run)%nat then cur :: split_columns s' [c] 0
      else split_columns s' (cur ++ replicate run (byte_of 32) ++ [c]) 0
  end.

Definition parseLimitValue (s : gostring) : option Z := if gostring_eqb s (str "unlimited") then Some Unlimited else ParseUint s.

Fixpoint limits_loop (l : Limits) (lines : list gostring) : Limits + error :=
  match lines with
  | [] => inl l
  | line :: rest =>
      match split_columns (TrimSpace line) [] 0 with
      | name :: soft :: hard :: more =>
          if bool_decide (name ∈ limit_rows) then
            match parseLimitValue soft with
            | None => inr (malformed "limits")
            | Some s =>
                match parseLimitValue hard with
                | None => inr (malformed "limits")
                | Some h => limits_loop (<[name := mkLimit name s h (default [] (head more))]> l) rest
                end
            end
          else limits_loop l rest
      | _ => limits_loop l rest
      end
  end.

Definition ParseLimits (b : gostring) : Limits + error :=
  let lines := split_byte newline b in
  if len lines <? 2 then inr (malformed "limits") else limits_loop ∅ (drop 1 lines).

(** ** meminfo and status *)
Record Meminfo := mkMeminfo {
  mi_Total : Z; mi_Free : Z; mi_Available : Z; mi_Buffers : Z; mi_Cached : Z; mi_SwapTotal : Z; mi_SwapFree : Z }.

Definition ParseMeminfo (b : gostring) : Meminfo + error :=
  let kv := KeyValues b in
  match kv !! str "MemTotal" with
  | None => inr (malformed "meminfo")
  | Some total =>
      inl (mkMeminfo total (at_key kv "MemFree") (at_key kv "MemAvailable") (at_key kv "Buffers") (at_key kv "Cached")
             (at_key kv "SwapTotal") (at_key kv "SwapFree"))
  end.

Record Status := mkStatus {
  su_VmSize : Z; su_VmRSS : Z; su_RssAnon : Z; su_RssFile : Z; su_RssShmem : Z; su_VmData : Z; su_VmStk : Z; su_VmExe : Z;
  su_VmLib : Z; su_Threads : Z; su_Voluntary : Z; su_Nonvoluntary : Z }.

Definition ParseStatus (b : gostring) : Status + error :=
  let kv := KeyValues b in
  if bool_decide (kv = ∅) then inr (malformed "status")
  else inl (mkStatus (at_key kv "VmSize") (at_key kv "VmRSS") (at_key kv "RssAnon") (at_key kv "RssFile") (at_key kv "RssShmem")
              (at_key kv "VmData") (at_key kv "VmStk") (at_key kv "VmExe") (at_key kv "VmLib") (at_key kv "Threads")
              (at_key kv "voluntary_ctxt_switches") (at_key kv "nonvoluntary_ctxt_switches")).

Definition unlimitedV1Memory : Z := 9223372036854771712.

(** ParseMemoryLimit: the limit, [None] for no limit. *)
Definition ParseMemoryLimit (b : gostring) : option Z + error :=
  let s := TrimSpace b in
  if gostring_eqb s (str "max") then inl None
  else match ParseUint s with
       | None => inr (malformed "memory limit")
       | Some v => if unlimitedV1Memory <=? v then inl None else inl (Some v)
       end.

(** ** cgroups *)
Record CGroup := mkCGroup { cg_ID : Z; cg_Name : gostring; cg_Path : gostring }.

(** Lookup: the first name that some entry has. *)
Definition cgroup_named (cs : list CGroup) (want : gostring) : option CGroup :=
  find (λ c, negb (gostring_eqb (cg_Name c) []) && gostring_eqb (cg_Name c) want) cs.

Fixpoint lookup_names (cs : list CGroup) (wants : list gostring) : option CGroup :=
  match wants with
  | [] => None
  | want :: rest => match cgroup_named cs want with Some c => Some c | None => lookup_names cs rest end
  end.
Definition Lookup (cs : list CGroup) (name : gostring) : option CGroup := lookup_names cs (split_byte comma name).

Definition Unified (cs : list CGroup) : option CGroup := find (λ c, (cg_ID c =? 0) && gostring_eqb (cg_Name c) []) cs.

(** One line, as strings.SplitN(line, ":", 3) splits it. *)
Definition cgroup_line (line : gostring) : list CGroup + error :=
  match cut_byte colon line with
  | (id, Some rest) =>
      match cut_byte colon rest with
      | (controllers, Some path) =>
          match ParseInt id with
          | None => inr (malformed "cgroup")
          | Some id =>
              let path := TrimSpace path in
              match controllers with
              | [] => inl [mkCGroup id [] path]
              | _ => inl (map (λ name, mkCGroup id (trim_prefix name (str "name=")) path) (split_byte comma controllers))
              end
          end
      | (_, None) => inr (malformed "cgroup")
      end
  | (_, None) => inr (malformed "cgroup")
  end.

Fixpoint cgroups_loop (lines : list gostring) (out : list CGroup) : list CGroup + error :=
  match lines with
  | [] => inl out
  | line :: rest =>
      if gostring_eqb (TrimSpace line) [] then cgroups_loop rest out
      else match cgroup_line line with inr err => inr err | inl cs => cgroups_loop rest (out ++ cs) end
  end.

Definition ParseCGroups (b : gostring) : list CGroup + error := cgroups_loop (split_byte newline b) [].

Record CPUConfig := mkCPUConfig { cc_Quota : Z; cc_Period : Z; cc_Shares : Z; cc_Weight : Z }.
Definition no_cpu_config : CPUConfig := mkCPUConfig 0 0 0 0.

Definition Microsecond : Z := 1000.

(** A positive number of microseconds. *)
Definition positive_usec (s : gostring) : option Z :=
  n ← ParseInt s; if n <=? 0 then None else Some (i64 (n * Microsecond)).

Definition cpu_quota (period : Z) (q : gostring) : CPUConfig + error :=
  if gostring_eqb q (str "max") then inl (mkCPUConfig 0 period 0 0)
  else match positive_usec q with
       | None => inr (malformed "cpu.max")
       | Some quota => inl (mkCPUConfig quota period 0 0)
       end.

Definition ParseCPUMax (b : gostring) : CPUConfig + error :=
  match Fields b with
  | [q] => cpu_quota (100 * Millisecond) q
  | [q; p] => match positive_usec p with None => inr (malformed "cpu.max") | Some period => cpu_quota period q end
  | _ => inr (malformed "cpu.max")
  end.

Definition parseInt64File (name : string) (b : gostring) : Z + error :=
  match ParseInt (TrimSpace b) with Some v => inl v | None => inr (malformed name) end.

(** ** The reader (reader.go, files.go, and the Read functions) *)

(** What the operating system answers. *)
Record OS := mkOS {
  ReadFile : gostring → gostring + error;
  IsDir : gostring → bool;
  Readdirnames : gostring → list gostring + error;
  Getpid : Z }.

Definition DefaultProcRoot : gostring := str "/proc".
Definition DefaultCgroupRoot : gostring := str "/sys/fs/cgroup".

Record Reader := mkReader { ProcRoot : gostring; CgroupRoot : gostring; selfPID : Z }.
Definition Default : Reader := mkReader [] [] 0.

Definition procRoot (r : Reader) : gostring := match ProcRoot r with [] => DefaultProcRoot | p => p end.
Definition cgroupRoot (r : Reader) : gostring := match CgroupRoot r with [] => DefaultCgroupRoot | p => p end.

Section reader.
Context (os : OS) (r : Reader).

Definition self : Z := if negb (selfPID r =? 0) then selfPID r else Getpid os.
Definition procPath (pid : Z) (name : gostring) : gostring := PathJoin [procRoot r; FormatInt pid; name].
Definition readProc (pid : Z) (name : string) : gostring + error := ReadFile os (procPath pid (str name)).

(** A file that is read and parsed. *)
Definition read_parse {A} (file : gostring + error) (parse : gostring → A + error) : A + error :=
  match file with inr err => inr err | inl b => parse b end.

Definition ReadStat (pid : Z) : Stat + error := read_parse (readProc pid "stat") ParseStat.
Definition ReadStatm (pid : Z) : Statm + error := read_parse (readProc pid "statm") ParseStatm.
Definition ReadSched (pid : Z) : Sched + error := read_parse (readProc pid "sched") ParseSched.
Definition ReadLimits (pid : Z) : Limits + error := read_parse (readProc pid "limits") ParseLimits.
Definition ReadStatus (pid : Z) : Status + error := read_parse (readProc pid "status") ParseStatus.
Definition ReadCGroups (pid : Z) : list CGroup + error := read_parse (readProc pid "cgroup") ParseCGroups.
Definition ReadMeminfo : Meminfo + error := read_parse (ReadFile os (PathJoin [procRoot r; str "meminfo"])) ParseMeminfo.

Definition OpenFileCount (pid : Z) : Z + error :=
  match Readdirnames os (procPath pid (str "fd")) with
  | inr err => inr err
  | inl names => let n := len names in inl (if (pid =? self) && (0 <? n) then n - 1 else n)
  end.

(** cgroupDir: the first candidate that is a directory, then for the process itself the
    first mount. *)
Definition cgroup_path (cgPath c : gostring) : gostring := PathJoin [cgroupRoot r; c; PathClean (slash :: cgPath)].

Definition cgroupDir (pid : Z) (cgPath : gostring) (controllers : list gostring) : option gostring :=
  let controllers : list gostring := match controllers with [] => [[]] | _ => controllers end in
  match find (IsDir os) (map (cgroup_path cgPath) controllers) with
  | Some dir => Some dir
  | None =>
      if pid =? self then find (IsDir os) (map (λ c, PathJoin [cgroupRoot r; c]) controllers) else None
  end.

(** v1MountNames: the candidates without the empty ones and without repetition. *)
Fixpoint fresh_names (names seen : list gostring) : list gostring :=
  match names with
  | [] => []
  | n :: rest =>
      if negb (gostring_eqb n []) && negb (bool_decide (n ∈ seen)) then n :: fresh_names rest (n :: seen) else fresh_names rest seen
  end.

Definition v1MountNames (cs : list CGroup) (g : CGroup) (combined : list gostring) : list gostring :=
  let joined := map cg_Name (List.filter (λ c, (cg_ID c =? cg_ID g) && negb (gostring_eqb (cg_Name c) [])) cs) in
  let names := [join [comma] joined; cg_Name g; join [comma] combined]
               ++ match combined with [a; b] => [b ++ [comma] ++ a] | _ => [] end in
  fresh_names names [].

Definition cgroupFile (dir : gostring) (name : string) : gostring := PathJoin [dir; str name].

Definition not_exist (err : error) : bool := errors_is ErrNotExist err.

Definition readCPUv2 (dir : gostring) : CPUConfig + error :=
  let cfg :=
    match ReadFile os (cgroupFile dir "cpu.max") with
    | inl b => ParseCPUMax b
    | inr err => if not_exist err then inl no_cpu_config else inr err
    end in
  match cfg with
  | inr err => inr err
  | inl cfg =>
      match ReadFile os (cgroupFile dir "cpu.weight") with
      | inr _ => inl cfg
      | inl b =>
          match parseInt64File "cpu.weight" b with
          | inr err => inr err
          | inl w => inl (mkCPUConfig (cc_Quota cfg) (cc_Period cfg) (cc_Shares cfg) w)
          end
      end
  end.

(** The integer of a file, [None] when the file does not exist. *)
Definition read_v1 (dir : gostring) (name : string) : option Z + error :=
  match ReadFile os (cgroupFile dir name) with
  | inr err => if not_exist err then inl None else inr err
  | inl b => match parseInt64File name b with inl v => inl (Some v) | inr err => inr err end
  end.

Definition positive_or (v : option Z) : Z := match v with Some v => if 0 <? v then i64 (v * Microsecond) else 0 | None => 0 end.

Definition readCPUv1 (dir : gostring) : CPUConfig + error :=
  match read_v1 dir "cpu.cfs_period_us" with
  | inr err => inr (ErrWrap (str "cpu.cfs_period_us") err)
  | inl period =>
      match read_v1 dir "cpu.cfs_quota_us" with
      | inr err => inr (ErrWrap (str "cpu.cfs_quota_us") err)
      | inl quota =>
          match read_v1 dir "cpu.shares" with
          | inr err => inr (ErrWrap (str "cpu.shares") err)
          | inl shares => inl (mkCPUConfig (positive_or quota) (positive_or period) (default 0 shares) 0)
          end
      end
  end.

Definition v2_dir (pid : Z) (groups : list CGroup) : option gostring := g ← Unified groups; cgroupDir pid (cg_Path g) [[]].

Definition v1_cpu_dir (pid : Z) (groups : list CGroup) : option gostring :=
  g ← Lookup groups (str "cpu"); cgroupDir pid (cg_Path g) (v1MountNames groups g [str "cpu"; str "cpuacct"]).

Definition ReadCPUConfig (pid : Z) : CPUConfig + error :=
  match ReadCGroups pid with
  | inr err => inr err
  | inl groups =>
      match v2_dir pid groups with
      | Some dir => readCPUv2 dir
      | None =>
          match v1_cpu_dir pid groups with
          | Some dir => readCPUv1 dir
          | None => inr (ErrIs ErrNoCPUCgroup)
          end
      end
  end.

(** The limit of a file, [None] when it cannot be read or there is none. *)
Definition read_limit (dir : gostring) (file : string) : option Z :=
  match ReadFile os (cgroupFile dir file) with
  | inr _ => None
  | inl b => match ParseMemoryLimit b with inl limit => limit | inr _ => None end
  end.

Definition cgroupMemoryLimit (pid : Z) (groups : list CGroup) : option Z :=
  match (dir ← v2_dir pid groups; read_limit dir "memory.max") with
  | Some limit => Some limit
  | None =>
      g ← Lookup groups (str "memory");
      dir ← cgroupDir pid (cg_Path g) [str "memory"];
      read_limit dir "memory.limit_in_bytes"
  end.

Definition ReadMemoryLimit (pid : Z) : Z + error :=
  match (match ReadCGroups pid with inl groups => cgroupMemoryLimit pid groups | inr _ => None end) with
  | Some limit => inl limit
  | None => match ReadMeminfo with inr err => inr err | inl mi => inl (mi_Total mi) end
  end.

(** ** Snapshots of a process (procinfo.go, procinfo_procfs.go) *)
Record CPUInfo := mkCPUInfo { ci_User : Z; ci_Sys : Z; ci_Period : Z; ci_Quota : Z; ci_Shares : Z; ci_Weight : Z }.
Record MemoryInfo := mkMemoryInfo {
  me_Total : Z; me_Available : Z; me_Size : Z; me_Resident : Z; me_Shared : Z; me_Text : Z; me_Data : Z;
  me_MajorPageFaults : Z; me_MinorPageFaults : Z }.
Record FileInfo := mkFileInfo { fi_Open : Z; fi_Max : Z }.
Record ThreadInfo := mkThreadInfo { th_Num : Z; th_Voluntary : Z; th_Involuntary : Z }.
Record ProcInfo := mkProcInfo { pi_CPU : CPUInfo; pi_Memory : MemoryInfo; pi_Files : FileInfo; pi_Threads : ThreadInfo }.

Definition clockTicksPerSecond : Z := 100.

(** A float as a duration; a value out of range is the machine's, an argument. *)
Definition ticksToDuration (overflow : Z) (ticks : Z) : Z :=
  match f_trunc (fdiv (fmul (f_of_Z ticks) (f_of_Z Second)) (f_of_Z clockTicksPerSecond)) with
  | Some n => if (- 2 ^ 63 <=? n) && (n <? 2 ^ 63) then n else overflow
  | None => overflow
  end.

Definition or_else {A} (x : A + error) (d : A) : A := match x with inl a => a | inr _ => d end.

Definition collectProcInfoFrom (overflow : Z) (pid pagesize : Z) : ProcInfo + error :=
  match ReadStat pid with
  | inr err => inr err
  | inl stat =>
      match ReadStatm pid with
      | inr err => inr err
      | inl statm =>
          match ReadStatus pid with
          | inr err => inr err
          | inl status =>
              let bytes pages := u64 (pages * pagesize) in
              let cfg := or_else (ReadCPUConfig pid) no_cpu_config in
              let available := match ReadMeminfo with inl mi => mi_Available mi | inr _ => 0 end in
              let soft := match ReadLimits pid with inl l => li_Soft (limit_of l "Max open files") | inr _ => Unlimited end in
              inl (mkProcInfo
                (mkCPUInfo (ticksToDuration overflow (st_Utime stat)) (ticksToDuration overflow (st_Stime stat))
                   (cc_Period cfg) (cc_Quota cfg) (cc_Shares cfg) (cc_Weight cfg))
                (mkMemoryInfo (or_else (ReadMemoryLimit pid) 0) available
                   (bytes (sm_Size statm)) (bytes (sm_Resident statm)) (bytes (sm_Shared statm)) (bytes (sm_Text statm))
                   (bytes (sm_Data statm)) (st_Majflt stat) (st_Minflt stat))
                (mkFileInfo (or_else (OpenFileCount pid) 0) (if soft =? Unlimited then 0 else soft))
                (mkThreadInfo (Z.max (st_NumThreads stat) 0) (su_Voluntary status) (su_Nonvoluntary status)))
          end
      end
  end.
End reader.

(** ** Physical cores (cpucount.go) *)

(** The core being read: its package and its id, where they were seen. *)
Record core_state := mkCore { co_pkg : option gostring; co_id : option gostring; co_seen : gset (gostring * gostring) }.

Definition core_flush (c : core_state) : core_state :=
  match co_pkg c, co_id c with
  | None, None => mkCore None None (co_seen c)
  | p, i => mkCore None None ({[(default [] p, default [] i)]} ∪ co_seen c)
  end.

Definition core_line (c : core_state) (line : gostring) : core_state :=
  match cut_byte colon line with
  | (_, None) => if gostring_eqb (TrimSpace line) [] then core_flush c else c
  | (key, Some val) =>
      if gostring_eqb (TrimSpace key) (str "physical id") then mkCore (Some (TrimSpace val)) (co_id c) (co_seen c)
      else if gostring_eqb (TrimSpace key) (str "core id") then mkCore (co_pkg c) (Some (TrimSpace val)) (co_seen c)
      else c
  end.

(** The number of cores, [None] when the file has no topology. *)
Definition parseCPUInfoPhysical (b : gostring) : option Z :=
  let c := core_flush (foldl core_line (mkCore None None ∅) (split_byte newline b)) in
  if bool_decide (co_seen c = ∅) then None else Some (Z.of_nat (size (co_seen c))).
