(* ===== verification/ProcfsCorrect.v ===== *)
(** * Files of /proc and of cgroups: theorems

    A stat line is read back whatever the name of the command is ([stat_roundtrip]), and
    the directory of a cgroup lies below the mount whatever path the kernel names
    ([cgroup_dir_contained]). *)

From S2P Require Import Prelude GoLib Strconv Strings Attribute DogStatsD DogStatsDParse Cardinality Config Procfs.

(** ** Words *)

(** Bytes that are printed and are no space. *)
Definition plain (c : ascii) : Prop := 33 ≤ code c ≤ 126.
Definition word (w : gostring) : Prop := w ≠ [] ∧ Forall plain w.

Lemma match_prefix_head ps c s : Forall (λ p, match p with a :: _ => a ≠ c | [] => False end) ps → match_prefix ps (c :: s) = None.
Proof.
  induction 1 as [|p ps Hp _ IH]; [done|]. cbn [match_prefix]. destruct p as [|a p]; [done|].
  cbn [has_prefix]. by rewrite bool_decide_false.
Qed.

(** No encoded space, nor its reverse, begins with a plain byte. *)
Definition outside (p : gostring) : bool := match p with a :: _ => (code a <? 33) || (126 <? code a) | [] => false end.

Lemma spaces_outside : Forall (λ p, outside p = true) (spaces ++ map (@rev _) spaces).
Proof. apply (bool_decide_unpack _). vm_compute. exact I. Qed.

Lemma plain_no_space ps c s : Forall (λ p, outside p = true) ps → plain c → match_prefix ps (c :: s) = None.
Proof.
  intros Hps Hc. apply match_prefix_head. eapply Forall_impl; [exact Hps|]. intros [|a p] Ho; [done|].
  intros ->. unfold plain in Hc. unfold outside in Ho. lia.
Qed.

Lemma plain_spaces c s : plain c → match_prefix spaces (c :: s) = None.
Proof. apply plain_no_space. pose proof spaces_outside as H. by apply Forall_app in H as [H _]. Qed.
Lemma plain_spaces_rev c s : plain c → match_prefix (map (@rev _) spaces) (c :: s) = None.
Proof. apply plain_no_space. pose proof spaces_outside as H. by apply Forall_app in H as [_ H]. Qed.

Lemma trim_left_plain ps c s : match_prefix ps (c :: s) = None → trim_left ps (c :: s) = c :: s.
Proof. intros Hm. unfold trim_left. cbn [length trim_fuel]. by rewrite Hm. Qed.

(** TrimSpace of a word with a space behind it. *)
Lemma TrimSpace_word w : word w → TrimSpace (w ++ [byte_of 32]) = w.
Proof.
  intros [Hne Hp]. unfold TrimSpace. destruct w as [|c w]; [done|]. inversion Hp as [|? ? Hc Hw]; subst.
  change ((c :: w) ++ [byte_of 32]) with (c :: (w ++ [byte_of 32])). rewrite trim_left_plain by (by apply plain_spaces).
  unfold trim_right. change (c :: w ++ [byte_of 32]) with ((c :: w) ++ [byte_of 32]). rewrite rev_app_distr.
  assert (Hr : ∃ d r, rev (c :: w) = d :: r ∧ plain d).
  { destruct (rev (c :: w)) as [|d r] eqn:E; [by apply (f_equal (@length _)) in E; rewrite length_rev in E|]. exists d, r. split; [done|].
    assert (Hin : d ∈ rev (c :: w)) by (rewrite E; by left). rewrite list_elem_of_In, <-in_rev, <-list_elem_of_In in Hin. rewrite Forall_forall in Hp. by apply Hp. }
  destruct Hr as (d & r & Hr & Hd). rewrite Hr. change (rev [byte_of 32] ++ d :: r) with (byte_of 32 :: d :: r).
  unfold trim_left. cbn [length trim_fuel]. change (match_prefix (map (@rev _) spaces) (byte_of 32 :: d :: r)) with (Some 1%nat).
  cbn [drop]. rewrite plain_spaces_rev by done. rewrite <-Hr. apply rev_involutive.
Qed.

Lemma space_prefix s : match_prefix spaces (byte_of 32 :: s) = Some 1%nat.
Proof. by destruct s. Qed.

Lemma fields_word fuel w s cur :
  Forall plain w → fields_loop (length w + fuel) (w ++ s) cur = fields_loop fuel s (cur ++ w).
Proof.
  intros Hw. revert cur. induction Hw as [|c w Hc _ IH]; intros cur; [by rewrite app_nil_r|].
  cbn [length Nat.add app fields_loop]. rewrite plain_spaces by done. rewrite IH. by rewrite <-app_assoc.
Qed.

(** Words, each behind a space, and a line feed. *)
Definition spaced (ws : list gostring) : gostring := concat (map (cons (byte_of 32)) ws) ++ [newline].

Lemma Fields_spaced ws : Forall word ws → Fields (spaced ws) = ws.
Proof.
  intros Hws. unfold Fields. assert (Hg : ∀ fuel cur, (length (spaced ws) < fuel)%nat →
    fields_loop fuel (spaced ws) cur = flush_word cur ++ ws); [|by apply (Hg _ []); lia].
  induction Hws as [|w ws [Hne Hw] _ IH]; intros fuel cur Hf.
  - destruct fuel as [|[|fuel]]; [simpl in Hf; lia..|]. done.
  - unfold spaced in *. cbn [map concat] in *. rewrite <-!app_assoc in *. cbn [app] in *. rewrite !length_app in IH. simpl in Hf. rewrite !length_app in Hf.
    destruct fuel as [|fuel]; [lia|]. cbn [fields_loop]. rewrite space_prefix. cbn [drop]. rewrite drop_0. f_equal.
    replace fuel with (length w + (fuel - length w))%nat by lia. rewrite fields_word by done. rewrite app_nil_l, IH by lia. by destruct w.
Qed.

(** ** Numbers *)
Lemma ParseUint_FormatInt n : in_u64 n → ParseUint (FormatInt n) = Some n.
Proof.
  intros Hn. unfold in_u64 in Hn. unfold FormatInt, ParseUint. destruct (Z.ltb_spec n 0); [lia|].
  destruct (format_uint_spec n ltac:(lia)) as (Ha & Hv & Hne & _). destruct (format_uint n) as [|c s] eqn:E; [done|].
  rewrite read_dec_value, Hv by done. cbn. by destruct (Z.ltb_spec n (2 ^ 64)); [|lia].
Qed.

Lemma FormatInt_word n : word (FormatInt n).
Proof.
  assert (Hd : ∀ m, 0 ≤ m → word (format_uint m)).
  { intros m Hm. destruct (format_uint_spec m Hm) as (Ha & _ & Hne & _). split; [done|]. eapply Forall_impl; [exact Ha|].
    intros c Hc. unfold is_dec in Hc. unfold plain. lia. }
  unfold FormatInt. destruct (Z.ltb_spec n 0); [|by apply Hd]. split; [done|]. constructor; [by vm_compute|].
  apply Hd. lia.
Qed.

Lemma IndexByte_app a c b : c ∉ a → IndexByte (a ++ c :: b) c = Some (length a).
Proof.
  induction a as [|d a IH]; intros Hn; simpl; [by rewrite bool_decide_true|].
  rewrite not_elem_of_cons in Hn. destruct Hn as [Hd Ha]. rewrite bool_decide_false by congruence. by rewrite IH.
Qed.

(** ** stat *)

(** The texts of the fields from the third on; 21 is not kept. *)
Definition stat_words (s : Stat) (itrealvalue : Z) (more : list gostring) : list gostring :=
  [st_State s] :: map FormatInt
    [st_PPID s; st_PGRP s; st_Session s; st_TTYNr s; st_TPGID s; st_Flags s; st_Minflt s; st_Cminflt s; st_Majflt s; st_Cmajflt s;
     st_Utime s; st_Stime s; st_Cutime s; st_Cstime s; st_Priority s; st_Nice s; st_NumThreads s; itrealvalue; st_Starttime s;
     st_Vsize s; st_Rss s] ++ more.

(** The line the kernel prints. *)
Definition print_stat (s : Stat) (itrealvalue : Z) (more : list gostring) : gostring :=
  FormatInt (st_PID s) ++ str " (" ++ st_Comm s ++ str ")" ++ spaced (stat_words s itrealvalue more).

Definition stat_ok (s : Stat) : Prop :=
  (plain (st_State s) ∧ st_State s ≠ byte_of 41)
  ∧ Forall in_i64 [st_PID s; st_PPID s; st_PGRP s; st_Session s; st_TTYNr s; st_TPGID s; st_Cutime s; st_Cstime s; st_Priority s;
                   st_Nice s; st_NumThreads s; st_Rss s]
  ∧ Forall in_u64 [st_Flags s; st_Minflt s; st_Cminflt s; st_Majflt s; st_Cmajflt s; st_Utime s; st_Stime s; st_Starttime s; st_Vsize s].

(** Numbers of the fields, found at their places. *)
Lemma number_fields_format parse f places (ns : list Z) :
  Forall2 (λ p n, f !! (p - 3)%nat = Some (FormatInt n)) places ns → Forall (λ n, parse (FormatInt n) = Some n) ns →
  number_fields parse f places = Some ns.
Proof.
  induction 1 as [|p n places ns Hp _ IH]; intros Hns; [done|]. inversion Hns as [|? ? Hn Hns']; subst.
  cbn [number_fields]. rewrite Hp. cbn. rewrite Hn. cbn. by rewrite IH.
Qed.

Lemma words_fresh x ws : x ≠ byte_of 32 → x ≠ newline → Forall (λ w, x ∉ w) ws → x ∉ spaced ws.
Proof.
  intros H32 Hn Hws. unfold spaced. rewrite elem_of_app, list_elem_of_singleton. intros [Hin|Hin]; [|done].
  induction Hws as [|w ws Hw _ IH]; [by apply not_elem_of_nil in Hin|]. cbn [map concat] in Hin.
  apply elem_of_app in Hin as [Hin|Hin]; [|by apply IH]. apply elem_of_cons in Hin as [|Hin]; done.
Qed.

Lemma FormatInt_fresh x n : (code x = 40 ∨ code x = 41) → x ∉ FormatInt n.
Proof.
  intros Hx. assert (Hd : ∀ m, 0 ≤ m → x ∉ format_uint m).
  { intros m Hm. apply dec_fresh; [|by apply format_uint_spec]. unfold is_dec. lia. }
  unfold FormatInt. destruct (Z.ltb_spec n 0); [|by apply Hd]. rewrite not_elem_of_cons. split; [|apply Hd; lia].
  intros ->. vm_compute in Hx. by destruct Hx.
Qed.

(** The name of the command ends at the last parenthesis. *)
Lemma comm_split pid comm rest :
  byte_of 40 ∉ pid → byte_of 41 ∉ rest →
  let b := pid ++ str " (" ++ comm ++ str ")" ++ rest in
  ∃ o e, IndexByte b (byte_of 40) = Some o ∧ LastIndexByte b (byte_of 41) = Some e ∧ (e <? o)%nat = false
    ∧ take o b = pid ++ [byte_of 32] ∧ drop (e + 1) b = rest ∧ take (e - (o + 1)) (drop (o + 1) b) = comm.
Proof.
  intros Hp Hr b. assert (Hs1 : b = (pid ++ [byte_of 32]) ++ byte_of 40 :: comm ++ str ")" ++ rest) by (unfold b; by rewrite <-!app_assoc).
  assert (Hs2 : b = (pid ++ str " (" ++ comm) ++ byte_of 41 :: rest) by (unfold b; by rewrite <-!app_assoc).
  exists (length (pid ++ [byte_of 32])), (length (pid ++ str " (" ++ comm)). split_and!.
  - rewrite Hs1. apply IndexByte_app. rewrite elem_of_app, list_elem_of_singleton. by intros [Hx|Hx].
  - rewrite Hs2. by apply LastIndexByte_app.
  - apply Nat.ltb_ge. rewrite !length_app. simpl. lia.
  - rewrite Hs1. apply take_app_length.
  - rewrite Hs2, drop_app_ge by lia. by rewrite Nat.add_comm, Nat.add_sub.
  - rewrite Hs1, drop_app_ge by lia. rewrite (Nat.add_comm _ 1), Nat.add_sub. cbn [drop]. rewrite drop_0, !length_app. simpl.
    replace (length pid + S (S (length comm)) - S (length pid + 1))%nat with (length comm) by lia. apply take_app_length.
Qed.

Lemma stat_numbers s itrealvalue more :
  stat_ok s → let ws := stat_words s itrealvalue more in
  number_fields ParseInt ws [4; 5; 6; 7; 8]%nat = Some [st_PPID s; st_PGRP s; st_Session s; st_TTYNr s; st_TPGID s]
  ∧ number_fields ParseInt ws [16; 17; 18; 19; 20; 24]%nat
    = Some [st_Cutime s; st_Cstime s; st_Priority s; st_Nice s; st_NumThreads s; st_Rss s]
  ∧ number_fields ParseUint ws [9; 10; 11; 12; 13; 14; 15; 22; 23]%nat
    = Some [st_Flags s; st_Minflt s; st_Cminflt s; st_Majflt s; st_Cmajflt s; st_Utime s; st_Stime s; st_Starttime s; st_Vsize s].
Proof.
  intros (_ & Hi & Hu) ws. rewrite Forall_forall in Hi, Hu.
  split_and!; (apply number_fields_format; [by repeat constructor|]); apply Forall_forall; intros n Hn.
  - apply ParseInt_FormatInt, Hi. set_solver.
  - apply ParseInt_FormatInt, Hi. set_solver.
  - by apply ParseUint_FormatInt, Hu.
Qed.

Lemma stat_words_ok s itrealvalue more :
  stat_ok s → Forall (λ w, word w ∧ byte_of 41 ∉ w) more → Forall (λ w, word w ∧ byte_of 41 ∉ w) (stat_words s itrealvalue more).
Proof.
  intros ([Hst Hst2] & _ & _) Hmore. constructor; [by split; [split; [|constructor]|rewrite list_elem_of_singleton]|].
  apply Forall_app. split; [|done]. apply Forall_fmap, Forall_true. intros n. split; [apply FormatInt_word|].
  apply FormatInt_fresh. by right.
Qed.

(** A line of /proc/<pid>/stat is read back: for every record of fields within their
    types, whatever the command is called (with spaces, parentheses or line feeds in
    it), and whatever words without a closing parenthesis follow the fields that are
    kept, ParseStat of the line the kernel prints gives the record. *)
Theorem stat_roundtrip s itrealvalue more :
  stat_ok s → Forall (λ w, word w ∧ byte_of 41 ∉ w) more → ParseStat (print_stat s itrealvalue more) = inl s.
Proof.
  intros Hok Hmore. pose proof (stat_words_ok s itrealvalue more Hok Hmore) as Hws. apply Forall_and in Hws as [Hw Hf].
  destruct (comm_split (FormatInt (st_PID s)) (st_Comm s) (spaced (stat_words s itrealvalue more))) as (o & e & Ho & He & Hlt & Hpid & Hrest & Hcomm).
  { apply FormatInt_fresh. by left. }
  { by apply words_fresh. }
  destruct (stat_numbers s itrealvalue more Hok) as (N1 & N2 & N3). destruct Hok as (_ & Hi & _).
  unfold ParseStat, print_stat. rewrite Ho, He, Hlt, Hpid, Hrest, Hcomm.
  rewrite TrimSpace_word by apply FormatInt_word. rewrite ParseInt_FormatInt by (by inversion Hi). rewrite Fields_spaced by done. cbv zeta.
  assert ((len (stat_words s itrealvalue more) <? statFieldsAfterComm) = false) as ->.
  { apply Z.ltb_ge. unfold stat_words, len. rewrite length_cons, length_app, List.length_map. simpl. unfold statFieldsAfterComm. lia. }
  rewrite N1, N2, N3. unfold stat_words. by destruct s.
Qed.

(** ** Paths *)

(** An element of a path that names something below it. *)
Definition inner (e : gostring) : Prop := e ≠ [] ∧ e ≠ dot ∧ e ≠ dotdot ∧ slash ∉ e.

Definition abs_path (es : list gostring) : gostring := slash :: join [slash] es.

Lemma split_sep sep a b : split_byte sep (a ++ sep :: b) = split_byte sep a ++ split_byte sep b.
Proof.
  induction a as [|c a IH]; cbn [app split_byte].
  - by rewrite bool_decide_true.
  - case_bool_decide; [by rewrite IH|]. rewrite IH. pose proof (split_byte_ne sep a). by destruct (split_byte sep a).
Qed.

Lemma split_join_fresh sep es : es ≠ [] → Forall (λ e, sep ∉ e) es → split_byte sep (join [sep] es) = es.
Proof.
  intros Hne Hes. induction Hes as [|e es He Hes IH]; [done|]. destruct es as [|e' es]; [by apply split_byte_fresh|].
  change (join [sep] (e :: e' :: es)) with (e ++ sep :: join [sep] (e' :: es)). rewrite split_byte_app by done. by rewrite IH.
Qed.

Lemma clean_inner b st es : Forall inner es → foldl (clean_step b) st es = rev es ++ st.
Proof.
  intros Hes. revert st. induction Hes as [|e es (H1 & H2 & H3 & _) _ IH]; intros st; [done|]. cbn [foldl rev]. rewrite IH, <-app_assoc.
  f_equal. cbn [app]. unfold clean_step, gostring_eqb. by rewrite !bool_decide_false.
Qed.

Lemma clean_keeps_inner st es : Forall inner st → Forall (λ e, slash ∉ e) es → Forall inner (foldl (clean_step true) st es).
Proof.
  intros Hst Hes. revert st Hst. induction Hes as [|e es He _ IH]; intros st Hst; [done|]. cbn [foldl]. apply IH.
  unfold clean_step, gostring_eqb. destruct (bool_decide (e = [])) eqn:E1; [done|]. destruct (bool_decide (e = dot)) eqn:E2; [done|]. cbn [orb].
  apply bool_decide_eq_false in E1, E2.
  case_bool_decide as E3.
  - destruct Hst as [|top st Ht Hst]; [done|]. rewrite bool_decide_false; [done|]. by destruct Ht as (_ & _ & ? & _).
  - by constructor.
Qed.

Lemma elements_inner path : is_rooted path = true → Forall inner (elements path).
Proof.
  intros Hr. unfold elements. rewrite Hr. apply Forall_rev, clean_keeps_inner; [constructor|apply split_parts].
Qed.

Lemma PathClean_rooted path : is_rooted path = true → PathClean path = abs_path (elements path).
Proof. intros Hr. unfold PathClean. by rewrite Hr. Qed.

Lemma split_abs_path es : Forall inner es → split_byte slash (abs_path es) = [] :: match es with [] => [[]] | _ => es end.
Proof.
  intros Hes. unfold abs_path. cbn [split_byte]. rewrite bool_decide_true by done. f_equal. destruct es as [|e es]; [done|].
  apply split_join_fresh; [done|]. eapply Forall_impl; [exact Hes|]. by intros x (_ & _ & _ & ?).
Qed.

Lemma clean_abs b st es : Forall inner es → foldl (clean_step b) st (split_byte slash (abs_path es)) = rev es ++ st.
Proof.
  intros Hes. rewrite split_abs_path by done. cbn [foldl]. change (clean_step b st []) with st.
  destruct es as [|e es]; [done|]. by apply clean_inner.
Qed.

(** A part without separators. *)
Lemma clean_part b st c : c = [] ∨ inner c → foldl (clean_step b) st (split_byte slash c) = match c with [] => st | _ => c :: st end.
Proof.
  intros [->|Hc]; [done|]. pose proof Hc as (H1 & _ & _ & Hs). rewrite split_byte_fresh by done.
  rewrite clean_inner by (by constructor). by destruct c.
Qed.

Lemma join_contained root c es :
  is_rooted root = true → c = [] ∨ inner c → Forall inner es →
  PathJoin [root; c; abs_path es] = abs_path (elements root ++ match c with [] => [] | _ => [c] end ++ es).
Proof.
  intros Hr Hc Hes. destruct root as [|x root]; [done|]. set (p := x :: root) in *.
  change (PathJoin [p; c; abs_path es]) with (PathClean (p ++ slash :: (c ++ slash :: abs_path es))).
  assert (Hrooted : is_rooted (p ++ slash :: (c ++ slash :: abs_path es)) = true) by exact Hr.
  rewrite PathClean_rooted by done. f_equal. unfold elements. rewrite Hrooted, Hr, !split_sep, !foldl_app, clean_abs by done.
  rewrite clean_part by done. rewrite rev_app_distr, rev_involutive. destruct c; [done|]. cbn [rev]. by rewrite <-app_assoc.
Qed.

Lemma join_two root c :
  is_rooted root = true → c = [] ∨ inner c →
  PathJoin [root; c] = abs_path (elements root ++ match c with [] => [] | _ => [c] end).
Proof.
  intros Hr Hc. destruct root as [|x root]; [done|]. set (p := x :: root) in *.
  change (PathJoin [p; c]) with (PathClean (p ++ slash :: c)). rewrite PathClean_rooted by exact Hr. f_equal.
  unfold elements. change (is_rooted (p ++ slash :: c)) with (is_rooted p). rewrite Hr, split_sep, foldl_app, clean_part by done.
  destruct c; [by rewrite app_nil_r|]. done.
Qed.

(** The directory of a cgroup lies below the mount: whatever path the file
    /proc/<pid>/cgroup names, dots and all, and for mount names that are single
    elements, a directory cgroupDir finds is the mount followed by elements none of
    which is empty, a dot, two dots or has a separator in it. *)
Theorem cgroup_dir_contained os r pid cgPath controllers dir :
  is_rooted (cgroupRoot r) = true → Forall (λ c, c = [] ∨ inner c) controllers →
  cgroupDir os r pid cgPath controllers = Some dir →
  IsDir os dir = true ∧ ∃ l, dir = abs_path (elements (cgroupRoot r) ++ l) ∧ Forall inner l.
Proof.
  intros Hr Hcs Hd. unfold cgroupDir in Hd. cbv zeta in Hd.
  set (cs := match controllers with [] => [[]] | _ => controllers end : list gostring).
  assert (Hcs' : Forall (λ c, c = [] ∨ inner c) cs) by (destruct controllers; [by constructor; [left|]|done]).
  set (E := elements (slash :: cgPath)). assert (HE : Forall inner E) by (by apply elements_inner).
  assert (Hpart : ∀ c, c = [] ∨ inner c → Forall inner (match c with [] => [] | _ => [c] end)).
  { intros c [->|Hc]; [constructor|]. destruct c; [constructor|by constructor]. }
  rewrite Forall_forall in Hcs'. match type of Hd with context [find ?f ?l] => destruct (find f l) as [d|] eqn:Ef end.
  - injection Hd as ->. apply find_some in Ef as [Hin Hdir]. split; [done|]. apply in_map_iff in Hin as (c & <- & Hc).
    apply list_elem_of_In in Hc. specialize (Hcs' c Hc). unfold cgroup_path. rewrite PathClean_rooted by done. fold E.
    rewrite join_contained by done. eexists. split; [done|]. apply Forall_app. split; [by apply Hpart|done].
  - destruct (pid =? self os r); [|done]. apply find_some in Hd as [Hin Hdir]. split; [done|]. apply in_map_iff in Hin as (c & <- & Hc).
    apply list_elem_of_In in Hc. specialize (Hcs' c Hc). rewrite join_two by done. eexists. split; [done|]. by apply Hpart.
Qed.

(** ** Examples *)
Definition demo_stat : Stat :=
  mkStat 42 (str "a) (b") (byte_of 83) 1 42 42 0 (-1) 4194304 100 0 7 0 250 31 0 0 20 0 9 8675 1048576 312.

Lemma stat_roundtrip_witness :
  print_stat demo_stat 0 [str "18446744073709551615"]
    = str "42 (a) (b) S 1 42 42 0 -1 4194304 100 0 7 0 250 31 0 0 20 0 9 0 8675 1048576 312 18446744073709551615" ++ [newline]
  ∧ ParseStat (print_stat demo_stat 0 [str "18446744073709551615"]) = inl demo_stat.
Proof.
  split; [vm_compute; reflexivity|]. apply stat_roundtrip.
  - split; [split; [by vm_compute|done]|]. split; repeat constructor; vm_compute; done.
  - constructor; [|constructor]. split; [split; [done|]|]; apply (bool_decide_unpack _); vm_compute; exact I.
Defined.

(** A container whose file names a path with dots. *)
Definition demo_os : OS :=
  mkOS (λ p, if gostring_eqb p (str "/proc/42/cgroup") then inl (str "0::/../../etc") else inr (ErrIs ErrNotExist))
    (λ p, gostring_eqb p (str "/sys/fs/cgroup/etc")) (λ _, inr (ErrIs ErrNotExist)) 42.

Lemma cgroup_dir_contained_witness :
  v2_dir demo_os Default 42 [mkCGroup 0 [] (str "/../../etc")] = Some (str "/sys/fs/cgroup/etc")
  ∧ ∃ l, str "/sys/fs/cgroup/etc" = abs_path (elements (cgroupRoot Default) ++ l) ∧ Forall inner l.
Proof.
  split; [vm_compute; reflexivity|].
  apply (cgroup_dir_contained demo_os Default 42 (str "/../../etc") [[]] (str "/sys/fs/cgroup/etc")).
  - vm_compute. reflexivity.
  - constructor; [by left|constructor].
  - vm_compute. reflexivity.
Defined.

Example demo_limits :
  match ParseLimits (str "Limit                     Soft Limit           Hard Limit           Units
Max cpu time              unlimited            unlimited            seconds
Max open files            1024                 4096                 files
") with
  | inl l => limit_of l "Max open files" = mkLimit (str "Max open files") 1024 4096 (str "files")
             ∧ li_Soft (limit_of l "Max cpu time") = Unlimited ∧ limit_of l "Max processes" = no_limit
  | inr _ => False
  end.
Proof. vm_compute. done. Qed.

Example demo_cgroups :
  ParseCGroups (str "3:cpu,cpuacct:/a
1:name=systemd:/b
0::/c
") = inl [mkCGroup 3 (str "cpu") (str "/a"); mkCGroup 3 (str "cpuacct") (str "/a"); mkCGroup 1 (str "systemd") (str "/b"); mkCGroup 0 [] (str "/c")]
  ∧ ReadCPUConfig demo_os Default 42 = inl no_cpu_config.
Proof. split; vm_compute; reflexivity. Qed.
