(* ===== verification/Runtime.v ===== *)
(** * Runtime and process metrics (runtimemetrics/collector.go, memstats.go, process.go,
      process_cpu.go, process_linux.go, delay_collect.go, multi.go)

    A collection reads the runtime's samples, the files of the process and the delays of
    the kernel, all given by an [env], and yields the metrics it records and the errors
    it reports in their order, with the state it keeps for the next one.

    The theorems are about runs of collections: every failing source is reported at most
    once ([collector_reports_once]), a counter of delays adds up to what the kernel
    counted ([delay_counters_add_up]), the pauses shown are those since the last
    collection ([pause_deltas_add_up]), and no value of a sample that is recorded is
    infinite or not a number ([sample_values_finite]). *)

From S2P Require Import Prelude GoLib Strconv Strings Attribute Metric Config Procfs Netlink.

(** ** Names (collector.go, memstats.go) *)
Definition getMappings : list (gostring * list gostring) :=
  map (λ m : string * list string, (str m.1, map str m.2))
    [("/memory/classes/heap/objects:bytes", ["memory.heap.alloc"]);
     ("/memory/classes/heap/released:bytes", ["memory.heap.released"]);
     ("/memory/classes/total:bytes", ["memory.sys"]);
     ("/memory/classes/heap/stacks:bytes", ["memory.stack.inuse"]);
     ("/gc/heap/allocs:bytes", ["heap.allocs.bytes"]);
     ("/gc/heap/frees:bytes", ["heap.frees.bytes"]);
     ("/gc/heap/allocs:objects", ["heap.allocs.objects"]);
     ("/gc/heap/frees:objects", ["heap.frees.objects"]);
     ("/gc/heap/objects:objects", ["heap.objects.live"]);
     ("/gc/heap/goal:bytes", ["heap.goal.bytes"; "gc.next.bytes"]);
     ("/gc/cycles/total:gc-cycles", ["gc.cycles.total"]);
     ("/cpu/classes/gc/total:cpu-seconds", ["gc.cpu.seconds"; "cpu.gc.seconds"]);
     ("/sched/goroutines:goroutines", ["goroutines"]);
     ("/cgo/go-to-c-calls:calls", ["cgo.calls"]);
     ("/cpu/classes/total:cpu-seconds", ["cpu.total.seconds"]);
     ("/cpu/classes/user:cpu-seconds", ["cpu.user.seconds"]);
     ("/cpu/classes/idle:cpu-seconds", ["cpu.idle.seconds"]);
     ("/cpu/classes/scavenge/total:cpu-seconds", ["cpu.scavenge.seconds"])]%string.

Definition gcPausesName : gostring := str "/gc/pauses:seconds".

Definition sumValues (vals : list float64) : float64 := foldl fadd f_zero vals.

(** vals[0]/vals[1]; the mapping that uses it has two sources. *)
Definition fractionOf (vals : list float64) : float64 :=
  match vals with
  | [a; b] => if fle b f_zero then f_zero else fdiv a b
  | _ => f_zero
  end.

Record derivedMapping := mkDerived { dm_name : gostring; dm_sources : list gostring; dm_combine : list float64 → float64 }.

Definition getDerivedMappings : list derivedMapping :=
  map (λ m : string * list string * (list float64 → float64), mkDerived (str m.1.1) (map str m.1.2) m.2)
    [("memory.stack.sys", ["/memory/classes/heap/stacks:bytes"; "/memory/classes/os-stacks:bytes"], sumValues);
     ("memory.mspan.inuse", ["/memory/classes/metadata/mspan/inuse:bytes"], sumValues);
     ("memory.mspan.sys", ["/memory/classes/metadata/mspan/inuse:bytes"; "/memory/classes/metadata/mspan/free:bytes"], sumValues);
     ("memory.mcache.inuse", ["/memory/classes/metadata/mcache/inuse:bytes"], sumValues);
     ("memory.mcache.sys", ["/memory/classes/metadata/mcache/inuse:bytes"; "/memory/classes/metadata/mcache/free:bytes"], sumValues);
     ("memory.buckhash.sys", ["/memory/classes/profiling/buckets:bytes"], sumValues);
     ("memory.gc.sys", ["/memory/classes/metadata/other:bytes"], sumValues);
     ("memory.other.sys", ["/memory/classes/other:bytes"], sumValues);
     ("memory.heap.inuse", ["/memory/classes/heap/objects:bytes"; "/memory/classes/heap/unused:bytes"], sumValues);
     ("memory.heap.idle", ["/memory/classes/heap/free:bytes"; "/memory/classes/heap/released:bytes"], sumValues);
     ("memory.alloc", ["/memory/classes/heap/objects:bytes"], sumValues);
     ("memory.heap.sys", ["/memory/classes/heap/objects:bytes"; "/memory/classes/heap/unused:bytes";
                          "/memory/classes/heap/free:bytes"; "/memory/classes/heap/released:bytes"], sumValues);
     ("gc.cpu.fraction", ["/cpu/classes/gc/total:cpu-seconds"; "/cpu/classes/total:cpu-seconds"], fractionOf)]%string.

Definition normalizePrefix (prefix : gostring) : gostring :=
  match list.last prefix with
  | Some c => if bool_decide (c = byte_of 46) then prefix else prefix ++ [byte_of 46]
  | None => prefix
  end.

(** addSample: a name once, with its metric names. *)
Definition addSample (samples : list (gostring * list gostring)) (name : gostring) (names : list gostring) : list (gostring * list gostring) :=
  if bool_decide (name ∈ samples.*1) then samples else samples ++ [(name, names)].

(** The samples New registers. *)
Definition new_samples (prefix : gostring) : list (gostring * list gostring) :=
  let samples := foldl (λ acc m, addSample acc m.1 (map (app prefix) m.2)) [] getMappings in
  let samples := foldl (λ acc d, foldl (λ acc src, addSample acc src []) acc (dm_sources d)) samples getDerivedMappings in
  addSample samples gcPausesName [].

(** ** Values *)
Record Float64Histogram := mkFloat64Histogram { hh_Counts : list Z; hh_Buckets : list float64 }.

Inductive metric_value :=
| KindUint64 (n : Z) | KindFloat64 (x : float64) | KindFloat64Histogram (h : option Float64Histogram) | KindBad.

Definition isFinite (v : float64) : bool := negb (is_nan v) && negb (is_inf v).

Definition scalar_value (v : metric_value) : option float64 :=
  match v with
  | KindUint64 n => Some (f_of_Z n)
  | KindFloat64 x => Some x
  | KindFloat64Histogram _ | KindBad => None
  end.

(** What a collection passes on: a metric, or an error of a source. *)
Section collect.
Context `{Attributes}.

Inductive event :=
| Recorded (name : gostring) (typ : MetricType) (v : float64) (attrs : list KeyValue)
| Reported (source : gostring) (err : error).

(** ** GC pauses (memstats.go) *)
Record pauseTracker := mkPauses { p_counts : option (list Z); p_buckets : list float64 }.

(** The loop of delta; [None] when a count went backwards. *)
Fixpoint diff_counts (cur prev : list Z) : option (list Z) :=
  match cur, prev with
  | c :: cur', b :: prev' => if c <? b then None else ds ← diff_counts cur' prev'; Some (c - b :: ds)
  | _, _ => Some []
  end.

Definition delta (p : pauseTracker) (h : option Float64Histogram) : pauseTracker * option (list Z * list float64) :=
  match h with
  | None => (p, None)
  | Some h =>
      if negb (len (hh_Buckets h) =? len (hh_Counts h) + 1) then (p, None)
      else
        let cur := hh_Counts h in
        let p' := mkPauses (Some cur) (hh_Buckets h) in
        match p_counts p with
        | None => (p', Some (cur, hh_Buckets h))
        | Some prev =>
            if negb (len prev =? len cur) then (p', None)
            else (p', counts ← diff_counts cur prev; Some (counts, hh_Buckets h))
        end
  end.

Definition bucketMid (lo hi : float64) : float64 :=
  if is_inf lo then hi else if is_inf hi then lo else fdiv (fadd lo hi) (f_of_Z 2).

(** The loop of pauseStats: the count, the weighted sum, and the bounds of the first and
    of the last bucket that is not empty. *)
Record pause_sum := mkPauseSum { ps_total : Z; ps_weighted : float64; ps_first : option (float64 * float64); ps_last : option (float64 * float64) }.

Fixpoint pause_loop (counts : list Z) (buckets : list float64) (acc : pause_sum) : pause_sum :=
  match counts, buckets with
  | c :: counts', lo :: ((hi :: _) as buckets') =>
      let acc :=
        if c =? 0 then acc
        else mkPauseSum (u64 (ps_total acc + c)) (fadd (ps_weighted acc) (fmul (f_of_Z c) (bucketMid lo hi)))
               (match ps_first acc with Some b => Some b | None => Some (lo, hi) end) (Some (lo, hi)) in
      pause_loop counts' buckets' acc
  | _, _ => acc
  end.

Definition pauseStats (counts : list Z) (buckets : list float64) : option (float64 * float64 * float64) :=
  let acc := pause_loop counts buckets (mkPauseSum 0 f_zero None None) in
  if ps_total acc =? 0 then None
  else
    match ps_first acc, ps_last acc with
    | Some (flo, fhi), Some (llo, lhi) =>
        let minV := if is_inf flo then fhi else flo in
        let maxV := if is_inf lhi then llo else lhi in
        let avg := fdiv (ps_weighted acc) (f_of_Z (ps_total acc)) in
        if negb (isFinite minV) || negb (isFinite maxV) || negb (isFinite avg) then None else Some (minV, maxV, avg)
    | _, _ => None
    end.

Section config.
Context (prefix : gostring) (onError : bool).

Definition gauge (name : string) (v : float64) (attrs : list KeyValue) : event := Recorded (prefix ++ str name) MetricTypeGauge v attrs.
Definition typeAttr (v : string) : KeyValue := String_kv (str "type") (str v).
Definition report (source : string) (err : error) : list event := if onError then [Reported (str source) err] else [].

Definition recordPauseStats (p : pauseTracker) (h : option Float64Histogram) : pauseTracker * list event :=
  let '(p, d) := delta p h in
  match (cb ← d; pauseStats cb.1 cb.2) with
  | Some (minV, maxV, avg) =>
      (p, [gauge "gc.pause.seconds.min" minV []; gauge "gc.pause.seconds.max" maxV []; gauge "gc.pause.seconds.avg" avg []])
  | None => (p, [])
  end.

(** ** Samples (collector.go) *)
Definition scalar (samples : list (gostring * list gostring)) (read : gostring → metric_value) (name : gostring) : option float64 :=
  if bool_decide (name ∈ samples.*1)
  then v ← scalar_value (read name); if isFinite v then Some v else None
  else None.

Fixpoint scalars (samples : list (gostring * list gostring)) (read : gostring → metric_value) (sources : list gostring) : option (list float64) :=
  match sources with
  | [] => Some []
  | src :: rest => v ← scalar samples read src; vs ← scalars samples read rest; Some (v :: vs)
  end.

Definition derived_event samples read (d : derivedMapping) : list event :=
  match scalars samples read (dm_sources d) with
  | Some vals => let v := dm_combine d vals in
                 if isFinite v then [Recorded (prefix ++ dm_name d) MetricTypeGauge v []] else []
  | None => []
  end.

Definition recordDerived samples read : list event := concat (map (derived_event samples read) getDerivedMappings).

Definition sample_events (read : gostring → metric_value) (s : gostring * list gostring) : list event :=
  match scalar_value (read s.1) with
  | Some v => if is_nan v || is_inf v then [] else map (λ name, Recorded name MetricTypeGauge v []) s.2
  | None => []
  end.

(** ** Process metrics (process.go, process_cpu.go) *)
Definition procStatPath : string := "/proc/self/stat".
Definition procStatusPath : string := "/proc/self/status".
Definition procLimitsPath : string := "/proc/self/limits".
Definition procMeminfoPath : string := "/proc/meminfo".
Definition procStatmPath : string := "/proc/self/statm".
Definition procFDDir : string := "/proc/self/fd".
Definition cgroupMemoryMax : string := "/sys/fs/cgroup/memory.max".
Definition errNoOpenFilesLimit : error := ErrText (str "no open files limit in /proc/self/limits").

Record processSource := mkSource {
  src_readFile : gostring → gostring + error; src_countDir : gostring → Z + error; src_cpuConfig : option (CPUConfig + error) }.

Record processState := mkProcess {
  prevUser : float64; prevSys : float64; prevCPU : float64; prevWall : Z; havePrev : bool; cores : float64;
  resident : option Z; total_ : option Z; reported : gset gostring }.

Definition new_process : processState := mkProcess f_zero f_zero f_zero 0 false f_zero None None ∅.

Definition set_cores (p : processState) (x : float64) : processState :=
  mkProcess (prevUser p) (prevSys p) (prevCPU p) (prevWall p) (havePrev p) x (resident p) (total_ p) (reported p).
Definition set_memory (p : processState) (res tot : option Z) : processState :=
  mkProcess (prevUser p) (prevSys p) (prevCPU p) (prevWall p) (havePrev p) (cores p) res tot (reported p).
Definition set_reported (p : processState) (r : gset gostring) : processState :=
  mkProcess (prevUser p) (prevSys p) (prevCPU p) (prevWall p) (havePrev p) (cores p) (resident p) (total_ p) r.

Definition processFail (p : processState) (path : string) (err : error) : processState * list event :=
  if bool_decide (str path ∈ reported p) then (p, [])
  else (set_reported p ({[str path]} ∪ reported p), report "process" (ErrWrap (str path) err)).

(** The environment of the process part. *)
Record process_env := mkProcessEnv { pe_src : processSource; pe_now : Z; pe_gomaxprocs : Z; pe_pagesize : Z }.

Definition hundred : float64 := f_of_Z 100.
Definition percent (cur prev wall capacity : float64) : float64 := fmul (fdiv (fdiv (fsub cur prev) wall) capacity) hundred.

Definition emitCPU (e : process_env) (p : processState) (user system : float64) : processState * list event :=
  let total := fadd user system in
  let now := pe_now e in
  let base := [gauge "cpu.usage.seconds" user [typeAttr "user"]; gauge "cpu.usage.seconds" system [typeAttr "system"];
               gauge "cpu.usage_total.seconds" total []] in
  let wall := Seconds (Sub now (prevWall p)) in
  let more :=
    if havePrev p && (flt f_zero wall && fle (prevCPU p) total && fle (prevUser p) user && fle (prevSys p) system) then
      let gomax := f_of_Z (pe_gomaxprocs e) in
      let capacity := if flt f_zero (cores p) then cores p else gomax in
      [gauge "cpu.usage.percent" (percent total (prevCPU p) wall gomax) [];
       gauge "cpu.usage_user.percent" (percent user (prevUser p) wall capacity) [];
       gauge "cpu.usage_system.percent" (percent system (prevSys p) wall capacity) [];
       gauge "cpu.usage_total.percent" (percent total (prevCPU p) wall capacity) []]
    else [] in
  (mkProcess user system total now true (cores p) (resident p) (total_ p) (reported p), base ++ more).

Definition collectCgroupCPU (e : process_env) (p : processState) : processState * list event :=
  let p := set_cores p f_zero in
  match src_cpuConfig (pe_src e) with
  | None => (p, [])
  | Some (inr err) =>
      if negb (errors_is ErrNoCPUCgroup err) && negb (errors_is ErrNotExist err) then processFail p "cgroup.cpu" err else (p, [])
  | Some (inl cfg) =>
      let period := if 0 <? cc_Period cfg then [gauge "cpu.cgroup.period.seconds" (Seconds (cc_Period cfg)) []] else [] in
      let quota := if 0 <? cc_Quota cfg then [gauge "cpu.cgroup.quota.seconds" (Seconds (cc_Quota cfg)) []] else [] in
      let p := if (0 <? cc_Quota cfg) && (0 <? cc_Period cfg)
               then set_cores p (fdiv (Seconds (cc_Quota cfg)) (Seconds (cc_Period cfg))) else p in
      let weight := if 0 <? cc_Weight cfg then [gauge "cpu.cgroup.weight" (f_of_Z (cc_Weight cfg)) []] else [] in
      let shares := if 0 <? cc_Shares cfg then [gauge "cpu.cgroup.shares" (f_of_Z (cc_Shares cfg)) []] else [] in
      (p, period ++ quota ++ weight ++ shares)
  end.

(** A source that is read and parsed, or reported. *)
Definition with_file {A} (e : process_env) (p : processState) (path : string) (parse : gostring → A + error)
    (k : A → processState * list event) : processState * list event :=
  match read_parse (src_readFile (pe_src e) (str path)) parse with
  | inr err => processFail p path err
  | inl a => k a
  end.

Definition collectProcStat (e : process_env) (p : processState) : processState * list event :=
  with_file e p procStatPath ParseStat (λ st,
    let user := fdiv (f_of_Z (st_Utime st)) (f_of_Z clockTicksPerSecond) in
    let system := fdiv (f_of_Z (st_Stime st)) (f_of_Z clockTicksPerSecond) in
    let '(p, cpu) := emitCPU e p user system in
    (p, cpu ++ [gauge "memory.pagefault.count" (f_of_Z (st_Majflt st)) [typeAttr "major"];
                gauge "memory.pagefault.count" (f_of_Z (st_Minflt st)) [typeAttr "minor"];
                gauge "threads.count" (f_of_Z (st_NumThreads st)) []])).

(** A gauge of a key of a status file, if it is there. *)
Definition key_gauge (kv : gmap gostring Z) (key metric typ : string) : list event :=
  match kv !! str key with Some v => [gauge metric (f_of_Z v) [typeAttr typ]] | None => [] end.

Definition collectProcStatus (e : process_env) (p : processState) : processState * list event :=
  with_file e p procStatusPath (λ b, inl (KeyValues b)) (λ kv,
    let p := match kv !! str "VmRSS" with Some v => set_memory p (Some v) (total_ p) | None => p end in
    let shared :=
      match kv !! str "RssFile", kv !! str "RssShmem" with
      | None, None => []
      | f, s => [gauge "memory.usage.bytes" (f_of_Z (u64 (default 0 f + default 0 s))) [typeAttr "shared"]]
      end in
    (p, key_gauge kv "VmRSS" "memory.usage.bytes" "resident" ++ shared
        ++ key_gauge kv "VmExe" "memory.usage.bytes" "text" ++ key_gauge kv "VmData" "memory.usage.bytes" "data"
        ++ key_gauge kv "voluntary_ctxt_switches" "threads.switch.count" "voluntary"
        ++ key_gauge kv "nonvoluntary_ctxt_switches" "threads.switch.count" "involuntary")).

Definition collectStatm (e : process_env) (p : processState) : processState * list event :=
  with_file e p procStatmPath ParseStatm (λ statm,
    (p, [gauge "memory.virtual.bytes" (fmul (f_of_Z (sm_Size statm)) (f_of_Z (pe_pagesize e))) []])).

Definition collectLimits (e : process_env) (p : processState) : processState * list event :=
  with_file e p procLimitsPath ParseLimits (λ l,
    let open_ := limit_of l "Max open files" in
    match li_Name open_ with
    | [] => processFail p procLimitsPath errNoOpenFilesLimit
    | _ => (p, if negb (li_Soft open_ =? Unlimited) then [gauge "files.open.max" (f_of_Z (li_Soft open_)) []] else [])
    end).

Definition collectFDCount (e : process_env) (p : processState) : processState * list event :=
  match src_countDir (pe_src e) (str procFDDir) with
  | inr err => processFail p procFDDir err
  | inl n => (p, [gauge "files.open.count" (f_of_Z n) []])
  end.

Definition collectSystemMemory (e : process_env) (p : processState) : processState * list event :=
  with_file e p procMeminfoPath (λ b, inl (KeyValues b)) (λ kv,
    let available := match kv !! str "MemAvailable" with Some v => [gauge "memory.available.bytes" (f_of_Z v) []] | None => [] end in
    match kv !! str "MemTotal" with
    | None => (p, available)
    | Some total =>
        let total :=
          match read_parse (src_readFile (pe_src e) (str cgroupMemoryMax)) ParseMemoryLimit with
          | inl (Some limit) => if limit <? total then limit else total
          | _ => total
          end in
        (set_memory p (resident p) (Some total), available ++ [gauge "memory.total.bytes" (f_of_Z total) []])
    end).

Definition emitResidentPercent (e : process_env) (p : processState) : processState * list event :=
  match resident p, total_ p with
  | Some res, Some tot =>
      (p, if 0 <? tot then [gauge "memory.usage.percent" (fmul (fdiv (f_of_Z res) (f_of_Z tot)) hundred) [typeAttr "resident"]] else [])
  | _, _ => (p, [])
  end.

(** The parts of a collection in turn. *)
Fixpoint in_turn (e : process_env) (parts : list (process_env → processState → processState * list event)) (p : processState) :
    processState * list event :=
  match parts with
  | [] => (p, [])
  | part :: rest =>
      let '(p, evs) := part e p in
      let '(p, more) := in_turn e rest p in
      (p, evs ++ more)
  end.

Definition procfs_parts : list (process_env → processState → processState * list event) :=
  [collectCgroupCPU; collectProcStat; collectProcStatus; collectStatm; collectLimits; collectFDCount; collectSystemMemory;
   emitResidentPercent].

Definition collectProcfs (e : process_env) (p : processState) : processState * list event :=
  in_turn e procfs_parts (set_memory p None None).

(** ** Delays (delay_collect.go) *)
Record delayState := mkDelay { dl_prev : DelayInfo; dl_disabled : bool }.
Definition no_delays : DelayInfo := mkDelayInfo 0 0 0 0.
Definition new_delay : delayState := mkDelay no_delays false.

Definition delayIncrement (cur prev : Z) : Z := if cur <? prev then Z.max cur 0 else i64 (cur - prev).

(** The counters, with the field each of them shows. *)
Definition delay_fields : list (string * (DelayInfo → Z)) :=
  [("cpu.delay.seconds"%string, d_CPU); ("blockio.delay.seconds"%string, d_BlockIO); ("swapin.delay.seconds"%string, d_SwapIn);
   ("freepages.delay.seconds"%string, d_FreePages)].

Definition collectDelay (d : delayState) (read : DelayInfo + error) : delayState * list event :=
  if dl_disabled d then (d, [])
  else
    match read with
    | inr err => (mkDelay (dl_prev d) true, report "delay" err)
    | inl cur =>
        (mkDelay cur false,
         map (λ f, Recorded (prefix ++ str f.1) MetricTypeCounter (Seconds (delayIncrement (f.2 cur) (f.2 (dl_prev d)))) []) delay_fields)
    end.

(** ** One collection (collector.go) *)
Record Collector := mkCollector {
  c_samples : list (gostring * list gostring); c_pauses : pauseTracker; c_physicalCPUs : Z;
  c_proc : option processState; c_delay : option delayState }.

Record env := mkEnv {
  e_read : gostring → metric_value; e_numCPU : Z; e_process : process_env; e_delay : DelayInfo + error }.

Definition collectOnce (c : Collector) (e : env) : Collector * list event :=
  let samples := c_samples c in
  let runtime := concat (map (sample_events (e_read e)) samples) in
  let derived := recordDerived samples (e_read e) in
  let '(pauses, pause_events) :=
    match e_read e gcPausesName with
    | KindFloat64Histogram h => recordPauseStats (c_pauses c) h
    | _ => (c_pauses c, [])
    end in
  let '(proc, proc_events) :=
    match c_proc c with
    | Some p => let '(p, evs) := collectProcfs (e_process e) p in (Some p, evs)
    | None => (None, [])
    end in
  let '(delay, delay_events) :=
    match c_delay c with
    | Some d => let '(d, evs) := collectDelay d (e_delay e) in (Some d, evs)
    | None => (None, [])
    end in
  let counts :=
    [gauge "gomaxprocs" (f_of_Z (pe_gomaxprocs (e_process e))) []; gauge "cpu.num" (f_of_Z (e_numCPU e)) []]
    ++ (if 0 <? c_physicalCPUs c then [gauge "cpu.physical.num" (f_of_Z (c_physicalCPUs c)) []] else []) in
  (mkCollector samples pauses (c_physicalCPUs c) proc delay,
   runtime ++ derived ++ pause_events ++ proc_events ++ delay_events ++ counts).

End config.

(** New; [supported] says whether the platform has process metrics. *)
Definition New (cfg : RuntimeMetricsConfig) (supported : bool) (physicalCPUs : Z) : Collector :=
  mkCollector (new_samples (normalizePrefix (Prefix cfg))) (mkPauses None []) physicalCPUs
    (if ProcessMetrics cfg && supported then Some new_process else None)
    (if DelayMetrics cfg then Some new_delay else None).

(** ** The sources on Linux (process_linux.go, cpucount_linux.go) *)
Definition countDirEntries (os : OS) (path : gostring) : Z + error :=
  match Readdirnames os path with
  | inr err => inr err
  | inl names => let n := len names in inl (if gostring_eqb path (str procFDDir) && (0 <? n) then n - 1 else n)
  end.

Definition newProcessSource (os : OS) : processSource :=
  mkSource (ReadFile os) (countDirEntries os) (Some (ReadCPUConfig os Default (Getpid os))).

Definition physicalCPUCount (os : OS) : Z :=
  match ReadFile os (str "/proc/cpuinfo") with
  | inr _ => 0
  | inl b => default 0 (parseCPUInfoPhysical b)
  end.

(** ** Collectors combined (multi.go) *)

(** What one Collect does: the events it records, and whether it ends in a panic. *)
Record collection := mkCollection { cl_events : list event; cl_panics : bool }.

(** MultiCollector: a nil collector is skipped, a panic ends the round. *)
Fixpoint MultiCollector (collectors : list (option collection)) : collection :=
  match collectors with
  | [] => mkCollection [] false
  | None :: rest => MultiCollector rest
  | Some c :: rest =>
      if cl_panics c then mkCollection (cl_events c) true
      else let r := MultiCollector rest in mkCollection (cl_events c ++ cl_events r) (cl_panics r)
  end.

Definition collector_panic : error := ErrText (str "runtimemetrics: collector panic").

(** safeCollect: the panic is turned into an error for [onError]. *)
Definition safeCollect (onError : bool) (c : collection) : list event * list error :=
  (cl_events c, if cl_panics c && onError then [collector_panic] else []).

Fixpoint MultiCollectorWith (onError : bool) (collectors : list (option collection)) : list event * list error :=
  match collectors with
  | [] => ([], [])
  | None :: rest => MultiCollectorWith onError rest
  | Some c :: rest =>
      let '(evs, errs) := safeCollect onError c in
      let '(evs', errs') := MultiCollectorWith onError rest in
      (evs ++ evs', errs ++ errs')
  end.
End collect.
