(* ===== verification/RuntimeCorrect.v ===== *)
(** * Runtime and process metrics: theorems

    About runs of collections by one collector: [collector_reports_once],
    [delay_counters_add_up], [pause_deltas_add_up], [sample_values_finite]. *)

From S2P Require Import Prelude GoLib Strconv Strings Attribute Metric Config Procfs Netlink Runtime.

Section run.
Context `{Attributes} (prefix : gostring) (onError : bool).

(** A run: the collector after it and all its events. *)
Fixpoint collections (c : Collector) (envs : list env) : Collector * list event :=
  match envs with
  | [] => (c, [])
  | e :: rest =>
      let '(c, evs) := collectOnce prefix onError c e in
      let '(c, more) := collections c rest in
      (c, evs ++ more)
  end.

(** ** Reports *)

(** An error about the source [path] of process metrics, or about the delays. *)
Definition about_path (path : gostring) (ev : event) : bool :=
  match ev with
  | Reported source (ErrWrap p _) => gostring_eqb source (str "process") && gostring_eqb p path
  | _ => false
  end.
Definition about_delay (ev : event) : bool :=
  match ev with Reported source _ => gostring_eqb source (str "delay") | Recorded _ _ _ _ => false end.

Definition count (f : event → bool) (evs : list event) : nat := length (List.filter f evs).

Lemma count_app f a b : count f (a ++ b) = (count f a + count f b)%nat.
Proof. unfold count. by rewrite List.filter_app, length_app. Qed.

(** Events that are metrics only. *)
Definition only_metrics (evs : list event) : Prop := Forall (λ ev, match ev with Recorded _ _ _ _ => True | Reported _ _ => False end) evs.

Lemma count_metrics f evs : (∀ n t v a, f (Recorded n t v a) = false) → only_metrics evs → count f evs = 0%nat.
Proof.
  intros Hf He. unfold count. induction He as [|[n t v a|] evs Hev _ IH]; [done| |done]. cbn [List.filter]. by rewrite Hf.
Qed.

(** How often a path has been reported by a state. *)
Definition told (p : processState) (path : gostring) : nat := if decide (path ∈ reported p) then 1%nat else 0%nat.

(** A step that tells of a path at most once, and remembers it; nothing about delays. *)
Definition tells_once (p : processState) (r : processState * list event) : Prop :=
  (∀ path, (told p path + count (about_path path) r.2 ≤ told r.1 path)%nat) ∧ count about_delay r.2 = 0%nat.

Lemma metrics_tell p p' evs : reported p' = reported p → only_metrics evs → tells_once p (p', evs).
Proof.
  intros Hr He. split; [|by apply count_metrics]. intros path. cbn [fst snd]. rewrite (count_metrics (about_path path)) by done.
  unfold told. rewrite Hr. lia.
Qed.

Lemma silent_tells p p' : reported p' = reported p → tells_once p (p', []).
Proof. intros Hr. apply metrics_tell; [done|constructor]. Qed.

Lemma processFail_tells p path err : tells_once p (processFail onError p path err).
Proof.
  unfold processFail. case_bool_decide as Hin; [by apply silent_tells|]. unfold report. split; cbn [fst snd].
  - intros q. unfold told. cbn [set_reported reported]. destruct onError; unfold count, about_path; cbn [List.filter].
    + unfold gostring_eqb. rewrite (bool_decide_true (str "process" = str "process")) by done. cbn [andb].
      case_bool_decide as Hq; cbn [length]; repeat case_decide; try lia; set_solver.
    + cbn [length]. repeat case_decide; try lia; set_solver.
  - by destruct onError.
Qed.

Lemma with_file_tells {A} e p path (parse : gostring → A + error) k :
  (∀ a, tells_once p (k a)) → tells_once p (with_file onError e p path parse k).
Proof. intros Hk. unfold with_file. case_match; [apply Hk|apply processFail_tells]. Qed.

(** Lists of gauges, some of them there under a condition. *)
Ltac metrics := unfold only_metrics, key_gauge, gauge; repeat first [apply Forall_app; split | constructor | case_match]; try done.

Lemma parts_tell e : Forall (λ part, ∀ p, tells_once p (part e p)) (procfs_parts prefix onError).
Proof.
  unfold procfs_parts. apply Forall_forall. intros part Hin p. rewrite !elem_of_cons, elem_of_nil in Hin.
  destruct Hin as [->|[->|[->|[->|[->|[->|[->|[->|[]]]]]]]]].
  - unfold collectCgroupCPU. cbv zeta. destruct (src_cpuConfig _) as [[cfg|err]|]; [| |by apply silent_tells].
    + apply metrics_tell; [by case_match|metrics].
    + destruct (_ && _); [|by apply silent_tells].
      pose proof (processFail_tells (set_cores p f_zero) "cgroup.cpu" err) as Ht. exact Ht.
  - apply with_file_tells. intros st. cbv zeta. unfold emitCPU. cbv zeta. apply metrics_tell; [done|metrics].
  - apply with_file_tells. intros kv. cbv zeta. apply metrics_tell; [by case_match|metrics].
  - apply with_file_tells. intros st. apply metrics_tell; [done|metrics].
  - apply with_file_tells. intros l. cbv zeta. case_match; [apply processFail_tells|]. apply metrics_tell; [done|metrics].
  - unfold collectFDCount. case_match; [apply metrics_tell; [done|metrics]|apply processFail_tells].
  - apply with_file_tells. intros kv. cbv zeta. destruct (kv !! str "MemTotal"); (apply metrics_tell; [done|metrics]).
  - unfold emitResidentPercent. repeat case_match; (apply metrics_tell; [done|metrics]).
Qed.

Lemma tells_trans p p1 evs1 p2 evs2 : tells_once p (p1, evs1) → tells_once p1 (p2, evs2) → tells_once p (p2, evs1 ++ evs2).
Proof.
  intros [H1 D1] [H2 D2]. split; cbn [fst snd] in *.
  - intros path. rewrite count_app. specialize (H1 path). specialize (H2 path). lia.
  - rewrite count_app. lia.
Qed.

Lemma in_turn_tells e parts p : Forall (λ part, ∀ p, tells_once p (part e p)) parts → tells_once p (in_turn e parts p).
Proof.
  intros Hp. revert p. induction Hp as [|part parts Hpart _ IH]; intros p; cbn [in_turn]; [by apply silent_tells|].
  specialize (Hpart p). destruct (part e p) as [p1 evs1]. specialize (IH p1). destruct (in_turn e parts p1) as [p2 evs2].
  by eapply tells_trans.
Qed.

Lemma collectProcfs_tells e p : tells_once p (collectProcfs prefix onError e p).
Proof. exact (in_turn_tells e _ (set_memory p None None) (parts_tell e)). Qed.

(** The delays: told once they are disabled. *)
Definition delay_told (d : option delayState) : nat := match d with Some d => if dl_disabled d then 1%nat else 0%nat | None => 0%nat end.
Definition proc_told (p : option processState) (path : gostring) : nat := match p with Some p => told p path | None => 0%nat end.

Lemma collectDelay_tells d read :
  let r := collectDelay prefix onError d read in
  (delay_told (Some d) + count about_delay r.2 ≤ delay_told (Some r.1))%nat ∧ ∀ path, count (about_path path) r.2 = 0%nat.
Proof.
  unfold collectDelay. cbn [delay_told]. destruct (dl_disabled d) eqn:Ed; cbn [fst snd]; [by rewrite Ed|].
  destruct read as [cur|err]; cbn [fst snd dl_disabled].
  - split; [|done]. done.
  - unfold report. split.
    + apply Nat.leb_le. by destruct onError.
    + intros path. unfold count, about_path. destruct onError; [|done]. cbn [List.filter]. by destruct err.
Qed.

Lemma runtime_metrics_only c e :
  only_metrics (concat (map (sample_events (e_read e)) (c_samples c))) ∧ only_metrics (recordDerived prefix (c_samples c) (e_read e))
  ∧ ∀ h, only_metrics (recordPauseStats prefix (c_pauses c) h).2.
Proof.
  split_and!.
  - apply Forall_concat, Forall_fmap, Forall_true. intros s. unfold compose, sample_events. repeat case_match; try by constructor.
    by apply Forall_fmap, Forall_true.
  - apply Forall_concat, Forall_fmap, Forall_true. intros d. unfold compose, derived_event. repeat case_match; by repeat constructor.
  - intros h. unfold recordPauseStats. repeat case_match; by repeat constructor.
Qed.

Lemma collectOnce_tells c e :
  let r := collectOnce prefix onError c e in
  (∀ path, (proc_told (c_proc c) path + count (about_path path) r.2 ≤ proc_told (c_proc r.1) path)%nat)
  ∧ (delay_told (c_delay c) + count about_delay r.2 ≤ delay_told (c_delay r.1))%nat.
Proof.
  destruct (runtime_metrics_only c e) as (Hs & Hd & Hp). cbv zeta. unfold collectOnce. cbv zeta.
  set (pr := match e_read e gcPausesName with KindFloat64Histogram h => recordPauseStats prefix (c_pauses c) h | _ => (c_pauses c, []) end).
  assert (Hpr : only_metrics pr.2) by (unfold pr; case_match; cbn [snd]; first [apply Hp|constructor]). destruct pr as [pauses pause_events]. cbn [snd] in Hpr.
  set (counts := [gauge prefix "gomaxprocs" _ []; _] ++ _). assert (Hc : only_metrics counts) by (unfold counts; metrics).
  set (prr := match c_proc c with Some p => _ | None => _ end).
  assert (Hproc : (∀ path, (proc_told (c_proc c) path + count (about_path path) prr.2 ≤ proc_told prr.1 path)%nat) ∧ count about_delay prr.2 = 0%nat).
  { unfold prr. destruct (c_proc c) as [p|]; [|done]. pose proof (collectProcfs_tells (e_process e) p) as Ht.
    destruct (collectProcfs _ _ _ _) as [p' evs]. exact Ht. }
  destruct prr as [proc proc_events]. destruct Hproc as [Hp1 Hp2]. cbn [fst snd] in Hp1, Hp2.
  set (dr := match c_delay c with Some d => _ | None => _ end).
  assert (Hdel : (delay_told (c_delay c) + count about_delay dr.2 ≤ delay_told dr.1)%nat ∧ ∀ path, count (about_path path) dr.2 = 0%nat).
  { unfold dr. destruct (c_delay c) as [d|]; [|done]. pose proof (collectDelay_tells d (e_delay e)) as Ht. cbv zeta in Ht.
    destruct (collectDelay _ _ _ _) as [d' evs]. exact Ht. }
  destruct dr as [delay delay_events]. destruct Hdel as [Hd1 Hd2]. cbn [fst snd] in Hd1, Hd2. cbn [fst snd c_proc c_delay].
  split.
  - intros path. rewrite !count_app, Hd2. pose proof (count_metrics (about_path path) _ (λ _ _ _ _, eq_refl) Hs).
    pose proof (count_metrics (about_path path) _ (λ _ _ _ _, eq_refl) Hd). pose proof (count_metrics (about_path path) _ (λ _ _ _ _, eq_refl) Hpr).
    pose proof (count_metrics (about_path path) _ (λ _ _ _ _, eq_refl) Hc). specialize (Hp1 path). lia.
  - rewrite !count_app, Hp2. pose proof (count_metrics about_delay _ (λ _ _ _ _, eq_refl) Hs).
    pose proof (count_metrics about_delay _ (λ _ _ _ _, eq_refl) Hd). pose proof (count_metrics about_delay _ (λ _ _ _ _, eq_refl) Hpr).
    pose proof (count_metrics about_delay _ (λ _ _ _ _, eq_refl) Hc). lia.
Qed.

Lemma collections_tell c envs :
  let r := collections c envs in
  (∀ path, (proc_told (c_proc c) path + count (about_path path) r.2 ≤ proc_told (c_proc r.1) path)%nat)
  ∧ (delay_told (c_delay c) + count about_delay r.2 ≤ delay_told (c_delay r.1))%nat.
Proof.
  revert c. induction envs as [|e envs IH]; intros c; cbv zeta; cbn [collections]; [split; [intros path|]; unfold count; cbn; lia|].
  pose proof (collectOnce_tells c e) as H1. cbv zeta in H1. destruct (collectOnce prefix onError c e) as [c1 evs1].
  specialize (IH c1). cbv zeta in IH. destruct (collections c1 envs) as [c2 evs2]. cbn [fst snd] in *.
  destruct H1 as [P1 D1], IH as [P2 D2]. split.
  - intros path. rewrite count_app. specialize (P1 path). specialize (P2 path). lia.
  - rewrite count_app. lia.
Qed.

(** C31. However many collections there are and whatever fails in them, an error of a
    source of process metrics is reported at most once in the life of a collector, and
    so is the error that ends the collection of delays. *)
Theorem collector_reports_once c envs :
  let evs := (collections c envs).2 in (∀ path, count (about_path path) evs ≤ 1)%nat ∧ (count about_delay evs ≤ 1)%nat.
Proof.
  destruct (collections_tell c envs) as [Hp Hd]. cbv zeta. split.
  - intros path. specialize (Hp path). assert (proc_told (c_proc (collections c envs).1) path ≤ 1)%nat; [|lia].
    unfold proc_told, told. repeat case_match; lia.
  - assert (delay_told (c_delay (collections c envs).1) ≤ 1)%nat; [|lia]. unfold delay_told. repeat case_match; lia.
Qed.
End run.

(** ** Delays *)
Section delays.
Context `{Attributes} (prefix : gostring) (onError : bool).

Fixpoint delay_run (d : delayState) (reads : list (DelayInfo + error)) : list event :=
  match reads with
  | [] => []
  | r :: rest => let '(d, evs) := collectDelay prefix onError d r in evs ++ delay_run d rest
  end.

Definition counter_named (name : gostring) (ev : event) : bool :=
  match ev with Recorded n _ _ _ => gostring_eqb n name | Reported _ _ => false end.

(** The increments of one field over successive totals. *)
Fixpoint increments (proj : DelayInfo → Z) (prev : Z) (l : list DelayInfo) : list Z :=
  match l with
  | [] => []
  | cur :: rest => delayIncrement (proj cur) prev :: increments proj (proj cur) rest
  end.

Lemma same_name (a b : string) : gostring_eqb (prefix ++ str a) (prefix ++ str b) = gostring_eqb (str a) (str b).
Proof. unfold gostring_eqb. apply bool_decide_ext. split; [by intros Heq%app_inv_head|by intros ->]. Qed.

(** The events of one counter are its increments in seconds. *)
Lemma delay_run_counter name proj prev l :
  (name, proj) ∈ delay_fields →
  List.filter (counter_named (prefix ++ str name)) (delay_run (mkDelay prev false) (map inl l))
  = map (λ i, Recorded (prefix ++ str name) MetricTypeCounter (Seconds i) []) (increments proj (proj prev) l).
Proof.
  intros Hin. revert prev. induction l as [|cur l IH]; intros prev; [done|]. cbn [map delay_run increments].
  unfold collectDelay. cbn [dl_disabled dl_prev]. rewrite List.filter_app, IH. clear IH.
  unfold delay_fields in *. rewrite !elem_of_cons, elem_of_nil in Hin. cbn [map List.filter counter_named fst snd]. rewrite !same_name.
  destruct Hin as [[= -> ->]|[[= -> ->]|[[= -> ->]|[[= -> ->]|[]]]]]; reflexivity.
Qed.

Lemma delayIncrement_nonneg cur prev : 0 ≤ cur < 2 ^ 63 → 0 ≤ prev → 0 ≤ delayIncrement cur prev.
Proof. intros Hc Hp. unfold delayIncrement. destruct (Z.ltb_spec cur prev); [lia|]. rewrite i64_small; lia. Qed.

Definition in_range (proj : DelayInfo → Z) (d : DelayInfo) : Prop := 0 ≤ proj d < 2 ^ 63.

Lemma increments_nonneg proj prev l : Forall (in_range proj) l → 0 ≤ prev → Forall (λ i, 0 ≤ i) (increments proj prev l).
Proof.
  intros Hl. revert prev. induction Hl as [|d l Hd _ IH]; intros prev Hp; cbn [increments]; [done|]. unfold in_range in Hd.
  constructor; [by apply delayIncrement_nonneg|]. apply IH. lia.
Qed.

Lemma increments_app proj prev a b :
  increments proj prev (a ++ b) = increments proj prev a ++ increments proj (default prev (proj <$> list.last a)) b.
Proof.
  revert prev. induction a as [|d a IH]; intros prev; [done|]. cbn [app increments]. rewrite IH. f_equal. f_equal.
  f_equal. destruct a as [|x a]; [done|]. rewrite (last_cons d (x :: a)). by destruct (list.last (x :: a)) eqn:E; [|apply last_None in E].
Qed.

(** Totals that only grow, from a start they do not fall below, or after a reset. *)
Lemma increments_grow proj prev l :
  Forall (in_range proj) l → Sorted Z.le (prev :: map proj l) → 0 ≤ prev →
  zsum id (increments proj prev l) = default prev (proj <$> list.last l) - prev.
Proof.
  intros Hl. revert prev. induction Hl as [|d l Hd _ IH]; intros prev Hs Hp; cbn [increments map]; [unfold zsum; cbn; lia|].
  unfold in_range in Hd. inversion Hs as [|? ? Hs' Hh]; subst. inversion Hh as [|? ? Hle]; subst. rewrite zsum_cons, IH by (done || lia).
  unfold delayIncrement. destruct (Z.ltb_spec (proj d) prev); [lia|]. unfold id at 1. rewrite i64_small by lia.
  destruct l as [|x l]; [cbn; lia|]. rewrite (last_cons d (x :: l)). destruct (list.last (x :: l)) eqn:E; [cbn; lia|by apply last_None in E].
Qed.

(** The totals between two resets of the kernel's counter. *)
Definition epoch (proj : DelayInfo → Z) (ep : list DelayInfo) : Prop := ep ≠ [] ∧ Forall (in_range proj) ep ∧ Sorted Z.le (map proj ep).
Definition final (proj : DelayInfo → Z) (ep : list DelayInfo) : Z := default 0 (proj <$> list.last ep).

(** Every epoch begins below where the one before it ended. *)
Fixpoint resets (proj : DelayInfo → Z) (prev : Z) (epochs : list (list DelayInfo)) : Prop :=
  match epochs with
  | [] => True
  | ep :: rest => (prev = 0 ∨ match ep with d :: _ => proj d < prev | [] => True end) ∧ resets proj (final proj ep) rest
  end.

Lemma epoch_sum proj prev ep :
  epoch proj ep → 0 ≤ prev → prev = 0 ∨ match ep with d :: _ => proj d < prev | [] => True end →
  zsum id (increments proj prev ep) = final proj ep.
Proof.
  intros (Hne & Hr & Hs) Hp Hreset. destruct ep as [|d ep]; [done|]. inversion Hr as [|? ? Hd Hr']; subst. unfold in_range in Hd.
  cbn [increments map] in *. rewrite zsum_cons, increments_grow by (done || lia). unfold final.
  assert (delayIncrement (proj d) prev = proj d) as ->.
  { unfold delayIncrement. destruct Hreset as [->|Hlt]; destruct (Z.ltb_spec (proj d) prev) || destruct (Z.ltb_spec (proj d) 0); try lia.
    - rewrite i64_small; lia. }
  unfold id. destruct ep as [|x ep]; [cbn; lia|]. rewrite (last_cons d (x :: ep)).
  destruct (list.last (x :: ep)) eqn:E; [cbn; lia|by apply last_None in E].
Qed.

(** The counters of delays add up: however often the kernel's totals are read and
    however often they start anew, the increments of each counter, which are never
    negative, sum up to the last totals of all the periods between resets; and the
    values recorded under the counter's name are exactly these increments in seconds. *)
Theorem delay_counters_add_up name proj epochs :
  (name, proj) ∈ delay_fields → Forall (epoch proj) epochs → resets proj 0 epochs →
  ∃ incs,
    List.filter (counter_named (prefix ++ str name)) (delay_run new_delay (map inl (concat epochs)))
    = map (λ i, Recorded (prefix ++ str name) MetricTypeCounter (Seconds i) []) incs
    ∧ Forall (λ i, 0 ≤ i) incs ∧ zsum id incs = zsum (final proj) epochs.
Proof.
  intros Hin He Hres. assert (H0 : proj no_delays = 0).
  { unfold delay_fields in Hin. rewrite !elem_of_cons, elem_of_nil in Hin. destruct Hin as [[= _ ->]|[[= _ ->]|[[= _ ->]|[[= _ ->]|[]]]]]; done. }
  exists (increments proj (proj no_delays) (concat epochs)). split; [by apply delay_run_counter|]. rewrite H0. split.
  - apply increments_nonneg; [|done]. apply Forall_concat. eapply Forall_impl; [exact He|]. by intros ep (_ & ? & _).
  - assert (Hg : ∀ prev, 0 ≤ prev → resets proj prev epochs → zsum id (increments proj prev (concat epochs)) = zsum (final proj) epochs);
      [|by apply Hg]. clear Hres. induction He as [|ep epochs Hep _ IH]; intros prev Hp Hr; [done|]. destruct Hr as [Hr1 Hr2].
    cbn [concat]. rewrite increments_app, zsum_app, zsum_cons, (epoch_sum proj prev ep) by done. f_equal.
    assert (default prev (proj <$> list.last ep) = final proj ep) as ->.
    { destruct Hep as (Hne & _ & _). unfold final. destruct (list.last ep) eqn:E; [done|]. by apply last_None in E. }
    apply IH; [|done]. destruct Hep as (Hne & Hrange & _). unfold final. destruct (list.last ep) as [x|] eqn:E; [|by apply last_None in E].
    cbn. apply last_Some in E as [l' ->]. apply Forall_app in Hrange as [_ Hx]. inversion Hx as [|? ? Hx0]; subst. unfold in_range in Hx0. lia.
Qed.
End delays.

(** ** Pauses *)
Definition well_formed (h : Float64Histogram) : Prop := length (hh_Buckets h) = S (length (hh_Counts h)).

(** The deltas of successive snapshots. *)
Fixpoint pause_run (p : pauseTracker) (hs : list Float64Histogram) : list (list Z) :=
  match hs with
  | [] => []
  | h :: rest => let '(p, d) := delta p (Some h) in option_list (fst <$> d) ++ pause_run p rest
  end.

(** Snapshots of a cumulative histogram: one layout, counts that only grow. *)
Fixpoint cumulative (prev : list Z) (hs : list Float64Histogram) : Prop :=
  match hs with
  | [] => True
  | h :: rest => well_formed h ∧ Forall2 Z.le prev (hh_Counts h) ∧ cumulative (hh_Counts h) rest
  end.

Lemma diff_counts_grow prev cur : Forall2 Z.le prev cur → diff_counts cur prev = Some (zip_with Z.sub cur prev).
Proof.
  induction 1 as [|b c prev cur Hle _ IH]; [done|]. cbn [diff_counts]. destruct (Z.ltb_spec c b); [lia|]. by rewrite IH.
Qed.

Lemma nth_sub i cur prev : Forall2 Z.le prev cur → nth i (zip_with Z.sub cur prev) 0 + nth i prev 0 = nth i cur 0.
Proof. intros Hf. revert i. induction Hf as [|b c prev cur _ _ IH]; intros [|i]; cbn; try lia. apply IH. Qed.

(** The number of pauses in each bucket, over a run of collections, is what the last
    snapshot of the cumulative histogram shows: no pause is counted twice or lost. *)
Theorem pause_deltas_add_up h hs i :
  well_formed h → cumulative (hh_Counts h) hs →
  zsum (λ d, nth i d 0) (pause_run (mkPauses None []) (h :: hs)) = nth i (hh_Counts (default h (list.last hs))) 0.
Proof.
  intros Hw Hc. assert (Hb : ∀ g, well_formed g → (len (hh_Buckets g) =? len (hh_Counts g) + 1) = true).
  { intros g Hg. apply Z.eqb_eq. unfold len. rewrite Hg. lia. }
  assert (Hrun : ∀ hs h0 bs, cumulative (hh_Counts h0) hs →
    zsum (λ d, nth i d 0) (pause_run (mkPauses (Some (hh_Counts h0)) bs) hs) + nth i (hh_Counts h0) 0
    = nth i (hh_Counts (default h0 (list.last hs))) 0).
  { clear h hs Hw Hc. induction hs as [|g hs IH]; intros h0 bs Hc; [unfold zsum; cbn; lia|]. destruct Hc as (Hg & Hle & Hc).
    cbn [pause_run]. unfold delta. rewrite Hb by done. cbn [negb p_counts]. rewrite diff_counts_grow by done.
    assert ((len (hh_Counts h0) =? len (hh_Counts g)) = true) as -> by (apply Z.eqb_eq; unfold len; by rewrite (Forall2_length _ _ _ Hle)).
    cbn -[pause_run zip_with nth]. rewrite zsum_cons. pose proof (nth_sub i _ _ Hle) as Hn.
    specialize (IH g (hh_Buckets g) Hc). destruct hs as [|g' hs]; [unfold zsum in *; cbn in *; lia|].
    rewrite (last_cons g (g' :: hs)). destruct (list.last (g' :: hs)) as [x|] eqn:E; [|by apply last_None in E]. cbn [default] in *. unfold id in *. lia. }
  cbn [pause_run]. unfold delta. rewrite Hb by done. cbn -[pause_run nth list.last]. rewrite zsum_cons.
  specialize (Hrun hs h (hh_Buckets h) Hc). lia.
Qed.

(** No gauge of a sample, of a combination of samples or of the pauses is infinite or not a number. *)
Theorem sample_values_finite `{Attributes} prefix samples read p h :
  Forall (λ ev, match ev with Recorded _ _ v _ => isFinite v = true | Reported _ _ => False end)
    (concat (map (sample_events read) samples) ++ recordDerived prefix samples read ++ (recordPauseStats prefix p h).2).
Proof.
  apply Forall_app. split; [|apply Forall_app; split].
  - apply Forall_concat, Forall_fmap, Forall_true. intros s. unfold compose, sample_events. destruct (scalar_value _) as [v|]; [|constructor].
    destruct (is_nan v || is_inf v) eqn:E; [constructor|]. apply Forall_fmap, Forall_true. intros n.
    apply orb_false_iff in E as [E1 E2]. cbn. unfold isFinite. by rewrite E1, E2.
  - apply Forall_concat, Forall_fmap, Forall_true. intros d. unfold compose, derived_event. destruct (scalars _ _ _); [|constructor]. cbv zeta.
    destruct (isFinite _) eqn:E; by repeat constructor.
  - unfold recordPauseStats. destruct (delta p h) as [p' d]. destruct d as [[counts buckets]|]; [|constructor]. cbn [mbind option_bind fst snd].
    assert (Hp : ∀ a b c, pauseStats counts buckets = Some (a, b, c) → isFinite a = true ∧ isFinite b = true ∧ isFinite c = true).
    { intros a b c. unfold pauseStats. cbv zeta. set (acc := pause_loop _ _ _). destruct (ps_total acc =? 0); [done|].
      destruct (ps_first acc) as [[flo fhi]|], (ps_last acc) as [[llo lhi]|]; try done.
      match goal with |- context [if ?x then None else _] => destruct x eqn:E end; [done|]. intros [= <- <- <-].
      apply orb_false_iff in E as [E E3]. apply orb_false_iff in E as [E1 E2]. by rewrite !negb_false_iff in *. }
    destruct (pauseStats counts buckets) as [[[a b] c]|]; [|constructor]. destruct (Hp a b c eq_refl) as (Ha & Hb & Hc). by repeat constructor.
Qed.

(** ** A run *)
Definition demo_totals : list (list DelayInfo) :=
  [[mkDelayInfo 5 0 0 0; mkDelayInfo 9 1 0 0]; [mkDelayInfo 2 1 0 0; mkDelayInfo 30 1 0 0]].

Lemma delay_counters_add_up_witness :
  ∃ incs, List.filter (counter_named (str "p.cpu.delay.seconds"))
      (@delay_run toy_attributes (str "p.") true new_delay (map inl (concat demo_totals)))
    = map (λ i, Recorded (str "p.cpu.delay.seconds") MetricTypeCounter (Seconds i) []) incs ∧ zsum id incs = 39.
Proof.
  destruct (@delay_counters_add_up toy_attributes (str "p.") true "cpu.delay.seconds" d_CPU demo_totals) as (incs & He & _ & Hs).
  - unfold delay_fields. by left.
  - constructor; [|constructor; [|constructor]]; (split; [done|]; split; [repeat constructor; vm_compute; done|]);
      repeat constructor; vm_compute; done.
  - cbn. split; [by left|]. split; [right; done|done].
  - exists incs. split; [exact He|exact Hs].
Defined.

(** A collector whose files cannot be read tells so once. *)
Definition blind : env :=
  mkEnv (λ _, KindBad) 4 (mkProcessEnv (mkSource (λ _, inr (ErrIs ErrNotExist)) (λ _, inr (ErrIs ErrNotExist)) None) 10 4 4096) (inr (ErrExt 1)).

Example demo_collections :
  let r := @collections toy_attributes (str "p.") true (New (mkRuntime true 0 (str "p") true true) true 2) [blind; blind] in
  count (about_path (str procStatPath)) r.2 = 1%nat ∧ count about_delay r.2 = 1%nat
  ∧ length r.2 = 13%nat.
Proof. vm_compute. done. Qed.
