(* ===== verification/Books.v ===== *)
(** * Keeping books on interleaved programs

    [books p a]: on every path, program [p] changes a quantity of the state by [a] in
    all, and at no point is what remains to be added negative.  [gain e b] is the change
    an action [e] answering [b] makes, [allowed e] what is required of the action, and
    [admissible e b] what is known of the answer.  A quantity that interleaved goroutines
    change only by their gains is, when all are done, what their programs were booked
    for. *)

From S2P Require Import Prelude Atomic.

Section books.
Context {E : Type → Type}.
Context (gain : ∀ B, E B → B → Z) (allowed : ∀ B, E B → Prop) (admissible : ∀ B, E B → B → Prop).
#[local] Arguments gain {B}.
#[local] Arguments allowed {B}.
#[local] Arguments admissible {B}.

Fixpoint books {A} (p : prog E A) (a : Z) : Prop :=
  0 ≤ a ∧
  match p with
  | Ret _ => a = 0
  | Act e k => allowed e ∧ ∀ b, admissible e b → books (k b) (a - gain e b)
  end.

Lemma books_nonneg {A} (p : prog E A) a : books p a → 0 ≤ a.
Proof. destruct p; simpl; tauto. Qed.

Lemma books_bind {A C} (p : prog E A) (f : A → prog E C) a a' :
  books p a → 0 ≤ a' → (∀ r, books (f r) a') → books (bind p f) (a + a').
Proof.
  intros Hp Ha' Hf. revert a Hp. induction p as [r|B e k IH]; intros a Hp; simpl in Hp.
  - destruct Hp as [_ ->]. apply Hf.
  - destruct Hp as (Ha & He & Hk). simpl. split_and!; [lia|done|].
    intros b Hb. replace (a + a' - gain e b) with (a - gain e b + a') by lia. by apply IH, Hk.
Qed.

Lemma books_bind0 {A C} (p : prog E A) (f : A → prog E C) a :
  books p 0 → 0 ≤ a → (∀ r, books (f r) a) → books (bind p f) a.
Proof. intros. by apply (books_bind p f 0 a). Qed.

Lemma books_bind1 {A C} (p : prog E A) (f : A → prog E C) a :
  books p a → (∀ r, books (f r) 0) → books (bind p f) a.
Proof. intros. rewrite <-(Z.add_0_r a). by apply books_bind. Qed.

Lemma books_ret {A} (r : A) : books (Ret r) 0.
Proof. done. Qed.

Lemma books_act {A B} (e : E B) (k : B → prog E A) a :
  0 ≤ a → allowed e → (∀ b, admissible e b → books (k b) (a - gain e b)) → books (Act e k) a.
Proof. done. Qed.

Lemma books_neutral {A B} (e : E B) (k : B → prog E A) a :
  (∀ b, gain e b = 0) → allowed e → 0 ≤ a → (∀ b, admissible e b → books (k b) a) → books (Act e k) a.
Proof. intros Hg He Ha Hk. simpl. split_and!; [done..|]. intros b Hb. rewrite Hg, Z.sub_0_r. auto. Qed.

(** What a program is booked for is determined, when every action has an answer. *)
Lemma books_unique {A} (p : prog E A) a a' :
  (∀ B (e : E B), ∃ b, admissible e b) → books p a → books p a' → a = a'.
Proof.
  intros Hne. revert a a'. induction p as [r|B e K IH]; intros a a' [_ Ha] [_ Ha']; [congruence|].
  destruct Ha as [_ Ha], Ha' as [_ Ha']. destruct (Hne B e) as [b Hb].
  specialize (IH b _ _ (Ha b Hb) (Ha' b Hb)). lia.
Qed.

End books.
