(* ===== verification/Netstats.v ===== *)
(** * Network instrumentation (netstats/conn.go, netstats.go, zone.go, listener.go, handler.go)

    A wrapped connection counts its reads and writes in atomics that a flush drains: the
    timer's callback while the connection is in use, Close when it ends, and any call that
    comes after Close.  The methods are trees of atomic actions, so that they can be
    interleaved: what [c.Conn] answered is an argument of each, and the timer is a part of
    the state whose expiry starts [tick] in a goroutine of its own.

    The theorems are in NetstatsCorrect.v. *)

From S2P Require Import Prelude GoLib Atomic Attribute Metric.
#[local] Open Scope prog_scope.

(** ** Addresses and zones (zone.go) *)

(** netip.Addr: the zero value, an IPv4 address of 32 bits, an IPv6 address of 128 bits
    with its zone. *)
Inductive ipaddr := IPInvalid | IPv4 (n : Z) | IPv6 (n : Z) (zone : gostring).

Definition IsValid (ip : ipaddr) : bool := match ip with IPInvalid => false | _ => true end.
Definition Unmap (ip : ipaddr) : ipaddr :=
  match ip with
  | IPv6 n _ => if Z.shiftr n 32 =? 65535 then IPv4 (Z.land n (Z.ones 32)) else ip
  | _ => ip
  end.
Definition WithZone (ip : ipaddr) (zone : gostring) : ipaddr :=
  match ip with IPv6 n _ => IPv6 n zone | _ => ip end.
Definition IsUnspecified (ip : ipaddr) : bool :=
  match ip with IPv4 n => n =? 0 | IPv6 n z => (n =? 0) && gostring_eqb z [] | IPInvalid => false end.
Definition IsMulticast (ip : ipaddr) : bool :=
  match ip with IPv4 n => Z.shiftr n 28 =? 14 | IPv6 n _ => Z.shiftr n 120 =? 255 | IPInvalid => false end.
Definition IsLoopback (ip : ipaddr) : bool :=
  match ip with IPv4 n => Z.shiftr n 24 =? 127 | IPv6 n _ => n =? 1 | IPInvalid => false end.
Definition IsLinkLocalUnicast (ip : ipaddr) : bool :=
  match ip with
  | IPv4 n => (Z.shiftr n 24 =? 169) && (Z.land (Z.shiftr n 16) 255 =? 254)
  | IPv6 n _ => Z.land (Z.shiftr n 112) 65472 =? 65152
  | IPInvalid => false
  end.
Definition IsPrivate (ip : ipaddr) : bool :=
  match ip with
  | IPv4 n =>
      let b0 := Z.shiftr n 24 in
      let b1 := Z.land (Z.shiftr n 16) 255 in
      (b0 =? 10) || ((b0 =? 172) && (Z.land b1 240 =? 16)) || ((b0 =? 192) && (b1 =? 168))
  | IPv6 n _ => Z.land (Z.shiftr n 120) 254 =? 252
  | IPInvalid => false
  end.

(** 100.64.0.0/10 *)
Definition cgnat : Z * Z := (100 * 2 ^ 24 + 64 * 2 ^ 16, 10).
(** Prefix.Contains, for a prefix of IPv4 addresses *)
Definition Contains (p : Z * Z) (ip : ipaddr) : bool :=
  match ip with IPv4 n => Z.shiftr (Z.lxor n p.1) (32 - p.2) =? 0 | _ => false end.

Definition noZone : gostring := str "N/A".
Definition zoneLoopback : gostring := str "loopback".
Definition zoneLinkLocal : gostring := str "link-local".
Definition zonePrivate : gostring := str "private".
Definition zonePublic : gostring := str "public".

Definition classifyIP (ip : ipaddr) : gostring :=
  let ip := WithZone (Unmap ip) [] in
  if negb (IsValid ip) || IsUnspecified ip || IsMulticast ip then noZone
  else if IsLoopback ip then zoneLoopback
  else if IsLinkLocalUnicast ip then zoneLinkLocal
  else if IsPrivate ip || Contains cgnat ip then zonePrivate
  else zonePublic.

(** The bytes of a net.IP in network order. *)
Definition be_bytes (bs : list Z) : Z := foldl (λ acc b, acc * 256 + b) 0 bs.

(** netip.AddrFromSlice *)
Definition fromIP (ip : list Z) : option ipaddr :=
  if len ip =? 4 then Some (IPv4 (be_bytes ip))
  else if len ip =? 16 then Some (IPv6 (be_bytes ip) [])
  else None.

(** A net.Addr: the three types addrIP knows, with the bytes of the address, or another
    with what its Network and String methods answer. *)
Inductive netAddr :=
| TCPAddr (ip : list Z) | UDPAddr (ip : list Z) | IPAddr (ip : list Z)
| OtherAddr (network text : gostring).

Definition Network (a : netAddr) : gostring :=
  match a with
  | TCPAddr _ => str "tcp" | UDPAddr _ => str "udp" | IPAddr _ => str "ip"
  | OtherAddr network _ => network
  end.

(** A net.Conn as newConn sees it: its addresses and its optional methods. *)
Record netConn := mkNetConn {
  LocalAddr : option netAddr; RemoteAddr : option netAddr; has_CloseRead : bool; has_CloseWrite : bool }.

Record config := mkConfig { sourceZone : gostring; targetZone : gostring; flushInterval : Z; discover : bool }.

Definition defaultFlushInterval : Z := 10 * Second.

Definition Option_ := config → config.
Definition WithZones (source target : gostring) : Option_ :=
  λ c, mkConfig source target (flushInterval c) (discover c).
Definition WithFlushInterval (d : Z) : Option_ :=
  λ c, if 0 <? d then mkConfig (sourceZone c) (targetZone c) d (discover c) else c.
Definition WithZoneDiscovery (enabled : bool) : Option_ :=
  λ c, mkConfig (sourceZone c) (targetZone c) (flushInterval c) enabled.

(** A nil option is skipped. *)
Definition newConfig (opts : list (option Option_)) : config :=
  foldl (λ c o, match o with Some o => o c | None => c end) (mkConfig [] [] defaultFlushInterval true) opts.

Definition tagProtocol : gostring := str "protocol".
Definition tagOperation : gostring := str "operation".
Definition tagSourceZone : gostring := str "source_zone".
Definition tagTargetZone : gostring := str "target_zone".
Definition tagInZone : gostring := str "in_zone".

Definition normalizeZones (source target : gostring) : gostring * gostring :=
  (if gostring_eqb source [] then noZone else source, if gostring_eqb target [] then noZone else target).

Definition inZone (source target : gostring) : bool :=
  negb (gostring_eqb source noZone) && negb (gostring_eqb target noZone) && gostring_eqb source target.

Definition boolString (b : bool) : gostring := if b then str "true" else str "false".

Definition unknownProtocol : gostring := str "unknown".

Section netstats.
Context `{Attributes}.

(** The parsers of package netip, for the text of an address of another type. *)
Context (ParseAddrPort ParseAddr : gostring → option ipaddr).

Definition addrIP (a : option netAddr) : option ipaddr :=
  match a with
  | None => None
  | Some (TCPAddr ip) | Some (UDPAddr ip) | Some (IPAddr ip) => fromIP ip
  | Some (OtherAddr _ text) =>
      match ParseAddrPort text with Some ip => Some ip | None => ParseAddr text end
  end.

Definition classifyAddr (a : option netAddr) : gostring :=
  match addrIP a with Some ip => classifyIP ip | None => noZone end.

(** The loop of explicitZones over the tags of the context. *)
Definition zone_tag (st : gostring * gostring) (kv : KeyValue) : gostring * gostring :=
  if gostring_eqb kv.1 tagSourceZone then (if gostring_eqb st.1 [] then (as_string kv.2, st.2) else st)
  else if gostring_eqb kv.1 tagTargetZone then (if gostring_eqb st.2 [] then (st.1, as_string kv.2) else st)
  else st.

(** [ctags] are stats.ContextTags(ctx). *)
Definition explicitZones (c : config) (ctags : list KeyValue) : gostring * gostring :=
  if negb (gostring_eqb (sourceZone c) []) && negb (gostring_eqb (targetZone c) [])
  then (sourceZone c, targetZone c)
  else foldl zone_tag (sourceZone c, targetZone c) ctags.

Definition zones (c : config) (ctags : list KeyValue) : gostring * gostring :=
  let st := explicitZones c ctags in normalizeZones st.1 st.2.

Definition connZones (cfg : config) (ctags : list KeyValue) (c : netConn) : gostring * gostring :=
  let st := explicitZones cfg ctags in
  if discover cfg then
    let source := if gostring_eqb st.1 [] then classifyAddr (LocalAddr c) else st.1 in
    let target := if gostring_eqb st.2 [] then classifyAddr (RemoteAddr c) else st.2 in
    normalizeZones source target
  else normalizeZones st.1 st.2.

(** ** The connection (conn.go) *)
Inductive counter := readCalls | readBytes | writeCalls | writeBytes.

#[global] Instance counter_eq_dec : EqDecision counter.
Proof. solve_decision. Defined.

(** A call of Counter or Histogram on a recorder. *)
Record entry := mkEntry { e_recorder : nat; e_type : MetricType; e_name : gostring; e_value : float64; e_tags : list KeyValue }.

(** The mutable fields, the default recorder of the package, and what was recorded.
    [timer] is nil, or tells whether it is pending; [panicked] is set by a method call on
    the nil timer. *)
Record state := mkState {
  atomics : counter → Z; armed : bool; closed : bool; mu : bool; timer : option bool;
  defaultRecorder : option nat; log : list entry; panicked : bool }.

Definition set_atomic (s : state) (k : counter) (v : Z) : state :=
  mkState (λ k', if decide (k' = k) then v else atomics s k') (armed s) (closed s) (mu s) (timer s) (defaultRecorder s) (log s) (panicked s).
Definition set_armed (s : state) : state :=
  mkState (atomics s) true (closed s) (mu s) (timer s) (defaultRecorder s) (log s) (panicked s).
Definition set_closed (s : state) : state :=
  mkState (atomics s) (armed s) true (mu s) (timer s) (defaultRecorder s) (log s) (panicked s).
Definition set_mu (s : state) (b : bool) : state :=
  mkState (atomics s) (armed s) (closed s) b (timer s) (defaultRecorder s) (log s) (panicked s).
Definition set_timer (s : state) (t : option bool) : state :=
  mkState (atomics s) (armed s) (closed s) (mu s) t (defaultRecorder s) (log s) (panicked s).
Definition set_default (s : state) (r : option nat) : state :=
  mkState (atomics s) (armed s) (closed s) (mu s) (timer s) r (log s) (panicked s).
Definition add_log (s : state) (e : entry) : state :=
  mkState (atomics s) (armed s) (closed s) (mu s) (timer s) (defaultRecorder s) (log s ++ [e]) (panicked s).
Definition set_panicked (s : state) : state :=
  mkState (atomics s) (armed s) (closed s) (mu s) (timer s) (defaultRecorder s) (log s) true.

Inductive act : Type → Type :=
| Add (k : counter) (n : Z) : act unit
| Swap0 (k : counter) : act Z                       (* Swap(0) *)
| LoadArmed : act bool
| StoreArmed : act unit
| LoadClosed : act bool
| SwapClosed : act bool                             (* closed.Swap(true) *)
| MuLock : act unit
| MuUnlock : act unit
| LoadTimer : act bool                              (* c.timer != nil *)
| AfterFunc (d : Z) : act unit                      (* c.timer = time.AfterFunc(d, c.tick) *)
| TimerReset (d : Z) : act unit
| TimerStop : act unit
| TimerFires : act unit                             (* the pending timer expires *)
| LoadDefault : act (option nat)
| StoreDefault (r : option nat) : act unit
| Emit (e : entry) : act unit.

Definition handle (B : Type) (e : act B) (s : state) : list (B * state) :=
  match e in act B return list (B * state) with
  | Add k n => [(tt, set_atomic s k (i64 (atomics s k + n)))]
  | Swap0 k => [(atomics s k, set_atomic s k 0)]
  | LoadArmed => [(armed s, s)]
  | StoreArmed => [(tt, set_armed s)]
  | LoadClosed => [(closed s, s)]
  | SwapClosed => [(closed s, set_closed s)]
  | MuLock => if mu s then [] else [(tt, set_mu s true)]
  | MuUnlock => [(tt, set_mu s false)]
  | LoadTimer => [(bool_decide (timer s ≠ None), s)]
  | AfterFunc _ => [(tt, set_timer s (Some true))]
  | TimerReset _ => [(tt, match timer s with Some _ => set_timer s (Some true) | None => set_panicked s end)]
  | TimerStop => [(tt, match timer s with Some _ => set_timer s (Some false) | None => set_panicked s end)]
  | TimerFires => match timer s with Some true => [(tt, set_timer s (Some false))] | _ => [] end
  | LoadDefault => [(defaultRecorder s, s)]
  | StoreDefault r => [(tt, set_default s r)]
  | Emit e => [(tt, add_log s e)]
  end.

#[local] Notation "'let!' x := e ; k" := (@Act act _ _ e (λ x, k)) : prog_scope.
#[local] Notation "'run!' e ; k" := (@Act act _ _ e (λ _, k)) : prog_scope.

(** *** The recorder (netstats.go) *)
Record sink := mkSink { sink_r : option nat; useDefault : bool }.

Definition SetDefaultRecorder (r : option nat) : prog act unit :=
  match r with
  | None => run! StoreDefault None; Ret tt
  | Some r => run! StoreDefault (Some r); Ret tt
  end.

Definition recorder (s : sink) : prog act (option nat) :=
  if useDefault s then let! b := LoadDefault; match b with Some r => Ret (Some r) | None => Ret None end
  else Ret (sink_r s).

(** *** Names *)
Definition metricOpen : gostring := str "conn.open.count".
Definition metricClose : gostring := str "conn.close.count".
Definition metricReadCount : gostring := str "conn.read.count".
Definition metricWriteCount : gostring := str "conn.write.count".
Definition metricReadBytes : gostring := str "conn.read.bytes".
Definition metricWriteBytes : gostring := str "conn.write.bytes".
Definition metricError : gostring := str "conn.error.count".

Definition opRead : gostring := str "read".
Definition opWrite : gostring := str "write".
Definition opClose : gostring := str "close".
Definition opAccept : gostring := str "accept".
Definition opSetDeadline : gostring := str "set-deadline".
Definition opSetReadDeadline : gostring := str "set-read-deadline".
Definition opSetWriteDeadline : gostring := str "set-write-deadline".

(** The fields of a conn that do not change. *)
Record conn := mkConn { c_sink : sink; c_tags : list KeyValue; c_flushInterval : Z }.

Definition count (c : conn) (name : gostring) (v : float64) (extra : list KeyValue) : prog act unit :=
  let@ r := recorder (c_sink c);
  match r with
  | None => Ret tt
  | Some r => if fle v f_zero then Ret tt else run! Emit (mkEntry r MetricTypeCounter name v (extra ++ c_tags c)); Ret tt
  end.

Definition observe (c : conn) (name : gostring) (v : float64) : prog act unit :=
  let@ r := recorder (c_sink c);
  match r with
  | None => Ret tt
  | Some r => if fle v f_zero then Ret tt else run! Emit (mkEntry r MetricTypeHistogram name v (c_tags c)); Ret tt
  end.

Definition fail_ (c : conn) (operation : gostring) (err : option error) : prog act unit :=
  match err with
  | None => Ret tt
  | Some e => if errors_is EOF e then Ret tt else count c metricError f_one [String_kv tagOperation operation]
  end.

Definition flush (c : conn) : prog act unit :=
  let! n := Swap0 readCalls;
  run@ count c metricReadCount (f_of_Z n) [];
  let! n := Swap0 writeCalls;
  run@ count c metricWriteCount (f_of_Z n) [];
  let! n := Swap0 readBytes;
  run@ observe c metricReadBytes (f_of_Z n);
  let! n := Swap0 writeBytes;
  observe c metricWriteBytes (f_of_Z n).

Definition touch (c : conn) : prog act unit :=
  let! cl := LoadClosed;
  if cl then flush c
  else
    let! ar := LoadArmed;
    if ar then Ret tt
    else
      run! MuLock;
      let! cl := LoadClosed;
      if cl then run! MuUnlock; Ret tt
      else
        let! ar := LoadArmed;
        if ar then run! MuUnlock; Ret tt
        else
          run! StoreArmed;
          run! AfterFunc (c_flushInterval c);
          run! MuUnlock;
          Ret tt.

Definition tick (c : conn) : prog act unit :=
  run! MuLock;
  let! cl := LoadClosed;
  if cl then run! MuUnlock; Ret tt
  else
    run@ flush c;
    run! TimerReset (c_flushInterval c);
    run! MuUnlock;
    Ret tt.

(** What Read, Write and Close return; [n] and [err] are what the method of the wrapped
    connection returned. *)
Definition Read (c : conn) (n : Z) (err : option error) : prog act (Z * option error) :=
  run! Add readCalls 1;
  run! Add readBytes (i64 n);
  run@ fail_ c opRead err;
  run@ touch c;
  Ret (n, err).

Definition Write (c : conn) (n : Z) (err : option error) : prog act (Z * option error) :=
  run! Add writeCalls 1;
  run! Add writeBytes (i64 n);
  run@ fail_ c opWrite err;
  run@ touch c;
  Ret (n, err).

Definition Close (c : conn) (err : option error) : prog act (option error) :=
  run@ fail_ c opClose err;
  run! MuLock;
  let! was := SwapClosed;
  let first := negb was in
  let! present := LoadTimer;
  run@ (if present then run! TimerStop; Ret tt else Ret tt);
  run! MuUnlock;
  if first then
    run@ flush c;
    run@ count c metricClose f_one [];
    Ret err
  else Ret err.

Definition SetDeadline (c : conn) (err : option error) : prog act (option error) :=
  run@ fail_ c opSetDeadline err; Ret err.
Definition SetReadDeadline (c : conn) (err : option error) : prog act (option error) :=
  run@ fail_ c opSetReadDeadline err; Ret err.
Definition SetWriteDeadline (c : conn) (err : option error) : prog act (option error) :=
  run@ fail_ c opSetWriteDeadline err; Ret err.

(** The concrete type newConn returns. *)
Inductive wrapper := Plain | CloseRead_ | CloseWrite_ | CloseReadWrite.

Definition zone_tags (source target : gostring) : list KeyValue :=
  [String_kv tagSourceZone source; String_kv tagTargetZone target; String_kv tagInZone (boolString (inZone source target))].

Definition build_conn (ctags : list KeyValue) (s : sink) (c : netConn) (cfg : config) : conn :=
  let '(source, target) := connZones cfg ctags c in
  let protocol := match LocalAddr c with Some a => Network a | None => unknownProtocol end in
  mkConn s (String_kv tagProtocol protocol :: zone_tags source target) (flushInterval cfg).

Definition newConn (ctags : list KeyValue) (s : sink) (c : netConn) (cfg : config) : prog act (conn * wrapper) :=
  let nc := build_conn ctags s c cfg in
  run@ count nc metricOpen f_one [];
  Ret (nc, match has_CloseRead c, has_CloseWrite c with
           | true, true => CloseReadWrite
           | false, true => CloseWrite_
           | true, false => CloseRead_
           | false, false => Plain
           end).

Definition NewConn (c : netConn) (opts : list (option Option_)) := newConn [] (mkSink None true) c (newConfig opts).
Definition NewConnWith (r : option nat) (c : netConn) (opts : list (option Option_)) := newConn [] (mkSink r false) c (newConfig opts).

(** ** Listeners and handlers (listener.go, handler.go) *)
Record listener := mkListener { l_sink : sink; l_cfg : config }.

Definition NewListener (opts : list (option Option_)) : listener := mkListener (mkSink None true) (newConfig opts).
Definition NewListenerWith (r : option nat) (opts : list (option Option_)) : listener := mkListener (mkSink r false) (newConfig opts).

(** [addr] is what l.Addr() answers. *)
Definition listener_fail (l : listener) (addr : option netAddr) : prog act unit :=
  let@ r := recorder (l_sink l);
  match r with
  | None => Ret tt
  | Some r =>
      let protocol := match addr with Some a => Network a | None => unknownProtocol end in
      let '(source, target) := zones (l_cfg l) [] in
      run! Emit (mkEntry r MetricTypeCounter metricError f_one
                   (String_kv tagProtocol protocol :: String_kv tagOperation opAccept :: zone_tags source target));
      Ret tt
  end.

(** [accepted] is what the wrapped listener's Accept returned. *)
Definition Accept (l : listener) (addr : option netAddr) (accepted : netConn + error) : prog act ((conn * wrapper) + error) :=
  match accepted with
  | inr err => run@ listener_fail l addr; Ret (inr err)
  | inl c => let@ nc := newConn [] (l_sink l) c (l_cfg l); Ret (inl nc)
  end.

Record handler := mkHandler { h_sink : sink; h_cfg : config }.

Definition NewHandler (opts : list (option Option_)) : handler := mkHandler (mkSink None true) (newConfig opts).
Definition NewHandlerWith (r : option nat) (opts : list (option Option_)) : handler := mkHandler (mkSink r false) (newConfig opts).

(** ServeConn: the connection given to the wrapped handler [serve]. *)
Definition ServeConn {A} (h : handler) (serve : conn * wrapper → prog act A) (ctags : list KeyValue) (c : netConn) : prog act A :=
  let@ nc := newConn ctags (h_sink h) c (h_cfg h); serve nc.

End netstats.
