(* ===== verification/NetstatsCorrect.v ===== *)
(** * What a wrapped connection reports

    [conn_totals_exact]: however reads, writes, deadlines, closes, ticks of the timer and
    changes of the default recorder interleave, once the connection is closed and every
    call has returned, the totals recorded are those of the calls made, the connection was
    opened and closed once, and the timer is stopped.  [conn_never_stuck]: until then some
    call can proceed.  [classify_table]: the zones of IPv4 addresses, as a table of
    networks.

    Each argument is a predicate on programs: what a program adds to a total ([books]),
    that what it counts after Close it also drains ([guarded]), and its use of the mutex
    and the timer ([protocol]). *)

From S2P Require Import Prelude GoLib Strconv Atomic Books Attribute Metric Netstats.
#[local] Open Scope prog_scope.

Section correct.
Context `{Attributes}.

(** ** Calls *)
Inductive op :=
| OpRead (n : Z) (err : option error)
| OpWrite (n : Z) (err : option error)
| OpClose (err : option error)
| OpSetDeadline (err : option error)
| OpSetReadDeadline (err : option error)
| OpSetWriteDeadline (err : option error)
| OpTick
| OpSetDefault (r : option nat).

(** The goroutine of a call; that of the timer begins when the timer expires. *)
Definition run (c : conn) (o : op) : prog act unit :=
  match o with
  | OpRead n err => run@ Read c n err; Ret tt
  | OpWrite n err => run@ Write c n err; Ret tt
  | OpClose err => run@ Close c err; Ret tt
  | OpSetDeadline err => run@ SetDeadline c err; Ret tt
  | OpSetReadDeadline err => run@ SetReadDeadline c err; Ret tt
  | OpSetWriteDeadline err => run@ SetWriteDeadline c err; Ret tt
  | OpTick => Act TimerFires (λ _, tick c)
  | OpSetDefault r => SetDefaultRecorder r
  end.

Definition no_env (_ _ : state) : Prop := False.
Definition conn_steps : list (prog act unit) * state → list (prog act unit) * state → Prop := gsteps handle no_env.

(** Finished, or the timer's next goroutine, not begun. *)
Definition settled (c : conn) (p : prog act unit) : Prop := p = Ret tt ∨ p = run c OpTick.

(** ** Totals *)
Inductive tally := Traffic (k : counter) | Opens | Closes | Errors.

#[global] Instance tally_eq_dec : EqDecision tally.
Proof. solve_decision. Defined.

Definition metric_of (t : tally) : gostring :=
  match t with
  | Traffic readCalls => metricReadCount | Traffic readBytes => metricReadBytes
  | Traffic writeCalls => metricWriteCount | Traffic writeBytes => metricWriteBytes
  | Opens => metricOpen | Closes => metricClose | Errors => metricError
  end.

Lemma metric_of_inj t t' : metric_of t = metric_of t' → t = t'.
Proof. by destruct t as [[]| | |], t' as [[]| | |]. Qed.

Definition value_of (e : entry) : Z := default 0 (f_trunc (e_value e)).
Definition entry_of (t : tally) (e : entry) : Z := if gostring_eqb (e_name e) (metric_of t) then value_of e else 0.
(** What was recorded under a metric. *)
Definition recorded (t : tally) (l : list entry) : Z := zsum (entry_of t) l.

Definition counts_as_error (err : option error) : Z :=
  match err with None => 0 | Some e => if errors_is EOF e then 0 else 1 end.

(** What a call contributes to a total. *)
Definition share (t : tally) (o : op) : Z :=
  match t, o with
  | Traffic readCalls, OpRead _ _ | Traffic writeCalls, OpWrite _ _ => 1
  | Traffic readBytes, OpRead n _ | Traffic writeBytes, OpWrite n _ => n
  | Errors, (OpRead _ err | OpWrite _ err | OpClose err | OpSetDeadline err | OpSetReadDeadline err | OpSetWriteDeadline err) => counts_as_error err
  | _, _ => 0
  end.

(** The reader's contract: no call returns a negative count; and a default recorder in use
    is not taken away. *)
Definition op_ok (c : conn) (o : op) : Prop :=
  match o with
  | OpRead n _ | OpWrite n _ => 0 ≤ n
  | OpSetDefault None => useDefault (c_sink c) = false
  | _ => True
  end.

Section fixed.
Context (ud : bool).

Definition eqt (t t' : tally) (n : Z) : Z := if decide (t = t') then n else 0.

(** How an action changes the recorded total plus what is still in the atomics. *)
Definition gain (t : tally) {B} (e : act B) : B → Z :=
  match e in act B return B → Z with
  | Add k n => λ _, eqt t (Traffic k) n
  | Swap0 k => λ v, - eqt t (Traffic k) v
  | SwapClosed => λ was, - eqt t Closes (if was then 0 else 1)
  | Emit e => λ _, entry_of t e
  | _ => λ _, 0
  end.

Definition allowed {B} (e : act B) : Prop :=
  match e with
  | Add _ n => 0 ≤ n
  | StoreDefault r => ud = true → r ≠ None
  | LoadDefault => ud = true
  | Emit e => 0 ≤ value_of e
  | _ => True
  end.

Definition admissible {B} (e : act B) : B → Prop :=
  match e in act B return B → Prop with
  | Swap0 _ => λ v, 0 ≤ v < 2 ^ 53
  | LoadDefault => λ r, r ≠ None
  | _ => λ _, True
  end.

(** [p] is booked for [a] of a total. *)
#[local] Notation books t := (Books.books (@gain t) (@allowed) (@admissible)).

Lemma gostring_eqb_eq a b : gostring_eqb a b = bool_decide (a = b).
Proof. done. Qed.

Lemma emit_books t r typ t' n tags :
  0 ≤ n < 2 ^ 53 → books t (if fle (f_of_Z n) f_zero then Ret tt else Act (Emit (mkEntry r typ (metric_of t') (f_of_Z n) tags)) (λ _, Ret tt)) (eqt t t' n).
Proof.
  intros Hn. destruct (f_of_Z_exact n Hn) as [Ht Hle]. rewrite Hle. destruct (Z.leb_spec n 0).
  - replace n with 0 by lia. unfold eqt. by case_decide.
  - assert (Hv : value_of (mkEntry r typ (metric_of t') (f_of_Z n) tags) = n) by (unfold value_of; simpl e_value; by rewrite Ht).
    assert (Hg : entry_of t (mkEntry r typ (metric_of t') (f_of_Z n) tags) = eqt t t' n).
    { unfold entry_of, eqt. rewrite Hv, gostring_eqb_eq. simpl e_name.
      case_bool_decide as Hm; case_decide as Hd; try done; [by apply metric_of_inj in Hm|by subst]. }
    apply books_act; [unfold eqt; case_decide; lia|cbn [allowed]; rewrite Hv; lia|].
    intros [] _. cbn [gain]. rewrite Hg, Z.sub_diag. apply books_ret.
Qed.

(** A drained counter is recorded. *)
Lemma swap_books {A} t k (K : Z → prog act A) :
  (∀ n, 0 ≤ n < 2 ^ 53 → books t (K n) (eqt t (Traffic k) n)) → books t (Act (Swap0 k) K) 0.
Proof.
  intros HK. apply books_act; [lia|done|]. intros n Hn. cbn [gain]. cbn [admissible] in Hn.
  rewrite Z.sub_opp_r, Z.add_0_l. by apply HK.
Qed.

Lemma eqt_nonneg t t' n : 0 ≤ n → 0 ≤ eqt t t' n.
Proof. unfold eqt. case_decide; lia. Qed.

Lemma counts_as_error_nonneg err : 0 ≤ counts_as_error err.
Proof. unfold counts_as_error. repeat case_match; lia. Qed.

Definition stock (t : tally) (s : state) : Z :=
  match t with Traffic k => atomics s k | Closes => if closed s then -1 else 0 | _ => 0 end.

Lemma recorded_nonneg t l : Forall (λ e, 0 ≤ value_of e) l → 0 ≤ recorded t l.
Proof. intros Hl. apply zsum_nonneg. eapply Forall_impl; [done|]. intros e He. simpl in He. unfold entry_of. case_match; lia. Qed.

(** An action that does not overflow keeps the books. *)
Lemma handle_gain {B} t (e : act B) s b s' :
  (b, s') ∈ handle B e s →
  match e with Add k n => 0 ≤ atomics s k + n < 2 ^ 63 | _ => True end →
  recorded t (log s') + stock t s' = recorded t (log s) + stock t s + gain t e b.
Proof.
  destruct e; cbn [handle]; intros Hin Hadd; repeat case_match;
    try apply list_elem_of_singleton in Hin; simplify_eq; try (by inversion Hin);
    cbn [gain]; try (destruct t; simpl; lia).
  - rewrite i64_small by lia. destruct t; unfold eqt; case_decide; simplify_eq; simpl; try lia; case_decide; simplify_eq; lia.
  - destruct t; unfold eqt; case_decide; simplify_eq; simpl; try lia; case_decide; simplify_eq; lia.
  - destruct t; unfold eqt; case_decide; simplify_eq; simpl; try lia; destruct (closed s); lia.
  - unfold recorded. simpl log. rewrite zsum_app, zsum_cons. unfold zsum at 2. simpl foldr. destruct t; simpl; lia.
Qed.

Section programs.
Context (c : conn) (Hud : useDefault (c_sink c) = ud) (Hrec : ud = false → sink_r (c_sink c) ≠ None).

(** A recorder is there when it is asked for. *)
Lemma recorder_books {A} t (k : option nat → prog act A) a :
  0 ≤ a → (∀ r, books t (k (Some r)) a) → books t (let@ r := recorder (c_sink c); k r) a.
Proof using Hud Hrec.
  intros Ha Hk. unfold recorder. destruct (useDefault (c_sink c)) eqn:E.
  - cbn [bind]. apply books_neutral; [done|by subst|done|]. intros [r|] Hr; [apply Hk|done].
  - cbn [bind]. destruct (sink_r (c_sink c)) as [r|] eqn:Er; [apply Hk|]. by destruct Hrec; subst.
Qed.

Lemma count_books t t' n extra : 0 ≤ n < 2 ^ 53 → books t (count c (metric_of t') (f_of_Z n) extra) (eqt t t' n).
Proof using Hud Hrec.
  intros Hn. apply recorder_books; [unfold eqt; case_decide; lia|]. intros r. by apply emit_books.
Qed.

Lemma observe_books t t' n : 0 ≤ n < 2 ^ 53 → books t (observe c (metric_of t') (f_of_Z n)) (eqt t t' n).
Proof using Hud Hrec.
  intros Hn. apply recorder_books; [unfold eqt; case_decide; lia|]. intros r. by apply emit_books.
Qed.

Lemma fail_books t operation err : books t (fail_ c operation err) (eqt t Errors (counts_as_error err)).
Proof using Hud Hrec.
  unfold fail_, counts_as_error. assert (H0 : eqt t Errors 0 = 0) by (unfold eqt; by case_decide).
  destruct err as [e|]; [|by rewrite H0]. destruct (errors_is EOF e); [by rewrite H0|].
  apply (count_books t Errors 1). lia.
Qed.

Lemma flush_books t : books t (flush c) 0.
Proof using Hud Hrec.
  unfold flush. apply swap_books. intros n Hn. apply books_bind1; [by apply (count_books t (Traffic readCalls))|intros _].
  apply swap_books. intros n2 Hn2. apply books_bind1; [by apply (count_books t (Traffic writeCalls))|intros _].
  apply swap_books. intros n3 Hn3. apply books_bind1; [by apply (observe_books t (Traffic readBytes))|intros _].
  apply swap_books. intros n4 Hn4. by apply (observe_books t (Traffic writeBytes)).
Qed.

(** Follow a program through the actions that do not touch the totals. *)
Ltac follow :=
  repeat match goal with
  | |- books _ (Ret _) 0 => apply books_ret
  | |- books _ (flush _) 0 => apply flush_books
  | |- books _ (if ?b then _ else _) 0 => destruct b
  | |- books _ (bind (flush _) _) 0 => apply books_bind1; [apply flush_books|intros _]
  | |- books _ (bind (if ?b then _ else _) _) _ => destruct b; cbn [bind]
  | |- books _ (Act _ _) _ => apply books_neutral; [done|done|lia|intros ? _]
  end.

Lemma touch_books t : books t (touch c) 0.
Proof using Hud Hrec. unfold touch. follow. Qed.

Lemma tick_books t : books t (tick c) 0.
Proof using Hud Hrec. unfold tick. follow. Qed.

(** The common tail of Read and Write. *)
Lemma traffic_books {A} t k k' n operation err (r : A) a :
  0 ≤ n < 2 ^ 53 →
  a = eqt t (Traffic k) 1 + eqt t (Traffic k') n + eqt t Errors (counts_as_error err) →
  books t (Act (Add k 1) (λ _, Act (Add k' (i64 n)) (λ _, run@ fail_ c operation err; run@ touch c; Ret r))) a.
Proof using Hud Hrec.
  intros Hn ->. pose proof (eqt_nonneg t (Traffic k) 1 ltac:(lia)). pose proof (eqt_nonneg t (Traffic k') n ltac:(lia)).
  pose proof (eqt_nonneg t Errors _ (counts_as_error_nonneg err)).
  rewrite i64_small by lia. apply books_act; [lia|cbn [allowed]; lia|]. intros [] _.
  apply books_act; [cbn [gain]; lia|cbn [allowed]; lia|]. intros [] _. cbn [gain].
  replace (_ - _ - _) with (eqt t Errors (counts_as_error err)) by lia.
  apply books_bind1; [apply fail_books|intros _]. apply books_bind1; [apply touch_books|intros _]. apply books_ret.
Qed.

Lemma Close_books t err : books t (Close c err) (eqt t Errors (counts_as_error err)).
Proof using Hud Hrec.
  unfold Close. apply books_bind1; [apply fail_books|intros _].
  apply books_neutral; [done|done|lia|intros [] _]. apply books_act; [lia|done|]. intros was _. cbn [gain].
  rewrite Z.sub_opp_r, Z.add_0_l. destruct was.
  { replace (eqt t Closes 0) with 0 by (unfold eqt; by case_decide). cbn [negb]. cbv zeta iota. follow. }
  pose proof (eqt_nonneg t Closes 1 ltac:(lia)).
  cbn [negb]. apply books_neutral; [done|done|lia|intros present _].
  apply books_bind0; [follow|lia|intros _]. apply books_neutral; [done|done|lia|intros _ _].
  apply books_bind0; [apply flush_books|lia|intros _].
  apply books_bind1; [apply (count_books t Closes 1); lia|intros _]. apply books_ret.
Qed.

Lemma run_books t o :
  op_ok c o → share (Traffic readBytes) o < 2 ^ 53 → share (Traffic writeBytes) o < 2 ^ 53 → books t (run c o) (share t o).
Proof using Hud Hrec.
  intros Ho Hr Hw. assert (Herr : ∀ err, eqt t Errors (counts_as_error err) = match t with Errors => counts_as_error err | _ => 0 end).
  { intros err. by destruct t. }
  destruct o as [n err|n err|err|err|err|err| |r]; simpl in Ho, Hr, Hw; unfold run.
  - apply books_bind1; [|intros []; apply books_ret]. apply traffic_books; [done|]. rewrite Herr.
    destruct t as [[]| | |]; unfold eqt; repeat case_decide; simpl; congruence || lia.
  - apply books_bind1; [|intros []; apply books_ret]. apply traffic_books; [done|]. rewrite Herr.
    destruct t as [[]| | |]; unfold eqt; repeat case_decide; simpl; congruence || lia.
  - replace (share t (OpClose err)) with (eqt t Errors (counts_as_error err)) by (by destruct t as [[]| | |]).
    apply books_bind1; [apply Close_books|intros; apply books_ret].
  - replace (share t (OpSetDeadline err)) with (eqt t Errors (counts_as_error err)) by (by destruct t as [[]| | |]).
    apply books_bind1; [apply books_bind1; [apply fail_books|]|]; intros; apply books_ret.
  - replace (share t (OpSetReadDeadline err)) with (eqt t Errors (counts_as_error err)) by (by destruct t as [[]| | |]).
    apply books_bind1; [apply books_bind1; [apply fail_books|]|]; intros; apply books_ret.
  - replace (share t (OpSetWriteDeadline err)) with (eqt t Errors (counts_as_error err)) by (by destruct t as [[]| | |]).
    apply books_bind1; [apply books_bind1; [apply fail_books|]|]; intros; apply books_ret.
  - replace (share t OpTick) with 0 by (by destruct t as [[]| | |]).
    apply books_neutral; [done|done|lia|intros _ _]. apply tick_books.
  - replace (share t (OpSetDefault r)) with 0 by (by destruct t as [[]| | |]).
    unfold SetDefaultRecorder. destruct r as [r|]; (apply books_neutral; [done|simpl in *; congruence|lia|intros _ _; apply books_ret]).
Qed.

End programs.

(** ** The invariant of the totals *)
Section totals.
Context (total : tally → Z) (Htotal : ∀ k, total (Traffic k) < 2 ^ 53).

Record totals_inv (s : state) (gs : list (tally → Z)) : Prop := {
  ti_total : ∀ t, recorded t (log s) + stock t s + zsum (λ g, g t) gs = total t;
  ti_atomics : ∀ k, 0 ≤ atomics s k;
  ti_owed : ∀ t g, g ∈ gs → 0 ≤ g t;
  ti_log : Forall (λ e, 0 ≤ value_of e) (log s);
  ti_default : ud = true → defaultRecorder s ≠ None }.

(** What is in an atomic is no more than the total. *)
Lemma atomics_bound s gs k : totals_inv s gs → atomics s k ≤ total (Traffic k) - zsum (λ g, g (Traffic k)) gs.
Proof.
  intros Hi. pose proof (ti_total s gs Hi (Traffic k)) as Ht. pose proof (recorded_nonneg (Traffic k) _ (ti_log s gs Hi)).
  simpl in Ht. lia.
Qed.


Lemma owed_le (gs : list (tally → Z)) i g t :
  (∀ t g, g ∈ gs → 0 ≤ g t) → gs !! i = Some g → g t ≤ zsum (λ g, g t) gs.
Proof.
  intros Hn Hi. pose proof (zsum_insert (λ g : tally → Z, g t) gs i g (λ _, 0) Hi) as He. simpl in He.
  assert (0 ≤ zsum (λ g : tally → Z, g t) (<[i := λ _, 0]> gs)); [|lia].
  apply zsum_nonneg, Forall_forall. intros x Hx. destruct (elem_of_list_insert gs i g _ x Hi Hx) as [->|]; auto; lia.
Qed.

Lemma totals_admissible {B} (e : act B) (g : tally → Z) s gs i b s' :
  gs !! i = Some g → allowed e → totals_inv s gs → (b, s') ∈ handle B e s → admissible e b.
Proof using Htotal.
  intros Hi He HI Hin. destruct e; cbn [handle admissible] in *; try done;
    apply list_elem_of_singleton in Hin; simplify_eq.
  - pose proof (ti_atomics s gs HI k). pose proof (atomics_bound s gs k HI). specialize (Htotal k).
    pose proof (owed_le gs i g (Traffic k) (ti_owed s gs HI) Hi).
    pose proof (ti_owed s gs HI (Traffic k) g ltac:(by eapply list_elem_of_lookup_2)). lia.
  - by apply (ti_default s gs HI).
Qed.

Lemma totals_step {B A} (e : act B) (k : B → prog act A) (g : tally → Z) s gs i b s' :
  gs !! i = Some g → (∀ t, books t (Act e k) (g t)) → totals_inv s gs → (b, s') ∈ handle B e s →
  ∃ g' : tally → Z, (∀ t, books t (k b) (g' t)) ∧ totals_inv s' (<[i := g']> gs).
Proof using Htotal.
  intros Hi Hb HI Hin. pose proof (Hb Opens) as (_ & He & _).
  pose proof (totals_admissible e g s gs i b s' Hi He HI Hin) as Ha.
  assert (Hk : ∀ t, books t (k b) (g t - gain t e b)) by (intros t; pose proof (Hb t) as (_ & _ & Hk); auto).
  exists (λ t, g t - gain t e b). split; [done|].
  assert (Hadd : match e with Add k n => 0 ≤ atomics s k + n < 2 ^ 63 | _ => True end).
  { destruct e as [k' n|k'| | | | | | | | | | | | | |]; try done. pose proof (atomics_bound s gs k' HI). pose proof (ti_atomics s gs HI k').
    pose proof (owed_le gs i g (Traffic k') (ti_owed s gs HI) Hi). specialize (Htotal k').
    pose proof (books_nonneg _ _ _ _ _ (Hk (Traffic k'))) as Hn. cbn [gain allowed] in *.
    unfold eqt in Hn. rewrite decide_True in Hn by done. lia. }
  split.
  - intros t. pose proof (handle_gain t e s b s' Hin Hadd). pose proof (ti_total s gs HI t).
    pose proof (zsum_insert (λ g : tally → Z, g t) gs i g (λ t, g t - gain t e b) Hi) as Hz. simpl in Hz. lia.
  - intros k'. pose proof (ti_atomics s gs HI k') as Hk'.
    destruct e; cbn [handle] in Hin; repeat case_match; try apply list_elem_of_singleton in Hin; simplify_eq;
      try (by inversion Hin); try done; simpl; case_decide; subst; try done. rewrite i64_small by lia. lia.
  - intros t g' Hg. destruct (elem_of_list_insert gs i g _ g' Hi Hg) as [->|]; [apply (books_nonneg _ _ _ _ _ (Hk t))|by apply (ti_owed s gs HI)].
  - pose proof (ti_log s gs HI). destruct e; cbn [handle] in Hin; repeat case_match; try apply list_elem_of_singleton in Hin; simplify_eq;
      try (by inversion Hin); try done. simpl. by apply Forall_app_2; [|constructor].
  - pose proof (ti_default s gs HI). destruct e; cbn [handle] in Hin; repeat case_match; try apply list_elem_of_singleton in Hin; simplify_eq;
      try (by inversion Hin); done.
Qed.

End totals.
End fixed.

#[local] Notation books ud t := (Books.books (@gain t) (@allowed ud) (@admissible)).


(** ** What is counted is drained

    [drains k p]: when the connection is closed, [p] drains counter [k] on every path. *)
Fixpoint drains {A} (k : counter) (p : prog act A) : Prop :=
  match p with
  | Ret _ => False
  | Act e K =>
      match e in act B return (B → prog act A) → Prop with
      | Swap0 k' => λ K, k = k' ∨ ∀ b, drains k (K b)
      | LoadClosed => λ K, drains k (K true)
      | _ => λ K, ∀ b, drains k (K b)
      end K
  end.

(** What [p] counts it drains after Close, and the first Close drains everything. *)
Fixpoint guarded {A} (p : prog act A) : Prop :=
  match p with
  | Ret _ => True
  | Act e K =>
      match e in act B return (B → prog act A) → Prop with
      | Add k n => λ K, drains k (K tt) ∧ guarded (K tt)
      | SwapClosed => λ K, (∀ k, drains k (K false)) ∧ ∀ b, guarded (K b)
      | _ => λ K, ∀ b, guarded (K b)
      end K
  end.

Lemma drains_bind {A C} k (p : prog act A) (f : A → prog act C) :
  drains k p ∨ (∀ r, drains k (f r)) → drains k (bind p f).
Proof.
  induction p as [r|B e K IH]; intros [Hp|Hf]; try done; [apply Hf|..];
    destruct e; simpl in *; try (destruct Hp as [Hp|Hp]; [by left|right]); auto.
Qed.

Lemma guarded_bind {A C} (p : prog act A) (f : A → prog act C) :
  guarded p → (∀ r, guarded (f r)) → guarded (bind p f).
Proof.
  intros Hp Hf. induction p as [r|B e K IH]; [apply Hf|].
  destruct e; simpl in *; auto.
  - destruct Hp as [Hd Hp]. split; [apply drains_bind; by left|auto].
  - destruct Hp as [Hd Hp]. split; [intros k; apply drains_bind; by left|auto].
Qed.

(** Programs that count nothing and do not close. *)
Lemma recorder_guarded {A} s (k : option nat → prog act A) : (∀ r, guarded (k r)) → guarded (let@ r := recorder s; k r).
Proof. intros Hk. apply guarded_bind; [|done]. unfold recorder. by case_match; [intros [|]|]. Qed.

Lemma count_guarded c name v extra : guarded (count c name v extra).
Proof. apply recorder_guarded. intros [r|]; [|done]. by case_match. Qed.
Lemma observe_guarded c name v : guarded (observe c name v).
Proof. apply recorder_guarded. intros [r|]; [|done]. by case_match. Qed.
Lemma fail_guarded c o err : guarded (fail_ c o err).
Proof. unfold fail_. repeat case_match; [done|apply count_guarded|done]. Qed.

Lemma flush_guarded c : guarded (flush c).
Proof.
  intros n. apply guarded_bind; [apply count_guarded|]. intros _ n2. apply guarded_bind; [apply count_guarded|].
  intros _ n3. apply guarded_bind; [apply observe_guarded|]. intros _ n4. apply observe_guarded.
Qed.

Lemma swap_drains {A} k k' (K : Z → prog act A) : k = k' ∨ (∀ b, drains k (K b)) → drains k (Act (Swap0 k') K).
Proof. done. Qed.

Lemma flush_drains c k : drains k (flush c).
Proof.
  unfold flush. apply swap_drains. destruct (decide (k = readCalls)) as [|H1]; [by left|right]. intros n. apply drains_bind. right. intros _.
  apply swap_drains. destruct (decide (k = writeCalls)) as [|H2]; [by left|right]. intros n2. apply drains_bind. right. intros _.
  apply swap_drains. destruct (decide (k = readBytes)) as [|H3]; [by left|right]. intros n3. apply drains_bind. right. intros _.
  apply swap_drains. left. by destruct k.
Qed.

Lemma touch_guarded c : guarded (touch c).
Proof.
  intros cl. destruct cl; [apply flush_guarded|]. intros ar. destruct ar; [done|]. intros _ cl. destruct cl; [done|].
  intros ar. by destruct ar.
Qed.

Lemma tick_guarded c : guarded (tick c).
Proof. intros _ cl. destruct cl; [done|]. apply guarded_bind; [apply flush_guarded|done]. Qed.

(** touch drains: after Close it flushes. *)
Lemma touch_drains c k : drains k (touch c).
Proof. apply flush_drains. Qed.

Lemma traffic_guarded {A} c k k' n o err (r : A) :
  guarded (Act (Add k 1) (λ _, Act (Add k' n) (λ _, run@ fail_ c o err; run@ touch c; Ret r))).
Proof.
  assert (Ht : ∀ q, drains q (run@ fail_ c o err; run@ touch c; Ret r)).
  { intros q. apply drains_bind. right. intros _. apply drains_bind. left. apply touch_drains. }
  split; [intros _; apply Ht|split; [apply Ht|]].
  apply guarded_bind; [apply fail_guarded|intros _]. apply guarded_bind; [apply touch_guarded|done].
Qed.

Lemma Close_guarded c err : guarded (Close c err).
Proof.
  apply guarded_bind; [apply fail_guarded|intros _]. intros _. split.
  - intros k present. apply drains_bind. right. intros _ _. apply drains_bind. left. apply flush_drains.
  - intros was present. apply guarded_bind; [by destruct present|]. intros _ _. destruct was; [done|].
    apply guarded_bind; [apply flush_guarded|intros _]. apply guarded_bind; [apply count_guarded|done].
Qed.

Lemma run_guarded c o : guarded (run c o).
Proof.
  destruct o as [n err|n err|err|err|err|err| |[r|]]; cbn [run].
  1,2: apply guarded_bind; [apply traffic_guarded|done].
  1: apply guarded_bind; [apply Close_guarded|done].
  1,2,3: apply guarded_bind; [apply guarded_bind; [apply fail_guarded|done]|done].
  - intros _. apply tick_guarded.
  - done.
  - done.
Qed.

(** A closed connection has nothing in its atomics that no goroutine is about to drain. *)
Definition drained (s : state) (ts : list (prog act unit)) : Prop :=
  closed s = true → ∀ k, atomics s k ≠ 0 → ∃ p, p ∈ ts ∧ drains k p.

Lemma drained_step {B} (e : act B) K (s : state) ts i b s' :
  ts !! i = Some (Act e K) → guarded (Act e K) → drained s ts → (b, s') ∈ handle B e s →
  guarded (K b) ∧ drained s' (<[i := K b]> ts).
Proof.
  intros Hi Hg Hd Hin. split.
  { destruct e; cbn [handle] in Hin; repeat case_match; try apply list_elem_of_singleton in Hin; simplify_eq;
      try (by inversion Hin); simpl in Hg; try apply Hg. }
  assert (Hnew : ∀ k, drains k (K b) → ∃ p, p ∈ <[i := K b]> ts ∧ drains k p).
  { intros k Hk. exists (K b). split; [by eapply elem_of_list_insert_new|done]. }
  assert (Hold : ∀ k, drained s ts → closed s = true → atomics s k ≠ 0 →
    (drains k (Act e K) → drains k (K b)) → ∃ p, p ∈ <[i := K b]> ts ∧ drains k p).
  { intros k Hd' Hc Ha Hk. destruct (Hd' Hc k Ha) as (p & Hp & Hdr).
    destruct (elem_of_list_insert_other ts i (Act e K) (K b) p Hi Hp) as [->|]; [auto|eauto]. }
  intros Hc k Ha.
  destruct e; cbn [handle] in Hin; repeat case_match; try apply list_elem_of_singleton in Hin; simplify_eq;
    try (by inversion Hin); simpl in Hc, Ha, Hg.
  all: try (apply Hold; [done|done|done|]; simpl; intros Hdr; by apply Hdr).
  - case_decide; [subst; by apply Hnew, Hg|]. apply Hold; [done..|]. intros Hdr. apply (Hdr tt).
  - case_decide; [done|]. apply Hold; [done..|]. intros [->|Hdr]; [done|apply Hdr].
  - apply Hold; [done..|]. by rewrite Hc.
  - destruct (closed s) eqn:Hcl; [|by apply Hnew, Hg]. apply Hold; [done..|]. intros Hdr. apply (Hdr true).
Qed.

(** ** The mutex and the timer

    Outside the mutex; inside; inside, having found the connection open; inside, having
    closed it and not yet stopped the timer. *)
Inductive phase := Out | In_ | Open_ | Closing.

#[global] Instance phase_eq_dec : EqDecision phase.
Proof. solve_decision. Defined.

(** [known]: the goroutine knows that the timer is not nil. *)
Record place := mkPlace { ph : phase; known : bool }.

Fixpoint protocol {A} (p : prog act A) (g : place) : Prop :=
  match p with
  | Ret _ => ph g = Out
  | Act e K =>
      match e in act B return (B → prog act A) → Prop with
      | MuLock => λ K, ph g = Out ∧ protocol (K tt) (mkPlace In_ (known g))
      | MuUnlock => λ K, (ph g = In_ ∨ ph g = Open_) ∧ protocol (K tt) (mkPlace Out (known g))
      | LoadClosed => λ K,
          match ph g with
          | Out => ∀ b, protocol (K b) g
          | In_ | Open_ => protocol (K true) (mkPlace In_ (known g)) ∧ protocol (K false) (mkPlace Open_ (known g))
          | Closing => False
          end
      | SwapClosed => λ K, ph g = In_ ∧ ∀ b, protocol (K b) (mkPlace Closing (known g))
      | LoadTimer => λ K, ph g = Closing ∧ protocol (K true) (mkPlace Closing true) ∧ protocol (K false) (mkPlace In_ (known g))
      | TimerStop => λ K, (ph g = Closing ∧ known g = true) ∧ protocol (K tt) (mkPlace In_ true)
      | AfterFunc _ => λ K, ph g = Open_ ∧ protocol (K tt) (mkPlace Open_ true)
      | TimerReset _ => λ K, (ph g = Open_ ∧ known g = true) ∧ protocol (K tt) g
      | TimerFires => λ K, ph g = Out ∧ protocol (K tt) (mkPlace Out true)
      | _ => λ K, ∀ b, protocol (K b) g
      end K
  end.

Definition plain_act {B} (e : act B) : bool :=
  match e with Add _ _ | Swap0 _ | LoadArmed | StoreArmed | LoadDefault | StoreDefault _ | Emit _ => true | _ => false end.

(** Programs without an action on the mutex, the flag or the timer. *)
Fixpoint plain {A} (p : prog act A) : Prop :=
  match p with Ret _ => True | Act e K => plain_act e = true ∧ ∀ b, plain (K b) end.

Lemma plain_bind {A C} (p : prog act A) (f : A → prog act C) : plain p → (∀ r, plain (f r)) → plain (bind p f).
Proof. intros Hp Hf. induction p as [r|B e K IH]; [apply Hf|]. destruct Hp as [He Hp]. split; [done|]. intros b. by apply IH. Qed.

Lemma protocol_plain {A C} (p : prog act A) (f : A → prog act C) g : plain p → (∀ r, protocol (f r) g) → protocol (bind p f) g.
Proof.
  intros Hp Hf. induction p as [r|B e K IH]; [apply Hf|]. destruct Hp as [He Hp].
  destruct e; simpl in He; try done; intros b; by apply IH.
Qed.

Lemma plain_protocol {A} (p : prog act A) g : plain p → ph g = Out → protocol p g.
Proof.
  intros Hp Hg. induction p as [r|B e K IH]; [done|]. destruct Hp as [He Hp].
  destruct e; simpl in He; try done; intros b; by apply IH.
Qed.

Lemma count_plain c name v extra : plain (count c name v extra).
Proof.
  apply plain_bind; [unfold recorder; case_match; [split; [done|by intros [|]]|done]|].
  intros [r|]; [|done]. by case_match.
Qed.
Lemma observe_plain c name v : plain (observe c name v).
Proof.
  apply plain_bind; [unfold recorder; case_match; [split; [done|by intros [|]]|done]|].
  intros [r|]; [|done]. by case_match.
Qed.
Lemma fail_plain c o err : plain (fail_ c o err).
Proof. unfold fail_. repeat case_match; [done|apply count_plain|done]. Qed.
Lemma flush_plain c : plain (flush c).
Proof.
  split; [done|intros n]. apply plain_bind; [apply count_plain|intros _]. split; [done|intros n2].
  apply plain_bind; [apply count_plain|intros _]. split; [done|intros n3].
  apply plain_bind; [apply observe_plain|intros _]. split; [done|intros n4]. apply observe_plain.
Qed.

Lemma protocol_bind {A C} (p : prog act A) (f : A → prog act C) g :
  protocol p g → (∀ r g', ph g' = Out → protocol (f r) g') → protocol (bind p f) g.
Proof.
  intros Hp Hf. revert g Hp. induction p as [r|B e K IH]; intros g Hp; [by apply Hf|].
  destruct e; simpl in *; try (destruct (ph g)); naive_solver.
Qed.

Lemma touch_protocol c g : ph g = Out → protocol (touch c) g.
Proof.
  destruct g as [p kn]. simpl. intros ->. intros [].
  { apply plain_protocol; [apply flush_plain|done]. }
  intros []; [done|]. split; [done|]. split; [by split; [left|]|]. intros []; [by split; [right|]|].
  intros _. split; [done|]. by split; [right|].
Qed.

Lemma tick_protocol c g : ph g = Out → known g = true → protocol (tick c) g.
Proof.
  destruct g as [p kn]. cbn [ph known]. intros -> ->. split; [done|]. split; [by split; [left|]|].
  apply (protocol_plain (flush c)); [apply flush_plain|intros _]. split; [done|]. by split; [right|].
Qed.

Lemma Close_protocol c err g : ph g = Out → protocol (Close c err) g.
Proof.
  intros Hg. apply protocol_plain; [apply fail_plain|intros _]. split; [done|]. split; [done|]. intros was. split; [done|].
  assert (Htail : ∀ g', ph g' = Out →
    protocol (if negb was then run@ flush c; run@ count c metricClose f_one []; Ret err else Ret err) g').
  { intros g' Hg'. destruct was; [done|]. apply protocol_plain; [apply flush_plain|intros _].
    apply protocol_plain; [apply count_plain|done]. }
  split; [split; [by split|]|]; (split; [by left|]); by apply Htail.
Qed.

Lemma run_protocol c o : protocol (run c o) (mkPlace Out false).
Proof.
  assert (Hr : ∀ A (r : A) g', ph g' = Out → protocol (Ret r) g') by done.
  destruct o as [n err|n err|err|err|err|err| |[r|]]; cbn [run].
  1,2: apply protocol_bind; [|auto]; intros _ _; (apply protocol_plain; [apply fail_plain|intros _]);
       apply protocol_bind; [by apply touch_protocol|auto].
  1: apply protocol_bind; [by apply Close_protocol|auto].
  1,2,3: apply protocol_bind; [apply protocol_plain; [apply fail_plain|auto]|auto].
  - split; [done|]. by apply tick_protocol.
  - by intros _.
  - by intros _.
Qed.

Definition holding (g : place) : Z := if decide (ph g = Out) then 0 else 1.

Record timer_inv (s : state) (gs : list place) : Prop := {
  tm_mutex : zsum holding gs = if mu s then 1 else 0;
  tm_open : ∀ g, g ∈ gs → ph g = Open_ → closed s = false;
  tm_stopped : closed s = true → timer s = Some true → ∃ g, g ∈ gs ∧ ph g = Closing;
  tm_known : ∀ g, g ∈ gs → known g = true → timer s ≠ None;
  tm_panic : panicked s = false }.

(** The mutex has one holder. *)
Lemma holder_unique gs i j g g' (s : state) :
  zsum holding gs = (if mu s then 1 else 0) → gs !! i = Some g → gs !! j = Some g' → ph g ≠ Out → ph g' ≠ Out → i = j.
Proof.
  intros Hz Hi Hj Hg Hg'. destruct (decide (i = j)) as [|Hne]; [done|exfalso].
  pose proof (zsum_insert holding gs i g (mkPlace Out false) Hi) as H1.
  pose proof (zsum_ge holding (<[i := mkPlace Out false]> gs) j g'
    ltac:(intros y; unfold holding; case_decide; lia) ltac:(by rewrite list_lookup_insert_ne)) as H2.
  assert (holding g = 1) by (unfold holding; by rewrite decide_False).
  assert (holding g' = 1) by (unfold holding; by rewrite decide_False).
  assert (holding (mkPlace Out false) = 0) by done.
  destruct (mu s); lia.
Qed.

Lemma holder_mutex (s : state) gs g : timer_inv s gs → g ∈ gs → ph g ≠ Out → mu s = true.
Proof.
  intros HI Hg Hph. apply list_elem_of_lookup in Hg as [i Hi]. pose proof (tm_mutex s gs HI) as Hm.
  pose proof (zsum_ge holding gs i g ltac:(intros y; unfold holding; case_decide; lia) Hi) as Hge.
  unfold holding at 1 in Hge. rewrite decide_False in Hge by done. destruct (mu s); [done|lia].
Qed.

(** A goroutine moves from [g] to [g']; the others keep what they had. *)
Lemma timer_move s s' gs i g g' :
  gs !! i = Some g → timer_inv s gs →
  holding g' = holding g + (if mu s' then 1 else 0) - (if mu s then 1 else 0) →
  (ph g' = Open_ → closed s' = false) →
  (closed s' = closed s ∨ ph g = In_) →
  (closed s' = true → timer s' = Some true → ph g' = Closing ∨ ((ph g = Closing → ph g' = Closing) ∧ closed s = true ∧ timer s = Some true)) →
  (known g' = true → timer s' ≠ None) → (timer s ≠ None → timer s' ≠ None) →
  panicked s' = false →
  timer_inv s' (<[i := g']> gs).
Proof.
  intros Hi HI Hh Ho Hc Hs Hk Ht Hp. split; [| | | |done].
  - pose proof (zsum_insert holding gs i g g' Hi). pose proof (tm_mutex s gs HI). lia.
  - intros x Hx Hxo. apply list_elem_of_lookup in Hx as [j Hj]. destruct (decide (i = j)) as [->|Hne].
    { rewrite list_lookup_insert_eq in Hj by (by eapply lookup_lt_Some). simplify_eq. auto. }
    rewrite list_lookup_insert_ne in Hj by done. destruct Hc as [->|Hin].
    { eapply (tm_open s gs HI); [by eapply list_elem_of_lookup_2|done]. }
    destruct Hne. eapply (holder_unique gs i j g x s (tm_mutex s gs HI)); [done..| |]; congruence.
  - intros Hcl Htm. destruct (Hs Hcl Htm) as [Hg'|(Hg & Hcl0 & Htm0)].
    { exists g'. split; [by eapply elem_of_list_insert_new|done]. }
    destruct (tm_stopped s gs HI Hcl0 Htm0) as (x & Hx & Hxc).
    destruct (elem_of_list_insert_other gs i g g' x Hi Hx) as [->|]; [|by eauto].
    exists g'. split; [by eapply elem_of_list_insert_new|auto].
  - intros x Hx Hkx. destruct (elem_of_list_insert gs i g g' x Hi Hx) as [->|Hx']; [auto|].
    apply Ht. by eapply (tm_known s gs HI).
Qed.

(** The side conditions of [timer_move] that follow from the case. *)
Ltac mv :=
  first [ done | by left | by right | by intros; left | by intros; right; split_and!; intros; congruence
        | by intros; congruence | by auto ].

Lemma timer_step {B A} (e : act B) (K : B → prog act A) g s gs i b s' :
  gs !! i = Some g → protocol (Act e K) g → timer_inv s gs → (b, s') ∈ handle B e s →
  ∃ g', protocol (K b) g' ∧ timer_inv s' (<[i := g']> gs).
Proof.
  intros Hi Hp HI Hin. pose proof (list_elem_of_lookup_2 _ _ _ Hi) as Hg.
  pose proof (tm_open s gs HI g Hg) as Hopen. pose proof (tm_known s gs HI g Hg) as Hkn. pose proof (tm_panic s gs HI) as Hpa.
  destruct e; cbn [handle] in Hin; repeat case_match; try apply list_elem_of_singleton in Hin; simplify_eq;
    try (by inversion Hin); simpl in Hp.
  all: try (exists g; split; [apply Hp|]; rewrite list_insert_id by done; by destruct HI; split).
  all: pose proof (holder_mutex s gs g HI Hg) as Hmu.
  - assert (∃ g', protocol (K (closed s)) g' ∧ known g' = known g ∧ (ph g = Out ↔ ph g' = Out) ∧ ph g ≠ Closing ∧ (ph g' = Open_ → closed s = false)) as (g' & Hg' & Hk & Ho & Hn & Hop).
    { destruct g as [[] kn]; simpl in *; [exists (mkPlace Out kn)|destruct (closed s); destruct Hp as [H1 H2]; eexists..|done]; split; [apply Hp| |exact H1| |exact H2| |exact H1| |exact H2|]; done. }
    exists g'. split; [done|]. apply (timer_move s s gs i g g' Hi HI); rewrite ?Hk; try mv.
    unfold holding. repeat case_decide; tauto || lia.
  - destruct Hp as [Hph Hp]. eexists. split; [apply Hp|].
    apply (timer_move s _ gs i g _ Hi HI); simpl; try mv. unfold holding. rewrite Hph. simpl. lia.
  - destruct Hp as [Hph Hp]. eexists. split; [apply Hp|].
    apply (timer_move s _ gs i g _ Hi HI); simpl; try mv. unfold holding. rewrite Hph. simpl.
    match goal with Hf : mu s = false |- _ => rewrite Hf end. lia.
  - destruct Hp as [[Hph|Hph] Hp]; eexists; (split; [apply Hp|]);
      (apply (timer_move s _ gs i g _ Hi HI); simpl; try mv); rewrite Hmu by congruence;
      unfold holding; rewrite Hph; simpl; lia.
  - destruct Hp as (Hph & Hp1 & Hp2). case_bool_decide as Ht.
    + exists (mkPlace Closing true). split; [done|].
      apply (timer_move s _ gs i g _ Hi HI); simpl; try mv. unfold holding. rewrite Hph. simpl. lia.
    + exists (mkPlace In_ (known g)). split; [done|].
      apply (timer_move s _ gs i g _ Hi HI); simpl; try mv.
      unfold holding. rewrite Hph. simpl. lia.
  - destruct Hp as [Hph Hp]. pose proof (Hopen Hph). eexists. split; [apply Hp|].
    apply (timer_move s _ gs i g _ Hi HI); simpl; try mv. unfold holding. rewrite Hph. simpl. lia.
  - destruct Hp as [[Hph Hk] Hp]. pose proof (Hopen Hph). eexists. split; [apply Hp|].
    apply (timer_move s _ gs i g _ Hi HI); simpl; try mv. lia.
  - destruct Hp as [[Hph Hk] Hp]. by destruct (Hkn Hk).
  - destruct Hp as [[Hph Hk] Hp]. eexists. split; [apply Hp|].
    apply (timer_move s _ gs i g _ Hi HI); simpl; try mv. unfold holding. rewrite Hph. simpl. lia.
  - destruct Hp as [[Hph Hk] Hp]. by destruct (Hkn Hk).
  - destruct Hp as [Hph Hp]. eexists. split; [apply Hp|].
    apply (timer_move s _ gs i g _ Hi HI); simpl; try mv. unfold holding. rewrite Hph. simpl. lia.
Qed.

(** ** Closing *)
Fixpoint closes {A} (p : prog act A) : Prop :=
  match p with
  | Ret _ => False
  | Act e K =>
      match e in act B return (B → prog act A) → Prop with
      | SwapClosed => λ _, True
      | _ => λ K, ∀ b, closes (K b)
      end K
  end.

Lemma closes_bind {A C} (p : prog act A) (f : A → prog act C) : closes p ∨ (∀ r, closes (f r)) → closes (bind p f).
Proof. induction p as [r|B e K IH]; intros [Hp|Hf]; try done; [apply Hf|..]; destruct e; simpl in *; auto. Qed.

Lemma Close_closes c err : closes (run c (OpClose err)).
Proof. apply closes_bind. left. apply closes_bind. right. by intros _ _. Qed.

Definition closed_or_will (s : state) (ts : list (prog act unit)) : Prop := closed s = true ∨ ∃ p, p ∈ ts ∧ closes p.

Lemma closing_step {B} (e : act B) K (s : state) ts i b s' :
  ts !! i = Some (Act e K) → closed_or_will s ts → (b, s') ∈ handle B e s → closed_or_will s' (<[i := K b]> ts).
Proof.
  intros Hi Hc Hin.
  assert (Hcl : closed s = true → closed s' = true).
  { destruct e; cbn [handle] in Hin; repeat case_match; try apply list_elem_of_singleton in Hin; simplify_eq; by try inversion Hin. }
  destruct Hc as [Hc|(p & Hp & Hpc)]; [left; auto|].
  destruct (elem_of_list_insert_other ts i (Act e K) (K b) p Hi Hp) as [->|]; [|right; eauto].
  destruct e; simpl in Hpc;
    try (right; exists (K b); split; [by eapply elem_of_list_insert_new|apply Hpc]).
  left. cbn [handle] in Hin. apply list_elem_of_singleton in Hin. by simplify_eq.
Qed.

(** A goroutine of the timer that has not begun neither drains nor closes nor owes. *)
Lemma tick_idle c : ¬ closes (run c OpTick) ∧ ∀ k, ¬ drains k (run c OpTick).
Proof. split; [intros Hc; exact (Hc tt tt true tt)|intros k Hd; exact (Hd tt tt tt)]. Qed.

Lemma answers B (e : act B) : ∃ b, admissible e b.
Proof. destruct e; simpl; try (by exists tt); try (by exists true); [exists 0; lia|by exists (Some 0%nat)]. Qed.

(** ** The connection as a whole *)
Definition init_state (dr : option nat) : state := mkState (λ _, 0) false false false None dr [] false.

Definition records (s : sink) (dr : option nat) : Prop := if useDefault s then dr ≠ None else sink_r s ≠ None.

(** The state newConn leaves. *)
Lemma newConn_state P Q ctags sk nc cfg dr c w s0 :
  records sk dr → (c, w, s0) ∈ outcomes handle (newConn P Q ctags sk nc cfg) (init_state dr) →
  c_sink c = sk ∧ ∃ r, s0 = add_log (init_state dr) (mkEntry r MetricTypeCounter metricOpen f_one (c_tags c)).
Proof.
  intros Hr Hin. unfold newConn in Hin. set (b := build_conn P Q ctags sk nc cfg) in *.
  assert (Hs : c_sink b = sk) by (unfold b, build_conn; by destruct (connZones P Q cfg ctags nc)).
  rewrite outcomes_bind in Hin. unfold count in Hin. rewrite outcomes_bind in Hin. rewrite Hs in Hin.
  unfold recorder, records in *. destruct (useDefault sk); simpl in Hin.
  - destruct dr as [r|]; [|done]. simpl in Hin. apply list_elem_of_singleton in Hin. simplify_eq. eauto.
  - destruct (sink_r sk) as [r|]; [|done]. simpl in Hin. apply list_elem_of_singleton in Hin. simplify_eq. eauto.
Qed.

Definition grand_total (ops : list op) (t : tally) : Z := zsum (share t) ops + eqt t Opens 1.

Lemma share_nonneg c t o : op_ok c o → 0 ≤ share t o.
Proof.
  intros Ho. destruct t as [[]| | |], o; simpl in *; try lia; apply counts_as_error_nonneg.
Qed.

Lemma share_bound c ops o t : Forall (op_ok c) ops → o ∈ ops → share t o ≤ zsum (share t) ops.
Proof.
  intros Hf Ho. induction ops as [|x ops IH]; [by apply elem_of_nil in Ho|]. inversion Hf; subst. rewrite zsum_cons.
  pose proof (share_nonneg c t x ltac:(done)). assert (0 ≤ zsum (share t) ops).
  { apply zsum_nonneg. eapply Forall_impl; [done|]. intros y Hy. by apply (share_nonneg c). }
  apply elem_of_cons in Ho as [->|Ho]; [lia|]. pose proof (IH ltac:(done) Ho). lia.
Qed.

Section runs.
Context (c : conn) (dr : option nat) (r0 : nat) (ops : list op) (ts : list (prog act unit)) (s : state).
Context (Hrec : records (c_sink c) dr) (Hok : Forall (op_ok c) ops).
Context (Hbound : ∀ k, zsum (share (Traffic k)) ops < 2 ^ 53).

Definition opened : state := add_log (init_state dr) (mkEntry r0 MetricTypeCounter metricOpen f_one (c_tags c)).
Context (Hsteps : conn_steps (run c <$> ops, opened) (ts, s)).

Lemma run_totals : ∃ gs : list (tally → Z),
  Forall2 (λ p g, ∀ t, books (useDefault (c_sink c)) t p (g t)) ts gs ∧ totals_inv (useDefault (c_sink c)) (grand_total ops) s gs.
Proof using Hrec Hok Hbound Hsteps.
  eapply (pool_invariant handle no_env (λ p g, ∀ t, books (useDefault (c_sink c)) t p (g t))
    (totals_inv (useDefault (c_sink c)) (grand_total ops))) in Hsteps; [exact Hsteps|..].
  - intros B e k g s1 gs i b s2 Hi Hp HI Hin. eapply totals_step; try done.
    intros k'. unfold grand_total, eqt. rewrite decide_False by done. specialize (Hbound k'). lia.
  - done.
  - exists ((λ o t, share t o) <$> ops). split.
    + simpl. apply Forall2_fmap_2. apply Forall_Forall2_diag, Forall_forall. intros o Ho t.
      apply run_books; [done|unfold records in Hrec; by intros Hf; rewrite Hf in Hrec| | |].
      * by eapply Forall_forall in Hok.
      * eapply Z.le_lt_trans; [by apply (share_bound c)|apply Hbound].
      * eapply Z.le_lt_trans; [by apply (share_bound c)|apply Hbound].
    + split; simpl.
      * intros t. assert (Hz : zsum (λ g : tally → Z, g t) ((λ o t, share t o) <$> ops) = zsum (share t) ops).
        { by rewrite zsum_fmap. }
        rewrite Hz. unfold grand_total, recorded. rewrite zsum_cons. change (zsum (entry_of t) []) with 0.
        assert (entry_of t (mkEntry r0 MetricTypeCounter metricOpen f_one (c_tags c)) = eqt t Opens 1) as -> by (by destruct t as [[]| | |]).
        assert (stock t opened = 0) by (by destruct t as [[]| | |]). lia.
      * done.
      * intros t g Hg. apply list_elem_of_fmap in Hg as (o & -> & Ho). eapply Forall_forall in Hok; [|done]. by apply (share_nonneg c).
      * by repeat constructor.
      * unfold records in Hrec. intros Hu. by rewrite Hu in Hrec.
Qed.

Lemma run_drained : drained s ts ∧ ((∃ err, OpClose err ∈ ops) → closed_or_will s ts).
Proof using Hsteps.
  assert (Hinv : ∃ gs, Forall2 (λ p g, p = g ∧ guarded p) ts gs ∧ drained s gs ∧ ((∃ err, OpClose err ∈ ops) → closed_or_will s gs)).
  { eapply (pool_invariant handle no_env (λ p g, p = g ∧ guarded p)
      (λ s gs, drained s gs ∧ ((∃ err, OpClose err ∈ ops) → closed_or_will s gs))) in Hsteps; [exact Hsteps|..].
    - intros B e K g s1 gs i b s2 Hi [<- Hg] [Hd Hc] Hin. exists (K b).
      destruct (drained_step e K s1 gs i b s2 Hi Hg Hd Hin) as [Hg' Hd']. split_and!; [done|done|done|].
      intros Ho. eapply closing_step; [done|by apply Hc|done].
    - done.
    - exists (run c <$> ops). split_and!.
      + simpl. apply Forall_Forall2_diag, Forall_forall. intros p Hp. apply list_elem_of_fmap in Hp as (o & -> & _).
        split; [done|apply run_guarded].
      + done.
      + intros [err Herr]. right. exists (run c (OpClose err)). split; [|apply Close_closes].
        apply list_elem_of_fmap. eauto. }
  destruct Hinv as (gs & Hgs & Hd & Hc). replace ts with gs; [done|].
  clear -Hgs. induction Hgs as [|p g ts gs [<- _] _ IH]; [done|by rewrite IH].
Qed.

Lemma run_timer : ∃ gs, Forall2 protocol ts gs ∧ timer_inv s gs.
Proof using Hsteps.
  eapply (pool_invariant handle no_env protocol timer_inv) in Hsteps; [exact Hsteps|..].
  - intros B e k g s1 gs i b s2 Hi Hp HI Hin. by eapply timer_step.
  - done.
  - exists ((λ _, mkPlace Out false) <$> ops). split.
    + simpl. apply Forall2_fmap_2, Forall_Forall2_diag, Forall_forall. intros o _. apply run_protocol.
    + split; simpl; try done.
      * rewrite zsum_fmap. apply zsum_zero.
      * intros g Hg. by apply list_elem_of_fmap in Hg as (o & -> & _).
Qed.

End runs.

(** ** Nobody waits for ever *)
Fixpoint no_fire {A} (p : prog act A) : Prop :=
  match p with
  | Ret _ => True
  | Act e K =>
      match e in act B return (B → prog act A) → Prop with
      | TimerFires => λ _, False
      | _ => λ K, ∀ b, no_fire (K b)
      end K
  end.

Lemma no_fire_bind {A C} (p : prog act A) (f : A → prog act C) : no_fire p → (∀ r, no_fire (f r)) → no_fire (bind p f).
Proof. intros Hp Hf. induction p as [r|B e K IH]; [apply Hf|]. destruct e; simpl in *; auto. Qed.

Lemma plain_no_fire {A} (p : prog act A) : plain p → no_fire p.
Proof. induction p as [r|B e K IH]; [done|]. intros [He Hp]. destruct e; simpl in *; try done; intros b; by apply IH. Qed.

Lemma touch_no_fire c : no_fire (touch c).
Proof. intros [|]; [apply plain_no_fire, flush_plain|]. intros [|]; [done|]. intros _ [|]; [done|]. by intros [|]. Qed.

Lemma tick_no_fire c : no_fire (tick c).
Proof. intros _ [|]; [done|]. apply no_fire_bind; [apply plain_no_fire, flush_plain|done]. Qed.

Lemma Close_no_fire c err : no_fire (Close c err).
Proof.
  apply no_fire_bind; [apply plain_no_fire, fail_plain|]. intros _ _ was present.
  apply no_fire_bind; [by destruct present|]. intros _ _. destruct was; [done|].
  apply no_fire_bind; [apply plain_no_fire, flush_plain|intros _]. apply no_fire_bind; [apply plain_no_fire, count_plain|done].
Qed.

Lemma run_no_fire c o : run c o = run c OpTick ∨ no_fire (run c o).
Proof.
  assert (Hf : ∀ w err, no_fire (fail_ c w err)) by (intros; apply plain_no_fire, fail_plain).
  destruct o as [n err|n err|err|err|err|err| |[r|]]; try (by left); right; cbn [run].
  1,2: apply no_fire_bind; [|done]; intros _ _; (apply no_fire_bind; [apply Hf|intros _]); apply no_fire_bind; [apply touch_no_fire|done].
  1: apply no_fire_bind; [apply Close_no_fire|done].
  1,2,3: apply no_fire_bind; [apply no_fire_bind; [apply Hf|done]|done].
  all: by intros _.
Qed.

(** What can always be done. *)
Lemma enabled {B} (e : act B) (s : state) :
  match e with MuLock => mu s = false | TimerFires => False | _ => True end → ∃ b s', (b, s') ∈ handle B e s.
Proof.
  intros He. destruct e; try done; cbn [handle]; try (eexists _, _; apply list_elem_of_singleton; reflexivity).
  rewrite He. eexists _, _. by apply list_elem_of_singleton.
Qed.

Definition after_no_fire (p : prog act unit) : Prop :=
  match p with Ret _ => True | Act e K => ∀ b, no_fire (K b) end.

(** Only a goroutine of the timer that has not begun waits for the timer. *)
Lemma run_fires (c : conn) dr r0 ops ts s :
  conn_steps (run c <$> ops, opened c dr r0) (ts, s) → Forall (λ p, p = run c OpTick ∨ no_fire p) ts.
Proof.
  intros Hsteps. assert (Hinv : ∃ gs : list unit, Forall2 (λ p _, p = run c OpTick ∨ no_fire p) ts gs ∧ True).
  { eapply (pool_invariant handle no_env (λ p (_ : unit), p = run c OpTick ∨ no_fire p) (λ _ _, True)) in Hsteps; [exact Hsteps|..].
    - intros B e K g s1 gs i b s2 Hi Hp _ Hin. exists tt. split; [|done]. right. destruct Hp as [Hp|Hp].
      + assert (Hs : after_no_fire (Act e K)) by (rewrite Hp; intros b'; apply tick_no_fire). apply Hs.
      + destruct e; simpl in Hp; done || apply Hp.
    - done.
    - exists ((λ _, tt) <$> ops). split; [|done]. simpl. apply Forall2_fmap_2, Forall_Forall2_diag, Forall_forall.
      intros o _. apply run_no_fire. }
  destruct Hinv as (gs & Hgs & _). clear -Hgs. induction Hgs; by constructor.
Qed.

Lemma holder_exists gs (s : state) : timer_inv s gs → mu s = true → ∃ i g, gs !! i = Some g ∧ ph g ≠ Out.
Proof.
  intros HI Hm. pose proof (tm_mutex s gs HI) as Hz. rewrite Hm in Hz. clear HI Hm.
  induction gs as [|g gs IH]; [done|]. rewrite zsum_cons in Hz. destruct (decide (ph g = Out)) as [Ho|Ho].
  - destruct IH as (i & g' & Hi & Hg'); [unfold holding at 1 in Hz; rewrite decide_True in Hz by done; lia|]. by exists (S i), g'.
  - by exists 0%nat, g.
Qed.

(** While a call has not returned, some call that has not returned can take a step. *)
Theorem conn_never_stuck (c : conn) dr r0 ops ts s i p :
  conn_steps (run c <$> ops, opened c dr r0) (ts, s) → ts !! i = Some p → ¬ settled c p →
  ∃ j q q' s', ts !! j = Some q ∧ ¬ settled c q ∧ (q', s') ∈ step1 handle q s.
Proof.
  intros Hsteps Hi Hp. destruct (run_timer c dr r0 ops ts s Hsteps) as (gs & Hgs & HT).
  assert (Hstep : ∀ j B (e : act B) K, ts !! j = Some (Act e K) → ¬ settled c (Act e K) →
    match e with MuLock => mu s = false | TimerFires => False | _ => True end →
    ∃ j q q' s', ts !! j = Some q ∧ ¬ settled c q ∧ (q', s') ∈ step1 handle q s).
  { intros j B e K Hj Hs He. destruct (enabled e s He) as (b & s' & Hin).
    exists j, (Act e K), (K b), s'. split_and!; [done..|]. simpl. apply list_elem_of_fmap. by exists (b, s'). }
  destruct (mu s) eqn:Hm.
  - destruct (holder_exists gs s HT Hm) as (j & g & Hj & Hg). destruct (Forall2_lookup_r _ _ _ _ _ Hgs Hj) as (q & Hq & Hpq).
    destruct q as [r|B e K]; [done|]. apply (Hstep j B e K); [done| |].
    + intros [Hs|Hs]; [done|]. rewrite Hs in Hpq. by destruct Hpq.
    + destruct e; simpl in *; naive_solver.
  - pose proof (run_fires c dr r0 ops ts s Hsteps) as Hf. destruct (Forall_lookup_1 _ _ _ _ Hf Hi) as [->|Hf'].
    { destruct Hp. by right. }
    destruct p as [[]|B e K]; [destruct Hp; by left|]. apply (Hstep i B e K); [done..|]. by destruct e.
Qed.

(** C32. A wrapped connection reports exactly what happened on it: however its reads, writes,
    deadlines, closes, the callbacks of its timer and changes of the default recorder
    interleave, once some Close was called and every call has returned, the values recorded
    for the read and write counts and bytes and for the errors add up to those of the calls
    made, the open and the close were counted once, the timer is not pending, and no method
    of the nil timer was called. *)
Theorem conn_totals_exact P Q ctags sk nc cfg dr c w s0 ops ts s :
  records sk dr → (c, w, s0) ∈ outcomes handle (newConn P Q ctags sk nc cfg) (init_state dr) →
  Forall (op_ok c) ops → (∀ k, zsum (share (Traffic k)) ops < 2 ^ 53) → (∃ err, OpClose err ∈ ops) →
  conn_steps (run c <$> ops, s0) (ts, s) → Forall (settled c) ts →
  (∀ t, recorded t (log s) = match t with Opens | Closes => 1 | _ => zsum (share t) ops end)
  ∧ timer s ≠ Some true ∧ panicked s = false.
Proof.
  intros Hrec Hnew Hok Hb Hclose Hsteps Hset.
  destruct (newConn_state _ _ _ _ _ _ _ _ _ _ Hrec Hnew) as (<- & r0 & ->). fold (opened c dr r0) in Hsteps.
  assert (Hidle : ∀ p, p ∈ ts → ¬ closes p ∧ ∀ k, ¬ drains k p).
  { intros p Hp. rewrite Forall_forall in Hset. destruct (Hset p Hp) as [->| ->]; [split; [intros []|intros k []]|apply tick_idle]. }
  destruct (run_drained c dr r0 ops ts s Hsteps) as [Hd Hc].
  destruct (Hc Hclose) as [Hcl|(p & Hp & Hpc)]; [|by destruct (Hidle p Hp)].
  assert (Hzero : ∀ k, atomics s k = 0).
  { intros k. destruct (decide (atomics s k = 0)) as [|Hne]; [done|]. destruct (Hd Hcl k Hne) as (p & Hp & Hpk).
    destruct (Hidle p Hp) as [_ Hn]. by destruct (Hn k). }
  destruct (run_timer c dr r0 ops ts s Hsteps) as (gs & Hgs & HT). split_and!; [|intros Htm|by destruct HT].
  - intros t. destruct (run_totals c dr r0 ops ts s Hrec Hok Hb Hsteps) as (as_ & Has & HI).
    pose proof (ti_total _ _ _ _ HI t) as Ht.
    assert (Hz : zsum (λ g : tally → Z, g t) as_ = 0).
    { clear -Has Hset Hrec. induction Has as [|p g ts gs Hp _ IH]; [done|]. inversion Hset; subst. rewrite zsum_cons, IH by done.
      assert (g t = 0); [|lia]. eapply books_unique; [apply answers|apply Hp|]. match goal with Hs : settled c p |- _ => destruct Hs as [->| ->] end; [done|].
      assert (share t OpTick = 0) as <- by (by destruct t as [[]| | |]).
      apply run_books; [done|unfold records in Hrec; by intros Hf; rewrite Hf in Hrec|done..]. }
    unfold grand_total, stock in Ht. rewrite Hz, Hcl in Ht.
    destruct t as [k| | |]; unfold eqt in Ht; simpl in Ht; rewrite ?Hzero in Ht; try lia.
    + assert (zsum (share Opens) ops = 0) by (rewrite <-(zsum_zero ops); by apply zsum_ext). lia.
    + assert (zsum (share Closes) ops = 0) by (rewrite <-(zsum_zero ops); by apply zsum_ext). lia.
  - destruct (tm_stopped _ _ HT Hcl Htm) as (g & Hg & Hgc). apply list_elem_of_lookup in Hg as [i Hi].
    destruct (Forall2_lookup_r _ _ _ _ _ Hgs Hi) as (p & Hp & Hpg). destruct (Forall_lookup_1 _ _ _ _ Hset Hp) as [->| ->].
    + simpl in Hpg. congruence.
    + destruct Hpg. congruence.
Qed.

End correct.

(** A run: a read that arms the timer, a tick that flushes, a write that Close overtakes,
    and a read after Close. *)
Definition demo_ops : list op := [OpRead 5 None; OpTick; OpClose None; OpWrite 7 (Some (ErrExt 1)); OpRead 0 (Some (ErrIs EOF))].
Definition demo_schedule : list nat :=
  replicate 10 0%nat ++ replicate 11 1%nat ++ replicate 3 3%nat ++ replicate 12 2%nat ++ replicate 5 3%nat ++ replicate 8 4%nat.

Definition demo_sink : sink := mkSink (Some 1%nat) false.
Definition demo_nc : netConn := mkNetConn (Some (TCPAddr [127; 0; 0; 1])) None true true.
Definition no_parse (_ : gostring) : option ipaddr := None.
Definition demo_conn : conn := build_conn no_parse no_parse [] demo_sink demo_nc (newConfig []).

Definition returned (p : prog act unit) : bool := match p with Ret _ => true | _ => false end.

Lemma newConn_explicit P Q ctags r nc cfg dr :
  ∃ w, (build_conn P Q ctags (mkSink (Some r) false) nc cfg, w, opened (build_conn P Q ctags (mkSink (Some r) false) nc cfg) dr r)
    ∈ outcomes handle (newConn P Q ctags (mkSink (Some r) false) nc cfg) (init_state dr).
Proof.
  eexists. unfold newConn, count. rewrite !outcomes_bind.
  assert (c_sink (build_conn P Q ctags (mkSink (Some r) false) nc cfg) = mkSink (Some r) false) as ->
    by (unfold build_conn; by destruct (connZones P Q cfg ctags nc)).
  apply list_elem_of_singleton. reflexivity.
Qed.

Lemma conn_totals_exact_witness :
  ∃ ts s, conn_steps (run demo_conn <$> demo_ops, opened demo_conn None 1%nat) (ts, s) ∧ forallb returned ts = true
  ∧ recorded (Traffic readBytes) (log s) = 5 ∧ recorded (Traffic writeBytes) (log s) = 7
  ∧ recorded (Traffic readCalls) (log s) = 2 ∧ recorded Closes (log s) = 1 ∧ recorded Errors (log s) = 1.
Proof.
  assert (Hr : (λ c, forallb returned c.1) <$> sched handle demo_schedule (run demo_conn <$> demo_ops, opened demo_conn None 1%nat)
    = Some true) by (vm_compute; reflexivity).
  destruct (sched_observes handle no_env _ _ _ _ Hr) as ([ts s] & Hs & Hret).
  destruct (newConn_explicit no_parse no_parse [] 1%nat demo_nc (newConfig []) None) as [w Hw].
  exists ts, s. split_and!; [exact Hs|exact Hret|..].
  all: destruct (conn_totals_exact no_parse no_parse [] demo_sink demo_nc (newConfig []) None demo_conn w
    (opened demo_conn None 1%nat) demo_ops ts s) as (Ht & _);
    [done|exact Hw|by repeat constructor|intros []; vm_compute; reflexivity|exists None; repeat constructor|exact Hs| |rewrite Ht; reflexivity].
  all: apply Forall_forall; intros p Hp; left; apply forallb_forall with (x := p) in Hret; [|by apply list_elem_of_In];
    by destruct p as [[]|].
Defined.

(** ** Zones

    The networks of IPv4, with the zone of each; the first that contains an address
    decides. *)
Definition zone_table : list (Z * Z * gostring) :=
  [(0, 32, noZone); (224 * 2 ^ 24, 4, noZone); (127 * 2 ^ 24, 8, zoneLoopback);
   (169 * 2 ^ 24 + 254 * 2 ^ 16, 16, zoneLinkLocal);
   (10 * 2 ^ 24, 8, zonePrivate); (172 * 2 ^ 24 + 16 * 2 ^ 16, 12, zonePrivate);
   (192 * 2 ^ 24 + 168 * 2 ^ 16, 16, zonePrivate); (100 * 2 ^ 24 + 64 * 2 ^ 16, 10, zonePrivate)].

Definition in_network (n base bits : Z) : bool := (base <=? n) && (n <? base + 2 ^ (32 - bits)).

Fixpoint table_zone (table : list (Z * Z * gostring)) (n : Z) : gostring :=
  match table with
  | [] => zonePublic
  | (base, bits, zone) :: rest => if in_network n base bits then zone else table_zone rest n
  end.

Lemma byte_mask b : 0 ≤ b < 256 → (Z.land b 240 =? 16) = (16 <=? b) && (b <? 32).
Proof.
  intros Hb. assert (Hall : forallb (λ b, Bool.eqb (Z.land b 240 =? 16) ((16 <=? b) && (b <? 32))) (seqZ 0 256) = true) by (vm_compute; reflexivity).
  rewrite forallb_forall in Hall. apply Bool.eqb_prop, (Hall b), list_elem_of_In, elem_of_seqZ. lia.
Qed.

Lemma top_bits n k c : 0 ≤ k → (Z.shiftr n k =? c) = (c * 2 ^ k <=? n) && (n <? (c + 1) * 2 ^ k).
Proof.
  intros Hk. rewrite Z.shiftr_div_pow2 by done. assert (0 < 2 ^ k) by (apply Z.pow_pos_nonneg; lia).
  pose proof (Z.div_mod n (2 ^ k) ltac:(lia)). pose proof (Z.mod_pos_bound n (2 ^ k) ltac:(lia)).
  apply Bool.eq_true_iff_eq. rewrite andb_true_iff, Z.eqb_eq, Z.leb_le, Z.ltb_lt. nia.
Qed.

Lemma Contains_network p n : 0 ≤ 32 - p.2 → p.1 = Z.shiftr p.1 (32 - p.2) * 2 ^ (32 - p.2) →
  Contains p (IPv4 n) = in_network n p.1 p.2.
Proof.
  intros Hp Hbase. unfold Contains, in_network. rewrite Z.shiftr_lxor.
  replace (Z.lxor (Z.shiftr n (32 - p.2)) (Z.shiftr p.1 (32 - p.2)) =? 0) with (Z.shiftr n (32 - p.2) =? Z.shiftr p.1 (32 - p.2)).
  - rewrite top_bits by done. rewrite Hbase at 3 4. f_equal. f_equal. lia.
  - apply Bool.eq_true_iff_eq. rewrite !Z.eqb_eq. split; [intros ->; apply Z.lxor_nilpotent|apply Z.lxor_eq].
Qed.

Lemma second_byte n : Z.land (Z.shiftr n 16) 255 = (n / 65536) mod 256.
Proof. change 255 with (Z.ones 8). rewrite Z.land_ones, Z.shiftr_div_pow2 by lia. done. Qed.

Lemma IsLinkLocal_network n : IsLinkLocalUnicast (IPv4 n) = in_network n (169 * 2 ^ 24 + 254 * 2 ^ 16) 16.
Proof.
  unfold IsLinkLocalUnicast, in_network. rewrite second_byte, top_bits by lia.
  apply Bool.eq_true_iff_eq. rewrite !andb_true_iff, Z.eqb_eq, !Z.leb_le, !Z.ltb_lt. simpl Z.pow. Z.div_mod_to_equations. lia.
Qed.

Lemma IsPrivate_networks n :
  IsPrivate (IPv4 n) = in_network n (10 * 2 ^ 24) 8 || in_network n (172 * 2 ^ 24 + 16 * 2 ^ 16) 12
    || in_network n (192 * 2 ^ 24 + 168 * 2 ^ 16) 16.
Proof.
  unfold IsPrivate, in_network. rewrite second_byte, byte_mask, !top_bits by lia || (apply Z.mod_pos_bound; lia).
  apply Bool.eq_true_iff_eq. rewrite !orb_true_iff, !andb_true_iff, Z.eqb_eq, !Z.leb_le, !Z.ltb_lt. simpl Z.pow. Z.div_mod_to_equations. lia.
Qed.

(** The classification of IPv4 addresses, also of those mapped into IPv6, is the table. *)
Theorem classify_table n z :
  0 ≤ n < 2 ^ 32 →
  classifyIP (IPv4 n) = table_zone zone_table n
  ∧ classifyIP (IPv6 (65535 * 2 ^ 32 + n) z) = table_zone zone_table n.
Proof.
  intros Hn. assert (Hv4 : classifyIP (IPv4 n) = table_zone zone_table n).
  { unfold classifyIP. cbn [Unmap WithZone]. rewrite IsLinkLocal_network, IsPrivate_networks, Contains_network by (vm_compute; congruence).
    assert (IsUnspecified (IPv4 n) = in_network n 0 32) as ->.
    { unfold IsUnspecified, in_network. apply Bool.eq_true_iff_eq. rewrite andb_true_iff, Z.eqb_eq, Z.leb_le, Z.ltb_lt. simpl Z.pow. lia. }
    assert (IsMulticast (IPv4 n) = in_network n (224 * 2 ^ 24) 4) as -> by (unfold IsMulticast; by rewrite top_bits).
    assert (IsLoopback (IPv4 n) = in_network n (127 * 2 ^ 24) 8) as -> by (unfold IsLoopback; by rewrite top_bits).
    unfold zone_table, table_zone, cgnat. cbn [fst snd IsValid negb orb].
    repeat (destruct (in_network n _ _); [done|]). done. }
  split; [done|]. rewrite <-Hv4. unfold classifyIP at 1. cbn [Unmap].
  rewrite Z.shiftr_div_pow2, Z.land_ones by lia.
  rewrite Z.div_add_l, Z.div_small by lia. rewrite (Z.add_comm _ n), Z.mod_add, Z.mod_small by lia. done.
Qed.
