(* ===== verification/Httpstats.v ===== *)
(** * HTTP instrumentation (httpstats/writer.go, common.go, extras.go, handler.go, transport.go)
    and the counting wrappers of iostats/io.go

    What the wrapped code does is data: the calls a handler makes on its response writer
    and its request body and whether it panics ([served]), what a round tripper answers
    ([rt_result]) and what the reads and the close of a body return.  ServeHTTP, RoundTrip
    and the methods of a response body are trees of atomic actions on the counters, the
    sync.Once of a measurement and the recorder.

    The theorems are in HttpstatsCorrect.v. *)

From S2P Require Import Prelude GoLib Strconv Strings Atomic Attribute Metric Options.
#[local] Open Scope prog_scope.

(** ** Counting readers and writers (iostats/io.go)

    The wrapped reader or writer returned [n] and [err]. *)
Definition CountReader_Read (N : Z) (n : Z) (err : option error) : Z * (Z * option error) := (i64 (N + n), (n, err)).
Definition CountWriter_Write (N : Z) (n : Z) (err : option error) : Z * (Z * option error) := (i64 (N + n), (n, err)).

(** ReaderFunc, WriterFunc and CloserFunc call the function. *)
Definition ReaderFunc_Read {P} (f : P → Z * option error) (p : P) : Z * option error := f p.
Definition WriterFunc_Write {P} (f : P → Z * option error) (p : P) : Z * option error := f p.
Definition CloserFunc_Close (f : unit → option error) : option error := f tt.

(** ** The response writer (writer.go) *)
Record recorder := mkRecorder { code_ : Z; n_ : Z; written : bool }.

Definition new_recorder : recorder := mkRecorder 0 0 false.

Definition StatusOK : Z := 200.
Definition StatusSwitchingProtocols : Z := 101.
Definition StatusInternalServerError : Z := 500.

Definition status (r : recorder) : Z := if code_ r =? 0 then StatusOK else code_ r.
Definition bytesWritten (r : recorder) : Z := n_ r.

Definition WriteHeader (r : recorder) (code : Z) : recorder :=
  if negb (written r) && ((code <? 100) || (200 <=? code) || (code =? StatusSwitchingProtocols))
  then mkRecorder code (n_ r) true else r.

Definition implicitHeader (r : recorder) : recorder :=
  if negb (written r) then mkRecorder StatusOK (n_ r) true else r.

(** [n] is what the inner writer returned. *)
Definition Write (r : recorder) (n : Z) : recorder :=
  let r := implicitHeader r in mkRecorder (code_ r) (i64 (n_ r + n)) (written r).
Definition Flush (r : recorder) : recorder := implicitHeader r.
Definition Hijack (r : recorder) : recorder := r.
Definition ReadFrom (r : recorder) (n : Z) : recorder :=
  let r := implicitHeader r in mkRecorder (code_ r) (i64 (n_ r + n)) (written r).

(** The eight wrapper types, and the optional methods of each. *)
Inductive wrapper := wrapPlain | wrapF | wrapH | wrapR | wrapFH | wrapFR | wrapHR | wrapFHR.

Definition wrapResponseWriter (f h r : bool) : wrapper :=
  if f && h && r then wrapFHR
  else if f && h then wrapFH
  else if f && r then wrapFR
  else if h && r then wrapHR
  else if f then wrapF
  else if h then wrapH
  else if r then wrapR
  else wrapPlain.

Definition isFlusher (w : wrapper) : bool := match w with wrapF | wrapFH | wrapFR | wrapFHR => true | _ => false end.
Definition isHijacker (w : wrapper) : bool := match w with wrapH | wrapFH | wrapHR | wrapFHR => true | _ => false end.
Definition isReaderFrom (w : wrapper) : bool := match w with wrapR | wrapFR | wrapHR | wrapFHR => true | _ => false end.

(** A call of a handler on its writer. *)
Inductive wcall := CallWriteHeader (code : Z) | CallWrite (n : Z) | CallFlush | CallHijack | CallReadFrom (n : Z).

Definition writer_call (r : recorder) (c : wcall) : recorder :=
  match c with
  | CallWriteHeader code => WriteHeader r code
  | CallWrite n => Write r n
  | CallFlush => Flush r
  | CallHijack => Hijack r
  | CallReadFrom n => ReadFrom r n
  end.

(** ** Bodies (common.go) *)
Record countingBody := mkBody { b_n : Z; b_failed : option error }.

Definition new_body : countingBody := mkBody 0 None.

(** The wrapped body's Read returned [n] and [err]. *)
Definition body_Read (b : countingBody) (n : Z) (err : option error) : countingBody :=
  mkBody (i64 (b_n b + n))
    (match err with
     | Some e => if errors_is EOF e then b_failed b else match b_failed b with None => Some e | Some e0 => Some e0 end
     | None => b_failed b
     end).

(** ** Names *)
Definition keyMethod : gostring := str "http.request.method".
Definition keyStatusCode : gostring := str "http.response.status_code".
Definition keyScheme : gostring := str "url.scheme".
Definition keyProtocolVersion : gostring := str "network.protocol.version".
Definition keyRoute : gostring := str "http.route".
Definition keyErrorType : gostring := str "error.type".
Definition unitSeconds : gostring := str "s".
Definition unitBytes : gostring := str "By".
Definition unitHeaders : gostring := str "{header}".
Definition unitErrors : gostring := str "{error}".
Definition unitRequests : gostring := str "{request}".
Definition otherMethod : gostring := str "_OTHER".
Definition otherValue : gostring := str "_OTHER".

Definition serverDuration : gostring := str "http.server.request.duration".
Definition serverRequestSize : gostring := str "http.server.request.body.size".
Definition serverResponseSize : gostring := str "http.server.response.body.size".
Definition serverActive : gostring := str "http.server.active_requests".
Definition serverPrefix : gostring := str "http.server".
Definition clientDuration : gostring := str "http.client.request.duration".
Definition clientRequestSize : gostring := str "http.client.request.body.size".
Definition clientResponseSize : gostring := str "http.client.response.body.size".
Definition clientPrefix : gostring := str "http.client".
Definition keyServerAddress : gostring := str "server.address".
Definition keyServerPort : gostring := str "server.port".

Definition suffixRequestHeaderSize : gostring := str ".request.header.size".
Definition suffixRequestHeaderCount : gostring := str ".request.header.count".
Definition suffixResponseHeaderSize : gostring := str ".response.header.size".
Definition suffixResponseHeaderCount : gostring := str ".response.header.count".

(** ** Attributes (common.go, extras.go, handler.go, transport.go) *)
Definition known_methods : list gostring :=
  str <$> ["CONNECT"; "DELETE"; "GET"; "HEAD"; "OPTIONS"; "PATCH"; "POST"; "PUT"; "TRACE"]%string.

Definition normalizeMethod (method : gostring) : gostring :=
  if bool_decide (method ∈ known_methods) then method else otherMethod.

Definition protocolVersion (major minor : Z) : gostring :=
  if (2 <=? major) && (minor =? 0) then FormatInt major
  else FormatInt major ++ str "." ++ FormatInt minor.

(** An http.Header: keys with their values. *)
Definition Header := list (gostring * list gostring).

(** The loop of headerStats. *)
Definition headerStats (h : Header) : Z * Z :=
  foldl (λ acc kv, foldl (λ acc v, (i64 (acc.1 + 1), i64 (acc.2 + (len kv.1 + 2 + len v + 2)))) acc kv.2) (0, 0) h.

(** h.Get(key), for a key in canonical form *)
Definition header_Get (h : Header) (key : gostring) : gostring :=
  match List.find (λ kv, gostring_eqb kv.1 key) h with
  | Some (_, v :: _) => v
  | _ => []
  end.

Definition contentCodings : list gostring := str <$> ["gzip"; "deflate"; "br"; "zstd"; "compress"; "identity"]%string.
Definition transferCodings : list gostring := str <$> ["chunked"; "identity"]%string.

Definition knownOrOther (v : gostring) (known : list gostring) : gostring :=
  let v := to_lower (TrimSpace v) in
  if bool_decide (v ∈ known) then v else otherValue.

Definition maxMediaTypeLen : Z := 64.

Definition routeFromPattern (pattern : gostring) : gostring :=
  match cut_byte (byte_of 32) pattern with
  | (method, Some rest) => if gostring_eqb method [] then pattern else trim_left [[byte_of 32]; [byte_of 9]] rest
  | (_, None) => pattern
  end.

(** A URL, with what its Hostname and Port methods answer. *)
Record URL := mkURL { u_Hostname : gostring; u_Port : gostring; u_Scheme : gostring }.

Definition serverPort (u : URL) : option Z :=
  if negb (gostring_eqb (u_Port u) []) then ParseInt (u_Port u)
  else if gostring_eqb (u_Scheme u) (str "http") then Some 80
  else if gostring_eqb (u_Scheme u) (str "https") then Some 443
  else None.

(** How mime.ParseMediaType may fail. *)
Inductive media_error := InvalidMediaParameter | OtherMediaError.

Record config := mkConfig { contentAttrs_ : bool }.
Definition WithContentAttributes (c : config) : config := mkConfig true.
(** A nil option is skipped. *)
Definition newConfig (opts : list (option (config → config))) : config :=
  foldl (λ c o, match o with Some o => o c | None => c end) (mkConfig false) opts.

Section http.
Context `{Attributes}.
(** attribute.Int, mime.ParseMediaType, and fmt's verb for the type of an error. *)
Context (int_value : Z → value).
Context (ParseMediaType : gostring → gostring * option media_error).
Context (type_name : error → gostring).

Definition Int_kv (k : gostring) (n : Z) : KeyValue := (k, int_value n).

Definition mediaType (v : gostring) : gostring :=
  let '(mt, err) := ParseMediaType v in
  if gostring_eqb mt [] || (match err with Some OtherMediaError => true | _ => false end) || (maxMediaTypeLen <? len mt)
  then otherValue else mt.

Definition contentAttrs (h : Header) (te : list gostring) (typeKey encKey teKey : gostring) : list KeyValue :=
  let v := header_Get h (str "Content-Type") in
  let e := header_Get h (str "Content-Encoding") in
  (if gostring_eqb v [] then [] else [String_kv typeKey (mediaType v)])
  ++ (if gostring_eqb e [] then [] else [String_kv encKey (knownOrOther e contentCodings)])
  ++ (if 0 <? len te then [String_kv teKey (knownOrOther (join (str ",") te) transferCodings)] else []).

Definition requestContent (h : Header) (te : list gostring) : list KeyValue :=
  contentAttrs h te (str "http.request.header.content_type") (str "http.request.header.content_encoding")
    (str "http.request.header.transfer_encoding").
Definition responseContent (h : Header) (te : list gostring) : list KeyValue :=
  contentAttrs h te (str "http.response.header.content_type") (str "http.response.header.content_encoding")
    (str "http.response.header.transfer_encoding").

(** The parts of a request that are used. *)
Record Request := mkRequest {
  r_Method : gostring; r_TLS : bool; r_ProtoMajor : Z; r_ProtoMinor : Z; r_Header : Header;
  r_TransferEncoding : list gostring; r_hasBody : bool; r_URL : option URL; r_tags : list KeyValue }.

Definition requestAttrs (req : Request) : list KeyValue :=
  String_kv keyMethod (normalizeMethod (r_Method req)) ::
  match r_URL req with
  | None => []
  | Some u =>
      String_kv keyServerAddress (u_Hostname u) ::
      (match serverPort u with Some port => [Int_kv keyServerPort port] | None => [] end)
      ++ [String_kv keyScheme (u_Scheme u)]
  end.

(** RequestWithTags and RequestTags (handler.go), on the tags the context carries. *)
Definition RequestTags (req : Request) : list KeyValue := r_tags req.
Definition RequestWithTags (req : Request) (tags : list KeyValue) : Request :=
  mkRequest (r_Method req) (r_TLS req) (r_ProtoMajor req) (r_ProtoMinor req) (r_Header req) (r_TransferEncoding req)
    (r_hasBody req) (r_URL req) (RequestTags req ++ tags).

(** ** Recording *)
Inductive measured := Counter (v : float64) | Gauge (v : float64) | Histogram (v : float64) | Observe (d : Z).

(** A call on a recorder: the metric, the attributes the options add, the unit, and the
    tags of the context. *)
Record entry := mkEntry { e_recorder : nat; e_name : gostring; e_value : measured; e_attrs : list KeyValue; e_unit : gostring; e_ctx : list KeyValue }.

(** A recorder, and whether it implements stats.DurationObserver. *)
Record Recorder := mkRec { rec_id : nat; rec_observes : bool }.

Inductive once := Fresh | Busy | Complete.

(** The default recorder, the clock and the log; [active] of a handler; and of a client's
    measurement, the counters of the two bodies, the first error of the response body and
    the sync.Once. *)
Record state := mkState {
  defaultRecorder : option Recorder; wall : Z; log : list entry; active : Z;
  reqN : Z; respN : Z; respFailed : option error; once_ : once }.

Definition set_default s d := mkState d (wall s) (log s) (active s) (reqN s) (respN s) (respFailed s) (once_ s).
Definition set_wall s t := mkState (defaultRecorder s) t (log s) (active s) (reqN s) (respN s) (respFailed s) (once_ s).
Definition add_log s e := mkState (defaultRecorder s) (wall s) (log s ++ [e]) (active s) (reqN s) (respN s) (respFailed s) (once_ s).
Definition set_active s n := mkState (defaultRecorder s) (wall s) (log s) n (reqN s) (respN s) (respFailed s) (once_ s).
Definition set_reqN s n := mkState (defaultRecorder s) (wall s) (log s) (active s) n (respN s) (respFailed s) (once_ s).
Definition set_respN s n := mkState (defaultRecorder s) (wall s) (log s) (active s) (reqN s) n (respFailed s) (once_ s).
Definition set_failed s e := mkState (defaultRecorder s) (wall s) (log s) (active s) (reqN s) (respN s) e (once_ s).
Definition set_once s o := mkState (defaultRecorder s) (wall s) (log s) (active s) (reqN s) (respN s) (respFailed s) o.

Inductive act : Type → Type :=
| LoadDefault : act (option Recorder)
| StoreDefault (r : option Recorder) : act unit
| Now : act Z
| AddActive (d : Z) : act Z
| Emit (e : entry) : act unit
| AddReq (n : Z) : act unit
| LoadReq : act Z
| AddResp (n : Z) : act unit
| LoadResp : act Z
| CASFailed (e : error) : act unit
| OnceEnter : act bool                       (* true: the caller runs the function *)
| OnceExit : act unit.

Definition handle (B : Type) (e : act B) (s : state) : list (B * state) :=
  match e in act B return list (B * state) with
  | LoadDefault => [(defaultRecorder s, s)]
  | StoreDefault r => [(tt, set_default s r)]
  | Now => [(wall s, s)]
  | AddActive d => [(i64 (active s + d), set_active s (i64 (active s + d)))]
  | Emit e => [(tt, add_log s e)]
  | AddReq n => [(tt, set_reqN s (i64 (reqN s + n)))]
  | LoadReq => [(reqN s, s)]
  | AddResp n => [(tt, set_respN s (i64 (respN s + n)))]
  | LoadResp => [(respN s, s)]
  | CASFailed e => [(tt, set_failed s (match respFailed s with None => Some e | Some e0 => Some e0 end))]
  | OnceEnter => match once_ s with
                 | Fresh => [(true, set_once s Busy)]
                 | Busy => []
                 | Complete => [(false, s)]
                 end
  | OnceExit => [(tt, set_once s Complete)]
  end.

(** Time passes. *)
Definition ticks (s s' : state) : Prop := ∃ t, wall s ≤ t ∧ s' = set_wall s t.

#[local] Notation "'let!' x := e ; k" := (@Act act _ _ e (λ x, k)) : prog_scope.
#[local] Notation "'run!' e ; k" := (@Act act _ _ e (λ _, k)) : prog_scope.

Record sink := mkSink { sink_r : option Recorder; useDefault : bool }.

Definition SetDefaultRecorder (r : option Recorder) : prog act unit :=
  match r with
  | None => run! StoreDefault None; Ret tt
  | Some r => run! StoreDefault (Some r); Ret tt
  end.

Definition sink_recorder (s : sink) : prog act (option Recorder) :=
  if useDefault s then let! b := LoadDefault; match b with Some r => Ret (Some r) | None => Ret None end
  else Ret (sink_r s).

(** The tags of the context go with every call. *)
Definition emit (ctx : list KeyValue) (rec : Recorder) (name : gostring) (v : measured) (attrs : list KeyValue) (unit_ : gostring) : prog act unit :=
  run! Emit (mkEntry (rec_id rec) name v attrs unit_ ctx); Ret tt.

Definition observeDuration (ctx : list KeyValue) (rec : Recorder) (name : gostring) (d : Z) (attrs : list KeyValue) (unit_ : gostring) : prog act unit :=
  if rec_observes rec then emit ctx rec name (Observe d) attrs unit_
  else emit ctx rec name (Histogram (Seconds d)) attrs unit_.

Definition recordHeaderStats (ctx : list KeyValue) (rec : Recorder) (prefix sizeSuffix countSuffix : gostring) (h : Z * Z) (attrs : list KeyValue) : prog act unit :=
  run@ emit ctx rec (prefix ++ sizeSuffix) (Histogram (f_of_Z h.2)) attrs unitBytes;
  emit ctx rec (prefix ++ countSuffix) (Histogram (f_of_Z h.1)) attrs unitHeaders.

Definition recordHeaders (ctx : list KeyValue) (rec : Recorder) (prefix sizeSuffix countSuffix : gostring) (h : Header) (attrs : list KeyValue) : prog act unit :=
  recordHeaderStats ctx rec prefix sizeSuffix countSuffix (headerStats h) attrs.

Definition recordError (ctx : list KeyValue) (rec : Recorder) (prefix : gostring) (attrs : list KeyValue) : prog act unit :=
  emit ctx rec (prefix ++ str ".error.count") (Counter f_one) attrs unitErrors.

(** ** Handlers (handler.go) *)
Record handler := mkHandler { h_sink : sink; h_cfg : config }.

Definition NewHandler (opts : list (option (config → config))) : handler := mkHandler (mkSink None true) (newConfig opts).
Definition NewHandlerWith (r : option Recorder) (opts : list (option (config → config))) : handler := mkHandler (mkSink r false) (newConfig opts).

(** What the wrapped handler does with a request: its calls on the writer, its reads of
    the body, the response headers and the pattern at the end, and whether it panics. *)
Record served := mkServed {
  sv_calls : list wcall; sv_reads : list (Z * option error); sv_header : Header; sv_pattern : gostring; sv_panics : bool }.

Definition serve_writer (sv : served) : recorder := foldl writer_call new_recorder (sv_calls sv).
(** The counting body; a request without one has none. *)
Definition serve_body (req : Request) (sv : served) : option countingBody :=
  if r_hasBody req then Some (foldl (λ b r, body_Read b r.1 r.2) new_body (sv_reads sv)) else None.

Definition server_attrs (h : handler) (req : Request) (sv : served) (status : Z) : list KeyValue :=
  let scheme := if r_TLS req then str "https" else str "http" in
  let route := routeFromPattern (sv_pattern sv) in
  [String_kv keyMethod (normalizeMethod (r_Method req)); Int_kv keyStatusCode status; String_kv keyScheme scheme;
   String_kv keyProtocolVersion (protocolVersion (r_ProtoMajor req) (r_ProtoMinor req))]
  ++ (if gostring_eqb route [] then [] else [String_kv keyRoute route])
  ++ (if StatusInternalServerError <=? status then [String_kv keyErrorType (FormatInt status)] else [])
  ++ (if contentAttrs_ (h_cfg h) then requestContent (r_Header req) (r_TransferEncoding req) ++ responseContent (sv_header sv) [] else []).

Definition handler_record (h : handler) (ctx : list KeyValue) (rec : Recorder) (req : Request) (start active_ : Z) (sv : served) (status : Z) : prog act unit :=
  let! now := Now;
  let elapsed := Sub now start in
  run@ emit ctx rec serverActive (Gauge (f_of_Z active_)) [] unitRequests;
  let attrs := server_attrs h req sv status in
  let read := match serve_body req sv with Some b => b_n b | None => 0 end in
  let bodyErr := match serve_body req sv with Some b => b_failed b | None => None end in
  run@ observeDuration ctx rec serverDuration elapsed attrs unitSeconds;
  run@ emit ctx rec serverRequestSize (Histogram (f_of_Z read)) attrs unitBytes;
  run@ emit ctx rec serverResponseSize (Histogram (f_of_Z (bytesWritten (serve_writer sv)))) attrs unitBytes;
  run@ recordHeaders ctx rec serverPrefix suffixRequestHeaderSize suffixRequestHeaderCount (r_Header req) attrs;
  run@ recordHeaders ctx rec serverPrefix suffixResponseHeaderSize suffixResponseHeaderCount (sv_header sv) attrs;
  if StatusInternalServerError <=? status then recordError ctx rec serverPrefix attrs
  else match bodyErr with
       | Some e => recordError ctx rec serverPrefix (attrs ++ [String_kv keyErrorType (type_name e)])
       | None => Ret tt
       end.

(** The answer tells whether the panic of the wrapped handler continues. *)
Definition ServeHTTP (h : handler) (req : Request) (sv : served) : prog act bool :=
  let@ rec := sink_recorder (h_sink h);
  let! start := Now;
  let ctx := r_tags req in
  let! n := AddActive 1;
  run@ (match rec with Some rec => emit ctx rec serverActive (Gauge (f_of_Z n)) [] unitRequests | None => Ret tt end);
  let! left_ := AddActive (-1);
  run@ (match rec with
        | Some rec =>
            if sv_panics sv then handler_record h ctx rec req start left_ sv StatusInternalServerError
            else handler_record h ctx rec req start left_ sv (status (serve_writer sv))
        | None => Ret tt
        end);
  Ret (sv_panics sv).

(** ** Transports (transport.go) *)
Record transport := mkTransport { t_sink : sink; t_cfg : config }.

Definition NewTransport (opts : list (option (config → config))) : transport := mkTransport (mkSink None true) (newConfig opts).
Definition NewTransportWith (r : option Recorder) (opts : list (option (config → config))) : transport := mkTransport (mkSink r false) (newConfig opts).

(** A response body: nil, http.NoBody, a two-way stream, or one that is read to its end. *)
Inductive body_kind := NilBody | NoBody | ReadWriteBody | StreamBody.

Record Response := mkResponse { rs_StatusCode : Z; rs_Header : Header; rs_TransferEncoding : list gostring; rs_Body : body_kind }.

Inductive rt_result := RTFailed (resp : option Response) (err : error) | RTNil | RTOk (resp : Response).

Record clientMeasure := mkMeasure {
  m_ctx : list KeyValue; m_rec : Recorder; m_start : Z; m_attrs : list KeyValue; m_status : Z;
  m_hasReq : bool; m_hasRespBody : bool; m_reqHdr : Z * Z; m_resHdr : Z * Z; m_hasResp : bool }.

(** The attributes of a finished measurement, and whether it failed. *)
Definition finish_attrs (m : clientMeasure) (cause : option error) : list KeyValue * bool :=
  let attrs := m_attrs m ++ (if negb (m_status m =? 0) then [Int_kv keyStatusCode (m_status m)] else []) in
  match cause with
  | Some e => if negb (errors_is EOF e) then (attrs ++ [String_kv keyErrorType (type_name e)], true)
              else if StatusInternalServerError <=? m_status m then (attrs ++ [String_kv keyErrorType (FormatInt (m_status m))], true)
              else (attrs, false)
  | None => if StatusInternalServerError <=? m_status m then (attrs ++ [String_kv keyErrorType (FormatInt (m_status m))], true)
            else (attrs, false)
  end.

Definition finish (m : clientMeasure) (cause : option error) : prog act unit :=
  let! mine := OnceEnter;
  if mine then
    let! now := Now;
    let elapsed := Sub now (m_start m) in
    let '(attrs, failed) := finish_attrs m cause in
    let@ sent := (if m_hasReq m then Act LoadReq Ret else Ret 0);
    let@ read := (if m_hasRespBody m then Act LoadResp Ret else Ret 0);
    run@ observeDuration (m_ctx m) (m_rec m) clientDuration elapsed attrs unitSeconds;
    run@ emit (m_ctx m) (m_rec m) clientRequestSize (Histogram (f_of_Z sent)) attrs unitBytes;
    run@ emit (m_ctx m) (m_rec m) clientResponseSize (Histogram (f_of_Z read)) attrs unitBytes;
    run@ recordHeaderStats (m_ctx m) (m_rec m) clientPrefix suffixRequestHeaderSize suffixRequestHeaderCount (m_reqHdr m) attrs;
    run@ (if m_hasResp m then recordHeaderStats (m_ctx m) (m_rec m) clientPrefix suffixResponseHeaderSize suffixResponseHeaderCount (m_resHdr m) attrs else Ret tt);
    run@ (if failed then recordError (m_ctx m) (m_rec m) clientPrefix attrs else Ret tt);
    run! OnceExit;
    Ret tt
  else Ret tt.

(** What RoundTrip returns: the result of the wrapped transport, and the measurement its
    response body carries. *)
Definition RoundTrip (t : transport) (req : Request) (result : rt_result) : prog act (rt_result * option clientMeasure) :=
  let@ rec := sink_recorder (t_sink t);
  match rec with
  | None => Ret (result, None)
  | Some rec =>
      let! start := Now;
      let attrs := requestAttrs req
        ++ (if contentAttrs_ (t_cfg t) then requestContent (r_Header req) (r_TransferEncoding req) else []) in
      let m := mkMeasure (r_tags req) rec start attrs 0 (r_hasBody req) false (headerStats (r_Header req)) (0, 0) false in
      match result with
      | RTFailed _ err => run@ finish m (Some err); Ret (result, None)
      | RTNil => Ret (RTNil, None)
      | RTOk resp =>
          let attrs := attrs ++ (if contentAttrs_ (t_cfg t) then responseContent (rs_Header resp) (rs_TransferEncoding resp) else []) in
          let m stream := mkMeasure (r_tags req) rec start attrs (rs_StatusCode resp) (r_hasBody req) stream
                            (headerStats (r_Header req)) (headerStats (rs_Header resp)) true in
          match rs_Body resp with
          | NilBody | NoBody | ReadWriteBody => run@ finish (m false) None; Ret (result, None)
          | StreamBody => Ret (result, Some (m true))
          end
      end
  end.

(** clientBody: [n] and [err] are what the wrapped body returned. *)
Definition clientBody_Read (m : clientMeasure) (n : Z) (err : option error) : prog act (Z * option error) :=
  run! AddResp (i64 n);
  run@ (match err with
        | Some e => if errors_is EOF e then Ret tt else run! CASFailed e; Ret tt
        | None => Ret tt
        end);
  run@ (match err with Some _ => finish m err | None => Ret tt end);
  Ret (n, err).

Definition clientBody_Close (m : clientMeasure) (err : option error) : prog act (option error) :=
  run@ finish m None; Ret err.

(** The wrapped transport reads the request body. *)
Definition requestBody_Read (n : Z) (err : option error) : prog act (Z * option error) :=
  run! AddReq (i64 n); Ret (n, err).

End http.
