(* ===== verification/HttpstatsCorrect.v ===== *)
(** * What the HTTP instrumentation reports

    [writer_reports]: the status and the size a response writer reports are those of the
    calls made on it, and it offers the optional methods of the writer it wraps.
    [server_accounts]: however requests interleave, when all are served no request is
    counted as active, and there is a duration for each request, an error for each failed
    one, and the sizes add up.  [client_measured_once]: a request of a client is measured
    once, whoever reads and closes the response body. *)

From S2P Require Import Prelude GoLib Strconv Strings Atomic Books Attribute Metric Options Httpstats.
#[local] Open Scope prog_scope.

(** ** The response writer *)
Definition informational (code : Z) : bool := (100 <=? code) && (code <? 200) && negb (code =? StatusSwitchingProtocols).

(** The status net/http sends: that of the first call that commits the header. *)
Fixpoint sent_status (calls : list wcall) : option Z :=
  match calls with
  | [] => None
  | CallWriteHeader code :: rest => if informational code then sent_status rest else Some code
  | CallWrite _ :: _ | CallFlush :: _ | CallReadFrom _ :: _ => Some StatusOK
  | CallHijack :: rest => sent_status rest
  end.

Definition body_bytes (c : wcall) : Z := match c with CallWrite n | CallReadFrom n => n | _ => 0 end.

Definition call_writer (calls : list wcall) : recorder := foldl writer_call new_recorder calls.

Lemma written_stays calls r :
  written r = true → code_ (foldl writer_call r calls) = code_ r.
Proof.
  revert r. induction calls as [|c calls IH]; intros r Hw; [done|]. cbn [foldl].
  assert (Hc : code_ (writer_call r c) = code_ r ∧ written (writer_call r c) = true).
  { destruct c; simpl; unfold WriteHeader, Write, Flush, ReadFrom, implicitHeader, Hijack; rewrite Hw; simpl; done. }
  destruct Hc as [<- Hw']. by apply IH.
Qed.

Lemma informational_spec code :
  ((code <? 100) || (200 <=? code) || (code =? StatusSwitchingProtocols)) = negb (informational code).
Proof. unfold informational. zbool; try done; simpl; zbool; done || lia. Qed.

Lemma writer_status_from calls r :
  written r = false → code_ r = 0 → code_ (foldl writer_call r calls) = default 0 (sent_status calls).
Proof.
  revert r. induction calls as [|c calls IH]; intros r Hw Hc; [done|]. cbn [foldl sent_status].
  destruct c as [code|n| | |n]; cbn [writer_call].
  - unfold WriteHeader. rewrite Hw, informational_spec. destruct (informational code); simpl; [by apply IH|].
    rewrite written_stays; done.
  - rewrite written_stays; unfold Write, implicitHeader; rewrite Hw; done.
  - rewrite written_stays; unfold Flush, implicitHeader; rewrite Hw; done.
  - by apply IH.
  - rewrite written_stays; unfold ReadFrom, implicitHeader; rewrite Hw; done.
Qed.


Lemma writer_call_bytes r c : i64 (n_ (writer_call r c)) = i64 (n_ r + body_bytes c).
Proof.
  destruct c; simpl; unfold WriteHeader, Write, Flush, ReadFrom, implicitHeader, Hijack; repeat case_match; simpl; rewrite ?Z.add_0_r; try done.
  all: by rewrite (i64_small (i64 _)) by apply i64_range.
Qed.

Lemma writer_bytes calls r : i64 (n_ (foldl writer_call r calls)) = i64 (n_ r + zsum body_bytes calls).
Proof.
  revert r. induction calls as [|c calls IH]; intros r; cbn [foldl]; [by rewrite Z.add_0_r|].
  rewrite IH, zsum_cons. rewrite <-i64_add_l, writer_call_bytes, i64_add_l. f_equal. lia.
Qed.

Lemma writer_range calls r : in_i64 (n_ r) → in_i64 (n_ (foldl writer_call r calls)).
Proof.
  revert r. induction calls as [|c calls IH]; intros r Hr; [done|]. apply IH.
  destruct c; simpl; unfold WriteHeader, Write, Flush, ReadFrom, implicitHeader, Hijack; repeat case_match; simpl; try done; apply i64_range.
Qed.

(** The wrapped response writer tells what was sent: its status is that of the first call
    that commits the header (a final WriteHeader, or 200 for a Write, Flush or ReadFrom, and
    for none; 1xx headers do not count), its size is the bytes the inner writer accepted,
    and it has the optional methods Flush, Hijack and ReadFrom exactly when the inner writer
    has them. *)
Theorem writer_reports calls f h r :
  status (call_writer calls) = match sent_status calls with Some 0 | None => StatusOK | Some code => code end
  ∧ bytesWritten (call_writer calls) = i64 (zsum body_bytes calls)
  ∧ isFlusher (wrapResponseWriter f h r) = f ∧ isHijacker (wrapResponseWriter f h r) = h
  ∧ isReaderFrom (wrapResponseWriter f h r) = r.
Proof.
  split_and!; [| |by destruct f, h, r..].
  - unfold status, call_writer. rewrite writer_status_from by done. destruct (sent_status calls) as [code|]; [|done].
    simpl. by destruct code.
  - unfold bytesWritten, call_writer. pose proof (writer_range calls new_recorder ltac:(split; simpl; lia)) as Hr.
    pose proof (writer_bytes calls new_recorder) as Hb. rewrite i64_small in Hb by done. rewrite Hb. simpl. f_equal.
Qed.

Section accounts.
Context `{Attributes} (int_value : Z → value) (ParseMediaType : gostring → gostring * option media_error) (type_name : error → gostring).

(** ** Totals of the log *)
Definition value_of (v : measured) : Z :=
  match v with Counter v | Gauge v | Histogram v => default 0 (f_trunc v) | Observe d => d end.

(** The number of records of a metric, and the sum of their values. *)
Inductive tally := Records (name : gostring) | Sum (name : gostring).

Definition weight (t : tally) (name : gostring) (v : measured) : Z :=
  match t with
  | Records n => if gostring_eqb name n then 1 else 0
  | Sum n => if gostring_eqb name n then value_of v else 0
  end.
Definition entry_of (t : tally) (e : entry) : Z := weight t (e_name e) (e_value e).
Definition recorded (t : tally) (l : list entry) : Z := zsum (entry_of t) l.

Lemma recorded_snoc t l e : recorded t (l ++ [e]) = recorded t l + entry_of t e.
Proof. unfold recorded. rewrite zsum_app, zsum_cons. change (zsum (entry_of t) []) with 0. lia. Qed.

(** ** The server *)
Definition serverError : gostring := serverPrefix ++ str ".error.count".

(** What a request did, from the calls the wrapped handler made and what they returned
    alone: the bytes its reads of the body returned, the bytes the inner writer accepted,
    the status that was sent (500 for a panic), and whether a read returned an error other
    than io.EOF. *)
Definition request_bytes (req : Request) (sv : served) : Z := if r_hasBody req then zsum fst (sv_reads sv) else 0.
Definition response_bytes (sv : served) : Z := zsum body_bytes (sv_calls sv).
Definition sent_code (sv : served) : Z :=
  if sv_panics sv then 500 else match sent_status (sv_calls sv) with Some 0 | None => 200 | Some code => code end.
Definition read_failed (r : Z * option error) : bool := match r.2 with Some e => negb (errors_is EOF e) | None => false end.
(** A request fails by its status or by the reading of its body. *)
Definition request_failed (req : Request) (sv : served) : bool :=
  (500 <=? sent_code sv) || (r_hasBody req && existsb read_failed (sv_reads sv)).

(** What the handler recorded has seen: its counting body and its response writer. *)
Definition body_of (req : Request) (sv : served) : countingBody := default new_body (serve_body req sv).
Definition served_status (sv : served) : Z := if sv_panics sv then StatusInternalServerError else status (serve_writer sv).

Lemma body_reads reads b :
  in_i64 (b_n b) →
  b_n (foldl (λ b r, body_Read b r.1 r.2) b reads) = i64 (b_n b + zsum fst reads)
  ∧ bool_decide (b_failed (foldl (λ b r, body_Read b r.1 r.2) b reads) ≠ None) = bool_decide (b_failed b ≠ None) || existsb read_failed reads.
Proof.
  revert b. induction reads as [|[n err] reads IH]; intros b Hb; cbn [foldl existsb fst snd].
  - split; [|by rewrite orb_false_r]. change (zsum fst (@nil (Z * option error))) with 0. by rewrite Z.add_0_r, i64_small.
  - destruct (IH (body_Read b n err)) as [-> ->]; [apply i64_range|]. rewrite zsum_cons. simpl b_n. split.
    + rewrite i64_add_l. f_equal. simpl. lia.
    + rewrite orb_assoc. f_equal. unfold read_failed. simpl. destruct err as [e|]; [|by rewrite orb_false_r].
      destruct (errors_is EOF e); [by rewrite orb_false_r|]. by destruct (b_failed b).
Qed.

Lemma body_counts req sv :
  b_n (body_of req sv) = i64 (request_bytes req sv)
  ∧ bool_decide (b_failed (body_of req sv) ≠ None) = r_hasBody req && existsb read_failed (sv_reads sv).
Proof.
  unfold body_of, serve_body, request_bytes. destruct (r_hasBody req); [|done].
  destruct (body_reads (sv_reads sv) new_body) as [Hn Hf]; [split; simpl; lia|]. done.
Qed.

Lemma writer_reported sv :
  bytesWritten (serve_writer sv) = i64 (response_bytes sv) ∧ served_status sv = sent_code sv.
Proof.
  unfold served_status, sent_code, serve_writer, status, bytesWritten. split.
  - pose proof (writer_range (sv_calls sv) new_recorder ltac:(split; simpl; lia)) as Hr.
    pose proof (writer_bytes (sv_calls sv) new_recorder) as Hb. by rewrite i64_small in Hb by done.
  - destruct (sv_panics sv); [done|]. rewrite writer_status_from by done. destruct (sent_status (sv_calls sv)) as [code|]; [|done].
    simpl. by destruct code.
Qed.

Inductive sop := OpServe (req : Request) (sv : served) | OpSetDefault (r : option Recorder).

Definition srun (h : handler) (o : sop) : prog act unit :=
  match o with
  | OpServe req sv => run@ ServeHTTP int_value ParseMediaType type_name h req sv; Ret tt
  | OpSetDefault r => SetDefaultRecorder r
  end.

(** What is counted of the requests: those in flight, and four totals of the log. *)
Inductive stally := InFlight | Durations | Failures | RequestBytes | ResponseBytes.

Definition tally_of (t : stally) : option tally :=
  match t with
  | InFlight => None
  | Durations => Some (Records serverDuration)
  | Failures => Some (Records serverError)
  | RequestBytes => Some (Sum serverRequestSize)
  | ResponseBytes => Some (Sum serverResponseSize)
  end.

Definition sshare (t : stally) (o : sop) : Z :=
  match o with
  | OpServe req sv =>
      match t with
      | InFlight => 0
      | Durations => 1
      | Failures => if request_failed req sv then 1 else 0
      | RequestBytes => request_bytes req sv
      | ResponseBytes => response_bytes sv
      end
  | OpSetDefault _ => 0
  end.

Definition small (n : Z) : Prop := 0 ≤ n < 2 ^ 53.

(** The sizes of a request are exact as floats, and a default recorder in use is not taken
    away. *)
Definition sop_ok (h : handler) (o : sop) : Prop :=
  match o with
  | OpServe req sv => small (request_bytes req sv) ∧ small (response_bytes sv)
  | OpSetDefault None => useDefault (h_sink h) = false
  | _ => True
  end.

Section server.
Context (h : handler).

Definition sgain (t : stally) {B} (e : act B) : B → Z :=
  match e in act B return B → Z with
  | AddActive d => λ _, match t with InFlight => - d | _ => 0 end
  | Emit e => λ _, match tally_of t with Some q => entry_of q e | None => 0 end
  | _ => λ _, 0
  end.

Definition sallowed {B} (e : act B) : Prop :=
  match e with
  | StoreDefault r => useDefault (h_sink h) = true → r ≠ None
  | LoadDefault => useDefault (h_sink h) = true
  | _ => True
  end.

Definition sadmissible {B} (e : act B) : B → Prop :=
  match e in act B return B → Prop with LoadDefault => λ r, r ≠ None | _ => λ _, True end.

#[local] Notation sbooks t := (books (@sgain t) (@sallowed) (@sadmissible)).

Definition sweight (t : stally) (name : gostring) (v : measured) : Z :=
  match tally_of t with Some q => weight q name v | None => 0 end.

Lemma http_emit_books t ctx rec name v attrs u : 0 ≤ sweight t name v → sbooks t (emit ctx rec name v attrs u) (sweight t name v).
Proof.
  intros Hw. apply books_act; [done|done|]. intros [] _. cbn [sgain]. unfold entry_of, sweight in *. simpl e_name. simpl e_value.
  destruct (tally_of t); rewrite Z.sub_diag; apply books_ret.
Qed.

Lemma emit_then {A} t ctx rec name v attrs u (k : prog act A) a :
  0 ≤ sweight t name v → 0 ≤ a → sbooks t k a → sbooks t (run@ emit ctx rec name v attrs u; k) (sweight t name v + a).
Proof. intros Hw Ha Hk. apply books_bind; [by apply http_emit_books|done|done]. Qed.

(** A record that is not part of the total. *)
Lemma emit_none {A} t ctx rec name v attrs u (k : prog act A) a :
  sweight t name v = 0 → 0 ≤ a → sbooks t k a → sbooks t (run@ emit ctx rec name v attrs u; k) a.
Proof. intros Hw Ha Hk. rewrite <-(Z.add_0_l a), <-Hw. apply emit_then; [lia|done..]. Qed.

Lemma value_small n : small n → value_of (Histogram (f_of_Z n)) = n.
Proof. intros Hn. simpl. by destruct (f_of_Z_exact n Hn) as [-> _]. Qed.

Lemma headers_none {A} t ctx rec prefix s1 s2 hd attrs (k : prog act A) a :
  (∀ v, sweight t (prefix ++ s1) v = 0) → (∀ v, sweight t (prefix ++ s2) v = 0) → 0 ≤ a → sbooks t k a →
  sbooks t (run@ recordHeaders ctx rec prefix s1 s2 hd attrs; k) a.
Proof.
  intros H1 H2 Ha Hk. apply books_bind0; [|done|done]. unfold recordHeaders, recordHeaderStats. apply emit_none; [done|lia|].
  rewrite <-(H2 (Histogram (f_of_Z (headerStats hd).1))). apply http_emit_books. by rewrite H2.
Qed.

Definition failure_share (t : stally) (b : bool) : Z := match t with Failures => if b then 1 else 0 | _ => 0 end.

Lemma recordError_books t ctx rec attrs : sbooks t (recordError ctx rec serverPrefix attrs) (failure_share t true).
Proof.
  assert (Hw : sweight t (serverPrefix ++ str ".error.count") (Counter f_one) = failure_share t true) by (by destruct t).
  unfold recordError. rewrite <-Hw. apply http_emit_books. rewrite Hw. by destruct t.
Qed.

Lemma serve_body_default req sv :
  match serve_body req sv with Some b => b_n b | None => 0 end = b_n (body_of req sv)
  ∧ match serve_body req sv with Some b => b_failed b | None => None end = b_failed (body_of req sv).
Proof. unfold body_of. by destruct (serve_body req sv). Qed.

Lemma duration_books {A} t ctx rec d attrs (k : prog act A) a :
  0 ≤ a → sbooks t k a →
  sbooks t (run@ observeDuration ctx rec serverDuration d attrs unitSeconds; k) ((match t with Durations => 1 | _ => 0 end) + a).
Proof.
  intros Ha Hk. assert (Hw : ∀ v, sweight t serverDuration v = match t with Durations => 1 | _ => 0 end) by (by destruct t).
  unfold observeDuration. destruct (rec_observes rec).
  - rewrite <-(Hw (Observe d)). apply emit_then; [rewrite Hw; by destruct t|done..].
  - rewrite <-(Hw (Histogram (Seconds d))). apply emit_then; [rewrite Hw; by destruct t|done..].
Qed.

(** The record of a request. *)
Lemma record_books t ctx rec req start left_ sv :
  sop_ok h (OpServe req sv) →
  sbooks t (handler_record int_value ParseMediaType type_name h ctx rec req start left_ sv (served_status sv)) (sshare t (OpServe req sv)).
Proof.
  intros [Hreq Hresp]. pose proof (serve_body_default req sv) as [Hn Hf].
  destruct (body_counts req sv) as [Hbn Hbf]. destruct (writer_reported sv) as [Hwn Hws].
  rewrite i64_small in Hbn by (unfold small in Hreq; split; lia). rewrite i64_small in Hwn by (unfold small in Hresp; split; lia).
  assert (Hw1 : sweight t serverRequestSize (Histogram (f_of_Z (request_bytes req sv))) = match t with RequestBytes => request_bytes req sv | _ => 0 end).
  { pose proof (value_small _ Hreq) as Hv. destruct t; try done; exact Hv. }
  assert (Hw2 : sweight t serverResponseSize (Histogram (f_of_Z (response_bytes sv))) = match t with ResponseBytes => response_bytes sv | _ => 0 end).
  { pose proof (value_small _ Hresp) as Hv. destruct t; try done; exact Hv. }
  assert (Hs : sshare t (OpServe req sv) = (match t with Durations => 1 | _ => 0 end)
    + (sweight t serverRequestSize (Histogram (f_of_Z (request_bytes req sv)))
       + (sweight t serverResponseSize (Histogram (f_of_Z (response_bytes sv))) + failure_share t (request_failed req sv)))).
  { rewrite Hw1, Hw2. destruct t; simpl; try lia. }
  assert (0 ≤ failure_share t (request_failed req sv)) by (by destruct t, (request_failed req sv)).
  assert (0 ≤ sweight t serverRequestSize (Histogram (f_of_Z (request_bytes req sv)))) by (rewrite Hw1; unfold small in *; destruct t; lia).
  assert (0 ≤ sweight t serverResponseSize (Histogram (f_of_Z (response_bytes sv)))) by (rewrite Hw2; unfold small in *; destruct t; lia).
  assert (0 ≤ sshare t (OpServe req sv)) by (rewrite Hs; destruct t; lia).
  unfold handler_record. apply books_neutral; [done|done|done|]. intros now _. apply emit_none; [by destruct t|done|].
  rewrite Hs, Hn, Hf, Hbn, Hwn, Hws. apply duration_books; [lia|]. apply emit_then; [done|lia|]. apply emit_then; [done|lia|].
  apply headers_none; [by destruct t|by destruct t|done|]. apply headers_none; [by destruct t|by destruct t|done|].
  unfold request_failed. rewrite <-Hbf. change StatusInternalServerError with 500.
  destruct (500 <=? sent_code sv); [apply recordError_books|].
  destruct (b_failed (body_of req sv)) as [e|]; [apply recordError_books|]. replace (failure_share t _) with 0 by (by destruct t). apply books_ret.
Qed.

Context (Hrec : useDefault (h_sink h) = false → sink_r (h_sink h) ≠ None).

Lemma http_recorder_books {A} t (k : option Recorder → prog act A) a :
  0 ≤ a → (∀ r, sbooks t (k (Some r)) a) → sbooks t (let@ r := sink_recorder (h_sink h); k r) a.
Proof using Hrec.
  intros Ha Hk. unfold sink_recorder. destruct (useDefault (h_sink h)) eqn:E.
  - cbn [bind]. apply books_neutral; [done|done|done|]. intros [r|] Hr; [apply Hk|done].
  - cbn [bind]. destruct (sink_r (h_sink h)) as [r|] eqn:Er; [apply Hk|]. by destruct Hrec.
Qed.

Lemma sshare_nonneg t o : sop_ok h o → 0 ≤ sshare t o.
Proof. destruct o as [req sv|r]; [|done]. intros [Hr Hs]. unfold small in *. destruct t; simpl; try lia. destruct (request_failed req sv); lia. Qed.

Lemma srun_books t o : sop_ok h o → sbooks t (srun h o) (sshare t o).
Proof using Hrec.
  intros Ho. pose proof (sshare_nonneg t o Ho) as Hn. destruct o as [req sv|r]; unfold srun.
  2: { unfold SetDefaultRecorder. destruct r as [r|]; (apply books_neutral; [done|simpl in *; congruence|lia|intros _ _; apply books_ret]). }
  apply books_bind1; [|intros _; apply books_ret]. unfold ServeHTTP. apply http_recorder_books; [done|]. intros rec.
  apply books_neutral; [done|done|done|]. intros start _.
  apply books_act; [done|done|]. intros n _. cbn [sgain].
  assert (Hf : 0 ≤ (match t with InFlight => 1 | _ => 0 end)) by (by destruct t).
  replace (sshare t (OpServe req sv) - _) with (sshare t (OpServe req sv) + (match t with InFlight => 1 | _ => 0 end)) by (destruct t; lia).
  apply emit_none; [by destruct t|lia|]. apply books_act; [lia|done|]. intros left_ _. cbn [sgain].
  replace (_ - _) with (sshare t (OpServe req sv)) by (destruct t; simpl; lia).
  apply books_bind1; [|intros _; apply books_ret].
  pose proof (record_books t (r_tags req) rec req start left_ sv Ho) as Hr. unfold served_status in Hr. by destruct (sv_panics sv).
Qed.

(** ** The invariant of the server *)
Record server_inv (total : stally → Z) (s : state) (gs : list (stally → Z)) : Prop := {
  si_active : active s = i64 (zsum (λ g, g InFlight) gs);
  si_total : ∀ t q, tally_of t = Some q → recorded q (log s) + zsum (λ g, g t) gs = total t;
  si_default : useDefault (h_sink h) = true → defaultRecorder s ≠ None }.

Lemma server_step {B A} total (e : act B) (k : B → prog act A) (g : stally → Z) s gs i b s' :
  gs !! i = Some g → (∀ t, sbooks t (Act e k) (g t)) → server_inv total s gs → (b, s') ∈ handle B e s →
  ∃ g' : stally → Z, (∀ t, sbooks t (k b) (g' t)) ∧ server_inv total s' (<[i := g']> gs).
Proof.
  intros Hi Hb HI Hin. pose proof (Hb InFlight) as (_ & He & _).
  assert (Ha : sadmissible e b).
  { destruct e; cbn [handle sadmissible] in *; try done. apply list_elem_of_singleton in Hin. simplify_eq. by apply (si_default total s gs HI). }
  exists (λ t, g t - sgain t e b). split; [intros t; pose proof (Hb t) as (_ & _ & Hk); auto|].
  assert (Hz : ∀ t, zsum (λ g : stally → Z, g t) (<[i := λ t, g t - sgain t e b]> gs) = zsum (λ g, g t) gs - sgain t e b).
  { intros t. pose proof (zsum_insert (λ g : stally → Z, g t) gs i g (λ t, g t - sgain t e b) Hi) as Hz. simpl in Hz. lia. }
  split.
  - rewrite Hz. pose proof (si_active total s gs HI) as Hact.
    destruct e; cbn [handle] in Hin; repeat case_match; try apply list_elem_of_singleton in Hin; simplify_eq; try (by inversion Hin);
      cbn [sgain tally_of]; rewrite ?Z.sub_0_r; try done. simpl. by rewrite Hact, i64_add_l, Z.sub_opp_r.
  - intros t q Hq. rewrite Hz. pose proof (si_total total s gs HI t q Hq) as Ht.
    destruct e; cbn [handle] in Hin; repeat case_match; try apply list_elem_of_singleton in Hin; simplify_eq; try (by inversion Hin);
      cbn [sgain]; rewrite ?Z.sub_0_r; try done.
    + destruct t; rewrite ?Z.sub_0_r; done.
    + rewrite Hq. simpl log. rewrite recorded_snoc. lia.
  - pose proof (si_default total s gs HI). destruct e; cbn [handle] in Hin; repeat case_match; try apply list_elem_of_singleton in Hin; simplify_eq;
      try (by inversion Hin); done.
Qed.

End server.

Definition init_state (d : option Recorder) (now : Z) : state := mkState d now [] 0 0 0 None Fresh.
Definition http_steps : list (prog act unit) * state → list (prog act unit) * state → Prop := gsteps handle ticks.

Definition records (s : sink) (d : option Recorder) : Prop := if useDefault s then d ≠ None else sink_r s ≠ None.

(** C33. The server metrics account for every request: however the requests a handler serves
    interleave with each other and with changes of the default recorder, when all have
    returned or panicked none is counted as active, each has recorded one duration, the
    error counter was recorded once for each that failed (it panicked, the first call that
    committed the header sent a status of 500 or more, or a read of its body returned an
    error other than io.EOF), and the recorded sizes add up to the bytes the reads returned
    and the bytes the inner writer accepted. *)
Theorem server_accounts h d now ops ts s :
  records (h_sink h) d → Forall (sop_ok h) ops →
  http_steps (srun h <$> ops, init_state d now) (ts, s) → Forall (λ p, p = Ret tt) ts →
  active s = 0
  ∧ ∀ t q, tally_of t = Some q → recorded q (log s) = zsum (sshare t) ops.
Proof.
  intros Hrec Hok Hsteps Hdone.
  assert (Hr : useDefault (h_sink h) = false → sink_r (h_sink h) ≠ None) by (intros Hf; unfold records in Hrec; by rewrite Hf in Hrec).
  assert (Hinv : ∃ gs : list (stally → Z), Forall2 (λ p g, ∀ t, books (@sgain t) (@sallowed h) (@sadmissible) p (g t)) ts gs
    ∧ server_inv h (λ t, zsum (sshare t) ops) s gs).
  { eapply (pool_invariant handle ticks (λ p g, ∀ t, books (@sgain t) (@sallowed h) (@sadmissible) p (g t))
      (server_inv h (λ t, zsum (sshare t) ops))) in Hsteps; [exact Hsteps|..].
    - intros B e k g s1 gs i b s2 Hi Hp HI Hin. by eapply server_step.
    - intros s1 s2 gs HI (t & _ & ->). destruct HI. by split.
    - exists ((λ o t, sshare t o) <$> ops). split.
      + simpl. apply Forall2_fmap_2, Forall_Forall2_diag, Forall_forall. intros o Ho t.
        apply srun_books; [done|]. by eapply Forall_forall in Hok.
      + split; simpl.
        * rewrite zsum_fmap, (zsum_ext _ (λ _, 0)), zsum_zero; [done|by intros []].
        * intros t q _. rewrite zsum_fmap. done.
        * intros Hu. unfold records in Hrec. by rewrite Hu in Hrec. }
  destruct Hinv as (gs & Hgs & HI).
  assert (Hz : ∀ t, zsum (λ g : stally → Z, g t) gs = 0).
  { intros t. clear -Hgs Hdone. induction Hgs as [|p g ts gs Hp _ IH]; [done|]. inversion Hdone; subst. rewrite zsum_cons, IH by done.
    pose proof (Hp t) as [_ Hp0]. simpl in Hp0. lia. }
  split.
  - rewrite (si_active h _ s gs HI), Hz. done.
  - intros t q Hq. pose proof (si_total h _ s gs HI t q Hq) as Ht. rewrite Hz in Ht. lia.
Qed.

(** ** The client *)
Inductive ctally := OneDuration | OneRequestSize | OneResponseSize | BytesRead.

Definition client_metric (t : ctally) : option gostring :=
  match t with
  | OneDuration => Some clientDuration | OneRequestSize => Some clientRequestSize | OneResponseSize => Some clientResponseSize
  | BytesRead => None
  end.

(** Calls on a response body and, by the wrapped transport, on the request body. *)
Inductive cop := OpRead (n : Z) (err : option error) | OpClose (err : option error) | OpReadRequest (n : Z) (err : option error).

Definition crun (m : clientMeasure) (o : cop) : prog act unit :=
  match o with
  | OpRead n err => run@ clientBody_Read int_value type_name m n err; Ret tt
  | OpClose err => run@ clientBody_Close int_value type_name m err; Ret tt
  | OpReadRequest n err => run@ requestBody_Read n err; Ret tt
  end.

Definition finishing (o : cop) : bool :=
  match o with OpRead _ (Some _) | OpClose _ => true | _ => false end.

Definition bytes_read (o : cop) : Z := match o with OpRead n _ => n | _ => 0 end.

Section client.
Context (ud : bool) (total : Z) (Htotal : 0 ≤ total < 2 ^ 53).

Definition cgain (t : ctally) {B} (e : act B) : B → Z :=
  match e in act B return B → Z with
  | OnceEnter => λ mine, match t with BytesRead => 0 | _ => if mine then -1 else 0 end
  | Emit e => λ _, match client_metric t with Some name => entry_of (Records name) e | None => 0 end
  | AddResp n => λ _, match t with BytesRead => n | _ => 0 end
  | _ => λ _, 0
  end.

(** A size that is recorded is one of bytes that were read. *)
Definition size_ok (e : entry) : Prop := e_name e = clientResponseSize → 0 ≤ value_of (e_value e) ≤ total.

Definition callowed {B} (e : act B) : Prop :=
  match e with
  | LoadDefault => ud = true
  | StoreDefault _ => False
  | AddResp n => 0 ≤ n
  | Emit e => size_ok e
  | _ => True
  end.

Definition cadmissible {B} (e : act B) : B → Prop :=
  match e in act B return B → Prop with
  | LoadDefault => λ r, r ≠ None
  | LoadResp => λ n, 0 ≤ n ≤ total
  | _ => λ _, True
  end.

#[local] Notation cbooks t := (books (@cgain t) (@callowed) (@cadmissible)).

Definition named (t : ctally) (name : gostring) : Z :=
  match client_metric t with Some n => if gostring_eqb name n then 1 else 0 | None => 0 end.

Lemma cemit_books {A} t ctx rec name v attrs u (k : prog act A) a :
  (name = clientResponseSize → 0 ≤ value_of v ≤ total) → 0 ≤ a → cbooks t k a →
  cbooks t (run@ emit ctx rec name v attrs u; k) (named t name + a).
Proof.
  intros Hv Ha Hk. assert (Hn : 0 ≤ named t name) by (unfold named; repeat case_match; lia).
  apply books_bind; [|done|done]. apply books_act; [done|exact Hv|]. intros [] _. cbn [cgain].
  replace (named t name - _) with 0; [apply books_ret|]. unfold named, entry_of. simpl. destruct (client_metric t); lia.
Qed.

Lemma cemit_none {A} t ctx rec name v attrs u (k : prog act A) a :
  name ≠ clientResponseSize → named t name = 0 → 0 ≤ a → cbooks t k a → cbooks t (run@ emit ctx rec name v attrs u; k) a.
Proof. intros Hne Hn Ha Hk. rewrite <-(Z.add_0_l a), <-Hn. by apply cemit_books. Qed.

Lemma cemit_last t ctx rec name v attrs u :
  name ≠ clientResponseSize → named t name = 0 → cbooks t (emit ctx rec name v attrs u) 0.
Proof.
  intros Hne Hn. apply books_act; [done|intros ?; done|]. intros [] _. cbn [cgain].
  replace (0 - _) with 0; [apply books_ret|]. unfold named, entry_of in *. simpl. destruct (client_metric t); lia.
Qed.

Lemma cheaders_books t ctx rec s1 s2 hd attrs :
  clientPrefix ++ s1 ≠ clientResponseSize → clientPrefix ++ s2 ≠ clientResponseSize →
  named t (clientPrefix ++ s1) = 0 → named t (clientPrefix ++ s2) = 0 →
  cbooks t (recordHeaderStats ctx rec clientPrefix s1 s2 hd attrs) 0.
Proof. intros. unfold recordHeaderStats. apply cemit_none; [done..|]. by apply cemit_last. Qed.

(** A finish takes its turn of the sync.Once and records each metric once, or nothing. *)
Lemma finish_books t m cause : cbooks t (finish int_value type_name m cause) 0.
Proof using Htotal.
  apply books_act; [done|done|]. intros mine _. cbn [cgain]. destruct mine; [|by destruct t].
  replace (0 - _) with (match t with BytesRead => 0 | _ => 1 end) by (by destruct t).
  assert (Ht : 0 ≤ match t with BytesRead => 0 | _ => 1 end) by (by destruct t).
  apply books_neutral; [done|done|done|]. intros now _. destruct (finish_attrs int_value type_name m cause) as [attrs failed].
  apply books_bind0; [|done|].
  { destruct (m_hasReq m); [|apply books_ret]. apply books_neutral; [done|done|lia|]. intros; apply books_ret. }
  intros sent. assert (Htail : ∀ read, 0 ≤ read ≤ total → cbooks t
    (run@ observeDuration (m_ctx m) (m_rec m) clientDuration (Sub now (m_start m)) attrs unitSeconds;
     run@ emit (m_ctx m) (m_rec m) clientRequestSize (Histogram (f_of_Z sent)) attrs unitBytes;
     run@ emit (m_ctx m) (m_rec m) clientResponseSize (Histogram (f_of_Z read)) attrs unitBytes;
     run@ recordHeaderStats (m_ctx m) (m_rec m) clientPrefix suffixRequestHeaderSize suffixRequestHeaderCount (m_reqHdr m) attrs;
     run@ (if m_hasResp m then recordHeaderStats (m_ctx m) (m_rec m) clientPrefix suffixResponseHeaderSize suffixResponseHeaderCount (m_resHdr m) attrs else Ret tt);
     run@ (if failed then recordError (m_ctx m) (m_rec m) clientPrefix attrs else Ret tt);
     Act OnceExit (λ _, Ret tt)) (match t with BytesRead => 0 | _ => 1 end)).
  { intros read Hread.
    assert (Hrest : cbooks t (run@ recordHeaderStats (m_ctx m) (m_rec m) clientPrefix suffixRequestHeaderSize suffixRequestHeaderCount (m_reqHdr m) attrs;
       run@ (if m_hasResp m then recordHeaderStats (m_ctx m) (m_rec m) clientPrefix suffixResponseHeaderSize suffixResponseHeaderCount (m_resHdr m) attrs else Ret tt);
       run@ (if failed then recordError (m_ctx m) (m_rec m) clientPrefix attrs else Ret tt);
       Act OnceExit (λ _, Ret tt)) 0).
    { apply books_bind0; [apply cheaders_books; by try destruct t|lia|intros _].
      apply books_bind0; [destruct (m_hasResp m); [apply cheaders_books; by try destruct t|apply books_ret]|lia|intros _].
      apply books_bind0; [destruct failed; [apply cemit_last; by try destruct t|apply books_ret]|lia|intros _].
      apply books_neutral; [done|done|lia|]. intros; apply books_ret. }
    assert (Hv : 0 ≤ value_of (Histogram (f_of_Z read)) ≤ total) by (rewrite value_small; [done|split; lia]).
    assert (Hn2 : 0 ≤ named t clientResponseSize) by (by destruct t).
    assert (Hn1 : 0 ≤ named t clientRequestSize) by (by destruct t).
    replace (match t with BytesRead => 0 | _ => 1 end) with (named t clientDuration + (named t clientRequestSize + (named t clientResponseSize + 0))) by (by destruct t).
    unfold observeDuration. destruct (rec_observes (m_rec m)).
    all: apply cemit_books; [done|lia|]; apply cemit_books; [done|lia|]; by apply cemit_books. }
  destruct (m_hasRespBody m); cbn [bind]; [|apply Htail; lia].
  apply books_neutral; [done|done|done|]. intros read Hread. by apply Htail.
Qed.

Definition cshare (t : ctally) (o : cop) : Z := match t with BytesRead => bytes_read o | _ => 0 end.

Lemma crun_books t m o : 0 ≤ bytes_read o ≤ total → cbooks t (crun m o) (cshare t o).
Proof using Htotal.
  intros Hb. assert (Hs : 0 ≤ cshare t o) by (unfold cshare; destruct t; lia).
  destruct o as [n err|err|n err]; unfold crun; (apply books_bind1; [|intros; apply books_ret]).
  - simpl in Hb. unfold clientBody_Read. rewrite i64_small by lia.
    apply books_act; [done|simpl; lia|]. intros [] _. cbn [cgain].
    replace (cshare t (OpRead n err) - _) with 0 by (destruct t; simpl; lia).
    apply books_bind0; [destruct err as [e|]; [|apply books_ret]; destruct (errors_is EOF e); [apply books_ret|]|lia|intros _].
    { apply books_neutral; [done|done|lia|]. intros; apply books_ret. }
    apply books_bind0; [destruct err as [e|]; [apply finish_books|apply books_ret]|lia|intros _]. apply books_ret.
  - replace (cshare t (OpClose err)) with 0 by (by destruct t). apply books_bind0; [apply finish_books|lia|intros _]. apply books_ret.
  - replace (cshare t (OpReadRequest n err)) with 0 by (by destruct t). apply books_neutral; [done|done|lia|]. intros; apply books_ret.
Qed.

Definition streams (result : rt_result) : bool := match result with RTOk resp => match rs_Body resp with StreamBody => true | _ => false end | _ => false end.

(** Programs that only look. *)
Fixpoint looks {A} (p : prog act A) : Prop :=
  match p with
  | Ret _ => True
  | Act e K =>
      match e in act B return (B → prog act A) → Prop with
      | LoadDefault | Now => λ K, ∀ b, looks (K b)
      | _ => λ _, False
      end K
  end.

Lemma RoundTrip_looks tr req result : streams result = true → looks (RoundTrip int_value ParseMediaType type_name tr req result).
Proof.
  intros Hs. destruct result as [| |resp]; try done. simpl in Hs.
  assert (Hk : ∀ rec, looks (match rec with None => Ret (RTOk resp, None) | Some rec => Act Now (λ start,
    let attrs := requestAttrs int_value req ++ (if contentAttrs_ (t_cfg tr) then requestContent ParseMediaType (r_Header req) (r_TransferEncoding req) else []) in
    let attrs := attrs ++ (if contentAttrs_ (t_cfg tr) then responseContent ParseMediaType (rs_Header resp) (rs_TransferEncoding resp) else []) in
    let m stream := mkMeasure (r_tags req) rec start attrs (rs_StatusCode resp) (r_hasBody req) stream (headerStats (r_Header req)) (headerStats (rs_Header resp)) true in
    match rs_Body resp with
    | NilBody | NoBody | ReadWriteBody => run@ finish int_value type_name (m false) None; Ret (RTOk resp, None)
    | StreamBody => Ret (RTOk resp, Some (m true))
    end) end)).
  { intros [rec|]; [|done]. intros start. by destruct (rs_Body resp). }
  unfold RoundTrip, sink_recorder. destruct (useDefault (t_sink tr)); cbn [bind]; [|apply Hk].
  intros [r|]; [apply (Hk (Some r))|apply (Hk None)].
Qed.

(** Without a stream there is no measurement left to finish. *)
Fixpoint leaves {A} (P : A → Prop) (p : prog act A) : Prop :=
  match p with Ret r => P r | Act e K => ∀ b, leaves P (K b) end.

Lemma leaves_bind {A C} P (p : prog act A) (f : A → prog act C) : (∀ r, leaves P (f r)) → leaves P (bind p f).
Proof. intros Hf. induction p as [r|B e K IH]; [apply Hf|]. intros b. apply IH. Qed.

Lemma RoundTrip_leaves tr req result :
  streams result = false → leaves (λ r, r.2 = None) (RoundTrip int_value ParseMediaType type_name tr req result).
Proof.
  intros Hs. apply leaves_bind. intros [rec|]; [|done]. intros start. destruct result as [resp err| |resp]; [by apply leaves_bind|done|].
  simpl in Hs. destruct (rs_Body resp); try done; by apply leaves_bind.
Qed.

Section trip.
Context (tr : transport) (Hud : useDefault (t_sink tr) = ud) (Hrec : ud = false → sink_r (t_sink tr) ≠ None).

Lemma crecorder_books {A} t (k : option Recorder → prog act A) :
  (∀ r, cbooks t (k (Some r)) 0) → cbooks t (let@ r := sink_recorder (t_sink tr); k r) 0.
Proof using Hud Hrec.
  intros Hk. unfold sink_recorder. destruct (useDefault (t_sink tr)) eqn:E.
  - cbn [bind]. apply books_neutral; [done|by subst|lia|]. intros [r|] Hr; [apply Hk|done].
  - cbn [bind]. destruct (sink_r (t_sink tr)) as [r|] eqn:Er; [apply Hk|]. by destruct Hrec; subst.
Qed.

Lemma RoundTrip_books t req result : cbooks t (RoundTrip int_value ParseMediaType type_name tr req result) 0.
Proof using Hud Hrec Htotal.
  apply crecorder_books. intros rec. apply books_neutral; [done|done|lia|]. intros start _.
  destruct result as [resp err| |resp]; [|apply books_ret|].
  - apply books_bind0; [apply finish_books|lia|]. intros; apply books_ret.
  - destruct (rs_Body resp); [..|apply books_ret]; (apply books_bind0; [apply finish_books|lia|]; intros; apply books_ret).
Qed.

(** Every path takes its turn of the sync.Once. *)
Fixpoint enters {A} (p : prog act A) : Prop :=
  match p with
  | Ret _ => False
  | Act e K =>
      match e in act B return (B → prog act A) → Prop with
      | OnceEnter => λ _, True
      | e' => λ K, ∀ b, cadmissible e' b → enters (K b)
      end K
  end.

Lemma enters_bind {A C} (p : prog act A) (f : A → prog act C) : enters p ∨ (∀ r, enters (f r)) → enters (bind p f).
Proof. induction p as [r|B e K IH]; intros [Hp|Hf]; try done; [apply Hf|..]; destruct e; simpl in *; auto. Qed.

Lemma crun_enters m o : finishing o = true → enters (crun m o).
Proof.
  intros Ho. destruct o as [n [e|]|err|n err]; try done. apply enters_bind. left.
  intros b _. apply enters_bind. right. intros _. apply enters_bind. by left.
Qed.

Lemma recorder_enters {A} (k : option Recorder → prog act A) :
  (∀ r, enters (k (Some r))) → enters (let@ r := sink_recorder (t_sink tr); k r).
Proof using Hud Hrec.
  intros Hk. unfold sink_recorder. destruct (useDefault (t_sink tr)) eqn:E; cbn [bind].
  - intros [r|] Hr; [apply Hk|done].
  - destruct (sink_r (t_sink tr)) as [r|] eqn:Er; [apply Hk|]. by destruct Hrec; subst.
Qed.

Lemma RoundTrip_enters req result :
  streams result = false → result ≠ RTNil → enters (RoundTrip int_value ParseMediaType type_name tr req result).
Proof using Hud Hrec.
  intros Hs Hn. apply recorder_enters. intros rec start _.
  destruct result as [resp err| |resp]; [done|done|]. simpl in Hs. by destruct (rs_Body resp).
Qed.

End trip.

(** The sync.Once is left only by a goroutine that entered it. *)
Fixpoint inside {A} (p : prog act A) (i : bool) : Prop :=
  match p with
  | Ret _ => True
  | Act e K =>
      match e in act B return (B → prog act A) → Prop with
      | OnceEnter => λ K, inside (K true) true ∧ inside (K false) i
      | OnceExit => λ K, i = true ∧ inside (K tt) i
      | _ => λ K, ∀ b, inside (K b) i
      end K
  end.

Lemma inside_bind {A C} (p : prog act A) (f : A → prog act C) i :
  inside p i → (∀ r i', inside (f r) (i || i')) → inside (bind p f) i.
Proof.
  revert i. induction p as [r|B e K IH]; intros i Hp Hf.
  { specialize (Hf r false). by rewrite orb_false_r in Hf. }
  destruct e; simpl in *; try (intros b; by apply IH).
  - destruct Hp. split; apply IH; auto. intros r i'. specialize (Hf r true). rewrite orb_true_r in Hf. done.
  - destruct Hp. split; [done|]. by apply IH.
Qed.

(** Recording does not touch the sync.Once. *)
Fixpoint apart {A} (p : prog act A) : Prop :=
  match p with
  | Ret _ => True
  | Act e K =>
      match e in act B return (B → prog act A) → Prop with
      | OnceEnter | OnceExit => λ _, False
      | _ => λ K, ∀ b, apart (K b)
      end K
  end.

Lemma apart_then {A C} (p : prog act A) (f : A → prog act C) i : apart p → (∀ r, inside (f r) i) → inside (bind p f) i.
Proof. intros Hp Hf. induction p as [r|B e K IH]; [apply Hf|]. destruct e; simpl in *; try done; intros b; by apply IH. Qed.

Lemma apart_bind {A C} (p : prog act A) (f : A → prog act C) : apart p → (∀ r, apart (f r)) → apart (bind p f).
Proof. intros Hp Hf. induction p as [r|B e K IH]; [apply Hf|]. destruct e; simpl in *; try done; intros b; by apply IH. Qed.

Lemma observe_apart ctx rec name d attrs u : apart (observeDuration ctx rec name d attrs u).
Proof. unfold observeDuration. by destruct (rec_observes rec). Qed.

Lemma finish_inside m cause i : inside (finish int_value type_name m cause) i.
Proof.
  split; [|done]. intros now. destruct (finish_attrs int_value type_name m cause) as [attrs failed].
  apply apart_then; [by destruct (m_hasReq m)|intros sent]. apply apart_then; [by destruct (m_hasRespBody m)|intros read].
  apply apart_then; [apply observe_apart|intros _]. apply apart_then; [done|intros _]. apply apart_then; [done|intros _].
  apply apart_then; [done|intros _]. apply apart_then; [by destruct (m_hasResp m)|intros _].
  apply apart_then; [by destruct failed|done].
Qed.

Lemma crun_inside m o : inside (crun m o) false.
Proof.
  destruct o as [n err|err|n err]; apply inside_bind; try done.
  - intros b. apply apart_then; [destruct err as [e|]; [by destruct (errors_is EOF e)|done]|intros _].
    apply inside_bind; [destruct err; [apply finish_inside|done]|done].
  - apply inside_bind; [apply finish_inside|done].
Qed.

Lemma RoundTrip_inside tr req result : inside (RoundTrip int_value ParseMediaType type_name tr req result) false.
Proof.
  apply apart_then; [unfold sink_recorder; case_match; [by intros [|]|done]|]. intros [rec|]; [|done]. intros start.
  destruct result as [resp err| |resp]; [apply inside_bind; [apply finish_inside|done]|done|].
  destruct (rs_Body resp); [..|done]; (apply inside_bind; [apply finish_inside|done]).
Qed.

(** *** The invariant of a measurement *)
Record cghost {A} := mkGhost { cg_prog : prog act A; cg_in : bool; cg_owes : ctally → Z }.
#[global] Arguments cghost : clear implicits.

Definition cg_ok {A} (p : prog act A) (g : cghost A) : Prop :=
  p = cg_prog g ∧ inside p (cg_in g) ∧ ∀ t, cbooks t p (cg_owes g t).

Record client_inv {A} (fin : bool) (s : state) (gs : list (cghost A)) : Prop := {
  ci_once : ∀ t name, client_metric t = Some name →
    recorded (Records name) (log s) + zsum (λ g, cg_owes g t) gs = match once_ s with Fresh => 0 | _ => 1 end;
  ci_in : ∀ g, g ∈ gs → cg_in g = true → once_ s ≠ Fresh;
  ci_owed : ∀ t g, g ∈ gs → 0 ≤ cg_owes g t;
  ci_bytes : 0 ≤ respN s ∧ respN s + zsum (λ g, cg_owes g BytesRead) gs = total;
  ci_sizes : Forall size_ok (log s);
  ci_default : ud = true → defaultRecorder s ≠ None;
  ci_enters : fin = true → once_ s ≠ Fresh ∨ ∃ g, g ∈ gs ∧ enters (cg_prog g) }.

Lemma cowed_le {A} (gs : list (cghost A)) i g t :
  (∀ t g, g ∈ gs → 0 ≤ cg_owes g t) → gs !! i = Some g → cg_owes g t ≤ zsum (λ g, cg_owes g t) gs.
Proof.
  intros Hn Hi. pose proof (zsum_insert (λ g : cghost A, cg_owes g t) gs i g (mkGhost _ (cg_prog g) false (λ _, 0)) Hi) as He. simpl in He.
  assert (0 ≤ zsum (λ g : cghost A, cg_owes g t) (<[i := mkGhost _ (cg_prog g) false (λ _, 0)]> gs)); [|lia].
  apply zsum_nonneg, Forall_forall. intros x Hx. destruct (elem_of_list_insert gs i g _ x Hi Hx) as [->|]; auto; simpl; lia.
Qed.

Definition enter_of {B} (e : act B) : B → bool := match e in act B return B → bool with OnceEnter => λ b, b | _ => λ _, false end.

Lemma inside_step {A B} (e : act B) (K : B → prog act A) i b : inside (Act e K) i → inside (K b) (i || enter_of e b).
Proof.
  destruct e; simpl; rewrite ?orb_false_r; try (intros Hi; apply Hi).
  - intros [H1 H2]. destruct b; [by rewrite orb_true_r|by rewrite orb_false_r].
  - intros [_ Hi]. by destruct b.
Qed.

Lemma once_monotone {B} (e : act B) s b s' :
  (b, s') ∈ handle B e s → (once_ s ≠ Fresh → once_ s' ≠ Fresh) ∧ (enter_of e b = true → once_ s' ≠ Fresh).
Proof.
  intros Hin. destruct e; cbn [handle] in Hin; repeat case_match; try apply list_elem_of_singleton in Hin; simplify_eq; try (by inversion Hin);
    split; simpl; intros; congruence.
Qed.

Lemma http_client_step {B A} fin (e : act B) (k : B → prog act A) (g : cghost A) s gs i b s' :
  gs !! i = Some g → cg_ok (Act e k) g → client_inv fin s gs → (b, s') ∈ handle B e s →
  ∃ g', cg_ok (k b) g' ∧ client_inv fin s' (<[i := g']> gs).
Proof using Htotal.
  intros Hi (Hp & Hins & Hb) HI Hin. pose proof (Hb BytesRead) as (_ & He & _). pose proof (list_elem_of_lookup_2 _ _ _ Hi) as Hmem.
  pose proof (ci_bytes fin s gs HI) as [Hb0 Hbt]. pose proof (cowed_le gs i _ BytesRead (ci_owed fin s gs HI) Hi) as Hle.
  pose proof (ci_owed fin s gs HI BytesRead _ Hmem) as Hge. destruct (once_monotone e s b s' Hin) as [Hmono Hent].
  assert (Ha : cadmissible e b).
  { destruct e; cbn [handle cadmissible] in *; try done; apply list_elem_of_singleton in Hin; simplify_eq; [by apply (ci_default fin s gs HI)|lia]. }
  assert (Hk : ∀ t, cbooks t (k b) (cg_owes g t - cgain t e b)) by (intros t; pose proof (Hb t) as (_ & _ & Hk); auto).
  set (g' := mkGhost _ (k b) (cg_in g || enter_of e b) (λ t, cg_owes g t - cgain t e b)).
  exists g'. split; [split_and!; [done|by apply inside_step|done]|].
  assert (Hz : ∀ t, zsum (λ g, cg_owes g t) (<[i := g']> gs) = zsum (λ g, cg_owes g t) gs - cgain t e b).
  { intros t. pose proof (zsum_insert (λ g : cghost A, cg_owes g t) gs i g g' Hi) as Hz. simpl in Hz. lia. }
  split.
  - intros t name Hn. rewrite Hz. pose proof (ci_once fin s gs HI t name Hn) as Ho.
    destruct e; cbn [handle] in Hin; try (apply list_elem_of_singleton in Hin; simplify_eq); cbn [cgain] in *; rewrite ?Z.sub_0_r; try done.
    + rewrite Hn. simpl log. simpl once_. rewrite recorded_snoc. lia.
    + destruct t; simplify_eq; simpl; lia.
    + destruct (once_ s) eqn:Hos; [|by inversion Hin|]; apply list_elem_of_singleton in Hin; simplify_eq; rewrite ?Hos;
        destruct t; simplify_eq; simpl in *; lia.
    + simpl. destruct Hins as [Hi1 _]. pose proof (ci_in fin s gs HI g Hmem Hi1). by destruct (once_ s).
  - intros x Hx Hxi. destruct (elem_of_list_insert gs i g g' x Hi Hx) as [->|Hx']; [|apply Hmono; by eapply (ci_in fin s gs HI)].
    simpl in Hxi. apply orb_true_iff in Hxi as [Hxi|Hxi]; [apply Hmono; by eapply (ci_in fin s gs HI)|by apply Hent].
  - intros t x Hx. destruct (elem_of_list_insert gs i g g' x Hi Hx) as [->|]; [apply (books_nonneg _ _ _ _ _ (Hk t))|by apply (ci_owed fin s gs HI)].
  - rewrite Hz. pose proof (books_nonneg _ _ _ _ _ (Hk BytesRead)) as Hnn.
    destruct e; cbn [handle] in Hin; repeat case_match; try apply list_elem_of_singleton in Hin; simplify_eq; try (by inversion Hin);
      cbn [cgain client_metric callowed] in *; simpl in *; try lia. rewrite i64_small by lia. lia.
  - pose proof (ci_sizes fin s gs HI). destruct e; cbn [handle] in Hin; repeat case_match; try apply list_elem_of_singleton in Hin; simplify_eq; try (by inversion Hin); try done.
    simpl. by apply Forall_app_2; [|constructor].
  - pose proof (ci_default fin s gs HI). destruct e; cbn [handle] in Hin; repeat case_match; try apply list_elem_of_singleton in Hin; simplify_eq; try (by inversion Hin); done.
  - intros Hf. destruct (ci_enters fin s gs HI Hf) as [Ho|(x & Hx & Hex)]; [left; auto|].
    destruct (elem_of_list_insert_other gs i g g' x Hi Hx) as [->|]; [|right; eauto]. rewrite <-Hp in Hex.
    assert (enters (k b) ∨ once_ s' ≠ Fresh) as [Hen|]; [|right|by left].
    { destruct e; simpl in Hex; try (left; by apply Hex). right. cbn [handle] in Hin.
      destruct (once_ s) eqn:Hos; [|by inversion Hin|]; apply list_elem_of_singleton in Hin; simplify_eq; simpl; congruence. }
    exists g'. split; [by eapply elem_of_list_insert_new|done].
Qed.

(** What the invariant says of a run that begins with a fresh measurement. *)
Lemma client_run {A} (ps : list (prog act A)) (gs0 : list (cghost A)) fin s0 ts s :
  Forall2 cg_ok ps gs0 →
  (∀ g, g ∈ gs0 → cg_in g = false ∧ ∀ t, t ≠ BytesRead → cg_owes g t = 0) →
  zsum (λ g, cg_owes g BytesRead) gs0 = total →
  log s0 = [] → respN s0 = 0 → once_ s0 = Fresh → (ud = true → defaultRecorder s0 ≠ None) →
  (fin = true → ∃ p, p ∈ ps ∧ enters p) →
  gsteps handle ticks (ps, s0) (ts, s) → ∃ gs, Forall2 cg_ok ts gs ∧ client_inv fin s gs.
Proof using Htotal.
  intros Hps Hzero Hsum Hlog Hresp Honce Hdef Hfin Hsteps.
  eapply (pool_invariant handle ticks cg_ok (client_inv fin)) in Hsteps; [exact Hsteps|..].
  - intros B e k g s1 gs i b s2 Hi Hp HI Hin. by eapply http_client_step.
  - intros s1 s2 gs HI (t & _ & ->). destruct HI. by split.
  - exists gs0. cbn [fst snd]. split; [done|]. split.
    + intros t name Hn. rewrite Hlog, Honce. rewrite (zsum_ext _ (λ _, 0)), zsum_zero; [done|]. intros g Hg. apply Hzero; [done|]. by intros ->.
    + intros g Hg Hi. destruct (Hzero g Hg). congruence.
    + intros t g Hg. apply list_elem_of_lookup in Hg as [i Hi]. destruct (Forall2_lookup_r _ _ _ _ _ Hps Hi) as (p & _ & _ & _ & Hb).
      apply (books_nonneg _ _ _ _ _ (Hb t)).
    + rewrite Hresp. lia.
    + by rewrite Hlog.
    + done.
    + intros Hf. right. destruct (Hfin Hf) as (p & Hp & He). apply list_elem_of_lookup in Hp as [i Hi].
      destruct (Forall2_lookup_l _ _ _ _ _ Hps Hi) as (g & Hg & Hpg & _). exists g. split; [by eapply list_elem_of_lookup_2|by rewrite <-Hpg].
Qed.

(** When all have returned the metrics were recorded once, if anyone finished. *)
Lemma client_done {A} fin (ts : list (prog act A)) gs s :
  Forall2 cg_ok ts gs → client_inv fin s gs → Forall (λ p, ∃ r, p = Ret r) ts → fin = true →
  ∀ t name, client_metric t = Some name → recorded (Records name) (log s) = 1.
Proof.
  intros Hgs HI Hdone Hfin t name Hn. pose proof (ci_once fin s gs HI t name Hn) as Ho.
  assert (Hz : zsum (λ g, cg_owes g t) gs = 0).
  { clear -Hgs Hdone. induction Hgs as [|p g ts gs (_ & _ & Hp) _ IH]; [done|]. inversion Hdone as [|? ? [r ->]]; subst.
    rewrite zsum_cons, IH by done. pose proof (Hp t) as [_ Hp0]. simpl in Hp0. lia. }
  destruct (ci_enters fin s gs HI Hfin) as [Hne|(g & Hg & He)].
  - destruct (once_ s); [done|lia..].
  - exfalso. apply list_elem_of_lookup in Hg as [i Hi]. destruct (Forall2_lookup_r _ _ _ _ _ Hgs Hi) as (p & Hp & Hpg & _).
    destruct (Forall_lookup_1 _ _ _ _ Hdone Hp) as [r ->]. by rewrite <-Hpg in He.
Qed.

Lemma client_at_most {A} fin gs s : @client_inv A fin s gs → ∀ t name, client_metric t = Some name → recorded (Records name) (log s) ≤ 1.
Proof.
  intros HI t name Hn. pose proof (ci_once fin s gs HI t name Hn) as Ho.
  assert (0 ≤ zsum (λ g, cg_owes g t) gs) by (apply zsum_nonneg, Forall_forall; intros g Hg; by apply (ci_owed fin s gs HI)).
  destruct (once_ s); lia.
Qed.

End client.

(** A step of a program that only looks leaves the log, the counters and the sync.Once. *)
Lemma looks_run {A} (p : prog act A) s ts s' :
  looks p → gsteps handle ticks ([p], s) (ts, s') →
  log s' = log s ∧ respN s' = respN s ∧ once_ s' = once_ s ∧ defaultRecorder s' = defaultRecorder s.
Proof.
  intros Hp Hsteps.
  assert (Hinv : ∃ gs : list unit, Forall2 (λ p _, looks p) ts gs ∧ log s' = log s ∧ respN s' = respN s ∧ once_ s' = once_ s ∧ defaultRecorder s' = defaultRecorder s).
  { eapply (pool_invariant handle ticks (λ p (_ : unit), looks p)
      (λ s' _, log s' = log s ∧ respN s' = respN s ∧ once_ s' = once_ s ∧ defaultRecorder s' = defaultRecorder s)) in Hsteps; [exact Hsteps|..].
    - intros B e k g s1 gs i b s2 Hi Hl HI Hin. exists tt. destruct e; try done; cbn [handle] in Hin; apply list_elem_of_singleton in Hin; simplify_eq.
      + split; [apply Hl|done].
      + split; [apply Hl|done].
    - intros s1 s2 gs HI (t & _ & ->). done.
    - exists [tt]. split; [by repeat constructor|done]. }
  by destruct Hinv as (_ & _ & Hs).
Qed.

Lemma leaves_run {A} P (p : prog act A) s r s' : leaves P p → gsteps handle ticks ([p], s) ([Ret r], s') → P r.
Proof.
  intros Hp Hsteps. assert (Hinv : ∃ gs : list unit, Forall2 (λ p _, leaves P p) [Ret r] gs ∧ True).
  { eapply (pool_invariant handle ticks (λ p (_ : unit), leaves P p) (λ _ _, True)) in Hsteps; [exact Hsteps|..].
    - intros B e k g s1 gs i b s2 Hi Hl _ Hin. exists tt. by split.
    - done.
    - exists [tt]. split; [by repeat constructor|done]. }
  destruct Hinv as (gs & Hgs & _). by inversion Hgs.
Qed.

Definition once_each (l : list entry) : Prop := ∀ t name, client_metric t = Some name → recorded (Records name) l = 1.

(** C34. A request of the client is measured once.  A round trip that fails, or whose response
    has no body to be read, has recorded the duration and the two sizes exactly once when it
    returns; the response of any other round trip carries the measurement, and however
    reads and closes of its body and reads of the request body interleave, each of the
    three is recorded at most once, the size recorded is at most the bytes read, and once
    all calls have returned and one of them met the end, an error or was a Close, exactly
    once. *)
Theorem client_measured_once tr req result d now r mo s1 :
  records (t_sink tr) d →
  gsteps handle ticks ([RoundTrip int_value ParseMediaType type_name tr req result], init_state d now) ([Ret (r, mo)], s1) →
  if streams result then
    ∀ m ops ts s,
      mo = Some m → Forall (λ o, 0 ≤ bytes_read o) ops → zsum bytes_read ops < 2 ^ 53 →
      http_steps (crun m <$> ops, s1) (ts, s) →
      (∀ t name, client_metric t = Some name → recorded (Records name) (log s) ≤ 1)
      ∧ Forall (size_ok (zsum bytes_read ops)) (log s)
      ∧ (Forall (λ p, ∃ r, p = Ret r) ts → existsb finishing ops = true → once_each (log s))
  else mo = None ∧ (result ≠ RTNil → once_each (log s1)).
Proof.
  intros Hrec Htrip. destruct (streams result) eqn:Hs.
  - intros m ops ts s -> Hok Hb Hsteps.
    destruct (looks_run _ _ _ _ (RoundTrip_looks tr req result Hs) Htrip) as (Hlog & Hresp & Honce & _).
    assert (Ht : 0 ≤ zsum bytes_read ops < 2 ^ 53) by (split; [by apply zsum_nonneg|done]).
    destruct (client_run false (zsum bytes_read ops) Ht (crun m <$> ops) ((λ o, mkGhost _ (crun m o) false (λ t, cshare t o)) <$> ops)
      (existsb finishing ops) s1 ts s) as (gs & Hgs & HI); try done.
    + apply Forall2_fmap_2, Forall_Forall2_diag, Forall_forall. intros o Ho. split_and!; [done|apply crun_inside|]. simpl. intros t.
      apply crun_books; [done|]. rewrite Forall_forall in Hok. split; [by apply Hok|].
      apply list_elem_of_lookup in Ho as [i Hi]. pose proof (zsum_insert bytes_read ops i o (OpClose None) Hi) as Hz.
      assert (0 ≤ zsum bytes_read (<[i := OpClose None]> ops)); [|simpl in Hz; lia].
      apply zsum_nonneg, Forall_forall. intros x Hx. destruct (elem_of_list_insert ops i o _ x Hi Hx) as [->|]; [done|by apply Hok].
    + intros g Hg. apply list_elem_of_fmap in Hg as (o & -> & _). split; [done|]. intros t Hne. by destruct t.
    + rewrite zsum_fmap. done.
    + intros Hf. apply existsb_exists in Hf as (o & Ho & Hf). exists (crun m o). split; [|by apply crun_enters].
      apply list_elem_of_fmap. exists o. split; [done|by apply list_elem_of_In].
    + split_and!; [by eapply client_at_most|by eapply ci_sizes|]. intros Hdone Hf t name Hn. by eapply client_done.
  - split; [by eapply (leaves_run (λ r, r.2 = None)) in Htrip; [|apply RoundTrip_leaves]|]. intros Hne.
    destruct (client_run (useDefault (t_sink tr)) 0 ltac:(lia) [RoundTrip int_value ParseMediaType type_name tr req result]
      [mkGhost _ (RoundTrip int_value ParseMediaType type_name tr req result) false (λ _, 0)] true (init_state d now) [Ret (r, mo)] s1) as (gs & Hgs & HI); try done.
    + repeat constructor; [apply RoundTrip_inside|]. simpl. intros t.
      apply RoundTrip_books; [lia|done|]. intros Hf. unfold records in Hrec. by rewrite Hf in Hrec.
    + intros g ->%list_elem_of_singleton. done.
    + intros Hf. unfold records in Hrec. by rewrite Hf in Hrec.
    + intros _. eexists. split; [by apply list_elem_of_singleton|]. eapply RoundTrip_enters; [done| |done|done].
      intros Hf. unfold records in Hrec. by rewrite Hf in Hrec.
    + intros t name Hn. eapply client_done; [done|done| |done|done]. repeat constructor. by eexists.
Qed.

End accounts.

(** ** Examples *)
Definition demo_int : Z → @value toy_attributes := VInt.
Definition demo_media (v : gostring) : gostring * option media_error := (v, None).
Definition demo_type (_ : error) : gostring := str "*errors.errorString".
Definition demo_rec : Recorder := mkRec 1 true.

Definition demo_handler : handler := NewHandlerWith (Some demo_rec) [Some WithContentAttributes].
Definition demo_post : Request :=
  mkRequest (str "POST") true 1 1 [(str "Content-Type", [str "text/plain"])] [str "chunked"] true None [].
Definition demo_get : Request := mkRequest (str "FETCH") false 2 0 [] [] false None [].
(** One handler writes twice, the other panics after a read of its body failed. *)
Definition demo_ok : served := mkServed [CallWriteHeader 103; CallWriteHeader 201; CallWrite 4; CallWrite 6] [] [] (str "GET /users/{id}") false.
Definition demo_panic : served := mkServed [CallWrite 3] [(8, None); (0, Some (ErrExt 1))] [] [] true.

Definition returned {A} (p : prog act A) : bool := match p with Ret _ => true | _ => false end.

Lemma returned_all (ts : list (prog act unit)) : forallb returned ts = true → Forall (λ p, p = Ret tt) ts.
Proof.
  intros Hts. apply Forall_forall. intros p Hp. rewrite forallb_forall in Hts. specialize (Hts p (proj1 (list_elem_of_In _ _) Hp)).
  by destruct p as [[]|].
Qed.

Definition demo_sops : list sop := [OpServe demo_get demo_ok; OpServe demo_post demo_panic].
Definition demo_start : list (prog act unit) * state :=
  (srun demo_int demo_media demo_type demo_handler <$> demo_sops, init_state None 7).
(** The requests take turns. *)
Definition demo_turns : list nat := concat (replicate 13 [0%nat; 1%nat]) ++ [1%nat].

Lemma server_accounts_witness :
  ∃ ts s, http_steps demo_start (ts, s) ∧ active s = 0
  ∧ recorded (Records serverDuration) (log s) = 2 ∧ recorded (Records serverError) (log s) = 1
  ∧ recorded (Sum serverRequestSize) (log s) = 8 ∧ recorded (Sum serverResponseSize) (log s) = 13.
Proof.
  assert (Hr : (λ c, forallb returned c.1) <$> sched handle demo_turns demo_start = Some true) by (vm_compute; reflexivity).
  destruct (sched_observes handle ticks _ _ _ _ Hr) as ([ts s] & Hs & Hret). exists ts, s. split; [exact Hs|].
  destruct (server_accounts demo_int demo_media demo_type demo_handler None 7 demo_sops ts s) as [Ha Ht].
  - done.
  - repeat constructor; vm_compute; congruence.
  - exact Hs.
  - by apply returned_all.
  - split; [exact Ha|]. rewrite (Ht Durations _ eq_refl), (Ht Failures _ eq_refl), (Ht RequestBytes _ eq_refl), (Ht ResponseBytes _ eq_refl).
    clear. split_and!; vm_compute; reflexivity.
Defined.

Definition demo_transport : transport := NewTransportWith (Some demo_rec) [].
Definition demo_response : Response := mkResponse 200 [] [] StreamBody.
Definition demo_measure : clientMeasure :=
  mkMeasure [] demo_rec 7 (requestAttrs demo_int demo_get) 200 false true (0, 0) (0, 0) true.
(** Three bytes, two more with the end, and a Close. *)
Definition demo_cops : list cop := [OpRead 3 None; OpRead 2 (Some (ErrIs EOF)); OpClose None].
Definition demo_ccalls : list (prog act unit) := crun demo_int demo_type demo_measure <$> demo_cops.

Lemma demo_trip :
  gsteps handle ticks ([RoundTrip demo_int demo_media demo_type demo_transport demo_get (RTOk demo_response)], init_state None 7)
    ([Ret (RTOk demo_response, Some demo_measure)], init_state None 7).
Proof.
  apply rtc_once. apply (gstep_thread handle ticks
    [RoundTrip demo_int demo_media demo_type demo_transport demo_get (RTOk demo_response)] (init_state None 7) 0
    (RoundTrip demo_int demo_media demo_type demo_transport demo_get (RTOk demo_response))
    (Ret (RTOk demo_response, Some demo_measure)) (init_state None 7) eq_refl).
  apply list_elem_of_singleton. reflexivity.
Qed.

Lemma client_measured_once_witness :
  ∃ ts s, http_steps (demo_ccalls, init_state None 7) (ts, s) ∧ forallb returned ts = true
  ∧ recorded (Records clientDuration) (log s) = 1 ∧ recorded (Records clientResponseSize) (log s) = 1.
Proof.
  assert (Hr : (λ c, forallb returned c.1) <$> sched handle ([1; 1; 0; 1; 1]%nat ++ replicate 8 1%nat ++ [2%nat]) (demo_ccalls, init_state None 7) = Some true)
    by (vm_compute; reflexivity).
  destruct (sched_observes handle ticks _ _ _ _ Hr) as ([ts s] & Hs & Hret). exists ts, s. split_and!; [exact Hs|exact Hret|..].
  all: destruct (client_measured_once demo_int demo_media demo_type demo_transport demo_get (RTOk demo_response) None 7 _ _ _ ltac:(done) demo_trip
    demo_measure demo_cops ts s eq_refl ltac:(by repeat constructor) ltac:(done) Hs) as (_ & _ & Ht).
  - apply (Ht (Forall_impl _ _ _ (returned_all ts Hret) (λ p Hp, ex_intro _ tt Hp)) eq_refl OneDuration). reflexivity.
  - apply (Ht (Forall_impl _ _ _ (returned_all ts Hret) (λ p Hp, ex_intro _ tt Hp)) eq_refl OneResponseSize). reflexivity.
Defined.
