(* ===== verification/Report.v ===== *)
(** * Reports over structs (report.go, report_plan.go, report_metrics.go)

    The types reflection sees are [gotype]s, a struct type being a number that [decls]
    gives its fields; a value is a [gval] with pointers into a [heap], so that it can be
    cyclic.  A plan flattens a struct type into scopes once ([build]); a report walks a
    value along the paths of the plan.  The recorder is a parameter that passes its state.

    The theorems are in ReportCorrect.v. *)

From S2P Require Import Prelude GoLib Attribute Metric Client.

(** ** Types and values *)
Inductive gotype :=
| TBool | TInt (bits : Z) | TDuration | TUint (bits : Z) | TUintptr | TFloat (bits : Z) | TString
| TTime                       (* time.Time, a struct *)
| TStruct (id : nat)
| TPointer (t : gotype)
| TSlice (t : gotype) | TArray (t : gotype)
| TInterface
| TOther (id : nat).          (* channels, maps, functions, complex numbers *)

#[global] Instance gotype_eq_dec : EqDecision gotype.
Proof. solve_decision. Defined.

(** A field: its name and type, and what its struct tag answers for metric, tag and type. *)
Record field := mkField { f_name : gostring; f_type : gotype; f_metric : gostring; f_tag : gostring; f_kind : gostring }.

(** An array is the list of its elements, a slice nil or the address of one; a pointer is nil
    or an address; an interface is nil or holds a value with its type. *)
Inductive gval :=
| VBool (b : bool) | VInt (n : Z) | VUint (n : Z) | VFloat (x : float64) | VString (s : gostring)
| VStruct (fs : list gval)
| VPtr (a : option nat)
| VArray (vs : list gval)
| VSlice (a : option nat)
| VIface (o : option (gotype * gval))
| VOther.

(** A plan: where a struct sits, the tags in effect for it, and its value fields. *)
Record reportTag := mkTag { t_key : gostring; t_path : list nat }.
Record reportLeaf := mkLeaf { l_name : gostring; l_typ : MetricType; l_index : nat; l_kind : gotype }.
Record reportScope := mkScope { s_path : list nat; s_tags : list reportTag; s_leaves : list reportLeaf }.

(** The cache reportPlans: a plan or its error per type. *)
Notation plan_cache := (gmap nat (list reportScope + error)).

Section report.
Context `{Attributes}.
Context (decls : list (list field)).
(** What fmt prints for a type, a kind and a quoted string. *)
Context (type_string kind_string : gotype → gostring) (quote : gostring → gostring).

Definition fields_of (id : nat) : list field := default [] (decls !! id).

(** ** Plans (report_plan.go) *)

Definition unsupported (t : gotype) (f : field) (why : gostring) : error :=
  ErrWrapAfter (ErrIs ErrUnsupportedReportField) (type_string t ++ str "." ++ f_name f ++ str ": " ++ why).

Definition appendPath (path : list nat) (i : nat) : list nat := path ++ [i].

(** A tag replaces the one with its key, or is added. *)
Fixpoint put_tag (tags : list reportTag) (rt : reportTag) : list reportTag :=
  match tags with
  | [] => [rt]
  | x :: rest => if gostring_eqb (t_key x) (t_key rt) then rt :: rest else x :: put_tag rest rt
  end.

(** The loop of scopeTags from field [i] on. *)
Fixpoint scope_tags (id : nat) (path : list nat) (i : nat) (fs : list field) (tags : list reportTag) : list reportTag + error :=
  match fs with
  | [] => inl tags
  | f :: rest =>
      let key := f_tag f in
      if gostring_eqb key [] then scope_tags id path (S i) rest tags
      else if negb (bool_decide (f_type f = TString)) then inr (unsupported (TStruct id) f (str "tag field must be a string"))
      else if negb (gostring_eqb (f_metric f) []) then inr (unsupported (TStruct id) f (str "field has both metric and tag"))
      else scope_tags id path (S i) rest (put_tag tags (mkTag key (appendPath path i)))
  end.

Definition scopeTags (id : nat) (path : list nat) (inherited : list reportTag) : list reportTag + error :=
  scope_tags id path 0 (fields_of id) inherited.

Definition reportable (t : gotype) : bool :=
  match t with TBool | TInt _ | TDuration | TUint _ | TUintptr | TFloat _ => true | _ => false end.

Definition leaf_type (f : field) : option MetricType :=
  if gostring_eqb (f_kind f) [] || gostring_eqb (f_kind f) (str "histogram") then Some MetricTypeHistogram
  else if gostring_eqb (f_kind f) (str "counter") then Some MetricTypeCounter
  else if gostring_eqb (f_kind f) (str "gauge") then Some MetricTypeGauge
  else None.

(** [l_kind] carries the field's type, so that it tells a Duration from an int64. *)
Definition newLeaf (id : nat) (f : field) (name : gostring) (i : nat) : reportLeaf + error :=
  match leaf_type f with
  | None => inr (unsupported (TStruct id) f (str "unknown type " ++ quote (f_kind f)))
  | Some typ =>
      if reportable (f_type f) then inl (mkLeaf name typ i (f_type f))
      else inr (unsupported (TStruct id) f (str "kind " ++ kind_string (f_type f) ++ str " cannot be reported"))
  end.

Fixpoint elem_type (t : gotype) : gotype := match t with TPointer t' => elem_type t' | _ => t end.

Record nested := mkNested { n_t : nat; n_prefix : gostring; n_path : list nat }.

Inductive field_role := Skip | Child (id : nat) (name : gostring) | Leaf (name : gostring).

(** What build does with a field. *)
Definition role (prefix : gostring) (f : field) : field_role :=
  if negb (gostring_eqb (f_tag f) []) then Skip
  else if gostring_eqb (f_metric f) (str "-") then Skip
  else match elem_type (f_type f) with
       | TStruct id => Child id (joinName [prefix; f_metric f])
       | _ => if gostring_eqb (f_metric f) [] then Skip else Leaf (joinName [prefix; f_metric f])
       end.

(** The loop of build over the fields from [i] on. *)
Fixpoint scan (id : nat) (prefix : gostring) (path : list nat) (i : nat) (fs : list field) : (list reportLeaf * list nested) + error :=
  match fs with
  | [] => inl ([], [])
  | f :: rest =>
      match role prefix f with
      | Skip => scan id prefix path (S i) rest
      | Child c name =>
          match scan id prefix path (S i) rest with
          | inl (leaves, children) => inl (leaves, mkNested c name (appendPath path i) :: children)
          | inr e => inr e
          end
      | Leaf name =>
          match newLeaf id f name i with
          | inr e => inr e
          | inl leaf =>
              match scan id prefix path (S i) rest with
              | inl (leaves, children) => inl (leaf :: leaves, children)
              | inr e => inr e
              end
          end
      end
  end.

(** The loop of build over the nested structs. *)
Fixpoint build_each (build1 : nested → option (list reportScope + error)) (cs : list nested) (acc : list reportScope) : option (list reportScope + error) :=
  match cs with
  | [] => Some (inl acc)
  | c :: rest =>
      match build1 c with
      | None => None
      | Some (inr e) => Some (inr e)
      | Some (inl scopes) => build_each build1 rest (acc ++ scopes)
      end
  end.

(** [None] when the fuel runs out; [visiting] are the types on the way from the root. *)
Fixpoint build (fuel : nat) (id : nat) (prefix : gostring) (path : list nat) (inherited : list reportTag) (visiting : list nat) : option (list reportScope + error) :=
  match fuel with
  | O => None
  | S fuel' =>
      if bool_decide (id ∈ visiting)
      then Some (inr (ErrWrapAfter (ErrIs ErrUnsupportedReportField) (type_string (TStruct id) ++ str " contains itself")))
      else
        match scopeTags id path inherited with
        | inr e => Some (inr e)
        | inl tags =>
            match scan id prefix path 0 (fields_of id) with
            | inr e => Some (inr e)
            | inl (leaves, children) =>
                let own := if 0 <? len leaves then [mkScope path tags leaves] else [] in
                build_each (λ c, build fuel' (n_t c) (n_prefix c) (n_path c) tags (id :: visiting)) children own
            end
        end
  end.

Definition build_fuel : nat := S (S (length decls)).

(** The plan of a type; [build_total] shows the last case away. *)
Definition fresh_plan (id : nat) : list reportScope + error :=
  match build build_fuel id [] [] [] [] with Some r => r | None => inr (ErrText []) end.

Definition planFor (cache : plan_cache) (id : nat) : (list reportScope + error) * plan_cache :=
  match cache !! id with
  | Some res => (res, cache)
  | None => let res := fresh_plan id in (res, <[id := res]> cache)
  end.

(** ** Values (report_plan.go) *)
Context (heap : list gval).

(** The loop over pointers in walk: reflect.Value is a type with a value. *)
Fixpoint deref (t : gotype) (v : gval) : option (gotype * gval) :=
  match t with
  | TPointer t' =>
      match v with
      | VPtr (Some a) => match heap !! a with Some w => deref t' w | None => None end
      | _ => None
      end
  | _ => Some (t, v)
  end.

Definition field_value (t : gotype) (v : gval) (i : nat) : option (gotype * gval) :=
  match t, v with
  | TStruct id, VStruct fs => f ← fields_of id !! i; w ← fs !! i; Some (f_type f, w)
  | _, _ => None
  end.

(** [None] for a nil pointer on the way. *)
Fixpoint walk (t : gotype) (v : gval) (path : list nat) : option (gotype * gval) :=
  match path with
  | [] => Some (t, v)
  | i :: rest =>
      match field_value t v i with
      | Some (ft, w) => match deref ft w with Some (t', v') => walk t' v' rest | None => None end
      | None => None
      end
  end.

(** The elements of a slice or an array. *)
Definition elements (v : gval) : list gval :=
  match v with
  | VArray vs => vs
  | VSlice (Some a) => match heap !! a with Some (VArray vs) => vs | _ => [] end
  | _ => []
  end.

(** fv.String() of a string field *)
Definition string_of (v : gval) : gostring := match v with VString s => s | _ => [] end.

(** *** Recording (report.go) *)
Definition leaf_value (kind : gotype) (v : gval) : float64 :=
  match kind, v with
  | TBool, VBool b => if b then f_one else f_zero
  | TDuration, VInt n => Seconds n
  | TInt _, VInt n => f_of_Z n
  | (TUint _ | TUintptr), VUint n => f_of_Z n
  | _, VFloat x => x
  | _, _ => f_zero
  end.

(** attributes: the tags of the scope that have a value. *)
Definition attributes (s : reportScope) (t : gotype) (root : gval) : list KeyValue :=
  omap (λ rt, match walk t root (t_path rt) with
              | Some (_, v) => if gostring_eqb (string_of v) [] then None else Some (String_kv (t_key rt) (string_of v))
              | None => None
              end) (s_tags s).

(** A call of Counter, Gauge or Histogram of the recorder. *)
Record call := mkCall { k_typ : MetricType; k_name : gostring; k_value : float64; k_opts : list MetricOption }.

Section recorder.
Context {St : Type} (rec : call → St → option error * St).

Definition record_leaf (l : reportLeaf) (sv : gval) (opts : list MetricOption) (st : St) : option error * St :=
  let fv := match sv with VStruct fs => default VOther (fs !! l_index l) | _ => VOther end in
  rec (mkCall (l_typ l) (l_name l) (leaf_value (l_kind l) fv) opts) st.

Fixpoint record_leaves (ls : list reportLeaf) (sv : gval) (opts : list MetricOption) (st : St) : list (option error) * St :=
  match ls with
  | [] => ([], st)
  | l :: rest =>
      let '(err, st) := record_leaf l sv opts st in
      let '(errs, st) := record_leaves rest sv opts st in
      (err :: errs, st)
  end.

Fixpoint report_scopes (scopes : list reportScope) (t : gotype) (root : gval) (opts : list MetricOption) (st : St) : list (option error) * St :=
  match scopes with
  | [] => ([], st)
  | s :: rest =>
      match walk t root (s_path s) with
      | None => report_scopes rest t root opts st
      | Some (_, sv) =>
          let attrs := attributes s t root in
          let scopeOpts := if 0 <? len attrs then withKeyValues attrs :: opts else opts in
          let '(errs, st) := record_leaves (s_leaves s) sv scopeOpts st in
          let '(errs', st) := report_scopes rest t root opts st in
          (errs ++ errs', st)
      end
  end.

Definition plan_report (scopes : list reportScope) (t : gotype) (root : gval) (opts : list MetricOption) (st : St) : option error * St :=
  let '(errs, st) := report_scopes scopes t root opts st in (errors_join errs, st).

Definition maxReportDepth : nat := 32.

(** The loop that unwraps pointers and interfaces: [None] when the fuel runs out,
    [Some None] for a nil on the way. *)
Fixpoint unwrap (fuel : nat) (t : gotype) (v : gval) : option (option (gotype * gval)) :=
  match fuel with
  | O => None
  | S f =>
      match t, v with
      | TPointer t', VPtr (Some a) => match heap !! a with Some w => unwrap f t' w | None => Some None end
      | TPointer _, _ => Some None
      | TInterface, VIface (Some (t', w)) => unwrap f t' w
      | TInterface, _ => Some None
      | _, _ => Some (Some (t, v))
      end
  end.

(** The loop of reportValue over a slice or an array. *)
Fixpoint report_each (report1 : gval → plan_cache * St → option (option error * (plan_cache * St))) (vs : list gval) (errs : list (option error)) (st : plan_cache * St) : option (option error * (plan_cache * St)) :=
  match vs with
  | [] => Some (errors_join errs, st)
  | w :: rest =>
      match report1 w st with
      | None => None
      | Some (err, st') => report_each report1 rest (errs ++ [err]) st'
      end
  end.

(** [left] is maxReportDepth - depth + 1; [None] when the fuel of unwrap runs out. *)
Fixpoint reportValue (fuel left : nat) (t : gotype) (v : gval) (opts : list MetricOption) (st : plan_cache * St) : option (option error * (plan_cache * St)) :=
  match left with
  | O => Some (Some (ErrWrapAfter (ErrIs ErrUnsupportedReportField) (str "input nested deeper than 32 levels")), st)
  | S left' =>
      match unwrap fuel t v with
      | None => None
      | Some None => Some (None, st)
      | Some (Some (TStruct id, w)) =>
          let '(res, cache) := planFor st.1 id in
          match res with
          | inr err => Some (Some err, (cache, st.2))
          | inl scopes => let '(err, s) := plan_report scopes (TStruct id) w opts st.2 in Some (err, (cache, s))
          end
      | Some (Some (TSlice t', w)) => report_each (λ w st, reportValue fuel left' t' w opts st) (elements w) [] st
      | Some (Some (TArray t', w)) => report_each (λ w st, reportValue fuel left' t' w opts st) (elements w) [] st
      (* time.Time is a struct without a field that is reported *)
      | Some (Some (TTime, _)) => Some (None, st)
      | Some (Some (t', _)) => Some (Some (ErrWrapAfter (ErrIs ErrUnsupportedReportField) (str "cannot report a value of type " ++ type_string t')), st)
      end
  end.

(** [v] is nil or a value with its type; [nilrec] tells that the recorder is nil. *)
Definition Report (fuel : nat) (nilrec : bool) (v : option (gotype * gval)) (opts : list MetricOption) (st : plan_cache * St) : option (option error * (plan_cache * St)) :=
  if nilrec then Some (Some (ErrWrapAfter (ErrIs ErrInvalidConfig) (str "nil recorder")), st)
  else match v with
       | None => Some (None, st)
       | Some (t, v) => reportValue fuel (S maxReportDepth) t v opts st
       end.

Definition ReportAt (fuel : nat) (nilrec : bool) (time : Z) (v : option (gotype * gval)) (opts : list MetricOption) (st : plan_cache * St) : option (option error * (plan_cache * St)) :=
  Report fuel nilrec v (opts ++ [WithTimestamp time]) st.

End recorder.

(** ** Metrics without a recorder (report_metrics.go) *)
Definition collected (k : call) : Metric :=
  foldl (λ m opt, opt m) (mkMetric (k_name k) (k_typ k) (k_value k) [] 0 1 0 0 [] []) (k_opts k).

(** metricCollector.add *)
Definition add (k : call) (ms : list Metric) : option error * list Metric := (None, ms ++ [collected k]).

Definition MakeMetrics (fuel : nat) (v : option (gotype * gval)) (opts : list MetricOption) (cache : plan_cache) : option ((list Metric + error) * plan_cache) :=
  match v with
  | None => Some (inl [], cache)
  | Some (t, v) =>
      match reportValue add fuel (S maxReportDepth) t v opts (cache, []) with
      | None => None
      | Some (Some err, (cache, _)) => Some (inr err, cache)
      | Some (None, (cache, ms)) => Some (inl ms, cache)
      end
  end.

End report.
