(* ===== verification/ReportCorrect.v ===== *)
(** * What a report records

    [report_matches_reference]: reporting by a plan records what walking the value
    directly does, each struct's own tags in place of the inherited ones.
    [make_metrics_same]: MakeMetrics makes the metrics of the calls Report makes, each with
    the tags of its struct and what the options say.
    [plan_total]: building a plan ends.  [report_total]: so does a report of a value whose
    pointers go round no cycle, and [cyclic_report_diverges]: not of one that holds itself
    through a pointer. *)

From S2P Require Import Prelude GoLib Attribute Metric Client Report.

Section correct.
Context `{Attributes}.
Context (decls : list (list field)) (type_string kind_string : gotype → gostring) (quote : gostring → gostring).

#[local] Notation build := (build decls type_string kind_string quote).
#[local] Notation scan := (scan type_string kind_string quote).
#[local] Notation fields_of := (fields_of decls).
#[local] Notation scope_tags := (scope_tags type_string).

(** ** Building ends *)
Lemma scan_nil id prefix path i : scan id prefix path i [] = inl ([], []).
Proof. done. Qed.

Lemma build_each_total build1 cs acc :
  (∀ c, c ∈ cs → ∃ r, build1 c = Some r) → ∃ r, build_each build1 cs acc = Some r.
Proof.
  revert acc. induction cs as [|c cs IH]; intros acc Hc; simpl; [eauto|].
  destruct (Hc c ltac:(by left)) as [[scopes|e] ->]; [|eauto]. apply IH. intros c' Hc'. apply Hc. by right.
Qed.

Lemma build_enough fuel id prefix path inherited visiting :
  NoDup visiting → (∀ x, x ∈ visiting → (x < length decls)%nat) → (length decls + 2 ≤ fuel + length visiting)%nat →
  ∃ r, build fuel id prefix path inherited visiting = Some r.
Proof.
  revert id prefix path inherited visiting. induction fuel as [|fuel IH]; intros id prefix path inherited visiting Hnd Hlt Hf.
  - exfalso. assert (length visiting ≤ length decls)%nat; [|lia]. rewrite <-(length_seq (length decls) 0) at 1.
    apply submseteq_length, NoDup_submseteq; [done|]. intros x Hx. apply elem_of_seq. split; [lia|]. by apply Hlt.
  - cbn [Report.build]. case_bool_decide as Hv; [eauto|]. destruct (scopeTags _ _ _ _ _) as [tags|e]; [|eauto].
    destruct (decide (id < length decls)%nat) as [Hid|Hid].
    + destruct (scan id prefix path 0 (fields_of id)) as [[leaves children]|e]; [|eauto].
      apply build_each_total. intros c _. apply IH; [by constructor| |simpl; lia].
      intros x [->|Hx]%elem_of_cons; [done|by apply Hlt].
    + unfold Report.fields_of. rewrite lookup_ge_None_2 by lia. simpl. eauto.
Qed.

(** The plan of a type is always built: types that contain themselves are refused before the
    fuel, one more than the types declared, runs out. *)
Theorem plan_total id : ∃ r, build (build_fuel decls) id [] [] [] [] = Some r.
Proof. apply build_enough; [constructor|intros x Hx; by apply elem_of_nil in Hx|unfold build_fuel; simpl; lia]. Qed.

(** ** The reference: walking the value itself *)
Section reference.
Context (heap : list gval).

Definition env := list (gostring * gostring).

(** The tags in effect, by their values: a struct's own take the place of inherited ones. *)
Fixpoint put_env (e : env) (k v : gostring) : env :=
  match e with
  | [] => [(k, v)]
  | (k', v') :: rest => if gostring_eqb k' k then (k, v) :: rest else (k', v') :: put_env rest k v
  end.

Fixpoint own_env (fs : list field) (vs : list gval) (e : env) : env :=
  match fs, vs with
  | f :: fs', v :: vs' => own_env fs' vs' (if gostring_eqb (f_tag f) [] then e else put_env e (f_tag f) (string_of v))
  | _, _ => e
  end.

Definition env_attrs (e : env) : list KeyValue :=
  omap (λ kv, if gostring_eqb kv.2 [] then None else Some (String_kv kv.1 kv.2)) e.

Definition with_attributes (attrs : list KeyValue) (opts : list MetricOption) : list MetricOption :=
  if 0 <? len attrs then withKeyValues attrs :: opts else opts.

Fixpoint leaf_calls (prefix : gostring) (opts : list MetricOption) (fs : list field) (vs : list gval) : list call :=
  match fs, vs with
  | f :: fs', v :: vs' =>
      match role prefix f with
      | Leaf name => [mkCall (default MetricTypeHistogram (leaf_type f)) name (leaf_value (f_type f) v) opts]
      | _ => []
      end ++ leaf_calls prefix opts fs' vs'
  | _, _ => []
  end.

(** A nested struct, reached through its pointers, with [sub] for its own calls. *)
Fixpoint child_calls (prefix : gostring) (sub : nat → gostring → gval → list call) (fs : list field) (vs : list gval) : list call :=
  match fs, vs with
  | f :: fs', v :: vs' =>
      match role prefix f with
      | Child id name => match deref heap (f_type f) v with Some (_, w) => sub id name w | None => [] end
      | _ => []
      end ++ child_calls prefix sub fs' vs'
  | _, _ => []
  end.

(** The calls for a struct value: its own fields, then the nested structs in their order. *)
Fixpoint direct (fuel : nat) (id : nat) (prefix : gostring) (e : env) (opts : list MetricOption) (v : gval) : list call :=
  match fuel, v with
  | S fuel', VStruct vs =>
      let e := own_env (fields_of id) vs e in
      leaf_calls prefix (with_attributes (env_attrs e) opts) (fields_of id) vs
      ++ child_calls prefix (λ id name w, direct fuel' id name e opts w) (fields_of id) vs
  | _, _ => []
  end.

(** Values of their types. *)
Inductive has_type : gotype → gval → Prop :=
| ht_bool b : has_type TBool (VBool b)
| ht_int k n : has_type (TInt k) (VInt n)
| ht_duration n : has_type TDuration (VInt n)
| ht_uint k n : has_type (TUint k) (VUint n)
| ht_uintptr n : has_type TUintptr (VUint n)
| ht_float k x : has_type (TFloat k) (VFloat x)
| ht_string s : has_type TString (VString s)
| ht_time v : has_type TTime v
| ht_struct id vs : Forall2 (λ f v, has_type (f_type f) v) (fields_of id) vs → has_type (TStruct id) (VStruct vs)
| ht_nil t : has_type (TPointer t) (VPtr None)
| ht_ptr t a w : heap !! a = Some w → has_type t w → has_type (TPointer t) (VPtr (Some a))
| ht_slice t a : has_type (TSlice t) (VSlice a)
| ht_array t vs : has_type (TArray t) (VArray vs)
| ht_interface o : has_type TInterface (VIface o)
| ht_other id v : has_type (TOther id) v.

(** ** The calls of a plan *)
Definition leaf_call (sv : gval) (opts : list MetricOption) (l : reportLeaf) : call :=
  mkCall (l_typ l) (l_name l) (leaf_value (l_kind l) (match sv with VStruct fs => default VOther (fs !! l_index l) | _ => VOther end)) opts.

Definition scope_calls (t : gotype) (root : gval) (opts : list MetricOption) (s : reportScope) : list call :=
  match walk decls heap t root (s_path s) with
  | None => []
  | Some (_, sv) => leaf_call sv (with_attributes (attributes decls heap s t root) opts) <$> s_leaves s
  end.

Definition plan_calls (t : gotype) (root : gval) (opts : list MetricOption) (scopes : list reportScope) : list call :=
  flat_map (scope_calls t root opts) scopes.

Lemma walk_app t v p q :
  walk decls heap t v (p ++ q) = match walk decls heap t v p with Some (t', v') => walk decls heap t' v' q | None => None end.
Proof.
  revert t v. induction p as [|i p IH]; intros t v; simpl; [done|].
  destruct (field_value decls t v i) as [[ft w]|]; [|done]. destruct (deref heap ft w) as [[t' v']|]; [apply IH|done].
Qed.

Lemma deref_type t v t' w : has_type t v → deref heap t v = Some (t', w) → t' = elem_type t ∧ has_type t' w.
Proof.
  revert v. induction t; intros v Hv Hd; simpl in Hd; try (by simplify_eq; split).
  inversion Hv; subst; [done|]. match goal with Hh : heap !! _ = Some _ |- _ => rewrite Hh in Hd end. eauto.
Qed.

(** Scopes of a struct that a nil pointer hides. *)
Definition below (path : list nat) (scopes : list reportScope) : Prop := Forall (λ s, ∃ q, s_path s = path ++ q) scopes.

Lemma scan_paths id prefix path i fs ls cs :
  scan id prefix path i fs = inl (ls, cs) → Forall (λ c, ∃ j, n_path c = path ++ [j]) cs.
Proof.
  revert i ls cs. induction fs as [|f fs IH]; intros i ls cs Hs; simpl in Hs; [by simplify_eq; constructor|].
  destruct (role prefix f) as [|c name|name]; [by eapply IH| |].
  - destruct (scan id prefix path (S i) fs) as [[ls' cs']|] eqn:E; [|done]. simplify_eq. constructor; [by exists i|by eapply IH].
  - destruct (newLeaf _ _ _ _ _ _) as [leaf|]; [|done].
    destruct (scan id prefix path (S i) fs) as [[ls' cs']|] eqn:E; [|done]. simplify_eq. by eapply IH.
Qed.

Lemma build_each_inl build1 cs acc scopes :
  build_each build1 cs acc = Some (inl scopes) →
  ∃ ss, Forall2 (λ c sc, build1 c = Some (inl sc)) cs ss ∧ scopes = acc ++ concat ss.
Proof.
  revert acc. induction cs as [|c cs IH]; intros acc Hb; simpl in Hb.
  - exists []. simplify_eq. split; [constructor|by rewrite app_nil_r].
  - destruct (build1 c) as [[sc|e]|] eqn:E; try done. destruct (IH _ Hb) as (ss & Hss & ->).
    exists (sc :: ss). split; [by constructor|]. simpl. by rewrite app_assoc.
Qed.

Lemma build_below fuel id prefix path inherited visiting scopes :
  build fuel id prefix path inherited visiting = Some (inl scopes) → below path scopes.
Proof.
  revert id prefix path inherited visiting scopes. induction fuel as [|fuel IH]; intros id prefix path inherited visiting scopes Hb; [done|].
  cbn [Report.build] in Hb. case_bool_decide; [done|]. destruct (scopeTags _ _ _ _ _) as [tags|]; [|done].
  destruct (scan id prefix path 0 (fields_of id)) as [[ls cs]|] eqn:Hs; [|done].
  apply build_each_inl in Hb as (ss & Hss & ->). apply Forall_app_2.
  { case_match; repeat constructor. exists []. simpl. by rewrite app_nil_r. }
  apply scan_paths in Hs. clear -Hss Hs IH. induction Hss as [|c sc cs ss Hc _ IHss]; [constructor|].
  inversion Hs as [|? ? [j Hj] Hs']; subst. simpl. apply Forall_app_2; [|by apply IHss].
  apply IH in Hc. eapply Forall_impl; [exact Hc|]. intros s [q Hq]. exists (j :: q). by rewrite Hq, Hj, <-app_assoc.
Qed.

Lemma hidden_calls t root opts path scopes :
  below path scopes → walk decls heap t root path = None → plan_calls t root opts scopes = [].
Proof.
  intros Hb Hw. induction Hb as [|s scopes [q Hq] _ IH]; [done|]. simpl. unfold scope_calls at 1. by rewrite Hq, walk_app, Hw.
Qed.

(** *** A plan makes the calls of the reference *)
Section root.
Context (rt : gotype) (root : gval) (opts : list MetricOption).
#[local] Notation at_ := (walk decls heap rt root).

Definition tags_match (tags : list reportTag) (e : env) : Prop :=
  Forall2 (λ tg kv, t_key tg = kv.1 ∧ ∃ t v, at_ (t_path tg) = Some (t, v) ∧ string_of v = kv.2) tags e.

Lemma put_tag_match tags e tg t v :
  tags_match tags e → at_ (t_path tg) = Some (t, v) → tags_match (put_tag tags tg) (put_env e (t_key tg) (string_of v)).
Proof.
  intros Ht Hw. induction Ht as [|x [k s] tags e [Hk Hx] Hm IH]; simpl.
  - repeat constructor. simpl. eauto.
  - simpl in Hk. rewrite Hk. destruct (gostring_eqb k (t_key tg)); constructor; simpl; eauto.
Qed.

Lemma attributes_match s e : tags_match (s_tags s) e → attributes decls heap s rt root = env_attrs e.
Proof.
  unfold attributes, env_attrs. intros Ht. induction Ht as [|x [k s'] tags e [Hk (t & v & Hw & Hs)] _ IH]; [done|].
  csimpl in *. rewrite Hw, Hs, Hk, IH. done.
Qed.

(** The fields [fs] of a struct from [i] on, with their values. *)
Record split_at (id i : nat) (vs : list gval) (fs : list field) (ws : list gval) : Prop := {
  sp_fields : ∀ j, fs !! j = fields_of id !! (i + j)%nat;
  sp_values : ∀ j, ws !! j = vs !! (i + j)%nat;
  sp_typed : Forall2 (λ f v, has_type (f_type f) v) fs ws }.

Lemma split_next id i vs f fs w ws : split_at id i vs (f :: fs) (w :: ws) → split_at id (S i) vs fs ws.
Proof.
  intros [H1 H2 H3]. inversion H3; subst. split; [| |done]; intros j.
  - specialize (H1 (S j)). simpl in H1. rewrite H1. f_equal. lia.
  - specialize (H2 (S j)). simpl in H2. rewrite H2. f_equal. lia.
Qed.

Lemma split_head id i vs f fs w ws :
  split_at id i vs (f :: fs) (w :: ws) →
  field_value decls (TStruct id) (VStruct vs) i = Some (f_type f, w) ∧ has_type (f_type f) w ∧ vs !! i = Some w.
Proof.
  intros [H1 H2 H3]. inversion H3; subst. specialize (H1 0%nat). specialize (H2 0%nat). rewrite Nat.add_0_r in H1, H2. simpl in H1, H2.
  simpl. by rewrite <-H1, <-H2.
Qed.

Lemma split_length id i vs f fs ws : split_at id i vs (f :: fs) ws → ∃ w ws', ws = w :: ws'.
Proof. intros [_ _ H3]. inversion H3; subst. eauto. Qed.

Lemma walk_field id vs path i ft w :
  at_ path = Some (TStruct id, VStruct vs) → field_value decls (TStruct id) (VStruct vs) i = Some (ft, w) →
  at_ (path ++ [i]) = deref heap ft w.
Proof.
  intros Hp Hf. rewrite walk_app, Hp. cbn [walk]. rewrite Hf. by destruct (deref heap ft w) as [[]|].
Qed.

Lemma scope_tags_match id path vs i fs ws tags tags' e :
  at_ path = Some (TStruct id, VStruct vs) → split_at id i vs fs ws → tags_match tags e →
  scope_tags id path i fs tags = inl tags' → tags_match tags' (own_env fs ws e).
Proof.
  intros Hp. revert i ws tags e. induction fs as [|f fs IH]; intros i ws tags e Hsp Hm Hs; [by simplify_eq/=|].
  destruct (split_length _ _ _ _ _ _ Hsp) as (w & ws' & ->). destruct (split_head _ _ _ _ _ _ _ Hsp) as (Hf & Ht & _).
  pose proof (split_next _ _ _ _ _ _ _ Hsp) as Hsp'. cbn [Report.scope_tags own_env] in *.
  destruct (gostring_eqb (f_tag f) []); [by eapply IH|]. case_bool_decide as Hstr; [|done]. simpl in Hs.
  destruct (gostring_eqb (f_metric f) []); [|done]. simpl in Hs. eapply IH; [done| |exact Hs].
  change (f_tag f) with (t_key (mkTag (f_tag f) (appendPath path i))).
  eapply put_tag_match; [done|]. simpl. unfold appendPath. rewrite (walk_field _ _ _ _ _ _ Hp Hf), Hstr. done.
Qed.

Lemma scan_leaf_calls id prefix path vs i fs ws ls cs o :
  split_at id i vs fs ws → scan id prefix path i fs = inl (ls, cs) → leaf_call (VStruct vs) o <$> ls = leaf_calls prefix o fs ws.
Proof.
  revert i ws ls cs. induction fs as [|f fs IH]; intros i ws ls cs Hsp Hs; [by simplify_eq/=|].
  destruct (split_length _ _ _ _ _ _ Hsp) as (w & ws' & ->). destruct (split_head _ _ _ _ _ _ _ Hsp) as (_ & _ & Hv).
  pose proof (split_next _ _ _ _ _ _ _ Hsp) as Hsp'. cbn [Report.scan leaf_calls] in *.
  destruct (role prefix f) as [|c name|name]; [by eapply IH| |].
  - destruct (scan id prefix path (S i) fs) as [[ls' cs']|] eqn:E; [|done]. simplify_eq. by eapply IH.
  - unfold newLeaf in Hs. destruct (leaf_type f) as [typ|]; [|done]. destruct (reportable (f_type f)); [|done].
    destruct (scan id prefix path (S i) fs) as [[ls' cs']|] eqn:E; [|done]. simplify_eq. csimpl. rewrite (IH _ _ _ _ Hsp' E).
    unfold leaf_call. simpl. by rewrite Hv.
Qed.

Lemma role_child prefix f c name : role prefix f = Child c name → elem_type (f_type f) = TStruct c.
Proof. unfold role. repeat case_match; try done; intros [= -> _]; done. Qed.

Lemma scan_child_calls id prefix path vs i fs ws ls cs ss (build1 : nested → option (list reportScope + error)) sub :
  at_ path = Some (TStruct id, VStruct vs) → split_at id i vs fs ws → scan id prefix path i fs = inl (ls, cs) →
  Forall2 (λ c sc, build1 c = Some (inl sc)) cs ss →
  (∀ c sc, build1 c = Some (inl sc) → below (n_path c) sc) →
  (∀ c sc w, build1 c = Some (inl sc) → at_ (n_path c) = Some (TStruct (n_t c), w) → has_type (TStruct (n_t c)) w →
     plan_calls rt root opts sc = sub (n_t c) (n_prefix c) w) →
  plan_calls rt root opts (concat ss) = child_calls prefix sub fs ws.
Proof.
  intros Hp. revert i ws ls cs ss. induction fs as [|f fs IH]; intros i ws ls cs ss Hsp Hs Hss Hbelow Hsub.
  { simplify_eq/=. by inversion Hss. }
  destruct (split_length _ _ _ _ _ _ Hsp) as (w & ws' & ->). destruct (split_head _ _ _ _ _ _ _ Hsp) as (Hf & Ht & _).
  pose proof (split_next _ _ _ _ _ _ _ Hsp) as Hsp'. cbn [Report.scan child_calls] in *.
  destruct (role prefix f) as [|c name|name] eqn:Hr; [by eapply IH| |].
  - destruct (scan id prefix path (S i) fs) as [[ls' cs']|] eqn:E; [|done]. simplify_eq.
    inversion Hss as [|? sc ? ss' Hsc Hss']; subst. cbn [concat]. unfold plan_calls. rewrite flat_map_app.
    fold (plan_calls rt root opts sc) (plan_calls rt root opts (concat ss')).
    rewrite (IH _ _ _ _ _ Hsp' E Hss' Hbelow Hsub). f_equal. pose proof (walk_field _ _ _ _ _ _ Hp Hf) as Hw.
    destruct (deref heap (f_type f) w) as [[t' w']|] eqn:Hd.
    + destruct (deref_type _ _ _ _ Ht Hd) as [-> Ht']. rewrite (role_child _ _ _ _ Hr) in *. by apply (Hsub _ sc w' Hsc).
    + eapply hidden_calls; [by apply (Hbelow _ sc Hsc)|]. done.
  - destruct (newLeaf _ _ _ _ _ _) as [leaf|]; [|done].
    destruct (scan id prefix path (S i) fs) as [[ls' cs']|] eqn:E; [|done]. simplify_eq. by eapply IH.
Qed.

Lemma build_calls fuel id prefix path inherited visiting scopes v e :
  build fuel id prefix path inherited visiting = Some (inl scopes) →
  at_ path = Some (TStruct id, v) → has_type (TStruct id) v → tags_match inherited e →
  plan_calls rt root opts scopes = direct fuel id prefix e opts v.
Proof.
  revert id prefix path inherited visiting scopes v e. induction fuel as [|fuel IH]; intros id prefix path inherited visiting scopes v e Hb Hp Ht Hm; [done|].
  cbn [Report.build] in Hb. case_bool_decide; [done|]. destruct (scopeTags decls type_string id path inherited) as [tags|] eqn:Htags; [|done].
  destruct (scan id prefix path 0 (fields_of id)) as [[ls cs]|] eqn:Hs; [|done].
  apply build_each_inl in Hb as (ss & Hss & ->). inversion Ht as [| | | | | | | |? vs Hvs| | | | | |]; subst. cbn [direct].
  assert (Hsp : split_at id 0 vs (fields_of id) vs) by (split; [done|done|exact Hvs]).
  pose proof (scope_tags_match _ _ _ _ _ _ _ _ _ Hp Hsp Hm Htags) as Hm'.
  unfold plan_calls. rewrite flat_map_app. f_equal.
  - rewrite <-(scan_leaf_calls _ _ _ _ _ _ _ _ _ _ Hsp Hs). destruct ls as [|l ls]; [done|].
    replace (0 <? len (l :: ls)) with true by (symmetry; apply Z.ltb_lt; unfold len; simpl; lia). cbn [flat_map]. rewrite app_nil_r.
    unfold scope_calls. cbn [s_path s_leaves]. rewrite Hp. by rewrite (attributes_match (mkScope path tags (l :: ls)) _ Hm').
  - eapply scan_child_calls; [done|done|done|exact Hss| |].
    + intros c sc Hc. cbv beta in Hc. by eapply build_below.
    + intros c sc w Hc Hw Htw. cbv beta in Hc. by eapply IH.
Qed.

End root.

(** ** Recording the calls *)
Fixpoint run_calls {St} (rec : call → St → option error * St) (ks : list call) (st : St) : list (option error) * St :=
  match ks with
  | [] => ([], st)
  | k :: rest => let '(err, st) := rec k st in let '(errs, st) := run_calls rec rest st in (err :: errs, st)
  end.

Lemma run_calls_app {St} (rec : call → St → option error * St) ks ks' st :
  run_calls rec (ks ++ ks') st =
  ((run_calls rec ks st).1 ++ (run_calls rec ks' (run_calls rec ks st).2).1, (run_calls rec ks' (run_calls rec ks st).2).2).
Proof.
  revert st. induction ks as [|k ks IH]; intros st; simpl; [by destruct (run_calls rec ks' st)|].
  destruct (rec k st) as [err st1]. rewrite IH. destruct (run_calls rec ks st1) as [errs st2]. simpl. by destruct (run_calls rec ks' st2).
Qed.

Lemma record_leaves_calls {St} (rec : call → St → option error * St) ls sv o st :
  record_leaves rec ls sv o st = run_calls rec (leaf_call sv o <$> ls) st.
Proof.
  revert st. induction ls as [|l ls IH]; intros st; [done|]. cbn [record_leaves fmap list_fmap run_calls]. unfold record_leaf.
  destruct (rec _ st) as [err st1]. by rewrite IH.
Qed.

Lemma report_scopes_calls {St} (rec : call → St → option error * St) scopes t root opts st :
  report_scopes decls heap rec scopes t root opts st = run_calls rec (plan_calls t root opts scopes) st.
Proof.
  revert st. induction scopes as [|s scopes IH]; intros st; [done|]. cbn [report_scopes].
  change (plan_calls t root opts (s :: scopes)) with (scope_calls t root opts s ++ plan_calls t root opts scopes).
  rewrite run_calls_app. unfold scope_calls. destruct (walk decls heap t root (s_path s)) as [[t' sv]|]; cbn [run_calls fst snd app].
  - fold (with_attributes (attributes decls heap s t root) opts). rewrite record_leaves_calls.
    destruct (run_calls rec _ st) as [errs st1]. simpl. rewrite IH. by destruct (run_calls rec _ st1).
  - rewrite IH. by destruct (run_calls rec _ st).
Qed.

(** C35. Reporting a struct by its plan records exactly what walking the value does: for a
    value of its type, the calls the recorder gets, and their order, are those of the
    reference, which goes through the struct's fields, then into each nested struct that
    no nil pointer hides, with the tags of the enclosing structs except where the struct
    has its own (an empty one removes the tag); the error joins those of the calls. *)
Theorem report_matches_reference {St} (rec : call → St → option error * St) id scopes v opts st :
  has_type (TStruct id) v → fresh_plan decls type_string kind_string quote id = inl scopes →
  plan_report decls heap rec scopes (TStruct id) v opts st =
  (let '(errs, st') := run_calls rec (direct (build_fuel decls) id [] [] opts v) st in (errors_join errs, st')).
Proof.
  intros Ht Hp. unfold fresh_plan in Hp. destruct (build (build_fuel decls) id [] [] [] []) as [r|] eqn:Hb; [|done]. subst r.
  unfold plan_report. rewrite report_scopes_calls.
  rewrite (build_calls (TStruct id) v opts (build_fuel decls) id [] [] [] [] scopes v [] Hb); [done|done|done|constructor].
Qed.

(** ** Report and MakeMetrics *)
#[local] Notation planFor := (planFor decls type_string kind_string quote).
#[local] Notation reportValue := (reportValue decls type_string kind_string quote heap).

Definition all_none (errs : list (option error)) : Prop := Forall (λ e, e = None) errs.

(** A call whose options are those of the report, after the tags of its struct. *)
Definition tagged (opts : list MetricOption) (k : call) : Prop := ∃ tags, k_opts k = with_attributes tags opts.

Lemma plan_calls_tagged t root opts scopes : Forall (tagged opts) (plan_calls t root opts scopes).
Proof.
  apply Forall_forall. intros k (sc & _ & Hk)%list_elem_of_In%in_flat_map. unfold scope_calls in Hk.
  destruct (walk decls heap t root (s_path sc)) as [[t' sv]|]; [|done].
  apply list_elem_of_In, list_elem_of_fmap in Hk as (l & -> & _). by exists (attributes decls heap sc t root).
Qed.

(** Whatever the recorder, the value makes the same calls, or the loop of unwrap does not
    end; [bad] tells that the report fails by itself. *)
Definition traced (opts : list MetricOption) (report1 : ∀ St, (call → St → option error * St) → plan_cache * St → option (option error * (plan_cache * St))) (cache : plan_cache) : Prop :=
  (∀ St rec st, report1 St rec (cache, st) = None) ∨
  ∃ ks cache' (bad : bool), Forall (tagged opts) ks ∧ ∀ St rec st, ∃ err,
    report1 St rec (cache, st) = Some (err, (cache', (run_calls rec ks st).2))
    ∧ (err = None ↔ bad = false ∧ all_none (run_calls rec ks st).1).

Lemma traced_each opts (report1 : ∀ St, (call → St → option error * St) → gval → plan_cache * St → option (option error * (plan_cache * St))) vs cache :
  (∀ w cache, traced opts (λ St rec st, report1 St rec w st) cache) →
  (∀ St rec st errs, report_each (report1 St rec) vs errs (cache, st) = None) ∨
  ∃ ks cache' (bad : bool), Forall (tagged opts) ks ∧ ∀ St rec st errs, ∃ err,
    report_each (report1 St rec) vs errs (cache, st) = Some (err, (cache', (run_calls rec ks st).2))
    ∧ (err = None ↔ all_none errs ∧ bad = false ∧ all_none (run_calls rec ks st).1).
Proof.
  intros Hw. revert cache. induction vs as [|w vs IH]; intros cache.
  { right. exists [], cache, false. split; [constructor|]. intros St rec st errs. exists (errors_join errs). split; [done|].
    rewrite errors_join_none. unfold all_none. simpl. split; [intros ?; split_and!; [done|done|constructor]|by intros [? _]]. }
  destruct (Hw w cache) as [Hn|(ks & cache1 & bad & Hks & Ht)].
  { left. intros St rec st errs. cbn [report_each]. by rewrite Hn. }
  destruct (IH cache1) as [Hn|(ks2 & cache2 & bad2 & Hks2 & Ht2)].
  { left. intros St rec st errs. cbn [report_each]. destruct (Ht St rec st) as (err & -> & _). apply Hn. }
  right. exists (ks ++ ks2), cache2, (bad || bad2). split; [by apply Forall_app|]. intros St rec st errs. cbn [report_each].
  destruct (Ht St rec st) as (err & -> & Herr). destruct (Ht2 St rec (run_calls rec ks st).2 (errs ++ [err])) as (err2 & -> & Herr2).
  exists err2. rewrite run_calls_app. simpl. split; [done|]. rewrite Herr2. unfold all_none in *. rewrite !Forall_app, Forall_singleton, Herr, orb_false_iff. tauto.
Qed.

Lemma traced_value fuel left_ t v opts cache :
  traced opts (λ St rec st, reportValue rec fuel left_ t v opts st) cache.
Proof.
  revert t v cache. induction left_ as [|left_ IH]; intros t v cache.
  { right. exists [], cache, true. split; [constructor|]. intros St rec st. eexists. split; [done|]. split; [done|by intros [? _]]. }
  assert (Hfail : ∀ e, traced opts (λ St rec st, Some (Some e, st)) cache).
  { intros e. right. exists [], cache, true. split; [constructor|]. intros St rec st. eexists. split; [done|]. split; [done|by intros [? _]]. }
  assert (Hnone : traced opts (λ St (rec : call → St → option error * St) st, Some (None, st)) cache).
  { right. exists [], cache, false. split; [constructor|]. intros St rec st. exists None. split; [done|]. split; [|done]. intros _. split; [done|constructor]. }
  assert (Heach : ∀ t' w, traced opts (λ St rec st, report_each (λ w st, reportValue rec fuel left_ t' w opts st) (elements heap w) [] st) cache).
  { intros t' w. destruct (traced_each opts (λ St rec w st, reportValue rec fuel left_ t' w opts st) (elements heap w) cache (λ w cache, IH t' w cache)) as [Hn|(ks & c' & bad & Hks & Ht)].
    - left. intros St rec st. apply Hn.
    - right. exists ks, c', bad. split; [done|]. intros St rec st. destruct (Ht St rec st []) as (err & He & Hi). exists err. split; [exact He|]. rewrite Hi.
      unfold all_none. rewrite Forall_nil. tauto. }
  unfold traced. cbn [Report.reportValue]. destruct (unwrap heap fuel t v) as [[[t' w]|]|]; [|exact Hnone|by left].
  destruct t'; try apply Hfail; try exact Hnone; try (by apply Heach).
  cbn [fst snd]. destruct (planFor cache id) as [[scopes|e] cache1].
  - right. exists (plan_calls (TStruct id) w opts scopes), cache1, false. split; [apply plan_calls_tagged|]. intros St rec st.
    unfold plan_report. rewrite report_scopes_calls. destruct (run_calls rec _ st) as [errs st'].
    exists (errors_join errs). split; [done|]. rewrite errors_join_none. unfold all_none. simpl. tauto.
  - right. exists [], cache1, true. split; [constructor|]. intros St rec st. exists (Some e). split; [done|]. split; [done|by intros [? _]].
Qed.

Lemma collected_calls ks ms : run_calls add ks ms = (replicate (length ks) None, ms ++ (collected <$> ks)).
Proof.
  revert ms. induction ks as [|k ks IH]; intros ms; simpl; [by rewrite app_nil_r|]. rewrite IH. simpl. by rewrite <-app_assoc.
Qed.

#[local] Notation Report := (Report decls type_string kind_string quote heap).
#[local] Notation MakeMetrics := (MakeMetrics decls type_string kind_string quote heap).

(** The options of the package, as what they set. *)
Inductive setting :=
| SetAttribute (key val : gostring)
| SetAttributes (kvs : list (gostring * gostring))
| SetPriority (p : Z)
| SetTimestamp (ts : Z)
| SetDescription (d : gostring)
| SetUnit (u : gostring).

Definition option_of (s : setting) : MetricOption :=
  match s with
  | SetAttribute k v => WithAttribute k v
  | SetAttributes kvs => WithAttributes kvs
  | SetPriority p => WithPriority p
  | SetTimestamp ts => WithTimestamp ts
  | SetDescription d => WithDescription d
  | SetUnit u => WithUnit u
  end.

Definition attrs_set (s : setting) : list KeyValue :=
  match s with SetAttribute k v => [String_kv k v] | SetAttributes kvs => (λ kv, String_kv kv.1 kv.2) <$> kvs | _ => [] end.
Definition priority_set (s : setting) : option Z := match s with SetPriority p => Some p | _ => None end.
Definition timestamp_set (s : setting) : option Z := match s with SetTimestamp ts => Some ts | _ => None end.
Definition description_set (s : setting) : option gostring := match s with SetDescription d => Some d | _ => None end.
Definition unit_set (s : setting) : option gostring := match s with SetUnit u => Some u | _ => None end.

(** The last setting of a field counts. *)
Definition last_set {A} (f : setting → option A) (settings : list setting) (unset : A) : A :=
  foldl (λ old s, default old (f s)) unset settings.

(** The metric of a call with tags [tags], field by field. *)
Record made (k : call) (tags : list KeyValue) (settings : list setting) (m : Metric) : Prop := {
  made_name : Name m = k_name k;
  made_type : Type_ m = k_typ k;
  made_value : Value m = k_value k;
  made_attrs : Attributes_ m = tags ++ (settings ≫= attrs_set);
  made_timestamp : Timestamp m = last_set timestamp_set settings 0;
  made_priority : Priority m = last_set priority_set settings 1;
  made_exemplar : TraceID m = 0 ∧ SpanID m = 0;
  made_description : Description m = last_set description_set settings [];
  made_unit : Unit m = last_set unit_set settings [] }.

Lemma last_set_cons {A} (f : setting → option A) s settings (unset : A) :
  last_set f (s :: settings) unset = last_set f settings (default unset (f s)).
Proof. done. Qed.

Lemma attributes_set kvs m :
  foldl (λ m kv, with_attrs (Attributes_ m ++ [String_kv kv.1 kv.2]) m) m kvs
  = with_attrs (Attributes_ m ++ ((λ kv, String_kv kv.1 kv.2) <$> kvs)) m.
Proof.
  revert m. induction kvs as [|[k v] kvs IH]; intros m; [destruct m; unfold with_attrs; simpl; by rewrite app_nil_r|].
  cbn [foldl]. rewrite IH. unfold with_attrs. simpl. by rewrite <-app_assoc.
Qed.

(** Applying the options field by field. *)
Lemma applied_fields settings m :
  foldl (λ m opt, opt m) m (option_of <$> settings) =
  mkMetric (Name m) (Type_ m) (Value m) (Attributes_ m ++ (settings ≫= attrs_set)) (last_set timestamp_set settings (Timestamp m))
    (last_set priority_set settings (Priority m)) (TraceID m) (SpanID m) (last_set description_set settings (Description m))
    (last_set unit_set settings (Unit m)).
Proof.
  revert m. induction settings as [|s settings IH]; intros m; [destruct m; simpl; by rewrite app_nil_r|].
  cbn [fmap list_fmap foldl]. change (list_fmap _ _ option_of settings) with (option_of <$> settings). rewrite IH, !last_set_cons, bind_cons.
  destruct s; simpl; rewrite <-?app_assoc; try done. unfold WithAttributes. rewrite attributes_set. simpl. by rewrite <-app_assoc.
Qed.

Lemma collected_made settings k tags :
  k_opts k = with_attributes tags (option_of <$> settings) → made k tags settings (collected k).
Proof.
  intros Hk. unfold collected. rewrite Hk. unfold with_attributes. destruct tags as [|kv tags].
  - simpl. rewrite applied_fields. by split.
  - assert ((0 <? len (kv :: tags)) = true) as -> by (apply Z.ltb_lt; unfold len; simpl; lia). cbn [foldl]. rewrite applied_fields. by split.
Qed.

(** C36. MakeMetrics makes the metrics Report records: when it succeeds its metrics are those
    of a list of calls, in order, each metric with the name, type and value of its call, the
    tags of its struct followed by the attributes of the options, the last timestamp,
    priority, description and unit an option sets and no exemplar; and Report with any
    recorder makes exactly these calls, leaves the same cache, and fails only when a call
    fails; when MakeMetrics fails, so does Report. *)
Theorem make_metrics_same fuel v settings cache res cache' :
  MakeMetrics fuel v (option_of <$> settings) cache = Some (res, cache') →
  ∃ ks, (∀ ms, res = inl ms →
           Forall2 (λ k m, ∃ tags, k_opts k = with_attributes tags (option_of <$> settings) ∧ made k tags settings m) ks ms) ∧
  ∀ St (rec : call → St → option error * St) st, ∃ err,
    Report rec fuel false v (option_of <$> settings) (cache, st) = Some (err, (cache', (run_calls rec ks st).2))
    ∧ (err = None ↔ (∃ ms, res = inl ms) ∧ all_none (run_calls rec ks st).1).
Proof.
  intros Hm. destruct v as [[t v]|]; cbn [Report.MakeMetrics] in Hm.
  2: { simplify_eq. exists []. split; [by intros ms [= <-]|]. intros St rec st. exists None. split; [done|]. split; [|done]. intros _. split; [eauto|constructor]. }
  destruct (traced_value fuel (S maxReportDepth) t v (option_of <$> settings) cache) as [Hn|(ks & c' & bad & Hks & Ht)]; [by rewrite Hn in Hm|].
  destruct (Ht _ add []) as (err0 & He0 & Hi0). rewrite He0, collected_calls in Hm. rewrite collected_calls in Hi0. cbn [fst snd] in *.
  assert (Hall : all_none (replicate (length ks) None)) by (apply Forall_replicate; done).
  exists ks. destruct err0 as [e|]; simplify_eq.
  - split; [done|]. intros St rec st. destruct (Ht St rec st) as (err & He & Hi). exists err. split; [exact He|].
    rewrite Hi. destruct bad; [|by pose proof (proj2 Hi0 (conj eq_refl Hall))]. split; [by intros [? _]|by intros [[? ?] _]].
  - split.
    + intros ms [= <-]. cbn [app]. apply Forall2_fmap_r, Forall_Forall2_diag. eapply Forall_impl; [exact Hks|].
      intros k [tags Hk]. exists tags. split; [done|by apply collected_made].
    + intros St rec st. destruct (Ht St rec st) as (err & He & Hi). exists err. split; [exact He|].
      rewrite Hi. destruct (proj1 Hi0 eq_refl) as [-> _]. split; [intros [_ ?]; eauto|by intros [_ ?]].
Qed.

(** ** The cache of plans *)
Definition cache_ok (cache : plan_cache) : Prop := ∀ id r, cache !! id = Some r → r = fresh_plan decls type_string kind_string quote id.

Lemma planFor_fresh cache id :
  cache_ok cache → (planFor cache id).1 = fresh_plan decls type_string kind_string quote id ∧ cache_ok (planFor cache id).2.
Proof.
  intros Hc. unfold Report.planFor. destruct (cache !! id) as [r|] eqn:E; cbn [fst snd]; [split; [exact (Hc id r E)|done]|].
  split; [done|]. intros id' r. destruct (decide (id = id')) as [->|Hne].
  - rewrite lookup_insert_eq. by intros [= <-].
  - rewrite lookup_insert_ne by done. apply Hc.
Qed.

(** ** Termination *)

(** The address an unwrapped value begins with, and the interfaces before it. *)
Fixpoint head (v : gval) : option nat :=
  match v with VPtr a => a | VIface (Some (_, w)) => head w | _ => None end.
Fixpoint nesting (v : gval) : nat := match v with VIface (Some (_, w)) => S (nesting w) | _ => O end.

(** No cycle of pointers and interfaces. *)
Definition acyclic : Prop := ∃ rank : nat → nat, ∀ a w b, heap !! a = Some w → head w = Some b → (rank b < rank a)%nat.

Lemma unwrap_enough : acyclic → ∀ t v, ∃ f, ∀ fuel, (f ≤ fuel)%nat → unwrap heap fuel t v ≠ None.
Proof.
  intros [rank Hrank].
  assert (Hn : ∀ n t v, (∀ b, head v = Some b → (rank b < n)%nat) → ∃ f, ∀ fuel, (f ≤ fuel)%nat → unwrap heap fuel t v ≠ None).
  { induction n as [n IHn] using lt_wf_ind. intros t v. remember (nesting v) as d eqn:Hd. revert t v Hd.
    induction d as [d IHd] using lt_wf_ind. intros t v -> Hv.
    assert (Hone : (∀ fuel, unwrap heap (S fuel) t v ≠ None) → ∃ f, ∀ fuel, (f ≤ fuel)%nat → unwrap heap fuel t v ≠ None).
    { intros Hf. exists 1%nat. intros [|fuel] Hle; [lia|apply Hf]. }
    destruct t as [| | | | | | | | |t'| | | |]; try (by apply Hone); destruct v as [| | | | | |[a|]| | |[[t0 w]|]|]; try (by apply Hone).
    - destruct (heap !! a) as [w|] eqn:Ha; [|apply Hone; intros fuel; simpl; by rewrite Ha].
      destruct (IHn (rank a) (Hv a eq_refl) t' w) as [f Hf]; [intros b Hb; by eapply Hrank|].
      exists (S f). intros [|fuel] Hle; [lia|]. simpl. rewrite Ha. apply Hf. lia.
    - destruct (IHd (nesting w) ltac:(simpl; lia) t0 w eq_refl) as [f Hf]; [intros b Hb; by apply Hv|].
      exists (S f). intros [|fuel] Hle; [lia|]. simpl. apply Hf. lia. }
  intros t v. apply (Hn (match head v with Some b => S (rank b) | None => O end)). intros b Hb. rewrite Hb. lia.
Qed.

Lemma unwrap_mono f fuel t v r : unwrap heap f t v = Some r → (f ≤ fuel)%nat → unwrap heap fuel t v = Some r.
Proof.
  revert fuel t v. induction f as [|f IH]; intros [|fuel] t v Hu Hle; try done; try lia.
  destruct t as [| | | | | | | | |t'| | | |]; try done; destruct v as [| | | | | |[a|]| | |[[t0 w]|]|]; try done; simpl in *.
  - destruct (heap !! a); [|done]. apply IH; [done|lia].
  - apply IH; [done|lia].
Qed.

Lemma report_value_enough : acyclic → ∀ opts left_ t v, ∃ f, ∀ fuel, (f ≤ fuel)%nat →
  ∀ St (rec : call → St → option error * St) st, reportValue rec fuel left_ t v opts st ≠ None.
Proof.
  intros Ha opts left_. induction left_ as [|left_ IH]; intros t v; [by exists O|].
  destruct (unwrap_enough Ha t v) as [f0 Hf0]. destruct (unwrap heap f0 t v) as [r|] eqn:Hu; [|by destruct (Hf0 f0)].
  assert (Heach : ∀ t' (vs : list gval), ∃ f, ∀ fuel, (f ≤ fuel)%nat → ∀ St (rec : call → St → option error * St) errs st,
    report_each (λ w st, reportValue rec fuel left_ t' w opts st) vs errs st ≠ None).
  { intros t' vs. induction vs as [|w vs [f Hf]]; [by exists O|]. destruct (IH t' w) as [f1 Hf1].
    exists (Nat.max f f1). intros fuel Hle St rec errs st. cbn [report_each].
    destruct (reportValue rec fuel left_ t' w opts st) as [[err st']|] eqn:E; [apply Hf; lia|]. by apply Hf1 in E; [|lia]. }
  assert (Hel : ∃ f, ∀ fuel, (f ≤ fuel)%nat → ∀ St (rec : call → St → option error * St) st,
    match r with
    | Some (TSlice e, w) | Some (TArray e, w) => report_each (λ w st, reportValue rec fuel left_ e w opts st) (elements heap w) [] st ≠ None
    | _ => True
    end).
  { destruct r as [[[] w]|]; try (by exists O); destruct (Heach t0 (elements heap w)) as [f Hf]; exists f; intros; by apply Hf. }
  destruct Hel as [f Hf]. exists (Nat.max f f0). intros fuel Hle St rec st. cbn [Report.reportValue].
  rewrite (unwrap_mono f0 fuel t v r Hu) by lia. specialize (Hf fuel ltac:(lia) St rec st).
  destruct r as [[[] w]|]; try done. destruct (planFor st.1 id) as [[scopes|e] c]; [|done]. by destruct (plan_report _ _ _ _ _ _ _ _).
Qed.

Lemma report_value_stuck {St} (rec : call → St → option error * St) fuel left_ t v opts st :
  unwrap heap fuel t v = None → reportValue rec fuel (S left_) t v opts st = None.
Proof. intros Hu. cbn [Report.reportValue]. by rewrite Hu. Qed.

(** A report ends on every value whose pointers and interfaces go round no cycle, whatever
    its slices do. *)
Theorem report_total v opts :
  acyclic → ∃ f, ∀ fuel, (f ≤ fuel)%nat → ∀ St (rec : call → St → option error * St) nilrec st, Report rec fuel nilrec v opts st ≠ None.
Proof.
  intros Ha. destruct v as [[t v]|].
  - destruct (report_value_enough Ha opts (S maxReportDepth) t v) as [f Hf]. exists f. intros fuel Hle St rec [] st; [done|]. by apply Hf.
  - exists O. by intros fuel _ St rec [] st.
Qed.

End reference.

(** ** A value that holds itself *)

(** var x any; x = &x *)
Definition self_heap : list gval := [VIface (Some (TPointer TInterface, VPtr (Some 0%nat)))].

(** C37. A report does not end on a pointer to an interface that holds the pointer: the loop
    that unwraps pointers and interfaces goes round without the depth ever growing, although
    the bound on the depth is meant to cover pointers in interfaces. *)
Theorem cyclic_report_diverges {St} (rec : call → St → option error * St) fuel opts st :
  Report decls type_string kind_string quote self_heap rec fuel false (Some (TPointer TInterface, VPtr (Some 0%nat))) opts st = None.
Proof.
  apply report_value_stuck.
  induction fuel as [fuel IH] using lt_wf_ind. destruct fuel as [|[|fuel]]; [done|done|]. simpl. apply IH. lia.
Qed.

End correct.

(** ** An example: a nested struct that takes the tag of its parent away, and a nil pointer *)
Definition demo_decls : list (list field) :=
  [[mkField (str "Service") TString [] (str "service") []; mkField (str "Calls") (TInt 64) (str "calls") [] (str "counter");
    mkField (str "Func") (TStruct 1) (str "func") [] []; mkField (str "Other") (TPointer (TStruct 1)) (str "other") [] []];
   [mkField (str "Service") TString [] (str "service") []; mkField (str "Ok") TBool (str "ok") [] (str "gauge")]].
Definition demo_value : gval := VStruct [VString (str "api"); VInt 3; VStruct [VString []; VBool true]; VPtr None].
Definition no_text (_ : gotype) : gostring := [].
Definition demo_plan : list reportScope :=
  match fresh_plan demo_decls no_text no_text id 0 with inl scopes => scopes | inr _ => [] end.

Definition shown (m : Metric) : gostring * MetricType * list (gostring * @value toy_attributes) := (Name m, Type_ m, Attributes_ m).

Lemma demo_typed : has_type demo_decls [] (TStruct 0) demo_value.
Proof. repeat constructor. Qed.

Lemma report_matches_reference_witness :
  map shown (plan_report demo_decls [] add demo_plan (TStruct 0) demo_value [] []).2 =
    [(str "calls", MetricTypeCounter, [String_kv (str "service") (str "api")]); (str "func.ok", MetricTypeGauge, [])].
Proof.
  rewrite (report_matches_reference demo_decls no_text no_text id [] add 0 demo_plan demo_value [] [] demo_typed ltac:(vm_compute; reflexivity)).
  vm_compute. reflexivity.
Defined.

(** A recorder that refuses every gauge. *)
Definition refuse_gauges (k : call) (n : Z) : option error * Z :=
  match k_typ k with MetricTypeGauge => (Some (ErrExt 1), n + 1) | _ => (None, n + 1) end.

(** Two options, the second a timestamp that replaces that of the first. *)
Definition demo_settings : list setting :=
  [SetTimestamp 5; SetUnit (str "1"); SetAttribute (str "host") (str "a"); SetTimestamp 9].
Definition demo_opts : list MetricOption := option_of <$> demo_settings.

Definition made_two (r : option ((list Metric + error) * plan_cache)) : bool :=
  match r with Some (inl ms, _) => Nat.eqb (length ms) 2 | _ => false end.

Lemma make_metrics_same_witness :
  ∃ ms cache ks err, MakeMetrics demo_decls no_text no_text id [] 5 (Some (TStruct 0, demo_value)) demo_opts ∅ = Some (inl ms, cache)
  ∧ length ks = 2%nat ∧ Forall (λ m, Timestamp m = 9 ∧ Unit m = str "1" ∧ Priority m = 1) ms
  ∧ Report demo_decls no_text no_text id [] refuse_gauges 5 false (Some (TStruct 0, demo_value)) demo_opts (∅, 0)
      = Some (err, (cache, (run_calls refuse_gauges ks 0).2)).
Proof.
  assert (Hs : made_two (MakeMetrics demo_decls no_text no_text id [] 5 (Some (TStruct 0, demo_value)) demo_opts ∅) = true) by (vm_compute; reflexivity).
  destruct (MakeMetrics demo_decls no_text no_text id [] 5 (Some (TStruct 0, demo_value)) demo_opts ∅) as [[[ms|e] cache]|] eqn:Hm; try done.
  destruct (make_metrics_same demo_decls no_text no_text id [] 5 (Some (TStruct 0, demo_value)) demo_settings ∅ (inl ms) cache Hm) as (ks & Hks & Ht).
  destruct (Ht Z refuse_gauges 0) as (err & He & _). pose proof (Hks ms eq_refl) as Hmade. exists ms, cache, ks, err. split_and!; [done| | |exact He].
  - apply Nat.eqb_eq in Hs. by rewrite (Forall2_length _ _ _ Hmade).
  - eapply Forall2_Forall_r; [exact Hmade|]. apply Forall_forall. intros k _ m (tags & _ & Hm'). destruct Hm'. done.
Defined.
