(* ===== verification/Typestate.v ===== *)
(** * Protocols of actions

    A goroutine keeps to a protocol when each of its actions is allowed in the stage the
    goroutine has reached ([pre]), and leads, with an answer that is possible ([adm]), to
    the stage [next].  [follows p g Q]: program [p] keeps to the protocol from stage [g],
    and [Q] holds of its result and last stage.

    [typestate_reach] is the proof principle: an invariant of the state and the stages of
    all goroutines, kept by every action that its goroutine's stage allows, holds however
    goroutines that keep to the protocol are interleaved. *)

From S2P Require Import Prelude Atomic.

Section typestate.
Context {E : Type → Type} {G : Type}.
Context (pre : ∀ B, E B → G → Prop) (adm : ∀ B, E B → B → Prop) (next : ∀ B, E B → B → G → G).
#[local] Arguments pre {B}.
#[local] Arguments adm {B}.
#[local] Arguments next {B}.

Fixpoint follows {A} (p : prog E A) (g : G) (Q : A → G → Prop) : Prop :=
  match p with
  | Ret a => Q a g
  | Act e k => pre e g ∧ ∀ b, adm e b → follows (k b) (next e b g) Q
  end.

Lemma follows_mono {A} (p : prog E A) g (Q Q' : A → G → Prop) :
  follows p g Q → (∀ a g', Q a g' → Q' a g') → follows p g Q'.
Proof.
  intros Hp HQ. revert g Hp. induction p as [a|B e k IH]; simpl; intros g Hp; [auto|].
  destruct Hp as [He Hk]. split; [done|]. intros b Hb. by apply IH, Hk.
Qed.

Lemma typestate_bind {A C} (p : prog E A) (f : A → prog E C) g (Q : C → G → Prop) :
  follows p g (λ a g', follows (f a) g' Q) → follows (bind p f) g Q.
Proof.
  revert g. induction p as [a|B e k IH]; simpl; intros g Hp; [done|].
  destruct Hp as [He Hk]. split; [done|]. intros b Hb. by apply IH, Hk.
Qed.

Context {S A C : Type} (handle : ∀ B, E B → S → list (B * S)) (env : S → S → Prop).
#[local] Arguments handle {B}.
Context (I : S → list G → Prop) (Q : C → A → G → Prop) (program : C → prog E A).

Lemma typestate_reach (cs : list C) g0 s0 ts s :
  (∀ B (e : E B) g s gs i b s', gs !! i = Some g → pre e g → I s gs → (b, s') ∈ handle e s →
     adm e b ∧ I s' (<[i := next e b g]> gs)) →
  (∀ s s' gs, I s gs → env s s' → I s' gs) →
  (∀ c, c ∈ cs → follows (program c) g0 (Q c)) →
  I s0 (replicate (length cs) g0) →
  gsteps (@handle) env (program <$> cs, s0) (ts, s) →
  ∃ gs, I s gs ∧ ∀ i c p, cs !! i = Some c → ts !! i = Some p → ∃ g, gs !! i = Some g ∧ follows p g (Q c).
Proof.
  intros Hact Henv Hcs H0 Hrun.
  destruct (pool_invariant (@handle) env (λ p (cg : C * G), follows p cg.2 (Q cg.1))
    (λ s cgs, cgs.*1 = cs ∧ I s cgs.*2)) with (c := (program <$> cs, s0)) (c' := (ts, s)) as (cgs & HP & Hc & HI).
  - intros B e k [c g] s1 cgs i b s2 Hi [Hpre Hk] [Hc HI] Hin. simpl in *.
    assert (Hg : cgs.*2 !! i = Some g) by (by rewrite list_lookup_fmap, Hi).
    destruct (Hact B e g s1 _ i b s2 Hg Hpre HI Hin) as [Ha HI'].
    exists (c, next e b g). split; [by apply Hk|]. rewrite !list_fmap_insert. simpl. split; [|done].
    rewrite list_insert_id; [done|]. by rewrite list_lookup_fmap, Hi.
  - intros s1 s2 cgs [Hc HI] He. split; [done|]. by eapply Henv.
  - done.
  - exists ((λ c, (c, g0)) <$> cs). simpl. split_and!.
    + rewrite Forall2_fmap. apply Forall_Forall2_diag, Forall_forall. intros c Hc. simpl. auto.
    + rewrite <-list_fmap_compose. apply list_fmap_id.
    + rewrite <-list_fmap_compose. replace (_ <$> cs) with (replicate (length cs) g0); [done|].
      clear. induction cs; simpl; [done|]. by f_equal.
  - exists (cgs.*2). split; [done|]. intros i c p Hci Hpi. simpl in *.
    destruct (Forall2_lookup_l _ _ _ _ _ HP Hpi) as ([c' g] & Hi & Hf). simpl in Hf.
    rewrite <-Hc, list_lookup_fmap, Hi in Hci. injection Hci as ->. exists g. split; [|done].
    by rewrite list_lookup_fmap, Hi.
Qed.

End typestate.
