(* ===== verification/Bridge.v ===== *)
(** * The OpenTelemetry bridge (otel/meter_provider.go, meter.go, instruments.go,
      observable.go, observer.go, callbacks.go, clock.go)

    A provider hands out meters, a meter instruments; a synchronous instrument records into
    the client, an observable one when its callbacks run.  The registry runs the callbacks
    on ForceFlush, on Shutdown and in a loop of its own.  Methods are trees of atomic
    actions on the provider's state.  The client is what the bridge sees of it: a call is
    accepted or refused with any of its errors, and refused once the client is shut down.
    What a callback does each time it is called is any of its behaviours, a list of
    observations with an error.

    The theorems are in BridgeCorrect.v. *)

From S2P Require Import Prelude GoLib Strconv Atomic Attribute Metric Config Options Client.
#[local] Open Scope prog_scope.

(** ** Instruments *)
Inductive number := Int64 | Float64.
Inductive skind := KCounter | KUpDownCounter | KHistogram | KGauge.
Inductive observableKind := observableCounter | observableUpDownCounter | observableGauge.

(** The types of instruments: eight synchronous ones, six observable ones. *)
Inductive itype := Sync (k : skind) (n : number) | Obs (k : observableKind) (n : number).

#[global] Instance number_eq_dec : EqDecision number.
Proof. solve_decision. Defined.
#[global] Instance skind_eq_dec : EqDecision skind.
Proof. solve_decision. Defined.
#[global] Instance observableKind_eq_dec : EqDecision observableKind.
Proof. solve_decision. Defined.
#[global] Instance itype_eq_dec : EqDecision itype.
Proof. solve_decision. Defined.

(** What the keys of Meter.instruments start with. *)
Definition key_prefix (t : itype) : gostring :=
  str (match t with
       | Sync KCounter Int64 => "counter_int64_"
       | Sync KCounter Float64 => "counter_float64_"
       | Sync KUpDownCounter Int64 => "updowncounter_int64_"
       | Sync KUpDownCounter Float64 => "updowncounter_float64_"
       | Sync KHistogram Int64 => "histogram_int64_"
       | Sync KHistogram Float64 => "histogram_float64_"
       | Sync KGauge Int64 => "gauge_int64_"
       | Sync KGauge Float64 => "gauge_float64_"
       | Obs observableCounter Int64 => "observable_counter_int64_"
       | Obs observableCounter Float64 => "observable_counter_float64_"
       | Obs observableUpDownCounter Int64 => "observable_updowncounter_int64_"
       | Obs observableUpDownCounter Float64 => "observable_updowncounter_float64_"
       | Obs observableGauge Int64 => "observable_gauge_int64_"
       | Obs observableGauge Float64 => "observable_gauge_float64_"
       end)%string.

Definition instrument_key (t : itype) (name : gostring) : gostring := key_prefix t ++ name.

(** What the options of an instrument make up; a nil callback is [None], and a callback of
    the user is known by its number. *)
Record iconfig := mkIConfig { ic_Description : gostring; ic_Unit : gostring; ic_Callbacks : list (option nat) }.

(** An observed or recorded number, of one of the two types. *)
Inductive num := NInt (n : Z) | NFloat (x : float64).
Definition float_of (v : num) : float64 := match v with NInt n => f_of_Z n | NFloat x => x end.

(** int64Callbacks and float64Callbacks: the callbacks bound to the observer of their type. *)
Record instrumentCallback := mkInstrumentCallback { cb_number : number; cb_fun : nat }.
Definition int64Callbacks (callbacks : list (option nat)) : list (option instrumentCallback) :=
  map (fmap (mkInstrumentCallback Int64)) callbacks.
Definition float64Callbacks (callbacks : list (option nat)) : list (option instrumentCallback) :=
  map (fmap (mkInstrumentCallback Float64)) callbacks.

Section bridge.
Context `{Attributes}.

(** An attribute.Set is its slice.  Every type of value is converted by AsString. *)
Definition convertAttributes (attrSet : list KeyValue) : list MetricOption :=
  map (λ attr : KeyValue, WithAttribute attr.1 (as_string attr.2)) attrSet.

(** The state shared by the observable kinds; [o_mu] is the mutex of the totals. *)
Record observable := mkObservable {
  o_meter : nat; o_name : gostring; o_metadata : list MetricOption; o_kind : observableKind;
  o_mu : bool; o_totals : gmap Distinct float64 }.

Inductive instrument :=
| SyncInstrument (k : skind) (n : number) (meter : nat) (name description unit_ : gostring)
| ObsInstrument (n : number) (o : observable).

Definition type_of (i : instrument) : itype :=
  match i with SyncInstrument k n _ _ _ _ => Sync k n | ObsInstrument n o => Obs (o_kind o) n end.
Definition getName (i : instrument) : gostring :=
  match i with SyncInstrument _ _ _ name _ _ => name | ObsInstrument _ o => o_name o end.
Definition meter_of (i : instrument) : nat :=
  match i with SyncInstrument _ _ m _ _ _ => m | ObsInstrument _ o => o_meter o end.

Record Meter := mkMeter { m_name : gostring; m_instruments : gmap gostring nat }.

(** A metric.Observable: an observable instrument of this provider, of another provider,
    or of another implementation with the name of its type. *)
Inductive target := Own (id : nat) | Elsewhere (name meter : gostring) | Foreign (typ : gostring).

(** One call of Observe, and what a callback does when it is called. *)
Record observation := mkObservation { ob_target : target; ob_value : num; ob_attrs : list KeyValue }.
Record behaviour := mkBehaviour { bh_observations : list observation; bh_error : option error }.

(** ** The registry of callbacks *)
Inductive callback :=
| InstrumentCallback (cb : instrumentCallback) (inst : nat)
| MeterCallback (f : nat) (allowed : list nat).

Record registeredCallback := mkRegistered { rc_id : Z; rc_run : callback }.

(** [collectMu] and the two channels are booleans: held, closed. *)
Record callbackRegistry := mkRegistry {
  interval : Z; r_disabled : bool; collectMu : bool; callbacks : list registeredCallback;
  nextID : Z; started : bool; r_closed : bool; stop : bool; done_ : bool }.

Definition newCallbackRegistry (interval_ : Z) (disabled_ : bool) : callbackRegistry :=
  mkRegistry interval_ disabled_ false [] 0 false false false false.

(** What happened: a call of the client, by which series of which observable counter and
    with which observed value, and the client's answer; registrations; the steps of
    collections: the callbacks a collection begins with, that its context had ended, the
    call of a callback, the end. *)
Inductive event_ :=
| EvClient (typ : MetricType) (span : SpanContext) (name : gostring) (value : float64)
    (src : option (nat * Distinct * float64)) (err : option error)
| EvRegister (id : Z) | EvUnregister (id : Z)
| EvCollect (ids : list Z) | EvSkipped (ctx : nat) | EvCall (id : Z) | EvCollected
| EvHandled (err : error).

Record state_ := mkState_ {
  meters : gmap gostring nat; meter_heap : list Meter; instruments : list instrument;
  reg : callbackRegistry; fired : list Z; scopes : list (list error); ended : list nat; contexts : nat;
  once_ : once; client_closed : bool; log : list event_ }.

Definition set_meters s m h := mkState_ m h (instruments s) (reg s) (fired s) (scopes s) (ended s) (contexts s) (once_ s) (client_closed s) (log s).
Definition set_instruments s i := mkState_ (meters s) (meter_heap s) i (reg s) (fired s) (scopes s) (ended s) (contexts s) (once_ s) (client_closed s) (log s).
Definition set_reg s r := mkState_ (meters s) (meter_heap s) (instruments s) r (fired s) (scopes s) (ended s) (contexts s) (once_ s) (client_closed s) (log s).
Definition set_fired s f := mkState_ (meters s) (meter_heap s) (instruments s) (reg s) f (scopes s) (ended s) (contexts s) (once_ s) (client_closed s) (log s).
Definition set_scopes s sc := mkState_ (meters s) (meter_heap s) (instruments s) (reg s) (fired s) sc (ended s) (contexts s) (once_ s) (client_closed s) (log s).
Definition set_ended s e := mkState_ (meters s) (meter_heap s) (instruments s) (reg s) (fired s) (scopes s) e (contexts s) (once_ s) (client_closed s) (log s).
Definition set_contexts s c := mkState_ (meters s) (meter_heap s) (instruments s) (reg s) (fired s) (scopes s) (ended s) c (once_ s) (client_closed s) (log s).
Definition set_once_ s o := mkState_ (meters s) (meter_heap s) (instruments s) (reg s) (fired s) (scopes s) (ended s) (contexts s) o (client_closed s) (log s).
Definition set_client_closed s b := mkState_ (meters s) (meter_heap s) (instruments s) (reg s) (fired s) (scopes s) (ended s) (contexts s) (once_ s) b (log s).
Definition add_log s e := mkState_ (meters s) (meter_heap s) (instruments s) (reg s) (fired s) (scopes s) (ended s) (contexts s) (once_ s) (client_closed s) (log s ++ [e]).

Definition set_collectMu r b := mkRegistry (interval r) (r_disabled r) b (callbacks r) (nextID r) (started r) (r_closed r) (stop r) (done_ r).
Definition set_callbacks r l := mkRegistry (interval r) (r_disabled r) (collectMu r) l (nextID r) (started r) (r_closed r) (stop r) (done_ r).
Definition set_r_closed r := mkRegistry (interval r) (r_disabled r) (collectMu r) (callbacks r) (nextID r) (started r) true (stop r) (done_ r).
Definition set_stop r := mkRegistry (interval r) (r_disabled r) (collectMu r) (callbacks r) (nextID r) (started r) (r_closed r) true (done_ r).
Definition set_done r := mkRegistry (interval r) (r_disabled r) (collectMu r) (callbacks r) (nextID r) (started r) (r_closed r) (stop r) true.

(** The state of NewMeterProvider; the context with number 0 never ends. *)
Definition new_provider (interval_ : Z) (disabled_ : bool) : state_ :=
  mkState_ ∅ [] [] (newCallbackRegistry interval_ disabled_) [] [] [] 1 Fresh false [].

(** ** The actions *)
Inductive action : Type → Type :=
| GetMeter (name : gostring) : action nat
| GetInstrument (m : nat) (key : gostring) (new : instrument) : action (nat * itype * bool)
| ReadObservable (o : nat) : action (option (observable * gostring))
| LockTotals (o : nat) : action unit
| UnlockTotals (o : nat) : action unit
| LoadTotal (o : nat) (key : Distinct) : action float64
| StoreTotal (o : nat) (key : Distinct) (v : float64) : action unit
| ClientRecord (typ : MetricType) (ctx : Context_) (name : gostring) (v : float64) (opts : list MetricOption)
    (src : option (nat * Distinct * float64)) : action (option error)
| ClientFlush (ctx : Context_) : action (option error)
| ClientShutdown (ctx : Context_) : action (option error)
| Register_ (cb : callback) : action (option Z)
| Unregister_ (id : Z) : action unit
| LockCollect : action unit
| UnlockCollect : action unit
| LoadClosed : action bool
| Snapshot : action (list registeredCallback)
| CtxErr (ctx : nat) : action (option error)
| NewScope : action nat
| CallBack (id : Z) (f : nat) : action behaviour
| ScopeFail (sc : nat) (e : error) : action unit
| ScopeErrs (sc : nat) : action (list error)
| CloseRegistry : action (option bool)
| CloseStop : action unit
| AwaitDone (ctx : nat) : action (option error)
| AwaitStart : action unit
| SelectLoop : action bool
| NewContext : action nat
| CloseDone : action unit
| HandleError (e : error) : action unit
| OnceEnter : action bool
| OnceLeave : action unit.

Section handler.
(** What the callbacks of the user may do, and the errors the client may return. *)
Context (behaviours : nat → list behaviour) (client_errors : list error).

Definition with_totals (o : observable) (mu : bool) (totals : gmap Distinct float64) : observable :=
  mkObservable (o_meter o) (o_name o) (o_metadata o) (o_kind o) mu totals.

Definition get_observable (s : state_) (o : nat) : option (number * observable) :=
  match instruments s !! o with Some (ObsInstrument n ob) => Some (n, ob) | _ => None end.

Definition put_observable (s : state_) (o : nat) (n : number) (ob : observable) : state_ :=
  set_instruments s (<[o := ObsInstrument n ob]> (instruments s)).

(** The section of register under the lock; the loop starts on first use. *)
Definition add_callback (r : callbackRegistry) (cb : callback) : Z * callbackRegistry :=
  let id := u64 (nextID r + 1) in
  (id, mkRegistry (interval r) (r_disabled r) (collectMu r) (callbacks r ++ [mkRegistered id cb]) id
         (started r || negb (r_closed r)) (r_closed r) (stop r) (done_ r)).

(** The loop of the function that register returns. *)
Fixpoint remove_callback (id : Z) (l : list registeredCallback) : list registeredCallback :=
  match l with
  | [] => []
  | c :: l' => if rc_id c =? id then l' else c :: remove_callback id l'
  end.

(** A context that has not ended may end at any time, except [Background]; [f] notes that it
    has. *)
Definition ctx_outcomes (f : state_ → state_) (ctx : nat) (s : state_) : list (option error * state_) :=
  if bool_decide (ctx ∈ ended s) then [(Some ErrCanceled, f s)]
  else if Nat.eqb ctx 0 then [(None, s)]
  else [(None, s); (Some ErrCanceled, f (set_ended s (ctx :: ended s)))].

Definition handler (B : Type) (e : action B) (s : state_) : list (B * state_) :=
  match e in action B return list (B * state_) with
  | GetMeter name =>
      match meters s !! name with
      | Some m => [(m, s)]
      | None =>
          let m := length (meter_heap s) in
          [(m, set_meters s (<[name := m]> (meters s)) (meter_heap s ++ [mkMeter name ∅]))]
      end
  | GetInstrument m key new =>
      match meter_heap s !! m with
      | None => []
      | Some mt =>
          match m_instruments mt !! key with
          | Some id =>
              match instruments s !! id with
              | Some i => [((id, type_of i, true), s)]
              | None => []
              end
          | None =>
              let id := length (instruments s) in
              [((id, type_of new, false),
                set_instruments
                  (set_meters s (meters s) (<[m := mkMeter (m_name mt) (<[key := id]> (m_instruments mt))]> (meter_heap s)))
                  (instruments s ++ [new]))]
          end
      end
  | ReadObservable o => [((λ no, (no.2, default [] (m_name <$> meter_heap s !! o_meter no.2))) <$> get_observable s o, s)]
  | LockTotals o =>
      match get_observable s o with
      | Some (n, ob) => if o_mu ob then [] else [(tt, put_observable s o n (with_totals ob true (o_totals ob)))]
      | None => []
      end
  | UnlockTotals o =>
      match get_observable s o with
      | Some (n, ob) => [(tt, put_observable s o n (with_totals ob false (o_totals ob)))]
      | None => []
      end
  | LoadTotal o key =>
      match get_observable s o with
      | Some (n, ob) => [(default f_zero (o_totals ob !! key), s)]
      | None => []
      end
  | StoreTotal o key v =>
      match get_observable s o with
      | Some (n, ob) => [(tt, put_observable s o n (with_totals ob (o_mu ob) (<[key := v]> (o_totals ob))))]
      | None => []
      end
  | ClientRecord typ ctx name v opts src =>
      if r_disabled (reg s) then [(None, s)]
      else
        let answer err := (err, add_log s (EvClient typ (ctx_span ctx) name v src err)) in
        if client_closed s then [answer (Some (ErrIs ErrClientClosed))]
        else answer None :: (answer ∘ Some <$> client_errors)
  | ClientFlush _ =>
      if r_disabled (reg s) then [(None, s)] else (None, s) :: ((λ e, (Some e, s)) <$> client_errors)
  | ClientShutdown _ =>
      let s' := set_client_closed s true in
      if r_disabled (reg s) then [(None, s)] else (None, s') :: ((λ e, (Some e, s')) <$> client_errors)
  | Register_ cb =>
      if r_disabled (reg s) then [(None, s)]
      else let '(id, r) := add_callback (reg s) cb in [(Some id, add_log (set_reg s r) (EvRegister id))]
  | Unregister_ id =>
      (* the caller has the registration *)
      if negb ((1 <=? id) && (id <=? nextID (reg s))) then []
      else if bool_decide (id ∈ fired s) then [(tt, s)]
      else [(tt, add_log (set_fired (set_reg s (set_callbacks (reg s) (remove_callback id (callbacks (reg s))))) (id :: fired s)) (EvUnregister id))]
  | LockCollect => if collectMu (reg s) then [] else [(tt, set_reg s (set_collectMu (reg s) true))]
  | UnlockCollect => [(tt, add_log (set_reg s (set_collectMu (reg s) false)) EvCollected)]
  | LoadClosed => [(r_closed (reg s), s)]
  | Snapshot => [(callbacks (reg s), add_log s (EvCollect (rc_id <$> callbacks (reg s))))]
  | CtxErr ctx => ctx_outcomes (λ s, add_log s (EvSkipped ctx)) ctx s
  | NewScope => [(length (scopes s), set_scopes s (scopes s ++ [[]]))]
  | CallBack id f => (λ b, (b, add_log s (EvCall id))) <$> behaviours f
  | ScopeFail sc e => [(tt, set_scopes s (alter (λ es, es ++ [e]) sc (scopes s)))]
  | ScopeErrs sc => [(default [] (scopes s !! sc), s)]
  | CloseRegistry =>
      if r_closed (reg s) then [(None, s)] else [(Some (started (reg s)), set_reg s (set_r_closed (reg s)))]
  | CloseStop => [(tt, set_reg s (set_stop (reg s)))]
  | AwaitDone ctx =>
      (if done_ (reg s) then [(None, s)] else [])
      ++ List.filter (λ o, bool_decide (is_Some o.1)) (ctx_outcomes (λ s, s) ctx s)
  | AwaitStart => if started (reg s) then [(tt, s)] else []
  | SelectLoop => (if stop (reg s) then [(true, s)] else []) ++ [(false, s)]
  | NewContext => [(contexts s, set_contexts s (S (contexts s)))]
  | CloseDone => [(tt, set_reg s (set_done (reg s)))]
  | HandleError e => [(tt, add_log s (EvHandled e))]
  | OnceEnter =>
      match once_ s with
      | Fresh => [(true, set_once_ s Busy)]
      | Busy => []
      | Complete => [(false, s)]
      end
  | OnceLeave => [(tt, set_once_ s Complete)]
  end.
End handler.

#[local] Notation "'let!' x := e ; k" := (@Act action _ _ e (λ x, k)) : prog_scope.
#[local] Notation "'run!' e ; k" := (@Act action _ _ e (λ _, k)) : prog_scope.

(** The text fmt prints for a quoted string. *)
Context (quote : gostring → gostring).

(** ** Synchronous instruments (instruments.go)

    The name is the instrument's, the set of attributes what the options make up. *)
Definition client_Counter ctx name v opts src : prog action (option error) :=
  let! err := ClientRecord MetricTypeCounter ctx name v opts src; Ret err.
Definition client_Gauge ctx name v opts : prog action (option error) :=
  let! err := ClientRecord MetricTypeGauge ctx name v opts None; Ret err.
Definition client_Histogram ctx name v opts : prog action (option error) :=
  let! err := ClientRecord MetricTypeHistogram ctx name v opts None; Ret err.

Definition int64Counter_Add name (ctx : Context_) (incr : Z) attrs : prog action unit :=
  run@ client_Counter ctx name (f_of_Z incr) (convertAttributes attrs) None; Ret tt.
Definition float64Counter_Add name (ctx : Context_) (incr : float64) attrs : prog action unit :=
  run@ client_Counter ctx name incr (convertAttributes attrs) None; Ret tt.
Definition int64UpDownCounter_Add name (ctx : Context_) (incr : Z) attrs : prog action unit :=
  run@ client_Gauge ctx name (f_of_Z incr) (convertAttributes attrs); Ret tt.
Definition float64UpDownCounter_Add name (ctx : Context_) (incr : float64) attrs : prog action unit :=
  run@ client_Gauge ctx name incr (convertAttributes attrs); Ret tt.
Definition int64Histogram_Record name (ctx : Context_) (value : Z) attrs : prog action unit :=
  run@ client_Histogram ctx name (f_of_Z value) (convertAttributes attrs); Ret tt.
Definition float64Histogram_Record name (ctx : Context_) (value : float64) attrs : prog action unit :=
  run@ client_Histogram ctx name value (convertAttributes attrs); Ret tt.
Definition int64Gauge_Record name (ctx : Context_) (value : Z) attrs : prog action unit :=
  run@ client_Gauge ctx name (f_of_Z value) (convertAttributes attrs); Ret tt.
Definition float64Gauge_Record name (ctx : Context_) (value : float64) attrs : prog action unit :=
  run@ client_Gauge ctx name value (convertAttributes attrs); Ret tt.

(** The call of a synchronous instrument with a number. *)
Definition sync_record (k : skind) name ctx (v : num) attrs : prog action unit :=
  match k, v with
  | KCounter, NInt n => int64Counter_Add name ctx n attrs
  | KCounter, NFloat x => float64Counter_Add name ctx x attrs
  | KUpDownCounter, NInt n => int64UpDownCounter_Add name ctx n attrs
  | KUpDownCounter, NFloat x => float64UpDownCounter_Add name ctx x attrs
  | KHistogram, NInt n => int64Histogram_Record name ctx n attrs
  | KHistogram, NFloat x => float64Histogram_Record name ctx x attrs
  | KGauge, NInt n => int64Gauge_Record name ctx n attrs
  | KGauge, NFloat x => float64Gauge_Record name ctx x attrs
  end.

(** ** Observations (observable.go, observer.go) *)
Definition record_ (o : nat) (ob : observable) (ctx : Context_) (value : float64) (attrs : list KeyValue) :
    prog action (option error) :=
  let opts := convertAttributes attrs ++ o_metadata ob in
  let@ err :=
    match o_kind ob with
    | observableCounter =>
        run! LockTotals o;
        let key := Equivalent attrs in
        let! total := LoadTotal o key;
        let@ err := client_Counter ctx (o_name ob) (fsub value total) opts (Some (o, key, value));
        match err with
        | None => run! StoreTotal o key value; run! UnlockTotals o; Ret None
        | Some e => run! UnlockTotals o; Ret (Some e)
        end
    | observableUpDownCounter | observableGauge => client_Gauge ctx (o_name ob) value opts
    end;
  Ret (ErrWrap (str "observe " ++ quote (o_name ob)) <$> err).

Definition scope_fail (sc : nat) (err : option error) : prog action unit :=
  match err with None => Ret tt | Some e => run! ScopeFail sc e; Ret tt end.

Definition scope_observe (sc : nat) (ctx : Context_) (inst : nat) (value : float64) (attrs : list KeyValue) : prog action unit :=
  let! ob := ReadObservable inst;
  match ob with
  | None => Ret tt
  | Some (ob, _) => let@ err := record_ inst ob ctx value attrs; scope_fail sc err
  end.

Definition finish (sc : nat) (callbackErr : option error) : prog action (option error) :=
  let! errs := ScopeErrs sc;
  Ret (errors_join (wrap "observable callback" callbackErr :: (Some <$> errs))).

Definition int64Observer_Observe sc ctx inst (value : Z) attrs : prog action unit := scope_observe sc ctx inst (f_of_Z value) attrs.
Definition float64Observer_Observe sc ctx inst (value : float64) attrs : prog action unit := scope_observe sc ctx inst value attrs.

Definition instrument_observe sc ctx inst (ob : observation) : prog action unit :=
  match ob_value ob with
  | NInt n => int64Observer_Observe sc ctx inst n (ob_attrs ob)
  | NFloat x => float64Observer_Observe sc ctx inst x (ob_attrs ob)
  end.

Definition multi_observe (allowed : list nat) (sc : nat) (ctx : Context_) (inst : target) (value : float64) (attrs : list KeyValue) : prog action unit :=
  match inst with
  | Foreign typ => scope_fail sc (Some (ErrWrapAfter (ErrIs ErrForeignObservable) typ))
  | Elsewhere name _ => scope_fail sc (Some (ErrWrapAfter (ErrIs ErrUnregisteredObservable) (quote name)))
  | Own id =>
      if bool_decide (id ∈ allowed) then scope_observe sc ctx id value attrs
      else
        let! ob := ReadObservable id;
        match ob with
        | None => Ret tt
        | Some (ob, _) => scope_fail sc (Some (ErrWrapAfter (ErrIs ErrUnregisteredObservable) (quote (o_name ob))))
        end
  end.

Definition ObserveInt64 allowed sc ctx inst (value : Z) attrs : prog action unit := multi_observe allowed sc ctx inst (f_of_Z value) attrs.
Definition ObserveFloat64 allowed sc ctx inst (value : float64) attrs : prog action unit := multi_observe allowed sc ctx inst value attrs.

Definition meter_observe allowed sc ctx (ob : observation) : prog action unit :=
  match ob_value ob with
  | NInt n => ObserveInt64 allowed sc ctx (ob_target ob) n (ob_attrs ob)
  | NFloat x => ObserveFloat64 allowed sc ctx (ob_target ob) x (ob_attrs ob)
  end.

Fixpoint each {A} (f : A → prog action unit) (l : list A) : prog action unit :=
  match l with [] => Ret tt | x :: l' => run@ f x; each f l' end.

(** The closures that observableFor and registerCallback register. *)
Definition run_callback (c : registeredCallback) (ctx : Context_) : prog action (option error) :=
  let! sc := NewScope;
  match rc_run c with
  | InstrumentCallback cb inst =>
      let! b := CallBack (rc_id c) (cb_fun cb);
      run@ each (instrument_observe sc ctx inst) (bh_observations b);
      finish sc (bh_error b)
  | MeterCallback f allowed =>
      let! b := CallBack (rc_id c) f;
      run@ each (meter_observe allowed sc ctx) (bh_observations b);
      finish sc (bh_error b)
  end.

(** ** Collections (callbacks.go) *)
Fixpoint run_callbacks (cs : list registeredCallback) (ctx : Context_) : prog action (list (option error)) :=
  match cs with
  | [] => Ret []
  | c :: cs' =>
      let@ err := run_callback c ctx;
      let@ errs := run_callbacks cs' ctx;
      Ret (err :: errs)
  end.

Definition without_span (ctx : Context_) : Context_ := mkContext (ctx_id ctx) (mkSpan 0 0 false) (ctx_tags ctx).

Definition invoke (ctx : Context_) : prog action (option error) :=
  run! LockCollect;
  let! cs := Snapshot;
  let@ err :=
    match cs with
    | [] => Ret None
    | _ =>
        let! e := CtxErr (ctx_id ctx);
        match e with
        | Some e => Ret (Some (ErrWrap (str "collect observable instruments") e))
        | None => let@ errs := run_callbacks cs (without_span ctx); Ret (errors_join errs)
        end
    end;
  run! UnlockCollect;
  Ret err.

Definition collect (ctx : Context_) : prog action (option error) :=
  let! c := LoadClosed;
  if c then Ret None else invoke ctx.

Definition shutdown_ (ctx : Context_) : prog action (option error) :=
  let! c := CloseRegistry;
  match c with
  | None => Ret None
  | Some true =>
      run! CloseStop;
      let! e := AwaitDone (ctx_id ctx);
      match e with
      | Some e => Ret (Some (ErrWrap (str "stop observable collection") e))
      | None => invoke ctx
      end
  | Some false => invoke ctx
  end.

(** At most [fuel] turns; [false] when cut off. *)
Fixpoint loop (fuel : nat) : prog action bool :=
  match fuel with
  | O => Ret false
  | S fuel' =>
      let! stopped := SelectLoop;
      if stopped then run! CloseDone; Ret true
      else
        let! c := NewContext;
        let@ err := collect (mkContext c (mkSpan 0 0 false) None);
        match err with
        | Some e => run! HandleError e; loop fuel'
        | None => loop fuel'
        end
  end.

(** The goroutine that register starts on first use. *)
Definition loop_goroutine (fuel : nat) : prog action bool := run! AwaitStart; loop fuel.

Definition register (cb : callback) : prog action (option Z) := let! id := Register_ cb; Ret id.

Inductive registration := noopRegistration | Registered (id : option Z).

Definition Unregister (r : registration) : prog action (option error) :=
  match r with
  | noopRegistration | Registered None => Ret None
  | Registered (Some id) => run! Unregister_ id; Ret None
  end.

(** The loop of registerCallback: the error so far and the instruments allowed, or the
    error of a foreign instrument.  An [Own] target is an observable instrument. *)
Definition other_meter (name owner meter_name : gostring) : error :=
  ErrWrapAfter (ErrIs ErrObservableMeter)
    (quote name ++ str " from meter " ++ quote owner ++ str ", registered with meter " ++ quote meter_name).

Fixpoint check_instruments (m : nat) (meter_name : gostring) (insts : list target) (err : option error) (allowed : list nat) :
    prog action ((option error * list nat) + error) :=
  match insts with
  | [] => Ret (inl (err, allowed))
  | Foreign typ :: _ => Ret (inr (ErrWrapAfter (ErrIs ErrForeignObservable) typ))
  | Elsewhere name owner :: insts' =>
      check_instruments m meter_name insts' (errors_join [err; Some (other_meter name owner meter_name)]) allowed
  | Own id :: insts' =>
      let! ob := ReadObservable id;
      match ob with
      | None => Ret (inr (ErrIs ErrForeignObservable))
      | Some (ob, owner) =>
          if decide (o_meter ob = m)
          then check_instruments m meter_name insts' err (if bool_decide (id ∈ allowed) then allowed else allowed ++ [id])
          else check_instruments m meter_name insts' (errors_join [err; Some (other_meter (o_name ob) owner meter_name)]) allowed
      end
  end.

Definition registerCallback (m : nat) (meter_name : gostring) (f : option nat) (insts : list target) :
    prog action (option registration * option error) :=
  match f with
  | None => Ret (None, Some (ErrIs ErrNilCallback))
  | Some f =>
      let@ r := check_instruments m meter_name insts None [];
      match r with
      | inr e => Ret (None, Some e)
      | inl (err, []) => Ret (Some noopRegistration, err)
      | inl (err, allowed) =>
          let@ id := register (MeterCallback f allowed);
          Ret (Some (Registered id), err)
      end
  end.

Definition RegisterCallback := registerCallback.

(** ** Meters (meter.go, observable.go)

    [None]: the assertion of the instrument's type panics. *)
Definition sync_instrument (k : skind) (n : number) (m : nat) (name : gostring) (cfg : iconfig) : prog action (option nat * option error) :=
  let! r := GetInstrument m (instrument_key (Sync k n) name) (SyncInstrument k n m name (ic_Description cfg) (ic_Unit cfg));
  let '(id, t, existing) := r in
  if (existing : bool) then if decide (t = Sync k n) then Ret (Some id, None) else Ret (None, None)
  else Ret (Some id, None).

Definition Int64Counter := sync_instrument KCounter Int64.
Definition Float64Counter := sync_instrument KCounter Float64.
Definition Int64UpDownCounter := sync_instrument KUpDownCounter Int64.
Definition Float64UpDownCounter := sync_instrument KUpDownCounter Float64.
Definition Int64Histogram := sync_instrument KHistogram Int64.
Definition Float64Histogram := sync_instrument KHistogram Float64.
Definition Int64Gauge := sync_instrument KGauge Int64.
Definition Float64Gauge := sync_instrument KGauge Float64.

Fixpoint register_all (name : gostring) (inst : nat) (cbs : list (option instrumentCallback)) (err : option error) : prog action (option error) :=
  match cbs with
  | [] => Ret err
  | None :: cbs' =>
      register_all name inst cbs' (errors_join [err; Some (ErrWrapAfter (ErrIs ErrNilCallback) (str "instrument " ++ quote name))])
  | Some cb :: cbs' => run@ register (InstrumentCallback cb inst); register_all name inst cbs' err
  end.

Record observableSpec := mkSpec {
  sp_key : gostring; sp_name : gostring; sp_description : gostring; sp_unit : gostring;
  sp_kind : observableKind; sp_callbacks : list (option instrumentCallback) }.

Definition observableFor (n : number) (m : nat) (spec : observableSpec) : prog action (option nat * option error) :=
  let! r := GetInstrument m (sp_key spec)
              (ObsInstrument n (mkObservable m (sp_name spec) [WithDescription (sp_description spec); WithUnit (sp_unit spec)]
                 (sp_kind spec) false ∅));
  let '(id, t, existing) := r in
  if (existing : bool) then if decide (t = Obs (sp_kind spec) n) then Ret (Some id, None) else Ret (None, None)
  else let@ err := register_all (sp_name spec) id (sp_callbacks spec) None; Ret (Some id, err).

Definition int64_spec (k : observableKind) (name : gostring) (cfg : iconfig) : observableSpec :=
  mkSpec (instrument_key (Obs k Int64) name) name (ic_Description cfg) (ic_Unit cfg) k (int64Callbacks (ic_Callbacks cfg)).
Definition float64_spec (k : observableKind) (name : gostring) (cfg : iconfig) : observableSpec :=
  mkSpec (instrument_key (Obs k Float64) name) name (ic_Description cfg) (ic_Unit cfg) k (float64Callbacks (ic_Callbacks cfg)).

Definition Int64ObservableCounter m name cfg := observableFor Int64 m (int64_spec observableCounter name cfg).
Definition Float64ObservableCounter m name cfg := observableFor Float64 m (float64_spec observableCounter name cfg).
Definition Int64ObservableUpDownCounter m name cfg := observableFor Int64 m (int64_spec observableUpDownCounter name cfg).
Definition Float64ObservableUpDownCounter m name cfg := observableFor Float64 m (float64_spec observableUpDownCounter name cfg).
Definition Int64ObservableGauge m name cfg := observableFor Int64 m (int64_spec observableGauge name cfg).
Definition Float64ObservableGauge m name cfg := observableFor Float64 m (float64_spec observableGauge name cfg).

(** The method of a type. *)
Definition create (t : itype) (m : nat) (name : gostring) (cfg : iconfig) : prog action (option nat * option error) :=
  match t with
  | Sync KCounter Int64 => Int64Counter m name cfg
  | Sync KCounter Float64 => Float64Counter m name cfg
  | Sync KUpDownCounter Int64 => Int64UpDownCounter m name cfg
  | Sync KUpDownCounter Float64 => Float64UpDownCounter m name cfg
  | Sync KHistogram Int64 => Int64Histogram m name cfg
  | Sync KHistogram Float64 => Float64Histogram m name cfg
  | Sync KGauge Int64 => Int64Gauge m name cfg
  | Sync KGauge Float64 => Float64Gauge m name cfg
  | Obs observableCounter Int64 => Int64ObservableCounter m name cfg
  | Obs observableCounter Float64 => Float64ObservableCounter m name cfg
  | Obs observableUpDownCounter Int64 => Int64ObservableUpDownCounter m name cfg
  | Obs observableUpDownCounter Float64 => Float64ObservableUpDownCounter m name cfg
  | Obs observableGauge Int64 => Int64ObservableGauge m name cfg
  | Obs observableGauge Float64 => Float64ObservableGauge m name cfg
  end.

(** ** The provider (meter_provider.go) *)
Definition Meter_ (name : gostring) : prog action nat := let! m := GetMeter name; Ret m.

Definition joinErrors (collectErr pipelineErr : option error) : option error :=
  match collectErr with None => pipelineErr | Some _ => errors_join [collectErr; pipelineErr] end.

Definition Shutdown_ (ctx : Context_) : prog action (option error) :=
  let! first_ := OnceEnter;
  if first_ then
    let@ e1 := shutdown_ ctx;
    let! e2 := ClientShutdown ctx;
    run! OnceLeave;
    Ret (joinErrors e1 e2)
  else Ret None.

Definition ForceFlush (ctx : Context_) : prog action (option error) :=
  let@ e1 := collect ctx;
  let! e2 := ClientFlush ctx;
  Ret (joinErrors e1 e2).

(** ** Calls by any number of goroutines *)
Inductive call_ :=
| CallCreate (meter : gostring) (t : itype) (name : gostring) (cfg : iconfig)
| CallRecord (meter : gostring) (k : skind) (n : number) (name : gostring) (cfg : iconfig) (ctx : Context_) (v : num) (attrs : list KeyValue)
| CallRegister (meter : gostring) (f : option nat) (insts : list target)
| CallUnregister (r : registration)
| CallForceFlush (ctx : Context_)
| CallShutdown (ctx : Context_)
| RunLoop (fuel : nat)
| CallObserve (sc : nat) (ctx : Context_) (inst : nat) (v : num) (attrs : list KeyValue).

Inductive answer_ :=
| GotInstrument (r : option nat) (err : option error)
| GotRegistration (r : option registration) (err : option error)
| GotError (err : option error)
| GotNothing
| LoopEnded (b : bool).

Definition goroutine (c : call_) : prog action answer_ :=
  match c with
  | CallCreate meter t name cfg =>
      let@ m := Meter_ meter;
      let@ r := create t m name cfg;
      Ret (GotInstrument r.1 r.2)
  | CallRecord meter k n name cfg ctx v attrs =>
      let@ m := Meter_ meter;
      let@ r := create (Sync k n) m name cfg;
      match r.1 with
      | None => Ret (GotInstrument None None)
      | Some _ => run@ sync_record k name ctx v attrs; Ret GotNothing
      end
  | CallRegister meter f insts =>
      let@ m := Meter_ meter;
      let@ r := RegisterCallback m meter f insts;
      Ret (GotRegistration r.1 r.2)
  | CallUnregister r => let@ e := Unregister r; Ret (GotError e)
  | CallForceFlush ctx => let@ e := ForceFlush ctx; Ret (GotError e)
  | CallShutdown ctx => let@ e := Shutdown_ ctx; Ret (GotError e)
  | RunLoop fuel => let@ b := loop_goroutine fuel; Ret (LoopEnded b)
  | CallObserve sc ctx inst v attrs => run@ scope_observe sc ctx inst (float_of v) attrs; Ret GotNothing
  end.

End bridge.

(** ** Construction (meter_provider.go)

    The resource of the OpenTelemetry SDK is a parameter, as is what fmt prints for a
    duration; the arguments of stats.NewClient besides its options are those of Client.v. *)
Section provider.
Context `{Pipelines}.
Context (resource : Type) (Empty : resource) (Merge : resource → resource → resource + error).
Context (resource_Attributes : resource → list KeyValue) (SchemaURL : resource → gostring) (duration_text : Z → gostring).
Context (Getenv : gostring → gostring) (b : Build) (new_pipeline : Config → pstate + error) (start : pstate → pstate + error).
Context (stop_collector : RuntimeMetricsConfig → nat → list (option error)) (now : Z).

Record MeterProvider := mkMeterProvider { mp_resource : resource; clientOptions : list Option; collectionInterval : Z }.

Definition MeterProviderOption := MeterProvider → MeterProvider + error.

Definition defaultCollectionInterval : Z := 10 * Second.

Definition WithCollectionInterval (interval_ : Z) : MeterProviderOption :=
  λ mp, if interval_ <=? 0 then inr (ErrWrapAfter (ErrIs ErrCollectionInterval) (duration_text interval_))
        else inl (mkMeterProvider (mp_resource mp) (clientOptions mp) interval_).

Definition WithResource (res : option resource) : MeterProviderOption :=
  λ mp, match res with
        | None => inr (ErrText (str "meter resource is nil"))
        | Some res =>
            match Merge (mp_resource mp) res with
            | inr err => inr (ErrWrap (str "merge meter resource") err)
            | inl merged => inl (mkMeterProvider merged (clientOptions mp) (collectionInterval mp))
            end
        end.

Definition WithStatsOptions (opts : list Option) : MeterProviderOption :=
  λ mp, inl (mkMeterProvider (mp_resource mp) (clientOptions mp ++ opts) (collectionInterval mp)).

Fixpoint apply_provider_options (opts : list MeterProviderOption) (mp : MeterProvider) : MeterProvider + error :=
  match opts with
  | [] => inl mp
  | opt :: opts' => match opt mp with inr err => inr err | inl mp => apply_provider_options opts' mp end
  end.

(** The options replaceClient creates the client with. *)
Definition client_options (mp : MeterProvider) : list Option :=
  clientOptions mp ++ [WithOTLPResourceAttributes (resource_Attributes (mp_resource mp))]
  ++ (if gostring_eqb (SchemaURL (mp_resource mp)) [] then [] else [WithOTLPResourceSchemaURL (SchemaURL (mp_resource mp))]).

Definition replaceClient (mp : MeterProvider) : client_start + error :=
  match NewClient Getenv b new_pipeline start stop_collector (client_options mp) now with
  | inr err => inr (ErrWrap (str "create stats client") err)
  | inl client => inl client
  end.

Definition Disabled (c : client_start) : bool := match c with Disabled_ _ => true | Running _ _ => false end.

Definition NewMeterProvider (opts : list MeterProviderOption) : (client_start * state_) + error :=
  match apply_provider_options opts (mkMeterProvider Empty [WithOTelMode] defaultCollectionInterval) with
  | inr err => inr err
  | inl mp =>
      match replaceClient mp with
      | inr err => inr err
      | inl client => inl (client, new_provider (collectionInterval mp) (Disabled client))
      end
  end.

Definition NewMeterProviderFromEnv (opts : list MeterProviderOption) : (client_start * state_) + error :=
  NewMeterProvider (WithStatsOptions [WithOTLPFromEnv] :: opts).

End provider.

(** ** Clocks (clock.go)

    [record] is the histogram's method on a state of its own; an option is the list of
    attributes it adds. *)
Section clock.
Context `{Attributes} {St : Type}.
Context (record : Context_ → float64 → list (list KeyValue) → St → St).

Record OTelClock := mkOTelClock { oc_first : Z; oc_last : Z; oc_opts : list (list KeyValue) }.

Definition OTel_NewClockAt (start : Z) (opts : list (list KeyValue)) : OTelClock := mkOTelClock start start opts.

Definition OTel_observe (c : OTelClock) (ctx : Context_) (stamp : gostring) (d : Z) (s : St) : St :=
  record ctx (Seconds d) (oc_opts c ++ [[String_kv StampTag stamp]]) s.

Definition OTel_StampAt (c : OTelClock) (ctx : Context_) (name : gostring) (now : Z) (s : St) : OTelClock * St :=
  let d := Sub now (oc_last c) in
  let c := mkOTelClock (oc_first c) now (oc_opts c) in
  (c, OTel_observe c ctx name d s).

Definition OTel_StopAt (c : OTelClock) (ctx : Context_) (now : Z) (s : St) : St :=
  OTel_observe c ctx StampTotal (Sub now (oc_first c)) s.

(** With the time read from the wall clock. *)
Definition OTel_NewClock (now : Z) opts : OTelClock := OTel_NewClockAt now opts.
Definition OTel_Stamp c ctx name (now : Z) s := OTel_StampAt c ctx name now s.
Definition OTel_Stop c ctx (now : Z) s := OTel_StopAt c ctx now s.
End clock.
