(* ===== verification/BridgeCorrect.v ===== *)
(** * Correctness of the OpenTelemetry bridge

    [instrument_types]: a meter's methods return an instrument of the type and name asked
    for, the same one every time, and their assertions of types never panic.
    [observable_totals]: the increments of an observable counter that the client accepted
    add up to the total observed last.  [collections_serial]: collections come one after the
    other and each calls every callback registered at its beginning once.  [disabled_silent]: a
    disabled provider registers no callback and does not call the client.

    Each is a protocol of the goroutines (Typestate.v): what a goroutine knows of meters and
    instruments, which counter it has locked, which callbacks it has yet to call. *)

From S2P Require Import Prelude GoLib Strconv Atomic Typestate Attribute Metric Options Client Bridge.
#[local] Open Scope prog_scope.

(** ** Attributes

    Attributes with string values reach the metric as they are. *)
Lemma convert_strings `{AttributesLaws} (kvs : list (gostring * gostring)) m :
  Attributes_ (apply_options (convertAttributes ((λ kv, String_kv kv.1 kv.2) <$> kvs)) m)
  = Attributes_ m ++ ((λ kv, String_kv kv.1 kv.2) <$> kvs).
Proof.
  revert m. induction kvs as [|[k v] kvs IH]; intros m; csimpl; [by rewrite app_nil_r|].
  unfold apply_options in *. simpl. rewrite IH. simpl. by rewrite as_string_value, <-app_assoc.
Qed.

(** ** Keys of instruments *)
Lemma app_heads {A} (a b x y : list A) : a ++ x = b ++ y → take (length b) a = take (length a) b.
Proof.
  revert b. induction a as [|u a IH]; intros [|v b] Heq; simpl in *; try done.
  injection Heq as -> Heq. f_equal. by apply IH.
Qed.

Lemma key_prefix_free t t' : take (length (key_prefix t')) (key_prefix t) = take (length (key_prefix t)) (key_prefix t') → t = t'.
Proof. destruct t as [[][]|[][]], t' as [[][]|[][]]; vm_compute; congruence. Qed.

Lemma instrument_key_inj t t' name name' : instrument_key t name = instrument_key t' name' → t = t' ∧ name = name'.
Proof.
  unfold instrument_key. intros Heq. pose proof (app_heads _ _ _ _ Heq) as ->%key_prefix_free.
  by apply app_inv_head in Heq.
Qed.

(** The outcomes of an action: [Hin : (b, s') ∈ handler e s] for a known [e]. *)
Ltac action_cases Hin :=
  simpl in Hin; unfold ctx_outcomes in Hin;
  repeat match type of Hin with context [match ?x with _ => _ end] => destruct x eqn:? end;
  rewrite ?elem_of_app in Hin; set_unfold;
  repeat match goal with
    | H : _ ∨ _ |- _ => destruct H
    | H : (_, _) = (_, _) |- _ => injection H as ??; subst
    | H : ∃ _, (_, _) = _ ∧ _ |- _ => destruct H as (? & ? & ?)
    end.

Section bridge.
#[local] Set Default Proof Using "Type*".
Context `{Attributes}.
(** ** Types *)

(** What a goroutine knows: a meter of a name, an instrument of a meter. *)
Inductive known := KNothing | KMeter (name : gostring) (m : nat) | KInstrument (meter : gostring) (t : itype) (name : gostring) (id : nat).

Definition tpre (B : Type) (e : action B) (g : known) : Prop :=
  match e with
  | GetInstrument m key new =>
      key = instrument_key (type_of new) (getName new) ∧ meter_of new = m ∧ ∃ name, g = KMeter name m
  | _ => True
  end.
Definition tadm (B : Type) (e : action B) : B → Prop :=
  match e in action B return B → Prop with
  | GetInstrument _ _ new => λ r, r.1.2 = type_of new
  | _ => λ _, True
  end.
Definition tnext (B : Type) (e : action B) : B → known → known :=
  match e in action B return B → known → known with
  | GetMeter name => λ m _, KMeter name m
  | GetInstrument _ _ new => λ r g,
      match g with KMeter meter _ => KInstrument meter (type_of new) (getName new) r.1.1 | _ => g end
  | _ => λ _ g, g
  end.

Notation tfollows := (follows tpre tadm tnext).

Definition meter_key (s : state_) (m : nat) (key : gostring) : option nat :=
  mt ← meter_heap s !! m; m_instruments mt !! key.

Definition holds_in (s : state_) (g : known) : Prop :=
  match g with
  | KNothing => True
  | KMeter name m => meters s !! name = Some m
  | KInstrument meter t name id =>
      ∃ m i, meters s !! meter = Some m ∧ meter_key s m (instrument_key t name) = Some id ∧
        instruments s !! id = Some i ∧ type_of i = t ∧ getName i = name ∧ meter_of i = m
  end.

(** The tables of meters and instruments are consistent. *)
Definition tables (s : state_) : Prop :=
  (∀ name m, meters s !! name = Some m → m_name <$> meter_heap s !! m = Some name) ∧
  (∀ m key id, meter_key s m key = Some id →
     ∃ i, instruments s !! id = Some i ∧ key = instrument_key (type_of i) (getName i) ∧ meter_of i = m).

(** Nothing of the tables is lost. *)
Definition grows (s s' : state_) : Prop :=
  (∀ name m, meters s !! name = Some m → meters s' !! name = Some m) ∧
  (∀ m key id, meter_key s m key = Some id → meter_key s' m key = Some id) ∧
  (∀ id i, instruments s !! id = Some i → ∃ i', instruments s' !! id = Some i' ∧
     type_of i' = type_of i ∧ getName i' = getName i ∧ meter_of i' = meter_of i).

Lemma grows_holds s s' g : grows s s' → holds_in s g → holds_in s' g.
Proof.
  intros (Hm & Hk & Hi). destruct g as [|name m|meter t name id]; simpl; [done|auto|].
  intros (m & i & ? & ? & Hid & <- & <- & <-). destruct (Hi id i Hid) as (i' & ? & ? & ? & ?).
  exists (meter_of i), i'. eauto 10.
Qed.

(** A state with the same meters, and instruments of the same types. *)
Lemma grows_same s s' :
  meters s' = meters s → meter_heap s' = meter_heap s →
  (λ i, (type_of i, getName i, meter_of i)) <$> instruments s' = (λ i, (type_of i, getName i, meter_of i)) <$> instruments s →
  tables s → tables s' ∧ grows s s'.
Proof.
  intros Hm Hh Hi [T1 T2]. unfold tables, grows, meter_key. rewrite Hm, Hh.
  assert (Hl : ∀ id i, instruments s !! id = Some i → ∃ i', instruments s' !! id = Some i' ∧
     type_of i' = type_of i ∧ getName i' = getName i ∧ meter_of i' = meter_of i).
  { intros id i Hid. assert (Hx := f_equal (.!! id) Hi). simpl in Hx. rewrite !list_lookup_fmap, Hid in Hx.
    destruct (instruments s' !! id) as [i'|]; [|done]. simpl in Hx. injection Hx as ???. eauto. }
  split_and!; try done. intros m key id Hk. destruct (T2 m key id Hk) as (i & Hid & -> & Hmi).
  destruct (Hl id i Hid) as (i' & ? & <- & <- & Hmi'). exists i'. split_and!; [done..|congruence].
Qed.

Lemma put_same s o n ob ob' :
  get_observable s o = Some (n, ob) → o_kind ob' = o_kind ob → o_name ob' = o_name ob → o_meter ob' = o_meter ob →
  tables s → tables (put_observable s o n ob') ∧ grows s (put_observable s o n ob').
Proof.
  unfold get_observable. intros Ho Hk Hn Hm. apply grows_same; [done..|]. simpl.
  destruct (instruments s !! o) as [[|n' ob'']|] eqn:E; simplify_eq. rewrite list_fmap_insert. simpl.
  apply list_insert_id. rewrite list_lookup_fmap, E. simpl. by rewrite Hk, Hn, Hm.
Qed.

Lemma meter_new s name : meters s !! name = None → tables s →
  let s' := set_meters s (<[name := length (meter_heap s)]> (meters s)) (meter_heap s ++ [mkMeter name ∅]) in
  tables s' ∧ grows s s'.
Proof.
  intros Hn [T1 T2] s'.
  assert (Hk : ∀ m key, meter_key s' m key = meter_key s m key).
  { intros m key. unfold meter_key. simpl. destruct (Nat.lt_ge_cases m (length (meter_heap s))).
    - by rewrite lookup_app_l.
    - rewrite lookup_app_r, (lookup_ge_None_2 (meter_heap s)) by lia.
      by destruct (m - length (meter_heap s))%nat. }
  split; [split|split_and!].
  - intros name' m. simpl. destruct (decide (name = name')) as [<-|Hne].
    + rewrite lookup_insert_eq. intros [= <-]. rewrite lookup_app_r, Nat.sub_diag by lia. done.
    + rewrite lookup_insert_ne by done. intros Hm. pose proof (T1 _ _ Hm) as Hx.
      destruct (meter_heap s !! m) as [mt|] eqn:E; [|done]. by rewrite (lookup_app_l_Some _ _ _ _ E).
  - intros m key id. rewrite Hk. apply T2.
  - intros name' m Hm. simpl. rewrite lookup_insert_ne; [done|]. congruence.
  - intros m key id. by rewrite Hk.
  - simpl. eauto.
Qed.

Lemma meter_key_set s m mt key id m' key' h :
  meter_heap s !! m = Some mt →
  h = <[m := mkMeter (m_name mt) (<[key := id]> (m_instruments mt))]> (meter_heap s) →
  (mt ← h !! m'; m_instruments mt !! key') = if decide (m' = m ∧ key' = key) then Some id else meter_key s m' key'.
Proof.
  intros Hm ->. unfold meter_key. assert (m < length (meter_heap s))%nat by (by eapply lookup_lt_Some).
  destruct (decide (m' = m)) as [->|Hne].
  - rewrite list_lookup_insert_eq by done. simpl. rewrite Hm. simpl. destruct (decide (key' = key)) as [->|Hne].
    + rewrite lookup_insert_eq. by rewrite decide_True.
    + rewrite lookup_insert_ne by done. rewrite decide_False by tauto. done.
  - rewrite list_lookup_insert_ne by done. rewrite decide_False by tauto. done.
Qed.

Lemma instrument_new s m mt key new :
  meter_heap s !! m = Some mt → m_instruments mt !! key = None →
  key = instrument_key (type_of new) (getName new) → meter_of new = m → tables s →
  let id := length (instruments s) in
  let s' := set_instruments
      (set_meters s (meters s) (<[m := mkMeter (m_name mt) (<[key := id]> (m_instruments mt))]> (meter_heap s)))
      (instruments s ++ [new]) in
  tables s' ∧ grows s s' ∧ meter_key s' m key = Some id ∧ instruments s' !! id = Some new.
Proof.
  intros Hm Hk Hkey Hof [T1 T2] id s'.
  assert (Hks : ∀ m' key', meter_key s' m' key' = if decide (m' = m ∧ key' = key) then Some id else meter_key s m' key').
  { intros m' key'. by apply (meter_key_set s m mt). }
  assert (Hnew : instruments s' !! id = Some new) by (simpl; by rewrite lookup_app_r, Nat.sub_diag).
  assert (Hold : ∀ id' i, instruments s !! id' = Some i → instruments s' !! id' = Some i)
    by (intros id' i Hi; simpl; by apply lookup_app_l_Some).
  split_and!; [split|split_and!| |done].
  - intros name m' Hn. simpl. pose proof (T1 _ _ Hn) as Hx. destruct (decide (m' = m)) as [->|Hne].
    + rewrite list_lookup_insert_eq by (by eapply lookup_lt_Some). rewrite Hm in Hx. done.
    + by rewrite list_lookup_insert_ne.
  - intros m' key' id'. rewrite Hks. case_decide as Hd.
    + destruct Hd as [-> ->]. intros [= <-]. eauto.
    + intros Hmk. destruct (T2 _ _ _ Hmk) as (i & ? & ? & ?). eauto.
  - done.
  - intros m' key' id' Hmk. rewrite Hks. rewrite decide_False; [done|]. intros [-> ->].
    unfold meter_key in Hmk. rewrite Hm in Hmk. simpl in Hmk. congruence.
  - eauto 6.
  - rewrite Hks. by rewrite decide_True.
Qed.

#[local] Set Default Proof Using "All".
Context (quote : gostring → gostring) (behaviours : nat → list behaviour) (client_errors : list error).

Notation hd := (handler behaviours client_errors).
Definition no_env (s s' : state_) : Prop := False.
Notation reach cs i d := (gsteps (@handler _ behaviours client_errors) no_env (goroutine quote <$> cs, new_provider i d)).

(** Every action keeps the tables and adds to what its goroutine knows. *)
Lemma tables_step B (e : action B) g s b s' :
  tpre B e g → tables s → holds_in s g → (b, s') ∈ hd B e s →
  tadm B e b ∧ tables s' ∧ grows s s' ∧ holds_in s' (tnext B e b g).
Proof.
  intros Hpre HT Hg Hin.
  assert (Hsame : meters s' = meters s → meter_heap s' = meter_heap s → instruments s' = instruments s →
      tnext B e b g = g → tadm B e b → tadm B e b ∧ tables s' ∧ grows s s' ∧ holds_in s' (tnext B e b g)).
  { intros H1 H2 H3 -> Ha. destruct (grows_same s s') as [? Hgr]; [done..|by rewrite H3|done|].
    split_and!; try done. by eapply grows_holds. }
  assert (Hput : ∀ o n ob mu tot, get_observable s o = Some (n, ob) → s' = put_observable s o n (with_totals ob mu tot) →
      tnext B e b g = g → tadm B e b → tadm B e b ∧ tables s' ∧ grows s s' ∧ holds_in s' (tnext B e b g)).
  { intros o n ob mu tot Ho -> -> Ha. destruct (put_same s o n ob (with_totals ob mu tot)) as [? Hgr]; [done..|].
    split_and!; try done. by eapply grows_holds. }
  destruct e; action_cases Hin; try done; try (by apply Hsame); try (by eapply Hput).
  - split_and!; try done. by destruct (grows_same s s).
  - destruct (meter_new s name) as [? ?]; [done..|]. split_and!; try done. simpl. by rewrite lookup_insert_eq.
  - destruct Hpre as (Hkey & Hof & meter & ->). simpl in Hg. subst key.
    destruct (id HT) as [T1 T2].
    assert (Hk : meter_key s m (instrument_key (type_of new) (getName new)) = Some n)
      by (unfold meter_key; by rewrite Heqo).
    destruct (T2 _ _ _ Hk) as (i' & Hi & [Ht Hn]%instrument_key_inj & Hm). simplify_eq.
    destruct (grows_same s s) as [? ?]; [done..|]. simpl. split_and!; try done. eauto 10.
  - destruct Hpre as (Hkey & Hof & meter & ->). simpl in Hg.
    destruct (instrument_new s m m0 key new) as (? & ? & ? & ?); [done..|].
    split_and!; try done. subst key m. simpl. eauto 10.
Qed.
(** ** Programs that come back to the stage they started from

    The same for each of the protocols below: [g] is the stage, [okv] what is required of
    an observed value. *)
Section stays.
Context {G : Type} (pre : ∀ B, action B → G → Prop) (adm : ∀ B, action B → B → Prop) (next : ∀ B, action B → B → G → G).
Context (okv : float64 → Prop) (g : G).

Definition stays {A} (p : prog action A) : Prop := follows pre adm next p g (λ _ g', g' = g).

(** Actions that none of the protocols restricts. *)
Definition basic {B} (e : action B) : Prop :=
  match e with
  | GetMeter _ | GetInstrument _ _ _ | LockTotals _ | UnlockTotals _ | LoadTotal _ _ | StoreTotal _ _ _
  | ClientRecord _ _ _ _ _ (Some _) | LockCollect | UnlockCollect | Snapshot | CtxErr _ | CallBack _ _ => False
  | _ => True
  end.

Context (Hbasic : ∀ B (e : action B), basic e → pre B e g ∧ ∀ b, next B e b g = g).

Lemma stays_ret {A} (a : A) : stays (Ret a).
Proof. done. Qed.

Lemma stays_act {A B} (e : action B) (k : B → prog action A) : basic e → (∀ b, stays (k b)) → stays (Act e k).
Proof. intros He Hk. destruct (Hbasic B e He) as [Hp Hn]. split; [done|]. intros b _. rewrite Hn. apply Hk. Qed.

Lemma stays_bind {A C} (p : prog action A) (f : A → prog action C) : stays p → (∀ a, stays (f a)) → stays (bind p f).
Proof. intros Hp Hf. apply typestate_bind. eapply follows_mono; [exact Hp|]. intros a g' ->. apply Hf. Qed.

Ltac stays_step :=
  first [ apply stays_ret | apply stays_bind; [|intros ?] | apply stays_act; [done|intros ?] | case_match | case_decide ].

Lemma scope_fail_stays sc err : stays (scope_fail sc err).
Proof. unfold scope_fail. repeat stays_step. Qed.

Lemma finish_stays sc err : stays (finish sc err).
Proof. unfold finish. repeat stays_step. Qed.

Lemma sync_record_stays k name ctx v attrs : stays (sync_record k name ctx v attrs).
Proof. destruct k, v; simpl; repeat stays_step. Qed.

Lemma check_instruments_stays m name insts err allowed : stays (check_instruments quote m name insts err allowed).
Proof.
  revert err allowed. induction insts as [|[id|n o|t] insts IH]; intros err allowed; simpl; [done|..|done].
  - apply stays_act; [done|]. intros [[ob owner]|]; [case_decide; apply IH|done].
  - apply IH.
Qed.

Lemma registerCallback_stays m name f insts : stays (registerCallback quote m name f insts).
Proof.
  unfold registerCallback, register. destruct f; [|done]. apply stays_bind; [apply check_instruments_stays|].
  intros ?. repeat stays_step.
Qed.

Lemma register_all_stays name inst cbs err : stays (register_all quote name inst cbs err).
Proof.
  revert err. induction cbs as [|[cb|] cbs IH]; intros err; simpl; [done|..|apply IH].
  apply stays_act; [done|]. intros ?. apply IH.
Qed.

(** Observations, when those of counters come back to the stage. *)
Section observe.
Context (Hrec : ∀ o ob ctx v attrs, okv v → o_kind ob = observableCounter → stays (record_ quote o ob ctx v attrs)).

Lemma record_stays o ob ctx v attrs : okv v → stays (record_ quote o ob ctx v attrs).
Proof. intros Hv. destruct (o_kind ob) eqn:E; [by apply Hrec|..]; unfold record_; rewrite E; repeat stays_step. Qed.

Lemma scope_observe_stays sc ctx inst v attrs : okv v → stays (scope_observe quote sc ctx inst v attrs).
Proof.
  intros Hv. unfold scope_observe. apply stays_act; [done|]. intros [[ob owner]|]; [|done].
  apply stays_bind; [by apply record_stays|]. intros ?. apply scope_fail_stays.
Qed.

Lemma instrument_observe_stays sc ctx inst ob : okv (float_of (ob_value ob)) → stays (instrument_observe quote sc ctx inst ob).
Proof. unfold instrument_observe. destruct (ob_value ob); apply scope_observe_stays. Qed.

Lemma meter_observe_stays allowed sc ctx ob : okv (float_of (ob_value ob)) → stays (meter_observe quote allowed sc ctx ob).
Proof.
  unfold meter_observe, ObserveInt64, ObserveFloat64. assert (Hm : ∀ t v attrs, okv v → stays (multi_observe quote allowed sc ctx t v attrs)).
  { intros [id|n o|t] v attrs Hv; unfold multi_observe; [|apply scope_fail_stays..]. case_match; [by apply scope_observe_stays|].
    apply stays_act; [done|]. intros [[ob' owner]|]; [apply scope_fail_stays|done]. }
  destruct (ob_value ob); apply Hm.
Qed.

Lemma each_stays {X} (f : X → prog action unit) (P : X → Prop) l : (∀ x, P x → stays (f x)) → Forall P l → stays (each f l).
Proof. intros Hf. induction 1 as [|x l Hx _ IH]; simpl; [done|]. apply stays_bind; [by apply Hf|]. by intros []. Qed.

(** What follows the call of a callback. *)
Lemma observations_stay c ctx sc b :
  Forall (λ ob, okv (float_of (ob_value ob))) (bh_observations b) →
  stays (match rc_run c with
         | InstrumentCallback cb inst => run@ each (instrument_observe quote sc ctx inst) (bh_observations b); finish sc (bh_error b)
         | MeterCallback f allowed => run@ each (meter_observe quote allowed sc ctx) (bh_observations b); finish sc (bh_error b)
         end).
Proof.
  intros Hb. destruct (rc_run c); (apply stays_bind; [|intros ?; apply finish_stays]); (eapply each_stays; [|exact Hb]); simpl; intros ob Hob.
  - by apply instrument_observe_stays.
  - by apply meter_observe_stays.
Qed.

(** Collections, when their own actions leave the stage as it is. *)
Context (Hcb : ∀ id f, pre _ (CallBack id f) g ∧ ∀ b, adm _ (CallBack id f) b →
  next _ (CallBack id f) b g = g ∧ Forall (λ ob, okv (float_of (ob_value ob))) (bh_observations b)).
Context (Hlock : pre _ LockCollect g ∧ ∀ b, next _ LockCollect b g = g).
Context (Hunlock : pre _ UnlockCollect g ∧ ∀ b, next _ UnlockCollect b g = g).
Context (Hsnap : pre _ Snapshot g ∧ ∀ b, next _ Snapshot b g = g).
Context (Hctx : ∀ c, pre _ (CtxErr c) g ∧ ∀ b, next _ (CtxErr c) b g = g).

Lemma run_callback_stays c ctx : stays (run_callback quote c ctx).
Proof.
  unfold run_callback. apply stays_act; [done|]. intros sc. pose proof (observations_stay c ctx sc) as Hobs.
  destruct (rc_run c) as [cb inst|f allowed].
  - destruct (Hcb (rc_id c) (cb_fun cb)) as [Hp Hn]. split; [done|]. intros b Hb. destruct (Hn b Hb) as [-> Hf]. by apply Hobs.
  - destruct (Hcb (rc_id c) f) as [Hp Hn]. split; [done|]. intros b Hb. destruct (Hn b Hb) as [-> Hf]. by apply Hobs.
Qed.

Lemma run_callbacks_stays cs ctx : stays (run_callbacks quote cs ctx).
Proof.
  induction cs as [|c cs IH]; cbn [run_callbacks]; [done|].
  apply stays_bind; [apply run_callback_stays|]. intros ?. apply stays_bind; [done|done].
Qed.

Lemma invoke_stays ctx : stays (invoke quote ctx).
Proof.
  unfold invoke. split; [apply Hlock|]. intros b _. rewrite (proj2 Hlock). split; [apply Hsnap|]. intros cs _.
  rewrite (proj2 Hsnap). apply stays_bind.
  - destruct cs; [done|]. destruct (Hctx (ctx_id ctx)) as [Hp Hn]. split; [done|]. intros b' _. rewrite Hn.
    destruct b'; [done|]. apply stays_bind; [apply run_callbacks_stays|done].
  - intros err. split; [apply Hunlock|]. intros ? _. by rewrite (proj2 Hunlock).
Qed.
End observe.

(** The rest of the provider, when collections come back to the stage. *)
Section collections.
Context (Hinvoke : ∀ ctx, stays (invoke quote ctx)).

Lemma collect_stays ctx : stays (collect quote ctx).
Proof. unfold collect. apply stays_act; [done|]. intros []; [done|]. apply Hinvoke. Qed.

Lemma shutdown_stays ctx : stays (shutdown_ quote ctx).
Proof.
  unfold shutdown_. apply stays_act; [done|]. intros [[]|]; [|apply Hinvoke|done].
  apply stays_act; [done|]. intros _. apply stays_act; [done|]. intros [e|]; [done|apply Hinvoke].
Qed.

Lemma loop_stays fuel : stays (loop quote fuel).
Proof.
  induction fuel as [|fuel IH]; cbn [loop]; [done|]. apply stays_act; [done|]. intros []; [repeat stays_step|].
  apply stays_act; [done|]. intros c. apply stays_bind; [apply collect_stays|]. intros [e|]; [|done].
  apply stays_act; [done|]. by intros _.
Qed.

(** The calls that do not name a meter. *)
Definition meterless (c : call_) : Prop :=
  match c with
  | CallCreate _ _ _ _ | CallRecord _ _ _ _ _ _ _ _ | CallRegister _ _ _ => False
  | CallObserve _ _ _ v _ => okv (float_of v)
  | _ => True
  end.

Context (Hrec : ∀ o ob ctx v attrs, okv v → o_kind ob = observableCounter → stays (record_ quote o ob ctx v attrs)).

Lemma meterless_follows c (Q : answer_ → G → Prop) :
  meterless c → (∀ a, (∀ r err, a ≠ GotInstrument r err) → Q a g) → follows pre adm next (goroutine quote c) g Q.
Proof.
  intros Hc HQ.
  assert (Hs : ∀ X (p : prog action X) (f : X → answer_), stays p → (∀ x r err, f x ≠ GotInstrument r err) →
      follows pre adm next (bind p (λ x, Ret (f x))) g Q).
  { intros X p f Hp Hf. apply typestate_bind. eapply follows_mono; [exact Hp|]. intros x g' ->. by apply HQ. }
  destruct c as [| | |r|ctx|ctx|fuel|sc ctx inst v attrs]; cbn [meterless goroutine] in *; try done; (apply Hs; [|done]).
  - destruct r as [|[id|]]; unfold Unregister; repeat stays_step.
  - unfold ForceFlush. apply stays_bind; [apply collect_stays|]. intros ?. repeat stays_step.
  - unfold Shutdown_. apply stays_act; [done|]. intros []; [|done].
    apply stays_bind; [apply shutdown_stays|]. intros ?. repeat stays_step.
  - apply stays_act; [done|]. intros _. apply loop_stays.
  - by apply scope_observe_stays.
Qed.

Lemma meterless_stays c : meterless c → stays (goroutine quote c).
Proof. intros Hc. by apply meterless_follows. Qed.

(** The others, when meters and new instruments leave the stage as it is. *)
Context (Hmeter : ∀ name, pre _ (GetMeter name) g ∧ ∀ b, next _ (GetMeter name) b g = g).
Context (Hsync : ∀ m key k n name d u, let e := GetInstrument m key (SyncInstrument k n m name d u) in pre _ e g ∧ ∀ b, next _ e b g = g).
Context (Hobs : ∀ m key n name md k, let e := GetInstrument m key (ObsInstrument n (mkObservable m name md k false ∅)) in pre _ e g ∧ ∀ b, next _ e b g = g).

Lemma create_stays t m name cfg : stays (create quote t m name cfg).
Proof.
  assert (Hs : ∀ k n, stays (sync_instrument k n m name cfg)).
  { intros k n. unfold sync_instrument. destruct (Hsync m (instrument_key (Sync k n) name) k n name (ic_Description cfg) (ic_Unit cfg)) as [Hp Hn].
    split; [done|]. intros b _. rewrite Hn. destruct b as [[id t'] []]; [case_decide|]; done. }
  assert (Ho : ∀ n spec, stays (observableFor quote n m spec)).
  { intros n spec. unfold observableFor. edestruct Hobs as [Hp Hn]. split; [exact Hp|]. intros b _. rewrite Hn.
    destruct b as [[id t'] []]; [case_decide; done|]. apply stays_bind; [apply register_all_stays|done]. }
  destruct t as [[][]|[][]]; first [apply Hs | apply Ho].
Qed.

Lemma goroutine_stays c : (∀ sc ctx inst v attrs, c = CallObserve sc ctx inst v attrs → okv (float_of v)) → stays (goroutine quote c).
Proof.
  intros Hc.
  assert (Hm : ∀ A name (k : nat → prog action A), (∀ m, stays (k m)) → stays (bind (Meter_ name) k)).
  { intros A name k Hk. destruct (Hmeter name) as [Hp Hn]. split; [done|]. intros b _. rewrite Hn. apply Hk. }
  destruct c; try (apply meterless_stays; simpl; by eauto).
  - apply Hm. intros m. apply stays_bind; [apply create_stays|done].
  - apply Hm. intros m. apply stays_bind; [apply create_stays|]. intros [[id|] ?]; [|done]. simpl.
    apply stays_bind; [apply sync_record_stays|done].
  - apply Hm. intros m. apply stays_bind; [apply registerCallback_stays|done].
Qed.
End collections.
End stays.

(** ** The theorem about types *)
Definition answer_known (c : call_) (a : answer_) (g : known) : Prop :=
  match a with
  | GotInstrument None _ => False
  | GotInstrument (Some id) _ =>
      match c with CallCreate meter t name _ => g = KInstrument meter t name id | _ => False end
  | _ => True
  end.

Lemma tstays_basic g B (e : action B) : basic e → tpre B e g ∧ ∀ b, tnext B e b g = g.
Proof. by destruct e. Qed.

Lemma create_known t m name cfg meter :
  tfollows (create quote t m name cfg) (KMeter meter m)
    (λ r g', ∃ id, r.1 = Some id ∧ g' = KInstrument meter t name id).
Proof.
  assert (Hs : ∀ k n, tfollows (sync_instrument k n m name cfg) (KMeter meter m)
    (λ r g', ∃ id, r.1 = Some id ∧ g' = KInstrument meter (Sync k n) name id)).
  { intros k n. split; [simpl; eauto|]. intros [[id t'] ex] Ht. simpl in *. subst t'.
    destruct ex; [rewrite decide_True by done|]; simpl; eauto. }
  assert (Ho : ∀ n k cbs d u, tfollows (observableFor quote n m (mkSpec (instrument_key (Obs k n) name) name d u k cbs)) (KMeter meter m)
    (λ r g', ∃ id, r.1 = Some id ∧ g' = KInstrument meter (Obs k n) name id)).
  { intros n k cbs d u. split; [simpl; eauto|]. intros [[id t'] ex] Ht. simpl in *. subst t'.
    destruct ex; [rewrite decide_True by done; simpl; eauto|]. apply typestate_bind.
    eapply follows_mono; [by apply (register_all_stays tpre tadm tnext (λ _, True) _ (tstays_basic _))|].
    intros err g' ->. simpl. eauto. }
  destruct t as [[][]|[][]]; first [apply Hs | apply Ho].
Qed.

Lemma trecord_stays g o ob ctx v attrs : True → o_kind ob = observableCounter → stays tpre tadm tnext g (record_ quote o ob ctx v attrs).
Proof.
  intros _ Hk. unfold stays, record_, client_Counter. rewrite Hk. simpl. split; [done|]. intros _ _. split; [done|]. intros total _.
  split; [done|]. intros [e|] _; simpl; naive_solver.
Qed.

Lemma goroutine_known c : tfollows (goroutine quote c) KNothing (answer_known c).
Proof.
  assert (Hm : ∀ name (k : nat → prog action answer_) Q, (∀ m, tfollows (k m) (KMeter name m) Q) → tfollows (bind (Meter_ name) k) KNothing Q).
  { intros name k Q Hk. split; [done|]. intros m _. apply Hk. }
  assert (Hmeterless : meterless (λ _, True) c → tfollows (goroutine quote c) KNothing (answer_known c)).
  { intros Hc. apply (meterless_follows _ _ _ (λ _, True) _ (tstays_basic _)); [|apply trecord_stays|done|].
    - apply (invoke_stays _ _ _ (λ _, True) _ (tstays_basic _)); try done; [apply trecord_stays|].
      intros id f. split; [done|]. intros b _. split; [done|]. by apply Forall_true.
    - intros [] Ha; simpl; try done. by destruct (Ha r err). }
  destruct c as [meter t name cfg|meter k n name cfg ctx v attrs|meter f insts| | | | |]; try (by apply Hmeterless).
  - apply Hm. intros m. apply typestate_bind. eapply follows_mono; [apply create_known|].
    intros [r err] g' (id & Hr & ->). simpl in *. by subst r.
  - apply Hm. intros m. apply typestate_bind. eapply follows_mono; [apply create_known|].
    intros [r err] g' (id & Hr & ->). cbn [fst] in *. subst r. apply typestate_bind.
    eapply follows_mono; [by apply (sync_record_stays _ _ _ (λ _, True) _ (tstays_basic _))|]. done.
  - apply Hm. intros m. apply typestate_bind.
    eapply follows_mono; [by apply (registerCallback_stays _ _ _ (λ _, True) _ (tstays_basic _))|]. done.
Qed.

(** C40. However goroutines use a provider, creating an instrument gives one of the type
    and the name asked for, of the meter asked: no assertion of a type panics, the same
    question has the same answer and different questions have different ones, though the
    keys of a meter's instruments are strings put together from the type and the name. *)
Theorem instrument_types cs interval_ disabled_ ts s :
  reach cs interval_ disabled_ (ts, s) →
  (∀ j c r err, cs !! j = Some c → ts !! j = Some (Ret (GotInstrument r err)) →
     ∃ meter t name cfg id i mt, c = CallCreate meter t name cfg ∧ r = Some id ∧ instruments s !! id = Some i ∧
       type_of i = t ∧ getName i = name ∧ meter_heap s !! meter_of i = Some mt ∧ m_name mt = meter) ∧
  (∀ j j' meter t name cfg id err meter' t' name' cfg' id' err',
     cs !! j = Some (CallCreate meter t name cfg) → ts !! j = Some (Ret (GotInstrument (Some id) err)) →
     cs !! j' = Some (CallCreate meter' t' name' cfg') → ts !! j' = Some (Ret (GotInstrument (Some id') err')) →
     id = id' ↔ (meter, t, name) = (meter', t', name')).
Proof.
  intros Hrun.
  destruct (typestate_reach tpre tadm tnext (@handler _ behaviours client_errors) no_env
    (λ s gs, tables s ∧ ∀ i g, gs !! i = Some g → holds_in s g) answer_known (goroutine quote)
    cs KNothing (new_provider interval_ disabled_) ts s) as (gs & [[T1 T2] Hh] & Hf).
  - intros B e g s1 gs i b s2 Hi Hpre [HT Hh] Hin.
    destruct (tables_step B e g s1 b s2 Hpre HT (Hh i g Hi) Hin) as (Ha & HT' & Hgr & Hn).
    split_and!; try done. intros i' g'. destruct (decide (i' = i)) as [->|Hne].
    + rewrite list_lookup_insert_eq by (by eapply lookup_lt_Some). by intros [= <-].
    + rewrite list_lookup_insert_ne by done. intros Hg'. eapply grows_holds; eauto.
  - done.
  - intros c _. apply goroutine_known.
  - split; [split|].
    + intros name m. simpl. by rewrite lookup_empty.
    + intros m key id. unfold meter_key. simpl. by rewrite lookup_nil.
    + intros i g [-> _]%lookup_replicate. done.
  - done.
  - assert (Hres : ∀ j c r err, cs !! j = Some c → ts !! j = Some (Ret (GotInstrument r err)) →
      ∃ meter t name cfg id, c = CallCreate meter t name cfg ∧ r = Some id ∧ holds_in s (KInstrument meter t name id)).
    { intros j c r err Hc Ht. destruct (Hf j c _ Hc Ht) as (g & Hg & Ha). simpl in Ha.
      destruct r as [id|]; [|done]. destruct c; try done. subst g. eauto 10. }
    split.
    + intros j c r err Hc Ht. destruct (Hres j c r err Hc Ht) as (meter & t & name & cfg & id & -> & -> & m & i & Hm & _ & Hi & ? & ? & Hmi).
      specialize (T1 _ _ Hm). rewrite <-Hmi in T1. destruct (meter_heap s !! meter_of i) as [mt|] eqn:Emt; [|done]. injection T1 as T1.
      exists meter, t, name, cfg, id, i, mt. split_and!; done.
    + intros j j' meter t name cfg id err meter' t' name' cfg' id' err' Hc Ht Hc' Ht'.
      destruct (Hres _ _ _ _ Hc Ht) as (? & ? & ? & ? & ? & [= <- <- <- <-] & [= <-] & m & i & Hm & Hk & Hi & Hti & Hni & Hmi).
      destruct (Hres _ _ _ _ Hc' Ht') as (? & ? & ? & ? & ? & [= <- <- <- <-] & [= <-] & m' & i' & Hm' & Hk' & Hi' & Hti' & Hni' & Hmi').
      split; [|intros [= <- <- <-]; congruence].
      intros <-. rewrite Hi in Hi'. injection Hi' as <-. subst t t' name name' m m'.
      specialize (T1 _ _ Hm) as H1. specialize (T1 _ _ Hm') as H2. congruence.
Qed.

(** ** Totals of observable counters *)

(** What the client accepted of a series of an instrument: each increment, with the total
    that was observed. *)
Definition counted (o : nat) (key : Distinct) (ev : event_) : option (float64 * float64) :=
  match ev with
  | EvClient _ _ _ v (Some (o', key', total)) None => if decide (o' = o ∧ key' = key) then Some (v, total) else None
  | _ => None
  end.
Definition accepted (o : nat) (key : Distinct) (h : list event_) : list (float64 * float64) := omap (counted o key) h.

Definition total_of (s : state_) (o : nat) (key : Distinct) : float64 :=
  match get_observable s o with Some (_, ob) => default f_zero (o_totals ob !! key) | None => f_zero end.
Definition locked (s : state_) (o : nat) : bool :=
  match get_observable s o with Some (_, ob) => o_mu ob | None => false end.

(** An integer that a float holds exactly, with room for differences. *)
Definition small (v : float64) : Prop := ∃ z, v = f_of_Z z ∧ Z.abs z < 2 ^ 52.

(** The stages of an observation of a counter. *)
Inductive hold :=
| Free | Locked (o : nat) | Loaded (o : nat) (key : Distinct) (t : float64) | Recorded (o : nat) (key : Distinct) (v : float64).

Definition holds (g : hold) : option nat :=
  match g with Free => None | Locked o | Loaded o _ _ | Recorded o _ _ => Some o end.

Definition opre (B : Type) (e : action B) (g : hold) : Prop :=
  match e with
  | GetInstrument _ _ (ObsInstrument _ ob) => o_mu ob = false ∧ o_totals ob = ∅
  | LockTotals o => g = Free
  | UnlockTotals o => g = Locked o
  | LoadTotal o _ => g = Locked o
  | ClientRecord _ _ _ v _ (Some (o, key, total)) => small total ∧ ∃ t, g = Loaded o key t ∧ v = fsub total t
  | StoreTotal o key v => g = Recorded o key v
  | _ => True
  end.
Definition oadm (B : Type) (e : action B) : B → Prop :=
  match e in action B return B → Prop with
  | CallBack _ _ => λ b, Forall (λ ob, small (float_of (ob_value ob))) (bh_observations b)
  | _ => λ _, True
  end.
Definition onext (B : Type) (e : action B) : B → hold → hold :=
  match e in action B return B → hold → hold with
  | LockTotals o => λ _ _, Locked o
  | UnlockTotals o => λ _ _, Free
  | LoadTotal o key => λ t _, Loaded o key t
  | ClientRecord _ _ _ _ _ (Some (o, key, total)) => λ err _, match err with None => Recorded o key total | Some _ => Locked o end
  | StoreTotal o _ _ => λ _ _, Locked o
  | _ => λ _ g, g
  end.

Lemma orecord_stays o ob ctx v attrs :
  small v → o_kind ob = observableCounter → stays opre oadm onext Free (record_ quote o ob ctx v attrs).
Proof.
  intros Hv Hk. unfold stays, record_, client_Counter. rewrite Hk. simpl. split; [done|]. intros _ _. split; [done|].
  intros total _. split; [by eauto|]. intros [e|] _; simpl; naive_solver.
Qed.

Lemma ostays_basic g B (e : action B) : basic e → opre B e g ∧ ∀ b, onext B e b g = g.
Proof. by destruct e as [| | | | | | |? ? ? ? ? []| | | | | | | | | | | | | | | | | | | | | | |]. Qed.

(** Calls that observe only small integers. *)
Definition observes_small (c : call_) : Prop :=
  match c with CallObserve _ _ _ v _ => small (float_of v) | _ => True end.

Lemma goroutine_observes c : observes_small c → stays opre oadm onext Free (goroutine quote c).
Proof.
  intros Hc. apply (goroutine_stays _ _ _ small _ (ostays_basic _)); try done.
  - apply (invoke_stays _ _ _ small _ (ostays_basic _)); try done. apply orecord_stays.
  - apply orecord_stays.
  - by intros sc ctx inst v attrs ->.
Qed.

Record oinv (s : state_) (gs : list hold) : Prop := {
  oi_enabled : r_disabled (reg s) = false;
  oi_locked : ∀ i g o, gs !! i = Some g → holds g = Some o → locked s o = true;
  oi_alone : ∀ i j g g' o, gs !! i = Some g → gs !! j = Some g' → holds g = Some o → holds g' = Some o → i = j;
  oi_loaded : ∀ i o key t, gs !! i = Some (Loaded o key t) → t = total_of s o key;
  oi_sums : ∀ o key, ∃ z, Z.abs z < 2 ^ 52 ∧
    foldl fadd f_zero (accepted o key (log s)).*1 = f_of_Z z ∧
    default f_zero (list.last (accepted o key (log s)).*2) = f_of_Z z ∧
    (∀ i v, gs !! i = Some (Recorded o key v) → v = f_of_Z z) ∧
    ((∀ i v, gs !! i ≠ Some (Recorded o key v)) → total_of s o key = f_of_Z z) }.

Lemma get_put s o n ob n' ob' o' :
  get_observable s o = Some (n, ob) →
  get_observable (put_observable s o n' ob') o' = if decide (o' = o) then Some (n', ob') else get_observable s o'.
Proof.
  unfold get_observable. simpl. intros Ho. assert (o < length (instruments s))%nat.
  { destruct (instruments s !! o) eqn:E; [by eapply lookup_lt_Some|done]. }
  case_decide as Hd; [subst; by rewrite list_lookup_insert_eq|by rewrite list_lookup_insert_ne].
Qed.

Lemma oinv_same s s' gs :
  r_disabled (reg s') = r_disabled (reg s) → (∀ o, locked s' o = locked s o) →
  (∀ o key, total_of s' o key = total_of s o key) → (∀ o key, accepted o key (log s') = accepted o key (log s)) →
  oinv s gs → oinv s' gs.
Proof.
  intros Hd Hl Ht Ha [I1 I2 I3 I4 I5]. split.
  - congruence.
  - intros i g o. rewrite Hl. apply I2.
  - done.
  - intros i o key t Hi. rewrite Ht. by eapply I4.
  - intros o key. rewrite Ht, Ha. apply I5.
Qed.

(** A new instrument has no totals. *)
Lemma oinv_new s gs m h new :
  (∀ n ob, new = ObsInstrument n ob → o_mu ob = false ∧ o_totals ob = ∅) →
  oinv s gs → oinv (set_instruments (set_meters s m h) (instruments s ++ [new])) gs.
Proof.
  intros Hnew. set (s' := set_instruments _ _).
  assert (Hg : ∀ o, get_observable s' o = get_observable s o ∨
    get_observable s o = None ∧ ∃ n ob, new = ObsInstrument n ob ∧ get_observable s' o = Some (n, ob)).
  { intros o. unfold get_observable. simpl. destruct (Nat.lt_ge_cases o (length (instruments s))).
    - rewrite lookup_app_l by done. auto.
    - rewrite lookup_app_r, (lookup_ge_None_2 (instruments s)) by lia.
      destruct (o - length (instruments s))%nat; simpl; [|auto]. destruct new; [auto|]. right. eauto. }
  apply oinv_same; [done|..|done].
  - intros o. unfold locked. destruct (Hg o) as [->|(-> & n & ob & Hn & ->)]; [done|]. by destruct (Hnew n ob Hn) as [-> _].
  - intros o key. unfold total_of. destruct (Hg o) as [->|(-> & n & ob & Hn & ->)]; [done|].
    destruct (Hnew n ob Hn) as [_ ->]. by rewrite lookup_empty.
Qed.

(** What concerns one instrument, seen from the only goroutine that may hold it. *)
Record olocal (s : state_) (o : nat) (g : hold) : Prop := {
  ol_locked : holds g = Some o → locked s o = true;
  ol_loaded : ∀ key t, g = Loaded o key t → t = total_of s o key;
  ol_sums : ∀ key, ∃ z, Z.abs z < 2 ^ 52 ∧
    foldl fadd f_zero (accepted o key (log s)).*1 = f_of_Z z ∧
    default f_zero (list.last (accepted o key (log s)).*2) = f_of_Z z ∧
    (∀ v, g = Recorded o key v → v = f_of_Z z) ∧
    ((∀ v, g ≠ Recorded o key v) → total_of s o key = f_of_Z z) }.

Lemma oinv_focus s gs i g o :
  oinv s gs → gs !! i = Some g → holds g = Some o ∨ locked s o = false → olocal s o g.
Proof.
  intros [I1 I2 I3 I4 I5] Hi Ho. split.
  - by apply (I2 i).
  - intros key t ->. by apply (I4 i).
  - intros key. destruct (I5 o key) as (z & ? & ? & ? & Hr & Hn). exists z. split_and!; try done.
    + intros v ->. by eapply Hr.
    + intros Hg. apply Hn. intros j v Hj. destruct Ho as [Ho|Ho].
      * assert (i = j) as <- by (by apply (I3 i j g (Recorded o key v) o)). rewrite Hi in Hj. injection Hj as ->. by apply (Hg v).
      * rewrite (I2 j _ o Hj) in Ho by done. done.
Qed.

Lemma oinv_unfocus s s' gs i g g' o :
  oinv s gs → gs !! i = Some g → holds g = Some o ∨ holds g = None ∧ locked s o = false →
  holds g' = None ∨ holds g' = Some o → r_disabled (reg s') = r_disabled (reg s) →
  (∀ o', o' ≠ o → locked s' o' = locked s o' ∧ ∀ key, total_of s' o' key = total_of s o' key ∧ accepted o' key (log s') = accepted o' key (log s)) →
  olocal s' o g' → oinv s' (<[i := g']> gs).
Proof.
  intros [I1 I2 I3 I4 I5] Hi Hg Hg' Hd Hother [L1 L2 L3].
  assert (Hnot : ∀ j gj, i ≠ j → gs !! j = Some gj → holds gj ≠ Some o).
  { intros j gj Hne Hj Hh. destruct Hg as [Hg|[_ Hl]].
    - apply Hne. by eapply I3.
    - by rewrite (I2 j gj o Hj Hh) in Hl. }
  split.
  - congruence.
  - intros j gj o' [(<- & <- & _)|[Hne Hj]]%list_lookup_insert_Some Hh.
    + destruct Hg' as [Hg'|Hg']; [congruence|]. assert (o' = o) as -> by congruence. auto.
    + destruct (Hother o') as [-> _]; [|by eapply I2]. intros ->. by eapply Hnot.
  - intros j j' gj gj' o' [(<- & <- & _)|[Hne Hj]]%list_lookup_insert_Some [(<- & <- & _)|[Hne' Hj']]%list_lookup_insert_Some Hh Hh'; [done|..|by eapply I3].
    + destruct (Hnot j' gj'); [done..|]. destruct Hg'; congruence.
    + destruct (Hnot j gj); [done..|]. destruct Hg'; congruence.
  - intros j o' key t [(<- & -> & _)|[Hne Hj]]%list_lookup_insert_Some.
    + destruct Hg' as [|[= ->]]; [done|]. by apply L2.
    + destruct (Hother o') as [_ Hk]; [intros ->; by eapply Hnot|]. destruct (Hk key) as [-> _]. by eapply I4.
  - intros o' key. destruct (decide (o' = o)) as [->|Hne].
    + destruct (L3 key) as (z & ? & ? & ? & Hr & Hn). exists z. split_and!; try done.
      * intros j v [(<- & -> & _)|[Hne Hj]]%list_lookup_insert_Some; [by apply Hr|]. by destruct (Hnot _ _ Hne Hj).
      * intros Hnone. apply Hn. intros v ->. apply (Hnone i v). apply list_lookup_insert_eq. by eapply lookup_lt_Some.
    + destruct (Hother o' Hne) as [_ Hk]. destruct (Hk key) as [-> ->]. destruct (I5 o' key) as (z & ? & ? & ? & Hr & Hn).
      exists z. split_and!; try done.
      * intros j v [(<- & -> & _)|[Hne' Hj]]%list_lookup_insert_Some; [|by eapply Hr]. simpl in Hg'. destruct Hg'; congruence.
      * intros Hnone. apply Hn. intros j v Hj. apply (Hnone j v). rewrite list_lookup_insert_ne; [done|]. intros <-.
        rewrite Hi in Hj. injection Hj as ->. simpl in Hg. destruct Hg as [Hg|[Hg _]]; congruence.
Qed.

(** The instruments other than the one that is written. *)
Lemma put_others s o n ob ob' o' key :
  get_observable s o = Some (n, ob) → o' ≠ o →
  locked (put_observable s o n ob') o' = locked s o' ∧ total_of (put_observable s o n ob') o' key = total_of s o' key.
Proof. intros Ho Hne. unfold locked, total_of. rewrite (get_put s o n ob) by done. by rewrite decide_False. Qed.

Lemma oinv_put s gs i g g' o n ob ob' :
  oinv s gs → gs !! i = Some g → holds g = Some o ∨ holds g = None ∧ o_mu ob = false → holds g' = None ∨ holds g' = Some o →
  get_observable s o = Some (n, ob) → (olocal s o g → olocal (put_observable s o n ob') o g') →
  oinv (put_observable s o n ob') (<[i := g']> gs).
Proof.
  intros HI Hi Hg Hg' Ho Hl.
  assert (Hg1 : holds g = Some o ∨ holds g = None ∧ locked s o = false) by (unfold locked; rewrite Ho; tauto).
  eapply oinv_unfocus; try done.
  - intros o' Hne. split; [by apply (put_others s o n ob ob' o' (Equivalent []))|]. intros key. split; [|done]. by apply (put_others s o n ob).
  - apply Hl. eapply oinv_focus; [done..|]. tauto.
Qed.

(** The exact sum: the increment of a total brings the sum of the increments to it. *)
Lemma increment_exact z z' : Z.abs z < 2 ^ 52 → Z.abs z' < 2 ^ 52 → fadd (f_of_Z z) (fsub (f_of_Z z') (f_of_Z z)) = f_of_Z z'.
Proof. intros Hz Hz'. rewrite fsub_exact, fadd_exact by lia. f_equal. lia. Qed.

Lemma accepted_snoc o key h ev : accepted o key (h ++ [ev]) = accepted o key h ++ option_list (counted o key ev).
Proof. unfold accepted. rewrite omap_app. simpl. by destruct (counted o key ev). Qed.

Lemma accepted_skip o key h ev : counted o key ev = None → accepted o key (h ++ [ev]) = accepted o key h.
Proof. intros Hc. rewrite accepted_snoc, Hc. apply app_nil_r. Qed.

(** The client accepts or refuses an increment. *)
Lemma oinv_count s gs i typ span name o key t total err :
  oinv s gs → gs !! i = Some (Loaded o key t) → small total →
  oinv (add_log s (EvClient typ span name (fsub total t) (Some (o, key, total)) err))
    (<[i := match err with None => Recorded o key total | Some _ => Locked o end]> gs).
Proof.
  intros HI Hi (zt & -> & Hzt). pose proof (oinv_focus _ _ _ _ o HI Hi (or_introl eq_refl)) as [L1 L2 L3].
  eapply (oinv_unfocus s _ gs i (Loaded o key t) _ o); [done|done|by left|by right; destruct err|done|..].
  - intros o' Hne. split; [done|]. intros key'. split; [done|]. apply accepted_skip. simpl.
    destruct err; [done|]. rewrite decide_False; [done|]. intros [<- _]. done.
  - pose proof (L2 key t eq_refl) as ->. split.
    + intros _. by apply L1.
    + by destruct err.
    + intros key'. destruct (L3 key') as (z & Hz & Hs & Hl & _ & Ht). specialize (Ht ltac:(done)).
      change (total_of (add_log _ _) o key') with (total_of s o key').
      change (log (add_log s ?e)) with (log s ++ [e]).
      destruct err as [e|].
      * exists z. rewrite accepted_skip by done. by split_and!.
      * rewrite accepted_snoc. unfold counted. destruct (decide (o = o ∧ key = key')) as [[_ <-]|Hne].
        -- exists zt. simpl. rewrite !fmap_app, foldl_app. simpl. rewrite last_snoc, Hs, Ht, increment_exact by done.
           split_and!; try done; [by intros v [= ->]|]. intros Hv. by destruct (Hv (f_of_Z zt)).
        -- exists z. simpl. rewrite app_nil_r. split_and!; try done. intros v [= <- <-]. tauto.
Qed.

(** Every action of an allowed stage keeps the invariant. *)
Lemma oinv_step B (e : action B) g s gs i b s' :
  (∀ f b, b ∈ behaviours f → Forall (λ ob, small (float_of (ob_value ob))) (bh_observations b)) →
  gs !! i = Some g → opre B e g → oinv s gs → (b, s') ∈ hd B e s →
  oadm B e b ∧ oinv s' (<[i := onext B e b g]> gs).
Proof.
  intros Hsmall Hi Hpre HI Hin.
  assert (Hsame : r_disabled (reg s') = r_disabled (reg s) → instruments s' = instruments s →
      (∀ o key, accepted o key (log s') = accepted o key (log s)) → onext B e b g = g → oinv s' (<[i := onext B e b g]> gs)).
  { intros Hd Hins Ha ->. rewrite list_insert_id by done. eapply oinv_same; [done|..|done|done];
      intros; unfold locked, total_of, get_observable; by rewrite Hins. }
  assert (Hdis : r_disabled (reg s) = false) by apply HI.
  destruct e; action_cases Hin; simplify_eq; try done;
    try (split; [by eauto|]; apply Hsame; [simpl; congruence|done|intros; first [done|by apply accepted_skip]|done]).
  - split; [done|]. simpl. rewrite (list_insert_id gs) by done. apply oinv_new; [|done].
    intros n ob ->. exact Hpre.
  - split; [done|]. eapply oinv_put; [done..| |by right|done|]; [by right|]. intros [L1 L2 L3].
    split; [intros _; unfold locked; by erewrite get_put, decide_True|done|].
    intros key. destruct (L3 key) as (z & ? & ? & ? & _ & Ht). exists z. split_and!; try done. intros _.
    unfold total_of in *. erewrite get_put, decide_True by done. rewrite Heqo0 in Ht. by apply Ht.
  - split; [done|]. eapply oinv_put; [done..|by left|by left|done|]. intros [L1 L2 L3].
    split; [done|done|]. intros key. destruct (L3 key) as (z & ? & ? & ? & _ & Ht). exists z. split_and!; try done. intros _.
    unfold total_of in *. erewrite get_put, decide_True by done. rewrite Heqo0 in Ht. by apply Ht.
  - split; [done|]. pose proof (oinv_focus _ _ _ _ o HI Hi (or_introl eq_refl)) as [L1 L2 L3].
    eapply oinv_unfocus; [done..|by left|by right|done|done|]. split; [done| |].
    + intros key' t [= -> <-]. unfold total_of. by rewrite Heqo0.
    + intros key'. destruct (L3 key') as (z & ? & ? & ? & _ & Ht). exists z. split_and!; try done. intros _. by apply Ht.
  - split; [done|]. eapply oinv_put; [done..|by left|by right|done|]. intros [L1 L2 L3].
    specialize (L1 eq_refl). unfold locked in L1. rewrite Heqo0 in L1.
    split; [intros _; unfold locked; by erewrite get_put, decide_True|done|].
    intros key'. destruct (L3 key') as (z & ? & ? & ? & Hr & Ht). exists z. split_and!; try done. intros _.
    unfold total_of in *. erewrite get_put, decide_True by done. rewrite Heqo0 in Ht. simpl. destruct (decide (key' = key)) as [->|Hne].
    + rewrite lookup_insert_eq. simpl. by apply Hr.
    + rewrite lookup_insert_ne by done. apply Ht. intros v' [= ?]; congruence.
  - destruct src as [[[o key] total]|]; [|split; [done|]; apply Hsame; [done..|by intros; apply accepted_skip|done]].
    destruct Hpre as (Hv & t & -> & ->). split; [done|]. by apply oinv_count.
  - destruct src as [[[o key] total]|]; [|split; [done|]; apply Hsame; [done..|by intros; apply accepted_skip|done]].
    destruct Hpre as (Hv & t & -> & ->). split; [done|]. by apply oinv_count.
  - destruct src as [[[o key] total]|]; [|split; [done|]; apply Hsame; [done..|by intros; apply accepted_skip|done]].
    destruct Hpre as (Hv & t & -> & ->). split; [done|]. by apply oinv_count.
Qed.

(** C38. Callbacks of an observable counter report totals, the client gets increments:
    however collections, goroutines that observe, refused calls and the provider's
    shutdown interleave, the increments of a series that the client accepted add up, as
    floats, to the total kept for the series, which is the one observed last of those the
    client accepted, for integer totals below 2^52.  An increment that was refused is part
    of the next. *)
Theorem observable_totals cs interval_ ts s o n ob key :
  (∀ f b, b ∈ behaviours f → Forall (λ ob, small (float_of (ob_value ob))) (bh_observations b)) →
  (∀ c, c ∈ cs → observes_small c) →
  reach cs interval_ false (ts, s) →
  get_observable s o = Some (n, ob) → o_mu ob = false →
  foldl fadd f_zero (accepted o key (log s)).*1 = default f_zero (o_totals ob !! key) ∧
  default f_zero (o_totals ob !! key) = default f_zero (list.last (accepted o key (log s)).*2).
Proof.
  intros Hsmall Hcs Hrun Ho Hmu.
  destruct (typestate_reach opre oadm onext (@handler _ behaviours client_errors) no_env oinv (λ _ _ g, g = Free) (goroutine quote)
    cs Free (new_provider interval_ false) ts s) as (gs & [I1 I2 I3 I4 I5] & _); [|done|..|done|].
  - intros B e g s1 gs i b s2 Hi Hp HI Hin. by apply (oinv_step B e g s1).
  - intros c Hc. by apply goroutine_observes, Hcs.
  - split; [done|..].
    + intros i g o' [-> _]%lookup_replicate. done.
    + intros i j g g' o' [-> _]%lookup_replicate. done.
    + intros i o' key' t [? _]%lookup_replicate. done.
    + intros o' key'. exists 0. split_and!; try done. intros i v [? _]%lookup_replicate. done.
  - destruct (I5 o key) as (z & _ & -> & -> & _ & Ht). unfold total_of in Ht. rewrite Ho in Ht. rewrite Ht; [done|].
    intros i v Hi. pose proof (I2 _ _ o Hi eq_refl) as Hl. unfold locked in Hl. rewrite Ho in Hl. congruence.
Qed.

(** ** Collections *)

(** Reading a history: the callbacks registered and not unregistered, in their order, and
    the running collection: begun and with no callback called, or with those it has yet to
    call.  [None]: a step that must not happen.  A collection calls all the callbacks it
    began with, one after the other, or none of them because its context had ended. *)
Inductive phase := Idle | Begun (ids : list Z) | Under (rest : list Z).
Record tracking := mkTracking { tr_live : list Z; tr_phase : phase }.

Definition left_to_call (p : phase) : list Z := match p with Idle => [] | Begun ids => ids | Under rest => rest end.

Definition track (t : option tracking) (ev : event_) : option tracking :=
  t ← t;
  match ev with
  | EvRegister id => if bool_decide (id ∈ tr_live t) then None else Some (mkTracking (tr_live t ++ [id]) (tr_phase t))
  | EvUnregister id => Some (mkTracking (filter (λ x, x ≠ id) (tr_live t)) (tr_phase t))
  | EvCollect ids =>
      match tr_phase t with
      | Idle => if bool_decide (ids = tr_live t) then Some (mkTracking (tr_live t) (Begun ids)) else None
      | _ => None
      end
  | EvSkipped _ => match tr_phase t with Begun _ => Some (mkTracking (tr_live t) (Under [])) | _ => None end
  | EvCall id =>
      match left_to_call (tr_phase t) with
      | x :: rest => if x =? id then Some (mkTracking (tr_live t) (Under rest)) else None
      | [] => None
      end
  | EvCollected =>
      match tr_phase t with
      | Begun [] | Under [] => Some (mkTracking (tr_live t) Idle)
      | _ => None
      end
  | EvClient _ _ _ _ _ _ | EvHandled _ => Some t
  end.
Definition tracked (h : list event_) : option tracking := foldl track (Some (mkTracking [] Idle)) h.

Definition registrations (h : list event_) : Z :=
  zsum (λ ev, match ev with EvRegister _ => 1 | _ => 0 end) h.

Lemma tracked_snoc h ev : tracked (h ++ [ev]) = track (tracked h) ev.
Proof. unfold tracked. by rewrite foldl_app. Qed.
Lemma registrations_snoc h ev : registrations (h ++ [ev]) = registrations h + match ev with EvRegister _ => 1 | _ => 0 end.
Proof. unfold registrations. rewrite zsum_app, zsum_cons. change (zsum _ []) with 0. lia. Qed.
Lemma registrations_nonneg h : 0 ≤ registrations h.
Proof. unfold registrations. induction h as [|ev h IH]; [done|]. rewrite zsum_cons. destruct ev; lia. Qed.

(** The stages of a collection: before it, with the lock, with the callbacks it begins
    with, with callbacks to call. *)
Inductive cstage := Outside | Inside | Starting (ids : list Z) | Calling (rest : list Z).

Definition to_call (g : cstage) : list Z := match g with Starting ids => ids | Calling rest => rest | _ => [] end.
Definition phase_of (g : cstage) : phase := match g with Starting ids => Begun ids | Calling rest => Under rest | _ => Idle end.

Definition cpre (B : Type) (e : action B) (g : cstage) : Prop :=
  match e with
  | LockCollect => g = Outside
  | Snapshot => g = Inside
  | CtxErr _ => ∃ ids, g = Starting ids
  | CallBack id _ => ∃ rest, to_call g = id :: rest
  | UnlockCollect => g = Starting [] ∨ g = Calling []
  | _ => True
  end.
Definition cadm (B : Type) (e : action B) : B → Prop := λ _, True.
Definition cnext (B : Type) (e : action B) : B → cstage → cstage :=
  match e in action B return B → cstage → cstage with
  | LockCollect => λ _ _, Inside
  | Snapshot => λ cs _, Starting (rc_id <$> cs)
  | CtxErr _ => λ err g, match err with Some _ => Calling [] | None => g end
  | CallBack _ _ => λ _ g, Calling (drop 1 (to_call g))
  | UnlockCollect => λ _ _, Outside
  | _ => λ _ g, g
  end.

Notation cfollows := (follows cpre cadm cnext).

Lemma cstays_basic g B (e : action B) : basic e → cpre B e g ∧ ∀ b, cnext B e b g = g.
Proof. by destruct e. Qed.

Lemma crecord_stays g o ob ctx v attrs : True → o_kind ob = observableCounter → stays cpre cadm cnext g (record_ quote o ob ctx v attrs).
Proof.
  intros _ Hk. unfold stays, record_, client_Counter. rewrite Hk. simpl. split; [done|]. intros _ _. split; [done|]. intros total _.
  split; [done|]. intros [e|] _; simpl; naive_solver.
Qed.

Lemma run_callback_calls c ctx g rest :
  to_call g = rc_id c :: rest → cfollows (run_callback quote c ctx) g (λ _ g', g' = Calling rest).
Proof.
  intros Hg. pose proof (λ sc b, observations_stay cpre cadm cnext (λ _, True) (Calling rest) (cstays_basic _) (crecord_stays _) c ctx sc b
    (Forall_true _ _ (λ _, I))) as Hobs.
  unfold run_callback. split; [done|]. intros sc _. specialize (Hobs sc). cbn [cnext].
  destruct (rc_run c) as [cb inst|f allowed]; (split; [by exists rest|]; intros b _; cbn [cnext]; rewrite Hg; exact (Hobs b)).
Qed.

Lemma run_callbacks_call cs ctx g :
  to_call g = rc_id <$> cs → cs ≠ [] ∨ g = Calling [] → cfollows (run_callbacks quote cs ctx) g (λ _ g', g' = Calling []).
Proof.
  revert g. induction cs as [|c cs IH]; intros g Hg Hc; cbn [run_callbacks].
  - destruct Hc as [?| ->]; done.
  - apply typestate_bind. eapply follows_mono; [by apply (run_callback_calls c ctx g (rc_id <$> cs))|]. intros err g' ->.
    apply typestate_bind. eapply follows_mono; [apply IH; [done|]|by intros errs g' ->]. destruct cs; [by right|by left].
Qed.

Lemma invoke_outside ctx : stays cpre cadm cnext Outside (invoke quote ctx).
Proof.
  split; [done|]. intros [] _. split; [done|]. intros cs _. simpl. apply typestate_bind.
  assert (Hend : ∀ (err : option error), cfollows (Act UnlockCollect (λ _, Ret err)) (Calling []) (λ _ g', g' = Outside)).
  { intros err. split; [by right|done]. }
  destruct cs as [|c cs]; [split; [by left|done]|]. split; [eexists; done|]. intros [e|] _; [apply Hend|]. apply typestate_bind.
  eapply follows_mono; [apply (run_callbacks_call (c :: cs)); [done|by left]|]. intros errs g' ->. apply Hend.
Qed.

Lemma goroutine_collects c : stays cpre cadm cnext Outside (goroutine quote c).
Proof.
  apply (goroutine_stays _ _ _ (λ _, True) _ (cstays_basic _)); try done; [apply invoke_outside|apply crecord_stays].
Qed.

(** The registry and a history that is read without fault. *)
Record follows_log (s : state_) (gs : list cstage) (t : tracking) : Prop := {
  fl_next : nextID (reg s) = registrations (log s);
  fl_range : Forall (λ id, 1 ≤ id ≤ nextID (reg s)) (rc_id <$> callbacks (reg s));
  fl_nodup : NoDup (rc_id <$> callbacks (reg s));
  fl_tracked : tracked (log s) = Some t;
  fl_live : tr_live t = rc_id <$> callbacks (reg s);
  fl_phase : ∀ i g, gs !! i = Some g → g ≠ Outside → tr_phase t = phase_of g;
  fl_idle : (∀ i g, gs !! i = Some g → g = Outside) → tr_phase t = Idle }.

Record cinv (s : state_) (gs : list cstage) : Prop := {
  ci_locked : ∀ i g, gs !! i = Some g → g ≠ Outside → collectMu (reg s) = true;
  ci_alone : ∀ i j g g', gs !! i = Some g → gs !! j = Some g' → g ≠ Outside → g' ≠ Outside → i = j;
  ci_log : registrations (log s) < 2 ^ 64 → ∃ t, follows_log s gs t }.

(** Only goroutine [i] is in a collection, before or after; the history is read on. *)
Lemma cinv_move s s' gs i g g' :
  cinv s gs → gs !! i = Some g → g ≠ Outside ∨ collectMu (reg s) = false → (g' ≠ Outside → collectMu (reg s') = true) →
  registrations (log s) ≤ registrations (log s') →
  (∀ t, follows_log s gs t → tr_phase t = phase_of g → registrations (log s') < 2 ^ 64 →
     nextID (reg s') = nextID (reg s) ∧ registrations (log s') = registrations (log s) ∧ callbacks (reg s') = callbacks (reg s) ∧
     ∃ t', tracked (log s') = Some t' ∧ tr_live t' = tr_live t ∧ tr_phase t' = phase_of g') →
  cinv s' (<[i := g']> gs).
Proof.
  intros [C1 C2 C3] Hi Hg Hg' Hr Hlog.
  assert (Hnot : ∀ j gj, i ≠ j → gs !! j = Some gj → gj = Outside).
  { intros j gj Hne Hj. destruct gj; [done|..]; exfalso; (destruct Hg as [Hg|Hg];
      [apply Hne; by eapply C2|by rewrite (C1 j _ Hj) in Hg]). }
  assert (Hat : <[i := g']> gs !! i = Some g') by (apply list_lookup_insert_eq; by eapply lookup_lt_Some).
  split.
  - intros j gj [(<- & <- & _)|[Hne Hj]]%list_lookup_insert_Some Hne'; [auto|]. by destruct Hne', (Hnot j gj).
  - intros j j' gj gj' [(<- & <- & _)|[Hne Hj]]%list_lookup_insert_Some [(<- & <- & _)|[Hne' Hj']]%list_lookup_insert_Some H1 H2; [done|..].
    + by destruct H2, (Hnot j' gj').
    + by destruct H1, (Hnot j gj).
    + by destruct H1, (Hnot j gj).
  - intros Hlt. destruct C3 as [t [F1 F2 F3 F4 F5 F6 F7]]; [lia|].
    assert (Hph : tr_phase t = phase_of g).
    { destruct g; [|by eapply F6..]. apply F7. intros j gj Hj. destruct (decide (i = j)) as [<-|Hne]; [congruence|by apply (Hnot j)]. }
    destruct (Hlog t) as (Hn & Hrr & Hc & t' & Ht' & Hl & Hrun); [done..|].
    exists t'. split; rewrite ?Hn, ?Hrr, ?Hc; try done; [congruence|..].
    + intros j gj [(<- & <- & _)|[Hne Hj]]%list_lookup_insert_Some Hout; [done|]. by destruct Hout, (Hnot j gj).
    + intros Hall. rewrite Hrun. by rewrite (Hall i g' Hat).
Qed.

(** An action that leaves the stages and the registry as they are. *)
Lemma cinv_same s s' gs :
  collectMu (reg s') = collectMu (reg s) → nextID (reg s') = nextID (reg s) → callbacks (reg s') = callbacks (reg s) →
  tracked (log s') = tracked (log s) → registrations (log s') = registrations (log s) → cinv s gs → cinv s' gs.
Proof.
  intros H1 H2 H3 H4 H5 [C1 C2 C3]. split; [by rewrite H1|done|]. rewrite H5. intros Hlt. destruct (C3 Hlt) as [t [F1 F2 F3 F4 F5 F6 F7]].
  exists t. split; rewrite ?H2, ?H3, ?H4, ?H5; done.
Qed.

Lemma cinv_register s gs cb id r :
  id = u64 (nextID (reg s) + 1) → callbacks r = callbacks (reg s) ++ [mkRegistered id cb] → nextID r = id → collectMu r = collectMu (reg s) →
  cinv s gs → cinv (add_log (set_reg s r) (EvRegister id)) gs.
Proof.
  intros Hid Hc Hn Hmu [C1 C2 C3]. split; [simpl; by rewrite Hmu|done|]. simpl. rewrite registrations_snoc. intros Hlt.
  destruct C3 as [t [F1 F2 F3 F4 F5 F6 F7]]; [lia|]. pose proof (registrations_nonneg (log s)).
  rewrite u64_small in Hid by lia.
  assert (Hfresh : id ∉ rc_id <$> callbacks (reg s)).
  { intros Hin. rewrite Forall_forall in F2. specialize (F2 id Hin). lia. }
  exists (mkTracking (tr_live t ++ [id]) (tr_phase t)). split; simpl.
  - rewrite registrations_snoc. lia.
  - rewrite Hc, Hn, fmap_app. apply Forall_app. split; [|constructor; [simpl; lia|constructor]].
    eapply Forall_impl; [exact F2|]. simpl. lia.
  - rewrite Hc, fmap_app. apply NoDup_app. split_and!; [done| |apply NoDup_singleton].
    intros x Hx Hx'. apply list_elem_of_singleton in Hx' as ->. by apply Hfresh.
  - rewrite tracked_snoc, F4. simpl. rewrite bool_decide_eq_false_2; [done|]. by rewrite F5.
  - by rewrite F5, Hc, fmap_app.
  - done.
  - done.
Qed.

Lemma filter_absent (id : Z) (l : list Z) : id ∉ l → filter (λ x, x ≠ id) l = l.
Proof.
  induction l as [|x l IH]; [done|]. intros [Hx Hl]%not_elem_of_cons. rewrite filter_cons, decide_True by done. by rewrite IH.
Qed.

Lemma remove_callback_ids id l : NoDup (rc_id <$> l) → rc_id <$> remove_callback id l = filter (λ x, x ≠ id) (rc_id <$> l).
Proof.
  induction l as [|c l IH]; csimpl; [done|]. intros [Hc Hl]%NoDup_cons. rewrite filter_cons.
  destruct (Z.eqb_spec (rc_id c) id) as [<-|Hne].
  - rewrite decide_False by tauto. by rewrite filter_absent.
  - rewrite decide_True by done. csimpl. by rewrite IH.
Qed.

Lemma cinv_unregister s gs id f r :
  callbacks r = remove_callback id (callbacks (reg s)) → nextID r = nextID (reg s) → collectMu r = collectMu (reg s) →
  cinv s gs → cinv (add_log (set_fired (set_reg s r) f) (EvUnregister id)) gs.
Proof.
  intros Hc Hn Hmu [C1 C2 C3]. split; [simpl; by rewrite Hmu|done|]. simpl. rewrite registrations_snoc, Z.add_0_r. intros Hlt.
  destruct (C3 Hlt) as [t [F1 F2 F3 F4 F5 F6 F7]]. pose proof (remove_callback_ids id _ F3) as Hids.
  exists (mkTracking (filter (λ x, x ≠ id) (tr_live t)) (tr_phase t)). split; simpl; rewrite ?Hc, ?Hn, ?Hids.
  - rewrite registrations_snoc. lia.
  - apply Forall_forall. intros x [_ Hx]%list_elem_of_filter. by rewrite Forall_forall in F2; apply F2.
  - by apply NoDup_filter.
  - by rewrite tracked_snoc, F4.
  - by rewrite F5.
  - done.
  - done.
Qed.

Lemma cinv_step B (e : action B) g s gs i b s' :
  gs !! i = Some g → cpre B e g → cinv s gs → (b, s') ∈ hd B e s → cadm B e b ∧ cinv s' (<[i := cnext B e b g]> gs).
Proof.
  intros Hi Hpre HI Hin. split; [done|].
  assert (Hsame : collectMu (reg s') = collectMu (reg s) → nextID (reg s') = nextID (reg s) → callbacks (reg s') = callbacks (reg s) →
    tracked (log s') = tracked (log s) → registrations (log s') = registrations (log s) → cnext B e b g = g → cinv s' (<[i := cnext B e b g]> gs)).
  { intros H1 H2 H3 H4 H5 ->. rewrite list_insert_id by done. by apply (cinv_same s). }
  assert (Hskip : ∀ ev, s' = add_log s ev → (∀ t, track t ev = t) → match ev with EvRegister _ => False | _ => True end →
    cnext B e b g = g → cinv s' (<[i := cnext B e b g]> gs)).
  { intros ev -> Ht Hev Hn. apply Hsame; try done; simpl; [by rewrite tracked_snoc|]. rewrite registrations_snoc. destruct ev; [lia|done|lia..]. }
  assert (Hended : ∀ ctx l, s' = add_log (set_ended s l) (EvSkipped ctx) → (∃ ids, g = Starting ids) → cnext B e b g = Calling [] →
    cinv s' (<[i := cnext B e b g]> gs)).
  { intros ctx l -> [ids ->] ->. apply (cinv_move s _ gs i (Starting ids)); try done; [by left| |simpl; rewrite registrations_snoc; lia|].
    - intros _. by apply (ci_locked _ _ HI i (Starting ids)).
    - intros t [F1 F2 F3 F4 F5 F6 F7] Hph _. simpl. rewrite registrations_snoc, Z.add_0_r. split_and!; try done.
      rewrite tracked_snoc, F4. simpl. rewrite Hph. simpl. eexists. by split_and!. }
  assert (Hunlock : s' = add_log (set_reg s (set_collectMu (reg s) false)) EvCollected → g = Starting [] ∨ g = Calling [] →
    cnext B e b g = Outside → cinv s' (<[i := cnext B e b g]> gs)).
  { intros -> Hg ->. apply (cinv_move s _ gs i g); try done; [left; naive_solver|simpl; rewrite registrations_snoc; lia|].
    intros t [F1 F2 F3 F4 F5 F6 F7] Hph _. simpl. rewrite registrations_snoc, Z.add_0_r. split_and!; try done.
    rewrite tracked_snoc, F4. simpl. rewrite Hph. destruct Hg as [->| ->]; simpl; eexists; by split_and!. }
  destruct e; action_cases Hin; simplify_eq; try done; try (by apply Hsame); try (by eapply Hskip; [done|intros []| |]).
  - simpl. rewrite list_insert_id by done. by apply (cinv_register s gs cb).
  - simpl. rewrite list_insert_id by done. by apply cinv_unregister.
  - apply (cinv_move s _ gs i Outside); try done; [by right|].
    intros t [F1 F2 F3 F4 F5 F6 F7] Hph _. split_and!; try done. exists t. by split_and!.
  - apply Hunlock; by auto.
  - apply Hunlock; by auto.
  - apply (cinv_move s _ gs i Inside); try done; [by left| |simpl; rewrite registrations_snoc; lia|].
    + intros _. by apply (ci_locked _ _ HI i Inside).
    + intros t [F1 F2 F3 F4 F5 F6 F7] Hph _. simpl. rewrite registrations_snoc, Z.add_0_r. split_and!; try done.
      rewrite tracked_snoc, F4. simpl. rewrite Hph. simpl. rewrite bool_decide_eq_true_2 by done. eexists. by split_and!.
  - by eapply Hended.
  - by eapply Hended.
  - destruct Hpre as [rest Hg]. assert (g ≠ Outside) by (by intros ->).
    apply (cinv_move s _ gs i g); try done; [by left| |simpl; rewrite registrations_snoc; lia|].
    + intros _. by apply (ci_locked _ _ HI i g).
    + intros t [F1 F2 F3 F4 F5 F6 F7] Hph _. simpl. rewrite registrations_snoc, Z.add_0_r. split_and!; try done.
      rewrite tracked_snoc, F4. simpl. rewrite Hph. replace (left_to_call (phase_of g)) with (to_call g) by (by destruct g).
      rewrite Hg, Z.eqb_refl. eexists. by split_and!.
Qed.

(** Only a context that has ended skips the callbacks. *)
Lemma skipped_ended cs interval_ disabled_ ts s ctx :
  reach cs interval_ disabled_ (ts, s) → EvSkipped ctx ∈ log s → ctx ∈ ended s.
Proof.
  intros Hrun. revert ctx.
  destruct (pool_invariant (@handler _ behaviours client_errors) no_env (λ (p : prog action answer_) (_ : ()), True)
    (λ s _, ∀ ctx, EvSkipped ctx ∈ log s → ctx ∈ ended s))
    with (c := (goroutine quote <$> cs, new_provider interval_ disabled_)) (c' := (ts, s)) as (gs & _ & Hs).
  - intros B e k g s1 gs i b s2 _ _ Hl Hin. exists (). split; [done|].
    destruct e; action_cases Hin; simplify_eq; try done; intros ctx'; simpl;
      try (intros [?|[=]%list_elem_of_singleton]%elem_of_app; by auto).
    + intros [?|[= ->]%list_elem_of_singleton]%elem_of_app; [by auto|by eapply bool_decide_eq_true_1].
    + intros [?|[= ->]%list_elem_of_singleton]%elem_of_app; [right; by auto|left].
    + intros Hev. right. by apply Hl.
    + intros Hev. right. by apply Hl.
  - done.
  - done.
  - exists (const () <$> cs). split; [|by intros ctx ?%not_elem_of_nil]. simpl. rewrite Forall2_fmap. by apply Forall_Forall2_diag, Forall_true.
  - exact Hs.
Qed.

(** C39. However goroutines register and unregister callbacks, flush, shut down and run the
    periodic loop, as long as fewer than 2^64 callbacks have been registered: collections
    come one after the other, each calls every callback that is registered and not
    unregistered when it begins exactly once, in the order of their registration and whatever
    errors the callbacks return, before it ends, or none of them when its context has ended
    before the first, and no callback is called outside of a collection. *)
Theorem collections_serial cs interval_ disabled_ ts s :
  reach cs interval_ disabled_ (ts, s) → registrations (log s) < 2 ^ 64 →
  ∃ t, tracked (log s) = Some t ∧ tr_live t = rc_id <$> callbacks (reg s) ∧ (collectMu (reg s) = false → tr_phase t = Idle)
  ∧ ∀ ctx, EvSkipped ctx ∈ log s → ctx ∈ ended s.
Proof.
  intros Hrun Hlt.
  destruct (typestate_reach cpre cadm cnext (@handler _ behaviours client_errors) no_env cinv (λ _ _ g, g = Outside) (goroutine quote)
    cs Outside (new_provider interval_ disabled_) ts s) as (gs & [C1 C2 C3] & _); [|done|..|done|].
  - intros B e g s1 gs i b s2. apply cinv_step.
  - intros c _. apply goroutine_collects.
  - split.
    + intros i g [-> _]%lookup_replicate. done.
    + intros i j g g' [-> _]%lookup_replicate. done.
    + intros _. exists (mkTracking [] Idle). split; try done; [by apply NoDup_nil|]. intros i g [-> _]%lookup_replicate. done.
  - destruct (C3 Hlt) as [t [F1 F2 F3 F4 F5 F6 F7]]. exists t. split_and!; try done; [|intros ctx; by eapply skipped_ended].
    intros Hmu. apply F7. intros i g Hi. destruct g; [done|..]; by rewrite (C1 i _ Hi) in Hmu.
Qed.

Definition quiet (ev : event_) : Prop := match ev with EvClient _ _ _ _ _ _ | EvRegister _ => False | _ => True end.

(** A disabled provider registers no callback and calls no client. *)
Theorem disabled_silent cs interval_ ts s :
  reach cs interval_ true (ts, s) →
  Forall quiet (log s) ∧ callbacks (reg s) = [].
Proof.
  intros Hrun.
  assert (Hinv : r_disabled (reg s) = true ∧ callbacks (reg s) = [] ∧
    Forall quiet (log s)); [|tauto].
  destruct (pool_invariant (@handler _ behaviours client_errors) no_env (λ (p : prog action answer_) (_ : ()), True) (λ s _, r_disabled (reg s) = true ∧ callbacks (reg s) = [] ∧
    Forall quiet (log s)))
    with (c := (goroutine quote <$> cs, new_provider interval_ true)) (c' := (ts, s)) as (gs & _ & Hs).
  - intros B e k g s1 gs i b s2 _ _ (Hd & Hc & Hl) Hin. exists (). split; [done|].
    assert (Hsnoc : ∀ ev, quiet ev →
      Forall quiet (log s1 ++ [ev])).
    { intros ev Hev. apply Forall_app. split; [done|]. by constructor. }
    destruct e; action_cases Hin; simplify_eq; simpl; rewrite ?Hc; split_and!; try done; by apply Hsnoc.
  - done.
  - done.
  - exists (const () <$> cs). split; [|done]. simpl. rewrite Forall2_fmap. by apply Forall_Forall2_diag, Forall_true.
  - exact Hs.
Qed.
End bridge.

(** ** A run

    An observable counter whose callback always observes 5 is collected by two flushes,
    and a goroutine that kept its observer observes 9; then the counter is asked for again,
    and a synchronous counter of the same name. *)
#[local] Existing Instance toy_attributes.
Definition demo_behaviours (f : nat) : list behaviour := [mkBehaviour [mkObservation (Own 0) (NInt 5) []] None].
Definition demo_config : iconfig := mkIConfig [] [] [Some 0%nat].
Definition demo_calls : list call_ :=
  [CallCreate (str "m") (Obs observableCounter Int64) (str "c") demo_config;
   CallForceFlush Background; CallForceFlush Background;
   CallObserve 0 Background 0 (NInt 9) [];
   CallCreate (str "m") (Obs observableCounter Int64) (str "c") demo_config;
   CallCreate (str "m") (Sync KCounter Int64) (str "c") demo_config].
Definition demo_order : list nat :=
  replicate 3 0%nat ++ replicate 15 1%nat ++ replicate 15 2%nat ++ replicate 6 3%nat ++ replicate 2 4%nat ++ replicate 2 5%nat.

Definition answer_at (ts : list (prog action answer_)) (j : nat) : option (option nat) :=
  match ts !! j with Some (Ret (GotInstrument r _)) => Some r | _ => None end.
Definition ended_ (p : prog action answer_) : bool := match p with Ret _ => true | _ => false end.

Notation demo_steps := (gsteps (@handler _ demo_behaviours []) no_env (goroutine id <$> demo_calls, new_provider 10 false)).

Lemma answer_at_spec ts j r : answer_at ts j = Some r → ∃ err, ts !! j = Some (Ret (GotInstrument r err)).
Proof. unfold answer_at. repeat case_match; naive_solver. Qed.

(** What is seen of the run: the instruments returned, whether the counter is unlocked, its
    total, and how the history reads. *)
Definition demo_seen (c : list (prog action answer_) * state_) :
    (option (option nat) * option (option nat) * option (option nat)) * (option bool * float64) * (option tracking * Z) :=
  (answer_at c.1 0, answer_at c.1 4, answer_at c.1 5,
   (o_mu ∘ snd <$> get_observable c.2 0, total_of c.2 0 (Equivalent [])),
   (tracked (log c.2), registrations (log c.2))).

Lemma bridge_demo_run : ∃ ts s, demo_steps (ts, s) ∧
  demo_seen (ts, s) = (Some (Some 0%nat), Some (Some 0%nat), Some (Some 1%nat), (Some false, f_of_Z 9), (Some (mkTracking [1] Idle), 1)).
Proof.
  assert (Hr : demo_seen <$> sched (@handler _ demo_behaviours []) demo_order (goroutine id <$> demo_calls, new_provider 10 false)
    = Some (Some (Some 0%nat), Some (Some 0%nat), Some (Some 1%nat), (Some false, f_of_Z 9), (Some (mkTracking [1] Idle), 1)))
    by (vm_compute; reflexivity).
  destruct (sched_observes _ no_env _ _ _ _ Hr) as ([ts s] & Hs & Hv). eauto.
Qed.

Lemma instrument_types_witness :
  ∃ ts s, demo_steps (ts, s) ∧ answer_at ts 0 = answer_at ts 4 ∧ answer_at ts 0 ≠ answer_at ts 5 ∧
    type_of <$> instruments s !! 0%nat = Some (Obs observableCounter Int64) ∧ type_of <$> instruments s !! 1%nat = Some (Sync KCounter Int64).
Proof.
  destruct bridge_demo_run as (ts & s & Hs & Hv). injection Hv as H0 H4 H5 _ _ _ _. exists ts, s.
  destruct (instrument_types id demo_behaviours [] demo_calls 10 false ts s Hs) as [Ht _].
  split_and!; [exact Hs|congruence|congruence|..].
  - destruct (answer_at_spec _ _ _ H0) as [err H0'].
    destruct (Ht 0%nat _ _ _ eq_refl H0') as (? & ? & ? & ? & ? & i & ? & [= <- <- <- <-] & [= <-] & Hi & Hti & _).
    by rewrite Hi, <-Hti.
  - destruct (answer_at_spec _ _ _ H5) as [err H5'].
    destruct (Ht 5%nat _ _ _ eq_refl H5') as (? & ? & ? & ? & ? & i & ? & [= <- <- <- <-] & [= <-] & Hi & Hti & _).
    by rewrite Hi, <-Hti.
Defined.

Lemma observable_totals_witness :
  ∃ ts s, demo_steps (ts, s) ∧ foldl fadd f_zero (accepted 0 (Equivalent []) (log s)).*1 = f_of_Z 9.
Proof.
  destruct bridge_demo_run as (ts & s & Hs & Hv). injection Hv as _ _ _ Hmu Htot _ _. exists ts, s. split; [exact Hs|].
  unfold total_of in Htot. destruct (get_observable s 0) as [[n ob]|] eqn:Ho; [|done]. injection Hmu as Hmu.
  destruct (observable_totals id demo_behaviours [] demo_calls 10 ts s 0 n ob (Equivalent [])) as [-> _]; [..|exact Htot].
  - intros f b [= ->]%list_elem_of_singleton. repeat constructor. by exists 5.
  - intros c Hc. unfold demo_calls in Hc. set_unfold. destruct Hc as [->|[->|[->|[->|[->|[->|[]]]]]]]; try done. by exists 9.
  - exact Hs.
  - exact Ho.
  - exact Hmu.
Defined.

(** Two callbacks, the first of which fails, and a flush. *)
Definition failing_behaviours (f : nat) : list behaviour := [mkBehaviour [] (if Nat.eqb f 0 then Some (ErrExt 1) else None)].
Definition failing_calls : list call_ :=
  [CallCreate (str "m") (Obs observableGauge Int64) (str "g") (mkIConfig [] [] [Some 0%nat; Some 1%nat]); CallForceFlush Background].
Notation failing_steps := (gsteps (@handler _ failing_behaviours []) no_env (goroutine id <$> failing_calls, new_provider 10 false)).

Definition called (h : list event_) : list Z := omap (λ ev, match ev with EvCall id => Some id | _ => None end) h.
Definition failing_seen (c : list (prog action answer_) * state_) : list Z * Z * bool :=
  (called (log c.2), registrations (log c.2), collectMu (reg c.2)).

Lemma collections_serial_witness :
  ∃ ts s t, failing_steps (ts, s) ∧ called (log s) = [1; 2] ∧ tracked (log s) = Some t ∧ tr_phase t = Idle.
Proof.
  assert (Hr : failing_seen <$> sched (@handler _ failing_behaviours []) (replicate 4 0%nat ++ replicate 12 1%nat)
      (goroutine id <$> failing_calls, new_provider 10 false) = Some ([1; 2], 2, false)) by (vm_compute; reflexivity).
  destruct (sched_observes _ no_env _ _ _ _ Hr) as ([ts s] & Hs & Hv). injection Hv as Hc Hreg Hmu.
  destruct (collections_serial id failing_behaviours [] failing_calls 10 false ts s Hs) as (t & Ht & _ & Hidle & _); [rewrite Hreg; done|].
  exists ts, s, t. split_and!; [exact Hs|exact Hc|exact Ht|exact (Hidle Hmu)].
Defined.
